(* ===== verification/_CoqProject ===== *)
-Q . S2P
Prelude.v
HashString.v
PluralExp.v
PluralParse.v
PluralGrammar.v
PluralCorrect.v
PluralSound.v
PluralExtract.v
Bignum.v
BignumDivide.v
Decimal.v
PrintfParse.v
PrintfParseSpec.v
Vasnprintf.v
VasnprintfSpec.v
VasnprintfOutput.v
Snprintf.v
VasnprintfTheorems.v
FloatText.v
FloatDigits.v
FloatTextSpec.v
Printf.v
LocaleName.v
LocalePlatform.v
LocalePlatformSpec.v
LocaleAlias.v
LocaleAliasSpec.v
L10nFlist.v
L10nFlistSpec.v
Catalog.v
CatalogSpec.v
CatalogFind.v
CatalogLoad.v
Convert.v
Converter.v
ConvertSpec.v
ConvertTheorems.v
ConvertDriver.v
Bindings.v
BindingsSpec.v
FindDomain.v
FindDomainSpec.v
SearchTable.v
Tsearch.v
TsearchSpec.v
TsearchInsert.v
TsearchOps.v
Tdelete.v
TdeleteSpec.v
LocaleAliasTable.v
Lock.v
LockTheorems.v
PlainLock.v
RwLock.v
RwLockSpec.v
RwLockTheorems.v
PosixRecursive.v
PosixInit.v
PosixLock.v
PosixLockTheorems.v
SetLocale.v
SetLocaleSpec.v
NewLocaleSpec.v
LangPrefs.v
LangPrefsSpec.v
Struniq.v
StruniqSpec.v
Log.v
LogSpec.v
LocalCharset.v
LocalCharsetSpec.v
Relocatable.v
RelocatableSpec.v
Gettext.v
GettextSpec.v
GettextDriver.v
GettextTheorems.v
GettextThreads.v
Entry.v
GettextConvert.v
