(* ===== verification/Prelude.v ===== *)
(** * A verification library for the gettext run-time library (libintl)

    The repository packages a Go web shell together with the run-time
    environment it is deployed with; the C program in it is GNU libintl, in
    src/.apt/usr/share/gettext/intl/ (file names below are relative to that
    directory).  libintl translates the messages of a program: an application
    binds a message domain to a directory, and for each message the library
    derives file names from the locale, loads message catalogs (.mo files), looks
    the message up, evaluates the plural formula of the catalog, converts the
    translation to the character set of the user, and formats the result with its own
    printf.

    ** Parts and files

    - Prelude: tactics, w-bit arithmetic ([wrapw]), C strings (lists of bytes
      before the NUL; a pointer is the suffix it addresses), [strcmp] as an
      order, splitting of lists, exhaustive checks of aligned ranges.
    - HashString (hash-string.c): the string hash of catalogs, for every width
      of [unsigned long].
    - PluralExp (plural-exp.c, eval-plural.h, constructors of plural.y):
      expression trees, their construction under allocation failure, evaluation.
    - PluralParse (plural.c): the scanner, the LALR tables and the table-driven
      parser; PluralGrammar: the precedence grammar of plural.y as relations;
      PluralCorrect, PluralSound: the parser accepts exactly that grammar.
      PluralExtract (plural-exp.c): the Plural-Forms header; printing of formulas.
    - Bignum, BignumDivide, Decimal (vasnprintf.c): multiplication, Knuth's
      division with rounding, conversion to decimal, scaled decimal digits.
    - PrintfParse (printf-parse.c, printf-args.c, xsize.h) and PrintfParseSpec:
      the parser of format strings and the fetching of arguments.
    - Vasnprintf (the output loop of vasnprintf.c): the accumulation of the output in the caller's
      buffer or on the heap, wide strings, the construction of the directive for snprintf() and the
      loop around it; VasnprintfSpec: triples for its monad; VasnprintfOutput: what one
      directive adds; Snprintf: the printf() of ISO C and POSIX as a specification that reads formats by itself, and a
      concrete snprintf(); VasnprintfTheorems: the whole function, and that it prints what this specification
      says; Printf (printf.c): the functions that programs call.
    - FloatText (vasnprintf.c): the arithmetic of floating-point numbers, decode_double(), floorlog10(), the same for long
      double, and the directives f, e and g where the C library's are not used; FloatDigits: the digits and the exponent are
      right; FloatTextSpec: the text that ISO C prescribes, and that the directives print it.
    - LocaleName (explodename.c, _nl_normalize_codeset): the parts of a locale
      name, split in place in a byte buffer.
    - LocaleAlias (localealias.c): the reading of locale.alias files, the pool of their
      strings and the table that is sorted and searched; LocaleAliasSpec,
      LocaleAliasTable: its theorems.
    - L10nFlist (l10nflist.c) and L10nFlistSpec: the sorted pool of catalog
      files with the inheritance links between them.
    - Catalog (gmo.h, loadmsgcat.c, lookup of dcigettext.c): the .mo format,
      loading with system dependent strings, hash table and binary search, choice
      of the plural form; CatalogSpec, CatalogFind, CatalogLoad: its theorems.
    - Convert (the second half of _nl_find_msg, get_output_charset): translations in
      another character set, the descriptors of a domain, the cache of converted strings and
      the blocks of memory they are in; ConvertSpec, ConvertTheorems.
    - Converter: the interface of the driver to the conversion, with the instance of a library
      without iconv(); ConvertDriver: the instance with it.
    - Bindings (bindtextdom.c, textdomain.c) and BindingsSpec: the bindings of
      domains and the current domain.
    - FindDomain (finddomain.c) and FindDomainSpec: from a locale name to the entry of
      the pool with its catalog and those it falls back to.
    - SearchTable: the interface of the cache of translations; Tsearch (tsearch.c),
      TsearchSpec, TsearchInsert, TsearchOps: red-black trees with pointers to
      pointers that implement it; Tdelete, TdeleteSpec: deletion and the walk.
    - Gettext (DCIGETTEXT of dcigettext.c): the driver, with the log of messages that have no
      translation; GettextSpec, GettextDriver, GettextTheorems: what it returns, and its invariant.
    - Entry (gettext.c, dgettext.c, dcgettext.c, ngettext.c, dngettext.c, dcngettext.c,
      intl-compat.c): the functions an application calls; programs as sequences of calls.
      GettextConvert: gettext() with iconv().
    - LocalePlatform (the parts of localename.c for Unix and Mac OS X, guess_category_value of
      dcigettext.c) and LocalePlatformSpec: names of locales from the environment and from
      system names; Struniq, StruniqSpec: the table of unique strings of localename.c.
    - SetLocale (setlocale.c), SetLocaleSpec, NewLocaleSpec: libintl_setlocale() and
      libintl_newlocale(), which try names of a locale in turn.
    - LangPrefs (langprefs.c), LangPrefsSpec: the preferred languages of Mac OS X and Windows.
    - LocalCharset (localcharset.c), LocalCharsetSpec: the canonical name of the encoding and
      the table read from charset.alias; the whole of locale_charset() on each system, with
      nl_langinfo(), the environment or code pages.
    - Relocatable (relocatable.c), RelocatableSpec: the translation of path names of an
      installation that was moved; how a library finds its own file in /proc/self/maps or is told
      by Windows, and relocate() with this.
    - Log (log.c), LogSpec: the log of untranslated messages.
    - Lock, LockTheorems, PlainLock, RwLock, RwLockSpec, RwLockTheorems (lock.c, lock.h): the locks
      the library implements itself, for Windows threads: the guard that initializes
      a lock, once-only execution, the recursive, the plain and the read-write lock.
    - PosixLock, PosixLockTheorems, PosixInit, PosixRecursive (lock.c, lock.h): those for POSIX and Solaris
      threads: the read-write lock made of a mutex and condition variables, initialization on
      first use, the recursive lock made of a plain mutex, once-only execution of Solaris threads.
    - GettextThreads: several threads at the same entry of the cache of translations.

    How they interact: [DCIGETTEXT] (Gettext) takes the directory from the bindings
    (Bindings) and looks into the cache (SearchTable, Tsearch); if the message is not there it
    goes through the list of languages.  For each, [_nl_find_domain] (FindDomain) expands an
    alias (LocaleAlias), splits the name with [_nl_explode_name] (LocaleName), whose
    mask drives [_nl_make_l10nflist] (L10nFlist), and loads the entries of the
    pool with [_nl_load_domain] (Catalog) into domains that store the hash table
    (HashString) and the plural formula ([EXTRACT_PLURAL_EXPRESSION], which runs
    [yyparse]).  [_nl_find_msg] searches the domain and its successors, Convert is what
    follows in it if the character sets differ, and [plural_lookup]
    evaluates the formula ([plural_eval]) to choose a form.  The functions of Entry call
    [DCIGETTEXT], [BINDTEXTDOMAIN] and [TEXTDOMAIN]; what they store is the state every later call
    starts from.  A message without translation goes to [_nl_log_untranslated] (Log).  The name of the locale the driver starts from is LocalePlatform's, the list
    of languages LangPrefs's, the encoding the catalogs are converted to LocalCharset's; file
    names go through Relocatable.

    Components that are used through an interface: the driver is proved against the class
    [SearchTable] with [SearchTableLaws], which TsearchOps discharges for the trees, and against
    [Converter] with [ConverterLaws], which Converter discharges for a library without iconv() and
    ConvertDriver, from the laws of iconv(), for one with it;
    FindDomain takes aliases from the class [AliasTable], whose instance is
    [file_alias_table] of LocaleAliasTable; LocaleAlias sorts and searches with a
    class [SortSearch] for qsort() and bsearch() with [SortSearchLaws], Convert converts with
    the class [IConv] and laws of iconv(), SetLocale calls the C library's setlocale() and
    newlocale() through [LocaleLibrary] and [NewLocaleLibrary], whose laws say that a call that
    fails changes nothing and what a query returns; Vasnprintf calls snprintf() and wcrtomb() through
    [Snprintf] and [Wcrtomb], whose laws say that a directive has one output, of which what
    fits is stored, and ([IsoSnprintf]) that it is the one of the standards; all have concrete instances in the witnesses.

    ** Conventions

    State is passed explicitly, one record per structure of the source, with the
    fields of the source.  Errors are values: [None], or a constructor of an
    outcome type.  Memory allocation is an oracle, [mal], consulted with the
    number (and where it matters the size) of the allocation, so that theorems hold
    for every pattern of failures; freshly allocated memory has arbitrary
    contents where the code could depend on it (Bignum, RwLock).  What the source leaves
    undefined is an outcome of its own ([Undef] in Catalog, [None] in
    plural evaluation for a division by zero, [FetchUndefined], [Crash] in Lock and
    RwLock, [None] for abort() and null pointers in SetLocale).  Integers are
    [Z], reduced with [wrapw] where the C type wraps; the platform is LP64,
    little-endian, glibc; hash and plural evaluation are for any width.  In the models of
    locks the threads take turns, in Lock, PlainLock, PosixInit and PosixRecursive (and in GettextThreads and
    Struniq) at every access to a shared variable,
    in RwLock and PosixLock at every critical section, and the theorems are for every
    sequence of turns.  The other parts are single-threaded.

    Fuel: [yyparse] runs with fuel linear in the input, and [yyparse_total] shows
    that it is enough; [PRINTF_PARSE] uses one unit per character
    ([PRINTF_PARSE_total]); [_nl_make_l10nflist] is called with fuel above 16, the
    greatest mask plus one for a list of directories ([make_l10nflist_correct]);
    a probe of a hash table uses [hash_size + 1] steps, after which the slots
    repeat, so that running out of fuel is the endless loop of the C code
    (for tables of prime size with an empty slot it does not happen:
    [find_msg_correct], [augment_correct]); loops over segment
    pairs use the length of the file; the loop over languages the length of the list; the
    descent in a tree the number of its nodes ([tree_fuel]); the loops over an alias file or
    path its length; [read_aliases] of LocalCharset the length of the file plus one, [maps_loop] of Relocatable too; [resolve] the
    length of the block of pairs; the binary searches of locale names the length of the
    table, [strip_back] of Relocatable that of the relative directory; the conversion loop [INT_MAX] divided by the size of a block, plus one,
    which is where the size would overflow; the ways down of tdelete() the size of its stack plus
    one, its way up two more than the stack; the loop around snprintf() [loop_fuel] = 70 rounds, more than the size of
    the memory can double before it overflows; the search for an exponent two rounds, as in the code.

    ** What the theorems show

    - Plural formulas: the parser implements the grammar (soundness,
      completeness, termination, allocation failures), printing and parsing is a
      round trip, evaluation is C's and stays in range, catalogs never store an
      ill-formed formula.
    - Catalogs: lookup by both methods is lookup in a finite map, in tables that can be searched, which the
      loader does not check (a full table makes the search loop, [full_table_loops]); extending a
      hash table that has room keeps it correct; memory for system dependent strings is exact;
      byte order does not matter; what every accepted file satisfies; a file
      is loaded once; the plural form is the right one and inside the translation.
    - Conversion: the string that is returned is what iconv() makes of the translation, for encodings without shift
      states, in memory of its own, and asking again gives the same string.
    - The driver: the translation is the first one in the order of languages and
      catalogs, from the cache or not, in the encoding of the call; a message without one is logged; asking
      again gives the same answer; a new directory or codeset takes effect although the cache is kept; the invariant of
      reachable states; with iconv(), the bytes at the pointer are what it makes of the translation, in the codeset that
      is bound, else that of OUTPUT_CHARSET or the locale (GettextConvert).  All this is for
      files that do not make the loader read outside of their bytes, catalogs whose lookups return ([lookups_of_catalogs]) and a log
      that can be opened.
    - The entry points: every program that only binds domains and asks for messages gets,
      from every reachable state, a well-formed state and answers.
    - Locales of the platform: libintl_setlocale() sets all categories or restores all of them (but LC_ALL with a name
      leaves the library's own LC_MESSAGES), tries exactly the candidates of a name, and never dereferences a null pointer for known
      categories; libintl_newlocale() likewise; canonical names of locales and of encodings are what
      the tables say; the list of languages is one the driver can walk; a library finds its file whatever
      the maps hold, relocation replaces the prefix exactly at a directory boundary; a log is read back to what was written.
    - Search trees: tsearch(), tfind() and tdelete() refine insertion, lookup and deletion in a list that has
      no equal elements, keep the red-black trees balanced and access only their nodes; the stack
      of tdelete() has room for every tree of fewer than 2^49 entries; twalk() visits in order.
    - Bindings: a sorted finite map with balanced memory, on all failure paths.
    - Pool, locale names and aliases: exact splitting, exact memory, sortedness, the
      inheritance order, successor arrays that never overflow, termination; an alias is
      the one of the first file that has it, and addresses stay inside the pool.
    - printf: format strings are partitioned into directives with consistent
      argument types within the allocated arrays; arguments are numbered in order; the
      output is exactly the text that ISO C and POSIX say the format stands for, in memory that is large enough, or an
      error that is justified and no leak; a text that is truncated ends with a NUL inside the buffer.
    - Floating-point numbers: the guess of the exponent is right or next to it, whatever the rounding of its computation; the text is
      that of the exactly rounded number, and fits in its buffer; no call of abort() is reached (the NUL of the digits can be
      stored one byte past their memory, [convert_to_decimal_overflow]).
    - Bignums: products, rounded quotients and decimal digits are exact.
    - Locks: mutual exclusion, no abort() and no access outside the queues as long as CreateEvent() succeeds (the code does not
      notice its failure), initialization exactly once; no wake-up is lost, waiting writers are served in order (readers that
      overlap can starve them: [writer_starves]), once-only execution ends.  With POSIX threads readers
      cannot starve a writer, and every thread that waits is served; once-only execution with Solaris threads
      can return too early ([solaris_once_returns_early]).
    - Threads: an entry of the cache settles on the translation that the search finds, but can be seen half
      updated ([half_updated_entry]); the table of locale names stays unique.

    ** Not modelled

    The Windows
    tables of language identifiers and the queries of locale objects in localename.c; the
    macros of lock.h, which call a function of the thread library if there are threads, and pth_once(); the instance of
    vasnprintf for wide characters, and its branches for the directive a, unistdio and systems without
    snprintf(), which libintl disables.  The branch for the directives f, e and g, which it disables too, is a component of its own: [VASNPRINTF]
    leaves floating-point numbers to snprintf().  Excess precision, as of the x87 unit for doubles, is not modelled.  The state lock and the lock of the tree around the driver are not modelled, nor is what else several threads in
    the driver do. *)

From Stdlib Require Export ZArith Lia Ascii String.
From stdpp Require Export base gmap list strings.

Open Scope Z_scope.

(** ** Tactics *)

(** Turn every boolean comparison on [Z] (and boolean connective) that is an
    equation with a constant into the proposition it decides. *)
Ltac breflect :=
  repeat match goal with
  | H : (_ =? _) = true |- _ => apply Z.eqb_eq in H
  | H : (_ =? _) = false |- _ => apply Z.eqb_neq in H
  | H : (_ <? _) = true |- _ => apply Z.ltb_lt in H
  | H : (_ <? _) = false |- _ => apply Z.ltb_ge in H
  | H : (_ <=? _) = true |- _ => apply Z.leb_le in H
  | H : (_ <=? _) = false |- _ => apply Z.leb_gt in H
  | H : (_ && _) = true |- _ => apply andb_true_iff in H as [? ?]
  | H : (_ || _) = false |- _ => apply orb_false_iff in H as [? ?]
  | H : negb _ = true |- _ => apply negb_true_iff in H
  | H : negb _ = false |- _ => apply negb_false_iff in H
  | H : bool_decide _ = true |- _ => apply bool_decide_eq_true_1 in H
  | H : bool_decide _ = false |- _ => apply bool_decide_eq_false_1 in H
  end.

(** Case analysis on the condition of the first [if] of the goal. *)
Ltac case_if :=
  match goal with
  | |- context [ if ?b then _ else _ ] =>
      lazymatch type of b with
      | bool => let E := fresh "Eif" in destruct b eqn:E; breflect
      | _ => let E := fresh "Hif" in destruct b as [E|E]
      end
  end.

(** The same in a hypothesis. *)
Ltac case_if_in H :=
  match type of H with
  | context [ if ?b then _ else _ ] =>
      lazymatch type of b with
      | bool => let E := fresh "Eif" in destruct b eqn:E; breflect
      | _ => let E := fresh "Hif" in destruct b as [E|E]
      end
  end.

(** ** Machine integers

    A [w]-bit unsigned integer is a [Z] in [[0, 2^w)]; [wrapw w] is the
    reduction C applies to the result of unsigned arithmetic. *)
Definition wrapw (w z : Z) : Z := z mod 2 ^ w.

(** The largest [int]. *)
Definition INT_MAX : Z := 2 ^ 31 - 1.

Create HintDb cint.
Create Rewrite HintDb cint.

Section Wrap.
Context (w : Z) (Hw : 0 <= w).
Implicit Types x y z : Z.

Lemma wrapw_range z : 0 <= wrapw w z < 2 ^ w.
Proof using Hw. apply Z.mod_pos_bound. lia. Qed.

Lemma wrapw_small z : 0 <= z < 2 ^ w -> wrapw w z = z.
Proof using Type. apply Z.mod_small. Qed.

Lemma wrapw_wrapw z : wrapw w (wrapw w z) = wrapw w z.
Proof using Hw. apply wrapw_small, wrapw_range. Qed.

Lemma wrapw_add_l x y : wrapw w (wrapw w x + y) = wrapw w (x + y).
Proof using Type. apply Zplus_mod_idemp_l. Qed.

Lemma wrapw_testbit z i :
  Z.testbit (wrapw w z) i = (i <? w) && Z.testbit z i.
Proof using Hw.
  unfold wrapw. destruct (Z.ltb_spec i w).
  - destruct (Z.ltb_spec i 0); [by rewrite !Z.testbit_neg_r by lia|].
    by rewrite Z.mod_pow2_bits_low by lia.
  - by rewrite Z.mod_pow2_bits_high by lia.
Qed.
End Wrap.

#[export] Hint Resolve wrapw_range : cint.
#[export] Hint Rewrite wrapw_testbit using lia : cint.

Lemma wrapw_narrow w w' z : 0 <= w' <= w -> wrapw w' (wrapw w z) = wrapw w' z.
Proof.
  intros. apply Z.bits_inj'; intros i Hi. rewrite !wrapw_testbit by lia.
  destruct (Z.ltb_spec i w'), (Z.ltb_spec i w); auto; lia.
Qed.

(** A nonnegative number without bits from [n] up is below [2^n]. *)
Lemma bits_below n x :
  0 <= n -> 0 <= x -> (forall i, n <= i -> Z.testbit x i = false) -> x < 2 ^ n.
Proof.
  intros Hn Hx Hb. assert (x = wrapw n x) as ->; [|apply wrapw_range; lia].
  apply Z.bits_inj'; intros i Hi. rewrite wrapw_testbit by lia.
  destruct (Z.ltb_spec i n); [done|]. apply Hb. lia.
Qed.

(** A check of all numbers of an aligned range, by halving. *)
Fixpoint check_range (f : Z -> bool) (n : nat) (lo : Z) : bool :=
  match n with
  | O => f lo
  | S n => check_range f n lo && check_range f n (lo + 2 ^ Z.of_nat n)
  end.

Lemma check_range_spec (f : Z -> bool) (n : nat) (lo : Z) :
  check_range f n lo = true -> forall x, lo <= x < lo + 2 ^ Z.of_nat n -> f x = true.
Proof.
  revert lo. induction n as [|n IH]; intros lo H x Hx; simpl check_range in H.
  - by assert (x = lo) as -> by (simpl in Hx; lia).
  - apply andb_true_iff in H as [H1 H2].
    rewrite Nat2Z.inj_succ, Z.pow_succ_r in Hx by lia.
    destruct (Z.lt_ge_cases x (lo + 2 ^ Z.of_nat n)); [apply (IH lo)|apply (IH _ H2)]; auto; lia.
Qed.

(** ** C strings

    A [char] is its [unsigned char] value.  A NUL-terminated string is the
    list of the bytes before the NUL; a pointer into it is the suffix it
    addresses, so that [cur p] is [*p] and [drop 1 p] is [p + 1]. *)
Abbreviation cstr := (list Z).

Definition chr (a : ascii) : Z := Z.of_N (N_of_ascii a).
Definition cs (s : string) : cstr := map chr (String.list_ascii_of_string s).
Arguments cs s%_string_scope.
Definition cur (p : cstr) : Z := match p with [] => 0 | c :: _ => c end.
Definition wf_cstr (s : cstr) : Prop := Forall (fun c => 0 < c < 256) s.

#[export] Instance wf_cstr_dec s : Decision (wf_cstr s).
Proof. unfold wf_cstr. apply _. Defined.

(** [isspace] in the "C" locale. *)
Definition isspace (c : Z) : bool := (c =? 32) || ((9 <=? c) && (c <=? 13)).

(** [strcmp]: the difference of the first bytes that differ. *)
Fixpoint strcmp (s1 s2 : cstr) : Z :=
  match s1, s2 with
  | [], [] => 0
  | [], c2 :: _ => 0 - c2
  | c1 :: _, [] => c1
  | c1 :: s1, c2 :: s2 => if c1 =? c2 then strcmp s1 s2 else c1 - c2
  end.

Lemma strcmp_sym s1 s2 : strcmp s2 s1 = - strcmp s1 s2.
Proof.
  revert s2. induction s1 as [|c1 s1 IH]; intros [|c2 s2]; simpl; try lia.
  rewrite (Z.eqb_sym c2 c1). case_if; [apply IH|lia].
Qed.

Lemma strcmp_refl s : strcmp s s = 0.
Proof. pose proof (strcmp_sym s s). lia. Qed.

Lemma wf_cstr_cons c s : wf_cstr (c :: s) <-> 0 < c < 256 /\ wf_cstr s.
Proof. unfold wf_cstr. by rewrite Forall_cons. Qed.

Lemma wf_cstr_app s1 s2 : wf_cstr (s1 ++ s2) <-> wf_cstr s1 /\ wf_cstr s2.
Proof. unfold wf_cstr. by rewrite Forall_app. Qed.

Lemma strcmp_eq s1 s2 : wf_cstr s1 -> wf_cstr s2 -> strcmp s1 s2 = 0 <-> s1 = s2.
Proof.
  revert s2. induction s1 as [|c1 s1 IH]; intros [|c2 s2];
    rewrite ?wf_cstr_cons; intros; simpl; try (split; [lia|done]); [done|].
  case_if.
  - subst. rewrite IH by tauto. split; [by intros ->|by intros [= ->]].
  - split; [lia|by intros [= -> ->]].
Qed.

Lemma strcmp_trans s1 s2 s3 :
  wf_cstr s1 -> wf_cstr s2 -> wf_cstr s3 ->
  strcmp s1 s2 < 0 -> strcmp s2 s3 < 0 -> strcmp s1 s3 < 0.
Proof.
  revert s2 s3. induction s1 as [|c1 s1 IH]; intros [|c2 s2] [|c3 s3];
    rewrite ?wf_cstr_cons; intros Hw1 Hw2 Hw3; simpl; try lia.
  case_if; [subst c2; case_if; [|lia]; apply IH; tauto|].
  case_if; [subst c3; rewrite (proj2 (Z.eqb_neq c1 c2)) by lia; lia|].
  case_if; lia.
Qed.

(** The buffer as a C string: the bytes before the first NUL. *)
Fixpoint c_string (l : list Z) : cstr :=
  match l with
  | [] => []
  | c :: l => if c =? 0 then [] else c :: c_string l
  end.

Lemma c_string_wf s r : wf_cstr s -> c_string (s ++ r) = s ++ c_string r.
Proof.
  induction 1 as [|c s Hc _ IH]; [done|]. cbn [app c_string]. rewrite (proj2 (Z.eqb_neq c 0)) by lia. by rewrite IH.
Qed.

(** ** Lists with separators *)

(** The parts of a text between separators. *)
Fixpoint split_on (sep : Z) (l : list Z) : list cstr :=
  match l with
  | [] => [[]]
  | c :: l => if c =? sep then [] :: split_on sep l
              else match split_on sep l with h :: t => (c :: h) :: t | [] => [[c]] end
  end.

Lemma split_on_last (sep : Z) (l : list Z) : sep ∉ l -> split_on sep l = [l].
Proof.
  induction l as [|c l IH]; [done|]. rewrite not_elem_of_cons. intros [Hc Hl]. cbn [split_on].
  rewrite (proj2 (Z.eqb_neq c sep)) by congruence. by rewrite IH.
Qed.

Lemma split_on_app (sep : Z) (l r : list Z) : sep ∉ l -> split_on sep (l ++ sep :: r) = l :: split_on sep r.
Proof.
  induction l as [|c l IH]; [intros _; cbn; by rewrite Z.eqb_refl|]. rewrite not_elem_of_cons.
  intros [Hc Hl]. cbn [app split_on]. rewrite (proj2 (Z.eqb_neq c sep)) by congruence. by rewrite IH.
Qed.

Lemma split_on_cases (sep : Z) (l : list Z) :
  sep ∉ l \/ exists l1 l2, l = l1 ++ sep :: l2 /\ sep ∉ l1.
Proof.
  induction l as [|c l IH]; [left; apply not_elem_of_nil|]. destruct (decide (c = sep)) as [->|Hc].
  - right. exists [], l. split; [done|apply not_elem_of_nil].
  - destruct IH as [Hl|(l1 & l2 & -> & Hl)]; [left; by apply not_elem_of_cons|right].
    exists (c :: l1), l2. split; [done|by apply not_elem_of_cons].
Qed.
