(* ===== verification/HashString.v ===== *)
(** * The string hash of message catalogs: hash-string.c

    [__hash_string] is P. J. Weinberger's hash computed in an [unsigned long]
    of [w] bits ([w >= 32], the only assumption hash-string.h makes).  The
    catalogs store tables built with it, so what the readers use must not
    depend on [w]. *)

From S2P Require Import Prelude.

Open Scope Z_scope.

Definition HASHWORDBITS : Z := 32.

(** One iteration of the loop of [__hash_string]: [hval <<= 4], add the byte,
    fold the top nibble of the 32-bit word back in. *)
Definition hash_step (w hval c : Z) : Z :=
  let hval := wrapw w (Z.shiftl hval 4) in
  let hval := wrapw w (hval + c) in
  let g := Z.land hval (wrapw w (Z.shiftl 0xf (HASHWORDBITS - 4))) in
  if g =? 0 then hval
  else Z.lxor (Z.lxor hval (Z.shiftr g (HASHWORDBITS - 8))) g.

Definition __hash_string (w : Z) (str : cstr) : Z :=
  foldl (hash_step w) 0 str.

Example hash_hello : __hash_string 64 (cs "hello") = 7258927.
Proof. reflexivity. Qed.

Section Narrow.
Context (w : Z) (Hw : 32 <= w).

(** [hval <<= 4; hval += c] computed in [w] bits agrees, on the low 32 bits,
    with the same computation in 32 bits. *)
Lemma hash_shift_add_narrow hval c :
  wrapw 32 (wrapw w (wrapw w (Z.shiftl hval 4) + c)) =
  wrapw 32 (wrapw 32 (Z.shiftl (wrapw 32 hval) 4) + c).
Proof using Hw.
  rewrite wrapw_narrow, <- wrapw_add_l, wrapw_narrow by lia.
  f_equal. f_equal. apply Z.bits_inj'; intros i Hi.
  rewrite !wrapw_testbit, !Z.shiftl_spec by lia.
  destruct (Z.ltb_spec i 32); [|done]. simpl.
  destruct (Z.ltb_spec (i - 4) 0); [by rewrite !Z.testbit_neg_r by lia|].
  rewrite wrapw_testbit by lia. by rewrite (proj2 (Z.ltb_lt _ _)) by lia.
Qed.

(** [g], the nibble selected by the mask, only depends on the low 32 bits. *)
Lemma hash_mask_narrow x :
  Z.land x (wrapw w (Z.shiftl 0xf (HASHWORDBITS - 4))) =
  Z.land (wrapw 32 x) (wrapw 32 (Z.shiftl 0xf (HASHWORDBITS - 4))).
Proof using Hw.
  change (Z.shiftl 0xf (HASHWORDBITS - 4)) with 0xf0000000.
  rewrite (wrapw_small w), (wrapw_small 32 0xf0000000);
    [| lia | split; [lia|]; apply Z.lt_le_trans with (2 ^ 32); [done|];
             by apply Z.pow_le_mono_r ].
  apply Z.bits_inj'; intros i Hi. rewrite !Z.land_spec, wrapw_testbit by lia.
  destruct (Z.ltb_spec i 32); [done|].
  rewrite (Z.bits_above_log2 0xf0000000) by (simpl; lia).
  by rewrite !andb_false_r.
Qed.

Lemma hash_step_narrow hval c :
  wrapw 32 (hash_step w hval c) = hash_step 32 (wrapw 32 hval) c.
Proof using Hw.
  unfold hash_step. rewrite hash_mask_narrow, hash_shift_add_narrow.
  set (x := wrapw w (wrapw w _ + c)).
  set (y := wrapw 32 (wrapw 32 _ + c)).
  assert (Hxy : wrapw 32 x = y) by apply hash_shift_add_narrow.
  set (g := Z.land y _). case_if; [done|].
  rewrite <- Hxy. apply Z.bits_inj'; intros i Hi.
  rewrite wrapw_testbit, !Z.lxor_spec, wrapw_testbit by lia.
  destruct (Z.ltb_spec i 32); [done|]. simpl.
  subst g. change (wrapw 32 (Z.shiftl 0xf _)) with 0xf0000000.
  rewrite Z.shiftr_spec, !Z.land_spec by lia.
  rewrite !(Z.bits_above_log2 0xf0000000) by (simpl; unfold HASHWORDBITS; lia).
  by rewrite !andb_false_r.
Qed.
End Narrow.

(** The hash that the catalog readers use does not depend on the width of
    [unsigned long]: [nls_uint32 hash_val = __hash_string (msgid)] truncates
    to 32 bits, and computed in any word of at least 32 bits the truncated
    value is the one a 32-bit machine computes.  (Untruncated, the values do
    differ: see [hash_width_dependent].) *)
Theorem hash_string_width_independent (w : Z) (str : cstr) :
  32 <= w ->
  wrapw 32 (__hash_string w str) = __hash_string 32 str.
Proof.
  intros Hw. unfold __hash_string.
  enough (H : forall h, wrapw 32 (foldl (hash_step w) h str)
                     = foldl (hash_step 32) (wrapw 32 h) str) by apply (H 0).
  induction str as [|c str IH]; intros h; [done|]. simpl.
  by rewrite IH, hash_step_narrow.
Qed.

Lemma hash_string_width_independent_witness :
  32 <= 64 /\
  wrapw 32 (__hash_string 64 (cs "OOOOOOOOOO")) = __hash_string 32 (cs "OOOOOOOOOO").
Proof. split; [lia|]. apply (hash_string_width_independent 64). lia. Defined.

(** The seven nibbles of 0x0fffffff, then a byte that carries into bit 32. *)
Example hash_width_dependent :
  let s := [15;15;15;15;15;15;15;16] in
  __hash_string 64 s <> __hash_string 32 s.
Proof. by vm_compute. Qed.

(** In a 32-bit word the top nibble is always folded away, so the values are
    below [2^28]. *)
Lemma hash_step_28 hval c : 0 <= hash_step 32 hval c < 2 ^ 28.
Proof.
  unfold hash_step. change (wrapw 32 (Z.shiftl 0xf _)) with (Z.shiftl (Z.ones 4) 28).
  change (HASHWORDBITS - 8) with 24.
  set (x := wrapw 32 (wrapw 32 _ + c)). set (g := Z.land x _).
  assert (Hx : 0 <= x) by (apply wrapw_range; lia).
  assert (Hhi : forall i, 28 <= i -> Z.testbit x i = Z.testbit g i).
  { intros i Hi. unfold g, x. rewrite Z.land_spec, !wrapw_testbit by lia.
    rewrite Z.shiftl_spec by lia. destruct (Z.ltb_spec i 32); [|done].
    rewrite Z.ones_spec_low by lia. by rewrite andb_true_r. }
  assert (Hg : 0 <= g) by (apply Z.land_nonneg; auto).
  case_if.
  - split; [done|]. apply bits_below; [lia..|]. intros i Hi.
    by rewrite Hhi, Eif, Z.testbit_0_l by lia.
  - assert (0 <= Z.lxor (Z.lxor x (Z.shiftr g 24)) g).
    { apply Z.lxor_nonneg; split; intros; [done|]. apply Z.lxor_nonneg.
      split; intros; [by apply Z.shiftr_nonneg|done]. }
    split; [done|]. apply bits_below; [lia..|]. intros i Hi.
    rewrite !Z.lxor_spec, Z.shiftr_spec, Hhi by lia.
    assert (Z.testbit g (i + 24) = false) as ->.
    { unfold g. rewrite Z.land_spec, Z.shiftl_spec, Z.ones_spec_high by lia.
      apply andb_false_r. }
    by destruct (Z.testbit g i).
Qed.

(** The hash of any string, in a 32-bit word, is below [2^28]. *)
Lemma hash_string_28 str : 0 <= __hash_string 32 str < 2 ^ 28.
Proof.
  unfold __hash_string. induction str as [|c str _] using rev_ind; [done|].
  rewrite foldl_app. apply hash_step_28.
Qed.
