(* ===== verification/PluralExp.v ===== *)
(** * Plural expressions: plural-exp.h, plural-exp.c, eval-plural.h

    The syntax tree of a plural formula as the parser builds it, its
    evaluation in [unsigned long] arithmetic, the constructors [new_exp_*] of
    plural.y with allocation failures, and the default ("Germanic") formula.

    [Pexpr] is the abstract syntax: the trees the grammar can produce, with a
    denotation that is independent of the [struct expression] encoding. *)

From S2P Require Import Prelude.

Open Scope Z_scope.

(** [enum expression_operator]. *)
Inductive expression_operator :=
| op_var | op_num
| lnot
| mult | divide | module | plus | minus
| less_than | greater_than | less_or_equal | greater_or_equal
| equal | not_equal | land | lor
| qmop.

#[export] Instance expression_operator_eq_dec : EqDecision expression_operator.
Proof. solve_decision. Defined.

(** [struct expression]: [nargs] is the length of [args]; [val_num] is the
    union's [num] member, used when there are no arguments. *)
Inductive expression :=
| Expression (operation : expression_operator) (val_num : Z)
             (args : list expression).

Definition operation (e : expression) : expression_operator :=
  match e with Expression op _ _ => op end.
Definition val_num (e : expression) : Z :=
  match e with Expression _ n _ => n end.
Definition nargs (e : expression) : Z :=
  match e with Expression _ _ l => Z.of_nat (length l) end.

(** [b2u b] is the value of a C comparison. *)
Definition b2u (b : bool) : Z := if b then 1 else 0.

Section Eval.
(** The width of [unsigned long]. *)
Context (w : Z).

(** The inner [switch (pexp->operation)] of the binary case; [None] is
    [raise (SIGFPE)], and the final [Some 0] the [NOTREACHED] fall-through. *)
Definition eval_binop (op : expression_operator) (leftarg rightarg : Z)
    : option Z :=
  match op with
  | mult => Some (wrapw w (leftarg * rightarg))
  | divide => if rightarg =? 0 then None else Some (leftarg / rightarg)
  | module => if rightarg =? 0 then None else Some (leftarg mod rightarg)
  | plus => Some (wrapw w (leftarg + rightarg))
  | minus => Some (wrapw w (leftarg - rightarg))
  | less_than => Some (b2u (leftarg <? rightarg))
  | greater_than => Some (b2u (rightarg <? leftarg))
  | less_or_equal => Some (b2u (leftarg <=? rightarg))
  | greater_or_equal => Some (b2u (rightarg <=? leftarg))
  | equal => Some (b2u (leftarg =? rightarg))
  | not_equal => Some (b2u (negb (leftarg =? rightarg)))
  | _ => Some 0
  end.

Fixpoint plural_eval (pexp : expression) (n : Z) : option Z :=
  match pexp with
  | Expression op num [] =>
      match op with
      | op_var => Some n
      | op_num => Some num
      | _ => Some 0
      end
  | Expression _ _ [a0] =>
      arg ← plural_eval a0 n; Some (b2u (arg =? 0))
  | Expression op _ [a0; a1] =>
      leftarg ← plural_eval a0 n;
      if decide (op = lor) then
        if leftarg =? 0
        then rightarg ← plural_eval a1 n; Some (b2u (negb (rightarg =? 0)))
        else Some 1
      else if decide (op = land) then
        if leftarg =? 0 then Some 0
        else rightarg ← plural_eval a1 n; Some (b2u (negb (rightarg =? 0)))
      else
        rightarg ← plural_eval a1 n; eval_binop op leftarg rightarg
  | Expression _ _ [a0; a1; a2] =>
      boolarg ← plural_eval a0 n;
      if boolarg =? 0 then plural_eval a2 n else plural_eval a1 n
  | _ => Some 0
  end.
End Eval.

(** ** Construction (plural.y) *)

(** [malloc] is an oracle: [mal i] tells whether the [i]-th allocation
    succeeds.  [new_exp] returns [NULL] ([None]) if an argument is [NULL] or
    the node cannot be allocated, and the number of allocations so far. *)
Definition new_exp (mal : nat -> bool) (i : nat) (op : expression_operator)
    (args : list (option expression)) : option expression * nat :=
  match mapM id args with
  | None => (None, i)
  | Some l => (if mal i then Some (Expression op 0 l) else None, S i)
  end.

Definition new_exp_0 mal i op := new_exp mal i op [].
Definition new_exp_1 mal i op right := new_exp mal i op [right].
Definition new_exp_2 mal i op left right := new_exp mal i op [left; right].
Definition new_exp_3 mal i op bexp tbranch fbranch :=
  new_exp mal i op [bexp; tbranch; fbranch].

(** ** The default formula (plural-exp.c): [n != 1]. *)
Definition plvar : expression := Expression op_var 0 [].
Definition plone : expression := Expression op_num 1 [].
Definition GERMANIC_PLURAL : expression := Expression not_equal 0 [plvar; plone].

(** ** Abstract syntax and its denotation *)

Definition binary_op (op : expression_operator) : bool :=
  match op with
  | mult | divide | module | plus | minus
  | less_than | greater_than | less_or_equal | greater_or_equal
  | equal | not_equal | land | lor => true
  | _ => false
  end.

Inductive pexpr :=
| PVar
| PNum (v : Z)
| PNot (e : pexpr)
| PBin (op : expression_operator) (l r : pexpr)
| PIf (c t f : pexpr).

(** The [struct expression] the parser builds for an abstract tree. *)
Fixpoint encode (e : pexpr) : expression :=
  match e with
  | PVar => Expression op_var 0 []
  | PNum v => Expression op_num v []
  | PNot e => Expression lnot 0 [encode e]
  | PBin op l r => Expression op 0 [encode l; encode r]
  | PIf c t f => Expression qmop 0 [encode c; encode t; encode f]
  end.

(** Trees with binary operators at binary nodes and machine words at leaves. *)
Fixpoint pexpr_ok (w : Z) (e : pexpr) : Prop :=
  match e with
  | PVar => True
  | PNum v => 0 <= v < 2 ^ w
  | PNot e => pexpr_ok w e
  | PBin op l r => binary_op op = true /\ pexpr_ok w l /\ pexpr_ok w r
  | PIf c t f => pexpr_ok w c /\ pexpr_ok w t /\ pexpr_ok w f
  end.

(** C semantics: [denote w e n v] says that [e] evaluates to [v]; there is no
    such [v] exactly when a division by zero is reached. *)
Inductive denote (w : Z) : pexpr -> Z -> Z -> Prop :=
| denote_var n : denote w PVar n n
| denote_num v n : denote w (PNum v) n v
| denote_not e n v : denote w e n v -> denote w (PNot e) n (b2u (v =? 0))
| denote_or_l l r n v :
    denote w l n v -> v <> 0 -> denote w (PBin lor l r) n 1
| denote_or_r l r n v :
    denote w l n 0 -> denote w r n v ->
    denote w (PBin lor l r) n (b2u (negb (v =? 0)))
| denote_and_l l r n : denote w l n 0 -> denote w (PBin land l r) n 0
| denote_and_r l r n u v :
    denote w l n u -> u <> 0 -> denote w r n v ->
    denote w (PBin land l r) n (b2u (negb (v =? 0)))
| denote_bin op l r n u v x :
    op <> lor -> op <> land ->
    denote w l n u -> denote w r n v -> eval_binop w op u v = Some x ->
    denote w (PBin op l r) n x
| denote_if_t c t f n u v :
    denote w c n u -> u <> 0 -> denote w t n v -> denote w (PIf c t f) n v
| denote_if_f c t f n v :
    denote w c n 0 -> denote w f n v -> denote w (PIf c t f) n v.

Create HintDb plural.
#[export] Hint Constructors denote : plural.

(** ** Correctness *)

Lemma denote_functional w e n v v' : denote w e n v -> denote w e n v' -> v = v'.
Proof.
  intros H; revert v'. induction H; intros v' H'; inversion H'; subst; clear H';
    repeat match goal with
    | IH : forall x, denote _ ?e _ x -> _ = x, H : denote _ ?e _ _ |- _ =>
        apply IH in H; subst
    end; congruence.
Qed.

(** The encoding of a well-formed tree evaluates to its denotation: soundness
    of the switch of [plural_eval] on [nargs] and [operation]. *)
Lemma plural_eval_sound w e n v :
  plural_eval w (encode e) n = Some v -> denote w e n v.
Proof.
  revert v; induction e as [|k|e IH|op l IHl r IHr|c IHc t IHt f IHf];
    intros v H; simpl in H.
  - injection H as <-; eauto with plural.
  - injection H as <-; eauto with plural.
  - apply bind_Some in H as (x & Hx & [= <-]). eauto with plural.
  - apply bind_Some in H as (x & Hx & H). apply IHl in Hx.
    repeat case_if_in H; subst; try injection H as <-;
      try apply bind_Some in H as (y & Hy & H); try injection H as <-;
      eauto with plural.
  - apply bind_Some in H as (x & Hx & H). apply IHc in Hx.
    case_if_in H; subst; eauto with plural.
Qed.

Lemma plural_eval_complete w e n v :
  denote w e n v -> plural_eval w (encode e) n = Some v.
Proof.
  induction 1; simpl; try done;
    repeat match goal with H : plural_eval _ _ _ = Some _ |- _ => rewrite H; clear H end;
    simpl; repeat case_decide; try congruence;
    repeat match goal with
    | H : ?v <> 0 |- _ => rewrite (proj2 (Z.eqb_neq v 0) H); clear H
    end; simpl; done.
Qed.

(** For every formula the grammar can produce, evaluating the [struct
    expression] of its tree gives exactly the C value of the formula at [n]:
    [||], [&&] and [?:] short-circuit, arithmetic is modulo [2^w], and the
    evaluation has no value (it raises SIGFPE) exactly when a division or
    remainder by zero is reached. *)
Theorem plural_eval_denotes (w : Z) (e : pexpr) (n v : Z) :
  plural_eval w (encode e) n = Some v <-> denote w e n v.
Proof. split; [apply plural_eval_sound | apply plural_eval_complete]. Qed.

Section Range.
Context (w : Z) (Hw : 1 <= w).

Lemma b2u_range b : 0 <= b2u b < 2 ^ w.
Proof using Hw.
  assert (2 ^ 1 <= 2 ^ w) by (apply Z.pow_le_mono_r; lia).
  destruct b; simpl; lia.
Qed.

Lemma eval_binop_range op u v x :
  0 <= u < 2 ^ w -> 0 <= v < 2 ^ w ->
  eval_binop w op u v = Some x -> 0 <= x < 2 ^ w.
Proof using Hw.
  intros Hu Hv H. assert (0 < 2 ^ w) by lia.
  destruct op; simpl in H; try (injection H as <-);
    try apply b2u_range; try (apply wrapw_range; lia); try lia;
    case_if_in H; try discriminate; injection H as <-.
  - assert (u / v <= u) by (apply Z.div_le_upper_bound; nia).
    pose proof (Z.div_pos u v). lia.
  - pose proof (Z.mod_pos_bound u v). lia.
Qed.
End Range.

(** Plural evaluation stays within [unsigned long]: for a well-formed
    formula and a machine word [n] every value it returns is a machine word. *)
Theorem plural_eval_range (w : Z) (e : pexpr) (n v : Z) :
  1 <= w -> pexpr_ok w e -> 0 <= n < 2 ^ w ->
  plural_eval w (encode e) n = Some v -> 0 <= v < 2 ^ w.
Proof.
  intros Hw Hok Hn H. apply plural_eval_sound in H.
  induction H; simpl in Hok; destruct_and?; subst; auto using b2u_range;
    try (apply (b2u_range w Hw true) || apply (b2u_range w Hw false)).
  apply (eval_binop_range w Hw op u v); auto.
Qed.

Lemma plural_eval_range_witness :
  let e := PIf (PBin equal (PBin module PVar (PNum 10)) (PNum 1)) (PNum 0) (PNum 2) in
  pexpr_ok 64 e /\ plural_eval 64 (encode e) 21 = Some 0 /\ 0 <= 0 < 2 ^ 64.
Proof.
  split; [simpl; lia|]. split; [reflexivity|].
  apply (plural_eval_range 64
    (PIf (PBin equal (PBin module PVar (PNum 10)) (PNum 1)) (PNum 0) (PNum 2)) 21);
    [lia | simpl; lia | lia | reflexivity].
Defined.

(** The default formula is [n != 1]. *)
Lemma germanic_eval w n :
  plural_eval w GERMANIC_PLURAL n = Some (b2u (negb (n =? 1))).
Proof. reflexivity. Qed.

(** A constructor fails exactly when an argument is missing or the node
    cannot be allocated. *)
Lemma new_exp_Some mal i op args e j :
  new_exp mal i op args = (Some e, j) <->
  exists l, args = map Some l /\ mal i = true /\ e = Expression op 0 l /\ j = S i.
Proof.
  unfold new_exp. split.
  - destruct (mapM id args) as [l|] eqn:Hl; [|done].
    apply mapM_Some in Hl. destruct (mal i) eqn:Hm; [|done]. intros [= <- <-].
    exists l. split_and!; auto. clear -Hl. induction Hl as [|x y l k Hx Hl IH]; [done|].
    simpl. by rewrite <- IH, <- Hx.
  - intros (l & -> & Hm & -> & ->).
    assert (mapM id (map Some l) = Some l) as ->.
    { apply mapM_Some. induction l; constructor; auto. }
    by rewrite Hm.
Qed.
