(* ===== verification/PluralParse.v ===== *)
(** * The parser of plural formulas: plural.y, plural.c

    [yylex] is the hand-written scanner.  [yyparse] is the table-driven LALR
    parser as Bison emitted it into plural.c: the tables are the file's tables,
    and [yystep] is one turn of the driver from the label [yysetstate] to the
    next push.  Allocation is an oracle ([mal] for expression nodes,
    [stack_alloc] for growing the parser stacks), so that the failure paths
    are part of the model. *)

From S2P Require Import Prelude PluralExp.

Open Scope Z_scope.

(** ** Tokens and semantic values *)

(** Token codes: characters stand for themselves. *)
Definition YYEOF : Z := 0.
Definition YYEMPTY : Z := -2.
Definition YYTERROR : Z := 1.
Definition YYERRCODE : Z := 256.
Definition EQUOP2 : Z := 258.
Definition CMPOP2 : Z := 259.
Definition ADDOP2 : Z := 260.
Definition MULOP2 : Z := 261.
Definition NUMBER : Z := 262.

(** [%union]: [VNone] is a value that was never assigned. *)
Inductive YYSTYPE :=
| VNone
| VNum (n : Z)
| VOp (op : expression_operator)
| VExp (e : option expression).

(** ** The scanner *)

Fixpoint skip_blanks (exp : cstr) : cstr :=
  match exp with
  | c :: exp' =>
      if (c =? chr " ") || (c =? chr "009") then skip_blanks exp' else exp
  | [] => []
  end.

Definition is_digit (c : Z) : bool := (chr "0" <=? c) && (c <=? chr "9").

(** The loop that accumulates a decimal number into an [unsigned long]. *)
Fixpoint lex_number (w : Z) (n : Z) (exp : cstr) : Z * cstr :=
  match exp with
  | c :: exp' =>
      if is_digit c
      then lex_number w (wrapw w (wrapw w (n * 10) + (c - chr "0"))) exp'
      else (n, exp)
  | [] => (n, [])
  end.

(** [yylex (lval, pexp)]: the token code, the new [*lval] and the new [*pexp]. *)
Definition yylex (w : Z) (lval : YYSTYPE) (exp : cstr) : Z * YYSTYPE * cstr :=
  match skip_blanks exp with
  | [] => (YYEOF, lval, [])
  | result :: exp =>
      if is_digit result then
        let '(n, exp) := lex_number w (result - chr "0") exp in
        (NUMBER, VNum n, exp)
      else if result =? chr "=" then
        if cur exp =? chr "=" then (EQUOP2, VOp equal, drop 1 exp)
        else (YYERRCODE, lval, exp)
      else if result =? chr "!" then
        if cur exp =? chr "=" then (EQUOP2, VOp not_equal, drop 1 exp)
        else (result, lval, exp)
      else if (result =? chr "&") || (result =? chr "|") then
        if cur exp =? result then (result, lval, drop 1 exp)
        else (YYERRCODE, lval, exp)
      else if result =? chr "<" then
        if cur exp =? chr "=" then (CMPOP2, VOp less_or_equal, drop 1 exp)
        else (CMPOP2, VOp less_than, exp)
      else if result =? chr ">" then
        if cur exp =? chr "=" then (CMPOP2, VOp greater_or_equal, drop 1 exp)
        else (CMPOP2, VOp greater_than, exp)
      else if result =? chr "*" then (MULOP2, VOp mult, exp)
      else if result =? chr "/" then (MULOP2, VOp divide, exp)
      else if result =? chr "%" then (MULOP2, VOp module, exp)
      else if result =? chr "+" then (ADDOP2, VOp plus, exp)
      else if result =? chr "-" then (ADDOP2, VOp minus, exp)
      else if (result =? chr "n") || (result =? chr "?") || (result =? chr ":")
              || (result =? chr "(") || (result =? chr ")")
      then (result, lval, exp)
      else if (result =? chr ";") || (result =? chr "010")
      then (YYEOF, lval, result :: exp)
      else (YYERRCODE, lval, exp)
  end.

(** ** The tables *)

Definition YYFINAL : Z := 9.
Definition YYLAST : Z := 54.
Definition YYNTOKENS : Z := 16.
Definition YYUNDEFTOK : Z := 2.
Definition YYMAXUTOK : Z := 262.
Definition YYPACT_NINF : Z := -10.
Definition YYTABLE_NINF : Z := -1.
Definition YYINITDEPTH : Z := 200.
Definition YYMAXDEPTH : Z := 10000.

Definition yytranslate : list Z :=
  [0; 2; 2; 2; 2; 2; 2; 2; 2; 2; 2; 2; 2; 2; 2; 2; 2; 2; 2; 2; 2; 2; 2; 2; 2;
   2; 2; 2; 2; 2; 2; 2; 2; 10; 2; 2; 2; 2; 5; 2; 14; 15; 2; 2; 2; 2; 2; 2; 2;
   2; 2; 2; 2; 2; 2; 2; 2; 2; 12; 2; 2; 2; 2; 3; 2; 2; 2; 2; 2; 2; 2; 2; 2; 2;
   2; 2; 2; 2; 2; 2; 2; 2; 2; 2; 2; 2; 2; 2; 2; 2; 2; 2; 2; 2; 2; 2; 2; 2; 2;
   2; 2; 2; 2; 2; 2; 2; 2; 2; 2; 2; 13; 2; 2; 2; 2; 2; 2; 2; 2; 2; 2; 2; 2; 2;
   4; 2; 2; 2; 2; 2; 2; 2; 2; 2; 2; 2; 2; 2; 2; 2; 2; 2; 2; 2; 2; 2; 2; 2; 2;
   2; 2; 2; 2; 2; 2; 2; 2; 2; 2; 2; 2; 2; 2; 2; 2; 2; 2; 2; 2; 2; 2; 2; 2; 2;
   2; 2; 2; 2; 2; 2; 2; 2; 2; 2; 2; 2; 2; 2; 2; 2; 2; 2; 2; 2; 2; 2; 2; 2; 2;
   2; 2; 2; 2; 2; 2; 2; 2; 2; 2; 2; 2; 2; 2; 2; 2; 2; 2; 2; 2; 2; 2; 2; 2; 2;
   2; 2; 2; 2; 2; 2; 2; 2; 2; 2; 2; 2; 2; 2; 2; 2; 2; 2; 2; 2; 2; 2; 2; 2; 2;
   2; 2; 2; 2; 2; 2; 2; 1; 2; 6; 7; 8; 9; 11].

Definition yyr1 : list Z :=
  [0; 16; 17; 18; 18; 18; 18; 18; 18; 18; 18; 18; 18; 18].

Definition yyr2 : list Z :=
  [0; 2; 1; 5; 3; 3; 3; 3; 3; 3; 2; 1; 1; 3].

Definition yydefact : list Z :=
  [0; 0; 12; 11; 0; 0; 2; 10; 0; 1; 0; 0; 0; 0; 0; 0; 0; 13; 0; 4; 5; 6; 7; 8;
   9; 0; 3].

Definition yydefgoto : list Z :=
  [(-1); 5; 6].

Definition yypact : list Z :=
  [(-9); (-9); (-10); (-10); (-9); 8; 36; (-10); 13; (-10); (-9); (-9); (-9);
   (-9); (-9); (-9); (-9); (-10); 26; 41; 45; 18; (-2); 14; (-10); (-9); 36].

Definition yypgoto : list Z :=
  [(-10); (-10); (-1)].

Definition yytable : list Z :=
  [7; 1; 2; 8; 3; 4; 15; 16; 9; 18; 19; 20; 21; 22; 23; 24; 10; 11; 12; 13;
   14; 15; 16; 16; 26; 14; 15; 16; 17; 10; 11; 12; 13; 14; 15; 16; 0; 0; 25;
   10; 11; 12; 13; 14; 15; 16; 12; 13; 14; 15; 16; 13; 14; 15; 16].

Definition yycheck : list Z :=
  [1; 10; 11; 4; 13; 14; 8; 9; 0; 10; 11; 12; 13; 14; 15; 16; 3; 4; 5; 6; 7;
   8; 9; 9; 25; 7; 8; 9; 15; 3; 4; 5; 6; 7; 8; 9; (-1); (-1); 12; 3; 4; 5; 6;
   7; 8; 9; 5; 6; 7; 8; 9; 6; 7; 8; 9].

Definition yystos : list Z :=
  [0; 10; 11; 13; 14; 17; 18; 18; 18; 0; 3; 4; 5; 6; 7; 8; 9; 15; 18; 18; 18;
   18; 18; 18; 18; 12; 18].

(** Indexing a table. *)
Definition tab (t : list Z) (i : Z) : Z := nth (Z.to_nat i) t 0.

Definition YYTRANSLATE (yyx : Z) : Z :=
  if (0 <=? yyx) && (yyx <=? YYMAXUTOK) then tab yytranslate yyx else YYUNDEFTOK.

(** ** The driver *)

(** The variables of [yyparse] and of its [struct parse_args].  The two
    parallel stacks are one list of (state, value) pairs, top first. *)
Record pstate := PState {
  yystack : list (Z * YYSTYPE);
  yystacksize : Z;
  yychar : Z;
  yylval : YYSTYPE;
  yyerrstatus : Z;
  yynerrs : Z;
  cp : cstr;
  res : option expression;
  nalloc : nat            (** expression nodes requested from [malloc] *)
}.

Inductive outcome :=
| Next (st : pstate)        (** a state was pushed: back to [yysetstate] *)
| Accept (st : pstate)      (** [YYACCEPT]: result 0 *)
| Abort (st : pstate)       (** [YYABORT]: result 1 *)
| Exhausted (st : pstate).  (** [yyexhaustedlab]: result 2 *)

Definition get_exp (v : YYSTYPE) : option expression :=
  match v with VExp e => e | _ => None end.
Definition get_op (v : YYSTYPE) : expression_operator :=
  match v with VOp op => op | _ => op_var end.
Definition get_num (v : YYSTYPE) : Z :=
  match v with VNum n => n | _ => 0 end.

Section Driver.
Context (w : Z) (mal : nat -> bool) (stack_alloc : Z -> bool).

(** The semantic action of rule [yyn]; [v k] is [yyvsp[(k) - (yylen)]] and
    [dflt] the default [$$ = $1].  The result is [None] for [YYABORT], else
    the value, the new [res] and the new allocation count. *)
Definition yyaction (yyn : Z) (v : nat -> YYSTYPE) (dflt : YYSTYPE)
    (res : option expression) (i : nat)
    : option (YYSTYPE * option expression * nat) :=
  let ret '(e, j) := Some (VExp e, res, j) in
  if yyn =? 2 then
    match get_exp (v 1%nat) with
    | None => None
    | Some e => Some (dflt, Some e, i)
    end
  else if yyn =? 3 then
    ret (new_exp_3 mal i qmop (get_exp (v 1%nat)) (get_exp (v 3%nat)) (get_exp (v 5%nat)))
  else if yyn =? 4 then
    ret (new_exp_2 mal i lor (get_exp (v 1%nat)) (get_exp (v 3%nat)))
  else if yyn =? 5 then
    ret (new_exp_2 mal i land (get_exp (v 1%nat)) (get_exp (v 3%nat)))
  else if (6 <=? yyn) && (yyn <=? 9) then
    ret (new_exp_2 mal i (get_op (v 2%nat)) (get_exp (v 1%nat)) (get_exp (v 3%nat)))
  else if yyn =? 10 then
    ret (new_exp_1 mal i lnot (get_exp (v 2%nat)))
  else if yyn =? 11 then ret (new_exp_0 mal i op_var)
  else if yyn =? 12 then
    match new_exp_0 mal i op_num with
    | (Some (Expression op _ args), j) =>
        Some (VExp (Some (Expression op (get_num (v 1%nat)) args)), res, j)
    | (None, j) => Some (VExp None, res, j)
    end
  else if yyn =? 13 then Some (VExp (get_exp (v 2%nat)), res, i)
  else Some (dflt, res, i).

(** The state entered after a reduction to symbol [lhs] uncovers [state]. *)
Definition yygoto (lhs state : Z) : Z :=
  let yystate := tab yypgoto (lhs - YYNTOKENS) + state in
  if (0 <=? yystate) && (yystate <=? YYLAST) && (tab yycheck yystate =? state)
  then tab yytable yystate
  else tab yydefgoto (lhs - YYNTOKENS).

(** [yyreduce]. *)
Definition yyreduce (yyn : Z) (st : pstate) : outcome :=
  let yylen := Z.to_nat (tab yyr2 yyn) in
  let v k := snd (nth (yylen - k) (yystack st) (0, VNone)) in
  match yyaction yyn v (v 1%nat) (res st) (nalloc st) with
  | None => Abort st
  | Some (yyval, r, i) =>
      let stack := drop yylen (yystack st) in
      let top := match stack with (s, _) :: _ => s | [] => 0 end in
      Next (PState ((yygoto (tab yyr1 yyn) top, yyval) :: stack)
              (yystacksize st) (yychar st) (yylval st) (yyerrstatus st)
              (yynerrs st) (cp st) r i)
  end.

(** The loop of [yyerrlab1]: pop states until one can shift the [error]
    token; [None] when the stack is exhausted. *)
Fixpoint yyerrpop (stack : list (Z * YYSTYPE)) : option (Z * list (Z * YYSTYPE)) :=
  match stack with
  | [] => None
  | (state, _) :: below =>
      let yyn := tab yypact state in
      let yyn' := yyn + YYTERROR in
      if negb (yyn =? YYPACT_NINF) && ((0 <=? yyn') && (yyn' <=? YYLAST)
           && (tab yycheck yyn' =? YYTERROR)) && (0 <? tab yytable yyn')
      then Some (tab yytable yyn', stack)
      else yyerrpop below
  end.

(** [yyerrlab]. *)
Definition yyerrlab (st : pstate) : outcome :=
  let nerrs := if yyerrstatus st =? 0 then yynerrs st + 1 else yynerrs st in
  if (yyerrstatus st =? 3) && (yychar st =? YYEOF) then Abort st
  else
    let char := if (yyerrstatus st =? 3) && negb (yychar st <=? YYEOF)
                then YYEMPTY else yychar st in
    match yyerrpop (yystack st) with
    | None => Abort st
    | Some (state, stack) =>
        Next (PState ((state, yylval st) :: stack) (yystacksize st) char
                (yylval st) 3 nerrs (cp st) (res st) (nalloc st))
    end.

Definition yydefault (state : Z) (st : pstate) : outcome :=
  let yyn := tab yydefact state in
  if yyn =? 0 then yyerrlab st else yyreduce yyn st.

(** Read the lookahead if there is none, and normalise it to [YYEOF] when it
    is not positive. *)
Definition yylookahead (st : pstate) : pstate :=
  let '(char, lval, p) :=
    if yychar st =? YYEMPTY then yylex w (yylval st) (cp st)
    else (yychar st, yylval st, cp st) in
  PState (yystack st) (yystacksize st)
    (if char <=? YYEOF then YYEOF else char) lval (yyerrstatus st)
    (yynerrs st) p (res st) (nalloc st).

(** [yybackup]. *)
Definition yybackup (state : Z) (st : pstate) : outcome :=
  let yyn := tab yypact state in
  if yyn =? YYPACT_NINF then yydefault state st
  else
    let st := yylookahead st in
    let yytoken := if yychar st =? YYEOF then YYEOF else YYTRANSLATE (yychar st) in
    let yyn := yyn + yytoken in
    if (yyn <? 0) || (YYLAST <? yyn) || negb (tab yycheck yyn =? yytoken)
    then yydefault state st
    else
      let yyn := tab yytable yyn in
      if yyn <=? 0 then
        if (yyn =? 0) || (yyn =? YYTABLE_NINF) then yyerrlab st
        else yyreduce (- yyn) st
      else
        Next (PState ((yyn, yylval st) :: yystack st) (yystacksize st) YYEMPTY
                (yylval st)
                (if yyerrstatus st =? 0 then 0 else yyerrstatus st - 1)
                (yynerrs st) (cp st) (res st) (nalloc st)).

(** [yysetstate]: grow the stacks if they are full, accept in the final
    state, otherwise act on the lookahead. *)
Definition yystep (st : pstate) : outcome :=
  let state := match yystack st with (s, _) :: _ => s | [] => 0 end in
  let full size := size - 1 <=? Z.of_nat (length (yystack st)) - 1 in
  let continue st := if state =? YYFINAL then Accept st else yybackup state st in
  if full (yystacksize st) then
    if YYMAXDEPTH <=? yystacksize st then Exhausted st
    else
      let size := Z.min (2 * yystacksize st) YYMAXDEPTH in
      let st' := PState (yystack st) size (yychar st) (yylval st)
                   (yyerrstatus st) (yynerrs st) (cp st) (res st) (nalloc st) in
      if negb (stack_alloc size) then Exhausted st'
      else if full size then Abort st'
      else continue st'
  else continue st.

(** The state in which [yyparse] reaches [yysetstate] for the first time. *)
Definition yyinit (p : cstr) : pstate :=
  PState [(0, VNone)] YYINITDEPTH YYEMPTY VNone 0 0 p None 0.

Fixpoint yyrun (fuel : nat) (st : pstate) : option outcome :=
  match fuel with
  | O => None
  | S fuel =>
      match yystep st with
      | Next st' => yyrun fuel st'
      | o => Some o
      end
  end.

(** Fuel that every input needs at most: see [yyparse_total]. *)
Definition yyfuel (p : cstr) : nat := 3 * length p + 10.

(** [yyparse]: 0 and the tree, or a nonzero code. *)
Definition yyparse (p : cstr) : option (Z * option expression) :=
  match yyrun (yyfuel p) (yyinit p) with
  | Some (Accept st) => Some (0, res st)
  | Some (Abort st) => Some (1, res st)
  | Some (Exhausted st) => Some (2, res st)
  | _ => None
  end.
End Driver.

Example parse_polish :
  yyparse 64 (fun _ => true) (fun _ => true) (cs "n%10==1 ? 0 : n>=2||!n;") =
  Some (0, Some (encode
    (PIf (PBin equal (PBin module PVar (PNum 10)) (PNum 1)) (PNum 0)
         (PBin lor (PBin greater_or_equal PVar (PNum 2)) (PNot PVar))))).
Proof. vm_compute. reflexivity. Qed.
Example parse_bad : 
  yyparse 64 (fun _ => true) (fun _ => true) (cs "n%10==") = Some (1, None).
Proof. vm_compute. reflexivity. Qed.
