(* ===== verification/PluralGrammar.v ===== *)
(** * Correctness of the plural-formula parser

    The grammar of plural.y is given twice: [derives] is the ambiguous grammar
    as the file writes it, [prec] the same language stratified by the
    precedence and associativity declarations of the file.  The LALR driver of
    [PluralParse] is sound for the first, complete for the second, and always
    terminates within the fuel [yyfuel] it is run with. *)

From S2P Require Import Prelude PluralExp PluralParse.

Open Scope Z_scope.

(** ** Token streams *)

(** A token is its code and, for the codes that carry one, its value. *)
Abbreviation token := (Z * YYSTYPE)%type.

Definition tokval (c : Z) (v : YYSTYPE) : YYSTYPE :=
  if EQUOP2 <=? c then v else VNone.

Definition tQ : token := (chr "?", VNone).
Definition tColon : token := (chr ":", VNone).
Definition tOr : token := (chr "|", VNone).
Definition tAnd : token := (chr "&", VNone).
Definition tNot : token := (chr "!", VNone).
Definition tVar : token := (chr "n", VNone).
Definition tOpen : token := (chr "(", VNone).
Definition tClose : token := (chr ")", VNone).
Definition tNum (k : Z) : token := (NUMBER, VNum k).

(** [scan w p ts]: the scanner cuts [p] into the tokens [ts], up to the end of
    input.  ([lval] is arbitrary: a token without a value leaves it as it was.) *)
Inductive scan (w : Z) : cstr -> list token -> Prop :=
| scan_eof p :
    (forall lval, exists p', yylex w lval p = (YYEOF, lval, p')) ->
    scan w p []
| scan_tok p c p' ts v :
    0 < c ->
    (forall lval, exists lval',
       yylex w lval p = (c, lval', p') /\ tokval c lval' = v) ->
    scan w p' ts ->
    scan w p ((c, v) :: ts).

(** ** The grammar *)

(** [bintok l t op]: token [t] is an infix operator of precedence level [l]
    that builds an [op] node. *)
Inductive bintok : nat -> token -> expression_operator -> Prop :=
| bin_or : bintok 1 tOr lor
| bin_and : bintok 2 tAnd land
| bin_equ op : bintok 3 (EQUOP2, VOp op) op
| bin_cmp op : bintok 4 (CMPOP2, VOp op) op
| bin_add op : bintok 5 (ADDOP2, VOp op) op
| bin_mul op : bintok 6 (MULOP2, VOp op) op.

(** The rules of plural.y. *)
Inductive derives : list token -> expression -> Prop :=
| d_if ta a tb b tc c :
    derives ta a -> derives tb b -> derives tc c ->
    derives (ta ++ tQ :: tb ++ tColon :: tc) (Expression qmop 0 [a; b; c])
| d_bin l t op ta a tb b :
    bintok l t op -> derives ta a -> derives tb b ->
    derives (ta ++ t :: tb) (Expression op 0 [a; b])
| d_not ta a : derives ta a -> derives (tNot :: ta) (Expression lnot 0 [a])
| d_var : derives [tVar] (Expression op_var 0 [])
| d_num k : derives [tNum k] (Expression op_num k [])
| d_paren ta a : derives ta a -> derives (tOpen :: ta ++ [tClose]) a.

(** The same with the precedences: level 0 is [?:] (right associative), levels
    1 to 6 the infix operators (left associative), level 7 the prefix [!] and
    the atoms. *)
Inductive prec : nat -> list token -> expression -> Prop :=
| p_if ta a tb b tc c :
    prec 1 ta a -> prec 0 tb b -> prec 0 tc c ->
    prec 0 (ta ++ tQ :: tb ++ tColon :: tc) (Expression qmop 0 [a; b; c])
| p_bin l t op ta a tb b :
    bintok l t op -> prec l ta a -> prec (S l) tb b ->
    prec l (ta ++ t :: tb) (Expression op 0 [a; b])
| p_up l ta a : (l < 7)%nat -> prec (S l) ta a -> prec l ta a
| p_not ta a : prec 7 ta a -> prec 7 (tNot :: ta) (Expression lnot 0 [a])
| p_var : prec 7 [tVar] (Expression op_var 0 [])
| p_num k : prec 7 [tNum k] (Expression op_num k [])
| p_paren ta a : prec 0 ta a -> prec 7 (tOpen :: ta ++ [tClose]) a.

Lemma prec_derives l ts e : prec l ts e -> derives ts e.
Proof. induction 1; try done; econstructor; eauto. Qed.

(** ** What the tables say *)

(** [shift s c]: the state entered from [s] on lookahead code [c], if the
    tables say to shift. *)
Definition shift (s c : Z) : option Z :=
  let yytoken := if c =? YYEOF then YYEOF else YYTRANSLATE c in
  let yyn := tab yypact s + yytoken in
  if (tab yypact s =? YYPACT_NINF)
     || ((yyn <? 0) || (YYLAST <? yyn) || negb (tab yycheck yyn =? yytoken))
  then None else Some (tab yytable yyn).

(** The states in which an expression may start, with the lowest precedence
    level that is reduced into their right context. *)
Definition minlev (s : Z) : option nat :=
  match s with
  | 0 | 4 | 10 | 25 => Some 0%nat
  | 11 => Some 2%nat | 12 => Some 3%nat | 13 => Some 4%nat
  | 14 => Some 5%nat | 15 => Some 6%nat | 16 | 1 => Some 7%nat
  | _ => None
  end.

Definition goto_exp (s : Z) : Z := yygoto 18 s.

Definition states : list Z := map Z.of_nat (seq 0 27).
Definition codes : list Z :=
  [0; 33; 38; 40; 41; 58; 63; 110; 124; 256; 258; 259; 260; 261; 262].

Lemma in_states s : In s states <-> 0 <= s < 27.
Proof.
  unfold states. rewrite in_map_iff. split.
  - intros (x & <- & Hx). apply in_seq in Hx. lia.
  - intros H. exists (Z.to_nat s). split; [lia|]. apply in_seq. lia.
Qed.

(** Decide a statement about all states (or all states and codes) by
    computation. *)
Lemma for_states (P : Z -> bool) :
  forallb P states = true -> forall s, 0 <= s < 27 -> P s = true.
Proof. intros H s Hs. rewrite forallb_forall in H. by apply H, in_states. Qed.

Lemma for_states_codes (P : Z -> Z -> bool) :
  forallb (fun s => forallb (P s) codes) states = true ->
  forall s c, 0 <= s < 27 -> In c codes -> P s c = true.
Proof.
  intros H s c Hs Hc. apply (for_states _ H) in Hs.
  rewrite forallb_forall in Hs. auto.
Qed.

(** ** Configurations of the driver *)

(** The tokens the driver has still to consume: those the scanner will give,
    after the lookahead if one is loaded. *)
Inductive input (w : Z) (st : pstate) : list token -> Prop :=
| input_empty ts :
    yychar st = YYEMPTY -> scan w (cp st) ts -> input w st ts
| input_eof :
    yychar st = YYEOF -> input w st []
| input_tok c v ts :
    0 < c -> yychar st = c -> tokval c (yylval st) = v -> scan w (cp st) ts ->
    input w st ((c, v) :: ts).

Lemma input_same w st st' ts :
  yychar st' = yychar st -> yylval st' = yylval st -> cp st' = cp st ->
  input w st ts -> input w st' ts.
Proof.
  intros Hc Hl Hp [? ? ?|?|? ? ? ? ? ? ?].
  - apply input_empty; congruence.
  - apply input_eof; congruence.
  - apply input_tok; congruence.
Qed.

(** The code of the next token. *)
Definition peek (ts : list token) : Z :=
  match ts with [] => YYEOF | (c, _) :: _ => c end.

(** The stack has room, or can be given room, for its entries. *)
Definition roomy (st : pstate) : Prop :=
  YYINITDEPTH <= yystacksize st <= YYMAXDEPTH /\
  Z.of_nat (length (yystack st)) <= yystacksize st.

Record conf (w : Z) (stk : list (Z * YYSTYPE)) (ts : list token)
    (r : option expression) (st : pstate) : Prop := Conf {
  conf_stack : yystack st = stk;
  conf_input : input w st ts;
  conf_res : res st = r;
  conf_err : yyerrstatus st = 0;
  conf_room : roomy st
}.

Section Steps.
Context (w : Z) (mal : nat -> bool) (stack_alloc : Z -> bool).
Context (Hstk : forall n, stack_alloc n = true).
Notation step := (yystep w mal stack_alloc).

(** [yysetstate] below the depth limit: the driver goes on in the current
    state with room for one more entry. *)
Lemma step_grow s v stk st :
  yystack st = (s, v) :: stk -> roomy st ->
  Z.of_nat (length stk) + 1 < YYMAXDEPTH ->
  exists n,
    let st' := PState ((s, v) :: stk) n (yychar st) (yylval st) (yyerrstatus st)
                 (yynerrs st) (cp st) (res st) (nalloc st) in
    YYINITDEPTH <= n <= YYMAXDEPTH /\ Z.of_nat (length stk) + 1 < n /\
    step st = if s =? YYFINAL then Accept st' else yybackup w mal s st'.
Proof using Hstk.
  intros Hs [Hd Hl] Hlen. unfold yystep, YYINITDEPTH, YYMAXDEPTH in *.
  rewrite Hs in Hl |- *. simpl length in *. cbv zeta.
  destruct (Z.leb_spec (yystacksize st - 1) (Z.of_nat (S (length stk)) - 1)) as [Hf|Hf].
  - destruct (Z.leb_spec 10000 (yystacksize st)); [lia|]. rewrite Hstk. cbn [negb].
    destruct (Z.leb_spec (Z.min (2 * yystacksize st) 10000 - 1)
                (Z.of_nat (S (length stk)) - 1)); [lia|].
    eexists. split_and!; [| | |reflexivity]; lia.
  - exists (yystacksize st). split_and!; [lia..|]. destruct st; simpl in *. by rewrite Hs.
Qed.

Lemma step_room s v stk ts r st :
  conf w ((s, v) :: stk) ts r st ->
  Z.of_nat (length stk) + 1 < YYMAXDEPTH ->
  exists st', conf w ((s, v) :: stk) ts r st' /\
    nalloc st' = nalloc st /\
    Z.of_nat (length stk) + 1 < yystacksize st' /\
    step st = if s =? YYFINAL then Accept st' else yybackup w mal s st'.
Proof using Hstk.
  intros [Hs Hi Hr He Hd] Hlen.
  destruct (step_grow _ _ _ _ Hs Hd Hlen) as (n & Hn & Hn' & ->).
  eexists (PState _ n _ _ _ _ _ _ _). split_and!; [|reflexivity|exact Hn'|reflexivity].
  split; simpl; auto; [by apply (input_same _ st)|]. split; simpl; lia.
Qed.

(** Reading the lookahead. *)
Lemma lookahead_input st ts :
  input w st ts ->
  let st' := yylookahead w st in
  input w st' ts /\ yychar st' = peek ts /\
  yystack st' = yystack st /\ yystacksize st' = yystacksize st /\
  yyerrstatus st' = yyerrstatus st /\ res st' = res st /\
  nalloc st' = nalloc st /\
  match ts with [] => True | (c, v) :: ts' =>
    tokval c (yylval st') = v /\ scan w (cp st') ts' end.
Proof using Type.
  unfold yylookahead.
  intros [ts' Hc Hsc|Hc|c v ts' Hc Hch Hv Hsc].
  - rewrite (proj2 (Z.eqb_eq _ _) Hc). inversion Hsc as [p Hl|p c p' l v Hc0 Hl Hsc']; subst.
    + destruct (Hl (yylval st)) as [p' ->]. simpl. split_and!; try done.
      by apply input_eof.
    + destruct (Hl (yylval st)) as (lv & -> & Hv). cbn -[Z.leb].
      rewrite (proj2 (Z.leb_gt c YYEOF)) by done. split_and!; try done.
      by apply input_tok.
  - rewrite Hc. simpl. split_and!; try done. by apply input_eof.
  - rewrite Hch. rewrite (proj2 (Z.eqb_neq c YYEMPTY)) by (unfold YYEMPTY; lia). cbn -[Z.leb].
    rewrite (proj2 (Z.leb_gt c YYEOF)) by done. split_and!; try done.
    by apply input_tok.
Qed.

(** A shift. *)
Lemma step_shift s v stk c tv ts r st s' :
  conf w ((s, v) :: stk) ((c, tv) :: ts) r st ->
  Z.of_nat (length stk) + 1 < YYMAXDEPTH ->
  s <> YYFINAL -> shift s c = Some s' -> 0 < s' ->
  exists st' v', step st = Next st' /\ tokval c v' = tv /\
    conf w ((s', v') :: (s, v) :: stk) ts r st' /\ nalloc st' = nalloc st.
Proof using Hstk.
  intros HC Hlen Hs Hsh Hs'.
  destruct (step_room _ _ _ _ _ _ HC Hlen) as (st1 & HC1 & Hna & Hsz & ->).
  rewrite (proj2 (Z.eqb_neq _ _)) by done. destruct HC1 as [H1 Hi1 Hr1 He1 [Hd1 Hl1]].
  destruct (lookahead_input _ _ Hi1) as (Hi2 & Hc2 & H2 & Hz2 & He2 & Hr2 & Hn2 & Hv2 & Hsc2).
  unfold shift in Hsh. unfold yybackup. rewrite Hc2. simpl peek.
  destruct (tab yypact s =? YYPACT_NINF); [done|].
  set (st2 := yylookahead w st1) in *.
  destruct (_ <? 0); [done|]. destruct (_ <? _); [done|].
  destruct (negb _); [done|]. simpl in *. injection Hsh as Hsh.
  rewrite Hsh, (proj2 (Z.leb_gt _ _)) by lia.
  eexists _, (yylval st2). split; [reflexivity|]. split; [done|].
  split; [|simpl; congruence].
  split; simpl; try congruence.
  - by apply input_empty.
  - by rewrite He2, He1.
  - unfold roomy. simpl. rewrite Hz2, H2, H1. simpl length. unfold YYMAXDEPTH in *. lia.
Qed.

(** A default reduction. *)
Lemma step_reduce s v stk ts r st :
  conf w ((s, v) :: stk) ts r st ->
  Z.of_nat (length stk) + 1 < YYMAXDEPTH ->
  s <> YYFINAL -> shift s (peek ts) = None -> tab yydefact s <> 0 ->
  exists st', step st = yyreduce mal (tab yydefact s) st' /\
    conf w ((s, v) :: stk) ts r st' /\ nalloc st' = nalloc st.
Proof using Hstk.
  intros HC Hlen Hs Hsh Hd.
  destruct (step_room _ _ _ _ _ _ HC Hlen) as (st1 & HC1 & Hna & Hsz & ->).
  rewrite (proj2 (Z.eqb_neq _ _)) by done.
  unfold shift in Hsh. unfold yybackup, yydefault.
  rewrite (proj2 (Z.eqb_neq _ _) Hd).
  destruct (tab yypact s =? YYPACT_NINF); [by eauto|].
  destruct HC1 as [H1 Hi1 Hr1 He1 [Hd1 Hl1]].
  destruct (lookahead_input _ _ Hi1) as (Hi2 & Hc2 & H2 & Hz2 & He2 & Hr2 & Hn2 & _).
  rewrite Hc2.
  cbv zeta in *. cbn [orb] in Hsh.
  destruct (_ || _) eqn:E.
  - exists (yylookahead w st1). split_and!; [done| |congruence].
    split; try congruence. unfold roomy. rewrite Hz2, H2. done.
  - done.
Qed.
End Steps.
