(* ===== verification/PluralCorrect.v ===== *)
(** * The plural-formula parser accepts what the precedence grammar generates

    Completeness of the LALR driver: a formula of the stratified grammar
    [PluralGrammar.prec] is parsed to its tree, whatever the parser stack
    below, whenever the lookahead cannot continue it.  The proof is an
    induction on the derivation; every fact about the tables is decided by
    computation over the 27 states. *)

From S2P Require Import Prelude PluralExp PluralParse PluralGrammar.

Open Scope Z_scope.

(** ** Lookaheads *)

(** The precedence level a lookahead code binds at: an operand of a level that
    is at least that ends before it. *)
Definition lev (c : Z) : option nat :=
  if (c =? YYEOF) || (c =? chr ":") || (c =? chr ")") then Some 0%nat
  else if (c =? chr "?") || (c =? chr "|") then Some 1%nat
  else if c =? chr "&" then Some 2%nat
  else if c =? EQUOP2 then Some 3%nat
  else if c =? CMPOP2 then Some 4%nat
  else if c =? ADDOP2 then Some 5%nat
  else if c =? MULOP2 then Some 6%nat
  else None.

Definition follow (l : nat) (ts : list token) : Prop :=
  exists k, lev (peek ts) = Some k /\ (k <= l)%nat.

Lemma follow_mono l l' ts : (l <= l')%nat -> follow l ts -> follow l' ts.
Proof. intros ? (k & ? & ?). exists k. split; [done|lia]. Qed.

Lemma lev_code c k : lev c = Some k -> In c codes.
Proof.
  unfold lev. intros H.
  repeat (case_if_in H; [
    repeat match goal with H : (_ || _) = true |- _ => apply orb_true_iff in H as [H|H] end;
    breflect; subst; simpl; tauto|]); done.
Qed.

Lemma bintok_lev l t op : bintok l t op -> lev (fst t) = Some l.
Proof. by intros []. Qed.

Lemma bintok_level l t op : bintok l t op -> (1 <= l <= 6)%nat.
Proof. intros []; lia. Qed.

(** ** What the tables say about expression states *)

Definition beq (o : option Z) (z : Z) : bool :=
  match o with Some x => x =? z | None => false end.

(** After an expression in state [s], the state shifts every operator that
    binds at least as tightly as [s] asks for. *)
Lemma shift_op s m c l :
  0 <= s < 27 -> minlev s = Some m -> lev c = Some l -> (1 <= l)%nat ->
  (m <= l)%nat -> c <> chr "?" ->
  shift (goto_exp s) c = Some (10 + Z.of_nat l).
Proof.
  intros Hs Hm Hc Hl Hml Hq.
  pose proof (for_states_codes (fun s c => match minlev s, lev c with
    | Some m, Some l => negb ((1 <=? l)%nat && (m <=? l)%nat && negb (c =? chr "?"))
                        || beq (shift (goto_exp s) c) (10 + Z.of_nat l)
    | _, _ => true end) (ltac:(vm_compute; reflexivity)) s c Hs (lev_code c l Hc)) as P.
  cbv beta in P. rewrite Hm, Hc in P.
  rewrite (proj2 (Nat.leb_le _ _) Hl), (proj2 (Nat.leb_le _ _) Hml),
    (proj2 (Z.eqb_neq _ _) Hq) in P. simpl in P.
  destruct (shift _ _); simpl in P; [|done]. apply Z.eqb_eq in P. by subst.
Qed.

Lemma minlev_range s m : minlev s = Some m -> 0 <= s < 27 /\ s <> YYFINAL.
Proof.
  unfold minlev, YYFINAL. destruct s as [|p|p]; [lia| |done].
  do 6 (try destruct p as [p|p|]); done || lia.
Qed.

Lemma shift_if s : minlev s = Some 0%nat -> shift (goto_exp s) (chr "?") = Some 10.
Proof.
  intros Hm. destruct (minlev_range _ _ Hm) as [Hr _].
  pose proof (for_states (fun s => match minlev s with Some 0%nat =>
    beq (shift (goto_exp s) (chr "?")) 10 | _ => true end)
    (ltac:(vm_compute; reflexivity)) s Hr) as P.
  cbv beta in P. rewrite Hm in P. destruct (shift _ _); simpl in P; [|done].
  apply Z.eqb_eq in P. by subst.
Qed.

(** The state after the operand of a level-[l] operator reduces on a lookahead
    that does not bind tighter. *)
Lemma noshift_op l c k :
  (1 <= l <= 6)%nat -> lev c = Some k -> (k <= l)%nat ->
  shift (goto_exp (10 + Z.of_nat l)) c = None.
Proof.
  intros Hl Hc Hk. assert (Hin := lev_code _ _ Hc).
  simpl in Hin. destruct_or? Hin; subst; try done; injection Hc as <-;
    do 7 (destruct l as [|l]; [try lia; try reflexivity|]); lia.
Qed.

Lemma noshift_if c : lev c = Some 0%nat -> shift 26 c = None.
Proof.
  intros Hc. assert (Hin := lev_code _ _ Hc).
  simpl in Hin. destruct_or? Hin; subst; try done; vm_compute in Hc; congruence.
Qed.

(** States whose default reduction ignores the lookahead. *)
Lemma shift_ninf s c : tab yypact s = YYPACT_NINF -> shift s c = None.
Proof. intros H. unfold shift. by rewrite (proj2 (Z.eqb_eq _ _) H). Qed.

(** Every expression state shifts the tokens that start an operand. *)
Lemma shift_start s m c s' :
  minlev s = Some m -> In (c, s') [(33, 1); (110, 3); (262, 2); (40, 4)] ->
  shift s c = Some s'.
Proof.
  intros Hm Hin. destruct (minlev_range _ _ Hm) as [Hr _].
  pose proof (for_states (fun s => match minlev s with None => true | Some _ =>
    forallb (fun x => beq (shift s (fst x)) (snd x))
      [(33, 1); (110, 3); (262, 2); (40, 4)] end) (ltac:(vm_compute; reflexivity)) s Hr) as P.
  cbv beta in P. rewrite Hm in P. rewrite forallb_forall in P.
  specialize (P _ Hin). simpl in P. unfold beq in P.
  destruct (shift s c); [|done]. apply Z.eqb_eq in P. by subst.
Qed.

(** [goto_exp] never leads to the accepting state or an undefined one. *)
Lemma goto_exp_ok s m :
  minlev s = Some m -> 0 <= goto_exp s < 27 /\ goto_exp s <> YYFINAL.
Proof.
  intros Hm. destruct (minlev_range _ _ Hm) as [Hr _].
  pose proof (for_states (fun s => match minlev s with None => true | Some _ =>
    (0 <=? goto_exp s) && (goto_exp s <? 27) && negb (goto_exp s =? YYFINAL) end)
    (ltac:(vm_compute; reflexivity)) s Hr) as P.
  cbv beta in P. rewrite Hm in P. breflect. auto.
Qed.

Lemma prec_nonempty l ts e : prec l ts e -> (1 <= length ts)%nat.
Proof. induction 1; rewrite ?length_app; simpl; lia. Qed.

(** ** Runs of the driver *)

Section Complete.
Context (w : Z) (mal : nat -> bool) (stack_alloc : Z -> bool).
Context (Hstk : forall n, stack_alloc n = true) (Hmal : forall i, mal i = true).
Notation step := (yystep w mal stack_alloc).

Definition steps : pstate -> pstate -> Prop := rtc (fun a b => step a = Next b).

Lemma new_exp_ok i op l :
  new_exp mal i op (map Some l) = (Some (Expression op 0 l), S i).
Proof using Hmal. apply new_exp_Some. eauto 6. Qed.

(** The driver started in [st0] gets to a configuration. *)
Definition reaches st0 stk ts r : Prop :=
  exists st, steps st0 st /\ conf w stk ts r st.

Lemma reaches_shift st0 s v stk c tv ts r s' :
  reaches st0 ((s, v) :: stk) ((c, tv) :: ts) r ->
  Z.of_nat (length stk) + 1 < YYMAXDEPTH ->
  s <> YYFINAL -> shift s c = Some s' -> 0 < s' ->
  exists v', tokval c v' = tv /\ reaches st0 ((s', v') :: (s, v) :: stk) ts r.
Proof using Hstk.
  intros (st & R & HC) Hlen Hf Hs Hs'.
  destruct (step_shift w mal stack_alloc Hstk _ _ _ _ _ _ _ _ s' HC)
    as (st1 & v1 & E & Hv & HC1 & _); auto.
  exists v1. split; [done|]. exists st1. split; [|done].
  eapply rtc_r; eauto.
Qed.

(** A reduction by rule [yyn] with handle [(s1, v1) :: top], when the current
    state does not shift the lookahead. *)
Lemma reaches_reduce st0 yyn s1 v1 top s v stk ts r val :
  reaches st0 (((s1, v1) :: top) ++ (s, v) :: stk) ts r ->
  Z.of_nat (length stk + length top) + 2 < YYMAXDEPTH ->
  s1 <> YYFINAL -> shift s1 (peek ts) = None ->
  tab yydefact s1 = yyn -> yyn <> 0 ->
  Z.to_nat (tab yyr2 yyn) = S (length top) -> tab yyr1 yyn = 18 ->
  (forall i, exists j, yyaction mal yyn
    (fun k => snd (nth (S (length top) - k) (((s1, v1) :: top) ++ (s, v) :: stk) (0, VNone)))
    (snd (nth (length top) (((s1, v1) :: top) ++ (s, v) :: stk) (0, VNone)))
    r i = Some (val, r, j)) ->
  reaches st0 ((goto_exp s, val) :: (s, v) :: stk) ts r.
Proof using Hstk.
  intros (st & R & HC) Hlen Hf Hsh Hd Hn Hl H18 Ha.
  destruct (step_reduce w mal stack_alloc Hstk _ _ _ _ _ _ HC) as (st1 & E & HC1 & Hna);
    [rewrite length_app; simpl; lia|done|done|congruence|].
  unfold yyreduce in E.
  rewrite Hd, Hl, (conf_stack _ _ _ _ _ HC1), (conf_res _ _ _ _ _ HC1), Hna in E.
  replace (S (length top) - 1)%nat with (length top) in E by lia.
  rewrite app_comm_cons in E. destruct (Ha (nalloc st)) as [j Hj]. rewrite Hj in E.
  eexists; split; [eapply rtc_r; eauto|].
  rewrite H18, <- app_comm_cons. simpl drop. rewrite drop_app_length.
  destruct HC1 as [Hs1 Hi1 Hr1 He1 [Hd1 Hl1]].
  split; simpl; try done; [by apply (input_same _ st1)|].
  split; simpl; [done|]. rewrite Hs1 in Hl1. simpl length in Hl1.
  rewrite length_app in Hl1. simpl length in Hl1. lia.
Qed.

Local Ltac len := unfold YYMAXDEPTH in *;
  repeat (rewrite length_app in * || simpl length in * ); lia.
Local Ltac shift_to s' R :=
  let v := fresh "v" in let Hv := fresh "Hv" in let R' := fresh "R" in
  edestruct (reaches_shift _ _ _ _ _ _ _ _ s' R) as (v & Hv & R'); [len| | |lia|].
Local Ltac reduce_by R yyn top :=
  eapply (reaches_reduce _ yyn _ _ top _ _ _ _ _ _ R);
    [len|done || (vm_compute; congruence)| |reflexivity|done|reflexivity|reflexivity|].

(** The semantic action builds its node. *)
Local Ltac act :=
  intros i; eexists; unfold yyaction, new_exp_0, new_exp_1, new_exp_2, new_exp_3; simpl;
  repeat match goal with H : tokval _ ?v = _ |- _ => cbv in H; (subst v || clear H) end; simpl;
  unfold new_exp; simpl; rewrite ?Hmal; reflexivity.

Lemma parse_prec l ts e :
  prec l ts e ->
  forall st0 s m v stk rest r,
  reaches st0 ((s, v) :: stk) (ts ++ rest) r ->
  minlev s = Some m -> (m <= l)%nat -> follow l rest ->
  Z.of_nat (length stk + length ts) + 2 < YYMAXDEPTH ->
  reaches st0 ((goto_exp s, VExp (Some e)) :: (s, v) :: stk) rest r.
Proof using Hstk Hmal.
  induction 1 as [ta a tb b tc c Ha IHa Hb IHb Hc IHc|l t op ta a tb b Ht Ha IHa Hb IHb
    |l ta a Hl Ha IHa|ta a Ha IHa| |k|ta a Ha IHa];
    intros st0 s m v stk rest r R Hm Hml Hf Hlen;
    destruct (minlev_range _ _ Hm) as [_ Hnf].
  - assert (m = 0%nat) as -> by lia.
    apply prec_nonempty in Ha, Hb, Hc.
    rewrite <- app_assoc in R. simpl in R. rewrite <- app_assoc in R. simpl in R.
    pose proof (IHa _ s 0%nat _ _ _ _ R Hm ltac:(lia)
      ltac:(by exists 1%nat; auto) ltac:(len)) as R1.
    shift_to 10 R1; [by apply (goto_exp_ok s 0)|by apply shift_if|].
    pose proof (IHb _ 10 0%nat _ _ _ _ R0 eq_refl (le_n _)
      ltac:(by exists 0%nat) ltac:(len)) as R2.
    shift_to 25 R2; [done..|].
    pose proof (IHc _ 25 0%nat _ _ _ _ R3 eq_refl (le_n _) Hf ltac:(len)) as R4.
    reduce_by R4 3 [(25, v1); (goto_exp 10, VExp (Some b)); (10, v0); (goto_exp s, VExp (Some a))];
      [destruct Hf as (k & Hk & Hk0); apply noshift_if; by replace 0%nat with k by lia|act].
  - apply prec_nonempty in Ha, Hb. rewrite <- app_assoc in R. simpl in R.
    pose proof (bintok_lev _ _ _ Ht) as Hl. pose proof (bintok_level _ _ _ Ht) as Hl6.
    pose proof (IHa _ s m _ _ _ _ R Hm Hml ltac:(by exists l) ltac:(len)) as R1.
    destruct t as [c tv]. simpl in Hl.
    shift_to (10 + Z.of_nat l) R1; [by apply (goto_exp_ok s m)| |].
    { apply (shift_op s m); auto; [apply (minlev_range s m Hm)|lia|by inversion Ht]. }
    pose proof (follow_mono l (S l) rest ltac:(lia) Hf) as Hf'.
    pose proof (IHb _ _ (S l) _ _ _ _ R0 ltac:(by inversion Ht) (le_n _) Hf' ltac:(len)) as R2.
    destruct Hf as (k & Hk & Hkl).
    assert (Hns := noshift_op l _ k Hl6 Hk Hkl). clear -Hstk Hmal Ht R2 Hv Hns Hlen Hb.
    remember (goto_exp s, VExp (Some a)) as top1.
    revert Hv; inversion Ht; subst l tv c op; intros Hv;
      match type of R2 with reaches _ ((goto_exp (10 + Z.of_nat ?l), _) :: _) _ _ =>
        reduce_by R2 (3 + Z.of_nat l) [(10 + Z.of_nat l, v0); top1] end;
      try exact Hns; subst top1; act.
  - apply (IHa _ s m); auto. by apply (follow_mono l); [lia|].
  - shift_to 1 R; [done|apply (shift_start s m); simpl; auto|].
    specialize (IHa _ 1 7%nat _ _ _ _ R0 eq_refl (le_n _) Hf ltac:(len)).
    reduce_by IHa 10 [(1, v0)]; [by apply shift_ninf|act].
  - shift_to 3 R; [done|apply (shift_start s m); simpl; auto|].
    reduce_by R0 11 (@nil (Z * YYSTYPE)); [by apply shift_ninf|act].
  - shift_to 2 R; [done|apply (shift_start s m); simpl; auto|].
    reduce_by R0 12 (@nil (Z * YYSTYPE)); [by apply shift_ninf|act].
  - rewrite <- app_comm_cons, <- app_assoc in R.
    shift_to 4 R; [done|apply (shift_start s m); simpl; auto|].
    pose proof (IHa _ 4 0%nat _ _ _ _ R0 eq_refl (le_n _)
      ltac:(by exists 0%nat) ltac:(len)) as R1.
    shift_to 17 R1; [done..|].
    reduce_by R2 13 [(goto_exp 4, VExp (Some a)); (4, v0)]; [by apply shift_ninf|act].
Qed.

(** ** The whole parse *)

Lemma input_init p ts : scan w p ts -> conf w [(0, VNone)] ts None (yyinit p).
Proof using Type.
  intros Hs. split; simpl; auto; [by apply input_empty|].
  unfold roomy, yyinit, YYINITDEPTH, YYMAXDEPTH; simpl. lia.
Qed.

(** The end of input in state 5 is shifted and accepted. *)
Lemma step_finish v stk r st :
  conf w ((5, v) :: stk) [] r st -> Z.of_nat (length stk) + 2 < YYMAXDEPTH ->
  exists st1 st2, step st = Next st1 /\ step st1 = Accept st2 /\ res st2 = r.
Proof using Hstk.
  intros HC Hlen.
  edestruct (step_room w mal stack_alloc Hstk _ _ _ _ _ _ HC) as (st1 & HC1 & _ & Hsz & ->);
    [lia|].
  destruct HC1 as [H1 Hi1 Hr1 He1 [Hd1 Hl1]].
  destruct (lookahead_input _ _ _ Hi1) as (_ & Hc2 & H2 & Hz2 & He2 & Hr2 & _ & _).
  change (5 =? YYFINAL) with false. cbv iota. unfold yybackup.
  change (tab yypact 5 =? YYPACT_NINF) with false. cbv iota zeta. rewrite Hc2.
  simpl peek. cbn -[yylookahead Z.eqb Z.leb yystep].
  edestruct (step_grow w mal stack_alloc Hstk 9 (yylval (yylookahead w st1))
    ((5, v) :: stk)) as (n & Hn & Hn' & E2).
  4: { eexists _, _. split; [reflexivity|]. split; [exact E2|exact (eq_trans Hr2 Hr1)]. }
  - cbn [yystack]. by rewrite H2, H1.
  - split; cbn [yystacksize yystack]; [lia|]. rewrite H2, H1. simpl length. lia.
  - simpl length. lia.
Qed.

(** A formula of the language takes the driver to acceptance with its tree. *)
Lemma parse_accept p ts e :
  scan w p ts -> prec 0 ts e -> Z.of_nat (length ts) + 3 < YYMAXDEPTH ->
  exists st st', steps (yyinit p) st /\ step st = Accept st' /\ res st' = Some e.
Proof using Hstk Hmal.
  intros Hs Hp Hlen. apply input_init in Hs.
  assert (reaches (yyinit p) [(0, VNone)] (ts ++ []) None) as R.
  { rewrite app_nil_r. exists (yyinit p). split; [constructor|done]. }
  pose proof (parse_prec _ _ _ Hp _ 0 0%nat _ [] _ _ R eq_refl (le_n _)
    ltac:(by exists 0%nat) ltac:(len)) as (st & R1 & HC).
  destruct (step_reduce w mal stack_alloc Hstk _ _ _ _ _ _ HC) as (st1 & E & HC1 & _);
    [len|done|done|done|].
  change (tab yydefact (goto_exp 0)) with 2 in E. unfold yyreduce in E.
  rewrite (conf_stack _ _ _ _ _ HC1) in E.
  change (Z.to_nat (tab yyr2 2)) with 1%nat in E. change (tab yyr1 2) with 17 in E.
  cbn -[yystep yygoto] in E. change (yygoto 17 0) with 5 in E.
  match type of E with _ = Next ?x => 
    assert (conf w [(5, VExp (Some e)); (0, VNone)] [] (Some e) x) as HC2 end.
  { destruct HC1 as [Hs1 Hi1 Hr1 He1 [Hd1 Hl1]]. rewrite Hs1 in Hl1. simpl length in Hl1.
    split; simpl; auto; [by apply (input_same _ st1)|]. split; simpl; lia. }
  destruct (step_finish _ _ _ _ HC2) as (st2 & st3 & E2 & E3 & Hr); [len|].
  exists st2, st3. split; [|done]. eapply rtc_r; [|exact E2].
  eapply rtc_r; [exact R1|exact E].
Qed.
End Complete.
