(* ===== verification/PluralSound.v ===== *)
(** * The plural-formula parser terminates and accepts only its grammar

    The invariant [top_ok] describes every stack the LALR driver can have, with
    the tokens it stands for and the precedence levels of the expressions on
    it.  Every step preserves it and decreases [measure]; so [yyparse] returns
    for every input, every allocation failure pattern and every word width, and
    what it accepts is derived by the stratified grammar. *)

From S2P Require Import Prelude PluralExp PluralParse PluralGrammar PluralCorrect.

Open Scope Z_scope.

Lemma lev_le c k : lev c = Some k -> (k <= 6)%nat.
Proof. unfold lev. intros H. repeat (case_if_in H; [injection H; lia|]). done. Qed.

(** ** The scanner *)

Lemma skip_blanks_length p : (length (skip_blanks p) <= length p)%nat.
Proof. induction p; simpl; [lia|]. case_if; simpl; lia. Qed.

Lemma lex_number_length w n p : (length (snd (lex_number w n p)) <= length p)%nat.
Proof.
  revert n. induction p as [|c p IH]; intros n; simpl; [lia|].
  case_if; simpl; [|lia]. etransitivity; [apply IH|]. lia.
Qed.

Lemma cur_cons p c : cur p = c -> c <> 0 -> exists p', p = c :: p'.
Proof. destruct p; simpl; intros <- ?; [done|eauto]. Qed.

(** The values the scanner gives to the codes that carry one. *)
Definition well_tok (c : Z) (v : YYSTYPE) : Prop :=
  match v with
  | VNone => c < EQUOP2
  | VNum _ => c = NUMBER
  | VOp _ => EQUOP2 <= c < NUMBER
  | VExp _ => False
  end.

#[local] Ltac tok := right; eexists _, _, _; split_and!;
    [| | | |intros lval; eexists; split; [reflexivity|cbv; reflexivity]];
    [done|simpl; tauto|by cbv| ].

(** One token: its code does not depend on the old value, it is a code the
    parser knows, and unless it is the end of input it takes a byte or more. *)
Lemma yylex_spec w p :
  (exists p', forall lval, yylex w lval p = (YYEOF, lval, p')) \/
  exists c v p', 0 < c /\ In c codes /\ well_tok c v /\ (length p' < length p)%nat /\
    forall lval, exists lval', yylex w lval p = (c, lval', p') /\ tokval c lval' = v.
Proof.
  pose proof (skip_blanks_length p) as Hl. unfold yylex.
  destruct (skip_blanks p) as [|c q]; [by left; eauto|]. simpl in Hl.
  assert (Hd : forall n, (length (drop n q) <= length q)%nat)
    by (intros; rewrite length_drop; lia).
  destruct (is_digit c).
  { right. pose proof (lex_number_length w (c - chr "0") q) as Hn.
    destruct (lex_number w (c - chr "0") q) as [n q']. simpl in Hn.
    exists NUMBER, (VNum n), q'. split_and!; [done|simpl; tauto|done|lia|eauto]. }
  repeat (case_if; [
    repeat match goal with H : (_ || _) = true |- _ => apply orb_true_iff in H as [H|H] end;
    breflect; subst; try case_if;
    first [by left; eauto | tok; specialize (Hd 1%nat); lia]|]).
  tok. lia.
Qed.

(** The scanner cuts every input into finitely many tokens. *)
Lemma scan_total w p : exists ts, scan w p ts /\ (length ts <= length p)%nat.
Proof.
  induction p as [p IH] using (induction_ltof1 _ (@length Z)). unfold ltof in IH.
  destruct (yylex_spec w p) as [[p' Hp]|(c & v & p' & Hc & Hin & _ & Hl & Hp)].
  - exists []. split; [|simpl; lia]. apply scan_eof. eauto.
  - destruct (IH p' Hl) as (ts & Hs & Hlen). exists ((c, v) :: ts).
    split; [by eapply scan_tok|]. simpl; lia.
Qed.

Lemma scan_functional w p ts ts' : scan w p ts -> scan w p ts' -> ts = ts'.
Proof.
  intros H. revert ts'. induction H as [p Hp|p c p' ts v Hc Hl Hs IH]; intros ts' H'.
  - inversion H' as [|q c q' ts1 v Hc Hl]; subst; [done|].
    destruct (Hp VNone) as (? & E). destruct (Hl VNone) as (? & E' & _).
    rewrite E in E'. injection E' as <- _ _. done.
  - destruct (Hl VNone) as (lv & E & Hv).
    inversion H' as [q Hq|q c' q' ts1 v' Hc' Hl' Hs']; subst.
    + destruct (Hq VNone) as (? & E'). rewrite E in E'. by injection E' as -> _ _.
    + destruct (Hl' VNone) as (lv' & E' & Hv'). rewrite E in E'.
      injection E' as <- <- <-. rewrite <- Hv'. f_equal. auto.
Qed.

Lemma scan_head w p c v ts : scan w p ((c, v) :: ts) -> In c codes /\ well_tok c v.
Proof.
  intros H. inversion H as [|q c0 q' ts' v0 Hc Hl Hs]; subst.
  destruct (yylex_spec w p) as [[p' Hp]|(c' & v' & p' & _ & Hin & Hv & _ & Hp)].
  - destruct (Hl VNone) as (? & E & _). rewrite Hp in E. by injection E as <- _ _.
  - destruct (Hl VNone) as (? & E & ?). destruct (Hp VNone) as (? & E' & ?).
    rewrite E in E'. injection E' as <- <- _. by subst.
Qed.

Lemma scan_codes w p ts : scan w p ts -> In (peek ts) codes.
Proof.
  destruct ts as [|[c v] ts]; [simpl; auto|]. intros H. by apply scan_head in H as [? _].
Qed.

(** ** Table facts *)

Lemma lev_bintok c l v :
  lev c = Some l -> (1 <= l)%nat -> c <> chr "?" -> well_tok c (tokval c v) ->
  exists op, bintok l (c, tokval c v) op.
Proof.
  intros Hl H1 Hq. pose proof (lev_code _ _ Hl) as Hc. simpl in Hc.
  destruct_or? Hc; subst c; cbv in Hl; simplify_eq; try lia; try done; cbv -[Z.lt Z.le];
    try (by eexists; constructor); destruct v; try done; try lia;
    intros; eexists; constructor.
Qed.

Definition is_term (s : Z) : bool :=
  ((1 <=? s) && (s <=? 4)) || ((10 <=? s) && (s <=? 17)) || (s =? 25).

Fixpoint terms (stk : list (Z * YYSTYPE)) : nat :=
  match stk with
  | [] => 0
  | (s, _) :: stk => (if is_term s then 1 else 0) + terms stk
  end.

Lemma terms_app l k : terms (l ++ k) = (terms l + terms k)%nat.
Proof. induction l as [|[s v] l IH]; simpl; [done|]. rewrite IH. lia. Qed.

(** What a state that awaits an expression shifts. *)
Lemma shift_wait s m c s' :
  minlev s = Some m -> In c codes -> shift s c = Some s' ->
  In (c, s') [(33, 1); (110, 3); (262, 2); (40, 4)].
Proof.
  intros Hm Hc Hs. destruct (minlev_range _ _ Hm) as [Hr _].
  pose proof (for_states_codes (fun s c => match minlev s, shift s c with
    | Some _, Some s' => existsb (fun x => (fst x =? c) && (snd x =? s'))
                           [(33, 1); (110, 3); (262, 2); (40, 4)]
    | _, _ => true end) (ltac:(vm_compute; reflexivity)) s c Hr Hc) as P.
  cbv beta in P. rewrite Hm, Hs in P. apply existsb_exists in P.
  destruct P as ([c1 s1] & Hin & P). simpl in P. by breflect; subst.
Qed.

(** What the state after an expression shifts. *)
Lemma shift_exp s m c s' :
  minlev s = Some m -> In c codes -> shift (goto_exp s) c = Some s' ->
  (exists l, lev c = Some l /\ (1 <= l)%nat /\ (m <= l)%nat /\ c <> chr "?" /\ s' = 10 + Z.of_nat l) \/
  (c = chr "?" /\ m = 0%nat /\ s' = 10) \/
  (c = chr ")" /\ s = 4 /\ s' = 17) \/ (c = chr ":" /\ s = 10 /\ s' = 25).
Proof.
  intros Hm Hc Hs. destruct (minlev_range _ _ Hm) as [Hr _].
  pose proof (for_states_codes (fun s c => match minlev s, shift (goto_exp s) c with
    | Some m, Some s' =>
        match lev c with
        | Some l => (1 <=? l)%nat && (m <=? l)%nat && negb (c =? chr "?") && (s' =? 10 + Z.of_nat l)
        | None => false
        end
        || ((c =? chr "?") && (m =? 0)%nat && (s' =? 10))
        || ((c =? chr ")") && (s =? 4) && (s' =? 17))
        || ((c =? chr ":") && (s =? 10) && (s' =? 25))
    | _, _ => true end) (ltac:(vm_compute; reflexivity)) s c Hr Hc) as P.
  cbv beta in P. rewrite Hm, Hs in P.
  rewrite !orb_true_iff in P. destruct P as [[[P|P]|P]|P].
  - left. destruct (lev c) as [l|]; [|done]. breflect.
    exists l. rewrite Nat.leb_le in *. auto 6.
  - right; left. breflect. rewrite Nat.eqb_eq in *. auto.
  - do 2 right; left. by breflect.
  - do 3 right. by breflect.
Qed.

Lemma shift_start_state c s' : In c codes -> shift 5 c = Some s' -> c = 0 /\ s' = 9.
Proof.
  intros Hc. simpl in Hc. destruct_or? Hc; subst; cbv; intros [= <-]; try done.
Qed.

Lemma shift_positive s c s' : 0 <= s < 27 -> In c codes -> shift s c = Some s' -> 0 < s'.
Proof.
  intros Hs Hc Hsh.
  pose proof (for_states_codes (fun s c => match shift s c with
    | Some s' => 0 <? s' | None => true end) (ltac:(vm_compute; reflexivity)) s c Hs Hc) as P.
  cbv beta in P. rewrite Hsh in P. by breflect.
Qed.

(** No state can shift the [error] token: every syntax error is fatal. *)
Lemma yyerrpop_none stk : yyerrpop stk = None.
Proof.
  induction stk as [|[s v] stk IH]; [done|]. cbn [yyerrpop]. rewrite IH.
  set (t := tab yypact s).
  assert (In t (0 :: yypact)) as Ht.
  { unfold t, tab. destruct (nth_in_or_default (Z.to_nat s) yypact 0) as [? | ->];
      [by right|by left]. }
  assert (negb (t =? YYPACT_NINF) && ((0 <=? t + YYTERROR) && (t + YYTERROR <=? YYLAST)
      && (tab yycheck (t + YYTERROR) =? YYTERROR)) = false) as ->; [|done].
  clearbody t. revert t Ht. apply List.Forall_forall. by repeat constructor.
Qed.

(** ** The invariant *)

(** The value of an expression entry: the tree of the tokens [te] at level [l],
    or [NULL] after an allocation failure. *)
Definition exp_ok (l : nat) (te : list token) (oe : option expression) : Prop :=
  forall e, oe = Some e -> prec l te e.

Lemma exp_ok_mono k l te oe : (k <= l <= 7)%nat -> exp_ok l te oe -> exp_ok k te oe.
Proof.
  intros [Hkl Hl] H e He. specialize (H e He). clear He.
  induction Hkl as [|l Hkl IH]; [done|]. apply IH; [lia|]. apply p_up; [lia|done].
Qed.

(** Stacks whose top state awaits an expression. *)
Inductive waiting : list (Z * YYSTYPE) -> list token -> Prop :=
| wait_init v : waiting [(0, v)] []
| wait_not s v stk ts v' :
    waiting ((s, v) :: stk) ts -> waiting ((1, v') :: (s, v) :: stk) (ts ++ [tNot])
| wait_open s v stk ts v' :
    waiting ((s, v) :: stk) ts -> waiting ((4, v') :: (s, v) :: stk) (ts ++ [tOpen])
| wait_op s v stk ts m l c v' op te oe :
    waiting ((s, v) :: stk) ts -> minlev s = Some m -> (m <= l)%nat ->
    bintok l (c, tokval c v') op -> exp_ok l te oe ->
    waiting ((10 + Z.of_nat l, v') :: (goto_exp s, VExp oe) :: (s, v) :: stk)
      (ts ++ te ++ [(c, tokval c v')])
| wait_if s v stk ts v' te oe :
    waiting ((s, v) :: stk) ts -> minlev s = Some 0%nat -> exp_ok 1 te oe ->
    waiting ((10, v') :: (goto_exp s, VExp oe) :: (s, v) :: stk) (ts ++ te ++ [tQ])
| wait_colon v stk ts v' te oe :
    waiting ((10, v) :: stk) ts -> exp_ok 0 te oe ->
    waiting ((25, v') :: (18, VExp oe) :: (10, v) :: stk) (ts ++ te ++ [tColon]).

(** All stacks of the driver, with the tokens they stand for, those still to
    come and [res]. *)
Inductive top_ok (rest : list token) :
    list (Z * YYSTYPE) -> list token -> option expression -> Prop :=
| top_wait stk ts : waiting stk ts -> top_ok rest stk ts None
| top_num stk ts k :
    waiting stk ts -> top_ok rest ((2, VNum k) :: stk) (ts ++ [tNum k]) None
| top_var stk ts v :
    waiting stk ts -> top_ok rest ((3, v) :: stk) (ts ++ [tVar]) None
| top_exp s v stk ts m k te oe :
    waiting ((s, v) :: stk) ts -> minlev s = Some m -> (m <= k <= 7)%nat ->
    exp_ok k te oe ->
    (forall j, lev (peek rest) = Some j -> (j <= k)%nat) ->
    top_ok rest ((goto_exp s, VExp oe) :: (s, v) :: stk) (ts ++ te) None
| top_close v stk ts te oe v' :
    waiting ((4, v) :: stk) ts -> exp_ok 0 te oe ->
    top_ok rest ((17, v') :: (8, VExp oe) :: (4, v) :: stk) (ts ++ te ++ [tClose]) None
| top_start v v0 ts e :
    prec 0 ts e -> top_ok rest [(5, v); (0, v0)] ts (Some e).

(** Either such a stack with the tokens of the whole input, or the final one. *)
Inductive inv (w : Z) (p : cstr) (st : pstate) : list token -> Prop :=
| inv_top ts rest :
    scan w p (ts ++ rest) -> input w st rest -> yyerrstatus st = 0 ->
    top_ok rest (yystack st) ts (res st) -> inv w p st rest
| inv_final v v5 v0 ts e :
    yystack st = [(9, v); (5, v5); (0, v0)] -> res st = Some e ->
    scan w p ts -> prec 0 ts e -> inv w p st [].

Definition measure (stk : list (Z * YYSTYPE)) (rest : list token) : nat :=
  (2 * length rest + terms stk +
   match stk with
   | (s, _) :: _ => if (s =? 9)%Z then 0 else if (s =? 5)%Z then 1 else 2
   | [] => 0
   end)%nat.

Lemma waiting_minlev s v stk ts :
  waiting ((s, v) :: stk) ts -> exists m, minlev s = Some m /\ (m <= 7)%nat.
Proof.
  inversion 1; subst; try match goal with H : bintok _ _ _ |- _ => inversion H; subst end;
    simpl; eexists; (split; [reflexivity|lia]).
Qed.

Lemma goto_not_term s m : minlev s = Some m -> is_term (goto_exp s) = false.
Proof.
  intros Hm. destruct (minlev_range _ _ Hm) as [Hr _].
  pose proof (for_states (fun s => match minlev s with None => true
    | Some _ => negb (is_term (goto_exp s)) end) (ltac:(vm_compute; reflexivity)) s Hr) as P.
  cbv beta in P. rewrite Hm in P. by breflect.
Qed.

Lemma scan_app w p ts rest : scan w p (ts ++ rest) -> exists q, scan w q rest.
Proof.
  revert p. induction ts as [|t ts IH]; intros p H; [eauto|].
  inversion H; subst. eauto.
Qed.

(** ** One step *)

(** Close a goal that is [H] up to associativity of [++]. *)
#[local] Ltac reassoc H :=
  revert H; repeat (rewrite <- app_assoc || rewrite <- app_comm_cons); cbn [app];
  repeat (rewrite <- app_assoc || rewrite <- app_comm_cons); cbn [app]; auto.

Section Step.
Context (w : Z) (mal : nat -> bool) (stack_alloc : Z -> bool) (p : cstr).
Notation step := (yystep w mal stack_alloc).

(** [yybackup] as a function of the next token alone. *)
Lemma backup_cases s st rest :
  input w st rest -> yyerrstatus st = 0 -> 0 <= s < 27 -> In (peek rest) codes ->
  exists st',
    yystack st' = yystack st /\ res st' = res st /\ yyerrstatus st' = 0 /\
    input w st' rest /\
    yybackup w mal s st =
    match shift s (peek rest) with
    | Some s' =>
        Next (PState ((s', yylval st') :: yystack st') (yystacksize st') YYEMPTY
                (yylval st') 0 (yynerrs st') (cp st') (res st') (nalloc st'))
    | None => yydefault mal s st'
    end /\
    match rest with [] => True | (c, v) :: rest' =>
      shift s c <> None -> tokval c (yylval st') = v /\ scan w (cp st') rest' end.
Proof using Type.
  intros Hi He Hs Hc. pose proof (shift_positive s (peek rest)) as Hpos.
  unfold yybackup, shift in *. destruct (tab yypact s =? YYPACT_NINF) eqn:Hn.
  { exists st. split_and!; auto. destruct rest as [|[c v] rest]; [done|].
    cbn [orb]. by intros []. }
  destruct (lookahead_input _ _ _ Hi) as (Hi2 & Hc2 & H2 & Hz2 & He2 & Hr2 & Hn2 & Hv2).
  exists (yylookahead w st). split_and!; [done|done|congruence|done| |].
  - rewrite Hc2. cbv zeta in *. cbn [orb] in *.
    destruct (_ || _); [done|]. specialize (Hpos _ Hs Hc eq_refl).
    rewrite (proj2 (Z.leb_gt _ _)) by lia. by rewrite He2, He.
  - destruct rest as [|[c v] rest]; [done|]. by intros _.
Qed.

Lemma default_error s st : tab yydefact s = 0 -> exists st', yydefault mal s st = Abort st'.
Proof using Type.
  intros H. unfold yydefault. rewrite H. cbn [Z.eqb]. unfold yyerrlab.
  rewrite yyerrpop_none. case_if; eauto.
Qed.

(** What a step must lead to: a smaller state with the invariant, an accepted
    formula, or an error. *)
Definition step_ok (stk : list (Z * YYSTYPE)) (rest : list token) (o : outcome) : Prop :=
  match o with
  | Next st' => exists rest', inv w p st' rest' /\
      (measure (yystack st') rest' < measure stk rest)%nat
  | Accept st' => exists ts e, res st' = Some e /\ scan w p ts /\ prec 0 ts e
  | Abort _ | Exhausted _ => True
  end.

(** The reductions: what [yyreduce] makes of the handles on the stack. *)
Lemma reduce_exp yyn n s v stk handle st ts te m k rest :
  yystack st = handle ++ (s, v) :: stk -> length handle = n ->
  Z.to_nat (tab yyr2 yyn) = n -> tab yyr1 yyn = 18 ->
  input w st rest -> yyerrstatus st = 0 -> scan w p ((ts ++ te) ++ rest) ->
  waiting ((s, v) :: stk) ts -> minlev s = Some m -> (m <= k <= 7)%nat ->
  (forall j, lev (peek rest) = Some j -> (j <= k)%nat) ->
  (exists oe i,
    yyaction mal yyn
      (fun k => snd (nth (n - k) (yystack st) (0, VNone)))
      (snd (nth (n - 1) (yystack st) (0, VNone))) (res st) (nalloc st)
    = Some (VExp oe, None, i) /\ exp_ok k te oe) ->
  (0 < terms handle)%nat -> match handle with (s1, _) :: _ => s1 <> 9 /\ s1 <> 5 | [] => False end ->
  step_ok (yystack st) rest (yyreduce mal yyn st).
Proof using Type.
  intros Hst Hlen Hn H18 Hi He Hsc Hw Hm Hk Hf (oe & i & Ha & Hoe) Ht Hh.
  unfold yyreduce. rewrite Hn, Ha, H18. 
  assert (drop n (yystack st) = (s, v) :: stk) as ->.
  { rewrite Hst, <- Hlen. apply drop_app_length. }
  exists rest. split.
  - apply (inv_top _ _ _ (ts ++ te)); simpl; auto; [by apply (input_same _ st)|].
    by apply (top_exp _ _ _ _ _ m k).
  - rewrite Hst. cbn [yystack]. unfold measure. rewrite terms_app.
    destruct handle as [|[s1 v1] handle]; [done|]. cbn [app]. destruct Hh.
    rewrite (proj2 (Z.eqb_neq s1 9)), (proj2 (Z.eqb_neq s1 5)) by done.
    change (yygoto 18 s) with (goto_exp s).
    cbn [terms]. rewrite (goto_not_term _ _ Hm). cbn [terms] in Ht.
    destruct (goto_exp s =? 9), (goto_exp s =? 5), (is_term s1); simpl; lia.
Qed.
(** A shift. *)
Lemma shift_token s st st' c v ts rest stk s' lv z1 z2 z3 z4 :
  yystack st = (s, lv) :: stk -> s <> 9 -> s <> 5 ->
  scan w p (ts ++ (c, v) :: rest) -> scan w st' rest ->
  top_ok rest ((s', z1) :: yystack st) (ts ++ [(c, v)]) (res st) ->
  step_ok (yystack st) ((c, v) :: rest)
    (Next (PState ((s', z1) :: yystack st) z2 YYEMPTY z1 0 z3 st' (res st) z4)).
Proof using Type.
  intros Hst H9 H5 Hsc Hsc' Ht. exists rest. split.
  - apply (inv_top _ _ _ (ts ++ [(c, v)])); simpl; auto; [by rewrite <- app_assoc|].
    by apply input_empty.
  - cbn [yystack]. rewrite Hst. unfold measure. cbn [terms length].
    rewrite (proj2 (Z.eqb_neq s 9)), (proj2 (Z.eqb_neq s 5)) by done.
    destruct (s' =? 9), (s' =? 5), (is_term s'); simpl; lia.
Qed.

Lemma waiting_cons stk ts : waiting stk ts -> exists s v stk', stk = (s, v) :: stk'.
Proof using Type. inversion 1; eauto. Qed.

Lemma minlev_facts s m :
  minlev s = Some m -> tab yydefact s = 0 /\ s <> 9 /\ s <> 5 /\ goto_exp s <> 5.
Proof using Type.
  intros Hm. destruct (minlev_range _ _ Hm) as [Hr ?].
  pose proof (for_states (fun s => match minlev s with None => true
    | Some _ => (tab yydefact s =? 0) && negb (s =? 5) && negb (goto_exp s =? 5) end)
    (ltac:(vm_compute; reflexivity)) s Hr) as P.
  cbv beta in P. rewrite Hm in P. by breflect.
Qed.

Lemma step_wait st s v stk ts rest :
  input w st rest -> yyerrstatus st = 0 -> scan w p (ts ++ rest) ->
  yystack st = (s, v) :: stk -> res st = None -> waiting ((s, v) :: stk) ts ->
  step_ok (yystack st) rest (yybackup w mal s st).
Proof using Type.
  intros Hi He Hsc Hst Hr Hw.
  destruct (waiting_minlev _ _ _ _ Hw) as (m & Hm & Hm7).
  destruct (minlev_facts _ _ Hm) as (Hd & H9 & H5 & _).
  destruct (minlev_range _ _ Hm) as [Hrg _].
  destruct (scan_app _ _ _ _ Hsc) as [q Hq]. assert (Hc := scan_codes _ _ _ Hq).
  destruct (backup_cases s st rest Hi He Hrg Hc) as (st1 & Hst1 & Hr1 & He1 & Hi1 & -> & Hl).
  destruct (shift s (peek rest)) as [s'|] eqn:Hsh.
  2:{ destruct (default_error s st1 Hd) as [? ->]. done. }
  pose proof (shift_wait s m _ _ Hm Hc Hsh) as Hin.
  destruct rest as [|[c tv] rest]; [by simpl in Hin; destruct_or? Hin|].
  cbn [peek] in *. destruct Hl as [Hv Hs']; [congruence|]. rewrite <- Hst1.
  destruct (scan_head _ _ _ _ _ Hq) as [_ Hwt].
  rewrite Hst in Hst1. rewrite Hr in Hr1.
  apply (shift_token s st1 _ c tv ts rest stk s' v); try congruence.
  rewrite Hst1, Hr1.
  generalize dependent (yylval st1). intros lv Hv.
  simpl in Hin. destruct_or? Hin; injection Hin as <- <-; cbv in Hv.
  - rewrite <- Hv. by apply top_wait, wait_not.
  - rewrite <- Hv. by apply (top_var _ _ _ lv).
  - subst tv. destruct lv as [|k| |];
      simpl in Hwt; unfold EQUOP2, NUMBER in Hwt; try lia; try contradiction.
    by apply (top_num _ _ _ k).
  - rewrite <- Hv. by apply top_wait, wait_open.
Qed.

(** States whose default reduction is taken without a lookahead. *)
Lemma backup_ninf s st :
  tab yypact s = YYPACT_NINF -> yybackup w mal s st = yydefault mal s st.
Proof using Type. intros H. unfold yybackup. by rewrite (proj2 (Z.eqb_eq _ _) H). Qed.

Lemma step_atom st s1 v1 stk ts te rest oe :
  input w st rest -> yyerrstatus st = 0 -> scan w p ((ts ++ te) ++ rest) ->
  yystack st = (s1, v1) :: stk -> res st = None -> waiting stk ts ->
  s1 = 2 \/ s1 = 3 -> prec 7 te oe ->
  (forall i, yyaction mal (tab yydefact s1) (fun _ => v1) v1 None i
           = Some (VExp (if mal i then Some oe else None), None, S i)) ->
  step_ok (yystack st) rest (yybackup w mal s1 st).
Proof using Type.
  intros Hi He Hsc Hst Hr Hw Hs1 Hp Ha.
  destruct (waiting_cons _ _ Hw) as (s & v & stk' & ->).
  destruct (waiting_minlev _ _ _ _ Hw) as (m & Hm & Hm7).
  rewrite backup_ninf by (destruct Hs1; subst; reflexivity).
  unfold yydefault. rewrite (proj2 (Z.eqb_neq _ _)) by (by destruct Hs1; subst).
  apply (reduce_exp _ 1 s v stk' [(s1, v1)] st ts te m 7); auto; try (by destruct Hs1; subst).
  - intros j Hj. apply lev_le in Hj. lia.
  - rewrite Hst, Hr. eexists _, _. split; [apply Ha|].
    destruct (mal (nalloc st)); [|done]. by intros ? [= <-].
  - destruct Hs1; subst; simpl; lia.
Qed.

Lemma waiting_open v stk ts :
  waiting ((4, v) :: stk) ts ->
  exists s v1 stk1 ts1, stk = (s, v1) :: stk1 /\ ts = ts1 ++ [tOpen] /\
    waiting ((s, v1) :: stk1) ts1.
Proof using Type.
  inversion 1; subst; [eauto 10|lia].
Qed.

Lemma waiting_if v stk ts :
  waiting ((10, v) :: stk) ts ->
  exists s v1 stk1 ts1 ta oa, stk = (goto_exp s, VExp oa) :: (s, v1) :: stk1 /\
    ts = ts1 ++ ta ++ [tQ] /\ waiting ((s, v1) :: stk1) ts1 /\
    minlev s = Some 0%nat /\ exp_ok 1 ta oa.
Proof using Type.
  inversion 1; subst; [|eauto 15].
  match goal with H : bintok _ _ _ |- _ => apply bintok_level in H; lia end.
Qed.

Lemma step_close st v0 v stk ts te oe v' rest :
  input w st rest -> yyerrstatus st = 0 -> scan w p ((ts ++ te ++ [tClose]) ++ rest) ->
  yystack st = (17, v') :: (8, VExp oe) :: (4, v) :: stk -> res st = None ->
  waiting ((4, v) :: stk) ts -> exp_ok 0 te oe -> v0 = v ->
  step_ok (yystack st) rest (yybackup w mal 17 st).
Proof using Type.
  intros Hi He Hsc Hst Hr Hw Hoe _.
  rewrite backup_ninf by reflexivity. unfold yydefault.
  change (tab yydefact 17) with 13. cbn [Z.eqb].
  destruct (waiting_open _ _ _ Hw) as (s & v1 & stk1 & ts1 & -> & -> & Hw1).
  destruct (waiting_minlev _ _ _ _ Hw1) as (m & Hm & Hm7).
  apply (reduce_exp _ 3 s v1 stk1 [(17, v'); (8, VExp oe); (4, v)] st ts1
           (tOpen :: te ++ [tClose]) m 7); auto.
  - reassoc Hsc.
  - intros j Hj. apply lev_le in Hj. lia.
  - rewrite Hst, Hr. eexists _, _. split; [reflexivity|].
    intros e Hoe'. apply p_paren. by apply Hoe.
  - simpl; lia.
Qed.

(** What the node constructors give the grammar: a tree whose operands are
    those on the stack, or [NULL]. *)
Lemma new_exp_prec mal' op l te oes i oe j :
  new_exp mal' i op oes = (oe, j) ->
  (forall es, oes = map Some es -> prec l te (Expression op 0 es)) ->
  exp_ok l te oe.
Proof using Type.
  intros Hn Hp e ->. apply new_exp_Some in Hn as (es & -> & _ & -> & _). auto.
Qed.

(** The operator of an infix token is that of the rule that reduces it. *)
Lemma bintok_action l c v' op (v : nat -> YYSTYPE) dflt oa ob i :
  bintok l (c, tokval c v') op ->
  v 1%nat = VExp oa -> v 2%nat = v' -> v 3%nat = VExp ob ->
  yyaction mal (3 + Z.of_nat l) v dflt None i =
  let '(e, j) := new_exp_2 mal i op oa ob in Some (VExp e, None, j).
Proof using Type.
  intros Hb H1 H2 H3. unfold yyaction. rewrite H1, H2, H3. clear H1 H2 H3.
  inversion Hb; subst;
    try match goal with H : VOp _ = tokval _ _ |- _ => cbv in H; subst v' end;
    simpl; destruct (new_exp_2 _ _ _ _ _); done.
Qed.

Lemma rule_op l : (1 <= l <= 6)%nat ->
  tab yydefact (goto_exp (10 + Z.of_nat l)) = 3 + Z.of_nat l /\
  Z.to_nat (tab yyr2 (3 + Z.of_nat l)) = 3%nat /\ tab yyr1 (3 + Z.of_nat l) = 18 /\
  minlev (10 + Z.of_nat l) = Some (S l).
Proof using Type.
  intros Hl. do 7 (destruct l as [|l]; [try lia; by vm_compute|]). lia.
Qed.

Lemma reduce_op st s v stk ts m l c v' op ta oa tb ob rest :
  input w st rest -> yyerrstatus st = 0 ->
  scan w p (((ts ++ ta ++ [(c, tokval c v')]) ++ tb) ++ rest) ->
  yystack st = (goto_exp (10 + Z.of_nat l), VExp ob) :: (10 + Z.of_nat l, v')
                 :: (goto_exp s, VExp oa) :: (s, v) :: stk ->
  res st = None -> waiting ((s, v) :: stk) ts -> minlev s = Some m -> (m <= l)%nat ->
  bintok l (c, tokval c v') op -> exp_ok l ta oa -> exp_ok (S l) tb ob ->
  In (peek rest) codes -> shift (goto_exp (10 + Z.of_nat l)) (peek rest) = None ->
  step_ok (yystack st) rest (yydefault mal (goto_exp (10 + Z.of_nat l)) st).
Proof using Type.
  intros Hi He Hsc Hst Hr Hw Hm Hml Hop Ha Hb Hc Hns.
  pose proof (bintok_level _ _ _ Hop) as Hl. destruct (rule_op l Hl) as (Hd & Hn & H18 & Hml').
  unfold yydefault. rewrite Hd, (proj2 (Z.eqb_neq _ _)) by lia.
  apply (reduce_exp _ 3 s v stk
    [(goto_exp (10 + Z.of_nat l), VExp ob); (10 + Z.of_nat l, v'); (goto_exp s, VExp oa)]
    st ts (ta ++ (c, tokval c v') :: tb) m l); auto; [reassoc Hsc|lia| | | |].
  - intros j Hj. destruct (Nat.le_gt_cases j l) as [|Hjl]; [done|exfalso].
    rewrite (shift_op _ (S l) _ j) in Hns; auto; try lia; [done|].
    intros Hq. rewrite Hq in Hj. cbv in Hj. injection Hj as <-. lia.
  - rewrite Hst, Hr. simpl. destruct (new_exp_2 mal (nalloc st) op oa ob) as [oe j] eqn:E.
    exists oe, j. split.
    + rewrite (bintok_action l c v' op _ _ oa ob) by done. by rewrite E.
    + apply (new_exp_prec _ _ _ _ _ _ _ _ E). intros es Hes.
      destruct es as [|a [|b [|]]]; try done. injection Hes as Hoa Hob.
      eapply p_bin; eauto.
  - simpl. destruct (is_term (goto_exp (10 + Z.of_nat l))); unfold is_term;
      rewrite (proj2 (Z.leb_le 10 _)) by lia; rewrite (proj2 (Z.leb_le _ 17)) by lia;
      rewrite orb_true_r; simpl; lia.
  - destruct (minlev_facts _ _ Hml') as (_ & _ & _ & H5).
    destruct (goto_exp_ok _ _ Hml') as [_ H9]. auto.
Qed.

Lemma reduce_if st s v stk ts ta oa v' tb ob v'' tc oc rest :
  input w st rest -> yyerrstatus st = 0 ->
  scan w p ((((ts ++ ta ++ [tQ]) ++ tb ++ [tColon]) ++ tc) ++ rest) ->
  yystack st = (26, VExp oc) :: (25, v'') :: (18, VExp ob) :: (10, v')
                 :: (goto_exp s, VExp oa) :: (s, v) :: stk ->
  res st = None -> waiting ((s, v) :: stk) ts -> minlev s = Some 0%nat ->
  exp_ok 1 ta oa -> exp_ok 0 tb ob -> exp_ok 0 tc oc ->
  In (peek rest) codes -> shift 26 (peek rest) = None ->
  step_ok (yystack st) rest (yydefault mal 26 st).
Proof using Type.
  intros Hi He Hsc Hst Hr Hw Hm Ha Hb Hc Hcd Hns.
  unfold yydefault. change (tab yydefact 26) with 3. cbn [Z.eqb].
  apply (reduce_exp _ 5 s v stk
    [(26, VExp oc); (25, v''); (18, VExp ob); (10, v'); (goto_exp s, VExp oa)]
    st ts (ta ++ tQ :: tb ++ tColon :: tc) 0 0); auto;
    [reassoc Hsc|lia| | |].
  - intros j Hj. destruct j as [|j]; [lia|exfalso].
    change 26 with (goto_exp 25) in Hns.
    destruct (Z.eq_dec (peek rest) (chr "?")) as [E|E].
    + rewrite E, (shift_if 25) in Hns by done. done.
    + rewrite (shift_op 25 0 _ (S j)) in Hns; auto; lia || done.
  - rewrite Hst, Hr. simpl. unfold yyaction. simpl.
    destruct (new_exp_3 mal (nalloc st) qmop oa ob oc) as [oe j] eqn:E.
    exists oe, j. split; [done|].
    apply (new_exp_prec _ _ _ _ _ _ _ _ E). intros es Hes.
    destruct es as [|a [|b [|c [|]]]]; try done. injection Hes as Hoa Hob Hoc.
    apply p_if; auto.
  - simpl. lia.
Qed.

Lemma reduce_not st s v stk ts v' te oe rest :
  input w st rest -> yyerrstatus st = 0 -> scan w p (((ts ++ [tNot]) ++ te) ++ rest) ->
  yystack st = (7, VExp oe) :: (1, v') :: (s, v) :: stk -> res st = None ->
  waiting ((s, v) :: stk) ts -> exp_ok 7 te oe -> 
  step_ok (yystack st) rest (yydefault mal 7 st).
Proof using Type.
  intros Hi He Hsc Hst Hr Hw Hoe.
  destruct (waiting_minlev _ _ _ _ Hw) as (m & Hm & Hm7).
  unfold yydefault. change (tab yydefact 7) with 10. cbn [Z.eqb].
  apply (reduce_exp _ 2 s v stk [(7, VExp oe); (1, v')] st ts (tNot :: te) m 7);
    auto; [reassoc Hsc| |].
  - intros j Hj. apply lev_le in Hj. lia.
  - rewrite Hst, Hr. simpl. unfold yyaction. simpl.
    destruct (new_exp_1 mal (nalloc st) lnot oe) as [oe' j] eqn:E.
    exists oe', j. split; [done|].
    apply (new_exp_prec _ _ _ _ _ _ _ _ E). intros es Hes.
    destruct es as [|a [|]]; try done. injection Hes as Hoa. apply p_not; auto.
Qed.

Lemma reduce_start st v te oe rest :
  input w st rest -> yyerrstatus st = 0 -> scan w p (te ++ rest) ->
  yystack st = [(6, VExp oe); (0, v)] -> res st = None -> exp_ok 0 te oe ->
  step_ok (yystack st) rest (yydefault mal 6 st).
Proof using Type.
  intros Hi He Hsc Hst Hr Hoe.
  unfold yydefault. change (tab yydefact 6) with 2. cbn [Z.eqb].
  unfold yyreduce. change (Z.to_nat (tab yyr2 2)) with 1%nat.
  change (tab yyr1 2) with 17. rewrite Hst. unfold yyaction. cbn [get_exp nth Nat.sub snd drop Z.eqb].
  destruct oe as [e|]; [|done]. exists rest. change (yygoto 17 0) with 5.
  split; [|unfold measure; simpl; lia].
  apply (inv_top _ _ _ te); simpl; auto; [by apply (input_same _ st)|].
  apply top_start. by apply Hoe.
Qed.

(** The default action after an expression. *)
Lemma step_exp_reduce st s v stk ts m k te oe rest :
  input w st rest -> yyerrstatus st = 0 -> scan w p ((ts ++ te) ++ rest) ->
  yystack st = (goto_exp s, VExp oe) :: (s, v) :: stk -> res st = None ->
  waiting ((s, v) :: stk) ts -> minlev s = Some m -> (m <= k <= 7)%nat ->
  exp_ok k te oe -> In (peek rest) codes -> shift (goto_exp s) (peek rest) = None ->
  step_ok (yystack st) rest (yydefault mal (goto_exp s) st).
Proof using Type.
  intros Hi He Hsc Hst Hr Hw Hm Hk Hoe Hc Hns. apply (exp_ok_mono m) in Hoe; [|lia].
  inversion Hw; subst.
  - injection Hm as <-. by apply (reduce_start _ v te oe).
  - injection Hm as <-. by eapply (reduce_not).
  - change (goto_exp 4) with 8. by destruct (default_error 8 st) as [? ->].
  - match goal with H : bintok ?l _ _ |- _ =>
      destruct (rule_op l (bintok_level _ _ _ H)) as (_ & _ & _ & Hml) end.
    rewrite Hm in Hml. injection Hml as ->. by eapply reduce_op.
  - change (goto_exp 10) with 18. by destruct (default_error 18 st) as [? ->].
  - injection Hm as <-.
    match goal with H : waiting ((10, _) :: _) _ |- _ =>
      destruct (waiting_if _ _ _ H)
        as (s1 & v1 & stk1 & ts1 & ta & oa & -> & -> & Hw1 & Hm1 & Ha) end.
    eapply reduce_if; eauto.
Qed.

Lemma step_exp st s v stk ts m k te oe rest :
  input w st rest -> yyerrstatus st = 0 -> scan w p ((ts ++ te) ++ rest) ->
  yystack st = (goto_exp s, VExp oe) :: (s, v) :: stk -> res st = None ->
  waiting ((s, v) :: stk) ts -> minlev s = Some m -> (m <= k <= 7)%nat ->
  exp_ok k te oe -> (forall j, lev (peek rest) = Some j -> (j <= k)%nat) ->
  step_ok (yystack st) rest (yybackup w mal (goto_exp s) st).
Proof using Type.
  intros Hi He Hsc Hst Hr Hw Hm Hk Hoe Hf.
  destruct (minlev_facts _ _ Hm) as (_ & _ & _ & H5).
  destruct (goto_exp_ok _ _ Hm) as [Hrg H9]. unfold YYFINAL in H9.
  destruct (scan_app _ _ _ _ Hsc) as [q Hq]. assert (Hc := scan_codes _ _ _ Hq).
  destruct (backup_cases (goto_exp s) st rest Hi He Hrg Hc)
    as (st1 & Hst1 & Hr1 & He1 & Hi1 & -> & Hl).
  rewrite <- Hst1. rewrite Hst in Hst1. rewrite Hr in Hr1.
  destruct (shift (goto_exp s) (peek rest)) as [s'|] eqn:Hsh.
  - pose proof (shift_exp s m _ _ Hm Hc Hsh) as Hin.
    destruct rest as [|[c tv] rest].
    { cbn [peek] in Hin.
      destruct Hin as [(l & Hlev & Hl1 & _)|[(E & _)|[(E & _)|(E & _)]]]; try done.
      cbv in Hlev. injection Hlev as <-. lia. }
    cbn [peek] in *. destruct Hl as [Hv Hs']; [congruence|].
    destruct (scan_head _ _ _ _ _ Hq) as [_ Hwt].
    apply (shift_token (goto_exp s) st1 _ c tv (ts ++ te) rest ((s, v) :: stk) s' (VExp oe)); auto.
    rewrite Hst1, Hr1. generalize dependent (yylval st1). intros lv Hv.
    rewrite <- app_assoc.
    destruct Hin as [(l & Hlev & Hl1 & Hml & Hq' & ->)|[(-> & -> & ->)|[(-> & -> & ->)|(-> & -> & ->)]]].
    + subst tv. destruct (lev_bintok c l lv) as (op & Hop); auto.
      apply top_wait. apply (wait_op _ _ _ _ m l c lv op); auto.
      apply (exp_ok_mono _ k); auto. split; [by apply Hf|lia].
    + cbv in Hv. subst tv. apply top_wait. apply wait_if; auto.
      apply (exp_ok_mono _ k); auto. split; [by apply (Hf 1%nat)|lia].
    + cbv in Hv. subst tv. apply top_close; auto.
      apply (exp_ok_mono _ k); auto. lia.
    + cbv in Hv. subst tv. apply top_wait. apply wait_colon; auto.
      apply (exp_ok_mono _ k); auto. lia.
  - apply (step_exp_reduce st1 s v stk ts m k te oe); auto.
Qed.
Lemma step_start st v v0 ts e rest :
  input w st rest -> yyerrstatus st = 0 -> scan w p (ts ++ rest) ->
  yystack st = [(5, v); (0, v0)] -> res st = Some e -> prec 0 ts e ->
  step_ok (yystack st) rest (yybackup w mal 5 st).
Proof using Type.
  intros Hi He Hsc Hst Hr Hp.
  destruct (scan_app _ _ _ _ Hsc) as [q Hq]. assert (Hc := scan_codes _ _ _ Hq).
  destruct (backup_cases 5 st rest Hi He ltac:(lia) Hc) as (st1 & Hst1 & Hr1 & He1 & Hi1 & -> & _).
  destruct (shift 5 (peek rest)) as [s'|] eqn:Hsh.
  2:{ by destruct (default_error 5 st1) as [? ->]. }
  apply shift_start_state in Hsh as [Hz ->]; [|done].
  destruct rest as [|[c tv] rest].
  2:{ simpl in Hz. inversion Hq; subst. lia. }
  rewrite app_nil_r in Hsc. exists []. split; [|rewrite Hst; cbn [yystack]; rewrite Hst1, Hst; unfold measure; simpl; lia].
  eapply (inv_final _ _ _ _ _ _ ts e); simpl; [|congruence|done|done]. rewrite Hst1, Hst. done.
Qed.

(** One turn of [yysetstate] is a failure, or the rest of the driver in the
    same configuration. *)
Lemma yystep_cases st :
  let state := match yystack st with (s, _) :: _ => s | [] => 0 end in
  (exists st', step st = Exhausted st' \/ step st = Abort st') \/
  exists st1, yystack st1 = yystack st /\ yychar st1 = yychar st /\
    yylval st1 = yylval st /\ yyerrstatus st1 = yyerrstatus st /\
    cp st1 = cp st /\ res st1 = res st /\
    step st = if state =? YYFINAL then Accept st1 else yybackup w mal state st1.
Proof using Type.
  unfold yystep. cbv zeta. case_if; [|right; exists st; auto 10].
  case_if; [left; eauto|]. case_if; [left; eauto|]. case_if; [left; eauto|].
  right. eexists. split_and!; [..|reflexivity]; done.
Qed.

Lemma inv_step st rest : inv w p st rest -> step_ok (yystack st) rest (step st).
Proof using Type.
  intros H.
  destruct (yystep_cases st) as [(st' & [-> | ->])|(st1 & H1 & H2 & H3 & H4 & H5 & H6 & ->)]; [done..|].
  inversion H as [ts rest' Hsc Hi He Ht|v v5 v0 ts e Hst Hr Hsc Hp]; subst.
  2:{ rewrite Hst. simpl. exists ts, e. split; [congruence|done]. }
  apply (input_same _ _ st1) in Hi; auto. rewrite <- H4 in He. rewrite <- H1, <- H6 in *.
  inversion Ht as [stk ts' Hw Hst Hts Hr|stk ts' k Hw Hst Hts Hr|stk ts' v Hw Hst Hts Hr
    |s v stk ts' m k te oe Hw Hm Hk Hoe Hf Hst Hts Hr|v stk ts' te oe v' Hw Hoe Hst Hts Hr
    |v v0 ts' e Hp Hst Hts Hr]; subst.
  - destruct (waiting_cons _ _ Hw) as (s & v & stk' & Hst). rewrite Hst in Hw |- *.
    destruct (waiting_minlev _ _ _ _ Hw) as (m & Hm & _).
    destruct (minlev_facts _ _ Hm) as (_ & H9 & _).
    rewrite (proj2 (Z.eqb_neq _ _)) by done. rewrite <- Hst. by apply (step_wait st1 s v stk' ts).
  - cbn -[yybackup]. rewrite Hst.
    apply (step_atom st1 2 (VNum k) stk ts' [tNum k] rest (Expression op_num k []));
      auto using p_num. intros i. unfold yyaction, new_exp_0, new_exp. simpl. by destruct (mal i).
  - cbn -[yybackup]. rewrite Hst.
    apply (step_atom st1 3 v stk ts' [tVar] rest (Expression op_var 0 []));
      auto using p_var.
  - destruct (goto_exp_ok _ _ Hm) as [_ H9].
    rewrite (proj2 (Z.eqb_neq _ _)) by done. rewrite Hst. by apply (step_exp st1 s v stk ts' m k te oe).
  - cbn -[yybackup]. rewrite Hst. by apply (step_close st1 v v stk ts' te oe v').
  - cbn -[yybackup]. rewrite Hst. by apply (step_start st1 v v0 ts e).
Qed.
End Step.

(** ** The parser *)

Section Parse.
Context (w : Z) (mal : nat -> bool) (stack_alloc : Z -> bool) (p : cstr).

Lemma yyrun_ok fuel st rest :
  inv w p st rest -> (measure (yystack st) rest < fuel)%nat ->
  exists o, yyrun w mal stack_alloc fuel st = Some o /\
    match o with
    | Next _ => False
    | Accept st' => exists ts e, res st' = Some e /\ scan w p ts /\ prec 0 ts e
    | _ => True
    end.
Proof using Type.
  revert st rest. induction fuel as [|fuel IH]; intros st rest Hi Hm; [lia|].
  pose proof (inv_step w mal stack_alloc p st rest Hi) as Hs. simpl.
  destruct (yystep w mal stack_alloc st) as [st'|st'|st'|st'] eqn:E; simpl in Hs; eauto.
  destruct Hs as (rest' & Hi' & Hm'). apply (IH st' rest'); [done|lia].
Qed.

Lemma inv_init : exists rest, inv w p (yyinit p) rest /\
  (measure (yystack (yyinit p)) rest < yyfuel p)%nat.
Proof using Type.
  destruct (scan_total w p) as (ts & Hs & Hl). exists ts. split.
  - apply (inv_top _ _ _ [] ts); simpl; auto; [by apply input_empty|].
    apply top_wait, wait_init.
  - unfold measure, yyfuel. simpl. lia.
Qed.

(** A run that reaches a final outcome gives it for any fuel that is enough. *)
Lemma yyrun_steps fuel st st' o r :
  steps w mal stack_alloc st st' -> yystep w mal stack_alloc st' = o ->
  match o with Next _ => False | _ => True end ->
  yyrun w mal stack_alloc fuel st = Some r -> r = o.
Proof using Type.
  intros Hs Ho Hn. revert fuel. induction Hs as [st|st st1 st2 H1 Hs IH]; intros fuel Hr;
    destruct fuel as [|fuel]; try done; simpl in Hr.
  - rewrite Ho in Hr. destruct o; [done|congruence..].
  - rewrite H1 in Hr. by apply (IH Ho fuel).
Qed.

Lemma yyparse_cases :
  exists o, yyrun w mal stack_alloc (yyfuel p) (yyinit p) = Some o /\
    match o with
    | Next _ => False
    | Accept st' => exists ts e, res st' = Some e /\ scan w p ts /\ prec 0 ts e
    | _ => True
    end.
Proof using Type.
  destruct inv_init as (rest & Hi & Hm). by apply (yyrun_ok _ _ rest).
Qed.
End Parse.

(** C2. The parser returns for every input string, every pattern of allocation
    failures and every word width: the fuel it is given is always enough, and
    the result code is one of the three of Bison's driver. *)
Theorem yyparse_total (w : Z) (mal : nat -> bool) (stack_alloc : Z -> bool) (p : cstr) :
  exists code tree, yyparse w mal stack_alloc p = Some (code, tree) /\ In code [0; 1; 2].
Proof.
  destruct (yyparse_cases w mal stack_alloc p) as (o & Hr & Ho).
  unfold yyparse. rewrite Hr.
  destruct o as [st|st|st|st]; [done|..]; simpl; eauto 10.
Qed.

(** C3. Soundness, allocation failures included: when the parser reports
    success, [res] is a tree, and it is the tree that the precedence grammar of
    plural.y gives to the tokens of the input.  In particular no partial tree is
    ever returned with code 0 after a failed [malloc]. *)
Theorem yyparse_sound (w : Z) (mal : nat -> bool) (stack_alloc : Z -> bool) (p : cstr)
    (tree : option expression) :
  yyparse w mal stack_alloc p = Some (0, tree) ->
  exists ts e, tree = Some e /\ scan w p ts /\ prec 0 ts e.
Proof.
  destruct (yyparse_cases w mal stack_alloc p) as (o & Hr & Ho).
  unfold yyparse. rewrite Hr. destruct o as [st|st|st|st]; try done.
  intros [= <-]. destruct Ho as (ts & e & ? & ? & ?). eauto.
Qed.

Lemma yyparse_sound_witness :
  exists ts e, Some (encode (PBin equal PVar (PNum 1))) = Some e /\
    scan 64 (cs "n == 1;") ts /\ prec 0 ts e.
Proof.
  apply (yyparse_sound 64 (fun i => (i <? 3)%nat) (fun _ => true) (cs "n == 1;")).
  vm_compute. reflexivity.
Defined.

Lemma yyparse_complete w p ts e :
  Z.of_nat (length p) + 3 < YYMAXDEPTH -> scan w p ts -> prec 0 ts e ->
  yyparse w (fun _ => true) (fun _ => true) p = Some (0, Some e).
Proof.
  intros Hlen Hs Hp.
  destruct (yyparse_cases w (fun _ => true) (fun _ => true) p) as (o & Hr & Ho).
  destruct (scan_total w p) as (ts' & Hs' & Hl').
  assert (ts' = ts) as -> by (by apply (scan_functional w p)).
  destruct (parse_accept w (fun _ => true) (fun _ => true)) with (p := p) (ts := ts) (e := e)
    as (st & st' & Hrun & Hacc & Hres); auto; [lia|].
  assert (o = Accept st') as -> by (by eapply yyrun_steps).
  unfold yyparse. by rewrite Hr, Hres.
Qed.

(** C1. Correctness of the parser when memory suffices: for inputs shorter than
    the depth limit of the parser stack it accepts exactly the strings whose
    tokens the precedence grammar generates, with exactly the tree of the
    grammar. *)
Theorem yyparse_correct (w : Z) (p : cstr) (e : expression) :
  Z.of_nat (length p) + 3 < YYMAXDEPTH ->
  yyparse w (fun _ => true) (fun _ => true) p = Some (0, Some e) <->
  exists ts, scan w p ts /\ prec 0 ts e.
Proof.
  intros Hlen. destruct (yyparse_cases w (fun _ => true) (fun _ => true) p) as (o & Hr & Ho).
  split.
  - unfold yyparse. rewrite Hr. destruct o as [st|st|st|st]; try done.
    intros [= Hres]. destruct Ho as (ts & e' & ? & ? & ?). exists ts. split; [done|congruence].
  - intros (ts & Hs & Hp). by apply (yyparse_complete w p ts).
Qed.

Lemma yyparse_correct_witness :
  Z.of_nat (length (cs "n%10 == 1 ? 0 : 1")) + 3 < YYMAXDEPTH /\
  exists ts, scan 64 (cs "n%10 == 1 ? 0 : 1") ts /\
    prec 0 ts (encode (PIf (PBin equal (PBin module PVar (PNum 10)) (PNum 1)) (PNum 0) (PNum 1))).
Proof.
  split; [reflexivity|].
  apply (yyparse_correct 64 (cs "n%10 == 1 ? 0 : 1")); [reflexivity|].
  vm_compute. reflexivity.
Defined.
