(* ===== verification/PluralExtract.v ===== *)
(** * The plural formula of a catalog header: plural-exp.c

    [EXTRACT_PLURAL_EXPRESSION] finds [nplurals=] and [plural=] in the header
    entry, reads the number, runs the parser, and falls back on the Germanic
    formula.  [unlex] and [tokens_of] print a formula, for the round trip. *)

From S2P Require Import Prelude PluralExp PluralParse PluralGrammar PluralCorrect PluralSound.

Open Scope Z_scope.

(** ** What the function uses of the C library *)

Fixpoint is_prefix (needle hay : cstr) : bool :=
  match needle, hay with
  | [], _ => true
  | c :: needle, d :: hay => (c =? d) && is_prefix needle hay
  | _ :: _, [] => false
  end.

(** [strstr (hay, needle)]: the first occurrence, as a suffix of [hay]. *)
Fixpoint strstr (hay needle : cstr) : option cstr :=
  if is_prefix needle hay then Some hay
  else match hay with [] => None | _ :: hay => strstr hay needle end.

(** [strtoul (s, &endp, 10)] on a string that starts with a digit: the value,
    [ULONG_MAX] on overflow, and [endp]. *)
Fixpoint strtoul_digits (w : Z) (n : Z) (s : cstr) : Z * cstr :=
  match s with
  | c :: s' =>
      if is_digit c then strtoul_digits w (n * 10 + (c - chr "0")) s'
      else (Z.min n (2 ^ w - 1), s)
  | [] => (Z.min n (2 ^ w - 1), [])
  end.
Definition strtoul (w : Z) (s : cstr) : Z * cstr := strtoul_digits w 0 s.

(** ** The function *)

(** The loop that skips white space before the number. *)
Fixpoint skip_space (s : cstr) : cstr :=
  match s with
  | c :: s' => if isspace c then skip_space s' else s
  | [] => []
  end.

(** The values stored in [*pluralp] and [*npluralsp]. *)
Definition EXTRACT_PLURAL_EXPRESSION (w : Z) (mal : nat -> bool) (stack_alloc : Z -> bool)
    (nullentry : option cstr) : option (option expression * Z) :=
  let no_plural := Some (Some GERMANIC_PLURAL, 2) in
  match nullentry with
  | None => no_plural
  | Some nullentry =>
      match strstr nullentry (cs "plural="), strstr nullentry (cs "nplurals=") with
      | Some plural, Some nplurals =>
          let nplurals := skip_space (drop 9 nplurals) in
          if negb ((chr "0" <=? cur nplurals) && (cur nplurals <=? chr "9")) then no_plural
          else
            let '(n, endp) := strtoul w nplurals in
            if bool_decide (nplurals = endp) then no_plural
            else
              match yyparse w mal stack_alloc (drop 7 plural) with
              | None => None
              | Some (code, res) => if negb (code =? 0) then no_plural else Some (res, n)
              end
      | _, _ => no_plural
      end
  end.

(** ** Well-formedness of what the parser builds *)

(** The number tokens of an input are machine words. *)
Definition tok_range (w : Z) (t : token) : Prop :=
  match snd t with VNum k => 0 <= k < 2 ^ w | VOp op => binary_op op = true | _ => True end.

Section WF.
Context (w : Z) (Hw : 4 <= w).

Lemma pow16 : 16 <= 2 ^ w.
Proof using Hw. change 16 with (2 ^ 4). apply Z.pow_le_mono_r; lia. Qed.

Lemma lex_number_range n p :
  0 <= n < 2 ^ w -> 0 <= fst (lex_number w n p) < 2 ^ w.
Proof using Hw.
  revert n. induction p as [|c p IH]; intros n Hn; simpl; [done|].
  case_if; [|done]. apply IH, wrapw_range. lia.
Qed.

Lemma scan_range p ts : scan w p ts -> Forall (tok_range w) ts.
Proof using Hw.
  pose proof pow16 as H16.
  induction 1 as [|p c p' ts v Hc Hl Hs IH]; constructor; auto.
  destruct (Hl VNone) as (lv & E & Hv). clear Hl Hs IH. unfold yylex in E.
  destruct (skip_blanks p) as [|d q]; [by injection E as <- _ _|].
  destruct (is_digit d) eqn:Hd.
  { unfold is_digit in Hd. change (chr "0") with 48 in *. change (chr "9") with 57 in *.
    breflect. pose proof (lex_number_range (d - 48) q ltac:(lia)) as Hr.
    destruct (lex_number w (d - 48) q) as [n q']. injection E as <- <- _. by subst v. }
  clear Hd. repeat (case_if_in E; [
    repeat match goal with H : (_ || _) = true |- _ => apply orb_true_iff in H as [H|H] end;
    breflect; subst d; try case_if_in E;
    injection E as <- <- _; by (cbv in Hv; subst v)|]).
  injection E as <- <- _. by subst v.
Qed.

Lemma prec_encode l ts e :
  prec l ts e -> Forall (tok_range w) ts -> exists pe, e = encode pe /\ pexpr_ok w pe.
Proof using Type.
  induction 1 as [ta a tb b tc c Ha IHa Hb IHb Hc IHc|l t op ta a tb b Ht Ha IHa Hb IHb
    |l ta a Hl Ha IHa|ta a Ha IHa| |k|ta a Ha IHa];
    rewrite ?Forall_app, ?Forall_cons, ?Forall_app, ?Forall_cons; intros Hr; destruct_and? Hr.
  - destruct IHa as (pa & -> & ?), IHb as (pb & -> & ?), IHc as (pc & -> & ?); auto.
    by exists (PIf pa pb pc).
  - destruct IHa as (pa & -> & ?), IHb as (pb & -> & ?); auto.
    exists (PBin op pa pb). split; [done|]. simpl. split_and!; auto. by inversion Ht; subst.
  - auto.
  - destruct IHa as (pa & -> & ?); auto. by exists (PNot pa).
  - by exists PVar.
  - by exists (PNum k).
  - auto.
Qed.

Lemma strtoul_digits_range n s : 0 <= n -> 0 <= fst (strtoul_digits w n s) < 2 ^ w.
Proof using Hw.
  pose proof pow16 as H16. revert n. induction s as [|c s IH]; intros n Hn; simpl; [lia|].
  case_if; [|simpl; lia]. apply IH. unfold is_digit in *. breflect.
  change (chr "0") with 48 in *. lia.
Qed.

Lemma strtoul_range s : 0 <= fst (strtoul w s) < 2 ^ w.
Proof using Hw. by apply strtoul_digits_range. Qed.
End WF.

(** C16. Whatever the header entry and whichever allocations fail, the function
    stores a formula that is well formed, in the sense in which evaluation is
    proved correct: every node has the number of operands its operation needs
    and every constant is a machine word; and the number of plural forms is a
    machine word too. *)
Theorem EXTRACT_PLURAL_EXPRESSION_ok (w : Z) (mal : nat -> bool) (stack_alloc : Z -> bool)
    (nullentry : option cstr) :
  4 <= w ->
  exists pe n, EXTRACT_PLURAL_EXPRESSION w mal stack_alloc nullentry = Some (Some (encode pe), n)
    /\ pexpr_ok w pe /\ 0 <= n < 2 ^ w.
Proof.
  intros Hw. pose proof (pow16 w Hw) as H16.
  assert (Hno : exists pe n, Some (Some GERMANIC_PLURAL, 2) = Some (Some (encode pe), n)
    /\ pexpr_ok w pe /\ 0 <= n < 2 ^ w).
  { exists (PBin not_equal PVar (PNum 1)), 2. split_and!; try done; simpl; lia. }
  unfold EXTRACT_PLURAL_EXPRESSION. destruct nullentry as [s|]; [|done].
  destruct (strstr s _) as [plural|]; [|done].
  destruct (strstr s _) as [nplurals|]; [|done].
  case_if; [done|]. pose proof (strtoul_range w Hw (skip_space (drop 9 nplurals))) as Hn.
  destruct (strtoul _ _) as [n endp]. case_if; [done|].
  destruct (yyparse_cases w mal stack_alloc (drop 7 plural)) as (o & Hr & Ho).
  unfold yyparse. rewrite Hr. destruct o as [st|st|st|st]; try done.
  destruct Ho as (ts & e & -> & Hs & Hp). simpl.
  destruct (prec_encode w _ _ _ Hp (scan_range w Hw _ _ Hs)) as (pe & -> & Hok). eauto.
Qed.

Lemma EXTRACT_PLURAL_EXPRESSION_ok_witness :
  4 <= 64 /\ exists pe n, EXTRACT_PLURAL_EXPRESSION 64 (fun _ => true) (fun _ => true)
    (Some (cs "Plural-Forms: nplurals=2; plural=n>1;")) = Some (Some (encode pe), n) /\
    pexpr_ok 64 pe /\ 0 <= n < 2 ^ 64.
Proof. split; [lia|]. apply EXTRACT_PLURAL_EXPRESSION_ok. lia. Defined.

Example extract_slovenian :
  EXTRACT_PLURAL_EXPRESSION 64 (fun _ => true) (fun _ => true)
    (Some (cs "nplurals= 4; plural=n%100==1 ? 0 : n%100==2 ? 1 : 3;")) =
  Some (Some (encode (PIf (PBin equal (PBin module PVar (PNum 100)) (PNum 1)) (PNum 0)
    (PIf (PBin equal (PBin module PVar (PNum 100)) (PNum 2)) (PNum 1) (PNum 3)))), 4).
Proof. vm_compute. reflexivity. Qed.

(** ** Printing formulas *)

Definition oplev (op : expression_operator) : nat :=
  match op with
  | lor => 1 | land => 2
  | equal | not_equal => 3
  | less_than | greater_than | less_or_equal | greater_or_equal => 4
  | plus | minus => 5
  | _ => 6
  end.

Definition optok (op : expression_operator) : token :=
  match op with
  | lor => tOr | land => tAnd
  | equal | not_equal => (EQUOP2, VOp op)
  | less_than | greater_than | less_or_equal | greater_or_equal => (CMPOP2, VOp op)
  | plus | minus => (ADDOP2, VOp op)
  | _ => (MULOP2, VOp op)
  end.

Definition elev (e : pexpr) : nat :=
  match e with PIf _ _ _ => 0 | PBin op _ _ => oplev op | _ => 7 end.

(** The tokens of [e] where level [l] is expected, with the parentheses the
    precedences ask for and no others. *)
Fixpoint tokens_of (l : nat) (e : pexpr) : list token :=
  let body :=
    match e with
    | PVar => [tVar]
    | PNum k => [tNum k]
    | PNot e => tNot :: tokens_of 7 e
    | PBin op a b => tokens_of (oplev op) a ++ optok op :: tokens_of (S (oplev op)) b
    | PIf a b c => tokens_of 1 a ++ tQ :: tokens_of 0 b ++ tColon :: tokens_of 0 c
    end in
  if (l <=? elev e)%nat then body else tOpen :: body ++ [tClose].

(** Decimal digits of [n], at most [fuel] of them. *)
Fixpoint digits (fuel : nat) (n : Z) : cstr :=
  match fuel with
  | O => []
  | S fuel => if n <? 10 then [chr "0" + n] else digits fuel (n / 10) ++ [chr "0" + n mod 10]
  end.

Definition show_op (op : expression_operator) : string :=
  match op with
  | equal => "==" | not_equal => "!=" | less_than => "<" | greater_than => ">"
  | less_or_equal => "<=" | greater_or_equal => ">=" | plus => "+" | minus => "-"
  | mult => "*" | divide => "/" | _ => "%"
  end.

Definition show_tok (w : Z) (t : token) : cstr :=
  match snd t with
  | VNum k => digits (Z.to_nat w) k
  | VOp op => cs (show_op op)
  | _ => if (fst t =? chr "&") || (fst t =? chr "|") then [fst t; fst t] else [fst t]
  end.

Definition unlex (w : Z) (ts : list token) : cstr :=
  concat (map (fun t => show_tok w t ++ cs " ") ts).

Lemma prec_le k l ts e : (k <= l <= 7)%nat -> prec l ts e -> prec k ts e.
Proof.
  intros [Hkl Hl]. induction Hkl as [|l Hkl IH]; [done|]. intros. apply IH; [lia|].
  apply p_up; [lia|done].
Qed.

Lemma optok_ok op : binary_op op = true -> bintok (oplev op) (optok op) op.
Proof. destruct op; try done; constructor. Qed.

Lemma tokens_of_prec w l e :
  pexpr_ok w e -> (l <= 7)%nat -> prec l (tokens_of l e) (encode e).
Proof.
  assert (Hwrap : forall l k ts e, prec k ts e -> (l <= 7)%nat -> (k <= 7)%nat ->
    prec l (if (l <=? k)%nat then ts else tOpen :: ts ++ [tClose]) e).
  { intros l' k ts e' H Hl Hk. destruct (Nat.leb_spec l' k).
    - apply (prec_le _ k); [lia|done].
    - apply (prec_le _ 7); [lia|]. apply p_paren. apply (prec_le _ k); [lia|done]. }
  revert l. induction e as [|k|e IH|op a IHa b IHb|a IHa b IHb c IHc];
    intros l Hok Hl; simpl in Hok; cbn [tokens_of encode]; apply Hwrap; auto.
  - apply p_var.
  - apply p_num.
  - apply p_not. auto.
  - destruct_and? Hok. pose proof (bintok_level _ _ _ (optok_ok op ltac:(done))).
    apply (p_bin _ _ _ _ _ _ _ (optok_ok op ltac:(done))); [apply IHa|apply IHb]; auto; lia.
  - simpl. pose proof (bintok_level _ _ _ (optok_ok op ltac:(tauto))). lia.
  - destruct_and? Hok. apply p_if; [apply IHa|apply IHb|apply IHc]; auto; lia.
  - simpl. lia.
Qed.

(** ** Scanning what was printed *)

Section Print.
Context (w : Z) (Hw : 4 <= w).

Definition lex_step (n c : Z) : Z := wrapw w (wrapw w (n * 10) + (c - chr "0")).

Lemma lex_number_digits ds n rest :
  Forall (fun c => is_digit c = true) ds -> is_digit (cur rest) = false ->
  lex_number w n (ds ++ rest) = (fold_left lex_step ds n, rest).
Proof using Type.
  intros Hds Hr. revert n. induction Hds as [|c ds Hc Hds IH]; intros n; simpl.
  - destruct rest as [|c rest]; [done|]. simpl in *. by rewrite Hr.
  - rewrite Hc. apply IH.
Qed.

Lemma is_digit_spec d : 0 <= d <= 9 -> is_digit (chr "0" + d) = true.
Proof using Type.
  intros. unfold is_digit. change (chr "0") with 48. change (chr "9") with 57.
  apply andb_true_iff. split; apply Z.leb_le; lia.
Qed.

Lemma digits_lex fuel n :
  0 <= n < 2 ^ w -> n < 10 ^ Z.of_nat fuel -> (1 <= fuel)%nat ->
  exists d ds, digits fuel n = d :: ds /\ Forall (fun c => is_digit c = true) (d :: ds) /\
    fold_left lex_step ds (d - chr "0") = n.
Proof using Hw.
  revert n. induction fuel as [|fuel IH]; intros n Hn Hf Hfuel; [lia|]. cbn [digits].
  destruct (Z.ltb_spec n 10) as [H10|H10].
  { exists (chr "0" + n), []. split_and!; [done| |simpl; lia].
    constructor; [apply is_digit_spec; lia|done]. }
  rewrite Nat2Z.inj_succ, Z.pow_succ_r in Hf by lia.
  destruct (IH (n / 10)) as (d & ds & -> & Hds & Hv).
  - split; [apply Z.div_pos; lia|]. apply Z.div_lt_upper_bound; nia.
  - apply Z.div_lt_upper_bound; lia.
  - destruct fuel; [|lia]. simpl in Hf. lia.
  - pose proof (Z.mod_pos_bound n 10 ltac:(lia)).
    exists d, (ds ++ [chr "0" + n mod 10]). split_and!; [done| |].
    + rewrite app_comm_cons. apply Forall_app. split; [done|].
      constructor; [apply is_digit_spec; lia|done].
    + rewrite fold_left_app, Hv. simpl. unfold lex_step.
      rewrite (wrapw_small w (n / 10 * 10)) by (pose proof (Z.div_mod n 10); lia).
      rewrite wrapw_small; pose proof (Z.div_mod n 10); lia.
Qed.

(** Tokens that a printed formula can have. *)
Definition printable (t : token) : Prop :=
  (exists k, t = tNum k /\ 0 <= k < 2 ^ w) \/ (exists op, binary_op op = true /\ t = optok op) \/
  In t [tVar; tQ; tColon; tNot; tOpen; tClose].

Lemma scan_show t p ts : printable t -> scan w p ts -> scan w (show_tok w t ++ cs " " ++ p) (t :: ts).
Proof using Hw.
  intros Ht Hs.
  assert (Hsp : scan w (cs " " ++ p) ts).
  { inversion Hs as [q Hq|q c q' ts' v Hc Hq Hs']; subst.
    - apply scan_eof. intros lval. destruct (Hq lval) as [p' Hp']. exists p'. done.
    - eapply scan_tok; [done| |done]. done. }
  destruct Ht as [(k & -> & Hk)|[(op & Hop & ->)|Ht]].
  - pose proof (pow16 w Hw) as H16.
    destruct (digits_lex (Z.to_nat w) k Hk) as (d & ds & E & Hds & Hv).
    + rewrite Z2Nat.id by lia. assert (2 ^ w <= 10 ^ w); [|lia].
      apply Z.pow_le_mono_l. lia.
    + lia.
    + inversion Hds as [|? ? Hd Hds']; subst.
      unfold show_tok. cbn [snd tNum]. rewrite E.
      eapply scan_tok; [| |exact Hsp]; [done|].
      intros lval. eexists. unfold yylex.
      assert (skip_blanks ((d :: ds) ++ cs " " ++ p) = d :: ds ++ cs " " ++ p) as ->.
      { simpl. unfold is_digit in Hd. change (chr "0") with 48 in Hd.
        change (chr " ") with 32. change (chr "009") with 9. breflect.
        by rewrite (proj2 (Z.eqb_neq d 32)), (proj2 (Z.eqb_neq d 9)) by lia. }
      rewrite Hd, lex_number_digits by done. split; [reflexivity|done].
  - destruct op; try done; (eapply scan_tok; [| |exact Hsp]; [done|]);
      intros lval; eexists; split; reflexivity.
  - simpl in Ht. destruct_or? Ht; subst t; try done;
      (eapply scan_tok; [| |exact Hsp]; [done|]);
      intros lval; eexists; split; reflexivity.
Qed.

Lemma scan_unlex ts : Forall printable ts -> scan w (unlex w ts) ts.
Proof using Hw.
  induction 1 as [|t ts Ht Hts IH].
  - apply scan_eof. intros lval. by exists [].
  - unfold unlex. simpl. rewrite <- app_assoc. by apply scan_show.
Qed.

Lemma tokens_printable e l : pexpr_ok w e -> Forall printable (tokens_of l e).
Proof using Type.
  assert (Hfix : forall t, In t [tVar; tQ; tColon; tNot; tOpen; tClose] -> printable t)
    by (intros; by do 2 right).
  assert (Hwrap : forall (b : bool) ts, Forall printable ts ->
    Forall printable (if b then ts else tOpen :: ts ++ [tClose])).
  { intros [] ts H; [done|]. constructor; [apply Hfix; simpl; tauto|].
    apply Forall_app; split; [done|]. constructor; [apply Hfix; simpl; tauto|done]. }
  revert l. induction e as [|k|e IH|op a IHa b IHb|a IHa b IHb c IHc];
    intros l Hok; simpl in Hok; cbn [tokens_of]; apply Hwrap;
    rewrite ?Forall_app, ?Forall_cons, ?Forall_app, ?Forall_cons;
    destruct_and? Hok; split_and?; auto; try (apply Hfix; simpl; tauto).
  - left; eauto.
  - right; left; eauto.
Qed.
End Print.

(** C36. Print and parse: a well-formed formula, printed in decimal with the
    minimal parentheses of the precedences, is parsed back to exactly its tree. *)
Theorem parse_print (w : Z) (e : pexpr) :
  4 <= w -> pexpr_ok w e ->
  Z.of_nat (length (unlex w (tokens_of 0 e))) + 3 < YYMAXDEPTH ->
  yyparse w (fun _ => true) (fun _ => true) (unlex w (tokens_of 0 e)) = Some (0, Some (encode e)).
Proof.
  intros Hw Hok Hlen. apply (yyparse_complete w _ (tokens_of 0 e)); auto.
  - apply scan_unlex; [done|]. by apply tokens_printable.
  - apply (tokens_of_prec w); [done|lia].
Qed.

Lemma parse_print_witness :
  let e := PBin minus (PNum 7) (PBin minus PVar (PIf PVar (PNum 10) (PNum 18446744073709551615))) in
  pexpr_ok 64 e /\
  yyparse 64 (fun _ => true) (fun _ => true) (cs "7 - ( n - ( n ? 10 : 18446744073709551615 ) ) ")
    = Some (0, Some (encode e)).
Proof.
  split; [simpl; lia|].
  apply (parse_print 64
    (PBin minus (PNum 7) (PBin minus PVar (PIf PVar (PNum 10) (PNum 18446744073709551615)))));
    [lia|simpl; lia|vm_compute; reflexivity].
Defined.
