(* ===== verification/Bignum.v ===== *)
(** * Unsigned bignums: the limb lists of vasnprintf.c, and [multiply]

    An [mpn_t] is the list of its limbs, least significant first.  Memory that
    [malloc] returns has arbitrary contents, which are a parameter. *)

From S2P Require Import Prelude.

Open Scope Z_scope.

Definition GMP_LIMB_BITS : Z := 32.
Definition GMP_TWOLIMB_BITS : Z := 64.

(** The base of the limbs. *)
Abbreviation beta := (2 ^ 32).

Abbreviation mpn := (list Z).

(** Truncation to [mp_limb_t] and to [mp_twolimb_t]. *)
Definition limb (z : Z) : Z := wrapw GMP_LIMB_BITS z.
Definition twolimb (z : Z) : Z := wrapw GMP_TWOLIMB_BITS z.

Definition limbs_ok (l : mpn) : Prop := Forall (fun d => 0 <= d < beta) l.

(** The number a limb list stands for. *)
Fixpoint value (l : mpn) : Z :=
  match l with [] => 0 | d :: l => d + beta * value l end.

(** [while (len > 0 && p[len - 1] == 0) len--]: drop the leading zero limbs. *)
Fixpoint normalise (l : mpn) : mpn :=
  match l with
  | [] => []
  | d :: l =>
      match normalise l with
      | [] => if d =? 0 then [] else [d]
      | l' => d :: l'
      end
  end.

(** The most significant limb is not zero. *)
Definition normal (l : mpn) : Prop := default 1 (last l) <> 0.

(** ** multiply *)

(** The loop over [j]: [dp[i + j]] += [digit1 * p2[j]], with carry. *)
Fixpoint mul_row (digit1 : Z) (p2 dp : mpn) (carry : Z) : mpn * Z :=
  match p2, dp with
  | digit2 :: p2, d :: dp =>
      let carry := twolimb (carry + twolimb (digit1 * digit2)) in
      let carry := twolimb (carry + d) in
      let '(dp, c) := mul_row digit1 p2 dp (Z.shiftr carry GMP_LIMB_BITS) in
      (limb carry :: dp, c)
  | _, _ => (dp, carry)
  end.

(** The loop over [i]; [i] counts the limbs of [p1] already done, and
    [dp[i + len2]] is overwritten with the final carry. *)
Fixpoint mul_rows (p1 p2 : mpn) (i : nat) (dp : mpn) : mpn :=
  match p1 with
  | [] => dp
  | digit1 :: p1 =>
      let len2 := length p2 in
      let '(row, carry) := mul_row digit1 p2 (take len2 (drop i dp)) 0 in
      mul_rows p1 p2 (S i)
        (take i dp ++ row ++ [limb carry] ++ drop (i + len2 + 1) dp)
  end.

(** [multiply (src1, src2, &dest)]: [None] when [malloc] fails.  [junk] is the
    content of the limbs that [malloc] returned and the code has not cleared. *)
Definition multiply (alloc : bool) (junk : nat -> mpn) (src1 src2 : mpn) : option mpn :=
  let '(p1, p2) :=
    if (length src1 <=? length src2)%nat then (src1, src2) else (src2, src1) in
  if (length p1 =? 0)%nat then if alloc then Some [] else None
  else if alloc then
    let dp := replicate (length p2) 0 ++ junk (length p1) in
    Some (normalise (mul_rows p1 p2 0 dp))
  else None.

Example multiply_max :
  multiply true (fun n => replicate n 77) [0xffffffff; 0xffffffff] [0xffffffff] =
  Some [1; 0xffffffff; 0xfffffffe].
Proof. reflexivity. Qed.

(** ** Lemmas on values *)

Create HintDb bignum.

Lemma beta_pos : 0 < beta.
Proof. done. Qed.

Lemma value_app l k : value (l ++ k) = value l + beta ^ Z.of_nat (length l) * value k.
Proof.
  induction l as [|d l IH]; cbn [value app length]; [lia|].
  rewrite IH, Nat2Z.inj_succ, Z.pow_succ_r by lia. lia.
Qed.

Lemma value_range l : limbs_ok l -> 0 <= value l < beta ^ Z.of_nat (length l).
Proof.
  induction 1 as [|d l Hd Hl IH]; cbn [value length]; [simpl; lia|].
  rewrite Nat2Z.inj_succ, Z.pow_succ_r by lia. nia.
Qed.

Lemma value_replicate_0 n : value (replicate n 0) = 0.
Proof. induction n; cbn [value replicate]; lia. Qed.

Lemma value_normalise l : value (normalise l) = value l.
Proof.
  induction l as [|d l IH]; [done|]. cbn [normalise value].
  destruct (normalise l) as [|e k] eqn:E; cbn [value] in *; rewrite <- IH.
  - case_if; cbn [value]; lia.
  - done.
Qed.

Lemma limbs_ok_normalise l : limbs_ok l -> limbs_ok (normalise l).
Proof.
  induction 1 as [|d l Hd Hl IH]; [constructor|]. cbn [normalise].
  destruct (normalise l); [|by constructor].
  case_if; [apply Forall_nil_2|apply Forall_cons_2; done].
Qed.

Lemma normalise_normal l : normal (normalise l).
Proof.
  unfold normal. induction l as [|d l IH]; [done|]. cbn [normalise].
  destruct (normalise l) as [|e k]; [by case_if|exact IH].
Qed.

Lemma normalise_length l : (length (normalise l) <= length l)%nat.
Proof.
  induction l as [|d l IH]; cbn [normalise length]; [lia|].
  destruct (normalise l); [case_if; simpl; lia|]. simpl in *. lia.
Qed.

(** A normal number of [n] limbs is at least [beta ^ (n - 1)]. *)
Lemma normal_lower l :
  limbs_ok l -> normal l -> l <> [] -> beta ^ (Z.of_nat (length l) - 1) <= value l.
Proof.
  intros Hl Hn Hne. destruct (exists_last Hne) as (k & d & ->).
  unfold normal in Hn. rewrite last_snoc in Hn. simpl in Hn.
  apply Forall_app in Hl as [Hk Hd]. inversion Hd; subst.
  rewrite value_app, length_app. cbn [value length].
  pose proof (value_range k Hk).
  replace (Z.of_nat (length k + 1) - 1) with (Z.of_nat (length k)) by lia. nia.
Qed.

Lemma normal_unique_length l :
  limbs_ok l -> normal l -> value l = 0 -> l = [].
Proof.
  intros Hl Hn Hv. destruct l as [|d l]; [done|].
  pose proof (normal_lower _ Hl Hn ltac:(done)).
  assert (0 < beta ^ (Z.of_nat (length (d :: l)) - 1)) by (apply Z.pow_pos_nonneg; simpl; lia).
  lia.
Qed.

Lemma limb_spec z : 0 <= limb z < beta /\ exists k, z = limb z + beta * k.
Proof.
  split; [by apply wrapw_range|]. exists (z / beta). unfold limb, wrapw, GMP_LIMB_BITS.
  pose proof (Z.div_mod z beta). lia.
Qed.

Lemma twolimb_small z : 0 <= z < beta * beta -> twolimb z = z.
Proof. intros. apply wrapw_small. unfold GMP_TWOLIMB_BITS. lia. Qed.

Lemma limb_small z : 0 <= z < beta -> limb z = z.
Proof. intros. by apply wrapw_small. Qed.

(** Splitting a double limb into its halves. *)
Lemma split_twolimb z :
  0 <= z < beta * beta ->
  z = limb z + beta * Z.shiftr z GMP_LIMB_BITS /\
  0 <= limb z < beta /\ 0 <= Z.shiftr z GMP_LIMB_BITS < beta.
Proof.
  intros Hz. unfold limb, wrapw, GMP_LIMB_BITS. rewrite Z.shiftr_div_pow2 by lia.
  pose proof (Z.div_mod z beta). pose proof (Z.mod_pos_bound z beta). 
  split_and!; [lia|lia|lia|apply Z.div_pos; lia|apply Z.div_lt_upper_bound; lia].
Qed.

#[export] Hint Resolve limbs_ok_normalise normalise_normal : bignum.

(** ** Correctness of multiply *)

Lemma mul_row_spec digit1 p2 dp carry row c :
  0 <= digit1 < beta -> limbs_ok p2 -> limbs_ok dp -> length dp = length p2 ->
  0 <= carry < beta -> mul_row digit1 p2 dp carry = (row, c) ->
  limbs_ok row /\ length row = length p2 /\ 0 <= c < beta /\
  value row + beta ^ Z.of_nat (length p2) * c = value dp + digit1 * value p2 + carry.
Proof.
  intros Hd1 Hp2 Hdp. revert p2 Hp2 carry row c.
  induction Hdp as [|d dp Hd Hdp IH]; intros p2 Hp2 carry row c Hlen Hc E;
    destruct Hp2 as [|d2 p2 Hd2 Hp2]; try done; cbn [mul_row] in E.
  - injection E as <- <-. cbn [value length]. split_and!; try done; try constructor; lia.
  - injection Hlen as Hlen.
    assert (0 <= digit1 * d2 <= (beta - 1) * (beta - 1)) by nia.
    rewrite (twolimb_small (digit1 * d2)) in E by nia.
    rewrite (twolimb_small (carry + digit1 * d2)) in E by nia.
    rewrite (twolimb_small (carry + digit1 * d2 + d)) in E by nia.
    destruct (split_twolimb (carry + digit1 * d2 + d)) as (Hs & Hl & Hh); [nia|].
    destruct (mul_row _ _ _ _) as [row' c'] eqn:E'. injection E as <- <-.
    destruct (IH p2 Hp2 _ _ _ Hlen Hh E') as (Hr & Hrl & Hc' & Hv).
    split_and!; [by constructor|simpl; lia|lia|lia|].
    cbn [value length]. rewrite Nat2Z.inj_succ, Z.pow_succ_r by lia. nia.
Qed.

(** After [i] rows, the limbs [dp[0 .. i + len2 - 1]] hold [p1[0 .. i - 1] * p2]. *)
Lemma mul_rows_spec p1 p2 i dp :
  limbs_ok p1 -> limbs_ok p2 -> limbs_ok (take (i + length p2) dp) ->
  length dp = (i + length p2 + length p1)%nat ->
  limbs_ok (mul_rows p1 p2 i dp) /\ length (mul_rows p1 p2 i dp) = length dp /\
  value (mul_rows p1 p2 i dp) =
    value (take (i + length p2) dp) + beta ^ Z.of_nat i * value p1 * value p2.
Proof.
  intros Hp1 Hp2. revert i dp. induction Hp1 as [|d1 p1 Hd1 Hp1 IH]; intros i dp Hdp Hlen;
    cbn [mul_rows value length] in *.
  - rewrite take_ge by lia. rewrite take_ge in Hdp by lia. split_and!; [done|done|lia].
  - destruct (mul_row _ _ _ _) as [row c] eqn:E.
    assert (Hsplit : take (i + length p2) dp = take i dp ++ take (length p2) (drop i dp))
      by (by rewrite take_take_drop).
    rewrite Hsplit in Hdp |- *. apply Forall_app in Hdp as [Hlo Hmid].
    apply mul_row_spec in E as (Hr & Hrl & Hc & Hv); auto;
      [|rewrite length_take, length_drop; lia|lia].
    assert (Hli : length (take i dp) = i) by (rewrite length_take; lia).
    set (dp' := take i dp ++ row ++ [limb c] ++ drop (i + length p2 + 1) dp).
    assert (Htake : take (S i + length p2) dp' = take i dp ++ row ++ [limb c]).
    { unfold dp'. rewrite !app_assoc. rewrite take_app_length'; [done|].
      rewrite !length_app. simpl. lia. }
    assert (Hlen' : length dp' = length dp)
      by (unfold dp'; rewrite !length_app, length_drop; simpl; lia).
    destruct (IH (S i) dp') as (Hok & Hlen2 & Hval).
    + rewrite Htake, limb_small by lia. repeat (apply Forall_app; split); auto.
    + lia.
    + split_and!; [done|congruence|]. rewrite Hval, Htake, !value_app, Hli, Hrl. cbn [value].
      rewrite limb_small by lia. rewrite Nat2Z.inj_succ, Z.pow_succ_r by lia.
      assert (E' : beta ^ Z.of_nat i * (value row + beta ^ Z.of_nat (length p2) * c)
        = beta ^ Z.of_nat i * (value (take (length p2) (drop i dp)) + d1 * value p2 + 0))
        by (by rewrite Hv).
      nia.
Qed.

Lemma multiply_spec (alloc : bool) (junk : nat -> mpn) (src1 src2 : mpn) :
  limbs_ok src1 -> limbs_ok src2 -> (forall n, length (junk n) = n) ->
  match multiply alloc junk src1 src2 with
  | Some dest => alloc = true /\ limbs_ok dest /\ normal dest /\
                 value dest = value src1 * value src2 /\
                 (length dest <= length src1 + length src2)%nat
  | None => alloc = false
  end.
Proof.
  intros H1 H2 Hj. unfold multiply.
  assert (exists p1 p2, (if (length src1 <=? length src2)%nat then (src1, src2) else (src2, src1))
    = (p1, p2) /\ limbs_ok p1 /\ limbs_ok p2 /\ value p1 * value p2 = value src1 * value src2 /\
    (length p1 + length p2 = length src1 + length src2)%nat)
    as (p1 & p2 & -> & Hp1 & Hp2 & <- & <-)
    by (destruct (length src1 <=? length src2)%nat; eexists _, _; split_and!; eauto; lia).
  destruct p1 as [|d1 p1]; simpl Nat.eqb; cbv iota.
  { destruct alloc; [|done]. split_and!; try done; simpl; lia. }
  destruct alloc; [|done].
  destruct (mul_rows_spec (d1 :: p1) p2 0 (replicate (length p2) 0 ++ junk (length (d1 :: p1))))
    as (Hok & Hl & Hv); auto.
  - rewrite take_app_length' by (rewrite length_replicate; lia).
    apply Forall_replicate. lia.
  - rewrite length_app, length_replicate, Hj. lia.
  - rewrite take_app_length' in Hv by (rewrite length_replicate; lia).
    rewrite value_replicate_0 in Hv.
    set (dp := mul_rows _ _ _ _) in *. split_and!; auto with bignum.
    + rewrite value_normalise, Hv. simpl Z.of_nat. lia.
    + etransitivity; [apply normalise_length|]. rewrite Hl, length_app, length_replicate, Hj. simpl. lia.
Qed.

(** [multiply] returns the product of its arguments, without leading zero
    limbs, whatever the initial contents of the memory it allocates, and it
    fails exactly when [malloc] does. *)
Theorem multiply_correct (alloc : bool) (junk : nat -> mpn) (src1 src2 : mpn) :
  limbs_ok src1 -> limbs_ok src2 -> (forall n, length (junk n) = n) ->
  match multiply alloc junk src1 src2 with
  | Some dest => alloc = true /\ limbs_ok dest /\ normal dest /\
                 value dest = value src1 * value src2 /\
                 (length dest <= length src1 + length src2)%nat
  | None => alloc = false
  end.
Proof. apply multiply_spec. Qed.

Lemma multiply_correct_witness :
  match multiply true (fun n => replicate n 7) [5; 1] [0xffffffff; 3; 9] with
  | Some dest => true = true /\ limbs_ok dest /\ normal dest /\
      value dest = value [5; 1] * value [0xffffffff; 3; 9] /\ (length dest <= 2 + 3)%nat
  | None => true = false
  end.
Proof.
  apply (multiply_correct true (fun n => replicate n 7) [5; 1] [0xffffffff; 3; 9]).
  - repeat (apply Forall_cons_2 || apply Forall_nil_2); lia.
  - repeat (apply Forall_cons_2 || apply Forall_nil_2); lia.
  - intros n. apply length_replicate.
Defined.
