(* ===== verification/BignumDivide.v ===== *)
(** * Division of bignums: [divide] of vasnprintf.c

    Knuth's algorithm D on 32-bit limbs, with the quotient stored over the
    limbs of the remainder that are no longer needed, followed by rounding half
    to even. *)

From S2P Require Import Prelude Bignum.

Open Scope Z_scope.

(** ** The code *)

(** [GMP_LIMB_BITS] minus the length of [msd > 0] in bits. *)
Definition leading_zeros (msd : Z) : Z :=
  let s := 31 in
  let '(msd, s) := if 0x10000 <=? msd then (Z.shiftr msd 16, s - 16) else (msd, s) in
  let '(msd, s) := if 0x100 <=? msd then (Z.shiftr msd 8, s - 8) else (msd, s) in
  let '(msd, s) := if 0x10 <=? msd then (Z.shiftr msd 4, s - 4) else (msd, s) in
  let '(msd, s) := if 0x4 <=? msd then (Z.shiftr msd 2, s - 2) else (msd, s) in
  if 0x2 <=? msd then s - 1 else s.

(** The loops that copy a number, shifting it left by [s] bits; the last
    component is what is left in [accu]. *)
Fixpoint shift_left (s : Z) (source : mpn) (accu : Z) : mpn * Z :=
  match source with
  | [] => ([], accu)
  | d :: source =>
      let accu := twolimb (accu + twolimb (Z.shiftl d s)) in
      let '(dest, accu') := shift_left s source (Z.shiftr accu GMP_LIMB_BITS) in
      (limb accu :: dest, accu')
  end.

(** Single-precision division, from the most significant limb down: the
    quotient limbs and the remainder. *)
Fixpoint divide_limb (den : Z) (source : mpn) : mpn * Z :=
  match source with
  | [] => ([], 0)
  | d :: source =>
      let '(dest, remainder) := divide_limb den source in
      let num := Z.lor (twolimb (Z.shiftl remainder GMP_LIMB_BITS)) d in
      (limb (num / den) :: dest, limb (num mod den))
  end.

(** The test of [q*] against the second limb of the divisor. *)
Definition correct_q_star (b_msd b_2msd r2 q_star c1 : Z) : Z :=
  let b_msdd := Z.lor (twolimb (Z.shiftl b_msd GMP_LIMB_BITS)) b_2msd in
  let c2 := Z.lor (twolimb (Z.shiftl c1 GMP_LIMB_BITS)) r2 in
  let c3 := twolimb (b_2msd * q_star) in
  if c2 <? c3 then
    let q_star := limb (q_star - 1) in
    if b_msdd <? twolimb (c3 - c2) then limb (q_star - 1) else q_star
  else q_star.

(** [q*] from the leading limbs [r1], [r0], [r2] of the remainder. *)
Definition q_star (b_msd b_2msd r1 r0 r2 : Z) : Z :=
  if r1 <? b_msd then
    let num := Z.lor (twolimb (Z.shiftl r1 GMP_LIMB_BITS)) r0 in
    correct_q_star b_msd b_2msd r2 (limb (num / b_msd)) (limb (num mod b_msd))
  else
    let q_star := limb (Z.lnot 0) in
    let c1 := limb (r0 + b_msd) in
    if (b_msd <? r1) || (c1 <? b_msd) then q_star
    else correct_q_star b_msd b_2msd r2 q_star c1.

(** The subtraction loop, [dest -= q * b]. *)
Fixpoint sub_row (q : Z) (b dest : mpn) (carry : Z) : mpn * Z :=
  match b, dest with
  | s :: b, d :: dest =>
      let carry := twolimb (twolimb (carry + twolimb (q * s)) + limb (Z.lnot d)) in
      let '(dest, c) := sub_row q b dest (Z.shiftr carry GMP_LIMB_BITS) in
      (limb (Z.lnot (limb carry)) :: dest, c)
  | _, _ => (dest, carry)
  end.

(** The loop that adds [b] back. *)
Fixpoint add_row (b dest : mpn) (carry : Z) : mpn :=
  match b, dest with
  | source1 :: b, source2 :: dest =>
      let carry' :=
        if negb (carry =? 0)
        then (if limb (Z.lnot source2) <=? source1 then 1 else 0)
        else (if limb (Z.lnot source2) <? source1 then 1 else 0) in
      limb (source1 + source2 + carry) :: add_row b dest carry'
  | _, _ => dest
  end.

(** One turn of the division loop on the memory [r]: the remainder is in its
    low [j + n + 1] limbs, and the quotient limb replaces the highest of them. *)
Definition div_step (b r : mpn) (j : nat) : mpn :=
  let n := length b in
  let r1 := nth (j + n) r 0 in
  let q := q_star (nth (n - 1) b 0) (nth (n - 2) b 0)
             r1 (nth (j + n - 1) r 0) (nth (j + n - 2) r 0) in
  let '(row, q) :=
    if 0 <? q then
      let '(row, carry) := sub_row q b (take n (drop j r)) 0 in
      if r1 <? limb carry then (add_row b row 0, limb (q - 1)) else (row, q)
    else (take n (drop j r), q) in
  take j r ++ row ++ [q] ++ drop (j + n + 1) r.

Fixpoint div_loop (b r : mpn) (j : nat) : mpn :=
  match j with
  | O => div_step b r 0
  | S j' => div_loop b (div_step b r j) j'
  end.

(** Limb [i] of [r << 1]. *)
Definition shl1_limb (r : mpn) (i : nat) : Z :=
  Z.lor (if (i <=? length r)%nat && (0 <? i)%nat
         then Z.shiftr (nth (i - 1) r 0) (GMP_LIMB_BITS - 1) else 0)
        (if (i <? length r)%nat then limb (Z.shiftl (nth i r 0) 1) else 0).

(** The comparison of [r << 1] with [b], from limb [i] down. *)
Fixpoint compare_shl1 (r b : mpn) (i : nat) : comparison :=
  let r_i := shl1_limb r i in
  let b_i := if (i <? length b)%nat then nth i b 0 else 0 in
  if b_i <? r_i then Gt else if r_i <? b_i then Lt
  else match i with O => Eq | S i => compare_shl1 r b i end.

(** [increment_q]. *)
Fixpoint increment (q : mpn) : mpn :=
  match q with
  | [] => [1]
  | d :: q => if negb (limb (d + 1) =? 0) then limb (d + 1) :: q else limb (d + 1) :: increment q
  end.

Definition round_q (q r b : mpn) : mpn :=
  if (length b <? length r)%nat then increment q
  else
    match compare_shl1 r b (length b) with
    | Gt => increment q
    | Lt => q
    | Eq => if (0 <? length q)%nat && negb (Z.land (nth 0 q 0) 1 =? 0)
            then increment q else q
    end.

(** The result: the quotient, at limb [offset] of the room that was allocated;
    no memory; or the abort on a zero divisor. *)
Inductive division := DivOk (offset : nat) (q : mpn) | DivNomem | DivAbort.

(** [if (q_ptr[q_len - 1] == 0) q_len--] *)
Definition drop_zero_limb (q : mpn) : mpn :=
  if nth (length q - 1) q 0 =? 0 then take (length q - 1) q else q.

(** The multiple-precision case: the quotient and the remainder (both
    still shifted left like [b]). *)
Definition divide_multi (alloc_tmp : bool) (junk : Z) (a b : mpn) : option (mpn * mpn * mpn) + unit :=
  let s := leading_zeros (nth (length b - 1) b 0) in
  if (0 <? s) && negb alloc_tmp then inl None
  else
    let '(b', accu) := if 0 <? s then shift_left s b 0 else (b, 0) in
    if negb (accu =? 0) then inr tt
    else
      let r := if s =? 0 then a ++ [0]
               else let '(r, accu) := shift_left s a 0 in r ++ [limb accu] in
      let room := div_loop b' (r ++ [junk]) (length a - length b) in
      let q := take (length a - length b + 1) (drop (length b) room) in
      inl (Some (drop_zero_limb q, normalise (take (length b) room), b')).

Definition divide (alloc_room alloc_tmp : bool) (junk : Z) (a b : mpn) : division :=
  if negb alloc_room then DivNomem
  else
    let a := normalise a in
    let b := normalise b in
    if (length b =? 0)%nat then DivAbort
    else if (length a <? length b)%nat then DivOk (length a) (round_q [] a b)
    else if (length b =? 1)%nat then
      let '(q, remainder) := divide_limb (nth 0 b 0) a in
      let r := if 0 <? remainder then [remainder] else [] in
      DivOk 1 (round_q (drop_zero_limb q) r b)
    else
      match divide_multi alloc_tmp junk a b with
      | inr tt => DivAbort
      | inl None => DivNomem
      | inl (Some (q, r, b')) => DivOk (length b) (round_q q r b')
      end.

Example divide_ex1 : divide true true 5 [0; 0; 1] [3; 1] = DivOk 2 [0xfffffffd].
Proof. vm_compute. reflexivity. Qed.

(** ** Bit operations on limbs *)

Lemma lor_limbs x y :
  0 <= x < beta -> 0 <= y < beta ->
  Z.lor (twolimb (Z.shiftl x GMP_LIMB_BITS)) y = x * beta + y.
Proof.
  intros Hx Hy. unfold GMP_LIMB_BITS. rewrite Z.shiftl_mul_pow2 by lia.
  rewrite twolimb_small by nia.
  assert (Z.land (x * beta) y = 0) as Hz.
  { apply Z.bits_inj'. intros i Hi. rewrite Z.land_spec, Z.bits_0.
    destruct (Z.lt_ge_cases i 32).
    - by rewrite Z.mul_pow2_bits_low.
    - rewrite (Z.bits_above_log2 y i), andb_false_r; [done|lia|].
      destruct (Z.eq_dec y 0) as [->|]; [simpl; lia|].
      assert (Z.log2 y < 32) by (apply Z.log2_lt_pow2; lia). lia. }
  pose proof (Z.add_lor_land (x * beta) y). lia.
Qed.

Lemma limb_lnot d : 0 <= d < beta -> limb (Z.lnot d) = beta - 1 - d.
Proof.
  intros Hd. unfold limb, wrapw, GMP_LIMB_BITS, Z.lnot.
  symmetry. apply (Z.mod_unique _ _ (-1)); lia.
Qed.

Lemma limb_range z : 0 <= limb z < beta.
Proof. apply limb_spec. Qed.

(** Every halving step keeps [s + log2 msd]. *)
Lemma halve_step msd0 msd s m n k :
  0 <= k -> 0 < m -> 0 <= n -> msd = msd0 / 2 ^ k -> s = 31 - k -> 1 <= msd < 2 ^ (m + n) ->
  let '(msd', s') := if 2 ^ m <=? msd then (Z.shiftr msd m, s - m) else (msd, s) in
  exists k', 0 <= k' /\ msd' = msd0 / 2 ^ k' /\ s' = 31 - k' /\ 1 <= msd' < 2 ^ Z.max m n.
Proof.
  intros Hk Hm Hn -> -> Hr. destruct (Z.leb_spec (2 ^ m) (msd0 / 2 ^ k)) as [H|H].
  - exists (k + m). rewrite Z.shiftr_div_pow2, Z.div_div, <- Z.pow_add_r by lia.
    split_and!; try lia.
    + rewrite Z.pow_add_r, <- Z.div_div by lia. apply Z.div_le_lower_bound; lia.
    + apply Z.lt_le_trans with (2 ^ n); [|apply Z.pow_le_mono_r; lia].
      rewrite Z.pow_add_r, <- Z.div_div by lia. apply Z.div_lt_upper_bound; [lia|].
      rewrite <- Z.pow_add_r by lia. lia.
  - exists k. split_and!; try lia.
    apply Z.lt_le_trans with (2 ^ m); [lia|apply Z.pow_le_mono_r; lia].
Qed.

Lemma leading_zeros_spec msd :
  0 < msd < beta -> 0 <= leading_zeros msd < 32 /\ 2 ^ 31 <= msd * 2 ^ leading_zeros msd < 2 ^ 32.
Proof.
  intros Hm. unfold leading_zeros. cbv zeta.
  pose proof (halve_step msd msd 31 16 16 0 ltac:(lia) ltac:(lia) ltac:(lia)
    ltac:(rewrite Z.div_1_r; lia) ltac:(lia) ltac:(simpl; lia)) as H1.
  change (2 ^ 16) with 0x10000 in H1. destruct (if 0x10000 <=? msd then _ else _) as [m1 s1].
  destruct H1 as (k1 & ? & E1 & S1 & R1).
  pose proof (halve_step msd m1 s1 8 8 k1 ltac:(lia) ltac:(lia) ltac:(lia) E1 S1 R1) as H2.
  change (2 ^ 8) with 0x100 in H2. destruct (if 0x100 <=? m1 then _ else _) as [m2 s2].
  destruct H2 as (k2 & ? & E2 & S2 & R2).
  pose proof (halve_step msd m2 s2 4 4 k2 ltac:(lia) ltac:(lia) ltac:(lia) E2 S2 R2) as H3.
  change (2 ^ 4) with 0x10 in H3. destruct (if 0x10 <=? m2 then _ else _) as [m3 s3].
  destruct H3 as (k3 & ? & E3 & S3 & R3).
  pose proof (halve_step msd m3 s3 2 2 k3 ltac:(lia) ltac:(lia) ltac:(lia) E3 S3 R3) as H4.
  change (2 ^ 2) with 0x4 in H4. destruct (if 0x4 <=? m3 then _ else _) as [m4 s4].
  destruct H4 as (k4 & ? & E4 & S4 & R4).
  pose proof (halve_step msd m4 s4 1 1 k4 ltac:(lia) ltac:(lia) ltac:(lia) E4 S4 R4) as H5.
  change (2 ^ 1) with 0x2 in H5.
  assert (exists m5, (if 0x2 <=? m4 then (Z.shiftr m4 1, s4 - 1) else (m4, s4)) =
    (m5, if 0x2 <=? m4 then s4 - 1 else s4)) as [m5 E] by (case_if; eauto).
  rewrite E in H5. destruct H5 as (k5 & ? & E5 & -> & R5).
  change (2 ^ Z.max 1 1) with 2 in R5. assert (m5 = 1) by lia. subst m5.
  assert (2 ^ k5 <= msd < 2 * 2 ^ k5) as [HA HB].
  { pose proof (Z.div_mod msd (2 ^ k5)). pose proof (Z.mod_pos_bound msd (2 ^ k5)).
    assert (0 < 2 ^ k5) by (apply Z.pow_pos_nonneg; lia). nia. }
  assert (k5 < 32) by (apply (Z.pow_lt_mono_r_iff 2); lia).
  split; [lia|].
  assert (2 ^ 31 = 2 ^ k5 * 2 ^ (31 - k5)) as -> by (rewrite <- Z.pow_add_r by lia; f_equal; lia).
  replace (2 ^ 32) with (2 * 2 ^ k5 * 2 ^ (31 - k5))
    by (rewrite <- Z.mul_assoc, <- Z.pow_add_r by lia;
        replace (k5 + (31 - k5)) with 31 by lia; done).
  assert (0 < 2 ^ (31 - k5)) by (apply Z.pow_pos_nonneg; lia). nia.
Qed.

(** ** The loops *)

Lemma shift_left_spec s source accu dest accu' :
  0 <= s < 32 -> limbs_ok source -> 0 <= accu < 2 ^ s ->
  shift_left s source accu = (dest, accu') ->
  limbs_ok dest /\ length dest = length source /\ 0 <= accu' < 2 ^ s /\
  value dest + beta ^ Z.of_nat (length source) * accu' = value source * 2 ^ s + accu.
Proof.
  intros Hs Hsrc. revert accu dest accu'.
  assert (Hp : 1 <= 2 ^ s <= 2 ^ 31)
    by (split; [change 1 with (2 ^ 0)|]; apply Z.pow_le_mono_r; lia).
  induction Hsrc as [|d source Hd Hsrc IH]; intros accu dest accu' Ha E; cbn [shift_left] in E.
  - injection E as <- <-. cbn [value length]. split_and!; try done; try lia. apply Forall_nil_2.
  - rewrite (Z.shiftl_mul_pow2 d) in E by lia.
    assert (0 <= d * 2 ^ s <= (beta - 1) * 2 ^ s) by nia.
    rewrite (twolimb_small (d * 2 ^ s)), (twolimb_small (accu + d * 2 ^ s)) in E by nia.
    destruct (split_twolimb (accu + d * 2 ^ s)) as (Hsp & Hl & Hh); [nia|].
    destruct (shift_left _ _ _) as [dest' accu1] eqn:E'. injection E as <- <-.
    apply IH in E' as (Hok & Hlen & Hacc & Hv).
    + split_and!; [by apply Forall_cons_2|simpl; lia|lia|lia|].
      cbn [value length]. rewrite Nat2Z.inj_succ, Z.pow_succ_r by lia. nia.
    + split; [lia|]. unfold GMP_LIMB_BITS in *. rewrite Z.shiftr_div_pow2 in * by lia.
      apply Z.div_lt_upper_bound; nia.
Qed.

Lemma divide_limb_spec den source q r :
  0 < den < beta -> limbs_ok source -> divide_limb den source = (q, r) ->
  limbs_ok q /\ length q = length source /\ 0 <= r < den /\
  value source = value q * den + r.
Proof.
  intros Hden Hsrc. revert q r.
  induction Hsrc as [|d source Hd Hsrc IH]; intros q r E; cbn [divide_limb] in E.
  - injection E as <- <-. cbn [value length]. split_and!; try done; try lia. apply Forall_nil_2.
  - destruct (divide_limb den source) as [q' r'] eqn:E'.
    destruct (IH _ _ eq_refl) as (Hq & Hlen & Hr & Hv).
    rewrite lor_limbs in E by lia. injection E as <- <-.
    assert (0 <= (r' * beta + d) / den < beta)
      by (split; [apply Z.div_pos; lia|apply Z.div_lt_upper_bound; nia]).
    pose proof (Z.mod_pos_bound (r' * beta + d) den ltac:(lia)).
    pose proof (Z.div_mod (r' * beta + d) den ltac:(lia)).
    rewrite !limb_small by lia.
    split_and!; [by apply Forall_cons_2|simpl; lia|lia|lia|]. cbn [value]. nia.
Qed.

Lemma sub_row_spec q b dest carry row c :
  0 <= q < beta -> limbs_ok b -> limbs_ok dest -> length dest = length b ->
  0 <= carry <= q -> sub_row q b dest carry = (row, c) ->
  limbs_ok row /\ length row = length b /\ 0 <= c <= q /\
  value row = value dest - q * value b - carry + beta ^ Z.of_nat (length b) * c.
Proof.
  intros Hq Hb Hdest. revert b Hb carry row c.
  induction Hdest as [|d dest Hd Hdest IH]; intros b Hb carry row c Hlen Hc E;
    destruct Hb as [|s b Hs Hb]; try done; cbn [sub_row] in E.
  - injection E as <- <-. cbn [value length]. split_and!; try done; try lia. apply Forall_nil_2.
  - injection Hlen as Hlen. rewrite limb_lnot in E by done.
    assert (0 <= q * s <= q * (beta - 1)) by nia.
    rewrite (twolimb_small (q * s)), (twolimb_small (carry + q * s)) in E by nia.
    rewrite (twolimb_small (carry + q * s + (beta - 1 - d))) in E by nia.
    destruct (split_twolimb (carry + q * s + (beta - 1 - d))) as (Hsp & Hl & Hh); [nia|].
    destruct (sub_row _ _ _ _) as [row' c'] eqn:E'. rewrite limb_lnot in E by done.
    injection E as <- <-.
    assert (Z.shiftr (carry + q * s + (beta - 1 - d)) GMP_LIMB_BITS <= q) as Hcq.
    { unfold GMP_LIMB_BITS. rewrite Z.shiftr_div_pow2 by lia.
      assert ((carry + q * s + (beta - 1 - d)) / beta < q + 1); [|lia].
      apply Z.div_lt_upper_bound; nia. }
    apply IH in E' as (Hr & Hrl & Hc' & Hv); auto; [|lia].
    split_and!; [apply Forall_cons_2; [lia|done]|simpl; lia|lia|lia|].
    cbn [value length]. rewrite Nat2Z.inj_succ, Z.pow_succ_r by lia. nia.
Qed.

Lemma add_row_spec b dest carry :
  limbs_ok b -> limbs_ok dest -> length dest = length b -> 0 <= carry <= 1 ->
  limbs_ok (add_row b dest carry) /\ length (add_row b dest carry) = length b /\
  exists c, value (add_row b dest carry) + beta ^ Z.of_nat (length b) * c =
            value dest + value b + carry.
Proof.
  intros Hb Hdest. revert b Hb carry.
  induction Hdest as [|d dest Hd Hdest IH]; intros b Hb carry Hlen Hc;
    destruct Hb as [|s b Hs Hb]; try done; cbn [add_row].
  - split_and!; [apply Forall_nil_2|done|]. exists carry. cbn [value length]. simpl. lia.
  - injection Hlen as Hlen. rewrite limb_lnot by done.
    set (carry' := if negb (carry =? 0) then _ else _).
    assert (0 <= carry' <= 1 /\ s + d + carry = limb (s + d + carry) + beta * carry')
      as [Hc' Hsum].
    { assert (carry' = if beta <=? s + d + carry then 1 else 0) as ->.
      { unfold carry'. destruct (Z.eqb_spec carry 0) as [->|]; simpl negb; cbv iota.
        - destruct (Z.ltb_spec (beta - 1 - d) s), (Z.leb_spec beta (s + d + 0)); lia.
        - destruct (Z.leb_spec (beta - 1 - d) s), (Z.leb_spec beta (s + d + carry)); lia. }
      unfold limb, wrapw, GMP_LIMB_BITS. destruct (Z.leb_spec beta (s + d + carry)).
      - split; [lia|]. rewrite <- (Z.mod_unique (s + d + carry) beta 1 (s + d + carry - beta)); lia.
      - split; [lia|]. rewrite Z.mod_small; lia. }
    destruct (IH b Hb carry' Hlen Hc') as (Hok & Hl & c & Hv).
    pose proof (limb_range (s + d + carry)).
    split_and!; [apply Forall_cons_2; [lia|done]|simpl; lia|].
    exists c. cbn [value length]. rewrite Nat2Z.inj_succ, Z.pow_succ_r by lia. nia.
Qed.

(** ** The quotient digit *)

Lemma correct_q_star_spec b1 b2 r2 q c1 top :
  2 ^ 31 <= b1 < beta -> 0 <= b2 < beta -> 0 <= r2 < beta -> 0 <= q < beta ->
  0 <= c1 < beta -> top = q * b1 + c1 -> (c1 < b1 \/ q = beta - 1) -> 0 <= top ->
  let q' := correct_q_star b1 b2 r2 q c1 in
  0 <= q' < beta /\ q' * (b1 * beta + b2) <= top * beta + r2 /\
  (top * beta + r2 < (q' + 1) * (b1 * beta + b2) \/ q' = beta - 1).
Proof.
  intros Hb1 Hb2 Hr2 Hq Hc1 Htop Hc Ht. cbv zeta. unfold correct_q_star.
  rewrite !lor_limbs by lia. 
  assert (0 <= b2 * q <= (beta - 1) * (beta - 1)) by nia.
  rewrite (twolimb_small (b2 * q)) by nia.
  assert (Hid : top * beta + r2 - q * (b1 * beta + b2) = c1 * beta + r2 - b2 * q)
    by (subst top; ring).
  destruct (Z.ltb_spec (c1 * beta + r2) (b2 * q)) as [Hlt|Hge].
  - rewrite (twolimb_small (b2 * q - (c1 * beta + r2))) by nia.
    assert (1 <= q) by nia. rewrite (limb_small (q - 1)) by lia.
    assert (beta * beta <= 2 * (b1 * beta + b2)) by nia.
    destruct (Z.ltb_spec (b1 * beta + b2) (b2 * q - (c1 * beta + r2))).
    + assert (2 <= q).
      { destruct (Z.eq_dec q 1) as [->|]; [|lia]. nia. }
      rewrite limb_small by lia. split_and!; [lia|lia|nia|]. left. nia.
    + split_and!; [lia|lia|nia|]. left. nia.
  - split_and!; [lia|lia|nia|]. destruct Hc as [Hc| ->]; [left|by right]. nia.
Qed.

Lemma q_star_spec b1 b2 r1 r0 r2 :
  2 ^ 31 <= b1 < beta -> 0 <= b2 < beta -> 0 <= r1 <= b1 -> 0 <= r0 < beta -> 0 <= r2 < beta ->
  let q := q_star b1 b2 r1 r0 r2 in
  let n3 := (r1 * beta + r0) * beta + r2 in
  0 <= q < beta /\ q * (b1 * beta + b2) <= n3 /\
  (n3 < (q + 1) * (b1 * beta + b2) \/ q = beta - 1).
Proof.
  intros Hb1 Hb2 Hr1 Hr0 Hr2. cbv zeta. unfold q_star.
  destruct (Z.ltb_spec r1 b1) as [Hlt|Hge].
  - rewrite lor_limbs by lia.
    pose proof (Z.div_mod (r1 * beta + r0) b1 ltac:(lia)).
    pose proof (Z.mod_pos_bound (r1 * beta + r0) b1 ltac:(lia)).
    assert (0 <= (r1 * beta + r0) / b1 < beta)
      by (split; [apply Z.div_pos; nia|apply Z.div_lt_upper_bound; nia]).
    rewrite !limb_small by lia.
    apply correct_q_star_spec; lia.
  - assert (r1 = b1) as -> by lia. rewrite (proj2 (Z.ltb_ge b1 b1)) by lia. cbn [orb].
    change (limb (Z.lnot 0)) with (beta - 1). unfold limb, wrapw, GMP_LIMB_BITS.
    destruct (Z.lt_ge_cases (r0 + b1) beta) as [Hs|Hs].
    + rewrite Z.mod_small by lia. rewrite (proj2 (Z.ltb_ge _ _)) by lia.
      apply correct_q_star_spec; lia.
    + rewrite <- (Z.mod_unique (r0 + b1) beta 1 (r0 + b1 - beta)) by lia.
      rewrite (proj2 (Z.ltb_lt _ _)) by lia. split_and!; [lia|lia| |by right]. nia.
Qed.

(** The estimate is the quotient of the window or one more. *)
Lemma q_star_estimate b1 b2 bl r1 r0 r2 rl M q :
  2 ^ 31 <= b1 < beta -> 0 <= b2 < beta -> 0 <= bl < M -> 0 <= rl < M -> 0 <= r1 -> 0 <= r0 -> 0 <= r2 ->
  0 < M ->
  let D := b1 * beta + b2 in
  let N := (r1 * beta + r0) * beta + r2 in
  let B := D * M + bl in
  let W := N * M + rl in
  W < B * beta -> 0 <= q < beta -> q * D <= N -> (N < (q + 1) * D \/ q = beta - 1) ->
  W / B <= q <= W / B + 1.
Proof.
  intros Hb1 Hb2 Hbl Hrl Hr1 Hr0 Hr2 HM D N B W HW Hq Hlo Hhi.
  assert (HD : beta < D) by (unfold D; nia).
  assert (HB : 0 < B) by (unfold B; nia).
  assert (HN : 0 <= N) by (unfold N; nia).
  clearbody D N. split.
  - destruct Hhi as [Hhi| ->].
    + assert (W / B < q + 1); [|lia]. apply Z.div_lt_upper_bound; [done|]. unfold W, B.
      assert ((N + 1) * M <= (q + 1) * D * M) by (apply Z.mul_le_mono_nonneg_r; lia).
      assert (0 <= bl * (q + 1)) by (apply Z.mul_nonneg_nonneg; lia). lia.
    + assert (W / B < beta); [|lia]. apply Z.div_lt_upper_bound; lia.
  - assert (q - 1 <= W / B); [|lia]. apply Z.div_le_lower_bound; [done|].
    unfold W, B.
    assert ((D * M + bl) * (q - 1) <= N * M); [|lia].
    assert (q * D * M <= N * M) by (apply Z.mul_le_mono_nonneg_r; lia).
    destruct (Z.eq_dec q 0) as [->|]; [lia|].
    assert (bl * (q - 1) <= M * D) by (apply Z.mul_le_mono_nonneg; lia). lia.
Qed.

Lemma near_multiple x y k M : 0 <= x < M -> 0 <= y < M -> x = y + k * M -> k = 0.
Proof. nia. Qed.

(** The digit and the new remainder of one window. *)
Lemma window_spec b win r1 q :
  limbs_ok b -> limbs_ok win -> length win = length b -> 0 <= r1 < beta ->
  0 < value b ->
  let W := value win + beta ^ Z.of_nat (length b) * r1 in
  0 <= q < beta -> W / value b <= q <= W / value b + 1 ->
  let '(row, q') :=
    if 0 <? q then
      let '(row, carry) := sub_row q b win 0 in
      if r1 <? limb carry then (add_row b row 0, limb (q - 1)) else (row, q)
    else (win, q) in
  limbs_ok row /\ length row = length b /\ 0 <= q' < beta /\
  q' = W / value b /\ value row = W mod value b.
Proof.
  intros Hb Hwin Hlen Hr1 HB W Hq Hest.
  pose proof (value_range win Hwin) as HWl. rewrite Hlen in HWl.
  pose proof (value_range b Hb) as HBr.
  set (M := beta ^ Z.of_nat (length b)) in *.
  assert (HM : 0 < M) by (apply Z.pow_pos_nonneg; lia).
  pose proof (Z.div_mod W (value b) ltac:(lia)) as Hdm.
  pose proof (Z.mod_pos_bound W (value b) ltac:(lia)) as Hmb.
  assert (HW : 0 <= W) by (unfold W; nia).
  pose proof (Z.div_pos W (value b) HW HB) as Hdp.
  destruct (Z.ltb_spec 0 q).
  - destruct (sub_row q b win 0) as [row c] eqn:E.
    apply sub_row_spec in E as (Hrow & Hrl & Hc & Hv); auto; [|lia]. fold M in Hv.
    rewrite limb_small by lia. pose proof (value_range row Hrow) as Hrr. rewrite Hrl in Hrr.
    fold M in Hrr.
    assert (Hkey : W - q * value b = value row + (r1 - c) * M) by (unfold W; lia).
    destruct (Z.ltb_spec r1 c).
    + destruct (add_row_spec b row 0) as (Hok & Hl & c' & Hv'); auto; [lia|]. fold M in Hv'.
      pose proof (value_range _ Hok) as Har. rewrite Hl in Har. fold M in Har.
      rewrite limb_small by lia.
      assert (q = W / value b + 1).
      { assert (value row + (r1 - c) * M < 0) by nia.
        assert (~ q <= W / value b); [|lia]. intros Hle.
        apply (Z.mul_le_mono_nonneg_r _ _ (value b)) in Hle; lia. }
      split_and!; [done|done|lia|lia|lia|].
      assert (HE : value (add_row b row 0) = W mod value b + (c - r1 - c') * M) by nia.
      rewrite (near_multiple _ (W mod value b) _ _ Har ltac:(lia) HE) in HE. lia.
    + assert (q = W / value b).
      { assert (0 <= W - q * value b) by nia. nia. }
      split_and!; [done|done|lia|lia|done|]. subst q.
      assert (HE : value row = W mod value b + (c - r1) * M) by nia.
      rewrite (near_multiple _ (W mod value b) _ _ Hrr ltac:(lia) HE) in HE. lia.
  - assert (q = 0) by lia. subst q. assert (W / value b = 0) by lia.
    split_and!; [done|done|lia|lia|done|]. unfold W in *. 
    assert (r1 = 0) by nia. nia.
Qed.

(** ** The division loop *)

Lemma split_nth (l : mpn) k : (k < length l)%nat -> l = take k l ++ nth k l 0 :: drop (S k) l.
Proof.
  revert k. induction l as [|d l IH]; intros [|k] Hk; simpl in *; try lia; [done|].
  f_equal. apply IH. lia.
Qed.

Lemma take_snoc_nth (l : mpn) k : (k < length l)%nat -> take (S k) l = take k l ++ [nth k l 0].
Proof.
  revert k. induction l as [|d l IH]; intros [|k] Hk; simpl in *; try lia; [done|].
  f_equal. apply IH. lia.
Qed.

Lemma take_snoc_drop (l : mpn) k x l' : drop k l = x :: l' -> take (S k) l = take k l ++ [x].
Proof.
  revert k. induction l as [|d l IH]; intros [|k] H; simpl in *; try done; [by injection H as -> _|].
  f_equal. by apply IH.
Qed.

Lemma nth_take_drop (l : mpn) i j n : (i < n)%nat -> nth i (take n (drop j l)) 0 = nth (j + i) l 0.
Proof.
  intros Hi. rewrite !nth_lookup, lookup_take, lookup_drop.
  by rewrite decide_True by lia.
Qed.

Lemma limbs_ok_nth l i : limbs_ok l -> 0 <= nth i l 0 < beta.
Proof.
  intros Hl. destruct (nth_in_or_default i l 0) as [Hin | ->]; [|lia].
  by eapply List.Forall_forall in Hl.
Qed.

Lemma limbs_ok_take n l : limbs_ok l -> limbs_ok (take n l).
Proof. apply Forall_take. Qed.

Lemma limbs_ok_drop n l : limbs_ok l -> limbs_ok (drop n l).
Proof. apply Forall_drop. Qed.

#[export] Hint Resolve limbs_ok_nth limbs_ok_take limbs_ok_drop : bignum.

(** The two leading limbs of a number. *)
Lemma value_top2 l n :
  length l = n -> (2 <= n)%nat ->
  value l = (nth (n - 1) l 0 * beta + nth (n - 2) l 0) * beta ^ Z.of_nat (n - 2)
            + value (take (n - 2) l).
Proof.
  intros Hl Hn.
  assert (l = take (n - 2) l ++ [nth (n - 2) l 0; nth (n - 1) l 0]) as E.
  { rewrite (split_nth l (n - 2)) at 1 by lia. f_equal. f_equal.
    replace (S (n - 2)) with (n - 1)%nat by lia.
    assert (drop (n - 1) l = nth (n - 1) l 0 :: drop (S (n - 1)) l) as ->.
    { rewrite (split_nth l (n - 1)) at 1 by lia. apply drop_app_length'.
      rewrite length_take. lia. }
    f_equal. apply drop_ge. lia. }
  rewrite E at 1. rewrite value_app, length_take. cbn [value].
  replace (Nat.min (n - 2) (length l)) with (n - 2)%nat by lia. ring.
Qed.

Section DivLoop.
Context (b : mpn) (n : nat) (Hb : limbs_ok b) (Hn : length b = n) (H2 : (2 <= n)%nat).
Context (Hmsd : 2 ^ 31 <= nth (n - 1) b 0).

Lemma value_b_pos : 0 < value b.
Proof using Hb Hn H2 Hmsd.
  rewrite (value_top2 b n) by done.
  pose proof (value_range _ (limbs_ok_take (n - 2) b Hb)).
  pose proof (limbs_ok_nth b (n - 2) Hb).
  assert (0 < beta ^ Z.of_nat (n - 2)) by (apply Z.pow_pos_nonneg; lia). nia.
Qed.

(** The digit of a window is the quotient of the window, or one more. *)
Lemma window_estimate win r1 :
  limbs_ok win -> length win = n -> 0 <= r1 < beta ->
  let W := value win + beta ^ Z.of_nat n * r1 in
  W < value b * beta ->
  let q := q_star (nth (n - 1) b 0) (nth (n - 2) b 0) r1
             (nth (n - 1) win 0) (nth (n - 2) win 0) in
  0 <= q < beta /\ W / value b <= q <= W / value b + 1.
Proof using Hb Hn H2 Hmsd.
  intros Hwin Hlen Hr1 W HW q.
  pose proof (limbs_ok_nth b (n - 1) Hb). pose proof (limbs_ok_nth b (n - 2) Hb).
  pose proof (limbs_ok_nth win (n - 1) Hwin). pose proof (limbs_ok_nth win (n - 2) Hwin).
  pose proof (value_range _ (limbs_ok_take (n - 2) b Hb)) as Hbl.
  pose proof (value_range _ (limbs_ok_take (n - 2) win Hwin)) as Hrl.
  rewrite length_take in Hbl, Hrl. rewrite Hn, Nat.min_l in Hbl by lia.
  rewrite Hlen, Nat.min_l in Hrl by lia.
  set (M := beta ^ Z.of_nat (n - 2)) in *.
  assert (HM : 0 < M) by (apply Z.pow_pos_nonneg; lia).
  assert (EW : W = ((r1 * beta + nth (n - 1) win 0) * beta + nth (n - 2) win 0) * M
    + value (take (n - 2) win)).
  { unfold W. rewrite (value_top2 win n) by done. fold M.
    replace (beta ^ Z.of_nat n) with (beta * beta * M); [ring|].
    unfold M. rewrite <- Z.mul_assoc, <- !Z.pow_succ_r by lia. f_equal. lia. }
  assert (EB := value_top2 b n Hn H2). fold M in EB.
  assert (r1 <= nth (n - 1) b 0).
  { destruct (Z.le_gt_cases r1 (nth (n - 1) b 0)); [done|exfalso].
    assert ((nth (n - 1) b 0 + 1) * beta * beta * M <= r1 * beta * beta * M)
      by (repeat apply Z.mul_le_mono_nonneg_r; lia).
    assert (value b < (nth (n - 1) b 0 + 1) * beta * M) by nia.
    assert (0 <= nth (n - 1) win 0 * M) by nia. assert (0 <= nth (n - 2) win 0 * M) by nia.
    lia. }
  destruct (q_star_spec (nth (n - 1) b 0) (nth (n - 2) b 0) r1
    (nth (n - 1) win 0) (nth (n - 2) win 0)) as (Hq & Hlo & Hhi); try lia.
  fold q in Hq, Hlo, Hhi. split; [done|]. rewrite EW, EB in *.
  apply q_star_estimate; auto; lia.
Qed.

Lemma div_step_spec r j :
  limbs_ok r -> (j + n + 1 <= length r)%nat ->
  value (take (j + n + 1) r) < value b * beta ^ (Z.of_nat j + 1) ->
  let r' := div_step b r j in
  exists q, limbs_ok r' /\ length r' = length r /\ 0 <= q < beta /\
    drop (j + n) r' = q :: drop (j + n + 1) r /\
    value (take (j + n + 1) r) = q * value b * beta ^ Z.of_nat j + value (take (j + n) r') /\
    value (take (j + n) r') < value b * beta ^ Z.of_nat j.
Proof using Hb Hn H2 Hmsd.
  intros Hr Hlen HR r'.
  set (lo := take j r). set (win := take n (drop j r)). set (r1 := nth (j + n) r 0).
  assert (Hwl : length win = n) by (unfold win; rewrite length_take, length_drop; lia).
  assert (Hll : length lo = j) by (unfold lo; rewrite length_take; lia).
  assert (Hwin : limbs_ok win) by (unfold win; auto with bignum).
  assert (Hlo : limbs_ok lo) by (unfold lo; auto with bignum).
  pose proof (limbs_ok_nth r (j + n) Hr) as Hr1. fold r1 in Hr1.
  assert (Et : take (j + n + 1) r = lo ++ win ++ [r1]).
  { replace (j + n + 1)%nat with (S (j + n)) by lia. rewrite take_snoc_nth by lia.
    unfold lo, win. by rewrite app_assoc, take_take_drop. }
  pose proof (value_range lo Hlo) as Hlv. rewrite Hll in Hlv.
  set (P := beta ^ Z.of_nat j) in *.
  assert (HP : 0 < P) by (apply Z.pow_pos_nonneg; lia).
  set (W := value win + beta ^ Z.of_nat n * r1).
  assert (EV : value (take (j + n + 1) r) = value lo + P * W).
  { rewrite Et, !value_app, Hll, Hwl. unfold W. cbn [value]. fold P. ring. }
  rewrite Z.pow_add_r in HR by lia. fold P in HR. rewrite EV in HR.
  assert (HW : W < value b * beta).
  { assert (P * W < P * (value b * beta)) by lia. nia. }
  destruct (window_estimate win r1 Hwin Hwl Hr1 HW) as [Hq Hest].
  pose proof (window_spec b win r1 (q_star (nth (n - 1) b 0) (nth (n - 2) b 0) r1
    (nth (n - 1) win 0) (nth (n - 2) win 0)) Hb Hwin ltac:(lia) Hr1 value_b_pos) as HS.
  rewrite Hn in HS. specialize (HS Hq Hest). fold W in HS.
  assert (Er : r' = let '(row, q) :=
    if 0 <? q_star (nth (n - 1) b 0) (nth (n - 2) b 0) r1 (nth (n - 1) win 0) (nth (n - 2) win 0) then
      let '(row, carry) := sub_row (q_star (nth (n - 1) b 0) (nth (n - 2) b 0) r1
         (nth (n - 1) win 0) (nth (n - 2) win 0)) b win 0 in
      if r1 <? limb carry then (add_row b row 0, limb (q_star (nth (n - 1) b 0) (nth (n - 2) b 0) r1
         (nth (n - 1) win 0) (nth (n - 2) win 0) - 1)) else (row, q_star (nth (n - 1) b 0) (nth (n - 2) b 0) r1
         (nth (n - 1) win 0) (nth (n - 2) win 0))
    else (win, q_star (nth (n - 1) b 0) (nth (n - 2) b 0) r1 (nth (n - 1) win 0) (nth (n - 2) win 0)) in
    lo ++ row ++ [q] ++ drop (j + n + 1) r).
  { unfold r', div_step. rewrite Hn. unfold win, r1, lo. rewrite !nth_take_drop by lia.
    replace (j + (n - 1))%nat with (j + n - 1)%nat by lia.
    replace (j + (n - 2))%nat with (j + n - 2)%nat by lia. done. }
  rewrite Er. clear Er Hq Hest. destruct (if 0 <? _ then _ else _) as [row q].
  destruct HS as (Hrow & Hrl & Hq & Eq & Ev).
  assert (Etk : take (j + n) (lo ++ row ++ [q] ++ drop (j + n + 1) r) = lo ++ row).
  { rewrite app_assoc, take_app_length'; [done|]. rewrite length_app. lia. }
  assert (Edr : drop (j + n) (lo ++ row ++ [q] ++ drop (j + n + 1) r) = q :: drop (j + n + 1) r).
  { rewrite app_assoc, drop_app_length'; [done|]. rewrite length_app. lia. }
  exists q. rewrite Etk, Edr, value_app, Hll. fold P.
  pose proof (Z.div_mod W (value b) ltac:(pose proof value_b_pos; lia)).
  pose proof (Z.mod_pos_bound W (value b) value_b_pos).
  split_and!; try done; [| |lia|lia| |].
  - repeat (apply Forall_app; split); auto with bignum.
    by apply limbs_ok_drop.
  - rewrite !length_app, length_drop. simpl. lia.
  - rewrite EV, Ev, Eq. nia.
  - rewrite Ev. nia.
Qed.

Lemma div_loop_spec j : forall r,
  limbs_ok r -> (j + n + 1 <= length r)%nat ->
  value (take (j + n + 1) r) < value b * beta ^ (Z.of_nat j + 1) ->
  let room := div_loop b r j in
  limbs_ok room /\ length room = length r /\
  drop (j + n + 1) room = drop (j + n + 1) r /\
  value (take (j + n + 1) r) = value (take (j + 1) (drop n room)) * value b + value (take n room) /\
  value (take n room) < value b.
Proof using Hb Hn H2 Hmsd.
  induction j as [|j IH]; intros r Hr Hlen HR; cbn [div_loop].
  - destruct (div_step_spec r 0 Hr Hlen HR) as (q & Hok & Hl & Hq & Hd & Hv & Hlt).
    simpl Nat.add in *. change (Z.of_nat 0) with 0 in *. rewrite Z.pow_0_r in *.
    rewrite Hd. cbn [take value]. rewrite take_0. cbn [value]. split_and!; auto; [|lia..].
    apply (f_equal (drop 1)) in Hd. by rewrite drop_drop in Hd.
  - destruct (div_step_spec r (S j) Hr Hlen HR) as (q & Hok & Hl & Hq & Hd & Hv & Hlt).
    set (r1 := div_step b r (S j)) in *.
    replace (S j + n)%nat with (j + n + 1)%nat in * by lia.
    destruct (IH r1 Hok ltac:(lia)) as (Hok' & Hl' & Hd' & Hv' & Hlt').
    { rewrite Nat2Z.inj_succ in Hlt. exact Hlt. }
    set (room := div_loop b r1 j) in *. rewrite Hd in Hd'.
    split_and!; auto; [congruence| |].
    + apply (f_equal (drop 1)) in Hd'. by rewrite drop_drop in Hd'.
    + rewrite Hv, Hv'. replace (S j + 1)%nat with (S (j + 1)) by lia.
      rewrite (take_snoc_drop _ _ q (drop (j + n + 1 + 1) r))
        by (rewrite drop_drop, <- Hd'; f_equal; lia).
      rewrite value_app, length_take, length_drop, Nat.min_l by lia. cbn [value].
      replace (Z.of_nat (j + 1)) with (Z.of_nat (S j)) by lia. ring.
Qed.
End DivLoop.

(** ** Rounding *)

Lemma lor_bit x y : 0 <= x <= 1 -> 0 <= y -> Z.lor x (2 * y) = x + 2 * y.
Proof. intros Hx Hy. assert (x = 0 \/ x = 1) as [-> | ->] by lia; by destruct y. Qed.

(** The bit shifted out of limb [i - 1]. *)
Definition carry_in (r : mpn) (i : nat) : Z :=
  if (i <=? length r)%nat && (0 <? i)%nat then nth (i - 1) r 0 / 2 ^ 31 else 0.

Lemma carry_in_range r i : limbs_ok r -> 0 <= carry_in r i <= 1.
Proof.
  intros Hr. unfold carry_in. case_if; [|lia].
  pose proof (limbs_ok_nth r (i - 1) Hr).
  assert (0 <= nth (i - 1) r 0 / 2 ^ 31 < 2); [|lia].
  split; [apply Z.div_pos; lia|apply Z.div_lt_upper_bound; lia].
Qed.

Lemma shl1_limb_spec r i :
  limbs_ok r ->
  0 <= shl1_limb r i < beta /\
  shl1_limb r i + beta * carry_in r (S i) = 2 * nth i r 0 + carry_in r i.
Proof.
  intros Hr. pose proof (carry_in_range r i Hr) as Hc. pose proof (limbs_ok_nth r i Hr) as Hd.
  assert (shl1_limb r i = carry_in r i + 2 * (nth i r 0 mod 2 ^ 31)) as ->.
  { unfold shl1_limb, GMP_LIMB_BITS. rewrite Z.shiftr_div_pow2 by lia.
    change (2 ^ (32 - 1)) with (2 ^ 31). fold (carry_in r i).
    assert ((if (i <? length r)%nat then limb (Z.shiftl (nth i r 0) 1) else 0)
      = 2 * (nth i r 0 mod 2 ^ 31)) as ->.
    { destruct (Nat.ltb_spec i (length r)).
      - rewrite Z.shiftl_mul_pow2 by lia. unfold limb, wrapw, GMP_LIMB_BITS.
        change (2 ^ 32) with (2 ^ 31 * 2). rewrite Z.mul_mod_distr_r by lia. lia.
      - rewrite nth_overflow by lia. done. }
    apply lor_bit; [done|]. apply Z.mod_pos_bound. lia. }
  pose proof (Z.mod_pos_bound (nth i r 0) (2 ^ 31) ltac:(lia)). split; [lia|].
  assert (carry_in r (S i) = nth i r 0 / 2 ^ 31) as ->.
  { unfold carry_in. replace (S i - 1)%nat with i by lia.
    destruct (Nat.leb_spec (S i) (length r)); [done|].
    rewrite (nth_overflow r) by lia. done. }
  pose proof (Z.div_mod (nth i r 0) (2 ^ 31) ltac:(lia)). lia.
Qed.

(** The number with the digits [f 0 .. f (n - 1)]. *)
Fixpoint digits_value (f : nat -> Z) (n : nat) : Z :=
  match n with O => 0 | S n => digits_value f n + beta ^ Z.of_nat n * f n end.

Lemma digits_value_range f n :
  (forall i, 0 <= f i < beta) -> 0 <= digits_value f n < beta ^ Z.of_nat n.
Proof.
  intros Hf. induction n as [|n IH]; cbn [digits_value]; [simpl; lia|].
  rewrite Nat2Z.inj_succ, Z.pow_succ_r by lia. specialize (Hf n). nia.
Qed.

Lemma digits_value_nth l n :
  digits_value (fun i => nth i l 0) n = value (take n l).
Proof.
  induction n as [|n IH]; [done|]. cbn [digits_value]. rewrite IH.
  destruct (Nat.lt_ge_cases n (length l)).
  - rewrite take_snoc_nth, value_app, length_take, Nat.min_l by lia. cbn [value]. lia.
  - rewrite nth_overflow by lia. rewrite !take_ge by lia. lia.
Qed.

Lemma digits_value_shl1 r n :
  limbs_ok r ->
  digits_value (shl1_limb r) n + beta ^ Z.of_nat n * carry_in r n = 2 * value (take n r).
Proof.
  intros Hr. rewrite <- digits_value_nth. induction n as [|n IH]; [done|].
  cbn [digits_value]. destruct (shl1_limb_spec r n Hr) as [_ H].
  rewrite Nat2Z.inj_succ, Z.pow_succ_r by lia. nia.
Qed.

Lemma compare_shl1_spec r b :
  limbs_ok r -> limbs_ok b -> (length r <= length b)%nat ->
  compare_shl1 r b (length b) = (2 * value r ?= value b).
Proof.
  intros Hr Hb Hlen. set (g := fun i => nth i b 0).
  assert (forall i, compare_shl1 r b i =
    (digits_value (shl1_limb r) (S i) ?= digits_value g (S i))) as ->.
  { assert (Hg : forall i, (if (i <? length b)%nat then nth i b 0 else 0) = g i).
    { intros i. unfold g. destruct (Nat.ltb_spec i (length b)); [done|].
      by rewrite nth_overflow by lia. }
    assert (Hf : forall i, 0 <= shl1_limb r i < beta) by (intros; by apply shl1_limb_spec).
    assert (Hgr : forall i, 0 <= g i < beta) by (intros; by apply limbs_ok_nth).
    induction i as [|i IH]; cbn [compare_shl1]; rewrite Hg.
    - cbn [digits_value]. change (beta ^ Z.of_nat 0) with 1.
      destruct (Z.ltb_spec (g 0%nat) (shl1_limb r 0)); [symmetry; apply Z.compare_gt_iff; lia|].
      destruct (Z.ltb_spec (shl1_limb r 0) (g 0%nat)); [symmetry; apply Z.compare_lt_iff; lia|].
      symmetry. apply Z.compare_eq_iff. lia.
    - pose proof (digits_value_range (shl1_limb r) (S i) Hf) as H1.
      pose proof (digits_value_range g (S i) Hgr) as H2.
      remember (S i) as k. cbn [digits_value].
      set (M := beta ^ Z.of_nat k) in *. set (x := shl1_limb r k). set (y := g k).
      destruct (Z.ltb_spec y x); [symmetry; apply Z.compare_gt_iff; nia|].
      destruct (Z.ltb_spec x y); [symmetry; apply Z.compare_lt_iff; nia|].
      rewrite IH. assert (x = y) as -> by lia.
      rewrite (Z.add_comm _ (M * y)), (Z.add_comm _ (M * y)). symmetry. apply Z.add_compare_mono_l. }
  unfold g. rewrite digits_value_nth, take_ge by lia.
  pose proof (digits_value_shl1 r (S (length b)) Hr) as H.
  unfold carry_in in H. rewrite (proj2 (Nat.leb_gt _ _)) in H by lia. cbn [andb] in H.
  rewrite take_ge in H by lia. f_equal. lia.
Qed.

Lemma increment_spec q :
  limbs_ok q ->
  limbs_ok (increment q) /\ value (increment q) = value q + 1 /\
  (length q <= length (increment q) <= S (length q))%nat /\ (normal q -> normal (increment q)).
Proof.
  induction 1 as [|d q Hd Hq (IH1 & IH2 & IH3 & IH4)]; cbn [increment].
  - split_and!; try done; [|simpl; lia..]. apply Forall_cons_2; [lia|constructor].
  - pose proof (limb_range (d + 1)). unfold limb, wrapw, GMP_LIMB_BITS in *.
    destruct (Z.eq_dec (d + 1) beta) as [E|E].
    + rewrite E, Z_mod_same_full in *. cbn [Z.eqb negb value length].
      split_and!; [by apply Forall_cons_2|nia|lia|lia|].
      unfold normal in *. intros Hn. destruct q as [|e q]; [done|].
      assert (Hne : increment (e :: q) <> []) by (cbn; by case_if).
      destruct (increment (e :: q)) as [|f k]; [done|]. by apply IH4.
    + rewrite Z.mod_small in * by lia. rewrite (proj2 (Z.eqb_neq _ _)) by lia.
      cbn [negb value length]. split_and!; [by apply Forall_cons_2|lia|lia|lia|].
      unfold normal. destruct q; [simpl; lia|done].
Qed.

(** Rounding to the nearest integer, ties to even. *)
Definition round_half_even (a b : Z) : Z :=
  let q := a / b in
  match 2 * (a mod b) ?= b with
  | Gt => q + 1
  | Lt => q
  | Eq => if Z.odd q then q + 1 else q
  end.

Lemma round_half_even_scale a b k :
  0 < b -> 0 < k -> round_half_even (a * k) (b * k) = round_half_even a b.
Proof.
  intros Hb Hk. unfold round_half_even.
  rewrite Z.div_mul_cancel_r, Z.mul_mod_distr_r, Z.mul_assoc by lia.
  assert ((2 * (a mod b) * k ?= b * k) = (2 * (a mod b) ?= b)) as ->; [|done].
  rewrite (Z.mul_comm _ k), (Z.mul_comm b k). symmetry. apply Zmult_compare_compat_l. lia.
Qed.

Lemma value_odd q : (0 < length q)%nat -> Z.odd (value q) = negb (Z.land (nth 0 q 0) 1 =? 0).
Proof.
  destruct q as [|d q]; simpl length; [lia|]. intros _. cbn [value nth].
  rewrite Z.odd_add, Z.odd_mul. change (Z.odd beta) with false. rewrite andb_false_l, xorb_false_r.
  change 1 with (Z.ones 1). rewrite Z.land_ones by lia. change (2 ^ 1) with 2. rewrite Zmod_odd. by destruct (Z.odd d).
Qed.

Lemma round_q_spec q r b A :
  limbs_ok q -> limbs_ok r -> limbs_ok b -> (length r <= length b)%nat -> normal q ->
  0 <= value r < value b -> A = value q * value b + value r ->
  limbs_ok (round_q q r b) /\ normal (round_q q r b) /\
  value (round_q q r b) = round_half_even A (value b) /\
  (length (round_q q r b) <= S (length q))%nat.
Proof.
  intros Hq Hr Hb Hlen Hn Hrb HA. unfold round_q. rewrite (proj2 (Nat.ltb_ge _ _)) by lia.
  rewrite compare_shl1_spec by done. unfold round_half_even.
  rewrite <- (Z.div_unique A (value b) (value q) (value r)) by lia.
  rewrite <- (Z.mod_unique A (value b) (value q) (value r)) by lia.
  destruct (increment_spec q Hq) as (Hi1 & Hi2 & Hi3 & Hi4).
  destruct (2 * value r ?= value b); [|split_and!; auto; lia|split_and!; auto; lia].
  destruct (Nat.ltb_spec 0 (length q)).
  - rewrite value_odd by done. cbn [andb]. case_if; split_and!; auto; lia.
  - destruct q; [|simpl in *; lia]. split_and!; auto; simpl; lia.
Qed.

(** ** Correctness of divide *)

Lemma drop_zero_limb_spec q :
  limbs_ok q -> ((2 <= length q)%nat -> beta ^ (Z.of_nat (length q) - 2) <= value q) ->
  limbs_ok (drop_zero_limb q) /\ normal (drop_zero_limb q) /\
  value (drop_zero_limb q) = value q /\ (length (drop_zero_limb q) <= length q)%nat.
Proof.
  intros Hq Hlow. unfold drop_zero_limb. destruct q as [|d0 q0] eqn:Eq0; [done|].
  assert (Hne : q <> []) by (by subst). rewrite <- Eq0 in *. clear Eq0 d0 q0.
  destruct (exists_last Hne) as (k & d & ->).
  rewrite length_app in *. simpl length in *. replace (length k + 1 - 1)%nat with (length k) by lia.
  rewrite nth_middle. apply Forall_app in Hq as [Hk Hd]. inversion Hd; subst.
  rewrite value_app in *. cbn [value] in *. destruct (Z.eqb_spec d 0) as [-> | Hd0].
  - rewrite take_app_length. split_and!; [done| |lia|lia].
    destruct k as [|e k0] eqn:Ek0; [done|]. rewrite <- Ek0 in *.
    assert (Hke : k <> []) by (by subst). clear Ek0 e k0.
    destruct (exists_last Hke) as (k' & e & ->).
    unfold normal. rewrite last_snoc. simpl. intros ->.
    apply Forall_app in Hk as [Hk' _]. pose proof (value_range k' Hk').
    rewrite length_app in *. simpl length in *. specialize (Hlow ltac:(lia)).
    replace (Z.of_nat (length k' + 1 + 1) - 2) with (Z.of_nat (length k')) in Hlow by lia.
    rewrite value_app in Hlow. cbn [value] in Hlow. lia.
  - split_and!; [|unfold normal; by rewrite last_snoc| |]; rewrite ?value_app, ?length_app; 
      cbn [value]; simpl; try lia. apply Forall_app; auto.
Qed.

(** A number is its top limb and the rest. *)
Lemma value_top l n :
  length l = n -> (1 <= n)%nat ->
  value l = nth (n - 1) l 0 * beta ^ Z.of_nat (n - 1) + value (take (n - 1) l).
Proof.
  intros Hl Hn. rewrite <- (take_ge l n) at 1 by lia.
  replace n with (S (n - 1)) at 1 by lia. rewrite take_snoc_nth by lia.
  rewrite value_app, length_take, Nat.min_l by lia. cbn [value]. ring.
Qed.

Lemma value_top_bounds l n :
  limbs_ok l -> length l = n -> (1 <= n)%nat ->
  let P := beta ^ Z.of_nat (n - 1) in
  0 < P /\ nth (n - 1) l 0 * P <= value l < (nth (n - 1) l 0 + 1) * P.
Proof.
  intros Hok Hl Hn P. rewrite (value_top l n) by done.
  pose proof (value_range _ (limbs_ok_take (n - 1) l Hok)) as Hr.
  rewrite length_take, Nat.min_l in Hr by lia. fold P in Hr |- *.
  assert (0 < P) by (apply Z.pow_pos_nonneg; lia). lia.
Qed.

Lemma divide_core b' r junk m n A B k :
  limbs_ok b' -> length b' = n -> (2 <= n <= m)%nat -> 2 ^ 31 <= nth (n - 1) b' 0 ->
  limbs_ok r -> length r = S m -> 0 <= junk < beta -> 0 < k ->
  value b' = B * k -> value r = A * k ->
  beta ^ Z.of_nat (m - 1) <= A < beta ^ Z.of_nat m ->
  beta ^ Z.of_nat (n - 1) <= B < beta ^ Z.of_nat n ->
  let room := div_loop b' (r ++ [junk]) (m - n) in
  let q := drop_zero_limb (take (m - n + 1) (drop n room)) in
  let rem := normalise (take n room) in
  limbs_ok q /\ normal q /\ (length q <= m - n + 1)%nat /\
  limbs_ok rem /\ (length rem <= length b')%nat /\
  0 <= value rem < value b' /\ A * k = value q * value b' + value rem.
Proof.
  intros Hb Hn Hnm Hmsd Hr Hrl Hj Hk HB HA HAr HBr room q rem.
  destruct (div_loop_spec b' n Hb Hn ltac:(lia) Hmsd (m - n) (r ++ [junk]))
    as (Hok & Hl & _ & Hv & Hlt).
  - apply Forall_app; split; [done|]. apply Forall_cons_2; [done|constructor].
  - rewrite length_app. simpl. lia.
  - replace (m - n + n + 1)%nat with (length r) by lia. rewrite take_app_length, HA, HB.
    assert (beta ^ Z.of_nat m <= B * beta ^ (Z.of_nat (m - n) + 1)); [|nia].
    replace (Z.of_nat m) with (Z.of_nat (n - 1) + (Z.of_nat (m - n) + 1)) by lia.
    rewrite Z.pow_add_r by lia. apply Z.mul_le_mono_nonneg_r; [apply Z.pow_nonneg; lia|lia].
  - fold room in Hok, Hl, Hv, Hlt. rewrite length_app, Hrl in Hl. simpl in Hl.
    replace (m - n + n + 1)%nat with (length r) in Hv by lia. rewrite take_app_length, HA in Hv.
    set (q0 := take (m - n + 1) (drop n room)) in *.
    assert (Hq0 : limbs_ok q0) by (unfold q0; auto with bignum).
    assert (Hql : length q0 = (m - n + 1)%nat)
      by (unfold q0; rewrite length_take, length_drop; lia).
    assert (Hrem : limbs_ok (take n room)) by auto with bignum.
    pose proof (value_range _ Hrem) as Hrr.
    destruct (drop_zero_limb_spec q0 Hq0) as (H1 & H2 & H3 & H4).
    { intros H2. rewrite Hql in *. rewrite HB in *.
      destruct (Z.le_gt_cases (beta ^ (Z.of_nat (m - n + 1) - 2)) (value q0)) as [|Hc]; [done|exfalso].
      assert (A < beta ^ (Z.of_nat (m - n + 1) - 2) * B) by nia.
      assert (beta ^ (Z.of_nat (m - n + 1) - 2) * B <= beta ^ Z.of_nat (m - 1)); [|lia].
      replace (Z.of_nat (m - 1)) with ((Z.of_nat (m - n + 1) - 2) + Z.of_nat n) by lia.
      rewrite Z.pow_add_r by lia. apply Z.mul_le_mono_nonneg_l; [apply Z.pow_nonneg; lia|lia]. }
    fold q in H1, H2, H3, H4. unfold rem. rewrite value_normalise, H3.
    split_and!; auto with bignum; try lia.
    etransitivity; [apply normalise_length|]. rewrite length_take. lia.
Qed.

Lemma shift_left_divisor b n s dest accu :
  limbs_ok b -> length b = n -> (1 <= n)%nat -> 0 <= s < 32 ->
  2 ^ 31 <= nth (n - 1) b 0 * 2 ^ s < 2 ^ 32 -> shift_left s b 0 = (dest, accu) ->
  accu = 0 /\ limbs_ok dest /\ length dest = n /\ value dest = value b * 2 ^ s /\
  2 ^ 31 <= nth (n - 1) dest 0.
Proof.
  intros Hb Hn H1 Hs Hmsd E.
  assert (H2s : 0 < 2 ^ s) by (apply Z.pow_pos_nonneg; lia).
  apply shift_left_spec in E as (Hok & Hl & Hacc & Hv); auto; [|lia].
  destruct (value_top_bounds b n Hb Hn H1) as (HP & Hlo & Hhi).
  rewrite Hn in Hv, Hl. set (P := beta ^ Z.of_nat (n - 1)) in *.
  assert (HPn : beta ^ Z.of_nat n = beta * P).
  { unfold P. rewrite <- Z.pow_succ_r by lia. f_equal. lia. }
  rewrite HPn in Hv. pose proof (value_range dest Hok) as Hdr. rewrite Hl, HPn in Hdr.
  assert ((nth (n - 1) b 0 + 1) * 2 ^ s <= beta).
  { assert (beta = 2 ^ (32 - s) * 2 ^ s) as Eb by (rewrite <- Z.pow_add_r by lia; f_equal; lia).
    assert (nth (n - 1) b 0 < 2 ^ (32 - s)).
    { apply (Z.mul_lt_mono_pos_r (2 ^ s)); lia. }
    rewrite Eb. apply Z.mul_le_mono_nonneg_r; lia. }
  assert (accu = 0) as -> by nia.
  destruct (value_top_bounds dest n Hok Hl H1) as (_ & Hlo' & Hhi'). fold P in Hlo', Hhi'.
  split_and!; auto; [lia|].
  assert (2 ^ 31 * P <= value dest) by nia.
  assert (2 ^ 31 < nth (n - 1) dest 0 + 1); [|lia].
  apply (Z.mul_lt_mono_pos_r P); lia.
Qed.

Lemma divide_multi_spec alloc_tmp junk a b :
  limbs_ok a -> limbs_ok b -> normal a -> normal b -> 0 <= junk < beta ->
  (2 <= length b <= length a)%nat ->
  match divide_multi alloc_tmp junk a b with
  | inr _ => False
  | inl None => alloc_tmp = false
  | inl (Some (q, r, b')) =>
      limbs_ok q /\ normal q /\ (length q <= length a - length b + 1)%nat /\
      limbs_ok r /\ limbs_ok b' /\ (length r <= length b')%nat /\
      exists k, 0 < k /\ value b' = value b * k /\ 0 <= value r < value b' /\
                value a * k = value q * value b' + value r
  end.
Proof.
  intros Ha Hb Hna Hnb Hjunk Hlen. unfold divide_multi.
  set (n := length b) in *. set (m := length a) in *.
  assert (Hmsd : 0 < nth (n - 1) b 0 < beta).
  { pose proof (limbs_ok_nth b (n - 1) Hb). unfold normal in Hnb.
    assert (Hne : b <> []) by (intros ->; simpl in *; lia).
    destruct (exists_last Hne) as (k & d & E). unfold n in *. rewrite E in *.
    rewrite last_snoc in Hnb. rewrite length_app in *. simpl in *.
    replace (length k + 1 - 1)%nat with (length k) in * by lia. rewrite nth_middle in *. lia. }
  destruct (leading_zeros_spec _ Hmsd) as [Hs Hs2].
  set (s := leading_zeros _) in *.
  assert (HAr : beta ^ Z.of_nat (m - 1) <= value a < beta ^ Z.of_nat m).
  { pose proof (normal_lower a Ha Hna ltac:(intros ->; simpl in *; lia)).
    pose proof (value_range a Ha). fold m in H, H0.
    replace (Z.of_nat (m - 1)) with (Z.of_nat m - 1) by lia. lia. }
  assert (HBr : beta ^ Z.of_nat (n - 1) <= value b < beta ^ Z.of_nat n).
  { pose proof (normal_lower b Hb Hnb ltac:(intros ->; simpl in *; lia)).
    pose proof (value_range b Hb). fold n in H, H0.
    replace (Z.of_nat (n - 1)) with (Z.of_nat n - 1) by lia. lia. }
  assert (H2s : 0 < 2 ^ s) by (apply Z.pow_pos_nonneg; lia).
  destruct (Z.ltb_spec 0 s) as [Hs0|Hs0]; cbn [andb].
  - destruct alloc_tmp; [|done]. cbn [negb].
    destruct (shift_left s b 0) as [b' accu] eqn:Eb.
    destruct (shift_left_divisor b n s b' accu) as (-> & Hb' & Hl' & Hv' & Hmsd'); auto; [lia|].
    cbn [Z.eqb negb]. rewrite (proj2 (Z.eqb_neq s 0)) by lia.
    destruct (shift_left s a 0) as [r0 accu] eqn:Ea.
    apply shift_left_spec in Ea as (Hr0 & Hrl & Hacc & Hrv); auto; [|lia].
    assert (2 ^ s <= 2 ^ 31) by (apply Z.pow_le_mono_r; lia).
    rewrite limb_small by lia.
    destruct (divide_core b' (r0 ++ [accu]) junk m n (value a) (value b) (2 ^ s))
      as (H1 & H2 & H3 & H4 & H5 & H6 & H7); auto.
    + apply Forall_app; split; [done|]. apply Forall_cons_2; [lia|constructor].
    + rewrite length_app, Hrl. simpl. lia.
    + rewrite value_app, Hrl. cbn [value]. lia.
    + split_and!; auto. by exists (2 ^ s).
  - assert (s = 0) as Es by lia. rewrite Es in *. cbn [Z.eqb negb].
    destruct (divide_core b (a ++ [0]) junk m n (value a) (value b) 1)
      as (H1 & H2 & H3 & H4 & H5 & H6 & H7); auto; try (clear -Es Hs2; lia); try lia.
    + apply Forall_app; split; [done|]. apply Forall_cons_2; [lia|constructor].
    + rewrite length_app. simpl. lia.
    + rewrite value_app. cbn [value]. lia.
    + split_and!; auto. exists 1. split_and!; auto; lia.
Qed.

Lemma divide_spec (alloc_room alloc_tmp : bool) (junk : Z) (a b : mpn) :
  limbs_ok a -> limbs_ok b -> 0 <= junk < beta ->
  match divide alloc_room alloc_tmp junk a b with
  | DivOk offset q =>
      0 < value b /\ limbs_ok q /\ normal q /\
      value q = round_half_even (value a) (value b) /\
      (offset + length q <= length a + 2)%nat
  | DivNomem => alloc_room && alloc_tmp = false
  | DivAbort => value b = 0
  end.
Proof.
  intros Ha Hb Hj. unfold divide. destruct alloc_room; [|done]. cbn [negb andb].
  rewrite <- (value_normalise a), <- (value_normalise b). pose proof (normalise_length a) as Hal.
  apply limbs_ok_normalise in Ha, Hb.
  pose proof (normalise_normal a) as Hna. pose proof (normalise_normal b) as Hnb.
  generalize dependent (normalise a). generalize dependent (normalise b). clear b.
  intros b Hb Hnb na Ha Hal Hna.
  destruct (Nat.eqb_spec (length b) 0) as [E|E]; [by destruct b|].
  assert (HB : 0 < value b).
  { pose proof (normal_lower b Hb Hnb ltac:(by destruct b)).
    assert (0 < beta ^ (Z.of_nat (length b) - 1)) by (apply Z.pow_pos_nonneg; lia). lia. }
  destruct (Nat.ltb_spec (length na) (length b)) as [Hlt|Hge].
  { assert (Hab : 0 <= value na < value b).
    { pose proof (value_range na Ha). pose proof (normal_lower b Hb Hnb ltac:(by destruct b)).
      assert (beta ^ Z.of_nat (length na) <= beta ^ (Z.of_nat (length b) - 1))
        by (apply Z.pow_le_mono_r; lia). lia. }
    destruct (round_q_spec [] na b (value na)) as (H1 & H2 & H3 & H4); auto;
      try apply Forall_nil_2; try lia; try done. split_and!; auto. simpl in H4. lia. }
  destruct (Nat.eqb_spec (length b) 1) as [E1|E1].
  { destruct b as [|den [|]]; try done. cbn [nth]. inversion Hb as [|? ? Hden _]; subst.
    cbn [value] in *. destruct (divide_limb den na) as [q r] eqn:Eq.
    apply divide_limb_spec in Eq as (Hq & Hql & Hr & Hv); auto; [|lia].
    destruct (drop_zero_limb_spec q Hq) as (H1 & H2 & H3 & H4).
    { intros H2. pose proof (normal_lower na Ha Hna ltac:(intros ->; simpl in *; lia)) as Hlow.
      rewrite <- Hql in Hlow.
      destruct (Z.le_gt_cases (beta ^ (Z.of_nat (length q) - 2)) (value q)) as [|Hc]; [done|exfalso].
      replace (Z.of_nat (length q) - 1) with ((Z.of_nat (length q) - 2) + 1) in Hlow by lia.
      rewrite Z.pow_add_r in Hlow by lia. nia. }
    destruct (round_q_spec (drop_zero_limb q) (if 0 <? r then [r] else []) [den] (value na))
      as (R1 & R2 & R3 & R4); auto.
    - case_if; [apply Forall_cons_2; [lia|]|]; apply Forall_nil_2.
    - case_if; simpl; lia.
    - case_if; cbn [value]; lia.
    - case_if; cbn [value]; lia.
    - cbn [value] in R3. split_and!; auto. lia. }
  pose proof (divide_multi_spec alloc_tmp junk na b Ha Hb Hna Hnb Hj ltac:(lia)) as HM.
  destruct (divide_multi alloc_tmp junk na b) as [[[[q r] b']|]|[]]; [|done|done].
  destruct HM as (Hq & Hqn & Hql & Hr & Hb' & Hrl & k & Hk & Hbv & Hrv & Hav).
  destruct (round_q_spec q r b' (value na * k)) as (R1 & R2 & R3 & R4); auto.
  rewrite Hbv, round_half_even_scale in R3 by done. split_and!; auto. lia.
Qed.

(** C37. [divide] returns the quotient rounded to nearest, ties to even, without
    leading zero limbs, within the room of [a.nlimbs + 2] limbs it allocates.
    It aborts exactly on a zero divisor, and runs out of memory only when an
    allocation fails; in particular the internal consistency check ([accu != 0])
    never aborts, and no quotient digit is ever off. *)
Theorem divide_correct (alloc_room alloc_tmp : bool) (junk : Z) (a b : mpn) :
  limbs_ok a -> limbs_ok b -> 0 <= junk < beta ->
  match divide alloc_room alloc_tmp junk a b with
  | DivOk offset q =>
      0 < value b /\ limbs_ok q /\ normal q /\
      value q = round_half_even (value a) (value b) /\
      (offset + length q <= length a + 2)%nat
  | DivNomem => alloc_room && alloc_tmp = false
  | DivAbort => value b = 0
  end.
Proof. apply divide_spec. Qed.

Lemma divide_correct_witness :
  match divide true true 99 [0; 0; 0x80000000; 0x7fffffff] [1; 0; 0x80000000; 0] with
  | DivOk offset q =>
      0 < value [1; 0; 0x80000000; 0] /\ limbs_ok q /\ normal q /\
      value q = round_half_even (value [0; 0; 0x80000000; 0x7fffffff]) (value [1; 0; 0x80000000; 0])
      /\ (offset + length q <= 4 + 2)%nat
  | DivNomem => true && true = false
  | DivAbort => value [1; 0; 0x80000000; 0] = 0
  end.
Proof.
  apply (divide_correct true true 99 [0; 0; 0x80000000; 0x7fffffff] [1; 0; 0x80000000; 0]);
    repeat (apply Forall_cons_2 || apply Forall_nil_2); lia.
Defined.
