(* ===== verification/Decimal.v ===== *)
(** * Bignums to decimal: the last part of vasnprintf.c

    [convert_to_decimal] prints a bignum, [scale10_round_decimal_decoded]
    computes the decimal digits of [round (2^e * m * 10^n)] by exact bignum
    arithmetic. *)

From S2P Require Import Prelude Bignum BignumDivide.

Open Scope Z_scope.

(** ** [float] arithmetic of the buffer sizes

    [fmul_trunc m k n] is [(size_t) (n * c)] for the [float] constant
    [c = m * 2^-k] with [2^23 <= m < 2^24] and an integer [n < 2^24]: the exact
    product, rounded to 24 significant bits (ties to even), truncated. *)
Definition fmul_trunc (m k n : Z) : Z :=
  let p := n * m in
  let sh := Z.max 0 (Z.log2 p + 1 - 24) in
  (round_half_even p (2 ^ sh) * 2 ^ sh) / 2 ^ k.

(** [GMP_LIMB_BITS * 0.03345f], and [2.322f / GMP_LIMB_BITS]. *)
Definition limb_decimals (n : Z) : Z := fmul_trunc 8979166 23 n.
Definition pow5_limbs (n : Z) : Z := fmul_trunc 9739174 27 n.

(** ** convert_to_decimal *)

(** The loop that writes [count] decimal digits of [remainder]. *)
Fixpoint store_digits (count : nat) (remainder : Z) : cstr :=
  match count with
  | O => []
  | S count => (chr "0" + remainder mod 10) :: store_digits count (remainder / 10)
  end.

(** [while (a_len > 0)]: divide by 10^9 in place, store the remainder, drop
    the top limb if it became zero. *)
Fixpoint convert_loop (fuel : nat) (a : mpn) : cstr :=
  match fuel with
  | O => []
  | S fuel =>
      if (length a =? 0)%nat then []
      else
        let '(a, remainder) := divide_limb 1000000000 a in
        store_digits 9 remainder ++ convert_loop fuel (drop_zero_limb a)
  end.

(** Two rounds per limb are enough: see [convert_loop_spec]. *)
Definition convert_fuel (a : mpn) : nat := 2 * length a.

Fixpoint strip_zeros (s : cstr) : cstr :=
  match s with
  | [] => []
  | c :: s =>
      match strip_zeros s with
      | [] => if c =? chr "0" then [] else [c]
      | s' => c :: s'
      end
  end.

(** The size passed to [malloc]. *)
Definition convert_alloc (a_len : Z) (extra_zeroes : Z) : Z :=
  Z.min (9 * (limb_decimals a_len + 1) + extra_zeroes) (2 ^ 64 - 1).

(** The memory: the number of bytes the code writes, the NUL included. *)
Definition convert_bytes (a : mpn) (extra_zeroes : nat) : nat :=
  let all := (extra_zeroes + length (convert_loop (convert_fuel a) a))%nat in
  let kept := length (strip_zeros (replicate extra_zeroes (chr "0") ++ convert_loop (convert_fuel a) a)) in
  Nat.max all (S (Nat.max 1 kept)).

(** The digits, a failure of malloc(), or a store past the end of the memory. *)
Inductive digit_string := DigitString (s : cstr) | DigitNomem | DigitOverflow.

(** The digits, least significant first, with a NUL after them. *)
Definition convert_to_decimal (alloc : bool) (a : mpn) (extra_zeroes : nat) : digit_string :=
  if alloc then
    if convert_alloc (Z.of_nat (length a)) (Z.of_nat extra_zeroes) <? Z.of_nat (convert_bytes a extra_zeroes) then DigitOverflow
    else
      let s := strip_zeros (replicate extra_zeroes (chr "0") ++ convert_loop (convert_fuel a) a) in
      DigitString (if (length s =? 0)%nat then [chr "0"] else s)
  else DigitNomem.

Example convert_ex : convert_to_decimal true [0; 1] 2 = DigitString (cs "006927694924").
Proof. vm_compute. reflexivity. Qed.

(** ** scale10_round_decimal_decoded *)

Definition small_pow5 : list Z :=
  [1; 5; 25; 125; 625; 3125; 15625; 78125; 390625; 1953125; 9765625;
   48828125; 244140625; 1220703125].

(** Multiplication of a number by a limb, in place. *)
Fixpoint mul_limb (digit1 : Z) (l : mpn) (carry : Z) : mpn * Z :=
  match l with
  | [] => ([], carry)
  | digit2 :: l =>
      let carry := twolimb (carry + twolimb (digit1 * digit2)) in
      let '(l, c) := mul_limb digit1 l (Z.shiftr carry GMP_LIMB_BITS) in
      (limb carry :: l, c)
  end.

(** [if (carry > 0) ptr[len++] = (mp_limb_t) carry] *)
Definition push_carry (x : mpn * Z) : mpn :=
  let '(l, carry) := x in if 0 <? carry then l ++ [limb carry] else l.

(** The loop over [n13]. *)
Fixpoint pow5_loop (fuel : nat) (n13 abs_n : Z) (pow5 : mpn) : mpn :=
  match fuel with
  | O => pow5
  | S fuel =>
      if n13 <=? abs_n then
        let digit1 := nth (Z.to_nat (if n13 + 13 <=? abs_n then 13 else abs_n - n13)) small_pow5 0 in
        pow5_loop fuel (n13 + 13) abs_n (push_carry (mul_limb digit1 pow5 0))
      else pow5
  end.

Definition compute_pow5 (abs_n : Z) : mpn :=
  if 0 <? abs_n then pow5_loop (Z.to_nat (abs_n / 13 + 1)) 0 abs_n [1] else [1].

(** A number times [2 ^ (32 * s_limbs + s_bits)]. *)
Definition shift_up (l : mpn) (s_limbs s_bits : Z) : mpn :=
  replicate (Z.to_nat s_limbs) 0 ++
  (if 0 <? s_bits then push_carry (shift_left s_bits l 0) else l).

(** The allocations of the function, each of which may fail. *)
Inductive site := A_pow5 | A_multiply | A_numerator | A_divide_room | A_divide_tmp | A_decimal.

Section Scale10.
Context (alloc : site -> bool) (junk : nat -> mpn).

Definition div_result (d : division) : option mpn :=
  match d with DivOk _ q => Some q | _ => None end.

Definition scale10_round_decimal_decoded (e : Z) (m : mpn) (n : Z) : digit_string :=
  let mul a b := multiply (alloc A_multiply) junk a b in
  let div a b := div_result
    (divide (alloc A_divide_room) (alloc A_divide_tmp) (nth 0 (junk 1%nat) 0) a b) in
  let s := e + n in
  let extra_zeroes := if (0 <? s) && (0 <? n) then Z.min s n else 0 in
  let s := s - extra_zeroes in
  let n := n - extra_zeroes in
  let abs_n := Z.abs n in
  let abs_s := Z.abs s in
  if negb (alloc A_pow5) then DigitNomem
  else
    let pow5 := compute_pow5 abs_n in
    let s_limbs := abs_s / GMP_LIMB_BITS in
    let s_bits := abs_s mod GMP_LIMB_BITS in
    let z :=
      if (if 0 <=? n then 0 <=? s else s <=? 0) then
        let pow5 := shift_up pow5 s_limbs s_bits in
        if 0 <=? n then mul m pow5 else div m pow5
      else if 0 <=? n then
        match mul m pow5 with
        | None => None
        | Some numerator =>
            let denominator := replicate (Z.to_nat s_limbs) 0 ++ [limb (Z.shiftl 1 s_bits)] in
            div numerator denominator
        end
      else if negb (alloc A_numerator) then None
      else div (shift_up m s_limbs s_bits) pow5 in
    match z with
    | None => DigitNomem
    | Some z => convert_to_decimal (alloc A_decimal) z (Z.to_nat extra_zeroes)
    end.
End Scale10.

(** Tests whether a string of digits consists of exactly [precision] zeroes
    and a single 1. *)
Fixpoint is_borderline (digits : cstr) (precision : nat) : bool :=
  match precision with
  | S precision =>
      if negb (cur digits =? chr "0") then false else is_borderline (drop 1 digits) precision
  | O =>
      if negb (cur digits =? chr "1") then false
      else match drop 1 digits with [] => true | _ => false end
  end.

(** 0.1 as a [double] is 0x1.999999999999ap-4; 25 decimals of it. *)
Example scale10_tenth :
  scale10_round_decimal_decoded (fun _ => true) (fun n => replicate n 9)
    (-56) [0x9999999a; 0x199999] 25 = DigitString (rev (cs "1000000000000000055511151")).
Proof. vm_compute. reflexivity. Qed.

(** ** Correctness of convert_to_decimal *)

(** The number a digit string stands for, least significant digit first. *)
Fixpoint dec_value (s : cstr) : Z :=
  match s with [] => 0 | c :: s => (c - chr "0") + 10 * dec_value s end.

Definition digit_ok (c : Z) : Prop := chr "0" <= c <= chr "9".

Lemma dec_value_app s t : dec_value (s ++ t) = dec_value s + 10 ^ Z.of_nat (length s) * dec_value t.
Proof.
  induction s as [|c s IH]; cbn [dec_value app length]; [lia|].
  rewrite IH, Nat2Z.inj_succ, Z.pow_succ_r by lia. lia.
Qed.

Lemma store_digits_spec n r :
  0 <= r < 10 ^ Z.of_nat n ->
  dec_value (store_digits n r) = r /\ length (store_digits n r) = n /\
  Forall digit_ok (store_digits n r).
Proof.
  revert r. induction n as [|n IH]; intros r Hr; cbn [store_digits dec_value length].
  - simpl in Hr. split_and!; [lia|done|apply Forall_nil_2].
  - rewrite Nat2Z.inj_succ, Z.pow_succ_r in Hr by lia.
    destruct (IH (r / 10)) as (Hv & Hl & Hd).
    { split; [apply Z.div_pos; lia|apply Z.div_lt_upper_bound; lia]. }
    rewrite Hv, Hl. pose proof (Z.div_mod r 10). pose proof (Z.mod_pos_bound r 10).
    split_and!; [lia|done|]. apply Forall_cons_2; [|done].
    unfold digit_ok. change (chr "0") with 48. change (chr "9") with 57. lia.
Qed.

Lemma drop_zero_limb_length q :
  q <> [] -> length (drop_zero_limb q) =
    if nth (length q - 1) q 0 =? 0 then (length q - 1)%nat else length q.
Proof. intros Hq. unfold drop_zero_limb. case_if; [rewrite length_take; lia|done]. Qed.

Lemma drop_zero_limb_value q :
  limbs_ok q -> limbs_ok (drop_zero_limb q) /\ value (drop_zero_limb q) = value q.
Proof.
  intros Hq. unfold drop_zero_limb. case_if; [|done]. split; [by apply limbs_ok_take|].
  destruct q as [|d q]; [done|]. 
  rewrite (value_top (d :: q) (length (d :: q))) by (simpl; lia). rewrite Eif. lia.
Qed.

(** [fuel] rounds are enough: two per limb, one less when the number is
    already below [beta ^ length / 10^9]. *)
Lemma convert_loop_spec fuel a :
  limbs_ok a ->
  (2 * length a <= fuel)%nat \/
  ((2 * length a <= S fuel)%nat /\ value a * 1000000000 < beta ^ Z.of_nat (length a)) ->
  dec_value (convert_loop fuel a) = value a /\ Forall digit_ok (convert_loop fuel a).
Proof.
  revert a. induction fuel as [|fuel IH]; intros a Ha Hf; cbn [convert_loop].
  - destruct a as [|d [|]]; [split; [done|apply Forall_nil_2]|exfalso..]; 
      simpl in Hf; destruct Hf as [?|[? Hv]]; lia.
  - destruct (Nat.eqb_spec (length a) 0) as [E|E];
      [destruct a; [split; [done|apply Forall_nil_2]|done]|].
    destruct (divide_limb 1000000000 a) as [a' r] eqn:Ed.
    apply divide_limb_spec in Ed as (Ha' & Hl & Hr & Hv); [|lia|done].
    destruct (store_digits_spec 9 r ltac:(lia)) as (Hd & Hdl & Hdo).
    destruct (drop_zero_limb_value a' Ha') as [Hok Hdv].
    pose proof (value_range a Ha). pose proof (value_range a' Ha') as Hr'.
    assert (Ha'0 : a' <> []) by (intros ->; simpl in Hl; lia).
    pose proof (drop_zero_limb_length a' Ha'0) as Hdl'.
    destruct (value_top_bounds a' (length a') Ha' eq_refl ltac:(lia)) as (HP & Hlo & _).
    destruct (IH (drop_zero_limb a') Hok) as [Hv' Hd'].
    + rewrite Hdv, Hdl', Hl in *.
      assert (HB : beta ^ Z.of_nat (length a) = beta * beta ^ Z.of_nat (length a - 1)).
      { rewrite <- Z.pow_succ_r by lia. f_equal. lia. }
      destruct (Z.eqb_spec (nth (length a - 1) a' 0) 0) as [E0|E0]; [left; lia|].
      pose proof (limbs_ok_nth a' (length a - 1) Ha').
      assert (beta ^ Z.of_nat (length a - 1) <= value a') by nia.
      destruct Hf as [Hf|[Hf Hlt]]; [right; split; [lia|nia]|exfalso]. nia.
    + rewrite dec_value_app, Hdl, Hd, Hv', Hdv. split; [|by apply Forall_app].
      change (10 ^ Z.of_nat 9) with 1000000000. lia.
Qed.

Lemma strip_zeros_spec s :
  dec_value (strip_zeros s) = dec_value s /\
  (Forall digit_ok s -> Forall digit_ok (strip_zeros s)) /\
  (length (strip_zeros s) <= length s)%nat /\ last (strip_zeros s) <> Some (chr "0").
Proof.
  induction s as [|c s (IH1 & IH2 & IH3 & IH4)]; [done|]. cbn [strip_zeros dec_value length].
  rewrite <- IH1. destruct (strip_zeros s) as [|d t].
  - case_if; [subst c|]; cbn [dec_value length]; (split_and!; [lia| |lia|]); try done.
    + intros H. inversion H; subst. by apply Forall_cons_2.
    + intros [= ->]. done.
  - split_and!; [done| |simpl in *; lia|done].
    intros H. inversion H; subst. apply Forall_cons_2; auto.
Qed.

(** The number of rounds: a normal number of [k] rounds is at least
    [10 ^ (9 * (k - 1))]. *)
Lemma convert_loop_rounds fuel a :
  limbs_ok a -> normal a ->
  exists k, length (convert_loop fuel a) = (9 * k)%nat /\
    (k = 0%nat \/ 10 ^ (9 * (Z.of_nat k - 1)) <= value a).
Proof.
  revert a. induction fuel as [|fuel IH]; intros a Ha Hn; cbn [convert_loop];
    [exists 0%nat; auto|].
  destruct (Nat.eqb_spec (length a) 0) as [E|E]; [exists 0%nat; auto|].
  assert (Ha0 : a <> []) by (intros ->; done).
  pose proof (normal_lower a Ha Hn Ha0) as Hlow.
  destruct (divide_limb 1000000000 a) as [a' r] eqn:Ed.
  apply divide_limb_spec in Ed as (Ha' & Hl & Hr & Hv); [|lia|done].
  destruct (drop_zero_limb_spec a' Ha') as (H1 & H2 & H3 & _).
  { intros H2. rewrite <- Hl in Hlow.
    replace (Z.of_nat (length a') - 1) with (Z.of_nat (length a') - 2 + 1) in Hlow by lia.
    rewrite Z.pow_add_r in Hlow by lia. nia. }
  destruct (IH _ H1 H2) as (k & Hk & Hlo). exists (S k).
  destruct (store_digits_spec 9 r ltac:(lia)) as (_ & Hdl & _).
  rewrite length_app, Hdl, Hk. split; [lia|]. right. rewrite H3 in Hlo.
  destruct Hlo as [->|Hlo].
  - assert (0 < beta ^ (Z.of_nat (length a) - 1)) by (apply Z.pow_pos_nonneg; lia).
    change (10 ^ (9 * (Z.of_nat 1 - 1))) with 1. lia.
  - destruct k as [|k].
    { assert (0 < beta ^ (Z.of_nat (length a) - 1)) by (apply Z.pow_pos_nonneg; lia).
      change (10 ^ (9 * (Z.of_nat 1 - 1))) with 1. lia. }
    replace (9 * (Z.of_nat (S (S k)) - 1)) with (9 * (Z.of_nat (S k) - 1) + 9) by lia.
    rewrite Z.pow_add_r by lia. change (10 ^ 9) with 1000000000. lia.
Qed.

(** The largest number of limbs for which the size computation has been
    checked: more than any [long double] conversion can need. *)
Definition max_limbs : nat := 600.

Lemma limb_decimals_nonneg n : 0 <= n -> 0 <= limb_decimals n.
Proof.
  intros Hn. unfold limb_decimals, fmul_trunc. apply Z.div_pos; [|lia].
  apply Z.mul_nonneg_nonneg; [|apply Z.pow_nonneg; lia].
  unfold round_half_even.
  assert (0 <= n * 8979166 / 2 ^ Z.max 0 (Z.log2 (n * 8979166) + 1 - 24)).
  { apply Z.div_pos; [lia|]. apply Z.pow_pos_nonneg; lia. }
  destruct (_ ?= _); [case_if|..]; lia.
Qed.

(** [beta ^ 30] has no more than 289 digits; this reduces the estimate to small numbers. *)
Definition check_limbs (n : Z) : bool :=
  (289 * n <=? 270 * (limb_decimals n + 1)) && (limb_decimals n <=? 2000).

Lemma check_limbs_all : forallb (fun n => check_limbs (Z.of_nat n)) (seq 0 (S max_limbs)) = true.
Proof. vm_compute. reflexivity. Qed.

Lemma limb_decimals_enough n :
  (n <= max_limbs)%nat ->
  beta ^ Z.of_nat n <= 10 ^ (9 * (limb_decimals (Z.of_nat n) + 1)) /\
  limb_decimals (Z.of_nat n) <= 2000.
Proof.
  intros Hn. pose proof check_limbs_all as H. rewrite forallb_forall in H.
  specialize (H n ltac:(apply in_seq; lia)). unfold check_limbs in H. breflect. split; [|done].
  pose proof (limb_decimals_nonneg (Z.of_nat n) ltac:(lia)) as Hnn. apply Z.nlt_ge. intros Hlt.
  apply (conj (Z.pow_nonneg 10 (9 * (limb_decimals (Z.of_nat n) + 1)) ltac:(lia))) in Hlt.
  apply (Z.pow_lt_mono_l _ _ 30) in Hlt; [|lia].
  rewrite <- (Z.pow_mul_r 10), <- (Z.pow_mul_r beta) in Hlt by lia.
  assert (H30 : beta ^ (Z.of_nat n * 30) <= 10 ^ (289 * Z.of_nat n)).
  { rewrite Z.mul_comm, !Z.pow_mul_r by lia. apply Z.pow_le_mono_l. split; [done|].
    apply Z.leb_le. vm_compute. reflexivity. }
  eapply Z.lt_irrefl, Z.lt_le_trans; [exact Hlt|]. eapply Z.le_trans; [exact H30|]. apply Z.pow_le_mono_r; lia.
Qed.

(** The digits written fit in the buffer. *)
Lemma convert_loop_fits a :
  limbs_ok a -> normal a -> (length a <= max_limbs)%nat ->
  Z.of_nat (length (convert_loop (convert_fuel a) a)) <= 9 * (limb_decimals (Z.of_nat (length a)) + 1).
Proof.
  intros Ha Hn Hl. destruct (convert_loop_rounds (convert_fuel a) a Ha Hn) as (k & -> & Hk).
  pose proof (limb_decimals_nonneg (Z.of_nat (length a)) ltac:(lia)).
  destruct Hk as [-> | Hk]; [lia|].
  pose proof (value_range a Ha). destruct (limb_decimals_enough _ Hl) as [Hle _].
  assert (9 * (Z.of_nat k - 1) < 9 * (limb_decimals (Z.of_nat (length a)) + 1)); [|lia].
  apply (Z.pow_lt_mono_r_iff 10); lia.
Qed.

Lemma convert_to_decimal_spec alloc a extra_zeroes :
  limbs_ok a ->
  match convert_to_decimal alloc a extra_zeroes with
  | DigitString s => alloc = true /\ Forall digit_ok s /\
      dec_value s = value a * 10 ^ Z.of_nat extra_zeroes /\
      s <> [] /\ (last s = Some (chr "0") -> s = [chr "0"])
  | DigitNomem => alloc = false
  | DigitOverflow => convert_alloc (Z.of_nat (length a)) (Z.of_nat extra_zeroes) < Z.of_nat (convert_bytes a extra_zeroes)
  end.
Proof.
  intros Ha. unfold convert_to_decimal. destruct alloc; [|done]. destruct (Z.ltb_spec (convert_alloc (Z.of_nat (length a)) (Z.of_nat extra_zeroes)) (Z.of_nat (convert_bytes a extra_zeroes))); [done|].
  destruct (convert_loop_spec (convert_fuel a) a Ha) as [Hv Hd]; [left; unfold convert_fuel; lia|].
  set (w := replicate extra_zeroes (chr "0") ++ convert_loop (convert_fuel a) a).
  destruct (strip_zeros_spec w) as (Hs1 & Hs2 & _ & Hs4).
  assert (Hw : dec_value w = value a * 10 ^ Z.of_nat extra_zeroes).
  { unfold w. rewrite dec_value_app, length_replicate, Hv.
    assert (dec_value (replicate extra_zeroes (chr "0")) = 0) as ->; [|lia].
    clear. induction extra_zeroes; [done|]. cbn [dec_value replicate]. lia. }
  assert (Hwd : Forall digit_ok w).
  { unfold w. apply Forall_app; split; [|done]. apply Forall_replicate. done. }
  destruct (Nat.eqb_spec (length (strip_zeros w)) 0) as [E|E].
  - assert (strip_zeros w = []) as Ew by (by apply length_zero_iff_nil).
    rewrite Ew in Hs1. split_and!; [done| |by rewrite <- Hw, <- Hs1|done|done].
    apply Forall_cons_2; [done|apply Forall_nil_2].
  - split_and!; auto; [lia|intros Hs; by rewrite Hs in E|by intros Hs].
Qed.

(** [convert_to_decimal] prints exactly the decimal digits of
    [a * 10^extra_zeroes], least significant first, without leading zeroes
    except for the number 0; and the digits it writes, the leading zeroes it
    removes afterwards included, fit in the memory it allocates, for all numbers
    of up to [max_limbs] limbs. *)
Theorem convert_to_decimal_correct (alloc : bool) (a : mpn) (extra_zeroes : nat) :
  limbs_ok a -> normal a -> (length a <= max_limbs)%nat ->
  Z.of_nat extra_zeroes < 2 ^ 32 ->
  match convert_to_decimal alloc a extra_zeroes with
  | DigitString s => alloc = true /\ Forall digit_ok s /\
      dec_value s = value a * 10 ^ Z.of_nat extra_zeroes /\
      s <> [] /\ (last s = Some (chr "0") -> s = [chr "0"])
  | DigitNomem => alloc = false
  | DigitOverflow => convert_alloc (Z.of_nat (length a)) (Z.of_nat extra_zeroes) < Z.of_nat (convert_bytes a extra_zeroes)
  end /\
  Z.of_nat (convert_bytes a extra_zeroes) <=
    convert_alloc (Z.of_nat (length a)) (Z.of_nat extra_zeroes) + 1.
Proof.
  intros Ha Hn Hl He. split; [by apply convert_to_decimal_spec|].
  pose proof (convert_loop_fits a Ha Hn Hl) as Hfit.
  destruct (limb_decimals_enough _ Hl) as [_ Hsz].
  pose proof (limb_decimals_nonneg (Z.of_nat (length a)) ltac:(lia)).
  unfold convert_bytes, convert_alloc.
  destruct (strip_zeros_spec (replicate extra_zeroes (chr "0") ++ convert_loop (convert_fuel a) a))
    as (_ & _ & Hs & _).
  rewrite length_app, length_replicate in Hs. lia.
Qed.

Lemma convert_to_decimal_correct_witness :
  match convert_to_decimal true [0; 1] 3 with
  | DigitString s => true = true /\ Forall digit_ok s /\
      dec_value s = value [0; 1] * 10 ^ Z.of_nat 3 /\
      s <> [] /\ (last s = Some (chr "0") -> s = [chr "0"])
  | DigitNomem => true = false
  | DigitOverflow => convert_alloc 2 3 < Z.of_nat (convert_bytes [0; 1] 3)
  end /\ Z.of_nat (convert_bytes [0; 1] 3) <= convert_alloc 2 3 + 1.
Proof.
  apply (convert_to_decimal_correct true [0; 1] 3).
  - repeat (apply Forall_cons_2 || apply Forall_nil_2); lia.
  - intros H. discriminate H.
  - apply Nat.leb_le. vm_compute. reflexivity.
  - reflexivity.
Defined.

(** The bound of the preceding property is reached: the code allocates no
    byte for the terminating NUL, and for the 14-limb number [2^448 - 1], which
    has exactly the estimated number of digits, it writes one byte beyond the
    end of the memory. *)
Theorem convert_to_decimal_overflow :
  let a := replicate 14 (2 ^ 32 - 1) in
  limbs_ok a /\ value a = 2 ^ 448 - 1 /\
  Z.of_nat (convert_bytes a 0) = convert_alloc (Z.of_nat (length a)) 0 + 1 /\ convert_to_decimal true a 0 = DigitOverflow.
Proof.
  cbv zeta. split_and!; [|vm_compute; reflexivity..].
  apply Forall_replicate. lia.
Qed.

(** Numbers of up to 125 digits fit. *)
Lemma dec_value_low s : Forall digit_ok s -> s <> [] -> last s <> Some (chr "0") -> 10 ^ (Z.of_nat (length s) - 1) <= dec_value s.
Proof.
  induction 1 as [|c s Hc Hs IH]; [done|]. intros _ Hl. unfold digit_ok in Hc. change (chr "0") with 48 in *. change (chr "9") with 57 in *.
  cbn [dec_value length]. destruct s as [|d s].
  { assert (c <> 48) by (intros ->; by apply Hl). change (10 ^ (Z.of_nat (S (length ([] : cstr))) - 1)) with 1. cbn [dec_value]. change (chr "0") with 48. lia. }
  rewrite last_cons_cons in Hl. specialize (IH ltac:(done) Hl). change (chr "0") with 48.
  replace (Z.of_nat (S (length (d :: s))) - 1) with (Z.succ (Z.of_nat (length (d :: s)) - 1)) by lia. rewrite Z.pow_succ_r by (cbn [length]; lia). lia.
Qed.

Lemma small_room : forallb (fun n => Z.min (beta ^ Z.of_nat n) (10 ^ 125) <=? 10 ^ (9 * (limb_decimals (Z.of_nat n) + 1) - 1)) (seq 0 14) = true.
Proof. vm_compute. reflexivity. Qed.

Lemma convert_fits a extra_zeroes : limbs_ok a -> normal a -> value a < 10 ^ 125 -> Z.of_nat extra_zeroes < 2 ^ 32 ->
  Z.of_nat (convert_bytes a extra_zeroes) <= convert_alloc (Z.of_nat (length a)) (Z.of_nat extra_zeroes).
Proof.
  intros Ha Hn Hv He. assert (Hl : (length a <= 13)%nat).
  { destruct (decide (a = [])) as [->|Hne]; [cbn; lia|]. pose proof (normal_lower a Ha Hn Hne) as Hlow. apply Nat.nlt_ge. intros Hlt.
    assert (beta ^ 13 <= beta ^ (Z.of_nat (length a) - 1)) by (apply Z.pow_le_mono_r; lia).
    assert (10 ^ 125 <= beta ^ 13) by (apply Z.leb_le; vm_compute; reflexivity). lia. }
  pose proof (convert_loop_fits a Ha Hn ltac:(unfold max_limbs; lia)) as Hfit.
  destruct (limb_decimals_enough (length a) ltac:(unfold max_limbs; lia)) as [_ Hsz].
  pose proof (limb_decimals_nonneg (Z.of_nat (length a)) ltac:(lia)) as Hnn. unfold convert_bytes, convert_alloc.
  destruct (convert_loop_spec (convert_fuel a) a Ha) as [Hcv Hcd]; [left; unfold convert_fuel; lia|].
  set (w := replicate extra_zeroes (chr "0") ++ convert_loop (convert_fuel a) a) in *.
  destruct (strip_zeros_spec w) as (Hs1 & Hs2 & _ & Hs4).
  assert (Hw : dec_value w = value a * 10 ^ Z.of_nat extra_zeroes).
  { unfold w. rewrite dec_value_app, length_replicate, Hcv. replace (dec_value (replicate extra_zeroes (chr "0"))) with 0; [lia|].
    clear. induction extra_zeroes; [done|]. cbn [dec_value replicate]. lia. }
  assert (Hwd : Forall digit_ok w) by (apply Forall_app; split; [by apply Forall_replicate|done]).
  assert (Hk : Z.of_nat (length (strip_zeros w)) <= Z.of_nat extra_zeroes + (9 * (limb_decimals (Z.of_nat (length a)) + 1) - 1)); [|lia].
  destruct (decide (strip_zeros w = [])) as [->|Hne]; [cbn; lia|].
  pose proof (dec_value_low _ (Hs2 Hwd) Hne Hs4) as Hlow. rewrite Hs1, Hw in Hlow.
  pose proof small_room as Hroom. rewrite forallb_forall in Hroom. specialize (Hroom (length a) ltac:(apply in_seq; lia)). apply Z.leb_le in Hroom.
  pose proof (value_range a Ha) as Hr. set (room := 9 * (limb_decimals (Z.of_nat (length a)) + 1) - 1) in *.
  assert (0 < 10 ^ Z.of_nat extra_zeroes) by (apply Z.pow_pos_nonneg; lia).
  assert (Hlt : 10 ^ (Z.of_nat (length (strip_zeros w)) - 1) < 10 ^ (room + Z.of_nat extra_zeroes)).
  { apply Z.le_lt_trans with (1 := Hlow). rewrite Z.pow_add_r by lia. apply Z.mul_lt_mono_pos_r; [done|]. lia. }
  apply Z.pow_lt_mono_r_iff in Hlt; lia.
Qed.

(** ** Powers of five and shifts *)

Lemma mul_limb_spec digit1 l carry l' c :
  0 <= digit1 < beta -> limbs_ok l -> 0 <= carry < beta -> mul_limb digit1 l carry = (l', c) ->
  limbs_ok l' /\ length l' = length l /\ 0 <= c < beta /\
  value l' + beta ^ Z.of_nat (length l) * c = digit1 * value l + carry.
Proof.
  intros Hd1 Hl. revert carry l' c.
  induction Hl as [|d l Hd Hl IH]; intros carry l' c Hc E; cbn [mul_limb] in E.
  - injection E as <- <-. cbn [value length]. split_and!; try done; try lia. apply Forall_nil_2.
  - assert (0 <= digit1 * d <= (beta - 1) * (beta - 1)) by nia.
    rewrite (twolimb_small (digit1 * d)), (twolimb_small (carry + digit1 * d)) in E by nia.
    destruct (split_twolimb (carry + digit1 * d)) as (Hs & Hlo & Hhi); [nia|].
    destruct (mul_limb _ _ _) as [l1 c1] eqn:E'. injection E as <- <-.
    apply IH in E' as (H1 & H2 & H3 & H4); [|done].
    split_and!; [by apply Forall_cons_2|simpl; lia|lia|lia|].
    cbn [value length]. rewrite Nat2Z.inj_succ, Z.pow_succ_r by lia. nia.
Qed.

Lemma push_carry_spec l c :
  limbs_ok l -> 0 <= c < beta ->
  limbs_ok (push_carry (l, c)) /\
  value (push_carry (l, c)) = value l + beta ^ Z.of_nat (length l) * c /\
  (length l <= length (push_carry (l, c)) <= S (length l))%nat.
Proof.
  intros Hl Hc. unfold push_carry. destruct (Z.ltb_spec 0 c).
  - rewrite limb_small, value_app, length_app by lia. cbn [value length].
    split_and!; [|lia..]. apply Forall_app; split; [done|].
    apply Forall_cons_2; [done|apply Forall_nil_2].
  - assert (c = 0) as -> by lia. split_and!; [done|lia..].
Qed.

Lemma small_pow5_spec k : 0 <= k <= 13 -> nth (Z.to_nat k) small_pow5 0 = 5 ^ k.
Proof.
  intros Hk.
  assert (forallb (fun k => nth k small_pow5 0 =? 5 ^ Z.of_nat k) (seq 0 14) = true) as H
    by reflexivity.
  rewrite forallb_forall in H. specialize (H (Z.to_nat k) ltac:(apply in_seq; lia)).
  apply Z.eqb_eq in H. rewrite H. f_equal. lia.
Qed.

Lemma mul_pow5_spec l d a b :
  limbs_ok l -> value l = 5 ^ a -> 0 <= a -> 0 <= b <= 13 -> d = 5 ^ b ->
  limbs_ok (push_carry (mul_limb d l 0)) /\ value (push_carry (mul_limb d l 0)) = 5 ^ (a + b).
Proof.
  intros Hl Hv Ha Hb ->. assert (0 < 5 ^ b) by (apply Z.pow_pos_nonneg; lia).
  assert (5 ^ b <= 5 ^ 13) by (apply Z.pow_le_mono_r; lia).
  destruct (mul_limb (5 ^ b) l 0) as [l' c] eqn:E.
  apply mul_limb_spec in E as (H1 & H2 & H3 & H4); auto; try lia.
  destruct (push_carry_spec l' c H1 H3) as (H5 & H6 & _). split; [done|].
  rewrite H6, H2, H4, Hv, Z.pow_add_r by lia. lia.
Qed.

Lemma pow5_loop_spec fuel n13 abs_n l :
  0 <= n13 <= abs_n -> (abs_n - n13) / 13 < Z.of_nat fuel -> limbs_ok l -> value l = 5 ^ n13 ->
  limbs_ok (pow5_loop fuel n13 abs_n l) /\ value (pow5_loop fuel n13 abs_n l) = 5 ^ abs_n.
Proof.
  revert n13 l. induction fuel as [|fuel IH]; intros n13 l Hn Hf Hl Hv.
  { pose proof (Z.div_pos (abs_n - n13) 13). lia. }
  cbn [pow5_loop]. rewrite (proj2 (Z.leb_le n13 abs_n)) by lia.
  destruct (Z.leb_spec (n13 + 13) abs_n) as [H|H].
  - destruct (mul_pow5_spec l (nth (Z.to_nat 13) small_pow5 0) n13 13) as [H1 H2]; auto; try lia.
    apply IH; auto; [lia|].
    replace (abs_n - (n13 + 13)) with ((abs_n - n13) + (-1) * 13) by lia.
    rewrite Z.div_add by lia. lia.
  - destruct (mul_pow5_spec l (nth (Z.to_nat (abs_n - n13)) small_pow5 0) n13 (abs_n - n13))
      as [H1 H2]; auto; try lia; [apply small_pow5_spec; lia|].
    replace (n13 + (abs_n - n13)) with abs_n in H2 by lia.
    destruct fuel; [done|]. cbn [pow5_loop]. by rewrite (proj2 (Z.leb_gt _ _)) by lia.
Qed.

Lemma compute_pow5_spec n :
  0 <= n -> limbs_ok (compute_pow5 n) /\ value (compute_pow5 n) = 5 ^ n.
Proof.
  intros Hn. unfold compute_pow5.
  assert (H1 : limbs_ok [1]) by (apply Forall_cons_2; [lia|apply Forall_nil_2]).
  destruct (Z.ltb_spec 0 n).
  - apply pow5_loop_spec; [lia| |done|done].
    pose proof (Z.div_pos n 13). rewrite Z.sub_0_r. lia.
  - assert (n = 0) as -> by lia. done.
Qed.

Lemma shift_up_spec l s :
  limbs_ok l -> 0 <= s ->
  limbs_ok (shift_up l (s / GMP_LIMB_BITS) (s mod GMP_LIMB_BITS)) /\
  value (shift_up l (s / GMP_LIMB_BITS) (s mod GMP_LIMB_BITS)) = value l * 2 ^ s.
Proof.
  intros Hl Hs. unfold shift_up, GMP_LIMB_BITS.
  pose proof (Z.div_mod s 32). pose proof (Z.mod_pos_bound s 32). pose proof (Z.div_pos s 32).
  assert (exists k, (if 0 <? s mod 32 then push_carry (shift_left (s mod 32) l 0) else l) = k /\
    limbs_ok k /\ value k = value l * 2 ^ (s mod 32)) as (k & -> & Hk & Hv).
  { destruct (Z.ltb_spec 0 (s mod 32)).
    - destruct (shift_left (s mod 32) l 0) as [l' c] eqn:E.
      assert (2 ^ (s mod 32) <= 2 ^ 31) by (apply Z.pow_le_mono_r; lia).
      apply shift_left_spec in E as (E3 & E4 & E5 & E6); auto; [|lia|].
      2:{ split; [lia|]. apply Z.pow_pos_nonneg; lia. }
      destruct (push_carry_spec l' c E3 ltac:(lia)) as (E7 & E8 & _).
      eexists. split_and!; [reflexivity|done|]. rewrite E8, E4. lia.
    - exists l. split_and!; auto. assert (s mod 32 = 0) as -> by lia. lia. }
  split.
  - apply Forall_app; split; [|done]. apply Forall_replicate. lia.
  - rewrite value_app, length_replicate, value_replicate_0, Hv, Z2Nat.id by lia.
    rewrite <- Z.pow_mul_r by lia.
    replace (2 ^ s) with (2 ^ (s mod 32) * 2 ^ (32 * (s / 32))); [ring|].
    rewrite <- Z.pow_add_r by lia. f_equal. lia.
Qed.

(** ** Correctness of scale10_round_decimal_decoded *)

(** [2^e * m * 10^n] as a fraction. *)
Definition scale_num (e : Z) (m : mpn) (n : Z) : Z :=
  value m * 2 ^ Z.max (e + n) 0 * 5 ^ Z.max n 0.
Definition scale_den (e n : Z) : Z := 2 ^ Z.max (- (e + n)) 0 * 5 ^ Z.max (- n) 0.

Lemma round_half_even_1 a : round_half_even a 1 = a.
Proof. unfold round_half_even. by rewrite Z.div_1_r, Z.mod_1_r. Qed.

Section ScaleCorrect.
Context (alloc : site -> bool) (junk : nat -> mpn).
Context (Hjunk : forall n, length (junk n) = n /\ limbs_ok (junk n)).

Lemma mul_ok a b z :
  limbs_ok a -> limbs_ok b -> multiply (alloc A_multiply) junk a b = Some z ->
  limbs_ok z /\ normal z /\ value z = value a * value b.
Proof using Hjunk.
  intros Ha Hb E.
  pose proof (multiply_spec (alloc A_multiply) junk a b Ha Hb (fun n => proj1 (Hjunk n))) as H.
  rewrite E in H. tauto.
Qed.

Lemma div_ok a b z :
  limbs_ok a -> limbs_ok b ->
  div_result (divide (alloc A_divide_room) (alloc A_divide_tmp) (nth 0 (junk 1%nat) 0) a b) = Some z ->
  limbs_ok z /\ normal z /\ value z = round_half_even (value a) (value b).
Proof using Hjunk.
  intros Ha Hb E.
  assert (Hj : 0 <= nth 0 (junk 1%nat) 0 < beta) by (apply limbs_ok_nth, Hjunk).
  pose proof (divide_spec (alloc A_divide_room) (alloc A_divide_tmp) _ a b Ha Hb Hj) as H.
  destruct (divide _ _ _ _ _); try done. injection E as ->. tauto.
Qed.

Lemma mul_none a b :
  limbs_ok a -> limbs_ok b -> multiply (alloc A_multiply) junk a b = None -> alloc A_multiply = false.
Proof using Hjunk.
  intros Ha Hb E.
  pose proof (multiply_spec (alloc A_multiply) junk a b Ha Hb (fun n => proj1 (Hjunk n))) as H.
  by rewrite E in H.
Qed.

Lemma div_none a b :
  limbs_ok a -> limbs_ok b -> value b <> 0 ->
  div_result (divide (alloc A_divide_room) (alloc A_divide_tmp) (nth 0 (junk 1%nat) 0) a b) = None ->
  alloc A_divide_room = false \/ alloc A_divide_tmp = false.
Proof using Hjunk.
  intros Ha Hb Hb0 E.
  assert (Hj : 0 <= nth 0 (junk 1%nat) 0 < beta) by (apply limbs_ok_nth, Hjunk).
  pose proof (divide_spec (alloc A_divide_room) (alloc A_divide_tmp) _ a b Ha Hb Hj) as H.
  destruct (divide _ _ _ _ _); try done. by apply andb_false_iff in H.
Qed.

(** What the computation of [z] gives, for [s] and [n] not both positive or
    the division not needed. *)
Definition scale_z (m : mpn) (s n : Z) : option mpn :=
  let mul a b := multiply (alloc A_multiply) junk a b in
  let div a b := div_result
    (divide (alloc A_divide_room) (alloc A_divide_tmp) (nth 0 (junk 1%nat) 0) a b) in
  let pow5 := compute_pow5 (Z.abs n) in
  let s_limbs := Z.abs s / GMP_LIMB_BITS in
  let s_bits := Z.abs s mod GMP_LIMB_BITS in
  if (if 0 <=? n then 0 <=? s else s <=? 0) then
    let pow5 := shift_up pow5 s_limbs s_bits in
    if 0 <=? n then mul m pow5 else div m pow5
  else if 0 <=? n then
    match mul m pow5 with
    | None => None
    | Some numerator =>
        div numerator (replicate (Z.to_nat s_limbs) 0 ++ [limb (Z.shiftl 1 s_bits)])
    end
  else if negb (alloc A_numerator) then None
  else div (shift_up m s_limbs s_bits) pow5.

Lemma pow2_limbs s :
  0 <= s ->
  let d := replicate (Z.to_nat (s / GMP_LIMB_BITS)) 0 ++ [limb (Z.shiftl 1 (s mod GMP_LIMB_BITS))] in
  limbs_ok d /\ value d = 2 ^ s.
Proof using Type.
  intros Hs d. unfold d, GMP_LIMB_BITS.
  pose proof (Z.div_mod s 32). pose proof (Z.mod_pos_bound s 32). pose proof (Z.div_pos s 32).
  rewrite Z.shiftl_1_l.
  assert (0 < 2 ^ (s mod 32) <= 2 ^ 31)
    by (split; [apply Z.pow_pos_nonneg; lia|apply Z.pow_le_mono_r; lia]).
  rewrite limb_small by lia. split.
  - apply Forall_app; split; [apply Forall_replicate; lia|].
    apply Forall_cons_2; [lia|apply Forall_nil_2].
  - rewrite value_app, length_replicate, value_replicate_0, Z2Nat.id by lia. cbn [value].
    rewrite <- Z.pow_mul_r by lia.
    replace (2 ^ s) with (2 ^ (32 * (s / 32)) * 2 ^ (s mod 32)); [ring|].
    rewrite <- Z.pow_add_r by lia. f_equal. lia.
Qed.

Lemma scale_z_spec e m n :
  limbs_ok m ->
  match scale_z m (e + n) n with
  | Some z => limbs_ok z /\ normal z /\ value z = round_half_even (scale_num e m n) (scale_den e n)
  | None => exists a, alloc a = false
  end.
Proof using Hjunk.
  intros Hm. unfold scale_z. set (s := e + n) in *.
  destruct (compute_pow5_spec (Z.abs n) ltac:(lia)) as [Hp Hpv].
  set (pow5 := compute_pow5 (Z.abs n)) in *.
  assert (H5 : 0 < 5 ^ Z.abs n) by (apply Z.pow_pos_nonneg; lia).
  assert (H2 : 0 < 2 ^ Z.abs s) by (apply Z.pow_pos_nonneg; lia).
  destruct (shift_up_spec pow5 (Z.abs s) Hp ltac:(lia)) as [Hsh Hshv].
  destruct (shift_up_spec m (Z.abs s) Hm ltac:(lia)) as [Hsm Hsmv].
  destruct (pow2_limbs (Z.abs s) ltac:(lia)) as [Hd Hdv].
  unfold scale_num, scale_den. fold s.
  destruct (Z.leb_spec 0 n) as [Hn|Hn].
  - rewrite (Z.max_l n), (Z.max_r (-n)), Z.pow_0_r by lia. rewrite Z.abs_eq in * by lia.
    destruct (Z.leb_spec 0 s) as [Hs|Hs].
    + rewrite (Z.max_l s), (Z.max_r (-s)), Z.pow_0_r by lia. rewrite Z.abs_eq in * by lia.
      destruct (multiply _ _ m _) as [z|] eqn:E; [|exists A_multiply; by apply mul_none in E].
      apply mul_ok in E as (Hz & Hzn & Hzv); auto. split_and!; [done..|].
      rewrite round_half_even_1, Hzv, Hshv, Hpv. ring.
    + rewrite (Z.max_r s), (Z.max_l (-s)), Z.pow_0_r by lia. rewrite (Z.abs_neq s) in * by lia.
      destruct (multiply _ _ m _) as [num|] eqn:E; [|exists A_multiply; by apply mul_none in E].
      apply mul_ok in E as (Hnum & _ & Hnumv); auto.
      destruct (div_result _) as [z|] eqn:E2.
      * apply div_ok in E2 as (Hz & Hzn & Hzv); auto. split_and!; [done..|].
        rewrite Hzv, Hdv, Hnumv, Hpv. f_equal; ring.
      * apply div_none in E2 as [E2|E2]; eauto. rewrite Hdv. lia.
  - rewrite (Z.max_r n), (Z.max_l (-n)), Z.pow_0_r by lia. rewrite (Z.abs_neq n) in * by lia.
    destruct (Z.leb_spec s 0) as [Hs|Hs].
    + rewrite (Z.max_r s), (Z.max_l (-s)), Z.pow_0_r by lia. rewrite (Z.abs_neq s) in * by lia.
      destruct (div_result _) as [z|] eqn:E2.
      * apply div_ok in E2 as (Hz & Hzn & Hzv); auto. split_and!; [done..|].
        rewrite Hzv, Hshv, Hpv. f_equal; ring.
      * apply div_none in E2 as [E2|E2]; eauto. rewrite Hshv, Hpv. lia.
    + rewrite (Z.max_l s), (Z.max_r (-s)), Z.pow_0_r by lia. rewrite (Z.abs_eq s) in * by lia.
      destruct (alloc A_numerator) eqn:En; cbn [negb]; [|by exists A_numerator].
      destruct (div_result _) as [z|] eqn:E2.
      * apply div_ok in E2 as (Hz & Hzn & Hzv); auto. split_and!; [done..|].
        rewrite Hzv, Hpv, Hsmv. f_equal; ring.
      * apply div_none in E2 as [E2|E2]; eauto. rewrite Hpv. lia.
Qed.
End ScaleCorrect.

(** [scale10_round_decimal_decoded] prints exactly the decimal digits of
    [2^e * m * 10^n] rounded to nearest, ties to even, in all four sign cases of
    [n] and [e + n], without leading zeroes; and it returns NULL only when an
    allocation fails; only digits of more than 125 places can lie outside the memory.  ([e], [n] and [e + n] are within [int].) *)
Theorem scale10_round_correct (alloc : site -> bool) (junk : nat -> mpn)
    (e : Z) (m : mpn) (n : Z) :
  limbs_ok m -> (forall k, length (junk k) = k /\ limbs_ok (junk k)) -> n < 2 ^ 32 ->
  match scale10_round_decimal_decoded alloc junk e m n with
  | DigitString s =>
      Forall digit_ok s /\
      dec_value s = round_half_even (scale_num e m n) (scale_den e n) /\
      s <> [] /\ (last s = Some (chr "0") -> s = [chr "0"])
  | DigitNomem => exists a, alloc a = false
  | DigitOverflow => 10 ^ 125 <= round_half_even (scale_num e m n) (scale_den e n)
  end.
Proof.
  intros Hm Hj Hn. unfold scale10_round_decimal_decoded. cbv zeta.
  set (x := if (0 <? e + n) && (0 <? n) then Z.min (e + n) n else 0).
  assert (Hx : 0 <= x /\ (x = 0 \/ 0 < n /\ 0 < e + n /\ x <= n /\ x <= e + n)).
  { unfold x. destruct (Z.ltb_spec 0 (e + n)), (Z.ltb_spec 0 n); cbn [andb]; lia. }
  assert (Hround : round_half_even (scale_num e m n) (scale_den e n) =
    round_half_even (scale_num e m (n - x)) (scale_den e (n - x)) * 10 ^ x).
  { destruct Hx as [Hx0 [-> | Hx]]; [by rewrite Z.sub_0_r, Z.mul_1_r|].
    unfold scale_num, scale_den.
    rewrite (Z.max_r (- (e + n))), (Z.max_r (- n)), (Z.max_r (- (e + (n - x)))),
      (Z.max_r (- (n - x))) by lia.
    change (2 ^ 0 * 5 ^ 0) with 1. rewrite !round_half_even_1.
    rewrite !Z.max_l by lia. change 10 with (2 * 5). rewrite Z.pow_mul_l.
    replace (2 ^ (e + n)) with (2 ^ (e + (n - x)) * 2 ^ x)
      by (rewrite <- Z.pow_add_r by lia; f_equal; lia).
    replace (5 ^ n) with (5 ^ (n - x) * 5 ^ x)
      by (rewrite <- Z.pow_add_r by lia; f_equal; lia).
    ring. }
  destruct (alloc A_pow5) eqn:E5; cbn [negb]; [|by exists A_pow5].
  pose proof (scale_z_spec alloc junk Hj e m (n - x) Hm) as Hz.
  unfold scale_z in Hz. replace (e + (n - x)) with (e + n - x) in Hz by lia.
  cbv zeta in Hz. match type of Hz with match ?t with _ => _ end => destruct t as [z|] end;
    [|done].
  destruct Hz as (Hz & Hzn & Hzv).
  pose proof (convert_to_decimal_spec (alloc A_decimal) z (Z.to_nat x) Hz) as Hc.
  destruct (convert_to_decimal _ _ _) as [s| |]; [|by exists A_decimal|].
  2: { assert (0 < 10 ^ x) by (apply Z.pow_pos_nonneg; lia). pose proof (value_range z Hz). apply Z.nlt_ge. intros Hlt.
    pose proof (convert_fits z (Z.to_nat x) Hz Hzn ltac:(nia) ltac:(lia)). lia. }
  destruct Hc as (_ & H1 & H2 & H3). split; [done|].
  rewrite H2, Hround, Hzv, Z2Nat.id by lia. done.
Qed.

Lemma scale10_round_correct_witness :
  match scale10_round_decimal_decoded (fun _ => true) (fun k => replicate k 9)
          (-56) [0x9999999a; 0x199999] 2 with
  | DigitString s =>
      Forall digit_ok s /\
      dec_value s = round_half_even (scale_num (-56) [0x9999999a; 0x199999] 2) (scale_den (-56) 2) /\
      s <> [] /\ (last s = Some (chr "0") -> s = [chr "0"])
  | DigitNomem => exists a : site, true = false
  | DigitOverflow => 10 ^ 125 <= round_half_even (scale_num (-56) [0x9999999a; 0x199999] 2) (scale_den (-56) 2)
  end.
Proof.
  apply (scale10_round_correct (fun _ => true) (fun k => replicate k 9) (-56)
           [0x9999999a; 0x199999] 2).
  - repeat (apply Forall_cons_2 || apply Forall_nil_2); lia.
  - intros k. split; [apply length_replicate|]. apply Forall_replicate. lia.
  - lia.
Defined.

Lemma is_borderline_spec digits precision :
  wf_cstr digits ->
  is_borderline digits precision = true <->
  digits = replicate precision (chr "0") ++ [chr "1"].
Proof.
  revert digits. induction precision as [|p IH]; intros digits Hwf; simpl.
  - destruct digits as [|c [|d t]]; simpl.
    + split; [done|intros [=]].
    + destruct (Z.eqb_spec c (chr "1")) as [->|Hc]; simpl; split; try done. by intros [= ->].
    + case_if; split; done.
  - inversion Hwf as [|c t Hc Ht]; subst; simpl; [split; [done|intros [=]]|].
    rewrite drop_0. destruct (Z.eqb_spec c (chr "0")) as [->|Hc0]; simpl.
    + rewrite (IH t Ht). split; [by intros ->|by intros [= ->]].
    + split; [done|by intros [= ->]].
Qed.
