(* ===== verification/PrintfParse.v ===== *)
(** * Parsing of printf format strings: printf-parse.c, printf-args.h, xsize.h

    [PRINTF_PARSE] splits a format string into directives and determines the
    types of the arguments.  The model is the [char] instance on an LP64 glibc
    system ([long], [size_t], [intmax_t] and [ptrdiff_t] have 64 bits).  A
    pointer into the format is its offset; [None] is the null pointer.
    Allocation is the oracle [mal]; [sz_argument] and [sz_directive] are the
    sizes of the structures. *)

From S2P Require Import Prelude.

Open Scope Z_scope.

(** ** xsize.h *)

Definition SIZE_MAX : Z := 2 ^ 64 - 1.

Definition xsum (size1 size2 : Z) : Z :=
  let sum := wrapw 64 (size1 + size2) in
  if size1 <=? sum then sum else SIZE_MAX.
Definition xsum3 (size1 size2 size3 : Z) : Z := xsum (xsum size1 size2) size3.
Definition xsum4 (size1 size2 size3 size4 : Z) : Z := xsum (xsum (xsum size1 size2) size3) size4.
Definition xmax (size1 size2 : Z) : Z := if size2 <=? size1 then size1 else size2.
Definition xtimes (n elsize : Z) : Z :=
  if n <=? SIZE_MAX / elsize then wrapw 64 (n * elsize) else SIZE_MAX.
Definition size_overflow_p (size : Z) : bool := size =? SIZE_MAX.
Definition size_in_bounds_p (size : Z) : bool := negb (size =? SIZE_MAX).

(** ** Data *)

Inductive arg_type :=
| TYPE_NONE
| TYPE_SCHAR | TYPE_UCHAR | TYPE_SHORT | TYPE_USHORT | TYPE_INT | TYPE_UINT
| TYPE_LONGINT | TYPE_ULONGINT | TYPE_LONGLONGINT | TYPE_ULONGLONGINT
| TYPE_DOUBLE | TYPE_LONGDOUBLE
| TYPE_CHAR | TYPE_WIDE_CHAR | TYPE_STRING | TYPE_WIDE_STRING | TYPE_POINTER
| TYPE_COUNT_SCHAR_POINTER | TYPE_COUNT_SHORT_POINTER | TYPE_COUNT_INT_POINTER
| TYPE_COUNT_LONGINT_POINTER | TYPE_COUNT_LONGLONGINT_POINTER.

#[export] Instance arg_type_eq_dec : EqDecision arg_type.
Proof. solve_decision. Defined.

Definition FLAG_GROUP : Z := 1.
Definition FLAG_LEFT : Z := 2.
Definition FLAG_SHOWSIGN : Z := 4.
Definition FLAG_SPACE : Z := 8.
Definition FLAG_ALT : Z := 16.
Definition FLAG_ZERO : Z := 32.
Definition FLAG_LOCALIZED : Z := 64.

Definition ARG_NONE : Z := SIZE_MAX.
Definition N_DIRECT_ALLOC_DIRECTIVES : Z := 7.
Definition N_DIRECT_ALLOC_ARGUMENTS : Z := 7.

(** [char_directive]. *)
Record directive := Directive {
  dir_start : nat;
  dir_end : nat;
  flags : Z;
  width_start : option nat;
  width_end : option nat;
  width_arg_index : Z;
  precision_start : option nat;
  precision_end : option nat;
  precision_arg_index : Z;
  conversion : Z;
  arg_index : Z
}.

(** What the parser accumulates: [a->arg[0 .. count - 1]], [d->dir[0 .. count - 1]],
    the allocation sizes, and the local variables of the loop. *)
Record parse_state := ParseState {
  args : list arg_type;
  a_allocated : Z;
  dirs : list directive;
  d_allocated : Z;
  arg_posn : Z;
  max_width_length : Z;
  max_precision_length : Z;
  n_allocs : nat
}.

(** [goto error] and [goto out_of_memory] end the function with [EINVAL] and
    [ENOMEM]. *)
Inductive result (A : Type) :=
| Ok (a : A) | Einval | Enomem.
Arguments Ok {A}. Arguments Einval {A}. Arguments Enomem {A}.

#[export] Instance result_bind : MBind result := fun A B f r =>
  match r with Ok a => f a | Einval => Einval | Enomem => Enomem end.

Lemma rbind_ok {A B} (r : result A) (f : A -> result B) b :
  (r ≫= f) = Ok b <-> exists a, r = Ok a /\ f a = Ok b.
Proof.
  destruct r as [a| |]; simpl; split; try done.
  - eauto.
  - by intros (a' & [= ->] & H).
  - by intros (a' & H & _).
  - by intros (a' & H & _).
Qed.

(** ** Pieces of the grammar *)

Definition is_dec (c : Z) : bool := (chr "0" <=? c) && (c <=? chr "9").

Fixpoint skip_digits (cp : cstr) : cstr :=
  match cp with
  | c :: cp' => if is_dec c then skip_digits cp' else cp
  | [] => []
  end.

(** [for (np = cp; *np >= '0' && *np <= '9'; np++) n = xsum (xtimes (n, 10), *np - '0')] *)
Fixpoint read_number (n : Z) (np : cstr) : Z :=
  match np with
  | c :: np' => if is_dec c then read_number (xsum (xtimes n 10) (c - chr "0")) np' else n
  | [] => n
  end.

(** The test for a positional argument, [n$]: the index, [ARG_NONE] if there
    is none, and the position after it. *)
Definition positional (cp : cstr) : result (Z * cstr) :=
  if is_dec (cur cp) then
    let np := skip_digits cp in
    if cur np =? chr "$" then
      let n := read_number 0 cp in
      if n =? 0 then Einval
      else if size_overflow_p n then Einval
      else Ok (n - 1, drop 1 np)
    else Ok (ARG_NONE, cp)
  else Ok (ARG_NONE, cp).

Definition flag_of (c : Z) : option Z :=
  if c =? chr "'" then Some FLAG_GROUP
  else if c =? chr "-" then Some FLAG_LEFT
  else if c =? chr "+" then Some FLAG_SHOWSIGN
  else if c =? chr " " then Some FLAG_SPACE
  else if c =? chr "#" then Some FLAG_ALT
  else if c =? chr "0" then Some FLAG_ZERO
  else if c =? chr "I" then Some FLAG_LOCALIZED
  else None.

Fixpoint read_flags (fl : Z) (cp : cstr) : Z * cstr :=
  match cp with
  | c :: cp' =>
      match flag_of c with
      | Some f => read_flags (Z.lor fl f) cp'
      | None => (fl, cp)
      end
  | [] => (fl, [])
  end.

(** The size specifiers. *)
Fixpoint read_size (fl : Z) (cp : cstr) : Z * cstr :=
  match cp with
  | c :: cp' =>
      if c =? chr "h" then read_size (Z.lor fl (Z.shiftl 1 (Z.land fl 1))) cp'
      else if c =? chr "L" then read_size (Z.lor fl 4) cp'
      else if c =? chr "l" then read_size (fl + 8) cp'
      else if c =? chr "j" then read_size (fl + 8) cp'
      else if (c =? chr "z") || (c =? chr "Z") then read_size (fl + 8) cp'
      else if c =? chr "t" then read_size (fl + 8) cp'
      else (fl, cp)
  | [] => (fl, [])
  end.

Definition bit_set (fl m : Z) : bool := negb (Z.land fl m =? 0).

(** The [switch] on the conversion character: the argument type and the
    conversion that is stored. *)
Definition conversion_type (fl c : Z) : option (arg_type * Z) :=
  let among s := existsb (fun d => c =? d) (cs s) in
  if among "di" then
    Some ((if (16 <=? fl) || bit_set fl 4 then TYPE_LONGLONGINT
           else if 8 <=? fl then TYPE_LONGINT
           else if bit_set fl 2 then TYPE_SCHAR
           else if bit_set fl 1 then TYPE_SHORT else TYPE_INT), c)
  else if among "ouxX" then
    Some ((if (16 <=? fl) || bit_set fl 4 then TYPE_ULONGLONGINT
           else if 8 <=? fl then TYPE_ULONGINT
           else if bit_set fl 2 then TYPE_UCHAR
           else if bit_set fl 1 then TYPE_USHORT else TYPE_UINT), c)
  else if among "fFeEgGaA" then
    Some ((if (16 <=? fl) || bit_set fl 4 then TYPE_LONGDOUBLE else TYPE_DOUBLE), c)
  else if among "c" then Some ((if 8 <=? fl then TYPE_WIDE_CHAR else TYPE_CHAR), c)
  else if among "C" then Some (TYPE_WIDE_CHAR, chr "c")
  else if among "s" then Some ((if 8 <=? fl then TYPE_WIDE_STRING else TYPE_STRING), c)
  else if among "S" then Some (TYPE_WIDE_STRING, chr "s")
  else if among "p" then Some (TYPE_POINTER, c)
  else if among "n" then
    Some ((if (16 <=? fl) || bit_set fl 4 then TYPE_COUNT_LONGLONGINT_POINTER
           else if 8 <=? fl then TYPE_COUNT_LONGINT_POINTER
           else if bit_set fl 2 then TYPE_COUNT_SCHAR_POINTER
           else if bit_set fl 1 then TYPE_COUNT_SHORT_POINTER else TYPE_COUNT_INT_POINTER), c)
  else if among "%" then Some (TYPE_NONE, c)
  else None.

(** ** The loop *)

Section Parse.
Context (sz_argument sz_directive : Z) (mal : nat -> Z -> bool).

Definition set_args (st : parse_state) (l : list arg_type) : parse_state :=
  ParseState l (a_allocated st) (dirs st) (d_allocated st) (arg_posn st)
    (max_width_length st) (max_precision_length st) (n_allocs st).

(** [REGISTER_ARG (n, type)] *)
Definition register_arg (st : parse_state) (n : Z) (type : arg_type) : result parse_state :=
  st ← (if a_allocated st <=? n then
          let a := xtimes (a_allocated st) 2 in
          let a := if a <=? n then xsum n 1 else a in
          let memory_size := xtimes a sz_argument in
          if size_overflow_p memory_size then Enomem
          else if negb (mal (n_allocs st) memory_size) then Enomem
          else Ok (ParseState (args st) a (dirs st) (d_allocated st) (arg_posn st)
                     (max_width_length st) (max_precision_length st) (S (n_allocs st)))
        else Ok st);
  let k := Z.to_nat n in
  let l := args st ++ replicate (S k - length (args st)) TYPE_NONE in
  match nth k l TYPE_NONE with
  | TYPE_NONE => Ok (set_args st (<[k := type]> l))
  | t => if decide (t = type) then Ok (set_args st l) else Einval
  end.

(** An argument index that is taken from the sequence of arguments if it was
    not positional: [arg_posn++]. *)
Definition next_arg (st : parse_state) (index : Z) : result (Z * parse_state) :=
  if index =? ARG_NONE then
    let index := arg_posn st in
    let st := ParseState (args st) (a_allocated st) (dirs st) (d_allocated st)
                (wrapw 64 (arg_posn st + 1)) (max_width_length st)
                (max_precision_length st) (n_allocs st) in
    if index =? ARG_NONE then Einval else Ok (index, st)
  else Ok (index, st).

(** The width, and the precision, of a directive: start and end of its text,
    its argument index, and the rest. *)
Definition spec_result : Type := option nat * option nat * Z * cstr * parse_state.

(** The length of the format: a pointer [cp] is the offset [len - length cp]. *)
Context (len : nat).
Definition pos (cp : cstr) : nat := len - length cp.

Definition star_arg (st : parse_state) (cp : cstr) : result (Z * cstr * parse_state) :=
  '(index, cp) ← positional cp;
  '(index, st) ← next_arg st index;
  st ← register_arg st index TYPE_INT;
  Ok (index, cp, st).

Definition parse_width (st : parse_state) (cp : cstr) : result spec_result :=
  if cur cp =? chr "*" then
    let start := pos cp in
    let cp := drop 1 cp in
    let stop := pos cp in
    let st := ParseState (args st) (a_allocated st) (dirs st) (d_allocated st) (arg_posn st)
                (Z.max (max_width_length st) 1) (max_precision_length st) (n_allocs st) in
    '(index, cp, st) ← star_arg st cp;
    Ok (Some start, Some stop, index, cp, st)
  else if is_dec (cur cp) then
    let start := pos cp in
    let cp := skip_digits cp in
    let stop := pos cp in
    let width_length := Z.of_nat (stop - start) in
    Ok (Some start, Some stop, ARG_NONE, cp,
        ParseState (args st) (a_allocated st) (dirs st) (d_allocated st) (arg_posn st)
          (Z.max (max_width_length st) width_length) (max_precision_length st) (n_allocs st))
  else Ok (None, None, ARG_NONE, cp, st).

Definition parse_precision (st : parse_state) (cp : cstr) : result spec_result :=
  if cur cp =? chr "." then
    let start := pos cp in
    let cp := drop 1 cp in
    if cur cp =? chr "*" then
      let cp := drop 1 cp in
      let stop := pos cp in
      let st := ParseState (args st) (a_allocated st) (dirs st) (d_allocated st) (arg_posn st)
                  (max_width_length st) (Z.max (max_precision_length st) 2) (n_allocs st) in
      '(index, cp, st) ← star_arg st cp;
      Ok (Some start, Some stop, index, cp, st)
    else
      let cp := skip_digits cp in
      let stop := pos cp in
      let precision_length := Z.of_nat (stop - start) in
      Ok (Some start, Some stop, ARG_NONE, cp,
          ParseState (args st) (a_allocated st) (dirs st) (d_allocated st) (arg_posn st)
            (max_width_length st) (Z.max (max_precision_length st) precision_length) (n_allocs st))
  else Ok (None, None, ARG_NONE, cp, st).

(** [d->count++] and the growth of [d->dir]. *)
Definition push_directive (st : parse_state) (dp : directive) : result parse_state :=
  let l := dirs st ++ [dp] in
  let st := ParseState (args st) (a_allocated st) l (d_allocated st) (arg_posn st)
              (max_width_length st) (max_precision_length st) (n_allocs st) in
  if d_allocated st <=? Z.of_nat (length l) then
    let d := xtimes (d_allocated st) 2 in
    let memory_size := xtimes d sz_directive in
    if size_overflow_p memory_size then Enomem
    else if negb (mal (n_allocs st) memory_size) then Enomem
    else Ok (ParseState (args st) (a_allocated st) l d (arg_posn st)
               (max_width_length st) (max_precision_length st) (S (n_allocs st)))
  else Ok st.

(** One directive, from the character after the percent sign at [start]. *)
Definition parse_directive (st : parse_state) (start : nat) (cp : cstr)
    : result (cstr * parse_state) :=
  '(index, cp) ← positional cp;
  let '(fl, cp) := read_flags 0 cp in
  '(ws, we, wi, cp, st) ← parse_width st cp;
  '(ps, pe, pi, cp, st) ← parse_precision st cp;
  let '(size, cp) := read_size 0 cp in
  match cp with
  | [] => Einval
  | c :: cp =>
      match conversion_type size c with
      | None => Einval
      | Some (type, c) =>
          '(index, st) ←
            (if decide (type = TYPE_NONE) then Ok (ARG_NONE, st)
             else
               '(index, st) ← next_arg st index;
               st ← register_arg st index type;
               Ok (index, st));
          st ← push_directive st (Directive start (pos cp) fl ws we wi ps pe pi c index);
          Ok (cp, st)
      end
  end.

(** [while ( *cp != '\0')]; the final state, with [d->dir[d->count].dir_start]
    at the end of the format. *)
Fixpoint parse_loop (fuel : nat) (st : parse_state) (cp : cstr) : option (result parse_state) :=
  match fuel with
  | O => None
  | S fuel =>
      match cp with
      | [] => Some (Ok st)
      | c :: cp' =>
          if c =? chr "%" then
            match parse_directive st (pos cp) cp' with
            | Ok (cp, st) => parse_loop fuel st cp
            | Einval => Some Einval
            | Enomem => Some Enomem
            end
          else parse_loop fuel st cp'
      end
  end.
End Parse.

Definition init_state : parse_state :=
  ParseState [] N_DIRECT_ALLOC_ARGUMENTS [] N_DIRECT_ALLOC_DIRECTIVES 0 0 0 0.

Definition PRINTF_PARSE (sz_argument sz_directive : Z) (mal : nat -> Z -> bool) (format : cstr)
    : option (result parse_state) :=
  parse_loop sz_argument sz_directive mal (length format) (S (length format)) init_state format.

(** ** Fetching the arguments *)

(** An argument as it is passed, after the default argument promotions.
    Floating-point values are opaque numbers; a string is its contents, a null
    pointer [None]. *)
Inductive va_value :=
| VInt (z : Z) | VUint (z : Z) | VLong (z : Z) | VUlong (z : Z) | VLlong (z : Z) | VUllong (z : Z)
| VDouble (repr : Z) | VLongDouble (repr : Z)
| VWint (z : Z)
| VString (s : option cstr) | VWideString (s : option (list Z))
| VPointer (addr : Z).

(** The conversion of an [int] to a signed type of [w] bits. *)
Definition to_signed (w z : Z) : Z :=
  let u := wrapw w z in if u <? 2 ^ (w - 1) then u else u - 2 ^ w.

Definition null_string : cstr := cs "(NULL)".

(** One iteration: what is stored in [ap->a]; [None] where [va_arg] reads a
    value of another type, which is undefined, or the type is unknown. *)
Definition fetch (type : arg_type) (v : va_value) : option va_value :=
  match type, v with
  | TYPE_SCHAR, VInt z => Some (VInt (to_signed 8 z))
  | TYPE_UCHAR, VInt z => Some (VInt (wrapw 8 z))
  | TYPE_SHORT, VInt z => Some (VInt (to_signed 16 z))
  | TYPE_USHORT, VInt z => Some (VInt (wrapw 16 z))
  | TYPE_INT, VInt z => Some (VInt z)
  | TYPE_UINT, VUint z => Some (VUint z)
  | TYPE_LONGINT, VLong z => Some (VLong z)
  | TYPE_ULONGINT, VUlong z => Some (VUlong z)
  | TYPE_LONGLONGINT, VLlong z => Some (VLlong z)
  | TYPE_ULONGLONGINT, VUllong z => Some (VUllong z)
  | TYPE_DOUBLE, VDouble r => Some (VDouble r)
  | TYPE_LONGDOUBLE, VLongDouble r => Some (VLongDouble r)
  | TYPE_CHAR, VInt z => Some (VInt z)
  | TYPE_WIDE_CHAR, VWint z => Some (VWint z)
  | TYPE_STRING, VString s => Some (VString (Some (default null_string s)))
  | TYPE_WIDE_STRING, VWideString s => Some (VWideString (Some (default null_string s)))
  | (TYPE_POINTER | TYPE_COUNT_SCHAR_POINTER | TYPE_COUNT_SHORT_POINTER | TYPE_COUNT_INT_POINTER
    | TYPE_COUNT_LONGINT_POINTER | TYPE_COUNT_LONGLONGINT_POINTER), VPointer a => Some (VPointer a)
  | _, _ => None
  end.

Inductive fetched :=
| Fetched (l : list va_value)   (* 0, with the values that were stored *)
| FetchFailed                   (* -1: unknown type *)
| FetchUndefined.               (* a value of the wrong type, or none, was passed *)

Fixpoint PRINTF_FETCHARGS (types : list arg_type) (va : list va_value) : fetched :=
  match types with
  | [] => Fetched []
  | type :: types =>
      if decide (type = TYPE_NONE) then FetchFailed
      else
        match va with
        | [] => FetchUndefined
        | v :: va =>
            match fetch type v with
            | None => FetchUndefined
            | Some w =>
                match PRINTF_FETCHARGS types va with
                | Fetched l => Fetched (w :: l)
                | r => r
                end
            end
        end
  end.

Example parse_ex :
  match PRINTF_PARSE 32 88 (fun _ _ => true) (cs "%5.*lld items%% at %s") with
  | Some (Ok st) => (args st, map conversion (dirs st), map arg_index (dirs st))
  | _ => ([], [], [])
  end = ([TYPE_INT; TYPE_LONGLONGINT; TYPE_STRING], cs "d%s", [1; ARG_NONE; 2]).
Proof. vm_compute. reflexivity. Qed.

Example parse_positional :
  match PRINTF_PARSE 32 88 (fun _ _ => true) (cs "%3$s %1$-*2$d") with
  | Some (Ok st) => (args st, map arg_index (dirs st),
      PRINTF_FETCHARGS (args st) [VInt (-7); VInt 5; VString None])
  | _ => ([], [], FetchFailed)
  end = ([TYPE_INT; TYPE_INT; TYPE_STRING], [2; 0],
         Fetched [VInt (-7); VInt 5; VString (Some (cs "(NULL)"))]).
Proof. vm_compute. reflexivity. Qed.
