(* ===== verification/PrintfParseSpec.v ===== *)
(** * What PRINTF_PARSE promises

    Bounds of the two arrays, consistency of the argument types, the partition
    of the format into literal text and directives, the numbering of arguments,
    and termination. *)

From S2P Require Import Prelude PrintfParse.

Open Scope Z_scope.

(** ** xsize.h: saturating arithmetic *)

Lemma xsum_spec a b : 0 <= a <= SIZE_MAX -> 0 <= b <= SIZE_MAX -> xsum a b = Z.min (a + b) SIZE_MAX.
Proof.
  unfold xsum, SIZE_MAX, wrapw. intros Ha Hb.
  destruct (Z.lt_ge_cases (a + b) (2 ^ 64)) as [H|H].
  - rewrite Z.mod_small by lia. rewrite (proj2 (Z.leb_le _ _)); lia.
  - rewrite <- (Z.mod_unique (a + b) (2 ^ 64) 1 (a + b - 2 ^ 64)) by lia.
    rewrite (proj2 (Z.leb_gt _ _)); lia.
Qed.

Lemma xtimes_spec n e : 0 <= n <= SIZE_MAX -> 0 < e -> xtimes n e = Z.min (n * e) SIZE_MAX.
Proof.
  unfold xtimes, SIZE_MAX, wrapw. intros Hn He.
  pose proof (Z.div_mod (2 ^ 64 - 1) e ltac:(lia)).
  pose proof (Z.mod_pos_bound (2 ^ 64 - 1) e He).
  destruct (Z.leb_spec n ((2 ^ 64 - 1) / e)).
  - assert (n * e <= 2 ^ 64 - 1) by nia. rewrite Z.mod_small by lia. lia.
  - assert (2 ^ 64 - 1 < n * e) by nia. lia.
Qed.

Lemma xsum_range a b : 0 <= a <= SIZE_MAX -> 0 <= b <= SIZE_MAX -> 0 <= xsum a b <= SIZE_MAX.
Proof. intros. rewrite xsum_spec by done. unfold SIZE_MAX in *. lia. Qed.

Lemma xtimes_range n e : 0 <= n <= SIZE_MAX -> 0 < e -> 0 <= xtimes n e <= SIZE_MAX.
Proof. intros. rewrite xtimes_spec by done. unfold SIZE_MAX in *. lia. Qed.

(** The decimal number at the start of a string, exactly. *)
Fixpoint exact_number (n : Z) (np : cstr) : Z :=
  match np with
  | c :: np' => if is_dec c then exact_number (n * 10 + (c - chr "0")) np' else n
  | [] => n
  end.

Lemma is_dec_spec c : is_dec c = true <-> chr "0" <= c <= chr "9".
Proof. unfold is_dec. rewrite andb_true_iff, !Z.leb_le. done. Qed.

Lemma exact_number_mono n m np : n <= m -> exact_number n np <= exact_number m np.
Proof.
  revert n m. induction np as [|c np IH]; intros n m H; simpl; [done|].
  case_if; [|done]. apply IH. lia.
Qed.

Lemma exact_number_ge n np : 0 <= n -> n <= exact_number n np.
Proof.
  revert n. induction np as [|c np IH]; intros n H; simpl; [lia|].
  case_if; [|lia]. apply is_dec_spec in Eif. change (chr "0") with 48 in *.
  etransitivity; [|apply IH]; lia.
Qed.

(** [read_number] is the decimal value, saturated at [SIZE_MAX]. *)
Lemma read_number_spec n m np :
  0 <= m -> n = Z.min m SIZE_MAX -> read_number n np = Z.min (exact_number m np) SIZE_MAX.
Proof.
  revert n m. induction np as [|c np IH]; intros n m Hm Hn; simpl; [done|].
  destruct (is_dec c) eqn:E; [|done]. apply is_dec_spec in E.
  change (chr "0") with 48 in *. change (chr "9") with 57 in E.
  apply IH; [lia|]. subst n.
  assert (0 <= Z.min m SIZE_MAX <= SIZE_MAX) by (unfold SIZE_MAX; lia).
  rewrite xtimes_spec by lia.
  assert (0 <= Z.min (Z.min m SIZE_MAX * 10) SIZE_MAX <= SIZE_MAX) by (unfold SIZE_MAX; lia).
  rewrite xsum_spec by (unfold SIZE_MAX in *; lia). unfold SIZE_MAX. lia.
Qed.

(** A positional argument number: "n$" gives index [n - 1], without any
    overflow whatever the number of digits; 0 and numbers from [SIZE_MAX] on
    are errors; and digits without a dollar sign are left for the width. *)
Theorem positional_spec (cp : cstr) :
  positional cp =
  if is_dec (cur cp) && (cur (skip_digits cp) =? chr "$") then
    let n := exact_number 0 cp in
    if (n =? 0) || (SIZE_MAX <=? n) then Einval else Ok (n - 1, drop 1 (skip_digits cp))
  else Ok (ARG_NONE, cp).
Proof.
  unfold positional. destruct (is_dec (cur cp)); [|done]. cbn [andb].
  destruct (cur (skip_digits cp) =? chr "$"); [|done]. cbv zeta.
  pose proof (read_number_spec 0 0 cp ltac:(lia) ltac:(done)) as ->.
  pose proof (exact_number_ge 0 cp ltac:(lia)). unfold size_overflow_p.
  set (n := exact_number 0 cp) in *. clearbody n.
  destruct (Z.leb_spec SIZE_MAX n) as [H1|H1].
  - rewrite Z.min_r by done. rewrite orb_true_r. done.
  - rewrite Z.min_l, orb_false_r by lia. rewrite (proj2 (Z.eqb_neq n SIZE_MAX)) by lia. done.
Qed.

(** ** Suffixes of the format *)

Lemma suffix_drop (n : nat) (cp : cstr) : drop n cp `suffix_of` cp.
Proof. exists (take n cp). by rewrite take_drop. Qed.

(** Close a goal on [suffix_of] by a chain of hypotheses. *)
Ltac suffix_chain :=
  first
    [ assumption
    | match goal with
      | H : ?a `suffix_of` ?b |- ?a `suffix_of` _ =>
          etransitivity; [exact H|]; clear H; suffix_chain
      end ].

Lemma skip_digits_suffix cp : skip_digits cp `suffix_of` cp.
Proof.
  induction cp as [|c cp IH]; simpl; [done|]. case_if; [|done]. by apply suffix_cons_r.
Qed.

Lemma read_flags_suffix fl cp : snd (read_flags fl cp) `suffix_of` cp.
Proof.
  revert fl. induction cp as [|c cp IH]; intros fl; simpl; [done|].
  destruct (flag_of c); [|done]. by apply suffix_cons_r.
Qed.

Lemma read_size_suffix fl cp : snd (read_size fl cp) `suffix_of` cp.
Proof.
  revert fl. induction cp as [|c cp IH]; intros fl; simpl; [done|].
  repeat (case_if; [by apply suffix_cons_r|]). done.
Qed.

Lemma positional_suffix cp i cp' : positional cp = Ok (i, cp') -> cp' `suffix_of` cp /\ 0 <= i <= SIZE_MAX.
Proof.
  unfold positional, ARG_NONE. intros H.
  assert (0 <= SIZE_MAX <= SIZE_MAX) by (unfold SIZE_MAX; lia).
  destruct (is_dec (cur cp)); [|by injection H as <- <-].
  destruct (cur (skip_digits cp) =? chr "$"); [|by injection H as <- <-].
  pose proof (read_number_spec 0 0 cp ltac:(lia) ltac:(done)) as Hr.
  pose proof (exact_number_ge 0 cp ltac:(lia)). cbv zeta in H.
  destruct (Z.eqb_spec (read_number 0 cp) 0); [done|].
  destruct (size_overflow_p (read_number 0 cp)); [done|]. injection H as <- <-. split.
  - etransitivity; [apply suffix_drop|apply skip_digits_suffix].
  - lia.
Qed.

(** ** The arrays *)

(** The element counts are within the allocated sizes; for the directives one
    more element, the one being filled, is. *)
Record ok_state (st : parse_state) : Prop := OkState {
  ok_args : Z.of_nat (length (args st)) <= a_allocated st;
  ok_dirs : Z.of_nat (length (dirs st)) < d_allocated st;
  ok_asize : 7 <= a_allocated st <= SIZE_MAX;
  ok_dsize : 7 <= d_allocated st <= SIZE_MAX;
  ok_posn : 0 <= arg_posn st <= SIZE_MAX
}.

(** Argument [i] is recorded with type [t]. *)
Definition typed (st : parse_state) (i : Z) (t : arg_type) : Prop :=
  0 <= i /\ args st !! Z.to_nat i = Some t.

(** A later state: types that were determined stay, lengths only grow. *)
Record later (st st' : parse_state) : Prop := Later {
  later_args : forall k t, t <> TYPE_NONE -> args st !! k = Some t -> args st' !! k = Some t;
  later_width : max_width_length st <= max_width_length st';
  later_precision : max_precision_length st <= max_precision_length st'
}.

#[export] Instance later_preorder : PreOrder later.
Proof.
  split.
  - intros st. by split.
  - intros a b c [] []. split; [auto|lia|lia].
Qed.

Lemma typed_later st st' i t : t <> TYPE_NONE -> later st st' -> typed st i t -> typed st' i t.
Proof. intros Ht [H _ _] [? ?]. split; auto. Qed.

Section Spec.
Context (sz_argument sz_directive : Z) (Hsa : 0 < sz_argument) (Hsd : 0 < sz_directive).
Context (mal : nat -> Z -> bool).

Lemma xtimes_overflow e : 0 < e -> size_overflow_p (xtimes SIZE_MAX e) = true.
Proof using Type.
  intros He. rewrite xtimes_spec by (unfold SIZE_MAX; lia). unfold size_overflow_p, SIZE_MAX.
  apply Z.eqb_eq. nia.
Qed.

(** The two-stage growth of [a->arg] makes room for index [n]. *)
Lemma grown_size a n :
  7 <= a <= SIZE_MAX -> 0 <= n < SIZE_MAX -> a <= n ->
  let a' := if xtimes a 2 <=? n then xsum n 1 else xtimes a 2 in
  n < a' /\ a <= a' /\ 7 <= a' <= SIZE_MAX.
Proof using Type.
  intros Ha Hn Hle. rewrite xtimes_spec by lia. cbv zeta. unfold SIZE_MAX in *.
  destruct (Z.leb_spec (Z.min (a * 2) (2 ^ 64 - 1)) n); [rewrite xsum_spec|]; unfold SIZE_MAX; lia.
Qed.

Lemma register_arg_ok st n t st' :
  ok_state st -> 0 <= n < SIZE_MAX -> t <> TYPE_NONE ->
  register_arg sz_argument mal st n t = Ok st' ->
  ok_state st' /\ later st st' /\ typed st' n t /\ dirs st' = dirs st /\
  arg_posn st' = arg_posn st /\
  (exists l, args st' = l /\ length l = Nat.max (length (args st)) (S (Z.to_nat n))).
Proof using Type.
  intros [Ha Hd Has Hds Hp] Hn Ht. unfold register_arg.
  intros H. apply rbind_ok in H as (st1 & E & H).
  assert (H1 : args st1 = args st /\ dirs st1 = dirs st /\ d_allocated st1 = d_allocated st /\
    arg_posn st1 = arg_posn st /\ max_width_length st1 = max_width_length st /\
    max_precision_length st1 = max_precision_length st /\
    7 <= a_allocated st1 <= SIZE_MAX /\ n < a_allocated st1 /\ a_allocated st <= a_allocated st1).
  { destruct (Z.leb_spec (a_allocated st) n).
    - destruct (grown_size (a_allocated st) n) as (G1 & G2 & G3); auto.
      destruct (size_overflow_p _); [done|]. destruct (negb _); [done|].
      injection E as <-. simpl. split_and!; try done; lia.
    - injection E as <-. split_and!; try done; lia. }
  destruct H1 as (E1 & E2 & E3 & E4 & E5 & E6 & B1 & B2 & B3). clear E. rewrite E1 in H.
  set (k := Z.to_nat n) in *.
  set (l := args st ++ replicate (S k - length (args st)) TYPE_NONE) in *.
  assert (Hl : length l = Nat.max (length (args st)) (S k))
    by (unfold l; rewrite length_app, length_replicate; lia).
  assert (Hold : forall i u, args st !! i = Some u -> l !! i = Some u)
    by (intros i u Hi; unfold l; by apply lookup_app_l_Some).
  assert (Hk : exists u, l !! k = Some u) by (apply lookup_lt_is_Some; lia).
  destruct Hk as [u Hu]. rewrite (nth_lookup_Some _ _ _ _ Hu) in H.
  assert (Hcase : (u = TYPE_NONE /\ st' = set_args st1 (<[k:=t]> l)) \/ (u = t /\ st' = set_args st1 l)).
  { destruct (decide (u = TYPE_NONE)) as [->|Hu0]; [left; by injection H as <-|right].
    destruct u; try done; (case_decide; [|done]); injection H as <-; done. }
  clear H. destruct Hcase as [[-> ->] | [-> ->]]; unfold set_args; split_and!; try done; simpl.
  - split; simpl; rewrite ?length_insert, ?E2, ?E3, ?E4; lia.
  - split; simpl; [|lia..]. intros i v Hv Hi. destruct (decide (i = k)) as [->|Hik].
    + apply Hold in Hi. congruence.
    + rewrite list_lookup_insert_ne by done. auto.
  - split; [lia|]. simpl. fold k. apply list_lookup_insert_eq. lia.
  - eexists; split; [reflexivity|]. by rewrite length_insert.
  - split; simpl; rewrite ?E2, ?E3, ?E4; lia.
  - split; simpl; [|lia..]. intros i v Hv Hi. auto.
  - split; [lia|]. done.
  - eauto.
Qed.

(** The index of an argument that must be an [int], or none. *)
Definition index_ok (st : parse_state) (i : Z) : Prop :=
  i = ARG_NONE \/ (i <> ARG_NONE /\ typed st i TYPE_INT).

Lemma index_ok_later st st' i : later st st' -> index_ok st i -> index_ok st' i.
Proof using Type. intros Hl [Hi|[Hi Ht]]; [by left|right; split; [done|by apply (typed_later st)]]. Qed.

Lemma next_arg_ok st i i' st' :
  ok_state st -> 0 <= i <= SIZE_MAX -> next_arg st i = Ok (i', st') ->
  ok_state st' /\ later st st' /\ dirs st' = dirs st /\ args st' = args st /\ 0 <= i' < SIZE_MAX.
Proof using Type.
  intros [Ha Hd Has Hds Hp] Hi H. unfold next_arg, ARG_NONE in H.
  destruct (Z.eqb_spec i SIZE_MAX).
  - destruct (Z.eqb_spec (arg_posn st) SIZE_MAX); [done|]. injection H as <- <-.
    pose proof (wrapw_range 64 ltac:(lia) (arg_posn st + 1)).
    split_and!; try done; try lia; split; simpl; auto; unfold SIZE_MAX in *; lia.
  - injection H as <- <-. split_and!; try done; lia.
Qed.

Lemma star_arg_ok st cp i cp' st' :
  ok_state st -> star_arg sz_argument mal st cp = Ok (i, cp', st') ->
  ok_state st' /\ later st st' /\ dirs st' = dirs st /\ cp' `suffix_of` cp /\ index_ok st' i.
Proof using Type.
  intros Hok H. unfold star_arg in H.
  apply rbind_ok in H as ([i1 cp1] & E1 & H). apply rbind_ok in H as ([i2 st2] & E2 & H).
  apply rbind_ok in H as (st3 & E3 & H). injection H as <- <- <-.
  apply positional_suffix in E1 as [Hs1 Hi1].
  apply next_arg_ok in E2 as (O2 & L2 & D2 & _ & Hi2); auto.
  apply register_arg_ok in E3 as (O3 & L3 & T3 & D3 & _); auto; try done.
  split_and!; auto; [by etransitivity|congruence|].
  right. split; [unfold ARG_NONE; lia|done].
Qed.

Context (fmt : cstr).
Abbreviation len := (length fmt).

(** The text of a width or precision: inside the format and not longer than
    the recorded maximum. *)
Definition text_ok (max : Z) (start stop : option nat) : Prop :=
  match start, stop with
  | None, None => True
  | Some a, Some b => (a <= b <= len)%nat /\ Z.of_nat (b - a) <= max
  | _, _ => False
  end.

Lemma text_ok_mono m m' a b : m <= m' -> text_ok m a b -> text_ok m' a b.
Proof using Type. destruct a, b; simpl; try done. intros ? [? ?]. split; [done|lia]. Qed.

Lemma pos_suffix cp cp' : cp' `suffix_of` cp -> (pos len cp <= pos len cp' <= len)%nat.
Proof using Type. intros H. apply suffix_length in H. unfold pos. lia. Qed.

Lemma pos_drop n cp :
  cp `suffix_of` fmt -> (pos len (drop n cp) <= pos len cp + n)%nat.
Proof using Type. intros H. apply suffix_length in H. unfold pos. rewrite length_drop. lia. Qed.

Lemma parse_width_ok st cp ws we wi cp' st' :
  ok_state st -> cp `suffix_of` fmt ->
  parse_width sz_argument mal len st cp = Ok (ws, we, wi, cp', st') ->
  ok_state st' /\ later st st' /\ dirs st' = dirs st /\ cp' `suffix_of` cp /\
  index_ok st' wi /\ text_ok (max_width_length st') ws we.
Proof using Type.
  intros Hok Hcp H. unfold parse_width in H. cbv zeta in H.
  destruct (cur cp =? chr "*"); [|destruct (is_dec (cur cp))].
  - apply rbind_ok in H as ([[i1 cp1] st1] & E1 & H). injection H as <- <- <- <- <-.
    assert (Hok0 : ok_state (ParseState (args st) (a_allocated st) (dirs st) (d_allocated st)
      (arg_posn st) (Z.max (max_width_length st) 1) (max_precision_length st) (n_allocs st)))
      by (destruct Hok; by split).
    apply star_arg_ok in E1 as (O1 & L1 & D1 & S1 & I1); auto.
    split_and!; auto.
    + destruct L1 as [La Lw Lp]; simpl in *. split; auto. lia.
    + etransitivity; [done|apply suffix_drop].
    + pose proof (pos_suffix cp (drop 1 cp) (suffix_drop 1 cp)).
      pose proof (pos_drop 1 cp Hcp). destruct L1 as [_ Lw _]; simpl in Lw.
      split; [lia|]. lia.
  - injection H as <- <- <- <- <-. split_and!; try done.
    + destruct Hok; by split.
    + split; simpl; auto; lia.
    + apply skip_digits_suffix.
    + by left.
    + pose proof (pos_suffix cp _ (skip_digits_suffix cp)). simpl. split; lia.
  - injection H as <- <- <- <- <-. split_and!; try done. by left.
Qed.

Lemma parse_precision_ok st cp ps pe pi cp' st' :
  ok_state st -> cp `suffix_of` fmt ->
  parse_precision sz_argument mal len st cp = Ok (ps, pe, pi, cp', st') ->
  ok_state st' /\ later st st' /\ dirs st' = dirs st /\ cp' `suffix_of` cp /\
  index_ok st' pi /\ text_ok (max_precision_length st') ps pe.
Proof using Type.
  intros Hok Hcp H. unfold parse_precision in H. cbv zeta in H.
  destruct (cur cp =? chr "."); [destruct (cur (drop 1 cp) =? chr "*")|].
  - apply rbind_ok in H as ([[i1 cp1] st1] & E1 & H). injection H as <- <- <- <- <-.
    assert (Hok0 : ok_state (ParseState (args st) (a_allocated st) (dirs st) (d_allocated st)
      (arg_posn st) (max_width_length st) (Z.max (max_precision_length st) 2) (n_allocs st)))
      by (destruct Hok; by split).
    apply star_arg_ok in E1 as (O1 & L1 & D1 & S1 & I1); auto.
    rewrite drop_drop in S1 |- *.
    split_and!; auto.
    + destruct L1 as [La Lw Lp]; simpl in *. split; auto. lia.
    + etransitivity; [done|apply suffix_drop].
    + pose proof (pos_suffix cp (drop 2 cp) (suffix_drop 2 cp)).
      pose proof (pos_drop 2 cp Hcp). destruct L1 as [_ _ Lp]; simpl in Lp.
      simpl Nat.add. split; lia.
  - injection H as <- <- <- <- <-.
    assert (Hs : skip_digits (drop 1 cp) `suffix_of` cp)
      by (etransitivity; [apply skip_digits_suffix|apply suffix_drop]).
    split_and!; try done.
    + destruct Hok; by split.
    + split; simpl; auto; lia.
    + by left.
    + pose proof (pos_suffix cp _ Hs). simpl. split; lia.
  - injection H as <- <- <- <- <-. split_and!; try done. by left.
Qed.

Lemma push_directive_ok st dp st' :
  ok_state st -> push_directive sz_directive mal st dp = Ok st' ->
  ok_state st' /\ later st st' /\ dirs st' = dirs st ++ [dp] /\ args st' = args st.
Proof using Hsd.
  intros [Ha Hd Has Hds Hp] H. unfold push_directive in H. cbn [d_allocated n_allocs] in H.
  rewrite length_app in H. simpl length in H.
  destruct (Z.leb_spec (d_allocated st) (Z.of_nat (length (dirs st) + 1))).
  - destruct (Z.eq_dec (xtimes (d_allocated st) 2) SIZE_MAX) as [E|E].
    { by rewrite E, xtimes_overflow in H. }
    destruct (size_overflow_p _); [done|]. destruct (negb _); [done|]. injection H as <-.
    rewrite xtimes_spec in E |- * by lia.
    split_and!; try done; split; simpl; rewrite ?length_app; simpl; auto; lia.
  - injection H as <-. split_and!; try done; split; simpl; rewrite ?length_app; simpl; auto; lia.
Qed.

(** What is recorded for a directive is consistent with the arguments: the
    widths and precisions that are arguments have type [int], and the argument
    has the type that the size specifiers and the conversion ask for. *)
Record dir_ok (st : parse_state) (dp : directive) : Prop := DirOk {
  dok_width : index_ok st (width_arg_index dp);
  dok_width_text : text_ok (max_width_length st) (width_start dp) (width_end dp);
  dok_precision : index_ok st (precision_arg_index dp);
  dok_precision_text : text_ok (max_precision_length st) (precision_start dp) (precision_end dp);
  dok_arg :
    (arg_index dp = ARG_NONE /\ conversion dp = chr "%") \/
    (arg_index dp <> ARG_NONE /\ exists size c t,
       conversion_type size c = Some (t, conversion dp) /\ t <> TYPE_NONE /\
       typed st (arg_index dp) t)
}.

Lemma dir_ok_later st st' dp : later st st' -> dir_ok st dp -> dir_ok st' dp.
Proof using Type.
  intros HL [H1 H2 H3 H4 H5]. pose proof HL as [_ Hw Hp].
  split; eauto using index_ok_later, text_ok_mono.
  destruct H5 as [H5|(Hi & size & c & t & Hc & Ht & Hty)]; [by left|right].
  split; [done|]. exists size, c, t. split_and!; auto. by apply (typed_later st).
Qed.

Lemma conversion_percent size c c' : conversion_type size c = Some (TYPE_NONE, c') -> c' = chr "%".
Proof using Type.
  unfold conversion_type. cbv zeta. intros H.
  repeat match type of H with (if ?b then _ else _) = _ => destruct b eqn:?; [|] end;
    try done;
    try (injection H as H ?; repeat match type of H with
      | (if ?b then _ else _) = _ => destruct b end; done).
  injection H as <-. simpl in *. rewrite orb_false_r in *. by breflect.
Qed.

Lemma parse_directive_ok st start cp cp' st' :
  ok_state st -> cp `suffix_of` fmt ->
  parse_directive sz_argument sz_directive mal len st start cp = Ok (cp', st') ->
  ok_state st' /\ later st st' /\ cp' `suffix_of` cp /\ (length cp' < length cp)%nat /\
  exists dp, dirs st' = dirs st ++ [dp] /\ dir_start dp = start /\ dir_end dp = pos len cp' /\
    dir_ok st' dp.
Proof using Hsa Hsd.
  intros Hok Hcp H. unfold parse_directive in H.
  apply rbind_ok in H as ([i0 cp0] & E0 & H). apply positional_suffix in E0 as [S0 Hi0].
  pose proof (read_flags_suffix 0 cp0) as S1. destruct (read_flags 0 cp0) as [fl cp1]. simpl in S1.
  apply rbind_ok in H as ([[[[ws we] wi] cp2] st2] & E2 & H).
  assert (F1 : cp1 `suffix_of` fmt) by suffix_chain.
  apply parse_width_ok in E2 as (O2 & L2 & D2 & S2 & I2 & T2); auto.
  apply rbind_ok in H as ([[[[ps pe] pi] cp3] st3] & E3 & H).
  assert (F2 : cp2 `suffix_of` fmt) by suffix_chain.
  apply parse_precision_ok in E3 as (O3 & L3 & D3 & S3 & I3 & T3); auto.
  pose proof (read_size_suffix 0 cp3) as S4. destruct (read_size 0 cp3) as [size cp4]. simpl in S4.
  destruct cp4 as [|c cp5]; [done|].
  destruct (conversion_type size c) as [[t c']|] eqn:Ec; [|done].
  apply rbind_ok in H as ([i4 st4] & E4 & H). apply rbind_ok in H as (st5 & E5 & H).
  injection H as <- <-.
  assert (S5 : cp5 `suffix_of` cp).
  { assert (cp5 `suffix_of` c :: cp5) by (by exists [c]). suffix_chain. }
  assert (Hlt : (length cp5 < length cp)%nat).
  { assert (Hc5 : c :: cp5 `suffix_of` cp) by suffix_chain.
    apply suffix_length in Hc5. simpl in Hc5. lia. }
  assert (H4 : ok_state st4 /\ later st3 st4 /\ dirs st4 = dirs st3 /\
    ((i4 = ARG_NONE /\ c' = chr "%") \/
     (i4 <> ARG_NONE /\ exists size c t, conversion_type size c = Some (t, c') /\ t <> TYPE_NONE /\
        typed st4 i4 t))).
  { destruct (decide (t = TYPE_NONE)) as [->|Ht].
    - injection E4 as <- <-. split_and!; try done. left. split; [done|].
      by apply conversion_percent in Ec.
    - apply rbind_ok in E4 as ([i5 st6] & E6 & E4). apply rbind_ok in E4 as (st7 & E7 & E4).
      injection E4 as <- <-. apply next_arg_ok in E6 as (O6 & L6 & D6 & _ & Hi6); auto.
      apply register_arg_ok in E7 as (O7 & L7 & T7 & D7 & _); auto.
      split_and!; auto; [by etransitivity|congruence|]. right.
      split; [unfold ARG_NONE; lia|]. exists size, c, t. auto. }
  destruct H4 as (O4 & L4 & D4 & A4).
  apply push_directive_ok in E5 as (O5 & L5 & D5 & A5); auto.
  split_and!; auto.
  - etransitivity; [exact L2|]. etransitivity; [exact L3|]. by etransitivity.
  - eexists. split_and!; [rewrite D5; f_equal; congruence|done|done|].
    apply (dir_ok_later st4); [done|].
    split; simpl; eauto using index_ok_later, text_ok_mono, later_width, later_precision.
Qed.

(** The directives [l] and the literal text between them make up the format
    from offset [p] on: every percent sign starts a directive or is inside one. *)
Fixpoint covers (p : nat) (l : list directive) : Prop :=
  match l with
  | [] => forall i, (p <= i)%nat -> fmt !! i <> Some (chr "%")
  | d :: l =>
      (p <= dir_start d)%nat /\
      (forall i, (p <= i < dir_start d)%nat -> fmt !! i <> Some (chr "%")) /\
      fmt !! dir_start d = Some (chr "%") /\
      (dir_start d < dir_end d <= len)%nat /\
      covers (dir_end d) l
  end.

Lemma suffix_lookup cp i : cp `suffix_of` fmt -> fmt !! (pos len cp + i)%nat = cp !! i.
Proof using Type.
  intros [k ->]. unfold pos. rewrite length_app.
  replace (length k + length cp - length cp + i)%nat with (length k + i)%nat by lia.
  rewrite lookup_app_r by lia. f_equal. lia.
Qed.

Lemma covers_skip c cp l :
  c :: cp `suffix_of` fmt -> c <> chr "%" -> covers (pos len cp) l -> covers (pos len (c :: cp)) l.
Proof using Type.
  intros Hs Hc. pose proof (suffix_length _ _ Hs) as Hlen.
  assert (Hp : pos len cp = S (pos len (c :: cp))) by (unfold pos; simpl in *; lia).
  pose proof (suffix_lookup _ 0 Hs) as H0. rewrite Nat.add_0_r in H0. simpl in H0.
  assert (Hat : fmt !! pos len (c :: cp) <> Some (chr "%")) by congruence.
  destruct l as [|d l]; cbn [covers]; rewrite Hp.
  - intros H i Hi. destruct (decide (i = pos len (c :: cp))) as [->|]; [done|]. apply H. lia.
  - intros (H1 & H2 & H3). split; [lia|]. split; [|done].
    intros i Hi. destruct (decide (i = pos len (c :: cp))) as [->|]; [done|]. apply H2. lia.
Qed.

Lemma parse_loop_ok fuel st cp st' :
  ok_state st -> cp `suffix_of` fmt ->
  parse_loop sz_argument sz_directive mal len fuel st cp = Some (Ok st') ->
  ok_state st' /\ later st st' /\
  exists l, dirs st' = dirs st ++ l /\ covers (pos len cp) l /\ Forall (dir_ok st') l.
Proof using Hsa Hsd.
  revert st cp. induction fuel as [|fuel IH]; intros st cp Hok Hcp H; [done|].
  cbn [parse_loop] in H. destruct cp as [|c cp].
  - injection H as <-. split_and!; [done|done|]. exists []. rewrite app_nil_r.
    split_and!; [done| |constructor]. intros i Hi. unfold pos in Hi. simpl in Hi.
    rewrite lookup_ge_None_2 by lia. done.
  - assert (Hcp' : cp `suffix_of` fmt) by (etransitivity; [exists [c]; reflexivity|done]).
    destruct (Z.eqb_spec c (chr "%")) as [->|Hc].
    + destruct (parse_directive _ _ _ _ _ _ _) as [[cp1 st1]| |] eqn:E; try done.
      apply parse_directive_ok in E as (O1 & L1 & S1 & Hlt & dp & D1 & Hst & Hend & Hdp); auto.
      assert (Hcp1 : cp1 `suffix_of` fmt) by (by etransitivity).
      destruct (IH st1 cp1 O1 Hcp1 H) as (O2 & L2 & l & D2 & C2 & F2).
      split_and!; [done|by etransitivity|]. exists (dp :: l). split_and!.
      * by rewrite D2, D1, <- app_assoc.
      * pose proof (suffix_lookup _ 0 Hcp) as H0. rewrite Nat.add_0_r in H0. simpl in H0.
        pose proof (suffix_length _ _ Hcp). simpl in H1. pose proof (suffix_length _ _ Hcp1).
        cbn [covers]. rewrite Hst, Hend. split_and!; auto; [intros; lia|unfold pos; simpl; lia..].
      * constructor; [by apply (dir_ok_later st1)|done].
    + destruct (IH st cp Hok Hcp' H) as (O2 & L2 & l & D2 & C2 & F2).
      split_and!; auto. exists l. split_and!; auto. by apply covers_skip.
Qed.

(** ** Termination *)

Lemma parse_loop_total fuel st cp :
  ok_state st -> cp `suffix_of` fmt -> (length cp < fuel)%nat ->
  is_Some (parse_loop sz_argument sz_directive mal len fuel st cp).
Proof using Hsa Hsd.
  revert st cp. induction fuel as [|fuel IH]; intros st cp Hok Hcp Hf; [lia|].
  cbn [parse_loop]. destruct cp as [|c cp]; [eauto|]. simpl in Hf.
  assert (Hcp' : cp `suffix_of` fmt) by (etransitivity; [exists [c]; reflexivity|done]).
  destruct (c =? chr "%"); [|apply IH; auto; lia].
  destruct (parse_directive _ _ _ _ _ _ _) as [[cp1 st1]| |] eqn:E; eauto.
  apply parse_directive_ok in E as (O1 & _ & S1 & Hlt & _); auto.
  apply IH; [done|suffix_chain|lia].
Qed.

(** ** Formats without positional arguments *)

(** The argument indices a directive uses, in the order it consumes them. *)
Definition used_args (dp : directive) : list Z :=
  filter (.≠ ARG_NONE) [width_arg_index dp; precision_arg_index dp; arg_index dp].

(** Arguments [0 .. arg_posn - 1] were taken, each with a type. *)
Record seq_state (st : parse_state) : Prop := SeqState {
  seq_posn : arg_posn st = Z.of_nat (length (args st));
  seq_typed : TYPE_NONE ∉ args st
}.

(** From [st] to [st'] the arguments [l] were taken, in sequence. *)
Definition took (st st' : parse_state) (l : list Z) : Prop :=
  seq_state st' /\ l = map Z.of_nat (seq (length (args st)) (length (args st') - length (args st))) /\
  (length (args st) <= length (args st'))%nat.

Lemma took_nil st st' : seq_state st -> arg_posn st' = arg_posn st -> args st' = args st -> took st st' [].
Proof using Type.
  intros [H1 H2] Ep Ea. split_and!; [split; congruence| |by rewrite Ea].
  by rewrite Ea, Nat.sub_diag.
Qed.

Lemma took_app st st1 st2 l1 l2 : took st st1 l1 -> took st1 st2 l2 -> took st st2 (l1 ++ l2).
Proof using Type.
  intros (S1 & -> & L1) (S2 & -> & L2). split_and!; [done| |lia].
  rewrite <- map_app. f_equal.
  replace (length (args st2) - length (args st))%nat with
    ((length (args st1) - length (args st)) + (length (args st2) - length (args st1)))%nat by lia.
  rewrite seq_app. repeat f_equal; lia.
Qed.

Lemma no_positional cp : chr "$" ∉ cp -> positional cp = Ok (ARG_NONE, cp).
Proof using Type.
  intros Hd. unfold positional. destruct (is_dec (cur cp)); [|done].
  destruct (Z.eqb_spec (cur (skip_digits cp)) (chr "$")) as [E|]; [|done].
  exfalso. apply Hd. destruct (skip_digits_suffix cp) as [k Hk]. rewrite Hk.
  apply elem_of_app. right. destruct (skip_digits cp) as [|c l]; [done|]. simpl in E. subst c.
  apply list_elem_of_here.
Qed.

Lemma take_arg st i st1 st2 t :
  ok_state st -> seq_state st -> t <> TYPE_NONE ->
  next_arg st ARG_NONE = Ok (i, st1) -> register_arg sz_argument mal st1 i t = Ok st2 ->
  took st st2 [i] /\ i <> ARG_NONE.
Proof using Type.
  intros Hok [Hp Hn] Ht E1 E2. pose proof E1 as E1'.
  apply next_arg_ok in E1 as (O1 & L1 & D1 & A1 & Hi); auto; [|unfold ARG_NONE, SIZE_MAX; lia].
  unfold next_arg in E1'. rewrite Z.eqb_refl in E1'.
  destruct (Z.eqb_spec (arg_posn st) ARG_NONE); [done|]. injection E1' as <- <-.
  pose proof E2 as E2'. apply register_arg_ok in E2 as (O2 & L2 & T2 & D2 & P2 & l & <- & Hl); auto.
  simpl in *. split; [|done]. rewrite wrapw_small in P2 by (unfold SIZE_MAX in *; lia).
  rewrite Hp in Hl, T2. rewrite Nat2Z.id in Hl.
  assert (Hl2 : length (args st2) = S (length (args st))) by lia.
  split_and!; [split; [lia|]| |lia].
  - intros Hin. apply list_elem_of_lookup in Hin as [k Hk].
    pose proof (lookup_lt_Some _ _ _ Hk). destruct T2 as [_ T2]. rewrite Nat2Z.id in T2.
    destruct (decide (k = length (args st))) as [->|]; [congruence|].
    destruct (lookup_lt_is_Some_2 (args st) k) as [u Hu]; [lia|].
    assert (u <> TYPE_NONE) by (intros ->; apply Hn; by eapply list_elem_of_lookup_2).
    pose proof (later_args _ _ L2 k u ltac:(done) Hu). congruence.
  - rewrite Hl2. replace (S _ - _)%nat with 1%nat by lia. simpl. by rewrite Hp.
Qed.

Lemma seq_star st cp i cp' st' :
  ok_state st -> seq_state st -> chr "$" ∉ cp ->
  star_arg sz_argument mal st cp = Ok (i, cp', st') -> took st st' [i] /\ i <> ARG_NONE.
Proof using Type.
  intros Hok Hs Hd H. unfold star_arg in H. rewrite no_positional in H by done.
  apply rbind_ok in H as ([i1 cp1] & [= <- <-] & H).
  apply rbind_ok in H as ([i2 st2] & E2 & H). apply rbind_ok in H as (st3 & E3 & H).
  injection H as <- <- <-. by apply (take_arg st i2 st2 st3 TYPE_INT).
Qed.

Lemma not_elem_suffix (c : Z) l l' : l' `suffix_of` l -> c ∉ l -> c ∉ l'.
Proof using Type. intros [k ->] H ?. apply H, elem_of_app. by right. Qed.

Definition taken (i : Z) : list Z := filter (.≠ ARG_NONE) [i].

Lemma taken_index i : i <> ARG_NONE -> taken i = [i].
Proof using Type. intros H. unfold taken. by rewrite filter_cons_True. Qed.

Lemma seq_width st cp ws we wi cp' st' :
  ok_state st -> seq_state st -> chr "$" ∉ cp ->
  parse_width sz_argument mal len st cp = Ok (ws, we, wi, cp', st') -> took st st' (taken wi).
Proof using Type.
  intros Hok Hs Hd H. unfold parse_width in H. cbv zeta in H.
  destruct (cur cp =? chr "*"); [|destruct (is_dec (cur cp))].
  - apply rbind_ok in H as ([[i1 cp1] st1] & E1 & H). injection H as <- <- <- <- <-.
    apply seq_star in E1 as [T1 Hi]; [by rewrite taken_index|by destruct Hok; split|by destruct Hs; split|].
    by eapply not_elem_suffix; [apply suffix_drop|].
  - injection H as <- <- <- <- <-. by apply took_nil.
  - injection H as <- <- <- <- <-. by apply took_nil.
Qed.

Lemma seq_precision st cp ps pe pi cp' st' :
  ok_state st -> seq_state st -> chr "$" ∉ cp ->
  parse_precision sz_argument mal len st cp = Ok (ps, pe, pi, cp', st') -> took st st' (taken pi).
Proof using Type.
  intros Hok Hs Hd H. unfold parse_precision in H. cbv zeta in H.
  destruct (cur cp =? chr "."); [destruct (cur (drop 1 cp) =? chr "*")|].
  - apply rbind_ok in H as ([[i1 cp1] st1] & E1 & H). injection H as <- <- <- <- <-.
    apply seq_star in E1 as [T1 Hi]; [by rewrite taken_index|by destruct Hok; split|by destruct Hs; split|].
    do 2 (eapply not_elem_suffix; [apply suffix_drop|]). done.
  - injection H as <- <- <- <- <-. by apply took_nil.
  - injection H as <- <- <- <- <-. by apply took_nil.
Qed.

Lemma push_posn st dp st' :
  push_directive sz_directive mal st dp = Ok st' -> arg_posn st' = arg_posn st.
Proof using Type.
  unfold push_directive. cbv zeta. intros H.
  destruct (_ <=? _); [destruct (size_overflow_p _); [done|]; destruct (negb _); [done|]|];
    by injection H as <-.
Qed.

Lemma used_args_taken dp :
  used_args dp = taken (width_arg_index dp) ++ taken (precision_arg_index dp) ++ taken (arg_index dp).
Proof using Type. unfold used_args, taken. by rewrite <- !filter_app. Qed.

Lemma seq_directive st start cp cp' st' :
  ok_state st -> cp `suffix_of` fmt -> seq_state st -> chr "$" ∉ cp ->
  parse_directive sz_argument sz_directive mal len st start cp = Ok (cp', st') ->
  exists dp, dirs st' = dirs st ++ [dp] /\ took st st' (used_args dp).
Proof using Hsa Hsd.
  intros Hok Hcp Hs Hd H. unfold parse_directive in H. rewrite no_positional in H by done.
  apply rbind_ok in H as ([i0 cp0] & [= <- <-] & H).
  pose proof (read_flags_suffix 0 cp) as S1. destruct (read_flags 0 cp) as [fl cp1]. simpl in S1.
  apply rbind_ok in H as ([[[[ws we] wi] cp2] st2] & E2 & H).
  assert (F1 : cp1 `suffix_of` fmt) by suffix_chain.
  pose proof (seq_width _ _ _ _ _ _ _ Hok Hs (not_elem_suffix _ _ _ S1 Hd) E2) as T2.
  apply parse_width_ok in E2 as (O2 & L2 & D2 & S2 & _); auto.
  apply rbind_ok in H as ([[[[ps pe] pi] cp3] st3] & E3 & H).
  assert (F2 : cp2 `suffix_of` fmt) by suffix_chain.
  assert (N2 : chr "$" ∉ cp2) by (apply (not_elem_suffix _ cp); [suffix_chain|done]).
  pose proof (seq_precision _ _ _ _ _ _ _ O2 (proj1 T2) N2 E3) as T3.
  apply parse_precision_ok in E3 as (O3 & L3 & D3 & S3 & _); auto.
  destruct (read_size 0 cp3) as [size cp4]. destruct cp4 as [|c cp5]; [done|].
  destruct (conversion_type size c) as [[t c']|] eqn:Ec; [|done].
  apply rbind_ok in H as ([i4 st4] & E4 & H). apply rbind_ok in H as (st5 & E5 & H).
  injection H as <- <-.
  assert (T4 : ok_state st4 /\ dirs st4 = dirs st3 /\ took st3 st4 (taken i4)).
  { destruct (decide (t = TYPE_NONE)) as [->|Ht].
    - injection E4 as <- <-. split_and!; try done. by apply took_nil; [apply T3|..].
    - apply rbind_ok in E4 as ([i5 st6] & E6 & E4). apply rbind_ok in E4 as (st7 & E7 & E4).
      injection E4 as <- <-.
      destruct (take_arg _ _ _ _ _ O3 (proj1 T3) Ht E6 E7) as [T Hi].
      apply next_arg_ok in E6 as (O6 & _ & D6 & _ & Hi6); [|done|unfold ARG_NONE, SIZE_MAX; lia].
      apply register_arg_ok in E7 as (O7 & _ & _ & D7 & _); auto.
      split_and!; [done|congruence|by rewrite taken_index]. }
  destruct T4 as (O4 & D4 & T4). pose proof (push_posn _ _ _ E5) as P5.
  apply push_directive_ok in E5 as (O5 & L5 & D5 & A5); auto.
  eexists. split; [rewrite D5; f_equal; congruence|]. rewrite used_args_taken. simpl.
  eapply took_app; [exact T2|]. eapply took_app; [exact T3|].
  rewrite <- (app_nil_r (taken i4)). eapply took_app; [exact T4|].
  apply took_nil; [apply T4|done..].
Qed.

Lemma seq_loop fuel st cp st' :
  ok_state st -> cp `suffix_of` fmt -> seq_state st -> chr "$" ∉ cp ->
  parse_loop sz_argument sz_directive mal len fuel st cp = Some (Ok st') ->
  exists l, dirs st' = dirs st ++ l /\ took st st' (mbind used_args l).
Proof using Hsa Hsd.
  revert st cp. induction fuel as [|fuel IH]; intros st cp Hok Hcp Hs Hd H; [done|].
  cbn [parse_loop] in H. destruct cp as [|c cp].
  - injection H as <-. exists []. rewrite app_nil_r. split; [done|]. by apply took_nil.
  - assert (Hcp' : cp `suffix_of` fmt) by (etransitivity; [exists [c]; reflexivity|done]).
    apply not_elem_of_cons in Hd as [_ Hd].
    destruct (Z.eqb_spec c (chr "%")) as [->|Hc]; [|eauto].
    destruct (parse_directive _ _ _ _ _ _ _) as [[cp1 st1]| |] eqn:E; try done.
    destruct (seq_directive _ _ _ _ _ Hok Hcp' Hs Hd E) as (dp & D1 & T1).
    apply parse_directive_ok in E as (O1 & L1 & S1 & Hlt & _); auto.
    assert (Hcp1 : cp1 `suffix_of` fmt) by suffix_chain.
    destruct (IH st1 cp1 O1 Hcp1 (proj1 T1) (not_elem_suffix _ _ _ S1 Hd) H) as (l & D2 & T2).
    exists (dp :: l). split; [by rewrite D2, D1, <- app_assoc|].
    change (mbind used_args (dp :: l)) with (used_args dp ++ mbind used_args l).
    by eapply took_app.
Qed.
End Spec.

Lemma init_ok : ok_state init_state.
Proof. split; simpl; unfold N_DIRECT_ALLOC_ARGUMENTS, N_DIRECT_ALLOC_DIRECTIVES, SIZE_MAX; lia. Qed.

(** ** Theorems *)

(** C39. When [PRINTF_PARSE] succeeds, its two arrays hold their elements
    within the allocated sizes (the directives array including the terminating
    element); the directives partition the format: they follow each other, each
    starts at a percent sign, and no other percent sign of the format is outside
    one; and each directive is consistent with the recorded argument types and
    with the maximum lengths of width and precision. *)
Theorem PRINTF_PARSE_ok (sz_argument sz_directive : Z) (mal : nat -> Z -> bool) (format : cstr)
    (st : parse_state) (Hsa : 0 < sz_argument) (Hsd : 0 < sz_directive)
    (H : PRINTF_PARSE sz_argument sz_directive mal format = Some (Ok st)) :
  ok_state st /\ covers format 0 (dirs st) /\ Forall (dir_ok format st) (dirs st).
Proof.
  destruct (parse_loop_ok sz_argument sz_directive Hsa Hsd mal format _ _ _ _ init_ok
    (reflexivity format) H) as (O & _ & l & D & C & F).
  simpl in D. rewrite D. unfold pos in C. by rewrite Nat.sub_diag in C.
Qed.

(** The state the model computes for a format with two directives. *)
Definition sample_format : cstr := cs "%-5d of %*s".
Definition sample_state : parse_state :=
  match PRINTF_PARSE 32 88 (fun _ _ => true) sample_format with
  | Some (Ok st) => st
  | _ => init_state
  end.

Lemma PRINTF_PARSE_ok_witness :
  PRINTF_PARSE 32 88 (fun _ _ => true) sample_format = Some (Ok sample_state) /\
  Forall (dir_ok sample_format sample_state) (dirs sample_state).
Proof.
  assert (H : PRINTF_PARSE 32 88 (fun _ _ => true) sample_format = Some (Ok sample_state))
    by (vm_compute; reflexivity).
  split; [exact H|].
  exact (proj2 (proj2 (PRINTF_PARSE_ok 32 88 (fun _ _ => true) sample_format sample_state
    eq_refl eq_refl H))).
Defined.

(** [PRINTF_PARSE] always terminates: the loop runs at most once per
    character of the format. *)
Theorem PRINTF_PARSE_total (sz_argument sz_directive : Z) (mal : nat -> Z -> bool) (format : cstr)
    (Hsa : 0 < sz_argument) (Hsd : 0 < sz_directive) :
  is_Some (PRINTF_PARSE sz_argument sz_directive mal format).
Proof. apply parse_loop_total; auto using init_ok. Qed.

Lemma PRINTF_PARSE_total_witness : is_Some (PRINTF_PARSE 32 88 (fun _ _ => false) (cs "%9999$d")).
Proof. apply (PRINTF_PARSE_total 32 88); reflexivity. Defined.

(** A value of a type, as a caller must pass it. *)
Definition passes (t : arg_type) (v : va_value) : Prop := is_Some (fetch t v).

Lemma passes_not_none t v : passes t v -> t <> TYPE_NONE.
Proof. intros [w H] ->. done. Qed.

Lemma FETCHARGS_ok types va more :
  Forall2 passes types va ->
  exists l, PRINTF_FETCHARGS types (va ++ more) = Fetched l /\
    Forall2 (fun '(t, v) w => fetch t v = Some w) (zip types va) l.
Proof.
  induction 1 as [|t v types va Hp _ (l & E & Hl)]; simpl; [exists []; by split|].
  rewrite decide_False by (by eapply passes_not_none). destruct Hp as [w Hw].
  rewrite Hw, E. exists (w :: l). split; [done|]. by constructor.
Qed.

Lemma FETCHARGS_none types va types' va' :
  Forall2 passes types va -> PRINTF_FETCHARGS (types ++ TYPE_NONE :: types') (va ++ va') = FetchFailed.
Proof.
  induction 1 as [|t v types va Hp _ IH]; simpl; [done|].
  rewrite decide_False by (by eapply passes_not_none). destruct Hp as [w ->]. by rewrite IH.
Qed.

Definition null_value (v : va_value) : bool :=
  match v with VString None | VWideString None => true | _ => false end.

Lemma fetch_not_null t v w : fetch t v = Some w -> null_value w = false.
Proof. destruct t, v; simpl; intros [= <-]; done. Qed.

(** [PRINTF_FETCHARGS] stores every argument, when the caller passes values
    of the types the format asks for, with null strings replaced; and it
    returns -1, having read exactly the arguments before it, at the first
    argument without a type (a gap in the numbering of a positional format). *)
Theorem PRINTF_FETCHARGS_correct (types types' : list arg_type) (va va' : list va_value)
    (Hp : Forall2 passes types va) :
  PRINTF_FETCHARGS (types ++ TYPE_NONE :: types') (va ++ va') = FetchFailed /\
  exists l, PRINTF_FETCHARGS types (va ++ va') = Fetched l /\
    Forall2 (fun '(t, v) w => fetch t v = Some w) (zip types va) l /\
    Forall (fun w => null_value w = false) l.
Proof.
  split; [by apply FETCHARGS_none|]. destruct (FETCHARGS_ok types va va' Hp) as (l & E & Hl).
  exists l. split_and!; [done..|]. apply Forall_forall. intros w Hw.
  apply list_elem_of_lookup in Hw as [i Hi].
  destruct (Forall2_lookup_r _ _ _ _ _ Hl Hi) as ([t v] & _ & Hf). by eapply fetch_not_null.
Qed.

Lemma PRINTF_FETCHARGS_correct_witness :
  PRINTF_FETCHARGS [TYPE_SCHAR; TYPE_STRING; TYPE_NONE; TYPE_INT] [VInt 200; VString None] = FetchFailed /\
  PRINTF_FETCHARGS [TYPE_SCHAR; TYPE_STRING] [VInt 200; VString None] =
    Fetched [VInt (-56); VString (Some null_string)].
Proof.
  split; [|reflexivity].
  apply (PRINTF_FETCHARGS_correct [TYPE_SCHAR; TYPE_STRING] [TYPE_INT] [VInt 200; VString None] []).
  repeat constructor; eexists; reflexivity.
Defined.

(** In a format without a dollar sign the directives consume the arguments
    in order, [0, 1, 2, ...], a width before a precision before the converted
    value, every argument gets a type, and so [PRINTF_FETCHARGS] succeeds on every
    list of values of these types. *)
Theorem PRINTF_PARSE_sequential (sz_argument sz_directive : Z) (mal : nat -> Z -> bool)
    (format : cstr) (st : parse_state) (Hsa : 0 < sz_argument) (Hsd : 0 < sz_directive)
    (Hd : chr "$" ∉ format)
    (H : PRINTF_PARSE sz_argument sz_directive mal format = Some (Ok st)) :
  mbind used_args (dirs st) = map Z.of_nat (seq 0 (length (args st))) /\
  (TYPE_NONE ∉ args st) /\
  forall va, Forall2 passes (args st) va -> exists l, PRINTF_FETCHARGS (args st) va = Fetched l.
Proof.
  assert (Hs : seq_state init_state) by (split; [done|apply not_elem_of_nil]).
  destruct (seq_loop sz_argument sz_directive Hsa Hsd mal format _ _ _ _ init_ok
    (reflexivity format) Hs Hd H) as (l & D & [_ Ht] & T & _).
  simpl in D, T. rewrite Nat.sub_0_r in T. split_and!; [by rewrite D, T|done|].
  intros va Hva. destruct (FETCHARGS_ok _ _ [] Hva) as (l' & E & _).
  rewrite app_nil_r in E. eauto.
Qed.

Lemma PRINTF_PARSE_sequential_witness :
  mbind used_args (dirs sample_state) = [0; 1; 2].
Proof.
  refine (proj1 (PRINTF_PARSE_sequential 32 88 (fun _ _ => true) sample_format sample_state _ _ _ _)).
  - reflexivity.
  - reflexivity.
  - apply (bool_decide_unpack _). vm_compute. reflexivity.
  - vm_compute. reflexivity.
Defined.
