(* ===== verification/Vasnprintf.v ===== *)
(** * Formatted output: the output loop of vasnprintf.c

    [VASNPRINTF] is the [char] instance of libintl on a system whose C library has
    snprintf(); intl.m4 does not define HAVE_SNPRINTF_RETVAL_C99 and none of the
    NEED_PRINTF macros, so that padding and precision are left to
    snprintf(), and wide strings are converted here.  Whether ["%n"] is appended to the
    directive depends on the C library ([glibc]).

    The C library's snprintf() and wcrtomb() are the classes [Snprintf] and [Wcrtomb].
    The output is accumulated in the caller's buffer or on the heap; an access outside the
    memory that is there, and abort(), are [Undef]. *)

From S2P Require Import Prelude PrintfParse.

Open Scope Z_scope.

(** ** The C library *)

(** What a call of snprintf() does: the bytes it stores, NUL included; its result; what a
    ["%n"] at the end of the format stores, if it is reached; errno (0 if unchanged). *)
Record snp := Snp { snp_out : list Z; snp_ret : Z; snp_count : option Z; snp_errno : Z }.

(** [snprintf (s, maxlen, format, prefixes..., arg, &count)] *)
Class Snprintf := snprintf : forall (maxlen : Z) (format : cstr) (prefixes : list Z) (arg : va_value), snp.

(** [wcrtomb (cbuf, wc, &state)]: the bytes and the next state, [None] for [(size_t) -1]. *)
Class Wcrtomb := {
  mbstate : Type;
  mbstate_init : mbstate;
  wcrtomb : Z -> mbstate -> option (list Z * mbstate);
  MB_CUR_MAX : Z
}.

(** ** State and errors *)

Inductive errno := ENOMEM | EOVERFLOW | EILSEQ | EINVAL | Errno (e : Z).

(** The caller's buffer ([None] for a null [resultbuf]); the memory allocated for [result], if
    [result != resultbuf]; the variables [allocated] and [length]; the number of calls of
    malloc() and realloc() so far, the number of blocks that are allocated for [result] and [buf]; what [%n]
    stored: the pointer, its type and the value. *)
Record vstate := VState {
  v_user : option (list Z);
  v_heap : option (list Z);
  v_allocated : Z;
  v_length : Z;
  v_mallocs : nat;
  v_blocks : Z;
  v_counts : list (Z * arg_type * Z)
}.

Definition with_length (s : vstate) (l : Z) : vstate :=
  VState (v_user s) (v_heap s) (v_allocated s) l (v_mallocs s) (v_blocks s) (v_counts s).
Definition with_allocated (s : vstate) (a : Z) : vstate :=
  VState (v_user s) (v_heap s) a (v_length s) (v_mallocs s) (v_blocks s) (v_counts s).
Definition with_count (s : vstate) (c : Z * arg_type * Z) : vstate :=
  VState (v_user s) (v_heap s) (v_allocated s) (v_length s) (v_mallocs s) (v_blocks s) (v_counts s ++ [c]).

(** The memory [result] points to. *)
Definition v_result (s : vstate) : option (list Z) := match v_heap s with Some l => Some l | None => v_user s end.

(** A result, a jump to one of the error exits, or abort() and accesses outside memory. *)
Inductive outcome (A : Type) := Run (x : A) (s : vstate) | Failed (e : errno) (s : vstate) | Undef.
Arguments Run {A}.
Arguments Failed {A}.
Arguments Undef {A}.

Definition vprog (A : Type) : Type := vstate -> outcome A.

#[export] Instance vprog_ret : MRet vprog := fun A x s => Run x s.
#[export] Instance vprog_bind : MBind vprog := fun A B f c s =>
  match c s with Run x s => f x s | Failed e s => Failed e s | Undef => Undef end.

Definition get_state : vprog vstate := fun s => Run s s.
Definition put_state (s : vstate) : vprog unit := fun _ => Run tt s.
Definition fail {A} (e : errno) : vprog A := fun s => Failed e s.
Definition abort {A} : vprog A := fun _ => Undef.
Definition lift {A} (o : option A) : vprog A := match o with Some x => mret x | None => abort end.

(** Stores bytes into [l] at an offset. *)
Definition store_at (off : nat) (bytes l : list Z) : list Z :=
  take off l ++ bytes ++ drop (off + length bytes) l.

(** Stores at [result + off]. *)
Definition store (off : Z) (bytes : list Z) : vprog unit := fun s =>
  match v_heap s, v_user s with
  | Some l, u =>
      if off + Z.of_nat (length bytes) <=? Z.of_nat (length l) then
        Run tt (VState u (Some (store_at (Z.to_nat off) bytes l)) (v_allocated s) (v_length s) (v_mallocs s) (v_blocks s) (v_counts s))
      else Undef
  | None, Some l =>
      if off + Z.of_nat (length bytes) <=? Z.of_nat (length l) then
        Run tt (VState (Some (store_at (Z.to_nat off) bytes l)) None (v_allocated s) (v_length s) (v_mallocs s) (v_blocks s) (v_counts s))
      else Undef
  | None, None => if (length bytes =? 0)%nat then Run tt s else Undef
  end.

(** The byte at [result + off]. *)
Definition load (off : Z) : vprog Z := fun s =>
  match v_result s with
  | Some l => match l !! Z.to_nat off with Some c => Run c s | None => Undef end
  | None => Undef
  end.

Section Vasnprintf.
Context `{!Snprintf, !Wcrtomb}.
(** glibc >= 2.3: ["%n"] is not used, and the [I] flag is. *)
Context (glibc : bool).
(** malloc() and realloc(): whether the n-th call succeeds, and what new memory contains. *)
Context (mal : nat -> Z -> bool) (garbage : nat -> nat -> Z).

Definition fresh_bytes (n : nat) (size : Z) : list Z := map (garbage n) (seq 0 (Z.to_nat size)).

(** The macro ENSURE_ALLOCATION. *)
Definition ENSURE_ALLOCATION (needed : Z) : vprog unit := fun s =>
  if needed <=? v_allocated s then Run tt s
  else
    let allocated := if 0 <? v_allocated s then xtimes (v_allocated s) 2 else 12 in
    let allocated := if allocated <? needed then needed else allocated in
    let s := with_allocated s allocated in
    let memory_size := xtimes allocated 1 in
    if size_overflow_p memory_size then Failed ENOMEM s
    else
      let n := v_mallocs s in
      if negb (mal n memory_size) then
        Failed ENOMEM (VState (v_user s) (v_heap s) allocated (v_length s) (S n) (v_blocks s) (v_counts s))
      else
        let memory := fresh_bytes n memory_size in
        match v_heap s with
        | Some l => (* realloc *)
            let memory := take (Z.to_nat memory_size) (l ++ drop (length l) memory) in
            Run tt (VState (v_user s) (Some memory) allocated (v_length s) (S n) (v_blocks s) (v_counts s))
        | None => (* malloc, and a copy of what is there *)
            let moved s l := Run tt (VState (v_user s) (Some l) allocated (v_length s) (S n) (v_blocks s + 1) (v_counts s)) in
            if 0 <? v_length s then
              match v_user s with
              | Some u =>
                  if v_length s <=? Z.of_nat (length u)
                  then moved s (store_at 0 (take (Z.to_nat (v_length s)) u) memory) else Undef
              | None => Undef
              end
            else moved s memory
        end.

(** ENSURE_ALLOCATION (xsum (length, n)), a copy of [n] bytes to [result + length], and
    [length += n]. *)
Definition append (bytes : list Z) : vprog unit :=
  s ← get_state;
  let augmented_length := xsum (v_length s) (Z.of_nat (length bytes)) in
  ENSURE_ALLOCATION augmented_length;;
  store (v_length s) bytes;;
  s ← get_state;
  put_state (with_length s augmented_length).

(** [DCHAR_SET (result + length, ' ', n)] with the allocation before and the increment after it. *)
Definition pad_with_spaces (n : Z) : vprog unit :=
  s ← get_state;
  ENSURE_ALLOCATION (xsum (v_length s) n);;
  store (v_length s) (replicate (Z.to_nat n) (chr " "));;
  s ← get_state;
  put_state (with_length s (wrapw 64 (v_length s + n))).

(** ** Width and precision *)

Section Directives.
(** The format, the types [a.arg[i].type] and values [a.arg[i].a] of the arguments. *)
Context (format : cstr) (types : list arg_type) (values : list va_value).

Definition slice (start stop : nat) : list Z := take (stop - start) (drop start format).

(** [a.arg[i]], for an index that is not [ARG_NONE]. *)
Definition arg_at (i : Z) : option (arg_type * va_value) :=
  t ← types !! Z.to_nat i; v ← values !! Z.to_nat i; Some (t, v).

(** [if (!(a.arg[i].type == TYPE_INT)) abort (); arg = a.arg[i].a.a_int;]  In the following
    functions [None] is abort() or undefined behaviour. *)
Definition int_arg (i : Z) : option Z :=
  match arg_at i with Some (TYPE_INT, VInt z) => Some z | _ => None end.

(** The text of a field of the directive, [None] if [start == end]. *)
Definition field_text (start stop : option nat) : option (list Z) :=
  match start, stop with
  | Some a, Some b => if (a =? b)%nat then None else Some (slice a b)
  | _, _ => None
  end.

(** [n = xsum (xtimes (n, 10), *digitp++ - '0')] for all digits. *)
Definition digits (text : list Z) : Z := fold_left (fun n c => xsum (xtimes n 10) (c - chr "0")) text 0.

(** The flags, and the width if there is one.  The negation of [INT_MIN] is undefined. *)
Definition get_width (dp : directive) : option (Z * option Z) :=
  match field_text (width_start dp) (width_end dp) with
  | None => Some (flags dp, None)
  | Some text =>
      if width_arg_index dp =? ARG_NONE then Some (flags dp, Some (digits text))
      else
        arg ← int_arg (width_arg_index dp);
        if arg <? 0 then
          if arg =? - 2 ^ 31 then None
          else Some (Z.lor (flags dp) FLAG_LEFT, Some (wrapw 32 (- arg)))
        else Some (flags dp, Some arg)
  end.

(** [has_precision] and [precision]. *)
Definition get_precision (dp : directive) : option (bool * Z) :=
  match field_text (precision_start dp) (precision_end dp) with
  | None => Some (false, 6)
  | Some text =>
      if precision_arg_index dp =? ARG_NONE then Some (true, digits (drop 1 text))
      else
        arg ← int_arg (precision_arg_index dp);
        if 0 <=? arg then Some (true, arg) else Some (false, 6)
  end.

(** ** Wide strings *)

(** The loops that find [arg_end] and [characters]: the number of wide characters and of
    bytes.  With a precision, only as many as give at most that number of bytes. *)
Fixpoint count_limited (arg : list Z) (state : mbstate) (precision characters : Z) (n : nat) : vprog (nat * Z) :=
  if 0 <? precision then
    match arg with
    | [] => mret (n, characters)
    | wc :: arg =>
        match wcrtomb wc state with
        | None => fail EILSEQ
        | Some (cbuf, state) =>
            let count := Z.of_nat (length cbuf) in
            if precision <? count then mret (n, characters)
            else count_limited arg state (precision - count) (wrapw 64 (characters + count)) (S n)
        end
    end
  else mret (n, characters).

Fixpoint count_all (arg : list Z) (state : mbstate) (characters : Z) (n : nat) : vprog (nat * Z) :=
  match arg with
  | [] => mret (n, characters)
  | wc :: arg =>
      match wcrtomb wc state with
      | None => fail EILSEQ
      | Some (cbuf, state) => count_all arg state (wrapw 64 (characters + Z.of_nat (length cbuf))) (S n)
      end
  end.

(** The loop that copies [remaining] bytes; [n] wide characters are left before [arg_end]. *)
Fixpoint copy_counted (arg : list Z) (state : mbstate) (remaining : Z) (n : nat) : vprog unit :=
  if 0 <? remaining then
    match arg with
    | [] => abort
    | wc :: arg =>
        match wcrtomb wc state with
        | None => abort
        | Some (cbuf, state) =>
            let count := Z.of_nat (length cbuf) in
            if count <=? 0 then abort
            else
              s ← get_state;
              store (v_length s) cbuf;;
              s ← get_state;
              put_state (with_length s (wrapw 64 (v_length s + count)));;
              match n with
              | O => abort
              | S n => copy_counted arg state (wrapw 64 (remaining - count)) n
              end
        end
    end
  else if (n =? 0)%nat then mret tt else abort.

(** The loop without width and precision. *)
Fixpoint copy_all (arg : list Z) (state : mbstate) : vprog unit :=
  match arg with
  | [] => mret tt
  | wc :: arg =>
      match wcrtomb wc state with
      | None => fail EILSEQ
      | Some (cbuf, state) =>
          if (length cbuf =? 0)%nat then fail EILSEQ
          else append cbuf;; copy_all arg state
      end
  end.

(** [%ls].  Note that the test of the flag is on [dp->flags]. *)
Definition wide_string (dp : directive) (arg : list Z) : vprog unit :=
  '(_, width) ← lift (get_width dp);
  '(has_precision, precision) ← lift (get_precision dp);
  let left := bit_set (flags dp) FLAG_LEFT in
  '(n, characters) ←
    (if has_precision : bool then count_limited arg mbstate_init precision 0 0
     else match width with
          | Some _ => count_all arg mbstate_init 0 0
          | None => mret (length arg, 0)
          end);
  let pad := match width with
             | Some width => if characters <? width then Some (width - characters) else None
             | None => None
             end in
  (match pad with Some p => if left then mret tt else pad_with_spaces p | None => mret tt end);;
  (if has_precision || bool_decide (is_Some width) then
     s ← get_state;
     ENSURE_ALLOCATION (xsum (v_length s) characters);;
     copy_counted arg mbstate_init characters n
   else copy_all arg mbstate_init);;
  match pad with Some p => if left then pad_with_spaces p else mret tt | None => mret tt end.

(** ** The room for one directive *)

(** [(unsigned int) (bits * num / den) + 1] *)
Definition ceil_times (bits num den : Z) : Z := bits * num / den + 1.

(** The number of bits of an integer argument. *)
Definition int_bits (type : arg_type) : Z :=
  match type with
  | TYPE_LONGLONGINT | TYPE_ULONGLONGINT | TYPE_LONGINT | TYPE_ULONGINT => 64
  | _ => 32
  end.

Fixpoint strnlen (s : cstr) (maxlen : Z) : Z :=
  match s with
  | [] => 0
  | _ :: s => if maxlen <=? 0 then 0 else 1 + strnlen s (maxlen - 1)
  end.

Definition among (c : Z) (s : string) : bool := existsb (fun d => c =? d) (cs s).

(** The part of MAX_ROOM_NEEDED before padding; [None] is abort().  [LDBL_MAX_EXP],
    [DBL_MAX_EXP], [LDBL_DIG] and [DBL_DIG] are those of x86. *)
Definition directive_room (v : va_value) (conversion : Z) (type : arg_type) (has_precision : bool) (precision : Z)
    : option Z :=
  if among conversion "diu" then
    let tmp_length := Z.max (ceil_times (int_bits type) 30103 100000) precision in
    Some (xsum (xsum tmp_length tmp_length) 1)
  else if among conversion "o" then
    Some (xsum (Z.max (ceil_times (int_bits type) 333334 1000000) precision) 1)
  else if among conversion "xX" then
    Some (xsum (Z.max (ceil_times (int_bits type) 25 100) precision) 2)
  else if among conversion "fF" then
    let max_exp := if decide (type = TYPE_LONGDOUBLE) then 16384 else 1024 in
    Some (xsum (ceil_times (max_exp * 2) 30103 100000 + 10) precision)
  else if among conversion "eEgG" then Some (xsum 12 precision)
  else if among conversion "aA" then
    let dig := if decide (type = TYPE_LONGDOUBLE) then 18 else 15 in
    Some (xsum (Z.max (ceil_times dig 831 1000) precision) 12)
  else if among conversion "c" then
    Some (if decide (type = TYPE_WIDE_CHAR) then MB_CUR_MAX else 1)
  else if among conversion "s" then
    match type, v with
    | TYPE_WIDE_STRING, _ => None
    | _, VString (Some arg) => Some (if has_precision then strnlen arg precision else Z.of_nat (length arg))
    | _, _ => None
    end
  else if among conversion "p" then Some (ceil_times 64 25 100 + 2)
  else None.

Definition max_room_needed (v : va_value) (conversion : Z) (type : arg_type) (width : Z)
    (has_precision : bool) (precision : Z) : option Z :=
  tmp_length ← directive_room v conversion type has_precision precision;
  Some (xsum (Z.max tmp_length width) 1).

(** ** The directive for snprintf() *)

(** The flags, the text of width and precision, and the size specifier. *)
Definition flag_text (fl : Z) : list Z :=
  (if bit_set fl FLAG_GROUP then cs "'" else []) ++ (if bit_set fl FLAG_LEFT then cs "-" else []) ++
  (if bit_set fl FLAG_SHOWSIGN then cs "+" else []) ++ (if bit_set fl FLAG_SPACE then cs " " else []) ++
  (if bit_set fl FLAG_ALT then cs "#" else []) ++ (if glibc && bit_set fl FLAG_LOCALIZED then cs "I" else []) ++
  (if bit_set fl FLAG_ZERO then cs "0" else []).

Definition size_text (type : arg_type) : list Z :=
  match type with
  | TYPE_LONGLONGINT | TYPE_ULONGLONGINT => cs "ll"
  | TYPE_LONGINT | TYPE_ULONGINT | TYPE_WIDE_CHAR | TYPE_WIDE_STRING => cs "l"
  | TYPE_LONGDOUBLE => cs "L"
  | _ => []
  end.

(** The directive up to the conversion; [fl] are the flags with the one of a negative width. *)
Definition directive_text (dp : directive) (fl : Z) (type : arg_type) : cstr :=
  cs "%" ++ flag_text fl ++ default [] (field_text (width_start dp) (width_end dp)) ++
  default [] (field_text (precision_start dp) (precision_end dp)) ++ size_text type ++ [conversion dp].

(** The bytes the construction stores in [buf], the NUL included; more than the size of [buf] is
    an access outside it. *)
Definition build_directive (buf_neededlength : Z) (dp : directive) (fl : Z) (type : arg_type) : vprog cstr :=
  let text := directive_text dp fl type in
  let size := Z.of_nat (length text) + (if glibc then 1 else 3) in
  if size <=? buf_neededlength then mret text else abort.

(** [prefixes[0 .. prefix_count - 1]] *)
Definition get_prefix (i : Z) : option (list Z) :=
  if i =? ARG_NONE then Some [] else z ← int_arg i; Some [z].

Definition get_prefixes (dp : directive) : option (list Z) :=
  w ← get_prefix (width_arg_index dp);
  p ← get_prefix (precision_arg_index dp);
  Some (w ++ p).

(** The [switch] on the type: values snprintf() is called for. *)
Definition snprintf_type (type : arg_type) : bool :=
  match type with
  | TYPE_NONE | TYPE_COUNT_SCHAR_POINTER | TYPE_COUNT_SHORT_POINTER | TYPE_COUNT_INT_POINTER
  | TYPE_COUNT_LONGINT_POINTER | TYPE_COUNT_LONGLONGINT_POINTER => false
  | _ => true
  end.

(** ** The loop around snprintf() *)

(** The number of bytes snprintf() has produced or would have produced, from [%n] or its
    result; the first two end the iteration with [continue]. *)
Inductive verdict := Retry_without_n | Make_room (tmp_length : Z) | Count (count : Z).

Definition judge (maxlen : Z) (percent_n : bool) (room : option Z) (r : snp) : vprog verdict :=
  match snp_count r with
  | Some count =>
      s ← get_state;
      (if count <? maxlen then
         c ← load (v_length s + count);
         if c =? 0 then mret tt else abort
       else mret tt);;
      mret (Count (if count <? snp_ret r then snp_ret r else count))
  | None =>
      if percent_n then mret Retry_without_n
      else if snp_ret r <? 0 then
        match room with
        | None => abort
        | Some tmp_length => if maxlen <? tmp_length then mret (Make_room tmp_length) else mret (Count (-1))
        end
      else mret (Count (snp_ret r))
  end.

(** The exit for [count < 0]. *)
Definition conversion_error (dp : directive) (saved_errno : Z) : errno :=
  if negb (saved_errno =? 0) then Errno saved_errno
  else if among (conversion dp) "cs" then EILSEQ else EINVAL.

Fixpoint snprintf_loop (fuel : nat) (dp : directive) (text : cstr) (percent_n : bool) (room : option Z)
    (prefixes : list Z) (arg : va_value) : vprog unit :=
  match fuel with
  | O => abort
  | S fuel =>
      s ← get_state;
      let maxlen := Z.min (wrapw 64 (v_allocated s - v_length s)) INT_MAX in
      let r := snprintf maxlen (text ++ if percent_n then cs "%n" else []) prefixes arg in
      store (v_length s) (snp_out r);;
      v ← judge maxlen percent_n room r;
      s ← get_state;
      match v with
      | Retry_without_n => snprintf_loop fuel dp text false room prefixes arg
      | Make_room tmp_length =>
          let bigger_need := xsum (v_length s) tmp_length in
          let bigger_need2 := xsum (xtimes (v_allocated s) 2) 12 in
          ENSURE_ALLOCATION (if bigger_need <? bigger_need2 then bigger_need2 else bigger_need);;
          snprintf_loop fuel dp text percent_n room prefixes arg
      | Count count =>
          if count <? 0 then fail (conversion_error dp (snp_errno r))
          else if maxlen <=? wrapw 32 (count + 1) then
            if maxlen =? INT_MAX then fail EOVERFLOW
            else
              ENSURE_ALLOCATION (xmax (xsum (v_length s) (wrapw 32 (count + 2))) (xtimes (v_allocated s) 2));;
              snprintf_loop fuel dp text percent_n room prefixes arg
          else put_state (with_length s (wrapw 64 (v_length s + count)))
      end
  end.

(** A directive that is not [%%], [%n] or [%ls].  The fuel is more than the number of times
    [allocated] can double. *)
Definition loop_fuel : nat := 70.

Definition plain_directive (buf_neededlength : Z) (dp : directive) (type : arg_type) (v : va_value) : vprog unit :=
  '(fl, width) ← lift (get_width dp);
  '(has_precision, precision) ← lift (get_precision dp);
  text ← build_directive buf_neededlength dp fl type;
  prefixes ← lift (get_prefixes dp);
  s ← get_state;
  ENSURE_ALLOCATION (xsum (v_length s) 2);;
  store (v_length s) [0];;
  if snprintf_type type then
    let room := max_room_needed v (conversion dp) type (default 0 width) has_precision precision in
    snprintf_loop loop_fuel dp text (negb glibc) room prefixes v
  else abort.

(** [%n] *)
Definition store_count (type : arg_type) (v : va_value) : vprog unit :=
  match type, v with
  | (TYPE_COUNT_SCHAR_POINTER | TYPE_COUNT_SHORT_POINTER | TYPE_COUNT_INT_POINTER
    | TYPE_COUNT_LONGINT_POINTER | TYPE_COUNT_LONGLONGINT_POINTER), VPointer p =>
      s ← get_state;
      let w := match type with TYPE_COUNT_SCHAR_POINTER => 8 | TYPE_COUNT_SHORT_POINTER => 16
               | TYPE_COUNT_INT_POINTER => 32 | _ => 64 end in
      put_state (with_count s (p, type, to_signed w (v_length s)))
  | _, _ => abort
  end.

(** Execute a single directive. *)
Definition exec_directive (buf_neededlength : Z) (dp : directive) : vprog unit :=
  if conversion dp =? chr "%" then
    if arg_index dp =? ARG_NONE then append (cs "%") else abort
  else if arg_index dp =? ARG_NONE then abort
  else
    match arg_at (arg_index dp) with
    | None => abort
    | Some (type, v) =>
        if conversion dp =? chr "n" then store_count type v
        else if (conversion dp =? chr "s") && bool_decide (type = TYPE_WIDE_STRING) then
          match v with VWideString (Some arg) => wide_string dp arg | _ => abort end
        else plain_directive buf_neededlength dp type v
    end.

(** The main loop; [cp] is where the literal text before the next directive starts. *)
Fixpoint directives_loop (buf_neededlength : Z) (cp : nat) (dirs : list directive) : vprog unit :=
  match dirs with
  | [] => if (cp =? length format)%nat then mret tt else append (slice cp (length format))
  | dp :: dirs =>
      (if (cp =? dir_start dp)%nat then mret tt else append (slice cp (dir_start dp)));;
      exec_directive buf_neededlength dp;;
      directives_loop buf_neededlength (dir_end dp) dirs
  end.

(** The final NUL, and the shrinking of the memory. *)
Definition finish : vprog unit :=
  s ← get_state;
  ENSURE_ALLOCATION (xsum (v_length s) 1);;
  store (v_length s) [0];;
  s ← get_state;
  match v_heap s with
  | Some l =>
      if v_length s + 1 <? v_allocated s then
        let n := v_mallocs s in
        let size := v_length s + 1 in
        put_state (VState (v_user s) (Some (if mal n size then take (Z.to_nat size) l else l))
          (v_allocated s) (v_length s) (S n) (v_blocks s) (v_counts s))
      else mret tt
  | None => mret tt
  end.
End Directives.

(** ** VASNPRINTF *)

(** What a call returns: [result] (in the caller's buffer, or memory of its own) with its bytes
    and [*lengthp], or NULL with [errno]; always with the contents of the caller's buffer, what [%n]
    stored, and the number of blocks of memory that are not freed. *)
Inductive returned :=
| Result (own : option (list Z)) (length : Z) (s : vstate)
| NullResult (e : errno) (s : vstate).

Definition after_error (buf_block : Z) (s : vstate) : vstate :=
  VState (v_user s) None (v_allocated s) (v_length s) (v_mallocs s)
    (v_blocks s - match v_heap s with Some _ => 1 | None => 0 end - buf_block) (v_counts s).

Definition initial_state (resultbuf : option (list Z)) (lengthp : Z) (mallocs : nat) : vstate :=
  VState resultbuf None (match resultbuf with Some _ => lengthp | None => 0 end) 0 mallocs 0 [].

(** The body of the function for a parsed format; [buf] is on the stack if it is small.  [None]
    is undefined behaviour or abort(). *)
Definition format_directives (format : cstr) (st : parse_state) (values : list va_value) (s : vstate) : option returned :=
  let buf_neededlength := xsum4 7 (max_width_length st) (max_precision_length st) 6 in
  let on_heap := 4000 <=? buf_neededlength in
  let buf_memsize := xtimes buf_neededlength 1 in
  if on_heap && size_overflow_p buf_memsize then Some (NullResult ENOMEM s)
  else
    let s1 := if on_heap then VState (v_user s) (v_heap s) (v_allocated s) (v_length s) (S (v_mallocs s)) (v_blocks s) (v_counts s) else s in
    if on_heap && negb (mal (v_mallocs s) buf_memsize) then Some (NullResult ENOMEM s1)
    else
      let buf_block := if on_heap then 1 else 0 in
      let s2 := VState (v_user s1) (v_heap s1) (v_allocated s1) (v_length s1) (v_mallocs s1) (v_blocks s1 + buf_block) (v_counts s1) in
      match (directives_loop format (args st) values buf_neededlength 0 (dirs st);; finish) s2 with
      | Undef => None
      | Failed e s => Some (NullResult e (after_error buf_block s))
      | Run _ s =>
          let s := VState (v_user s) (v_heap s) (v_allocated s) (v_length s) (v_mallocs s) (v_blocks s - buf_block) (v_counts s) in
          Some (Result (v_heap s) (v_length s) s)
      end.

Context (sz_argument sz_directive : Z).

Definition VASNPRINTF (resultbuf : option (list Z)) (lengthp : Z) (format : cstr) (va : list va_value) : option returned :=
  let s := initial_state resultbuf lengthp in
  match PRINTF_PARSE sz_argument sz_directive mal format with
  | None => None
  | Some Einval => Some (NullResult EINVAL (s O))
  | Some Enomem => Some (NullResult ENOMEM (s O))
  | Some (Ok st) =>
      match PRINTF_FETCHARGS (args st) va with
      | FetchUndefined => None
      | FetchFailed => Some (NullResult EINVAL (s (n_allocs st)))
      | Fetched values => format_directives format st values (s (n_allocs st))
      end
  end.
End Vasnprintf.
