(* ===== verification/VasnprintfSpec.v ===== *)
(** * The state of the output loop of vasnprintf.c

    [yields c s E Q]: program [c], run from [s], ends in a state that satisfies [Q], or fails
    with an error of [E] and without a leak; it does not access memory outside the buffers.
    [vok s out tail]: [out] is the output so far, and [tail] the bytes stored after it. *)

From S2P Require Import Prelude PrintfParse PrintfParseSpec Vasnprintf.

Open Scope Z_scope.

(** ** What is relied on of the C library *)

(** The output of snprintf() for a directive, that is the same whatever the size of the buffer.
    The directive may be followed by ["%n"]. *)
Class SnprintfLaws `{!Snprintf} := {
  render : cstr -> list Z -> va_value -> option cstr;
  snprintf_fits maxlen fmt prefixes v :
    0 < maxlen -> Z.of_nat (length (snp_out (snprintf maxlen fmt prefixes v))) <= maxlen;
  snprintf_renders maxlen dir (percent_n : bool) prefixes v s :
    0 < maxlen -> last dir <> Some (chr "n") -> render dir prefixes v = Some s ->
    let r := snprintf maxlen (dir ++ if percent_n then cs "%n" else []) prefixes v in
    snp_out r = take (Z.to_nat (maxlen - 1)) s ++ [0] /\ snp_ret r = Z.of_nat (length s) /\
    snp_count r = if percent_n then Some (Z.of_nat (length s)) else None;
  snprintf_fails maxlen dir (percent_n : bool) prefixes v :
    0 < maxlen -> last dir <> Some (chr "n") -> render dir prefixes v = None ->
    let r := snprintf maxlen (dir ++ if percent_n then cs "%n" else []) prefixes v in
    snp_ret r < 0 /\ snp_count r = None;
  render_int dir prefixes v s : render dir prefixes v = Some s -> Z.of_nat (length s) <= INT_MAX
}.

(** A wide character that is not null has at least one byte, and no more than [MB_CUR_MAX],
    which vasnprintf.c assumes to be at most 64. *)
Class WcrtombLaws `{!Wcrtomb} := {
  wcrtomb_bytes wc st b st' : wc <> 0 -> wcrtomb wc st = Some (b, st') -> (1 <= length b <= 64)%nat;
  MB_CUR_MAX_range : 1 <= MB_CUR_MAX <= 64
}.

Section State.
(** The length of the caller's buffer, and how much of it may be written, whatever
    [*lengthp] says. *)
Context (user : option nat) (limit : Z).
(** The oracle for malloc(), and the number of other blocks that are allocated. *)
Context (mal : nat -> Z -> bool) (garbage : nat -> nat -> Z) (blocks : Z).

Definition heap_block (s : vstate) : Z := match v_heap s with Some _ => 1 | None => 0 end.

(** No block is lost, and the caller's buffer is still the one of the caller. *)
Definition sane (s : vstate) : Prop := length <$> v_user s = user /\ v_blocks s = blocks + heap_block s.

(** What is at [result]. *)
Definition memory_ok (s : vstate) (text : list Z) : Prop :=
  match v_result s with
  | Some l => take (length text) l = text /\ Z.min (v_allocated s) limit <= Z.of_nat (length l)
  | None => text = [] /\ v_allocated s = 0
  end.

Record vok (s : vstate) (out tail : list Z) : Prop := VOk {
  vok_length : v_length s = Z.of_nat (length out);
  vok_memory : memory_ok s (out ++ tail);
  vok_range : Z.of_nat (length (out ++ tail)) <= v_allocated s < SIZE_MAX;
  vok_sane : sane s
}.

Definition yields {A} (c : vprog A) (s : vstate) (E : errno -> Prop) (Q : A -> vstate -> Prop) : Prop :=
  match c s with Run x s' => Q x s' | Failed e s' => E e /\ sane s' | Undef => False end.

Lemma yields_bind {A B} (c : vprog A) (f : A -> vprog B) s (E : errno -> Prop) Q :
  yields c s E (fun x s' => yields (f x) s' E Q) -> yields (c ≫= f) s E Q.
Proof using Type. unfold yields. change ((c ≫= f) s) with (match c s with Run x s => f x s | Failed e s => Failed e s | Undef => Undef end). by destruct (c s). Qed.

Lemma yields_mono {A} (c : vprog A) s (E E' : errno -> Prop) (Q Q' : A -> vstate -> Prop) :
  yields c s E Q -> (forall e, E e -> E' e) -> (forall x s', Q x s' -> Q' x s') -> yields c s E' Q'.
Proof using Type. unfold yields. destruct (c s); [auto| |done]. intros [H1 H2] HE _. split; [by apply HE|done]. Qed.

Lemma yields_ret {A} (x : A) s E (Q : A -> vstate -> Prop) : Q x s -> yields (mret x) s E Q.
Proof using Type. done. Qed.

Lemma yields_get {A} (f : vstate -> vprog A) s E Q : yields (f s) s E Q -> yields (get_state ≫= f) s E Q.
Proof using Type. done. Qed.

(** Out of memory: because malloc() failed, or because of what the output needs. *)
Definition no_memory (text : list Z) (e : errno) : Prop :=
  e = ENOMEM /\ ((exists n size, mal n size = false) \/ 2 ^ 59 < Z.of_nat (length text)).

(** ** Allocation *)

Lemma length_fresh n size : length (fresh_bytes garbage n size) = Z.to_nat size.
Proof using Type. unfold fresh_bytes. by rewrite length_map, length_seq. Qed.

Lemma vok_out s out tail : vok s out tail -> match v_result s with Some l => take (length out) l = out | None => out = [] end.
Proof using Type.
  intros [_ Hmem _ _]. unfold memory_ok in Hmem. destruct (v_result s) as [l|].
  - destruct Hmem as [Hmem _]. apply (f_equal (take (length out))) in Hmem.
    by rewrite take_take, take_app_length, Nat.min_l in Hmem by (rewrite length_app; lia).
  - by destruct Hmem as [[-> _]%app_eq_nil _].
Qed.

Lemma vok_untail s out tail : vok s out tail -> vok s out [].
Proof using Type.
  intros Hok. pose proof (vok_out _ _ _ Hok) as Hout. destruct Hok as [Hlen Hmem Hrange Hsane].
  rewrite length_app in Hrange. split; [done| |rewrite app_nil_r; lia|done].
  rewrite app_nil_r. unfold memory_ok in *. destruct (v_result s); [by destruct Hmem|]. by destruct Hmem.
Qed.

Lemma ensure_ok needed s out tail :
  vok s out tail -> 0 <= needed <= SIZE_MAX ->
  yields (ENSURE_ALLOCATION mal garbage needed) s
    (fun e => e = ENOMEM /\ ((exists n size, mal n size = false) \/ 2 ^ 61 < needed))
    (fun _ s' => vok s' out [] /\ needed <= v_allocated s' /\ v_counts s' = v_counts s /\
       (needed <= v_allocated s -> s' = s)).
Proof using Type.
  intros Hok Hn. pose proof Hok as [Hlen Hmem Hrange Hsane]. unfold yields, ENSURE_ALLOCATION.
  destruct (Z.leb_spec needed (v_allocated s)) as [Hle|Hgt].
  { split; [|done]. by eapply vok_untail. }
  cbv zeta. set (a0 := if 0 <? v_allocated s then _ else _). set (a := if a0 <? needed then needed else a0).
  pose proof (xtimes_spec (v_allocated s) 2 ltac:(lia) ltac:(lia)) as Hx.
  assert (Ha : needed <= a <= SIZE_MAX /\ (needed <= 2 ^ 61 -> a < SIZE_MAX)).
  { unfold a, a0. destruct (Z.ltb_spec 0 (v_allocated s)); 
      [destruct (Z.ltb_spec (xtimes (v_allocated s) 2) needed)|destruct (Z.ltb_spec 12 needed)]; unfold SIZE_MAX in *; lia. }
  rewrite xtimes_spec, Z.mul_1_r, Z.min_l by lia. unfold size_overflow_p. destruct (Z.eqb_spec a SIZE_MAX) as [->|Hne].
  { split; [split; [done|right; lia]|done]. }
  cbn [v_mallocs with_allocated v_heap v_user v_length v_blocks v_counts].
  destruct (mal (v_mallocs s) a) eqn:Emal; cbn [negb].
  2: { split; [split; [done|left; by eauto]|]. exact Hsane. }
  assert (Hout : Z.of_nat (length out) <= a) by (rewrite length_app in Hrange; lia).
  assert (Hfresh : length (fresh_bytes garbage (v_mallocs s) a) = Z.to_nat a) by apply length_fresh.
  assert (Hdone : forall l n blocks', take (length out) l = out -> length l = Z.to_nat a ->
    blocks' = blocks + 1 ->
    let s' := VState (v_user s) (Some l) a (v_length s) n blocks' (v_counts s) in
    vok s' out [] /\ needed <= a /\ v_counts s' = v_counts s /\ (needed <= v_allocated s -> s' = s)).
  { intros l n b Ht Hl ->. split_and!; [|lia|done|lia]. split; simpl; rewrite ?app_nil_r.
    - done.
    - unfold memory_ok, v_result. simpl. rewrite Hl. split; [done|lia].
    - lia.
    - split; [apply Hsane|done]. }
  unfold memory_ok, v_result in Hmem. unfold sane, heap_block in Hsane.
  destruct (v_heap s) as [l|] eqn:Eh.
  - destruct Hmem as [Hmem _]. apply (f_equal length) in Hmem as Hlm. rewrite length_take, length_app in Hlm.
    apply Hdone; [|rewrite length_take, length_app, length_drop, Hfresh; lia|lia].
    apply (f_equal (take (length out))) in Hmem.
    rewrite take_take, take_app_length, Nat.min_l in Hmem by (rewrite length_app; lia).
    rewrite take_take, Nat.min_l, take_app_le by lia. done.
  - destruct (Z.ltb_spec 0 (v_length s)) as [Hpos|Hzero].
    + destruct (v_user s) as [u|]; [|destruct Hmem as [[-> _]%app_eq_nil _]; simpl in Hlen; lia].
      destruct Hmem as [Hmem _]. apply (f_equal length) in Hmem as Hlm. rewrite length_take, length_app in Hlm.
      rewrite (proj2 (Z.leb_le _ _)) by lia. rewrite Hlen, Nat2Z.id.
      apply (f_equal (take (length out))) in Hmem.
      rewrite take_take, take_app_length, Nat.min_l in Hmem by (rewrite length_app; lia).
      rewrite Hmem. rewrite <- Hlen. apply Hdone; [|unfold store_at|lia].
      * unfold store_at. simpl. by rewrite take_app_length.
      * rewrite !length_app, length_take, length_drop, Hfresh. lia.
    + assert (out = []) as -> by (destruct out; [done|simpl in Hlen; lia]).
      apply Hdone; [done|done|lia].
Qed.
(** ** Storing *)

Lemma store_at_take (out bytes l : list Z) :
  take (length out) l = out -> (length out + length bytes <= length l)%nat ->
  take (length out + length bytes) (store_at (length out) bytes l) = out ++ bytes /\
  length (store_at (length out) bytes l) = length l.
Proof using Type.
  intros Ht Hl. unfold store_at. rewrite Ht. split.
  - rewrite app_assoc, take_app_le by (rewrite length_app; lia). by rewrite take_ge by (rewrite length_app; lia).
  - rewrite !length_app, length_drop. lia.
Qed.

Lemma store_ok s out tail bytes (E : errno -> Prop) :
  vok s out tail -> Z.of_nat (length (out ++ bytes)) <= v_allocated s -> Z.of_nat (length (out ++ bytes)) <= limit ->
  yields (store (v_length s) bytes) s E
    (fun _ s' => vok s' out bytes /\ v_allocated s' = v_allocated s /\ v_counts s' = v_counts s).
Proof using Type.
  intros Hok Ha Hl. pose proof (vok_out _ _ _ Hok) as Hout. destruct Hok as [Hlen Hmem Hrange [Hu Hb]].
  unfold memory_ok, v_result in *. unfold heap_block in Hb. unfold yields, store. rewrite Hlen, Nat2Z.id.
  rewrite length_app in Ha, Hl.
  assert (Hvok : forall s', v_length s' = v_length s -> v_allocated s' = v_allocated s -> v_counts s' = v_counts s ->
    sane s' -> memory_ok s' (out ++ bytes) -> vok s' out bytes /\ v_allocated s' = v_allocated s /\ v_counts s' = v_counts s).
  { intros s' E1 E2 E3 Hs Hm. split; [|done]. split; [by rewrite E1|done|rewrite length_app, E2; lia|done]. }
  destruct (v_heap s) as [l|] eqn:Eh; [|destruct (v_user s) as [l|] eqn:Eu].
  - destruct Hmem as [Hmem Hcap]. rewrite (proj2 (Z.leb_le _ _)) by lia.
    destruct (store_at_take out bytes l Hout) as [T1 T2]; [lia|].
    apply Hvok; try done. unfold memory_ok, v_result. simpl. rewrite length_app, T2. by split.
  - destruct Hmem as [Hmem Hcap]. rewrite (proj2 (Z.leb_le _ _)) by lia.
    destruct (store_at_take out bytes l Hout) as [T1 T2]; [lia|].
    apply Hvok; try done; [split; [|done]|]; unfold memory_ok, v_result; simpl; [by rewrite <- Hu, T2|].
    rewrite length_app, T2. by split.
  - destruct Hmem as [_ Hz]. destruct bytes; [|simpl in Ha; lia]. simpl. apply Hvok; try done.
    + split; [by rewrite Eu|]. unfold heap_block. by rewrite Eh.
    + unfold memory_ok, v_result. rewrite Eh, Eu. subst out. done.
Qed.

(** The bytes after the output become output. *)
Lemma advance s out t1 t2 n :
  vok s out (t1 ++ t2) -> n = Z.of_nat (length (out ++ t1)) -> vok (with_length s n) (out ++ t1) t2.
Proof using Type.
  intros [Hlen Hmem Hrange Hsane] ->. split; simpl; [done| | |done].
  - by rewrite <- app_assoc.
  - by rewrite <- app_assoc.
Qed.

Lemma ensure_length_ok s out tail n (piece : list Z) :
  vok s out tail -> n = Z.of_nat (length piece) -> n <= SIZE_MAX ->
  yields (ENSURE_ALLOCATION mal garbage (xsum (v_length s) n)) s (no_memory (out ++ piece))
    (fun _ s' => vok s' out [] /\ v_counts s' = v_counts s /\ v_length s' = v_length s /\
       xsum (v_length s) n = Z.of_nat (length (out ++ piece)) /\ Z.of_nat (length (out ++ piece)) <= v_allocated s').
Proof using Type.
  intros Hok -> Hn. pose proof Hok as [Hlen _ Hrange _]. rewrite length_app in Hrange.
  pose proof (xsum_spec (v_length s) (Z.of_nat (length piece)) ltac:(lia) ltac:(lia)) as Hx.
  eapply yields_mono; [apply (ensure_ok _ _ _ _ Hok); unfold SIZE_MAX in *; lia| |].
  - intros e [-> [Hm|Hm]]; (split; [done|]); [by left|right]. rewrite length_app. unfold SIZE_MAX in *; lia.
  - intros _ s' (Hok' & Hle & Hc & _). pose proof (vok_range _ _ _ Hok') as Hr'. pose proof (vok_length _ _ _ Hok') as Hl'.
    rewrite length_app. split_and!; [done|done|by rewrite Hl', Hlen|lia|lia].
Qed.

Lemma append_ok s out tail bytes :
  vok s out tail -> Z.of_nat (length bytes) <= SIZE_MAX -> Z.of_nat (length (out ++ bytes)) <= limit ->
  yields (append mal garbage bytes) s (no_memory (out ++ bytes))
    (fun _ s' => vok s' (out ++ bytes) [] /\ v_counts s' = v_counts s).
Proof using Type.
  intros Hok Hn Hl. unfold append. apply yields_get, yields_bind.
  eapply yields_mono; [exact (ensure_length_ok s out tail _ bytes Hok eq_refl Hn)|done|]. intros _ s1 (Hok1 & Hc1 & El & Hx & Hle).
  rewrite <- El. apply yields_bind. eapply yields_mono; [exact (store_ok s1 out [] bytes _ Hok1 Hle Hl)|done|].
  intros _ s2 (Hok2 & _ & Hc2). rewrite <- (app_nil_r bytes) in Hok2. rewrite El, Hx.
  split; [by apply (advance _ _ _ [])|]. simpl. congruence.
Qed.

Lemma pad_ok s out tail n :
  vok s out tail -> 0 <= n <= SIZE_MAX -> let spaces := replicate (Z.to_nat n) (chr " ") in
  Z.of_nat (length (out ++ spaces)) <= limit ->
  yields (pad_with_spaces mal garbage n) s (no_memory (out ++ spaces))
    (fun _ s' => vok s' (out ++ spaces) [] /\ v_counts s' = v_counts s).
Proof using Type.
  intros Hok Hn spaces Hl. unfold pad_with_spaces. apply yields_get, yields_bind.
  assert (En : n = Z.of_nat (length spaces)) by (unfold spaces; rewrite length_replicate; lia).
  eapply yields_mono; [exact (ensure_length_ok s out tail n spaces Hok En (proj2 Hn))|done|]. intros _ s1 (Hok1 & Hc1 & El & Hx & Hle).
  rewrite <- El. apply yields_bind. eapply yields_mono; [exact (store_ok s1 out [] spaces _ Hok1 Hle Hl)|done|].
  intros _ s2 (Hok2 & Ha2 & Hc2). rewrite <- (app_nil_r spaces) in Hok2. apply yields_get.
  pose proof (vok_range _ _ _ Hok2) as Hr. pose proof (vok_length _ _ _ Hok2) as Hlen. rewrite app_nil_r in Hr.
  split; [|simpl; congruence]. apply (advance _ _ spaces []); [done|].
  rewrite Hlen, En, <- Nat2Z.inj_add, <- length_app. apply wrapw_small. unfold SIZE_MAX in *. lia.
Qed.
End State.
