(* ===== verification/VasnprintfOutput.v ===== *)
(** * What the directives put out

    [directive_output] is the text a directive stands for, [None] if it cannot be
    formatted; the lemmas show that [exec_directive] appends it. *)

From S2P Require Import Prelude PrintfParse PrintfParseSpec Vasnprintf VasnprintfSpec.

Open Scope Z_scope.

(** ** Wide strings *)

Section Wide.
Context `{!Wcrtomb}.

(** The multibyte characters of a wide string. *)
Fixpoint wide_bytes (arg : list Z) (st : mbstate) : option (list Z) :=
  match arg with
  | [] => Some []
  | wc :: arg => '(b, st) ← wcrtomb wc st; rest ← wide_bytes arg st; Some (b ++ rest)
  end.

(** The longest prefix of whole characters with at most [precision] bytes.  The character that
    does not fit any more is converted, too. *)
Fixpoint wide_prefix (arg : list Z) (st : mbstate) (precision : Z) : option (list Z) :=
  if 0 <? precision then
    match arg with
    | [] => Some []
    | wc :: arg =>
        '(b, st) ← wcrtomb wc st;
        if precision <? Z.of_nat (length b) then Some []
        else rest ← wide_prefix arg st (precision - Z.of_nat (length b)); Some (b ++ rest)
    end
  else Some [].

(** The first [k] wide characters give the bytes [b]. *)
Inductive converts : list Z -> mbstate -> nat -> list Z -> Prop :=
| converts_O arg st : converts arg st O []
| converts_S wc arg st c st' k b :
    wcrtomb wc st = Some (c, st') -> converts arg st' k b -> converts (wc :: arg) st (S k) (c ++ b).

Definition wide_padded (left : bool) (width : option Z) (body : list Z) : list Z :=
  let spaces := replicate (Z.to_nat (default 0 width - Z.of_nat (length body))) (chr " ") in
  if left then body ++ spaces else spaces ++ body.

Definition wide_output (left : bool) (width : option Z) (has_precision : bool) (precision : Z) (arg : list Z) : option (list Z) :=
  body ← (if has_precision then wide_prefix arg mbstate_init precision else wide_bytes arg mbstate_init);
  Some (wide_padded left width body).
End Wide.

Section WideLemmas.
Context `{!Wcrtomb} {HW : WcrtombLaws}.
Context (user : option nat) (limit : Z) (mal : nat -> Z -> bool) (garbage : nat -> nat -> Z) (blocks : Z).
Abbreviation vok := (vok user limit blocks).
Abbreviation yields := (yields user blocks).

Lemma count_limited_ok arg st precision c n s (E : errno -> Prop) :
  0 <= c -> 0 <= precision -> c + precision <= SIZE_MAX -> sane user blocks s -> E EILSEQ ->
  match wide_prefix arg st precision with
  | Some b => exists k, converts arg st k b /\ Z.of_nat (length b) <= precision /\
      count_limited arg st precision c n s = Run ((n + k)%nat, c + Z.of_nat (length b)) s
  | None => yields (count_limited arg st precision c n) s E (fun _ _ => False)
  end.
Proof using Type.
  intros Hc Hp Hcp Hs HE. revert st precision c n Hc Hp Hcp. induction arg as [|wc arg IH]; intros st precision c n Hc Hp Hcp; simpl.
  - destruct (Z.ltb_spec 0 precision); (exists 0%nat; split_and!; [constructor|simpl; lia|]; f_equal; simpl; f_equal; lia).
  - destruct (Z.ltb_spec 0 precision); [|exists 0%nat; split_and!; [constructor|simpl; lia|]; f_equal; simpl; f_equal; lia].
    destruct (wcrtomb wc st) as [[b st']|] eqn:Ew; cbn [mbind option_bind]; [|by split].
    destruct (Z.ltb_spec precision (Z.of_nat (length b))) as [Hlt|Hge].
    { exists 0%nat. split_and!; [constructor|simpl; lia|]. f_equal; simpl; f_equal; lia. }
    rewrite wrapw_small by (unfold SIZE_MAX in *; lia).
    specialize (IH st' (precision - Z.of_nat (length b)) (c + Z.of_nat (length b)) (S n) ltac:(lia) ltac:(lia) ltac:(lia)).
    destruct (wide_prefix arg st' _) as [rest|]; cbn [mbind option_bind]; [|exact IH].
    destruct IH as (k & Hk & Hl & E'). exists (S k). split_and!; [by econstructor|rewrite length_app; lia|].
    rewrite E', length_app. f_equal. f_equal; lia.
Qed.

Lemma count_all_ok arg st c n s (E : errno -> Prop) :
  Forall (fun wc => wc <> 0) arg -> 0 <= c -> c + 64 * Z.of_nat (length arg) <= SIZE_MAX -> sane user blocks s -> E EILSEQ ->
  match wide_bytes arg st with
  | Some b => converts arg st (length arg) b /\ Z.of_nat (length b) <= 64 * Z.of_nat (length arg) /\
      count_all arg st c n s = Run ((n + length arg)%nat, c + Z.of_nat (length b)) s
  | None => yields (count_all arg st c n) s E (fun _ _ => False)
  end.
Proof using HW.
  intros Hnz Hc Hb Hs HE. revert st c n Hc Hb. induction Hnz as [|wc arg Hwc Hnz IH]; intros st c n Hc Hb; simpl in Hb |- *.
  - split_and!; [constructor|simpl; lia|]. f_equal; f_equal; simpl; lia.
  - destruct (wcrtomb wc st) as [[b st']|] eqn:Ew; cbn [mbind option_bind]; [|by split].
    pose proof (wcrtomb_bytes wc st b st' Hwc Ew) as Hlb.
    rewrite wrapw_small by (unfold SIZE_MAX in *; lia).
    specialize (IH st' (c + Z.of_nat (length b)) (S n) ltac:(lia) ltac:(lia)).
    destruct (wide_bytes arg st') as [rest|]; cbn [mbind option_bind]; [|exact IH].
    destruct IH as (Hk & Hl & E'). split_and!; [by econstructor|rewrite length_app; lia|].
    rewrite E', length_app. f_equal. f_equal; lia.
Qed.
Lemma no_memory_longer text rest e : no_memory mal text e -> no_memory mal (text ++ rest) e.
Proof using Type. intros [-> [Hm|Hm]]; (split; [done|]); [by left|right]. rewrite length_app. lia. Qed.

Lemma vok_more s out tail : vok s out tail -> Z.of_nat (length out) <= v_allocated s.
Proof using Type. intros Hok. pose proof (vok_range _ _ _ _ _ _ Hok) as Hr. rewrite length_app in Hr. lia. Qed.

Lemma copy_counted_ok arg st k b s out (E : errno -> Prop) :
  converts arg st k b -> Forall (fun wc => wc <> 0) arg -> vok s out [] ->
  Z.of_nat (length (out ++ b)) <= v_allocated s -> Z.of_nat (length (out ++ b)) <= limit ->
  yields (copy_counted arg st (Z.of_nat (length b)) k) s E
    (fun _ s' => vok s' (out ++ b) [] /\ v_counts s' = v_counts s).
Proof using HW.
  intros Hk. revert s out. induction Hk as [arg st|wc arg st c st' k b Ew Hk IH]; intros s out Hnz Hok Ha Hl.
  { rewrite app_nil_r. by destruct arg. }
  apply Forall_cons in Hnz as [Hwc Hnz]. pose proof (wcrtomb_bytes wc st c st' Hwc Ew) as Hlc.
  cbn [copy_counted]. rewrite (proj2 (Z.ltb_lt _ _)) by (rewrite length_app; lia). rewrite Ew.
  rewrite (proj2 (Z.leb_gt _ _)) by lia. rewrite app_assoc, length_app in Ha, Hl. apply yields_get, yields_bind.
  eapply yields_mono; [exact (store_ok _ _ _ s out [] c E Hok ltac:(lia) ltac:(lia))|done|].
  intros _ s1 (Hok1 & Ha1 & Hc1). apply yields_get, yields_bind.
  pose proof (vok_length _ _ _ _ _ _ Hok1) as El. pose proof (vok_range _ _ _ _ _ _ Hok1) as Hr. rewrite length_app in Hr.
  assert (Eadv : wrapw 64 (v_length s1 + Z.of_nat (length c)) = Z.of_nat (length (out ++ c))).
  { rewrite El, length_app. rewrite wrapw_small; [lia|unfold SIZE_MAX in *; lia]. }
  rewrite <- (app_nil_r c) in Hok1. pose proof (advance _ _ _ s1 out c [] _ Hok1 Eadv) as Hok2.
  unfold yields at 1. cbn [put_state].
  replace (wrapw 64 (Z.of_nat (length (c ++ b)) - Z.of_nat (length c))) with (Z.of_nat (length b))
    by (rewrite length_app, wrapw_small; [lia|unfold SIZE_MAX in *; rewrite length_app in *; lia]).
  eapply yields_mono; [apply (IH _ (out ++ c) Hnz Hok2); cbn [v_allocated with_length]; rewrite length_app; lia|done|].
  intros _ s2 [H1 H2]. rewrite <- app_assoc in H1. split; [done|]. simpl in H2. congruence.
Qed.

Lemma copy_all_ok arg st s out tail :
  Forall (fun wc => wc <> 0) arg -> vok s out tail ->
  match wide_bytes arg st with
  | Some b => Z.of_nat (length (out ++ b)) <= limit ->
      yields (copy_all mal garbage arg st) s (no_memory mal (out ++ b))
        (fun _ s' => vok s' (out ++ b) [] /\ v_counts s' = v_counts s)
  | None => 2 * SIZE_MAX <= limit -> yields (copy_all mal garbage arg st) s (fun _ => True) (fun _ _ => False)
  end.
Proof using HW.
  intros Hnz. revert st s out tail. induction Hnz as [|wc arg Hwc Hnz IH]; intros st s out tail Hok; simpl.
  - intros _. rewrite app_nil_r. apply yields_ret. split; [|done]. by eapply vok_untail.
  - destruct (wcrtomb wc st) as [[c st']|] eqn:Ew; cbn [mbind option_bind]; [|intros _; split; [done|apply Hok]].
    pose proof (wcrtomb_bytes wc st c st' Hwc Ew) as Hlc.
    destruct (Nat.eqb_spec (length c) 0) as [|_]; [lia|].
    assert (Happ : Z.of_nat (length (out ++ c)) <= limit ->
      yields (append mal garbage c) s (no_memory mal (out ++ c)) (fun _ s' => vok s' (out ++ c) [] /\ v_counts s' = v_counts s)).
    { intros Hl. apply (append_ok _ _ _ _ _ s out tail c Hok); [unfold SIZE_MAX; lia|done]. }
    specialize (IH st'). destruct (wide_bytes arg st') as [rest|]; cbn [mbind option_bind]; intros Hl; apply yields_bind.
    + rewrite app_assoc in Hl |- *. rewrite length_app in Hl.
      eapply yields_mono; [apply Happ; lia|by apply no_memory_longer|]. intros _ s1 [Hok1 Hc1].
      eapply yields_mono; [apply (IH s1 _ _ Hok1); rewrite length_app; lia|done|]. intros _ s2 [H1 H2]. split; [done|congruence].
    + pose proof (vok_more _ _ _ Hok) as Hm. pose proof (vok_range _ _ _ _ _ _ Hok) as Hr.
      eapply yields_mono; [apply Happ; rewrite length_app; unfold SIZE_MAX in *; lia|done|]. intros _ s1 [Hok1 Hc1].
      by apply (IH s1 _ _ Hok1).
Qed.
(** The copying part. *)
Lemma copy_wide_ok (counted : bool) arg n body s out tail :
  Forall (fun wc => wc <> 0) arg -> vok s out tail -> Z.of_nat (length body) <= SIZE_MAX ->
  Z.of_nat (length (out ++ body)) <= limit ->
  (if counted then converts arg mbstate_init n body else wide_bytes arg mbstate_init = Some body) ->
  yields (if counted then
     s ← get_state;
     ENSURE_ALLOCATION mal garbage (xsum (v_length s) (Z.of_nat (length body)));;
     copy_counted arg mbstate_init (Z.of_nat (length body)) n
   else copy_all mal garbage arg mbstate_init) s (no_memory mal (out ++ body))
    (fun _ s' => vok s' (out ++ body) [] /\ v_counts s' = v_counts s).
Proof using HW.
  intros Hnz Hok Hn Hl Hb. destruct counted.
  - apply yields_get, yields_bind.
    eapply yields_mono; [exact (ensure_length_ok _ _ _ _ _ s out tail _ body Hok eq_refl Hn)|done|].
    intros _ s1 (Hok1 & Hc1 & _ & _ & Ha). eapply yields_mono; [by apply copy_counted_ok|done|].
    intros _ s2 [H1 H2]. split; [done|congruence].
  - pose proof (copy_all_ok arg mbstate_init s out tail Hnz Hok) as Hca. rewrite Hb in Hca. by apply Hca.
Qed.

Lemma maybe_pad_ok (now : bool) pad s out tail :
  vok s out tail -> match pad with Some n => 0 <= n <= SIZE_MAX | None => True end ->
  let spaces := match pad with Some n => if now then replicate (Z.to_nat n) (chr " ") else [] | None => [] end in
  Z.of_nat (length (out ++ spaces)) <= limit ->
  yields (match pad with
          | Some p => if now then pad_with_spaces mal garbage p else mret tt
          | None => mret tt
          end) s
    (no_memory mal (out ++ spaces)) (fun _ s' => vok s' (out ++ spaces) [] /\ v_counts s' = v_counts s).
Proof using Type.
  intros Hok Hn spaces Hl. destruct pad as [n|], now; subst spaces; cbv beta iota zeta in *;
    rewrite ?app_nil_r in *; try (apply yields_ret; split; [by eapply vok_untail|done]).
  by eapply (pad_ok _ _ _ _ _ s out tail n).
Qed.
Section WideString.
Context (format : cstr) (types : list arg_type) (values : list va_value).

Lemma wide_string_ok dp fl width (has_precision : bool) precision arg s out tail :
  get_width format types values dp = Some (fl, width) ->
  get_precision format types values dp = Some (has_precision, precision) ->
  match width with Some w => 0 <= w <= SIZE_MAX | None => True end -> 0 <= precision <= SIZE_MAX ->
  Forall (fun wc => wc <> 0) arg -> 64 * Z.of_nat (length arg) <= SIZE_MAX -> vok s out tail ->
  match wide_output (bit_set (flags dp) FLAG_LEFT) width has_precision precision arg with
  | Some piece => Z.of_nat (length (out ++ piece)) <= limit ->
      yields (wide_string mal garbage format types values dp arg) s (no_memory mal (out ++ piece))
        (fun _ s' => vok s' (out ++ piece) [] /\ v_counts s' = v_counts s)
  | None => 2 * SIZE_MAX <= limit ->
      yields (wide_string mal garbage format types values dp arg) s (fun _ => True) (fun _ _ => False)
  end.
Proof using HW.
  intros Ew Ep Hw Hp Hnz Harg Hok. set (left := bit_set (flags dp) FLAG_LEFT).
  pose proof (vok_sane _ _ _ _ _ _ Hok) as Hsane.
  set (counted := has_precision || bool_decide (is_Some width)).
  pose proof (count_limited_ok arg mbstate_init precision 0 0 s) as Hlim.
  pose proof (count_all_ok arg mbstate_init 0 0 s) as Hall.
  assert (Hbody : forall body,
    (if has_precision then wide_prefix arg mbstate_init precision else wide_bytes arg mbstate_init) = Some body ->
    Z.of_nat (length body) <= SIZE_MAX /\ exists n characters,
      (if has_precision then count_limited arg mbstate_init precision 0 0
       else match width with Some _ => count_all arg mbstate_init 0 0 | None => mret (length arg, 0) end) s = Run (n, characters) s /\
      (if counted then converts arg mbstate_init n body else wide_bytes arg mbstate_init = Some body) /\
      (if counted then characters = Z.of_nat (length body) else width = None)).
  { intros body Eb. unfold counted. destruct has_precision; cbn [orb].
    - specialize (Hlim (fun _ => True) ltac:(lia) ltac:(lia) ltac:(lia) Hsane I). rewrite Eb in Hlim.
      destruct Hlim as (k & Hk & Hl & Erun). split; [lia|]. eexists _, _. split; [exact Erun|]. by split.
    - specialize (Hall (fun _ => True) Hnz ltac:(lia) ltac:(lia) Hsane I). rewrite Eb in Hall.
      destruct Hall as (Hk & Hl & Erun). split; [lia|]. destruct width as [w|].
      + eexists _, _. split; [exact Erun|]. by split.
      + eexists _, _. split; [reflexivity|]. by split. }
  unfold wide_output.
  destruct (if has_precision then _ else _) as [body|] eqn:Eb; cbn [mbind option_bind].
  - destruct (Hbody body eq_refl) as (Hlb & n & characters & Erun & Hcopy & Hch). intros Hl.
    unfold wide_string. apply yields_bind. rewrite Ew. apply yields_ret. apply yields_bind. rewrite Ep. apply yields_ret.
    apply yields_bind. unfold yields at 1. rewrite Erun. fold left counted.
    set (pad := match width with Some w => _ | None => None end).
    set (spaces := replicate (Z.to_nat (default 0 width - Z.of_nat (length body))) (chr " ")).
    assert (Hpad : match pad with Some p => 0 <= p <= SIZE_MAX /\ spaces = replicate (Z.to_nat p) (chr " ") | None => spaces = [] end).
    { unfold pad, spaces. destruct width as [w|]; unfold default, from_option, id; [|by replace (Z.to_nat _) with O by lia].
      assert (characters = Z.of_nat (length body)) as -> by (unfold counted in Hch; by rewrite orb_true_r in Hch).
      destruct (Z.ltb_spec (Z.of_nat (length body)) w); [split; [lia|done]|by replace (Z.to_nat _) with O by lia]. }
    assert (Hcounted : forall s', (if counted then
        s ← get_state;
        ENSURE_ALLOCATION mal garbage (xsum (v_length s) characters);;
        copy_counted arg mbstate_init characters n
      else copy_all mal garbage arg mbstate_init) s' =
      (if counted then
        s ← get_state;
        ENSURE_ALLOCATION mal garbage (xsum (v_length s) (Z.of_nat (length body)));;
        copy_counted arg mbstate_init (Z.of_nat (length body)) n
      else copy_all mal garbage arg mbstate_init) s').
    { intros s'. destruct counted; [by rewrite Hch|done]. }
    set (pre := if left then [] else spaces). set (post := if left then spaces else []).
    assert (Hpiece : wide_padded left width body = pre ++ body ++ post).
    { unfold wide_padded, pre, post. fold spaces. destruct left; simpl; [done|by rewrite app_nil_r]. }
    rewrite Hpiece in *. rewrite !app_assoc in *.
    assert (Hrange : match pad with Some p => 0 <= p <= SIZE_MAX | None => True end) by (destruct pad; tauto).
    assert (Epre : match pad with Some p => if negb left then replicate (Z.to_nat p) (chr " ") else [] | None => [] end = pre).
    { unfold pre. destruct pad, left; simpl; intuition. }
    assert (Epost : match pad with Some p => if left then replicate (Z.to_nat p) (chr " ") else [] | None => [] end = post).
    { unfold post. destruct pad, left; simpl; intuition. }
    pose proof Hl as Hl'. rewrite !length_app in Hl'.
    assert (Hstart : yields (match pad with Some p => if left then mret tt else pad_with_spaces mal garbage p | None => mret tt end) s
      (no_memory mal (out ++ pre)) (fun _ s' => vok s' (out ++ pre) [] /\ v_counts s' = v_counts s)).
    { pose proof (maybe_pad_ok (negb left) pad s out tail Hok Hrange) as Hp1. cbv zeta in Hp1. rewrite Epre in Hp1.
      rewrite length_app in Hp1. destruct left; apply Hp1; lia. }
    apply yields_bind. eapply yields_mono; [exact Hstart| |].
    { intros e He. rewrite <- app_assoc. by apply no_memory_longer. }
    intros _ s1 [Hok1 Hc1]. apply yields_bind. unfold yields at 1. rewrite Hcounted.
    eapply yields_mono; [apply (copy_wide_ok counted arg n body s1 _ _ Hnz Hok1 Hlb); [rewrite !length_app; lia|exact Hcopy]|by intros e; apply no_memory_longer|].
    intros _ s2 [Hok2 Hc2]. pose proof (maybe_pad_ok left pad s2 _ _ Hok2 Hrange) as Hp3. cbv zeta in Hp3. rewrite Epost in Hp3.
    eapply yields_mono; [apply Hp3; rewrite !length_app; lia|done|]. intros _ s3 [Hok3 Hc3]. split; [done|congruence].
  - intros Hl. unfold wide_string. apply yields_bind. rewrite Ew. apply yields_ret. apply yields_bind. rewrite Ep. apply yields_ret.
    apply yields_bind. destruct has_precision.
    + specialize (Hlim (fun _ => True) ltac:(lia) ltac:(lia) ltac:(lia) Hsane I). rewrite Eb in Hlim.
      by eapply yields_mono; [exact Hlim|done|].
    + destruct width as [w|].
      * specialize (Hall (fun _ => True) Hnz ltac:(lia) ltac:(lia) Hsane I). rewrite Eb in Hall.
        by eapply yields_mono; [exact Hall|done|].
      * apply yields_ret. apply yields_bind, yields_ret, yields_bind. unfold counted. cbn [orb].
        rewrite bool_decide_eq_false_2 by (by intros [? ?]).
        pose proof (copy_all_ok arg mbstate_init s out tail Hnz Hok) as Hca. rewrite Eb in Hca.
        by eapply yields_mono; [apply Hca|done|].
Qed.
End WideString.
End WideLemmas.

(** ** The loop around snprintf() *)

Section Plain.
Context `{!Snprintf} {HS : SnprintfLaws}.
Context (user : option nat) (limit : Z) (mal : nat -> Z -> bool) (garbage : nat -> nat -> Z) (blocks : Z).
Abbreviation vok := (vok user limit blocks).
Abbreviation yields := (yields user blocks).
Context (dp : directive) (text : cstr) (prefixes : list Z) (v : va_value) (Htext : last text <> Some (chr "n")).

(** A directive whose output cannot be counted by snprintf(). *)
Definition too_long (piece : list Z) (e : errno) : Prop := e = EOVERFLOW /\ INT_MAX <= Z.of_nat (length piece) + 1.

Definition buffer_size (s : vstate) : Z := Z.min (wrapw 64 (v_allocated s - v_length s)) INT_MAX.

Lemma buffer_size_spec s out tail :
  vok s out tail -> Z.of_nat (length out) + 2 <= v_allocated s ->
  2 <= buffer_size s /\ Z.of_nat (length out) + buffer_size s <= v_allocated s /\
  buffer_size s = Z.min (v_allocated s - Z.of_nat (length out)) INT_MAX.
Proof using Type.
  intros Hok Ha. pose proof (vok_range _ _ _ _ _ _ Hok) as Hr. unfold buffer_size.
  rewrite (vok_length _ _ _ _ _ _ Hok). rewrite wrapw_small by (unfold SIZE_MAX in *; lia). unfold INT_MAX. lia.
Qed.

Lemma load_ok s out tail i c :
  vok s out tail -> (out ++ tail) !! i = Some c -> load (Z.of_nat i) s = Run c s.
Proof using Type.
  intros Hok Hi. pose proof (vok_memory _ _ _ _ _ _ Hok) as Hm. unfold memory_ok in Hm. unfold load.
  destruct (v_result s) as [l|]; [|by destruct Hm as [Hm _]; rewrite Hm in Hi].
  destruct Hm as [Hm _]. rewrite Nat2Z.id. pose proof (lookup_lt_Some _ _ _ Hi) as Hlt.
  rewrite <- Hm, lookup_take_lt in Hi by done. by rewrite Hi.
Qed.

(** What snprintf() has done, as [judge] sees it. *)
Lemma judge_ok (percent_n : bool) room maxlen piece s out (E : errno -> Prop) :
  let r := snprintf maxlen (text ++ if percent_n then cs "%n" else []) prefixes v in
  render text prefixes v = Some piece -> 0 < maxlen -> vok s out (snp_out r) ->
  yields (judge maxlen percent_n room r) s E (fun x s' => s' = s /\ x = Count (Z.of_nat (length piece))).
Proof using HS Htext.
  intros r Hp Hm Hok. destruct (snprintf_renders maxlen text percent_n prefixes v piece Hm Htext Hp) as (E1 & E2 & E3).
  fold r in E1, E2, E3. unfold judge. rewrite E3. destruct percent_n; rewrite E2.
  - apply yields_get. rewrite (vok_length _ _ _ _ _ _ Hok), Z.ltb_irrefl. apply yields_bind.
    destruct (Z.ltb_spec (Z.of_nat (length piece)) maxlen) as [Hlt|]; [|by apply yields_ret].
    unfold yields at 1. rewrite <- Nat2Z.inj_add.
    assert (Hnul : (out ++ snp_out r) !! (length out + length piece)%nat = Some 0).
    { rewrite lookup_app_r by lia. rewrite E1, take_ge by lia. replace (_ + _ - _)%nat with (length piece) by lia.
      by rewrite list_lookup_middle. }
    unfold mbind, vprog_bind. by rewrite (load_ok _ _ _ _ _ Hok Hnul).
  - by rewrite (proj2 (Z.ltb_ge _ _)) by lia.
Qed.
(** The errors of a directive with an output. *)
Definition plain_error (piece text : list Z) (e : errno) : Prop := no_memory mal text e \/ too_long piece e.

(** One call: the output is complete, or there is more room for the next call, or snprintf()
    could not count further. *)
Lemma snprintf_step fuel percent_n room piece s out tail :
  render text prefixes v = Some piece -> vok s out tail -> Z.of_nat (length out) + 2 <= v_allocated s ->
  Z.of_nat (length (out ++ piece)) + 1 <= limit ->
  let final s' := vok s' (out ++ piece) [0] /\ v_counts s' = v_counts s in
  (forall s', vok s' out [] -> v_counts s' = v_counts s ->
     Z.of_nat (length piece) + 2 <= buffer_size s' \/ buffer_size s' = INT_MAX -> Z.of_nat (length out) + 2 <= v_allocated s' ->
     buffer_size s < INT_MAX -> Z.of_nat (length piece) + 1 >= buffer_size s ->
     yields (snprintf_loop mal garbage fuel dp text percent_n room prefixes v) s' (plain_error piece (out ++ piece)) (fun _ => final)) ->
  yields (snprintf_loop mal garbage (S fuel) dp text percent_n room prefixes v) s (plain_error piece (out ++ piece)) (fun _ => final).
Proof using HS Htext.
  intros Hp Hok Ha Hlim final Hnext. pose proof (buffer_size_spec s out tail Hok Ha) as (Hm1 & Hm2 & Hm3).
  pose proof (render_int _ _ _ _ Hp) as Hint. cbn [snprintf_loop]. apply yields_get. fold (buffer_size s). cbv zeta.
  set (r := snprintf _ _ _ _).
  destruct (snprintf_renders (buffer_size s) text percent_n prefixes v piece ltac:(lia) Htext Hp) as (E1 & _ & _). fold r in E1.
  pose proof (vok_range _ _ _ _ _ _ Hok) as Hrange.
  assert (Hout : Z.of_nat (length (out ++ snp_out r)) <= v_allocated s /\ Z.of_nat (length (out ++ snp_out r)) <= limit).
  { rewrite E1. rewrite !length_app, length_take in *. simpl. lia. }
  apply yields_bind. eapply yields_mono; [exact (store_ok _ _ _ s out tail _ (fun _ => False) Hok (proj1 Hout) (proj2 Hout))|done|].
  intros _ s1 (Hok1 & Ha1 & Hc1). apply yields_bind. eapply yields_mono; [apply (judge_ok percent_n room (buffer_size s) piece s1 out (fun _ => False)); [done|lia|exact Hok1]|done|].
  intros x s1' [-> ->]. apply yields_get.
  assert (El1 : v_length s1 = Z.of_nat (length out)) by exact (vok_length _ _ _ _ _ _ Hok1).
  rewrite (proj2 (Z.ltb_ge _ _)) by lia. rewrite !wrapw_small by (unfold INT_MAX in *; lia).
  destruct (Z.leb_spec (buffer_size s) (Z.of_nat (length piece) + 1)) as [Hsmall|Hfits].
  - destruct (Z.eqb_spec (buffer_size s) INT_MAX) as [Emax|Hmax].
    { split; [right; split; [done|lia]|apply Hok1]. }
    apply yields_bind. rewrite El1. set (n := xmax _ _).
    assert (Hn : n = Z.min (Z.max (Z.of_nat (length out) + (Z.of_nat (length piece) + 2)) (2 * v_allocated s1)) SIZE_MAX).
    { unfold n, xmax. rewrite Ha1. rewrite length_app in Hrange. rewrite xsum_spec, xtimes_spec by (unfold SIZE_MAX, INT_MAX in *; lia).
      destruct (Z.leb_spec (Z.min (v_allocated s * 2) SIZE_MAX) (Z.min (Z.of_nat (length out) + (Z.of_nat (length piece) + 2)) SIZE_MAX)); lia. }
    eapply yields_mono; [apply (ensure_ok _ _ _ _ _ n s1 out _ Hok1); unfold SIZE_MAX in *; lia| |].
    + intros e [-> [Hmal|Hbig]]; left; (split; [done|]); [by left|right]. rewrite length_app.
      unfold INT_MAX, SIZE_MAX in *. lia.
    + intros _ s2 (Hok2 & Hle & Hc2 & _). apply Hnext; [done|congruence| |pose proof (vok_range _ _ _ _ _ _ Hok2); lia|unfold INT_MAX in *; lia|lia].
      pose proof (vok_range _ _ _ _ _ _ Hok2) as Hr2.
      destruct (buffer_size_spec s2 out [] Hok2) as (_ & _ & Hm); [lia|]. rewrite Hm. lia.
  - rewrite E1, take_ge in Hok1 by lia.
    unfold yields at 1. cbn [put_state].
    rewrite wrapw_small by (unfold SIZE_MAX in *; rewrite length_app in Hrange; lia).
    split; [|exact Hc1]. apply advance; [done|]. rewrite length_app. lia.
Qed.

Lemma snprintf_loop_ok fuel percent_n room piece s out tail :
  (2 <= fuel)%nat -> render text prefixes v = Some piece -> vok s out tail -> Z.of_nat (length out) + 2 <= v_allocated s ->
  Z.of_nat (length (out ++ piece)) + 1 <= limit ->
  yields (snprintf_loop mal garbage fuel dp text percent_n room prefixes v) s (plain_error piece (out ++ piece))
    (fun _ s' => vok s' (out ++ piece) [0] /\ v_counts s' = v_counts s).
Proof using HS Htext.
  intros Hf. destruct fuel as [|[|fuel]]; [lia..|]. clear Hf. intros Hp Hok Ha Hlim. apply (snprintf_step _ _ _ _ _ _ _ Hp Hok Ha Hlim).
  intros s1 Hok1 Hc1 Hbig Ha1 _ _. eapply yields_mono; [apply (snprintf_step fuel percent_n room piece s1 out [] Hp Hok1 Ha1 Hlim)|done|].
  - intros s2 _ _ _ _ Hlt Hge. lia.
  - intros _ s2 [H1 H2]. split; [done|congruence].
Qed.
(** A directive that cannot be formatted: each round without success at least doubles the
    memory, so that the loop ends. *)
Lemma snprintf_loop_fails fuel (percent_n : bool) tmp_length s out tail :
  render text prefixes v = None -> vok s out tail -> Z.of_nat (length out) + 2 <= v_allocated s -> 2 * SIZE_MAX <= limit ->
  0 <= tmp_length <= SIZE_MAX ->
  2 ^ 65 * (if percent_n then 2 else 1) <= v_allocated s * 2 ^ Z.of_nat fuel ->
  yields (snprintf_loop mal garbage fuel dp text percent_n (Some tmp_length) prefixes v) s (fun _ => True) (fun _ _ => False).
Proof using HS Htext.
  intros Hp Hok Ha Hlim Ht. revert percent_n s tail Hok Ha. induction fuel as [|fuel IH]; intros percent_n s tail Hok Ha Hf;
    pose proof (vok_range _ _ _ _ _ _ Hok) as Hrange.
  { simpl in Hf. unfold SIZE_MAX in *. destruct percent_n; lia. }
  pose proof (buffer_size_spec s out tail Hok Ha) as (Hm1 & Hm2 & Hm3).
  rewrite Nat2Z.inj_succ, Z.pow_succ_r in Hf by lia.
  cbn [snprintf_loop]. apply yields_get. fold (buffer_size s). cbv zeta. set (r := snprintf _ _ _ _).
  destruct (snprintf_fails (buffer_size s) text percent_n prefixes v ltac:(lia) Htext Hp) as (E1 & E2). fold r in E1, E2.
  pose proof (snprintf_fits (buffer_size s) (text ++ if percent_n then cs "%n" else []) prefixes v ltac:(lia)) as Hfit. fold r in Hfit.
  rewrite length_app in Hrange.
  apply yields_bind. eapply yields_mono; [apply (store_ok _ _ _ s out tail _ (fun _ => False) Hok); rewrite length_app; unfold SIZE_MAX in *; lia|done|].
  intros _ s1 (Hok1 & Ha1 & _). apply yields_bind. unfold judge. rewrite E2.
  destruct percent_n.
  { apply yields_ret, yields_get. apply (IH false s1 _ Hok1); [lia|]. rewrite Ha1. lia. }
  rewrite (proj2 (Z.ltb_lt _ _)) by lia. destruct (Z.ltb_spec (buffer_size s) tmp_length) as [Hroom|_]; apply yields_ret, yields_get; cycle 1.
  { cbn [Z.ltb]. split; [done|apply Hok1]. }
  rewrite Ha1. set (n := if _ <? _ then _ else _). apply yields_bind.
  assert (Hn : Z.min (2 * v_allocated s + 12) SIZE_MAX <= n <= SIZE_MAX).
  { pose proof (xsum_range (v_length s1) tmp_length) as X1. rewrite (vok_length _ _ _ _ _ _ Hok1) in X1.
    assert (X2 : xsum (xtimes (v_allocated s) 2) 12 = Z.min (2 * v_allocated s + 12) SIZE_MAX).
    { rewrite xtimes_spec, xsum_spec by (unfold SIZE_MAX in *; lia). lia. }
    unfold n. rewrite X2, (vok_length _ _ _ _ _ _ Hok1).
    destruct (Z.ltb_spec (xsum (Z.of_nat (length out)) tmp_length) (Z.min (2 * v_allocated s + 12) SIZE_MAX)); unfold SIZE_MAX in *; lia. }
  eapply yields_mono; [apply (ensure_ok _ _ _ _ _ n s1 out _ Hok1); unfold SIZE_MAX in *; lia|done|].
  intros _ s2 (Hok2 & Hle & _). pose proof (vok_range _ _ _ _ _ _ Hok2) as Hr2.
  apply (IH false s2 _ Hok2); unfold SIZE_MAX in *; lia || nia.
Qed.
End Plain.

(** ** The directives of a parsed format *)

Section Directive.
Context (format : cstr) (types : list arg_type) (values : list va_value).

Lemma xsum_bounds a b : 0 <= xsum a b <= SIZE_MAX.
Proof using Type.
  unfold xsum. cbv zeta. pose proof (wrapw_range 64 ltac:(lia) (a + b)). unfold SIZE_MAX in *. case_if; lia.
Qed.

Lemma digits_range text : 0 <= digits text <= SIZE_MAX.
Proof using Type.
  unfold digits. assert (Hfold : forall n, 0 <= n <= SIZE_MAX ->
    0 <= fold_left (fun n c => xsum (xtimes n 10) (c - chr "0")) text n <= SIZE_MAX).
  { induction text as [|c text IH]; intros n Hn; [done|]. apply IH, xsum_bounds. }
  apply Hfold. unfold SIZE_MAX. lia.
Qed.

(** An argument as PRINTF_FETCHARGS stores it. *)
Definition va_ok (v : va_value) : Prop :=
  match v with
  | VInt z => - 2 ^ 31 <= z < 2 ^ 31
  | VString (Some s) => Z.of_nat (length s) <= SIZE_MAX
  | VWideString (Some l) => Forall (fun wc => wc <> 0) l /\ 64 * Z.of_nat (length l) <= SIZE_MAX
  | _ => True
  end.

Definition values_ok : Prop :=
  forall i t, types !! i = Some t -> t <> TYPE_NONE ->
    exists v0 v, values !! i = Some v /\ fetch t v0 = Some v /\ va_ok v.

(** A width that is passed as an argument is not [INT_MIN]. *)
Definition width_ok (dp : directive) : Prop :=
  width_arg_index dp <> ARG_NONE -> int_arg types values (width_arg_index dp) <> Some (- 2 ^ 31).

Context (Hvalues : values_ok) (st : parse_state) (Hst : args st = types).

Lemma int_arg_ok i : index_ok st i -> i <> ARG_NONE -> exists z, int_arg types values i = Some z /\ - 2 ^ 31 <= z < 2 ^ 31.
Proof using All.
  intros [->|(_ & _ & Hi)] Hne; [done|]. rewrite Hst in Hi. destruct (Hvalues _ _ Hi) as (v0 & v & Hv & Hf & Hok); [done|].
  unfold int_arg, arg_at. rewrite Hi, Hv. simpl. destruct v0; try done. injection Hf as <-. by eexists.
Qed.

Lemma get_width_ok dp :
  index_ok st (width_arg_index dp) -> width_ok dp ->
  exists fl width, get_width format types values dp = Some (fl, width) /\
    match width with Some w => 0 <= w <= SIZE_MAX | None => True end.
Proof using All.
  intros Hi Hw. unfold get_width. destruct (field_text _ _ _) as [text|]; [|by eexists _, None].
  destruct (Z.eqb_spec (width_arg_index dp) ARG_NONE) as [|Hne]; [eexists _, (Some _); split; [done|apply digits_range]|].
  destruct (int_arg_ok _ Hi Hne) as (z & Ez & Hz). rewrite Ez. cbn [mbind option_bind].
  destruct (Z.ltb_spec z 0); [destruct (Z.eqb_spec z (- 2 ^ 31)) as [->|]|].
  - by destruct (Hw Hne).
  - eexists _, (Some _). split; [done|]. rewrite wrapw_small by lia. unfold SIZE_MAX. lia.
  - eexists _, (Some _). split; [done|]. unfold SIZE_MAX. lia.
Qed.

Lemma get_precision_ok dp :
  index_ok st (precision_arg_index dp) ->
  exists has_precision precision, get_precision format types values dp = Some (has_precision, precision) /\
    0 <= precision <= SIZE_MAX.
Proof using All.
  intros Hi. unfold get_precision. destruct (field_text _ _ _) as [text|]; [|eexists _, _; split; [done|unfold SIZE_MAX; lia]].
  destruct (Z.eqb_spec (precision_arg_index dp) ARG_NONE) as [|Hne]; [eexists _, _; split; [done|apply digits_range]|].
  destruct (int_arg_ok _ Hi Hne) as (z & Ez & Hz). rewrite Ez. cbn [mbind option_bind].
  destruct (Z.leb_spec 0 z); (eexists _, _; split; [done|unfold SIZE_MAX; lia]).
Qed.

Lemma get_prefixes_ok dp :
  index_ok st (width_arg_index dp) -> index_ok st (precision_arg_index dp) ->
  exists l, get_prefixes types values dp = Some l.
Proof using All.
  intros Hw Hp.
  assert (H : forall i, index_ok st i -> exists l, get_prefix types values i = Some l).
  { intros i Hi. unfold get_prefix. destruct (Z.eqb_spec i ARG_NONE) as [|Hne]; [by eexists|].
    destruct (int_arg_ok i Hi Hne) as (z & Ez & _). rewrite Ez. by eexists. }
  destruct (H _ Hw) as [l1 E1], (H _ Hp) as [l2 E2]. unfold get_prefixes. rewrite E1, E2. by eexists.
Qed.

(** ** The directive in [buf] *)

Lemma flag_text_length glibc fl : (length (flag_text glibc fl) <= if glibc then 7 else 6)%nat.
Proof using Type. unfold flag_text. destruct glibc; repeat case_if; simpl; lia. Qed.

Lemma size_text_length t : (length (size_text t) <= 2)%nat.
Proof using Type. destruct t; simpl; lia. Qed.

Lemma field_text_length max a b :
  text_ok format max a b -> 0 <= max -> Z.of_nat (length (default [] (field_text format a b))) <= max.
Proof using Type.
  unfold text_ok, field_text. destruct a as [a|], b as [b|]; simpl; try done. intros [Hab Hm] _.
  destruct (Nat.eqb_spec a b); simpl; [lia|]. unfold slice. rewrite length_take, length_drop. lia.
Qed.

Lemma build_directive_ok {A} glibc dp fl t user blocks s E (f : cstr -> vprog A) Q :
  text_ok format (max_width_length st) (width_start dp) (width_end dp) -> 0 <= max_width_length st ->
  text_ok format (max_precision_length st) (precision_start dp) (precision_end dp) -> 0 <= max_precision_length st ->
  yields user blocks (f (directive_text glibc format dp fl t)) s E Q ->
  yields user blocks (build_directive glibc format (13 + max_width_length st + max_precision_length st) dp fl t ≫= f) s E Q.
Proof using Type.
  intros Hw Hw0 Hp Hp0 Hf. apply yields_bind. unfold build_directive. cbv zeta.
  pose proof (field_text_length _ _ _ Hw Hw0) as Lw. pose proof (field_text_length _ _ _ Hp Hp0) as Lp.
  pose proof (flag_text_length glibc fl) as Lf. pose proof (size_text_length t) as Ls.
  rewrite (proj2 (Z.leb_le _ _)); [by apply yields_ret|]. unfold directive_text. rewrite !length_app. simpl.
  destruct glibc; lia.
Qed.

(** The conversions snprintf() is called for have a type it is called with, and an estimate of
    their size. *)
Lemma conversion_room `{!Wcrtomb} {HW : WcrtombLaws} size c t conv :
  conversion_type size c = Some (t, conv) -> t <> TYPE_NONE -> conv <> chr "n" ->
  ~ (conv = chr "s" /\ t = TYPE_WIDE_STRING) ->
  conv <> chr "%" /\ snprintf_type t = true /\ forall v0 v width has_precision precision,
    fetch t v0 = Some v -> va_ok v -> 0 <= precision <= SIZE_MAX ->
    exists room, max_room_needed v conv t width has_precision precision = Some room /\ 0 <= room <= SIZE_MAX.
Proof using Type.
  assert (Hmax : forall v conv t width hp p r, directive_room v conv t hp p = Some r ->
    exists room, max_room_needed v conv t width hp p = Some room /\ 0 <= room <= SIZE_MAX).
  { intros v c' t' width hp p r E. unfold max_room_needed. rewrite E. eexists. split; [done|apply xsum_bounds]. }
  intros Hct Ht Hn Hs. unfold conversion_type in Hct. cbn [existsb cs String.list_ascii_of_string map] in Hct.
  repeat match type of Hct with
  | (if ?b then _ else _) = _ => destruct b eqn:?; [|]
  end; try done; simplify_eq;
  repeat match goal with
  | H : (_ || _)%bool = true |- _ => apply orb_true_iff in H as [H|H]
  | H : (_ =? _) = true |- _ => apply Z.eqb_eq in H; subst
  end; try done;
  (split; [done|]); (split; [repeat case_if; done|]); intros v0 v width hp p Hf Hv Hp; try (eapply Hmax; reflexivity).
  - destruct (8 <=? size); [by destruct Hs|]. destruct v0; try done. injection Hf as <-. eapply Hmax. reflexivity.
  - by destruct Hs.
Qed.

Lemma directive_text_last glibc dp fl t : last (directive_text glibc format dp fl t) = Some (conversion dp).
Proof using Type. unfold directive_text. rewrite !app_assoc. apply last_snoc. Qed.
(** ** Executing a directive *)

(** What a directive puts out. *)
Definition directive_output `{!Snprintf, !SnprintfLaws, !Wcrtomb} (glibc : bool) (dp : directive) : option (list Z) :=
  if conversion dp =? chr "%" then Some (cs "%")
  else
    '(type, v) ← arg_at types values (arg_index dp);
    if conversion dp =? chr "n" then Some []
    else if (conversion dp =? chr "s") && bool_decide (type = TYPE_WIDE_STRING) then
      match v with
      | VWideString (Some arg) =>
          '(_, width) ← get_width format types values dp;
          '(has_precision, precision) ← get_precision format types values dp;
          wide_output (bit_set (flags dp) FLAG_LEFT) width has_precision precision arg
      | _ => None
      end
    else
      '(fl, _) ← get_width format types values dp;
      prefixes ← get_prefixes types values dp;
      render (directive_text glibc format dp fl type) prefixes v.

(** What [%n] stores when the output so far has [n] bytes. *)
Definition directive_count (dp : directive) (n : Z) : list (Z * arg_type * Z) :=
  match arg_at types values (arg_index dp) with
  | Some (type, VPointer p) =>
      if conversion dp =? chr "n" then
        let w := match type with TYPE_COUNT_SCHAR_POINTER => 8 | TYPE_COUNT_SHORT_POINTER => 16
                 | TYPE_COUNT_INT_POINTER => 32 | _ => 64 end in
        [(p, type, to_signed w n)]
      else []
  | _ => []
  end.

Section Exec.
Context `{!Snprintf} {HS : SnprintfLaws} `{!Wcrtomb} {HW : WcrtombLaws}.
Context (glibc : bool) (user : option nat) (limit : Z) (mal : nat -> Z -> bool) (garbage : nat -> nat -> Z) (blocks : Z).
Abbreviation vok := (vok user limit blocks).
Abbreviation yields := (yields user blocks).
Abbreviation buf_neededlength := (13 + max_width_length st + max_precision_length st).

Lemma plain_directive_ok dp fl width has_precision precision t v l room s out tail :
  dir_ok format st dp -> 0 <= max_width_length st -> 0 <= max_precision_length st ->
  get_width format types values dp = Some (fl, width) ->
  get_precision format types values dp = Some (has_precision, precision) ->
  get_prefixes types values dp = Some l -> snprintf_type t = true -> conversion dp <> chr "n" ->
  max_room_needed v (conversion dp) t (default 0 width) has_precision precision = Some room -> 0 <= room <= SIZE_MAX ->
  vok s out tail ->
  match render (directive_text glibc format dp fl t) l v with
  | Some piece => Z.of_nat (length (out ++ piece)) + 1 <= limit ->
      yields (plain_directive glibc mal garbage format types values buf_neededlength dp t v) s
        (plain_error mal piece (out ++ piece)) (fun _ s' => vok s' (out ++ piece) [0] /\ v_counts s' = v_counts s)
  | None => 2 * SIZE_MAX <= limit ->
      yields (plain_directive glibc mal garbage format types values buf_neededlength dp t v) s (fun _ => True) (fun _ _ => False)
  end.
Proof using HS.
  intros Hdp Hw0 Hp0 Ew Ep El Ht Hn Er Hroom Hok.
  assert (exists n, loop_fuel = n /\ (2 <= n)%nat /\ 2 ^ 66 <= 2 * 2 ^ Z.of_nat n) as (fuel & Efuel & Hf2 & Hfuel).
  { exists 70%nat. split_and!; [done|lia|simpl Z.of_nat; lia]. }
  set (rest := snprintf_loop mal garbage fuel dp (directive_text glibc format dp fl t) (negb glibc) (Some room) l v).
  assert (Hlast : last (directive_text glibc format dp fl t) <> Some (chr "n")) by (rewrite directive_text_last; congruence).
  assert (Hstart : forall E Q, Z.of_nat (length out) + 1 <= limit -> (forall e, no_memory mal (out : list Z) e -> E e) ->
    (forall s', vok s' out [0] -> Z.of_nat (length out) + 2 <= v_allocated s' -> v_counts s' = v_counts s -> yields rest s' E Q) ->
    yields (plain_directive glibc mal garbage format types values buf_neededlength dp t v) s E Q).
  { intros E Q Hlim HE HQ. unfold plain_directive. apply yields_bind. rewrite Ew. apply yields_ret, yields_bind. rewrite Ep. apply yields_ret.
    apply build_directive_ok; [apply Hdp|done|apply Hdp|done|]. apply yields_bind. rewrite El. apply yields_ret, yields_get.
    pose proof (vok_range _ _ _ _ _ _ Hok) as Hr. rewrite length_app in Hr. pose proof (vok_length _ _ _ _ _ _ Hok) as Elen.
    pose proof (xsum_spec (v_length s) 2 ltac:(lia) ltac:(unfold SIZE_MAX; lia)) as Hx.
    apply yields_bind. eapply yields_mono; [apply (ensure_ok _ _ _ _ _ _ _ _ _ Hok); rewrite Hx; unfold SIZE_MAX in *; lia| |].
    { intros e [-> [Hm|Hm]]; apply HE; (split; [done|]); [by left|right]. lia. }
    intros _ s1 (Hok1 & Hle & Hc1 & _). pose proof (vok_range _ _ _ _ _ _ Hok1) as Hr1. pose proof (vok_length _ _ _ _ _ _ Hok1) as El1.
    rewrite <- Elen in El1. rewrite <- El1. apply yields_bind. rewrite app_nil_r in Hr1.
    eapply yields_mono; [apply (store_ok _ _ _ s1 out [] [0] E Hok1); rewrite length_app; simpl; lia|done|].
    intros _ s2 (Hok2 & Ha2 & Hc2). rewrite Ht, Er, Efuel. apply HQ; [done|lia|congruence]. }
  destruct (render _ _ _) as [piece|] eqn:Ere; intros Hlim; apply Hstart.
  - rewrite length_app in Hlim. lia.
  - intros e He. left. by apply no_memory_longer.
  - intros s1 Hok1 Ha1 Hc1. eapply yields_mono; [apply (snprintf_loop_ok _ _ _ _ _ dp _ l v Hlast fuel _ _ _ _ _ _ Hf2 Ere Hok1 Ha1 Hlim)|done|].
    intros _ s2 [H1 H2]. split; [done|congruence].
  - pose proof (vok_range _ _ _ _ _ _ Hok) as Hr. rewrite length_app in Hr. unfold SIZE_MAX in *. lia.
  - done.
  - intros s1 Hok1 Ha1 _. apply (snprintf_loop_fails _ _ _ _ _ dp _ l v Hlast fuel _ _ _ _ _ Ere Hok1 Ha1 Hlim Hroom).
    destruct (negb glibc); nia.
Qed.
Lemma store_count_ok t v0 v s out tail (E : errno -> Prop) size c :
  conversion_type size c = Some (t, chr "n") -> fetch t v0 = Some v -> vok s out tail ->
  exists p, v = VPointer p /\
    let w := match t with TYPE_COUNT_SCHAR_POINTER => 8 | TYPE_COUNT_SHORT_POINTER => 16
             | TYPE_COUNT_INT_POINTER => 32 | _ => 64 end in
    yields (store_count t v) s E (fun _ s' => vok s' out tail /\
      v_counts s' = v_counts s ++ [(p, t, to_signed w (Z.of_nat (length out)))]).
Proof using Type.
  intros Hct Hf Hok.
  assert (Ht : t = TYPE_COUNT_SCHAR_POINTER \/ t = TYPE_COUNT_SHORT_POINTER \/ t = TYPE_COUNT_INT_POINTER \/
    t = TYPE_COUNT_LONGINT_POINTER \/ t = TYPE_COUNT_LONGLONGINT_POINTER).
  { unfold conversion_type in Hct. cbn [existsb cs String.list_ascii_of_string map] in Hct.
    repeat match type of Hct with (if ?b then _ else _) = _ => destruct b eqn:?; [|] end; try done; simplify_eq;
    repeat match goal with
    | H : (_ || _)%bool = true |- _ => apply orb_true_iff in H as [H|H]
    | H : (_ =? _) = true |- _ => apply Z.eqb_eq in H; subst
    end; try done; repeat case_if; auto. }
  assert (Hrun : forall p w, vok (with_count s (p, t, to_signed w (v_length s))) out tail).
  { intros p w. destruct Hok as [? ? ? ?]. by split. }
  pose proof (vok_length _ _ _ _ _ _ Hok) as El.
  destruct Ht as [->|[->|[->|[->| ->]]]]; (destruct v0; try done; injection Hf as <-; eexists; split; [reflexivity|]);
    (split; [apply Hrun|simpl; by rewrite El]).
Qed.

Lemma exec_directive_ok dp s out tail :
  dir_ok format st dp -> 0 <= max_width_length st -> 0 <= max_precision_length st -> width_ok dp -> vok s out tail ->
  match directive_output glibc dp with
  | Some piece => Z.of_nat (length (out ++ piece)) + 1 <= limit ->
      yields (exec_directive glibc mal garbage format types values buf_neededlength dp) s (plain_error mal piece (out ++ piece))
        (fun _ s' => exists tail', vok s' (out ++ piece) tail' /\
           v_counts s' = v_counts s ++ directive_count dp (Z.of_nat (length out)))
  | None => 2 * SIZE_MAX <= limit ->
      yields (exec_directive glibc mal garbage format types values buf_neededlength dp) s (fun _ => True) (fun _ _ => False)
  end.
Proof using All.
  intros Hdp Hw0 Hp0 Hw Hok. unfold directive_output, exec_directive, directive_count.
  pose proof (dok_arg _ _ _ Hdp) as Harg.
  destruct (Z.eqb_spec (conversion dp) (chr "%")) as [Hpc|Hpc].
  { intros Hlim. destruct Harg as [[-> _]|(_ & size & c & t & Hct & Ht & _)]; [|exfalso].
    - rewrite Z.eqb_refl. eapply yields_mono; [apply (append_ok _ _ _ _ _ s out tail _ Hok); [done|lia]|by left|].
      intros _ s1 [H1 H2]. exists []. split; [done|]. rewrite H2.
      rewrite (proj2 (Z.eqb_neq (conversion dp) (chr "n"))) by (by rewrite Hpc).
      destruct (arg_at types values ARG_NONE) as [[? []]|]; by rewrite app_nil_r.
    - rewrite Hpc in Hct. destruct (conversion_room size c t _ Hct Ht) as [[] _]; [done|by intros []|done]. }
  destruct Harg as [[_ ?]|(Hi & size & c & t & Hct & Ht & _ & Hty)]; [done|].
  rewrite (proj2 (Z.eqb_neq _ _) Hi). rewrite Hst in Hty. destruct (Hvalues _ _ Hty Ht) as (v0 & v & Hv & Hf & Hva).
  assert (Eat : arg_at types values (arg_index dp) = Some (t, v)) by (unfold arg_at; by rewrite Hty, Hv).
  rewrite Eat. cbn [mbind option_bind].
  destruct (Z.eqb_spec (conversion dp) (chr "n")) as [Hn|Hn].
  { intros Hlim. rewrite Hn in Hct. destruct (store_count_ok t v0 v s out tail (plain_error mal [] (out ++ [])) size c Hct Hf Hok) as (p & -> & Hy).
    eapply yields_mono; [exact Hy|done|]. intros _ s1 [H1 H2]. exists tail. rewrite app_nil_r. split; [done|exact H2]. }
  destruct (get_width_ok dp (dok_width _ _ _ Hdp) Hw) as (fl & width & Ew & Hwr).
  destruct (get_precision_ok dp (dok_precision _ _ _ Hdp)) as (hp & pr & Ep & Hpr).
  destruct (get_prefixes_ok dp (dok_width _ _ _ Hdp) (dok_precision _ _ _ Hdp)) as (l & El).
  destruct (decide (conversion dp = chr "s" /\ t = TYPE_WIDE_STRING)) as [[Es ->]|Hns].
  - rewrite Es, Z.eqb_refl, bool_decide_eq_true_2 by done. cbn [andb]. destruct v0; try done. injection Hf as <-.
    rewrite Ew, Ep. cbn [mbind option_bind]. destruct Hva as [Hnz Hlen].
    pose proof (wide_string_ok user limit mal garbage blocks format types values dp fl width hp pr _ s out tail Ew Ep Hwr Hpr Hnz Hlen Hok) as Hws.
    destruct (wide_output _ _ _ _ _) as [piece|]; [|exact Hws]. intros Hlim.
    eapply yields_mono; [apply Hws; lia|by left|]. intros _ s1 [H1 H2]. exists []. split; [done|]. simpl. by rewrite H2, app_nil_r.
  - destruct (conversion_room size c t _ Hct Ht Hn Hns) as (_ & Hsn & Hroom).
    destruct (Hroom v0 v (default 0 width) hp pr Hf Hva Hpr) as (room & Er & Hrr).
    pose proof (plain_directive_ok dp fl width hp pr t v l room s out tail Hdp Hw0 Hp0 Ew Ep El Hsn Hn Er Hrr Hok) as Hpl.
    replace ((conversion dp =? chr "s") && bool_decide (t = TYPE_WIDE_STRING)) with false; cycle 1.
    { symmetry. apply andb_false_iff. destruct (Z.eqb_spec (conversion dp) (chr "s")); [right|by left].
      apply bool_decide_eq_false_2. tauto. }
    rewrite Ew, El. cbn [mbind option_bind]. destruct (render _ _ _) as [piece|]; [|exact Hpl]. intros Hlim.
    eapply yields_mono; [by apply Hpl|done|]. intros _ s1 [H1 H2]. exists [0]. split; [done|].
    destruct v; simpl; by rewrite H2, app_nil_r.
Qed.
End Exec.
End Directive.
