(* ===== verification/Snprintf.v ===== *)
(** * The printf() of ISO C and POSIX

    What the text of a format is, by ISO C 7.19.6.1 and, for [n$], POSIX: reading of the
    conversion specifications, the types of their arguments, the flags, the field width, the
    precision and the conversions [d i u o x X c s].  None of it refers to what vasnprintf.c does.
    Other conversions are left to the C library.

    [c99_snprintf] is an instance of the interface of Vasnprintf, for one directive with
    at most one value. *)

From S2P Require Import Prelude PrintfParse PrintfParseSpec Vasnprintf VasnprintfSpec VasnprintfOutput.

Open Scope Z_scope.

(** The digits of a natural number. *)
Definition digit_char (upper : bool) (d : Z) : Z :=
  if d <? 10 then chr "0" + d else (if upper then chr "A" else chr "a") + (d - 10).

Fixpoint number_digits (fuel : nat) (base : Z) (upper : bool) (n : Z) : cstr :=
  match fuel with
  | O => []
  | S fuel => if n =? 0 then [] else number_digits fuel base upper (n / base) ++ [digit_char upper (n mod base)]
  end.

(** At least [precision] digits. *)
Definition with_precision (precision : Z) (text : cstr) : cstr :=
  replicate (Z.to_nat (precision - Z.of_nat (length text))) (chr "0") ++ text.

(** What a conversion specification asks for: the set of flags, the field width, the precision and
    the conversion. *)
Record conversion_spec := ConversionSpec {
  cv_flags : Z; cv_width : Z; cv_precision : option Z; cv_conversion : Z
}.

(** The sign or base prefix, and the digits. *)
Definition integer_parts (cv : conversion_spec) (z : Z) : cstr * cstr :=
  let base := if among (cv_conversion cv) "o" then 8 else if among (cv_conversion cv) "xXp" then 16 else 10 in
  let text := with_precision (default 1 (cv_precision cv))
                (number_digits 70 base (among (cv_conversion cv) "X") (Z.abs z)) in
  let sign :=
    if among (cv_conversion cv) "di" then
      if z <? 0 then cs "-" else if bit_set (cv_flags cv) FLAG_SHOWSIGN then cs "+"
      else if bit_set (cv_flags cv) FLAG_SPACE then cs " " else []
    else if among (cv_conversion cv) "p" || (bit_set (cv_flags cv) FLAG_ALT && negb (z =? 0)) then
      (if among (cv_conversion cv) "xp" then cs "0x" else if among (cv_conversion cv) "X" then cs "0X" else [])
    else [] in
  let text := if among (cv_conversion cv) "o" && bit_set (cv_flags cv) FLAG_ALT && negb (cur text =? chr "0")
              then cs "0" ++ text else text in
  (sign, text).

Definition pad_field (cv : conversion_spec) (zeros : bool) (prefix body : cstr) : cstr :=
  let n := Z.to_nat (cv_width cv - Z.of_nat (length prefix + length body)) in
  if bit_set (cv_flags cv) FLAG_LEFT then prefix ++ body ++ replicate n (chr " ")
  else if zeros && bit_set (cv_flags cv) FLAG_ZERO then prefix ++ replicate n (chr "0") ++ body
  else replicate n (chr " ") ++ prefix ++ body.

Definition integer_value (v : va_value) : option Z :=
  match v with
  | VInt z | VUint z | VLong z | VUlong z | VLlong z | VUllong z | VPointer z => Some z
  | _ => None
  end.

Definition render_spec (cv : conversion_spec) (v : va_value) : option cstr :=
  if among (cv_conversion cv) "diouxXp" then
    z ← integer_value v;
    let '(prefix, body) := integer_parts cv z in
    Some (pad_field cv (match cv_precision cv with None => true | Some _ => false end) prefix body)
  else if among (cv_conversion cv) "c" then
    z ← integer_value v; Some (pad_field cv false [] [wrapw 8 z])
  else if among (cv_conversion cv) "s" then
    match v with
    | VString (Some s) =>
        Some (pad_field cv false [] (match cv_precision cv with Some p => take (Z.to_nat p) s | None => s end))
    | _ => None
    end
  else None.


(** A conversion of integers, or of a character or string that is not wide, whose output is the same in all C
    libraries and all locales. *)
Definition portable (cv : conversion_spec) (v : va_value) : bool :=
  negb (bit_set (cv_flags cv) FLAG_GROUP || bit_set (cv_flags cv) FLAG_LOCALIZED) &&
  (among (cv_conversion cv) "diouxX" ||
   among (cv_conversion cv) "c" && match v with VInt _ => true | _ => false end ||
   among (cv_conversion cv) "s" && match v with VString _ => true | _ => false end).

(** No function of the printf family has more than [INT_MAX] bytes of output. *)
Definition int_text (s : cstr) : option cstr := if Z.of_nat (length s) <=? INT_MAX then Some s else None.

(** The output of a conversion; [other] are the ones that depend on the C library or the locale. *)
Definition meaning (other : conversion_spec -> va_value -> option cstr) (cv : conversion_spec) (v : va_value) : option cstr :=
  if portable cv v then s ← render_spec cv v; int_text s else other cv v.

(** ** Reading a conversion specification *)

(** The longest prefix of characters with a property, and the rest. *)
Fixpoint leading (p : Z -> bool) (s : cstr) : cstr * cstr :=
  match s with
  | [] => ([], [])
  | c :: s' => if p c then let '(a, b) := leading p s' in (c :: a, b) else ([], s)
  end.

Definition decimal_digit (c : Z) : bool := among c "0123456789".
Definition is_flag (c : Z) : bool := among c "'-+ #0I".
Definition is_size (c : Z) : bool := among c "hlLjzZt".

(** The value of decimal digits. *)
Definition number_of (ds : cstr) : Z := fold_left (fun n c => 10 * n + (c - chr "0")) ds 0.

(** Width and precision: digits, perhaps none, or an argument with or without a position. *)
Inductive spec_field := Digits (ds : cstr) | Star (position : option Z).

(** [%], position, flags, width, precision, size and conversion. *)
Record spec := Spec {
  sp_position : option Z; sp_flags : cstr; sp_width : spec_field; sp_precision : option spec_field;
  sp_size : cstr; sp_conversion : Z
}.

Definition read_position (s : cstr) : option Z * cstr :=
  match leading decimal_digit s with
  | ((_ :: _) as ds, c :: rest) => if c =? chr "$" then (Some (number_of ds), rest) else (None, s)
  | _ => (None, s)
  end.

Definition read_width (s : cstr) : spec_field * cstr :=
  match s with
  | c :: s' =>
      if c =? chr "*" then let '(p, rest) := read_position s' in (Star p, rest)
      else let '(ds, rest) := leading decimal_digit s in (Digits ds, rest)
  | [] => (Digits [], [])
  end.

Definition read_precision (s : cstr) : option spec_field * cstr :=
  match s with
  | c :: s' => if c =? chr "." then let '(f, rest) := read_width s' in (Some f, rest) else (None, s)
  | [] => (None, [])
  end.

(** From the character after the percent sign on. *)
Definition read_spec (s : cstr) : option (spec * cstr) :=
  let '(position, s) := read_position s in
  let '(fs, s) := leading is_flag s in
  let '(width, s) := read_width s in
  let '(precision, s) := read_precision s in
  let '(size, s) := leading is_size s in
  match s with
  | c :: rest => Some (Spec position fs width precision size c, rest)
  | [] => None
  end.

(** ** Arguments *)

(** The type a size specifier stands for; [int] and [long] as on LP64 systems. *)
Definition by_size (table : list (string * arg_type)) (size : cstr) : option arg_type :=
  snd <$> find (fun e => bool_decide (cs (fst e) = size)) table.

Definition signed_types : list (string * arg_type) :=
  [("", TYPE_INT); ("hh", TYPE_SCHAR); ("h", TYPE_SHORT); ("l", TYPE_LONGINT); ("ll", TYPE_LONGLONGINT);
   ("L", TYPE_LONGLONGINT); ("j", TYPE_LONGINT); ("z", TYPE_LONGINT); ("Z", TYPE_LONGINT); ("t", TYPE_LONGINT)]%string.
Definition unsigned_types : list (string * arg_type) :=
  [("", TYPE_UINT); ("hh", TYPE_UCHAR); ("h", TYPE_USHORT); ("l", TYPE_ULONGINT); ("ll", TYPE_ULONGLONGINT);
   ("L", TYPE_ULONGLONGINT); ("j", TYPE_ULONGINT); ("z", TYPE_ULONGINT); ("Z", TYPE_ULONGINT); ("t", TYPE_ULONGINT)]%string.
Definition count_types : list (string * arg_type) :=
  [("", TYPE_COUNT_INT_POINTER); ("hh", TYPE_COUNT_SCHAR_POINTER); ("h", TYPE_COUNT_SHORT_POINTER);
   ("l", TYPE_COUNT_LONGINT_POINTER); ("ll", TYPE_COUNT_LONGLONGINT_POINTER);
   ("j", TYPE_COUNT_LONGINT_POINTER); ("z", TYPE_COUNT_LONGINT_POINTER); ("t", TYPE_COUNT_LONGINT_POINTER)]%string.

(** The type of the argument; [S] and [C] are other names of [ls] and [lc]. *)
Definition argument_type (size : cstr) (c : Z) : option (arg_type * Z) :=
  if among c "di" then t ← by_size signed_types size; Some (t, c)
  else if among c "ouxX" then t ← by_size unsigned_types size; Some (t, c)
  else if among c "fFeEgGaA" then
    t ← by_size [("", TYPE_DOUBLE); ("l", TYPE_DOUBLE); ("L", TYPE_LONGDOUBLE)]%string size; Some (t, c)
  else if among c "c" then t ← by_size [("", TYPE_CHAR); ("l", TYPE_WIDE_CHAR)]%string size; Some (t, c)
  else if among c "s" then t ← by_size [("", TYPE_STRING); ("l", TYPE_WIDE_STRING)]%string size; Some (t, c)
  else if among c "C" then t ← by_size [("", TYPE_WIDE_CHAR)]%string size; Some (t, chr "c")
  else if among c "S" then t ← by_size [("", TYPE_WIDE_STRING)]%string size; Some (t, chr "s")
  else if among c "p" then t ← by_size [("", TYPE_POINTER)]%string size; Some (t, c)
  else if among c "n" then t ← by_size count_types size; Some (t, c)
  else if among c "%" then t ← by_size [("", TYPE_NONE)]%string size; Some (t, c)
  else None.

(** The argument that is passed, converted to its type; [None] if it is of another type.  A null
    pointer is printed as (NULL). *)
Definition argument (t : arg_type) (v : va_value) : option va_value :=
  match t, v with
  | TYPE_SCHAR, VInt z => Some (VInt ((z + 128) mod 256 - 128))
  | TYPE_UCHAR, VInt z => Some (VInt (z mod 256))
  | TYPE_SHORT, VInt z => Some (VInt ((z + 32768) mod 65536 - 32768))
  | TYPE_USHORT, VInt z => Some (VInt (z mod 65536))
  | (TYPE_INT | TYPE_CHAR), VInt z => Some (VInt z)
  | TYPE_UINT, VUint z => Some (VUint z)
  | TYPE_UINT, VInt z => if 0 <=? z then Some (VInt z) else None
  | TYPE_LONGINT, VLong z => Some (VLong z)
  | TYPE_ULONGINT, VUlong z => Some (VUlong z)
  | TYPE_LONGLONGINT, VLlong z => Some (VLlong z)
  | TYPE_ULONGLONGINT, VUllong z => Some (VUllong z)
  | TYPE_DOUBLE, VDouble x => Some (VDouble x)
  | TYPE_LONGDOUBLE, VLongDouble x => Some (VLongDouble x)
  | TYPE_WIDE_CHAR, VWint z => Some (VWint z)
  | TYPE_STRING, VString s => Some (VString (Some (default (cs "(NULL)") s)))
  | TYPE_WIDE_STRING, VWideString s => Some (VWideString (Some (default (cs "(NULL)") s)))
  | (TYPE_POINTER | TYPE_COUNT_SCHAR_POINTER | TYPE_COUNT_SHORT_POINTER | TYPE_COUNT_INT_POINTER
    | TYPE_COUNT_LONGINT_POINTER | TYPE_COUNT_LONGLONGINT_POINTER), VPointer a => Some (VPointer a)
  | _, _ => None
  end.

(** The index of an argument, and of the next one that has no position. *)
Definition take_position (next : Z) (p : option Z) : Z * Z :=
  match p with Some n => (n - 1, next) | None => (next, next + 1) end.

Definition field_value (va : list va_value) (next : Z) (f : spec_field) : option (Z * Z) :=
  match f with
  | Digits ds => Some (number_of ds, next)
  | Star p =>
      let '(i, next) := take_position next p in
      match va !! Z.to_nat i with Some (VInt z) => Some (z, next) | _ => None end
  end.

Definition precision_value (va : list va_value) (next : Z) (f : option spec_field) : option (option Z * Z) :=
  match f with None => Some (None, next) | Some f => '(p, next) ← field_value va next f; Some (Some p, next) end.

(** The flags are a set. *)
Definition flag_set (fs : cstr) : Z :=
  let has c f := if existsb (Z.eqb c) fs then f else 0 in
  Z.lor (has (chr "'") FLAG_GROUP) (Z.lor (has (chr "-") FLAG_LEFT) (Z.lor (has (chr "+") FLAG_SHOWSIGN)
    (Z.lor (has (chr " ") FLAG_SPACE) (Z.lor (has (chr "#") FLAG_ALT) (Z.lor (has (chr "0") FLAG_ZERO)
      (has (chr "I") FLAG_LOCALIZED)))))).

(** A negative width is the flag [-] and the absolute value; a negative precision is no precision. *)
Definition conversion_of (fl width : Z) (precision : option Z) (c : Z) : conversion_spec :=
  ConversionSpec (if width <? 0 then Z.lor fl FLAG_LEFT else fl) (Z.abs width)
    (match precision with Some p => if p <? 0 then None else Some p | None => None end) c.

(** ** Formats *)

Inductive item := Literal (c : Z) | Conversion (sp : spec).

(** Widths and precisions are not larger than an [int]. *)
Definition bounded (f : spec_field) : bool := match f with Digits ds => number_of ds <=? INT_MAX | Star _ => true end.

Definition standard (sp : spec) : bool :=
  bounded (sp_width sp) && match sp_precision sp with Some f => bounded f | None => true end &&
  match argument_type (sp_size sp) (sp_conversion sp) with Some _ => true | None => false end.

(** The format as a list of characters and of the specifications the standards define; [None] if
    there are others. *)
Fixpoint read_format (fuel : nat) (s : cstr) : option (list item) :=
  match fuel, s with
  | _, [] => Some []
  | O, _ => None
  | S fuel, c :: s =>
      if c =? chr "%" then
        '(sp, s) ← read_spec s;
        items ← read_format fuel s;
        if standard sp then Some (Conversion sp :: items) else None
      else items ← read_format fuel s; Some (Literal c :: items)
  end.

(** What the items put out: text, or the number of bytes so far stored at an address. *)
Inductive output_piece := Text (s : cstr) | Stored (address : Z) (type : arg_type).

Section Formats.
Context `{!Wcrtomb} (other : conversion_spec -> va_value -> option cstr).
(** The flag [I] is one of glibc; elsewhere it has no meaning. *)
Context (glibc : bool) (va : list va_value).

Definition known_flags (fs : cstr) : Z := if glibc then flag_set fs else Z.ldiff (flag_set fs) FLAG_LOCALIZED.

Definition conversion_piece (next : Z) (sp : spec) : option (output_piece * Z) :=
  '(width, next) ← field_value va next (sp_width sp);
  '(precision, next) ← precision_value va next (sp_precision sp);
  '(t, c) ← argument_type (sp_size sp) (sp_conversion sp);
  if decide (t = TYPE_NONE) then Some (Text (cs "%"), next)
  else
    let '(i, next) := take_position next (sp_position sp) in
    v ← va !! Z.to_nat i;
    v ← argument t v;
    let cv := conversion_of (known_flags (sp_flags sp)) width precision c in
    match v with
    | VWideString (Some ws) =>
        s ← wide_output (bit_set (cv_flags cv) FLAG_LEFT) (Some (cv_width cv))
              (match cv_precision cv with Some _ => true | None => false end) (default 0 (cv_precision cv)) ws;
        Some (Text s, next)
    | VPointer a => if c =? chr "n" then Some (Stored a t, next) else s ← meaning other cv v; Some (Text s, next)
    | _ => s ← meaning other cv v; Some (Text s, next)
    end.

Fixpoint pieces (next : Z) (items : list item) : option (list output_piece) :=
  match items with
  | [] => Some []
  | Literal c :: items => rest ← pieces next items; Some (Text [c] :: rest)
  | Conversion sp :: items =>
      '(p, next) ← conversion_piece next sp;
      rest ← pieces next items;
      Some (p :: rest)
  end.
End Formats.

Definition piece_text (p : output_piece) : cstr := match p with Text s => s | Stored _ _ => [] end.
Definition printed_text (ps : list output_piece) : cstr := concat (map piece_text ps).

(** The number of bytes as a value of a signed type. *)
Definition count_bits (t : arg_type) : Z :=
  match t with
  | TYPE_COUNT_SCHAR_POINTER => 8 | TYPE_COUNT_SHORT_POINTER => 16 | TYPE_COUNT_INT_POINTER => 32 | _ => 64
  end.

Fixpoint counts_of (n : Z) (ps : list output_piece) : list (Z * arg_type * Z) :=
  match ps with
  | [] => []
  | Text s :: ps => counts_of (n + Z.of_nat (length s)) ps
  | Stored a t :: ps => (a, t, to_signed (count_bits t) n) :: counts_of n ps
  end.

(** ** A C99 snprintf() *)

(** One directive that begins with a percent sign: what it asks for, the value, and what follows. *)
Definition snprintf_reads (fmt : cstr) (prefixes : list Z) (v : va_value) : option (conversion_spec * va_value * cstr) :=
  '(sp, rest) ← read_spec (drop 1 fmt);
  '(width, next) ← field_value (map VInt prefixes) 0 (sp_width sp);
  '(precision, next) ← precision_value (map VInt prefixes) next (sp_precision sp);
  '(t, c) ← argument_type (sp_size sp) (sp_conversion sp);
  v ← argument t v;
  Some (conversion_of (flag_set (sp_flags sp)) width precision c, v, rest).

(** The output of the directive, and the text after it; snprintf() fails if it is longer than [INT_MAX]. *)
Definition c99_render (fmt : cstr) (prefixes : list Z) (v : va_value) : option (cstr * cstr) :=
  '(cv, v, rest) ← snprintf_reads fmt prefixes v;
  s ← render_spec cv v;
  s ← int_text s;
  Some (s, rest).

Definition EINVAL_number : Z := 22.

(** Only [%n] may follow the directive. *)
#[export] Instance c99_snprintf : Snprintf := fun maxlen fmt prefixes v =>
  match c99_render fmt prefixes v with
  | Some (s, rest) =>
      if decide (rest = [] \/ rest = cs "%n") then
        Snp (if 0 <? maxlen then take (Z.to_nat (maxlen - 1)) s ++ [0] else []) (Z.of_nat (length s))
          (if decide (rest = []) then None else Some (Z.of_nat (length s))) 0
      else Snp [] (-1) None EINVAL_number
  | None => Snp [] (-1) None EINVAL_number
  end.

(** The encoding whose multibyte characters are the bytes. *)
#[export] Instance latin1_wcrtomb : Wcrtomb := {
  mbstate := unit;
  mbstate_init := tt;
  wcrtomb wc st := if (0 <? wc) && (wc <? 256) then Some ([wc], st) else None;
  MB_CUR_MAX := 1
}.

(** malloc() never fails, and new memory is full of ones. *)
Definition format_text (glibc : bool) (resultbuf : option (list Z)) (lengthp : Z) (format : string) (va : list va_value)
    : option (cstr * Z) :=
  match VASNPRINTF glibc (fun _ _ => true) (fun _ _ => 1) 32 88 resultbuf lengthp (cs format) va with
  | Some (Result _ n s) => r ← v_result s; Some (take (Z.to_nat n) r, n)
  | _ => None
  end.

Example positional_text : format_text false None 0 "%2$s is %1$+05d%%" [VInt 42; VString (Some (cs "it"))] =
  Some (cs "it is +0042%", 12).
Proof. vm_compute. reflexivity. Qed.

Example in_buffer : format_text true (Some (replicate 40 7)) 40 "%-6s|%#lx" [VString (Some (cs "ab")); VUlong 255] =
  Some (cs "ab    |0xff", 11).
Proof. vm_compute. reflexivity. Qed.

(** ** It satisfies the laws *)

Abbreviation percent_n := (cs "%n").

Lemma leading_percent p s :
  p (chr "%") = false -> leading p (s ++ percent_n) = ((leading p s).1, (leading p s).2 ++ percent_n).
Proof.
  intros Hp. induction s as [|c s IH]; simpl; [by rewrite Hp|]. destruct (p c); [|done]. rewrite IH. by destruct (leading p s).
Qed.

Lemma read_position_percent s : read_position (s ++ percent_n) = ((read_position s).1, (read_position s).2 ++ percent_n).
Proof.
  unfold read_position. rewrite leading_percent by done.
  destruct (leading decimal_digit s) as [[|d ds] [|c rest]]; try done. simpl. by destruct (c =? chr "$").
Qed.

Lemma read_field_percent s : read_width (s ++ percent_n) = ((read_width s).1, (read_width s).2 ++ percent_n).
Proof.
  destruct s as [|c s]; [done|]. cbn [read_width app]. destruct (c =? chr "*").
  - rewrite read_position_percent. by destruct (read_position s).
  - change (c :: (s ++ percent_n)) with ((c :: s) ++ percent_n). rewrite leading_percent by done.
    by destruct (leading decimal_digit (c :: s)).
Qed.

Lemma read_precision_percent s :
  read_precision (s ++ percent_n) = ((read_precision s).1, (read_precision s).2 ++ percent_n).
Proof.
  destruct s as [|c s]; [done|]. cbn [read_precision app]. destruct (c =? chr "."); [|done].
  rewrite read_field_percent. by destruct (read_width s).
Qed.

Lemma read_spec_percent s :
  match read_spec s with
  | Some (sp, rest) => read_spec (s ++ percent_n) = Some (sp, rest ++ percent_n)
  | None => exists sp rest, read_spec (s ++ percent_n) = Some (sp, rest) /\ sp_conversion sp = chr "%"
  end.
Proof.
  unfold read_spec. rewrite read_position_percent. destruct (read_position s) as [p s1]. cbn [fst snd].
  rewrite leading_percent by done. destruct (leading is_flag s1) as [fs s2]. cbn [fst snd].
  rewrite read_field_percent. destruct (read_width s2) as [w s3]. cbn [fst snd].
  rewrite read_precision_percent. destruct (read_precision s3) as [pr s4]. cbn [fst snd].
  rewrite leading_percent by done. destruct (leading is_size s4) as [size s5]. cbn [fst snd].
  destruct s5 as [|c s5]; [by eexists _, _|done].
Qed.

(** [%n] after a directive does not change what it says; if there is no directive, [%n] does not
    make one. *)
Lemma snprintf_reads_percent fmt px v :
  match snprintf_reads fmt px v with
  | Some (cv, v', rest) => snprintf_reads (fmt ++ percent_n) px v = Some (cv, v', rest ++ percent_n)
  | None => match snprintf_reads (fmt ++ percent_n) px v with
            | Some (cv, _, _) => cv_conversion cv = chr "n"
            | None => True
            end
  end.
Proof.
  unfold snprintf_reads. destruct fmt as [|c fmt].
  { change (read_spec (drop 1 ([] ++ percent_n))) with (Some (Spec None [] (Digits []) None [] (chr "n"), @nil Z)).
    change (read_spec (drop 1 [])) with (@None (spec * cstr)). cbn. by destruct v. }
  cbn [app drop]. rewrite !drop_0. pose proof (read_spec_percent fmt) as H.
  destruct (read_spec fmt) as [[sp rest]|].
  - rewrite H. cbn [mbind option_bind]. destruct (field_value _ _ _) as [[w next]|]; [|done]. cbn [mbind option_bind].
    destruct (precision_value _ _ _) as [[p next']|]; [|done]. cbn [mbind option_bind].
    destruct (argument_type _ _) as [[t c']|]; [|done]. cbn [mbind option_bind]. by destruct (argument t v).
  - destruct H as (sp & rest & -> & Hc). cbn [mbind option_bind]. destruct (field_value _ _ _) as [[w next]|]; [|done].
    cbn [mbind option_bind]. destruct (precision_value _ _ _) as [[p next']|]; [|done]. cbn [mbind option_bind].
    rewrite Hc. destruct (argument_type _ _) as [[t c']|] eqn:E; [|done]. unfold argument_type in E. simpl in E.
    destruct (by_size _ _) as [t'|] eqn:Et; [|done]. cbn in E. injection E as -> <-. unfold by_size in Et. cbn in Et.
    case_bool_decide; [|done]. injection Et as <-. done.
Qed.

Lemma render_spec_n cv v : cv_conversion cv = chr "n" -> render_spec cv v = None.
Proof. intros H. unfold render_spec, among. by rewrite H. Qed.

Definition c99_output (fmt : cstr) (px : list Z) (v : va_value) : option cstr :=
  match c99_render fmt px v with Some (s, []) => Some s | _ => None end.

Lemma c99_fits maxlen fmt px v : 0 < maxlen -> Z.of_nat (length (snp_out (c99_snprintf maxlen fmt px v))) <= maxlen.
Proof.
  intros Hm. unfold c99_snprintf. destruct (c99_render fmt px v) as [[s rest]|]; [|simpl; lia].
  case_if; [|simpl; lia]. simpl. rewrite (proj2 (Z.ltb_lt _ _) Hm), length_app, length_take. simpl. lia.
Qed.

Lemma leading_suffix p s : (leading p s).2 `suffix_of` s.
Proof.
  induction s as [|c s IH]; simpl; [done|]. destruct (p c); [|done]. destruct (leading p s). by apply suffix_cons_r.
Qed.

Lemma read_position_suffix s : (read_position s).2 `suffix_of` s.
Proof.
  unfold read_position. pose proof (leading_suffix decimal_digit s) as H.
  destruct (leading decimal_digit s) as [[|d ds] [|c rest]]; try done. destruct (c =? chr "$"); [|done].
  simpl in *. etransitivity; [|exact H]. by apply suffix_cons_r.
Qed.

Lemma read_field_suffix s : (read_width s).2 `suffix_of` s.
Proof.
  destruct s as [|c s]; [done|]. cbn [read_width]. destruct (c =? chr "*").
  - pose proof (read_position_suffix s). destruct (read_position s). by apply suffix_cons_r.
  - pose proof (leading_suffix decimal_digit (c :: s)). by destruct (leading decimal_digit (c :: s)).
Qed.

Lemma read_precision_suffix s : (read_precision s).2 `suffix_of` s.
Proof.
  destruct s as [|c s]; [done|]. cbn [read_precision]. destruct (c =? chr "."); [|done].
  pose proof (read_field_suffix s). destruct (read_width s). by apply suffix_cons_r.
Qed.

Lemma read_spec_suffix s sp rest : read_spec s = Some (sp, rest) -> rest `suffix_of` s /\ (length rest < length s)%nat.
Proof.
  unfold read_spec. pose proof (read_position_suffix s) as S1. destruct (read_position s) as [p s1].
  pose proof (leading_suffix is_flag s1) as S2. destruct (leading is_flag s1) as [fs s2].
  pose proof (read_field_suffix s2) as S3. destruct (read_width s2) as [w s3].
  pose proof (read_precision_suffix s3) as S4. destruct (read_precision s3) as [pr s4].
  pose proof (leading_suffix is_size s4) as S5. destruct (leading is_size s4) as [size [|c s5]]; [done|].
  simpl in *. intros [= _ <-]. assert (S : c :: s5 `suffix_of` s) by (repeat (etransitivity; [eassumption|]); done).
  split; [etransitivity; [by apply suffix_cons_r|exact S]|]. apply suffix_length in S. simpl in S. lia.
Qed.

Lemma snprintf_reads_suffix fmt px v cv v' rest :
  snprintf_reads fmt px v = Some (cv, v', rest) -> rest `suffix_of` fmt.
Proof.
  unfold snprintf_reads. intros H. destruct (read_spec (drop 1 fmt)) as [[sp r]|] eqn:E; [|done].
  apply read_spec_suffix in E as [E _]. cbn [mbind option_bind] in H. destruct (field_value _ _ _) as [[w next]|]; [|done].
  cbn [mbind option_bind] in H. destruct (precision_value _ _ _) as [[p next']|]; [|done]. cbn [mbind option_bind] in H.
  destruct (argument_type _ _) as [[t c']|]; [|done]. cbn [mbind option_bind] in H. destruct (argument t v); [|done].
  injection H as _ _ <-. etransitivity; [exact E|apply suffix_drop].
Qed.

Lemma int_text_some s t : int_text s = Some t -> t = s /\ Z.of_nat (length s) <= INT_MAX.
Proof. unfold int_text. destruct (Z.leb_spec (Z.of_nat (length s)) INT_MAX); [|done]. by intros [= <-]. Qed.

(** With and without [%n]. *)
Lemma c99_percent dir px v (n : bool) :
  last dir <> Some (chr "n") ->
  match c99_output dir px v with
  | Some s => c99_render (dir ++ if n then percent_n else []) px v = Some (s, if n then percent_n else [])
  | None => match c99_render (dir ++ if n then percent_n else []) px v with
            | Some (_, rest) => rest <> [] /\ rest <> percent_n
            | None => True
            end
  end.
Proof.
  intros Hlast. pose proof (snprintf_reads_percent dir px v) as Hp. unfold c99_output, c99_render.
  destruct (snprintf_reads dir px v) as [[[cv v'] rest]|] eqn:E; cbn [mbind option_bind].
  - pose proof (snprintf_reads_suffix _ _ _ _ _ _ E) as [pre Hpre].
    assert (En : snprintf_reads (dir ++ if n then percent_n else []) px v = Some (cv, v', rest ++ if n then percent_n else [])).
    { destruct n; [exact Hp|]. by rewrite !app_nil_r. }
    rewrite En. cbn [mbind option_bind].
    destruct (render_spec cv v') as [s|]; cbn [mbind option_bind]; [|done]. destruct (int_text s); cbn [mbind option_bind]; [|done].
    destruct rest as [|c rest]; [done|]. split; [done|]. intros Hrest. apply Hlast. rewrite Hpre. destruct n.
    + apply (f_equal length) in Hrest. rewrite length_app in Hrest. simpl in Hrest. lia.
    + rewrite app_nil_r in Hrest. rewrite Hrest. change percent_n with (cs "%" ++ [chr "n"]). rewrite app_assoc. apply last_snoc.
  - destruct n; [|by rewrite app_nil_r, E].
    destruct (snprintf_reads (dir ++ percent_n) px v) as [[[cv v'] rest]|]; cbn [mbind option_bind]; [|done].
    by rewrite render_spec_n.
Qed.

Lemma c99_renders maxlen dir (percent_n : bool) px v s :
  0 < maxlen -> last dir <> Some (chr "n") -> c99_output dir px v = Some s ->
  let r := snprintf maxlen (dir ++ if percent_n then cs "%n" else []) px v in
  snp_out r = take (Z.to_nat (maxlen - 1)) s ++ [0] /\ snp_ret r = Z.of_nat (length s) /\
  snp_count r = if percent_n then Some (Z.of_nat (length s)) else None.
Proof.
  intros Hm Hlast Hr r. pose proof (c99_percent dir px v percent_n Hlast) as Hp. rewrite Hr in Hp.
  unfold r, snprintf, c99_snprintf. rewrite Hp. rewrite (proj2 (Z.ltb_lt _ _) Hm). destruct percent_n.
  - rewrite decide_True by (by right). by rewrite decide_False by done.
  - rewrite decide_True by (by left). by rewrite decide_True by done.
Qed.

Lemma c99_fails maxlen dir (percent_n : bool) px v :
  0 < maxlen -> last dir <> Some (chr "n") -> c99_output dir px v = None ->
  let r := snprintf maxlen (dir ++ if percent_n then cs "%n" else []) px v in
  snp_ret r < 0 /\ snp_count r = None.
Proof.
  intros Hm Hlast Hr r. pose proof (c99_percent dir px v percent_n Hlast) as Hp. rewrite Hr in Hp.
  unfold r, snprintf, c99_snprintf. destruct (c99_render _ px v) as [[s rest]|]; [|done].
  by rewrite decide_False by tauto.
Qed.

Lemma c99_int dir px v s : c99_output dir px v = Some s -> Z.of_nat (length s) <= INT_MAX.
Proof.
  intros Hr. unfold c99_output, c99_render in Hr. destruct (snprintf_reads dir px v) as [[[cv v'] rest]|]; [|done].
  cbn [mbind option_bind] in Hr. destruct (render_spec cv v') as [s'|]; [|done]. cbn [mbind option_bind] in Hr.
  destruct (int_text s') as [t|] eqn:E; [|done]. apply int_text_some in E as [-> Hl]. destruct rest; [|done]. by injection Hr as <-.
Qed.

#[export] Instance c99_laws : SnprintfLaws := Build_SnprintfLaws c99_snprintf c99_output c99_fits c99_renders c99_fails c99_int.

#[export] Instance latin1_laws : WcrtombLaws.
Proof.
  split; [|done]. intros wc st b st' Hwc E. simpl in E. destruct (_ && _); [|done]. injection E as <- <-. simpl. lia.
Qed.

(** ** What is relied on of snprintf() beyond the interface *)

(** It follows the standards: what it puts out for a directive is what the directive asks for. *)
Class IsoSnprintf `{!Snprintf, !SnprintfLaws} := {
  other : conversion_spec -> va_value -> option cstr;
  iso_render dir prefixes v cv v' :
    snprintf_reads dir prefixes v = Some (cv, v', []) -> render dir prefixes v = meaning other cv v'
}.

#[export] Instance c99_iso : IsoSnprintf.
Proof.
  refine {| other cv v := s ← render_spec cv v; int_text s |}. intros dir prefixes v cv v' E.
  unfold render, c99_laws, c99_output, c99_render. rewrite E. cbn [mbind option_bind]. unfold meaning.
  destruct (render_spec cv v') as [s|]; cbn [mbind option_bind]; [|by case_match].
  destruct (int_text s); cbn [mbind option_bind]; by case_match.
Defined.
