(* ===== verification/VasnprintfTheorems.v ===== *)
(** * What vasnprintf.c puts out

    [rendered] is the text a format stands for: the literal pieces and the outputs of the
    directives.  VASNPRINTF returns exactly it, or one of its errors. *)

From S2P Require Import Prelude PrintfParse PrintfParseSpec Vasnprintf VasnprintfSpec VasnprintfOutput Snprintf.

Open Scope Z_scope.

(** ** The lengths that determine the size of [buf] *)

Section Lengths.
Context (sz_argument sz_directive : Z) (mal : nat -> Z -> bool) (len : nat).

Definition lengths_small (st : parse_state) : Prop :=
  0 <= max_width_length st <= 1 + Z.of_nat len /\ 0 <= max_precision_length st <= 2 + Z.of_nat len.

Lemma register_arg_lengths st n t st' :
  register_arg sz_argument mal st n t = Ok st' -> lengths_small st -> lengths_small st'.
Proof using Type.
  unfold register_arg. intros H. apply rbind_ok in H as (st1 & E & H).
  assert (lengths_small st -> lengths_small st1) as Himp.
  { destruct (a_allocated st <=? n); [|by injection E as <-].
    cbv zeta in E. destruct (size_overflow_p _); [done|]. destruct (mal _ _); [|done]. by injection E as <-. }
  cbv zeta in H. destruct (nth _ _ _); try (destruct (decide _); [|done]); injection H as <-; exact Himp.
Qed.

Lemma next_arg_lengths st i r : next_arg st i = Ok r -> lengths_small st -> lengths_small (snd r).
Proof using Type.
  unfold next_arg. cbv zeta. destruct (i =? ARG_NONE); [destruct (_ =? ARG_NONE); [done|]|]; by intros [= <-].
Qed.

Lemma star_arg_lengths st cp r : star_arg sz_argument mal st cp = Ok r -> lengths_small st -> lengths_small (snd r).
Proof using Type.
  unfold star_arg. intros H Hst. apply rbind_ok in H as ([i1 cp1] & _ & H). apply rbind_ok in H as ([i2 st2] & E2 & H).
  apply rbind_ok in H as (st3 & E3 & H). injection H as <-. apply next_arg_lengths in E2; [|done].
  by apply register_arg_lengths in E3.
Qed.

Lemma pos_le cp : (pos len cp <= len)%nat.
Proof using Type. unfold pos. lia. Qed.

Lemma parse_width_lengths st cp r :
  parse_width sz_argument mal len st cp = Ok r -> lengths_small st -> lengths_small (snd r).
Proof using Type.
  unfold parse_width. cbv zeta. intros H Hst. destruct (cur cp =? chr "*"); [|destruct (is_dec (cur cp))].
  - apply rbind_ok in H as ([[i1 cp1] st1] & E & H). injection H as <-. apply (star_arg_lengths _ _ _ E).
    destruct Hst as [? ?]. split; simpl; lia.
  - injection H as <-. pose proof (pos_le (skip_digits cp)). destruct Hst as [? ?]. split; simpl; lia.
  - by injection H as <-.
Qed.

Lemma parse_precision_lengths st cp r :
  parse_precision sz_argument mal len st cp = Ok r -> lengths_small st -> lengths_small (snd r).
Proof using Type.
  unfold parse_precision. cbv zeta. intros H Hst. destruct (cur cp =? chr "."); [destruct (cur _ =? chr "*")|].
  - apply rbind_ok in H as ([[i1 cp1] st1] & E & H). injection H as <-. apply (star_arg_lengths _ _ _ E).
    destruct Hst as [? ?]. split; simpl; lia.
  - injection H as <-. pose proof (pos_le (skip_digits (drop 1 cp))). destruct Hst as [? ?]. split; simpl; lia.
  - by injection H as <-.
Qed.

Lemma parse_directive_lengths st start cp r :
  parse_directive sz_argument sz_directive mal len st start cp = Ok r -> lengths_small st -> lengths_small (snd r).
Proof using Type.
  unfold parse_directive. intros H Hst. apply rbind_ok in H as ([i0 cp0] & _ & H). destruct (read_flags 0 cp0) as [fl cp1].
  apply rbind_ok in H as ([[[[ws we] wi] cp2] st2] & E2 & H). apply parse_width_lengths in E2; [|done].
  apply rbind_ok in H as ([[[[ps pe] pi] cp3] st3] & E3 & H). apply parse_precision_lengths in E3; [|done].
  destruct (read_size 0 cp3) as [size [|c cp5]]; [done|]. destruct (conversion_type size c) as [[t c']|]; [|done].
  apply rbind_ok in H as ([i4 st4] & E4 & H). apply rbind_ok in H as (st5 & E5 & H). injection H as <-.
  assert (lengths_small st4) as H4.
  { destruct (decide (t = TYPE_NONE)); [by injection E4 as _ <-|].
    apply rbind_ok in E4 as ([i5 st6] & E6 & E4). apply rbind_ok in E4 as (st7 & E7 & E4). injection E4 as _ <-.
    apply next_arg_lengths in E6; [|done]. by apply register_arg_lengths in E7. }
  unfold push_directive in E5. cbv zeta in E5. destruct (_ <=? _); [|by injection E5 as <-].
  destruct (size_overflow_p _); [done|]. destruct (mal _ _); [|done]. by injection E5 as <-.
Qed.

Lemma parse_loop_lengths fuel st cp st' :
  parse_loop sz_argument sz_directive mal len fuel st cp = Some (Ok st') -> lengths_small st -> lengths_small st'.
Proof using Type.
  revert st cp. induction fuel as [|fuel IH]; intros st cp H Hst; [done|]. cbn [parse_loop] in H.
  destruct cp as [|c cp]; [by injection H as <-|]. destruct (c =? chr "%"); [|by apply IH in H].
  destruct (parse_directive _ _ _ _ _ _ _) as [[cp1 st1]| |] eqn:E; [|done|done].
  apply parse_directive_lengths in E; [|done]. by apply IH in H.
Qed.
End Lengths.

Lemma to_signed_range w z : 1 <= w <= 32 -> - 2 ^ 31 <= to_signed w z < 2 ^ 31.
Proof.
  intros Hw. unfold to_signed, wrapw. assert (0 < 2 ^ w) by (apply Z.pow_pos_nonneg; lia).
  pose proof (Z.mod_pos_bound z (2 ^ w) ltac:(lia)). assert (2 ^ w = 2 * 2 ^ (w - 1)) by (rewrite <- Z.pow_succ_r by lia; f_equal; lia).
  assert (2 ^ (w - 1) <= 2 ^ 31) by (apply Z.pow_le_mono_r; lia).
  destruct (Z.ltb_spec (z mod 2 ^ w) (2 ^ (w - 1))); lia.
Qed.

Lemma fetch_va_ok t v w : fetch t v = Some w -> va_ok v -> va_ok w.
Proof.
  destruct t, v as [z|z|z|z|z|z|z|z|z|[s|]|[s|]|z]; intros H Hv; try done; injection H as <-; try done;
    try (by apply to_signed_range); try (simpl; unfold wrapw; lia).
  - unfold va_ok, wrapw. pose proof (Z.mod_pos_bound z (2 ^ 8)). lia.
  - unfold va_ok, wrapw. pose proof (Z.mod_pos_bound z (2 ^ 16)). lia.
  - split; [|done]. by apply (bool_decide_unpack _).
Qed.

Lemma fetched_values types va values :
  PRINTF_FETCHARGS types va = Fetched values -> Forall va_ok va -> values_ok types values.
Proof.
  intros H Hva i t Hi Ht. revert va values i H Hva Hi.
  induction types as [|t0 types IH]; intros va values i H Hva Hi; [done|]. simpl in H.
  destruct (decide (t0 = TYPE_NONE)); [done|]. destruct va as [|v0 va]; [done|]. apply Forall_cons in Hva as [Hv0 Hva].
  destruct (fetch t0 v0) as [w|] eqn:Ef; [|done]. destruct (PRINTF_FETCHARGS types va) as [l| |] eqn:E; [|done|done].
  injection H as <-. destruct i as [|i]; simpl in Hi |- *; [|by eapply IH].
  injection Hi as <-. exists v0, w. split_and!; [done|done|]. by eapply fetch_va_ok.
Qed.

Section WideLength.
Context `{!Wcrtomb} {HW : WcrtombLaws}.

Lemma wide_prefix_length arg ws p b : 0 <= p -> wide_prefix arg ws p = Some b -> Z.of_nat (length b) <= p.
Proof using Type.
  revert ws p b. induction arg as [|wc arg IH]; intros ws p b Hp E; simpl in E.
  - destruct (0 <? p); injection E as <-; simpl; lia.
  - destruct (Z.ltb_spec 0 p); [|injection E as <-; simpl; lia].
    destruct (wcrtomb wc ws) as [[c ws']|]; [|done]. cbn [mbind option_bind] in E.
    destruct (Z.ltb_spec p (Z.of_nat (length c))); [injection E as <-; simpl; lia|].
    destruct (wide_prefix arg ws' _) as [rest|] eqn:Er; [|done]. injection E as <-.
    apply IH in Er; [|lia]. rewrite length_app. lia.
Qed.

Lemma wide_bytes_length arg ws b :
  Forall (fun wc => wc <> 0) arg -> wide_bytes arg ws = Some b -> Z.of_nat (length b) <= 64 * Z.of_nat (length arg).
Proof using HW.
  intros Hnz. revert ws b. induction Hnz as [|wc arg Hwc Hnz IH]; intros ws b E; simpl in E; [by injection E as <-|].
  destruct (wcrtomb wc ws) as [[c ws']|] eqn:Ew; [|done]. cbn [mbind option_bind] in E.
  destruct (wide_bytes arg ws') as [rest|] eqn:Er; [|done]. injection E as <-.
  apply IH in Er. pose proof (wcrtomb_bytes wc ws c ws' Hwc Ew). rewrite length_app. simpl. lia.
Qed.

End WideLength.

(** ** The text a format stands for *)

Section Rendered.
Context `{!Snprintf} {HS : SnprintfLaws} `{!Wcrtomb} {HW : WcrtombLaws}.
Context (glibc : bool) (format : cstr) (types : list arg_type) (values : list va_value).

(** From offset [cp] on. *)
Fixpoint rendered (cp : nat) (dirs : list directive) : option (list Z) :=
  match dirs with
  | [] => Some (slice format cp (length format))
  | dp :: dirs =>
      piece ← directive_output format types values glibc dp;
      rest ← rendered (dir_end dp) dirs;
      Some (slice format cp (dir_start dp) ++ piece ++ rest)
  end.

(** What [%n] stores, if [n] bytes are before offset [cp]. *)
Fixpoint rendered_counts (cp : nat) (dirs : list directive) (n : Z) : list (Z * arg_type * Z) :=
  match dirs with
  | [] => []
  | dp :: dirs =>
      let n := n + Z.of_nat (length (slice format cp (dir_start dp))) in
      directive_count types values dp n ++
      rendered_counts (dir_end dp) dirs
        (n + Z.of_nat (length (default [] (directive_output format types values glibc dp))))
  end.

(** A directive with so much output that snprintf() cannot count it. *)
Definition overflowing (dirs : list directive) : Prop :=
  exists dp piece, dp ∈ dirs /\ directive_output format types values glibc dp = Some piece /\
    INT_MAX <= Z.of_nat (length piece) + 1.

Context (Hvalues : values_ok types values) (st : parse_state) (Hst : args st = types).
Context (Hformat : Z.of_nat (length format) < 2 ^ 58).

Lemma slice_length a b : Z.of_nat (length (slice format a b)) < 2 ^ 58.
Proof using format Hformat. unfold slice. rewrite length_take, length_drop. lia. Qed.

Lemma output_length dp piece :
  dir_ok format st dp -> width_ok types values dp -> directive_output format types values glibc dp = Some piece ->
  Z.of_nat (length piece) <= SIZE_MAX.
Proof using All.
  intros Hdp Hw E. unfold directive_output in E. destruct (_ =? chr "%"); [by injection E as <-|].
  destruct (arg_at types values (arg_index dp)) as [[t v]|] eqn:Eat; [|done]. cbn [mbind option_bind] in E.
  destruct (_ =? chr "n"); [by injection E as <-|].
  destruct (get_width_ok format types values Hvalues st Hst dp (dok_width _ _ _ Hdp) Hw) as (fl & width & Ew & Hwr).
  destruct (get_precision_ok format types values Hvalues st Hst dp (dok_precision _ _ _ Hdp)) as (hp & pr & Ep & Hpr).
  rewrite Ew, Ep in E. cbn [mbind option_bind] in E. destruct (_ && _) eqn:Ews.
  - destruct v as [| | | | | | | | | |[arg|]|]; try done. apply andb_true_iff in Ews as [_ Et]. breflect.
    assert (Hva : va_ok (VWideString (Some arg))).
    { unfold arg_at in Eat. destruct (types !! _) as [t'|] eqn:Ety; [|done]. cbn [mbind option_bind] in Eat.
      destruct (values !! _) as [v'|] eqn:Ev; [|done]. injection Eat as <- <-.
      destruct (Hvalues _ _ Ety) as (v0 & v & Ev' & _ & Hva); [by subst|]. congruence. }
    destruct Hva as [Hnz Hlen]. unfold wide_output in E.
    destruct (if hp then _ else _) as [body|] eqn:Eb; [|done]. injection E as <-.
    assert (Z.of_nat (length body) <= SIZE_MAX).
    { destruct hp; [apply wide_prefix_length in Eb; lia|apply wide_bytes_length in Eb; [lia|done]]. }
    unfold wide_padded. destruct (bit_set _ _); rewrite length_app, length_replicate; destruct width as [w|]; simpl in *; lia.
  - destruct (get_prefixes types values dp) as [l|]; [|done]. cbn [mbind option_bind] in E.
    apply render_int in E. unfold INT_MAX, SIZE_MAX in *. lia.
Qed.
Section Run.
Context (user : option nat) (limit : Z) (mal : nat -> Z -> bool) (garbage : nat -> nat -> Z) (blocks : Z).
Abbreviation vok := (vok user limit blocks).
Abbreviation yields := (yields user blocks).
Abbreviation buf_neededlength := (13 + max_width_length st + max_precision_length st).
Context (Hw0 : 0 <= max_width_length st) (Hp0 : 0 <= max_precision_length st).

Definition format_error (dirs : list directive) (text : list Z) (e : errno) : Prop :=
  no_memory mal text e \/ e = EOVERFLOW /\ overflowing dirs.

Lemma format_error_cons dp dirs text e : format_error dirs text e -> format_error (dp :: dirs) text e.
Proof using All.
  intros [He|[-> (dp' & piece & Hin & Hp)]]; [by left|right]. split; [done|]. exists dp', piece. split; [by right|done].
Qed.

(** The literal text before a directive, or at the end. *)
Lemma literal_ok a b s out tail :
  vok s out tail -> (a <= b <= length format)%nat -> Z.of_nat (length (out ++ slice format a b)) <= limit ->
  yields (if (a =? b)%nat then mret tt else append mal garbage (slice format a b)) s (no_memory mal (out ++ slice format a b))
    (fun _ s' => vok s' (out ++ slice format a b) [] /\ v_counts s' = v_counts s).
Proof using All.
  intros Hok Hab Hlim. destruct (Nat.eqb_spec a b) as [->|].
  - assert (slice format b b = []) as -> by (unfold slice; by rewrite Nat.sub_diag).
    rewrite app_nil_r in *. apply yields_ret. split; [by eapply vok_untail|done].
  - apply (append_ok _ _ _ _ _ s out tail _ Hok); [|done]. pose proof (slice_length a b). unfold SIZE_MAX. lia.
Qed.

Lemma vok_below s out tail : vok s out tail -> Z.of_nat (length out) < SIZE_MAX.
Proof using All. intros Hok. pose proof (vok_range _ _ _ _ _ _ Hok) as Hr. rewrite length_app in Hr. lia. Qed.

Lemma directives_loop_ok cp dirs s out tail :
  covers format cp dirs -> (cp <= length format)%nat -> Forall (dir_ok format st) dirs ->
  Forall (width_ok types values) dirs -> vok s out tail ->
  match rendered cp dirs with
  | Some text => Z.of_nat (length (out ++ text)) + 1 <= limit ->
      yields (directives_loop glibc mal garbage format types values buf_neededlength cp dirs) s (format_error dirs (out ++ text))
        (fun _ s' => exists tail', vok s' (out ++ text) tail' /\
           v_counts s' = v_counts s ++ rendered_counts cp dirs (Z.of_nat (length out)))
  | None => 2 * SIZE_MAX <= limit ->
      yields (directives_loop glibc mal garbage format types values buf_neededlength cp dirs) s (fun _ => True) (fun _ _ => False)
  end.
Proof using All.
  revert cp s out tail. induction dirs as [|dp dirs IH]; intros cp s out tail Hcov Hcp Hdirs Hwidths Hok.
  { cbn [rendered directives_loop rendered_counts]. intros Hlim.
    eapply yields_mono; [apply (literal_ok _ _ _ _ _ Hok); lia|by left|]. intros _ s1 [H1 H2]. exists []. by rewrite app_nil_r. }
  destruct Hcov as (Hle & _ & _ & Hend & Hcov). apply Forall_cons in Hdirs as [Hdp Hdirs]. apply Forall_cons in Hwidths as [Hw Hwidths].
  cbn [rendered directives_loop rendered_counts]. set (lit := slice format cp (dir_start dp)).
  pose proof (slice_length cp (dir_start dp)) as Hlit. fold lit in Hlit.
  pose proof (literal_ok cp (dir_start dp) s out tail Hok ltac:(lia)) as Hstart. fold lit in Hstart.
  assert (Hexec : forall s1, vok s1 (out ++ lit) [] -> _) by
    (intros s1 Hok1; exact (exec_directive_ok format types values Hvalues st Hst glibc user limit mal garbage blocks dp s1 _ _ Hdp Hw0 Hp0 Hw Hok1)).
  pose proof (output_length dp) as Hsmall.
  destruct (directive_output format types values glibc dp) as [piece|] eqn:Eo; cbn [mbind option_bind].
  2: { intros Hlim. pose proof (vok_below _ _ _ Hok). apply yields_bind. eapply yields_mono; [apply Hstart; rewrite length_app; unfold SIZE_MAX in *; lia|done|].
       intros _ s1 [Hok1 _]. apply yields_bind. eapply yields_mono; [by apply (Hexec s1 Hok1)|done|]. done. }
  specialize (Hsmall piece Hdp Hw eq_refl). specialize (fun s1 tail1 => IH (dir_end dp) s1 ((out ++ lit) ++ piece) tail1 Hcov ltac:(lia) Hdirs Hwidths).
  destruct (rendered (dir_end dp) dirs) as [rest|] eqn:Er; cbn [mbind option_bind].
  - intros Hlim. rewrite !app_assoc in Hlim |- *. pose proof Hlim as Hlim'. rewrite !length_app in Hlim'.
    apply yields_bind. eapply yields_mono; [apply Hstart; rewrite length_app; lia| |].
    { intros e He. left. rewrite <- (app_assoc (out ++ lit)). by apply no_memory_longer. }
    intros _ s1 [Hok1 Hc1]. apply yields_bind. eapply yields_mono; [apply (Hexec s1 Hok1); rewrite !length_app; lia| |].
    { intros e [He|[-> He]]; [left; by apply no_memory_longer|right]. split; [done|]. exists dp, piece. split; [by left|done]. }
    intros _ s2 (tail2 & Hok2 & Hc2). eapply yields_mono; [apply (IH s2 tail2 Hok2); rewrite !length_app; lia|apply format_error_cons|].
    intros _ s3 (tail3 & Hok3 & Hc3). exists tail3. split; [done|]. rewrite Hc3, Hc2, Hc1, <- app_assoc. cbn [default from_option id].
    rewrite !length_app, !Nat2Z.inj_add. done.
  - intros Hlim. pose proof (vok_below _ _ _ Hok). apply yields_bind.
    eapply yields_mono; [apply Hstart; rewrite length_app; unfold SIZE_MAX in *; lia|done|].
    intros _ s1 [Hok1 _]. pose proof (vok_below _ _ _ Hok1). apply yields_bind.
    eapply yields_mono; [apply (Hexec s1 Hok1); rewrite (length_app (out ++ lit)), Nat2Z.inj_add; lia|done|].
    intros _ s2 (tail2 & Hok2 & _). by apply (IH s2 tail2 Hok2).
Qed.

(** The end: the final NUL. *)
Lemma final_nul_ok s out tail :
  vok s out tail -> Z.of_nat (length out) + 1 <= limit ->
  yields (finish mal garbage) s (no_memory mal out) (fun _ s' =>
    (exists l, v_result s' = Some l /\ take (S (length out)) l = out ++ [0]) /\ v_length s' = Z.of_nat (length out) /\
    v_counts s' = v_counts s /\ sane user blocks s').
Proof using format.
  intros Hok Hlim. unfold finish. apply yields_get, yields_bind.
  pose proof (vok_range _ _ _ _ _ _ Hok) as Hr. rewrite length_app in Hr. pose proof (vok_length _ _ _ _ _ _ Hok) as El.
  pose proof (xsum_spec (v_length s) 1 ltac:(lia) ltac:(unfold SIZE_MAX; lia)) as Hx.
  eapply yields_mono; [apply (ensure_ok _ _ _ _ _ _ _ _ _ Hok); rewrite Hx; unfold SIZE_MAX in *; lia| |].
  { intros e [-> [Hm|Hm]]; (split; [done|]); [by left|right]. lia. }
  intros _ s1 (Hok1 & Hle & Hc1 & _). pose proof (vok_range _ _ _ _ _ _ Hok1) as Hr1. rewrite app_nil_r in Hr1.
  pose proof (vok_length _ _ _ _ _ _ Hok1) as El1. replace (v_length s) with (v_length s1) by lia.
  apply yields_bind. eapply yields_mono; [apply (store_ok _ _ _ s1 out [] [0] (fun _ => False) Hok1); rewrite length_app; simpl; lia|done|].
  intros _ s2 (Hok2 & Ha2 & Hc2). apply yields_get. pose proof (vok_memory _ _ _ _ _ _ Hok2) as Hm. unfold memory_ok, v_result in *.
  pose proof (vok_length _ _ _ _ _ _ Hok2) as El2. pose proof (vok_sane _ _ _ _ _ _ Hok2) as Hsane.
  rewrite length_app in Hm. simpl in Hm. replace (length out + 1)%nat with (S (length out)) in Hm by lia.
  assert (Hplain : forall s', s' = s2 -> (exists l, match v_heap s' with Some l => Some l | None => v_user s' end = Some l /\
     take (S (length out)) l = out ++ [0]) /\ v_length s' = Z.of_nat (length out) /\ v_counts s' = v_counts s /\ sane user blocks s').
  { intros s' ->. destruct (match v_heap s2 with Some l => Some l | None => v_user s2 end) as [l|].
    - destruct Hm as [Hm _]. split_and!; [by exists l|lia|congruence|done].
    - destruct Hm as [Hm _]. by destruct out. }
  destruct (v_heap s2) as [l|] eqn:Eh; [|apply yields_ret; by apply Hplain].
  destruct (_ <? _) eqn:Eshrink; [|apply yields_ret; by apply Hplain].
  destruct Hm as [Hm _]. unfold yields, VasnprintfSpec.yields. cbn [put_state v_length v_counts v_heap v_user].
  split_and!; [|lia|congruence|].
  - eexists. split; [done|]. destruct (mal _ _); [|done]. rewrite take_take. rewrite El2. replace (_ `min` _)%nat with (S (length out)) by lia. done.
  - destruct Hsane as [S1 S2]. unfold sane, heap_block in *. rewrite Eh in S2. done.
Qed.
End Run.
End Rendered.

(** ** The whole function *)

Section Whole.
Context `{!Snprintf} {HS : SnprintfLaws} `{!Wcrtomb} {HW : WcrtombLaws}.
Context (glibc : bool) (mal : nat -> Z -> bool) (garbage : nat -> nat -> Z).

(** The caller's buffer has the size [*lengthp], or room for the whole text. *)
Definition buffer_ok (resultbuf : option (list Z)) (lengthp : Z) (text : option (list Z)) : Prop :=
  0 <= lengthp < SIZE_MAX /\
  forall l, resultbuf = Some l -> lengthp <= Z.of_nat (length l) \/
    exists t, text = Some t /\ (S (length t) <= length l)%nat.

(** What the caller gets for the text a format stands for: the text with a NUL after it, in the
    caller's buffer or in the only block that is allocated; or an error and no block. *)
Definition delivers (resultbuf : option (list Z)) (text : option (list Z)) (counts : list (Z * arg_type * Z))
    (error : list Z -> errno -> Prop) (r : option returned) : Prop :=
  match r, text with
  | Some (Result own n s), Some t =>
      n = Z.of_nat (length t) /\ v_counts s = counts /\
      (exists l, match own with Some l => Some l | None => v_user s end = Some l /\ take (S (length t)) l = t ++ [0]) /\
      length <$> v_user s = length <$> resultbuf /\ v_blocks s = match own with Some _ => 1 | None => 0 end
  | Some (NullResult e s), Some t => error t e /\ length <$> v_user s = length <$> resultbuf /\ v_blocks s = 0
  | Some (NullResult _ s), None => length <$> v_user s = length <$> resultbuf /\ v_blocks s = 0
  | _, _ => False
  end.

Lemma initial_vok resultbuf lengthp text n limit buf_block :
  buffer_ok resultbuf lengthp text -> (forall t, text = Some t -> limit <= Z.of_nat (S (length t))) ->
  vok (length <$> resultbuf) limit buf_block
    (VState resultbuf None (match resultbuf with Some _ => lengthp | None => 0 end) 0 n (0 + buf_block) []) [] [].
Proof using Type.
  intros [Hl Hbuf] Hlim. split; simpl.
  - done.
  - unfold memory_ok, v_result. simpl. destruct resultbuf as [l|]; [|done]. split; [done|].
    destruct (Hbuf l eq_refl) as [|(t & -> & Ht)]; [lia|]. specialize (Hlim t eq_refl). lia.
  - destruct resultbuf; unfold SIZE_MAX in *; lia.
  - split; [done|]. unfold heap_block. simpl. lia.
Qed.

Lemma xsum4_small a b : 0 <= a <= 2 ^ 60 -> 0 <= b <= 2 ^ 60 -> xsum4 7 a b 6 = 13 + a + b.
Proof using Type.
  intros Ha Hb. unfold xsum4. pose proof (xsum_spec 7 a) as E1. pose proof (xsum_spec (7 + a) b) as E2.
  pose proof (xsum_spec (7 + a + b) 6) as E3. unfold SIZE_MAX in *. rewrite E1, Z.min_l, E2, Z.min_l, E3, Z.min_l by lia. lia.
Qed.

Section Body.
Context (format : cstr) (st : parse_state) (values : list va_value) (resultbuf : option (list Z)) (lengthp : Z).
Context (Hf : Z.of_nat (length format) < 2 ^ 58) (Hlengths : lengths_small (length format) st).
Context (Hcov : covers format 0 (dirs st)) (Hdirs : Forall (dir_ok format st) (dirs st)).
Context (Hvalues : values_ok (args st) values) (Hwidths : Forall (width_ok (args st) values) (dirs st)).
Abbreviation text := (rendered glibc format (args st) values 0 (dirs st)).
Abbreviation buf_neededlength := (13 + max_width_length st + max_precision_length st).
Context (Hbuf : buffer_ok resultbuf lengthp text).
Abbreviation body := (directives_loop glibc mal garbage format (args st) values buf_neededlength 0 (dirs st);; finish mal garbage).
Abbreviation text_delivered := (delivers resultbuf text (rendered_counts glibc format (args st) values 0 (dirs st) 0)
    (format_error glibc format (args st) values mal (dirs st))).

(** The body of the function, with [buf] on the stack or allocated. *)
Lemma body_ok n buf_block :
  text_delivered
    match body (VState resultbuf None (match resultbuf with Some _ => lengthp | None => 0 end) 0 n (0 + buf_block) []) with
    | Undef => None
    | Failed e s => Some (NullResult e (after_error buf_block s))
    | Run _ s =>
        let s := VState (v_user s) (v_heap s) (v_allocated s) (v_length s) (v_mallocs s) (v_blocks s - buf_block) (v_counts s) in
        Some (Result (v_heap s) (v_length s) s)
    end.
Proof using All.
  destruct Hlengths as [Hw Hp]. pose (limit := match text with Some t => Z.of_nat (S (length t)) | None => 2 * SIZE_MAX end).
  pose proof (initial_vok resultbuf lengthp text n limit buf_block Hbuf
    ltac:(by intros t Ht; unfold limit; rewrite Ht)) as Hvok.
  pose proof (directives_loop_ok glibc format (args st) values Hvalues st eq_refl Hf _ limit mal garbage buf_block
    ltac:(lia) ltac:(lia) 0 (dirs st) _ [] [] Hcov ltac:(lia) Hdirs Hwidths Hvok) as Hrun.
  set (s0 := VState _ _ _ _ _ _ _) in *. destruct text as [t|] eqn:Et.
  - specialize (Hrun ltac:(unfold limit; simpl; lia)).
    assert (Hall : yields (length <$> resultbuf) buf_block body s0 (format_error glibc format (args st) values mal (dirs st) t)
      (fun _ s' => (exists l, v_result s' = Some l /\ take (S (length t)) l = t ++ [0]) /\ v_length s' = Z.of_nat (length t) /\
         v_counts s' = rendered_counts glibc format (args st) values 0 (dirs st) 0 /\ sane (length <$> resultbuf) buf_block s')).
    { apply yields_bind. eapply yields_mono; [exact Hrun|done|]. intros _ s1 (tail & Hok & Hc).
      eapply yields_mono; [apply (final_nul_ok format _ _ _ _ _ _ _ _ Hok)|by left|].
      - unfold limit. simpl. lia.
      - intros _ s2 (H1 & H2 & H3 & H4). split_and!; [done|done|by rewrite H3, Hc|done]. }
    unfold yields in Hall. destruct (body s0) as [[] s'|e s'|]; [| |done].
    + destruct Hall as (H1 & H2 & H3 & [H4 H5]). unfold heap_block in H5. simpl. split_and!; try done. destruct (v_heap s'); lia.
    + destruct Hall as (H1 & H2 & H3). unfold heap_block in H3. simpl. split_and!; try done. destruct (v_heap s'); lia.
  - specialize (Hrun ltac:(unfold limit; lia)).
    assert (Hall : yields (length <$> resultbuf) buf_block body s0 (fun _ => True) (fun _ _ => False)).
    { apply yields_bind. eapply yields_mono; [exact Hrun|done|done]. }
    unfold yields in Hall. destruct (body s0) as [[] s'|e s'|]; [done| |done].
    destruct Hall as (_ & H2 & H3). unfold heap_block in H3. simpl. split; [done|]. destruct (v_heap s'); lia.
Qed.

Lemma format_directives_ok n :
  text_delivered (format_directives glibc mal garbage format st values (initial_state resultbuf lengthp n)).
Proof using All.
  destruct Hlengths as [Hw Hp]. unfold format_directives. rewrite xsum4_small by lia.
  rewrite xtimes_spec, Z.mul_1_r by (unfold SIZE_MAX; lia). rewrite Z.min_l by (unfold SIZE_MAX; lia).
  unfold size_overflow_p. rewrite (proj2 (Z.eqb_neq _ _)) by (unfold SIZE_MAX; lia). rewrite andb_false_r.
  destruct (4000 <=? _); cbn [andb negb].
  - destruct (mal _ _) eqn:Em; cbn [negb]; [apply body_ok|]. unfold delivers.
    destruct text as [t|]; [|done]. split_and!; [|done|done]. left. split; [done|]. left. by eexists _, _.
  - apply body_ok.
Qed.
End Body.
End Whole.

(** What is known of a format that is accepted and its arguments. *)
Lemma parsed_ok sz_argument sz_directive mal format va st values :
  0 < sz_argument -> 0 < sz_directive -> PRINTF_PARSE sz_argument sz_directive mal format = Some (Ok st) ->
  PRINTF_FETCHARGS (args st) va = Fetched values -> Forall va_ok va ->
  lengths_small (length format) st /\ covers format 0 (dirs st) /\ Forall (dir_ok format st) (dirs st) /\
  values_ok (args st) values.
Proof.
  intros Hsa Hsd Hparse Hfetch Hva.
  destruct (parse_loop_ok sz_argument sz_directive Hsa Hsd mal format _ _ _ _ init_ok
    (reflexivity format) Hparse) as (_ & _ & l & D & C & F).
  simpl in D. subst l. unfold pos in C. rewrite Nat.sub_diag in C.
  split_and!; [|done|done|by eapply fetched_values].
  eapply parse_loop_lengths; [exact Hparse|]. split; simpl; lia.
Qed.

(** ** The parser reads what the standards say *)

Lemma leading_app p s : (leading p s).1 ++ (leading p s).2 = s.
Proof. induction s as [|c s IH]; simpl; [done|]. destruct (p c); [|done]. destruct (leading p s). simpl in *. by f_equal. Qed.

Lemma leading_all p s : Forall (fun c => p c = true) (leading p s).1.
Proof. induction s as [|c s IH]; simpl; [constructor|]. destruct (p c) eqn:E; [|constructor]. destruct (leading p s). by constructor. Qed.

(** The characters after the prefix do not continue it. *)
Definition stops (p : Z -> bool) (s : cstr) : Prop := match s with c :: _ => p c = false | [] => True end.

Lemma leading_stops p s : stops p (leading p s).2.
Proof. induction s as [|c s IH]; simpl; [done|]. destruct (p c) eqn:E; [|done]. by destruct (leading p s). Qed.

Lemma leading_prefix p a b : Forall (fun c => p c = true) a -> stops p b -> leading p (a ++ b) = (a, b).
Proof.
  intros Ha Hb. induction Ha as [|c a Hc Ha IH]; simpl; [|by rewrite Hc, IH].
  destruct b as [|c b]; [done|]. simpl in *. by rewrite Hb.
Qed.

Lemma is_digit_dec c : decimal_digit c = is_dec c.
Proof.
  apply eq_true_iff_eq. rewrite is_dec_spec. unfold decimal_digit, among. cbn [existsb cs String.list_ascii_of_string map].
  rewrite !orb_true_iff, !Z.eqb_eq. change (chr "0") with 48. change (chr "9") with 57. split; [|intros H].
  - intros H. repeat destruct H as [->|H]; try done; by vm_compute.
  - assert (c = 48 \/ c = 49 \/ c = 50 \/ c = 51 \/ c = 52 \/ c = 53 \/ c = 54 \/ c = 55 \/ c = 56 \/ c = 57) by lia. tauto.
Qed.

Lemma leading_skip s : (leading decimal_digit s).2 = skip_digits s.
Proof. induction s as [|c s IH]; simpl; [done|]. rewrite is_digit_dec. destruct (is_dec c); [|done]. by destruct (leading decimal_digit s). Qed.

Lemma leading_number n s :
  exact_number n s = fold_left (fun n c => 10 * n + (c - chr "0")) (leading decimal_digit s).1 n.
Proof.
  revert n. induction s as [|c s IH]; intros n; simpl; [done|]. rewrite is_digit_dec. destruct (is_dec c); [|done].
  rewrite IH. destruct (leading decimal_digit s). simpl. f_equal. lia.
Qed.

(** The index in the model: [ARG_NONE] without a position. *)
Lemma positional_reads cp i cp' :
  positional cp = Ok (i, cp') -> exists p, read_position cp = (p, cp') /\
    match p with Some n => i = n - 1 /\ i <> ARG_NONE | None => i = ARG_NONE end.
Proof.
  rewrite positional_spec. unfold read_position. pose proof (leading_skip cp) as Hs. pose proof (leading_number 0 cp) as Hn.
  pose proof (leading_app decimal_digit cp) as Happ. pose proof (leading_all decimal_digit cp) as Hall.
  destruct (leading decimal_digit cp) as [ds rest]. simpl in Hs, Hn, Happ, Hall. rewrite <- Hs.
  destruct ds as [|d ds].
  - simpl in Happ. rewrite Happ in Hs |- *. clear Happ rest. destruct (is_dec (cur cp)) eqn:Ed; [|intros [= <- <-]; by exists None].
    assert (Hc : cp <> []) by (by intros ->). destruct cp as [|c cp]; [done|]. simpl in Ed, Hs. rewrite Ed in Hs.
    apply (f_equal length) in Hs. pose proof (suffix_length _ _ (skip_digits_suffix cp)). simpl in Hs. lia.
  - apply Forall_cons in Hall as [Hd _]. rewrite is_digit_dec in Hd. rewrite <- Happ at 1. cbn [app cur]. rewrite Hd. cbn [andb].
    destruct rest as [|c rest]; [intros [= <- <-]; by exists None|]. cbn [cur].
    destruct (c =? chr "$"); [|intros [= <- <-]; by exists None]. rewrite Hn. cbv zeta. fold (number_of (d :: ds)).
    destruct (_ =? 0) eqn:E0; [done|]. destruct (SIZE_MAX <=? number_of (d :: ds)) eqn:E; [done|]. cbn [orb]. intros [= <- <-].
    exists (Some (number_of (d :: ds))). simpl drop. rewrite drop_0. apply Z.leb_gt in E.
    split; [reflexivity|]. split; [reflexivity|]. unfold ARG_NONE. lia.
Qed.

Lemma flag_of_is_flag c : is_flag c = match flag_of c with Some _ => true | None => false end.
Proof.
  unfold is_flag, among, flag_of. cbn [existsb cs String.list_ascii_of_string map].
  repeat match goal with |- context [if (?c =? ?d) then _ else _] => destruct (Z.eqb_spec c d); subst; [by vm_compute|] end.
  reflexivity.
Qed.

Lemma flag_set_cons c f fs : flag_of c = Some f -> flag_set (c :: fs) = Z.lor f (flag_set fs).
Proof.
  unfold flag_of. intros H.
  repeat match type of H with (if (?c =? ?d) then _ else _) = _ => destruct (Z.eqb_spec c d); [|] end; try done;
    injection H as <-; subst c; unfold flag_set; cbn [existsb];
    destruct (existsb (Z.eqb (chr "'")) fs), (existsb (Z.eqb (chr "-")) fs), (existsb (Z.eqb (chr "+")) fs),
      (existsb (Z.eqb (chr " ")) fs), (existsb (Z.eqb (chr "#")) fs), (existsb (Z.eqb (chr "0")) fs),
      (existsb (Z.eqb (chr "I")) fs); reflexivity.
Qed.

Lemma read_flags_reads fl cp : read_flags fl cp = (Z.lor fl (flag_set (leading is_flag cp).1), (leading is_flag cp).2).
Proof.
  revert fl. induction cp as [|c cp IH]; intros fl; simpl; [by rewrite Z.lor_0_r|].
  rewrite flag_of_is_flag. destruct (flag_of c) as [f|] eqn:E; [|simpl; by rewrite Z.lor_0_r].
  rewrite IH. destruct (leading is_flag cp) as [fs rest]. simpl. by rewrite (flag_set_cons c f), Z.lor_assoc.
Qed.

Lemma read_size_reads fl cp : read_size fl cp = ((read_size fl (leading is_size cp).1).1, (leading is_size cp).2).
Proof.
  revert fl. induction cp as [|c cp IH]; intros fl; [done|]. cbn [leading].
  destruct (is_size c) eqn:E.
  - specialize (fun fl => IH fl). destruct (leading is_size cp) as [a b]. cbn [fst snd] in *. cbn [read_size].
    unfold is_size, among in E. cbn [existsb cs String.list_ascii_of_string map] in E.
    repeat (case_if; [apply IH|]). repeat rewrite (proj2 (Z.eqb_neq _ _)) in E by (intros ->; done).
    breflect. destruct_or?; subst; done.
  - cbn [fst snd read_size]. unfold is_size, among in E. cbn [existsb cs String.list_ascii_of_string map] in E.
    repeat (apply orb_false_iff in E as [? E]). repeat match goal with H : (c =? _) = false |- _ => rewrite H; clear H end. done.
Qed.

(** The type of the argument. *)
Lemma by_size_in table size t : by_size table size = Some t -> exists s, In (s, t) table /\ size = cs s.
Proof.
  unfold by_size. destruct (find _ table) as [[s t']|] eqn:E; [|done]. intros [= <-]. apply find_some in E as [Hin E].
  exists s. split; [done|]. apply bool_decide_eq_true in E. done.
Qed.

(** Runs through the rows of the table of [argument_type]. *)
Ltac argument_cases H :=
  unfold argument_type in H;
  repeat match type of H with
  | (if among ?c ?s then _ else _) = _ => destruct (among c s) eqn:?; [|]
  end; [..|discriminate H];
  match type of H with context [by_size ?tb ?size] =>
    let Et := fresh "Et" in let Hin := fresh "Hin" in
    destruct (by_size tb size) eqn:Et; [|discriminate H]; cbn [mbind option_bind] in H;
    apply by_size_in in Et as (? & Hin & Et)
  end;
  repeat match goal with
  | E : among _ _ = false |- _ => clear E
  | E : among ?c _ = true |- _ =>
      unfold among in E; cbn [existsb cs String.list_ascii_of_string map] in E; rewrite ?orb_true_iff, ?Z.eqb_eq in E
  end;
  match goal with Hin : In _ _ |- _ => cbn [In signed_types unsigned_types count_types] in Hin end;
  injection H as ? ?; destruct_or?; simplify_eq.

Lemma argument_type_reads size c t c' :
  argument_type size c = Some (t, c') -> conversion_type (read_size 0 size).1 c = Some (t, c').
Proof. intros H. argument_cases H; reflexivity. Qed.

Lemma fetch_argument t v w : fetch t v = Some w -> argument t v = Some w.
Proof.
  intros H. destruct t, v as [z|z|z|z|z|z|z|z|z|[s|]|[s|]|z]; try discriminate H; injection H as <-; try reflexivity;
    simpl; do 2 f_equal; unfold to_signed, wrapw.
  - pose proof (Z.mod_pos_bound z 256 ltac:(lia)). change (2 ^ (8 - 1)) with 128. change (2 ^ 8) with 256.
    rewrite (Z.div_mod z 256) at 1 by lia. rewrite <- Z.add_assoc, Z.add_comm, Z.mul_comm, Z.mod_add by lia.
    destruct (Z.ltb_spec (z mod 256) 128); [rewrite Z.mod_small; lia|].
    replace (z mod 256 + 128) with (z mod 256 - 128 + 1 * 256) by lia. rewrite Z.mod_add, Z.mod_small; lia.
  - pose proof (Z.mod_pos_bound z 65536 ltac:(lia)). change (2 ^ (16 - 1)) with 32768. change (2 ^ 16) with 65536.
    rewrite (Z.div_mod z 65536) at 1 by lia. rewrite <- Z.add_assoc, Z.add_comm, Z.mul_comm, Z.mod_add by lia.
    destruct (Z.ltb_spec (z mod 65536) 32768); [rewrite Z.mod_small; lia|].
    replace (z mod 65536 + 32768) with (z mod 65536 - 32768 + 1 * 65536) by lia. rewrite Z.mod_add, Z.mod_small; lia.
Qed.

Lemma fetched_at types va values i t :
  PRINTF_FETCHARGS types va = Fetched values -> types !! i = Some t ->
  exists v w, va !! i = Some v /\ values !! i = Some w /\ fetch t v = Some w.
Proof.
  revert va values i. induction types as [|t0 types IH]; intros va values i H Hi; [done|]. simpl in H.
  destruct (decide (t0 = TYPE_NONE)); [done|]. destruct va as [|v va]; [done|]. destruct (fetch t0 v) as [w|] eqn:E; [|done].
  destruct (PRINTF_FETCHARGS types va) as [l| |] eqn:El; [|done|done]. injection H as <-.
  destruct i as [|i]; simpl in *; [|by apply (IH va l i)]. injection Hi as ->. by exists v, w.
Qed.

(** The texts of a field and of a precision, without positions. *)
Definition field_chars (f : spec_field) : cstr := match f with Digits ds => ds | Star _ => cs "*" end.
Definition precision_chars (f : option spec_field) : cstr := match f with Some f => cs "." ++ field_chars f | None => [] end.

(** The directive [dp] refers to the argument of the field, and takes it if it has no position. *)
Definition field_index (f : spec_field) (next i next' : Z) : Prop :=
  match f with
  | Digits _ => i = ARG_NONE /\ next' = next
  | Star p => take_position next p = (i, next') /\ i <> ARG_NONE
  end.

Definition precision_index (f : option spec_field) (next i next' : Z) : Prop :=
  match f with Some f => field_index f next i next' | None => i = ARG_NONE /\ next' = next end.

Lemma slice_suffix fmt a b : a ++ b `suffix_of` fmt -> slice fmt (pos (length fmt) (a ++ b)) (pos (length fmt) b) = a.
Proof.
  intros [k ->]. unfold slice, pos. rewrite !length_app.
  replace (length k + (length a + length b) - (length a + length b))%nat with (length k) by lia. rewrite drop_app_length.
  replace (length k + (length a + length b) - length b - length k)%nat with (length a) by lia. by rewrite take_app_length.
Qed.

Lemma field_text_suffix fmt a b :
  a ++ b `suffix_of` fmt ->
  field_text fmt (Some (pos (length fmt) (a ++ b))) (Some (pos (length fmt) b)) = match a with [] => None | _ => Some a end.
Proof.
  intros H. unfold field_text. rewrite (slice_suffix fmt a b H). pose proof (suffix_length _ _ H) as Hl. rewrite length_app in Hl.
  unfold pos. rewrite length_app. destruct (Nat.eqb_spec (length fmt - (length a + length b)) (length fmt - length b)) as [E|E];
    destruct a; cbn [length] in *; try done; exfalso; lia.
Qed.

Section Reading.
Context (sz_argument sz_directive : Z) (Hsa : 0 < sz_argument) (Hsd : 0 < sz_directive) (mal : nat -> Z -> bool) (fmt : cstr).
Abbreviation len := (length fmt).

Lemma register_arg_posn st i t st' : register_arg sz_argument mal st i t = Ok st' -> arg_posn st' = arg_posn st.
Proof using Type.
  unfold register_arg. intros H. apply rbind_ok in H as (st1 & E & H).
  assert (E1 : arg_posn st1 = arg_posn st).
  { destruct (a_allocated st <=? i); [|by injection E as <-]. cbv zeta in E. destruct (size_overflow_p _); [done|].
    destruct (mal _ _); [|done]. by injection E as <-. }
  cbv zeta in H. destruct (nth _ _ _); try (destruct (decide _); [|done]); injection H as <-; exact E1.
Qed.

Lemma next_arg_reads st i i' st' p :
  ok_state st -> match p with Some n => i = n - 1 /\ i <> ARG_NONE | None => i = ARG_NONE end ->
  next_arg st i = Ok (i', st') -> take_position (arg_posn st) p = (i', arg_posn st') /\ i' <> ARG_NONE.
Proof using Type.
  intros Hok Hp H. pose proof (ok_posn _ Hok) as Hr. unfold next_arg in H. destruct p as [n|]; simpl.
  - destruct Hp as [-> Hne]. rewrite (proj2 (Z.eqb_neq _ _) Hne) in H. by injection H as <- <-.
  - subst i. rewrite Z.eqb_refl in H. cbv zeta in H. destruct (Z.eqb_spec (arg_posn st) ARG_NONE); [done|].
    injection H as <- <-. simpl. rewrite wrapw_small; [done|]. unfold ARG_NONE, SIZE_MAX in *. lia.
Qed.

Lemma star_arg_reads st cp i cp' st' :
  ok_state st -> star_arg sz_argument mal st cp = Ok (i, cp', st') ->
  exists p, read_position cp = (p, cp') /\ take_position (arg_posn st) p = (i, arg_posn st') /\ i <> ARG_NONE.
Proof using Type.
  intros Hok H. unfold star_arg in H. apply rbind_ok in H as ([i1 cp1] & E1 & H). apply rbind_ok in H as ([i2 st2] & E2 & H).
  apply rbind_ok in H as (st3 & E3 & H). injection H as <- <- <-. apply positional_reads in E1 as (p & Ep & Hp).
  exists p. split; [done|]. apply register_arg_posn in E3. rewrite E3. by eapply next_arg_reads.
Qed.

Lemma digits_reads cp : cur cp <> chr "*" -> read_width cp = (Digits (leading decimal_digit cp).1, skip_digits cp).
Proof using Type.
  intros H. destruct cp as [|c cp]; [done|]. cbn [read_width]. simpl in H. rewrite (proj2 (Z.eqb_neq _ _) H).
  rewrite <- leading_skip. by destruct (leading decimal_digit (c :: cp)).
Qed.

Lemma parse_width_reads st cp ws we wi cp' st' :
  ok_state st -> cp `suffix_of` fmt -> parse_width sz_argument mal len st cp = Ok (ws, we, wi, cp', st') ->
  exists f, read_width cp = (f, cp') /\ default [] (field_text fmt ws we) = field_chars f /\
    (field_text fmt ws we = None <-> field_chars f = []) /\ field_index f (arg_posn st) wi (arg_posn st').
Proof using Type.
  intros Hok Hcp H. unfold parse_width in H. cbv zeta in H. destruct (Z.eqb_spec (cur cp) (chr "*")) as [Hstar|Hstar].
  - apply rbind_ok in H as ([[i1 cp1] st1] & E & H). injection H as <- <- <- <- <-.
    apply star_arg_reads in E as (p & Ep & Et & Hi); [|by destruct Hok].
    destruct cp as [|c cp]; [done|]. simpl in Hstar. subst c. cbn [drop] in *. rewrite drop_0 in *.
    exists (Star p). cbn [read_width]. rewrite Z.eqb_refl, Ep. pose proof (field_text_suffix fmt [chr "*"] cp Hcp) as Ef.
    cbn [app] in Ef. rewrite Ef. by split_and!.
  - pose proof (digits_reads cp Hstar) as Er. pose proof (leading_app decimal_digit cp) as Happ. rewrite leading_skip in Happ.
    destruct (is_dec (cur cp)) eqn:Ed.
    + injection H as <- <- <- <- <-. eexists. split; [exact Er|].
      pose proof (field_text_suffix fmt (leading decimal_digit cp).1 (skip_digits cp)) as Ef. rewrite Happ in Ef. rewrite (Ef Hcp).
      cbn [field_chars field_index]. by destruct (leading decimal_digit cp).1.
    + injection H as <- <- <- <- <-. exists (Digits []). rewrite Er.
      destruct cp as [|c cp]; [done|]. simpl in Ed. cbn [leading skip_digits]. rewrite is_digit_dec, Ed. done.
Qed.

Lemma parse_precision_reads st cp ps pe pi cp' st' :
  ok_state st -> cp `suffix_of` fmt -> parse_precision sz_argument mal len st cp = Ok (ps, pe, pi, cp', st') ->
  exists f, read_precision cp = (f, cp') /\ default [] (field_text fmt ps pe) = precision_chars f /\
    (field_text fmt ps pe = None <-> f = None) /\ precision_index f (arg_posn st) pi (arg_posn st').
Proof using Type.
  intros Hok Hcp H. unfold parse_precision in H. cbv zeta in H. destruct (Z.eqb_spec (cur cp) (chr ".")) as [Hdot|Hdot].
  2: { injection H as <- <- <- <- <-. exists None. destruct cp as [|c cp]; [done|]. simpl in Hdot. cbn [read_precision].
       by rewrite (proj2 (Z.eqb_neq _ _) Hdot). }
  destruct cp as [|c cp]; [done|]. simpl in Hdot. subst c. cbn [drop] in H. rewrite drop_0 in H. cbn [read_precision]. rewrite Z.eqb_refl.
  destruct (Z.eqb_spec (cur cp) (chr "*")) as [Hstar|Hstar].
  - apply rbind_ok in H as ([[i1 cp1] st1] & E & H). injection H as <- <- <- <- <-.
    apply star_arg_reads in E as (p & Ep & Et & Hi); [|by destruct Hok].
    destruct cp as [|c cp]; [done|]. simpl in Hstar. subst c. cbn [drop] in *. rewrite drop_0 in *.
    exists (Some (Star p)). cbn [read_width]. rewrite Z.eqb_refl, Ep.
    pose proof (field_text_suffix fmt [chr "."; chr "*"] cp Hcp) as Ef. cbn [app] in Ef. rewrite Ef. by split_and!.
  - injection H as <- <- <- <- <-. pose proof (digits_reads cp Hstar) as Er. pose proof (leading_app decimal_digit cp) as Happ.
    rewrite leading_skip in Happ. exists (Some (Digits (leading decimal_digit cp).1)). rewrite Er. split; [done|].
    pose proof (field_text_suffix fmt (chr "." :: (leading decimal_digit cp).1) (skip_digits cp)) as Ef. cbn [app] in Ef.
    rewrite Happ in Ef. rewrite (Ef Hcp). by split_and!.
Qed.

(** The directive [dp] that the parser has recorded is the specification [sp] of the format;
    [next] and [next'] are the next argument without a position before and after it. *)
Record reads (st : parse_state) (dp : directive) (sp : spec) (next next' : Z) : Prop := Reads {
  rd_flags : flags dp = flag_set (sp_flags sp);
  rd_width_text : default [] (field_text fmt (width_start dp) (width_end dp)) = field_chars (sp_width sp);
  rd_no_width : field_text fmt (width_start dp) (width_end dp) = None <-> field_chars (sp_width sp) = [];
  rd_precision_text : default [] (field_text fmt (precision_start dp) (precision_end dp)) = precision_chars (sp_precision sp);
  rd_no_precision : field_text fmt (precision_start dp) (precision_end dp) = None <-> sp_precision sp = None;
  rd_args : exists n1 n2,
    field_index (sp_width sp) next (width_arg_index dp) n1 /\
    precision_index (sp_precision sp) n1 (precision_arg_index dp) n2 /\
    forall t c, argument_type (sp_size sp) (sp_conversion sp) = Some (t, c) ->
      conversion dp = c /\
      if decide (t = TYPE_NONE) then next' = n2
      else take_position n2 (sp_position sp) = (arg_index dp, next') /\ typed st (arg_index dp) t
}.

Lemma reads_later st st' dp sp next next' : later st st' -> reads st dp sp next next' -> reads st' dp sp next next'.
Proof using Type.
  intros HL [H1 H2 H3 H4 H5 (n1 & n2 & H6 & H7 & H8)]. split; try done. exists n1, n2. split_and!; [done|done|].
  intros t c E. destruct (H8 t c E) as [Hc Ht]. split; [done|]. destruct (decide (t = TYPE_NONE)); [done|].
  destruct Ht. split; [done|]. by apply (typed_later st).
Qed.

Lemma parse_directive_reads st start cp cp' st' :
  ok_state st -> cp `suffix_of` fmt -> parse_directive sz_argument sz_directive mal len st start cp = Ok (cp', st') ->
  exists sp dp, read_spec cp = Some (sp, cp') /\ dirs st' = dirs st ++ [dp] /\ dir_start dp = start /\
    dir_end dp = pos len cp' /\ reads st' dp sp (arg_posn st) (arg_posn st').
Proof using Hsa Hsd.
  intros Hok Hcp H. unfold parse_directive in H.
  apply rbind_ok in H as ([i0 cp0] & E0 & H). pose proof (positional_suffix _ _ _ E0) as [S0 Hi0].
  apply positional_reads in E0 as (p & Ep & Hp). rewrite read_flags_reads, Z.lor_0_l in H.
  pose proof (leading_suffix is_flag cp0) as S1. destruct (leading is_flag cp0) as [fs cp1] eqn:Ef. cbn [fst snd] in H, S1.
  apply rbind_ok in H as ([[[[ws we] wi] cp2] st2] & E2 & H). assert (F1 : cp1 `suffix_of` fmt) by suffix_chain.
  pose proof (parse_width_reads _ _ _ _ _ _ _ Hok F1 E2) as (w & Rw & Tw & Nw & Iw).
  apply (parse_width_ok _ mal fmt) in E2 as (O2 & L2 & D2 & S2 & _); [|done|done].
  apply rbind_ok in H as ([[[[ps pe] pi] cp3] st3] & E3 & H). assert (F2 : cp2 `suffix_of` fmt) by suffix_chain.
  pose proof (parse_precision_reads _ _ _ _ _ _ _ O2 F2 E3) as (pr & Rp & Tp & Np & Ip).
  apply (parse_precision_ok _ mal fmt) in E3 as (O3 & L3 & D3 & S3 & _); [|done|done].
  rewrite read_size_reads in H. destruct (leading is_size cp3) as [size cp4] eqn:Es. cbn [fst snd] in H.
  destruct cp4 as [|c cp5]; [done|]. destruct (conversion_type (read_size 0 size).1 c) as [[t c']|] eqn:Ec; [|done].
  apply rbind_ok in H as ([i4 st4] & E4 & H). apply rbind_ok in H as (st5 & E5 & H). injection H as <- <-.
  assert (Hsp : read_spec cp = Some (Spec p fs w pr size c, cp5)).
  { unfold read_spec. by rewrite Ep, Ef, Rw, Rp, Es. }
  assert (H4 : ok_state st4 /\ dirs st4 = dirs st3 /\
    if decide (t = TYPE_NONE) then arg_posn st4 = arg_posn st3
    else take_position (arg_posn st3) p = (i4, arg_posn st4) /\ typed st4 i4 t).
  { destruct (decide (t = TYPE_NONE)) as [->|Ht].
    - by injection E4 as <- <-.
    - apply rbind_ok in E4 as ([i5 st6] & E6 & E4). apply rbind_ok in E4 as (st7 & E7 & E4). injection E4 as <- <-.
      pose proof (next_arg_reads _ _ _ _ p O3 Hp E6) as [Ht6 Hi6].
      apply next_arg_ok in E6 as (O6 & L6 & D6 & _ & Hr6); [|done|done].
      pose proof (register_arg_posn _ _ _ _ E7) as P7. apply register_arg_ok in E7 as (O7 & L7 & T7 & D7 & _); auto.
      rewrite P7. split_and!; [done|congruence|done|done]. }
  destruct H4 as (O4 & D4 & A4). pose proof (push_posn _ mal st4 _ _ E5) as P5.
  apply (push_directive_ok _ Hsd mal) in E5 as (O5 & L5 & D5 & A5); [|done].
  eexists _, _. split; [exact Hsp|]. split; [rewrite D5; f_equal; congruence|]. split; [done|]. split; [done|].
  rewrite P5. split; try done. exists (arg_posn st2), (arg_posn st3). split; [exact Iw|]. split; [exact Ip|].
  cbn [sp_size sp_conversion sp_position conversion arg_index]. intros t' c'' Et. apply argument_type_reads in Et.
  rewrite Ec in Et. injection Et as <- <-. split; [done|]. destruct (decide (t = TYPE_NONE)) as [|Ht]; [done|].
  destruct A4. split; [done|]. by apply (typed_later st4).
Qed.

(** The digits of a width do not begin with 0, which is a flag. *)
Definition spec_shape (sp : spec) : Prop :=
  match sp_width sp with Digits ds => Forall (fun c => decimal_digit c = true) ds /\ stops is_flag ds | Star _ => True end /\
  match sp_precision sp with Some (Digits ds) => Forall (fun c => decimal_digit c = true) ds | _ => True end.

Lemma read_field_shape s p :
  stops p s -> match (read_width s).1 with
               | Digits ds => Forall (fun c => decimal_digit c = true) ds /\ stops p ds
               | Star _ => True
               end.
Proof using Type.
  intros Hs. destruct s as [|c s]; [by split|]. cbn [read_width]. destruct (c =? chr "*"); [by destruct (read_position s)|].
  pose proof (leading_all decimal_digit (c :: s)) as Hall. pose proof (leading_app decimal_digit (c :: s)) as Happ.
  destruct (leading decimal_digit (c :: s)) as [ds rest]. split; [exact Hall|].
  destruct ds as [|d ds]; [done|]. injection Happ as -> _. exact Hs.
Qed.

Lemma read_spec_shape s sp rest : read_spec s = Some (sp, rest) -> spec_shape sp.
Proof using Type.
  unfold read_spec. destruct (read_position s) as [p s1].
  pose proof (leading_stops is_flag s1) as Hs. destruct (leading is_flag s1) as [fs s2].
  pose proof (read_field_shape s2 is_flag Hs) as Hw. destruct (read_width s2) as [w s3].
  assert (Hp : match (read_precision s3).1 with Some (Digits ds) => Forall (fun c => decimal_digit c = true) ds | _ => True end).
  { destruct s3 as [|c s3]; [done|]. cbn [read_precision]. destruct (c =? chr "."); [|done].
    pose proof (read_field_shape s3 (fun _ => false) ltac:(by destruct s3)) as Hf. destruct (read_width s3) as [[ds|q] r]; simpl in *; tauto. }
  destruct (read_precision s3) as [pr s4]. destruct (leading is_size s4) as [size [|c s5]]; [done|].
  by intros [= <- _].
Qed.

(** The directives that the parser has recorded are those of the format, from an offset on. *)
Inductive agrees (st : parse_state) : nat -> Z -> list directive -> list item -> Prop :=
| agrees_end next : agrees st len next [] []
| agrees_literal o next c l items :
    fmt !! o = Some c -> agrees st (S o) next l items -> agrees st o next l (Literal c :: items)
| agrees_directive o next next' dp sp l items :
    dir_start dp = o -> standard sp = true -> spec_shape sp -> reads st dp sp next next' -> (o < dir_end dp <= len)%nat ->
    agrees st (dir_end dp) next' l items -> agrees st o next (dp :: l) (Conversion sp :: items).

Lemma parse_loop_reads fuel st cp st' n items :
  ok_state st -> cp `suffix_of` fmt -> parse_loop sz_argument sz_directive mal len fuel st cp = Some (Ok st') ->
  read_format n cp = Some items ->
  exists l, dirs st' = dirs st ++ l /\ agrees st' (pos len cp) (arg_posn st) l items.
Proof using Hsa Hsd.
  revert st cp n items. induction fuel as [|fuel IH]; intros st cp n items Hok Hcp H Hr; [done|].
  cbn [parse_loop] in H. destruct cp as [|c cp].
  - injection H as <-. assert (items = []) as -> by (destruct n; by injection Hr as <-).
    exists []. rewrite app_nil_r. split; [done|]. unfold pos. simpl. rewrite Nat.sub_0_r. constructor.
  - assert (Hcp' : cp `suffix_of` fmt) by (etransitivity; [exists [c]; reflexivity|done]).
    pose proof (suffix_length _ _ Hcp) as Hlen. simpl in Hlen.
    assert (Hpos : pos len cp = S (pos len (c :: cp))) by (unfold pos; simpl; lia).
    pose proof (suffix_lookup fmt (c :: cp) 0 Hcp) as Hat. rewrite Nat.add_0_r in Hat. simpl in Hat.
    destruct n as [|n]; [done|]. cbn [read_format] in Hr. destruct (c =? chr "%").
    + destruct (parse_directive _ _ _ _ _ _ _) as [[cp1 st1]| |] eqn:E; try done.
      pose proof (parse_directive_reads _ _ _ _ _ Hok Hcp' E) as (sp & dp & Esp & Ed & Es & Ee & Hreads).
      rewrite Esp in Hr. cbn [mbind option_bind] in Hr.
      destruct (read_format n cp1) as [items'|] eqn:Er; [|done]. cbn [mbind option_bind] in Hr.
      destruct (standard sp) eqn:Estd; [|done]. injection Hr as <-.
      pose proof (read_spec_suffix _ _ _ Esp) as [S1 Hlt].
      apply (parse_directive_ok _ _ Hsa Hsd mal fmt) in E as (O1 & L1 & _); [|done|done].
      assert (Hcp1 : cp1 `suffix_of` fmt) by (by etransitivity).
      destruct (IH st1 cp1 n items' O1 Hcp1 H Er) as (l & Hl & Hag).
      pose proof (parse_loop_ok _ _ Hsa Hsd mal fmt _ _ _ _ O1 Hcp1 H) as (_ & L2 & _).
      exists (dp :: l). split; [by rewrite Hl, Ed, <- app_assoc|].
      apply (agrees_directive st' _ _ (arg_posn st1)); [by rewrite Es|done|by apply read_spec_shape in Esp|by apply (reads_later st1)|rewrite Ee; unfold pos; simpl; lia|].
      by rewrite Ee.
    + destruct (read_format n cp) as [items'|] eqn:Er; [|done]. injection Hr as <-.
      destruct (IH st cp n items' Hok Hcp' H Er) as (l & Hl & Hag). exists l. split; [done|].
      constructor; [exact Hat|]. by rewrite <- Hpos.
Qed.
End Reading.

(** ** The directive that is built for snprintf() means the same *)

(** The conversions snprintf() is called for. *)
Definition formatted (c : Z) : bool := among c "diouxXfFeEgGaAcsp".

Lemma formatted_stops c :
  formatted c = true -> is_flag c = false /\ decimal_digit c = false /\ is_size c = false /\ c <> chr "*" /\ c <> chr "." /\ c <> chr "$".
Proof.
  unfold formatted, among. cbn [existsb cs String.list_ascii_of_string map]. rewrite !orb_true_iff, !Z.eqb_eq. intros H.
  destruct_or?; subst; done.
Qed.

Lemma size_argument size c0 t c :
  argument_type size c0 = Some (t, c) -> t <> TYPE_NONE -> c <> chr "n" ->
  formatted c = true /\ exists t', argument_type (size_text t) c = Some (t', c) /\
    forall v w, argument t v = Some w -> argument t' w = Some w.
Proof.
  intros H Ht Hn. argument_cases H; try done; (split; [reflexivity|]); (eexists; split; [reflexivity|]);
    intros [] w Hw; simpl in Hw; try discriminate Hw; try (case_match; [|discriminate Hw]); injection Hw as <-; try reflexivity;
    simpl; first [by rewrite (proj2 (Z.leb_le _ _)) by (apply Z.mod_pos_bound; lia)
                 | match goal with H : (0 <=? _) = true |- _ => by rewrite H end].
Qed.

Lemma no_dollar_position s : chr "$" ∉ s -> read_position s = (None, s).
Proof.
  intros H. unfold read_position. pose proof (leading_suffix decimal_digit s) as Hs.
  destruct (leading decimal_digit s) as [[|d ds] [|c rest]]; try done. destruct (Z.eqb_spec c (chr "$")) as [->|]; [|done].
  destruct H. destruct Hs as [k ->]. apply elem_of_app. right. apply elem_of_cons. by left.
Qed.

(** The field without a position. *)
Definition unplaced (f : spec_field) : spec_field := match f with Digits ds => Digits ds | Star _ => Star None end.

Lemma stops_app p a b : stops p a -> (a = [] -> stops p b) -> stops p (a ++ b).
Proof. destruct a; simpl; [|done]. intros _ H. by apply H. Qed.

Lemma read_field_chars f rest :
  match f with Digits ds => Forall (fun c => decimal_digit c = true) ds | Star _ => True end ->
  stops decimal_digit rest -> cur rest <> chr "*" -> chr "$" ∉ rest -> read_width (field_chars f ++ rest) = (unplaced f, rest).
Proof.
  intros Hf Hd Hs Hn. destruct f as [ds|p].
  - cbn [field_chars unplaced]. assert (Hc : cur (ds ++ rest) <> chr "*").
    { destruct Hf as [|c ds Hc Hf]; [done|]. simpl. by intros ->. }
    rewrite digits_reads by done. rewrite <- leading_skip. by rewrite leading_prefix.
  - cbn [field_chars app]. change (cs "*" ++ rest) with (chr "*" :: rest). cbn [read_width]. rewrite Z.eqb_refl.
    by rewrite no_dollar_position.
Qed.

Lemma digits_no_dollar ds : Forall (fun c => decimal_digit c = true) ds -> chr "$" ∉ ds.
Proof. intros H Hin. by apply (proj1 (Forall_forall _ _) H) in Hin. Qed.

(** A list without a dollar sign, given element by element. *)
Ltac no_dollar := repeat (apply not_elem_of_cons; split; [done|]); first [apply not_elem_of_nil | assumption].

Lemma read_rebuilt fs w p t c :
  Forall (fun c => is_flag c = true) fs -> spec_shape (Spec None fs w p [] c) -> formatted c = true ->
  read_spec (fs ++ field_chars w ++ precision_chars p ++ size_text t ++ [c]) =
    Some (Spec None fs (unplaced w) (unplaced <$> p) (size_text t) c, []).
Proof.
  intros Hfs [Hw Hp] Hc. apply formatted_stops in Hc as (H1 & H2 & H3 & H4 & H5 & H6). simpl in Hw, Hp.
  set (tail2 := size_text t ++ [c]). set (tail1 := precision_chars p ++ tail2).
  assert (D2 : stops decimal_digit tail2 /\ stops is_flag tail2 /\ cur tail2 <> chr "*" /\ cur tail2 <> chr "." /\ chr "$" ∉ tail2).
  { unfold tail2. destruct t; simpl; (split_and!; [done..|]); no_dollar. }
  destruct D2 as (D2 & F2 & S2 & P2 & N2).
  assert (D1 : stops decimal_digit tail1 /\ stops is_flag tail1 /\ cur tail1 <> chr "*" /\ chr "$" ∉ tail1).
  { unfold tail1. destruct p as [[ds|q]|]; cbn [precision_chars field_chars]; [| |done]; (split_and!; [done..|]).
    - apply digits_no_dollar in Hp. simpl. apply not_elem_of_cons. split; [done|]. by apply not_elem_of_app.
    - simpl. no_dollar. }
  destruct D1 as (D1 & F1 & S1 & N1).
  assert (N : chr "$" ∉ fs ++ field_chars w ++ tail1).
  { rewrite !not_elem_of_app. split_and!; [|destruct w as [ds|q]; [apply digits_no_dollar, Hw|cbn; no_dollar]|done].
    intros Hin. by apply (proj1 (Forall_forall _ _) Hfs) in Hin. }
  unfold read_spec. rewrite (no_dollar_position _ N). rewrite leading_prefix; [|done|].
  2: { apply stops_app; [|done]. by destruct w; [apply Hw|]. }
  rewrite read_field_chars by (try done; by destruct w; [apply Hw|]).
  assert (Ep : read_precision tail1 = (unplaced <$> p, tail2)).
  { unfold tail1. destruct p as [f|]; cbn [precision_chars app].
    - change ((cs "." ++ field_chars f) ++ tail2) with (chr "." :: (field_chars f ++ tail2)). cbn [read_precision]. rewrite Z.eqb_refl.
      rewrite read_field_chars by done. done.
    - destruct tail2 as [|d tail2'] eqn:E; [done|]. cbn [read_precision]. simpl in P2. by rewrite (proj2 (Z.eqb_neq _ _) P2). }
  rewrite Ep. unfold tail2. rewrite leading_prefix; [done|by destruct t; repeat constructor|done].
Qed.

(** ** The outputs of the directives are what the standards say *)

Lemma decimal_number_digits ds :
  Forall (fun c => decimal_digit c = true) ds -> 0 <= number_of ds /\ (number_of ds <= INT_MAX -> digits ds = number_of ds).
Proof.
  intros H. assert (Hr : forall n, read_number n ds = fold_left (fun n c => xsum (xtimes n 10) (c - chr "0")) ds n).
  { induction H as [|c ds Hc H IH]; intros n; [done|]. simpl. rewrite is_digit_dec in Hc. by rewrite Hc. }
  assert (He : exact_number 0 ds = number_of ds).
  { rewrite leading_number, <- (app_nil_r ds), leading_prefix by done. by rewrite app_nil_r. }
  pose proof (exact_number_ge 0 ds ltac:(lia)). rewrite He in *. split; [done|]. intros Hb.
  unfold digits. rewrite <- Hr, (read_number_spec 0 0) by done. rewrite He. unfold INT_MAX, SIZE_MAX in *. lia.
Qed.

Lemma rebuilt_flags glibc fs w :
  let fl := if w <? 0 then Z.lor (flag_set fs) FLAG_LEFT else flag_set fs in
  (if w <? 0 then Z.lor (flag_set (flag_text glibc fl)) FLAG_LEFT else flag_set (flag_text glibc fl)) =
  (if w <? 0 then Z.lor (known_flags glibc fs) FLAG_LEFT else known_flags glibc fs).
Proof.
  unfold known_flags. set (g := flag_set). unfold flag_set in g. subst g. cbv beta.
  destruct (existsb (Z.eqb (chr "'")) fs), (existsb (Z.eqb (chr "-")) fs), (existsb (Z.eqb (chr "+")) fs),
    (existsb (Z.eqb (chr " ")) fs), (existsb (Z.eqb (chr "#")) fs), (existsb (Z.eqb (chr "0")) fs),
    (existsb (Z.eqb (chr "I")) fs), glibc, (w <? 0); vm_compute; reflexivity.
Qed.

Lemma flag_text_flags glibc fl : Forall (fun c => is_flag c = true) (flag_text glibc fl).
Proof. unfold flag_text. rewrite !Forall_app. split_and!; case_match; repeat constructor. Qed.

Lemma known_left glibc fs : bit_set (known_flags glibc fs) FLAG_LEFT = bit_set (flag_set fs) FLAG_LEFT.
Proof.
  unfold known_flags, flag_set.
  destruct (existsb (Z.eqb (chr "'")) fs), (existsb (Z.eqb (chr "-")) fs), (existsb (Z.eqb (chr "+")) fs),
    (existsb (Z.eqb (chr " ")) fs), (existsb (Z.eqb (chr "#")) fs), (existsb (Z.eqb (chr "0")) fs),
    (existsb (Z.eqb (chr "I")) fs), glibc; reflexivity.
Qed.

(** The three kinds of conversions. *)
Lemma argument_value size c0 t c v w :
  argument_type size c0 = Some (t, c) -> t <> TYPE_NONE -> argument t v = Some w -> c <> chr "%" /\
  (t = TYPE_WIDE_STRING /\ c = chr "s" /\ (exists ws, w = VWideString (Some ws)) \/
   c = chr "n" /\ (exists a, w = VPointer a) \/
   t <> TYPE_WIDE_STRING /\ c <> chr "n" /\ forall ws, w <> VWideString ws).
Proof.
  intros H Ht Hw. argument_cases H; try done; (split; [done|]); destruct v as [| | | | | | | | | |ws|]; try discriminate Hw;
    simpl in Hw; try (case_match; [|discriminate Hw]); injection Hw as <-;
    first [left; by eauto | right; left; by eauto | right; right; done].
Qed.

Section Agreement.
Context `{!Snprintf} {HS : SnprintfLaws} {HI : IsoSnprintf} `{!Wcrtomb}.
Context (glibc : bool) (fmt : cstr) (va values : list va_value) (st : parse_state).
Abbreviation types := (args st).
Context (Hfetch : PRINTF_FETCHARGS types va = Fetched values) (Hvalues : values_ok types values).

(** A wide string is not given a negative width by an argument; see [negative_width_ls]. *)
Definition wide_width_ok (dp : directive) : Prop :=
  forall v z, arg_at types values (arg_index dp) = Some (TYPE_WIDE_STRING, v) -> width_arg_index dp <> ARG_NONE ->
    int_arg types values (width_arg_index dp) = Some z -> 0 <= z.

Lemma star_value i : index_ok st i -> i <> ARG_NONE ->
  exists z, va !! Z.to_nat i = Some (VInt z) /\ int_arg types values i = Some z /\ - 2 ^ 31 <= z < 2 ^ 31.
Proof using Hfetch Hvalues.
  intros Hi Hne. destruct (int_arg_ok [] types values Hvalues st eq_refl i Hi Hne) as (z & Ez & Hz).
  destruct Hi as [->|(_ & _ & Ht)]; [done|]. destruct (fetched_at _ _ _ _ _ Hfetch Ht) as (v & w & Hv & Hw & Hf).
  exists z. split_and!; [|done|lia..]. unfold int_arg, arg_at in Ez. rewrite Ht, Hw in Ez. simpl in Ez.
  destruct v; try done. injection Hf as <-. by injection Ez as <-.
Qed.

(** The value of a field, and what the model passes to snprintf() for it. *)
Definition field_prefix (f : spec_field) (z : Z) : list Z := match f with Digits _ => [] | Star _ => [z] end.

Lemma field_value_ok f next i next' :
  field_index f next i next' -> index_ok st i -> exists z, field_value va next f = Some (z, next') /\
    get_prefix types values i = Some (field_prefix f z) /\
    match f with
    | Digits ds => z = number_of ds /\ i = ARG_NONE
    | Star _ => i <> ARG_NONE /\ int_arg types values i = Some z /\ - 2 ^ 31 <= z < 2 ^ 31
    end.
Proof using Hfetch Hvalues.
  intros Hf Hi. destruct f as [ds|p]; simpl in Hf.
  - destruct Hf as [-> ->]. by exists (number_of ds).
  - destruct Hf as [Hp Hne]. destruct (star_value i Hi Hne) as (z & Hv & Hz & Hr). exists z. simpl. rewrite Hp, Hv.
    split; [done|]. split; [|done]. unfold get_prefix. by rewrite (proj2 (Z.eqb_neq _ _) Hne), Hz.
Qed.

Lemma get_width_value dp sp next n1 zw :
  flags dp = flag_set (sp_flags sp) -> default [] (field_text fmt (width_start dp) (width_end dp)) = field_chars (sp_width sp) ->
  (field_text fmt (width_start dp) (width_end dp) = None <-> field_chars (sp_width sp) = []) -> spec_shape sp -> standard sp = true ->
  width_ok types values dp -> field_index (sp_width sp) next (width_arg_index dp) n1 ->
  match sp_width sp with
  | Digits ds => zw = number_of ds
  | Star _ => int_arg types values (width_arg_index dp) = Some zw /\ - 2 ^ 31 <= zw < 2 ^ 31
  end ->
  exists width, get_width fmt types values dp =
    Some (if zw <? 0 then Z.lor (flag_set (sp_flags sp)) FLAG_LEFT else flag_set (sp_flags sp), width) /\ default 0 width = Z.abs zw.
Proof using Type.
  intros Hfl Htext Hnone [Hsh _] Hstd Hok Hidx Hz. unfold standard in Hstd. apply andb_true_iff in Hstd as [Hstd _].
  apply andb_true_iff in Hstd as [Hb _]. unfold get_width. rewrite Hfl.
  destruct (sp_width sp) as [ds|p]; simpl in Htext, Hnone, Hidx, Hb.
  - destruct Hsh as [Hds _]. destruct (decimal_number_digits ds Hds) as [Hnn Hd]. subst zw. rewrite (proj2 (Z.ltb_ge _ _) Hnn).
    destruct Hidx as [-> _]. destruct (field_text _ _ _) as [text|].
    + simpl in Htext. subst text. rewrite Z.eqb_refl. eexists. split; [done|]. simpl. rewrite Hd by lia. lia.
    + destruct Hnone as [Hn _]. specialize (Hn eq_refl). subst ds. by exists None.
  - destruct Hidx as [_ Hne], Hz as [Hz Hr]. destruct (field_text _ _ _) as [text|]; [|by destruct Hnone as [Hn _]; specialize (Hn eq_refl)].
    rewrite (proj2 (Z.eqb_neq _ _) Hne), Hz. cbn [mbind option_bind]. destruct (Z.ltb_spec zw 0).
    + destruct (Z.eqb_spec zw (- 2 ^ 31)) as [->|]; [by destruct (Hok Hne)|]. eexists. split; [done|].
      unfold default, from_option, id. rewrite wrapw_small by lia. lia.
    + eexists. split; [done|]. simpl. lia.
Qed.

Lemma get_precision_value dp sp next n2 zp :
  default [] (field_text fmt (precision_start dp) (precision_end dp)) = precision_chars (sp_precision sp) ->
  (field_text fmt (precision_start dp) (precision_end dp) = None <-> sp_precision sp = None) -> spec_shape sp -> standard sp = true ->
  precision_index (sp_precision sp) next (precision_arg_index dp) n2 ->
  match sp_precision sp with
  | None => zp = None
  | Some (Digits ds) => zp = Some (number_of ds)
  | Some (Star _) => exists z, zp = Some z /\ int_arg types values (precision_arg_index dp) = Some z
  end ->
  exists hp pr, get_precision fmt types values dp = Some (hp, pr) /\
    match match zp with Some p => if p <? 0 then None else Some p | None => None end with
    | Some p => hp = true /\ pr = p
    | None => hp = false
    end.
Proof using Type.
  intros Htext Hnone [_ Hsh] Hstd Hidx Hz. unfold standard in Hstd. apply andb_true_iff in Hstd as [Hstd _].
  apply andb_true_iff in Hstd as [_ Hb]. unfold get_precision.
  destruct (sp_precision sp) as [[ds|p]|]; cbn [precision_chars precision_index field_index field_chars] in Htext, Hnone, Hidx; cycle 2.
  { subst zp. rewrite (proj2 Hnone) by done. by eexists _, _. }
  all: destruct (field_text _ _ _) as [text|]; [simpl in Htext; subst text|by destruct Hnone as [Hn _]; specialize (Hn eq_refl)].
  - subst zp. destruct (decimal_number_digits ds Hsh) as [Hnn Hd]. destruct Hidx as [-> _]. rewrite Z.eqb_refl.
    rewrite (proj2 (Z.ltb_ge _ _) Hnn). eexists _, _. split; [done|]. split; [done|]. simpl. rewrite drop_0. apply Hd. simpl in Hb. lia.
  - destruct Hidx as [_ Hne], Hz as (z & -> & Hz). rewrite (proj2 (Z.eqb_neq _ _) Hne), Hz. cbn [mbind option_bind].
    rewrite Z.leb_antisym. by destruct (z <? 0); eexists _, _.
Qed.

(** What a piece puts out, and what it stores after [n] bytes. *)
Definition piece_count (p : output_piece) (n : Z) : list (Z * arg_type * Z) :=
  match p with Text _ => [] | Stored a t => [(a, t, to_signed (count_bits t) n)] end.

(** The directive built for snprintf(), read by the standards. *)
Lemma rebuilt_reads sp zw zp t c w dp :
  spec_shape sp -> argument_type (sp_size sp) (sp_conversion sp) = Some (t, c) -> t <> TYPE_NONE -> c <> chr "n" ->
  conversion dp = c -> argument t w = Some w ->
  default [] (field_text fmt (width_start dp) (width_end dp)) = field_chars (sp_width sp) ->
  default [] (field_text fmt (precision_start dp) (precision_end dp)) = precision_chars (sp_precision sp) ->
  match sp_width sp with Digits ds => zw = number_of ds | Star _ => True end ->
  match sp_precision sp with None => zp = None | Some (Digits ds) => zp = Some (number_of ds) | Some (Star _) => is_Some zp end ->
  let fl := if zw <? 0 then Z.lor (flag_set (sp_flags sp)) FLAG_LEFT else flag_set (sp_flags sp) in
  snprintf_reads (directive_text glibc fmt dp fl t)
    (field_prefix (sp_width sp) zw ++ match sp_precision sp with Some f => field_prefix f (default 0 zp) | None => [] end) w =
  Some (conversion_of (known_flags glibc (sp_flags sp)) zw zp c, w, []).
Proof using Type.
  intros Hsh Ht Hne Hn Hc Hw Htw Htp Hzw Hzp fl. destruct (size_argument _ _ _ _ Ht Hne Hn) as (Hform & t' & Ht' & Harg).
  unfold directive_text. rewrite Htw, Htp, Hc. change (drop 1 (cs "%" ++ ?x)) with x. unfold snprintf_reads.
  change (drop 1 (cs "%" ++ ?x)) with (drop 0 x). rewrite drop_0.
  rewrite (read_rebuilt (flag_text glibc fl) (sp_width sp) (sp_precision sp) t c); [|apply flag_text_flags|exact Hsh|exact Hform].
  cbn [mbind option_bind sp_width sp_precision sp_size sp_conversion sp_flags].
  set (px := field_prefix (sp_width sp) zw ++ _).
  assert (E1 : field_value (map VInt px) 0 (unplaced (sp_width sp)) = Some (zw, Z.of_nat (length (field_prefix (sp_width sp) zw)))).
  { unfold px. destruct (sp_width sp) as [ds|p]; simpl; [by subst zw|done]. }
  assert (E2 : exists k, precision_value (map VInt px) (Z.of_nat (length (field_prefix (sp_width sp) zw)))
    (unplaced <$> sp_precision sp) = Some (zp, k)).
  { destruct (sp_precision sp) as [[ds|p]|]; simpl; [subst zp; by eexists| |subst zp; by eexists].
    destruct Hzp as [z ->]. unfold px. cbn [default from_option id].
    rewrite map_app, lookup_app_r by (rewrite length_map; lia). rewrite length_map, Nat2Z.id, Nat.sub_diag. by eexists. }
  destruct E2 as [k E2]. rewrite E1. cbn [mbind option_bind]. rewrite E2. cbn [mbind option_bind]. rewrite Ht'.
  cbn [mbind option_bind]. rewrite (Harg w w Hw). cbn [mbind option_bind]. do 3 f_equal. unfold conversion_of. f_equal.
  exact (rebuilt_flags glibc (sp_flags sp) zw).
Qed.

Lemma precision_value_ok f next i next' :
  precision_index f next i next' -> index_ok st i -> exists zp, precision_value va next f = Some (zp, next') /\
    get_prefix types values i = Some match f with Some f => field_prefix f (default 0 zp) | None => [] end /\
    match f with
    | None => zp = None
    | Some (Digits ds) => zp = Some (number_of ds)
    | Some (Star _) => exists z, zp = Some z /\ int_arg types values i = Some z
    end.
Proof using Hfetch Hvalues.
  intros Hf Hi. destruct f as [f|]; simpl in Hf; [|destruct Hf as [-> ->]; by exists None].
  destruct (field_value_ok _ _ _ _ Hf Hi) as (z & Ez & Pz & Zz). exists (Some z). simpl.
  rewrite Ez. split; [done|]. split; [exact Pz|]. destruct f; [by destruct Zz as [-> _]|]. exists z. tauto.
Qed.

Lemma argument_again t v w : argument t v = Some w -> argument t w = Some w.
Proof using Type.
  intros H1. destruct t, v; try discriminate H1; simpl in H1; try (case_match; [|discriminate H1]); injection H1 as <-; simpl; try reflexivity.
  all: try (match goal with E : (0 <=? _) = true |- _ => by rewrite E end).
  all: do 2 f_equal; Z.div_mod_to_equations; lia.
Qed.

(** A wide string without a negative width that is an argument. *)
Lemma wide_meaning dp sp zw zp width hp pr ws :
  0 <= zw -> flags dp = flag_set (sp_flags sp) -> default 0 width = Z.abs zw ->
  match match zp with Some p => if p <? 0 then None else Some p | None => None end with
  | Some p => hp = true /\ pr = p
  | None => hp = false
  end ->
  let cv := conversion_of (known_flags glibc (sp_flags sp)) zw zp (chr "s") in
  wide_output (bit_set (cv_flags cv) FLAG_LEFT) (Some (cv_width cv))
    match cv_precision cv with Some _ => true | None => false end (default 0 (cv_precision cv)) ws =
  wide_output (bit_set (flags dp) FLAG_LEFT) width hp pr ws.
Proof using Type.
  intros Hz Hfl Hwd Hpr. unfold conversion_of. cbn [cv_flags cv_width cv_precision].
  rewrite (proj2 (Z.ltb_ge _ _) Hz), known_left, Hfl. set (p := match zp with Some p => _ | None => None end) in *.
  unfold wide_output, wide_padded. rewrite Hwd. cbn [default from_option id]. destruct p as [q|]; [by destruct Hpr as [-> ->]|by subst hp].
Qed.

Lemma output_meaning dp sp next next' :
  standard sp = true -> spec_shape sp -> reads fmt st dp sp next next' -> dir_ok fmt st dp ->
  width_ok types values dp -> wide_width_ok dp ->
  match conversion_piece other glibc va next sp with
  | Some (p, next1) =>
      next1 = next' /\ directive_output fmt types values glibc dp = Some (piece_text p) /\
      forall n, directive_count types values dp n = piece_count p n
  | None => directive_output fmt types values glibc dp = None
  end.
Proof using Hfetch Hvalues.
  intros Hstd Hsh [Hfl Htw Hnw Htp Hnp (n1 & n2 & Hiw & Hip & Harg)] Hdir Hwok Hwide. unfold conversion_piece.
  destruct (field_value_ok _ _ _ _ Hiw (dok_width _ _ _ Hdir)) as (zw & Ew & Pw & Zw). rewrite Ew. cbn [mbind option_bind].
  destruct (precision_value_ok _ _ _ _ Hip (dok_precision _ _ _ Hdir)) as (zp & Ep & Pp & Zp). rewrite Ep. cbn [mbind option_bind].
  pose proof Hstd as Hty. unfold standard in Hty. apply andb_true_iff in Hty as [_ Hty].
  destruct (argument_type _ _) as [[t c]|] eqn:Et; [|done]. cbn [mbind option_bind]. clear Hty.
  destruct (Harg t c eq_refl) as [Hc Ht]. destruct (decide (t = TYPE_NONE)) as [->|Hne].
  { pose proof (conversion_percent _ _ _ (argument_type_reads _ _ _ _ Et)) as Hp. subst next'. split; [done|].
    unfold directive_output, directive_count. rewrite Hc, Hp. split; [done|]. intros n. by destruct (arg_at _ _ _) as [[? []]|]. }
  destruct Ht as [Hpos [_ Hty]]. rewrite Hpos. destruct (fetched_at _ _ _ _ _ Hfetch Hty) as (v & w & Hv & Hw & Hf).
  rewrite Hv. cbn [mbind option_bind]. apply fetch_argument in Hf as Hav. rewrite Hav. cbn [mbind option_bind].
  assert (Hat : arg_at types values (arg_index dp) = Some (t, w)) by (unfold arg_at; rewrite Hty, Hw; done).
  destruct (get_width_value dp sp next n1 zw Hfl Htw Hnw Hsh Hstd Hwok Hiw) as (width & Egw & Hwd).
  { destruct (sp_width sp); tauto. }
  destruct (argument_value _ _ _ _ _ _ Et Hne Hav) as [Hpc Hkind].
  unfold directive_output, directive_count. rewrite Hat, Hc. rewrite (proj2 (Z.eqb_neq c (chr "%")) Hpc). cbn [mbind option_bind].
  destruct Hkind as [(-> & -> & ws & ->)|[(-> & a & ->)|(Hnw' & Hcn & Hws)]].
  - change (chr "s" =? chr "n") with false. change (chr "s" =? chr "s") with true. rewrite bool_decide_eq_true_2 by done. cbn [andb].
    rewrite Egw. cbn [mbind option_bind].
    destruct (get_precision_value dp sp n1 n2 zp Htp Hnp Hsh Hstd Hip Zp) as (hp & pr & Egp & Hpr). rewrite Egp. cbn [mbind option_bind].
    assert (Hz0 : 0 <= zw).
    { destruct (sp_width sp) as [ds|p] eqn:Esw; [|apply (Hwide _ zw Hat); tauto].
      destruct Zw as [-> _]. destruct Hsh as [Hs _]. rewrite Esw in Hs. by apply (decimal_number_digits ds (proj1 Hs)). }
    rewrite (wide_meaning dp sp zw zp width hp pr ws Hz0 Hfl Hwd Hpr).
    destruct (wide_output _ _ _ _ _) as [s|]; [by split_and!|done].
  - by split.
  - assert (Hb : (c =? chr "s") && bool_decide (t = TYPE_WIDE_STRING) = false) by (rewrite bool_decide_eq_false_2, andb_false_r; done).
    rewrite (proj2 (Z.eqb_neq c (chr "n")) Hcn), Hb. rewrite Egw. unfold get_prefixes. cbn [mbind option_bind]. rewrite Pw. cbn [mbind option_bind]. rewrite Pp.
    cbn [mbind option_bind]. pose proof (argument_again _ _ _ Hav) as Haw.
    rewrite (iso_render _ _ _ _ _ (rebuilt_reads sp zw zp t c w dp Hsh Et Hne Hcn Hc Haw Htw Htp
      ltac:(destruct (sp_width sp); tauto) ltac:(destruct (sp_precision sp) as [[]|]; [done|destruct Zp as (z & -> & _); by eexists|done]))).
    destruct w as [| | | | | | | | | |ws|]; try (destruct (meaning _ _ _); [by split|done]). by destruct (Hws ws).
Qed.

Lemma slice_next a o c : fmt !! o = Some c -> (a <= o)%nat -> slice fmt a (S o) = slice fmt a o ++ [c].
Proof using Type.
  intros Hc Ha. unfold slice. replace (S o - a)%nat with (S (o - a)) by lia. apply take_S_r. rewrite lookup_drop.
  by replace (a + (o - a))%nat with o by lia.
Qed.

Lemma slice_bytes a o : (a <= o <= length fmt)%nat -> Z.of_nat (length (slice fmt a o)) = Z.of_nat o - Z.of_nat a.
Proof using Type. intros Hao. unfold slice. rewrite length_take, length_drop. lia. Qed.

Lemma agrees_offset o next l items : agrees fmt st o next l items -> (o <= length fmt)%nat.
Proof using Type. induction 1; lia. Qed.

(** From an offset on, with the literal text between [cp] and it. *)
Lemma agreed_text o next l items cp :
  agrees fmt st o next l items -> (cp <= o)%nat -> Forall (dir_ok fmt st) l ->
  Forall (fun dp => width_ok types values dp /\ wide_width_ok dp) l ->
  match pieces other glibc va next items with
  | Some ps =>
      rendered glibc fmt types values cp l = Some (slice fmt cp o ++ printed_text ps) /\
      (forall n, rendered_counts glibc fmt types values cp l n = counts_of (n + (Z.of_nat o - Z.of_nat cp)) ps) /\
      (forall dp s, dp ∈ l -> directive_output fmt types values glibc dp = Some s -> s = [] \/ Text s ∈ ps)
  | None => rendered glibc fmt types values cp l = None
  end.
Proof using Hfetch Hvalues.
  intros Hag. revert cp. induction Hag as [next|o next c l items Hc Hag IH|o next next' dp sp l items Ho Hstd Hsh Hreads Hend Hag IH];
    intros cp Hcp Hdirs Hwidths.
  - cbn [pieces rendered rendered_counts]. split_and!; [by rewrite app_nil_r|done|]. by intros dp s Hin%elem_of_nil.
  - specialize (IH cp ltac:(lia) Hdirs Hwidths). cbn [pieces].
    destruct (pieces other glibc va next items) as [ps|]; cbn [mbind option_bind]; [|exact IH].
    destruct IH as (E1 & E2 & E3). split_and!.
    + rewrite E1, (slice_next cp o c Hc Hcp), <- app_assoc. done.
    + intros n. rewrite E2. cbn [counts_of length]. f_equal. lia.
    + intros dp s Hin Hs. destruct (E3 dp s Hin Hs); [by left|right]. by right.
  - apply Forall_cons in Hdirs as [Hdir Hdirs]. apply Forall_cons in Hwidths as [[Hw Hww] Hwidths].
    specialize (IH (dir_end dp) ltac:(lia) Hdirs Hwidths). cbn [pieces rendered rendered_counts]. subst o.
    pose proof (output_meaning dp sp next next' Hstd Hsh Hreads Hdir Hw Hww) as Hout.
    destruct (conversion_piece other glibc va next sp) as [[p next1]|]; cbn [mbind option_bind]; [|by rewrite Hout].
    destruct Hout as (-> & Eo & Ecount). rewrite Eo. cbn [mbind option_bind default from_option id].
    destruct (pieces other glibc va next' items) as [ps|]; cbn [mbind option_bind]; [|by rewrite IH].
    destruct IH as (E1 & E2 & E3). split_and!.
    + rewrite E1. cbn [mbind option_bind]. unfold slice at 2. rewrite Nat.sub_diag. done.
    + intros n. rewrite E2, slice_bytes, Ecount by lia. rewrite Z.sub_diag, Z.add_0_r.
      destruct p as [s|a t]; simpl; [done|]. by rewrite Z.add_0_r.
    + intros dp' s Hin Hs. apply elem_of_cons in Hin as [->|Hin].
      * rewrite Eo in Hs. injection Hs as <-. destruct p; [right; by left|by left].
      * destruct (E3 dp' s Hin Hs); [by left|right; by right].
Qed.
End Agreement.

(** The errors of a format with the output [ps]: no memory, or one conversion with so much output that
    snprintf() cannot count it. *)
Definition printf_error (mal : nat -> Z -> bool) (ps : list output_piece) (text : list Z) (e : errno) : Prop :=
  no_memory mal text e \/ e = EOVERFLOW /\ exists s, Text s ∈ ps /\ INT_MAX <= Z.of_nat (length s) + 1.

Lemma delivers_weaken resultbuf text counts counts' (error error' : list Z -> errno -> Prop) r :
  (forall t, text = Some t -> counts = counts') -> (forall t e, text = Some t -> error t e -> error' t e) ->
  delivers resultbuf text counts error r -> delivers resultbuf text counts' error' r.
Proof.
  intros Hc He. destruct r as [[own n s|e s]|]; simpl; [|destruct text; [|done]|done].
  - destruct text as [t|]; [|done]. by rewrite (Hc t).
  - intros [H1 H2]. split; [by apply He|done].
Qed.

(** C6. [VASNPRINTF] prints what ISO C and POSIX say.  The specification [read_format] and [pieces]
    (Snprintf) read the format by the standards, without the parser of vasnprintf.c: literal characters, and
    conversion specifications with position, flags, width, precision, size and conversion; they determine the
    type and the value of each argument from the arguments of the call, the field width, a negative one being the flag -, and
    the precision; and what the conversions [d i u o x X c s] put out, byte for byte.  Of the C library's snprintf() only this is
    assumed: it obeys the same specification for one directive with its arguments in order (IsoSnprintf); what [other]
    conversions (floating point, pointers, [%lc], the flags ' and I) put out is up to it.
    If the format is accepted and is one of the standards, with widths and precisions up to [INT_MAX],
    and the arguments are of the types it names, this text is in the result followed by a NUL, [*lengthp] is the
    length, and each [%n] has stored the number of bytes before it; the result is in the caller's
    buffer or in the one block of memory that stays allocated.  Otherwise
    the result is NULL, no block stays allocated, and the error is ENOMEM, only if malloc() fails or the
    text is longer than [2^59], or EOVERFLOW, only if the output of one conversion reaches
    [INT_MAX]; or one of the conversions has no output.  No byte outside the buffers is accessed
    and no abort() is reached.  This holds whether the caller's buffer has the size [*lengthp] or is only
    known to have room for the whole text.  Two widths are excluded ([width_ok], [wide_width_ok]): an argument [INT_MIN],
    whose negation is undefined, and a negative argument for [%ls], which the code pads on the wrong side, see [negative_width_ls]. *)
Theorem VASNPRINTF_correct `{!Snprintf} {HS : SnprintfLaws} {HI : IsoSnprintf} `{!Wcrtomb} {HW : WcrtombLaws}
    (glibc : bool) (mal : nat -> Z -> bool) (garbage : nat -> nat -> Z) (sz_argument sz_directive : Z)
    (resultbuf : option (list Z)) (lengthp : Z) (format : cstr) (va : list va_value)
    (items : list item) (st : parse_state) (values : list va_value)
    (Hsa : 0 < sz_argument) (Hsd : 0 < sz_directive) (Hf : Z.of_nat (length format) < 2 ^ 58)
    (Hread : read_format (length format) format = Some items)
    (Hparse : PRINTF_PARSE sz_argument sz_directive mal format = Some (Ok st))
    (Hfetch : PRINTF_FETCHARGS (args st) va = Fetched values)
    (Hva : Forall va_ok va)
    (Hwidths : Forall (fun dp => width_ok (args st) values dp /\ wide_width_ok values st dp) (dirs st))
    (Hbuf : buffer_ok resultbuf lengthp (printed_text <$> pieces other glibc va 0 items)) :
  delivers resultbuf (printed_text <$> pieces other glibc va 0 items)
    (counts_of 0 (default [] (pieces other glibc va 0 items)))
    (printf_error mal (default [] (pieces other glibc va 0 items)))
    (VASNPRINTF glibc mal garbage sz_argument sz_directive resultbuf lengthp format va).
Proof.
  destruct (parsed_ok _ _ _ _ _ _ _ Hsa Hsd Hparse Hfetch Hva) as (Hlen & Hcov & Hdirs & Hvalues).
  destruct (parse_loop_reads _ _ Hsa Hsd mal format _ _ _ _ _ _ init_ok (reflexivity format) Hparse Hread) as (l & El & Hag).
  simpl in El. subst l. unfold pos in Hag. rewrite Nat.sub_diag in Hag.
  pose proof (agreed_text glibc format va values st Hfetch Hvalues _ _ _ _ 0 Hag ltac:(lia) Hdirs Hwidths) as Htext.
  assert (Hw : Forall (width_ok (args st) values) (dirs st)) by (eapply Forall_impl; [exact Hwidths|by intros dp []]).
  assert (Et : printed_text <$> pieces other glibc va 0 items = rendered glibc format (args st) values 0 (dirs st)).
  { change (arg_posn init_state) with 0 in Htext. destruct (pieces _ _ _ _ _); [by destruct Htext as (-> & _)|by rewrite Htext]. }
  rewrite Et in Hbuf |- *. unfold VASNPRINTF. rewrite Hparse, Hfetch.
  eapply delivers_weaken; [| |by apply format_directives_ok].
  all: change (arg_posn init_state) with 0 in Htext; destruct (pieces _ _ _ _ _) as [ps|] eqn:Ep; [|by rewrite <- Et].
  all: destruct Htext as (_ & Hcounts & Hover).
  - intros _ _. by rewrite Hcounts.
  - intros t e _ [He|[-> (dp & s & Hin & Hs & Hlong)]]; [by left|right]. split; [done|]. exists s. split; [|done].
    destruct (Hover dp s Hin Hs) as [->|]; [|done]. by unfold INT_MAX in Hlong.
Qed.

(** Two directives and their arguments, into a buffer of 4 bytes that has to be left for memory of
    its own. *)
Definition sample_va : list va_value := [VInt (-42); VInt 6; VString (Some (cs "abc"))].
Definition sample_items : list item := default [] (read_format (length sample_format) sample_format).

Lemma sample_widths :
  Forall (fun dp => width_ok (args sample_state) sample_va dp /\ wide_width_ok sample_va sample_state dp) (dirs sample_state).
Proof.
  assert (E : dirs sample_state =
    [Directive 0 4 FLAG_LEFT (Some 2%nat) (Some 3%nat) ARG_NONE None None ARG_NONE (chr "d") 0;
     Directive 8 11 0 (Some 9%nat) (Some 10%nat) 1 None None ARG_NONE (chr "s") 2]) by (vm_compute; reflexivity).
  assert (Ea : args sample_state = [TYPE_INT; TYPE_INT; TYPE_STRING]) by (vm_compute; reflexivity).
  unfold wide_width_ok. rewrite E, Ea. 
  apply Forall_cons; split; [|apply Forall_cons; split; [|by apply Forall_nil]];
    (split; [|intros v z H; vm_compute in H; discriminate H]).
  - intros H; elim H; reflexivity.
  - intros _. vm_compute. discriminate.
Qed.

Lemma VASNPRINTF_correct_witness :
  printed_text <$> pieces other true sample_va 0 sample_items = Some (cs "-42   of    abc") /\
  delivers (Some (replicate 4 0)) (printed_text <$> pieces other true sample_va 0 sample_items)
    (counts_of 0 (default [] (pieces other true sample_va 0 sample_items)))
    (printf_error (fun _ _ => true) (default [] (pieces other true sample_va 0 sample_items)))
    (VASNPRINTF true (fun _ _ => true) (fun _ _ => 0) 32 88 (Some (replicate 4 0)) 4 sample_format sample_va).
Proof.
  split; [vm_compute; reflexivity|].
  refine (VASNPRINTF_correct true (fun _ _ => true) (fun _ _ => 0) 32 88 (Some (replicate 4 0)) 4 sample_format sample_va
    sample_items sample_state sample_va _ _ _ _ _ _ _ _ _).
  - reflexivity.
  - reflexivity.
  - apply (bool_decide_unpack _). vm_compute. reflexivity.
  - vm_compute. reflexivity.
  - vm_compute. reflexivity.
  - vm_compute. reflexivity.
  - repeat constructor; done.
  - apply sample_widths.
  - split; [apply (bool_decide_unpack _); vm_compute; reflexivity|]. intros l Hl. left. injection Hl as <-. done.
Defined.

(** What the specification says of some formats: positions, sizes, flags, wide strings and [%n]. *)
Example printf_text :
  let text f va := printed_text <$> (items ← read_format (length f) f; pieces other true va 0 items) in
  text (cs "%2$s=%1$+05d%%") [VInt 42; VString (Some (cs "it"))] = Some (cs "it=+0042%") /\
  text (cs "%hhd %#lx %-*d|") [VInt 300; VUlong 255; VInt (-4); VInt 7] = Some (cs "44 0xff 7   |") /\
  text (cs "[%*ls]") [VInt (-5); VWideString (Some (cs "abc"))] = Some (cs "[abc  ]") /\
  text (cs "%lld %.3s %X") [VLlong (-2 ^ 40); VString None; VUint 48879] = Some (cs "-1099511627776 (NU BEEF") /\
  counts_of 0 (default [] (items ← read_format 7 (cs "ab%c%nz"); pieces other true [VInt 65; VPointer 9] 0 items)) =
    [(9, TYPE_COUNT_INT_POINTER, 3)].
Proof. split_and!; vm_compute; reflexivity. Qed.

(** ** A negative width of [%ls] *)

(** A negative width is the flag [-] and the absolute value: so for [%*s], but not for [%*ls],
    which is padded on the left. *)
Example negative_width_s :
  rendered true (cs "[%*s]") [TYPE_INT; TYPE_STRING] [VInt (-5); VString (Some (cs "abc"))] 0
    match PRINTF_PARSE 32 88 (fun _ _ => true) (cs "[%*s]") with Some (Ok st) => dirs st | _ => [] end = Some (cs "[abc  ]").
Proof. vm_compute. reflexivity. Qed.

Example negative_width_ls :
  match VASNPRINTF true (fun _ _ => true) (fun _ _ => 0) 32 88 None 0 (cs "[%*ls]") [VInt (-5); VWideString (Some (cs "abc"))] with
  | Some (Result (Some l) n _) => take (Z.to_nat n) l = cs "[  abc]"
  | _ => False
  end.
Proof. vm_compute. reflexivity. Qed.
