(* ===== verification/FloatText.v ===== *)
(** * Floating-point numbers as text: the directives f, e and g of vasnprintf.c

    decode_double(), floorlog10(), their counterparts for long double, and the branch of [VASNPRINTF] for systems whose snprintf()
    prints these types wrongly (NEED_PRINTF_DOUBLE and NEED_PRINTF_LONG_DOUBLE; not compiled if IN_LIBINTL is defined), in the
    [char] instance: the digits are computed with bignums, and the text is put together in a buffer of its own, padded and
    appended to the output.

    A finite number is [m * 2^e].  The arithmetic is that of IEEE 754 in round-to-nearest mode: the exact result, rounded to the bits
    and to the least exponent of the format; the numbers that are computed here stay far below the largest one.  The formats are
    binary64 and the extended format of x86, whose code differs only in names and constants.  [None] is abort(). *)

From S2P Require Import Prelude PrintfParse Vasnprintf Snprintf Bignum BignumDivide Decimal.

Open Scope Z_scope.

(** ** Arithmetic *)

(** The number [m * 2^e]. *)
Abbreviation dyadic := (Z * Z)%type.

(** A format: the bits of the mantissa, the range of [e], and the decimal digits that can be kept. *)
Record float_format := FloatFormat { MANT_BIT : Z; MIN_EXP : Z; MAX_EXP : Z; DIG : Z }.

Definition binary64 : float_format := FloatFormat 53 (- 1074) 971 15.
Definition extended : float_format := FloatFormat 64 (- 16445) 16320 18.

(** The exact sum, and the order. *)
Definition plus_exact (x y : dyadic) : dyadic :=
  let e := Z.min (snd x) (snd y) in (fst x * 2 ^ (snd x - e) + fst y * 2 ^ (snd y - e), e).

Definition dneg (x : dyadic) : dyadic := (- fst x, snd x).
Definition dlt (x y : dyadic) : bool := fst (plus_exact x (dneg y)) <? 0.
Definition dof_int (n : Z) : dyadic := (n, 0).

(** The double that is nearest to [num / den > 0]: a constant of the source. *)
Definition dlit (num den : Z) : dyadic :=
  let k := 53 + Z.log2 den - Z.log2 num in
  let k := if 2 ^ 53 <=? num * 2 ^ k / den then k - 1 else k in
  (round_half_even (num * 2 ^ k) den, - k).

(** [(int) x] *)
Definition to_int (x : dyadic) : Z :=
  let '(m, e) := x in if 0 <=? e then m * 2 ^ e else Z.quot m (2 ^ (- e)).

(** [frexp (x, &exp)] *)
Definition frexp (x : dyadic) : dyadic * Z :=
  let '(m, e) := x in
  if m =? 0 then ((0, 0), 0) else let exp := Z.log2 m + 1 + e in ((m, e - exp), exp).

(** [y >= 0.0 && y < 1.0] *)
Definition in_unit (y : dyadic) : bool := negb (dlt y (0, 0)) && dlt y (1, 0).

Section Arithmetic.
Context (fmt : float_format).

Definition rnd (x : dyadic) : dyadic :=
  let '(m, e) := x in
  let sh := Z.max 0 (Z.max (Z.log2 (Z.abs m) + 1 - MANT_BIT fmt) (MIN_EXP fmt - e)) in
  (round_half_even m (2 ^ sh), e + sh).

Definition dadd (x y : dyadic) : dyadic := rnd (plus_exact x y).
Definition dsub (x y : dyadic) : dyadic := rnd (plus_exact x (dneg y)).
Definition dmul (x y : dyadic) : dyadic := rnd (fst x * fst y, snd x + snd y).

(** ** decode_double() *)

(** [y *= 2^bits; d = (int) y; y -= d; if (!(y >= 0.0 && y < 1.0)) abort ();] *)
Definition take_bits (bits : Z) (y : dyadic) : option (Z * dyadic) :=
  let y := dmul y (1, bits) in
  let d := to_int y in
  let y := dsub y (dof_int d) in
  if in_unit y then Some (d, y) else None.

(** [hi << (GMP_LIMB_BITS / 2) | lo], with the bits of [hi] that are wanted. *)
Definition take_limb (hi_bits : Z) (y : dyadic) : option (Z * dyadic) :=
  '(hi, y) ← take_bits hi_bits y;
  '(lo, y) ← take_bits (GMP_LIMB_BITS / 2) y;
  Some (Z.lor (Z.shiftl hi (GMP_LIMB_BITS / 2)) lo, y).

(** The loop over the other limbs, from the highest. *)
Fixpoint take_limbs (n : nat) (y : dyadic) (limbs : mpn) : option (mpn * dyadic) :=
  match n with
  | O => Some (limbs, y)
  | S n => '(d, y) ← take_limb (GMP_LIMB_BITS / 2) y; take_limbs n y (d :: limbs)
  end.

(** The highest limb, if the mantissa does not fill it. *)
Definition take_top (y : dyadic) : option (mpn * dyadic) :=
  let bits := MANT_BIT fmt mod GMP_LIMB_BITS in
  if bits =? 0 then Some ([], y)
  else
    '(d, y) ← (if GMP_LIMB_BITS / 2 <? bits then take_limb (MANT_BIT fmt mod (GMP_LIMB_BITS / 2)) y else take_bits bits y);
    Some ([d], y).

(** The exponent and the mantissa of [x >= 0].  The test at the end is left out for a long double. *)
Definition decode (zero_test : bool) (x : dyadic) : option (Z * mpn) :=
  let '(y, exp) := frexp x in
  if negb (in_unit y) then None
  else
    '(top, y) ← take_top y;
    '(limbs, y) ← take_limbs (Z.to_nat (MANT_BIT fmt / GMP_LIMB_BITS)) y top;
    if zero_test && negb (fst y =? 0) then None else Some (exp - MANT_BIT fmt, normalise limbs).

(** ** floorlog10() *)

(** [if (y < 1.0 / (1 << bits)) { y *= 1.0 * (1 << bits); exp -= bits; }] *)
Definition scale_up (bits : Z) (st : dyadic * Z) : dyadic * Z :=
  let '(y, exp) := st in if dlt y (1, - bits) then (dmul y (1, bits), exp - bits) else st.

(** The [while] loop before these, with its fuel. *)
Fixpoint scale_up_loop (fuel : nat) (st : dyadic * Z) : option (dyadic * Z) :=
  if dlt (fst st) (1, - GMP_LIMB_BITS) then
    match fuel with O => None | S fuel => scale_up_loop fuel (scale_up GMP_LIMB_BITS st) end
  else Some st.

(** For an frexp() that does not give [y >= 0.5]. *)
Definition normalise_mantissa (y : dyadic) (exp : Z) : option (dyadic * Z) :=
  if dlt y (1, -1) then st ← scale_up_loop 40 (y, exp); Some (scale_up 1 (scale_up 2 (scale_up 4 (scale_up 8 (scale_up 16 st)))))
  else Some (y, exp).

(** [if (z < bound) { z *= factor; l -= step; }] *)
Definition log_step (bound factor step : dyadic) (st : dyadic * dyadic) : dyadic * dyadic :=
  let '(z, l) := st in if dlt z bound then (dmul z factor, dsub l step) else st.

Definition lit20 (n : Z) : dyadic := dlit n (10 ^ 20).

Definition log_steps (st : dyadic * dyadic) : dyadic * dyadic :=
  let st := log_step (lit20 70710678118654752444) (dlit 14142135623730950488 (10 ^ 19)) (1, -1) st in
  let st := log_step (dlit 8408964152537145431 (10 ^ 19)) (dlit 11892071150027210667 (10 ^ 19)) (1, -2) st in
  let st := log_step (lit20 91700404320467123175) (dlit 10905077326652576592 (10 ^ 19)) (1, -3) st in
  log_step (dlit 9576032806985736469 (10 ^ 19)) (dlit 10442737824274138403 (10 ^ 19)) (1, -4) st.

(** [l -= 1.44... * z * (1.0 + z * (0.5 + z * ((1.0 / 3) + z * 0.25)))] with [z = 1 - z] *)
Definition log_series (z l : dyadic) : dyadic :=
  let z := dsub (1, 0) z in
  let poly := dadd (1, 0) (dmul z (dadd (1, -1) (dmul z (dadd (dlit 1 3) (dmul z (1, -2)))))) in
  dsub l (dmul (dmul (dlit 14426950408889634074 (10 ^ 19)) z) poly).

Definition floorlog (x : dyadic) : option Z :=
  let '(y, exp) := frexp x in
  if negb (in_unit y) then None
  else if fst y =? 0 then Some (- 2 ^ 31)
  else
    '(y, exp) ← normalise_mantissa y exp;
    if negb (negb (dlt y (1, -1)) && dlt y (1, 0)) then None
    else
      let '(z, l) := log_steps (y, dof_int exp) in
      let l := log_series z l in
      let l := dmul l (lit20 30102999566398119523) in
      Some (to_int l + (if dlt l (0, 0) then -1 else 0)).
End Arithmetic.

(** ** The functions for each type *)

Definition decode_double : dyadic -> option (Z * mpn) := decode binary64 true.
Definition decode_long_double : dyadic -> option (Z * mpn) := decode extended false.
Definition floorlog10 : dyadic -> option Z := floorlog binary64.
Definition floorlog10l : dyadic -> option Z := floorlog extended.

(** The first failure of malloc() is that in decode_double(). *)
Definition scale10_round_decimal_double (mal : bool) (alloc : site -> bool) (junk : nat -> mpn) (x : dyadic) (n : Z)
    : option digit_string :=
  if mal then '(e, m) ← decode_double x; Some (scale10_round_decimal_decoded alloc junk e m n)
  else Some DigitNomem.

Definition scale10_round_decimal_long_double (mal : bool) (alloc : site -> bool) (junk : nat -> mpn) (x : dyadic) (n : Z)
    : option digit_string :=
  if mal then '(e, m) ← decode_long_double x; Some (scale10_round_decimal_decoded alloc junk e m n)
  else Some DigitNomem.

(** The two branches of the directives have the same text; they are told apart by the type. *)
Inductive float_type := Double | LongDouble.

Definition float_format_of (type : float_type) : float_format := match type with Double => binary64 | LongDouble => extended end.

Definition scale10_round_decimal (type : float_type) :=
  match type with Double => scale10_round_decimal_double | LongDouble => scale10_round_decimal_long_double end.

Definition guess_exponent (type : float_type) : dyadic -> option Z :=
  match type with Double => floorlog10 | LongDouble => floorlog10l end.

Example decode_pi : decode_double (0x1921fb54442d18, -51) = Some (-51, [0x54442d18; 0x1921fb]).
Proof. by vm_compute. Qed.

Example decode_long_pi : decode_long_double (0xc90fdaa22168c235, -62) = Some (-62, [0x2168c235; 0xc90fdaa2]).
Proof. by vm_compute. Qed.

Example floorlog10_examples :
  map floorlog10 [(1, 0); (999, 0); (1000, 0); (1, -1074); (2 ^ 53 - 1, 971)] = map Some [0; 2; 3; -324; 308].
Proof. by vm_compute. Qed.

(** ** Values and results *)

(** A number of a floating-point type: the sign bit and, if it is finite, the absolute value. *)
Inductive double := NaN (sign : bool) | Infinity (sign : bool) | Finite (sign : bool) (x : dyadic).

(** The double with the given 64 bits: what isnand(), signbit() and [arg + arg == arg] tell apart. *)
Definition double_of_bits (repr : Z) : double :=
  let sign := Z.testbit repr 63 in
  let exponent := Z.land (Z.shiftr repr 52) (Z.ones 11) in
  let fraction := Z.land repr (Z.ones 52) in
  if exponent =? 2047 then if fraction =? 0 then Infinity sign else NaN sign
  else if exponent =? 0 then Finite sign (fraction, - 1074)
  else Finite sign (2 ^ 52 + fraction, exponent - 1075).

(** The same for the 80 bits of a long double, if isnanl() takes the encodings that no operation gives for NaN. *)
Definition long_double_of_bits (repr : Z) : double :=
  let sign := Z.testbit repr 79 in
  let exponent := Z.land (Z.shiftr repr 64) (Z.ones 15) in
  let mantissa := Z.land repr (Z.ones 64) in
  if exponent =? 32767 then if mantissa =? 2 ^ 63 then Infinity sign else NaN sign
  else if exponent =? 0 then if Z.testbit mantissa 63 then NaN sign else Finite sign (mantissa, - 16445)
  else if Z.testbit mantissa 63 then Finite sign (mantissa, exponent - 16446)
  else NaN sign.

(** A text, a failure of malloc(), or abort(), signed overflow and a store outside the memory of the digits. *)
Inductive text_result (A : Type) := Text (x : A) | NoMemory | Aborted.
Arguments Text {A}.
Arguments NoMemory {A}.
Arguments Aborted {A}.

#[export] Instance text_ret : MRet text_result := fun A x => Text x.
#[export] Instance text_bind : MBind text_result := fun A B f c =>
  match c with Text x => f x | NoMemory => NoMemory | Aborted => Aborted end.

Definition defined {A} (o : option A) : text_result A := match o with Some x => Text x | None => Aborted end.

(** The result of [int] arithmetic; the conversion of a [size_t]. *)
Definition int_range (n : Z) : option Z := if (- 2 ^ 31 <=? n) && (n <? 2 ^ 31) then Some n else None.
Definition int_of_size (n : Z) : Z := wrapw 32 (n + 2 ^ 31) - 2 ^ 31.

(** For the string that nl_langinfo (RADIXCHAR) gives. *)
Definition decimal_point_char (radix : cstr) : Z := if cur radix =? 0 then chr "." else cur radix.

(** Windows prints three digits of an exponent; for a long double the code does not follow it. *)
Definition three_digits (type : float_type) (windows : bool) : bool := match type with Double => windows | LongDouble => false end.

Definition decimal_format (windows : bool) : cstr := cs (if windows then "%+.3d" else "%+.2d").

(** [digits[from - 1]], ..., [digits[to]] *)
Definition emit (digits : cstr) (from to : nat) : cstr := rev (take (from - to) (drop to digits)).

Section Text.
Context (type : float_type) (radix : cstr) (windows : bool).
(** For each call of scale10_round_decimal_double() whether its allocations succeed: the one of decode_double(), and the others. *)
Context (alloc : nat -> bool * (site -> bool)) (junk : nat -> mpn).
Context (flags precision conversion : Z).

Definition point : Z := decimal_point_char radix.
Definition alt : bool := bit_set flags FLAG_ALT.

Definition scaled_digits (call : nat) (x : dyadic) (n : Z) : text_result cstr :=
  match scale10_round_decimal type (fst (alloc call)) (snd (alloc call)) junk x n with
  | Some (DigitString digits) => Text digits
  | Some DigitNomem => NoMemory
  | Some DigitOverflow | None => Aborted
  end.

(** Conversion f. *)
Definition text_f (x : dyadic) : text_result cstr :=
  digits ← scaled_digits 0 x (int_of_size precision);
  let p := Z.to_nat precision in
  let ndigits := length digits in
  let before := if (p <? ndigits)%nat then emit digits ndigits p else [chr "0"] in
  let ndigits := if (p <? ndigits)%nat then p else ndigits in
  mret (before ++
    if alt || (0 <? precision) then point :: replicate (p - ndigits) (chr "0") ++ emit digits ndigits 0 else []).

(** The loop that finds the exponent, from [exponent]: [precision] digits after the first.  The last number counts the calls. *)
Fixpoint exponent_loop (rounds call : nat) (x : dyadic) (p exponent : Z) (adjusted : bool) : text_result (cstr * Z * nat) :=
  n ← defined (int_range (int_of_size p - exponent));
  digits ← scaled_digits call x n;
  let ndigits := Z.of_nat (length digits) in
  if ndigits =? p + 1 then mret (digits, exponent, S call)
  else if (ndigits <? p) || (p + 2 <? ndigits) then Aborted
  else if adjusted then Aborted
  else
    match rounds with
    | O => Aborted
    | S rounds => exponent_loop rounds (S call) x p (if ndigits =? p then exponent - 1 else exponent + 1) true
    end.

(** The digits, last first, and the exponent. *)
Definition find_exponent (x : dyadic) (p : Z) : text_result (cstr * Z) :=
  guess ← defined (guess_exponent type x);
  '(digits, exponent, call) ← exponent_loop 1 0 x p guess false;
  if is_borderline digits (Z.to_nat p) then
    n ← defined (int_range (int_of_size p - exponent + 1));
    digits2 ← scaled_digits call x n;
    mret (if Z.of_nat (length digits2) =? p + 1 then (digits2, exponent - 1) else (digits, exponent))
  else mret (digits, exponent).

(** [sprintf (p, decimal_format, exponent)] *)
Definition exponent_text (exponent : Z) : text_result cstr :=
  defined (fst <$> c99_render (decimal_format (three_digits type windows)) [] (VInt exponent)).

(** The digits behind the decimal point, down to [digits[nzeroes]]. *)
Definition fraction (digits : cstr) (ndigits nzeroes : nat) : cstr :=
  if alt || (nzeroes <? ndigits)%nat then point :: emit digits ndigits nzeroes else [].

(** Conversion e. *)
Definition text_e (x : dyadic) : text_result cstr :=
  '(mantissa, exponent) ← (if fst x =? 0 then
      mret ([chr "0"] ++ (if alt || (0 <? precision) then point :: replicate (Z.to_nat precision) (chr "0") else []), 0)
    else
      '(digits, exponent) ← find_exponent x precision;
      let ndigits := length digits in
      mret (emit digits ndigits (ndigits - 1) ++
        (if alt || (0 <? precision) then point :: emit digits (ndigits - 1) 0 else []), exponent));
  e ← exponent_text exponent;
  mret (mantissa ++ conversion :: e).

(** [while (nzeroes < ndigits && digits[nzeroes] == '0') nzeroes++;] *)
Fixpoint trailing_zeros (digits : cstr) : nat :=
  match digits with c :: digits => if c =? chr "0" then S (trailing_zeros digits) else O | [] => O end.

(** Conversion g. *)
Definition text_g (x : dyadic) : text_result cstr :=
  let precision := if precision =? 0 then 1 else precision in
  let p := Z.to_nat precision in
  if fst x =? 0 then
    mret ([chr "0"] ++ fraction (replicate p (chr "0")) (p - 1) (if alt then 0 else p - 1))
  else
    '(digits, exponent) ← find_exponent x (precision - 1);
    let ndigits := length digits in
    let nzeroes := if alt then 0%nat else trailing_zeros digits in
    if (-4 <=? exponent) && (exponent <? precision) then
      if 0 <=? exponent then
        let count := Z.to_nat (exponent + 1) in
        mret (emit digits ndigits (ndigits - count) ++ fraction digits (ndigits - count) nzeroes)
      else
        mret ([chr "0"; point] ++ replicate (Z.to_nat (- exponent - 1)) (chr "0") ++ emit digits ndigits nzeroes)
    else
      e ← exponent_text exponent;
      mret (emit digits ndigits (ndigits - 1) ++ fraction digits (ndigits - 1) nzeroes ++ (conversion - chr "G" + chr "E") :: e).

(** ** The whole text *)

Definition upper : bool := (chr "A" <=? conversion) && (conversion <=? chr "Z").

Definition sign_text (sign : bool) : cstr :=
  if sign then [chr "-"] else if bit_set flags FLAG_SHOWSIGN then [chr "+"] else if bit_set flags FLAG_SPACE then [chr " "] else [].

(** The text, and [pad_ptr], where zeros are inserted. *)
Definition double_text (d : double) : text_result (cstr * option nat) :=
  match d with
  | NaN _ => mret (cs (if upper then "NAN" else "nan"), None)
  | Infinity sign => mret (sign_text sign ++ cs (if upper then "INF" else "inf"), None)
  | Finite sign x =>
      text ← (if among conversion "fF" then text_f x else if among conversion "eE" then text_e x
               else if among conversion "gG" then text_g x else Aborted);
      mret (sign_text sign ++ text, Some (length (sign_text sign)))
  end.

(** [has_width && p - tmp < width] *)
Definition pad_text (width : option Z) (text : cstr) (pad_ptr : option nat) : cstr :=
  let pad := Z.to_nat (default 0 width - Z.of_nat (length text)) in
  if bit_set flags FLAG_LEFT then text ++ replicate pad (chr " ")
  else
    match pad_ptr with
    | Some at_ => if bit_set flags FLAG_ZERO then take at_ text ++ replicate pad (chr "0") ++ drop at_ text else replicate pad (chr " ") ++ text
    | None => replicate pad (chr " ") ++ text
    end.

(** [tmp_length]: the size of the buffer, its NUL included. *)
Definition text_length (width : option Z) (d : double) : option Z :=
  let tmp_length := DIG (float_format_of type) + 1 in
  let tmp_length := if tmp_length <? precision then precision else tmp_length in
  tmp_length ← (match d with
    | Finite _ x =>
        if among conversion "fF" && negb (fst x =? 0) then
          exponent ← guess_exponent type x;
          Some (if (0 <=? exponent) && (tmp_length <? wrapw 64 (exponent + precision)) then wrapw 64 (exponent + precision) else tmp_length)
        else Some tmp_length
    | _ => Some tmp_length
    end);
  let tmp_length := xsum tmp_length 12 in
  let tmp_length := if tmp_length <? default 0 width then default 0 width else tmp_length in
  Some (xsum tmp_length 1).
End Text.

(** ** The directive *)

Section Directive.
Context (mal : nat -> Z -> bool) (garbage : nat -> nat -> Z).
Context (radix : cstr) (windows : bool) (alloc : nat -> bool * (site -> bool)) (junk : nat -> mpn).

(** [tmp], if [tmpbuf] with its 700 bytes is too small. *)
Definition malloc_tmp (tmp_length : Z) : vprog bool := fun s =>
  if tmp_length <=? 700 then Run false s
  else
    let tmp_memsize := xtimes tmp_length 1 in
    if size_overflow_p tmp_memsize then Failed ENOMEM s
    else
      let st blocks := VState (v_user s) (v_heap s) (v_allocated s) (v_length s) (S (v_mallocs s)) blocks (v_counts s) in
      if mal (v_mallocs s) tmp_memsize then Run true (st (v_blocks s + 1)) else Failed ENOMEM (st (v_blocks s)).

Definition free_tmp (allocated : bool) : vprog unit := fun s =>
  Run tt (if allocated then VState (v_user s) (v_heap s) (v_allocated s) (v_length s) (v_mallocs s) (v_blocks s - 1) (v_counts s) else s).

Definition of_text {A} (r : text_result A) : vprog A :=
  match r with Text x => mret x | NoMemory => fail ENOMEM | Aborted => abort end.

(** The text is put into [tmp], padded and appended.  [count >= tmp_length] is an error of the estimate: abort(), if the buffer has not
    overflowed before. *)
Definition append_double (type : float_type) (tmp_length : Z) (allocated : bool) (flags : Z) (width : option Z) (precision conversion : Z) (d : double) : vprog unit :=
  '(text, pad_ptr) ← of_text (double_text type radix windows alloc junk flags precision conversion d);
  let text := pad_text flags width text pad_ptr in
  let count := Z.of_nat (length text) in
  if tmp_length <=? count then abort
  else
    s ← get_state;
    (if v_allocated s - v_length s <=? count then ENSURE_ALLOCATION mal garbage (xsum (v_length s) count) else mret tt);;
    store (v_length s) text;;
    free_tmp allocated;;
    s ← get_state;
    put_state (with_length s (v_length s + count)).

Definition double_directive (type : float_type) (flags : Z) (width : option Z) (precision conversion : Z) (d : double) : vprog unit :=
  tmp_length ← lift (text_length type precision conversion width d);
  allocated ← malloc_tmp tmp_length;
  append_double type tmp_length allocated flags width precision conversion d.

(** The argument; [long_double_of] is the value of the bits of a long double. *)
Definition float_argument (long_double_of : Z -> double) (types : list arg_type) (values : list va_value) (i : Z) : option (float_type * double) :=
  match arg_at types values i with
  | Some (TYPE_DOUBLE, VDouble arg) => Some (Double, double_of_bits arg)
  | Some (TYPE_LONGDOUBLE, VLongDouble arg) => Some (LongDouble, long_double_of arg)
  | _ => None
  end.

(** The directive of a format whose argument is a double or a long double. *)
Definition float_directive (long_double_of : Z -> double) (format : cstr) (types : list arg_type) (values : list va_value) (dp : directive) : vprog unit :=
  '(flags, width) ← lift (get_width format types values dp);
  '(_, precision) ← lift (get_precision format types values dp);
  '(type, arg) ← lift (float_argument long_double_of types values (arg_index dp));
  double_directive type flags width precision (conversion dp) arg.
End Directive.

(** ** Examples *)

Definition print_float (type : float_type) (flags : Z) (width : option Z) (precision : Z) (conversion : string) (d : double) : option cstr :=
  match double_directive (fun _ _ => true) (fun _ _ => 1) (cs ".") false (fun _ => (true, fun _ => true)) (fun k => replicate k 9)
          type flags width precision (cur (cs conversion)) d (VState None None 0 0 0 0 []) with
  | Run _ s => r ← v_result s; Some (take (Z.to_nat (v_length s)) r)
  | _ => None
  end.

Definition print_double : Z -> option Z -> Z -> string -> double -> option cstr := print_float Double.

Definition one_tenth : dyadic := (0x1999999999999a, -56).

Example print_doubles :
  (print_double 0 None 20 "f" (Finite false one_tenth), print_double 4 (Some 12) 3 "e" (Finite false (999950, 0)),
   print_double 2 (Some 8) 6 "g" (Finite true one_tenth), print_double 32 (Some 8) 6 "g" (Infinity true),
   print_double 32 (Some 10) 6 "G" (Finite true (1, -20)), print_double 0 None 0 "e" (Finite false (95, -1))) =
  (Some (cs "0.10000000000000000555"), Some (cs "  +1.000e+06"), Some (cs "-0.1    "), Some (cs "    -inf"),
   Some (cs "-9.53674E-07"), Some (cs "5e+01")).
Proof. vm_compute. reflexivity. Qed.

Example print_long_pi : print_float LongDouble 0 None 25 "e" (long_double_of_bits 0x4000c90fdaa22168c235) = Some (cs "3.1415926535897932385128090e+00").
Proof. vm_compute. reflexivity. Qed.
