(* ===== verification/FloatDigits.v ===== *)
(** * The digits of a floating-point number

    decode_double() is exact, floorlog10() gives the decimal exponent or a neighbour of it (its value is a rational number here: [qv]), and the digits and the
    exponent that are computed with them are right; so for long double.  [rounded x n] is [x * 10^n] rounded to an integer, ties to even,
    and [significant x p E] says that [E] is the exponent with which [x] has one digit before the decimal point and [p] behind it. *)

From S2P Require Import Prelude PrintfParse Vasnprintf Snprintf Bignum BignumDivide Decimal FloatText.
From Stdlib Require Import QArith Qpower Lqa.

Open Scope Z_scope.

(** ** The value of a number *)

Definition qv (x : dyadic) : Q := (inject_Z (fst x) * Qpower 2 (snd x))%Q.

Lemma pow2_pos e : (0 < Qpower 2 e)%Q.
Proof. by apply Qpower_0_lt. Qed.

Lemma pow2_plus a b : (Qpower 2 (a + b) == Qpower 2 a * Qpower 2 b)%Q.
Proof. by apply Qpower_plus. Qed.

Lemma pow2_Z n : 0 <= n -> (Qpower 2 n == inject_Z (2 ^ n))%Q.
Proof. intros Hn. by rewrite Zpower_Qpower. Qed.

Lemma qv_mul x y : (qv (fst x * fst y, snd x + snd y)%Z == qv x * qv y)%Q.
Proof. unfold qv. cbn [fst snd]. rewrite inject_Z_mult, pow2_plus. ring. Qed.

Lemma qv_shift m e k : 0 <= k -> (qv (m * 2 ^ k, e)%Z == qv (m, e + k)%Z)%Q.
Proof. intros Hk. unfold qv. cbn [fst snd]. rewrite inject_Z_mult, pow2_plus, (pow2_Z k) by done. ring. Qed.

Lemma qv_neg x : (qv (dneg x) == - qv x)%Q.
Proof. unfold qv, dneg. cbn [fst snd]. rewrite inject_Z_opp. ring. Qed.

Lemma qv_plus x y : (qv (plus_exact x y) == qv x + qv y)%Q.
Proof.
  unfold plus_exact. destruct x as [m1 e1], y as [m2 e2]. cbn [fst snd]. set (e := Z.min e1 e2).
  assert (H : forall m1 m2, (qv (m1 + m2, e)%Z == qv (m1, e) + qv (m2, e))%Q).
  { intros. unfold qv. cbn [fst snd]. rewrite inject_Z_plus. ring. }
  rewrite H, !qv_shift by lia. replace (e + (e1 - e)) with e1 by lia. by replace (e + (e2 - e)) with e2 by lia.
Qed.

Lemma dlt_spec x y : dlt x y = true <-> (qv x < qv y)%Q.
Proof.
  unfold dlt. rewrite Z.ltb_lt. pose proof (qv_plus x (dneg y)) as H. rewrite qv_neg in H. unfold qv at 1 in H.
  pose proof (pow2_pos (snd (plus_exact x (dneg y)))) as Hp.
  set (m := fst _) in *. split.
  - intros Hm. assert (Hq : (inject_Z m < 0)%Q) by (change 0%Q with (inject_Z 0); by rewrite <- Zlt_Qlt). nra.
  - intros Hq. apply Znot_ge_lt. intros Hm. assert (H0 : (0 <= inject_Z m)%Q) by (change 0%Q with (inject_Z 0); rewrite <- Zle_Qle; lia). nra.
Qed.

Lemma dlt_false x y : dlt x y = false <-> (qv y <= qv x)%Q.
Proof. rewrite <- not_true_iff_false, dlt_spec. split; [apply Qnot_lt_le|apply Qle_not_lt]. Qed.

Lemma round_half_even_bounds a b : 0 < b -> 2 * a - b <= 2 * (round_half_even a b * b) <= 2 * a + b.
Proof.
  intros Hb. unfold round_half_even. pose proof (Z.div_mod a b ltac:(lia)). pose proof (Z.mod_pos_bound a b Hb).
  destruct (Z.compare_spec (2 * (a mod b)) b); [destruct (Z.odd (a / b))|..]; nia.
Qed.

Section Format.
Context (fmt : float_format) (HB : 53 <= MANT_BIT fmt <= 64) (Hmin : - 16445 <= MIN_EXP fmt <= - 1074) (Hmax : 971 <= MAX_EXP fmt <= 16320).
Local Notation B := (MANT_BIT fmt).
Local Notation rnd := (rnd fmt).
Local Notation dmul := (dmul fmt).
Local Notation dadd := (dadd fmt).
Local Notation dsub := (dsub fmt).
Local Notation take_bits := (take_bits fmt).
Local Notation take_limb := (take_limb fmt).

(** ** Exact operations *)

Lemma rnd_exact m e : Z.abs m < 2 ^ B -> MIN_EXP fmt <= e -> rnd (m, e) = (m, e).
Proof.
  intros Hm He. unfold rnd.
  assert (Hlog : Z.log2 (Z.abs m) < B).
  { destruct (Z.eq_dec (Z.abs m) 0) as [->|]; [cbn; lia|]. apply Z.log2_lt_pow2; lia. }
  rewrite Z.max_l by lia. change (2 ^ 0) with 1. by rewrite round_half_even_1, Z.add_0_r.
Qed.

(** The number [m * 2^-k] is [v * 2^-B]. *)
Definition unit_number (y : dyadic) (v : Z) : Prop :=
  exists m k, y = (m, - k) /\ 0 <= k <= B /\ 0 <= m < 2 ^ k /\ v = m * 2 ^ (B - k).

Lemma unit_range y v : unit_number y v -> 0 <= v < 2 ^ B.
Proof.
  intros (m & k & _ & Hk & Hm & ->). assert (0 < 2 ^ (B - k)) by (apply Z.pow_pos_nonneg; lia).
  replace (2 ^ B) with (2 ^ k * 2 ^ (B - k)) by (rewrite <- Z.pow_add_r by lia; f_equal; lia). nia.
Qed.

Lemma unit_in_unit m k : 0 <= k -> 0 <= m < 2 ^ k -> in_unit (m, - k) = true.
Proof.
  intros Hk Hm. unfold in_unit, dlt, plus_exact, dneg. cbn [fst snd]. rewrite !Z.min_l by lia.
  rewrite !Z.sub_diag. change (2 ^ 0) with 1. replace (0 - - k) with k by lia.
  rewrite (proj2 (Z.ltb_ge _ _)) by lia. cbn [negb andb]. apply Z.ltb_lt. lia.
Qed.

Lemma dmul_shift m e b : dmul (m, e) (1, b) = rnd (m, e + b).
Proof. unfold dmul. cbn [fst snd]. by rewrite Z.mul_1_r. Qed.

Lemma dsub_int m e d :
  dsub (m, e) (dof_int d) = rnd (m * 2 ^ (e - Z.min e 0) + - d * 2 ^ (0 - Z.min e 0), Z.min e 0).
Proof. done. Qed.

Lemma bind_some {A B} (x : A) (f : A -> option B) : (Some x ≫= f) = f x.
Proof. done. Qed.

(** The first bits are split off. *)
Lemma take_bits_ok bits y v : 0 < bits <= 16 -> unit_number y v ->
  exists d y' v', take_bits bits y = Some (d, y') /\ unit_number y' v' /\ 0 <= d < 2 ^ bits /\ v * 2 ^ bits = d * 2 ^ B + v'.
Proof.
  intros Hb (m & k & -> & Hk & Hm & ->). unfold take_bits. rewrite dmul_shift.
  assert (2 ^ k <= 2 ^ B) by (apply Z.pow_le_mono_r; lia). rewrite rnd_exact by lia. cbv zeta. rewrite dsub_int. unfold to_int. destruct (Z.leb_spec 0 (- k + bits)) as [Hle|Hgt].
  - assert (Eb : 2 ^ bits = 2 ^ k * 2 ^ (- k + bits)) by (rewrite <- Z.pow_add_r by lia; f_equal; lia).
    assert (E53 : 2 ^ B = 2 ^ k * 2 ^ (B - k)) by (rewrite <- Z.pow_add_r by lia; f_equal; lia).
    rewrite (Z.min_r _ 0), !Z.sub_0_r by lia. change (2 ^ 0) with 1. rewrite Z.mul_1_r, Z.add_opp_diag_r, rnd_exact by lia.
    exists (m * 2 ^ (- k + bits)), (0, 0), 0. change (0, 0) with (0, - 0).
    rewrite (unit_in_unit 0 0) by (cbn; lia). split_and!; [done|exists 0, 0; split_and!; done || lia|..].
    + apply Z.mul_nonneg_nonneg; [lia|]. apply Z.pow_nonneg. lia.
    + rewrite Eb. apply Z.mul_lt_mono_pos_r; [apply Z.pow_pos_nonneg|]; lia.
    + rewrite Eb, E53. ring.
  - assert (H2 : 0 < 2 ^ (k - bits)) by (apply Z.pow_pos_nonneg; lia).
    replace (- (- k + bits)) with (k - bits) by lia. rewrite Z.quot_div_nonneg by lia.
    pose proof (Z.div_mod m (2 ^ (k - bits)) ltac:(lia)) as Hdiv. pose proof (Z.mod_pos_bound m (2 ^ (k - bits)) H2) as Hmod.
    set (d := m / 2 ^ (k - bits)) in *. set (r := m mod 2 ^ (k - bits)) in *.
    rewrite (Z.min_l _ 0), Z.sub_diag by lia. change (2 ^ 0) with 1. replace (0 - (- k + bits)) with (k - bits) by lia.
    replace (m * 1 + - d * 2 ^ (k - bits)) with r by lia.
    assert (2 ^ (k - bits) <= 2 ^ B) by (apply Z.pow_le_mono_r; lia).
    replace (- k + bits) with (- (k - bits)) by lia. rewrite rnd_exact by lia. rewrite unit_in_unit by lia.
    exists d, (r, - (k - bits)), (r * 2 ^ (B - (k - bits))).
    assert (Hkb : 2 ^ k = 2 ^ (k - bits) * 2 ^ bits) by (rewrite <- Z.pow_add_r by lia; f_equal; lia).
    split_and!; [done|exists r, (k - bits); split_and!; lia || done|..].
    + apply Z.div_pos; lia.
    + apply Z.div_lt_upper_bound; lia.
    + assert (E53 : 2 ^ B = 2 ^ (k - bits) * 2 ^ bits * 2 ^ (B - k)) by (rewrite <- !Z.pow_add_r by lia; f_equal; lia).
      replace (B - (k - bits)) with ((B - k) + bits) by lia. rewrite Z.pow_add_r, E53, Hdiv by lia. ring.
Qed.

Lemma land_halves hi lo : 0 <= lo < 2 ^ 16 -> Z.land (Z.shiftl hi 16) lo = 0.
Proof.
  intros Hlo. apply Z.bits_inj'. intros i Hi. rewrite Z.land_spec, Z.bits_0, Z.shiftl_spec by lia.
  rewrite <- (wrapw_small 16 lo) by lia. rewrite wrapw_testbit by lia. destruct (Z.ltb_spec i 16); [|by rewrite andb_false_r].
  by rewrite Z.testbit_neg_r by lia.
Qed.

Lemma take_limb_ok bits y v : 0 < bits <= 16 -> unit_number y v ->
  exists d y' v', take_limb bits y = Some (d, y') /\ unit_number y' v' /\ 0 <= d < 2 ^ (bits + 16) /\
    v * 2 ^ (bits + 16) = d * 2 ^ B + v'.
Proof.
  intros Hb Hy. unfold take_limb. destruct (take_bits_ok bits y v Hb Hy) as (hi & y1 & v1 & -> & Hy1 & Hhi & E1). rewrite bind_some; cbn iota.
  change (GMP_LIMB_BITS / 2) with 16. destruct (take_bits_ok 16 y1 v1 ltac:(lia) Hy1) as (lo & y2 & v2 & -> & Hy2 & Hlo & E2).
  rewrite bind_some; cbn iota. assert (El : Z.lor (Z.shiftl hi 16) lo = hi * 2 ^ 16 + lo).
  { rewrite <- Z.shiftl_mul_pow2 by lia. pose proof (Z.add_lor_land (Z.shiftl hi 16) lo) as E. rewrite land_halves in E by lia. lia. }
  rewrite El, Z.pow_add_r by lia. exists (hi * 2 ^ 16 + lo), y2, v2. split_and!; [done|done|lia|nia|]. rewrite Z.mul_assoc, E1. lia.
Qed.

(** ** The result *)

(** All limbs, and nothing is left. *)
Lemma take_all_ok y v : unit_number y v ->
  exists limbs y' v', ('(top, y) ← take_top fmt y; take_limbs fmt (Z.to_nat (B / GMP_LIMB_BITS)) y top) = Some (limbs, y') /\
    limbs_ok limbs /\ unit_number y' v' /\ v' = 0 /\ v = value limbs.
Proof using HB Hmin.
  intros Hy. pose proof (unit_range _ _ Hy) as Hv. unfold take_top. change GMP_LIMB_BITS with 32. change (32 / 2) with 16. cbv zeta.
  destruct (decide (B = 64)) as [E64|Hne].
  - rewrite E64. change (64 mod 32 =? 0) with true. change (Z.to_nat (64 / 32)) with 2%nat. cbv iota. rewrite bind_some. cbn iota beta.
    cbn [take_limbs]. change (GMP_LIMB_BITS / 2) with 16.
    destruct (take_limb_ok 16 _ _ ltac:(lia) Hy) as (top & y1 & v1 & -> & Hy1 & Htop & E1). rewrite bind_some; cbn iota.
    destruct (take_limb_ok 16 _ _ ltac:(lia) Hy1) as (low & y2 & v2 & -> & Hy2 & Hlow & E2). rewrite bind_some; cbn iota.
    pose proof (unit_range _ _ Hy1) as Hv1. pose proof (unit_range _ _ Hy2) as Hv2. rewrite E64 in *. change (16 + 16) with 32 in *.
    exists [low; top], y2, v2. split_and!; [done|repeat constructor; lia|done|lia|]. cbn [value]. lia.
  - assert (Eb : B mod 32 = B - 32 /\ B mod 16 = B - 48 /\ B / 32 = 1) by (split_and!; Z.to_euclidean_division_equations; lia). destruct Eb as (-> & -> & ->).
    rewrite (proj2 (Z.eqb_neq _ _)), (proj2 (Z.ltb_lt _ _)) by lia. change (Z.to_nat 1) with 1%nat.
    destruct (take_limb_ok (B - 48) _ _ ltac:(lia) Hy) as (top & y1 & v1 & -> & Hy1 & Htop & E1). rewrite !bind_some; cbn iota; cbn [take_limbs].
    change (GMP_LIMB_BITS / 2) with 16.
    destruct (take_limb_ok 16 _ _ ltac:(lia) Hy1) as (low & y2 & v2 & -> & Hy2 & Hlow & E2). rewrite bind_some; cbn iota.
    pose proof (unit_range _ _ Hy1) as Hv1. pose proof (unit_range _ _ Hy2) as Hv2. change (16 + 16) with 32 in *.
    replace (B - 48 + 16) with (B - 32) in * by lia.
    assert (Ep : 2 ^ B = 2 ^ (B - 32) * 2 ^ 32) by (rewrite <- Z.pow_add_r by lia; f_equal; lia).
    assert (2 ^ (B - 32) <= 2 ^ 32) by (apply Z.pow_le_mono_r; lia).
    assert (v2 = 0 /\ v = low + 2 ^ 32 * top) as [-> ->].
    { assert (0 < 2 ^ (B - 32)) by (apply Z.pow_pos_nonneg; lia). set (P := 2 ^ (B - 32)) in *. rewrite Ep in *. clearbody P.
      assert (E3 : v2 = P * 2 ^ 32 * (v - top * 2 ^ 32 - low)) by lia. assert (v - top * 2 ^ 32 - low = 0) by nia. nia. }
    exists [low; top], y2, 0. split_and!; [done|repeat constructor; lia|done|done|]. cbn [value]. lia.
Qed.

(** [x = 2^e' * m'], where the mantissa fills 53 bits. *)
Lemma decode_ok zero_test m e : 0 <= m < 2 ^ B ->
  exists e' limbs k, decode fmt zero_test (m, e) = Some (e', limbs) /\ limbs_ok limbs /\ 0 <= k <= B /\ value limbs = m * 2 ^ (B - k) /\
    (m = 0 \/ e' = e - (B - k)).
Proof using HB Hmin.
  intros Hm. unfold decode, frexp.
  assert (Hy : exists k exp, (if m =? 0 then ((0, 0), 0) else ((m, e - (Z.log2 m + 1 + e)), Z.log2 m + 1 + e)) = ((m, - k), exp) /\
    0 <= k <= B /\ 0 <= m < 2 ^ k /\ (m = 0 \/ exp = e + k)).
  { destruct (Z.eqb_spec m 0) as [->|Hne]; [exists 0, 0; split_and!; try done; [lia|by left]|].
    exists (Z.log2 m + 1), (Z.log2 m + 1 + e). pose proof (Z.log2_spec m ltac:(lia)) as [_ Hl].
    pose proof (Z.log2_nonneg m). assert (Z.log2 m < B) by (apply Z.log2_lt_pow2; lia). split_and!; try lia. do 2 f_equal. lia. }
  destruct Hy as (k & exp & -> & Hk & Hmk & Hexp). rewrite unit_in_unit by lia. cbn [negb].
  assert (Hy : unit_number (m, - k) (m * 2 ^ (B - k))) by by exists m, k.
  pose proof (unit_range _ _ Hy) as Hv. set (v := m * 2 ^ (B - k)) in *.
  assert (H : exists limbs y v', ('(top, y) ← take_top fmt (m, - k); take_limbs fmt (Z.to_nat (B / GMP_LIMB_BITS)) y top) = Some (limbs, y) /\
    limbs_ok limbs /\ unit_number y v' /\ v' = 0 /\ v = value limbs) by by apply take_all_ok.
  destruct H as (limbs & y & v' & E & Hl & Hy' & -> & Hval).
  destruct (take_top fmt (m, - k)) as [[top y0]|]; [|done]. cbn [mbind option_bind] in *. rewrite E. cbn [mbind option_bind].
  assert (fst y = 0) as ->.
  { destruct Hy' as (m2 & k2 & -> & Hk2 & Hm2 & E2). assert (0 < 2 ^ (B - k2)) by (apply Z.pow_pos_nonneg; lia). cbn. nia. }
  cbn [Z.eqb negb]. rewrite andb_false_r. exists (exp - B), (normalise limbs), k.
  split_and!; [done|by apply limbs_ok_normalise|lia|lia|by rewrite value_normalise|]. destruct Hexp; [by left|right; lia].
Qed.

(** ** Errors *)

(** The error of a rounding, for the numbers that occur. *)
Definition eps : Q := 1 # 1000000000.

Definition close (a b : Q) : Prop := (- eps <= a - b <= eps)%Q.

#[export] Instance close_proper : Proper (Qeq ==> Qeq ==> iff) close.
Proof. intros a a' Ha b b' Hb. unfold close. by rewrite Ha, Hb. Qed.

Lemma rnd_close x : (- (20000) <= qv x <= 20000)%Q -> close (qv (rnd x)) (qv x).
Proof.
  destruct x as [m e]. intros Hx. unfold rnd. set (sh := Z.max 0 _).
  assert (Hp : 0 < 2 ^ sh) by (apply Z.pow_pos_nonneg; lia).
  pose proof (round_half_even_bounds m (2 ^ sh) Hp) as [Hlo Hhi]. set (r := round_half_even m (2 ^ sh)) in *.
  assert (Hv : (qv (r, e + sh)%Z == inject_Z (r * 2 ^ sh) * Qpower 2 e)%Q).
  { unfold qv. cbn [fst snd]. rewrite pow2_plus, (pow2_Z sh), inject_Z_mult by lia. ring. }
  assert (Hq : forall a b, 2 * a <= 2 * b + 2 ^ sh -> (2 * inject_Z a <= 2 * inject_Z b + inject_Z (2 ^ sh))%Q).
  { intros a b H. change 2%Q with (inject_Z 2). rewrite <- !inject_Z_mult, <- inject_Z_plus, <- Zle_Qle. lia. }
  pose proof (Hq (r * 2 ^ sh) m ltac:(lia)) as Hhi'. pose proof (Hq m (r * 2 ^ sh) ltac:(lia)) as Hlo'. clear Hq.
  pose proof (pow2_pos e) as Hpe. unfold close. rewrite Hv. unfold qv in *. cbn [fst snd] in *.
  destruct (Z.eq_dec sh 0) as [Hz|Hnz].
  { unfold r. rewrite Hz. change (2 ^ 0) with 1. rewrite round_half_even_1, Z.mul_1_r. unfold eps. lra. }
  assert (HE : (inject_Z (2 ^ sh) * Qpower 2 e <= eps)%Q); [|nra].
  destruct (Z.le_gt_cases (Z.log2 (Z.abs m) + 1 - B) (MIN_EXP fmt - e)) as [Hsub|Hnorm].
  - assert (E1 : (Qpower 2 (MIN_EXP fmt) == inject_Z (2 ^ sh) * Qpower 2 e)%Q).
    { replace (MIN_EXP fmt) with (sh + e) by lia. by rewrite pow2_plus, (pow2_Z sh) by lia. }
    assert (E2 : (Qpower 2 (MIN_EXP fmt) <= eps)%Q).
    { apply Qle_trans with (Qpower 2 (- 1074)); [apply Qpower_le_compat_l; [lia|done]|apply Qle_bool_iff; by vm_compute]. }
    by rewrite E1 in E2.
  - assert (Hsh : sh <= Z.log2 (Z.abs m) - 52 /\ 0 <= sh) by lia.
    assert (Hm : 0 < Z.abs m). { destruct (Z.eq_dec (Z.abs m) 0) as [E|]; [|lia]. rewrite E in Hsh. cbn in Hsh. lia. }
    pose proof (Z.log2_spec (Z.abs m) Hm) as [Hl _].
    assert (Hle : 2 ^ (sh + 52) <= 2 ^ Z.log2 (Z.abs m)) by (apply Z.pow_le_mono_r; lia). rewrite Z.pow_add_r in Hle by lia.
    assert (Hl' : (inject_Z (2 ^ sh) * inject_Z (2 ^ 52) <= inject_Z m \/ inject_Z (2 ^ sh) * inject_Z (2 ^ 52) <= - inject_Z m)%Q).
    { rewrite <- inject_Z_mult, <- inject_Z_opp, <- !Zle_Qle. lia. }
    set (p := inject_Z (2 ^ sh)) in *. change (inject_Z (2 ^ 52)) with (4503599627370496#1)%Q in Hl'. unfold eps.
    destruct Hl'; nra.
Qed.

(** ** The logarithm *)

Lemma dmul_close x y : (- (20000) <= qv x * qv y <= 20000)%Q -> close (qv (dmul x y)) (qv x * qv y).
Proof. intros H. unfold dmul. rewrite <- qv_mul in *. by apply rnd_close. Qed.

Lemma dadd_close x y : (- (20000) <= qv x + qv y <= 20000)%Q -> close (qv (dadd x y)) (qv x + qv y).
Proof. intros H. unfold dadd. rewrite <- qv_plus in *. by apply rnd_close. Qed.

Lemma dsub_close x y : (- (20000) <= qv x - qv y <= 20000)%Q -> close (qv (dsub x y)) (qv x - qv y).
Proof.
  intros H. unfold dsub. assert (E : (qv (plus_exact x (dneg y)) == qv x - qv y)%Q) by (rewrite qv_plus, qv_neg; ring).
  rewrite <- E in *. by apply rnd_close.
Qed.

(** The values of the constants. *)
Definition between (a b : Q) (x : dyadic) : bool := Qle_bool a (qv x) && Qle_bool (qv x) b.

Lemma between_spec a b x : between a b x = true -> (a <= qv x <= b)%Q.
Proof. unfold between. rewrite andb_true_iff, !Qle_bool_iff. done. Qed.

Lemma log_step_ok bound factor step z l z' l' (blo bhi flo fhi s : Q) :
  between blo bhi bound && between flo fhi factor && Qeq_bool (qv step) s = true ->
  log_step fmt bound factor step (z, l) = (z', l') -> (0 <= qv z <= 2)%Q -> (0 <= flo /\ fhi <= 2 /\ 0 <= s <= 1)%Q -> (- (19900) <= qv l <= 19900)%Q ->
  (qv z <= bhi /\ qv z * flo - eps <= qv z' <= qv z * fhi + eps /\ qv l - s - eps <= qv l' <= qv l - s + eps)%Q \/
  (blo <= qv z /\ qv z' == qv z /\ qv l' == qv l)%Q.
Proof.
  rewrite !andb_true_iff. intros [[Hb Hf] Hs] E Hz (Hflo & Hfhi & Hs1) Hl. apply between_spec in Hb, Hf. apply Qeq_bool_iff in Hs. unfold log_step in E.
  destruct (dlt z bound) eqn:Elt; injection E as <- <-.
  - left. apply dlt_spec in Elt. assert (0 <= qv z * qv factor <= 4)%Q by nra.
    assert (H1 : close (qv (dmul z factor)) (qv z * qv factor)) by (apply dmul_close; lra).
    assert (H2 : close (qv (dsub l step)) (qv l - qv step)) by (apply dsub_close; lra).
    unfold close in *. rewrite Hs in H2. assert (qv z * flo <= qv z * qv factor <= qv z * fhi)%Q by nra. split; [lra|]. split; lra.
  - right. apply dlt_false in Elt. split; [lra|]. split; reflexivity.
Qed.

Lemma log_steps_ok y l z' l' :
  log_steps fmt (y, l) = (z', l') -> (1 # 2 <= qv y <= 1)%Q -> (- (19000) <= qv l <= 19000)%Q ->
  (957 # 1000 <= qv z' <= 1001 # 1000)%Q /\
  ((7071 # 10000 <= qv y /\ qv l - (4376 # 10000) <= qv l' <= qv l + (1 # 10000))%Q \/
   (qv y <= 70711 # 100000 /\ qv l - (9376 # 10000) <= qv l' <= qv l - (4999 # 10000))%Q).
Proof.
  unfold log_steps. intros E Hy Hl.
  destruct (log_step _ (lit20 _) _ _ (y, l)) as [z1 l1] eqn:E1. destruct (log_step _ _ _ _ (z1, l1)) as [z2 l2] eqn:E2.
  destruct (log_step _ _ _ _ (z2, l2)) as [z3 l3] eqn:E3.
  eapply (log_step_ok _ _ _ _ _ _ _ (7071 # 10000) (70711 # 100000) (14142 # 10000) (14143 # 10000) (1 # 2)) in E1;
    [|by vm_compute|lra|lra|lra].
  assert (H1 : (7070 # 10000 <= qv z1 <= 10001 # 10000)%Q) by (unfold eps in *; destruct E1 as [?|?]; lra).
  eapply (log_step_ok _ _ _ _ _ _ _ (8408 # 10000) (8409 # 10000) (11892 # 10000) (11893 # 10000) (1 # 4)) in E2;
    [|by vm_compute|lra|lra|unfold eps in *; destruct E1 as [?|?]; lra].
  assert (H2 : (8407 # 10000 <= qv z2 <= 10002 # 10000)%Q) by (unfold eps in *; destruct E2 as [?|?]; lra).
  eapply (log_step_ok _ _ _ _ _ _ _ (9170 # 10000) (9171 # 10000) (10905 # 10000) (10906 # 10000) (1 # 8)) in E3;
    [|by vm_compute|lra|lra|unfold eps in *; destruct E1 as [?|?], E2 as [?|?]; lra].
  assert (H3 : (9165 # 10000 <= qv z3 <= 10003 # 10000)%Q) by (unfold eps in *; destruct E3 as [?|?]; lra).
  eapply (log_step_ok _ _ _ _ _ _ _ (9576 # 10000) (9577 # 10000) (10442 # 10000) (10443 # 10000) (1 # 16)) in E;
    [|by vm_compute|lra|lra|unfold eps in *; destruct E1 as [?|?], E2 as [?|?], E3 as [?|?]; lra].
  unfold eps in *. split; [destruct E as [?|?]; lra|].
  destruct E1 as [E1|E1]; [right|left]; (split; [lra|]); destruct E2 as [?|?], E3 as [?|?], E as [?|?]; lra.
Qed.

Lemma qv_const m e q : Qeq_bool (qv (m, e)) q = true -> (qv (m, e) == q)%Q.
Proof. apply Qeq_bool_iff. Qed.

(** A product, and a sum, of numbers in known ranges. *)
Lemma dmul_range x y (a b c : Q) : (a <= qv x <= b)%Q -> (0 <= qv y <= c)%Q -> (-1 <= a <= 0 /\ 0 <= b <= 1 /\ c <= 2)%Q ->
  (a * c - eps <= qv (dmul x y) <= b * c + eps)%Q.
Proof.
  intros Hx Hy (Ha & Hb & Hc). assert (H : (a * c <= qv x * qv y <= b * c)%Q) by (split; nra).
  assert (H2 : (-2 <= a * c /\ b * c <= 2)%Q) by (split; nra).
  assert (Hm : close (qv (dmul x y)) (qv x * qv y)) by (apply dmul_close; lra). unfold close in Hm. lra.
Qed.

Lemma dmul_range_r y x (a b c : Q) : (a <= qv x <= b)%Q -> (0 <= qv y <= c)%Q -> (-1 <= a <= 0 /\ 0 <= b <= 1 /\ c <= 2)%Q ->
  (a * c - eps <= qv (dmul y x) <= b * c + eps)%Q.
Proof. unfold dmul. rewrite (Z.mul_comm (fst y)), (Z.add_comm (snd y)). apply dmul_range. Qed.

Lemma dadd_range x y (a b c d : Q) : (a <= qv x <= b)%Q -> (c <= qv y <= d)%Q -> (-2 <= a + c /\ b + d <= 2)%Q ->
  (a + c - eps <= qv (dadd x y) <= b + d + eps)%Q.
Proof.
  intros Hx Hy Hr. assert (Hm : close (qv (dadd x y)) (qv x + qv y)) by (apply dadd_close; lra). unfold close in Hm. lra.
Qed.

Lemma const_range m e q : Qeq_bool (qv (m, e)) q = true -> (q <= qv (m, e) <= q)%Q.
Proof. intros H%qv_const. rewrite H. lra. Qed.

Lemma log_series_ok z l : (957 # 1000 <= qv z <= 1001 # 1000)%Q -> (- (19000) <= qv l <= 19000)%Q ->
  (qv l - (65 # 1000) <= qv (log_series fmt z l) <= qv l + (17 # 10000))%Q.
Proof.
  intros Hz Hl. unfold log_series. set (w := dsub (1, 0) z). cbv zeta.
  assert (Hw : (- (11 # 10000) <= qv w <= 431 # 10000)%Q).
  { pose proof (const_range 1 0 1 eq_refl) as Q1. assert (H0 : close (qv w) (qv (1, 0)%Z - qv z)) by (apply dsub_close; lra).
    unfold close, eps in H0. lra. }
  assert (Hc : forall x (a b : Q), between a b x = true -> (a <= qv x <= b)%Q) by (intros; by apply between_spec).
  pose proof (Hc (1, -2) (1 # 4) (1 # 4) eq_refl) as C4. pose proof (Hc (1, -1) (1 # 2) (1 # 2) eq_refl) as C2.
  pose proof (Hc (1, 0) 1%Q 1%Q eq_refl) as C1. pose proof (Hc (dlit 1 3) (33 # 100) (34 # 100) eq_refl) as C3.
  pose proof (Hc (dlit 14426950408889634074 (10 ^ 19)) (14426 # 10000) (14427 # 10000) eq_refl) as Cl. clear Hc.
  set (third := dlit 1 3) in *. set (c := dlit 14426950408889634074 _) in *.
  pose proof (dmul_range w (1, -2) _ _ (1 # 4) Hw ltac:(lra) ltac:(lra)) as H1. set (t1 := dmul w (1, -2)) in *. clearbody t1.
  pose proof (dadd_range third t1 (33 # 100) (34 # 100) (- (1 # 1000)) (12 # 1000) ltac:(lra) ltac:(unfold eps in *; lra) ltac:(lra)) as H2.
  set (t2 := dadd third t1) in *. clearbody t2.
  pose proof (dmul_range w t2 _ _ (36 # 100) Hw ltac:(unfold eps in *; lra) ltac:(lra)) as H3. set (t3 := dmul w t2) in *. clearbody t3.
  pose proof (dadd_range (1, -1) t3 (1 # 2) (1 # 2) (- (1 # 1000)) (16 # 1000) ltac:(lra) ltac:(unfold eps in *; lra) ltac:(lra)) as H4.
  set (t4 := dadd (1, -1) t3) in *. clearbody t4.
  pose proof (dmul_range w t4 _ _ (517 # 1000) Hw ltac:(unfold eps in *; lra) ltac:(lra)) as H5. set (t5 := dmul w t4) in *. clearbody t5.
  pose proof (dadd_range (1, 0) t5 1 1 (- (1 # 1000)) (23 # 1000) ltac:(lra) ltac:(unfold eps in *; lra) ltac:(lra)) as H6.
  set (t6 := dadd (1, 0) t5) in *. clearbody t6.
  pose proof (dmul_range_r c w _ _ (14427 # 10000) Hw ltac:(lra) ltac:(lra)) as H7. set (t7 := dmul c w) in *. clearbody t7.
  pose proof (dmul_range t7 t6 (- (16 # 10000)) (622 # 10000) (1024 # 1000) ltac:(unfold eps in *; lra) ltac:(unfold eps in *; lra) ltac:(lra)) as H8.
  set (t8 := dmul t7 t6) in *. clearbody t8.
  assert (H9 : close (qv (dsub l t8)) (qv l - qv t8)) by (apply dsub_close; unfold eps in *; lra). unfold close, eps in *. lra.
Qed.

(** Truncation, and one less for a negative number. *)
Lemma to_int_floor x : let r := to_int x + (if dlt x (0, 0) then -1 else 0) in (inject_Z r <= qv x <= inject_Z r + 1)%Q.
Proof.
  cbn zeta. assert (H0 : (qv (0, 0)%Z == 0)%Q) by by apply Qeq_bool_iff. destruct x as [m e]. unfold to_int.
  pose proof (pow2_pos e) as Hp. destruct (Z.leb_spec 0 e) as [He|He].
  - assert (Ev : (qv (m, e) == inject_Z (m * 2 ^ e))%Q) by (unfold qv; cbn [fst snd]; by rewrite inject_Z_mult, (pow2_Z e)).
    rewrite inject_Z_plus, Ev. destruct (dlt _ _); [change (inject_Z (-1)) with (-1)%Q|change (inject_Z 0) with 0%Q]; lra.
  - set (d := 2 ^ (- e)). assert (Hd : 0 < d) by (apply Z.pow_pos_nonneg; lia).
    assert (Ev : (qv (m, e) * inject_Z d == inject_Z m)%Q).
    { unfold qv, d. cbn [fst snd]. rewrite <- (pow2_Z (- e)) by lia. rewrite <- Qmult_assoc, <- pow2_plus. replace (e + - e) with 0 by lia.
      change (Qpower 2 0) with 1%Q. ring. }
    assert (Hdq : (0 < inject_Z d)%Q) by (change 0%Q with (inject_Z 0); by rewrite <- Zlt_Qlt).
    pose proof (Z.quot_rem m d ltac:(lia)) as Hq. set (q := Z.quot m d) in *. set (r := Z.rem m d) in *.
    assert (Eq : (inject_Z m == inject_Z d * inject_Z q + inject_Z r)%Q) by (rewrite <- inject_Z_mult, <- inject_Z_plus; by rewrite Hq at 1).
    rewrite inject_Z_plus. destruct (dlt (m, e) (0, 0)) eqn:El.
    + apply dlt_spec in El. rewrite H0 in El. assert (Hm : m <= 0).
      { apply Z.nlt_ge. intros Hm. assert (0 < inject_Z m)%Q by (change 0%Q with (inject_Z 0); by rewrite <- Zlt_Qlt). nra. }
      assert (Hr : - d < r <= 0) by (pose proof (Z.rem_bound_abs m d); pose proof (Z.rem_nonpos m d); lia).
      assert (Hr' : (- inject_Z d <= inject_Z r <= 0)%Q).
      { rewrite <- inject_Z_opp. change 0%Q with (inject_Z 0). rewrite <- !Zle_Qle. lia. }
      change (inject_Z (-1)) with (-1)%Q. set (v := qv (m, e)) in *. split; nra.
    + apply dlt_false in El. rewrite H0 in El. assert (Hm : 0 <= m).
      { apply Z.nlt_ge. intros Hm. assert (inject_Z m < 0)%Q by (change 0%Q with (inject_Z 0); by rewrite <- Zlt_Qlt). nra. }
      assert (Hr : 0 <= r < d) by (apply Z.rem_bound_pos; lia).
      assert (Hr' : (0 <= inject_Z r <= inject_Z d)%Q).
      { change 0%Q with (inject_Z 0). rewrite <- !Zle_Qle. lia. }
      change (inject_Z 0) with 0%Q. set (v := qv (m, e)) in *. split; nra.
Qed.

(** ** The guess, for every exponent *)

(** 10^146 is nearly 2^485: it is enough to look at the exponents below 485.  The largest and the smallest
    integer part of a logarithm between [146/485 s - lo] and [146/485 s + hi], with [lo] and [hi] in units of 10^-4. *)
Definition high_guess (s hi : Z) : Z := (1460000 * s + 485 * hi) / 4850000.
Definition low_guess (s lo : Z) : Z := - ((485 * lo - 1460000 * s) / 4850000) - 1.

(** All guesses are good for the numbers between [a * 2^s] and [b * 2^s]. *)
Definition guess_ok (s lo hi : Z) (a b : Q) : bool :=
  Qle_bool ((63 # 100) * Qpower 10 (high_guess s hi)) (a * Qpower 2 s) && Qle_bool (b * Qpower 2 s) (19 * Qpower 10 (low_guess s lo)).

(** The two parts of the range from 2^(s-1) to 2^s, as the first step of the logarithm divides it. *)
Lemma guesses_ok : forallb (fun i => let s := Z.of_nat i in
  guess_ok s 1670 165 (7071 # 10000) 1 && guess_ok s 3175 (-1340) (1 # 2) (70711 # 100000)) (seq 0 485) = true.
Proof. by vm_compute. Qed.

Lemma pow10_le a b : a <= b -> (Qpower 10 a <= Qpower 10 b)%Q.
Proof. intros H. by apply Qpower_le_compat_l. Qed.

Lemma pow10_plus a b : (Qpower 10 (a + b) == Qpower 10 a * Qpower 10 b)%Q.
Proof. by apply Qpower_plus. Qed.

(** How much the powers differ. *)
Definition ratio : Q := (Qpower 10 146 / Qpower 2 485)%Q.

Lemma ratio_near : (1 <= ratio <= 10011 # 10000)%Q.
Proof. split; apply Qle_bool_iff; by vm_compute. Qed.

Lemma ratio_power q : (Qpower 10 (146 * q) == Qpower ratio q * Qpower 2 (485 * q))%Q.
Proof.
  unfold ratio. rewrite Qdiv_power, <- !Qpower_mult. field. intros E. pose proof (Qpower_0_lt 2 (485 * q) eq_refl) as H. rewrite E in H. by apply Qlt_irrefl in H.
Qed.

Lemma ratio_powers n : (1 <= Qpower ratio (Z.of_nat n) <= Qpower (10011 # 10000) (Z.of_nat n))%Q.
Proof.
  pose proof ratio_near as Hr. induction n as [|n IH]; [split; by apply Qle_refl|].
  rewrite Nat2Z.inj_succ, <- Z.add_1_r, !Qpower_plus by (intros E; apply (Qeq_bool_iff _ _) in E; by vm_compute in E).
  change (Qpower ratio 1) with ratio. change (Qpower (10011 # 10000) 1) with (10011 # 10000)%Q.
  set (u := Qpower ratio _) in *. set (v := Qpower (10011 # 10000) _) in *. set (r := ratio) in *. clearbody u v r. split; nra.
Qed.

Lemma near_powers q : -35 <= q <= 35 ->
  (Qpower 10 (146 * q) <= (104 # 100) * Qpower 2 (485 * q) /\ Qpower 2 (485 * q) <= (104 # 100) * Qpower 10 (146 * q))%Q.
Proof.
  intros Hq. rewrite ratio_power. pose proof (Qpower_0_lt 2 (485 * q) eq_refl) as Hp. set (p := Qpower 2 (485 * q)) in *. clearbody p.
  assert (Hb : forall n, (n <= 35)%nat -> (1 <= Qpower ratio (Z.of_nat n) <= 104 # 100)%Q).
  { intros n Hn. pose proof (ratio_powers n) as [H1 H2]. split; [done|]. apply Qle_trans with (1 := H2).
    apply Qle_trans with (Qpower (10011 # 10000) 35); [apply Qpower_le_compat_l; [lia|done]|apply Qle_bool_iff; by vm_compute]. }
  destruct (Z.le_ge_cases 0 q) as [H0|H0].
  - specialize (Hb (Z.to_nat q) ltac:(lia)). rewrite Z2Nat.id in Hb by done. set (u := Qpower ratio q) in *. clearbody u. split; nra.
  - specialize (Hb (Z.to_nat (- q)) ltac:(lia)). rewrite Z2Nat.id in Hb by lia. replace q with (- - q) by lia. rewrite Qpower_opp.
    set (u := Qpower ratio (- q)) in *. clearbody u. assert (Hu : (u * / u == 1)%Q) by (apply Qmult_inv_r; lra).
    set (w := (/ u)%Q) in *. clearbody w. assert (0 < w)%Q by nra. split; nra.
Qed.

(** In the range below 485. *)
Lemma guess_small s lo hi a b r : guess_ok s lo hi a b = true -> 4850000 * r <= 1460000 * s + 485 * hi -> 1460000 * s - 485 * lo <= 4850000 * (r + 1) ->
  ((63 # 100) * Qpower 10 r <= a * Qpower 2 s /\ b * Qpower 2 s <= 19 * Qpower 10 r)%Q.
Proof.
  unfold guess_ok. rewrite andb_true_iff, !Qle_bool_iff. intros [Hhi Hlo] H1 H2.
  assert (Hr1 : r <= high_guess s hi) by (apply Z.div_le_lower_bound; lia).
  assert (Hr2 : low_guess s lo <= r).
  { unfold low_guess. assert (- (r + 1) <= (485 * lo - 1460000 * s) / 4850000) by (apply Z.div_le_lower_bound; lia). lia. }
  apply pow10_le in Hr1, Hr2. split; lra.
Qed.

Lemma guess_good n lo hi a b r (x : Q) : -16900 <= n < 16900 -> guess_ok (n mod 485) lo hi a b = true ->
  4850000 * r <= 1460000 * n + 485 * hi -> 1460000 * n - 485 * lo <= 4850000 * (r + 1) ->
  (a * Qpower 2 n <= x <= b * Qpower 2 n)%Q -> ((6 # 10) * Qpower 10 r <= x /\ x < 20 * Qpower 10 r)%Q.
Proof.
  intros Hn Hok H1 H2 Hx. pose proof (Z.div_mod n 485 ltac:(lia)) as En. pose proof (Z.mod_pos_bound n 485 ltac:(lia)) as Hs.
  set (s := n mod 485) in *. set (q := n / 485) in *.
  destruct (guess_small s lo hi a b (r - 146 * q) Hok ltac:(lia) ltac:(lia)) as [G1 G2].
  destruct (near_powers q ltac:(lia)) as [N1 N2].
  assert (E2 : (Qpower 2 n == Qpower 2 s * Qpower 2 (485 * q))%Q) by (rewrite <- pow2_plus; by replace (s + 485 * q) with n by lia).
  assert (E10 : (Qpower 10 r == Qpower 10 (r - 146 * q) * Qpower 10 (146 * q))%Q)
    by (rewrite <- pow10_plus; by replace (r - 146 * q + 146 * q) with r by lia).
  rewrite E2 in Hx. rewrite E10.
  assert (0 < Qpower 2 (485 * q))%Q by (by apply Qpower_0_lt). assert (0 < Qpower 10 (146 * q))%Q by (by apply Qpower_0_lt).
  assert (0 < Qpower 10 (r - 146 * q))%Q by (by apply Qpower_0_lt).
  set (u := Qpower 2 (485 * q)) in *. set (v := Qpower 10 (146 * q)) in *. set (t := Qpower 10 (r - 146 * q)) in *. set (w := Qpower 2 s) in *.
  clearbody u v t w. split.
  - apply Qle_trans with (a * (w * u))%Q; [|lra]. apply Qle_trans with ((63 # 100) * t * u)%Q; [nra|nra].
  - apply Qle_lt_trans with (b * (w * u))%Q; [lra|]. apply Qle_lt_trans with (19 * t * u)%Q; [nra|]. nra.
Qed.

Lemma mul_near l c : (- (17000) <= l <= 17000)%Q -> (3010299956639 # 10000000000000 <= c <= 3010299956640 # 10000000000000)%Q ->
  (l * (3010299956639 # 10000000000000) - (1 # 10000000) <= l * c <= l * (3010299956639 # 10000000000000) + (1 # 10000000))%Q.
Proof. intros Hl Hc. split; nra. Qed.

(** The bounds of a logarithm base two give those of its integer part base ten. *)
Lemma guess_of_log n r (y l x : Q) : -16500 <= n <= 16500 -> (x == y * Qpower 2 n)%Q -> (1 # 2 <= y /\ y < 1)%Q ->
  (inject_Z r <= l * (3010299956639 # 10000000000000) + (3 # 1000000) /\ l * (3010299956639 # 10000000000000) - (3 # 1000000) <= inject_Z r + 1)%Q ->
  (7071 # 10000 <= y /\ inject_Z n - (5026 # 10000) <= l <= inject_Z n + (18 # 10000) \/
   y <= 70711 # 100000 /\ inject_Z n - (10026 # 10000) <= l <= inject_Z n - (4982 # 10000))%Q ->
  ((6 # 10) * Qpower 10 r <= x /\ x < 20 * Qpower 10 r)%Q.
Proof.
  intros Hn Hx Hy Hr Hl.
  assert (Hnb : (-16500 <= inject_Z n <= 16500)%Q) by (change (-16500)%Q with (inject_Z (-16500)); change 16500%Q with (inject_Z 16500); rewrite <- !Zle_Qle; lia).
  pose proof guesses_ok as Hg. rewrite forallb_forall in Hg. pose proof (Z.mod_pos_bound n 485 ltac:(lia)).
  specialize (Hg (Z.to_nat (n mod 485)) ltac:(apply in_seq; lia)). cbn zeta in Hg.
  rewrite Z2Nat.id in Hg by lia. apply andb_true_iff in Hg as [Ga Gb].
  assert (Hup : forall hi, (l * (3010299956639 # 10000000000000) + (1 # 100000) <= (1460000 # 4850000) * inject_Z n + (485 # 4850000) * inject_Z hi)%Q ->
    4850000 * r <= 1460000 * n + 485 * hi).
  { intros hi Hq. rewrite Zle_Qle, inject_Z_plus, !inject_Z_mult. change (inject_Z 4850000) with 4850000%Q.
    change (inject_Z 1460000) with 1460000%Q. change (inject_Z 485) with 485%Q. lra. }
  assert (Hdown : forall lo, ((1460000 # 4850000) * inject_Z n - (485 # 4850000) * inject_Z lo <= l * (3010299956639 # 10000000000000) - (1 # 100000))%Q ->
    1460000 * n - 485 * lo <= 4850000 * (r + 1)).
  { intros lo Hq. rewrite Zle_Qle. unfold Z.sub. rewrite inject_Z_plus, inject_Z_opp, !inject_Z_mult, inject_Z_plus. change (inject_Z 4850000) with 4850000%Q.
    change (inject_Z 1460000) with 1460000%Q. change (inject_Z 485) with 485%Q. change (inject_Z 1) with 1%Q. lra. }
  pose proof (pow2_pos n). destruct Hl as [[Hy1 Hl]|[Hy1 Hl]].
  - apply (guess_good n 1670 165 (7071 # 10000) 1); [lia|exact Ga|apply Hup|apply Hdown|rewrite Hx; split; nra].
    + change (inject_Z 165) with 165%Q. lra.
    + change (inject_Z 1670) with 1670%Q. lra.
  - apply (guess_good n 3175 (-1340) (1 # 2) (70711 # 100000)); [lia|exact Gb|apply Hup|apply Hdown|rewrite Hx; split; nra].
    + change (inject_Z (-1340)) with (-1340)%Q. lra.
    + change (inject_Z 3175) with 3175%Q. lra.
Qed.

(** What frexp() gives. *)
Lemma mantissa_value m e : 0 < m -> let k := Z.log2 m + 1 in
  (qv (m, e) == qv (m, - k)%Z * Qpower 2 (k + e))%Q /\ (1 # 2 <= qv (m, - k)%Z /\ qv (m, - k)%Z < 1)%Q.
Proof.
  intros Hm k. pose proof (Z.log2_spec m Hm) as [Hm1 Hm2]. pose proof (Z.log2_nonneg m).
  split; [unfold qv; cbn [fst snd]; rewrite <- Qmult_assoc, <- pow2_plus; by replace (- k + (k + e)) with e by lia|].
  assert (E : (qv (m, - k)%Z * inject_Z (2 ^ k) == inject_Z m)%Q).
  { unfold qv. cbn [fst snd]. rewrite <- (pow2_Z k) by lia. rewrite <- Qmult_assoc, <- pow2_plus. replace (- k + k) with 0 by lia.
    change (Qpower 2 0) with 1%Q. ring. }
  assert (H1 : (inject_Z (2 ^ k) <= 2 * inject_Z m)%Q).
  { change 2%Q with (inject_Z 2). rewrite <- inject_Z_mult, <- Zle_Qle. unfold k. rewrite Z.pow_add_r by lia. change (2 ^ 1) with 2. lia. }
  assert (H2 : (inject_Z m < inject_Z (2 ^ k))%Q) by (rewrite <- Zlt_Qlt; unfold k; rewrite Z.add_1_r; lia).
  assert (H3 : (0 < inject_Z (2 ^ k))%Q) by (change 0%Q with (inject_Z 0); rewrite <- Zlt_Qlt; lia).
  set (y := qv (m, - k)%Z) in *. set (p := inject_Z (2 ^ k)) in *. clearbody y p. split; nra.
Qed.

(** floorlog10() does not abort, and its guess is right up to one. *)
Lemma floorlog_ok m e : 0 < m < 2 ^ B -> MIN_EXP fmt <= e <= MAX_EXP fmt ->
  exists r, floorlog fmt (m, e) = Some r /\ ((6 # 10) * Qpower 10 r <= qv (m, e) /\ qv (m, e) < 20 * Qpower 10 r)%Q.
Proof.
  intros Hm He. unfold floorlog, frexp. rewrite (proj2 (Z.eqb_neq m 0)) by lia.
  pose proof (Z.log2_nonneg m) as Hlog0. assert (Hlog : Z.log2 m < B) by (apply Z.log2_lt_pow2; lia).
  pose proof (Z.log2_spec m ltac:(lia)) as [Hm1 Hm2]. set (k := Z.log2 m + 1). set (n := k + e).
  fold k. replace (k + e) with n by (unfold n; lia). replace (e - n) with (- k) by (unfold n; lia).
  assert (Hk : 0 <= m < 2 ^ k) by (unfold k; lia). rewrite unit_in_unit by (unfold k; lia). cbn [negb fst].
  rewrite (proj2 (Z.eqb_neq m 0)) by lia.
  destruct (mantissa_value m e ltac:(lia)) as [Hx Hy]. fold k in Hx, Hy. fold n in Hx.
  unfold normalise_mantissa. assert (Hhalf : (qv (1, -1)%Z == 1 # 2)%Q) by by apply Qeq_bool_iff.
  assert (E1 : dlt (m, - k) (1, -1) = false) by (apply dlt_false; lra). rewrite E1. cbn [mbind option_bind]. rewrite E1. cbn [negb andb].
  assert (Hone : (qv (1, 0)%Z == 1)%Q) by by apply Qeq_bool_iff.
  assert (E2 : dlt (m, - k) (1, 0) = true) by (apply dlt_spec; lra). rewrite E2. cbn [negb].
  destruct (log_steps _ ((m, - k), dof_int n)) as [z l] eqn:Es.
  assert (Hn : -16444 <= n <= 16384) by (unfold n, k; lia).
  assert (Hnq : (qv (dof_int n) == inject_Z n)%Q) by (unfold qv, dof_int; cbn [fst snd]; change (Qpower 2 0) with 1%Q; ring).
  assert (Hnb : (-16444 <= inject_Z n <= 16384)%Q) by (change (-16444)%Q with (inject_Z (-16444)); change 16384%Q with (inject_Z 16384); rewrite <- !Zle_Qle; lia).
  apply log_steps_ok in Es as [Hz Hl]; [|lra|lra].
  pose proof (log_series_ok z l Hz ltac:(lra)) as Hs. set (l2 := log_series fmt z l) in *. clearbody l2.
  set (c := lit20 30102999566398119523). assert (Hc : (3010299956639 # 10000000000000 <= qv c <= 3010299956640 # 10000000000000)%Q) by (apply between_spec; by vm_compute).
  clearbody c. eexists. split; [reflexivity|].
  pose proof (to_int_floor (dmul l2 c)) as Hr. cbn zeta in Hr. set (r := to_int (dmul l2 c) + _) in *. clearbody r.
  pose proof (mul_near (qv l2) (qv c) ltac:(lra) Hc) as Hlc.
  assert (Hprod : close (qv (dmul l2 c)) (qv l2 * qv c)) by (apply dmul_close; lra). unfold close, eps in Hprod.
  apply (guess_of_log n r (qv (m, - k)%Z) (qv l2)); [lia|exact Hx|exact Hy|lra|]. destruct Hl as [[? ?]|[? ?]]; [left|right]; lra.
Qed.
End Format.

(** ** Rounding *)

(** [x * 10^n] rounded to the nearest integer, ties to even. *)
Definition scaled_num (x : dyadic) (n : Z) : Z := fst x * 2 ^ Z.max (snd x + n) 0 * 5 ^ Z.max n 0.
Definition scaled_den (x : dyadic) (n : Z) : Z := 2 ^ Z.max (- (snd x + n)) 0 * 5 ^ Z.max (- n) 0.
Definition rounded (x : dyadic) (n : Z) : Z := round_half_even (scaled_num x n) (scaled_den x n).

Lemma scaled_den_pos x n : 0 < scaled_den x n.
Proof. unfold scaled_den. apply Z.mul_pos_pos; apply Z.pow_pos_nonneg; lia. Qed.

Lemma round_half_even_ratio a b c d : 0 < b -> 0 < d -> a * d = c * b -> round_half_even a b = round_half_even c d.
Proof.
  intros Hb Hd E. rewrite <- (round_half_even_scale a b d), <- (round_half_even_scale c d b) by done. by rewrite E, (Z.mul_comm b d).
Qed.

Lemma pow5_pow2 n : (Qpower 10 n == Qpower 2 n * Qpower 5 n)%Q.
Proof. rewrite <- Qmult_power. done. Qed.

Lemma split_power a n : 0 < a -> (inject_Z (a ^ Z.max n 0) == Qpower (inject_Z a) n * inject_Z (a ^ Z.max (- n) 0))%Q.
Proof.
  intros Ha. rewrite !Zpower_Qpower by lia. destruct (Z.le_ge_cases 0 n).
  - rewrite Z.max_l, (Z.max_r (- n)) by lia. change (Qpower (inject_Z a) 0) with 1%Q. ring.
  - rewrite (Z.max_r n), (Z.max_l (- n)) by lia. rewrite <- Qpower_plus; [by replace (n + - n) with 0 by lia|].
    intros E. change 0%Q with (inject_Z 0) in E. rewrite inject_Z_injective in E. lia.
Qed.

Lemma scaled_value x n : (inject_Z (scaled_num x n) == qv x * Qpower 10 n * inject_Z (scaled_den x n))%Q.
Proof.
  unfold scaled_num, scaled_den, qv. rewrite !inject_Z_mult. rewrite (split_power 2 (snd x + n)), (split_power 5 n) by done.
  change (inject_Z 2) with 2%Q. change (inject_Z 5) with 5%Q. rewrite pow5_pow2, pow2_plus. ring.
Qed.

(** Only the value of the double matters. *)
Lemma rounded_value x y n : (qv x == qv y)%Q -> rounded x n = rounded y n.
Proof.
  intros E. unfold rounded. apply round_half_even_ratio; [apply scaled_den_pos..|]. apply inject_Z_injective.
  rewrite !inject_Z_mult, !scaled_value, E. ring.
Qed.

(** The error is at most one half. *)
Lemma rounded_near x n : (qv x * Qpower 10 n - (1 # 2) <= inject_Z (rounded x n) <= qv x * Qpower 10 n + (1 # 2))%Q.
Proof.
  pose proof (round_half_even_bounds (scaled_num x n) (scaled_den x n) (scaled_den_pos x n)) as [H1 H2].
  fold (rounded x n) in *. pose proof (scaled_value x n) as E. pose proof (scaled_den_pos x n) as Hd.
  assert (Hdq : (0 < inject_Z (scaled_den x n))%Q) by (change 0%Q with (inject_Z 0); by rewrite <- Zlt_Qlt).
  assert (Hq1 : (2 * inject_Z (scaled_num x n) <= 2 * (inject_Z (rounded x n) * inject_Z (scaled_den x n)) + inject_Z (scaled_den x n))%Q).
  { change 2%Q with (inject_Z 2). rewrite <- !inject_Z_mult, <- inject_Z_plus, <- Zle_Qle. lia. }
  assert (Hq2 : (2 * (inject_Z (rounded x n) * inject_Z (scaled_den x n)) <= 2 * inject_Z (scaled_num x n) + inject_Z (scaled_den x n))%Q).
  { change 2%Q with (inject_Z 2). rewrite <- !inject_Z_mult, <- inject_Z_plus, <- Zle_Qle. lia. }
  rewrite E in *. set (q := (qv x * Qpower 10 n)%Q) in *. set (r := inject_Z (rounded x n)) in *. set (den := inject_Z (scaled_den x n)) in *.
  clearbody q r den. split; nra.
Qed.

Lemma rounded_nonneg x n : 0 <= fst x -> 0 <= rounded x n.
Proof.
  intros Hx. pose proof (rounded_near x n) as [H _]. assert (Hq : (0 <= qv x * Qpower 10 n)%Q).
  { apply Qmult_le_0_compat; [|by apply Qlt_le_weak, Qpower_0_lt]. unfold qv. apply Qmult_le_0_compat; [|by apply Qlt_le_weak, Qpower_0_lt].
    change 0%Q with (inject_Z 0). by rewrite <- Zle_Qle. }
  apply Z.nlt_ge. intros Hlt. assert (inject_Z (rounded x n) <= -1)%Q by (change (-1)%Q with (inject_Z (-1)); rewrite <- Zle_Qle; lia). lra.
Qed.

(** ** Digits *)

(** The digits of a number, last first, without leading zeros. *)
Definition digits_of (ds : cstr) (n : Z) : Prop :=
  Forall digit_ok ds /\ dec_value ds = n /\ ds <> [] /\ (last ds = Some (chr "0") -> ds = [chr "0"]).

Lemma dec_value_digits ds : Forall digit_ok ds -> ds = store_digits (length ds) (dec_value ds) /\ 0 <= dec_value ds < 10 ^ Z.of_nat (length ds).
Proof.
  induction 1 as [|c ds Hc Hds [IH1 IH2]]; [done|]. unfold digit_ok in Hc. change (chr "0") with 48 in *. change (chr "9") with 57 in *.
  cbn [length store_digits dec_value]. change (chr "0") with 48. rewrite Nat2Z.inj_succ, Z.pow_succ_r by lia.
  rewrite (Z.mul_comm 10), Z.mod_add, Z.div_add, Z.mod_small, Z.div_small by lia. split; [|lia]. f_equal; [lia|done].
Qed.

Lemma digits_low ds n : digits_of ds n -> length ds = 1%nat \/ 10 ^ Z.of_nat (length ds - 1) <= n.
Proof.
  intros (Hds & <- & Hne & Hlast). destruct (decide (length ds = 1%nat)) as [|Hlen]; [by left|right].
  destruct (exists_last Hne) as (ds' & c & ->). rewrite last_snoc in Hlast. rewrite length_app in *. cbn [length] in *.
  apply Forall_app in Hds as [Hds' Hc]. apply Forall_cons in Hc as [Hc _]. rewrite dec_value_app. cbn [dec_value].
  destruct (dec_value_digits ds' Hds') as [_ Hv]. replace (length ds' + 1 - 1)%nat with (length ds') by lia.
  assert (c <> chr "0"). { intros ->. specialize (Hlast eq_refl). destruct ds'; [done|]. by destruct ds'. }
  unfold digit_ok in Hc. assert (0 < 10 ^ Z.of_nat (length ds')) by (apply Z.pow_pos_nonneg; lia). nia.
Qed.

(** The number of digits. *)
Lemma digits_length ds n k : digits_of ds n -> (Z.of_nat (length ds) = k + 1 <-> (k = 0 \/ 10 ^ k <= n) /\ n < 10 ^ (k + 1)) \/ k < 0.
Proof.
  intros Hd. destruct (Z.lt_ge_cases k 0); [by right|left]. pose proof (digits_low ds n Hd) as Hlow. destruct Hd as (Hds & Hn & Hne & _).
  destruct (dec_value_digits ds Hds) as [_ Hv]. rewrite Hn in Hv. assert (0 < length ds)%nat by (destruct ds; [done|cbn; lia]). split.
  - intros E. rewrite <- E. split; [|lia]. destruct Hlow as [Hl|Hl]; [left; lia|right]. by replace k with (Z.of_nat (length ds - 1)) by lia.
  - intros [Hk1 Hk2]. destruct (Z.lt_trichotomy (Z.of_nat (length ds)) (k + 1)) as [Hlt|[E|Hgt]]; [|done|].
    + assert (10 ^ Z.of_nat (length ds) <= 10 ^ k) by (apply Z.pow_le_mono_r; lia). lia.
    + assert (10 ^ (k + 1) <= 10 ^ Z.of_nat (length ds - 1)) by (apply Z.pow_le_mono_r; lia). lia.
Qed.

(** ** The calls *)

(** An exponent that is too large. *)
Definition exponent_limit (type : float_type) : Z := match type with Double => 400 | LongDouble => 5000 end.

Section Calls.
Context (type : float_type).
Local Notation fmt := (float_format_of type).
Local Notation scaled_digits := (scaled_digits type).
Local Notation exponent_loop := (exponent_loop type).
Local Notation find_exponent := (find_exponent type).

Lemma format_bits : 53 <= MANT_BIT fmt <= 64.
Proof. destruct type; cbn; lia. Qed.

Lemma format_min : - 16445 <= MIN_EXP fmt <= - 1074.
Proof. destruct type; cbn; lia. Qed.

Lemma format_max : 971 <= MAX_EXP fmt <= 16320.
Proof. destruct type; cbn; lia. Qed.

Lemma guess_exponent_ok m e : 0 < m < 2 ^ MANT_BIT fmt -> MIN_EXP fmt <= e <= MAX_EXP fmt ->
  exists r, guess_exponent type (m, e) = Some r /\ ((6 # 10) * Qpower 10 r <= qv (m, e) /\ qv (m, e) < 20 * Qpower 10 r)%Q.
Proof. intros Hm He. pose proof (floorlog_ok fmt format_bits format_min format_max m e Hm He) as H. by destruct type. Qed.

Lemma scale10_round_decimal_ok alloc junk m e n : 0 <= m < 2 ^ MANT_BIT fmt ->
  exists e' limbs, scale10_round_decimal type true alloc junk (m, e) n = Some (scale10_round_decimal_decoded alloc junk e' limbs n) /\
    limbs_ok limbs /\ (qv (value limbs, e') == qv (m, e))%Q.
Proof.
  intros Hm. assert (Hd : forall zero_test, exists e' limbs, decode fmt zero_test (m, e) = Some (e', limbs) /\ limbs_ok limbs /\ (qv (value limbs, e') == qv (m, e))%Q).
  { intros zero_test. destruct (decode_ok fmt format_bits format_min zero_test m e Hm) as (e' & limbs & k & -> & Hl & Hk & Hv & He).
    exists e', limbs. split_and!; [done|done|]. rewrite Hv. destruct He as [->| ->].
    - unfold qv. cbn [fst snd]. change (inject_Z (0 * 2 ^ (MANT_BIT fmt - k))) with 0%Q. change (inject_Z 0) with 0%Q. ring.
    - rewrite qv_shift by lia. by replace (e - (MANT_BIT fmt - k) + (MANT_BIT fmt - k)) with e by lia. }
  unfold scale10_round_decimal, scale10_round_decimal_double, scale10_round_decimal_long_double, decode_double, decode_long_double.
  destruct type; [destruct (Hd true) as (e' & limbs & Ed & Hl & Hv)|destruct (Hd false) as (e' & limbs & Ed & Hl & Hv)];
    exists e', limbs; cbn [float_format_of] in Ed; rewrite Ed; done.
Qed.

Context (alloc : nat -> bool * (site -> bool)) (junk : nat -> mpn) (Hjunk : forall k, length (junk k) = k /\ limbs_ok (junk k)).

(** Some allocation failed. *)
Definition alloc_failed : Prop := exists call, fst (alloc call) = false \/ exists a, snd (alloc call) a = false.

Lemma scaled_digits_ok call x n : 0 <= fst x < 2 ^ MANT_BIT fmt -> n < 2 ^ 32 ->
  match scaled_digits alloc junk call x n with
  | Text ds => digits_of ds (rounded x n)
  | NoMemory => alloc_failed
  | Aborted => 10 ^ 125 <= rounded x n
  end.
Proof using Hjunk.
  intros Hm Hn. unfold FloatText.scaled_digits. destruct (fst (alloc call)) eqn:Ea; [|by destruct type; exists call; left].
  destruct x as [m e]. cbn [fst] in Hm. destruct (scale10_round_decimal_ok (snd (alloc call)) junk m e n Hm) as (e' & limbs & -> & Hl & Hv).
  pose proof (scale10_round_correct (snd (alloc call)) junk e' limbs n Hl Hjunk Hn) as H.
  assert (Er : rounded (value limbs, e') n = rounded (m, e) n) by by apply rounded_value.
  destruct (scale10_round_decimal_decoded _ _ _ _ _) as [ds| |]; [|by exists call; right|].
  - destruct H as (H1 & H2 & H3 & H4). split; [done|]. split; [|done]. by rewrite H2.
  - by rewrite <- Er.
Qed.

(** ** The exponent *)

Lemma Zle_from_Q a b : (inject_Z a < inject_Z b + 1)%Q -> a <= b.
Proof using Type.
  intros H. assert (a < b + 1); [|lia]. rewrite Zlt_Qlt, inject_Z_plus. done.
Qed.

Lemma scaled_next x n : (qv x * Qpower 10 (n + 1) == 10 * (qv x * Qpower 10 n))%Q.
Proof using Type. rewrite pow10_plus. change (Qpower 10 1) with 10%Q. ring. Qed.

(** [x * 10^(p - E)] has [p + 1] digits before the decimal point. *)
Definition digits_exactly (x : dyadic) (p E : Z) : Prop := 10 ^ p <= rounded x (p - E) < 10 ^ (p + 1).

(** The guess, or one of its neighbours: what the number of digits says. *)
Lemma guess_cases x p g ds : 0 <= p -> ((6 # 10) * Qpower 10 g <= qv x /\ qv x < 20 * Qpower 10 g)%Q ->
  digits_of ds (rounded x (p - g)) -> let n := Z.of_nat (length ds) in
  n = p + 1 /\ digits_exactly x p g \/ n = p /\ digits_exactly x p (g - 1) \/ n = p + 2 /\ digits_exactly x p (g + 1).
Proof using Type.
  intros Hp Hg Hd n. unfold digits_exactly.
  set (q := (qv x * Qpower 10 (p - g))%Q). set (U := inject_Z (10 ^ p)).
  assert (HU : (1 <= U)%Q). { change 1%Q with (inject_Z 1). unfold U. rewrite <- Zle_Qle. pose proof (Z.pow_pos_nonneg 10 p). lia. }
  assert (Hq : ((6 # 10) * U <= q /\ q < 20 * U)%Q).
  { assert (E : (U == Qpower 10 g * Qpower 10 (p - g))%Q).
    { unfold U. rewrite Zpower_Qpower, <- pow10_plus by lia. change (inject_Z 10) with 10%Q. by replace (g + (p - g)) with p by lia. }
    unfold q. rewrite E. pose proof (Qpower_0_lt 10 (p - g) eq_refl) as Hpos. set (t := Qpower 10 (p - g)) in *. set (u := Qpower 10 g) in *.
    clearbody t u. split; nra. }
  pose proof (rounded_near x (p - g)) as H0. fold q in H0.
  pose proof (rounded_near x (p - (g - 1))) as H1. replace (p - (g - 1)) with (p - g + 1) in * by lia. rewrite scaled_next in H1. fold q in H1.
  pose proof (rounded_near x (p - (g + 1))) as H2. replace (p - (g + 1)) with (p - g - 1) in * by lia.
  assert (Eq : (q == 10 * (qv x * Qpower 10 (p - g - 1)))%Q) by (unfold q; rewrite <- scaled_next; by replace (p - g - 1 + 1) with (p - g) by lia).
  set (q2 := (qv x * Qpower 10 (p - g - 1))%Q) in *. clearbody q q2.
  set (R0 := rounded x (p - g)) in *. set (R1 := rounded x (p - g + 1)) in *. set (R2 := rounded x (p - g - 1)) in *.
  assert (HZ : forall k, 0 <= k -> (inject_Z (10 ^ (p + k)) == U * inject_Z (10 ^ k))%Q).
  { intros k Hk. unfold U. by rewrite Z.pow_add_r, inject_Z_mult by lia. }
  assert (HU1 : (inject_Z (10 ^ (p + 1)) == U * 10)%Q) by by rewrite HZ.
  assert (HU2 : (inject_Z (10 ^ (p + 2)) == U * 100)%Q) by by rewrite HZ.
  assert (Hlt : forall r k, (inject_Z r < inject_Z k)%Q -> r < k) by (intros r k; by rewrite <- Zlt_Qlt).
  destruct (Z.lt_ge_cases R0 (10 ^ p)) as [Hsmall|Hlarge].
  - right; left. assert (HR0 : (inject_Z R0 <= U - 1)%Q).
    { unfold U. assert (inject_Z (R0 + 1) <= inject_Z (10 ^ p))%Q as H by (rewrite <- Zle_Qle; lia). rewrite inject_Z_plus in H. change (inject_Z 1) with 1%Q in H. lra. }
    split; [|split; [apply Zle_from_Q; fold U; lra|apply Hlt; rewrite HU1; lra]].
    assert (Hp0 : 0 < p). { apply Z.nle_gt. intros Hle. assert (U == 1)%Q by (unfold U; by replace p with 0 by lia). lra. }
    destruct (digits_length ds R0 (p - 1) Hd) as [Hiff|?]; [|lia]. replace p with (p - 1 + 1) by lia. apply Hiff. replace (p - 1 + 1) with p by lia.
    split; [right|done]. apply Zle_from_Q. assert (U == inject_Z (10 ^ (p - 1)) * 10)%Q as EU.
    { unfold U. replace p with (p - 1 + 1) at 1 by lia. by rewrite Z.pow_add_r, inject_Z_mult by lia. }
    assert (1 <= inject_Z (10 ^ (p - 1)))%Q. { change 1%Q with (inject_Z 1). rewrite <- Zle_Qle. pose proof (Z.pow_pos_nonneg 10 (p - 1)). lia. }
    lra.
  - destruct (Z.lt_ge_cases R0 (10 ^ (p + 1))) as [Hmid|Hbig].
    + left. split; [|lia]. destruct (digits_length ds R0 p Hd) as [Hiff|?]; [|lia]. apply Hiff. split; [by right|done].
    + right; right. assert (HR0 : (U * 10 <= inject_Z R0)%Q) by (rewrite <- HU1, <- Zle_Qle; lia).
      split; [|split; [apply Zle_from_Q; fold U; lra|apply Hlt; rewrite HU1; lra]].
      destruct (digits_length ds R0 (p + 1) Hd) as [Hiff|?]; [|lia]. replace (p + 2) with (p + 1 + 1) by lia. apply Hiff.
      split; [by right|]. replace (p + 1 + 1) with (p + 2) by lia. apply Hlt. rewrite HU2. lra.
Qed.

(** A finite number that is not zero. *)
Definition positive_double (x : dyadic) : Prop := 0 < fst x < 2 ^ MANT_BIT fmt /\ MIN_EXP fmt <= snd x <= MAX_EXP fmt.

(** The ends of the range. *)
Lemma range_ends : (20 * Qpower 10 (10 - exponent_limit type) < 1 * Qpower 2 (MIN_EXP fmt))%Q /\
  (Qpower 2 (MANT_BIT fmt) * Qpower 2 (MAX_EXP fmt) < (6 # 10) * Qpower 10 (exponent_limit type - 10))%Q.
Proof using Type. destruct type; split; by vm_compute. Qed.

Lemma guess_range x g : positive_double x -> ((6 # 10) * Qpower 10 g <= qv x /\ qv x < 20 * Qpower 10 g)%Q ->
  10 - exponent_limit type < g < exponent_limit type - 10.
Proof using Type.
  intros [Hm He] [H1 H2]. pose proof range_ends as [Hlow Hhigh]. pose proof format_bits.
  assert (Hhi : (qv x <= Qpower 2 (MANT_BIT fmt) * Qpower 2 (MAX_EXP fmt))%Q).
  { unfold qv. apply Qmult_le_compat_nonneg; (split; [|]); try (by apply Qlt_le_weak, Qpower_0_lt).
    - change 0%Q with (inject_Z 0). rewrite <- Zle_Qle. lia.
    - rewrite (pow2_Z (MANT_BIT fmt)) by lia. rewrite <- Zle_Qle. lia.
    - apply Qpower_le_compat_l; [lia|done]. }
  assert (Hlo : (1 * Qpower 2 (MIN_EXP fmt) <= qv x)%Q).
  { unfold qv. apply Qmult_le_compat_nonneg; (split; [|]); try (by apply Qlt_le_weak, Qpower_0_lt); try done.
    - change 1%Q with (inject_Z 1). rewrite <- Zle_Qle. lia.
    - apply Qpower_le_compat_l; [lia|done]. }
  split.
  - apply Z.nle_gt. intros Hg. assert (Hle : (Qpower 10 g <= Qpower 10 (10 - exponent_limit type))%Q) by (apply pow10_le; lia). lra.
  - apply Z.nle_gt. intros Hg. assert (Hle : (Qpower 10 (exponent_limit type - 10) <= Qpower 10 g)%Q) by (apply pow10_le; lia). lra.
Qed.

Lemma exponent_limit_range : 400 <= exponent_limit type <= 5000.
Proof using Type. destruct type; cbn; lia. Qed.

Definition max_precision : Z := 2 ^ 31 - 10000.

Lemma int_of_precision p : 0 <= p <= max_precision -> int_of_size p = p.
Proof using Type. unfold max_precision, int_of_size. intros Hp. rewrite wrapw_small by lia. lia. Qed.

Lemma int_range_ok n : - 2 ^ 31 <= n <= 2 ^ 31 - 1 -> int_range n = Some n.
Proof using Type. intros Hn. unfold int_range. by rewrite (proj2 (Z.leb_le _ _)), (proj2 (Z.ltb_lt _ _)) by lia. Qed.

Lemma digits_exactly_length x p E ds : 0 <= p -> digits_of ds (rounded x (p - E)) -> digits_exactly x p E -> Z.of_nat (length ds) = p + 1.
Proof using Type.
  intros Hp Hd [H1 H2]. destruct (digits_length ds _ p Hd) as [Hiff|?]; [|lia]. apply Hiff. split; [by right|done].
Qed.

(** Numbers that are too large for the memory have many digits. *)
Lemma many_digits x n p : 0 <= p -> 10 ^ 125 <= rounded x n -> rounded x n < 10 ^ (p + 2) -> 123 < p.
Proof using Type. intros Hp H1 H2. assert (H : 10 ^ 125 < 10 ^ (p + 2)) by lia. apply Z.pow_lt_mono_r_iff in H; lia. Qed.

Lemma guess_bound x p g : 0 <= p -> ((6 # 10) * Qpower 10 g <= qv x /\ qv x < 20 * Qpower 10 g)%Q -> rounded x (p - g) < 10 ^ (p + 2).
Proof using Type.
  intros Hp [_ Hg]. pose proof (rounded_near x (p - g)) as [_ Hr]. rewrite Zlt_Qlt, Zpower_Qpower by lia. change (inject_Z 10) with 10%Q.
  assert (E : (Qpower 10 (p + 2) == 100 * (Qpower 10 g * Qpower 10 (p - g)))%Q).
  { rewrite <- pow10_plus, pow10_plus. replace (g + (p - g)) with p by lia. change (Qpower 10 2) with 100%Q. ring. }
  assert (H1 : (1 <= Qpower 10 g * Qpower 10 (p - g))%Q).
  { rewrite <- pow10_plus. replace (g + (p - g)) with p by lia. change 1%Q with (Qpower 10 0). apply pow10_le. lia. }
  assert (H2 : (qv x * Qpower 10 (p - g) <= 20 * (Qpower 10 g * Qpower 10 (p - g)))%Q).
  { pose proof (Qpower_0_lt 10 (p - g) eq_refl) as Hpos. set (t := Qpower 10 (p - g)) in *. set (u := Qpower 10 g) in *. clearbody t u. nra. }
  rewrite E. set (w := (Qpower 10 g * Qpower 10 (p - g))%Q) in *. lra.
Qed.

Lemma next_bound x n p : 0 <= p -> rounded x n = 10 ^ p -> rounded x (n + 1) < 10 ^ (p + 2).
Proof using Type.
  intros Hp E. pose proof (rounded_near x n) as [H0 _]. pose proof (rounded_near x (n + 1)) as [_ H1]. rewrite scaled_next in H1. rewrite E in H0.
  set (U := inject_Z (10 ^ p)) in *. assert (HU : (1 <= U)%Q).
  { change 1%Q with (inject_Z 1). unfold U. rewrite <- Zle_Qle. pose proof (Z.pow_pos_nonneg 10 p). lia. }
  assert (HU2 : (inject_Z (10 ^ (p + 2)) == U * 100)%Q) by (unfold U; by rewrite Z.pow_add_r, inject_Z_mult by lia).
  rewrite Zlt_Qlt, HU2. set (q := (qv x * Qpower 10 n)%Q) in *. clearbody q. lra.
Qed.

(** The second round ends the loop. *)
Lemma exponent_last rounds call x p E : 0 <= p <= max_precision -> positive_double x -> - exponent_limit type < E < exponent_limit type -> digits_exactly x p E ->
  match exponent_loop alloc junk rounds call x p E true with
  | Text (ds, E', _) => E' = E /\ digits_of ds (rounded x (p - E))
  | NoMemory => alloc_failed
  | Aborted => 123 < p
  end.
Proof using Hjunk.
  intros Hp [Hx _] HE Hexact. pose proof exponent_limit_range as HL. destruct rounds; cbn [FloatText.exponent_loop]; rewrite int_of_precision, int_range_ok by (unfold max_precision in *; lia); cbn [defined mbind text_bind];
    (pose proof (scaled_digits_ok call x (p - E) ltac:(lia) ltac:(unfold max_precision in *; lia)) as H; destruct (scaled_digits _ _ _ _ _) as [ds| |]; cbn [mbind text_bind];
       [|done|destruct Hexact as [_ Hlt]; rewrite Z.pow_add_r in Hlt by lia; apply (many_digits x (p - E)); [lia|done|rewrite Z.pow_add_r by lia; lia]];
     pose proof (digits_exactly_length x p E ds ltac:(lia) H Hexact) as El; rewrite El, Z.eqb_refl; done).
Qed.

Lemma exponent_loop_ok rounds call x p g : 0 <= p <= max_precision -> positive_double x ->
  ((6 # 10) * Qpower 10 g <= qv x /\ qv x < 20 * Qpower 10 g)%Q ->
  match exponent_loop alloc junk (S rounds) call x p g false with
  | Text (ds, E, _) => digits_of ds (rounded x (p - E)) /\ digits_exactly x p E /\ 1 - exponent_limit type < E < exponent_limit type - 1
  | NoMemory => alloc_failed
  | Aborted => 123 < p
  end.
Proof using Hjunk.
  intros Hp Hx Hg. pose proof exponent_limit_range as HL. pose proof (guess_range x g Hx Hg) as Hr. pose proof Hx as [Hm _].
  cbn [FloatText.exponent_loop]. rewrite int_of_precision, int_range_ok by (unfold max_precision in *; lia). cbn [defined mbind text_bind].
  pose proof (scaled_digits_ok call x (p - g) ltac:(lia) ltac:(unfold max_precision in *; lia)) as H. destruct (scaled_digits _ _ _ _ _) as [ds| |]; cbn [mbind text_bind];
    [|done|apply (many_digits x (p - g)); [lia|done|apply guess_bound; [lia|done]]].
  assert (Hnext : forall E, 1 - exponent_limit type < E < exponent_limit type - 1 -> digits_exactly x p E ->
    match exponent_loop alloc junk rounds (S call) x p E true with
    | Text (ds, E, _) => digits_of ds (rounded x (p - E)) /\ digits_exactly x p E /\ 1 - exponent_limit type < E < exponent_limit type - 1
    | NoMemory => alloc_failed
    | Aborted => 123 < p
    end).
  { intros E HE Hexact. pose proof (exponent_last rounds (S call) x p E Hp Hx ltac:(lia) Hexact) as Hl.
    destruct (exponent_loop _ _ _ _ _ _ _ _) as [[[ds' E'] ?]| |]; [|done..]. destruct Hl as [-> Hl]. done. }
  destruct (guess_cases x p g ds ltac:(lia) Hg H) as [[En Hexact]|[[En Hexact]|[En Hexact]]]; rewrite En.
  - rewrite Z.eqb_refl. split_and!; [done|done|lia..].
  - rewrite (proj2 (Z.eqb_neq p (p + 1))), Z.ltb_irrefl, (proj2 (Z.ltb_ge (p + 2) p)) by lia. cbn [orb].
    rewrite Z.eqb_refl. apply Hnext; [lia|done].
  - rewrite (proj2 (Z.eqb_neq (p + 2) (p + 1))), Z.ltb_irrefl, (proj2 (Z.ltb_ge (p + 2) p)), (proj2 (Z.eqb_neq (p + 2) p)) by lia. cbn [orb].
    apply Hnext; [lia|done].
Qed.

(** The exponent of the decimal number with [p] digits after the first that is nearest to [x]: the least
    one with which [x] has no more digits. *)
Definition significant (x : dyadic) (p E : Z) : Prop := digits_exactly x p E /\ 10 ^ (p + 1) <= rounded x (p - E + 1).

Lemma digits_of_wf ds n : digits_of ds n -> wf_cstr ds.
Proof using Type.
  intros [Hds _]. eapply Forall_impl; [exact Hds|]. unfold digit_ok. change (chr "0") with 48. change (chr "9") with 57. cbn beta. lia.
Qed.

Lemma dec_value_power p : dec_value (replicate p (chr "0") ++ [chr "1"]) = 10 ^ Z.of_nat p.
Proof using Type.
  rewrite dec_value_app, length_replicate. replace (dec_value (replicate p (chr "0"))) with 0; [change (dec_value [chr "1"]) with 1; lia|].
  induction p as [|p IH]; [done|]. cbn [replicate dec_value]. lia.
Qed.

Lemma digits_unique ds1 ds2 : Forall digit_ok ds1 -> Forall digit_ok ds2 -> length ds1 = length ds2 -> dec_value ds1 = dec_value ds2 -> ds1 = ds2.
Proof using Type. intros H1 H2 El Ev. by rewrite (proj1 (dec_value_digits ds1 H1)), (proj1 (dec_value_digits ds2 H2)), El, Ev. Qed.

Lemma borderline_ok ds p n : 0 <= p -> digits_of ds n -> Z.of_nat (length ds) = p + 1 -> is_borderline ds (Z.to_nat p) = true <-> n = 10 ^ p.
Proof using Type.
  intros Hp Hd El. rewrite (is_borderline_spec ds _ (digits_of_wf ds n Hd)). destruct Hd as (Hds & <- & _). split.
  - intros ->. rewrite dec_value_power. f_equal. lia.
  - intros E. apply digits_unique; [done| |rewrite length_app, length_replicate; cbn; lia|rewrite dec_value_power, E; f_equal; lia].
    apply Forall_app. split; [apply Forall_replicate|constructor; [|constructor]]; by unfold digit_ok; vm_compute.
Qed.

(** The values with one and with two more digits. *)
Lemma more_digits x n p : 0 <= p ->
  (10 ^ p < rounded x n -> 10 ^ (p + 1) <= rounded x (n + 1)) /\
  (rounded x n = 10 ^ p -> 10 ^ p <= rounded x (n + 1) /\ 10 ^ (p + 1) <= rounded x (n + 1 + 1)).
Proof using Type.
  intros Hp. pose proof (rounded_near x n) as H0. pose proof (rounded_near x (n + 1)) as H1. pose proof (rounded_near x (n + 1 + 1)) as H2.
  rewrite scaled_next in H2. rewrite scaled_next in H1, H2. set (q := (qv x * Qpower 10 n)%Q) in *. clearbody q.
  set (U := inject_Z (10 ^ p)). assert (HU : (1 <= U)%Q).
  { change 1%Q with (inject_Z 1). unfold U. rewrite <- Zle_Qle. pose proof (Z.pow_pos_nonneg 10 p). lia. }
  assert (HU1 : (inject_Z (10 ^ (p + 1)) == U * 10)%Q) by (unfold U; by rewrite Z.pow_add_r, inject_Z_mult by lia).
  split.
  - intros Hlt. assert (HR : (U + 1 <= inject_Z (rounded x n))%Q).
    { unfold U. change 1%Q with (inject_Z 1). rewrite <- inject_Z_plus, <- Zle_Qle. lia. }
    apply Zle_from_Q. rewrite HU1. lra.
  - intros E. rewrite E in H0. fold U in H0. split; apply Zle_from_Q; [fold U; lra|rewrite HU1; lra].
Qed.

Lemma find_exponent_ok x p : 0 <= p <= max_precision -> positive_double x ->
  match find_exponent alloc junk x p with
  | Text (ds, E) => digits_of ds (rounded x (p - E)) /\ significant x p E /\ - exponent_limit type < E < exponent_limit type
  | NoMemory => alloc_failed
  | Aborted => 123 < p
  end.
Proof using Hjunk.
  intros Hp Hx. pose proof exponent_limit_range as HL. pose proof Hx as [Hm He]. unfold FloatText.find_exponent. destruct (guess_exponent_ok (fst x) (snd x) Hm He) as (g & Eg & Hg).
  rewrite <- surjective_pairing in Eg, Hg. rewrite Eg. cbn [defined mbind text_bind].
  pose proof (exponent_loop_ok 0 0 x p g Hp Hx Hg) as Hl. destruct (exponent_loop _ _ _ _ _ _ _ _) as [[[ds E] call]| |]; cbn [mbind text_bind]; [|done..].
  destruct Hl as (Hd & Hexact & HE). pose proof (digits_exactly_length x p E ds ltac:(lia) Hd Hexact) as El.
  destruct (more_digits x (p - E) p ltac:(lia)) as [Hgt Heq].
  destruct (is_borderline ds (Z.to_nat p)) eqn:Eb.
  2: { split; [exact Hd|]. split; [split; [exact Hexact|]|lia]. apply Hgt. destruct Hexact as [H1 _]. apply not_true_iff_false in Eb.
    rewrite (borderline_ok ds p _ ltac:(lia) Hd El) in Eb. lia. }
  apply (borderline_ok ds p _ ltac:(lia) Hd El) in Eb. destruct (Heq Eb) as [Hlow Hmin].
  rewrite int_of_precision, int_range_ok by (unfold max_precision in *; lia). cbn [defined mbind text_bind].
  pose proof (scaled_digits_ok call x (p - E + 1) ltac:(lia) ltac:(unfold max_precision in *; lia)) as Hd2. destruct (scaled_digits _ _ _ _ _) as [ds2| |]; cbn [mbind text_bind];
    [|done|apply (many_digits x (p - E + 1)); [lia|done|apply next_bound; [lia|done]]].
  destruct (digits_length ds2 _ p Hd2) as [Hiff|?]; [|lia]. destruct (Z.eqb_spec (Z.of_nat (length ds2)) (p + 1)) as [E2|E2].
  - apply Hiff in E2 as [_ Hhigh]. replace (p - E + 1) with (p - (E - 1)) in * by lia.
    split; [exact Hd2|]. split; [split; [split; [lia|exact Hhigh]|exact Hmin]|lia].
  - split; [exact Hd|]. split; [split; [exact Hexact|]|lia]. apply Z.nlt_ge. intros Hhigh. apply E2, Hiff. split; [by right|done].
Qed.

(** There is such an exponent. *)
Lemma digits_exist n : 0 <= n -> exists ds, digits_of ds n.
Proof using Type.
  intros Hn. assert (Hlt : n < 10 ^ Z.of_nat (S (Z.to_nat (Z.log2 n)))).
  { pose proof (Z.log2_nonneg n). rewrite Nat2Z.inj_succ, Z2Nat.id by lia. destruct (Z.eq_dec n 0) as [->|Hne]; [by vm_compute|].
    pose proof (Z.log2_spec n ltac:(lia)) as [_ Hl]. apply Z.lt_le_trans with (1 := Hl). apply Z.pow_le_mono_l. lia. }
  destruct (store_digits_spec _ n (conj Hn Hlt)) as (Hv & _ & Hd). destruct (strip_zeros_spec (store_digits (S (Z.to_nat (Z.log2 n))) n)) as (Hs1 & Hs2 & _ & Hs4).
  set (s := strip_zeros _) in *. rewrite Hv in Hs1. destruct (decide (s = [])) as [E|Hne].
  - exists [chr "0"]. rewrite E in Hs1. subst n. split; [by repeat constructor|]. done.
  - exists s. split; [by apply Hs2|]. done.
Qed.

Lemma significant_exists x p : 0 <= p -> positive_double x -> exists E, significant x p E /\ - exponent_limit type < E < exponent_limit type.
Proof using Type.
  intros Hp Hx. pose proof exponent_limit_range as HL. pose proof Hx as [Hm He]. destruct (guess_exponent_ok (fst x) (snd x) Hm He) as (g & _ & Hg).
  rewrite <- surjective_pairing in Hg. pose proof (guess_range x g Hx Hg) as Hr.
  assert (H : exists E, digits_exactly x p E /\ 1 - exponent_limit type < E < exponent_limit type).
  { destruct (digits_exist (rounded x (p - g))) as [ds Hd]; [apply rounded_nonneg; lia|].
    destruct (guess_cases x p g ds Hp Hg Hd) as [[_ H]|[[_ H]|[_ H]]]; (eexists; split; [exact H|lia]). }
  destruct H as (E & Hexact & HE). destruct (more_digits x (p - E) p Hp) as [Hgt Heq].
  destruct (Z.lt_ge_cases (rounded x (p - E + 1)) (10 ^ (p + 1))) as [Hlt|Hge]; [|exists E; split; [split; [exact Hexact|exact Hge]|lia]].
  assert (E10 : rounded x (p - E) = 10 ^ p) by (destruct Hexact; lia). destruct (Heq E10) as [H1 H2].
  exists (E - 1). unfold significant, digits_exactly. replace (p - (E - 1)) with (p - E + 1) by lia. split; [split; [lia|exact H2]|lia].
Qed.

(** There is only one. *)
Lemma rounded_mono x n n' : 0 <= fst x -> n <= n' -> rounded x n <= rounded x n'.
Proof using Type.
  intros Hx Hn. pose proof (rounded_near x n) as [_ H1]. pose proof (rounded_near x n') as [H2 _]. pose proof (rounded_nonneg x n' Hx) as H0.
  destruct (decide (n = n')) as [->|Hne]; [done|]. destruct (Z.le_gt_cases (rounded x n) 0) as [|Hpos]; [lia|].
  assert (Hq1 : (1 <= inject_Z (rounded x n))%Q) by (change 1%Q with (inject_Z 1); rewrite <- Zle_Qle; lia).
  assert (Hq : (10 * (qv x * Qpower 10 n) <= qv x * Qpower 10 n')%Q).
  { pose proof (scaled_next x (n + (n' - n - 1))) as En. replace (n + (n' - n - 1) + 1) with n' in En by lia. rewrite En, pow10_plus.
    assert (1 <= Qpower 10 (n' - n - 1))%Q by (change 1%Q with (Qpower 10 0); apply pow10_le; lia).
    set (q := (qv x * Qpower 10 n)%Q) in *. assert (0 <= q)%Q by lra.
    rewrite (Qmult_assoc (qv x)). fold q. set (t := Qpower 10 (n' - n - 1)) in *. clearbody q t. nra. }
  set (q := (qv x * Qpower 10 n)%Q) in *. set (q' := (qv x * Qpower 10 n')%Q) in *. clearbody q q'.
  apply Zle_from_Q. lra.
Qed.

Lemma significant_unique x p E1 E2 : 0 <= fst x -> significant x p E1 -> significant x p E2 -> E1 = E2.
Proof using Type.
  intros Hx [[_ H1] H3] [[_ H2] H4]. destruct (Z.lt_trichotomy E1 E2) as [Hlt|[|Hlt]]; [|done|].
  - pose proof (rounded_mono x (p - E2 + 1) (p - E1) Hx ltac:(lia)). lia.
  - pose proof (rounded_mono x (p - E1 + 1) (p - E2) Hx ltac:(lia)). lia.
Qed.
End Calls.
