(* ===== verification/FloatTextSpec.v ===== *)
(** * What the directives f, e and g print *)

From S2P Require Import Prelude PrintfParse PrintfParseSpec Vasnprintf VasnprintfSpec Snprintf Bignum BignumDivide Decimal FloatText FloatDigits.
From Stdlib Require Import QArith Qpower Lqa.

Open Scope Z_scope.

(** ** The reference *)

(** A natural number in decimal. *)
Definition decimal (n : Z) : cstr := with_precision 1 (number_digits (S (Z.to_nat (Z.log2 n))) 10 false n).

(** The digits of the fraction, the last one first, behind a decimal point. *)
Definition point_and (point : Z) (alt : bool) (digits : cstr) : cstr :=
  if alt || (0 <? length digits)%nat then point :: rev digits else [].

(** [r * 10^(-p)], without the digits that [strip] removes from the end. *)
Definition fixed_point (point : Z) (alt : bool) (strip : cstr -> cstr) (r : Z) (p : nat) : cstr :=
  decimal (r / 10 ^ Z.of_nat p) ++ point_and point alt (strip (store_digits p r)).

(** The sign and at least two digits. *)
Definition shown_exponent (windows : bool) (exponent : Z) : cstr :=
  (if exponent <? 0 then chr "-" else chr "+") :: with_precision (if windows then 3 else 2) (decimal (Z.abs exponent)).

(** The least exponent with which [x], rounded to [p] digits behind the decimal point, has one digit before it. *)
Fixpoint first_exponent (n : nat) (x : dyadic) (p exponent : Z) : Z :=
  if rounded x (p - exponent) <? 10 ^ (p + 1) then exponent
  else match n with O => exponent | S n => first_exponent n x p (exponent + 1) end.

Definition decimal_exponent (type : float_type) (x : dyadic) (p : Z) : Z :=
  if fst x =? 0 then 0 else first_exponent (Z.to_nat (2 * exponent_limit type)) x p (- exponent_limit type).

Fixpoint strip_zeros_of (digits : cstr) : cstr :=
  match digits with c :: rest => if c =? chr "0" then strip_zeros_of rest else digits | [] => [] end.

(** ISO C 7.19.6.1, for a number that is not negative. *)
Definition shown_number (type : float_type) (point : Z) (windows alt : bool) (precision conversion : Z) (x : dyadic) : cstr :=
  if among conversion "fF" then fixed_point point alt id (rounded x precision) (Z.to_nat precision)
  else if among conversion "eE" then
    let exponent := decimal_exponent type x precision in
    fixed_point point alt id (rounded x (precision - exponent)) (Z.to_nat precision) ++ conversion :: shown_exponent (three_digits type windows) exponent
  else
    let precision := Z.max 1 precision in
    let exponent := decimal_exponent type x (precision - 1) in
    let strip := if alt then id else strip_zeros_of in
    let r := rounded x (precision - 1 - exponent) in
    if (-4 <=? exponent) && (exponent <? precision) then fixed_point point alt strip r (Z.to_nat (precision - 1 - exponent))
    else
      fixed_point point alt strip r (Z.to_nat (precision - 1)) ++
      (if conversion =? chr "G" then chr "E" else chr "e") :: shown_exponent (three_digits type windows) exponent.

(** ** Decimal numbers *)

Lemma digit_char_ok c : digit_ok c -> digit_char false (c - chr "0") = c.
Proof.
  unfold digit_ok, digit_char. change (chr "0") with 48. change (chr "9") with 57. intros H.
  rewrite (proj2 (Z.ltb_lt _ _)) by lia. lia.
Qed.

Lemma number_digits_of ds fuel : Forall digit_ok ds -> last ds <> Some (chr "0") -> (length ds <= fuel)%nat ->
  number_digits fuel 10 false (dec_value ds) = rev ds.
Proof.
  revert fuel. induction ds as [|c ds IH]; intros fuel Hds Hl Hf; [by destruct fuel|].
  destruct fuel as [|fuel]; [cbn in Hf; lia|]. apply Forall_cons in Hds as [Hc Hds]. pose proof (digit_char_ok c Hc) as Edc.
  assert (Hl' : last ds <> Some (chr "0")) by (destruct ds; [done|by rewrite last_cons_cons in Hl]).
  specialize (IH fuel Hds Hl' ltac:(cbn in Hf; lia)).
  assert (Hpos : c - chr "0" + 10 * dec_value ds <> 0).
  { destruct (dec_value_digits ds Hds) as [_ Hv]. destruct ds as [|d ds].
    - cbn. intros E. apply Hl. cbn. f_equal. lia.
    - destruct (digits_low (d :: ds) (dec_value (d :: ds))) as [H1|H1].
      + split_and!; [done|done|done|]. intros E. done.
      + destruct ds; [|cbn in H1; lia]. apply Forall_cons in Hds as [Hd _]. unfold digit_ok in *.
        assert (d <> chr "0") by (intros ->; by apply Hl'). cbn [dec_value]. lia.
      + assert (0 < 10 ^ Z.of_nat (length (d :: ds) - 1)) by (apply Z.pow_pos_nonneg; lia). unfold digit_ok in Hc. lia. }
  cbn [number_digits dec_value rev]. rewrite (proj2 (Z.eqb_neq _ _) Hpos).
  unfold digit_ok in Hc. change (chr "0") with 48 in *. change (chr "9") with 57 in *.
  rewrite (Z.mul_comm 10), Z.div_add, Z.mod_add, Z.div_small, Z.mod_small by lia. by rewrite Z.add_0_l, IH, Edc.
Qed.

Lemma decimal_digits ds n : digits_of ds n -> decimal n = rev ds.
Proof.
  intros Hd. pose proof (digits_low ds n Hd) as Hlow. destruct Hd as (Hds & <- & Hne & Hl). unfold decimal.
  destruct (decide (last ds = Some (chr "0"))) as [Hz|Hz]; [by rewrite (Hl Hz)|].
  rewrite number_digits_of; [|done|done|].
  - unfold with_precision. rewrite length_rev. destruct ds as [|c ds]; [done|]. by replace (Z.to_nat (1 - Z.of_nat (length (c :: ds)))) with 0%nat by (cbn; lia).
  - destruct Hlow as [->|Hlow]; [lia|]. assert (Hle : 2 ^ Z.of_nat (length ds - 1) <= dec_value ds).
    { etrans; [|exact Hlow]. by apply Z.pow_le_mono_l. }
    apply Z.log2_le_mono in Hle. rewrite Z.log2_pow2 in Hle by lia. lia.
Qed.

Lemma store_digits_cut p ds : Forall digit_ok ds -> store_digits p (dec_value ds) = take p ds ++ replicate (p - length ds) (chr "0").
Proof.
  intros Hds. revert p. induction Hds as [|c ds Hc Hds IH]; intros p.
  - cbn [dec_value length]. rewrite Nat.sub_0_r, take_nil. induction p as [|p IH]; [done|]. cbn [store_digits replicate app]. by rewrite Z.div_0_l, IH.
  - destruct p as [|p]; [done|]. unfold digit_ok in Hc. cbn [store_digits dec_value take app length Nat.sub]. change (chr "0") with 48 in *. change (chr "9") with 57 in *.
    rewrite (Z.mul_comm 10), Z.mod_add, Z.div_add, Z.mod_small, Z.div_small by lia. rewrite Z.add_0_l, IH. f_equal. lia.
Qed.

Lemma rev_zeros n (c : Z) : rev (replicate n c) = replicate n c.
Proof. induction n as [|n IH]; [done|]. rewrite replicate_S at 1. cbn [rev]. by rewrite IH, <- replicate_S_end. Qed.

Lemma length_store_digits p n : length (store_digits p n) = p.
Proof. revert n. induction p as [|p IH]; intros n; [done|]. cbn. by rewrite IH. Qed.

(** The digits before the decimal point. *)
Lemma digits_of_drop ds n p : digits_of ds n -> (p < length ds)%nat -> digits_of (drop p ds) (n / 10 ^ Z.of_nat p).
Proof.
  intros (Hds & <- & Hne & Hl) Hp. pose proof (take_drop p ds) as E. assert (Hlen : length (take p ds) = p) by (rewrite length_take; lia).
  split_and!.
  - by apply Forall_drop.
  - rewrite <- E at 2. rewrite dec_value_app, Hlen. destruct (dec_value_digits (take p ds)) as [_ Hv]; [by apply Forall_take|]. rewrite Hlen in Hv.
    rewrite Z.mul_comm, Z.div_add, Z.div_small by lia. done.
  - intros E0. apply (f_equal length) in E0. rewrite length_drop in E0. cbn in E0. lia.
  - intros Hz. rewrite last_lookup, lookup_drop, length_drop in Hz. replace (p + pred (length ds - p))%nat with (pred (length ds)) in Hz by lia.
    rewrite <- last_lookup in Hz. specialize (Hl Hz). subst ds. cbn in Hp. by destruct p; [|lia].
Qed.

Lemma emit_all ds p : emit ds (length ds) p = rev (drop p ds).
Proof. unfold emit. by rewrite take_ge by (rewrite length_drop; lia). Qed.

Lemma emit_low ds p : emit ds p 0 = rev (take p ds).
Proof. unfold emit. by rewrite Nat.sub_0_r. Qed.

Lemma emit_decimal ds n p : digits_of ds n -> (p < length ds)%nat -> emit ds (length ds) p = decimal (n / 10 ^ Z.of_nat p).
Proof. intros Hd Hp. rewrite emit_all. symmetry. by apply decimal_digits, digits_of_drop. Qed.

Lemma low_digits ds n p : digits_of ds n -> (p <= length ds)%nat -> take p ds = store_digits p n.
Proof.
  intros (Hds & <- & _) Hp. rewrite store_digits_cut by done. replace (p - length ds)%nat with 0%nat by lia. by rewrite app_nil_r.
Qed.

Lemma decimal_0 ds n p : digits_of ds n -> (length ds <= p)%nat -> decimal (n / 10 ^ Z.of_nat p) = [chr "0"].
Proof.
  intros (Hds & <- & _) Hp. destruct (dec_value_digits ds Hds) as [_ Hv].
  assert (10 ^ Z.of_nat (length ds) <= 10 ^ Z.of_nat p) by (apply Z.pow_le_mono_r; lia). by rewrite Z.div_small by lia.
Qed.

(** ** Trailing zeros *)

Lemma strip_take ds k : strip_zeros_of (take k ds) = take (k - trailing_zeros ds) (drop (trailing_zeros ds) ds).
Proof.
  revert k. induction ds as [|c ds IH]; intros k; [cbn [trailing_zeros]; by rewrite drop_nil, !take_nil|]. cbn [trailing_zeros]. destruct k as [|k].
  - done.
  - cbn [take strip_zeros_of]. destruct (c =? chr "0"); [cbn [drop Nat.sub]; apply IH|done].
Qed.

Lemma dec_value_cons c ds : dec_value (c :: ds) = c - chr "0" + 10 * dec_value ds.
Proof. done. Qed.

Lemma strip_more ds zeros n : digits_of ds n -> 0 < n -> strip_zeros_of (ds ++ zeros) = drop (trailing_zeros ds) ds ++ zeros /\ (trailing_zeros ds < length ds)%nat.
Proof.
  intros (Hds & <- & _ & _) Hn. induction Hds as [|c ds Hc Hds IH]; [done|]. cbn [trailing_zeros app strip_zeros_of length].
  destruct (Z.eqb_spec c (chr "0")) as [->|Hne]; [|split; [done|apply Nat.lt_0_succ]]. rewrite dec_value_cons, Z.sub_diag in Hn. destruct IH as [IH1 IH2]; [lia|]. split; [exact IH1|lia].
Qed.

Lemma strip_id alt ds : (if alt : bool then id else strip_zeros_of) ds = drop (if alt then 0%nat else trailing_zeros ds) ds.
Proof.
  destruct alt; [done|]. pose proof (strip_take ds (length ds)) as H. rewrite firstn_all in H. rewrite H. apply take_ge. rewrite length_drop. lia.
Qed.

(** ** The exponent *)

Lemma first_exponent_spec n x p E E0 : 0 <= fst x -> significant x p E -> E0 <= E <= E0 + Z.of_nat n -> first_exponent n x p E0 = E.
Proof.
  intros Hx Hs. revert E0. induction n as [|n IH]; intros E0 HE; cbn [first_exponent].
  - replace E0 with E by lia. by destruct (_ <? _).
  - destruct (decide (E0 = E)) as [->|Hne].
    + destruct Hs as [[_ H] _]. by rewrite (proj2 (Z.ltb_lt _ _) H).
    + pose proof (rounded_mono x (p - E + 1) (p - E0) Hx ltac:(lia)) as Hm. destruct Hs as [Hs1 Hs2].
      rewrite (proj2 (Z.ltb_ge _ _)) by lia. apply IH. lia.
Qed.

Lemma decimal_exponent_spec type x p E : 0 < fst x -> significant x p E -> - exponent_limit type < E < exponent_limit type -> decimal_exponent type x p = E.
Proof.
  intros Hx Hs HE. unfold decimal_exponent. rewrite (proj2 (Z.eqb_neq _ _)) by lia. apply first_exponent_spec; [lia|done|lia].
Qed.

Lemma number_digits_fuel f1 f2 n : 0 <= n < 10 ^ Z.of_nat f1 -> n < 10 ^ Z.of_nat f2 -> number_digits f1 10 false n = number_digits f2 10 false n.
Proof.
  revert f2 n. induction f1 as [|f1 IH]; intros f2 n H1 H2.
  - cbn in H1. replace n with 0 by lia. by destruct f2.
  - destruct f2 as [|f2]; [cbn in H2; by replace n with 0 by lia|]. cbn [number_digits]. destruct (n =? 0); [done|].
    rewrite Nat2Z.inj_succ, Z.pow_succ_r in H1, H2 by lia. f_equal. apply IH; [split; [apply Z.div_pos; lia|]|]; apply Z.div_lt_upper_bound; lia.
Qed.

Lemma number_digits_length fuel k n : 0 <= n < 10 ^ Z.of_nat k -> (length (number_digits fuel 10 false n) <= k)%nat.
Proof.
  revert k n. induction fuel as [|fuel IH]; intros k n Hn; cbn [number_digits]; [cbn; lia|].
  destruct (Z.eqb_spec n 0) as [->|Hne]; [cbn; lia|]. destruct k as [|k]; [cbn in Hn; lia|].
  rewrite Nat2Z.inj_succ, Z.pow_succ_r in Hn by lia. rewrite length_app. cbn [length].
  specialize (IH k (n / 10)). assert (0 <= n / 10 < 10 ^ Z.of_nat k); [|lia].
  split; [apply Z.div_pos; lia|apply Z.div_lt_upper_bound; lia].
Qed.

Lemma log2_digits n : 0 <= n -> n < 10 ^ Z.of_nat (S (Z.to_nat (Z.log2 n))).
Proof.
  intros Hn. pose proof (Z.log2_nonneg n). rewrite Nat2Z.inj_succ, Z2Nat.id by lia. destruct (Z.eq_dec n 0) as [->|Hne]; [by vm_compute|].
  pose proof (Z.log2_spec n ltac:(lia)) as [_ Hl]. apply Z.lt_le_trans with (1 := Hl). apply Z.pow_le_mono_l. lia.
Qed.

Lemma with_precision_twice p q text : p <= q -> with_precision q (with_precision p text) = with_precision q text.
Proof.
  intros Hpq. unfold with_precision. rewrite length_app, length_replicate, app_assoc, <- replicate_add. do 2 f_equal. lia.
Qed.

(** The digits of an exponent. *)
Lemma exponent_digits p e : 1 <= p -> -5000 <= e <= 5000 ->
  with_precision p (number_digits 70 10 false (Z.abs e)) = with_precision p (decimal (Z.abs e)) /\
  Z.of_nat (length (with_precision p (decimal (Z.abs e)))) <= Z.max p 4.
Proof.
  intros Hp He. unfold decimal. rewrite with_precision_twice by done.
  assert (H4 : Z.abs e < 10 ^ Z.of_nat 4) by (change (10 ^ Z.of_nat 4) with 10000; lia).
  rewrite (number_digits_fuel 70 (S (Z.to_nat (Z.log2 (Z.abs e))))).
  - split; [done|]. pose proof (number_digits_length (S (Z.to_nat (Z.log2 (Z.abs e)))) 4 (Z.abs e) ltac:(lia)).
    unfold with_precision. rewrite length_app, length_replicate. lia.
  - split; [lia|]. apply Z.lt_le_trans with (1 := H4). by apply Z.pow_le_mono_r.
  - apply log2_digits. lia.
Qed.

Lemma exponent_text_ok type windows e : -5000 <= e <= 5000 ->
  exponent_text type windows e = Text (shown_exponent (three_digits type windows) e) /\ (length (shown_exponent (three_digits type windows) e) <= 5)%nat.
Proof.
  intros He. unfold exponent_text, c99_render. set (p := if three_digits type windows then 3 else 2).
  assert (E : snprintf_reads (decimal_format (three_digits type windows)) [] (VInt e) =
    Some (ConversionSpec FLAG_SHOWSIGN 0 (Some p) (chr "d"), VInt e, [])).
  { unfold p. destruct (three_digits type windows); reflexivity. }
  rewrite E. destruct (exponent_digits p e) as [E1 E2]; [unfold p; by destruct (three_digits type windows)|done|].
  assert (Hl : (length (shown_exponent (three_digits type windows) e) <= 5)%nat).
  { unfold shown_exponent. fold p. cbn [length]. unfold p in *. destruct (three_digits type windows); lia. }
  split; [|done]. unfold render_spec, integer_parts, pad_field, int_text. cbn [mbind option_bind cv_conversion cv_precision cv_flags cv_width].
  change (among (chr "d") "diouxXp") with true. change (among (chr "d") "o") with false. change (among (chr "d") "xXp") with false.
  change (among (chr "d") "X") with false. change (among (chr "d") "di") with true. cbn [integer_value mbind option_bind from_option id andb].
  rewrite E1. fold p. unfold shown_exponent in *. fold p in Hl. fold p. cbn [length] in Hl. set (t := with_precision p (decimal (Z.abs e))) in *. clearbody t.
  change (bit_set FLAG_SHOWSIGN FLAG_LEFT) with false. change (bit_set FLAG_SHOWSIGN FLAG_ZERO) with false. change (bit_set FLAG_SHOWSIGN FLAG_SHOWSIGN) with true.
  assert (E0 : forall n, Z.to_nat (0 - Z.of_nat n) = 0%nat) by lia. destruct (e <? 0); rewrite E0; cbn [replicate app cs];
    rewrite (proj2 (Z.leb_le _ _)); [done| |done|]; rewrite length_app; cbn [length cs] in *; unfold INT_MAX; change (length (cs "-")) with 1%nat; change (length (cs "+")) with 1%nat; lia.
Qed.

Lemma exponent_text_shown type windows e : -5000 <= e <= 5000 -> exponent_text type windows e = Text (shown_exponent (three_digits type windows) e).
Proof. intros He. by apply exponent_text_ok. Qed.

Lemma shown_exponent_length type windows e : -5000 <= e <= 5000 -> (length (shown_exponent (three_digits type windows) e) <= 5)%nat.
Proof. intros He. by apply exponent_text_ok. Qed.

(** ** The three conversions *)

Section Conversions.
Context (type : float_type) (radix : cstr) (windows : bool).
Context (alloc : nat -> bool * (site -> bool)) (junk : nat -> mpn) (Hjunk : forall k, length (junk k) = k /\ limbs_ok (junk k)).
Context (flags precision conversion : Z) (Hprecision : 0 <= precision <= max_precision).

(** The text, a failure of malloc(), or digits outside their memory if there are [many]. *)
Definition gives (many : Prop) (r : text_result cstr) (text : cstr) : Prop :=
  match r with Text t => t = text | NoMemory => alloc_failed alloc | Aborted => many end.

Definition finite_double (x : dyadic) : Prop :=
  let fmt := float_format_of type in 0 <= fst x < 2 ^ MANT_BIT fmt /\ MIN_EXP fmt <= snd x <= MAX_EXP fmt.

Lemma gives_bind {A} (many : Prop) (r : text_result A) (f : A -> text_result cstr) (P : A -> Prop) text :
  match r with Text x => P x | NoMemory => alloc_failed alloc | Aborted => many end -> (forall x, P x -> gives many (f x) text) -> gives many (r ≫= f) text.
Proof using Type. destruct r; [|done|done]. intros H1 H2. exact (H2 _ H1). Qed.

Lemma text_f_ok x : finite_double x ->
  gives (10 ^ 125 <= rounded x precision) (text_f type radix alloc junk flags precision x) (fixed_point (point radix) (alt flags) id (rounded x precision) (Z.to_nat precision)).
Proof using Hjunk Hprecision.
  intros [Hx _]. unfold text_f. rewrite int_of_precision by done. apply (gives_bind _ _ _ _ _ (scaled_digits_ok type alloc junk Hjunk 0 x precision Hx ltac:(unfold max_precision in *; lia))).
  intros ds Hd. cbn [gives mret text_ret]. unfold fixed_point, point_and, id. rewrite length_store_digits.
  set (p := Z.to_nat precision). replace (0 <? p)%nat with (0 <? precision).
  2: { unfold p. destruct (Z.ltb_spec 0 precision), (Nat.ltb_spec 0 (Z.to_nat precision)); lia. }
  destruct (Nat.ltb_spec p (length ds)) as [Hlt|Hge].
  - rewrite (emit_decimal ds _ p Hd Hlt), Nat.sub_diag. f_equal. destruct (_ || _); [|done]. f_equal. cbn [replicate app].
    unfold emit. rewrite <- (low_digits ds _ p Hd) by lia. by rewrite Nat.sub_0_r.
  - rewrite (decimal_0 ds _ p Hd Hge). f_equal. destruct (_ || _); [|done]. f_equal. destruct Hd as (Hds & <- & _).
    rewrite (store_digits_cut p ds Hds), rev_app_distr, rev_zeros, emit_low. by rewrite !take_ge by lia.
Qed.
(** The digits from the first one down to the place [k] behind the decimal point, or to the last that is kept. *)
Lemma mantissa_ok ds r k nz strip : digits_of ds r -> (k < length ds)%nat -> strip (take k ds) = take (k - nz) (drop nz ds) ->
  emit ds (length ds) k ++ fraction radix flags ds k nz = fixed_point (point radix) (alt flags) strip r k.
Proof using Type.
  intros Hd Hk Hs. unfold fixed_point, fraction. rewrite (emit_decimal ds r k Hd Hk), <- (low_digits ds r k Hd), Hs by lia. f_equal.
  unfold point_and, emit. destruct (Nat.ltb_spec nz k) as [Hlt|Hge].
  - rewrite (proj2 (Nat.ltb_lt _ _)); [done|]. rewrite length_take, length_drop. lia.
  - replace (k - nz)%nat with 0%nat by lia. done.
Qed.

Lemma exponent_ok x p : finite_double x -> fst x <> 0 -> 0 <= p <= max_precision ->
  match find_exponent type alloc junk x p with
  | Text (ds, E) => E = decimal_exponent type x p /\ digits_of ds (rounded x (p - E)) /\ 0 < rounded x (p - E) /\ Z.of_nat (length ds) = p + 1 /\ - exponent_limit type < E < exponent_limit type
  | NoMemory => alloc_failed alloc
  | Aborted => 123 < p
  end.
Proof using Hjunk.
  intros [Hx He] Hne Hp. assert (Hpos : positive_double type x) by (split; [lia|done]).
  pose proof (find_exponent_ok type alloc junk Hjunk x p Hp Hpos) as H. destruct (find_exponent _ _ _ _ _) as [[ds E]| |]; [|done..].
  destruct H as (Hd & Hs & HE). split_and!; [symmetry; apply decimal_exponent_spec; [lia|done|lia]|done| | |lia..].
  { destruct Hs as [[Hlow _] _]. pose proof (Z.pow_pos_nonneg 10 p). lia. }
  apply (digits_exactly_length x p E); [lia|done|apply Hs].
Qed.

Lemma rounded_0 x n : fst x = 0 -> rounded x n = 0.
Proof using Type.
  intros E. unfold rounded, scaled_num. rewrite E, !Z.mul_0_l.
  rewrite (round_half_even_ratio 0 _ 0 1), round_half_even_1 by (done || apply scaled_den_pos). done.
Qed.

Lemma store_digits_0 p : store_digits p 0 = replicate p (chr "0").
Proof using Type. induction p as [|p IH]; [done|]. cbn [store_digits]. by rewrite Z.div_0_l, IH. Qed.

Lemma text_e_ok x : finite_double x ->
  gives (123 < precision) (text_e type radix windows alloc junk flags precision conversion x)
    (let exponent := decimal_exponent type x precision in
     fixed_point (point radix) (alt flags) id (rounded x (precision - exponent)) (Z.to_nat precision) ++ conversion :: shown_exponent (three_digits type windows) exponent).
Proof using Hjunk Hprecision.
  intros Hx. unfold text_e. cbv zeta. set (p := Z.to_nat precision). assert (Ep : (0 <? precision) = (0 <? p)%nat).
  { unfold p. destruct (Z.ltb_spec 0 precision), (Nat.ltb_spec 0 (Z.to_nat precision)); lia. }
  destruct (Z.eqb_spec (fst x) 0) as [E0|Hne].
  - cbn [mbind text_bind mret text_ret]. rewrite exponent_text_shown by (pose proof (exponent_limit_range type); lia). cbn [gives mbind text_bind mret text_ret]. unfold decimal_exponent. rewrite E0, (rounded_0 x _ E0).
    unfold fixed_point, point_and, id. rewrite Z.div_0_l by (apply Z.pow_nonzero; lia). by rewrite store_digits_0, length_replicate, rev_zeros, Ep.
  - pose proof (exponent_ok x precision Hx Hne Hprecision) as H. destruct (find_exponent _ _ _ _ _) as [[ds E]| |]; cbn [mbind text_bind]; [|done..].
    destruct H as (-> & Hd & _ & Hl & HE). cbn [mbind text_bind mret text_ret]. rewrite exponent_text_shown by (pose proof (exponent_limit_range type); lia). cbn [gives mbind text_bind mret text_ret].
    f_equal. assert (Hlp : (length ds - 1)%nat = p) by lia. rewrite Hlp, Ep.
    apply (mantissa_ok ds _ p 0 id Hd); [lia|]. by rewrite Nat.sub_0_r.
Qed.
Lemma strip_all n : strip_zeros_of (replicate n (chr "0")) = [].
Proof using Type. by induction n. Qed.

(** The shown digits of a number less than one. *)
Lemma small_ok ds r k : digits_of ds r -> 0 < r -> (length ds <= k)%nat ->
  [chr "0"; point radix] ++ replicate (k - length ds) (chr "0") ++ emit ds (length ds) (if alt flags then 0%nat else trailing_zeros ds) =
  fixed_point (point radix) (alt flags) (if alt flags then id else strip_zeros_of) r k.
Proof using Type.
  intros Hd Hr Hk. unfold fixed_point. rewrite (decimal_0 ds r k Hd Hk). cbn [app]. f_equal. pose proof Hd as (Hds & Hv & _).
  rewrite <- Hv at 1. rewrite (store_digits_cut k ds Hds), take_ge by lia. set (zeros := replicate _ _).
  assert (H : (if alt flags then id else strip_zeros_of) (ds ++ zeros) = drop (if alt flags then 0%nat else trailing_zeros ds) ds ++ zeros /\
    ((if alt flags then 0%nat else trailing_zeros ds) < length ds)%nat).
  { destruct (alt flags); [|by apply (strip_more ds zeros r)]. split; [done|]. destruct Hd as (_ & _ & Hne & _). destruct ds; [done|cbn; lia]. }
  destruct H as [-> Hlt]. unfold point_and. rewrite (proj2 (Nat.ltb_lt _ _)), orb_true_r by (rewrite length_app, length_drop; lia).
  f_equal. rewrite rev_app_distr, emit_all. f_equal. unfold zeros. by rewrite rev_zeros.
Qed.

Lemma text_g_ok x : finite_double x -> among conversion "gG" = true ->
  gives (123 < precision) (text_g type radix windows alloc junk flags precision conversion x)
    (let precision := Z.max 1 precision in
     let exponent := decimal_exponent type x (precision - 1) in
     let strip := if alt flags then id else strip_zeros_of in
     let r := rounded x (precision - 1 - exponent) in
     if (-4 <=? exponent) && (exponent <? precision) then fixed_point (point radix) (alt flags) strip r (Z.to_nat (precision - 1 - exponent))
     else
       fixed_point (point radix) (alt flags) strip r (Z.to_nat (precision - 1)) ++
       (if conversion =? chr "G" then chr "E" else chr "e") :: shown_exponent (three_digits type windows) exponent).
Proof using Hjunk Hprecision.
  intros Hx Hc. unfold text_g. replace (if precision =? 0 then 1 else precision) with (Z.max 1 precision) by (destruct (Z.eqb_spec precision 0); lia).
  cbv zeta. set (P := Z.max 1 precision). assert (HP : 0 <= P - 1 <= max_precision) by (unfold P, max_precision in *; lia).
  destruct (Z.eqb_spec (fst x) 0) as [E0|Hne].
  - unfold decimal_exponent. rewrite E0. cbn [Z.eqb gives mret text_ret Z.leb Z.compare andb]. rewrite (rounded_0 x _ E0), (proj2 (Z.ltb_lt 0 P)) by lia.
    unfold fixed_point. rewrite Z.div_0_l, store_digits_0 by (apply Z.pow_nonzero; lia). change (decimal 0) with [chr "0"]. f_equal.
    unfold fraction, point_and, emit. replace (Z.to_nat P - 1)%nat with (Z.to_nat (P - 1 - 0)) by lia.
    destruct (alt flags); cbn [orb].
    + rewrite Nat.sub_0_r. unfold id. f_equal. rewrite rev_zeros, drop_0, take_replicate, rev_zeros. f_equal. lia.
    + by rewrite strip_all, Nat.ltb_irrefl.
  - pose proof (exponent_ok x (P - 1) Hx Hne HP) as H. destruct (find_exponent _ _ _ _ _) as [[ds E]| |]; cbn [mbind text_bind]; [|done|cbn [gives]; unfold P in *; lia].
    destruct H as (-> & Hd & Hr & Hl & HE). set (E := decimal_exponent type x (P - 1)) in *.
    assert (Hstrip : forall k, (if alt flags then id else strip_zeros_of) (take k ds) =
      take (k - (if alt flags then 0%nat else trailing_zeros ds)) (drop (if alt flags then 0%nat else trailing_zeros ds) ds)).
    { intros k. destruct (alt flags); [by rewrite Nat.sub_0_r|apply strip_take]. }
    destruct ((-4 <=? E) && (E <? P)) eqn:Efix.
    + apply andb_true_iff in Efix as [HE1%Z.leb_le HE2%Z.ltb_lt]. destruct (Z.leb_spec 0 E) as [Hpos|Hneg]; cbn [gives mret text_ret].
      * replace (length ds - Z.to_nat (E + 1))%nat with (Z.to_nat (P - 1 - E)) by lia. apply (mantissa_ok ds _ _ _ _ Hd); [lia|apply Hstrip].
      * replace (Z.to_nat (- E - 1)) with (Z.to_nat (P - 1 - E) - length ds)%nat by lia. apply (small_ok ds _ _ Hd Hr). lia.
    + rewrite exponent_text_shown by (pose proof (exponent_limit_range type); lia). cbn [gives mbind text_bind mret text_ret]. rewrite app_assoc.
      replace (length ds - 1)%nat with (Z.to_nat (P - 1)) by lia. rewrite (mantissa_ok ds _ (Z.to_nat (P - 1)) _ _ Hd ltac:(lia) (Hstrip _)). f_equal. f_equal.
      unfold among in Hc. cbn in Hc. rewrite orb_false_r in Hc. change (chr "G") with 71 in *. change (chr "E") with 69. change (chr "e") with 101.
      apply orb_true_iff in Hc as [H%Z.eqb_eq|H%Z.eqb_eq]; subst conversion; done.
Qed.
End Conversions.

(** ** The whole text *)

(** As a C99 snprintf() pads: zeros go behind the sign, and not before "inf" and "nan". *)
Definition shown_double (type : float_type) (radix : cstr) (windows : bool) (flags : Z) (width : option Z) (precision conversion : Z) (d : double) : cstr :=
  let pad := pad_field (ConversionSpec flags (default 0 width) None conversion) in
  match d with
  | NaN _ => pad false [] (cs (if upper conversion then "NAN" else "nan"))
  | Infinity sign => pad false (sign_text flags sign) (cs (if upper conversion then "INF" else "inf"))
  | Finite sign x =>
      pad true (sign_text flags sign) (shown_number type (decimal_point_char radix) windows (bit_set flags FLAG_ALT) precision conversion x)
  end.

Definition double_ok (type : float_type) (d : double) : Prop := match d with Finite _ x => finite_double type x | _ => True end.

Lemma pad_text_ok flags width conversion (zeros : bool) prefix body :
  pad_text flags width (prefix ++ body) (if zeros then Some (length prefix) else None) =
  pad_field (ConversionSpec flags (default 0 width) None conversion) zeros prefix body.
Proof.
  unfold pad_text, pad_field. cbn [cv_flags cv_width]. rewrite length_app. destruct (bit_set flags FLAG_LEFT); [by rewrite <- app_assoc|].
  destruct zeros; cbn [andb]; [|done]. destruct (bit_set flags FLAG_ZERO); [|done]. by rewrite take_app_length, drop_app_length.
Qed.

Lemma pad_field_length flags width conversion (zeros : bool) prefix body :
  Z.of_nat (length (pad_field (ConversionSpec flags width None conversion) zeros prefix body)) =
  Z.max width (Z.of_nat (length prefix + length body)).
Proof.
  unfold pad_field. cbn [cv_flags cv_width].
  destruct (bit_set flags FLAG_LEFT); [|destruct (zeros && bit_set flags FLAG_ZERO)]; rewrite !length_app, length_replicate; lia.
Qed.

(** ** The length of the text *)

Lemma decimal_length n k : 1 <= k -> 0 <= n < 10 ^ k -> Z.of_nat (length (decimal n)) <= k.
Proof.
  intros Hk Hn. unfold decimal, with_precision. rewrite length_app, length_replicate.
  pose proof (number_digits_length (S (Z.to_nat (Z.log2 n))) (Z.to_nat k) n) as H. rewrite Z2Nat.id in H by lia. lia.
Qed.

Lemma fixed_point_length point alt strip r p k : (forall l, (length (strip l) <= length l)%nat) -> 1 <= k -> 0 <= p -> 0 <= r < 10 ^ (k + p) ->
  Z.of_nat (length (fixed_point point alt strip r (Z.to_nat p))) <= k + 1 + p.
Proof.
  intros Hs Hk Hp Hr. unfold fixed_point, point_and. rewrite length_app, Z2Nat.id by done.
  assert (Hd : Z.of_nat (length (decimal (r / 10 ^ p))) <= k).
  { apply decimal_length; [done|]. rewrite Z.pow_add_r in Hr by lia. pose proof (Z.pow_pos_nonneg 10 p).
    split; [apply Z.div_pos; lia|apply Z.div_lt_upper_bound; lia]. }
  pose proof (Hs (store_digits (Z.to_nat p) r)) as Hl. rewrite length_store_digits in Hl.
  destruct (alt || _); cbn [length]; rewrite ?length_rev; lia.
Qed.

Lemma strip_shorter (alt : bool) l : (length ((if alt then id else strip_zeros_of) l) <= length l)%nat.
Proof. rewrite strip_id, length_drop. lia. Qed.

Section Lengths.
Context (type : float_type) (point : Z) (windows : bool) (flags precision conversion : Z) (Hprecision : 0 <= precision <= max_precision).

(** There is an exponent. *)
Lemma decimal_exponent_ok x p : finite_double type x -> 0 <= p <= max_precision ->
  let E := decimal_exponent type x p in - exponent_limit type < E < exponent_limit type /\ 0 <= rounded x (p - E) < 10 ^ (p + 1).
Proof using Type.
  intros Hx Hp. cbv zeta. pose proof (rounded_nonneg x (p - decimal_exponent type x p) ltac:(apply Hx)) as H0.
  destruct (Z.eq_dec (fst x) 0) as [E0|Hne].
  - rewrite rounded_0 by done. unfold decimal_exponent. rewrite E0. cbn [Z.eqb]. pose proof (exponent_limit_range type). split; [lia|]. pose proof (Z.pow_pos_nonneg 10 (p + 1)). lia.
  - assert (Hpos : positive_double type x) by (destruct Hx; split; [lia|done]).
    destruct (significant_exists type x p ltac:(lia) Hpos) as (E & Hs & HE).
    rewrite (decimal_exponent_spec type x p E ltac:(destruct Hpos; lia) Hs HE) in *. split; [done|]. split; [lia|]. apply Hs.
Qed.

(** Conversions e and g. *)
Lemma shown_number_length x : finite_double type x -> among conversion "fF" = false ->
  Z.of_nat (length (shown_number type point windows (alt flags) precision conversion x)) <= precision + 8.
Proof using Hprecision.
  intros Hx Hf. unfold shown_number. rewrite Hf. cbv zeta. destruct (among conversion "eE").
  - destruct (decimal_exponent_ok x precision Hx Hprecision) as [HE Hr]. rewrite length_app. cbn [length].
    pose proof (shown_exponent_length type windows (decimal_exponent type x precision) ltac:(pose proof (exponent_limit_range type); lia)).
    pose proof (fixed_point_length point (alt flags) id (rounded x (precision - decimal_exponent type x precision)) precision 1 ltac:(done) ltac:(lia) ltac:(lia)).
    rewrite (Z.add_comm 1 precision) in *. lia.
  - set (P := Z.max 1 precision). assert (HP : 0 <= P - 1 <= max_precision) by (unfold P, max_precision in *; lia).
    destruct (decimal_exponent_ok x (P - 1) Hx HP) as [HE Hr]. set (E := decimal_exponent type x (P - 1)) in *. replace (P - 1 + 1) with P in Hr by lia.
    pose proof (strip_shorter (alt flags)) as Hs. destruct ((-4 <=? E) && (E <? P)) eqn:Efix.
    + apply andb_true_iff in Efix as [HE1%Z.leb_le HE2%Z.ltb_lt].
      pose proof (fixed_point_length point (alt flags) _ (rounded x (P - 1 - E)) (P - 1 - E) (Z.max 1 (E + 1)) Hs ltac:(lia) ltac:(lia)) as H.
      assert (10 ^ P <= 10 ^ (Z.max 1 (E + 1) + (P - 1 - E))) by (apply Z.pow_le_mono_r; lia). lia.
    + rewrite length_app. cbn [length]. pose proof (shown_exponent_length type windows E ltac:(pose proof (exponent_limit_range type); lia)) as He.
      pose proof (fixed_point_length point (alt flags) _ (rounded x (P - 1 - E)) (P - 1) 1 Hs ltac:(lia) ltac:(lia)) as H.
      replace (1 + (P - 1)) with P in H by lia. lia.
Qed.
(** Conversion f: the digits before the decimal point are counted by floorlog10(). *)
Lemma rounded_fixed x g : positive_double type x -> ((6 # 10) * Qpower 10 g <= qv x /\ qv x < 20 * Qpower 10 g)%Q ->
  rounded x precision < 10 ^ (Z.max 1 (g + 2) + precision).
Proof using Hprecision.
  intros Hx [_ Hg]. pose proof (rounded_near x precision) as [_ Hr]. set (k := Z.max 1 (g + 2)).
  assert (Hk : (100 * Qpower 10 g <= Qpower 10 k)%Q).
  { change 100%Q with (Qpower 10 2). rewrite <- pow10_plus. apply pow10_le. lia. }
  assert (H1 : (10 <= Qpower 10 k)%Q) by (change 10%Q with (Qpower 10 1) at 1; apply pow10_le; lia).
  assert (Hp : (1 <= Qpower 10 precision)%Q) by (change 1%Q with (Qpower 10 0); apply pow10_le; lia).
  rewrite Zlt_Qlt, Zpower_Qpower, pow10_plus by lia. change (inject_Z 10) with 10%Q.
  set (a := Qpower 10 g) in *. set (b := Qpower 10 k) in *. set (c := Qpower 10 precision) in *. set (v := qv x) in *. set (r := inject_Z (rounded x precision)) in *.
  clearbody a b c v r. nra.
Qed.

Lemma shown_fixed_length x g : positive_double type x -> ((6 # 10) * Qpower 10 g <= qv x /\ qv x < 20 * Qpower 10 g)%Q ->
  Z.of_nat (length (fixed_point point (alt flags) id (rounded x precision) (Z.to_nat precision))) <= Z.max 1 (g + 2) + 1 + precision.
Proof using Hprecision.
  intros Hx Hg. apply fixed_point_length; [done|lia|lia|]. split; [|by apply rounded_fixed]. apply rounded_nonneg. destruct Hx. lia.
Qed.
End Lengths.

Lemma sign_text_length flags sign : (length (sign_text flags sign) <= 1)%nat.
Proof. unfold sign_text. destruct sign, (bit_set flags FLAG_SHOWSIGN), (bit_set flags FLAG_SPACE); cbn; lia. Qed.

(** The buffer is large enough. *)
Lemma text_length_ok type radix windows flags width precision conversion d :
  0 <= precision <= max_precision -> 0 <= default 0 width <= SIZE_MAX -> double_ok type d ->
  exists n, text_length type precision conversion width d = Some n /\ 0 < n <= SIZE_MAX /\
    (n < SIZE_MAX -> Z.of_nat (length (shown_double type radix windows flags width precision conversion d)) < n) /\
    (n = SIZE_MAX -> SIZE_MAX - 1 <= default 0 width).
Proof.
  intros Hp Hw Hd. unfold text_length. set (dig := DIG (float_format_of type)). assert (Hdig : 15 <= dig <= 18) by (unfold dig; destruct type; cbn; lia).
  set (base := if dig + 1 <? precision then precision else dig + 1).
  assert (Hbase : 16 <= base /\ precision <= base /\ base <= 2 ^ 31).
  { unfold base, max_precision in *. destruct (Z.ltb_spec (dig + 1) precision); lia. }
  assert (H : forall n body, 16 <= n <= 2 ^ 32 -> Z.of_nat body <= n + 12 ->
    let n' := xsum (if xsum n 12 <? default 0 width then default 0 width else xsum n 12) 1 in
    0 < n' <= SIZE_MAX /\ (n' < SIZE_MAX -> Z.max (default 0 width) (Z.of_nat body) < n') /\ (n' = SIZE_MAX -> SIZE_MAX - 1 <= default 0 width)).
  { intros n body Hn Hb n'. unfold n'. rewrite (xsum_spec n) by (unfold SIZE_MAX in *; lia). rewrite Z.min_l by (unfold SIZE_MAX in *; lia).
    destruct (Z.ltb_spec (n + 12) (default 0 width)); rewrite xsum_spec by (unfold SIZE_MAX in *; lia); unfold SIZE_MAX in *; lia. }
  destruct d as [sign|sign|sign x]; unfold shown_double; cbn [mbind option_bind].
  - eexists. split; [done|]. rewrite pad_field_length. apply H; [lia|]. destruct (upper conversion); cbn; lia.
  - eexists. split; [done|]. rewrite pad_field_length. apply H; [lia|]. pose proof (sign_text_length flags sign). destruct (upper conversion); cbn; lia.
  - pose proof (sign_text_length flags sign) as Hs. destruct (among conversion "fF") eqn:Ef; cbn [andb].
    + unfold shown_number. rewrite Ef. destruct (Z.eqb_spec (fst x) 0) as [E0|Hne]; cbn [negb].
      * eexists. split; [done|]. rewrite pad_field_length. apply H; [lia|]. rewrite rounded_0 by done.
        pose proof (fixed_point_length (decimal_point_char radix) (bit_set flags FLAG_ALT) id 0 precision 1 ltac:(done) ltac:(lia) ltac:(lia)) as Hl.
        pose proof (Z.pow_pos_nonneg 10 (1 + precision)). lia.
      * assert (Hx : positive_double type x) by (destruct Hd; split; [lia|done]). destruct Hx as [Hx1 Hx2].
        destruct (guess_exponent_ok type (fst x) (snd x) Hx1 Hx2) as (g & Eg & Hg). rewrite <- surjective_pairing in Eg, Hg. rewrite Eg. cbn [mbind option_bind].
        pose proof (guess_range type x g (conj Hx1 Hx2) Hg) as Hgr. pose proof (exponent_limit_range type) as HL.
        pose proof (shown_fixed_length type (decimal_point_char radix) flags precision Hp x g (conj Hx1 Hx2) Hg) as Hl.
        eexists. split; [done|]. rewrite pad_field_length. unfold max_precision in Hp. unfold alt in Hl.
        destruct (Z.leb_spec 0 g); cbn [andb]; [rewrite wrapw_small by lia; destruct (Z.ltb_spec base (g + precision))|]; apply H; lia.
    + eexists. split; [done|]. rewrite pad_field_length. apply H; [lia|].
      pose proof (shown_number_length type (decimal_point_char radix) windows flags precision conversion Hp x Hd Ef) as Hl. unfold alt in Hl. lia.
Qed.

(** ** The directive *)

(** The digits are more than 125: only then their NUL can lie outside the memory. *)
Definition many_digits_of (precision conversion : Z) (d : double) : Prop :=
  match d with Finite _ x => if among conversion "fF" then 10 ^ 125 <= rounded x precision else 123 < precision | _ => False end.

Section Directive.
Context (type : float_type) (mal : nat -> Z -> bool) (garbage : nat -> nat -> Z).
Context (radix : cstr) (windows : bool) (alloc : nat -> bool * (site -> bool)) (junk : nat -> mpn).
Context (Hjunk : forall k, length (junk k) = k /\ limbs_ok (junk k)).
Context (flags : Z) (width : option Z) (precision conversion : Z) (d : double).
Context (Hwidth : 0 <= default 0 width <= SIZE_MAX) (Hprecision : 0 <= precision <= max_precision).
Context (Hconversion : among conversion "fFeEgG" = true) (Hd : double_ok type d).
Context (user : option nat) (limit : Z).

Definition piece : cstr := shown_double type radix windows flags width precision conversion d.

Lemma conversion_cases : among conversion "fF" = true \/ among conversion "fF" = false /\ among conversion "eE" = true \/
  among conversion "fF" = false /\ among conversion "eE" = false /\ among conversion "gG" = true.
Proof using Hconversion.
  revert Hconversion. unfold among. cbn [cs existsb]. cbn. intros H. rewrite !orb_false_r in *.
  repeat (apply orb_true_iff in H as [H%Z.eqb_eq|H]; [subst conversion; auto|]). apply Z.eqb_eq in H; subst conversion; auto.
Qed.

Lemma double_text_ok :
  match double_text type radix windows alloc junk flags precision conversion d with
  | Text (text, pad_ptr) => pad_text flags width text pad_ptr = piece
  | NoMemory => alloc_failed alloc
  | Aborted => many_digits_of precision conversion d
  end.
Proof using Hjunk Hconversion Hd Hprecision.
  unfold piece, shown_double, double_text. destruct d as [sign|sign|sign x]; cbn [mret text_ret].
  - apply (pad_text_ok flags width conversion false []).
  - apply (pad_text_ok flags width conversion false).
  - assert (H : gives alloc (many_digits_of precision conversion (Finite sign x)) (if among conversion "fF" then text_f type radix alloc junk flags precision x
               else if among conversion "eE" then text_e type radix windows alloc junk flags precision conversion x
               else if among conversion "gG" then text_g type radix windows alloc junk flags precision conversion x else Aborted)
        (shown_number type (decimal_point_char radix) windows (bit_set flags FLAG_ALT) precision conversion x)).
    { unfold shown_number, many_digits_of. destruct conversion_cases as [->|[[-> ->]|(-> & -> & Hg)]].
      - exact (text_f_ok type radix alloc junk Hjunk flags precision Hprecision x Hd).
      - exact (text_e_ok type radix windows alloc junk Hjunk flags precision conversion Hprecision x Hd).
      - rewrite Hg. exact (text_g_ok type radix windows alloc junk Hjunk flags precision conversion Hprecision x Hd Hg). }
    destruct (if among conversion "fF" then _ else _) as [t| |]; cbn [mbind text_bind mret text_ret]; [|done|done].
    cbn [gives] in H. rewrite <- H. apply (pad_text_ok flags width conversion true).
Qed.

(** What is wrong if there is not enough memory. *)
Definition directive_error (out : list Z) (e : errno) : Prop :=
  e = ENOMEM /\ ((exists n size, mal n size = false) \/ alloc_failed alloc \/ 2 ^ 59 < Z.of_nat (length (out ++ piece))).

Definition one_if (b : bool) : Z := if b then 1 else 0.

Lemma free_tmp_yields blocks allocated s out tail (E : errno -> Prop) (Q : unit -> vstate -> Prop) : vok user limit (blocks + one_if allocated) s out tail ->
  (forall s', vok user limit blocks s' out tail -> v_counts s' = v_counts s -> v_length s' = v_length s -> Q tt s') ->
  yields user (blocks + one_if allocated) (free_tmp allocated) s E Q.
Proof using Type.
  intros [H1 H2 H3 [H4 H5]] HQ. unfold yields, free_tmp. destruct allocated; apply HQ; try done.
  - split; [done|done|done|]. split; [done|]. unfold heap_block in *. cbn [v_heap v_blocks one_if] in *. lia.
  - split; [done|done|done|]. split; [done|]. unfold one_if in H5. lia.
Qed.

(** The part after malloc(). *)
Lemma body_yields blocks allocated n s out tail : vok user limit (blocks + one_if allocated) s out tail -> Z.of_nat (length piece) < n <= SIZE_MAX ->
  Z.of_nat (length (out ++ piece)) <= limit ->
  double_text type radix windows alloc junk flags precision conversion d <> Aborted ->
  yields user (blocks + one_if allocated) (append_double mal garbage radix windows alloc junk type n allocated flags width precision conversion d) s
    (directive_error out) (fun _ s' => vok user limit blocks s' (out ++ piece) [] /\ v_counts s' = v_counts s).
Proof using Hjunk Hconversion Hd Hprecision.
  intros Hok Hn Hlim Hdef. unfold append_double. pose proof double_text_ok as Ht. destruct (double_text _ _ _ _ _ _ _ _ _) as [[text pad_ptr]| |]; [| |done].
  2: { split; [split; [done|auto]|apply Hok]. }
  cbn [of_text]. change (mret (text, pad_ptr) ≫= ?f) with (f (text, pad_ptr)). cbv beta iota zeta. rewrite Ht, (proj2 (Z.leb_gt _ _)) by lia.
  apply yields_get, yields_bind. pose proof (vok_length _ _ _ _ _ _ Hok) as El. pose proof (vok_range _ _ _ _ _ _ Hok) as Hr. rewrite length_app in Hr.
  eapply (yields_mono _ _ _ _ (no_memory mal (out ++ piece)) _ (fun _ s1 => vok user limit (blocks + one_if allocated) s1 out [] /\ v_counts s1 = v_counts s /\
    v_length s1 = v_length s /\ Z.of_nat (length (out ++ piece)) <= v_allocated s1)).
  - destruct (Z.leb_spec (v_allocated s - v_length s) (Z.of_nat (length piece))) as [Hle|Hgt].
    + eapply yields_mono; [exact (ensure_length_ok user limit mal garbage _ s out tail _ piece Hok eq_refl ltac:(lia))|done|].
      intros _ s1 (H1 & H2 & H3 & _ & H4). done.
    + apply yields_ret. split_and!; [by eapply vok_untail|done|done|]. rewrite length_app. lia.
  - intros e [-> [H|H]]; (split; [done|auto]).
  - intros _ s1 (Hok1 & Hc1 & El1 & Ha1). rewrite <- El1. apply yields_bind.
    eapply yields_mono; [exact (store_ok user limit _ s1 out [] piece _ Hok1 Ha1 Hlim)|done|].
    intros _ s2 (Hok2 & _ & Hc2). apply yields_bind, (free_tmp_yields _ _ _ _ _ _ _ Hok2). intros s3 Hok3 Hc3 _. split; [|cbn; congruence].
    pose proof (vok_length _ _ _ _ _ _ Hok3) as El3. rewrite El3.
    rewrite <- (app_nil_r piece) in Hok3. apply (advance user limit blocks s3 out piece [] _ Hok3). rewrite length_app. lia.
Qed.

(** What the directive does to a state with the output [out]; a block can be lost if its buffer was on the heap. *)
Definition prints (blocks : Z) (s : vstate) (out : list Z) (r : outcome unit) : Prop :=
  match r with
  | Run _ s' => vok user limit blocks s' (out ++ piece) [] /\ v_counts s' = v_counts s
  | Failed e s' => directive_error out e /\
      (sane user blocks s' \/ sane user (blocks + 1) s' /\ exists n, text_length type precision conversion width d = Some n /\ 700 < n)
  | Undef => many_digits_of precision conversion d
  end.

Lemma append_double_prints blocks allocated n s s1 out tail : vok user limit (blocks + one_if allocated) s1 out tail -> v_counts s1 = v_counts s ->
  Z.of_nat (length piece) < n <= SIZE_MAX -> Z.of_nat (length (out ++ piece)) <= limit ->
  text_length type precision conversion width d = Some n -> (allocated = true -> 700 < n) ->
  prints blocks s out (append_double mal garbage radix windows alloc junk type n allocated flags width precision conversion d s1).
Proof using Hjunk Hconversion Hd Hprecision.
  intros Hok Hc Hn Hlim En Ha.
  assert (Hcase : double_text type radix windows alloc junk flags precision conversion d = Aborted \/
    double_text type radix windows alloc junk flags precision conversion d <> Aborted) by (destruct (double_text _ _ _ _ _ _ _ _ _); auto).
  destruct Hcase as [Et|Hdef]; [unfold append_double; rewrite Et; pose proof double_text_ok as Ht; by rewrite Et in Ht|].
  pose proof (body_yields blocks allocated n s1 out tail Hok Hn Hlim Hdef) as H. unfold yields in H. unfold prints.
  rewrite <- Hc. destruct (append_double _ _ _ _ _ _ _ _ _ _ _ _ _ _ _) as [x s'|e s'|]; [done| |done]. destruct H as [He Hs]. split; [done|].
  destruct allocated; [right|left].
  - split; [done|]. exists n. split; [done|by apply Ha].
  - unfold one_if in Hs. by rewrite Z.add_0_r in Hs.
Qed.

Lemma double_directive_ok blocks s out tail : vok user limit blocks s out tail -> Z.of_nat (length (out ++ piece)) <= limit ->
  prints blocks s out (double_directive mal garbage radix windows alloc junk type flags width precision conversion d s).
Proof using Hjunk Hconversion Hd Hprecision Hwidth.
  intros Hok Hlim. destruct (text_length_ok type radix windows flags width precision conversion d Hprecision Hwidth Hd) as (n & En & Hn & Hlt & Hmax).
  unfold double_directive. rewrite En. fold piece in Hlt. pose proof (vok_sane _ _ _ _ _ _ Hok) as Hsane.
  change ((lift (Some n) ≫= ?f) s) with (f n s). cbv beta.
  change ((malloc_tmp mal n ≫= ?f) s) with (match malloc_tmp mal n s with Run x s => f x s | Failed e s => Failed e s | Undef => Undef end).
  unfold malloc_tmp. destruct (Z.leb_spec n 700) as [Hsmall|Hbig]; cbv beta iota.
  - eapply (append_double_prints blocks false); [by rewrite Z.add_0_r|done|specialize (Hlt ltac:(unfold SIZE_MAX; lia)); lia|done|done|done].
  - rewrite (xtimes_spec n 1), Z.mul_1_r, Z.min_l by lia. unfold size_overflow_p. destruct (Z.eqb_spec n SIZE_MAX) as [E|Hne].
    + split; [|by left]. split; [done|]. right; right. specialize (Hmax E). rewrite length_app. unfold piece, shown_double.
      unfold SIZE_MAX in Hmax. destruct d; rewrite Nat2Z.inj_add, pad_field_length; lia.
    + destruct (mal (v_mallocs s) n) eqn:Em; cbv beta iota.
      * eapply (append_double_prints blocks true _ _ _ _ tail); [|done|specialize (Hlt ltac:(lia)); lia|done|done|done].
        destruct Hok as [H1 H2 H3 [H4 H5]]. split; [done|done|done|]. split; [done|]. unfold heap_block in *. cbn [v_heap v_blocks one_if]. lia.
      * split; [|left; exact Hsane]. split; [done|]. left. eauto.
Qed.
End Directive.


(** Every 64 bits are a double, and every 80 bits a long double. *)
Lemma double_of_bits_ok repr : double_ok Double (double_of_bits repr).
Proof.
  unfold double_of_bits. rewrite !Z.land_ones by lia. pose proof (Z.mod_pos_bound (Z.shiftr repr 52) (2 ^ 11) eq_refl) as He.
  pose proof (Z.mod_pos_bound repr (2 ^ 52) eq_refl) as Hf. set (e := _ mod 2 ^ 11) in *. set (f := repr mod 2 ^ 52) in *.
  destruct (Z.eqb_spec e 2047); [by destruct (f =? 0)|]. destruct (Z.eqb_spec e 0); cbn; unfold finite_double; cbn; lia.
Qed.

Lemma long_double_of_bits_ok repr : double_ok LongDouble (long_double_of_bits repr).
Proof.
  unfold long_double_of_bits. rewrite !Z.land_ones by lia. pose proof (Z.mod_pos_bound (Z.shiftr repr 64) (2 ^ 15) eq_refl) as He.
  pose proof (Z.mod_pos_bound repr (2 ^ 64) eq_refl) as Hf. set (e := _ mod 2 ^ 15) in *. set (f := repr mod 2 ^ 64) in *.
  destruct (Z.eqb_spec e 32767); [by destruct (f =? 2 ^ 63)|].
  destruct (Z.eqb_spec e 0); destruct (Z.testbit f 63); cbn; unfold finite_double; cbn; lia || done.
Qed.

Lemma float_argument_ok long_double_of types values i type d :
  (forall repr, double_ok LongDouble (long_double_of repr)) -> float_argument long_double_of types values i = Some (type, d) -> double_ok type d.
Proof.
  intros Hlong. unfold float_argument. destruct (arg_at types values i) as [[[] []]|]; try done; intros [= <- <-]; [apply double_of_bits_ok|apply Hlong].
Qed.

(** C38. The directives f, e and g print a number as ISO C says: they append its decimal digits, exactly rounded (half to even), in
    fixed or exponential notation, with the least exponent that is possible and, for g, without trailing zeros of the fraction; with the
    sign, "inf" or "nan", and padded to the field width.  They fail only if there is not enough memory, and then lose at
    most the buffer [tmp], if it was on the heap; they never reach one of their calls of abort(), and never store outside a buffer, except that the
    NUL of a string of more than 125 digits may lie outside the memory that convert_to_decimal() allocates ([many_digits_of]; [nul_outside]).
    The precision is at most 2^31 - 10000. *)
Theorem float_directive_correct (mal : nat -> Z -> bool) (garbage : nat -> nat -> Z) (radix : cstr) (windows : bool)
    (alloc : nat -> bool * (site -> bool)) (junk : nat -> mpn) (long_double_of : Z -> double)
    (format : cstr) (types : list arg_type) (values : list va_value) (dp : directive)
    (type : float_type) (d : double) (flags : Z) (width : option Z) (has_precision : bool) (precision : Z)
    (user : option nat) (limit blocks : Z) (s : vstate) (out tail : list Z) :
  (forall k, length (junk k) = k /\ limbs_ok (junk k)) -> (forall repr, double_ok LongDouble (long_double_of repr)) ->
  get_width format types values dp = Some (flags, width) -> 0 <= default 0 width <= SIZE_MAX ->
  get_precision format types values dp = Some (has_precision, precision) -> 0 <= precision <= max_precision ->
  among (conversion dp) "fFeEgG" = true -> float_argument long_double_of types values (arg_index dp) = Some (type, d) ->
  vok user limit blocks s out tail ->
  Z.of_nat (length (out ++ shown_double type radix windows flags width precision (conversion dp) d)) <= limit ->
  prints type mal radix windows alloc flags width precision (conversion dp) d user limit blocks s out
    (float_directive mal garbage radix windows alloc junk long_double_of format types values dp s).
Proof.
  intros Hjunk Hlong Ew Hw Ep Hp Hc Ea Hok Hlim. unfold float_directive. rewrite Ew, Ep, Ea.
  pose proof (float_argument_ok _ _ _ _ _ _ Hlong Ea) as Hd.
  by apply (double_directive_ok type mal garbage radix windows alloc junk Hjunk flags width precision (conversion dp) d Hw Hp Hc Hd user limit blocks s out tail).
Qed.

(** [%+#12.3g] of 123456.0 *)
Definition sample_directive : directive :=
  match PRINTF_PARSE 32 88 (fun _ _ => true) (cs "%+#12.3g") with
  | Some (Ok st) => default (Directive 0 0 0 None None 0 None None 0 0 0) (head (dirs st))
  | _ => Directive 0 0 0 None None 0 None None 0 0 0
  end.

Definition sample_bits : Z := 0x40fe240000000000.

Lemma float_directive_correct_witness :
  let s := VState None None 0 0 0 0 [] in
  shown_double Double (cs ".") false 20 (Some 12) 3 (conversion sample_directive) (double_of_bits sample_bits) = cs "   +1.23e+05" /\
  prints Double (fun _ _ => true) (cs ".") false (fun _ => (true, fun _ => true)) 20 (Some 12) 3 (conversion sample_directive) (double_of_bits sample_bits) None 100 0 s []
    (float_directive (fun _ _ => true) (fun _ _ => 0) (cs ".") false (fun _ => (true, fun _ => true)) (fun k => replicate k 0) long_double_of_bits
       (cs "%+#12.3g") [TYPE_DOUBLE] [VDouble sample_bits] sample_directive s).
Proof.
  cbv zeta. split; [vm_compute; reflexivity|].
  apply (float_directive_correct (fun _ _ => true) (fun _ _ => 0) (cs ".") false (fun _ => (true, fun _ => true)) (fun k => replicate k 0) long_double_of_bits
    (cs "%+#12.3g") [TYPE_DOUBLE] [VDouble sample_bits] sample_directive Double (double_of_bits sample_bits) 20 (Some 12) true 3 None 100 0 _ [] []).
  - intros k. split; [apply length_replicate|]. by apply Forall_replicate.
  - apply long_double_of_bits_ok.
  - vm_compute. reflexivity.
  - unfold SIZE_MAX. cbn. lia.
  - vm_compute. reflexivity.
  - unfold max_precision. lia.
  - vm_compute. reflexivity.
  - vm_compute. reflexivity.
  - split; [done|done|cbn; unfold SIZE_MAX; lia|done].
  - apply Z.leb_le. vm_compute. reflexivity.
Defined.

(** ** What goes wrong *)

(** [%.0f] of 2^447, a number of 14 limbs and 135 digits. *)
Example nul_outside :
  double_directive (fun _ _ => true) (fun _ _ => 0) (cs ".") false (fun _ => (true, fun _ => true)) (fun k => replicate k 0)
    Double 0 None 0 (chr "f") (double_of_bits (Z.shiftl (1023 + 447) 52)) (VState None None 0 0 0 0 []) = Undef.
Proof. vm_compute. reflexivity. Qed.

(** [%.800f] of 1.0, when the first allocation of the bignums fails: the buffer of 813 bytes is not freed. *)
Example tmp_is_lost :
  match double_directive (fun _ _ => true) (fun _ _ => 0) (cs ".") false (fun _ => (false, fun _ => true)) (fun k => replicate k 0)
          Double 0 None 800 (chr "f") (Finite false (1, 0)) (VState None None 0 0 0 0 []) with
  | Failed ENOMEM s => v_blocks s = 1 /\ v_heap s = None
  | _ => False
  end.
Proof. vm_compute. done. Qed.
