(* ===== verification/Printf.v ===== *)
(** * The printf functions (printf.c)

    The functions that take a [va_list]; those with [...] only collect their arguments
    into one.  A format without [$] is left to the C library, whose functions are the class
    [SystemPrintf]; the others are formatted by VASNPRINTF into the caller's buffer or into memory
    of its own, which is copied, written or returned.  [None] is undefined behaviour. *)

From S2P Require Import Prelude PrintfParse PrintfParseSpec Vasnprintf VasnprintfSpec VasnprintfOutput Snprintf VasnprintfTheorems.

Open Scope Z_scope.

(** What a call leaves: its result, errno if the call sets it, the caller's buffer, what [%n]
    stored, and the number of blocks of memory it has allocated and not freed. *)
Record printed := Printed {
  p_retval : Z;
  p_errno : option errno;
  p_buffer : option (list Z);
  p_counts : list (Z * arg_type * Z);
  p_blocks : Z
}.

(** The C library's vsprintf(), vsnprintf() and vfprintf(), and fwrite() with the number of bytes it
    has written. *)
Class SystemPrintf := {
  stream : Type;
  vsprintf : list Z -> cstr -> list va_value -> option printed;
  system_vsnprintf : option (list Z) -> Z -> cstr -> list va_value -> option printed;
  vfprintf : stream -> cstr -> list va_value -> option (printed * stream);
  fwrite : list Z -> stream -> Z * stream
}.

(** [strchr (format, '$') == NULL] *)
Definition no_dollar (format : cstr) : bool := forallb (fun c => negb (c =? chr "$")) format.

(** [(size_t) ~0 / (4 * sizeof (char))] *)
Definition vsprintf_length : Z := SIZE_MAX / 4.

Section Printf.
Context `{!Snprintf, !Wcrtomb, !SystemPrintf}.
Context (glibc : bool) (mal : nat -> Z -> bool) (garbage : nat -> nat -> Z) (sz_argument sz_directive : Z).

Abbreviation libintl_vasnprintf := (VASNPRINTF glibc mal garbage sz_argument sz_directive).

(** The result of a call whose output has [length] bytes. *)
Definition int_result (length : Z) (s : vstate) (blocks : Z) : printed :=
  if INT_MAX <? length then Printed (-1) (Some EOVERFLOW) (v_user s) (v_counts s) blocks
  else Printed length None (v_user s) (v_counts s) blocks.

Definition failure (e : option errno) (s : vstate) (blocks : Z) : printed :=
  Printed (-1) e (v_user s) (v_counts s) blocks.

(** [free (result)] *)
Definition freed (own : option (list Z)) (s : vstate) : Z := v_blocks s - match own with Some _ => 1 | None => 0 end.

Definition libintl_vfprintf (f : stream) (format : cstr) (args : list va_value) : option (printed * stream) :=
  if no_dollar format then vfprintf f format args
  else
    match libintl_vasnprintf None 0 format args with
    | None => None
    | Some (NullResult e s) => Some (failure (Some e) s (v_blocks s), f)
    | Some (Result own length s) =>
        match own with
        | None => None
        | Some result =>
            let '(written, f) := fwrite (take (Z.to_nat length) result) f in
            Some (if written =? length then int_result length s (freed own s) else failure None s (freed own s), f)
        end
    end.

Definition libintl_vsprintf (resultbuf : list Z) (format : cstr) (args : list va_value) : option printed :=
  if no_dollar format then vsprintf resultbuf format args
  else
    match libintl_vasnprintf (Some resultbuf) vsprintf_length format args with
    | None => None
    | Some (NullResult e s) => Some (failure (Some e) s (v_blocks s))
    | Some (Result (Some _ as own) _ s) => Some (failure None s (freed own s))
    | Some (Result None length s) => Some (int_result length s (v_blocks s))
    end.

(** [memcpy] and the NUL; the caller's buffer may be a null pointer only if it has no bytes. *)
Definition copy_pruned (maxlength length : Z) (result : list Z) (s : vstate) : option vstate :=
  if 0 <? maxlength then
    let pruned_length := if length <? maxlength then length else maxlength - 1 in
    match v_user s with
    | Some u =>
        if (pruned_length <=? Z.of_nat (List.length result)) && (pruned_length <? Z.of_nat (List.length u)) then
          Some (VState (Some (store_at 0 (take (Z.to_nat pruned_length) result ++ [0]) u)) (v_heap s) (v_allocated s)
                  (v_length s) (v_mallocs s) (v_blocks s) (v_counts s))
        else None
    | None => None
    end
  else Some s.

Definition libintl_vsnprintf (resultbuf : option (list Z)) (maxlength : Z) (format : cstr) (args : list va_value) : option printed :=
  if no_dollar format then system_vsnprintf resultbuf maxlength format args
  else
    match libintl_vasnprintf resultbuf maxlength format args with
    | None => None
    | Some (NullResult e s) => Some (failure (Some e) s (v_blocks s))
    | Some (Result own length s) =>
        match own with
        | None => Some (int_result length s (v_blocks s))
        | Some result =>
            s' ← copy_pruned maxlength length result s;
            Some (int_result length s' (freed own s'))
        end
    end.

(** The second component is what is stored at [*resultp]. *)
Definition libintl_vasprintf (format : cstr) (args : list va_value) : option (printed * option (list Z)) :=
  match libintl_vasnprintf None 0 format args with
  | None => None
  | Some (NullResult e s) => Some (failure (Some e) s (v_blocks s), None)
  | Some (Result own length s) =>
      if INT_MAX <? length then Some (failure (Some EOVERFLOW) s (freed own s), None)
      else Some (int_result length s (v_blocks s), own)
  end.
End Printf.

(** ** Theorems *)

Lemma no_dollar_false format : In (chr "$") format -> no_dollar format = false.
Proof.
  intros H. apply not_true_is_false. unfold no_dollar. rewrite forallb_forall. intros Hall.
  by specialize (Hall _ H).
Qed.

(** As much of a text as fits into a buffer of [n] bytes, with a NUL. *)
Definition truncated (n : Z) (t : list Z) : list Z := take (Z.to_nat (n - 1)) t ++ [0].

Lemma copy_pruned_ok maxlength (t result u : list Z) s :
  0 < maxlength -> v_user s = Some u -> Z.of_nat (length u) = maxlength -> take (S (length t)) result = t ++ [0] ->
  exists s' u', copy_pruned maxlength (Z.of_nat (length t)) result s = Some s' /\ v_user s' = Some u' /\
    length u' = length u /\ take (length (truncated maxlength t)) u' = truncated maxlength t /\
    v_counts s' = v_counts s /\ v_blocks s' = v_blocks s.
Proof.
  intros Hm Hu Hlen Hres. unfold copy_pruned. rewrite (proj2 (Z.ltb_lt _ _) Hm), Hu.
  pose proof (f_equal length Hres) as Hl. rewrite length_take, length_app in Hl. change (length [0]) with 1%nat in Hl.
  set (pruned := if Z.of_nat (length t) <? maxlength then _ else _).
  assert (Ep : pruned = Z.min (Z.of_nat (length t)) (maxlength - 1)) by (unfold pruned; case_if; lia).
  assert (Hp1 : pruned <= Z.of_nat (length result)) by lia. assert (Hp2 : pruned < Z.of_nat (length u)) by lia.
  rewrite (proj2 (Z.leb_le _ _) Hp1), (proj2 (Z.ltb_lt _ _) Hp2). cbn [andb].
  assert (Et : take (Z.to_nat pruned) result = take (Z.to_nat (maxlength - 1)) t).
  { replace (take (Z.to_nat pruned) result) with (take (Z.to_nat pruned) (take (S (length t)) result)).
    2: { rewrite take_take. f_equal. lia. }
    rewrite Hres, take_app_le by lia. rewrite Ep. destruct (Z.min_spec (Z.of_nat (length t)) (maxlength - 1)) as [[? ->]|[? ->]]; [|done].
    by rewrite Nat2Z.id, !take_ge by lia. }
  rewrite Et. change (take (Z.to_nat (maxlength - 1)) t ++ [0]) with (truncated maxlength t).
  assert (Hle : (length (truncated maxlength t) <= length u)%nat).
  { unfold truncated. rewrite length_app, length_take. simpl. lia. }
  destruct (store_at_take [] (truncated maxlength t) u) as [T1 T2]; [done|done|].
  eexists _, _. split_and!; [done|done|exact T2|exact T1|done|done].
Qed.

Section Correct.
Context `{!Snprintf} {HS : SnprintfLaws} `{!Wcrtomb} {HW : WcrtombLaws} `{!SystemPrintf}.
Context (glibc : bool) (mal : nat -> Z -> bool) (garbage : nat -> nat -> Z) (sz_argument sz_directive : Z).
(** A format that is accepted, and arguments of the types it names. *)
Context (format : cstr) (va : list va_value) (st : parse_state) (values : list va_value).
Context (Hsa : 0 < sz_argument) (Hsd : 0 < sz_directive) (Hf : Z.of_nat (length format) < 2 ^ 58).
Context (Hparse : PRINTF_PARSE sz_argument sz_directive mal format = Some (Ok st)).
Context (Hfetch : PRINTF_FETCHARGS (args st) va = Fetched values).
Context (Hva : Forall va_ok va) (Hwidths : Forall (width_ok (args st) values) (dirs st)).
Context (Hdollar : In (chr "$") format).
Abbreviation text := (rendered glibc format (args st) values 0 (dirs st)).
Abbreviation counts := (rendered_counts glibc format (args st) values 0 (dirs st) 0).
Abbreviation error := (format_error glibc format (args st) values mal (dirs st)).

Lemma vasnprintf_delivers resultbuf lengthp :
  buffer_ok resultbuf lengthp text ->
  delivers resultbuf text counts error (VASNPRINTF glibc mal garbage sz_argument sz_directive resultbuf lengthp format va).
Proof using All.
  intros Hbuf. destruct (parsed_ok _ _ _ _ _ _ _ Hsa Hsd Hparse Hfetch Hva) as (? & ? & ? & ?).
  unfold VASNPRINTF. rewrite Hparse, Hfetch. by apply format_directives_ok.
Qed.

(** The result of a call that has made the text [t], or has failed with an error. *)
Definition reports (p : printed) (t : list Z) : Prop :=
  p_counts p = counts /\
  (p_retval p = Z.of_nat (length t) /\ Z.of_nat (length t) <= INT_MAX /\ p_errno p = None \/
   p_retval p = -1 /\ INT_MAX < Z.of_nat (length t) /\ p_errno p = Some EOVERFLOW).

Lemma int_result_reports t s blocks :
  v_counts s = counts -> reports (int_result (Z.of_nat (length t)) s blocks) t.
Proof using Type.
  intros Hc. unfold int_result. destruct (Z.ltb_spec INT_MAX (Z.of_nat (length t))); (split; [done|]); simpl; [by right|by left].
Qed.

Lemma int_result_fields length s blocks :
  p_buffer (int_result length s blocks) = v_user s /\ p_blocks (int_result length s blocks) = blocks.
Proof using Type. unfold int_result. by destruct (_ <? _). Qed.

(** C7. [libintl_vsnprintf] on a format with [$].  The buffer has [length] bytes, and
    none outside it is written; no memory stays allocated.  If all directives can be converted, the result is
    the length of the whole text, and the buffer contains as much of the text as
    fits, followed by a NUL, also where the text was made in memory of its own; a text longer
    than [INT_MAX] is reported as EOVERFLOW; or the call fails
    with ENOMEM or EOVERFLOW as VASNPRINTF does, and returns -1.  If a directive cannot be
    converted the result is -1. *)
Theorem libintl_vsnprintf_correct (resultbuf : option (list Z)) (maxlength : Z)
    (Hbuf : match resultbuf with Some l => Z.of_nat (length l) = maxlength | None => maxlength = 0 end)
    (Hmax : maxlength < SIZE_MAX) :
  exists p, libintl_vsnprintf glibc mal garbage sz_argument sz_directive resultbuf maxlength format va = Some p /\
    p_blocks p = 0 /\ length <$> p_buffer p = length <$> resultbuf /\
    match text with
    | Some t =>
        reports p t /\
          (forall l, p_buffer p = Some l -> 0 < maxlength -> take (length (truncated maxlength t)) l = truncated maxlength t) \/
        p_retval p = -1 /\ exists e, p_errno p = Some e /\ error t e
    | None => p_retval p = -1
    end.
Proof using All.
  unfold libintl_vsnprintf. rewrite (no_dollar_false _ Hdollar).
  assert (Hok : buffer_ok resultbuf maxlength text).
  { split; [destruct resultbuf; lia|]. intros l ->. left. lia. }
  pose proof (vasnprintf_delivers resultbuf maxlength Hok) as Hd.
  destruct (VASNPRINTF _ _ _ _ _ _ _ _ _) as [[own n s|e s]|]; [| |done]; cycle 1.
  { eexists. split; [done|]. destruct text as [t|]; simpl.
    - destruct Hd as (He & Hl & Hb). split_and!; [done|done|]. right. split; [done|]. by exists e.
    - by destruct Hd as (Hl & Hb). }
  destruct text as [t|] eqn:Et; [|done]. destruct Hd as (-> & Hc & (l & Hl & Ht) & Hu & Hb).
  destruct own as [result|]; cycle 1.
  { eexists. split; [done|]. destruct (int_result_fields (Z.of_nat (length t)) s (v_blocks s)) as [E1 E2].
    rewrite E1, E2. split_and!; [done|done|]. left. split; [by apply int_result_reports|].
    intros l' El' Hpos. rewrite El' in Hl. injection Hl as ->. rewrite El' in Hu. destruct resultbuf as [l0|]; [|done].
    injection Hu as Hu. pose proof (f_equal length Ht) as Hlen. rewrite length_take, length_app in Hlen. change (length [0]) with 1%nat in Hlen.
    assert (Etr : truncated maxlength t = t ++ [0]) by (unfold truncated; by rewrite take_ge by lia).
    by rewrite Etr, length_app, Nat.add_1_r. }
  injection Hl as ->. destruct (Z.ltb_spec 0 maxlength) as [Hpos|Hzero].
  - destruct resultbuf as [l0|]; [|lia]. destruct (v_user s) as [u|] eqn:Eu; [|done]. injection Hu as Hu.
    destruct (copy_pruned_ok maxlength t l u s Hpos Eu ltac:(lia) Ht) as (s' & u' & Ecp & Eu' & El' & Etr & Ec' & Eb').
    rewrite Ecp. cbn [mbind option_bind]. eexists. split; [done|].
    destruct (int_result_fields (Z.of_nat (length t)) s' (freed (Some l) s')) as [E1 E2]. rewrite E1, E2, Eu'.
    split_and!; [unfold freed; lia|simpl; congruence|]. left. split; [apply int_result_reports; congruence|].
    intros l' [= <-] _. done.
  - unfold copy_pruned. rewrite (proj2 (Z.ltb_ge _ _)) by done. cbn [mbind option_bind]. eexists. split; [done|].
    destruct (int_result_fields (Z.of_nat (length t)) s (freed (Some l) s)) as [E1 E2]. rewrite E1, E2.
    split_and!; [unfold freed; lia|done|]. left. split; [by apply int_result_reports|lia].
Qed.
(** [libintl_vasprintf]: the text in the one block that stays allocated, and [*resultp] is only
    set when the call succeeds. *)
Theorem libintl_vasprintf_correct :
  exists p r, libintl_vasprintf glibc mal garbage sz_argument sz_directive format va = Some (p, r) /\
    match r, text with
    | Some l, Some t =>
        p_retval p = Z.of_nat (length t) /\ Z.of_nat (length t) <= INT_MAX /\ take (S (length t)) l = t ++ [0] /\
        p_blocks p = 1 /\ p_counts p = counts
    | Some _, None => False
    | None, Some t => p_retval p = -1 /\ p_blocks p = 0 /\
        exists e, p_errno p = Some e /\ (error t e \/ INT_MAX < Z.of_nat (length t) /\ e = EOVERFLOW)
    | None, None => p_retval p = -1 /\ p_blocks p = 0
    end.
Proof using All.
  unfold libintl_vasprintf. assert (Hok : buffer_ok None 0 text) by done.
  pose proof (vasnprintf_delivers None 0 Hok) as Hd.
  destruct (VASNPRINTF _ _ _ _ _ _ _ _ _) as [[own n s|e s]|]; [| |done]; cycle 1.
  { eexists _, _. split; [done|]. destruct text as [t|]; simpl.
    - destruct Hd as (He & _ & Hb). split_and!; [done|done|]. exists e. split; [done|by left].
    - by destruct Hd as (_ & Hb). }
  destruct text as [t|]; [|done]. destruct Hd as (-> & Hc & (l & Hl & Ht) & Hu & Hb).
  destruct own as [result|]; [|by rewrite Hl in Hu]. injection Hl as ->. unfold int_result.
  destruct (Z.ltb_spec INT_MAX (Z.of_nat (length t))); eexists _, _; (split; [done|]); simpl.
  - split_and!; [done|unfold freed; lia|]. eexists. split; [done|by right].
  - by split_and!.
Qed.

(** [libintl_vfprintf] passes the whole text to one call of fwrite() and frees it. *)
Theorem libintl_vfprintf_correct (f : stream) :
  exists p f', libintl_vfprintf glibc mal garbage sz_argument sz_directive f format va = Some (p, f') /\ p_blocks p = 0 /\
    match text with
    | Some t =>
        f' = (fwrite t f).2 /\ (reports p t /\ (fwrite t f).1 = Z.of_nat (length t) \/
                                 p_retval p = -1 /\ (fwrite t f).1 <> Z.of_nat (length t)) \/
        f' = f /\ p_retval p = -1 /\ exists e, p_errno p = Some e /\ error t e
    | None => f' = f /\ p_retval p = -1
    end.
Proof using All.
  unfold libintl_vfprintf. rewrite (no_dollar_false _ Hdollar). assert (Hok : buffer_ok None 0 text) by done.
  pose proof (vasnprintf_delivers None 0 Hok) as Hd.
  destruct (VASNPRINTF _ _ _ _ _ _ _ _ _) as [[own n s|e s]|]; [| |done]; cycle 1.
  { eexists _, _. split; [done|]. destruct text as [t|]; simpl.
    - destruct Hd as (He & _ & Hb). split; [done|]. right. split_and!; [done|done|]. by exists e.
    - by destruct Hd as (_ & Hb). }
  destruct text as [t|]; [|done]. destruct Hd as (-> & Hc & (l & Hl & Ht) & Hu & Hb).
  destruct own as [result|]; [|by rewrite Hl in Hu]. injection Hl as ->.
  assert (Et : take (Z.to_nat (Z.of_nat (length t))) l = t).
  { rewrite Nat2Z.id. apply (f_equal (take (length t))) in Ht. rewrite take_take, Nat.min_l in Ht by lia.
    by rewrite take_app_length in Ht. }
  rewrite Et. destruct (fwrite t f) as [w f']. eexists _, _. split; [done|]. cbn [fst snd].
  destruct (Z.eqb_spec w (Z.of_nat (length t))).
  - destruct (int_result_fields (Z.of_nat (length t)) s (freed (Some l) s)) as [_ E]. rewrite E.
    split; [unfold freed; lia|]. left. split; [done|]. left. split; [by apply int_result_reports|done].
  - split; [unfold freed; simpl; lia|]. left. split; [done|]. by right.
Qed.

(** [libintl_vsprintf], whose buffer is only known to have room for the text: no byte outside it
    is written, no memory stays allocated, and if the result is not negative
    the text is in the buffer. *)
Theorem libintl_vsprintf_correct (resultbuf t : list Z)
    (Htext : text = Some t) (Hroom : (length t < length resultbuf)%nat) :
  exists p, libintl_vsprintf glibc mal garbage sz_argument sz_directive resultbuf format va = Some p /\ p_blocks p = 0 /\
    length <$> p_buffer p = Some (length resultbuf) /\
    (p_retval p = -1 \/ reports p t /\ exists l, p_buffer p = Some l /\ take (S (length t)) l = t ++ [0]).
Proof using All.
  unfold libintl_vsprintf. rewrite (no_dollar_false _ Hdollar).
  assert (Hok : buffer_ok (Some resultbuf) vsprintf_length text).
  { split; [by vm_compute|]. intros l [= <-]. right. exists t. split; [done|lia]. }
  pose proof (vasnprintf_delivers (Some resultbuf) _ Hok) as Hd. rewrite Htext in Hd.
  destruct (VASNPRINTF _ _ _ _ _ _ _ _ _) as [[[l|] n s|e s]|]; [| | |done].
  - destruct Hd as (-> & Hc & _ & Hu & Hb). eexists. split; [done|]. split_and!; [unfold freed; simpl; lia|done|by left].
  - destruct Hd as (-> & Hc & (l & Hl & Ht) & Hu & Hb). eexists. split; [done|].
    destruct (int_result_fields (Z.of_nat (length t)) s (v_blocks s)) as [E1 E2]. rewrite E1, E2.
    split_and!; [done|done|]. right. split; [by apply int_result_reports|]. by exists l.
  - destruct Hd as (He & Hu & Hb). eexists. split; [done|]. split_and!; [done|done|by left].
Qed.
End Correct.

(** ** An example *)

(** A stream is the bytes written to it. *)
#[export] Instance file_printf : SystemPrintf := {
  stream := list Z;
  vsprintf _ _ _ := None;
  system_vsnprintf _ _ _ _ := None;
  vfprintf _ _ _ := None;
  fwrite bytes f := (Z.of_nat (length bytes), f ++ bytes)
}.

Definition dollar_format : cstr := cs "%2$s=%1$d".
Definition dollar_values : list va_value := [VInt 17; VString (Some (cs "alpha"))].
Definition dollar_state : parse_state :=
  match PRINTF_PARSE 32 88 (fun _ _ => true) dollar_format with Some (Ok st) => st | _ => init_state end.

Lemma dollar_widths : Forall (width_ok (args dollar_state) dollar_values) (dirs dollar_state).
Proof.
  assert (E : map width_arg_index (dirs dollar_state) = replicate 2 ARG_NONE) by (vm_compute; reflexivity).
  apply Forall_forall. intros dp Hdp H. elim H.
  assert (Hin : width_arg_index dp ∈ map width_arg_index (dirs dollar_state)).
  { apply list_elem_of_fmap. exists dp. split; [reflexivity|exact Hdp]. }
  rewrite E in Hin. by apply elem_of_replicate_inv in Hin.
Qed.

(** The text "alpha=17" in a buffer of 7 bytes. *)
Lemma libintl_vsnprintf_correct_witness :
  (exists p, libintl_vsnprintf true (fun _ _ => true) (fun _ _ => 0) 32 88 (Some (replicate 7 0)) 7 dollar_format dollar_values = Some p /\
     p_retval p = 8 /\ p_buffer p = Some (cs "alpha=" ++ [0])) /\
  exists p, libintl_vsnprintf true (fun _ _ => true) (fun _ _ => 0) 32 88 (Some (replicate 7 0)) 7 dollar_format dollar_values = Some p /\
    p_blocks p = 0.
Proof.
  split; [eexists; split; [vm_compute; reflexivity|split; vm_compute; reflexivity]|].
  assert (H : 0 < 32) by reflexivity. assert (H' : 0 < 88) by reflexivity.
  destruct (libintl_vsnprintf_correct true (fun _ _ => true) (fun _ _ => 0) 32 88 dollar_format dollar_values
    dollar_state dollar_values H H') with (resultbuf := Some (replicate 7 0)) (maxlength := 7) as (p & E & Hb & _).
  - apply (bool_decide_unpack _). vm_compute. reflexivity.
  - vm_compute. reflexivity.
  - vm_compute. reflexivity.
  - repeat constructor; done.
  - apply dollar_widths.
  - vm_compute. tauto.
  - reflexivity.
  - reflexivity.
  - exists p. split; [exact E|exact Hb].
Defined.
