(* ===== verification/LocaleName.v ===== *)
(** * Locale names: explodename.c and the codeset normalisation of l10nflist.c

    [_nl_explode_name] splits a name [language[_territory][.codeset][@modifier]]
    in place: it overwrites the separators with NUL and returns pointers into the
    buffer.  The model keeps the buffer, a list of bytes that includes the
    terminating NUL, and represents pointers by offsets, because the function
    compares strings while the buffer is only partly cut.  Character classes
    are those of the C locale. *)

From S2P Require Import Prelude.

Open Scope Z_scope.

(** ** Character classes *)

Definition islower (c : Z) : bool := (chr "a" <=? c) && (c <=? chr "z").
Definition isupper (c : Z) : bool := (chr "A" <=? c) && (c <=? chr "Z").
Definition isalpha (c : Z) : bool := islower c || isupper c.
Definition isdigit (c : Z) : bool := (chr "0" <=? c) && (c <=? chr "9").
Definition isalnum (c : Z) : bool := isalpha c || isdigit c.
Definition tolower (c : Z) : Z := if isupper c then c + 32 else c.

(** ** _nl_normalize_codeset *)

(** The first loop: the number of alphanumeric bytes, and [only_digit]. *)
Fixpoint count_alnum (codeset : list Z) (len : Z) (only_digit : bool) : Z * bool :=
  match codeset with
  | [] => (len, only_digit)
  | c :: codeset =>
      if isalnum c then
        count_alnum codeset (len + 1) (if isalpha c then false else only_digit)
      else count_alnum codeset len only_digit
  end.

(** The second loop. *)
Fixpoint copy_alnum (codeset : list Z) : list Z :=
  match codeset with
  | [] => []
  | c :: codeset =>
      if isalpha c then tolower c :: copy_alnum codeset
      else if isdigit c then c :: copy_alnum codeset
      else copy_alnum codeset
  end.

Definition normalize_size (codeset : list Z) : Z :=
  let '(len, only_digit) := count_alnum codeset 0 true in
  (if only_digit then 3 else 0) + len + 1.

(** [_nl_normalize_codeset (codeset, name_len)]: the argument is the list of
    the [name_len] bytes; [mal] tells whether malloc succeeds. *)
Definition _nl_normalize_codeset (mal : Z -> bool) (codeset : list Z) : option cstr :=
  let '(_, only_digit) := count_alnum codeset 0 true in
  if mal (normalize_size codeset) then
    Some ((if only_digit then cs "iso" else []) ++ copy_alnum codeset)
  else None.

(** ** _nl_explode_name *)

Definition XPG_NORM_CODESET : Z := 1.
Definition XPG_CODESET : Z := 2.
Definition XPG_TERRITORY : Z := 4.
Definition XPG_MODIFIER : Z := 8.

(** The number of bytes before the first that is NUL or satisfies [stop]. *)
Fixpoint scan_until (stop : Z -> bool) (s : list Z) : nat :=
  match s with
  | [] => 0
  | c :: s => if (c =? 0) || stop c then 0 else S (scan_until stop s)
  end.

Definition never (c : Z) : bool := false.
Definition rd (b : list Z) (i : nat) : Z := nth i b 0.
(** The C string at an offset of the buffer. *)
Definition str_at (b : list Z) (i : nat) : cstr := take (scan_until never (drop i b)) (drop i b).

Definition ends_language (c : Z) : bool := (c =? chr "_") || (c =? chr "@") || (c =? chr ".").
Definition ends_territory (c : Z) : bool := (c =? chr ".") || (c =? chr "@").
Definition ends_codeset (c : Z) : bool := c =? chr "@".

Definition _nl_find_language (b : list Z) (name : nat) : nat :=
  (name + scan_until ends_language (drop name b))%nat.

(** What [*normalized_codeset] points to: after the free() it dangles. *)
Inductive heap_str := HNull | HStr (s : cstr) | HFreed.

Record exploded := Exploded {
  buffer : list Z;
  language : nat;
  modifier : option nat;
  territory : option nat;
  codeset : option nat;
  normalized_codeset : heap_str;
  mask : Z
}.

(** The territory part: the buffer, [cp], [*territory] and [mask]. *)
Definition explode_territory (b : list Z) (cp : nat) : list Z * nat * option nat * Z :=
  if rd b cp =? chr "_" then
    let b := <[cp := 0]> b in
    let territory := S cp in
    (b, (territory + scan_until ends_territory (drop territory b))%nat,
     Some territory, XPG_TERRITORY)
  else (b, cp, None, 0).

(** The codeset part; [None] is [return -1]. *)
Definition explode_codeset (mal : Z -> bool) (b : list Z) (cp : nat) (mask : Z)
    : option (list Z * nat * option nat * heap_str * Z) :=
  if rd b cp =? chr "." then
    let b := <[cp := 0]> b in
    let codeset := S cp in
    let cp := (codeset + scan_until ends_codeset (drop codeset b))%nat in
    let mask := Z.lor mask XPG_CODESET in
    if negb (Nat.eqb codeset cp) && negb (rd b codeset =? 0) then
      match _nl_normalize_codeset mal (take (cp - codeset) (drop codeset b)) with
      | None => None
      | Some n =>
          if decide (str_at b codeset = n) then
            Some (b, cp, Some codeset, HFreed, mask)
          else Some (b, cp, Some codeset, HStr n, Z.lor mask XPG_NORM_CODESET)
      end
    else Some (b, cp, Some codeset, HNull, mask)
  else Some (b, cp, None, HNull, mask).

(** The modifier part. *)
Definition explode_modifier (b : list Z) (cp : nat) (mask : Z) : list Z * option nat * Z :=
  if rd b cp =? chr "@" then
    let b := <[cp := 0]> b in
    let modifier := S cp in
    (b, Some modifier, if negb (rd b modifier =? 0) then Z.lor mask XPG_MODIFIER else mask)
  else (b, None, mask).

(** [if ( *part != NULL && ( *part)[0] == '\0') mask &= ~bit] *)
Definition clear_if_empty (b : list Z) (part : option nat) (bit mask : Z) : Z :=
  match part with
  | Some p => if rd b p =? 0 then Z.land mask (Z.lnot bit) else mask
  | None => mask
  end.

(** The locale name starts at offset 0 of the buffer.  [None] is the result -1
    (no memory for the normalized codeset). *)
Definition _nl_explode_name (mal : Z -> bool) (name : list Z) : option exploded :=
  let cp := _nl_find_language name 0 in
  if Nat.eqb cp 0 then
    (* [cp = strchr ( *language, '\0')]: no other part is looked for *)
    Some (Exploded name 0 None None None HNull 0)
  else
    let '(b, cp, territory, mask) := explode_territory name cp in
    '(b, cp, codeset, normalized_codeset, mask) ← explode_codeset mal b cp mask;
    let '(b, modifier, mask) := explode_modifier b cp mask in
    let mask := clear_if_empty b territory XPG_TERRITORY mask in
    let mask := clear_if_empty b codeset XPG_CODESET mask in
    Some (Exploded b 0 modifier territory codeset normalized_codeset mask).

Definition explode_str (s : string) : option exploded :=
  _nl_explode_name (fun _ => true) (cs s ++ [0]).
Arguments explode_str s%_string_scope.

Example explode_ex :
  explode_str "de_AT.ISO-8859-15@euro" =
  Some (Exploded (cs "de" ++ [0] ++ cs "AT" ++ [0] ++ cs "ISO-8859-15" ++ [0] ++ cs "euro" ++ [0])
          0 (Some 18%nat) (Some 3%nat) (Some 6%nat) (HStr (cs "iso885915")) 15).
Proof. reflexivity. Qed.

(** ** Lemmas on the buffer *)

Lemma rd_app pre rest : rd (pre ++ rest) (length pre) = cur rest.
Proof. unfold rd. rewrite app_nth2, Nat.sub_diag by lia. by destruct rest. Qed.

Lemma insert_at (pre : list Z) c rest v : <[length pre := v]> (pre ++ c :: rest) = pre ++ v :: rest.
Proof. induction pre as [|d pre IH]; simpl; [done|]. by f_equal. Qed.

Lemma drop_at (pre : list Z) c rest : drop (S (length pre)) (pre ++ c :: rest) = rest.
Proof. induction pre as [|d pre IH]; simpl; done. Qed.

Lemma rd_S pre c rest : rd (pre ++ c :: rest) (S (length pre)) = cur rest.
Proof.
  replace (pre ++ c :: rest) with ((pre ++ [c]) ++ rest) by (by rewrite <- app_assoc).
  replace (S (length pre)) with (length (pre ++ [c])) by (rewrite length_app; simpl; lia).
  apply rd_app.
Qed.

(** No byte of [s] is NUL or ends the part. *)
Definition clean (stop : Z -> bool) (s : cstr) : Prop := Forall (fun c => c <> 0 /\ stop c = false) s.

#[export] Instance clean_dec stop s : Decision (clean stop s).
Proof. unfold clean. apply _. Defined.

Lemma scan_until_app stop s rest :
  clean stop s -> cur rest = 0 \/ stop (cur rest) = true -> scan_until stop (s ++ rest) = length s.
Proof.
  intros Hs Hr. induction Hs as [|c s [Hc Hst] _ IH]; simpl.
  - destruct rest as [|c rest]; [done|]. simpl in *.
    destruct Hr as [-> | ->]; [done|by rewrite orb_true_r].
  - rewrite Hst, (proj2 (Z.eqb_neq c 0)) by done. simpl. by f_equal.
Qed.

Lemma str_at_spec pre c s rest : clean never s -> str_at (pre ++ c :: s ++ 0 :: rest) (S (length pre)) = s.
Proof.
  intros Hs. unfold str_at. rewrite drop_at, scan_until_app by auto. by rewrite take_app_length.
Qed.

Lemma clean_never stop s : clean stop s -> clean never s.
Proof. intros H. eapply Forall_impl; [exact H|]. by intros c [? ?]. Qed.

Definition opt (sep : Z) (o : option cstr) : list Z :=
  match o with Some s => sep :: s | None => [] end.

(** ** Normalisation *)

Definition is_norm (c : Z) : Prop := islower c = true \/ isdigit c = true.

Lemma tolower_lower c : isalpha c = true -> islower (tolower c) = true.
Proof.
  unfold isalpha, tolower, islower, isupper. change (chr "a") with 97. change (chr "z") with 122.
  change (chr "A") with 65. change (chr "Z") with 90. intros H.
  destruct ((65 <=? c) && (c <=? 90)) eqn:E.
  - breflect. apply andb_true_iff. split; apply Z.leb_le; lia.
  - by rewrite orb_false_r in H.
Qed.

Lemma copy_alnum_norm s : Forall is_norm (copy_alnum s).
Proof.
  induction s as [|c s IH]; simpl; [apply Forall_nil_2|].
  destruct (isalpha c) eqn:E; [apply Forall_cons_2; [left; by apply tolower_lower|done]|].
  destruct (isdigit c) eqn:E2; [apply Forall_cons_2; [by right|done]|done].
Qed.

Lemma lower_alpha c : islower c = true -> isalpha c = true /\ tolower c = c.
Proof.
  intros H. unfold isalpha. rewrite H. split; [done|].
  unfold tolower, islower, isupper in *. change (chr "a") with 97 in *. change (chr "z") with 122 in *.
  change (chr "A") with 65. change (chr "Z") with 90. breflect.
  destruct ((65 <=? c) && (c <=? 90)) eqn:E; breflect; lia.
Qed.

Lemma digit_not_alpha c : isdigit c = true -> isalpha c = false.
Proof.
  unfold isdigit, isalpha, islower, isupper. change (chr "a") with 97. change (chr "z") with 122.
  change (chr "A") with 65. change (chr "Z") with 90. change (chr "0") with 48. change (chr "9") with 57.
  intros H. breflect. apply orb_false_iff. split; apply andb_false_iff; left; apply Z.leb_gt; lia.
Qed.

Lemma copy_alnum_id s : Forall is_norm s -> copy_alnum s = s.
Proof.
  induction 1 as [|c s [Hc|Hc] _ IH]; simpl; [done| |].
  - destruct (lower_alpha c Hc) as [-> ->]. by f_equal.
  - rewrite (digit_not_alpha c Hc), Hc. by f_equal.
Qed.

Lemma count_alnum_spec s len only :
  count_alnum s len only = (len + Z.of_nat (length (copy_alnum s)), only && negb (existsb isalpha s)).
Proof.
  revert len only. induction s as [|c s IH]; intros len only; simpl.
  - rewrite andb_true_r. f_equal. lia.
  - unfold isalnum. destruct (isalpha c) eqn:E; simpl; [rewrite IH; simpl; f_equal; [lia|by rewrite andb_false_r]|].
    destruct (isdigit c); simpl; rewrite IH; f_equal; lia.
Qed.

Lemma alpha_copy s : existsb isalpha s = existsb isalpha (copy_alnum s).
Proof.
  induction s as [|c s IH]; simpl; [done|]. destruct (isalpha c) eqn:E; simpl.
  - by rewrite (proj1 (lower_alpha _ (tolower_lower c E))).
  - destruct (isdigit c); simpl; [by rewrite E|done].
Qed.

Lemma normalize_unfold mal s :
  _nl_normalize_codeset mal s =
  if mal (normalize_size s)
  then Some ((if existsb isalpha s then [] else cs "iso") ++ copy_alnum s) else None.
Proof.
  unfold _nl_normalize_codeset. rewrite count_alnum_spec. by destruct (existsb isalpha s).
Qed.

Lemma normalize_norm mal s n : _nl_normalize_codeset mal s = Some n -> Forall is_norm n.
Proof.
  rewrite normalize_unfold. destruct (mal _); [|done]. intros [= <-].
  apply Forall_app. split; [|apply copy_alnum_norm].
  destruct (existsb isalpha s); [apply Forall_nil_2|]. repeat constructor.
Qed.

(** The normalized codeset consists of lowercase letters and digits and
    fills exactly the memory that is allocated for it (with its NUL); it
    contains a letter; and normalisation is idempotent. *)
Theorem normalize_codeset_correct (mal : Z -> bool) (s n : list Z)
    (H : _nl_normalize_codeset mal s = Some n) :
  Forall is_norm n /\ Z.of_nat (length n) + 1 = normalize_size s /\
  existsb isalpha n = true /\ _nl_normalize_codeset (fun _ => true) n = Some n.
Proof.
  pose proof (normalize_norm _ _ _ H) as Hn.
  rewrite normalize_unfold in H. destruct (mal _); [|done].
  assert (Ha : existsb isalpha n = true).
  { injection H as <-. destruct (existsb isalpha s) eqn:E; [by rewrite alpha_copy in E|done]. }
  split_and!; [done| |done|].
  - unfold normalize_size. rewrite count_alnum_spec. simpl. injection H as <-.
    rewrite length_app. destruct (existsb isalpha s); simpl; lia.
  - rewrite normalize_unfold. cbv beta iota. rewrite Ha. by rewrite copy_alnum_id.
Qed.

Lemma normalize_codeset_correct_witness :
  _nl_normalize_codeset (fun _ => true) (cs "8859-1") = Some (cs "iso88591") /\
  Z.of_nat (length (cs "iso88591")) + 1 = normalize_size (cs "8859-1").
Proof.
  split; [reflexivity|].
  exact (proj1 (proj2 (normalize_codeset_correct (fun _ => true) (cs "8859-1") (cs "iso88591") eq_refl))).
Defined.

(** ** The parts of a locale name *)

Record parts := Parts {
  p_language : cstr;
  p_territory : option cstr;
  p_codeset : option cstr;
  p_modifier : option cstr
}.

(** Each part is free of NUL and of the separators that would end it. *)
Record parts_ok (p : parts) : Prop := PartsOk {
  ok_nonempty : p_language p <> [];
  ok_language : clean ends_language (p_language p);
  ok_territory : clean ends_territory (default [] (p_territory p));
  ok_codeset : clean ends_codeset (default [] (p_codeset p));
  ok_modifier : clean never (default [] (p_modifier p))
}.

(** The parts one after the other, with separators [u], [d] and [a]. *)
Definition layout (u d a : Z) (p : parts) : list Z :=
  p_language p ++ opt u (p_territory p) ++ opt d (p_codeset p) ++ opt a (p_modifier p) ++ [0].

Definition nonempty (o : option cstr) : bool :=
  match o with Some (_ :: _) => true | _ => false end.

(** Does the code keep the normalized codeset apart from the codeset? *)
Definition keeps_normalized (p : parts) (n : cstr) : bool :=
  match p_codeset p, p_modifier p with
  | Some [], _ | None, _ => false
  | Some c, None => negb (bool_decide (c = n))
  | Some _, Some _ => true
  end.

Definition parts_mask (p : parts) (n : cstr) : Z :=
  (if nonempty (p_territory p) then XPG_TERRITORY else 0) +
  (if nonempty (p_codeset p) then XPG_CODESET else 0) +
  (if keeps_normalized p n then XPG_NORM_CODESET else 0) +
  (if nonempty (p_modifier p) then XPG_MODIFIER else 0).

Definition is_some (o : option cstr) : bool := match o with Some _ => true | None => false end.
(** The pointer to a part that starts after [pre] and its separator. *)
Definition at_next (pre : list Z) (o : option cstr) : option nat :=
  if is_some o then Some (S (length pre)) else None.

Lemma cur_opt sep o rest : cur (opt sep o ++ rest) = if is_some o then sep else cur rest.
Proof. by destruct o. Qed.

Lemma territory_spec pre o rest :
  clean ends_territory (default [] o) ->
  cur rest = 0 \/ ends_territory (cur rest) = true ->
  explode_territory (pre ++ opt (chr "_") o ++ rest) (length pre) =
  (pre ++ opt 0 o ++ rest, length (pre ++ opt 0 o), at_next pre o,
   if is_some o then XPG_TERRITORY else 0).
Proof.
  intros Ho Hr. unfold explode_territory. rewrite rd_app, cur_opt. destruct o as [s|].
  - simpl opt. rewrite <- !app_comm_cons, Z.eqb_refl, insert_at, drop_at.
    rewrite scan_until_app by done. rewrite length_app. simpl. do 3 f_equal. lia.
  - rewrite app_nil_r. simpl.
    destruct (Z.eqb_spec (cur rest) (chr "_")) as [E|]; [|done].
    exfalso. rewrite E in Hr. destruct Hr as [H|H]; done.
Qed.

Lemma modifier_spec pre o mask :
  explode_modifier (pre ++ opt (chr "@") o ++ [0]) (length pre) mask =
  (pre ++ opt 0 o ++ [0], at_next pre o,
   if negb (cur (default [] o ++ [0]) =? 0) then Z.lor mask XPG_MODIFIER else mask).
Proof.
  unfold explode_modifier. rewrite rd_app, cur_opt. destruct o as [s|].
  - simpl opt. by rewrite <- !app_comm_cons, Z.eqb_refl, insert_at, rd_S.
  - done.
Qed.

Lemma norm_not_at n : Forall is_norm n -> chr "@" ∉ n.
Proof.
  intros Hn Hin. rewrite Forall_forall in Hn. apply Hn in Hin. by destruct Hin.
Qed.

(** What the codeset stage leaves in [*normalized_codeset], for the normalized name [n]. *)
Definition norm_ptr (p : parts) (n : cstr) : heap_str :=
  if keeps_normalized p n then HStr n else if nonempty (p_codeset p) then HFreed else HNull.

Lemma codeset_spec mal pre o m mask :
  clean ends_codeset (default [] o) -> clean never (default [] m) ->
  let p := Parts [] None o m in
  explode_codeset mal (pre ++ opt (chr ".") o ++ opt (chr "@") m ++ [0]) (length pre) mask =
  let done n := Some (pre ++ opt 0 o ++ opt (chr "@") m ++ [0], length (pre ++ opt 0 o), at_next pre o,
      norm_ptr p n,
      Z.lor (Z.lor mask (if is_some o then XPG_CODESET else 0))
            (if keeps_normalized p n then XPG_NORM_CODESET else 0)) in
  if nonempty o then _nl_normalize_codeset mal (default [] o) ≫= done else done [].
Proof.
  intros Ho Hm p. unfold explode_codeset. rewrite rd_app, cur_opt. destruct o as [s|]; cycle 1.
  { cbn [is_some opt nonempty]. rewrite cur_opt, !Z.lor_0_r, app_nil_r.
    destruct m; done. }
  cbn [is_some opt nonempty at_next default] in *. rewrite <- !app_comm_cons, Z.eqb_refl. cbv zeta.
  rewrite insert_at, !drop_at, rd_S.
  rewrite (scan_until_app ends_codeset s) by (try done; destruct m; auto).
  replace (S (length pre) + length s - S (length pre))%nat with (length s) by lia.
  rewrite take_app_length.
  assert (Hlen : (S (length pre) + length s)%nat = length (pre ++ 0 :: s))
    by (rewrite length_app; simpl; lia).
  destruct s as [|c s].
  { rewrite <- Hlen. simpl. by rewrite Nat.add_0_r, Nat.eqb_refl, Z.lor_0_r. }
  rewrite (proj2 (Nat.eqb_neq _ _)) by (simpl; lia). cbn [negb andb app cur].
  apply Forall_cons in Ho as Ho'. destruct Ho' as [[Hc _] _].
  rewrite (proj2 (Z.eqb_neq c 0) Hc). cbn [negb].
  change (id (c :: s)) with (c :: s).
  destruct (_nl_normalize_codeset mal (c :: s)) as [n|] eqn:En; [|done]. cbn [mbind option_bind].
  replace (str_at (pre ++ 0 :: c :: s ++ opt (chr "@") m ++ [0]) (S (length pre)))
    with ((c :: s) ++ opt (chr "@") m).
  2: { rewrite (app_assoc _ _ [0]), app_comm_cons. symmetry. apply str_at_spec.
       apply Forall_app. split; [by eapply clean_never|]. destruct m; [|done]. by apply Forall_cons_2. }
  unfold norm_ptr. rewrite Hlen. cbn [keeps_normalized p_codeset p_modifier p nonempty].
  destruct m as [m|]; cbn [opt].
  - rewrite decide_False; [done|]. intros Heq.
    apply (norm_not_at n); [by eapply normalize_norm|]. rewrite <- Heq. apply elem_of_app. right.
    apply list_elem_of_here.
  - rewrite app_nil_r. destruct (decide (c :: s = n)) as [<-|Hne].
    + rewrite bool_decide_eq_true_2 by done. simpl. by rewrite Z.lor_0_r.
    + by rewrite bool_decide_eq_false_2.
Qed.

(** ** The theorem *)

Lemma find_language_spec p :
  parts_ok p -> _nl_find_language (layout (chr "_") (chr ".") (chr "@") p) 0 = length (p_language p).
Proof.
  intros [_ Hl _ _ _]. unfold _nl_find_language, layout. rewrite drop_0.
  apply scan_until_app; [done|]. rewrite !cur_opt.
  destruct (p_territory p), (p_codeset p), (p_modifier p); simpl; auto.
Qed.

Lemma cur_part o stop rest :
  clean stop (default [] o) -> (cur (default [] o ++ 0 :: rest) =? 0) = negb (nonempty o).
Proof.
  destruct o as [[|c s]|]; try done. intros H. simpl in *.
  apply Forall_cons in H as [[Hc _] _]. by apply Z.eqb_neq.
Qed.

Lemma clear_part b pre o stop rest bit mask :
  clean stop (default [] o) -> b = pre ++ opt 0 o ++ 0 :: rest ->
  clear_if_empty b (at_next pre o) bit mask =
  if is_some o && negb (nonempty o) then Z.land mask (Z.lnot bit) else mask.
Proof.
  intros Ho ->. destruct o as [s|]; [|done]. cbn [at_next is_some clear_if_empty opt andb].
  rewrite <- app_comm_cons, rd_S.
  change s with (default [] (Some s)) at 1. by rewrite (cur_part (Some s) stop) by done.
Qed.

(** The NUL that follows a part is the separator of the next one or the end. *)
Lemma layout_nul o o' : exists rest, opt 0 o ++ opt 0 o' ++ [0] = 0 :: rest.
Proof. destruct o, o'; simpl; eauto. Qed.

Lemma explode_mask (terr cods norm mods : bool) (t c : bool) :
  let m0 := if t then XPG_TERRITORY else 0 in
  let m1 := Z.lor (Z.lor m0 (if c then XPG_CODESET else 0)) (if norm then XPG_NORM_CODESET else 0) in
  let m2 := if mods then Z.lor m1 XPG_MODIFIER else m1 in
  let m3 := if t && negb terr then Z.land m2 (Z.lnot XPG_TERRITORY) else m2 in
  (terr = true -> t = true) -> (cods = true -> c = true) ->
  (if c && negb cods then Z.land m3 (Z.lnot XPG_CODESET) else m3) =
  (if terr then XPG_TERRITORY else 0) + (if cods then XPG_CODESET else 0) +
  (if norm then XPG_NORM_CODESET else 0) + (if mods then XPG_MODIFIER else 0).
Proof.
  destruct terr, cods, norm, mods, t, c; intros; try reflexivity;
    (try by specialize (H eq_refl)); by specialize (H0 eq_refl).
Qed.

Lemma nonempty_is_some o : nonempty o = true -> is_some o = true.
Proof. by destruct o. Qed.

(** The outcome for a name with parts [p] and normalized codeset [n]. *)
Definition explosion (p : parts) (n : cstr) : exploded :=
  Exploded (layout 0 0 0 p) 0
    (at_next (p_language p ++ opt 0 (p_territory p) ++ opt 0 (p_codeset p)) (p_modifier p))
    (at_next (p_language p) (p_territory p))
    (at_next (p_language p ++ opt 0 (p_territory p)) (p_codeset p))
    (norm_ptr p n) (parts_mask p n).

Lemma explode_name_spec mal p :
  parts_ok p ->
  _nl_explode_name mal (layout (chr "_") (chr ".") (chr "@") p) =
  if nonempty (p_codeset p)
  then explosion p <$> _nl_normalize_codeset mal (default [] (p_codeset p))
  else Some (explosion p []).
Proof.
  intros Hp. unfold _nl_explode_name. rewrite find_language_spec by done.
  destruct Hp as [Hne Hl Ht Hc Hm]. destruct p as [l t c m]. cbn [p_language p_territory p_codeset p_modifier] in *.
  rewrite (proj2 (Nat.eqb_neq _ 0)) by (by destruct l). unfold layout. cbn [p_language p_territory p_codeset p_modifier].
  rewrite territory_spec by (try done; rewrite !cur_opt; destruct c, m; simpl; auto).
  rewrite (app_assoc l (opt 0 t)), codeset_spec by done. cbv zeta.
  assert (Hfin : forall n,
    (let '(b, modifier, mask) := explode_modifier
        ((l ++ opt 0 t) ++ opt 0 c ++ opt (chr "@") m ++ [0]) (length ((l ++ opt 0 t) ++ opt 0 c))
        (Z.lor (Z.lor (if is_some t then XPG_TERRITORY else 0) (if is_some c then XPG_CODESET else 0))
           (if keeps_normalized (Parts [] None c m) n then XPG_NORM_CODESET else 0)) in
     Some (Exploded b 0 modifier (at_next l t) (at_next (l ++ opt 0 t) c)
       (norm_ptr (Parts [] None c m) n)
       (clear_if_empty b (at_next (l ++ opt 0 t) c) XPG_CODESET
          (clear_if_empty b (at_next l t) XPG_TERRITORY mask)))) = Some (explosion (Parts l t c m) n)).
  { intros n. rewrite (app_assoc (l ++ opt 0 t)), modifier_spec.
    destruct (layout_nul c m) as [r1 E1]. destruct (layout_nul None m) as [r2 E2]. simpl in E2.
    rewrite (clear_part _ _ c ends_codeset r2) by (try done; by rewrite <- !app_assoc, E2).
    rewrite (clear_part _ _ t ends_territory r1) by (try done; by rewrite <- !app_assoc, E1).
    rewrite (cur_part m never []), negb_involutive by done.
    rewrite explode_mask by apply nonempty_is_some.
    unfold explosion, layout, parts_mask. simpl. by rewrite <- !app_assoc. }
  destruct (nonempty c); [|exact (Hfin [])].
  destruct (_nl_normalize_codeset mal (default [] c)) as [n|]; [exact (Hfin n)|done].
Qed.

(** Every name that does not start with a separator has such parts. *)
Lemma split_part stop s :
  clean never s -> exists a b, s = a ++ b /\ clean stop a /\ (b = [] \/ stop (cur b) = true).
Proof.
  induction 1 as [|c s [Hc _] Hs (a & b & -> & Ha & Hb)].
  - exists [], []. split_and!; auto. apply Forall_nil_2.
  - destruct (stop c) eqn:E.
    + exists [], (c :: a ++ b). split_and!; auto. apply Forall_nil_2.
    + exists (c :: a), b. split_and!; auto. by apply Forall_cons_2.
Qed.

(** The optional part after separator [sep]: present when [b] starts with it. *)
Lemma split_opt stop sep b :
  clean never b ->
  exists o r, b = opt sep o ++ r /\ clean stop (default [] o) /\ clean never r /\
    (if is_some o then r = [] \/ stop (cur r) = true else b = [] \/ cur b <> sep).
Proof.
  intros Hb. destruct b as [|c b]; [exists None, []; split_and!; simpl; auto; by apply Forall_nil_2|].
  destruct (decide (c = sep)) as [->|Hc].
  - apply Forall_cons in Hb as [_ Hb]. destruct (split_part stop b Hb) as (s & r & -> & Hs & Hr).
    apply Forall_app in Hb as [_ Hb]. by exists (Some s), r.
  - exists None, (c :: b). split_and!; simpl; auto. by apply Forall_nil_2.
Qed.

Lemma parts_exist s :
  clean never s -> s <> [] -> ends_language (cur s) = false ->
  exists p, parts_ok p /\ s ++ [0] = layout (chr "_") (chr ".") (chr "@") p.
Proof.
  intros Hs Hne Hcur. destruct (split_part ends_language s Hs) as (l & b & -> & Hl & Hb).
  assert (Hl0 : l <> []).
  { intros ->. simpl in *. destruct Hb as [->|Hb]; [done|congruence]. }
  apply Forall_app in Hs as [_ Hs].
  destruct (split_opt ends_territory (chr "_") b Hs) as (t & r1 & -> & Ht & Hs1 & C1).
  destruct (split_opt ends_codeset (chr ".") r1 Hs1) as (c & r2 & -> & Hc & Hs2 & C2).
  destruct (split_opt never (chr "@") r2 Hs2) as (m & r3 & -> & Hm & Hs3 & C3).
  exists (Parts l t c m). split; [by split|]. unfold layout; simpl.
  assert (r3 = []) as ->; [|by rewrite app_nil_r, <- !app_assoc].
  clear - Hb C1 C2 C3. unfold ends_language, ends_territory, ends_codeset, never in *.
  destruct r3 as [|x r3]; [done|]. exfalso.
  destruct m; [by destruct C3|]. destruct C3 as [?|H3]; [done|]. simpl in *.
  destruct c; [destruct C2; breflect; done|]. destruct C2 as [?|H2]; [done|]. simpl in *.
  destruct t; [destruct C1 as [?|H1]; [done|]; apply orb_true_iff in H1 as [H1|H1]; breflect; done|].
  destruct C1 as [?|H1]; [done|]. simpl in *. destruct Hb as [?|Hb]; [done|].
  rewrite !orb_true_iff in Hb. destruct Hb as [[Hb|Hb]|Hb]; breflect; done.
Qed.

Lemma str_at_0 s rest : clean never s -> str_at (s ++ 0 :: rest) 0 = s.
Proof.
  intros Hs. unfold str_at. rewrite drop_0, scan_until_app by auto. by rewrite take_app_length.
Qed.

Lemma str_at_part pre o stop rest b :
  clean stop (default [] o) -> b = pre ++ opt 0 o ++ 0 :: rest -> str_at b <$> at_next pre o = o.
Proof.
  intros Ho ->. destruct o as [s|]; [|done]. cbn [at_next is_some opt].
  change (Some (str_at (pre ++ 0 :: s ++ 0 :: rest) (S (length pre))) = Some s).
  f_equal. apply str_at_spec. by eapply clean_never.
Qed.

Lemma explosion_strings p n :
  parts_ok p -> let e := explosion p n in
  str_at (buffer e) (language e) = p_language p /\
  str_at (buffer e) <$> territory e = p_territory p /\
  str_at (buffer e) <$> codeset e = p_codeset p /\
  str_at (buffer e) <$> modifier e = p_modifier p.
Proof.
  intros [_ Hl Ht Hc Hm]. destruct p as [l t c m]. unfold explosion, layout. simpl in *.
  destruct (layout_nul c m) as [r1 E1]. destruct (layout_nul None m) as [r2 E2]. simpl in E2.
  destruct (layout_nul None None) as [r3 E3]. simpl in E3.
  split_and!.
  - assert (exists r, opt 0 t ++ opt 0 c ++ opt 0 m ++ [0] = 0 :: r) as [r ->].
    { destruct t; simpl; [eauto|]. eauto. }
    apply str_at_0. by eapply clean_never.
  - apply (str_at_part _ _ ends_territory r1); [done|]. by rewrite E1.
  - apply (str_at_part _ _ ends_codeset r2); [done|]. by rewrite <- !app_assoc, E2.
  - apply (str_at_part _ _ never []); [done|]. by rewrite <- !app_assoc.
Qed.

(** [_nl_explode_name] on any locale name: a name that is empty or starts
    with a separator is returned whole, with mask 0.  Any other name is
    [language[_territory][.codeset][@modifier]] in exactly the way its separators
    say, and the pointers that are returned read as exactly these parts; the mask
    has the bits of the non-empty parts, and the bit of the normalized codeset
    when that differs from the codeset or when there is a modifier.  Only the
    allocation for the normalized codeset can make it fail. *)
Theorem explode_name_correct (mal : Z -> bool) (s : cstr) (Hs : clean never s) :
  (s = [] \/ ends_language (cur s) = true) /\
    _nl_explode_name mal (s ++ [0]) = Some (Exploded (s ++ [0]) 0 None None None HNull 0)
  \/
  exists p, parts_ok p /\ s ++ [0] = layout (chr "_") (chr ".") (chr "@") p /\
    match _nl_explode_name mal (s ++ [0]) with
    | Some e =>
        str_at (buffer e) (language e) = p_language p /\
        str_at (buffer e) <$> territory e = p_territory p /\
        str_at (buffer e) <$> codeset e = p_codeset p /\
        str_at (buffer e) <$> modifier e = p_modifier p /\
        exists n,
          (nonempty (p_codeset p) = true ->
           _nl_normalize_codeset mal (default [] (p_codeset p)) = Some n) /\
          normalized_codeset e = norm_ptr p n /\ mask e = parts_mask p n
    | None =>
        nonempty (p_codeset p) = true /\
        mal (normalize_size (default [] (p_codeset p))) = false
    end.
Proof.
  assert (Hw : (s = [] \/ ends_language (cur s) = true) \/ s <> [] /\ ends_language (cur s) = false)
    by (destruct s as [|c s]; [by left; left|]; destruct (ends_language (cur (c :: s))) eqn:E; auto).
  destruct Hw as [Hw|[Hne Hcur]].
  - left. split; [done|]. unfold _nl_explode_name, _nl_find_language.
    rewrite drop_0. change (s ++ [0]) with ([] ++ (s ++ [0])) at 1.
    rewrite scan_until_app; [done|apply Forall_nil_2; done|].
    destruct Hw as [->|Hw]; [by left|]. right. by destruct s.
  - right. destruct (parts_exist s Hs Hne Hcur) as (p & Hp & E). exists p. split_and!; [done..|].
    rewrite E, explode_name_spec by done. destruct (nonempty (p_codeset p)) eqn:En.
    + destruct (_nl_normalize_codeset mal (default [] (p_codeset p))) as [n|] eqn:Eq; simpl.
      * destruct (explosion_strings p n Hp) as (?&?&?&?). split_and!; try done. by exists n.
      * rewrite normalize_unfold in Eq. by destruct (mal _).
    + destruct (explosion_strings p [] Hp) as (?&?&?&?). split_and!; try done. by exists [].
Qed.

Lemma explode_name_correct_witness :
  clean never (cs "sr_RS@latin") /\
  exists p, parts_ok p /\ cs "sr_RS@latin" ++ [0] = layout (chr "_") (chr ".") (chr "@") p /\
    option_map mask (explode_str "sr_RS@latin") = Some (parts_mask p []).
Proof.
  assert (H : clean never (cs "sr_RS@latin")) by (apply (bool_decide_unpack _); vm_compute; reflexivity).
  split; [exact H|].
  destruct (explode_name_correct (fun _ => true) (cs "sr_RS@latin") H)
    as [[[H1|H1] _]|(p & Hp & E & Hx)]; [discriminate H1..|].
  exists p. split; [exact Hp|]. split; [exact E|].
  destruct Hx as (_ & _ & Hc & _ & n & _ & _ & Hm). simpl in Hc, Hm |- *.
  unfold parts_mask, keeps_normalized in Hm |- *. rewrite <- Hc in Hm |- *. congruence.
Defined.

(** The comparison of the codeset with its normalized form is made before
    the modifier is cut off: a codeset that is already normalized sets the bit of
    the normalized codeset exactly when a modifier follows. *)
Theorem explode_name_modifier_quirk (p : parts) (e : exploded) (Hp : parts_ok p)
    (Hn : _nl_normalize_codeset (fun _ => true) (default [] (p_codeset p)) = p_codeset p)
    (He : _nl_explode_name (fun _ => true) (layout (chr "_") (chr ".") (chr "@") p) = Some e) :
  Z.testbit (mask e) 0 = is_some (p_modifier p).
Proof.
  rewrite explode_name_spec, Hn in He by done. destruct p as [l t c m]. simpl in *.
  destruct c as [[|c s]|]; simpl in *; [done| |done]. injection He as <-. simpl.
  unfold parts_mask, keeps_normalized. simpl. destruct m as [m|]; simpl.
  - by destruct t as [[|? ?]|], m as [|? ?].
  - rewrite bool_decide_eq_true_2 by done. by destruct t as [[|? ?]|].
Qed.

Lemma explode_name_modifier_quirk_witness :
  Z.testbit (default 0 (option_map mask (explode_str "de_DE.utf8@euro"))) 0 = true.
Proof.
  refine (explode_name_modifier_quirk (Parts (cs "de") (Some (cs "DE")) (Some (cs "utf8")) (Some (cs "euro")))
    (explosion (Parts (cs "de") (Some (cs "DE")) (Some (cs "utf8")) (Some (cs "euro"))) (cs "utf8")) _ _ _).
  - split; [done|apply (bool_decide_unpack _); vm_compute; reflexivity..].
  - reflexivity.
  - reflexivity.
Defined.
