(* ===== verification/LocalePlatform.v ===== *)
(** * Locale names of the platform: localename.c

    The conversion of the locale names of Mac OS X and of Windows to Unix names, in the
    buffer they are in, and the order in which the name of a locale category is looked up.  The
    values that come from the operating system are arguments.  [None] is an access
    outside the buffer. *)

From S2P Require Import Prelude.

Open Scope Z_scope.

(** ** Names of Mac OS X *)

Definition table_of (l : list (string * string)) : list (cstr * cstr) := map (fun '(a, b) => (cs a, cs b)) l.

(** English names. *)
Definition legacy_table : list (cstr * cstr) := table_of [
  ("Afrikaans", "af"); ("Albanian", "sq"); ("Amharic", "am"); ("Arabic", "ar"); ("Armenian", "hy");
  ("Assamese", "as"); ("Aymara", "ay"); ("Azerbaijani", "az"); ("Basque", "eu"); ("Belarusian", "be");
  ("Belorussian", "be"); ("Bengali", "bn"); ("Brazilian Portugese", "pt_BR");
  ("Brazilian Portuguese", "pt_BR"); ("Breton", "br"); ("Bulgarian", "bg"); ("Burmese", "my");
  ("Byelorussian", "be"); ("Catalan", "ca"); ("Chewa", "ny"); ("Chichewa", "ny"); ("Chinese", "zh");
  ("Chinese, Simplified", "zh_CN"); ("Chinese, Traditional", "zh_TW");
  ("Chinese, Tradtional", "zh_TW"); ("Croatian", "hr"); ("Czech", "cs"); ("Danish", "da");
  ("Dutch", "nl"); ("Dzongkha", "dz"); ("English", "en"); ("Esperanto", "eo"); ("Estonian", "et");
  ("Faroese", "fo"); ("Farsi", "fa"); ("Finnish", "fi"); ("Flemish", "nl_BE"); ("French", "fr");
  ("Galician", "gl"); ("Gallegan", "gl"); ("Georgian", "ka"); ("German", "de"); ("Greek", "el");
  ("Greenlandic", "kl"); ("Guarani", "gn"); ("Gujarati", "gu"); ("Hawaiian", "haw"); ("Hebrew", "he");
  ("Hindi", "hi"); ("Hungarian", "hu"); ("Icelandic", "is"); ("Indonesian", "id"); ("Inuktitut", "iu");
  ("Irish", "ga"); ("Italian", "it"); ("Japanese", "ja"); ("Javanese", "jv"); ("Kalaallisut", "kl");
  ("Kannada", "kn"); ("Kashmiri", "ks"); ("Kazakh", "kk"); ("Khmer", "km"); ("Kinyarwanda", "rw");
  ("Kirghiz", "ky"); ("Korean", "ko"); ("Kurdish", "ku"); ("Latin", "la"); ("Latvian", "lv");
  ("Lithuanian", "lt"); ("Macedonian", "mk"); ("Malagasy", "mg"); ("Malay", "ms"); ("Malayalam", "ml");
  ("Maltese", "mt"); ("Manx", "gv"); ("Marathi", "mr"); ("Moldavian", "mo"); ("Mongolian", "mn");
  ("Nepali", "ne"); ("Norwegian", "nb"); ("Nyanja", "ny"); ("Nynorsk", "nn"); ("Oriya", "or");
  ("Oromo", "om"); ("Panjabi", "pa"); ("Pashto", "ps"); ("Persian", "fa"); ("Polish", "pl");
  ("Portuguese", "pt"); ("Portuguese, Brazilian", "pt_BR"); ("Punjabi", "pa"); ("Pushto", "ps");
  ("Quechua", "qu"); ("Romanian", "ro"); ("Ruanda", "rw"); ("Rundi", "rn"); ("Russian", "ru");
  ("Sami", "se_NO"); ("Sanskrit", "sa"); ("Scottish", "gd"); ("Serbian", "sr");
  ("Simplified Chinese", "zh_CN"); ("Sindhi", "sd"); ("Sinhalese", "si"); ("Slovak", "sk");
  ("Slovenian", "sl"); ("Somali", "so"); ("Spanish", "es"); ("Sundanese", "su"); ("Swahili", "sw");
  ("Swedish", "sv"); ("Tagalog", "tl"); ("Tajik", "tg"); ("Tajiki", "tg"); ("Tamil", "ta");
  ("Tatar", "tt"); ("Telugu", "te"); ("Thai", "th"); ("Tibetan", "bo"); ("Tigrinya", "ti");
  ("Tongan", "to"); ("Traditional Chinese", "zh_TW"); ("Turkish", "tr"); ("Turkmen", "tk");
  ("Uighur", "ug"); ("Ukrainian", "uk"); ("Urdu", "ur"); ("Uzbek", "uz"); ("Vietnamese", "vi");
  ("Welsh", "cy"); ("Yiddish", "yi")]%string.

(** Names with language tags. *)
Definition langtag_table : list (cstr * cstr) := table_of [
  ("az-Latn", "az"); ("ga-dots", "ga"); ("mn-Cyrl", "mn"); ("ms-Latn", "ms"); ("tg-Cyrl", "tg");
  ("tt-Cyrl", "tt"); ("zh-Hans", "zh_CN"); ("zh-Hant", "zh_TW")]%string.

(** Names of scripts. *)
Definition script_table : list (cstr * cstr) := table_of [
  ("Arab", "arabic"); ("Cyrl", "cyrillic"); ("Mong", "mongolian")]%string.

(** The loop of the binary search, from [i1] and [i2]; it is the same for each table. *)
Fixpoint search_loop (fuel : nat) (key : cstr) (table : list (cstr * cstr)) (i1 i2 : nat) : option nat :=
  match fuel with
  | O => None
  | S fuel =>
      if (1 <? i2 - i1)%nat then
        let i := Nat.div2 (i1 + i2) in
        p ← table !! i;
        if strcmp key (fst p) <? 0 then search_loop fuel key table i1 i else search_loop fuel key table i i2
      else Some i1
  end.

(** The entry for [key]; the inner [None] if there is none. *)
Definition search_table (key : cstr) (table : list (cstr * cstr)) : option (option cstr) :=
  i1 ← search_loop (length table) key table 0 (length table);
  p ← table !! i1;
  Some (if strcmp key (fst p) =? 0 then Some (snd p) else None).

(** strcpy() to [name + at]. *)
Definition strcpy (name : list Z) (at_ : nat) (s : cstr) : option (list Z) :=
  if (at_ + length s <? length name)%nat
  then Some (take at_ name ++ s ++ 0 :: drop (at_ + length s + 1) name) else None.

(** [for (p = name; *p != '\0'; p++) if ( *p == '-') *p = '_';] *)
Fixpoint dash_loop (name : list Z) : option (list Z) :=
  match name with
  | [] => None
  | c :: rest =>
      if c =? 0 then Some name
      else rest ← dash_loop rest; Some ((if c =? chr "-" then chr "_" else c) :: rest)
  end.

(** Step 2: a script after the language. *)
Definition script_step (name : list Z) : option (list Z) :=
  tag ← search_table (c_string name) langtag_table;
  match tag with
  | Some unixy => strcpy name 0 unixy
  | None =>
      script ← search_table (c_string (drop 3 name)) script_table;
      match script with
      | Some unixy => strcpy (<[2%nat := chr "@"]> name) 3 unixy
      | None => dash_loop name
      end
  end.

(** The function of Mac OS X. *)
Definition gl_locale_name_canonicalize (name : list Z) : option (list Z) :=
  c ← name !! 0%nat;
  legacy ← (if (chr "A" <=? c) && (c <=? chr "Z") then search_table (c_string name) legacy_table else Some None);
  match legacy with
  | Some unixy => strcpy name 0 unixy
  | None =>
      if (length (c_string name) =? 7)%nat && (nth 2 name 0 =? chr "-") then script_step name
      else dash_loop name
  end.

(** ** Names of Windows *)

(** The inner loop: upper case up to the next dash, which ends the name. *)
Fixpoint upper_loop (name : list Z) : option (list Z) :=
  match name with
  | [] => None
  | c :: rest =>
      if c =? 0 then Some name
      else
        let c := if (chr "a" <=? c) && (c <=? chr "z") then c + (chr "A" - chr "a") else c in
        if c =? chr "-" then Some (0 :: rest)
        else rest ← upper_loop rest; Some (c :: rest)
  end.

(** The function of Windows. *)
Fixpoint windows_canonicalize (name : list Z) : option (list Z) :=
  match name with
  | [] => None
  | c :: rest =>
      if c =? 0 then Some name
      else if c =? chr "-" then rest ← upper_loop rest; Some (chr "_" :: rest)
      else rest ← windows_canonicalize rest; Some (c :: rest)
  end.

(** ** The name of a locale category *)

Section Names.
(** getenv(); setlocale (category, NULL), if the C library keeps names
    (HAVE_LOCALE_NULL); the tests for Mac OS X and for Cygwin. *)
Context (getenv : cstr -> option cstr) (setlocale : option (Z -> option cstr)) (macosx cygwin : bool).

(** A variable that is set and not empty. *)
Definition getenv_nonempty (name : cstr) : option cstr :=
  match getenv name with Some ((_ :: _) as s) => Some s | _ => None end.

Definition gl_locale_name_environ (categoryname : cstr) : option cstr :=
  match getenv_nonempty (cs "LC_ALL") with
  | Some retval => Some retval
  | None =>
      match getenv_nonempty categoryname with
      | Some retval => Some retval
      | None =>
          match getenv_nonempty (cs "LANG") with
          | Some retval =>
              if (negb macosx || negb (strcmp retval (cs "UTF-8") =? 0)) &&
                 (negb cygwin || negb (strcmp retval (cs "C.UTF-8") =? 0))
              then Some retval else None
          | None => None
          end
      end
  end.

Definition gl_locale_name_posix (category : Z) (categoryname : cstr) : option cstr :=
  match setlocale with
  | Some setlocale => setlocale category
  | None => gl_locale_name_environ categoryname
  end.

(** The default of Mac OS X, with its cache: [identifier] is what CFStringGetCString()
    writes into [namebuf], [mal] whether strdup() succeeds. *)
Definition default_of_macosx (identifier : option (list Z)) (mal : bool) (cached_localename : option cstr)
    : option (cstr * option cstr) :=
  match cached_localename with
  | Some s => Some (s, cached_localename)
  | None =>
      s ← match identifier with
          | Some namebuf => namebuf ← gl_locale_name_canonicalize namebuf; Some (if mal then Some (c_string namebuf) else None)
          | None => Some None
          end;
      let s := default (cs "C") s in
      Some (s, Some s)
  end.

(** [gl_locale_name], with the result of [gl_locale_name_thread] and the default. *)
Definition gl_locale_name (thread : option cstr) (default_name : cstr) (category : Z) (categoryname : cstr) : cstr :=
  match thread with
  | Some retval => retval
  | None =>
      match gl_locale_name_posix category categoryname with
      | Some retval => retval
      | None => default_name
      end
  end.
End Names.
