(* ===== verification/LocalePlatformSpec.v ===== *)
(** * What the conversion of locale names promises

    [canonical] is the Unix name of a name of Mac OS X, as a function on strings. *)

From S2P Require Import Prelude LocalePlatform.

Open Scope Z_scope.

(** ** The binary search *)

(** The entry for [key] in a list of pairs. *)
Fixpoint assoc (key : cstr) (table : list (cstr * cstr)) : option cstr :=
  match table with
  | [] => None
  | (k, v) :: table => if decide (key = k) then Some v else assoc key table
  end.

Definition sorted_keys (table : list (cstr * cstr)) : Prop :=
  forall i j p q, (i < j)%nat -> table !! i = Some p -> table !! j = Some q -> strcmp p.1 q.1 < 0.

Definition wf_keys (table : list (cstr * cstr)) : Prop := Forall (fun p => wf_cstr p.1) table.

(** Decides both. *)
Fixpoint sorted_table (table : list (cstr * cstr)) : bool :=
  match table with
  | [] => true
  | p :: rest => forallb (fun q => strcmp p.1 q.1 <? 0) rest && sorted_table rest
  end.

Lemma sorted_table_spec table : sorted_table table = true -> sorted_keys table.
Proof.
  induction table as [|p rest IH]; intros H i j q r Hij Hi Hj; [done|]. cbn [sorted_table] in H.
  apply andb_true_iff in H as [H1 H2]. destruct j as [|j]; [lia|]. cbn in Hj. destruct i as [|i]; cbn in Hi.
  - injection Hi as ->. rewrite forallb_forall in H1. apply Z.ltb_lt, H1. apply list_elem_of_In. by eapply list_elem_of_lookup_2.
  - apply (IH H2 i j); [lia|done|done].
Qed.

Lemma assoc_spec key table v : assoc key table = Some v -> exists i, table !! i = Some (key, v).
Proof.
  induction table as [|[k u] table IH]; [done|]. cbn [assoc]. case_decide as E.
  - intros [= ->]. exists 0%nat. by subst.
  - intros H. destruct (IH H) as [i Hi]. by exists (S i).
Qed.

Lemma assoc_none key table : assoc key table = None -> forall i p, table !! i = Some p -> p.1 <> key.
Proof.
  induction table as [|[k u] table IH]; [done|]. cbn [assoc]. case_decide as E; [done|].
  intros H [|i] p; cbn; [intros [= <-]; cbn; congruence|by apply IH].
Qed.

Section Search.
Context (key : cstr) (table : list (cstr * cstr)) (Hkey : wf_cstr key) (Hwf : wf_keys table) (Hs : sorted_keys table).

Lemma key_wf i p : table !! i = Some p -> wf_cstr p.1.
Proof using Hwf. exact (proj1 (Forall_lookup _ _) Hwf i p). Qed.

(** If [key] occurs it is between [i1] and [i2]. *)
Lemma search_loop_spec fuel i1 i2 : (i1 < i2 <= length table)%nat -> (i2 - i1 <= fuel)%nat ->
  (forall i p, table !! i = Some p -> p.1 = key -> (i1 <= i < i2)%nat) ->
  exists i, search_loop fuel key table i1 i2 = Some i /\ (i < length table)%nat /\
    forall j p, table !! j = Some p -> p.1 = key -> j = i.
Proof using Hkey Hwf Hs.
  revert i1 i2. induction fuel as [|fuel IH]; intros i1 i2 Hi Hf Hin; [lia|]. cbn [search_loop].
  destruct (Nat.ltb_spec 1 (i2 - i1)) as [Hlt|Hge].
  2: { exists i1. split_and!; [done|lia|]. intros j p Hj E. specialize (Hin j p Hj E). lia. }
  set (i := Nat.div2 (i1 + i2)). assert (Hmid : (i1 < i < i2)%nat).
  { unfold i. pose proof (Nat.div2_double i1). pose proof (Nat.div2_odd (i1 + i2)). destruct (Nat.odd (i1 + i2)); cbn in *; lia. }
  destruct (lookup_lt_is_Some_2 table i) as [p Hp]; [lia|]. rewrite Hp. cbn [mbind option_bind].
  destruct (Z.ltb_spec (strcmp key (fst p)) 0) as [Hneg|Hpos].
  - apply IH; [lia|lia|]. intros j q Hj E. specialize (Hin j q Hj E). split; [lia|].
    destruct (Nat.lt_ge_cases j i) as [|Hji]; [done|]. assert (Hc : strcmp p.1 q.1 < 0 \/ p = q).
    { destruct (decide (i = j)) as [->|]; [right; congruence|left; apply (Hs i j); [lia|done|done]]. }
    rewrite <- E in Hneg. pose proof (strcmp_sym p.1 q.1). destruct Hc as [Hc| ->]; [lia|]. rewrite strcmp_refl in Hneg. lia.
  - apply IH; [lia|lia|]. intros j q Hj E. specialize (Hin j q Hj E). split; [|lia].
    destruct (Nat.lt_ge_cases j i) as [Hji|]; [|done]. pose proof (Hs j i q p Hji Hj Hp). rewrite E in *. lia.
Qed.

Lemma search_table_spec : table <> [] -> search_table key table = Some (assoc key table).
Proof using Hkey Hwf Hs.
  intros Hne. assert (Hlen : (0 < length table)%nat) by (destruct table; [done|cbn; lia]). unfold search_table.
  destruct (search_loop_spec (length table) 0 (length table)) as (i & -> & Hi & Huniq); [lia|lia| |].
  { intros i p Hi _. apply lookup_lt_Some in Hi. lia. }
  cbn [mbind option_bind]. destruct (lookup_lt_is_Some_2 table i Hi) as [p Hp]. rewrite Hp. cbn [mbind option_bind]. f_equal.
  destruct (Z.eqb_spec (strcmp key (fst p)) 0) as [E|E].
  - apply strcmp_eq in E; [|done|by eapply key_wf]. destruct (assoc key table) as [v|] eqn:Ea.
    + apply assoc_spec in Ea as [j Hj]. rewrite (Huniq j (key, v) Hj eq_refl) in Hj. by rewrite Hp in Hj; injection Hj as ->.
    + by destruct (assoc_none _ _ Ea i p Hp).
  - destruct (assoc key table) as [v|] eqn:Ea; [|done]. apply assoc_spec in Ea as [j Hj].
    rewrite (Huniq j (key, v) Hj eq_refl), Hp in Hj. injection Hj as ->. by rewrite strcmp_refl in E.
Qed.
End Search.

(** ** Names of Mac OS X *)

Definition undash (c : Z) : Z := if c =? chr "-" then chr "_" else c.

Definition is_dashed (s : cstr) : bool := (length s =? 7)%nat && (nth 2 s 0 =? chr "-").

(** The Unix name. *)
Definition canonical (s : cstr) : cstr :=
  match assoc s legacy_table with
  | Some u => u
  | None =>
      match assoc s langtag_table with
      | Some u => u
      | None =>
          match (if is_dashed s then assoc (drop 3 s) script_table else None) with
          | Some u => take 2 s ++ chr "@" :: u
          | None => map undash s
          end
      end
  end.

Definition is_upper (s : cstr) : bool := (chr "A" <=? nth 0 s 0) && (nth 0 s 0 <=? chr "Z").

(** What is used of the tables. *)
Lemma legacy_facts : sorted_table legacy_table && forallb (fun p => forallb (fun c => (0 <? c) && (c <? 256)) p.1 &&
  forallb (fun c => (0 <? c) && (c <? 256)) p.2 && is_upper p.1 && (length p.2 <=? 12)%nat) legacy_table = true.
Proof. vm_compute. reflexivity. Qed.

Lemma langtag_facts : sorted_table langtag_table && forallb (fun p => forallb (fun c => (0 <? c) && (c <? 256)) p.1 &&
  forallb (fun c => (0 <? c) && (c <? 256)) p.2 && is_dashed p.1 && (length p.2 <=? 12)%nat) langtag_table = true.
Proof. vm_compute. reflexivity. Qed.

Lemma script_facts : sorted_table script_table && forallb (fun p => forallb (fun c => (0 <? c) && (c <? 256)) p.1 &&
  forallb (fun c => (0 <? c) && (c <? 256)) p.2 && true && (length p.2 <=? 9)%nat) script_table = true.
Proof. vm_compute. reflexivity. Qed.

Lemma bytes_wf s : forallb (fun c => (0 <? c) && (c <? 256)) s = true -> wf_cstr s.
Proof.
  rewrite forallb_forall. intros H. apply Forall_forall. intros c Hc. apply list_elem_of_In, H, andb_true_iff in Hc. breflect. lia.
Qed.

Section Facts.
Context (table : list (cstr * cstr)) (keys : cstr -> bool) (n : nat).
Context (Hfacts : sorted_table table && forallb (fun p => forallb (fun c => (0 <? c) && (c <? 256)) p.1 &&
  forallb (fun c => (0 <? c) && (c <? 256)) p.2 && keys p.1 && (length p.2 <=? n)%nat) table = true).

Lemma table_search s : table <> [] -> wf_cstr s -> search_table s table = Some (assoc s table).
Proof using Hfacts.
  intros Hne Hs. apply andb_true_iff in Hfacts as [H1 H2]. apply search_table_spec; [done| |by apply sorted_table_spec|done].
  apply Forall_forall. intros p Hp. rewrite forallb_forall in H2. apply list_elem_of_In, H2 in Hp.
  apply andb_true_iff in Hp as [Hp _]. apply andb_true_iff in Hp as [Hp _]. apply andb_true_iff in Hp as [Hp _]. by apply bytes_wf.
Qed.

Lemma table_value s u : assoc s table = Some u -> wf_cstr u /\ keys s = true /\ (length u <= n)%nat.
Proof using Hfacts.
  intros H. apply assoc_spec in H as [i Hi]. apply list_elem_of_lookup_2, list_elem_of_In in Hi.
  apply andb_true_iff in Hfacts as [_ H2]. rewrite forallb_forall in H2. apply H2 in Hi. cbn in Hi.
  apply andb_true_iff in Hi as [Hi H6]. apply andb_true_iff in Hi as [Hi H5]. apply andb_true_iff in Hi as [_ H4].
  split_and!; [by apply bytes_wf|done|by apply Nat.leb_le].
Qed.
End Facts.

Lemma legacy_value s u : assoc s legacy_table = Some u -> wf_cstr u /\ is_upper s = true /\ (length u <= 12)%nat.
Proof. apply (table_value _ _ _ legacy_facts). Qed.

Lemma langtag_value s u : assoc s langtag_table = Some u -> wf_cstr u /\ is_dashed s = true /\ (length u <= 12)%nat.
Proof. apply (table_value _ _ _ langtag_facts). Qed.

Lemma script_value s u : assoc s script_table = Some u -> wf_cstr u /\ true = true /\ (length u <= 9)%nat.
Proof. exact (table_value _ (fun _ => true) _ script_facts s u). Qed.

Lemma c_string_at s rest : wf_cstr s -> c_string (s ++ 0 :: rest) = s.
Proof. intros Hs. rewrite c_string_wf by done. apply app_nil_r. Qed.

(** strcpy() into a buffer that is large enough. *)
Lemma strcpy_ok name k s : (k + length s < length name)%nat -> exists rest,
  strcpy name k s = Some (take k name ++ s ++ 0 :: rest) /\ length (take k name ++ s ++ 0 :: rest) = length name.
Proof.
  intros H. unfold strcpy. rewrite (proj2 (Nat.ltb_lt _ _)) by done. eexists. split; [done|].
  rewrite !length_app. cbn [length]. rewrite length_take, length_drop. lia.
Qed.

Lemma dash_loop_ok s rest : wf_cstr s -> dash_loop (s ++ 0 :: rest) = Some (map undash s ++ 0 :: rest).
Proof.
  induction 1 as [|c s Hc _ IH]; [done|]. cbn [app dash_loop map]. rewrite (proj2 (Z.eqb_neq c 0)) by lia. by rewrite IH.
Qed.

(** The buffer has the string [s]. *)
Definition holds (name : list Z) (s : cstr) : Prop := exists rest, name = s ++ 0 :: rest.

Lemma script_step_ok s rest : wf_cstr s -> is_dashed s = true -> assoc s legacy_table = None ->
  (12 <= length s + length rest)%nat ->
  exists name, script_step (s ++ 0 :: rest) = Some name /\ length name = length (s ++ 0 :: rest) /\ holds name (canonical s).
Proof.
  intros Hs Hd Hleg Hlen. unfold script_step, canonical. rewrite Hleg, Hd, c_string_at by done.
  rewrite (table_search _ _ _ langtag_facts) by done. cbn [mbind option_bind].
  assert (Hb : length (s ++ 0 :: rest) = (length s + S (length rest))%nat) by (by rewrite length_app).
  destruct (assoc s langtag_table) as [u|] eqn:Eu.
  { destruct (langtag_value s u Eu) as (_ & _ & Hu). destruct (strcpy_ok (s ++ 0 :: rest) 0 u) as (r & E & Hl); [lia|].
    exists (u ++ 0 :: r). by split_and!; [|rewrite <- Hl|exists r]. }
  apply andb_true_iff in Hd as [H7 _]. apply Nat.eqb_eq in H7.
  assert (E3 : drop 3 (s ++ 0 :: rest) = drop 3 s ++ 0 :: rest) by (by rewrite drop_app_le by lia).
  assert (Hs3 : wf_cstr (drop 3 s)) by (by apply Forall_drop).
  rewrite E3, c_string_at by done. rewrite (table_search _ (fun _ => true) _ script_facts) by done. cbn [mbind option_bind].
  destruct (assoc (drop 3 s) script_table) as [u|] eqn:Es.
  - destruct (script_value _ u Es) as (_ & _ & Hu).
    destruct (strcpy_ok (<[2%nat := chr "@"]> (s ++ 0 :: rest)) 3 u) as (r & E & Hl); [rewrite length_insert; lia|].
    assert (Et : take 3 (<[2%nat := chr "@"]> (s ++ 0 :: rest)) = take 2 s ++ [chr "@"]).
    { destruct s as [|a [|b [|d s]]]; try done; cbn in *; lia. }
    rewrite E. eexists. split; [done|]. split; [by rewrite Hl, length_insert|]. exists r. rewrite Et, <- !app_assoc. done.
  - rewrite dash_loop_ok by done. eexists. split; [done|]. split; [by rewrite !length_app, length_map|]. by exists rest.
Qed.

Lemma canonicalize_ok s rest : wf_cstr s -> (12 <= length s + length rest)%nat ->
  exists name, gl_locale_name_canonicalize (s ++ 0 :: rest) = Some name /\ length name = length (s ++ 0 :: rest) /\
    holds name (canonical s).
Proof.
  intros Hs Hlen. unfold gl_locale_name_canonicalize.
  assert (H0 : (s ++ 0 :: rest) !! 0%nat = Some (nth 0 s 0)) by (by destruct s). rewrite H0. cbn [mbind option_bind].
  rewrite c_string_at by done.
  assert (Hleg : (if (chr "A" <=? nth 0 s 0) && (nth 0 s 0 <=? chr "Z") then search_table s legacy_table else Some None) =
    Some (assoc s legacy_table)).
  { fold (is_upper s). destruct (is_upper s) eqn:Eup; [by rewrite (table_search _ _ _ legacy_facts)|].
    destruct (assoc s legacy_table) as [u|] eqn:E; [|done]. destruct (legacy_value s u E) as (_ & H & _). congruence. }
  rewrite Hleg. cbn [mbind option_bind]. destruct (assoc s legacy_table) as [u|] eqn:Eu.
  - destruct (legacy_value s u Eu) as (_ & _ & Hu). destruct (strcpy_ok (s ++ 0 :: rest) 0 u) as (r & E & Hl).
    { rewrite length_app. cbn [length]. lia. }
    exists (u ++ 0 :: r). unfold canonical. rewrite Eu. by split_and!; [|rewrite <- Hl|exists r].
  - assert (Hdash : (length s =? 7)%nat && (nth 2 (s ++ 0 :: rest) 0 =? chr "-") = is_dashed s).
    { unfold is_dashed. destruct (Nat.eqb_spec (length s) 7) as [H7|]; [|done]. cbn [andb]. by rewrite app_nth1 by lia. }
    rewrite Hdash. destruct (is_dashed s) eqn:Ed; [by apply script_step_ok|].
    rewrite dash_loop_ok by done. eexists. split; [done|]. split; [by rewrite !length_app, length_map|].
    exists rest. unfold canonical. rewrite Eu, Ed. destruct (assoc s langtag_table) as [u|] eqn:El; [|done].
    destruct (langtag_value s u El) as (_ & H & _). congruence.
Qed.

(** Nothing is left to convert in a Unix name. *)
Lemma values_canonical : forallb (fun p => bool_decide (canonical p.2 = p.2)) (legacy_table ++ langtag_table) = true.
Proof. vm_compute. reflexivity. Qed.

Lemma legacy_keys_facts : forallb (fun p => bool_decide (chr "_" ∉ p.1) && bool_decide (chr "@" ∉ p.1)) legacy_table = true.
Proof. vm_compute. reflexivity. Qed.

Lemma script_lengths : forallb (fun p => negb (3 + length p.2 =? 7)%nat && bool_decide (chr "-" ∉ p.2)) script_table = true.
Proof. vm_compute. reflexivity. Qed.

Lemma assoc_in s table u : assoc s table = Some u -> In (s, u) table.
Proof. intros H. apply assoc_spec in H as [i Hi]. apply list_elem_of_In. by eapply list_elem_of_lookup_2. Qed.

Lemma legacy_without s u : assoc s legacy_table = Some u -> (chr "_" ∉ s) /\ (chr "@" ∉ s).
Proof.
  intros H. pose proof legacy_keys_facts as Hf. rewrite forallb_forall in Hf. apply assoc_in, Hf in H.
  apply andb_true_iff in H as [H1 H2]. by apply bool_decide_eq_true in H1, H2.
Qed.

Lemma undash_none s : chr "-" ∉ s -> map undash s = s.
Proof.
  induction s as [|c s IH]; [done|]. rewrite not_elem_of_cons. intros [Hc Hs]. cbn [map]. rewrite IH by done. f_equal.
  unfold undash. by rewrite (proj2 (Z.eqb_neq _ _)) by congruence.
Qed.

Lemma not_dashed s : chr "-" ∉ s -> is_dashed s = false.
Proof.
  intros Hs. unfold is_dashed. destruct (Nat.eqb_spec (length s) 7) as [H7|]; [|done]. cbn [andb].
  apply Z.eqb_neq. intros E. apply Hs. rewrite <- E. apply list_elem_of_In, nth_In. lia.
Qed.

Lemma canonical_plain s : assoc s legacy_table = None -> is_dashed s = false -> canonical s = map undash s.
Proof.
  intros H1 H2. unfold canonical. rewrite H1, H2. destruct (assoc s langtag_table) as [u|] eqn:E; [|done].
  destruct (langtag_value s u E) as (_ & H & _). congruence.
Qed.

Lemma legacy_none s c : c ∈ s -> c = chr "_" \/ c = chr "@" -> assoc s legacy_table = None.
Proof.
  intros Hin Hc. destruct (assoc s legacy_table) as [u|] eqn:E; [|done]. apply legacy_without in E as [H1 H2].
  by destruct Hc as [->| ->].
Qed.

(** A name whose language, before a script, has no dash is converted once and for all. *)
Lemma canonical_idempotent s : chr "-" ∉ take 2 s -> canonical (canonical s) = canonical s.
Proof.
  intros Hd. assert (Hval : forall u, In (s, u) (legacy_table ++ langtag_table) -> canonical u = u).
  { intros u Hu. pose proof values_canonical as Hf. rewrite forallb_forall in Hf. apply Hf in Hu. by apply bool_decide_eq_true in Hu. }
  unfold canonical at 2 3. destruct (assoc s legacy_table) as [u|] eqn:E1; [apply Hval, in_app_iff; left; by apply assoc_in|].
  destruct (assoc s langtag_table) as [u|] eqn:E2; [apply Hval, in_app_iff; right; by apply assoc_in|].
  assert (Hplain : canonical (map undash s) = map undash s).
  { assert (Hno : chr "-" ∉ map undash s).
    { intros Hin. apply list_elem_of_fmap in Hin as (c & E & _). unfold undash in E. destruct (Z.eqb_spec c (chr "-")); [discriminate E|congruence]. }
    rewrite canonical_plain, undash_none; [done|done| |by apply not_dashed].
    destruct (split_on_cases (chr "-") s) as [Hs|(l1 & l2 & -> & _)]; [by rewrite undash_none|].
    apply (legacy_none _ (chr "_")); [|by left]. rewrite map_app. cbn [map]. apply elem_of_app. right.
    change (undash (chr "-")) with (chr "_"). apply list_elem_of_here. }
  destruct (is_dashed s) eqn:Ed; [|done]. destruct (assoc (drop 3 s) script_table) as [u|] eqn:E3; [|done].
  pose proof script_lengths as Hf. rewrite forallb_forall in Hf. apply assoc_in, Hf, andb_true_iff in E3 as [H1 H2]. cbn in H1.
  apply bool_decide_eq_true in H2. cbn [snd] in H2.
  assert (Hlen : length (take 2 s) = 2%nat).
  { apply andb_true_iff in Ed as [Hs _]. apply Nat.eqb_eq in Hs. rewrite length_take. lia. }
  assert (Hno : chr "-" ∉ take 2 s ++ chr "@" :: u) by (rewrite not_elem_of_app, not_elem_of_cons; split_and!; done).
  rewrite canonical_plain, undash_none; [done|done| |by apply not_dashed].
  apply (legacy_none _ (chr "@")); [|by right]. apply elem_of_app. right. apply list_elem_of_here.
Qed.

(** ** Names of Windows *)

Definition to_upper (c : Z) : Z := if (chr "a" <=? c) && (c <=? chr "z") then c + (chr "A" - chr "a") else c.

(** Language and territory; what follows a second dash is dropped. *)
Definition windows_canonical (s : cstr) : cstr :=
  match split_on (chr "-") s with
  | language :: territory :: _ => language ++ chr "_" :: map to_upper territory
  | _ => s
  end.

Lemma to_upper_dash c : to_upper c = chr "-" <-> c = chr "-".
Proof.
  unfold to_upper. change (chr "a") with 97. change (chr "z") with 122. change (chr "-") with 45. change (chr "A") with 65.
  case_if; lia.
Qed.

Lemma to_upper_range c : 0 < c < 256 -> 0 < to_upper c < 256.
Proof. unfold to_upper. change (chr "a") with 97. change (chr "z") with 122. change (chr "A") with 65. case_if; lia. Qed.

Lemma upper_loop_plain s : wf_cstr s -> chr "-" ∉ s -> forall rest,
  upper_loop (s ++ 0 :: rest) = Some (map to_upper s ++ 0 :: rest) /\
  upper_loop (s ++ chr "-" :: rest) = Some (map to_upper s ++ 0 :: rest).
Proof.
  intros Hs Hd rest. induction Hs as [|c s Hc _ IH]; [done|]. apply not_elem_of_cons in Hd as [Hne Hd].
  cbn [app upper_loop map]. rewrite (proj2 (Z.eqb_neq c 0)) by lia. fold (to_upper c).
  rewrite (proj2 (Z.eqb_neq (to_upper c) _)) by (rewrite to_upper_dash; congruence). destruct (IH Hd) as [-> ->]. done.
Qed.

Lemma windows_plain s : wf_cstr s -> chr "-" ∉ s -> forall rest,
  windows_canonicalize (s ++ 0 :: rest) = Some (s ++ 0 :: rest) /\
  windows_canonicalize (s ++ chr "-" :: rest) = (r ← upper_loop rest; Some (s ++ chr "_" :: r)).
Proof.
  intros Hs Hd rest. induction Hs as [|c s Hc _ IH].
  { cbn [app windows_canonicalize]. by change (chr "-" =? 0) with false; rewrite Z.eqb_refl. }
  apply not_elem_of_cons in Hd as [Hne Hd]. cbn [app windows_canonicalize].
  rewrite (proj2 (Z.eqb_neq c 0)) by lia. rewrite (proj2 (Z.eqb_neq c (chr "-"))) by congruence.
  destruct (IH Hd) as [-> ->]. split; [done|]. by destruct (upper_loop rest).
Qed.

Lemma windows_canonicalize_ok s rest : wf_cstr s ->
  exists name, windows_canonicalize (s ++ 0 :: rest) = Some name /\ length name = length (s ++ 0 :: rest) /\
    holds name (windows_canonical s).
Proof.
  intros Hs. unfold windows_canonical. destruct (split_on_cases (chr "-") s) as [Hd|(l & t & -> & Hd)].
  { rewrite split_on_last by done. destruct (windows_plain s Hs Hd rest) as [-> _].
    eexists. split_and!; [done..|by exists rest]. }
  apply wf_cstr_app in Hs as [Hl Ht]. apply wf_cstr_cons in Ht as [_ Ht].
  rewrite split_on_app, <- app_assoc by done. cbn [app]. destruct (windows_plain l Hl Hd (t ++ 0 :: rest)) as [_ ->].
  destruct (split_on_cases (chr "-") t) as [Hdt|(t1 & t2 & -> & Hdt)].
  - rewrite split_on_last by done. destruct (upper_loop_plain t Ht Hdt rest) as [-> _]. cbn [mbind option_bind].
    eexists. split_and!; [done|by rewrite !length_app; cbn [length]; rewrite !length_app, length_map|].
    exists rest. by rewrite <- app_assoc.
  - apply wf_cstr_app in Ht as [Ht1 _]. rewrite split_on_app, <- app_assoc by done. cbn [app].
    destruct (upper_loop_plain t1 Ht1 Hdt (t2 ++ 0 :: rest)) as [_ ->]. cbn [mbind option_bind].
    eexists. split_and!; [done|by rewrite !length_app; cbn [length]; rewrite !length_app, length_map|].
    exists (t2 ++ 0 :: rest). by rewrite <- app_assoc.
Qed.

(** ** Theorems *)

(** The conversion of a locale name of Mac OS X, in a buffer of at least 13 bytes, stays
    inside the buffer and leaves the Unix name in it: the one of the tables if they have
    the name, else that of the language and the script, else the name with underscores; and
    a second conversion changes nothing. *)
Theorem canonicalize_correct (s : cstr) (rest : list Z) (Hs : wf_cstr s) (Hbuf : (13 <= length (s ++ 0%Z :: rest))%nat) :
  exists name, gl_locale_name_canonicalize (s ++ 0 :: rest) = Some name /\
    length name = length (s ++ 0 :: rest) /\ holds name (canonical s) /\
    (chr "-" ∉ take 2 s -> canonical (canonical s) = canonical s).
Proof.
  assert (Hlen : (12 <= length s + length rest)%nat) by (rewrite length_app in Hbuf; cbn [length] in Hbuf; lia).
  destruct (canonicalize_ok s rest Hs Hlen) as (name & E & Hl & Hh). exists name.
  split_and!; [done|done|done|apply canonical_idempotent].
Qed.

Lemma canonicalize_correct_witness :
  canonical (cs "Chinese, Traditional") = cs "zh_TW" /\ canonical (cs "az-Arab") = cs "az@arabic" /\
  exists name, gl_locale_name_canonicalize (cs "az-Arab" ++ 0 :: repeat 7 8) = Some name /\ holds name (cs "az@arabic").
Proof.
  split; [vm_compute; reflexivity|]. split; [vm_compute; reflexivity|].
  assert (Hs : wf_cstr (cs "az-Arab")) by (apply bytes_wf; vm_compute; reflexivity).
  destruct (canonicalize_correct (cs "az-Arab") (repeat 7 8) Hs ltac:(cbn; lia)) as (name & E & _ & Hh & _).
  exists name. split; [exact E|exact Hh].
Defined.

(** The conversion of a locale name of Windows never leaves the buffer and gives the
    language, and the territory in upper case, of the name. *)
Theorem windows_canonicalize_correct (s : cstr) (rest : list Z) (Hs : wf_cstr s) :
  exists name, windows_canonicalize (s ++ 0 :: rest) = Some name /\ length name = length (s ++ 0 :: rest) /\
    holds name (windows_canonical s).
Proof. by apply windows_canonicalize_ok. Qed.

Lemma windows_canonicalize_correct_witness : windows_canonical (cs "zh-hant-TW") = cs "zh_HANT" /\
  exists name, windows_canonicalize (cs "zh-hant-TW" ++ [0]) = Some name /\ holds name (cs "zh_HANT").
Proof.
  split; [vm_compute; reflexivity|]. assert (Hs : wf_cstr (cs "zh-hant-TW")) by (apply bytes_wf; vm_compute; reflexivity).
  destruct (windows_canonicalize_correct (cs "zh-hant-TW") [] Hs) as (name & E & _ & Hh). exists name. split; [exact E|exact Hh].
Defined.
