(* ===== verification/LocaleAlias.v ===== *)
(** * Locale aliases: localealias.c

    The alias files are read one after the other, only when a name is not found in
    the table.  The strings are in a pool that is moved when it grows; the
    table holds addresses in the pool.  fgets() is modelled on the bytes of a file.
    qsort() and bsearch() are the class [SortSearch], as the C standard specifies
    them: which of two equal elements comes first, or is found, is not said. *)

From Stdlib Require Import Sorted.
From S2P Require Import Prelude LocaleName.

Open Scope Z_scope.

(** ** The C library *)

Class SortSearch := {
  qsort : forall {A : Type}, (A -> A -> Z) -> list A -> list A;
  bsearch : forall {A : Type}, (A -> Z) -> list A -> option A    (* the comparison with the key *)
}.

Class SortSearchLaws `{SortSearch} := {
  qsort_permutation : forall {A} (c : A -> A -> Z) l, qsort c l ≡ₚ l;
  qsort_sorted : forall {A} (c : A -> A -> Z) l,
    (forall x y, x ∈ l -> y ∈ l -> c x y <= 0 \/ c y x <= 0) ->
    (forall x y z, x ∈ l -> y ∈ l -> z ∈ l -> c x y <= 0 -> c y z <= 0 -> c x z <= 0) ->
    StronglySorted (fun x y => c x y <= 0) (qsort c l);
  bsearch_in : forall {A} (c : A -> Z) l x, bsearch c l = Some x -> x ∈ l /\ c x = 0;
  bsearch_complete : forall {A} (c : A -> Z) l,
    (* elements the key is greater than, then equal, then less *)
    StronglySorted (fun x y => (c x < 0 -> c y < 0) /\ (c x <= 0 -> c y <= 0)) l ->
    bsearch c l = None -> Forall (fun x => c x <> 0) l
}.

(** An open file: what is left to read, and the end-of-file indicator. *)
Record stream := Stream { rest : list Z; at_eof : bool }.

Definition feof (fp : stream) : bool := at_eof fp.

(** Up to [k] bytes, to the end of the line or of the file. *)
Fixpoint take_line (k : nat) (l : list Z) : list Z * stream :=
  match k, l with
  | O, _ => ([], Stream l false)
  | S _, [] => ([], Stream [] true)
  | S k, c :: l =>
      if c =? 10 then ([c], Stream l false)
      else let '(line, fp) := take_line k l in (c :: line, fp)
  end.

(** [fgets (buf, n, fp)]; [None] is NULL. *)
Definition fgets (n : nat) (fp : stream) : option (list Z) * stream :=
  if at_eof fp then (None, fp)
  else
    let '(line, fp) := take_line (n - 1) (rest fp) in
    (match line with [] => None | _ => Some line end, fp).

Definition buf_size : nat := 400.

(** ** One line *)

(** [while (isspace ( *cp)) ++cp;] *)
Fixpoint skip_white (cp : cstr) : cstr :=
  match cp with
  | c :: cp' => if isspace c then skip_white cp' else cp
  | [] => []
  end.

(** [while ( *cp != '\0' && !isspace ( *cp)) ++cp;]: the bytes passed over, and [cp]. *)
Fixpoint skip_word (cp : cstr) : cstr * cstr :=
  match cp with
  | c :: cp' => if isspace c then ([], cp) else let '(w, cp'') := skip_word cp' in (c :: w, cp'')
  | [] => ([], [])
  end.

(** The alias and the value of a line, if it has both. *)
Definition alias_of_line (buf : cstr) : option (cstr * cstr) :=
  match skip_white buf with
  | [] => None
  | c :: cp =>
      if c =? chr "#" then None
      else
        let '(w, cp) := skip_word cp in
        let alias := c :: w in
        match skip_white (drop 1 cp) with
        | [] => None
        | d :: cp => let '(v, _) := skip_word cp in Some (alias, d :: v)
        end
  end.

(** ** The table *)

(** [struct alias_map]: addresses. *)
Record alias_map := AliasMap { alias : Z; value : Z }.

(** [space] are the first [string_space_act] bytes at address [string_space]. *)
Record alias_state := AliasState {
  string_space : Z;
  space : list Z;
  string_space_max : Z;
  map_ : list alias_map;                 (* nmap entries *)
  maxmap : Z;
  n_reallocs : nat;
  locale_alias_path : option cstr        (* what is left of the path; [None] before the first call *)
}.

Definition string_space_act (st : alias_state) : Z := Z.of_nat (length (space st)).
Definition nmap (st : alias_state) : Z := Z.of_nat (length (map_ st)).

Definition empty_alias : alias_state := AliasState 0 [] 0 [] 0 0 None.

(** The string at an address; [None] outside the pool. *)
Definition string_at (st : alias_state) (a : Z) : option cstr :=
  if (string_space st <=? a) && (a <? string_space st + string_space_act st)
  then Some (c_string (drop (Z.to_nat (a - string_space st)) (space st))) else None.

(** alias_compare, with the fallback for strcasecmp(). *)
Fixpoint case_compare (s1 s2 : cstr) : Z :=
  let c1 := tolower (cur s1) in
  let c2 := tolower (cur s2) in
  match s1 with
  | [] => c1 - c2
  | _ :: s1' => if c1 =? c2 then case_compare s1' (drop 1 s2) else c1 - c2
  end.

Definition alias_str (st : alias_state) (m : alias_map) : cstr := default [] (string_at st (alias m)).
Definition alias_compare (st : alias_state) (m1 m2 : alias_map) : Z :=
  case_compare (alias_str st m1) (alias_str st m2).

(** All comparisons are defined. *)
Definition comparable (st : alias_state) : bool :=
  forallb (fun m => match string_at st (alias m) with Some _ => true | None => false end) (map_ st).

(** A failed realloc() leaves all as it was; [n_reallocs] numbers the calls. *)
Definition count_realloc (st : alias_state) : alias_state :=
  AliasState (string_space st) (space st) (string_space_max st) (map_ st) (maxmap st) (S (n_reallocs st))
    (locale_alias_path st).

Section Aliases.
Context `{SortSearch}.
(** realloc() of the table, and of the pool: the new address, if it succeeds. *)
Context (mal_map : nat -> bool) (mal_pool : nat -> option Z).

(** [inr st] is [goto out]: the allocation failed. *)
Definition extend_alias_table (st : alias_state) : alias_state + alias_state :=
  let new_size := if maxmap st =? 0 then 100 else 2 * maxmap st in
  if mal_map (n_reallocs st) then
    inl (AliasState (string_space st) (space st) (string_space_max st) (map_ st) new_size
           (S (n_reallocs st)) (locale_alias_path st))
  else inr (count_realloc st).

(** Room for [n] more bytes in the pool. *)
Definition extend_pool (st : alias_state) (n : Z) : alias_state + alias_state :=
  if string_space_act st + n >? string_space_max st then
    let new_size := string_space_max st + (if n >? 1024 then n else 1024) in
    match mal_pool (n_reallocs st) with
    | None => inr (count_realloc st)
    | Some new_pool =>
        let moved a := a + (new_pool - string_space st) in
        inl (AliasState new_pool (space st) new_size
               (map (fun m => AliasMap (moved (alias m)) (moved (value m))) (map_ st)) (maxmap st)
               (S (n_reallocs st)) (locale_alias_path st))
    end
  else inl st.

(** memcpy() of the two strings, and the new entry. *)
Definition append_entry (st : alias_state) (a v : cstr) : alias_state :=
  AliasState (string_space st) (space st ++ a ++ [0] ++ v ++ [0]) (string_space_max st)
    (map_ st ++ [AliasMap (string_space st + string_space_act st)
                   (string_space st + string_space_act st + Z.of_nat (length a) + 1)])
    (maxmap st) (n_reallocs st) (locale_alias_path st).

Definition add_alias (st : alias_state) (a v : cstr) : alias_state + alias_state :=
  match (if nmap st >=? maxmap st then extend_alias_table st else inl st) with
  | inr st => inr st
  | inl st =>
      match extend_pool st (Z.of_nat (length a) + 1 + (Z.of_nat (length v) + 1)) with
      | inr st => inr st
      | inl st => inl (append_entry st a v)
      end
  end.

(** The rest of a line that does not fit into the buffer is ignored. *)
Fixpoint skip_line (fuel : nat) (fp : stream) : option stream :=
  match fuel with
  | O => None
  | S fuel =>
      match fgets buf_size fp with
      | (None, fp) => Some fp
      | (Some buf, fp) => if existsb (Z.eqb 10) (c_string buf) then Some fp else skip_line fuel fp
      end
  end.

(** [while (!FEOF (fp))]; [added] counts the new entries. *)
Fixpoint read_lines (fuel : nat) (fp : stream) (st : alias_state) (added : Z) : option (alias_state * Z) :=
  match fuel with
  | O => None
  | S fuel =>
      if feof fp then Some (st, added)
      else
        match fgets buf_size fp with
        | (None, _) => Some (st, added)
        | (Some buf, fp) =>
            let buf := c_string buf in
            let complete_line := existsb (Z.eqb 10) buf in
            match (match alias_of_line buf with
                   | Some (a, v) =>
                       match add_alias st a v with inl st => inl (st, added + 1) | inr st => inr st end
                   | None => inl (st, added)
                   end) with
            | inr st => Some (st, added)
            | inl (st, added) =>
                fp ← (if complete_line then Some fp else skip_line (S (length (rest fp))) fp);
                read_lines fuel fp st added
            end
        end
  end.

Definition set_map (st : alias_state) (l : list alias_map) : alias_state :=
  AliasState (string_space st) (space st) (string_space_max st) l (maxmap st) (n_reallocs st)
    (locale_alias_path st).

Definition aliasfile : cstr := cs "/locale.alias".

Section Files.
Context (fopen : cstr -> option (list Z)).

(** The number of entries that were added, and the new state; [None] if it does not
    return or compares outside the pool. *)
Definition read_alias_file (fname : cstr) (st : alias_state) : option (Z * alias_state) :=
  match fopen (fname ++ aliasfile) with
  | None => Some (0, st)
  | Some bytes =>
      '(st, added) ← read_lines (S (length bytes)) (Stream bytes false) st 0;
      if added >? 0 then
        if comparable st then Some (added, set_map st (qsort (alias_compare st) (map_ st))) else None
      else Some (added, st)
  end.

(** The next element of the path: the directory, and what is left. *)
Fixpoint skip_separators (path : cstr) : cstr :=
  match path with
  | c :: path' => if c =? chr ":" then skip_separators path' else path
  | [] => []
  end.

Fixpoint next_directory (path : cstr) : cstr * cstr :=
  match path with
  | c :: path' =>
      if c =? chr ":" then ([], path) else let '(d, r) := next_directory path' in (c :: d, r)
  | [] => ([], [])
  end.

Definition set_path (st : alias_state) (path : cstr) : alias_state :=
  AliasState (string_space st) (space st) (string_space_max st) (map_ st) (maxmap st) (n_reallocs st) (Some path).

(** [while (added == 0 && locale_alias_path[0] != '\0')] *)
Fixpoint next_file (fuel : nat) (path : cstr) (st : alias_state) : option (Z * alias_state) :=
  match fuel with
  | O => None
  | S fuel =>
      match path with
      | [] => Some (0, set_path st path)
      | _ =>
          let '(dir, path) := next_directory (skip_separators path) in
          '(added, st) ← match dir with [] => Some (0, st) | _ => read_alias_file dir st end;
          if added =? 0 then next_file fuel path st else Some (added, set_path st path)
      end
  end.

Definition find_alias (st : alias_state) (name : cstr) : option alias_map :=
  if nmap st >? 0 then bsearch (fun m => case_compare name (alias_str st m)) (map_ st) else None.

(** The address of the value, or NULL. *)
Fixpoint expand_loop (fuel : nat) (name : cstr) (st : alias_state) : option (option Z * alias_state) :=
  match fuel with
  | O => None
  | S fuel =>
      if comparable st then
        match find_alias st name with
        | Some m => Some (Some (value m), st)
        | None =>
            let path := default [] (locale_alias_path st) in
            '(added, st) ← next_file (S (length path)) path st;
            if added =? 0 then Some (None, st) else expand_loop fuel name st
        end
      else None
  end.

(** [_nl_expand_alias (name)] *)
Definition _nl_expand_alias (LOCALE_ALIAS_PATH : cstr) (name : cstr) (st : alias_state)
    : option (option Z * alias_state) :=
  let path := default LOCALE_ALIAS_PATH (locale_alias_path st) in
  expand_loop (S (S (length path))) name (set_path st path).
End Files.
End Aliases.
