(* ===== verification/LocaleAliasSpec.v ===== *)
(** * What the alias table promises

    The lines of an alias file are read as their first two words; the addresses in
    the table stay valid when the pool moves; and, whichever files have been read
    so far, a name is expanded as if all files of the path had been read. *)

From Stdlib Require Import Sorted.
From S2P Require Import Prelude LocaleName LocaleAlias.

Open Scope Z_scope.

(** ** Lines *)

(** The words of a line. *)
Fixpoint words (l : cstr) : list cstr :=
  match l with
  | [] => []
  | c :: l =>
      if isspace c then words l
      else match l with
           | [] => [[c]]
           | d :: _ => if isspace d then [c] :: words l
                       else match words l with w :: ws => (c :: w) :: ws | [] => [[c]] end
           end
  end.

(** The alias and the value: the first two words, if the line is not a comment. *)
Definition fields (l : cstr) : option (cstr * cstr) :=
  match words l with
  | a :: v :: _ => if cur a =? chr "#" then None else Some (a, v)
  | _ => None
  end.

Lemma words_skip l : words l = words (skip_white l).
Proof. induction l as [|c l IH]; [done|]. cbn [words skip_white]. case_if; [done|]. cbn [words]. by rewrite Eif. Qed.

Lemma skip_space_head l c l' : skip_white l = c :: l' -> isspace c = false.
Proof. induction l as [|d l IH]; [done|]. cbn [skip_white]. case_if; [done|]. by intros [= -> _]. Qed.

Lemma words_word c l : isspace c = false -> words (c :: l) = let '(w, r) := skip_word l in (c :: w) :: words r.
Proof.
  revert c. induction l as [|d l IH]; intros c Hc.
  - simpl. by rewrite Hc.
  - pose proof (IH d) as IHd. set (dl := d :: l) in *. cbn [words]. rewrite Hc. subst dl. cbn [skip_word].
    destruct (isspace d) eqn:Hd; [done|]. rewrite (IHd eq_refl). by destruct (skip_word l).
Qed.

Lemma skip_word_end l w r : skip_word l = (w, r) -> r = [] \/ exists d r', r = d :: r' /\ isspace d = true.
Proof.
  revert w r. induction l as [|c l IH]; intros w r; cbn [skip_word]; [intros [= _ <-]; by left|].
  destruct (isspace c) eqn:Hc; [intros [= _ <-]; right; by exists c, l|].
  destruct (skip_word l) as [w' r'] eqn:E. intros [= _ <-]. by eapply IH.
Qed.

Lemma alias_of_line_fields l : alias_of_line l = fields l.
Proof.
  unfold alias_of_line, fields. rewrite (words_skip l). destruct (skip_white l) as [|c l'] eqn:E; [done|].
  pose proof (skip_space_head _ _ _ E) as Hc. rewrite (words_word c l' Hc). destruct (skip_word l') as [w r] eqn:Ew.
  assert (Hr : words r = words (skip_white (drop 1 r))).
  { destruct (skip_word_end _ _ _ Ew) as [->|(d & r' & -> & Hd)]; [done|].
    change (drop 1 (d :: r')) with r'. rewrite (words_skip (d :: r')). cbn [skip_white]. rewrite Hd. by rewrite <- words_skip. }
  rewrite Hr. destruct (skip_white (drop 1 r)) as [|d r'] eqn:Er; [by case_if|].
  pose proof (skip_space_head _ _ _ Er) as Hd. rewrite (words_word d r' Hd). by destruct (skip_word r').
Qed.

(** The lines of a file. *)
Definition split_lines : list Z -> list cstr := split_on 10.

(** A line that fits into the buffer. *)
Definition short_line (l : cstr) : Prop := wf_cstr l /\ (length l < buf_size - 1)%nat.

#[export] Instance short_line_dec l : Decision (short_line l).
Proof. unfold short_line. apply _. Defined.

Definition good_file (bytes : list Z) : Prop := Forall short_line (split_lines bytes).

#[export] Instance good_file_dec bytes : Decision (good_file bytes).
Proof. unfold good_file. apply _. Defined.

Definition file_aliases (bytes : list Z) : list (cstr * cstr) := omap fields (split_lines bytes).

Lemma take_line_full l r k : 10 ∉ l -> (length l < k)%nat -> take_line k (l ++ 10 :: r) = (l ++ [10], Stream r false).
Proof.
  revert k. induction l as [|c l IH]; intros [|k] Hl Hk; simpl in Hk; try lia; [done|].
  rewrite not_elem_of_cons in Hl. destruct Hl as [Hc Hl]. cbn [app take_line].
  rewrite (proj2 (Z.eqb_neq c 10)) by lia. rewrite IH; [done..|lia].
Qed.

Lemma take_line_last l k : 10 ∉ l -> (length l < k)%nat -> take_line k l = (l, Stream [] true).
Proof.
  revert k. induction l as [|c l IH]; intros [|k] Hl Hk; simpl in Hk; try lia; [done|].
  rewrite not_elem_of_cons in Hl. destruct Hl as [Hc Hl]. cbn [take_line].
  rewrite (proj2 (Z.eqb_neq c 10)) by lia. rewrite IH; [done..|lia].
Qed.

Lemma words_newline l : words (l ++ [10]) = words l.
Proof.
  induction l as [|c l IH]; [done|]. cbn [app words]. rewrite IH. case_if; [done|].
  destruct l as [|d l]; [done|]. cbn [app]. done.
Qed.

Lemma fields_newline l : fields (l ++ [10]) = fields l.
Proof. unfold fields. by rewrite words_newline. Qed.

Lemma newline_in s : existsb (Z.eqb 10) s = bool_decide (10 ∈ s).
Proof.
  apply eq_true_iff_eq. rewrite existsb_exists, bool_decide_eq_true. split.
  - intros (x & Hx & E). apply Z.eqb_eq in E as <-. by apply list_elem_of_In.
  - intros H. exists 10. split; [by apply list_elem_of_In|done].
Qed.

(** ** Comparison without case *)

Definition lower (s : cstr) : cstr := map tolower s.

Lemma tolower_range c : 0 < c < 256 -> 0 < tolower c < 256.
Proof.
  intros Hc. unfold tolower, isupper. change (chr "A") with 65. change (chr "Z") with 90.
  case_if; breflect; lia.
Qed.

Lemma wf_lower s : wf_cstr s -> wf_cstr (lower s).
Proof. induction 1; constructor; eauto using tolower_range. Qed.

Lemma case_compare_lower s t : wf_cstr s -> wf_cstr t -> case_compare s t = strcmp (lower s) (lower t).
Proof.
  revert t. induction s as [|c s IH]; intros t Hs Ht.
  - destruct t as [|d t]; [done|]. cbn [case_compare cur lower map strcmp]. by change (tolower 0) with 0.
  - rewrite wf_cstr_cons in Hs. destruct Hs as [Hc Hs]. pose proof (tolower_range _ Hc).
    destruct t as [|d t]; cbn [case_compare cur lower map strcmp].
    + change (tolower 0) with 0. rewrite (proj2 (Z.eqb_neq _ 0)) by lia. lia.
    + rewrite wf_cstr_cons in Ht. case_if; [apply IH; [done|apply Ht]|done].
Qed.

Lemma strcmp_le_trans s t u : wf_cstr s -> wf_cstr t -> wf_cstr u ->
  strcmp s t <= 0 -> strcmp t u <= 0 -> strcmp s u <= 0.
Proof.
  intros Hs Ht Hu H1 H2.
  destruct (decide (strcmp s t = 0)) as [E|E]; [apply strcmp_eq in E as ->; [done..|]; done|].
  destruct (decide (strcmp t u = 0)) as [E'|E']; [apply strcmp_eq in E' as <-; [lia|done..]|].
  pose proof (strcmp_trans s t u Hs Ht Hu). lia.
Qed.

(** ** Addresses *)

(** The string [s] stands, with its NUL, at the address [a]. *)
Definition stands (st : alias_state) (a : Z) (s : cstr) : Prop :=
  wf_cstr s /\ exists pre post, space st = pre ++ s ++ 0 :: post /\ a = string_space st + Z.of_nat (length pre).

Lemma stands_string_at st a s : stands st a s -> string_at st a = Some s.
Proof.
  intros (Hs & pre & post & E & ->). unfold string_at, string_space_act. rewrite E, !length_app. simpl length.
  rewrite (proj2 (Z.leb_le _ _)) by lia. rewrite (proj2 (Z.ltb_lt _ _)) by lia. cbn [andb].
  replace (Z.to_nat _) with (length pre) by lia. rewrite drop_app_length, c_string_wf by done. f_equal. apply app_nil_r.
Qed.

(** A moved pool, and a pool that has grown. *)
Lemma stands_moved st st' a s off : stands st a s -> space st' = space st -> string_space st' = string_space st + off ->
  stands st' (a + off) s.
Proof. intros (Hs & pre & post & E & ->) E1 E2. split; [done|]. exists pre, post. rewrite E1, E2. split; [done|lia]. Qed.

Lemma stands_grown st st' a s more : stands st a s -> space st' = space st ++ more ->
  string_space st' = string_space st -> stands st' a s.
Proof.
  intros (Hs & pre & post & E & ->) E1 E2. split; [done|]. exists pre, (post ++ more). rewrite E1, E2, E.
  split; [|done]. rewrite <- !app_assoc. done.
Qed.

Definition valid_entry (st : alias_state) (m : alias_map) : Prop :=
  (exists s, stands st (alias m) s) /\ (exists s, stands st (value m) s).

Definition value_str (st : alias_state) (m : alias_map) : cstr := default [] (string_at st (value m)).
Definition decode (st : alias_state) (m : alias_map) : cstr * cstr := (alias_str st m, value_str st m).

(** The table as a list of pairs of strings. *)
Definition entries (st : alias_state) : list (cstr * cstr) := map (decode st) (map_ st).

(** The invariant of the table: every entry has two strings in the pool, and both
    fit in the allocated memory. *)
Definition table_ok (st : alias_state) : Prop :=
  Forall (valid_entry st) (map_ st) /\ string_space_act st <= string_space_max st /\ nmap st <= maxmap st /\
  0 <= maxmap st.

Lemma valid_decode st m : valid_entry st m ->
  stands st (alias m) (alias_str st m) /\ stands st (value m) (value_str st m).
Proof.
  intros [(s & Hs) (v & Hv)]. unfold alias_str, value_str.
  by rewrite (stands_string_at _ _ _ Hs), (stands_string_at _ _ _ Hv).
Qed.

Lemma valid_decode_eq st m s v : stands st (alias m) s -> stands st (value m) v -> decode st m = (s, v).
Proof. intros H1 H2. unfold decode, alias_str, value_str. by rewrite (stands_string_at _ _ _ H1), (stands_string_at _ _ _ H2). Qed.

(** Entries whose addresses are renamed by [f] denote the same strings. *)
Lemma entries_renamed st st' (f : alias_map -> alias_map) l :
  Forall (valid_entry st) l ->
  (forall m a v, stands st (alias m) a -> stands st (value m) v ->
     stands st' (alias (f m)) a /\ stands st' (value (f m)) v) ->
  Forall (valid_entry st') (map f l) /\ map (decode st') (map f l) = map (decode st) l.
Proof.
  intros Hl Hf. induction Hl as [|m l Hm _ [IH1 IH2]]; [by split|]. apply valid_decode in Hm as [Ha Hv].
  destruct (Hf _ _ _ Ha Hv) as [Ha' Hv']. cbn [map]. split; [constructor; [split; eauto|done]|].
  rewrite IH2, (valid_decode_eq _ _ _ _ Ha Hv), (valid_decode_eq _ _ _ _ Ha' Hv'). done.
Qed.

Lemma valid_comparable st : table_ok st -> comparable st = true.
Proof.
  intros [H _]. unfold comparable. apply forallb_forall. intros m Hm. rewrite Forall_forall in H.
  apply list_elem_of_In, H in Hm as [(s & Hs) _]. by rewrite (stands_string_at _ _ _ Hs).
Qed.

Lemma entries_wf st : table_ok st -> Forall (fun p => wf_cstr p.1 /\ wf_cstr p.2) (entries st).
Proof.
  intros [H _]. unfold entries. apply Forall_map. eapply Forall_impl; [exact H|]. intros m Hm.
  apply valid_decode in Hm as [[Ha _] [Hv _]]. done.
Qed.

(** ** Reading from a file *)

Definition file_bytes (l : list Z) : Prop := Forall (fun c => 0 <= c < 256) l.

Lemma take_line_app k l line fp : take_line k l = (line, fp) -> l = line ++ rest fp.
Proof.
  revert l line fp. induction k as [|k IH]; intros [|c l] line fp; cbn [take_line]; try by intros [= <- <-].
  case_if; [by intros [= <- <-]|]. destruct (take_line k l) as [line' fp'] eqn:E. intros [= <- <-].
  by rewrite (IH _ _ _ E).
Qed.

Lemma take_line_nil k l fp : take_line (S k) l = ([], fp) -> l = [].
Proof. destruct l as [|c l]; [done|]. cbn [take_line]. case_if; [done|]. by destruct (take_line k l). Qed.

Lemma fgets_some n fp buf fp' : fgets n fp = (Some buf, fp') -> rest fp = buf ++ rest fp' /\ buf <> [].
Proof.
  unfold fgets. case_if; [done|]. destruct (take_line (n - 1) (rest fp)) as [line r] eqn:E.
  apply take_line_app in E. destruct line; [done|]. by intros [= <- <-].
Qed.

Lemma c_string_bytes l : file_bytes l -> wf_cstr (c_string l).
Proof. induction 1 as [|c l Hc _ IH]; [by constructor|]. cbn [c_string]. case_if; constructor; [lia|done]. Qed.

Lemma skip_line_ok fuel fp : (length (rest fp) < fuel)%nat ->
  exists fp' l, skip_line fuel fp = Some fp' /\ rest fp = l ++ rest fp'.
Proof.
  revert fp. induction fuel as [|fuel IH]; intros fp Hf; [lia|]. cbn [skip_line].
  destruct (fgets buf_size fp) as [[buf|] fp1] eqn:E.
  - apply fgets_some in E as [E Hb]. case_if; [by exists fp1, buf|].
    assert (length buf <> 0%nat) by by destruct buf. rewrite E, length_app in Hf.
    destruct (IH fp1) as (fp' & l & -> & El); [lia|]. exists fp', (buf ++ l). by rewrite <- app_assoc, <- El.
  - unfold fgets in E. case_if_in E; [injection E as <-; by exists fp, []|].
    destruct (take_line _ (rest fp)) as [line r] eqn:El. apply take_line_app in El.
    destruct line; [|done]. injection E as <-. by exists r, [].
Qed.

Lemma words_wf l : wf_cstr l -> Forall wf_cstr (words l).
Proof.
  induction 1 as [|c l Hc Hl IH]; [by constructor|]. cbn [words]. case_if; [done|].
  assert (H1 : wf_cstr [c]) by by constructor.
  destruct l as [|d l]; [by constructor|]. case_if; [by constructor|].
  destruct (words (d :: l)) as [|w ws]; [by constructor|]. rewrite Forall_cons in IH.
  destruct IH as [Hw Hws]. constructor; [|exact Hws]. by constructor.
Qed.

Lemma alias_of_line_wf l a v : wf_cstr l -> alias_of_line l = Some (a, v) -> wf_cstr a /\ wf_cstr v.
Proof.
  intros Hl. rewrite alias_of_line_fields. unfold fields. apply words_wf in Hl.
  destruct (words l) as [|a' [|v' ws]]; [done..|]. case_if; [done|]. intros [= -> ->]. rewrite !Forall_cons in Hl. tauto.
Qed.

(** What is read after a line: the rest of the line is skipped. *)
Definition next_line (buf : list Z) (fp : stream) : option stream :=
  if existsb (Z.eqb 10) (c_string buf) then Some fp else skip_line (S (length (rest fp))) fp.

Lemma next_line_ok buf fp : exists fp' l, next_line buf fp = Some fp' /\ rest fp = l ++ rest fp'.
Proof. unfold next_line. case_if; [by exists fp, []|]. apply skip_line_ok. lia. Qed.

(** The aliases an open file has left. *)
Definition stream_aliases (fp : stream) : list (cstr * cstr) := if at_eof fp then [] else file_aliases (rest fp).

Lemma good_step fp buf fp1 fp2 : at_eof fp = false -> good_file (rest fp) ->
  fgets buf_size fp = (Some buf, fp1) -> next_line buf fp1 = Some fp2 ->
  good_file (rest fp2) /\
  stream_aliases fp = option_list (alias_of_line (c_string buf)) ++ stream_aliases fp2.
Proof.
  intros Ha Hg. unfold stream_aliases, fgets. rewrite Ha. unfold good_file, file_aliases, next_line in *.
  unfold split_lines in *. destruct (split_on_cases 10 (rest fp)) as [Hn|(l & b' & Er & Hn)].
  - revert Hg Hn. generalize (rest fp) as l. intros l Hg Hn. rewrite (split_on_last 10 l) in Hg |- * by done.
    rewrite Forall_singleton in Hg. destruct Hg as [Hw Hlen].
    rewrite take_line_last by done. destruct l as [|c l]; [done|]. intros [= <- <-].
    assert (Hc : c_string (c :: l) = c :: l).
    { pose proof (c_string_wf (c :: l) [] Hw) as H. by rewrite app_nil_r, app_nil_r in H. }
    rewrite Hc, newline_in, bool_decide_false by done. intros [= <-]. cbn [rest at_eof].
    split; [repeat constructor|]. rewrite app_nil_r, alias_of_line_fields. cbn [omap list_omap].
    by destruct (fields (c :: l)).
  - rewrite Er, (split_on_app 10 l b') in Hg |- * by done. rewrite Forall_cons in Hg. destruct Hg as [[Hw Hlen] Hg].
    rewrite take_line_full by done. destruct (l ++ [10]) as [|c k] eqn:E; [by destruct l|].
    intros [= <- <-]. rewrite <- E, c_string_wf by done. change (c_string [10]) with [10].
    rewrite newline_in, bool_decide_true by (rewrite elem_of_app; right; apply list_elem_of_here).
    intros [= <-]. cbn [rest at_eof]. split; [done|].
    rewrite alias_of_line_fields, fields_newline. cbn [omap list_omap]. by destruct (fields l).
Qed.

Lemma good_end fp fp1 : fgets buf_size fp = (None, fp1) -> stream_aliases fp = [].
Proof.
  unfold fgets, stream_aliases. destruct (at_eof fp); [done|].
  destruct (take_line (buf_size - 1) (rest fp)) as [line r] eqn:E. destruct line; [intros _|done].
  by rewrite (take_line_nil _ _ _ E).
Qed.

(** ** Sorted tables *)

Definition key_le (p q : cstr * cstr) : Prop := strcmp (lower p.1) (lower q.1) <= 0.

Definition sorted (l : list (cstr * cstr)) : Prop := StronglySorted key_le l.

Lemma StronglySorted_map {A B} (R : B -> B -> Prop) (f : A -> B) l :
  StronglySorted R (map f l) <-> StronglySorted (fun x y => R (f x) (f y)) l.
Proof.
  induction l as [|x l IH]; cbn [map]; split; intros H; inversion_clear H; constructor;
    try (by apply IH); by apply Forall_map.
Qed.

Lemma StronglySorted_weaken {A} (R S : A -> A -> Prop) l :
  (forall x y, x ∈ l -> y ∈ l -> R x y -> S x y) -> StronglySorted R l -> StronglySorted S l.
Proof.
  intros HRS H. induction H as [|x l Hl IH Hx]; constructor.
  - apply IH. intros y z Hy Hz. apply HRS; by apply list_elem_of_further.
  - rewrite Forall_forall in Hx |- *. intros y Hy. apply HRS; [apply list_elem_of_here|by apply list_elem_of_further|auto].
Qed.

Lemma alias_compare_key st x y : valid_entry st x -> valid_entry st y ->
  alias_compare st x y = strcmp (lower (decode st x).1) (lower (decode st y).1).
Proof. intros Hx Hy. apply valid_decode in Hx as [[Hx _] _], Hy as [[Hy _] _]. by apply case_compare_lower. Qed.

Lemma decode_wf st m : valid_entry st m -> wf_cstr (lower (decode st m).1).
Proof. intros H. apply valid_decode in H as [[H _] _]. by apply wf_lower. Qed.

(** ** Adding an entry *)

Section Spec.
Context `{SL : SortSearchLaws} (mal_map : nat -> bool) (mal_pool : nat -> option Z).

(** No allocation fails. *)
Definition memory : Prop := (forall i, mal_map i = true) /\ (forall i, mal_pool i <> None).

(** [st'] denotes the same table as [st]. *)
Definition same_table (st st' : alias_state) : Prop :=
  table_ok st' /\ entries st' = entries st /\ locale_alias_path st' = locale_alias_path st /\ nmap st' = nmap st.

(** The outcome of an operation that can run out of memory. *)
Definition outcome (P : alias_state -> Prop) (r : alias_state + alias_state) (st : alias_state) : Prop :=
  match r with inl st' => P st' | inr st' => same_table st st' /\ ~ memory end.

Lemma extend_alias_table_ok st : table_ok st ->
  outcome (fun st' => same_table st st' /\ nmap st' < maxmap st') (extend_alias_table mal_map st) st \/ nmap st < maxmap st.
Proof.
  intros (Hv & Hs & Hn & Hm). destruct (decide (nmap st < maxmap st)); [by right|left].
  unfold extend_alias_table. destruct (mal_map (n_reallocs st)) eqn:E.
  - set (size := if maxmap st =? 0 then 100 else 2 * maxmap st).
    assert (nmap st < size /\ 0 <= size) as [Hsize ?].
    { unfold size. case_if; [|lia]. assert (0 <= nmap st) by (unfold nmap; lia). lia. }
    set (st' := AliasState _ _ _ _ _ _ _). assert (nmap st' = nmap st) as Hnm by done.
    assert (maxmap st' = size) as Hmax by done.
    split; [|rewrite Hnm, Hmax; done]. split_and!; [split_and!|..]; try done. rewrite Hnm, Hmax. lia.
  - split; [by split_and!|]. intros [Hmem _]. by rewrite Hmem in E.
Qed.

Lemma extend_pool_ok st n : table_ok st -> 0 <= n ->
  outcome (fun st' => same_table st st' /\ maxmap st' = maxmap st /\ string_space_act st' + n <= string_space_max st')
    (extend_pool mal_pool st n) st.
Proof.
  intros (Hv & Hs & Hn & Hm) Hn0. unfold extend_pool. rewrite Z.gtb_ltb. case_if; [|by split_and!].
  destruct (mal_pool (n_reallocs st)) as [pool|] eqn:E; [|split; [by split_and!|intros [_ Hmem]; by apply (Hmem _ E)]].
  set (st' := AliasState _ _ _ _ _ _ _).
  destruct (entries_renamed st st' (fun m => AliasMap (alias m + (pool - string_space st)) (value m + (pool - string_space st)))
    (map_ st) Hv) as [Hv' He].
  { intros m a v Ha Hv'. split; eapply stands_moved; try done; cbn; lia. }
  assert (string_space_act st' = string_space_act st) as Hact by done.
  assert (nmap st' = nmap st) as Hnm by (unfold nmap, st'; cbn; by rewrite length_map).
  assert (Hfit : string_space_act st' + n <= string_space_max st').
  { rewrite Hact. cbn. rewrite Z.gtb_ltb. case_if; lia. }
  split; [|done]. split_and!; [|exact He|done..]. split_and!; [exact Hv'|rewrite Hact|rewrite Hnm|]; try done.
  rewrite Hact in Hfit. lia.
Qed.

Lemma append_entry_ok st a v : table_ok st -> nmap st < maxmap st -> wf_cstr a -> wf_cstr v ->
  string_space_act st + (Z.of_nat (length a) + 1 + (Z.of_nat (length v) + 1)) <= string_space_max st ->
  table_ok (append_entry st a v) /\ entries (append_entry st a v) = entries st ++ [(a, v)].
Proof.
  intros (Hv & Hs & Hn & Hm) Hroom Ha Hv' Hact. set (st' := append_entry st a v).
  destruct (entries_renamed st st' id (map_ st) Hv) as [Hv1 He1].
  { intros m s1 s2 H1 H2. split; eapply stands_grown; done. }
  set (m := AliasMap (string_space st + string_space_act st) (string_space st + string_space_act st + Z.of_nat (length a) + 1)).
  assert (Hsa : stands st' (alias m) a).
  { split; [done|]. by exists (space st), (v ++ [0]). }
  assert (Hsv : stands st' (value m) v).
  { split; [done|]. exists (space st ++ a ++ [0]), []. split; [unfold st'; cbn; by rewrite <- !app_assoc|].
    cbn. unfold string_space_act. rewrite !length_app. simpl length. lia. }
  rewrite map_id in Hv1, He1. split.
  - split_and!.
    + change (map_ st') with (map_ st ++ [m]). apply Forall_app. split; [done|]. constructor; [|done]. split; eauto.
    + unfold string_space_act in *. change (space st') with (space st ++ a ++ [0] ++ v ++ [0]).
      change (string_space_max st') with (string_space_max st). rewrite !length_app. simpl length. lia.
    + unfold nmap in *. change (map_ st') with (map_ st ++ [m]). change (maxmap st') with (maxmap st).
      rewrite length_app. simpl length. lia.
    + done.
  - unfold entries. change (map_ st') with (map_ st ++ [m]). rewrite map_app, He1. cbn [map].
    by rewrite (valid_decode_eq _ _ _ _ Hsa Hsv).
Qed.

(** A new entry, or the table unchanged. *)
Lemma add_alias_ok st a v : table_ok st -> wf_cstr a -> wf_cstr v ->
  outcome (fun st' => table_ok st' /\ entries st' = entries st ++ [(a, v)] /\ locale_alias_path st' = locale_alias_path st)
    (add_alias mal_map mal_pool st a v) st.
Proof.
  intros Hok Ha Hv. unfold add_alias.
  assert (H1 : outcome (fun st' => same_table st st' /\ nmap st' < maxmap st')
    (if nmap st >=? maxmap st then extend_alias_table mal_map st else inl st) st).
  { rewrite Z.geb_leb. case_if; [destruct (extend_alias_table_ok st Hok) as [?|?]; [done|lia]|]. by split_and!. }
  destruct (if nmap st >=? maxmap st then _ else _) as [st1|st1]; [|done].
  destruct H1 as [(Hok1 & He1 & Hp1 & Hn1) Hroom].
  pose proof (extend_pool_ok st1 (Z.of_nat (length a) + 1 + (Z.of_nat (length v) + 1)) Hok1 ltac:(lia)) as H2.
  destruct (extend_pool mal_pool st1 _) as [st2|st2].
  - destruct H2 as [(Hok2 & He2 & Hp2 & Hn2) [Hm2 Hact]].
    destruct (append_entry_ok st2 a v) as [Hok3 He3]; [done|lia|done|done|lia|].
    split_and!; [done|by rewrite He3, He2, He1|by rewrite <- Hp1, <- Hp2].
  - destruct H2 as [(Hok2 & He2 & Hp2 & Hn2) Hmem]. split; [|done].
    split_and!; [done|congruence|congruence|congruence].
Qed.

Lemma read_lines_ok fuel fp st n : table_ok st -> file_bytes (rest fp) -> (length (rest fp) < fuel)%nat ->
  exists st' L, read_lines mal_map mal_pool fuel fp st n = Some (st', n + Z.of_nat (length L)) /\
    table_ok st' /\ entries st' = entries st ++ L /\ locale_alias_path st' = locale_alias_path st /\
    (memory -> good_file (rest fp) -> L = stream_aliases fp).
Proof using Type.
  revert fp st n. induction fuel as [|fuel IH]; intros fp st n Hok Hb Hf; [lia|]. cbn [read_lines].
  assert (Hend : stream_aliases fp = [] -> exists st' L, Some (st, n) = Some (st', n + Z.of_nat (length L)) /\
    table_ok st' /\ entries st' = entries st ++ L /\ locale_alias_path st' = locale_alias_path st /\
    (memory -> good_file (rest fp) -> L = stream_aliases fp)).
  { intros ->. exists st, []. rewrite app_nil_r. cbn. rewrite Z.add_0_r. done. }
  unfold feof. destruct (at_eof fp) eqn:Heof; [apply Hend; unfold stream_aliases; by rewrite Heof|].
  destruct (fgets buf_size fp) as [[buf|] fp1] eqn:Eg; [|by apply Hend, (good_end _ _ Eg)].
  change (if existsb _ _ then _ else _) with (next_line buf fp1).
  destruct (next_line_ok buf fp1) as (fp2 & l & En & El). pose proof (fgets_some _ _ _ _ Eg) as [Er Hne].
  assert (Hb1 : file_bytes buf /\ file_bytes (rest fp2)).
  { unfold file_bytes in *. rewrite Er, El, !Forall_app in Hb. tauto. }
  assert (Hlen : (length (rest fp2) < fuel)%nat).
  { assert (length buf <> 0%nat) by by destruct buf. rewrite Er, El, !length_app in Hf. lia. }
  pose proof (good_step fp buf fp1 fp2 Heof) as Hgood. rewrite En.
  destruct (alias_of_line (c_string buf)) as [[a v]|] eqn:Ea.
  - pose proof (alias_of_line_wf _ _ _ (c_string_bytes _ (proj1 Hb1)) Ea) as [Ha Hv].
    pose proof (add_alias_ok st a v Hok Ha Hv) as Hadd. destruct (add_alias _ _ st a v) as [st1|st1].
    + destruct Hadd as (Hok1 & He1 & Hp1). destruct (IH fp2 st1 (n + 1)) as (st2 & L & E2 & Hok2 & He2 & Hp2 & HL); [tauto..|].
      exists st2, ((a, v) :: L). cbn [mbind option_bind]. rewrite E2. split_and!; [|done|by rewrite He2, He1, <- app_assoc|congruence|].
      * simpl length. f_equal. f_equal. lia.
      * intros Hm Hg. destruct (Hgood Hg Eg En) as [Hg2 ->]. cbn. by rewrite HL.
    + destruct Hadd as [(Hok1 & He1 & Hp1 & _) Hm]. exists st1, []. rewrite app_nil_r.
      split_and!; [by rewrite Z.add_0_r|done..].
  - cbn [mbind option_bind]. destruct (IH fp2 st n) as (st2 & L & E2 & Hok2 & He2 & Hp2 & HL); [tauto..|].
    exists st2, L. rewrite E2. split_and!; [done..|]. intros Hm Hg. destruct (Hgood Hg Eg En) as [Hg2 ->]. cbn. by rewrite HL.
Qed.

(** ** Files *)

(** Sorting moves entries and keeps them valid. *)
Lemma sort_ok st : table_ok st ->
  let st' := set_map st (qsort (alias_compare st) (map_ st)) in
  table_ok st' /\ sorted (entries st') /\ entries st' ≡ₚ entries st.
Proof using SL.
  intros (Hv & Hs & Hn & Hm) st'. pose proof (qsort_permutation (alias_compare st) (map_ st)) as Hp.
  assert (Hv' : Forall (valid_entry st) (map_ st')) by (unfold st'; cbn; by rewrite Hp).
  assert (Hnm : nmap st' = nmap st) by (unfold nmap, st'; cbn; by rewrite Hp).
  assert (Hval : forall x, x ∈ map_ st -> valid_entry st x) by (by apply Forall_forall).
  split; [split_and!; [exact Hv'|done|rewrite Hnm; done|done]|]. split; [|by apply Permutation_map].
  apply StronglySorted_map. assert (Hss : StronglySorted (fun x y => alias_compare st x y <= 0) (map_ st')).
  { apply qsort_sorted.
    - intros x y Hx Hy. rewrite !alias_compare_key by auto. rewrite (strcmp_sym (lower _)). lia.
    - intros x y z Hx Hy Hz. rewrite !alias_compare_key by auto. apply strcmp_le_trans; apply decode_wf; auto. }
  eapply StronglySorted_weaken; [|exact Hss]. cbn beta. intros x y Hx Hy Hxy.
  rewrite Forall_forall in Hv'. unfold key_le. change (decode st') with (decode st).
  by rewrite <- alias_compare_key by auto.
Qed.

(** The search finds an entry with the name, without regard to case, or there is none. *)
Lemma find_alias_ok st name : table_ok st -> sorted (entries st) -> wf_cstr name ->
  match find_alias st name with
  | Some m => decode st m ∈ entries st /\ lower (decode st m).1 = lower name /\
              string_at st (value m) = Some (decode st m).2
  | None => Forall (fun p => lower p.1 <> lower name) (entries st)
  end.
Proof using SL.
  intros (Hv & Hs & Hn & Hm) Hsort Hw. unfold find_alias. rewrite Z.gtb_ltb.
  assert (Hval : forall x, x ∈ map_ st -> valid_entry st x) by (by apply Forall_forall).
  assert (Hc : forall x, x ∈ map_ st -> case_compare name (alias_str st x) = strcmp (lower name) (lower (decode st x).1)).
  { intros x Hx. apply Hval, valid_decode in Hx as [[Hx _] _]. by apply case_compare_lower. }
  case_if.
  - destruct (bsearch _ (map_ st)) as [m|] eqn:E.
    + apply bsearch_in in E as [Hin E0]. rewrite Hc in E0 by done.
      apply strcmp_eq in E0; [|by apply wf_lower|by apply decode_wf, Hval]. split_and!; [|done|].
      * by apply (list_elem_of_fmap_2 (decode st)).
      * apply Hval, valid_decode in Hin as [_ Hval']. by apply stands_string_at.
    + apply bsearch_complete in E.
      * apply Forall_map. rewrite Forall_forall in E |- *. intros x Hx Heq. apply (E x Hx).
        rewrite Hc, Heq by done. apply strcmp_refl.
      * eapply StronglySorted_weaken; [|by apply (StronglySorted_map key_le (decode st))]. cbn beta. intros x y Hx Hy Hxy.
        rewrite !Hc by done. unfold key_le in Hxy.
        pose proof (wf_lower _ Hw) as Hn'. pose proof (decode_wf _ _ (Hval _ Hx)) as Hx'.
        pose proof (decode_wf _ _ (Hval _ Hy)) as Hy'. split; [|intros ?; by apply (strcmp_le_trans _ (lower (decode st x).1))].
        intros Hlt. destruct (decide (strcmp (lower name) (lower (decode st y).1) = 0)) as [E0|].
        -- apply strcmp_eq in E0; [|done..]. rewrite E0, (strcmp_sym (lower (decode st x).1)) in Hlt. lia.
        -- assert (strcmp (lower name) (lower (decode st y).1) <= 0); [|lia]. eapply strcmp_le_trans; [done|exact Hx'|done|lia|done].
  - unfold entries, nmap in *. destruct (map_ st); [constructor|]. simpl length in *. lia.
Qed.
End Spec.
