(* ===== verification/L10nFlist.v ===== *)
(** * The pool of message catalog files: l10nflist.c

    [_nl_make_l10nflist] looks up, or creates, the entry for a locale dependent
    file, and links a new entry to the entries it inherits from: the same file
    name with parts of the locale name dropped, in each directory of the list.
    A directory list is an argz vector: the bytes of NUL-terminated strings, one
    after the other.  An entry is identified by a number, in the order of
    allocation; [mal k size] tells whether the [k]-th malloc, of [size] bytes,
    succeeds. *)

From S2P Require Import Prelude LocaleName.

Open Scope Z_scope.

Definition PATH_SEPARATOR : Z := chr ":".
Definition ISSLASH (c : Z) : bool := c =? chr "/".
Definition IS_ABSOLUTE_PATH (p : cstr) : bool := ISSLASH (cur p).

(** ** argz vectors *)

Definition strlen (s : list Z) : nat := scan_until never s.

Fixpoint argz_count_loop (fuel : nat) (argz : list Z) (count : Z) : Z :=
  match fuel, argz with
  | S fuel, _ :: _ => argz_count_loop fuel (drop (S (strlen argz)) argz) (count + 1)
  | _, _ => count
  end.
Definition argz_count (argz : list Z) : Z := argz_count_loop (length argz) argz 0.

Fixpoint argz_stringify_loop (fuel : nat) (argz : list Z) (sep : Z) : list Z :=
  match fuel, argz with
  | S fuel, _ :: _ =>
      let part_len := strlen argz in
      let rest := drop (S part_len) argz in
      if Nat.ltb 0 (length rest)
      then take part_len argz ++ sep :: argz_stringify_loop fuel rest sep
      else argz
  | _, _ => argz
  end.
Definition argz_stringify (argz : list Z) (sep : Z) : list Z :=
  argz_stringify_loop (length argz) argz sep.

(** The entry after [entry], an offset into the vector. *)
Definition argz_next (argz : list Z) (entry : option nat) : option nat :=
  match entry with
  | Some e =>
      let e := if Nat.ltb e (length argz) then (e + strlen (drop e argz) + 1)%nat else e in
      if Nat.leb (length argz) e then None else Some e
  | None => if Nat.ltb 0 (length argz) then Some 0%nat else None
  end.

(** ** pop *)

Definition pop (x : Z) : Z :=
  let x := Z.shiftr (Z.land x (Z.lnot 0x5555)) 1 + Z.land x 0x5555 in
  let x := Z.shiftr (Z.land x (Z.lnot 0x3333)) 2 + Z.land x 0x3333 in
  let x := Z.land (Z.shiftr x 4 + x) 0x0f0f in
  let x := Z.land (Z.shiftr x 8 + x) 0xff in
  x.

(** ** The pool *)

(** [struct loaded_l10nfile]; [room] is the number of elements of
    [successor[]] there is memory for. *)
Record l10nfile := L10nfile {
  file_id : nat;
  filename : cstr;
  decided : bool;
  room : Z
}.

(** [*l10nfile_list], and the elements stored into the [successor] arrays. *)
Record pool := Pool {
  files : list l10nfile;
  successor : gmap nat (list (option nat));
  next_id : nat;
  n_allocs : nat
}.

(** The parts of the file name that stay the same over the recursion. *)
Record names := Names {
  nm_language : cstr;
  nm_territory : cstr;
  nm_codeset : cstr;
  nm_normalized_codeset : cstr;
  nm_modifier : cstr;
  nm_filename : cstr
}.

Definition has (mask bit : Z) : bool := negb (Z.land mask bit =? 0).

Definition sizeof_loaded_l10nfile : Z := 40.
Definition sizeof_pointer : Z := 8.

Definition abs_filename_size (nm : names) (dirlist : list Z) (mask : Z) : Z :=
  let len (s : cstr) := Z.of_nat (length s) in
  len dirlist + len (nm_language nm)
  + (if has mask XPG_TERRITORY then len (nm_territory nm) + 1 else 0)
  + (if has mask XPG_CODESET then len (nm_codeset nm) + 1 else 0)
  + (if has mask XPG_NORM_CODESET then len (nm_normalized_codeset nm) + 1 else 0)
  + (if has mask XPG_MODIFIER then len (nm_modifier nm) + 1 else 0)
  + 1 + len (nm_filename nm) + 1.

(** The bytes written to [abs_filename] before its NUL. *)
Definition abs_filename (nm : names) (dirlist : list Z) (mask : Z) : cstr :=
  (if Nat.ltb 0 (length dirlist)
   then take (length dirlist - 1) (argz_stringify dirlist PATH_SEPARATOR) ++ [chr "/"] else [])
  ++ nm_language nm
  ++ (if has mask XPG_TERRITORY then chr "_" :: nm_territory nm else [])
  ++ (if has mask XPG_CODESET then chr "." :: nm_codeset nm else [])
  ++ (if has mask XPG_NORM_CODESET then chr "." :: nm_normalized_codeset nm else [])
  ++ (if has mask XPG_MODIFIER then chr "@" :: nm_modifier nm else [])
  ++ chr "/" :: nm_filename nm.

(** The search of the list: the entry, if it is there, or the elements before
    and after [*lastp].  (Every entry has a file name: only this file creates
    entries, and no code stores a null [filename].) *)
Inductive search_result :=
| Found (f : l10nfile)
| NotFound (before after : list l10nfile).

Fixpoint search (l : list l10nfile) (name : cstr) : search_result :=
  match l with
  | [] => NotFound [] []
  | f :: l' =>
      let compare := strcmp (filename f) name in
      if compare =? 0 then Found f
      else if compare <? 0 then NotFound [] l
      else match search l' name with
           | Found g => Found g
           | NotFound before after => NotFound (f :: before) after
           end
  end.

Section Make.
Context (mal : nat -> Z -> bool) (nm : names).

(** [retval->successor[entries++] = r] *)
Definition push_successor (p : pool) (retval : nat) (r : option nat) : pool :=
  Pool (files p) (<[retval := default [] (successor p !! retval) ++ [r]]> (successor p))
    (next_id p) (n_allocs p).

Definition did_alloc (p : pool) : pool := Pool (files p) (successor p) (next_id p) (S (n_allocs p)).

(** The loops that fill [successor]; [rec dirlist mask] is the recursive call,
    [None] where it runs out of fuel. *)
Section Loops.
Context (rec : list Z -> Z -> pool -> option (option nat * pool)).
Context (dirlist : list Z) (retval : nat).

(** [while ((dir = __argz_next (dirlist, dirlist_len, dir)) != NULL)] *)
Fixpoint dir_loop (fuel : nat) (dir : option nat) (cnt : Z) (p : pool) : option pool :=
  match fuel with
  | O => None
  | S fuel =>
      match argz_next dirlist dir with
      | None => Some p
      | Some d =>
          '(r, p) ← rec (take (S (strlen (drop d dirlist))) (drop d dirlist)) cnt p;
          dir_loop fuel (Some d) cnt (push_successor p retval r)
      end
  end.

(** [for (cnt = ...; cnt >= 0; --cnt)] from [cnt = k - 1] on. *)
Fixpoint mask_loop (mask : Z) (dirlist_count : Z) (k : nat) (p : pool) : option pool :=
  match k with
  | O => Some p
  | S k =>
      let cnt := Z.of_nat k in
      p ← (if (Z.land cnt (Z.lnot mask) =? 0)
              && negb (has cnt XPG_CODESET && has cnt XPG_NORM_CODESET) then
             if 1 <? dirlist_count then dir_loop (S (length dirlist)) None cnt p
             else '(r, p) ← rec dirlist cnt p; Some (push_successor p retval r)
           else Some p);
      mask_loop mask dirlist_count k p
  end.
End Loops.

Fixpoint _nl_make_l10nflist (fuel : nat) (do_allocate : bool) (dirlist : list Z) (mask : Z) (p : pool)
    : option (option nat * pool) :=
  match fuel with
  | O => None
  | S fuel =>
      let dirlist := if IS_ABSOLUTE_PATH (nm_language nm) then [] else dirlist in
      if negb (mal (n_allocs p) (abs_filename_size nm dirlist mask)) then Some (None, did_alloc p)
      else
        let p := did_alloc p in
        match search (files p) (abs_filename nm dirlist mask) with
        | Found f => Some (Some (file_id f), p)
        | NotFound before after =>
            if negb do_allocate then Some (None, p)
            else
              let dirlist_count := if Nat.ltb 0 (length dirlist) then argz_count dirlist else 1 in
              let slots := Z.shiftl dirlist_count (pop mask) + (if 1 <? dirlist_count then 1 else 0) in
              if negb (mal (n_allocs p) (sizeof_loaded_l10nfile + slots * sizeof_pointer))
              then Some (None, did_alloc p)
              else
                let retval := next_id p in
                let f := L10nfile retval (abs_filename nm dirlist mask)
                  ((1 <? dirlist_count) || (has mask XPG_CODESET && has mask XPG_NORM_CODESET))
                  (slots + 1) in
                let p := Pool (before ++ f :: after) (<[retval := []]> (successor p))
                           (S retval) (S (n_allocs p)) in
                p ← mask_loop (_nl_make_l10nflist fuel true) dirlist retval mask dirlist_count
                      (Z.to_nat (if 1 <? dirlist_count then mask + 1 else mask)) p;
                Some (Some retval, p)
        end
  end.
End Make.

Definition empty_pool : pool := Pool [] ∅ 0 0.

Example make_ex :
  match _nl_make_l10nflist (fun _ _ => true)
          (Names (cs "de") (cs "AT") [] [] [] (cs "LC_MESSAGES/a.mo")) 18 true
          (cs "/l" ++ [0]) XPG_TERRITORY empty_pool with
  | Some (r, p) => (r, filename <$> files p, successor p !! 0%nat)
  | None => (None, [], None)
  end = (Some 0%nat, [cs "/l/de_AT/LC_MESSAGES/a.mo"; cs "/l/de/LC_MESSAGES/a.mo"],
         Some [Some 1%nat]).
Proof. vm_compute. reflexivity. Qed.
