(* ===== verification/L10nFlistSpec.v ===== *)
(** * What _nl_make_l10nflist promises

    The pool stays sorted in decreasing order without duplicates, lookups find
    what is there, the [successor] arrays never overflow, the recursion ends,
    and the successors of a new entry are the files it inherits from. *)

From Stdlib Require Import Sorted.
From S2P Require Import Prelude LocaleName L10nFlist.

Open Scope Z_scope.

(** ** argz vectors *)

Definition argz (ds : list cstr) : list Z := concat (map (fun s => s ++ [0]) ds).

(** The strings joined with a separator. *)
Fixpoint join (sep : Z) (ds : list cstr) : cstr :=
  match ds with
  | [] => []
  | [d] => d
  | d :: ds => d ++ sep :: join sep ds
  end.

Lemma wf_clean s : wf_cstr s -> clean never s.
Proof. intros H. eapply Forall_impl; [exact H|]. simpl. intros c Hc. split; [lia|done]. Qed.

Lemma strlen_app s r : wf_cstr s -> strlen (s ++ 0 :: r) = length s.
Proof. intros H. apply scan_until_app; [by apply wf_clean|by left]. Qed.

Lemma argz_cons d ds : argz (d :: ds) = d ++ 0 :: argz ds.
Proof. unfold argz. simpl. by rewrite <- app_assoc. Qed.

Lemma argz_app ds1 ds2 : argz (ds1 ++ ds2) = argz ds1 ++ argz ds2.
Proof. unfold argz. by rewrite map_app, concat_app. Qed.

Lemma argz_tail d ds : wf_cstr d -> drop (S (strlen (argz (d :: ds)))) (argz (d :: ds)) = argz ds.
Proof. intros H. by rewrite argz_cons, strlen_app, drop_at. Qed.

Lemma argz_cons_ne d ds : exists c r, argz (d :: ds) = c :: r.
Proof. rewrite argz_cons. destruct d; simpl; eauto. Qed.

Lemma length_argz_cons d ds : length (argz (d :: ds)) = (length d + S (length (argz ds)))%nat.
Proof. by rewrite argz_cons, length_app. Qed.

Lemma argz_count_spec ds : Forall wf_cstr ds -> argz_count (argz ds) = Z.of_nat (length ds).
Proof.
  intros Hds. unfold argz_count.
  assert (H : forall fuel count, (length (argz ds) <= fuel)%nat ->
    argz_count_loop fuel (argz ds) count = count + Z.of_nat (length ds)).
  { induction Hds as [|d ds Hd _ IH]; intros fuel count Hf.
    - destruct fuel; simpl; lia.
    - rewrite length_argz_cons in Hf. destruct fuel as [|fuel]; [lia|].
      pose proof (argz_tail d ds Hd) as Ht. destruct (argz_cons_ne d ds) as (c & r & E).
      rewrite E in Ht |- *. cbn [argz_count_loop]. rewrite Ht, IH by lia. simpl length. lia. }
  rewrite H; lia.
Qed.

Lemma argz_stringify_spec d ds sep :
  Forall wf_cstr (d :: ds) -> argz_stringify (argz (d :: ds)) sep = join sep (d :: ds) ++ [0].
Proof.
  intros Hds. unfold argz_stringify.
  assert (H : forall fuel, (length (argz (d :: ds)) <= fuel)%nat ->
    argz_stringify_loop fuel (argz (d :: ds)) sep = join sep (d :: ds) ++ [0]).
  { revert d Hds. induction ds as [|d' ds IH]; intros d Hds fuel Hf;
      apply Forall_cons in Hds as [Hd Hds]; rewrite length_argz_cons in Hf;
      (destruct fuel as [|fuel]; [lia|]); pose proof (argz_tail d) as Ht.
    - specialize (Ht [] Hd). destruct (argz_cons_ne d []) as (c & r & E).
      cbn [argz_stringify_loop]. rewrite E. rewrite E in Ht. rewrite Ht. simpl.
      rewrite <- E. by rewrite argz_cons.
    - specialize (Ht (d' :: ds) Hd).
      assert (Htk : take (strlen (argz (d :: d' :: ds))) (argz (d :: d' :: ds)) = d).
      { rewrite argz_cons, strlen_app by done. by rewrite take_app_length. }
      destruct (argz_cons_ne d (d' :: ds)) as (c & r & E). rewrite E in *.
      cbn [argz_stringify_loop]. cbv zeta. rewrite Ht, Htk.
      rewrite length_argz_cons at 1. rewrite (proj2 (Nat.ltb_lt 0 _)) by lia.
      rewrite IH by (done || lia). simpl. by rewrite <- app_assoc. }
  by apply H.
Qed.

(** Where the loop over the directories stands after the entries [pre]. *)
Definition cursor (pre : list cstr) : option nat :=
  match pre with [] => None | _ => Some (length (argz (removelast pre))) end.

Lemma cursor_snoc pre d : cursor (pre ++ [d]) = Some (length (argz pre)).
Proof. unfold cursor. rewrite removelast_last. by destruct pre. Qed.

Lemma argz_next_spec pre post :
  Forall wf_cstr (pre ++ post) ->
  argz_next (argz (pre ++ post)) (cursor pre) =
  match post with [] => None | _ => Some (length (argz pre)) end.
Proof.
  intros Hw. destruct pre as [|d pre] using rev_ind.
  - simpl. destruct post as [|d post]; [done|].
    destruct (argz_cons_ne d post) as (c & r & E). rewrite E. done.
  - clear IHpre. rewrite cursor_snoc. unfold argz_next.
    assert (Hd : wf_cstr d).
    { apply Forall_app in Hw as [Hw _]. apply Forall_app in Hw as [_ Hw]. by apply Forall_cons in Hw as [? _]. }
    rewrite !argz_app, <- app_assoc. rewrite drop_app_length.
    rewrite (proj2 (Nat.ltb_lt _ _)).
    2: { rewrite !length_app, length_argz_cons. lia. }
    rewrite argz_cons, <- app_assoc, <- app_comm_cons, strlen_app by done.
    rewrite !length_app. simpl. destruct post as [|e post].
    + rewrite (proj2 (Nat.leb_le _ _)); [done|]. simpl. lia.
    + rewrite (proj2 (Nat.leb_gt _ _)); [f_equal; lia|]. rewrite length_argz_cons. lia.
Qed.

(** ** pop *)

(** The number of one bits among the first [n]. *)
Definition ones (n : nat) (x : Z) : Z :=
  Z.of_nat (length (filter (fun i => Z.testbit x (Z.of_nat i) = true) (seq 0 n))).

Definition popcount : Z -> Z := ones 16.

(** The bits of a number of two bytes. *)
Lemma two_bytes_testbit h l i : 0 <= l < 256 -> 0 <= i ->
  Z.testbit (256 * h + l) i = if i <? 8 then Z.testbit l i else Z.testbit h (i - 8).
Proof.
  intros Hl Hi. case_if.
  - rewrite <- (Z.mod_pow2_bits_low (256 * h + l) 8) by lia. f_equal. change (2 ^ 8) with 256.
    rewrite Z.add_comm, Z.mul_comm, Z.mod_add by lia. apply Z.mod_small. lia.
  - replace i with (i - 8 + 8) at 1 by lia. rewrite <- Z.div_pow2_bits by lia. f_equal. change (2 ^ 8) with 256.
    rewrite Z.mul_comm, Z.div_add_l by lia. rewrite Z.div_small by lia. lia.
Qed.

Lemma byte_land l m : 0 <= l < 256 -> 0 <= m -> 0 <= Z.land l m < 256.
Proof.
  intros Hl Hm. split; [apply Z.land_nonneg; lia|]. apply (bits_below 8); [lia|apply Z.land_nonneg; lia|].
  intros i Hi. rewrite Z.land_spec. rewrite <- (Z.mod_small l (2 ^ 8)) by (change (2 ^ 8) with 256; lia).
  by rewrite Z.mod_pow2_bits_high by lia.
Qed.

Lemma two_bytes_land h l hm lm : 0 <= l < 256 -> 0 <= lm < 256 ->
  Z.land (256 * h + l) (256 * hm + lm) = 256 * Z.land h hm + Z.land l lm.
Proof.
  intros Hl Hm. apply Z.bits_inj'. intros i Hi. pose proof (byte_land l lm Hl ltac:(lia)).
  rewrite Z.land_spec, !two_bytes_testbit by lia. case_if; by rewrite Z.land_spec.
Qed.

(** One step of [pop], for a mask that is repeated in each byte. *)
Definition pop_step (k m x : Z) : Z := Z.shiftr (Z.land x (Z.lnot m)) k + Z.land x m.

(** What a step does to a byte. *)
Definition byte_step (k m b : Z) : bool :=
  (Z.land b (Z.lnot m) mod 2 ^ k =? 0) && (Z.land b (255 - m) =? Z.land b (Z.lnot m)) &&
  (0 <=? pop_step k m b) && (pop_step k m b <? 256).

Lemma pop_step_bytes k m h l : 0 <= k -> 0 <= m < 256 -> 0 <= l < 256 -> byte_step k m h = true -> byte_step k m l = true ->
  pop_step k (256 * m + m) (256 * h + l) = 256 * pop_step k m h + pop_step k m l.
Proof.
  intros Hk Hm Hl Hh Hb. unfold byte_step in *. breflect. unfold pop_step in *.
  replace (Z.lnot (256 * m + m)) with (256 * Z.lnot m + (255 - m)) by (unfold Z.lnot; lia).
  rewrite !two_bytes_land by lia. replace (Z.land l (255 - m)) with (Z.land l (Z.lnot m)) by lia.
  assert (H2k : 0 < 2 ^ k) by (apply Z.pow_pos_nonneg; lia).
  rewrite !Z.shiftr_div_pow2 by lia. set (a := Z.land h (Z.lnot m)) in *.
  rewrite (Z.div_mod a (2 ^ k)) at 1 by lia. replace (a mod 2 ^ k) with 0 by lia.
  replace (256 * (2 ^ k * (a / 2 ^ k) + 0)) with (256 * (a / 2 ^ k) * 2 ^ k) by lia. rewrite Z.div_add_l by lia. lia.
Qed.

(** The first two steps give the number of ones of each half byte. *)
Definition half_bytes (b : Z) : Z := pop_step 2 0x33 (pop_step 1 0x55 b).

Definition byte_check (b : Z) : bool :=
  byte_step 1 0x55 b && byte_step 2 0x33 (pop_step 1 0x55 b) &&
  (half_bytes b / 16 + half_bytes b mod 16 =? ones 8 b) && (half_bytes b / 16 <=? 4) && (half_bytes b mod 16 <=? 4).

Lemma byte_checked b : 0 <= b < 256 -> byte_check b = true.
Proof. intros Hb. apply (check_range_spec byte_check 8 0); [vm_compute; reflexivity|simpl; lia]. Qed.

Lemma two_bytes_ones h l : 0 <= l < 256 -> ones 16 (256 * h + l) = ones 8 h + ones 8 l.
Proof.
  intros Hl. unfold ones. change (seq 0 16) with (seq 0 8 ++ map (Nat.add 8) (seq 0 8)).
  rewrite filter_app, length_app, Nat2Z.inj_add, Z.add_comm. f_equal; f_equal.
  - generalize (seq 0 8) as s. intros s. induction s as [|i s IH]; [done|]. cbn [map]. rewrite !filter_cons.
    rewrite two_bytes_testbit by lia. rewrite (proj2 (Z.ltb_ge _ _)) by lia.
    replace (Z.of_nat (8 + i) - 8) with (Z.of_nat i) by lia. destruct (decide _); cbn [length]; by rewrite IH.
  - assert (Hs : Forall (fun i => (i < 8)%nat) (seq 0 8)) by (repeat constructor; lia).
    induction Hs as [|i s Hi _ IH]; [done|]. rewrite !filter_cons.
    rewrite two_bytes_testbit by lia. rewrite (proj2 (Z.ltb_lt _ 8)) by lia. destruct (decide _); cbn [length]; by rewrite IH.
Qed.

(** The last two steps add the four numbers. *)
Definition pop_end (x : Z) : Z :=
  let x := Z.land (Z.shiftr x 4 + x) 0x0f0f in Z.land (Z.shiftr x 8 + x) 0xff.

Lemma pop_end_spec a b c d : 0 <= a <= 4 -> 0 <= b <= 4 -> 0 <= c <= 4 -> 0 <= d <= 4 ->
  pop_end (256 * (16 * a + b) + (16 * c + d)) = a + b + (c + d).
Proof.
  intros Ha Hb Hc Hd.
  assert (H5 : forall z, 0 <= z <= 4 -> In z [0; 1; 2; 3; 4]) by (intros z Hz; simpl; lia).
  assert (Hall : forallb (fun a => forallb (fun b => forallb (fun c => forallb (fun d =>
    pop_end (256 * (16 * a + b) + (16 * c + d)) =? a + b + (c + d)) [0; 1; 2; 3; 4]) [0; 1; 2; 3; 4]) [0; 1; 2; 3; 4])
    [0; 1; 2; 3; 4] = true) by (vm_compute; reflexivity).
  rewrite forallb_forall in Hall. specialize (Hall a (H5 a Ha)). cbn beta in Hall.
  rewrite forallb_forall in Hall. specialize (Hall b (H5 b Hb)). cbn beta in Hall.
  rewrite forallb_forall in Hall. specialize (Hall c (H5 c Hc)). cbn beta in Hall.
  rewrite forallb_forall in Hall. specialize (Hall d (H5 d Hd)). by apply Z.eqb_eq.
Qed.

Lemma pop_spec x : 0 <= x < 2 ^ 16 -> pop x = popcount x.
Proof.
  intros Hx. change (2 ^ 16) with 65536 in Hx. unfold popcount. set (h := x / 256). set (l := x mod 256).
  assert (Ex : x = 256 * h + l) by (by apply Z.div_mod).
  assert (Hl : 0 <= l < 256) by (by apply Z.mod_pos_bound).
  assert (Hh : 0 <= h < 256) by (split; [apply Z.div_pos|apply Z.div_lt_upper_bound]; lia). clearbody h l. subst x.
  rewrite two_bytes_ones by done. pose proof (byte_checked h Hh) as Ch. pose proof (byte_checked l Hl) as Cl.
  unfold byte_check in Ch, Cl. rewrite !andb_true_iff in Ch, Cl.
  destruct Ch as [[[[Ch1 Ch2] Ch3] Ch4] Ch5], Cl as [[[[Cl1 Cl2] Cl3] Cl4] Cl5].
  assert (Hs : forall k m b, byte_step k m b = true -> 0 <= pop_step k m b < 256) by (intros k m b Hb; unfold byte_step in Hb; breflect; lia).
  change (pop (256 * h + l)) with (pop_end (pop_step 2 (256 * 0x33 + 0x33) (pop_step 1 (256 * 0x55 + 0x55) (256 * h + l)))).
  rewrite pop_step_bytes by (done || lia). pose proof (Hs _ _ _ Cl1). rewrite pop_step_bytes by (done || lia).
  fold (half_bytes h) (half_bytes l). breflect.
  pose proof (Hs _ _ _ Ch2) as Rh. pose proof (Hs _ _ _ Cl2) as Rl. fold (half_bytes h) in Rh. fold (half_bytes l) in Rl.
  pose proof (Z.mod_pos_bound (half_bytes h) 16 ltac:(lia)). pose proof (Z.mod_pos_bound (half_bytes l) 16 ltac:(lia)).
  rewrite (Z.div_mod (half_bytes h) 16), (Z.div_mod (half_bytes l) 16) at 1 by lia.
  rewrite pop_end_spec; [lia| | | |]; split; try lia; apply Z.div_pos; lia.
Qed.

(** [pop] counts the one bits of every number of at most 16 bits, the
    range its comment assumes. *)
Theorem pop_correct (x : Z) (Hx : 0 <= x < 2 ^ 16) : pop x = popcount x.
Proof. by apply pop_spec. Qed.

Lemma pop_correct_witness : 0 <= 0xa5f0 < 2 ^ 16 /\ pop 0xa5f0 = 8.
Proof. split; [lia|]. rewrite (pop_correct 0xa5f0); [vm_compute; reflexivity|lia]. Defined.

(** ** The masks the entry inherits from *)

Definition dominated (mask cnt : Z) : bool :=
  (Z.land cnt (Z.lnot mask) =? 0) && negb (has cnt XPG_CODESET && has cnt XPG_NORM_CODESET).

(** The files a single mask contributes: in each directory, if there are
    several. *)
Definition targets_at (ds : list cstr) (cnt : Z) : list (list cstr * Z) :=
  if (1 <? Z.of_nat (length ds)) then map (fun d => ([d], cnt)) ds else [(ds, cnt)].

Fixpoint targets (ds : list cstr) (mask : Z) (k : nat) : list (list cstr * Z) :=
  match k with
  | O => []
  | S k => (if dominated mask (Z.of_nat k) then targets_at ds (Z.of_nat k) else []) ++ targets ds mask k
  end.

Definition top (ds : list cstr) (mask : Z) : nat :=
  Z.to_nat (if 1 <? Z.of_nat (length ds) then mask + 1 else mask).

Fixpoint n_dominated (mask : Z) (k : nat) : nat :=
  match k with
  | O => 0
  | S k => ((if dominated mask (Z.of_nat k) then 1 else 0) + n_dominated mask k)%nat
  end.

Definition count (ds : list cstr) : Z := if Nat.ltb 0 (length ds) then Z.of_nat (length ds) else 1.

Lemma length_targets ds mask k :
  Z.of_nat (length (targets ds mask k)) = count ds * Z.of_nat (n_dominated mask k).
Proof.
  induction k as [|k IH]; simpl; [lia|]. rewrite length_app, Nat2Z.inj_add, IH.
  destruct (dominated mask (Z.of_nat k)); simpl; [|lia].
  assert (Z.of_nat (length (targets_at ds (Z.of_nat k))) = count ds) as ->; [|lia].
  unfold targets_at, count. destruct ds as [|d [|d' ds]]; [done..|].
  rewrite (proj2 (Z.ltb_lt 1 _)) by (simpl; lia). by rewrite length_map.
Qed.

Lemma n_dominated_pop mask :
  0 <= mask <= 15 -> Z.of_nat (n_dominated mask (Z.to_nat (mask + 1))) <= 2 ^ pop mask.
Proof.
  intros H. apply Z.leb_le.
  apply (check_range_spec (fun m => Z.of_nat (n_dominated m (Z.to_nat (m + 1))) <=? 2 ^ pop m) 4 0);
    [vm_compute; reflexivity|lia].
Qed.

Lemma n_dominated_mono mask k k' : (k <= k')%nat -> (n_dominated mask k <= n_dominated mask k')%nat.
Proof. induction 1; simpl; lia. Qed.

Definition slots (ds : list cstr) (mask : Z) : Z :=
  Z.shiftl (count ds) (pop mask) + (if 1 <? count ds then 1 else 0).

(** The memory for [successor] is enough for all targets and the final NULL. *)
Lemma targets_fit ds mask :
  0 <= mask <= 15 -> Z.of_nat (length (targets ds mask (top ds mask))) + 1 <= slots ds mask + 1.
Proof.
  intros Hm. rewrite length_targets. unfold slots.
  assert (Hp : 0 <= pop mask).
  { rewrite pop_spec by lia. unfold popcount, ones. lia. }
  rewrite Z.shiftl_mul_pow2 by done.
  pose proof (n_dominated_pop mask Hm).
  assert (n_dominated mask (top ds mask) <= n_dominated mask (Z.to_nat (mask + 1)))%nat.
  { apply n_dominated_mono. unfold top. case_if; lia. }
  assert (0 < count ds) by (unfold count; destruct ds; simpl; lia).
  assert (count ds * Z.of_nat (n_dominated mask (top ds mask)) <= count ds * 2 ^ pop mask) by nia.
  case_if; lia.
Qed.

(** ** Searching the list *)

Definition decreasing (l : list l10nfile) : Prop :=
  StronglySorted (fun f g => strcmp (filename g) (filename f) < 0) l.

Lemma search_found l name f :
  wf_cstr name -> Forall (fun g => wf_cstr (filename g)) l ->
  search l name = Found f -> f ∈ l /\ filename f = name.
Proof.
  intros Hn. induction 1 as [|g l Hg Hl IH]; simpl; [done|].
  case_if.
  - intros [= <-]. split; [apply list_elem_of_here|by apply strcmp_eq].
  - case_if; [done|]. destruct (search l name); [|done]. intros [= ->].
    destruct IH as [? ?]; [done|]. split; [by apply list_elem_of_further|done].
Qed.

Lemma search_not_found l name before after :
  wf_cstr name -> Forall (fun g => wf_cstr (filename g)) l -> decreasing l ->
  search l name = NotFound before after ->
  l = before ++ after /\ Forall (fun g => strcmp name (filename g) < 0) before /\
  Forall (fun g => strcmp (filename g) name < 0) after.
Proof.
  intros Hn Hw Hs. revert before. induction Hs as [|g l Hs IH Hlt]; intros before; simpl.
  - intros [= <- <-]. split_and!; [done|by apply Forall_nil_2..].
  - apply Forall_cons in Hw as [Hg Hw]. case_if; [done|]. case_if.
    + intros [= <- <-]. split_and!; [done|by apply Forall_nil_2|]. apply Forall_cons_2; [done|].
      rewrite Forall_forall in Hlt, Hw |- *. intros h Hh.
      apply (strcmp_trans _ (filename g)); auto.
    + destruct (search l name) as [|b a]; [done|]. intros [= <- <-].
      destruct (IH Hw b eq_refl) as (-> & Hb & Ha). split_and!; [done| |done].
      apply Forall_cons_2; [|done]. rewrite strcmp_sym. lia.
Qed.

Lemma decreasing_insert before f after :
  Forall (fun g => wf_cstr (filename g)) (before ++ f :: after) ->
  decreasing (before ++ after) ->
  Forall (fun g => strcmp (filename f) (filename g) < 0) before ->
  Forall (fun g => strcmp (filename g) (filename f) < 0) after ->
  decreasing (before ++ f :: after).
Proof.
  unfold decreasing. induction before as [|g before IH]; simpl; intros Hw Hs Hb Ha.
  - by constructor.
  - apply Forall_cons in Hw as [Hg Hw]. apply Forall_cons in Hb as [Hgf Hb].
    apply StronglySorted_inv in Hs as [Hs Hlt]. constructor; [by apply IH|].
    apply Forall_app in Hlt as [Hl1 Hl2]. apply Forall_app. split; [done|]. by apply Forall_cons_2.
Qed.

Lemma sorted_lookup l i j f g :
  decreasing l -> l !! i = Some f -> l !! j = Some g -> (i < j)%nat ->
  strcmp (filename g) (filename f) < 0.
Proof.
  intros Hs. revert i j. induction Hs as [|h l Hs IH Hlt]; intros i j Hi Hj Hij; [done|].
  destruct i as [|i], j as [|j]; try lia; simpl in *.
  - injection Hi as ->. rewrite Forall_forall in Hlt. apply Hlt. by eapply list_elem_of_lookup_2.
  - apply (IH i j); auto. lia.
Qed.

(** ** The file name *)

Record names_ok (nm : names) : Prop := NamesOk {
  nok_language : wf_cstr (nm_language nm);
  nok_territory : wf_cstr (nm_territory nm);
  nok_codeset : wf_cstr (nm_codeset nm);
  nok_normalized : wf_cstr (nm_normalized_codeset nm);
  nok_modifier : wf_cstr (nm_modifier nm);
  nok_filename : wf_cstr (nm_filename nm)
}.

(** The directories, joined with colons, and a slash. *)
Definition dir_part (ds : list cstr) : cstr :=
  match ds with [] => [] | _ => join PATH_SEPARATOR ds ++ [chr "/"] end.

Definition locale_part (nm : names) (mask : Z) : cstr :=
  nm_language nm
  ++ (if has mask XPG_TERRITORY then chr "_" :: nm_territory nm else [])
  ++ (if has mask XPG_CODESET then chr "." :: nm_codeset nm else [])
  ++ (if has mask XPG_NORM_CODESET then chr "." :: nm_normalized_codeset nm else [])
  ++ (if has mask XPG_MODIFIER then chr "@" :: nm_modifier nm else [])
  ++ chr "/" :: nm_filename nm.

Lemma length_join ds sep : ds <> [] -> S (length (join sep ds)) = length (argz ds).
Proof.
  induction ds as [|d [|d' ds] IH]; intros H; [done|..].
  - rewrite length_argz_cons. simpl. lia.
  - rewrite length_argz_cons. specialize (IH ltac:(done)). cbn [join] in *.
    rewrite length_app. simpl length at 2. lia.
Qed.

Lemma abs_filename_spec nm ds mask :
  Forall wf_cstr ds -> abs_filename nm (argz ds) mask = dir_part ds ++ locale_part nm mask.
Proof.
  intros Hds. unfold abs_filename, locale_part. f_equal. destruct ds as [|d ds]; [done|].
  pose proof (length_join (d :: ds) PATH_SEPARATOR ltac:(done)) as Hl.
  rewrite (proj2 (Nat.ltb_lt 0 _)) by lia. unfold dir_part. f_equal.
  rewrite argz_stringify_spec by done. replace (_ - 1)%nat with (length (join PATH_SEPARATOR (d :: ds))) by lia.
  by rewrite take_app_length.
Qed.

Lemma wf_join ds sep : 0 < sep < 256 -> Forall wf_cstr ds -> wf_cstr (join sep ds).
Proof.
  intros Hs. induction 1 as [|d ds Hd Hds IH]; [by apply Forall_nil_2|].
  destruct ds as [|d' ds]; [done|]. cbn [join]. apply wf_cstr_app. split; [done|].
  apply wf_cstr_cons. by split.
Qed.

Lemma wf_abs_filename nm ds mask :
  names_ok nm -> Forall wf_cstr ds -> wf_cstr (abs_filename nm (argz ds) mask).
Proof.
  intros [H1 H2 H3 H4 H5 H6] Hds. rewrite abs_filename_spec by done. unfold dir_part, locale_part.
  rewrite !wf_cstr_app. split_and!; try done.
  - destruct ds as [|d ds]; [by apply Forall_nil_2|]. rewrite wf_cstr_app. split.
    + by apply wf_join.
    + rewrite wf_cstr_cons. split; [done|by apply Forall_nil_2].
  - destruct (has _ _); [rewrite wf_cstr_cons; by split|by apply Forall_nil_2].
  - destruct (has _ _); [rewrite wf_cstr_cons; by split|by apply Forall_nil_2].
  - destruct (has _ _); [rewrite wf_cstr_cons; by split|by apply Forall_nil_2].
  - destruct (has _ _); [rewrite wf_cstr_cons; by split|by apply Forall_nil_2].
  - rewrite wf_cstr_cons. by split.
Qed.

(** The memory allocated for the file name is exactly what is written to
    it: the directories joined with colons and a slash, the locale name with the
    parts the mask selects, a slash, the file name and the NUL. *)
Theorem abs_filename_exact (nm : names) (ds : list cstr) (mask : Z) (Hds : Forall wf_cstr ds) :
  abs_filename nm (argz ds) mask = dir_part ds ++ locale_part nm mask /\
  Z.of_nat (length (abs_filename nm (argz ds) mask)) + 1 = abs_filename_size nm (argz ds) mask.
Proof.
  rewrite abs_filename_spec by done. split; [done|].
  assert (Hd : length (dir_part ds) = length (argz ds)).
  { destruct ds as [|d ds]; [done|]. rewrite <- (length_join (d :: ds) PATH_SEPARATOR) by done.
    unfold dir_part. rewrite length_app. simpl length at 2. lia. }
  unfold abs_filename_size, locale_part. rewrite !length_app, Hd. simpl length.
  destruct (has mask XPG_TERRITORY), (has mask XPG_CODESET), (has mask XPG_NORM_CODESET),
    (has mask XPG_MODIFIER); simpl length; lia.
Qed.

Lemma abs_filename_exact_witness :
  Z.of_nat (length (abs_filename (Names (cs "de") (cs "AT") [] [] [] (cs "a.mo"))
    (argz [cs "/l"; cs "/m"]) XPG_TERRITORY)) + 1 = 17.
Proof.
  refine (proj2 (abs_filename_exact _ [cs "/l"; cs "/m"] XPG_TERRITORY _)).
  apply (bool_decide_unpack _). vm_compute. reflexivity.
Defined.

(** ** The pool *)

Section Make.
Context (mal : nat -> Z -> bool) (nm : names) (Hnm : names_ok nm).

(** Sorted in decreasing order, so without duplicates; identities are
    distinct and in use; no [successor] array is overfull, and its pointers
    lead to entries of the pool. *)
Record pool_ok (p : pool) : Prop := PoolOk {
  pool_sorted : decreasing (files p);
  pool_wf : Forall (fun f => wf_cstr (filename f)) (files p);
  pool_ids : Forall (fun f => (file_id f < next_id p)%nat) (files p);
  pool_nodup : NoDup (file_id <$> files p);
  pool_room : forall f l, f ∈ files p -> successor p !! file_id f = Some l ->
    Z.of_nat (length l) + 1 <= room f;
  pool_succ : forall j l i, successor p !! j = Some l -> Some i ∈ l ->
    exists f, f ∈ files p /\ file_id f = i
}.

(** [p'] extends [p]; the entries below [n] except [i] keep their successors. *)
Record extends (except : nat -> Prop) (p p' : pool) : Prop := Extends {
  ext_next : (next_id p <= next_id p')%nat;
  ext_files : forall f, f ∈ files p -> f ∈ files p';
  ext_successor : forall j, (j < next_id p)%nat -> ~ except j -> successor p' !! j = successor p !! j
}.

Lemma extends_refl e p : extends e p p.
Proof using Type. split; auto. Qed.

Lemma extends_trans (e e' : nat -> Prop) p1 p2 p3 :
  (forall j, e' j -> (j < next_id p1)%nat -> e j) ->
  extends e p1 p2 -> extends e' p2 p3 -> extends e p1 p3.
Proof using Type.
  intros He [N1 F1 S1] [N2 F2 S2]. split; [lia|auto|].
  intros j Hj Hn. rewrite S2, S1; auto. lia.
Qed.

(** Pointer [r] leads to the entry of file [t] in pool [p]; it is null only if an
    allocation failed. *)
Definition linked (p : pool) (r : option nat) (t : list cstr * Z) : Prop :=
  match r with
  | Some i => exists f, f ∈ files p /\ file_id f = i /\ filename f = abs_filename nm (argz t.1) t.2
  | None => exists k size, mal k size = false
  end.

Lemma linked_extends e p p' r t : extends e p p' -> linked p r t -> linked p' r t.
Proof using Type.
  intros [_ F _] H. destruct r; [|done]. destruct H as (f & Hf & ?). exists f. auto.
Qed.

(** What a call for the entry of [ds] and [mask] returns and leaves behind. *)
Definition outcome (ds : list cstr) (mask : Z) (p : pool) (r : option nat) (p' : pool) : Prop :=
  pool_ok p' /\ extends (fun _ => False) p p' /\ linked p' r (ds, mask) /\
  forall i, r = Some i -> (next_id p <= i)%nat ->
    exists l, successor p' !! i = Some l /\ Forall2 (linked p') l (targets ds mask (top ds mask)).

(** ** The loops *)

Section Loops.
Context (rec : list Z -> Z -> pool -> option (option nat * pool)) (ds : list cstr).
Context (Hds : Forall wf_cstr ds) (retval : nat).

(** A rule for the loop over the directories, with an invariant on the
    directories that were visited. *)
Lemma dir_loop_rule (I : list cstr -> pool -> Prop) cnt :
  (forall pre d post p, ds = pre ++ d :: post -> I pre p ->
     exists r p', rec (argz [d]) cnt p = Some (r, p') /\ I (pre ++ [d]) (push_successor p' retval r)) ->
  forall p, I [] p ->
  exists p', dir_loop rec (argz ds) retval (S (length (argz ds))) None cnt p = Some p' /\ I ds p'.
Proof using Hds.
  intros Hstep.
  assert (H : forall post pre fuel p, ds = pre ++ post -> (length post < fuel)%nat -> I pre p ->
    exists p', dir_loop rec (argz ds) retval fuel (cursor pre) cnt p = Some p' /\ I ds p').
  { induction post as [|d post IH]; intros pre fuel p E Hf HI; (destruct fuel as [|fuel]; [lia|]);
      cbn [dir_loop]; pose proof (argz_next_spec pre) as Hnext.
    - specialize (Hnext []). rewrite <- E in Hnext. rewrite (Hnext Hds).
      exists p. split; [done|]. by rewrite E, app_nil_r.
    - specialize (Hnext (d :: post)). rewrite <- E in Hnext. rewrite (Hnext Hds). cbv beta iota.
      assert (Hd : wf_cstr d)
        by (rewrite E in Hds; apply Forall_app in Hds as [_ H]; by apply Forall_cons in H as [? _]).
      assert (Hdrop : drop (length (argz pre)) (argz ds) = argz (d :: post))
        by (by rewrite E, argz_app, drop_app_length).
      assert (Ht : take (S (strlen (argz (d :: post)))) (argz (d :: post)) = argz [d]).
      { rewrite !argz_cons, strlen_app by done. change (argz []) with (@nil Z).
        rewrite cons_middle, app_assoc. apply take_app_length'. rewrite length_app. simpl. lia. }
      rewrite Hdrop, Ht. destruct (Hstep pre d post p E HI) as (r & p' & -> & HI').
      cbn [mbind option_bind]. rewrite <- (cursor_snoc pre d). apply (IH (pre ++ [d])); auto.
      + by rewrite <- app_assoc.
      + simpl in Hf. lia. }
  intros p Hp. apply (H ds []); auto.
  assert (Hlen : (length ds <= length (argz ds))%nat).
  { clear. induction ds as [|d l IH]; [done|]. rewrite length_argz_cons. simpl. lia. }
  lia.
Qed.
End Loops.

(** While entry [f] is being filled: [D] are the files its successors lead to. *)
Record filling (p1 : pool) (f : l10nfile) (D : list (list cstr * Z)) (p : pool) : Prop := Filling {
  fill_ok : pool_ok p;
  fill_ext : extends (fun j => j = file_id f) p1 p;
  fill_in : f ∈ files p;
  fill_list : exists l, successor p !! file_id f = Some l /\ Forall2 (linked p) l D
}.

Lemma same_id p f g : pool_ok p -> f ∈ files p -> g ∈ files p -> file_id f = file_id g -> f = g.
Proof using Type.
  intros Hp Hf Hg E. apply list_elem_of_lookup in Hf as [i Hi]. apply list_elem_of_lookup in Hg as [j Hj].
  assert (i = j) as ->; [|congruence].
  apply (NoDup_lookup (file_id <$> files p) i j (file_id f)); [apply (pool_nodup _ Hp)|..];
    rewrite list_lookup_fmap; [by rewrite Hi|by rewrite Hj, E].
Qed.

Lemma fill_step p1 f D ds m p r p' :
  filling p1 f D p -> outcome ds m p r p' ->
  Z.of_nat (length D) + 2 <= room f ->
  filling p1 f (D ++ [(ds, m)]) (push_successor p' (file_id f) r).
Proof using Type.
  intros [Hok Hext Hin (l & Hl & HD)] (Hok' & Hext' & Hr & _) Hroom.
  assert (Hid : (file_id f < next_id p)%nat).
  { pose proof (pool_ids _ Hok) as Hids. rewrite Forall_forall in Hids. auto. }
  assert (Hin' : f ∈ files p') by (by apply (ext_files _ _ _ Hext')).
  assert (Hl' : successor p' !! file_id f = Some l) by (rewrite (ext_successor _ _ _ Hext'); auto).
  pose proof (Forall2_length _ _ _ HD) as Hlen.
  split.
  - destruct (Hok') as [H1 H2 H3 H4 H5 H6]. split; simpl; auto.
    + intros g l2 Hg. destruct (decide (file_id f = file_id g)) as [E|E].
      * assert (g = f) as -> by (by eapply (same_id p')).
        rewrite lookup_insert_eq, Hl'. simpl. intros [= <-]. rewrite length_app. simpl. lia.
      * rewrite lookup_insert_ne by done. by apply H5.
    + intros j l2 i. destruct (decide (file_id f = j)) as [<-|E]; [|rewrite lookup_insert_ne by done; apply H6].
      rewrite lookup_insert_eq, Hl'. simpl. intros [= <-] Hi. apply elem_of_app in Hi as [Hi|Hi]; [by eapply H6|].
      apply list_elem_of_singleton in Hi as <-. destruct Hr as (g & Hg & Hgi & _). by exists g.
  - eapply (extends_trans _ (fun j => j = file_id f)); [by intros|exact Hext|].
    destruct Hext' as [N F S]. split; simpl; auto.
    intros j Hj Hne. rewrite lookup_insert_ne by auto. apply S; [done|tauto].
  - done.
  - exists (l ++ [r]). simpl. rewrite lookup_insert_eq, Hl'. split; [done|].
    apply Forall2_app; [|constructor; [exact Hr|constructor]].
    eapply Forall2_impl; [exact HD|]. intros o t Ht.
    exact (linked_extends (fun _ => False) p p' o t Hext' Ht).
Qed.

Lemma several ds : (1 <? count ds) = (1 <? Z.of_nat (length ds)).
Proof using Type. unfold count. by destruct ds. Qed.

Section Fill.
Context (rec : list Z -> Z -> pool -> option (option nat * pool)) (ds : list cstr) (mask : Z).
Context (Hds : Forall wf_cstr ds) (Hmask : 0 <= mask <= 15).
Context (f : l10nfile) (p1 : pool) (Hroom : slots ds mask + 1 <= room f).
Context (Hrec : forall ds' m p,
  (ds' = ds /\ 0 <= m < mask \/ (exists d, d ∈ ds /\ ds' = [d]) /\ 0 <= m <= mask /\ (1 < length ds)%nat) ->
  pool_ok p -> exists r p', rec (argz ds') m p = Some (r, p') /\ outcome ds' m p r p').

Lemma room_left D t rest :
  D ++ t :: rest = targets ds mask (top ds mask) -> Z.of_nat (length D) + 2 <= room f.
Proof using Hmask Hroom.
  intros E. pose proof (targets_fit ds mask Hmask) as H. rewrite <- E, length_app in H.
  simpl length in H. lia.
Qed.

(** One mask: the body of the loop over the masks. *)
Lemma fill_mask D cnt rest p :
  0 <= cnt -> (cnt < Z.of_nat (top ds mask)) ->
  D ++ targets_at ds cnt ++ rest = targets ds mask (top ds mask) ->
  filling p1 f D p ->
  exists p', (if 1 <? count ds then dir_loop rec (argz ds) (file_id f) (S (length (argz ds))) None cnt p
              else '(r, p) ← rec (argz ds) cnt p; Some (push_successor p (file_id f) r)) = Some p' /\
    filling p1 f (D ++ targets_at ds cnt) p'.
Proof using Hds Hmask Hroom Hrec.
  intros H0 Htop E Hp. rewrite several. unfold targets_at in *. unfold top in Htop.
  destruct (Z.ltb_spec 1 (Z.of_nat (length ds))) as [Hn|Hn].
  - apply (dir_loop_rule rec ds Hds (file_id f)
      (fun pre p => filling p1 f (D ++ map (fun d => ([d], cnt)) pre) p)); [|by rewrite app_nil_r].
    intros pre d post q Eds Hq.
    destruct (Hrec [d] cnt q) as (r & q' & Er & Ho); [|by apply (fill_ok _ _ _ _ Hq)|].
    { right. split_and!; [|lia..]. exists d. split; [|done]. rewrite Eds. apply elem_of_app.
      right. apply list_elem_of_here. }
    exists r, q'. split; [done|]. rewrite map_app. simpl. rewrite app_assoc.
    apply (fill_step p1 f _ [d] cnt q); [done..|].
    assert (Em : map (fun d => ([d], cnt)) ds =
      map (fun d => ([d], cnt)) pre ++ ([d], cnt) :: map (fun d => ([d], cnt)) post)
      by (rewrite Eds at 1; by rewrite map_app).
    rewrite Em, <- app_assoc, app_assoc in E. by apply room_left in E.
  - destruct (Hrec ds cnt p) as (r & p' & Er & Ho); [left; split; [done|lia]|by apply (fill_ok _ _ _ _ Hp)|].
    rewrite Er. eexists. split; [reflexivity|]. apply (fill_step p1 f D ds cnt p); [done..|].
    by apply room_left in E.
Qed.

Lemma mask_loop_fills k D p :
  (k <= top ds mask)%nat -> D ++ targets ds mask k = targets ds mask (top ds mask) ->
  filling p1 f D p ->
  exists p', mask_loop rec (argz ds) (file_id f) mask (count ds) k p = Some p' /\
    filling p1 f (targets ds mask (top ds mask)) p'.
Proof using Hds Hmask Hroom Hrec.
  revert D p. induction k as [|k IH]; intros D p Hk E Hp.
  - rewrite app_nil_r in E. subst D. by exists p.
  - cbn [mask_loop targets] in *. cbv zeta. change ((_ =? 0) && _) with (dominated mask (Z.of_nat k)).
    destruct (dominated mask (Z.of_nat k)).
    + destruct (fill_mask D (Z.of_nat k) (targets ds mask k) p) as (p' & -> & Hp'); [lia..|done|done|].
      cbn [mbind option_bind]. apply (IH _ _ ltac:(lia)) in Hp'; [done|]. by rewrite <- app_assoc.
    + cbn [mbind option_bind]. apply (IH D); [lia|done..].
Qed.
End Fill.


(** A new entry in its place of the list. *)
Lemma insert_entry p before after f :
  pool_ok p -> search (files p) (filename f) = NotFound before after ->
  wf_cstr (filename f) -> file_id f = next_id p -> 1 <= room f ->
  let p1 := Pool (before ++ f :: after) (<[file_id f := []]> (successor p)) (S (file_id f)) (S (n_allocs p)) in
  filling p1 f [] p1 /\ extends (fun _ => False) p p1.
Proof using Type.
  intros [H1 H2 H3 H4 H5 H6] Hs Hw Hid Hr p1.
  destruct (search_not_found _ _ _ _ Hw H2 H1 Hs) as (E & Hb & Ha).
  assert (Hperm : before ++ f :: after ≡ₚ f :: files p) by (by rewrite E, Permutation_middle).
  assert (Hf : forall g, g ∈ before ++ f :: after <-> g = f \/ g ∈ files p)
    by (intros g; by rewrite Hperm, elem_of_cons).
  assert (Hids : forall g, g ∈ files p -> (file_id g < next_id p)%nat) by (by apply Forall_forall).
  split.
  - split; [|apply extends_refl|apply Hf; by left|].
    + split; simpl.
      * apply decreasing_insert; [|by rewrite <- E|done..]. rewrite Hperm. by apply Forall_cons_2.
      * rewrite Hperm. by apply Forall_cons_2.
      * rewrite Hperm. apply Forall_cons_2; [lia|].
        eapply Forall_impl; [exact H3|]. simpl. intros. lia.
      * rewrite Hperm. simpl. apply NoDup_cons. split; [|done]. rewrite list_elem_of_fmap.
        intros (g & Eg & Hg). apply Hids in Hg. lia.
      * intros g l Hg. apply Hf in Hg as [->|Hg].
        -- rewrite lookup_insert_eq. intros [= <-]. simpl. lia.
        -- rewrite lookup_insert_ne by (apply Hids in Hg; lia). by apply H5.
      * intros j l i. destruct (decide (file_id f = j)) as [<-|Ej].
        -- rewrite lookup_insert_eq. intros [= <-] Hi. by apply not_elem_of_nil in Hi.
        -- rewrite lookup_insert_ne by done. intros Hl Hi. destruct (H6 j l i Hl Hi) as (g & Hg & Eg).
           exists g. split; [apply Hf; by right|done].
    + exists []. simpl. by rewrite lookup_insert_eq.
  - split; simpl; [lia|intros g Hg; apply Hf; by right|].
    intros j Hj _. rewrite lookup_insert_ne by lia. done.
Qed.

(** The directories that matter. *)
Definition effective (ds : list cstr) : list cstr :=
  if IS_ABSOLUTE_PATH (nm_language nm) then [] else ds.

Definition depth (ds : list cstr) (mask : Z) : nat :=
  (Z.to_nat mask + (if Z.ltb 1 (Z.of_nat (length ds)) then 1 else 0))%nat.

Lemma pool_ok_alloc p : pool_ok p -> pool_ok (did_alloc p).
Proof using Type. intros []; by split. Qed.

Lemma wf_effective ds : Forall wf_cstr ds -> Forall wf_cstr (effective ds).
Proof using Type. unfold effective. case_if; [intros; by apply Forall_nil_2|done]. Qed.

Lemma effective_argz ds :
  (if IS_ABSOLUTE_PATH (nm_language nm) then [] else argz ds) = argz (effective ds).
Proof using Type. unfold effective. by destruct (IS_ABSOLUTE_PATH _). Qed.

Lemma count_spec ds :
  Forall wf_cstr ds -> (if Nat.ltb 0 (length (argz ds)) then argz_count (argz ds) else 1) = count ds.
Proof using Type.
  intros H. rewrite argz_count_spec by done. unfold count. destruct ds as [|d ds]; [done|].
  rewrite length_argz_cons. rewrite (proj2 (Nat.ltb_lt 0 _)) by lia. done.
Qed.

Lemma slots_pos ds mask : 0 <= mask <= 15 -> 0 <= slots ds mask.
Proof using Type. intros H. pose proof (targets_fit ds mask H). lia. Qed.

Lemma make_spec fuel ds mask p :
  Forall wf_cstr ds -> 0 <= mask <= 15 -> (depth (effective ds) mask < fuel)%nat -> pool_ok p ->
  exists r p', _nl_make_l10nflist mal nm fuel true (argz ds) mask p = Some (r, p') /\
    outcome (effective ds) mask p r p'.
Proof using Hnm.
  revert ds mask p. induction fuel as [|fuel IH]; intros ds mask p Hds Hm Hf Hp; [lia|].
  cbn [_nl_make_l10nflist]. rewrite effective_argz.
  pose proof (wf_effective ds Hds) as He. set (es := effective ds) in *.
  pose proof (pool_ok_alloc p Hp) as Hp1. pose proof (wf_abs_filename nm es mask Hnm He) as Hw.
  assert (E1 : extends (fun _ => False) p (did_alloc p)) by (split; auto).
  destruct (mal (n_allocs p) _) eqn:E; cycle 1; cbn [negb].
  { eexists None, _. split; [reflexivity|]. split_and!; [done..|by eexists _, _|done]. }
  destruct (search _ _) as [f|before after] eqn:Es.
  { apply search_found in Es as [Hin Hname]; [|done|apply Hp1].
    eexists _, _. split; [reflexivity|]. split_and!; [done..|by exists f|].
    intros i [= <-] Hi. pose proof (pool_ids _ Hp) as Hids. rewrite Forall_forall in Hids.
    specialize (Hids f Hin). lia. }
  cbn zeta. rewrite count_spec by done. fold (slots es mask).
  destruct (mal _ (sizeof_loaded_l10nfile + _)) eqn:E2; cycle 1; cbn [negb].
  { eexists None, _. split; [reflexivity|].
    split_and!; [by apply pool_ok_alloc|by split|by eexists _, _|done]. }
  set (f := L10nfile _ _ _ _). set (p1 := Pool _ _ _ _).
  destruct (insert_entry (did_alloc p) before after f) as [Hfill Hext]; try done.
  { simpl. pose proof (slots_pos es mask Hm). lia. }
  fold p1 in Hfill, Hext.
  assert (Htop : Z.to_nat (if 1 <? count es then mask + 1 else mask) = top es mask)
    by (by rewrite several).
  rewrite Htop.
  destruct (mask_loop_fills (_nl_make_l10nflist mal nm fuel true) es mask He Hm f p1 ltac:(simpl; lia))
    with (k := top es mask) (D := @nil (list cstr * Z)) (p := p1) as (p' & Hloop & Hp'); try done.
  { assert (Heff : forall ds', (exists d, d ∈ es /\ ds' = [d]) \/ ds' = es -> effective ds' = ds').
    { unfold es, effective. intros ds' Hd'. destruct (IS_ABSOLUTE_PATH _); [|done].
      destruct Hd' as [(d & Hd & _)|Hd']; [by apply not_elem_of_nil in Hd|done]. }
    intros ds' m q Hcase Hq. assert (Hd : effective ds' = ds') by (apply Heff; destruct Hcase as [[? _]|[? _]]; auto).
    unfold depth in *. destruct (IH ds' m q) as (r & q' & Er & Ho); [| | |done|].
    - destruct Hcase as [[-> _]|((d & Hd' & ->) & _)]; [done|].
      apply Forall_cons_2; [|by apply Forall_nil_2]. rewrite Forall_forall in He. auto.
    - destruct Hcase as [[_ ?]|(_ & ? & _)]; lia.
    - rewrite Hd. destruct Hcase as [[-> ?]|((d & Hd' & ->) & ? & ?)]; [case_if; lia|].
      rewrite (proj2 (Z.ltb_lt 1 (Z.of_nat (length es)))) in Hf by lia. simpl. lia.
    - rewrite Hd in Ho. by exists r, q'. }
  change (next_id (did_alloc p)) with (file_id f).
  rewrite Hloop. cbn [mbind option_bind]. exists (Some (file_id f)), p'. split; [done|].
  destruct Hp' as [Hok' Hext' Hin' Hl']. split_and!; [done| |by exists f|].
  - eapply extends_trans; [|eapply extends_trans; [|exact E1|exact Hext]|exact Hext']; simpl; [|done].
    intros j -> Hj. lia.
  - intros i [= <-] _. done.
Qed.

(** Without [do_allocate] the call is a search. *)
Lemma lookup_spec fuel ds mask p :
  Forall wf_cstr ds -> pool_ok p ->
  exists r, _nl_make_l10nflist mal nm (S fuel) false (argz ds) mask p = Some (r, did_alloc p) /\
    forall i, r = Some i <-> mal (n_allocs p) (abs_filename_size nm (argz (effective ds)) mask) = true /\
      exists f, f ∈ files p /\ file_id f = i /\ filename f = abs_filename nm (argz (effective ds)) mask.
Proof using Hnm.
  intros Hds Hp. cbn [_nl_make_l10nflist]. rewrite effective_argz.
  pose proof (wf_effective ds Hds) as He. set (es := effective ds) in *.
  pose proof (wf_abs_filename nm es mask Hnm He) as Hw.
  destruct (mal _ _) eqn:E; cbn [negb]; [|exists None; split; [done|]; intros i; by split; intros; destruct_and?].
  destruct (search _ _) as [f|before after] eqn:Es; eexists; (split; [reflexivity|]); intros i.
  - apply search_found in Es as [Hin Hname]; [|done|apply Hp].
    change (files (did_alloc p)) with (files p) in Hin. split.
    + intros [= <-]. split; [done|by exists f].
    + intros (_ & g & Hg & <- & Hn). f_equal. f_equal.
      apply list_elem_of_lookup in Hg as [j Hj]. apply list_elem_of_lookup in Hin as [k Hk].
      destruct (decide (j < k)%nat) as [Hlt|Hge].
      * pose proof (sorted_lookup _ _ _ _ _ (pool_sorted _ Hp) Hj Hk Hlt) as H.
        rewrite Hn, Hname, strcmp_refl in H. lia.
      * destruct (decide (j = k)) as [->|Hne]; [congruence|].
        pose proof (sorted_lookup _ _ _ _ _ (pool_sorted _ Hp) Hk Hj ltac:(lia)) as H.
        rewrite Hn, Hname, strcmp_refl in H. lia.
  - split; [done|]. intros (_ & g & Hg & _ & Hn).
    apply search_not_found in Es as (Ef & Hb & Ha); [|done|apply Hp|apply Hp]. simpl in Ef.
    rewrite Ef in Hg. rewrite Forall_forall in Ha, Hb.
    apply elem_of_app in Hg as [Hg|Hg]; [apply Hb in Hg|apply Ha in Hg];
      rewrite Hn, strcmp_refl in Hg; lia.
Qed.
End Make.

(** ** Theorems *)

(** C40. [_nl_make_l10nflist] always returns (the recursion is at most 17 calls
    deep).  It keeps the pool strictly decreasing and free of overfull
    [successor] arrays, changes nothing of the entries that were there, and
    returns the entry of the file that was asked for, or NULL if an allocation
    failed.  A new entry inherits, in this order, from the entries of the file
    names with the masks dominated by its mask (never with both codesets), in
    each directory if there are several. *)
Theorem make_l10nflist_correct (mal : nat -> Z -> bool) (nm : names) (fuel : nat) (ds : list cstr)
    (mask : Z) (p : pool) (Hnm : names_ok nm) (Hds : Forall wf_cstr ds) (Hm : 0 <= mask <= 15)
    (Hf : (16 < fuel)%nat) (Hp : pool_ok p) :
  exists r p', _nl_make_l10nflist mal nm fuel true (argz ds) mask p = Some (r, p') /\
    pool_ok p' /\
    (forall f, f ∈ files p -> f ∈ files p' /\ successor p' !! file_id f = successor p !! file_id f) /\
    linked mal nm p' r (effective nm ds, mask) /\
    (forall i, r = Some i -> (next_id p <= i)%nat ->
       exists l, successor p' !! i = Some l /\
         Forall2 (linked mal nm p') l
           (targets (effective nm ds) mask (top (effective nm ds) mask))).
Proof.
  destruct (make_spec mal nm Hnm fuel ds mask p) as (r & p' & E & Hok & Hext & Hl & Hs); auto.
  { unfold depth. case_if; lia. }
  exists r, p'. split_and!; auto. intros f Hf'. split; [by apply (ext_files _ _ _ Hext)|].
  apply (ext_successor _ _ _ Hext); [|tauto].
  pose proof (pool_ids _ Hp) as Hids. rewrite Forall_forall in Hids. auto.
Qed.

Definition sample_names : names := Names (cs "de") (cs "AT") (cs "cs") [] (cs "m") (cs "a.mo").

Lemma sample_names_ok : names_ok sample_names.
Proof. split; apply (bool_decide_unpack _); vm_compute; reflexivity. Qed.

Lemma empty_pool_ok : pool_ok empty_pool.
Proof.
  split; simpl; [constructor|by apply Forall_nil_2|by apply Forall_nil_2|constructor|..].
  - intros f l H. by apply not_elem_of_nil in H.
  - intros j l i H. done.
Qed.

Lemma make_l10nflist_correct_witness :
  exists r p', _nl_make_l10nflist (fun _ _ => true) sample_names 17 true (argz [cs "/l"; cs "/m"]) 14 empty_pool
    = Some (r, p') /\ pool_ok p'.
Proof.
  destruct (make_l10nflist_correct (fun _ _ => true) sample_names 17 [cs "/l"; cs "/m"] 14 empty_pool)
    as (r & p' & E & Hok & _).
  - exact sample_names_ok.
  - apply (bool_decide_unpack _). vm_compute. reflexivity.
  - lia.
  - lia.
  - exact empty_pool_ok.
  - exists r, p'. split; [exact E|exact Hok].
Defined.

(** What was entered is found again: after a call with [do_allocate] that
    returned an entry, a lookup of the same file returns that entry and leaves
    the pool as it is. *)
Theorem make_then_lookup (mal : nat -> Z -> bool) (nm : names) (fuel fuel' : nat) (ds : list cstr)
    (mask : Z) (p p' : pool) (i : nat) (Hnm : names_ok nm) (Hds : Forall wf_cstr ds)
    (Hm : 0 <= mask <= 15) (Hf : (16 < fuel)%nat) (Hp : pool_ok p)
    (H : _nl_make_l10nflist mal nm fuel true (argz ds) mask p = Some (Some i, p')) :
  _nl_make_l10nflist (fun _ _ => true) nm (S fuel') false (argz ds) mask p' = Some (Some i, did_alloc p').
Proof.
  destruct (make_spec mal nm Hnm fuel ds mask p) as (r & p2 & E & Hok & Hext & Hl & _); auto.
  { unfold depth. case_if; lia. }
  rewrite H in E. injection E as <- <-.
  destruct (lookup_spec (fun _ _ => true) nm Hnm fuel' ds mask p' Hds Hok) as (r & E & Hr).
  rewrite E. by rewrite (proj2 (Hr i) (conj eq_refl Hl)).
Qed.

Definition sample_pool : pool :=
  match _nl_make_l10nflist (fun _ _ => true) sample_names 17 true (argz [cs "/l"]) 12 empty_pool with
  | Some (_, p) => p
  | None => empty_pool
  end.

Lemma make_then_lookup_witness :
  _nl_make_l10nflist (fun _ _ => true) sample_names 1 false (argz [cs "/l"]) 12 sample_pool
  = Some (Some 0%nat, did_alloc sample_pool).
Proof.
  apply (make_then_lookup (fun _ _ => true) sample_names 17 0 [cs "/l"] 12 empty_pool).
  - exact sample_names_ok.
  - apply (bool_decide_unpack _). vm_compute. reflexivity.
  - lia.
  - lia.
  - exact empty_pool_ok.
  - vm_compute. reflexivity.
Defined.

(** The order of inheritance: for a locale name with territory, codeset
    and modifier, the codeset is dropped first, then the territory, and the
    modifier last (the comment in the source has it the other way round). *)
Theorem successor_order :
  option_map (fun '(_, p) =>
      match successor p !! 0%nat with
      | Some l => map (fun r => filename <$> (r ≫= fun i => list_find (fun f => file_id f = i) (files p) ≫= fun x => Some (snd x))) l
      | None => []
      end)
    (_nl_make_l10nflist (fun _ _ => true) sample_names 17 true (argz [cs "/l"]) 14 empty_pool)
  = Some (map (fun s => Some (cs s))
      ["/l/de_AT@m/a.mo"; "/l/de.cs@m/a.mo"; "/l/de@m/a.mo"; "/l/de_AT.cs/a.mo"; "/l/de_AT/a.mo";
       "/l/de.cs/a.mo"; "/l/de/a.mo"]%string).
Proof. vm_compute. reflexivity. Qed.
