(* ===== verification/Catalog.v ===== *)
(** * Message catalogs: gmo.h, gettextP.h, loadmsgcat.c and the lookup of dcigettext.c

    A message catalog is a file in GNU .mo format, here the list of its bytes;
    the host is little-endian (LP64).  Nothing in the format is trusted by the
    type: a read beyond the file is [Undef], and so is a loop that would never
    end.  [load_catalog] is the part of [_nl_load_domain] between reading the file
    and the plural formula, [find_act] the search of [_nl_find_msg], without the
    conversion to another character set. *)

From S2P Require Import Prelude HashString PluralExp PluralParse PluralExtract.

Open Scope Z_scope.

(** ** Outcomes *)

Inductive load (A : Type) :=
| Ret (a : A)
| Invalid      (* [goto invalid], or not a catalog: [domain_file->data] is NULL *)
| NoMem        (* no memory for the domain: also NULL *)
| Undef.       (* a read out of bounds, abort, or an endless loop *)
Arguments Ret {A}. Arguments Invalid {A}. Arguments NoMem {A}. Arguments Undef {A}.

#[export] Instance load_bind : MBind load := fun A B f r =>
  match r with Ret a => f a | Invalid => Invalid | NoMem => NoMem | Undef => Undef end.

(** ** Reading the file *)

Definition _MAGIC : Z := 0x950412de.
Definition _MAGIC_SWAPPED : Z := 0xde120495.
Definition SEGMENTS_END : Z := 0xffffffff.

Definition byte_at (data : list Z) (off : Z) : load Z :=
  match data !! Z.to_nat off with
  | Some b => if 0 <=? off then Ret b else Undef
  | None => Undef
  end.

(** A [nls_uint32] of the file. *)
Definition word_at (data : list Z) (off : Z) : load Z :=
  b0 ← byte_at data off; b1 ← byte_at data (off + 1);
  b2 ← byte_at data (off + 2); b3 ← byte_at data (off + 3);
  Ret (b0 + 2 ^ 8 * b1 + 2 ^ 16 * b2 + 2 ^ 24 * b3).

Definition SWAP (i : Z) : Z :=
  Z.lor (Z.lor (Z.lor (wrapw 32 (Z.shiftl i 24)) (Z.shiftl (Z.land i 0xff00) 8))
          (Z.land (Z.shiftr i 8) 0xff00))
    (Z.shiftr i 24).
Definition W (flag : bool) (data : Z) : Z := if flag then SWAP data else data.

Definition wd (data : list Z) (swap : bool) (off : Z) : load Z :=
  v ← word_at data off; Ret (W swap v).

(** The bytes before the next NUL. *)
Fixpoint cstring_of (l : list Z) : option cstr :=
  match l with
  | [] => None
  | c :: l => if c =? 0 then Some [] else cons c <$> cstring_of l
  end.
Definition cstring (data : list Z) (off : Z) : load cstr :=
  match cstring_of (drop (Z.to_nat off) data) with
  | Some s => if 0 <=? off then Ret s else Undef
  | None => Undef
  end.

Definition bytes_at (data : list Z) (off n : Z) : load (list Z) :=
  if (0 <=? off) && (off + n <=? Z.of_nat (length data))
  then Ret (take (Z.to_nat n) (drop (Z.to_nat off) data)) else Undef.

(** ** System dependent segments *)

(** The widths of the macros of <inttypes.h>. *)
Inductive pri_kind :=
| K8 | K16 | K32 | K64
| KLEAST8 | KLEAST16 | KLEAST32 | KLEAST64
| KFAST8 | KFAST16 | KFAST32 | KFAST64
| KMAX | KPTR.

(** [PRI<conv><kind>]: the macros of the system. *)
Class PriMacros := pri : pri_kind -> Z -> cstr.

(** The definitions loadmsgcat.c falls back to, on a system where [long],
    [uintmax_t] and pointers have the sizes given ([int] has 4 bytes). *)
Section Fallback.
Context (sizeof_long sizeof_uintmax sizeof_pointer : Z).

Definition long_or_longlong (b : bool) (conv : Z) : cstr :=
  if b then [chr "l"; conv] else [chr "l"; chr "l"; conv].

(** [PRI<conv>8] to [PRI<conv>64] *)
Definition pri_exact (bits conv : Z) : cstr :=
  if bits =? 64 then long_or_longlong (sizeof_long =? 8) conv else [conv].
(** [PRI<conv>LEAST8] to [PRI<conv>LEAST64] *)
Definition pri_least (bits conv : Z) : cstr :=
  if bits =? 64 then pri_exact 64 conv else [conv].
(** [PRI<conv>FAST8] to [PRI<conv>FAST64] *)
Definition pri_fast (bits conv : Z) : cstr :=
  if bits =? 64 then pri_exact 64 conv else [conv].
Definition pri_max (conv : Z) : cstr := long_or_longlong (sizeof_uintmax =? sizeof_long) conv.
Definition pri_ptr (conv : Z) : cstr :=
  if sizeof_pointer =? sizeof_long then [chr "l"; conv]
  else if sizeof_pointer =? 4 then [conv] else [chr "l"; chr "l"; conv].

Definition pri_fallback : PriMacros := fun kind conv =>
  match kind with
  | K8 => pri_exact 8 conv | K16 => pri_exact 16 conv | K32 => pri_exact 32 conv | K64 => pri_exact 64 conv
  | KLEAST8 => pri_least 8 conv | KLEAST16 => pri_least 16 conv
  | KLEAST32 => pri_least 32 conv | KLEAST64 => pri_least 64 conv
  | KFAST8 => pri_fast 8 conv | KFAST16 => pri_fast 16 conv
  | KFAST32 => pri_fast 32 conv | KFAST64 => pri_fast 64 conv
  | KMAX => pri_max conv
  | KPTR => pri_ptr conv
  end.
End Fallback.

Inductive segment_value := Value (s : cstr) | Unsupported | Aborts.

Section Segments.
Context `{PriMacros}.

Definition at_ (name : cstr) (i : nat) : Z := nth i name 0.
Definition is_at (name : cstr) (i : nat) (s : cstr) : bool :=
  bool_decide (take (length s) (drop i name) = s).

(** [if (name[3] == 'd') return PRId...; ...; abort ();] *)
Definition select (kind : pri_kind) (c : Z) : segment_value :=
  if c =? chr "d" then Value (pri kind (chr "d"))
  else if c =? chr "i" then Value (pri kind (chr "i"))
  else if c =? chr "o" then Value (pri kind (chr "o"))
  else if c =? chr "u" then Value (pri kind (chr "u"))
  else if c =? chr "x" then Value (pri kind (chr "x"))
  else if c =? chr "X" then Value (pri kind (chr "X"))
  else Aborts.

(** A test [name[i] == s[0] && ... && name[i+n] == '\0']. *)
Definition ends_with (name : cstr) (i : nat) (s : cstr) : bool :=
  is_at name i s && (at_ name (i + length s) =? 0).

(** The groups of tests, in the order of the source; where all tests of a
    group fail, [next] follows. *)
Definition plain_kind (name : cstr) (next : option pri_kind) : option pri_kind :=
  if ends_with name 4 (cs "8") then Some K8
  else if ends_with name 4 (cs "16") then Some K16
  else if ends_with name 4 (cs "32") then Some K32
  else if ends_with name 4 (cs "64") then Some K64
  else next.

Definition least_kind (name : cstr) (next : option pri_kind) : option pri_kind :=
  if is_at name 4 (cs "LEAST") && ends_with name 9 (cs "8") then Some KLEAST8
  else if is_at name 4 (cs "LEAST") && ends_with name 9 (cs "16") then Some KLEAST16
  else if is_at name 4 (cs "LEAST") && ends_with name 9 (cs "32") then Some KLEAST32
  else if is_at name 4 (cs "LEAST") && ends_with name 9 (cs "64") then Some KLEAST64
  else next.

Definition fast_kind (name : cstr) (next : option pri_kind) : option pri_kind :=
  if is_at name 4 (cs "FAST") && ends_with name 8 (cs "8") then Some KFAST8
  else if is_at name 4 (cs "FAST") && ends_with name 8 (cs "16") then Some KFAST16
  else if is_at name 4 (cs "FAST") && ends_with name 8 (cs "32") then Some KFAST32
  else if is_at name 4 (cs "FAST") && ends_with name 8 (cs "64") then Some KFAST64
  else next.

Definition max_ptr_kind (name : cstr) : option pri_kind :=
  if ends_with name 4 (cs "MAX") then Some KMAX
  else if ends_with name 4 (cs "PTR") then Some KPTR
  else None.

Definition get_sysdep_segment_value (name : cstr) : segment_value :=
  let rest := if ends_with name 0 (cs "I") then Value (cs "I") else Unsupported in
  if is_at name 0 (cs "PRI") then
    if existsb (fun c => at_ name 3 =? c) (cs "diouxX") then
      match plain_kind name (least_kind name (fast_kind name (max_ptr_kind name))) with
      | Some kind => select kind (at_ name 3)
      | None => rest
      end
    else rest
  else rest.
End Segments.

(** ** The loaded catalog *)

(** A pointer to a system dependent string: into the file, or into the memory
    allocated for such strings. *)
Inductive sptr := InData (off : Z) | InMem (off : nat).
#[export] Instance sptr_eq_dec : EqDecision sptr.
Proof. solve_decision. Defined.
Record sysdep_string_desc := SysdepStringDesc { sd_length : Z; sd_pointer : sptr }.
Inductive hash_table := FileHash (off : Z) | MemHash (l : list Z).

Record loaded_domain := LoadedDomain {
  data : list Z;
  must_swap : bool;
  nstrings : Z;
  orig_tab : Z;
  trans_tab : Z;
  n_sysdep_strings : Z;
  orig_sysdep_tab : list sysdep_string_desc;
  trans_sysdep_tab : list sysdep_string_desc;
  mem : list Z;
  hash_size : Z;
  hash_tab : option hash_table;
  must_swap_hash_tab : bool
}.

Definition deref (data mem : list Z) (p : sptr) : load cstr :=
  match p with
  | InData off => cstring data off
  | InMem off => cstring mem (Z.of_nat off)
  end.

(** ** Loading *)

Section Load.
Context `{PriMacros} (dat : list Z) (swap : bool).

(** The values of the [k] segments from number [i] on, [None] for NULL. *)
Fixpoint segment_values (sysdep_segments i : Z) (k : nat) : load (list (option cstr)) :=
  match k with
  | O => Ret []
  | S k =>
      namelen ← wd dat swap (sysdep_segments + 8 * i);
      name ← wd dat swap (sysdep_segments + 8 * i + 4);
      if namelen <=? 0 then Invalid
      else
        last ← byte_at dat (name + namelen - 1);
        if negb (last =? 0) then Invalid
        else
          s ← cstring dat name;
          v ← match get_sysdep_segment_value s with
              | Value v => Ret (Some v)
              | Unsupported => Ret None
              | Aborts => Undef
              end;
          vs ← segment_values sysdep_segments (i + 1) k;
          Ret (v :: vs)
  end.

Context (sysdep_segment_values : list (option cstr)).
Abbreviation n_sysdep_segments := (Z.of_nat (length sysdep_segment_values)).

(** The size of a string, [None] if it refers to an undefined segment
    ([valid = 0]).  [p] is the offset of a [struct segment_pair]. *)
Fixpoint need_loop (fuel : nat) (p need : Z) : load (option Z) :=
  match fuel with
  | O => Undef
  | S fuel =>
      segsize ← wd dat swap p;
      sysdepref ← wd dat swap (p + 4);
      let need := need + segsize in
      if sysdepref =? SEGMENTS_END then Ret (Some need)
      else if n_sysdep_segments <=? sysdepref then Invalid
      else match sysdep_segment_values !! Z.to_nat sysdepref with
           | Some (Some v) => need_loop fuel (p + 8) (need + Z.of_nat (length v))
           | _ => Ret None
           end
  end.

(** A loop over segment pairs cannot run longer than the file. *)
Definition fuel : nat := S (length dat).

Definition string_need (sysdep_string : Z) : load (option Z) :=
  first ← wd dat swap (sysdep_string + 8);
  if first =? SEGMENTS_END then Ret (Some 0) else need_loop fuel (sysdep_string + 4) 0.

Context (orig_sysdep trans_sysdep : Z).

(** The first pass, from string [i] on: [n_inmem_sysdep_strings] and the
    memory for the strings. *)
Fixpoint count_pass (k : nat) (i n memneed : Z) : load (Z * Z) :=
  match k with
  | O => Ret (n, memneed)
  | S k =>
      o ← wd dat swap (orig_sysdep + 4 * i);
      needs0 ← string_need o;
      match needs0 with
      | None => count_pass k (i + 1) n memneed
      | Some needs0 =>
          t ← wd dat swap (trans_sysdep + 4 * i);
          needs1 ← string_need t;
          match needs1 with
          | None => count_pass k (i + 1) n memneed
          | Some needs1 => count_pass k (i + 1) (n + 1) (memneed + (needs0 + needs1))
          end
      end
  end.

(** The second pass checks [valid] again, *)
Fixpoint valid_loop (fuel : nat) (p : Z) : load bool :=
  match fuel with
  | O => Undef
  | S fuel =>
      sysdepref ← wd dat swap (p + 4);
      if sysdepref =? SEGMENTS_END then Ret true
      else match sysdep_segment_values !! Z.to_nat sysdepref with
           | Some (Some _) => valid_loop fuel (p + 8)
           | Some None => Ret false
           | None => Undef
           end
  end.

Definition string_valid (sysdep_string : Z) : load bool :=
  first ← wd dat swap (sysdep_string + 8);
  if first =? SEGMENTS_END then Ret true else valid_loop fuel (sysdep_string + 4).

(** and concatenates the segments; [m] is what was written so far. *)
Fixpoint concat_loop (fuel : nat) (p static_segments : Z) (m : list Z) : load (list Z) :=
  match fuel with
  | O => Undef
  | S fuel =>
      segsize ← wd dat swap p;
      sysdepref ← wd dat swap (p + 4);
      bytes ← (if 0 <? segsize then bytes_at dat static_segments segsize else Ret []);
      let m := m ++ bytes in
      let static_segments := static_segments + segsize in
      if sysdepref =? SEGMENTS_END then Ret m
      else match sysdep_segment_values !! Z.to_nat sysdepref with
           | Some (Some v) => concat_loop fuel (p + 8) static_segments (m ++ v)
           | _ => Undef
           end
  end.

Definition fill_entry (sysdep_string : Z) (m : list Z) : load (sysdep_string_desc * list Z) :=
  static_segments ← wd dat swap sysdep_string;
  first ← wd dat swap (sysdep_string + 8);
  if first =? SEGMENTS_END then
    segsize ← wd dat swap (sysdep_string + 4);
    Ret (SysdepStringDesc segsize (InData static_segments), m)
  else
    m' ← concat_loop fuel (sysdep_string + 4) static_segments m;
    Ret (SysdepStringDesc (Z.of_nat (length m' - length m)) (InMem (length m)), m').

Definition pair_valid (o i : Z) : load bool :=
  v ← string_valid o;
  if (v : bool) then t ← wd dat swap (trans_sysdep + 4 * i); string_valid t else Ret false.

Fixpoint fill_pass (k : nat) (i : Z) (origs transs : list sysdep_string_desc) (m : list Z)
    : load (list sysdep_string_desc * list sysdep_string_desc * list Z) :=
  match k with
  | O => Ret (origs, transs, m)
  | S k =>
      o ← wd dat swap (orig_sysdep + 4 * i);
      v ← pair_valid o i;
      if (v : bool) then
        '(e0, m) ← fill_entry o m;
        t ← wd dat swap (trans_sysdep + 4 * i);
        '(e1, m) ← fill_entry t m;
        fill_pass k (i + 1) (origs ++ [e0]) (transs ++ [e1]) m
      else fill_pass k (i + 1) origs transs m
  end.
End Load.

(** ** The hash table *)

Definition hash (msgid : cstr) : Z := wrapw 32 (__hash_string 64 msgid).
Definition probe_incr (size hash_val : Z) : Z := 1 + hash_val mod (size - 2).
(** [if (idx >= hash_size - incr) idx -= hash_size - incr; else idx += incr;] *)
Definition probe_next (size incr idx : Z) : Z :=
  if size - incr <=? idx then idx - (size - incr) else idx + incr.

(** The words of the table of the file. *)
Fixpoint hash_words (dat : list Z) (swap : bool) (off : Z) (k : nat) : load (list Z) :=
  match k with
  | O => Ret []
  | S k => w ← wd dat swap off; ws ← hash_words dat swap (off + 4) k; Ret (w :: ws)
  end.

(** Storing [v] in the first free slot; the slots repeat after [size] steps. *)
Fixpoint hash_insert (fuel : nat) (tab : list Z) (incr idx v : Z) : load (list Z) :=
  match fuel with
  | O => Undef
  | S fuel =>
      match tab !! Z.to_nat idx with
      | None => Undef
      | Some w =>
          if w =? 0 then Ret (<[Z.to_nat idx := v]> tab)
          else hash_insert fuel tab incr (probe_next (Z.of_nat (length tab)) incr idx) v
      end
  end.

(** [for (i = 0; i < n_inmem_sysdep_strings; i++)] *)
Fixpoint augment (dat m : list Z) (nstrings i : Z) (descs : list sysdep_string_desc) (tab : list Z)
    : load (list Z) :=
  match descs with
  | [] => Ret tab
  | d :: descs =>
      msgid ← deref dat m (sd_pointer d);
      let size := Z.of_nat (length tab) in
      tab ← hash_insert (S (length tab)) tab (probe_incr size (hash msgid)) (hash msgid mod size)
              (wrapw 32 (1 + nstrings + i));
      augment dat m nstrings (i + 1) descs tab
  end.

Definition sizeof_mo_file_header : Z := 48.
Definition sizeof_sysdep_string_desc : Z := 16.

(** The minor revisions from 1 on with system dependent strings. *)
Definition load_sysdep `{PriMacros} (mal : Z -> bool) (d : loaded_domain) (n_strings : Z) : load loaded_domain :=
  let dat := data d in
  let swap := must_swap d in
  n_segments ← wd dat swap 28;
  segments ← wd dat swap 32;
  values ← segment_values dat swap segments 0 (Z.to_nat n_segments);
  orig ← wd dat swap 40;
  trans ← wd dat swap 44;
  '(n, memneed) ← count_pass dat swap values orig trans (Z.to_nat n_strings) 0 0 (hash_size d * 4);
  let memneed := memneed + wrapw 32 (2 * n) * sizeof_sysdep_string_desc in
  if 0 <? n then
    if negb (mal memneed) then Invalid
    else
      '(origs, transs, m) ← fill_pass dat swap values orig trans (Z.to_nat n_strings) 0 [] [] [];
      if negb (Z.of_nat (length origs) =? n) then Undef
      else
        ws ← match hash_tab d with
             | Some (FileHash off) =>
                 hash_words dat (must_swap_hash_tab d) off (Z.to_nat (hash_size d))
             | _ => Undef
             end;
        tab ← augment dat m (nstrings d) 0 origs ws;
        Ret (LoadedDomain dat swap (nstrings d) (orig_tab d) (trans_tab d) n origs transs m
               (hash_size d) (Some (MemHash tab)) false)
  else Ret d.

(** From the magic number to the end of the [switch] on the revision. *)
Definition load_catalog `{PriMacros} (mal_domain : bool) (mal : Z -> bool) (dat : list Z) : load loaded_domain :=
  if Z.of_nat (length dat) <? sizeof_mo_file_header then Invalid
  else
    magic ← word_at dat 0;
    if negb (magic =? _MAGIC) && negb (magic =? _MAGIC_SWAPPED) then Invalid
    else if negb mal_domain then NoMem
    else
      let swap := negb (magic =? _MAGIC) in
      rev ← wd dat swap 4;
      let revision := if rev <? 2 ^ 31 then rev else rev - 2 ^ 32 in
      let major := Z.shiftr revision 16 in
      if negb ((major =? 0) || (major =? 1)) then Invalid
      else
        nstrings ← wd dat swap 8;
        orig ← wd dat swap 12;
        trans ← wd dat swap 16;
        hsize ← wd dat swap 20;
        hoff ← wd dat swap 24;
        let htab := if 2 <? hsize then Some (FileHash hoff) else None in
        let d := LoadedDomain dat swap nstrings orig trans 0 [] [] [] hsize htab swap in
        if Z.land revision 0xffff =? 0 then Ret d
        else match htab with
             | None => Invalid
             | Some _ =>
                 n ← wd dat swap 36;
                 if 0 <? n then load_sysdep mal d n else Ret d
             end.

(** ** Looking up a message *)

Section Find.
Context (d : loaded_domain).

(** The [length] and the string at [orig_tab[i]]. *)
Definition orig_length (i : Z) : load Z := wd (data d) (must_swap d) (orig_tab d + 8 * i).
Definition orig_string (i : Z) : load cstr :=
  off ← wd (data d) (must_swap d) (orig_tab d + 8 * i + 4); cstring (data d) off.

Definition hash_entry (t : hash_table) (idx : Z) : load Z :=
  match t with
  | FileHash off => wd (data d) (must_swap_hash_tab d) (off + 4 * idx)
  | MemHash l => match l !! Z.to_nat idx with Some w => Ret (W (must_swap_hash_tab d) w) | None => Undef end
  end.

(** Does the string with number [nstr] equal [msgid]? *)
Definition is_string (msgid : cstr) (nstr : Z) : load bool :=
  let len := wrapw 32 (Z.of_nat (length msgid)) in
  if nstr <? nstrings d then
    l ← orig_length nstr;
    if len <=? l then s ← orig_string nstr; Ret (strcmp msgid s =? 0) else Ret false
  else
    match orig_sysdep_tab d !! Z.to_nat (nstr - nstrings d) with
    | None => Undef
    | Some e =>
        if len <? sd_length e
        then s ← deref (data d) (mem d) (sd_pointer e); Ret (strcmp msgid s =? 0) else Ret false
    end.

(** [while (1)]; the slots repeat after [hash_size] steps. *)
Fixpoint probe_loop (fuel : nat) (t : hash_table) (msgid : cstr) (incr idx : Z) : load (option Z) :=
  match fuel with
  | O => Undef
  | S fuel =>
      nstr ← hash_entry t idx;
      if nstr =? 0 then Ret None
      else
        let nstr := nstr - 1 in
        eq ← is_string msgid nstr;
        if (eq : bool) then Ret (Some nstr)
        else probe_loop fuel t msgid incr (probe_next (hash_size d) incr idx)
  end.

(** [while (bottom < top)] *)
Fixpoint bsearch_loop (fuel : nat) (msgid : cstr) (bottom top : Z) : load (option Z) :=
  match fuel with
  | O => Undef
  | S fuel =>
      if bottom <? top then
        let act := (bottom + top) / 2 in
        s ← orig_string act;
        let cmp_val := strcmp msgid s in
        if cmp_val <? 0 then bsearch_loop fuel msgid bottom act
        else if 0 <? cmp_val then bsearch_loop fuel msgid (act + 1) top
        else Ret (Some act)
      else Ret None
  end.

(** The index [act] of the message; [None] if there is no translation. *)
Definition find_act (msgid : cstr) : load (option Z) :=
  match hash_tab d with
  | Some t =>
      probe_loop (S (Z.to_nat (hash_size d))) t msgid
        (probe_incr (hash_size d) (hash msgid)) (hash msgid mod hash_size d)
  | None => bsearch_loop (S (Z.to_nat (nstrings d))) msgid 0 (nstrings d)
  end.

(** The translation: pointer and length, its final NUL included. *)
Definition translation (act : Z) : load (sptr * Z) :=
  if act <? nstrings d then
    off ← wd (data d) (must_swap d) (trans_tab d + 8 * act + 4);
    len ← wd (data d) (must_swap d) (trans_tab d + 8 * act);
    Ret (InData off, len + 1)
  else
    match trans_sysdep_tab d !! Z.to_nat (act - nstrings d) with
    | None => Undef
    | Some e => Ret (sd_pointer e, sd_length e)
    end.

Definition find_msg (msgid : cstr) : load (option (sptr * Z)) :=
  act ← find_act msgid;
  match act with
  | None => Ret None
  | Some act => r ← translation act; Ret (Some r)
  end.
End Find.

(** ** Reading the file *)

(** What read() does: bytes, at most as many as asked for, an interruption, an
    error or the end of the file. *)
Inductive io_read := ReadBytes (l : list Z) | ReadEintr | ReadError | ReadEof.

(** What the system returns for a file. *)
Record file_io := FileIo {
  io_open : bool;
  io_size : option Z;              (* [None]: fstat() fails *)
  io_mmap : option (list Z);       (* [None]: mmap() fails *)
  io_malloc : bool;                (* malloc (size) *)
  io_reads : list io_read          (* the calls of read() that return *)
}.

(** [do ... while (to_read > 0)]; [Undef] while the next read() does not return. *)
Fixpoint read_loop (reads : list io_read) (to_read : Z) (got : list Z) : load (list Z) :=
  match reads with
  | [] => Undef
  | ReadEintr :: reads => if 0 <? to_read then read_loop reads to_read got else Ret got
  | (ReadError | ReadEof) :: _ => Invalid
  | ReadBytes l :: reads =>
      if Nat.eqb (length l) 0 then Invalid
      else
        let to_read := to_read - Z.of_nat (length l) in
        if 0 <? to_read then read_loop reads to_read (got ++ l) else Ret (got ++ l)
  end.

(** The bytes of the file, [Invalid] for [goto out]. *)
Definition fetch_file (io : file_io) : load (list Z) :=
  if negb (io_open io) then Invalid
  else
    match io_size io with
    | None => Invalid
    | Some size =>
        if size <? sizeof_mo_file_header then Invalid
        else
          match io_mmap io with
          | Some l => Ret l
          | None => if negb (io_malloc io) then Invalid else read_loop (io_reads io) size []
          end
    end.

(** ** The domain file and its states *)

(** [struct loaded_l10nfile] as far as loading is concerned; the plural formula
    and the number of forms belong to the domain. *)
Record domain_file := DomainFile {
  df_decided : Z;
  df_data : option (loaded_domain * (option expression * Z))
}.

Section Domain.
Context `{PriMacros} (mal_domain : bool) (mal : Z -> bool) (pmal : nat -> bool) (pstack : Z -> bool).

(** The header entry and the plural formula of a new domain.  The recursive
    call of [_nl_find_msg] finds [decided] set to -1 and goes on with the data. *)
Definition load_plural (d : loaded_domain) : load (option expression * Z) :=
  entry ← find_msg d [];
  nullentry ← match entry with
              | None => Ret None
              | Some (p, _) => s ← deref (data d) (mem d) p; Ret (Some s)
              end;
  match EXTRACT_PLURAL_EXPRESSION 64 pmal pstack nullentry with
  | None => Undef
  | Some pl => Ret pl
  end.

Definition _nl_load_domain (io : file_io) (df : domain_file) : load domain_file :=
  if negb (df_decided df =? 0) then Ret df
  else
    match (dat ← fetch_file io; load_catalog mal_domain mal dat) with
    | Invalid | NoMem => Ret (DomainFile 1 None)
    | Undef => Undef
    | Ret d => pl ← load_plural d; Ret (DomainFile 1 (Some (d, pl)))
    end.

(** [_nl_find_msg] with [convert = 0]. *)
Definition _nl_find_msg (io : file_io) (df : domain_file) (msgid : cstr)
    : load (option (sptr * Z) * domain_file) :=
  df ← (if df_decided df <=? 0 then _nl_load_domain io df else Ret df);
  match df_data df with
  | None => Ret (None, df)
  | Some (d, _) => r ← find_msg d msgid; Ret (r, df)
  end.
End Domain.

(** ** Plural forms *)

(** Skipping [index] strings: [t] are the [translation_len] bytes of the
    translation, [p] an offset; [0] where the end is reached. *)
Fixpoint skip_strings (fuel : nat) (t : list Z) (index : Z) (p : nat) : load nat :=
  match fuel with
  | O => Undef
  | S fuel =>
      if 0 <? index then
        match cstring_of (drop p t) with
        | None => Undef
        | Some s =>
            let p := (p + length s + 1)%nat in
            if Nat.leb (length t) p then Ret 0%nat else skip_strings fuel t (index - 1) p
        end
      else Ret p
  end.

Definition plural_lookup (plural : option expression) (nplurals : Z) (n : Z) (t : list Z) : load nat :=
  match plural with
  | None => Undef
  | Some e =>
      match plural_eval 64 e n with
      | None => Undef
      | Some index =>
          let index := if nplurals <=? index then 0 else index in
          skip_strings (S (length t)) t index 0
      end
  end.
