(* ===== verification/CatalogSpec.v ===== *)
(** * What loading and lookup of message catalogs promise

    Byte order independence, the names of system dependent segments, the exact
    memory for system dependent strings, both search methods as the lookup in a
    finite map, and plural forms that stay within the translation. *)

From Stdlib Require Import Sorted.
From S2P Require Import Prelude HashString PluralExp PluralParse PluralExtract Catalog.

Open Scope Z_scope.

Lemma lbind_ret {A B} (r : load A) (f : A -> load B) b :
  (r ≫= f) = Ret b <-> exists a, r = Ret a /\ f a = Ret b.
Proof.
  destruct r as [a| | |]; simpl; split; try done; [eauto|by intros (? & [= ->] & ?)|by intros (? & ? & _)..].
Qed.

(** ** Byte order *)

Definition byte (b : Z) : Prop := 0 <= b < 256.

#[export] Instance byte_dec b : Decision (byte b).
Proof. unfold byte. apply _. Defined.

Lemma lor_disjoint a b n : 0 <= n -> 0 <= a -> 0 <= b < 2 ^ n -> Z.lor (a * 2 ^ n) b = a * 2 ^ n + b.
Proof.
  intros Hn Ha Hb. rewrite <- Z.lxor_lor, Z.add_nocarry_lxor; try done.
  all: apply Z.bits_inj'; intros i Hi; rewrite Z.land_spec, Z.bits_0, <- Z.shiftl_mul_pow2, Z.shiftl_spec by lia.
  all: destruct (Z.lt_ge_cases i n); [rewrite Z.testbit_neg_r by lia; done|].
  all: rewrite <- (Z.mod_small b (2 ^ n)), Z.mod_pow2_bits_high by lia; apply andb_false_r.
Qed.

Lemma SWAP_bytes b0 b1 b2 b3 :
  byte b0 -> byte b1 -> byte b2 -> byte b3 ->
  SWAP (b0 + 2 ^ 8 * b1 + 2 ^ 16 * b2 + 2 ^ 24 * b3) = b3 + 2 ^ 8 * b2 + 2 ^ 16 * b1 + 2 ^ 24 * b0.
Proof.
  unfold byte. intros H0 H1 H2 H3. unfold SWAP. set (x := b0 + _ + _ + _).
  assert (E1 : wrapw 32 (Z.shiftl x 24) = b0 * 2 ^ 24).
  { rewrite Z.shiftl_mul_pow2 by lia. unfold wrapw. symmetry.
    apply (Z.mod_unique _ _ (b1 + 2 ^ 8 * b2 + 2 ^ 16 * b3)); unfold x; lia. }
  assert (E2 : forall y, Z.land y 0xff00 = (y / 2 ^ 8) mod 2 ^ 8 * 2 ^ 8).
  { intros y. rewrite <- Z.shiftr_div_pow2, <- Z.land_ones, <- Z.shiftl_mul_pow2 by lia.
    apply Z.bits_inj'; intros i Hi. rewrite Z.land_spec, Z.shiftl_spec, Z.land_spec by lia.
    change 0xff00 with (Z.shiftl (Z.ones 8) 8). rewrite Z.shiftl_spec by lia.
    destruct (Z.lt_ge_cases i 8); [by rewrite !(Z.testbit_neg_r _ (i - 8)) by lia; rewrite andb_false_r|].
    rewrite Z.shiftr_spec by lia. by rewrite Z.sub_add. }
  assert (D : forall q r, 0 <= r < 2 ^ 8 -> (q * 2 ^ 8 + r) / 2 ^ 8 = q)
    by (intros q r Hr; rewrite Z.div_add_l by lia; rewrite (Z.div_small r) by lia; lia).
  assert (M : forall q r, 0 <= r < 2 ^ 8 -> (q * 2 ^ 8 + r) mod 2 ^ 8 = r)
    by (intros q r Hr; rewrite Z.add_comm, Z.mod_add by lia; by apply Z.mod_small).
  assert (X : x = ((b3 * 2 ^ 8 + b2) * 2 ^ 8 + b1) * 2 ^ 8 + b0) by (unfold x; lia).
  rewrite E1, !E2, !Z.shiftr_div_pow2 by lia.
  replace (x / 2 ^ 8) with ((b3 * 2 ^ 8 + b2) * 2 ^ 8 + b1) by (rewrite X; by rewrite D).
  replace (x / 2 ^ 24) with b3.
  2: { change (2 ^ 24) with (2 ^ 8 * (2 ^ 8 * 2 ^ 8)). rewrite <- !Z.div_div by lia. rewrite X, !D; lia. }
  rewrite D, !M, Z.shiftl_mul_pow2 by lia.
  replace (b1 * 2 ^ 8 * 2 ^ 8) with (b1 * 2 ^ 16) by lia.
  assert (E3 : Z.lor (b0 * 2 ^ 24) (b1 * 2 ^ 16) = (b0 * 2 ^ 8 + b1) * 2 ^ 16)
    by (rewrite lor_disjoint by lia; lia).
  rewrite E3. assert (E4 : Z.lor ((b0 * 2 ^ 8 + b1) * 2 ^ 16) (b2 * 2 ^ 8) = ((b0 * 2 ^ 8 + b1) * 2 ^ 8 + b2) * 2 ^ 8)
    by (rewrite lor_disjoint by lia; lia).
  rewrite E4, lor_disjoint by lia. lia.
Qed.

(** The four bytes of a file of the other byte order. *)
Definition reverses (dat dat' : list Z) (off : Z) : Prop :=
  exists b0 b1 b2 b3, byte b0 /\ byte b1 /\ byte b2 /\ byte b3 /\
    byte_at dat off = Ret b0 /\ byte_at dat (off + 1) = Ret b1 /\
    byte_at dat (off + 2) = Ret b2 /\ byte_at dat (off + 3) = Ret b3 /\
    byte_at dat' off = Ret b3 /\ byte_at dat' (off + 1) = Ret b2 /\
    byte_at dat' (off + 2) = Ret b1 /\ byte_at dat' (off + 3) = Ret b0.

(** A catalog can be used on machines of both byte orders: a word of a file
    of the other byte order, read with swapping, is the word of the file in
    host order read without, and conversely. *)
Theorem byte_order_independent (dat dat' : list Z) (off : Z) (H : reverses dat dat' off) :
  wd dat' true off = wd dat false off /\ wd dat true off = wd dat' false off.
Proof.
  destruct H as (b0 & b1 & b2 & b3 & B0 & B1 & B2 & B3 & E0 & E1 & E2 & E3 & F0 & F1 & F2 & F3).
  unfold wd, word_at. rewrite E0, E1, E2, E3, F0, F1, F2, F3. simpl.
  split; f_equal; by apply SWAP_bytes.
Qed.

Lemma byte_order_independent_witness :
  wd [0x95; 0x04; 0x12; 0xde] true 0 = Ret _MAGIC /\ wd [0xde; 0x12; 0x04; 0x95] false 0 = Ret _MAGIC.
Proof.
  split; [|reflexivity].
  refine (eq_trans (proj1 (byte_order_independent [0xde; 0x12; 0x04; 0x95] [0x95; 0x04; 0x12; 0xde] 0 _)) eq_refl).
  exists 0xde, 0x12, 0x04, 0x95. unfold byte. repeat split; lia.
Defined.

(** ** System dependent segments *)

Definition kind_suffix (k : pri_kind) : cstr :=
  match k with
  | K8 => cs "8" | K16 => cs "16" | K32 => cs "32" | K64 => cs "64"
  | KLEAST8 => cs "LEAST8" | KLEAST16 => cs "LEAST16" | KLEAST32 => cs "LEAST32" | KLEAST64 => cs "LEAST64"
  | KFAST8 => cs "FAST8" | KFAST16 => cs "FAST16" | KFAST32 => cs "FAST32" | KFAST64 => cs "FAST64"
  | KMAX => cs "MAX" | KPTR => cs "PTR"
  end.

Lemma is_at_spec name i s : is_at name i s = true <-> exists post, drop i name = s ++ post.
Proof.
  unfold is_at. rewrite bool_decide_eq_true. split.
  - intros E. exists (drop (length s) (drop i name)). rewrite <- E at 1. by rewrite take_drop.
  - intros [post ->]. by rewrite take_app_length.
Qed.

Lemma ends_with_spec name i s :
  wf_cstr name -> s <> [] -> ends_with name i s = true <-> drop i name = s.
Proof.
  intros Hw Hs. unfold ends_with. rewrite andb_true_iff, is_at_spec, Z.eqb_eq. unfold at_. split.
  - intros [[post E] H0].
    destruct post as [|c post]; [by rewrite app_nil_r in E|]. exfalso.
    assert (Hl : name !! (i + length s)%nat = Some c).
    { rewrite <- lookup_drop, E, lookup_app_r, Nat.sub_diag by lia. done. }
    rewrite (nth_lookup_Some _ _ _ _ Hl) in H0.
    apply (Forall_lookup_1 _ _ _ _ Hw) in Hl. lia.
  - intros E. split; [exists []; by rewrite app_nil_r|]. apply nth_overflow.
    rewrite <- E, length_drop. destruct (Nat.le_gt_cases i (length name)); [lia|].
    rewrite drop_ge in E by lia. congruence.
Qed.

Lemma is_at_ends_with name i t s :
  wf_cstr name -> s <> [] ->
  is_at name i t && ends_with name (i + length t) s = ends_with name i (t ++ s).
Proof.
  intros Hw Hs. apply eq_true_iff_eq. assert (t ++ s <> []) by (by destruct t, s).
  rewrite andb_true_iff, is_at_spec, !ends_with_spec by done. rewrite <- drop_drop. split.
  - intros [[post E] E2]. rewrite E in E2 |- *. by rewrite drop_app_length in E2; subst.
  - intros ->. split; [by eexists|]. by rewrite drop_app_length.
Qed.

Lemma pri_shape name s :
  wf_cstr name -> is_at name 0 (cs "PRI") = true -> s <> [] ->
  ends_with name 4 s = true <-> name = cs "PRI" ++ at_ name 3 :: s.
Proof.
  intros Hw [post E]%is_at_spec Hs. rewrite drop_0 in E. rewrite ends_with_spec by done. subst name.
  split.
  - destruct post as [|c post]; simpl; [by intros <-|]. rewrite drop_0. by intros ->.
  - intros ->. done.
Qed.

Section Segments.
Context `{PriMacros}.

Lemma conv_cases c :
  c ∈ cs "diouxX" ->
  c = chr "d" \/ c = chr "i" \/ c = chr "o" \/ c = chr "u" \/ c = chr "x" \/ c = chr "X".
Proof using Type.
  intros Hc. change (cs "diouxX") with [chr "d"; chr "i"; chr "o"; chr "u"; chr "x"; chr "X"] in Hc.
  rewrite !elem_of_cons, elem_of_nil in Hc. tauto.
Qed.

Lemma select_spec k c : c ∈ cs "diouxX" -> select k c = Value (pri k c).
Proof using Type.
  intros Hc. unfold select. repeat (case_if; [by subst|]). exfalso.
  apply conv_cases in Hc as [->|[->|[->|[->|[->| ->]]]]]; done.
Qed.

Lemma conv_spec c : existsb (fun d => c =? d) (cs "diouxX") = true <-> c ∈ cs "diouxX".
Proof using Type.
  rewrite existsb_exists. split.
  - intros (d & Hd & ->%Z.eqb_eq). by apply list_elem_of_In.
  - intros Hc. exists c. split; [by apply list_elem_of_In|apply Z.eqb_refl].
Qed.

Lemma pri_value k c :
  c ∈ cs "diouxX" -> get_sysdep_segment_value (cs "PRI" ++ c :: kind_suffix k) = Value (pri k c).
Proof using Type.
  intros Hc. rewrite <- (select_spec k c Hc).
  apply conv_cases in Hc as [->|[->|[->|[->|[->| ->]]]]]; destruct k; reflexivity.
Qed.

Lemma segment_forward name :
  wf_cstr name ->
  (exists k c, c ∈ cs "diouxX" /\ name = cs "PRI" ++ c :: kind_suffix k) \/
  get_sysdep_segment_value name = (if decide (name = cs "I") then Value (cs "I") else Unsupported).
Proof using Type.
  intros Hw. unfold get_sysdep_segment_value, plain_kind, least_kind, fast_kind, max_ptr_kind. cbv zeta.
  assert (Hrest : (if ends_with name 0 (cs "I") then Value (cs "I") else Unsupported) =
    (if decide (name = cs "I") then Value (cs "I") else Unsupported)).
  { case_decide as E; [by rewrite E|]. destruct (ends_with _ _ _) eqn:E2; [|done].
    apply ends_with_spec in E2; [|done..]. by rewrite drop_0 in E2. }
  rewrite Hrest. destruct (is_at name 0 (cs "PRI")) eqn:E1; [|by right].
  destruct (existsb _ _) eqn:E2; [|by right]. apply conv_spec in E2.
  pose proof (fun s => is_at_ends_with name 4 (cs "LEAST") s Hw) as HL.
  pose proof (fun s => is_at_ends_with name 4 (cs "FAST") s Hw) as HF.
  simpl length in HL, HF. simpl Nat.add in HL, HF. rewrite !HL, !HF by done.
  assert (Hk : forall k, ends_with name 4 (kind_suffix k) = true ->
    exists k c, c ∈ cs "diouxX" /\ name = cs "PRI" ++ c :: kind_suffix k).
  { intros k Hk. exists k, (at_ name 3). split; [done|]. apply (pri_shape name); [done|done|by destruct k|done]. }
  repeat match goal with
  | |- context [ if ends_with name 4 ?s then Some ?k else _ ] =>
      destruct (ends_with name 4 s) eqn:?; [left; apply (Hk k); assumption|]
  end.
  by right.
Qed.

(** [get_sysdep_segment_value] supports exactly the macros of ISO C 99,
    section 7.8.1, and the flag [I]; every other name is unsupported, and the
    calls of abort() are unreachable. *)
Theorem sysdep_segment_names (name : cstr) (v : segment_value) (Hw : wf_cstr name) :
  get_sysdep_segment_value name = v <->
  (exists k c, c ∈ cs "diouxX" /\ name = cs "PRI" ++ c :: kind_suffix k /\ v = Value (pri k c)) \/
  (name = cs "I" /\ v = Value (cs "I")) \/
  ((forall k c, c ∈ cs "diouxX" -> name <> cs "PRI" ++ c :: kind_suffix k) /\ name <> cs "I" /\
   v = Unsupported).
Proof using Type.
  destruct (segment_forward name Hw) as [(k & c & Hc & ->)|E].
  - rewrite pri_value by done. split; [intros <-; left; by exists k, c|].
    intros [(k' & c' & Hc' & E & ->)|[[E _]|[Hn _]]]; [|done|by apply (Hn k c) in Hc].
    by rewrite <- (pri_value k' c'), <- E, pri_value.
  - assert (Hno : forall k c, c ∈ cs "diouxX" -> name <> cs "PRI" ++ c :: kind_suffix k).
    { intros k c Hc ->. rewrite pri_value, decide_False in E by done. done. }
    rewrite E. case_decide as Ei.
    + split; [intros <-; auto|]. intros [(k & c & Hc & En & _)|[[_ ->]|(_ & ? & _)]]; [|done..].
      by apply Hno in En.
    + split; [intros <-; auto|]. intros [(k & c & Hc & En & _)|[[? _]|(_ & _ & ->)]]; [|done..].
      by apply Hno in En.
Qed.
End Segments.

Lemma sysdep_segment_names_witness :
  @get_sysdep_segment_value (pri_fallback 8 8 8) (cs "PRIuLEAST64") = Value (cs "lu").
Proof.
  apply (@sysdep_segment_names (pri_fallback 8 8 8) (cs "PRIuLEAST64") (Value (cs "lu"))).
  - apply (bool_decide_unpack _). vm_compute. reflexivity.
  - left. exists KLEAST64, (chr "u"). split; [|split; reflexivity].
    apply (bool_decide_unpack _). vm_compute. reflexivity.
Defined.

(** ** The memory for system dependent strings *)

Lemma byte_at_range dat off b : Forall byte dat -> byte_at dat off = Ret b -> byte b.
Proof.
  intros Hd. unfold byte_at. destruct (dat !! Z.to_nat off) eqn:E; [|done].
  case_if; [|done]. intros [= <-]. by apply (Forall_lookup_1 _ _ _ _ Hd) in E.
Qed.

Lemma wd_range dat swap off v : Forall byte dat -> wd dat swap off = Ret v -> 0 <= v < 2 ^ 32.
Proof.
  intros Hd H. unfold wd, word_at in H.
  apply lbind_ret in H as (x & H & Hv). injection Hv as <-.
  apply lbind_ret in H as (b0 & B0 & H). apply lbind_ret in H as (b1 & B1 & H).
  apply lbind_ret in H as (b2 & B2 & H). apply lbind_ret in H as (b3 & B3 & H). injection H as <-.
  apply byte_at_range in B0, B1, B2, B3; auto.
  destruct swap; unfold W; [rewrite SWAP_bytes by done|]; unfold byte in *; lia.
Qed.

Lemma bytes_at_length dat off n l :
  0 <= n -> bytes_at dat off n = Ret l -> Z.of_nat (length l) = n.
Proof.
  intros Hn. unfold bytes_at. case_if; [|done]. intros [= <-].
  rewrite length_take, length_drop. lia.
Qed.

Section Memory.
Context (dat : list Z) (swap : bool) (Hdat : Forall byte dat) (values : list (option cstr)).

Lemma need_valid fuel p need r :
  need_loop dat swap values fuel p need = Ret r ->
  valid_loop dat swap values fuel p = Ret (match r with Some _ => true | None => false end).
Proof using Hdat.
  revert p need. induction fuel as [|fuel IH]; intros p need H; [done|]. cbn [need_loop valid_loop] in *.
  apply lbind_ret in H as (segsize & E1 & H). apply lbind_ret in H as (ref & E2 & H).
  rewrite E2. cbn [mbind load_bind]. pose proof (wd_range _ _ _ _ Hdat E2).
  case_if_in H; [by injection H as <-|]. case_if_in H; [done|].
  destruct (lookup_lt_is_Some_2 values (Z.to_nat ref)) as [v Hv]; [lia|]. rewrite Hv in H |- *.
  destruct v as [v|]; [by apply IH in H|by injection H as <-].
Qed.

Lemma need_concat fuel p need r st m m' :
  need_loop dat swap values fuel p need = Ret (Some r) ->
  concat_loop dat swap values fuel p st m = Ret m' ->
  Z.of_nat (length m') - Z.of_nat (length m) = r - need.
Proof using Hdat.
  revert p need st m. induction fuel as [|fuel IH]; intros p need st m H H'; [done|].
  cbn [need_loop concat_loop] in *.
  apply lbind_ret in H as (segsize & E1 & H). apply lbind_ret in H as (ref & E2 & H).
  rewrite E1, E2 in H'. cbn [mbind load_bind] in H'. apply lbind_ret in H' as (bs & E3 & H').
  pose proof (wd_range _ _ _ _ Hdat E1) as Hr.
  assert (Hb : Z.of_nat (length bs) = segsize).
  { case_if_in E3; [by eapply bytes_at_length; [|exact E3]; lia|]. injection E3 as <-. simpl. lia. }
  destruct (ref =? SEGMENTS_END).
  - injection H as <-. injection H' as <-. rewrite length_app. lia.
  - case_if_in H; [done|]. destruct (values !! Z.to_nat ref) as [[v|]|]; try done.
    specialize (IH _ _ _ _ H H'). rewrite !length_app in IH. lia.
Qed.

Lemma need_fill str r m e m' :
  string_need dat swap values str = Ret (Some r) ->
  fill_entry dat swap values str m = Ret (e, m') ->
  Z.of_nat (length m') - Z.of_nat (length m) = r.
Proof using Hdat.
  unfold string_need, fill_entry. intros H H'.
  apply lbind_ret in H as (first & E1 & H). apply lbind_ret in H' as (st & E2 & H').
  rewrite E1 in H'. cbn [mbind load_bind] in H'. destruct (first =? SEGMENTS_END).
  - injection H as <-. apply lbind_ret in H' as (seg & E3 & H'). injection H' as <- <-. lia.
  - apply lbind_ret in H' as (m1 & E3 & H'). injection H' as <- <-.
    pose proof (need_concat _ _ _ _ _ _ _ H E3). lia.
Qed.

Lemma string_need_valid str r :
  string_need dat swap values str = Ret r ->
  string_valid dat swap values str = Ret (match r with Some _ => true | None => false end).
Proof using Hdat.
  unfold string_need, string_valid. intros H. apply lbind_ret in H as (first & -> & H).
  cbn [mbind load_bind]. case_if; [by injection H as <-|]. by eapply need_valid.
Qed.

Lemma passes_agree orig trans k i n mn n' mn' os ts m os' ts' m' :
  count_pass dat swap values orig trans k i n mn = Ret (n', mn') ->
  fill_pass dat swap values orig trans k i os ts m = Ret (os', ts', m') ->
  Z.of_nat (length os') - Z.of_nat (length os) = n' - n /\
  Z.of_nat (length ts') - Z.of_nat (length ts) = n' - n /\
  Z.of_nat (length m') - Z.of_nat (length m) = mn' - mn.
Proof using Hdat.
  revert i n mn os ts m. induction k as [|k IH]; intros i n mn os ts m H H'; cbn [count_pass fill_pass] in *.
  - injection H as <- <-. injection H' as <- <- <-. lia.
  - apply lbind_ret in H as (o & E1 & H). apply lbind_ret in H as (n0 & E2 & H).
    rewrite E1 in H'. cbn [mbind load_bind] in H'. unfold pair_valid in H'.
    pose proof (string_need_valid _ _ E2) as V0. rewrite V0 in H'.
    destruct n0 as [n0|]; [|by apply (IH _ _ _ _ _ _ H H')]. cbn [mbind load_bind] in H'.
    apply lbind_ret in H as (t & E3 & H). apply lbind_ret in H as (n1 & E4 & H).
    pose proof (string_need_valid _ _ E4) as V1. rewrite E3 in H'. cbn [mbind load_bind] in H'.
    rewrite V1 in H'. destruct n1 as [n1|]; [|by apply (IH _ _ _ _ _ _ H H')]. cbn [mbind load_bind] in H'.
    apply lbind_ret in H' as ([e0 m0] & F0 & H'). apply lbind_ret in H' as ([e1 m1] & F1 & H').
    pose proof (need_fill _ _ _ _ _ E2 F0). pose proof (need_fill _ _ _ _ _ E4 F1).
    specialize (IH _ _ _ _ _ _ H H'). rewrite !length_app in IH. simpl length in IH. lia.
Qed.
End Memory.

(** C20. The memory for system dependent strings is counted exactly: the second
    pass over the strings fills as many descriptors as the first has counted,
    so that abort() is not reached, and writes exactly the bytes that were added
    to [memneed]. *)
Theorem sysdep_memory_exact (dat : list Z) (swap : bool) (values : list (option cstr))
    (orig trans base n memneed : Z) (k : nat) (os ts : list sysdep_string_desc) (m : list Z)
    (Hdat : Forall byte dat)
    (H1 : count_pass dat swap values orig trans k 0 0 base = Ret (n, memneed))
    (H2 : fill_pass dat swap values orig trans k 0 [] [] [] = Ret (os, ts, m)) :
  Z.of_nat (length os) = n /\ Z.of_nat (length ts) = n /\ base + Z.of_nat (length m) = memneed.
Proof.
  destruct (passes_agree dat swap Hdat values orig trans k 0 0 base n memneed [] [] [] os ts m H1 H2)
    as (E1 & E2 & E3). simpl length in *. lia.
Qed.

(** The tables of a file with one string pair ["a" PRIu32 / "bc" PRIu32 "d"],
    segment 0 being [PRIu32]: two tables of offsets, the two string
    descriptors, and the static text. *)
Definition le32 (v : Z) : list Z := [v mod 256; (v / 2 ^ 8) mod 256; (v / 2 ^ 16) mod 256; (v / 2 ^ 24) mod 256].
Definition sysdep_sample : list Z :=
  concat (map le32 [8; 28;
                    48; 1; 0; 1; SEGMENTS_END;
                    50; 2; 0; 2; SEGMENTS_END]) ++ cs "a" ++ [0] ++ cs "bcd" ++ [0].

Lemma sysdep_memory_exact_witness :
  exists os ts m,
    count_pass sysdep_sample false [Some (cs "u")] 0 4 1 0 0 100 = Ret (1, 108) /\
    fill_pass sysdep_sample false [Some (cs "u")] 0 4 1 0 [] [] [] = Ret (os, ts, m) /\
    100 + Z.of_nat (length m) = 108.
Proof.
  eexists _, _, _. split; [vm_compute; reflexivity|]. split; [vm_compute; reflexivity|].
  refine (proj2 (proj2 (sysdep_memory_exact sysdep_sample false [Some (cs "u")] 0 4 100 1 108 1 _ _ _ _ _ _))).
  - apply (bool_decide_unpack _). vm_compute. reflexivity.
  - vm_compute. reflexivity.
  - vm_compute. reflexivity.
Defined.
