(* ===== verification/CatalogFind.v ===== *)
(** * Both search methods of _nl_find_msg implement lookup in a finite map

    The abstract catalog is the list of its message ids; the binary search and
    the double hashing return the position of a message id in that list.  The
    hash table that is extended with system dependent strings stays correct. *)

From Stdlib Require Import Sorted Zdivisibility.
From S2P Require Import Prelude HashString PluralExp PluralParse PluralExtract Catalog CatalogSpec.

Open Scope Z_scope.

(** ** The abstract catalog *)

(** The position of a message id. *)
Definition index_of (S : list cstr) (msgid : cstr) : option Z :=
  match list_find (fun s => s = msgid) S with
  | Some (i, _) => Some (Z.of_nat i)
  | None => None
  end.

Lemma index_of_Some S msgid i :
  NoDup S -> S !! i = Some msgid -> index_of S msgid = Some (Z.of_nat i).
Proof.
  intros Hn Hi. unfold index_of.
  destruct (list_find _ S) as [[j s]|] eqn:E.
  - apply list_find_Some in E as (Hj & -> & _).
    by rewrite (NoDup_lookup _ _ _ _ Hn Hi Hj).
  - apply list_find_None in E. rewrite Forall_forall in E. exfalso. eapply E; [|done].
    by eapply list_elem_of_lookup_2.
Qed.

Lemma index_of_None S msgid : msgid ∉ S -> index_of S msgid = None.
Proof.
  intros Hn. unfold index_of. destruct (list_find _ S) as [[j s]|] eqn:E; [|done].
  apply list_find_Some in E as (Hj & -> & _). exfalso. apply Hn. by eapply list_elem_of_lookup_2.
Qed.

(** A domain whose message ids are [S]: first the strings of the file, then
    the system dependent ones. *)
Record represents (d : loaded_domain) (S : list cstr) : Prop := Represents {
  rep_wf : Forall wf_cstr S;
  rep_nodup : NoDup S;
  rep_count : 0 <= nstrings d <= Z.of_nat (length S);
  rep_static : forall i s, S !! i = Some s -> Z.of_nat i < nstrings d ->
    orig_string d (Z.of_nat i) = Ret s /\
    exists l, orig_length d (Z.of_nat i) = Ret l /\ Z.of_nat (length s) <= l;
  rep_sysdep : forall i s, S !! i = Some s -> nstrings d <= Z.of_nat i ->
    exists e, orig_sysdep_tab d !! Z.to_nat (Z.of_nat i - nstrings d) = Some e /\
      deref (data d) (mem d) (sd_pointer e) = Ret s /\ Z.of_nat (length s) < sd_length e
}.

Lemma eqb_strcmp msgid s :
  wf_cstr msgid -> wf_cstr s -> (strcmp msgid s =? 0) = bool_decide (msgid = s).
Proof.
  intros Hm Hs. apply eq_true_iff_eq. rewrite Z.eqb_eq, bool_decide_eq_true. by apply strcmp_eq.
Qed.

(** The length is compared before the string: this never rejects an equal string. *)
Lemma is_string_spec d S msgid i s :
  represents d S -> wf_cstr msgid -> S !! i = Some s ->
  is_string d msgid (Z.of_nat i) = Ret (bool_decide (msgid = s)).
Proof.
  intros [Hw Hn Hc Hst Hsd] Hm Hi. unfold is_string.
  assert (Hs : wf_cstr s) by (by apply (Forall_lookup_1 _ _ _ _ Hw) in Hi).
  assert (Hwrap : wrapw 32 (Z.of_nat (length msgid)) <= Z.of_nat (length msgid)).
  { unfold wrapw. apply Z.mod_le; lia. }
  destruct (Z.ltb_spec (Z.of_nat i) (nstrings d)) as [Hlt|Hge].
  - destruct (Hst i s Hi Hlt) as (E & l & -> & Hl). cbn [mbind load_bind].
    destruct (Z.leb_spec (wrapw 32 (Z.of_nat (length msgid))) l).
    + rewrite E. cbn [mbind load_bind]. by rewrite eqb_strcmp.
    + f_equal. symmetry. apply bool_decide_eq_false. intros ->. lia.
  - destruct (Hsd i s Hi Hge) as (e & -> & E & Hl).
    destruct (Z.ltb_spec (wrapw 32 (Z.of_nat (length msgid))) (sd_length e)).
    + rewrite E. cbn [mbind load_bind]. by rewrite eqb_strcmp.
    + f_equal. symmetry. apply bool_decide_eq_false. intros ->. lia.
Qed.

(** ** Binary search *)

Definition increasing (S : list cstr) : Prop := StronglySorted (fun s t => strcmp s t < 0) S.

Lemma increasing_lookup S i j s t :
  increasing S -> S !! i = Some s -> S !! j = Some t -> (i < j)%nat -> strcmp s t < 0.
Proof.
  intros Hs. revert i j. induction Hs as [|u S Hs IH Hlt]; intros i j Hi Hj Hij; [done|].
  destruct i as [|i], j as [|j]; try lia; simpl in *.
  - injection Hi as ->. rewrite Forall_forall in Hlt. apply Hlt. by eapply list_elem_of_lookup_2.
  - apply (IH i j); auto. lia.
Qed.

Section Bsearch.
Context (d : loaded_domain) (S : list cstr) (HR : represents d S) (Hinc : increasing S).
Context (Hall : nstrings d = Z.of_nat (length S)) (msgid : cstr) (Hm : wf_cstr msgid).

(** What is known of the strings outside of [bottom .. top - 1]. *)
Definition outside (bottom top : Z) : Prop :=
  forall i s, S !! i = Some s ->
    (Z.of_nat i < bottom -> strcmp s msgid < 0) /\ (top <= Z.of_nat i -> strcmp msgid s < 0).

Lemma bsearch_loop_spec fuel bottom top :
  0 <= bottom <= top -> top <= Z.of_nat (length S) -> top - bottom < Z.of_nat fuel -> outside bottom top ->
  bsearch_loop d fuel msgid bottom top = Ret (index_of S msgid).
Proof using HR Hinc Hall Hm.
  revert bottom top. induction fuel as [|fuel IH]; intros bottom top Hb Ht Hf Ho; cbn [bsearch_loop].
  - lia.
  - destruct (Z.ltb_spec bottom top) as [Hlt|Hge]; cycle 1.
    { rewrite index_of_None; [done|]. intros [i Hi]%list_elem_of_lookup.
      destruct (Ho i msgid Hi) as [H1 H2]. rewrite strcmp_refl in H1, H2. lia. }
    set (act := (bottom + top) / 2).
    assert (Hact : bottom <= act < top) by (unfold act; split; [apply Z.div_le_lower_bound|apply Z.div_lt_upper_bound]; lia).
    destruct (lookup_lt_is_Some_2 S (Z.to_nat act)) as [s Hs]; [lia|].
    assert (Ea : Z.of_nat (Z.to_nat act) = act) by lia.
    destruct (rep_static _ _ HR _ s Hs) as [E _]; [lia|]. rewrite Ea in E. rewrite E.
    cbn [mbind load_bind]. cbv zeta. assert (Hws : wf_cstr s).
    { pose proof (rep_wf _ _ HR) as Hw. by apply (Forall_lookup_1 _ _ _ _ Hw) in Hs. }
    assert (Hle : forall i t, S !! i = Some t -> Z.of_nat i = act -> t = s).
    { intros i t Hi Heq. replace i with (Z.to_nat act) in Hi by lia. congruence. }
    assert (Hwf : forall i t, S !! i = Some t -> wf_cstr t).
    { intros i t Hi. pose proof (rep_wf _ _ HR) as Hw. by apply (Forall_lookup_1 _ _ _ _ Hw) in Hi. }
    destruct (Z.ltb_spec (strcmp msgid s) 0) as [Hc|Hc]; [|destruct (Z.ltb_spec 0 (strcmp msgid s)) as [Hc'|Hc']].
    + apply IH; [lia..|]. intros i t Hi. split; [apply (Ho i t Hi)|]. intros Hge.
      destruct (Z.eq_dec (Z.of_nat i) act) as [Heq|Hne]; [by rewrite (Hle i t Hi Heq)|].
      apply (strcmp_trans _ s); eauto. apply (increasing_lookup S (Z.to_nat act) i); auto. lia.
    + apply IH; [lia..|]. intros i t Hi. split; [|apply (Ho i t Hi)]. intros Hlt'.
      assert (Hc2 : strcmp s msgid < 0) by (rewrite strcmp_sym; lia).
      destruct (Z.eq_dec (Z.of_nat i) act) as [Heq|Hne]; [by rewrite (Hle i t Hi Heq)|].
      apply (strcmp_trans _ s); eauto. apply (increasing_lookup S i (Z.to_nat act)); auto. lia.
    + assert (msgid = s) as -> by (apply strcmp_eq; auto; lia).
      rewrite (index_of_Some S s (Z.to_nat act)), Ea; [done|apply HR|done].
Qed.
End Bsearch.

(** ** Double hashing *)

(** The [k]-th slot probed for hash value [h]. *)
Definition slot (size h : Z) (k : nat) : Z := (h mod size + Z.of_nat k * probe_incr size h) mod size.

Lemma probe_incr_range size h : 2 < size -> 0 < probe_incr size h < size.
Proof. intros H. unfold probe_incr. pose proof (Z.mod_pos_bound h (size - 2)). lia. Qed.

Lemma slot_range size h k : 2 < size -> 0 <= slot size h k < size.
Proof. intros H. apply Z.mod_pos_bound. lia. Qed.

Lemma slot_0 size h : 2 < size -> slot size h 0 = h mod size.
Proof.
  intros H. unfold slot. rewrite Z.mul_0_l, Z.add_0_r. apply Z.mod_small, Z.mod_pos_bound. lia.
Qed.

Lemma slot_S size h k :
  2 < size -> slot size h (S k) = probe_next size (probe_incr size h) (slot size h k).
Proof.
  intros H. pose proof (probe_incr_range size h H). pose proof (slot_range size h k H) as Hr.
  unfold slot at 1. rewrite Nat2Z.inj_succ, Z.mul_succ_l, Z.add_assoc, <- Zplus_mod_idemp_l.
  fold (slot size h k). unfold probe_next. case_if.
  - symmetry. apply (Z.mod_unique _ _ 1); lia.
  - apply Z.mod_small. lia.
Qed.

(** With a table of prime size every slot is reached. *)
Lemma slot_reaches size h j : Z.prime size -> 2 < size -> 0 <= j < size -> exists k, (k < Z.to_nat size)%nat /\ slot size h k = j.
Proof.
  intros Hp Hs Hj. set (incr := probe_incr size h).
  pose proof (probe_incr_range size h Hs) as Hi. fold incr in Hi.
  destruct (Z.Bezout_coprime _ _ (Z.coprime_prime_small size incr Hp ltac:(lia))) as (v & u & Huv).
  set (a := h mod size). exists (Z.to_nat (((j - a) * u) mod size)).
  pose proof (Z.mod_pos_bound ((j - a) * u) size ltac:(lia)). split; [lia|].
  unfold slot. fold a incr. rewrite Z2Nat.id by lia.
  rewrite <- Zplus_mod_idemp_r, Zmult_mod_idemp_l, Zplus_mod_idemp_r.
  assert (E : u * incr = 1 - v * size) by lia.
  replace (a + (j - a) * u * incr) with (a + (j - a) * (u * incr)) by ring. rewrite E.
  replace (a + (j - a) * (1 - v * size)) with (j + (v * (a - j)) * size) by ring.
  rewrite Z.mod_add by lia. by apply Z.mod_small.
Qed.

(** A table [ws] for the strings [S]: each string is found along its own probe
    sequence before an empty slot, and there is an empty slot. *)
Definition placed (ws : list Z) (h v : Z) (k : nat) : Prop :=
  (k < length ws)%nat /\
  ws !! Z.to_nat (slot (Z.of_nat (length ws)) h k) = Some v /\
  forall k' w, (k' < k)%nat -> ws !! Z.to_nat (slot (Z.of_nat (length ws)) h k') = Some w -> w <> 0.

Record hash_ok (S : list cstr) (ws : list Z) : Prop := HashOk {
  hok_prime : Z.prime (Z.of_nat (length ws));
  hok_size : 2 < Z.of_nat (length ws);
  hok_entries : forall k w, ws !! k = Some w -> 0 <= w <= Z.of_nat (length S);
  hok_placed : forall i s, S !! i = Some s -> exists k, placed ws (hash s) (Z.of_nat i + 1) k;
  hok_empty : exists j, ws !! j = Some 0
}.

(** The table of a domain holds the words [ws]. *)
Definition table_is (d : loaded_domain) (t : hash_table) (ws : list Z) : Prop :=
  hash_size d = Z.of_nat (length ws) /\
  forall k w, ws !! k = Some w -> hash_entry d t (Z.of_nat k) = Ret w.

Section Probe.
Context (d : loaded_domain) (S : list cstr) (HR : represents d S).
Context (t : hash_table) (ws : list Z) (HT : table_is d t ws) (HH : hash_ok S ws).
Context (msgid : cstr) (Hm : wf_cstr msgid).
Abbreviation size := (Z.of_nat (length ws)).

Lemma slot_entry k : exists w, ws !! Z.to_nat (slot size (hash msgid) k) = Some w /\
  hash_entry d t (slot size (hash msgid) k) = Ret w.
Proof using HT HH.
  pose proof (slot_range size (hash msgid) k (hok_size _ _ HH)) as Hr.
  destruct (lookup_lt_is_Some_2 ws (Z.to_nat (slot size (hash msgid) k))) as [w Hw]; [lia|].
  exists w. split; [done|]. destruct HT as [_ He]. apply He in Hw. by rewrite Z2Nat.id in Hw by lia.
Qed.

(** From step [j] the loop comes to the right end, if a decisive slot follows
    within the fuel. *)
Lemma probe_loop_spec fuel j k :
  (j <= k)%nat -> (k - j < fuel)%nat ->
  (ws !! Z.to_nat (slot size (hash msgid) k) = Some 0 /\ msgid ∉ S \/
   exists i, S !! i = Some msgid /\ placed ws (hash msgid) (Z.of_nat i + 1) k) ->
  probe_loop d fuel t msgid (probe_incr size (hash msgid)) (slot size (hash msgid) j)
  = Ret (index_of S msgid).
Proof using HR HT HH Hm.
  revert j. induction fuel as [|fuel IH]; intros j Hjk Hf Hend; [lia|]. cbn [probe_loop].
  destruct (slot_entry j) as (w & Hw & ->). cbn [mbind load_bind].
  destruct (Z.eqb_spec w 0) as [->|Hw0].
  - rewrite index_of_None; [done|]. intros Hin. destruct Hend as [[_ Hni]|(i & Hi & Hk & Hv & Hbefore)]; [done|].
    destruct (decide (j = k)) as [->|]; [rewrite Hw in Hv; injection Hv as Hv; lia|].
    by apply (Hbefore j 0) in Hw; [|lia].
  - pose proof (hok_entries _ _ HH _ _ Hw) as Hr.
    destruct (lookup_lt_is_Some_2 S (Z.to_nat (w - 1))) as [s Hs]; [lia|].
    pose proof (is_string_spec d S msgid _ s HR Hm Hs) as E. rewrite Z2Nat.id in E by lia. rewrite E.
    cbn [mbind load_bind]. case_bool_decide as Hms.
    + subst s. rewrite (index_of_Some S msgid (Z.to_nat (w - 1))); [|apply HR|done]. do 2 f_equal. lia.
    + destruct (decide (j = k)) as [->|];
        [|rewrite (proj1 HT), <- slot_S by apply HH; apply IH; [lia..|done]]. exfalso.
      destruct Hend as [[H0 _]|(i & Hi & Hk & Hv & _)]; [congruence|].
      rewrite Hw in Hv. injection Hv as ->. apply Hms.
      replace (Z.to_nat (Z.of_nat i + 1 - 1)) with i in Hs by lia. congruence.
Qed.

Lemma hash_lookup :
  probe_loop d (Datatypes.S (Z.to_nat (hash_size d))) t msgid
    (probe_incr (hash_size d) (hash msgid)) (hash msgid mod hash_size d) = Ret (index_of S msgid).
Proof using HR HT HH Hm.
  rewrite (proj1 HT). rewrite <- (slot_0 size) by apply HH.
  destruct (decide (msgid ∈ S)) as [Hin|Hni].
  - apply list_elem_of_lookup in Hin as [i Hi]. destruct (hok_placed _ _ HH i msgid Hi) as [k Hk].
    apply (probe_loop_spec _ 0 k); [lia|destruct Hk; lia|]. right. by exists i.
  - destruct (hok_empty _ _ HH) as [j Hj]. pose proof (lookup_lt_Some _ _ _ Hj).
    destruct (slot_reaches size (hash msgid) (Z.of_nat j)) as (k & Hk & Ek); [apply HH|apply HH|lia|].
    apply (probe_loop_spec _ 0 k); [lia..|]. left. by rewrite Ek, Nat2Z.id.
Qed.
End Probe.

(** ** Extending the table *)

Definition zeros (ws : list Z) : nat := length (filter (fun w => w = 0) ws).

Lemma zeros_insert ws i v : ws !! i = Some 0 -> v <> 0 -> S (zeros (<[i:=v]> ws)) = zeros ws.
Proof.
  intros Hi Hv. revert i Hi. unfold zeros. induction ws as [|w ws IH]; intros i Hi; [done|].
  destruct i as [|i]; simpl in Hi |- *.
  - injection Hi as ->. rewrite filter_cons_False by done. by rewrite filter_cons_True.
  - rewrite !filter_cons. destruct (decide (w = 0)); simpl; by rewrite IH.
Qed.

Lemma zeros_pos ws : (0 < zeros ws)%nat <-> exists j, ws !! j = Some 0.
Proof.
  unfold zeros. split.
  - intros H. destruct (filter (fun w => w = 0) ws) as [|w l] eqn:E; simpl in H; [lia|].
    assert (Hin : w ∈ filter (fun w => w = 0) ws) by (rewrite E; apply list_elem_of_here).
    apply list_elem_of_filter in Hin as [-> Hin]. by apply list_elem_of_lookup in Hin.
  - intros [j Hj]. assert (Hin : 0 ∈ filter (fun w => w = 0) ws)
      by (apply list_elem_of_filter; split; [done|by eapply list_elem_of_lookup_2]).
    destruct (filter _ ws); [by apply not_elem_of_nil in Hin|simpl; lia].
Qed.

Section Insert.
Context (ws : list Z) (h v : Z) (Hsize : 2 < Z.of_nat (length ws)).
Abbreviation size := (Z.of_nat (length ws)).

(** The value goes to the first empty slot of the probe sequence. *)
Lemma hash_insert_loop fuel j k :
  (j <= k)%nat -> (k - j < fuel)%nat -> ws !! Z.to_nat (slot size h k) = Some 0 ->
  (forall k', (k' < j)%nat -> ws !! Z.to_nat (slot size h k') <> Some 0) ->
  exists k1, (k1 <= k)%nat /\ ws !! Z.to_nat (slot size h k1) = Some 0 /\
    (forall k', (k' < k1)%nat -> ws !! Z.to_nat (slot size h k') <> Some 0) /\
    hash_insert fuel ws (probe_incr size h) (slot size h j) v =
      Ret (<[Z.to_nat (slot size h k1) := v]> ws).
Proof using Hsize.
  revert j. induction fuel as [|fuel IH]; intros j Hjk Hf H0 Hbefore; [lia|]. cbn [hash_insert].
  pose proof (slot_range size h j Hsize) as Hr.
  destruct (lookup_lt_is_Some_2 ws (Z.to_nat (slot size h j))) as [w Hw]; [lia|]. rewrite Hw.
  destruct (Z.eqb_spec w 0) as [->|Hw0].
  - exists j. split_and!; auto.
  - rewrite <- slot_S by done. assert (j <> k) by congruence.
    apply IH; [lia..|done|]. intros k' Hk'. destruct (decide (k' = j)) as [->|]; [congruence|].
    apply Hbefore. lia.
Qed.
End Insert.

Lemma placed_insert ws h h' v v' k k1 :
  2 < Z.of_nat (length ws) -> v' <> 0 -> v <> 0 ->
  ws !! Z.to_nat (slot (Z.of_nat (length ws)) h' k1) = Some 0 ->
  placed ws h v k -> placed (<[Z.to_nat (slot (Z.of_nat (length ws)) h' k1) := v']> ws) h v k.
Proof.
  intros Hsize Hv' Hv H0 (Hk & Hp & Hb). unfold placed. rewrite length_insert.
  set (j := Z.to_nat (slot _ h' k1)) in *. split_and!; [done| |].
  - rewrite list_lookup_insert_ne; [done|]. intros E. rewrite <- E in Hp. congruence.
  - intros k' w Hk'. destruct (decide (j = Z.to_nat (slot (Z.of_nat (length ws)) h k'))) as [E|E].
    + rewrite <- E, list_lookup_insert_eq by (by eapply lookup_lt_Some). congruence.
    + rewrite list_lookup_insert_ne by done. by apply Hb.
Qed.

Lemma hash_insert_ok S ws s :
  hash_ok S ws -> (2 <= zeros ws)%nat ->
  exists ws', hash_insert (Datatypes.S (length ws)) ws (probe_incr (Z.of_nat (length ws)) (hash s))
      (hash s mod Z.of_nat (length ws)) (Z.of_nat (length S) + 1) = Ret ws' /\
    hash_ok (S ++ [s]) ws' /\ length ws' = length ws /\ Datatypes.S (zeros ws') = zeros ws.
Proof.
  intros [Hp Hs He Hpl [j Hj]] Hz. rewrite <- (slot_0 _ (hash s)) by done.
  pose proof (lookup_lt_Some _ _ _ Hj).
  destruct (slot_reaches (Z.of_nat (length ws)) (hash s) (Z.of_nat j)) as (k & Hk & Ek); [done|done|lia|].
  destruct (hash_insert_loop ws (hash s) (Z.of_nat (length S) + 1) Hs (Datatypes.S (length ws)) 0 k)
    as (k1 & Hk1 & H0 & Hb & ->); [lia..|by rewrite Ek, Nat2Z.id|lia|].
  set (i := Z.to_nat (slot _ (hash s) k1)) in *. set (v := Z.of_nat (length S) + 1).
  pose proof (zeros_insert ws i v H0 ltac:(lia)) as Hz'.
  eexists. split; [reflexivity|]. split_and!; [|by rewrite length_insert|done].
  split; rewrite ?length_insert; auto.
  - intros m w. rewrite length_app. simpl. destruct (decide (i = m)) as [->|].
    + rewrite list_lookup_insert_eq by (by eapply lookup_lt_Some). intros [= <-]. unfold v. lia.
    + rewrite list_lookup_insert_ne by done. intros Hm%He. lia.
  - intros m t Hm. destruct (decide (m < length S)%nat) as [Hlt|Hge].
    + rewrite lookup_app_l in Hm by done. destruct (Hpl m t Hm) as [k2 Hk2]. exists k2.
      apply placed_insert; [done|lia|lia|done..].
    + rewrite lookup_app_r in Hm by lia. destruct (m - length S)%nat eqn:Em; [|done].
      injection Hm as <-. exists k1. unfold placed. rewrite length_insert. fold i. split_and!; [lia| |].
      * rewrite list_lookup_insert_eq by (by eapply lookup_lt_Some). f_equal. unfold v. lia.
      * intros k' w Hk' Hw. destruct (decide (i = Z.to_nat (slot (Z.of_nat (length ws)) (hash s) k'))) as [E|E].
        -- rewrite <- E, list_lookup_insert_eq in Hw by (by eapply lookup_lt_Some). injection Hw as <-. lia.
        -- rewrite list_lookup_insert_ne in Hw by done. intros ->. by apply (Hb k').
  - apply zeros_pos. lia.
Qed.

Lemma augment_ok dat m S ss descs ws nstr i :
  hash_ok S ws -> Forall2 (fun e s => deref dat m (sd_pointer e) = Ret s) descs ss ->
  (length ss < zeros ws)%nat -> nstr + i = Z.of_nat (length S) -> 0 <= nstr + i ->
  Z.of_nat (length (S ++ ss)) < 2 ^ 32 ->
  exists ws', augment dat m nstr i descs ws = Ret ws' /\ hash_ok (S ++ ss) ws' /\ length ws' = length ws.
Proof.
  intros HH HF. revert S ws i HH. induction HF as [|e s descs ss He _ IH]; intros S ws i HH Hz Hi Hp Hlen; cbn [augment].
  - exists ws. rewrite app_nil_r. done.
  - rewrite He. cbn [mbind load_bind]. cbv zeta. simpl length in Hz.
    rewrite length_app in Hlen. simpl length in Hlen. rewrite wrapw_small by lia.
    replace (1 + nstr + i) with (Z.of_nat (length S) + 1) by lia.
    destruct (hash_insert_ok S ws s HH ltac:(lia)) as (ws1 & -> & HH1 & Hl1 & Hz1). cbn [mbind load_bind].
    destruct (IH (S ++ [s]) ws1 (i + 1) HH1) as (ws2 & E & HH2 & Hl2).
    + lia.
    + rewrite length_app. simpl. lia.
    + lia.
    + rewrite !length_app. simpl. lia.
    + rewrite <- app_assoc in HH2. exists ws2. split_and!; [done|done|lia].
Qed.

(** ** Theorems *)

(** The translations of the messages. *)
Definition translates (d : loaded_domain) (T : list cstr) : Prop :=
  forall i t, T !! i = Some t -> exists p len, translation d (Z.of_nat i) = Ret (p, len) /\
    deref (data d) (mem d) p = Ret t.

(** The search method of the domain can be used: the hash table is right, or
    the strings are sorted and there are no others. *)
Definition searchable (d : loaded_domain) (S : list cstr) : Prop :=
  match hash_tab d with
  | Some t => exists ws, table_is d t ws /\ hash_ok S ws
  | None => increasing S /\ nstrings d = Z.of_nat (length S)
  end.

Lemma find_act_spec d S msgid :
  represents d S -> searchable d S -> wf_cstr msgid -> find_act d msgid = Ret (index_of S msgid).
Proof.
  intros HR HS Hm. unfold find_act, searchable in *. destruct (hash_tab d) as [t|].
  - destruct HS as (ws & HT & HH). by apply (hash_lookup d S HR t ws).
  - destruct HS as [Hinc Hall]. apply (bsearch_loop_spec d S HR Hinc Hall msgid Hm); rewrite ?Hall; [lia..|].
    intros i s Hi. pose proof (lookup_lt_Some _ _ _ Hi). lia.
Qed.

(** C17. The lookup in a loaded catalog whose strings can be read ([represents]) and searched ([searchable]: it
    has a right hash table, of prime size and with an empty slot, or sorted
    strings) is the lookup in a finite map, with the system dependent strings included: it ends, finds
    the translation of every message id of the catalog, and nothing for another.  The loader does not check these conditions: in a catalog with
    a full hash table the search for another message never ends ([full_table_loops]). *)
Theorem find_msg_correct (d : loaded_domain) (S T : list cstr) (msgid : cstr)
    (HR : represents d S) (HS : searchable d S) (HT : translates d T)
    (Hlen : length T = length S) (Hm : wf_cstr msgid) :
  match index_of S msgid with
  | None => (msgid ∉ S) /\ find_msg d msgid = Ret None
  | Some i => exists p len t, S !! Z.to_nat i = Some msgid /\ T !! Z.to_nat i = Some t /\
      find_msg d msgid = Ret (Some (p, len)) /\ deref (data d) (mem d) p = Ret t
  end.
Proof.
  unfold find_msg. rewrite (find_act_spec d S msgid HR HS Hm). cbn [mbind load_bind].
  destruct (decide (msgid ∈ S)) as [Hin|Hni]; [|by rewrite index_of_None].
  apply list_elem_of_lookup in Hin as [i Hi]. rewrite (index_of_Some S msgid i (rep_nodup _ _ HR) Hi).
  destruct (lookup_lt_is_Some_2 T i) as [t Ht]; [rewrite Hlen; by eapply lookup_lt_Some|].
  destruct (HT i t Ht) as (p & len & Et & Ed). rewrite Nat2Z.id, Et. exists p, len, t. done.
Qed.

(** The two search methods agree: a catalog with a hash table and one
    without it that hold the same messages give the same index for every
    message id. *)
Theorem search_methods_agree (d d' : loaded_domain) (S : list cstr) (msgid : cstr)
    (HR : represents d S) (HR' : represents d' S) (HS : searchable d S) (HS' : searchable d' S)
    (Hm : wf_cstr msgid) :
  find_act d msgid = find_act d' msgid.
Proof. by rewrite (find_act_spec d S), (find_act_spec d' S). Qed.

(** C19. Adding the system dependent strings to a right hash table ([hash_ok]) with more empty
    slots than strings to add: every insertion ends, and the new table is correct
    for the old and the new strings together.  The loader does not check that there are so many slots: an insertion into a full table never
    ends ([insert_full_loops]). *)
Theorem augment_correct (dat m : list Z) (S ss : list cstr) (descs : list sysdep_string_desc) (ws : list Z)
    (HH : hash_ok S ws) (HF : Forall2 (fun e s => deref dat m (sd_pointer e) = Ret s) descs ss)
    (Hz : (length ss < zeros ws)%nat) (Hlen : Z.of_nat (length (S ++ ss)) < 2 ^ 32) :
  exists ws', augment dat m (Z.of_nat (length S)) 0 descs ws = Ret ws' /\
    hash_ok (S ++ ss) ws' /\ length ws' = length ws.
Proof. apply augment_ok; auto; lia. Qed.

(** A small catalog, with and without a hash table of size 5. *)
Definition sample_ids : list cstr := [[]; cs "hello"].
Definition sample_strs : list cstr := [cs "nplurals=2; plural=n>1;"; cs "bonjour"].
Definition sample_mo (hsize : Z) : list Z :=
  concat (map le32 ([_MAGIC; 0; 2; 48; 64; hsize; 80; 0; 0; 0; 0; 0]
    ++ [0; 100; 5; 101] ++ [23; 107; 7; 131] ++ [1; 0; 2; 0; 0]))
  ++ [0] ++ cs "hello" ++ [0] ++ cs "nplurals=2; plural=n>1;" ++ [0] ++ cs "bonjour" ++ [0].
Definition sample_domain (hsize : Z) : loaded_domain :=
  LoadedDomain (sample_mo hsize) false 2 48 64 0 [] [] [] hsize
    (if 2 <? hsize then Some (FileHash 80) else None) false.

Lemma sample_loads (hsize : Z) :
  hsize = 5 \/ hsize = 0 ->
  @load_catalog (pri_fallback 8 8 8) true (fun _ => true) (sample_mo hsize) = Ret (sample_domain hsize).
Proof. intros [->| ->]; vm_compute; reflexivity. Qed.

Lemma sample_represents hsize : hsize = 5 \/ hsize = 0 -> represents (sample_domain hsize) sample_ids.
Proof.
  intros Hh. split.
  - repeat (apply Forall_cons_2; [apply (bool_decide_unpack _); vm_compute; reflexivity|]). by apply Forall_nil_2.
  - apply (bool_decide_unpack _). vm_compute. reflexivity.
  - destruct Hh as [->| ->]; simpl; lia.
  - intros [|[|i]] s Hi Hlt; simpl in *; try done; injection Hi as <-;
      destruct Hh as [->| ->]; (split; [vm_compute; reflexivity|]);
      (eexists; split; [vm_compute; reflexivity|]); simpl; lia.
  - intros i s Hi Hge. apply lookup_lt_Some in Hi. simpl in *. lia.
Qed.

Lemma prime_5 : Z.prime 5.
Proof. split; [lia|]. intros n Hn [q Hq]. assert (n = 2 \/ n = 3 \/ n = 4) as [->|[->| ->]] by lia; lia. Qed.

Lemma sample_hash_ok : hash_ok sample_ids [1; 0; 2; 0; 0].
Proof.
  split.
  - exact prime_5.
  - simpl. lia.
  - intros [|[|[|[|[|k]]]]] w; simpl; intros [= <-]; lia.
  - intros [|[|i]] s Hi; simpl in Hi; try done; injection Hi as <-; exists 0%nat;
      (split_and!; [simpl; lia|vm_compute; reflexivity|lia]).
  - by exists 1%nat.
Qed.

Lemma sample_searchable hsize : hsize = 5 \/ hsize = 0 -> searchable (sample_domain hsize) sample_ids.
Proof.
  intros [->| ->].
  - exists [1; 0; 2; 0; 0]. split; [|exact sample_hash_ok]. split; [done|].
    intros [|[|[|[|[|k]]]]] w; simpl; intros [= <-]; vm_compute; reflexivity.
  - split; [|done]. repeat constructor.
Qed.

Lemma sample_translates hsize : hsize = 5 \/ hsize = 0 -> translates (sample_domain hsize) sample_strs.
Proof.
  intros Hh [|[|i]] t Ht; simpl in Ht; try done; injection Ht as <-;
    destruct Hh as [->| ->]; eexists _, _; split; vm_compute; reflexivity.
Qed.

Lemma find_msg_correct_witness :
  exists p len, find_msg (sample_domain 5) (cs "hello") = Ret (Some (p, len)) /\
    deref (data (sample_domain 5)) (mem (sample_domain 5)) p = Ret (cs "bonjour").
Proof.
  assert (Hm : wf_cstr (cs "hello")) by (apply (bool_decide_unpack _); vm_compute; reflexivity).
  destruct (find_msg_correct (sample_domain 5) sample_ids sample_strs (cs "hello")
    (sample_represents 5 (or_introl eq_refl)) (sample_searchable 5 (or_introl eq_refl))
    (sample_translates 5 (or_introl eq_refl)) eq_refl Hm) as (p & len & t & _ & Ht & E & Ed).
  exists p, len. split; [exact E|]. rewrite Ed. f_equal. injection Ht as <-. reflexivity.
Defined.

Lemma search_methods_agree_witness :
  find_act (sample_domain 5) (cs "hello") = find_act (sample_domain 0) (cs "hello").
Proof.
  apply (search_methods_agree _ _ sample_ids).
  - exact (sample_represents 5 (or_introl eq_refl)).
  - exact (sample_represents 0 (or_intror eq_refl)).
  - exact (sample_searchable 5 (or_introl eq_refl)).
  - exact (sample_searchable 0 (or_intror eq_refl)).
  - apply (bool_decide_unpack _). vm_compute. reflexivity.
Defined.

Lemma augment_correct_witness :
  exists ws', augment [] (cs "%lu" ++ [0]) 2 0 [SysdepStringDesc 4 (InMem 0)] [1; 0; 2; 0; 0] = Ret ws' /\
    hash_ok (sample_ids ++ [cs "%lu"]) ws'.
Proof.
  destruct (augment_correct [] (cs "%lu" ++ [0]) sample_ids [cs "%lu"] [SysdepStringDesc 4 (InMem 0)]
    [1; 0; 2; 0; 0]) as (ws' & E & Hok & _).
  - exact sample_hash_ok.
  - constructor; [vm_compute; reflexivity|constructor].
  - vm_compute. lia.
  - simpl. lia.
  - exists ws'. split; [exact E|exact Hok].
Defined.

(** ** Full tables *)

(** No number of steps is enough to insert into a full table. *)
Lemma insert_full_loops fuel tab incr idx v : Forall (fun w => w <> 0) tab -> hash_insert fuel tab incr idx v = Undef.
Proof.
  intros Hfull. revert idx. induction fuel as [|fuel IH]; intros idx; [done|]. cbn [hash_insert].
  destruct (tab !! Z.to_nat idx) as [w|] eqn:E; [|done]. apply (Forall_lookup_1 _ _ _ _ Hfull) in E.
  by rewrite (proj2 (Z.eqb_neq _ _) E).
Qed.

(** A file with a hash table without an empty slot. *)
Definition full_mo : list Z :=
  concat (map le32 ([_MAGIC; 0; 2; 48; 64; 3; 80; 0; 0; 0; 0; 0]
    ++ [0; 92; 5; 93] ++ [23; 99; 7; 123] ++ [1; 2; 1]))
  ++ [0] ++ cs "hello" ++ [0] ++ cs "nplurals=2; plural=n>1;" ++ [0] ++ cs "bonjour" ++ [0].
Definition full_domain : loaded_domain := LoadedDomain full_mo false 2 48 64 0 [] [] [] 3 (Some (FileHash 80)) false.

(** It is accepted, and no number of steps is enough to look up a message that it does not have. *)
Lemma full_table_loops :
  @load_catalog (pri_fallback 8 8 8) true (fun _ => true) full_mo = Ret full_domain /\
  forall fuel idx, 0 <= idx < 3 ->
    probe_loop full_domain fuel (FileHash 80) (cs "bye") (probe_incr 3 (hash (cs "bye"))) idx = Undef.
Proof.
  split; [by vm_compute|]. change (probe_incr 3 (hash (cs "bye"))) with 1.
  intros fuel. induction fuel as [|fuel IH]; intros idx Hidx; [done|]. cbn [probe_loop]. change (hash_size full_domain) with 3.
  assert (Hs : forall i, i = 0 \/ i = 1 -> is_string full_domain (cs "bye") i = Ret false) by (intros i [->| ->]; by vm_compute).
  assert (E : exists w, (w = 1 \/ w = 2) /\ hash_entry full_domain (FileHash 80) idx = Ret w).
  { assert (idx = 0 \/ idx = 1 \/ idx = 2) as [->|[->| ->]] by lia; [exists 1|exists 2|exists 1]; (split; [by auto|by vm_compute]). }
  destruct E as (w & Hw & ->). cbn [mbind load_bind]. rewrite (proj2 (Z.eqb_neq _ _)) by lia. rewrite Hs by lia.
  cbn [mbind load_bind]. apply IH. unfold probe_next. case_if; breflect; lia.
Qed.
