(* ===== verification/CatalogLoad.v ===== *)
(** * Loading a domain, and plural forms

    What holds of every file that is accepted as a catalog, the states of a
    domain file, and the choice of a plural form. *)

From S2P Require Import Prelude HashString PluralExp PluralParse PluralExtract Catalog CatalogSpec CatalogFind.

Open Scope Z_scope.

(** ** Accepted files *)

(** The header words of a catalog and the domain made from it. *)
Record accepted (dat : list Z) (d : loaded_domain) : Prop := Accepted {
  acc_size : sizeof_mo_file_header <= Z.of_nat (length dat);
  acc_data : data d = dat;
  acc_magic : word_at dat 0 = Ret (if must_swap d then _MAGIC_SWAPPED else _MAGIC);
  acc_revision : exists rev, wd dat (must_swap d) 4 = Ret rev /\ rev < 2 ^ 17 /\
    (Z.land rev 0xffff <> 0 -> hash_tab d <> None);
  acc_nstrings : wd dat (must_swap d) 8 = Ret (nstrings d);
  acc_orig : wd dat (must_swap d) 12 = Ret (orig_tab d);
  acc_trans : wd dat (must_swap d) 16 = Ret (trans_tab d);
  acc_hsize : wd dat (must_swap d) 20 = Ret (hash_size d);
  acc_hash : hash_tab d = None <-> hash_size d <= 2;
  acc_sysdep : Z.of_nat (length (orig_sysdep_tab d)) = n_sysdep_strings d /\
    length (trans_sysdep_tab d) = length (orig_sysdep_tab d)
}.

(** Only the system dependent parts and the hash table are replaced. *)
Lemma load_sysdep_spec `{PriMacros} mal d n d' :
  Forall byte (data d) -> orig_sysdep_tab d = [] -> trans_sysdep_tab d = [] -> n_sysdep_strings d = 0 ->
  load_sysdep mal d n = Ret d' ->
  data d' = data d /\ must_swap d' = must_swap d /\ nstrings d' = nstrings d /\
  orig_tab d' = orig_tab d /\ trans_tab d' = trans_tab d /\ hash_size d' = hash_size d /\
  (hash_tab d' = None <-> hash_tab d = None) /\
  Z.of_nat (length (orig_sysdep_tab d')) = n_sysdep_strings d' /\
  length (trans_sysdep_tab d') = length (orig_sysdep_tab d').
Proof.
  intros Hd Ho Ht Hn Hl. unfold load_sysdep in Hl. cbv zeta in Hl.
  apply lbind_ret in Hl as (nseg & _ & Hl). apply lbind_ret in Hl as (segs & _ & Hl).
  apply lbind_ret in Hl as (vs & _ & Hl). apply lbind_ret in Hl as (o & _ & Hl).
  apply lbind_ret in Hl as (t & _ & Hl). apply lbind_ret in Hl as ([k need] & Ec & Hl).
  destruct (0 <? k); cycle 1.
  { injection Hl as <-. rewrite Ho, Ht, Hn. split_and!; done. }
  destruct (negb (mal _)); [done|]. apply lbind_ret in Hl as ([[os ts] m] & Ef & Hl).
  destruct (passes_agree _ _ Hd _ _ _ _ _ _ _ _ _ _ _ _ _ _ _ Ec Ef) as (L1 & L2 & _). simpl length in *.
  destruct (Z.eqb_spec (Z.of_nat (length os)) k); [|done]. cbn [negb] in Hl.
  apply lbind_ret in Hl as (ws & Ew & Hl). apply lbind_ret in Hl as (tab & _ & Hl). injection Hl as <-.
  simpl. split_and!; try done; [|lia]. split; [done|]. intros E. by rewrite E in Ew.
Qed.

Lemma load_catalog_accepted `{PriMacros} mal_domain mal dat d :
  Forall byte dat -> load_catalog mal_domain mal dat = Ret d -> accepted dat d.
Proof.
  intros Hd Hl. unfold load_catalog in Hl. case_if_in Hl; [done|].
  apply lbind_ret in Hl as (magic & E0 & Hl).
  destruct (negb (magic =? _MAGIC) && negb (magic =? _MAGIC_SWAPPED)) eqn:Em; [done|].
  destruct (negb mal_domain); [done|]. cbv zeta in Hl.
  assert (Hmagic : magic = if negb (magic =? _MAGIC) then _MAGIC_SWAPPED else _MAGIC).
  { apply andb_false_iff in Em as [Em|Em]; breflect; subst; reflexivity. }
  set (swap := negb (magic =? _MAGIC)) in *.
  apply lbind_ret in Hl as (rev & E1 & Hl). pose proof (wd_range _ _ _ _ Hd E1) as Hrev.
  set (revision := if rev <? 2 ^ 31 then rev else rev - 2 ^ 32) in *.
  destruct (negb _) eqn:Emaj in Hl; [done|].
  assert (Hr : revision = rev /\ rev < 2 ^ 17).
  { apply negb_false_iff, orb_true_iff in Emaj. rewrite !Z.eqb_eq, Z.shiftr_div_pow2 in Emaj by lia.
    pose proof (Z.div_mod revision (2 ^ 16) ltac:(lia)).
    pose proof (Z.mod_pos_bound revision (2 ^ 16) ltac:(lia)). unfold revision in *. case_if; lia. }
  destruct Hr as [-> Hlt].
  apply lbind_ret in Hl as (n & E2 & Hl). apply lbind_ret in Hl as (o & E3 & Hl).
  apply lbind_ret in Hl as (t & E4 & Hl). apply lbind_ret in Hl as (hs & E5 & Hl).
  apply lbind_ret in Hl as (ho & E6 & Hl).
  set (htab := if 2 <? hs then Some (FileHash ho) else None) in *.
  set (d0 := LoadedDomain _ _ _ _ _ _ _ _ _ _ _ _) in *.
  assert (Hh : htab = None <-> hs <= 2) by (unfold htab; case_if; split; try done; lia).
  rewrite Hmagic in E0.
  assert (H0 : (Z.land rev 0xffff <> 0 -> htab <> None) -> accepted dat d0).
  { intros Hne. split; try done. exists rev. done. }
  case_if_in Hl.
  - injection Hl as <-. apply H0. done.
  - destruct htab eqn:Eh; [|done]. apply lbind_ret in Hl as (ns & _ & Hl).
    specialize (H0 ltac:(done)). case_if_in Hl; [|by injection Hl as <-].
    apply load_sysdep_spec in Hl as (D1 & D2 & D3 & D4 & D5 & D6 & D7 & D8 & D9); try done.
    destruct H0 as [A1 A2 A3 (r & A4 & A4' & A4'') A5 A6 A7 A8 A9 A10].
    split; rewrite ?D1, ?D2, ?D3, ?D4, ?D5, ?D6, ?D7; try done.
    exists r. split_and!; try done. intros Hz Hn. by apply A4'', D7.
Qed.

(** C18. Every file that is accepted, whatever its bytes, is at least as long as
    a header, has the magic number in one of the byte orders, a major revision of
    0 or 1, a hash table exactly if its size is above 2 and always for minor
    revisions from 1 on; the domain's fields are the words of the header; and the
    tables of system dependent strings have the same length. *)
Theorem load_catalog_correct {P : PriMacros} (mal_domain : bool) (mal : Z -> bool) (dat : list Z)
    (d : loaded_domain) (Hd : Forall byte dat)
    (H : load_catalog mal_domain mal dat = Ret d) :
  accepted dat d.
Proof. by eapply load_catalog_accepted. Qed.

Lemma load_catalog_correct_witness :
  @load_catalog (pri_fallback 8 8 8) true (fun _ => true) (sample_mo 5) = Ret (sample_domain 5) /\
  accepted (sample_mo 5) (sample_domain 5).
Proof.
  assert (H : @load_catalog (pri_fallback 8 8 8) true (fun _ => true) (sample_mo 5) = Ret (sample_domain 5))
    by (vm_compute; reflexivity).
  split; [exact H|].
  apply (load_catalog_correct (P := pri_fallback 8 8 8) true (fun _ => true)); [|exact H].
  apply (bool_decide_unpack _). vm_compute. reflexivity.
Defined.

(** ** The states of a domain file *)

Section States.
Context {P : PriMacros} (mal_domain : bool) (mal : Z -> bool) (pmal : nat -> bool) (pstack : Z -> bool).
Abbreviation load_domain := (_nl_load_domain mal_domain mal pmal pstack).

Lemma load_domain_decided io df df' :
  load_domain io df = Ret df' ->
  (df_decided df <> 0 /\ df' = df) \/ (df_decided df = 0 /\ df_decided df' = 1).
Proof using Type.
  unfold _nl_load_domain. destruct (Z.eqb_spec (df_decided df) 0) as [E|E]; cbn [negb];
    [|intros [= <-]; by left].
  intros H. right. split; [done|]. destruct (_ ≫= _) as [d| | |]; try done; try by injection H as <-.
  apply lbind_ret in H as (pl & _ & H). by injection H as <-.
Qed.

Lemma load_domain_data io df df' :
  load_domain io df = Ret df' -> df_decided df = 0 ->
  (df_data df' = None \/
   exists dat d pl, fetch_file io = Ret dat /\ load_catalog mal_domain mal dat = Ret d /\
     load_plural pmal pstack d = Ret pl /\ df_data df' = Some (d, pl)).
Proof using Type.
  unfold _nl_load_domain. intros H E0. rewrite E0 in H. cbn [Z.eqb negb] in H.
  destruct (_ ≫= _) as [d| | |] eqn:E; try done; try (injection H as <-; by left).
  apply lbind_ret in E as (dat & Ef & El). apply lbind_ret in H as (pl & Ep & H). injection H as <-.
  right. by exists dat, d, pl.
Qed.
End States.

(** A domain file is loaded at most once: after [_nl_load_domain] it is
    decided, further calls change nothing whatever the file has become, and its
    data, if any, is the catalog read by the one call that loaded it. *)
Theorem load_domain_once {P : PriMacros} (mal_domain : bool) (mal : Z -> bool) (pmal : nat -> bool)
    (pstack : Z -> bool) (io io' : file_io) (df df' : domain_file)
    (H : _nl_load_domain mal_domain mal pmal pstack io df = Ret df') :
  df_decided df' <> 0 /\
  _nl_load_domain mal_domain mal pmal pstack io' df' = Ret df' /\
  (df_decided df <> 0 -> df' = df) /\
  (df_decided df = 0 -> df_data df' = None \/
     exists dat d pl, fetch_file io = Ret dat /\ load_catalog mal_domain mal dat = Ret d /\
       load_plural pmal pstack d = Ret pl /\ df_data df' = Some (d, pl)).
Proof.
  assert (Hd : df_decided df' <> 0).
  { destruct (load_domain_decided _ _ _ _ _ _ _ H) as [[? ->]|[_ ->]]; done. }
  split_and!; [done| | |by apply load_domain_data with (1 := H)].
  - unfold _nl_load_domain. by rewrite (proj2 (Z.eqb_neq _ _) Hd).
  - intros Hne. destruct (load_domain_decided _ _ _ _ _ _ _ H) as [[_ ?]|[? _]]; done.
Qed.

(** The sample file, read in pieces with an interruption. *)
Definition sample_io : file_io :=
  FileIo true (Some 139) None true
    [ReadBytes (take 50 (sample_mo 5)); ReadEintr; ReadBytes (drop 50 (sample_mo 5))].
Definition no_io : file_io := FileIo false None None false [].

Definition sample_file : domain_file :=
  match _nl_load_domain (H := pri_fallback 8 8 8) true (fun _ => true) (fun _ => true) (fun _ => true)
          sample_io (DomainFile 0 None) with
  | Ret df => df
  | _ => DomainFile 0 None
  end.

Lemma load_domain_once_witness :
  df_decided sample_file = 1 /\
  _nl_load_domain (H := pri_fallback 8 8 8) true (fun _ => true) (fun _ => true) (fun _ => true) no_io sample_file
  = Ret sample_file.
Proof.
  split; [vm_compute; reflexivity|].
  refine (proj1 (proj2 (load_domain_once (P := pri_fallback 8 8 8) true (fun _ => true) (fun _ => true)
    (fun _ => true) sample_io no_io (DomainFile 0 None) sample_file _))).
  vm_compute. reflexivity.
Defined.

(** ** Reading in pieces *)

(** However read() divides the file, and however often it is interrupted, the
    bytes arrive in order and complete. *)
Lemma read_loop_spec reads contents got :
  (forall l, ReadBytes l ∈ reads -> l <> []) ->
  Forall (fun r => match r with ReadBytes _ | ReadEintr => True | _ => False end) reads ->
  concat (map (fun r => match r with ReadBytes l => l | _ => [] end) reads) = contents -> contents <> [] ->
  read_loop reads (Z.of_nat (length contents)) got = Ret (got ++ contents).
Proof.
  revert contents got. induction reads as [|r reads IH]; intros contents got Hne Hf Hc Hn; [by simpl in Hc|].
  apply Forall_cons in Hf as [Hr Hf].
  assert (Hne' : forall l, ReadBytes l ∈ reads -> l <> []) by (intros l Hl; apply Hne; by apply list_elem_of_further).
  assert (Hpos : 0 < Z.of_nat (length contents)) by (destruct contents; simpl; [done|lia]).
  destruct r as [l| | |]; try done; cbn [read_loop].
  - assert (Hl : l <> []) by (apply Hne, list_elem_of_here). simpl in Hc.
    destruct (Nat.eqb_spec (length l) 0) as [E|_]; [by destruct l|]. cbv zeta.
    set (rest := concat _) in Hc. subst contents. rewrite length_app, Nat2Z.inj_add, Z.add_simpl_l.
    destruct (decide (rest = [])) as [E|Hrest].
    + rewrite E. simpl. by rewrite app_nil_r.
    + rewrite (proj2 (Z.ltb_lt 0 _)) by (destruct rest; simpl; [done|lia]).
      rewrite (IH rest) by done. by rewrite <- app_assoc.
  - rewrite (proj2 (Z.ltb_lt 0 _)) by done. simpl in Hc. by apply IH.
Qed.

(** ** Plural forms *)

(** The forms of a translation, one after the other. *)
Definition forms (ss : list cstr) : list Z := concat (map (fun s => s ++ [0]) ss).

Lemma forms_cons s ss : forms (s :: ss) = s ++ 0 :: forms ss.
Proof. unfold forms. simpl. by rewrite <- app_assoc. Qed.

Lemma forms_app ss ss' : forms (ss ++ ss') = forms ss ++ forms ss'.
Proof. unfold forms. by rewrite map_app, concat_app. Qed.

Lemma cstring_of_app s rest : wf_cstr s -> cstring_of (s ++ 0 :: rest) = Some s.
Proof.
  intros Hs. induction Hs as [|c s Hc _ IH]; simpl; [done|].
  rewrite (proj2 (Z.eqb_neq c 0)) by lia. by rewrite IH.
Qed.

(** After the strings [pre], with [index] strings still to skip. *)
Lemma skip_strings_spec fuel pre post index :
  Forall wf_cstr (pre ++ post) -> post <> [] -> 0 <= index -> (length (forms post) < fuel)%nat ->
  skip_strings fuel (forms (pre ++ post)) index (length (forms pre)) =
  Ret (if index <? Z.of_nat (length post)
       then length (forms (take (length pre + Z.to_nat index) (pre ++ post))) else 0%nat).
Proof.
  revert pre post index. induction fuel as [|fuel IH]; intros pre post index Hw Hne Hi Hf; [lia|].
  cbn [skip_strings]. destruct post as [|s post]; [done|].
  destruct (Z.ltb_spec 0 index) as [Hpos|Hz]; cycle 1.
  { rewrite (proj2 (Z.ltb_lt _ _)) by (simpl; lia). replace (Z.to_nat index) with 0%nat by lia.
    by rewrite Nat.add_0_r, take_app_length. }
  rewrite forms_app, drop_app_length, forms_cons.
  assert (Hs : wf_cstr s) by (apply Forall_app in Hw as [_ Hw]; by apply Forall_cons in Hw as [? _]).
  rewrite cstring_of_app by done.
  assert (Hp : (length (forms pre) + length s + 1)%nat = length (forms (pre ++ [s]))).
  { rewrite forms_app, forms_cons, !length_app. simpl. lia. }
  rewrite Hp, <- forms_cons, <- forms_app.
  replace (pre ++ s :: post) with ((pre ++ [s]) ++ post) in Hw |- * by (by rewrite <- app_assoc).
  rewrite forms_cons, length_app in Hf. simpl in Hf. destruct post as [|s' post].
  - rewrite app_nil_r, Nat.leb_refl. rewrite (proj2 (Z.ltb_ge _ _)); [done|]. simpl. lia.
  - rewrite (proj2 (Nat.leb_gt _ _)).
    2: { rewrite (forms_app (pre ++ [s])), length_app, (forms_cons s'), (length_app s'). simpl. lia. }
    rewrite IH by (done || lia). f_equal. rewrite length_app. simpl length.
    replace (length pre + 1 + Z.to_nat (index - 1))%nat with (length pre + Z.to_nat index)%nat by lia.
    destruct (Z.ltb_spec (index - 1) (Z.of_nat (S (length post)))),
      (Z.ltb_spec index (Z.of_nat (S (S (length post))))); done || lia.
Qed.

Lemma forms_select ss k s :
  Forall wf_cstr ss -> ss !! k = Some s ->
  (length (forms (take k ss)) < length (forms ss))%nat /\
  cstring_of (drop (length (forms (take k ss))) (forms ss)) = Some s.
Proof.
  intros Hw Hk. rewrite <- (take_drop_middle ss k s Hk) at 2 4.
  rewrite forms_app, forms_cons, drop_app_length, !length_app. split; [simpl; lia|].
  apply cstring_of_app. by apply (Forall_lookup_1 _ _ _ _ Hw) in Hk.
Qed.

(** The string that is selected. *)
Lemma plural_form (e : expression) (nplurals n index : Z) (ss : list cstr) :
  Forall wf_cstr ss -> ss <> [] -> plural_eval 64 e n = Some index -> 0 <= index ->
  let chosen := if (index <? nplurals) && (index <? Z.of_nat (length ss)) then Z.to_nat index else 0%nat in
  exists p, plural_lookup (Some e) nplurals n (forms ss) = Ret p /\
    (p < length (forms ss))%nat /\ cstring_of (drop p (forms ss)) = ss !! chosen.
Proof.
  intros Hw Hne He Hi. cbv zeta. unfold plural_lookup. rewrite He. cbv zeta.
  set (index' := if nplurals <=? index then 0 else index).
  assert (Hi' : 0 <= index') by (unfold index'; case_if; lia).
  pose proof (skip_strings_spec (S (length (forms ss))) [] ss index' Hw Hne Hi' ltac:(lia)) as E.
  simpl app in E. change (length (forms [])) with 0%nat in E. rewrite E. eexists. split; [reflexivity|].
  assert (Hlen : 0 < Z.of_nat (length ss)) by (destruct ss; simpl; [done|lia]).
  assert (Hsel : forall k, Z.of_nat k < Z.of_nat (length ss) ->
    (length (forms (take k ss)) < length (forms ss))%nat /\
    cstring_of (drop (length (forms (take k ss))) (forms ss)) = ss !! k).
  { intros k Hk. destruct (lookup_lt_is_Some_2 ss k) as [s Hs]; [lia|].
    destruct (forms_select ss k s Hw Hs). by rewrite Hs. }
  assert (H0 := Hsel 0%nat ltac:(lia)). simpl take in H0. change (length (forms [])) with 0%nat in H0.
  unfold index' in *. destruct (Z.leb_spec nplurals index).
  - rewrite (proj2 (Z.ltb_ge index nplurals)) by lia. simpl andb.
    rewrite (proj2 (Z.ltb_lt 0 (Z.of_nat (length ss)))) by lia. exact H0.
  - rewrite (proj2 (Z.ltb_lt index nplurals)) by lia. simpl andb.
    destruct (Z.ltb_spec index (Z.of_nat (length ss))); [apply Hsel; lia|exact H0].
Qed.

(** C21. [plural_lookup] always returns a form of the translation, inside its
    bytes: the one the plural formula selects, and the first one where the value
    is not below [nplurals] or there are fewer forms. *)
Theorem plural_lookup_correct (e : expression) (nplurals n index : Z) (ss : list cstr)
    (Hw : Forall wf_cstr ss) (Hne : ss <> []) (He : plural_eval 64 e n = Some index) (Hi : 0 <= index) :
  let chosen := if (index <? nplurals) && (index <? Z.of_nat (length ss)) then Z.to_nat index else 0%nat in
  exists p, plural_lookup (Some e) nplurals n (forms ss) = Ret p /\
    (p < length (forms ss))%nat /\ cstring_of (drop p (forms ss)) = ss !! chosen.
Proof. by apply plural_form. Qed.

Lemma plural_lookup_correct_witness :
  exists p, plural_lookup (Some GERMANIC_PLURAL) 2 7 (forms [cs "file"; cs "files"]) = Ret p /\
    cstring_of (drop p (forms [cs "file"; cs "files"])) = Some (cs "files").
Proof.
  destruct (plural_lookup_correct GERMANIC_PLURAL 2 7 1 [cs "file"; cs "files"]) as (p & E & _ & Hp).
  - repeat (apply Forall_cons_2; [apply (bool_decide_unpack _); vm_compute; reflexivity|]). by apply Forall_nil_2.
  - discriminate.
  - vm_compute. reflexivity.
  - lia.
  - exists p. split; [exact E|exact Hp].
Defined.
