(* ===== verification/Convert.v ===== *)
(** * Conversion of translations: the second half of _nl_find_msg

    A program that wants its messages in another character set than the catalog's
    gets converted copies.  Each loaded domain has a table of conversions, one for
    each character set that was asked for, with the converted strings so far.  The
    strings are stored in blocks of memory that all domains share ([freemem]):
    the length, then the bytes.  iconv() is the class [IConv]. *)

From S2P Require Import Prelude HashString PluralExp PluralParse PluralExtract Catalog.

Open Scope Z_scope.

(** ** iconv *)

(** What iconv() does with an input and room for the output: the bytes written. *)
Inductive iconv_result :=
| IConverted (out : list Z)
| ITooBig (out : list Z)      (* E2BIG *)
| IFailed (out : list Z).     (* another error *)

Definition iconv_out (r : iconv_result) : list Z :=
  match r with IConverted out | ITooBig out | IFailed out => out end.

(** A conversion descriptor with its shift state. *)
Class IConv := {
  iconv_t : Type;
  iconv_open : cstr -> cstr -> option iconv_t;                (* tocode, fromcode *)
  iconv : iconv_t -> list Z -> Z -> iconv_result * iconv_t    (* input, room *)
}.

(** ** Memory for the converted strings *)

(** An address: a block and an offset. *)
Abbreviation pointer := (nat * Z)%type.

(** The static variables [freemem] and [freemem_size], and the blocks. *)
Record trans_mem := TransMem {
  freemem : option pointer;
  freemem_size : Z;
  tm_blocks : gmap nat (list Z);
  tm_next : nat;                  (* the next block that is allocated *)
  tm_allocs : nat                 (* the number of calls of the allocator *)
}.

Definition INITIAL_BLOCK_SIZE : Z := 4080.
Definition sizeof_size_t : Z := 8.

Definition set_freemem (p : option pointer) (size : Z) (m : trans_mem) : trans_mem :=
  TransMem p size (tm_blocks m) (tm_next m) (tm_allocs m).

(** A [size_t] in memory. *)
Definition size_bytes (n : Z) : list Z := map (fun i => Z.shiftr n (8 * i) mod 256) (seqZ 0 8).
Fixpoint size_value (l : list Z) : Z := match l with [] => 0 | b :: l => b + 256 * size_value l end.

(** Writing and reading in a block; undefined outside of it. *)
Definition write_at (p : pointer) (l : list Z) (m : trans_mem) : load trans_mem :=
  match tm_blocks m !! p.1 with
  | None => Undef
  | Some b =>
      if (0 <=? p.2) && (p.2 + Z.of_nat (length l) <=? Z.of_nat (length b)) then
        let i := Z.to_nat p.2 in
        Ret (TransMem (freemem m) (freemem_size m)
               (<[p.1 := take i b ++ l ++ drop (i + length l) b]> (tm_blocks m)) (tm_next m) (tm_allocs m))
      else Undef
  end.

Definition read_at (p : pointer) (n : Z) (m : trans_mem) : load (list Z) :=
  match tm_blocks m !! p.1 with None => Undef | Some b => bytes_at b p.2 n end.

(** A [size_t] is written and read at an aligned address. *)
Definition write_size (p : pointer) (n : Z) (m : trans_mem) : load trans_mem :=
  if p.2 mod sizeof_size_t =? 0 then write_at p (size_bytes n) m else Undef.
Definition read_size (p : pointer) (m : trans_mem) : load Z :=
  if p.2 mod sizeof_size_t =? 0 then l ← read_at p sizeof_size_t m; Ret (size_value l) else Undef.

(** ** A loaded domain *)

(** The bytes at a pointer of a domain. *)
Definition bytes_of (d : loaded_domain) (p : sptr) (len : Z) : load (list Z) :=
  match p with
  | InData off => bytes_at (data d) off len
  | InMem off => bytes_at (mem d) (Z.of_nat off) len
  end.

(** [conv_tab]: NULL, [(char ** ) -1], or a table of addresses, [None] for NULL. *)
Inductive conv_table := TabNull | TabFailed | Tab (l : list (option pointer)).

(** What _nl_find_msg returns. *)
Inductive found :=
| NotFound                                (* NULL *)
| NoMemory                                (* [(char * ) -1] *)
| InCatalog (p : sptr) (len : Z)
| InConverted (p : pointer) (len : Z).

Definition charset_key : cstr := cs "charset=".
Definition translit : cstr := cs "//TRANSLIT".

(** [strcspn (s, " \t\n")], as the bytes before. *)
Fixpoint before_white (s : cstr) : cstr :=
  match s with
  | c :: s => if (c =? 32) || (c =? 9) || (c =? 10) then [] else c :: before_white s
  | [] => []
  end.

(** The character set in the header entry. *)
Definition charset_of (nullentry : cstr) : option cstr :=
  match strstr nullentry charset_key with
  | Some charsetstr => Some (before_white (drop (length charset_key) charsetstr))
  | None => None
  end.

Section Convert.
Context `{IConv}.

(** [struct converted_domain]; [None] is [(iconv_t) -1]. *)
Record converted_domain := ConvertedDomain {
  cd_encoding : cstr;
  cd_conv : option iconv_t;
  conv_tab : conv_table
}.

(** The outcome of each allocation, and the contents of new memory. *)
Context (mal : nat -> bool) (garbage : nat -> nat -> Z).

Definition allocated (m : trans_mem) : trans_mem :=
  TransMem (freemem m) (freemem_size m) (tm_blocks m) (tm_next m) (S (tm_allocs m)).

(** malloc() or calloc() of memory that is not modelled as a block, strdup(). *)
Definition try_alloc (m : trans_mem) : bool * trans_mem := (mal (tm_allocs m), allocated m).

Definition new_block (b : nat) (size : Z) : list Z := map (garbage b) (seq 0 (Z.to_nat size)).

(** [malloc (size)] *)
Definition malloc_block (size : Z) (m : trans_mem) : option nat * trans_mem :=
  if mal (tm_allocs m) then
    let b := tm_next m in
    (Some b, TransMem (freemem m) (freemem_size m) (<[b := new_block b size]> (tm_blocks m)) (S b) (S (tm_allocs m)))
  else (None, allocated m).

(** [realloc (b, size)] moves the block; if it fails the block stays. *)
Definition realloc_block (b : nat) (size : Z) (m : trans_mem) : option nat * trans_mem :=
  if mal (tm_allocs m) then
    let b' := tm_next m in
    let old := default [] (tm_blocks m !! b) in
    (Some b', TransMem (freemem m) (freemem_size m)
       (<[b' := take (Z.to_nat size) (old ++ drop (length old) (new_block b' size))]> (delete b (tm_blocks m)))
       (S b') (S (tm_allocs m)))
  else (None, allocated m).

(** ** The loop that converts *)

Inductive conv_outcome := CoDone (outlen : Z) | CoNull | CoNoMem.

(** The fuel lasts until [malloc_count * INITIAL_BLOCK_SIZE] overflows. *)
Definition convert_fuel : nat := Z.to_nat (INT_MAX / INITIAL_BLOCK_SIZE + 1).

(** [while (1)]; [transmem_list] is the block of this call, [malloc_count] times the
    initial size. *)
Fixpoint iconv_loop (fuel : nat) (cd : iconv_t) (input : list Z) (malloc_count : Z) (transmem_list : option nat)
    (m : trans_mem) : load (conv_outcome * iconv_t * trans_mem) :=
  match fuel with
  | O => Undef
  | S fuel =>
      let resize_freemem cd m :=
        let malloc_count := malloc_count + 1 in
        let size := malloc_count * INITIAL_BLOCK_SIZE in
        let '(newmem, m) := match transmem_list with
                            | Some b => realloc_block b size m
                            | None => malloc_block size m
                            end in
        match newmem with
        | None => Ret (CoNoMem, cd, set_freemem None 0 m)
        | Some b => iconv_loop fuel cd input malloc_count (Some b) (set_freemem (Some (b, 0)) size m)
        end in
      if freemem_size m <? sizeof_size_t then resize_freemem cd m
      else
        match freemem m with
        | None => Undef
        | Some p =>
            let '(r, cd) := iconv cd input (freemem_size m - sizeof_size_t) in
            m ← write_at (p.1, p.2 + sizeof_size_t) (iconv_out r) m;
            match r with
            | IConverted out => Ret (CoDone (Z.of_nat (length out)), cd, m)
            | IFailed _ => Ret (CoNull, cd, m)
            | ITooBig _ => resize_freemem cd m
            end
        end
  end.

(** The length is stored before the string; the free memory that is left is kept
    aligned. *)
Definition finish (outlen : Z) (m : trans_mem) : load (pointer * trans_mem) :=
  match freemem m with
  | None => Undef
  | Some p =>
      m ← write_size p outlen m;
      let size := freemem_size m - (sizeof_size_t + outlen) in
      let off := p.2 + sizeof_size_t + outlen in
      Ret (p, set_freemem (Some (p.1, off + Z.land size (sizeof_size_t - 1)))
                (Z.land size (Z.lnot (sizeof_size_t - 1))) m)
  end.

(** ** The conversions of a domain *)

Context (d : loaded_domain).

(** The index of the conversion to a character set; the search starts at the end. *)
Fixpoint find_conversion (convs : list converted_domain) (encoding : cstr) (i : nat) : option nat :=
  match i with
  | O => None
  | S i =>
      match convs !! i with
      | Some c => if strcmp (cd_encoding c) encoding =? 0 then Some i else find_conversion convs encoding i
      | None => None
      end
  end.

(** The descriptor for a new conversion. *)
Definition open_conversion (encoding : cstr) : load (option iconv_t) :=
  entry ← find_msg d [];
  match entry with
  | None => Ret None
  | Some (p, _) =>
      nullentry ← deref (data d) (mem d) p;
      match charset_of nullentry with
      | None => Ret None
      | Some charset =>
          let outcharset := if existsb (Z.eqb (chr "/")) encoding then encoding else encoding ++ translit in
          Ret (iconv_open outcharset charset)
      end
  end.

(** The conversion to [encoding], made if it does not exist; [None] is [unlock_fail]. *)
Definition get_conversion (encoding : cstr) (convs : list converted_domain) (m : trans_mem)
    : load (option nat * list converted_domain * trans_mem) :=
  match find_conversion convs encoding (length convs) with
  | Some i => Ret (Some i, convs, m)
  | None =>
      let '(ok, m) := try_alloc m in                                    (* the table *)
      if negb ok then Ret (None, convs, m)
      else
        let '(ok, m) := try_alloc m in                                  (* strdup *)
        if negb ok then Ret (None, convs, m)
        else
          conv ← open_conversion encoding;
          Ret (Some (length convs), convs ++ [ConvertedDomain encoding conv TabNull], m)
  end.

Definition set_conv (cd : iconv_t) (c : converted_domain) : converted_domain :=
  ConvertedDomain (cd_encoding c) (Some cd) (conv_tab c).
Definition set_tab (t : conv_table) (c : converted_domain) : converted_domain :=
  ConvertedDomain (cd_encoding c) (cd_conv c) t.

(** [if (convd->conv_tab == NULL)]: allocate the table. *)
Definition make_table (c : converted_domain) (m : trans_mem) : converted_domain * trans_mem :=
  match conv_tab c with
  | TabNull =>
      let '(ok, m) := try_alloc m in
      (set_tab (if ok then Tab (replicate (Z.to_nat (nstrings d + n_sysdep_strings d)) None) else TabFailed) c, m)
  | _ => (c, m)
  end.

(** The converted translation number [act], which is at [p] in the catalog. *)
Definition convert_entry (act : Z) (p : sptr) (len : Z) (c : converted_domain) (m : trans_mem)
    : load (found * converted_domain * trans_mem) :=
  match cd_conv c with
  | None => Ret (InCatalog p len, c, m)
  | Some cd =>
      let '(c, m) := make_table c m in
      match conv_tab c with
      | TabNull | TabFailed => Ret (NoMemory, c, m)
      | Tab tab =>
          match tab !! Z.to_nat act with
          | None => Undef
          | Some (Some q) => n ← read_size q m; Ret (InConverted (q.1, q.2 + sizeof_size_t) n, c, m)
          | Some None =>
              input ← bytes_of d p len;
              '(o, cd, m) ← iconv_loop convert_fuel cd input 0 None m;
              let c := set_conv cd c in
              match o with
              | CoNull => Ret (NotFound, c, m)
              | CoNoMem => Ret (NoMemory, c, m)
              | CoDone outlen =>
                  '(q, m) ← finish outlen m;
                  n ← read_size q m;
                  Ret (InConverted (q.1, q.2 + sizeof_size_t) n, set_tab (Tab (<[Z.to_nat act := Some q]> tab)) c, m)
              end
          end
      end
  end.

(** [_nl_find_msg] with [convert = 1], on a domain that is loaded; [encoding] is the
    result of [get_output_charset]. *)
Definition find_msg_converted (encoding msgid : cstr) (convs : list converted_domain) (m : trans_mem)
    : load (found * list converted_domain * trans_mem) :=
  act ← find_act d msgid;
  match act with
  | None => Ret (NotFound, convs, m)
  | Some act =>
      '(p, len) ← translation d act;
      '(i, convs, m) ← get_conversion encoding convs m;
      match i with
      | None => Ret (NoMemory, convs, m)
      | Some i =>
          match convs !! i with
          | None => Undef
          | Some c => '(r, c, m) ← convert_entry act p len c m; Ret (r, <[i := c]> convs, m)
          end
      end
  end.
End Convert.

Arguments converted_domain {_}.

(** ** The character set *)

(** The static variables [output_charset_cache] and [output_charset_cached]. *)
Record output_charset := OutputCharset { output_charset_cached : bool; output_charset_cache : option cstr }.

(** [get_output_charset]; [codeset] of the binding, the value of OUTPUT_CHARSET, what
    locale_charset() returns, and whether the copy of the value is allocated. *)
Definition get_output_charset (codeset : option cstr) (OUTPUT_CHARSET : option cstr) (locale_charset : cstr)
    (mal_copy : bool) (oc : output_charset) : cstr * output_charset :=
  match codeset with
  | Some c => (c, oc)
  | None =>
      let oc :=
        if output_charset_cached oc then oc
        else OutputCharset true
               (match OUTPUT_CHARSET with
                | Some ((_ :: _) as value) => if mal_copy then Some value else None
                | _ => output_charset_cache oc
                end) in
      (match output_charset_cache oc with Some c => c | None => locale_charset end, oc)
  end.
