(* ===== verification/Converter.v ===== *)
(** * Converters: what DCIGETTEXT needs from the conversion of translations

    The interface between the driver and the second half of _nl_find_msg: the operations
    as a class, and the laws that the driver's theorems rely on.  An entry of the pool
    is known by its number.  [no_conversion] is the instance of a library without iconv();
    ConvertDriver has the one with it. *)

From S2P Require Import Prelude HashString PluralExp PluralParse PluralExtract Catalog Convert.

Open Scope Z_scope.

(** What the character set of the output depends on, at the moment of a call: the value of OUTPUT_CHARSET
    and the result of locale_charset(). *)
Record charset_env := CharsetEnv { ce_OUTPUT_CHARSET : option cstr; ce_locale_charset : cstr }.

(** NULL, [(char * ) -1], or a result. *)
Inductive lookup (A : Type) := Missing | NoResources | Here (x : A).
Arguments Missing {A}.
Arguments NoResources {A}.
Arguments Here {A}.

Class Converter := {
  cstate : Type;          (* conversions, converted strings, the cached character set *)
  text : Type;            (* a pointer to a translation *)
  cstate_init : cstate;
  (* the lookup in a domain that is loaded, with the codeset of the binding *)
  find_text : charset_env -> option cstr -> nat -> loaded_domain -> cstr -> cstate -> load (lookup (text * Z) * cstate);
  text_bytes : cstate -> loaded_domain -> text -> Z -> load (list Z)
}.

Class ConverterLaws `{!Converter} := {
  (* the encoding of the translations of a call *)
  encoding_of : charset_env -> option cstr -> cstate -> cstr;
  (* the translation of a message in an encoding, if there is one that can be converted *)
  expected : loaded_domain -> cstr -> cstr -> option (list Z);
  convertible : loaded_domain -> Prop;
  conversion_failed : Prop;
  cstate_ok : (nat -> option loaded_domain) -> cstate -> Prop;
  cstate_later : cstate -> cstate -> Prop;
  (* a pointer and the bytes it shows *)
  shows : cstate -> loaded_domain -> text -> list Z -> Prop;
  cstate_later_refl cs : cstate_later cs cs;
  cstate_later_trans cs1 cs2 cs3 : cstate_later cs1 cs2 -> cstate_later cs2 cs3 -> cstate_later cs1 cs3;
  cstate_init_ok f : cstate_ok f cstate_init;
  cstate_ok_mono (f f' : nat -> option loaded_domain) cs :
    (forall i d, f i = Some d -> f' i = Some d) -> cstate_ok f cs -> cstate_ok f' cs;
  shows_later cs cs' d t bytes : cstate_later cs cs' -> shows cs d t bytes -> shows cs' d t bytes;
  shows_bytes cs d t bytes : shows cs d t bytes -> text_bytes cs d t (Z.of_nat (length bytes)) = Ret bytes;
  encoding_wf f ce codeset cs : cstate_ok f cs -> wf_cstr (default [] codeset) ->
    wf_cstr (default [] (ce_OUTPUT_CHARSET ce)) -> wf_cstr (ce_locale_charset ce) -> wf_cstr (encoding_of ce codeset cs);
  find_text_ok f ce codeset i d msgid cs :
    cstate_ok f cs -> f i = Some d -> convertible d -> wf_cstr msgid -> wf_cstr (encoding_of ce codeset cs) ->
    wf_cstr (default [] (ce_OUTPUT_CHARSET ce)) ->
    exists r cs', find_text ce codeset i d msgid cs = Ret (r, cs') /\ cstate_ok f cs' /\ cstate_later cs cs' /\
      encoding_of ce codeset cs' = encoding_of ce codeset cs /\
      match r with
      | Missing => expected d (encoding_of ce codeset cs) msgid = None
      | NoResources => conversion_failed
      | Here (t, len) => exists bytes, expected d (encoding_of ce codeset cs) msgid = Some bytes /\
          len = Z.of_nat (length bytes) /\ shows cs' d t bytes
      end
}.

(** ** Without iconv() *)

#[export] Instance no_conversion : Converter := {
  cstate := unit;
  text := sptr;
  cstate_init := tt;
  find_text _ _ _ d msgid cs :=
    r ← find_msg d msgid; Ret (match r with None => Missing | Some t => Here t end, cs);
  text_bytes _ d t len := bytes_of d t len
}.

(** The translation in the catalog. *)
Definition catalog_text (d : loaded_domain) (msgid : cstr) : option (list Z) :=
  match find_msg d msgid with
  | Ret (Some (p, len)) => match bytes_of d p len with Ret bytes => Some bytes | _ => None end
  | _ => None
  end.

(** Lookups stay inside the catalog. *)
Definition catalog_usable (d : loaded_domain) : Prop :=
  forall msgid, wf_cstr msgid -> exists r, find_msg d msgid = Ret r /\
    forall p len, r = Some (p, len) -> 0 <= len /\ exists bytes, bytes_of d p len = Ret bytes.

Lemma bytes_at_size l off n bytes : 0 <= n -> bytes_at l off n = Ret bytes -> n = Z.of_nat (length bytes).
Proof.
  intros Hn. unfold bytes_at. case_if; [|done]. intros [= <-]. rewrite length_take, length_drop. lia.
Qed.

Lemma bytes_of_length d p len bytes : 0 <= len -> bytes_of d p len = Ret bytes -> len = Z.of_nat (length bytes).
Proof. destruct p; apply bytes_at_size. Qed.

#[export, refine] Instance no_conversion_laws : ConverterLaws := {
  encoding_of _ _ _ := [];
  expected d _ msgid := catalog_text d msgid;
  convertible := catalog_usable;
  conversion_failed := False;
  cstate_ok _ _ := True;
  cstate_later _ _ := True;
  shows _ d t bytes := bytes_of d t (Z.of_nat (length bytes)) = Ret bytes
}.
Proof.
  all: try done.
  - intros. by apply Forall_nil_2.
  - intros f ce codeset i d msgid [] _ _ Hu Hm _ _. cbn. destruct (Hu msgid Hm) as (r & E & Hr). unfold catalog_text. rewrite E.
    eexists _, tt. split_and!; [done..|]. destruct r as [[p len]|]; [|done].
    destruct (Hr p len eq_refl) as (H0 & bytes & Eb). rewrite Eb. exists bytes.
    pose proof (bytes_of_length d p len bytes H0 Eb) as El. split_and!; [done..|]. by rewrite <- El.
Defined.
