(* ===== verification/ConvertSpec.v ===== *)
(** * What the conversion of translations promises

    Converted strings are stored in aligned, disjoint parts of the blocks and stay
    as they are, whatever is converted later and whichever allocations fail; a
    string that was converted is not converted again; and what is returned is what
    iconv() makes of the translation. *)

From S2P Require Import Prelude HashString PluralExp PluralParse PluralExtract Catalog CatalogSpec CatalogFind CatalogLoad Convert.

Open Scope Z_scope.

(** ** A converter without shift states *)

(** What POSIX says of iconv() for an encoding without shift states, which a call leaves in its only state.
    [iconv_meaning] is the conversion, [None] for an input that cannot be converted;
    [iconv_need] the room that iconv() needs to convert the input, or to find out
    that it cannot. *)
Class IConvLaws `{IConv} := {
  iconv_meaning : iconv_t -> list Z -> option (list Z);
  iconv_need : iconv_t -> list Z -> Z;
  iconv_need_pos : forall cd i, 0 <= iconv_need cd i;
  iconv_small : forall cd i room, 0 <= room < iconv_need cd i ->
    exists out, (iconv cd i room).1 = ITooBig out /\ Z.of_nat (length out) <= room;
  iconv_large : forall cd i room, iconv_need cd i <= room ->
    match iconv_meaning cd i with
    | Some out => (iconv cd i room).1 = IConverted out /\ Z.of_nat (length out) <= room
    | None => exists out, (iconv cd i room).1 = IFailed out /\ Z.of_nat (length out) <= room
    end;
  iconv_stateless : forall cd i room j,
    iconv_meaning (iconv cd i room).2 j = iconv_meaning cd j /\
    iconv_need (iconv cd i room).2 j = iconv_need cd j
}.

(** ** Words in memory *)

Lemma size_bytes_length n : length (size_bytes n) = 8%nat.
Proof. done. Qed.

Lemma size_value_bytes n : 0 <= n < 2 ^ 64 -> size_value (size_bytes n) = n.
Proof.
  intros Hn. change (size_bytes n) with (map (fun i => Z.shiftr n (8 * i) mod 256) [0; 1; 2; 3; 4; 5; 6; 7]).
  cbn [map size_value]. rewrite !Z.shiftr_div_pow2 by lia.
  change (2 ^ (8 * 0)) with 1. change (2 ^ (8 * 1)) with 256. change (2 ^ (8 * 2)) with (256 * 256).
  change (2 ^ (8 * 3)) with (256 * (256 * 256)). change (2 ^ (8 * 4)) with (256 * (256 * (256 * 256))).
  change (2 ^ (8 * 5)) with (256 * (256 * (256 * (256 * 256)))).
  change (2 ^ (8 * 6)) with (256 * (256 * (256 * (256 * (256 * 256))))).
  change (2 ^ (8 * 7)) with (256 * (256 * (256 * (256 * (256 * (256 * 256)))))).
  rewrite Z.div_1_r, <- !Z.div_div by lia.
  assert (Hdm : forall a, a = 256 * (a / 256) + a mod 256 /\ 0 <= a mod 256 < 256).
  { intros a. split; [by apply Z.div_mod|by apply Z.mod_pos_bound]. }
  set (a1 := n / 256). set (a2 := a1 / 256). set (a3 := a2 / 256). set (a4 := a3 / 256).
  set (a5 := a4 / 256). set (a6 := a5 / 256). set (a7 := a6 / 256).
  pose proof (Hdm n) as H0. pose proof (Hdm a1) as H1. pose proof (Hdm a2) as H2. pose proof (Hdm a3) as H3.
  pose proof (Hdm a4) as H4. pose proof (Hdm a5) as H5. pose proof (Hdm a6) as H6.
  fold a1 in H0. fold a2 in H1. fold a3 in H2. fold a4 in H3. fold a5 in H4. fold a6 in H5. fold a7 in H6.
  clearbody a1 a2 a3 a4 a5 a6 a7. change (2 ^ 64) with 18446744073709551616 in Hn. clear Hdm.
  rewrite (Z.mod_small a7) by lia. lia.
Qed.

(** ** The blocks *)

Record mem_ok (m : trans_mem) : Prop := MemOk {
  mok_next : forall b l, tm_blocks m !! b = Some l -> (b < tm_next m)%nat;
  mok_free : match freemem m with
             | None => freemem_size m = 0
             | Some p => exists l, tm_blocks m !! p.1 = Some l /\ 0 <= p.2 /\ 0 <= freemem_size m /\
                 p.2 mod 8 = 0 /\ p.2 + freemem_size m = Z.of_nat (length l) /\ Z.of_nat (length l) mod 8 = 0
             end
}.

(** The bytes [l] are at [p]. *)
Definition block_has (m : trans_mem) (p : pointer) (l : list Z) : Prop :=
  exists pre post, tm_blocks m !! p.1 = Some (pre ++ l ++ post) /\ p.2 = Z.of_nat (length pre).

(** The converted string [s] is stored at [p], before the free memory. *)
Record stored (m : trans_mem) (p : pointer) (s : list Z) : Prop := Stored {
  st_aligned : p.2 mod 8 = 0;
  st_size : Z.of_nat (length s) < 2 ^ 64;
  st_bytes : block_has m p (size_bytes (Z.of_nat (length s)) ++ s);
  st_before : forall f, freemem m = Some f -> f.1 = p.1 -> p.2 + 8 + Z.of_nat (length s) <= f.2
}.

Definition keeps (m m' : trans_mem) : Prop := forall p s, stored m p s -> stored m' p s.

Lemma keeps_refl m : keeps m m.
Proof. by intros p s. Qed.

Lemma keeps_trans m1 m2 m3 : keeps m1 m2 -> keeps m2 m3 -> keeps m1 m3.
Proof. intros H1 H2 p s H. by apply H2, H1. Qed.

Lemma read_at_has m p l : block_has m p l -> read_at p (Z.of_nat (length l)) m = Ret l.
Proof.
  intros (pre & post & E & Ep). unfold read_at, bytes_at. rewrite E, Ep, !length_app.
  rewrite (proj2 (Z.leb_le _ _)) by lia. rewrite (proj2 (Z.leb_le _ _)) by lia. cbn [andb].
  rewrite !Nat2Z.id, drop_app_length, take_app_length. done.
Qed.

Lemma block_has_split m p l1 l2 : block_has m p (l1 ++ l2) ->
  block_has m p l1 /\ block_has m (p.1, p.2 + Z.of_nat (length l1)) l2.
Proof.
  intros (pre & post & E & Ep). split.
  - exists pre, (l2 ++ post). by rewrite E, <- app_assoc.
  - exists (pre ++ l1), post. simpl. rewrite E, length_app, <- !app_assoc. split; [done|lia].
Qed.

Lemma read_size_stored m p s : stored m p s -> read_size p m = Ret (Z.of_nat (length s)).
Proof.
  intros [Ha Hs Hb _]. unfold read_size, sizeof_size_t. rewrite (proj2 (Z.eqb_eq _ _) Ha).
  apply block_has_split in Hb as [Hb _]. apply read_at_has in Hb. rewrite size_bytes_length in Hb.
  change (Z.of_nat 8) with 8 in Hb. rewrite Hb. cbn [mbind load_bind]. rewrite size_value_bytes by lia. done.
Qed.

Lemma read_stored m p s : stored m p s -> read_at (p.1, p.2 + 8) (Z.of_nat (length s)) m = Ret s.
Proof.
  intros [Ha Hs Hb _]. apply block_has_split in Hb as [_ Hb]. rewrite size_bytes_length in Hb. by apply read_at_has.
Qed.

(** Writing in the free memory: defined, and all stored strings are kept. *)
Lemma write_free m f k l : mem_ok m -> freemem m = Some f -> 0 <= k -> k + Z.of_nat (length l) <= freemem_size m ->
  exists m', write_at (f.1, f.2 + k) l m = Ret m' /\ mem_ok m' /\ keeps m m' /\ block_has m' (f.1, f.2 + k) l /\
    freemem m' = Some f /\ freemem_size m' = freemem_size m /\ tm_next m' = tm_next m /\ tm_allocs m' = tm_allocs m /\
    (forall l', block_has m (f.1, f.2 + k + Z.of_nat (length l)) l' -> block_has m' (f.1, f.2 + k + Z.of_nat (length l)) l').
Proof.
  intros [Hn Hf] Ef Hk Hl. rewrite Ef in Hf. destruct Hf as (b & Eb & H0 & Hs & Ha & Elen & Hmod).
  unfold write_at. cbn [fst snd]. rewrite Eb.
  rewrite (proj2 (Z.leb_le _ _)) by lia. rewrite (proj2 (Z.leb_le _ _)) by lia. cbn [andb]. set (i := Z.to_nat (f.2 + k)).
  set (b' := take i b ++ l ++ drop (i + length l) b). set (m' := TransMem _ _ _ _ _).
  assert (Hi : (i + length l <= length b)%nat) by (unfold i; lia).
  assert (Hlen : length b' = length b).
  { unfold b'. rewrite !length_app, length_take, length_drop. lia. }
  assert (Hlt : length (take i b) = i) by (rewrite length_take; lia).
  exists m'. split_and!; try done.
  - split.
    + intros b0 l0. unfold m'. cbn. rewrite lookup_insert_Some. intros [[<- _]|[_ H]]; eauto.
    + cbn. rewrite Ef. exists b'. rewrite lookup_insert. rewrite decide_True by done. rewrite Hlen. done.
  - intros p s [Sa Ss (pre & post & E & Ep) Sb]. specialize (Sb f Ef). split; [done..| |].
    + destruct (decide (f.1 = p.1)) as [Efp|Hne].
      * specialize (Sb Efp). rewrite <- Efp, Eb in E. apply (inj Some) in E.
        exists pre, (drop (length pre + length (size_bytes (Z.of_nat (length s)) ++ s)) b').
        split; [|done]. unfold m'. cbn [tm_blocks]. rewrite Efp, lookup_insert, decide_True by done. f_equal.
        set (c := size_bytes _ ++ s) in *.
        assert (Hc : (length pre + length c <= i)%nat).
        { unfold c. rewrite length_app, size_bytes_length. unfold i. lia. }
        rewrite <- (take_drop (length pre + length c) b') at 1. rewrite app_assoc. f_equal.
        unfold b'. rewrite take_app_le by lia. rewrite take_take, Nat.min_l by lia.
        rewrite E, app_assoc. rewrite take_app_le by (rewrite length_app; lia). by rewrite take_ge by (rewrite length_app; lia).
      * exists pre, post. split; [|done]. unfold m'. cbn [tm_blocks]. by rewrite lookup_insert_ne.
    + unfold m'. cbn. intros f' Ef'. rewrite Ef in Ef'. injection Ef' as <-. exact Sb.
  - exists (take i b), (drop (i + length l) b). cbn [fst snd tm_blocks m']. rewrite lookup_insert, decide_True by done.
    split; [done|]. rewrite Hlt. unfold i. lia.
  - intros l' (pre & post & E & Ep). cbn [fst snd] in *. rewrite Eb in E. apply (inj Some) in E.
    exists (take i b ++ l), post. cbn [fst snd tm_blocks m']. rewrite lookup_insert, decide_True by done.
    split; [|rewrite length_app, Hlt; unfold i; lia]. f_equal. unfold b'. rewrite <- app_assoc. do 2 f_equal.
    rewrite E. assert (Epre : length pre = (i + length l)%nat) by (unfold i; lia). by rewrite <- Epre, drop_app_length.
Qed.

(** ** Allocation *)

Section Alloc.
Context (mal : nat -> bool) (garbage : nat -> nat -> Z).

Definition failed : Prop := exists i, mal i = false.

(** [m'] is [m] with a new free block of [size] bytes, and maybe without the block
    [gone], in which nothing is stored. *)
Lemma fresh_block_ok m b l size gone m' :
  mem_ok m -> b = tm_next m -> Z.of_nat (length l) = size -> 0 <= size -> size mod 8 = 0 ->
  (forall p s, stored m p s -> Some p.1 <> gone) ->
  tm_blocks m' = <[b := l]> (match gone with Some g => delete g (tm_blocks m) | None => tm_blocks m end) ->
  tm_next m' = S b -> freemem m' = Some (b, 0) -> freemem_size m' = size ->
  mem_ok m' /\ keeps m m'.
Proof using Type.
  intros [Hn Hf] -> Hl Hs Hmod Hgone Eb En Ef Es. split.
  - split.
    + intros b0 l0. rewrite Eb, En, lookup_insert_Some. intros [[<- _]|[_ H]]; [lia|].
      destruct gone as [g|]; [apply lookup_delete_Some in H as [_ H]|]; apply Hn in H; lia.
    + rewrite Ef. exists l. cbn [fst snd]. rewrite Eb, lookup_insert, decide_True by done.
      split_and!; [done|lia|lia|done|lia|by rewrite Hl].
  - intros p s Hst. pose proof (Hgone _ _ Hst) as Hne. destruct Hst as [Sa Ss (pre & post & E & Ep) Sb].
    pose proof (Hn _ _ E) as Hlt. split; [done..| |].
    + exists pre, post. split; [|done]. rewrite Eb, lookup_insert_ne by lia.
      destruct gone as [g|]; [|done]. rewrite lookup_delete_ne; [done|congruence].
    + rewrite Ef. intros f [= <-] Heq. cbn in Heq. lia.
Qed.

Lemma new_block_length b size : 0 <= size -> Z.of_nat (length (new_block garbage b size)) = size.
Proof using Type. intros. unfold new_block. rewrite length_map, length_seq. lia. Qed.

(** Nothing is stored in a block that is all free. *)
Lemma free_block_empty m b : freemem m = Some (b, 0) -> forall p s, stored m p s -> Some p.1 <> Some b.
Proof using Type.
  intros Ef p s [Sa Ss (pre & post & E & Ep) Sb] [= Heq]. specialize (Sb _ Ef (eq_sym Heq)). cbn in Sb. lia.
Qed.

(** Without memory there is no free memory. *)
Lemma no_free_ok m m' : mem_ok m -> tm_blocks m' = tm_blocks m -> tm_next m' = tm_next m -> freemem m' = None ->
  freemem_size m' = 0 -> mem_ok m' /\ keeps m m'.
Proof using Type.
  intros [Hn _] Eb En Ef Es. split; [split; [by rewrite Eb, En|by rewrite Ef]|].
  intros p s [Sa Ss Hh Sb]. split; [done..| |by rewrite Ef].
  destruct Hh as (pre & post & E & Ep). exists pre, post. by rewrite Eb.
Qed.

Lemma same_memory m m' : mem_ok m -> tm_blocks m' = tm_blocks m -> tm_next m' = tm_next m -> freemem m' = freemem m ->
  freemem_size m' = freemem_size m -> mem_ok m' /\ keeps m m'.
Proof using Type.
  intros [Hn Hf] Eb En Ef Es. split; [split; [by rewrite Eb, En|by rewrite Ef, Eb, Es]|].
  intros p s [Sa Ss Hh Sb]. split; [done..| |by rewrite Ef].
  destruct Hh as (pre & post & E & Ep). exists pre, post. by rewrite Eb.
Qed.

(** The block of a call: none at first, then all of it is free. *)
Definition own_block (t : option nat) (count : Z) (m : trans_mem) : Prop :=
  match t with
  | None => count = 0
  | Some b => 1 <= count /\ freemem m = Some (b, 0) /\ freemem_size m = count * INITIAL_BLOCK_SIZE
  end.

Definition get_memory (t : option nat) (size : Z) (m : trans_mem) : option nat * trans_mem :=
  match t with Some b => realloc_block mal garbage b size m | None => malloc_block mal garbage size m end.

Lemma get_memory_ok t count m : mem_ok m -> own_block t count m ->
  let size := (count + 1) * INITIAL_BLOCK_SIZE in
  let '(newmem, m1) := get_memory t size m in
  match newmem with
  | Some b => let m' := set_freemem (Some (b, 0)) size m1 in mem_ok m' /\ keeps m m' /\ own_block (Some b) (count + 1) m'
  | None => let m' := set_freemem None 0 m1 in mem_ok m' /\ keeps m m' /\ failed
  end.
Proof using Type.
  intros Hok Ht size. assert (Hc : 0 <= count) by (destruct t as [b|]; [destruct Ht as [? _]; lia|cbn in Ht; lia]).
  assert (Hs : 0 <= size) by (unfold size, INITIAL_BLOCK_SIZE; lia).
  assert (Hmod : size mod 8 = 0).
  { unfold size, INITIAL_BLOCK_SIZE. replace ((count + 1) * 4080) with (((count + 1) * 510) * 8) by lia. apply Z.mod_mul. lia. }
  assert (Hfail : mal (tm_allocs m) = false -> let m' := set_freemem None 0 (allocated m) in
    mem_ok m' /\ keeps m m' /\ failed).
  { intros E m'. destruct (no_free_ok m m' Hok) as [H1 H2]; [done..|]. split_and!; [done..|by eexists]. }
  destruct t as [b|]; cbn [get_memory].
  - unfold realloc_block. destruct (mal (tm_allocs m)) eqn:E; [|by apply Hfail].
    destruct Ht as (_ & Ef & Es). cbv zeta.
    match goal with |- mem_ok ?m' /\ _ => set (m2 := m') end.
    set (l := take (Z.to_nat size) (default [] (tm_blocks m !! b) ++
      drop (length (default [] (tm_blocks m !! b))) (new_block garbage (tm_next m) size))).
    destruct (fresh_block_ok m (tm_next m) l size (Some b) m2) as [H1 H2]; try done.
    + pose proof (new_block_length (tm_next m) size Hs). unfold l. rewrite length_take, length_app, length_drop. lia.
    + by apply free_block_empty.
    + split_and!; [exact H1|exact H2|]. split_and!; [lia|done|done].
  - unfold malloc_block. destruct (mal (tm_allocs m)) eqn:E; [|by apply Hfail]. cbv zeta.
    match goal with |- mem_ok ?m' /\ _ => set (m2 := m') end.
    destruct (fresh_block_ok m (tm_next m) (new_block garbage (tm_next m) size) size None m2) as [H1 H2]; try done.
    + by apply new_block_length.
    + split_and!; [exact H1|exact H2|]. split_and!; [lia|done|done].
Qed.

(** ** The loop *)

Context `{ICL : IConvLaws}.

Definition same_meaning (cd cd' : iconv_t) : Prop :=
  forall j, iconv_meaning cd' j = iconv_meaning cd j /\ iconv_need cd' j = iconv_need cd j.

Lemma same_meaning_trans c1 c2 c3 : same_meaning c1 c2 -> same_meaning c2 c3 -> same_meaning c1 c3.
Proof using Type. intros H1 H2 j. destruct (H1 j), (H2 j). split; congruence. Qed.

(** What the loop returns. *)
Definition loop_result (cd : iconv_t) (input : list Z) (o : conv_outcome) (m : trans_mem) : Prop :=
  match o with
  | CoDone n => exists out f, iconv_meaning cd input = Some out /\ n = Z.of_nat (length out) /\
      freemem m = Some f /\ block_has m (f.1, f.2 + 8) out /\ 8 + n <= freemem_size m
  | CoNull => iconv_meaning cd input = None
  | CoNoMem => failed
  end.

(** One call of iconv: done, too big, or an error. *)
Lemma iconv_cases cd input room : 0 <= room ->
  let '(r, cd') := iconv cd input room in
  same_meaning cd cd' /\ Z.of_nat (length (iconv_out r)) <= room /\
  match r with
  | IConverted out => iconv_meaning cd input = Some out
  | IFailed _ => iconv_meaning cd input = None
  | ITooBig _ => room < iconv_need cd input
  end.
Proof using ICL.
  intros Hroom. pose proof (iconv_stateless cd input room) as Hst.
  destruct (Z.lt_ge_cases room (iconv_need cd input)) as [Hlt|Hge].
  - destruct (iconv_small cd input room) as (out & E & Hl); [lia|].
    destruct (iconv cd input room) as [r cd']. cbn [fst snd] in *. subst r. split_and!; [exact Hst|done|done].
  - pose proof (iconv_large cd input room Hge) as H1.
    destruct (iconv cd input room) as [r cd']. cbn [fst snd] in *.
    destruct (iconv_meaning cd input) as [out|]; [destruct H1 as [-> Hl]|destruct H1 as (out & -> & Hl)];
      (split_and!; [exact Hst|exact Hl|done]).
Qed.

Lemma iconv_loop_ok fuel cd input count t m :
  mem_ok m -> own_block t count m -> (0 < fuel)%nat ->
  iconv_need cd input + 8 <= INITIAL_BLOCK_SIZE * (count + Z.of_nat fuel - 1) ->
  exists o cd' m', iconv_loop mal garbage fuel cd input count t m = Ret (o, cd', m') /\
    mem_ok m' /\ keeps m m' /\ same_meaning cd cd' /\ loop_result cd input o m'.
Proof using ICL.
  revert cd count t m. induction fuel as [|fuel IH]; intros cd count t m Hok Hown Hf Hneed; [lia|].
  pose proof (iconv_need_pos cd input) as Hpos.
  assert (Hresize : forall cd1 m1, mem_ok m1 -> keeps m m1 -> own_block t count m1 -> same_meaning cd cd1 ->
    freemem_size m1 < iconv_need cd input + 8 ->
    exists o cd' m', (let '(newmem, m2) := get_memory t ((count + 1) * INITIAL_BLOCK_SIZE) m1 in
      match newmem with
      | None => Ret (CoNoMem, cd1, set_freemem None 0 m2)
      | Some b => iconv_loop mal garbage fuel cd1 input (count + 1) (Some b)
                    (set_freemem (Some (b, 0)) ((count + 1) * INITIAL_BLOCK_SIZE) m2)
      end) = Ret (o, cd', m') /\ mem_ok m' /\ keeps m m' /\ same_meaning cd cd' /\ loop_result cd input o m').
  { intros cd1 m1 Hok1 Hk1 Hown1 Hsame Hsize. pose proof (get_memory_ok t count m1 Hok1 Hown1) as Hget. cbv zeta in Hget.
    destruct (get_memory t ((count + 1) * INITIAL_BLOCK_SIZE) m1) as [[b|] m2].
    - destruct Hget as (Hok2 & Hk2 & Hown2). destruct (Hsame input) as [Hm Hn].
      destruct (IH cd1 (count + 1) (Some b) _ Hok2 Hown2) as (o & cd' & m' & E & H1 & H2 & H3 & H4).
      + destruct t as [b0|]; [destruct Hown1 as (_ & _ & Es)|cbn in Hown1]; unfold INITIAL_BLOCK_SIZE in *; lia.
      + rewrite Hn. lia.
      + exists o, cd', m'. rewrite E. split_and!; [done..|by eapply keeps_trans, keeps_trans|by eapply same_meaning_trans|].
        unfold loop_result in *. by rewrite <- Hm.
    - destruct Hget as (Hok2 & Hk2 & Hfail). eexists _, _, _. split_and!; [done|done|by eapply keeps_trans|done|done]. }
  cbn [iconv_loop]. cbv zeta.
  change (match t with Some b => realloc_block mal garbage b ?s ?x | None => malloc_block mal garbage ?s ?x end)
    with (get_memory t s x).
  unfold sizeof_size_t. destruct (Z.ltb_spec (freemem_size m) 8) as [Hlt|Hge].
  { apply Hresize; [done|apply keeps_refl|done|by intros j|lia]. }
  destruct (freemem m) as [f|] eqn:Ef; [|pose proof (mok_free _ Hok) as H1; rewrite Ef in H1; lia].
  pose proof (iconv_cases cd input (freemem_size m - 8) ltac:(lia)) as Hcases.
  destruct (iconv cd input (freemem_size m - 8)) as [r cd1]. destruct Hcases as (Hsame & Hlen & Hr).
  destruct (write_free m f 8 (iconv_out r) Hok Ef) as (m1 & E1 & Hok1 & Hk1 & Hb1 & Ef1 & Es1 & En1 & _); [lia|lia|].
  rewrite E1. cbn [mbind load_bind]. destruct r as [out|out|out]; cbn [iconv_out] in *.
  - eexists _, _, _. split_and!; [done|done|done|done|]. exists out, f. split_and!; [done..|lia].
  - apply Hresize; [done..| |done|lia]. destruct t as [b|]; [|done]. destruct Hown as (? & ? & ?).
    split_and!; [done|congruence|congruence].
  - eexists _, _, _. split_and!; done.
Qed.

Lemma align_down size : 0 <= size ->
  Z.land size (sizeof_size_t - 1) = size mod 8 /\ Z.land size (Z.lnot (sizeof_size_t - 1)) = size - size mod 8.
Proof using Type.
  intros Hs. change (sizeof_size_t - 1) with (Z.ones 3). split; [by rewrite Z.land_ones|].
  rewrite <- Z.ldiff_land, Z.ldiff_ones_r, Z.shiftl_mul_pow2, Z.shiftr_div_pow2 by lia. change (2 ^ 3) with 8.
  pose proof (Z.div_mod size 8). lia.
Qed.

Lemma finish_ok m f out : mem_ok m -> freemem m = Some f -> block_has m (f.1, f.2 + 8) out ->
  8 + Z.of_nat (length out) <= freemem_size m -> Z.of_nat (length out) < 2 ^ 64 ->
  exists m', finish (Z.of_nat (length out)) m = Ret (f, m') /\ mem_ok m' /\ keeps m m' /\ stored m' f out.
Proof using Type.
  intros Hok Ef Hb Hlen Hbig. unfold finish, write_size. rewrite Ef. change sizeof_size_t with 8.
  pose proof (mok_free _ Hok) as Hfr. rewrite Ef in Hfr. destruct Hfr as (l & El & H0 & Hs & Ha & Elen & Hmod).
  rewrite (proj2 (Z.eqb_eq _ _) Ha).
  destruct (write_free m f 0 (size_bytes (Z.of_nat (length out))) Hok Ef) as
    (m1 & E1 & Hok1 & Hk1 & Hb1 & Ef1 & Es1 & En1 & _ & Hkeep); [lia|rewrite size_bytes_length; lia|].
  replace (f.1, f.2 + 0) with f in E1, Hb1 by (destruct f; cbn; f_equal; lia). rewrite E1. cbn [mbind load_bind].
  assert (Hb2 : block_has m1 (f.1, f.2 + 8) out).
  { specialize (Hkeep out). rewrite size_bytes_length, Z.add_0_r in Hkeep. by apply Hkeep. }
  set (n := Z.of_nat (length out)) in *. set (size := freemem_size m1 - (8 + n)).
  destruct (align_down size) as [A1 A2]; [unfold size; lia|].
  change sizeof_size_t with 8 in A1, A2. fold size. rewrite A1, A2. eexists. split; [done|].
  pose proof (mok_free _ Hok1) as Hfr. rewrite Ef1 in Hfr. destruct Hfr as (l1 & El1 & _ & Hs1 & _ & Elen1 & Hmod1).
  pose proof (Z.mod_pos_bound size 8 ltac:(lia)) as Hm8. pose proof (Z.div_mod size 8 ltac:(lia)) as Hdm.
  assert (Hmle : size mod 8 <= size) by (apply Z.mod_le; unfold size; lia).
  split; [|split].
  - split; [by apply Hok1|]. cbn. exists l1. split_and!; [done|unfold size in *; lia|lia| |unfold size in *; lia|done].
    replace (f.2 + 8 + n + size mod 8) with (Z.of_nat (length l1) - size / 8 * 8) by (unfold size in *; lia).
    rewrite Zminus_mod, Hmod1, Z.mod_mul by lia. done.
  - intros p s Hst. apply Hk1 in Hst. destruct Hst as [Sa Ss Sh Sb]. split; [done..|]. cbn. intros f' [= <-] Heq. cbn in *.
    specialize (Sb f Ef1 Heq). lia.
  - split; [done|done| |cbn; intros f' [= <-] _; cbn; lia].
    destruct Hb1 as (pre & post & E & Ep), Hb2 as (pre2 & post2 & E2 & Ep2). cbn [fst snd] in *.
    exists pre, post2. cbn [set_freemem tm_blocks]. split; [|done]. rewrite E. f_equal. rewrite E in E2. apply (inj Some) in E2.
    rewrite app_assoc in E2. apply app_inj_1 in E2 as [E3 E4];
      [by rewrite <- app_assoc, E4|rewrite length_app, size_bytes_length; lia].
Qed.
End Alloc.
