(* ===== verification/ConvertTheorems.v ===== *)
(** * The converted translations of a domain

    The table of conversions of a domain under the invariant [convs_ok], the result of
    [find_msg_converted], and its repetition. *)

From S2P Require Import Prelude HashString PluralExp PluralParse PluralExtract Catalog CatalogSpec CatalogFind CatalogLoad.
From S2P Require Import Convert ConvertSpec.

Open Scope Z_scope.

Section Domain.
Context `{ICL : IConvLaws} (mal : nat -> bool) (garbage : nat -> nat -> Z) (d : loaded_domain).

Definition entry_count : nat := Z.to_nat (nstrings d + n_sysdep_strings d).

(** The bytes of the translation number [act]. *)
Definition raw (act : Z) (p : sptr) (len : Z) (input : list Z) : Prop :=
  translation d act = Ret (p, len) /\ bytes_of d p len = Ret input.

(** Lookups in the domain stay inside the file. *)
Record readable : Prop := Readable {
  rd_find : forall msgid, wf_cstr msgid -> exists r, find_act d msgid = Ret r /\
    forall act, r = Some act -> 0 <= act /\ (Z.to_nat act < entry_count)%nat /\ exists p len input, raw act p len input;
  rd_open : forall encoding, exists o, open_conversion d encoding = Ret o
}.

(** A converted text is shorter than 2 GB. *)
Definition fits (encoding : cstr) : Prop := forall cd act p len input,
  open_conversion d encoding = Ret (Some cd) -> raw act p len input ->
  iconv_need cd input + 8 <= INITIAL_BLOCK_SIZE * (INT_MAX / INITIAL_BLOCK_SIZE).

(** The descriptor of a conversion means what the one that was opened means. *)
Definition descriptor_ok (encoding : cstr) (conv : option iconv_t) : Prop :=
  exists o, open_conversion d encoding = Ret o /\
    match o, conv with
    | Some cd0, Some cd => same_meaning cd0 cd
    | None, None => True
    | _, _ => False
    end.

(** An entry of the table is a stored conversion of its translation. *)
Definition entry_ok (m : trans_mem) (encoding : cstr) (act : nat) (q : pointer) : Prop :=
  exists p len input cd out, raw (Z.of_nat act) p len input /\ open_conversion d encoding = Ret (Some cd) /\
    iconv_meaning cd input = Some out /\ stored m q out.

Definition table_ok (m : trans_mem) (encoding : cstr) (t : conv_table) : Prop :=
  match t with
  | TabNull => True
  | TabFailed => failed mal
  | Tab tab => length tab = entry_count /\ forall act q, tab !! act = Some (Some q) -> entry_ok m encoding act q
  end.

Record conv_ok (m : trans_mem) (c : converted_domain) : Prop := ConvOk {
  cok_wf : wf_cstr (cd_encoding c);
  cok_conv : descriptor_ok (cd_encoding c) (cd_conv c);
  cok_tab : table_ok m (cd_encoding c) (conv_tab c)
}.

Definition convs_ok (m : trans_mem) (convs : list converted_domain) : Prop := Forall (conv_ok m) convs.

Lemma table_ok_keeps m m' encoding t : keeps m m' -> table_ok m encoding t -> table_ok m' encoding t.
Proof using Type.
  intros Hk. destruct t as [| |tab]; [done..|]. intros [Hl Htab]. split; [done|]. intros act q Hq.
  destruct (Htab act q Hq) as (p & len & input & cd & out & H1 & H2 & H3 & H4). exists p, len, input, cd, out. auto.
Qed.

(** Strings of the domain stay converted, whatever is stored for another one. *)
Lemma convs_ok_keeps m m' convs : keeps m m' -> convs_ok m convs -> convs_ok m' convs.
Proof using Type.
  intros Hk Hcs. eapply Forall_impl; [exact Hcs|]. intros c [H1 H2 H3]. split; [done..|]. by eapply table_ok_keeps.
Qed.

(** ** Finding and making a conversion *)

Lemma find_conversion_some convs encoding k i : wf_cstr encoding -> (forall c, c ∈ convs -> wf_cstr (cd_encoding c)) ->
  find_conversion convs encoding k = Some i -> exists c, convs !! i = Some c /\ cd_encoding c = encoding.
Proof using Type.
  intros Hw Hall. induction k as [|k IH]; [done|]. cbn [find_conversion]. destruct (convs !! k) as [c|] eqn:E; [|done].
  destruct (Z.eqb_spec (strcmp (cd_encoding c) encoding) 0) as [E0|]; [|done]. intros [= <-]. exists c. split; [done|].
  apply strcmp_eq in E0; [done| |done]. apply Hall. by eapply list_elem_of_lookup_2.
Qed.

(** The search looks only at the encodings. *)
Lemma find_conversion_encodings convs convs' encoding k :
  map cd_encoding convs' = map cd_encoding convs -> find_conversion convs' encoding k = find_conversion convs encoding k.
Proof using Type.
  intros E. induction k as [|k IH]; [done|]. cbn [find_conversion]. rewrite IH.
  assert (H1 : cd_encoding <$> convs' !! k = cd_encoding <$> convs !! k) by (rewrite <- !list_lookup_fmap; by f_equal).
  destruct (convs' !! k), (convs !! k); try done. by injection H1 as ->.
Qed.

Lemma get_conversion_ok encoding convs m : readable -> mem_ok m -> convs_ok m convs -> wf_cstr encoding ->
  exists i convs' m', get_conversion mal d encoding convs m = Ret (i, convs', m') /\
    mem_ok m' /\ keeps m m' /\ convs_ok m' convs' /\
    match i with
    | None => failed mal
    | Some i => find_conversion convs' encoding (length convs') = Some i /\
                exists c, convs' !! i = Some c /\ cd_encoding c = encoding
    end.
Proof using Type.
  intros Hrd Hok Hcs Hw. unfold get_conversion.
  assert (Hwf : forall c, c ∈ convs -> wf_cstr (cd_encoding c)).
  { intros c Hc. apply cok_wf with m. by apply (proj1 (Forall_forall _ _) Hcs). }
  destruct (find_conversion convs encoding (length convs)) as [i|] eqn:Ef.
  { eexists (Some i), convs, m. split_and!; [done|done|apply keeps_refl|done|done|]. by eapply find_conversion_some. }
  unfold try_alloc at 1. destruct (same_memory m (allocated m) Hok) as [Hok1 Hk1]; [done..|].
  destruct (mal (tm_allocs m)) eqn:E1; cbn [negb].
  2: { eexists None, convs, _. split_and!; [done|done|done|by eapply convs_ok_keeps|by eexists]. }
  unfold try_alloc. destruct (same_memory (allocated m) (allocated (allocated m)) Hok1) as [Hok2 Hk2]; [done..|].
  pose proof (keeps_trans _ _ _ Hk1 Hk2) as Hk. destruct (mal (tm_allocs (allocated m))) eqn:E2; cbn [negb].
  2: { eexists None, convs, _. split_and!; [done|done|done|by eapply convs_ok_keeps|by eexists]. }
  destruct (rd_open Hrd encoding) as [o Eo]. rewrite Eo. cbn [mbind load_bind].
  set (c := ConvertedDomain encoding o TabNull).
  assert (El : (convs ++ [c]) !! length convs = Some c) by (rewrite lookup_app_r, Nat.sub_diag by lia; done).
  eexists (Some (length convs)), (convs ++ [c]), _. split_and!; [done..| | |].
  - apply Forall_app. split; [by eapply convs_ok_keeps|]. constructor; [|done]. split; [done| |done].
    exists o. split; [done|]. destruct o; [by intros j|done].
  - rewrite length_app, Nat.add_comm. cbn [length Nat.add find_conversion]. rewrite El. cbn [cd_encoding c].
    by rewrite strcmp_refl.
  - by exists c.
Qed.

(** ** One translation *)

Lemma convert_fuel_value : Z.of_nat convert_fuel = INT_MAX / INITIAL_BLOCK_SIZE + 1.
Proof using Type. apply Z2Nat.id. by apply (bool_decide_unpack _). Qed.

(** What the caller gets for the translation number [act]. *)
Definition delivers (encoding : cstr) (act : Z) (m : trans_mem) (r : found) : Prop :=
  exists p len input o, raw act p len input /\ open_conversion d encoding = Ret o /\
    match o with
    | None => r = InCatalog p len
    | Some cd =>
        match iconv_meaning cd input with
        | None => r = NotFound
        | Some out => exists q, r = InConverted (q.1, q.2 + 8) (Z.of_nat (length out)) /\ stored m q out /\
            read_at (q.1, q.2 + 8) (Z.of_nat (length out)) m = Ret out
        end
    end.

Lemma make_table_ok c m : mem_ok m -> conv_ok m c ->
  let '(c', m') := make_table mal d c m in
  mem_ok m' /\ keeps m m' /\ conv_ok m' c' /\ cd_encoding c' = cd_encoding c /\ cd_conv c' = cd_conv c /\
  conv_tab c' <> TabNull.
Proof using Type.
  intros Hok [C1 C2 C3]. unfold make_table. destruct (conv_tab c) as [| |tab] eqn:Et.
  - unfold try_alloc. destruct (same_memory m (allocated m) Hok) as [H1 H2]; [done..|].
    split_and!; [done|done| |done|done|by destruct (mal _)]. split; [done..|]. cbn. destruct (mal _) eqn:E; [|by eexists].
    split; [apply length_replicate|]. intros act q Hq. by apply lookup_replicate in Hq as [? _].
  - split_and!; [done|apply keeps_refl| |done|done|by rewrite Et]. split; [done..|by rewrite Et].
  - split_and!; [done|apply keeps_refl| |done|done|by rewrite Et]. split; [done..|by rewrite Et].
Qed.

(** The entry of the table is filled once. *)
Lemma convert_entry_ok act p len input c m :
  mem_ok m -> conv_ok m c -> fits (cd_encoding c) -> 0 <= act -> (Z.to_nat act < entry_count)%nat -> raw act p len input ->
  exists r c' m', convert_entry mal garbage d act p len c m = Ret (r, c', m') /\
    mem_ok m' /\ keeps m m' /\ conv_ok m' c' /\ cd_encoding c' = cd_encoding c /\
    (r = NoMemory /\ failed mal \/ delivers (cd_encoding c) act m' r) /\
    forall q n, r = InConverted q n -> forall mal2 garbage2,
      convert_entry mal2 garbage2 d act p len c' m' = Ret (r, c', m').
Proof using ICL.
  intros Hok Hc Hfits Hact Hlt Hraw. unfold convert_entry at 1. pose proof (cok_conv _ _ Hc) as (o & Eo & Ho).
  destruct (cd_conv c) as [cd|] eqn:Ecd.
  2: { destruct o; [done|]. eexists _, c, m. split_and!; [done|done|apply keeps_refl|done|done| |done]. right.
       by exists p, len, input, None. }
  destruct o as [cd0|]; [|done]. pose proof (make_table_ok c m Hok Hc) as Hmt.
  destruct (make_table mal d c m) as [c1 m1]. destruct Hmt as (Hok1 & Hk1 & Hc1 & Een & Ecv & Hnn).
  destruct (conv_tab c1) as [| |tab] eqn:Et; [done| |].
  { eexists _, c1, m1. split_and!; [done..| |done]. left. split; [done|]. pose proof (cok_tab _ _ Hc1) as H1. by rewrite Et in H1. }
  pose proof (cok_tab _ _ Hc1) as H1. rewrite Et, Een in H1. destruct H1 as [Hlen Htab].
  assert (Hagain : forall q out c2 m2 tab2, stored m2 q out -> conv_tab c2 = Tab tab2 -> cd_conv c2 <> None ->
    tab2 !! Z.to_nat act = Some (Some q) -> forall mal2 garbage2,
    convert_entry mal2 garbage2 d act p len c2 m2 = Ret (InConverted (q.1, q.2 + 8) (Z.of_nat (length out)), c2, m2)).
  { intros q out c2 m2 tab2 Hst Et2 Ecd2 Hq2 mal2 garbage2. unfold convert_entry, make_table.
    destruct (cd_conv c2) as [cd2|]; [|done]. rewrite Et2, Et2, Hq2, (read_size_stored _ _ _ Hst). done. }
  destruct (lookup_lt_is_Some_2 tab (Z.to_nat act)) as [e He]; [by rewrite Hlen|]. rewrite He. destruct e as [q|].
  - destruct (Htab _ _ He) as (p' & len' & input' & cd' & out & Hraw' & Eo' & Hm & Hst). rewrite Z2Nat.id in Hraw' by lia.
    assert (input' = input) as -> by (destruct Hraw as [R1 R2], Hraw' as [R3 R4]; congruence).
    assert (cd' = cd0) as -> by congruence.
    rewrite (read_size_stored _ _ _ Hst). cbn [mbind load_bind]. eexists _, c1, m1. split_and!; [done..| |].
    + right. exists p, len, input, (Some cd0). split_and!; [done..|]. rewrite Hm. exists q. split_and!; [done..|]. by apply read_stored.
    + intros q' n [= <- <-]. eapply Hagain; [done|done|congruence|done].
  - destruct Hraw as [R1 R2]. rewrite R2. cbn [mbind load_bind].
    pose proof (Hfits cd0 act p len input Eo (conj R1 R2)) as Hroom. destruct (Ho input) as [Hm Hn].
    destruct (iconv_loop_ok mal garbage convert_fuel cd input 0 None m1 Hok1 eq_refl) as
      (oc & cd' & m2 & E2 & Hok2 & Hk2 & Hsame & Hres).
    { pose proof convert_fuel_value as H1. change (INT_MAX / INITIAL_BLOCK_SIZE) with 526344 in H1. lia. }
    { rewrite Hn, convert_fuel_value. lia. }
    rewrite E2. cbn [mbind load_bind]. pose proof (keeps_trans _ _ _ Hk1 Hk2) as Hk.
    assert (Hsame0 : same_meaning cd0 cd') by (eapply same_meaning_trans; [exact Ho|exact Hsame]).
    assert (Hset : forall m', keeps m1 m' -> conv_ok m' (set_conv cd' c1)).
    { intros m' Hk'. split; [apply Hc1| |].
      - exists (Some cd0). cbn [set_conv cd_encoding cd_conv]. by rewrite Een.
      - cbn. eapply table_ok_keeps; [exact Hk'|apply Hc1]. }
    assert (Hdel : forall r m', match iconv_meaning cd0 input with
      | None => r = NotFound
      | Some out => exists q, r = InConverted (q.1, q.2 + 8) (Z.of_nat (length out)) /\ stored m' q out
      end -> delivers (cd_encoding c) act m' r) by (intros r m' Hr; exists p, len, input, (Some cd0); split_and!; [done..|];
      destruct (iconv_meaning cd0 input); [|done]; destruct Hr as (q & -> & Hst); exists q; split_and!; [done..|];
      by apply read_stored).
    destruct oc as [n| |]; cbn [loop_result] in Hres.
    + destruct Hres as (out & f & Hout & -> & Ef & Hb & Hsz). rewrite Hm in Hout.
      assert (Hbig : Z.of_nat (length out) < 2 ^ 64).
      { pose proof (iconv_large cd0 input (iconv_need cd0 input) (Z.le_refl _)) as H1. rewrite Hout in H1.
        destruct H1 as [_ H1]. change (INITIAL_BLOCK_SIZE * (INT_MAX / INITIAL_BLOCK_SIZE)) with 2147483520 in Hroom.
        change (2 ^ 64) with 18446744073709551616. lia. }
      destruct (finish_ok m2 f out Hok2 Ef Hb Hsz Hbig) as (m3 & E3 & Hok3 & Hk3 & Hst3). rewrite E3. cbn [mbind load_bind].
      rewrite (read_size_stored _ _ _ Hst3). cbn [mbind load_bind].
      set (c3 := set_tab (Tab (<[Z.to_nat act := Some f]> tab)) (set_conv cd' c1)).
      eexists _, c3, m3. split_and!; [done|done|by eapply keeps_trans| |done| |].
      * split; [apply (Hset m2 Hk2)|apply (Hset m2 Hk2)|]. cbn. split; [by rewrite length_insert|]. intros act' q Hq.
        rewrite list_lookup_insert_Some in Hq. destruct Hq as [(<- & <-%(inj Some) & _)|[_ Hq]].
        -- exists p, len, input, cd0, out. rewrite Z2Nat.id, Een by lia. done.
        -- destruct (Htab act' q Hq) as (p' & len' & input' & cd2 & out' & T1 & T2 & T3 & T4).
           exists p', len', input', cd2, out'. rewrite Een. split_and!; [done..|]. by apply Hk3, Hk2.
      * right. apply Hdel. rewrite Hout. by exists f.
      * intros q' n' [= <- <-]. eapply (Hagain f out); [done|done|done|]. apply list_lookup_insert_eq. by rewrite Hlen.
    + eexists _, _, m2. split_and!; [done|done|done|by apply Hset|done| |done]. right. apply Hdel. by rewrite <- Hm, Hres.
    + eexists _, _, m2. split_and!; [done|done|done|by apply Hset|done| |done]. by left.
Qed.

(** ** The lookup with conversion *)

Lemma find_msg_converted_ok encoding msgid convs m :
  readable -> mem_ok m -> convs_ok m convs -> fits encoding -> wf_cstr encoding -> wf_cstr msgid ->
  exists r convs' m', find_msg_converted mal garbage d encoding msgid convs m = Ret (r, convs', m') /\
    mem_ok m' /\ keeps m m' /\ convs_ok m' convs' /\
    (exists o, find_act d msgid = Ret o /\
       match o with
       | None => r = NotFound
       | Some act => r = NoMemory /\ failed mal \/ delivers encoding act m' r
       end) /\
    forall q n, r = InConverted q n -> forall mal2 garbage2,
      find_msg_converted mal2 garbage2 d encoding msgid convs' m' = Ret (r, convs', m').
Proof using ICL.
  intros Hrd Hok Hcs Hfits Hwe Hwm. unfold find_msg_converted.
  destruct (rd_find Hrd msgid Hwm) as (o & Ea & Hact). rewrite Ea. cbn [mbind load_bind]. destruct o as [act|].
  2: { eexists _, convs, m. split_and!; [done|done|apply keeps_refl|done|by exists None|done]. }
  destruct (Hact act eq_refl) as (H0 & Hlt & p & len & input & Hraw). destruct Hraw as [Et Eb]. rewrite Et. cbn [mbind load_bind].
  destruct (get_conversion_ok encoding convs m Hrd Hok Hcs Hwe) as (i & convs1 & m1 & E1 & Hok1 & Hk1 & Hcs1 & Hi).
  rewrite E1. cbn [mbind load_bind]. destruct i as [i|].
  2: { eexists _, convs1, m1. split_and!; [done..| |done]. exists (Some act). split; [done|by left]. }
  destruct Hi as (Efind & c & Ec & Een). rewrite Ec.
  assert (Hc : conv_ok m1 c) by (apply (proj1 (Forall_forall _ _) Hcs1); by eapply list_elem_of_lookup_2).
  destruct (convert_entry_ok act p len input c m1 Hok1 Hc) as (r & c' & m2 & E2 & Hok2 & Hk2 & Hc' & Een' & Hr & Hrep);
    [by rewrite Een|done|done|by split|].
  rewrite E2. cbn [mbind load_bind]. eexists r, _, m2. split; [done|].
  pose proof (lookup_lt_Some _ _ _ Ec) as Hlen. split_and!; [done|by eapply keeps_trans| | |].
  - apply Forall_insert; [by eapply convs_ok_keeps|done].
  - exists (Some act). rewrite Een in Hr. done.
  - intros q n Hq mal2 garbage2. unfold get_conversion.
    rewrite (find_conversion_encodings convs1), length_insert, Efind.
    + cbn [mbind load_bind]. rewrite list_lookup_insert_eq by done. rewrite (Hrep q n Hq). cbn [mbind load_bind].
      by rewrite list_insert_insert_eq.
    + rewrite list_fmap_insert. apply list_insert_id. rewrite list_lookup_fmap, Ec. cbn. by rewrite Een'.
Qed.
End Domain.

(** ** The conversion that is opened *)

(** [s] occurs in [header], first after [u]. *)
Definition first_at (header s u v : cstr) : Prop :=
  header = u ++ s ++ v /\ forall u' v', header = u' ++ s ++ v' -> (length u <= length u')%nat.

Definition white (c : Z) : Prop := c = 32 \/ c = 9 \/ c = 10.

(** From the character set behind "charset=" in the header, up to white space, to the encoding, with transliteration unless the
    encoding has a slash; no conversion if there is no header, if it names no character set, or if iconv_open() fails. *)
Inductive conversion_for `{IConv} (d : loaded_domain) (encoding : cstr) : option iconv_t -> Prop :=
  | no_header : find_msg d [] = Ret None -> conversion_for d encoding None
  | no_charset p len header : find_msg d [] = Ret (Some (p, len)) -> deref (data d) (mem d) p = Ret header ->
      (forall u v, header <> u ++ cs "charset=" ++ v) -> conversion_for d encoding None
  | from_charset p len header u charset v : find_msg d [] = Ret (Some (p, len)) -> deref (data d) (mem d) p = Ret header ->
      first_at header (cs "charset=") u (charset ++ v) -> Forall (fun c => ~ white c) charset ->
      (v = [] \/ exists c v', v = c :: v' /\ white c) ->
      conversion_for d encoding (iconv_open (if decide (chr "/" ∈ encoding) then encoding else encoding ++ cs "//TRANSLIT") charset).

Lemma is_prefix_spec needle hay : is_prefix needle hay = true <-> exists v, hay = needle ++ v.
Proof.
  revert hay. induction needle as [|c needle IH]; intros hay; [split; [by exists hay|done]|].
  destruct hay as [|d hay]; cbn [is_prefix]; [split; [done|by intros [v Hv]]|].
  rewrite andb_true_iff, Z.eqb_eq, IH. split.
  - intros [-> [v ->]]. by exists v.
  - intros [v [= -> ->]]. split; [done|by exists v].
Qed.

Lemma strstr_found hay needle s : strstr hay needle = Some s -> exists u v, s = needle ++ v /\ first_at hay needle u v.
Proof.
  induction hay as [|c hay IH]; cbn [strstr]; destruct (is_prefix needle _) eqn:E; try done.
  - intros [= <-]. apply is_prefix_spec in E as [v E]. exists [], v. split; [done|]. split; [done|]. cbn. lia.
  - intros [= <-]. apply is_prefix_spec in E as [v E]. exists [], v. split; [done|]. split; [done|]. cbn. lia.
  - intros H. destruct (IH H) as (u & v & Es & Eh & Hmin). exists (c :: u), v. split; [done|]. split; [by rewrite Eh|].
    intros [|c' u'] v' E'; [|injection E' as _ E'; apply Hmin in E'; cbn; lia].
    exfalso. cbn [app] in E'. rewrite E' in E. rewrite (proj2 (is_prefix_spec _ _)) in E; [done|by eexists].
Qed.

Lemma strstr_missing hay needle : strstr hay needle = None -> forall u v, hay <> u ++ needle ++ v.
Proof.
  intros H u v ->. revert H. induction u as [|c u IH]; cbn [app].
  - destruct (needle ++ v) eqn:E; cbn [strstr]; rewrite <- E, (proj2 (is_prefix_spec _ _)) by (by eexists); done.
  - cbn [strstr]. destruct (is_prefix needle _); done.
Qed.

Lemma before_white_spec s : exists v, s = before_white s ++ v /\ Forall (fun c => ~ white c) (before_white s) /\
  (v = [] \/ exists c v', v = c :: v' /\ white c).
Proof.
  induction s as [|c s (v & E & Hw & Hv)]; [by exists []; split_and!; [|constructor|left]|]. cbn [before_white].
  destruct ((c =? 32) || (c =? 9) || (c =? 10)) eqn:Ec.
  - exists (c :: s). split_and!; [done|constructor|right]. exists c, s. split; [done|]. unfold white. breflect. lia.
  - exists v. split_and!; [cbn; by rewrite <- E|constructor; [|done]|done]. unfold white. breflect. lia.
Qed.

Lemma open_conversion_for `{IConv} d encoding o : open_conversion d encoding = Ret o -> conversion_for d encoding o.
Proof.
  unfold open_conversion. destruct (find_msg d []) as [[[p len]|]| | |] eqn:Ef; [| |done..]; cbn [mbind load_bind].
  2: { intros [= <-]. by apply no_header. }
  destruct (deref _ _ p) as [header| | |] eqn:Ed; [|done..]. cbn [mbind load_bind]. unfold charset_of.
  destruct (strstr header charset_key) as [s|] eqn:Es; cycle 1.
  { intros [= <-]. eapply no_charset; [done..|]. by apply strstr_missing. }
  apply strstr_found in Es as (u & v & -> & Hu). rewrite drop_app_length. intros [= <-].
  destruct (before_white_spec v) as (v' & Ev & Hw & Hv').
  replace (if existsb (Z.eqb (chr "/")) encoding then encoding else encoding ++ translit)
    with (if decide (chr "/" ∈ encoding) then encoding else encoding ++ cs "//TRANSLIT").
  - eapply from_charset; [done..| |done|done]. by rewrite <- Ev.
  - destruct (existsb _ encoding) eqn:E.
    + apply existsb_exists in E as (c & Hc & ->%Z.eqb_eq). rewrite decide_True; [done|by apply list_elem_of_In].
    + rewrite decide_False; [done|]. intros Hc. apply list_elem_of_In in Hc.
      rewrite (proj2 (existsb_exists _ _)) in E; [done|]. exists (chr "/"). by rewrite Z.eqb_refl.
Qed.

(** ** Theorems *)

(** C25. With an iconv() whose encodings have no shift states (for others the code is wrong, see [stateful_conversion_wrong]), a lookup with
    conversion in a catalog that can be read ([readable], [fits]) returns: nothing for an unknown message or one
    that cannot be converted, the translation itself if its character set is not
    known or need not be converted, and otherwise a copy, which is exactly what iconv
    makes of all its bytes; [(char * ) -1] only if an allocation fails.  Whatever
    happens, the copies that were made before, for this or another domain, are not
    touched: they lie in aligned, disjoint parts of the blocks. *)
Theorem find_msg_converted_correct `{ICL : IConvLaws} (mal : nat -> bool) (garbage : nat -> nat -> Z)
    (d : loaded_domain) (encoding msgid : cstr) (convs : list converted_domain) (m : trans_mem)
    (Hrd : readable d) (Hm : mem_ok m) (Hcs : convs_ok mal d m convs) (Hfits : fits d encoding)
    (Hwe : wf_cstr encoding) (Hwm : wf_cstr msgid) :
  exists r convs' m', find_msg_converted mal garbage d encoding msgid convs m = Ret (r, convs', m') /\
    mem_ok m' /\ (forall q s, stored m q s -> stored m' q s) /\ convs_ok mal d m' convs' /\
    exists o, find_act d msgid = Ret o /\
      match o with
      | None => r = NotFound
      | Some act => r = NoMemory /\ (exists i, mal i = false) \/ delivers d encoding act m' r
      end.
Proof.
  destruct (find_msg_converted_ok mal garbage d encoding msgid convs m Hrd Hm Hcs Hfits Hwe Hwm) as
    (r & convs' & m' & H1 & H2 & H3 & H4 & H5 & _). by exists r, convs', m'.
Qed.

(** A translation is converted once: the same lookup returns the same copy again
    and changes nothing, without a call of iconv and without memory. *)
Theorem conversion_repeats `{ICL : IConvLaws} (mal mal2 : nat -> bool) (garbage garbage2 : nat -> nat -> Z)
    (d : loaded_domain) (encoding msgid : cstr) (convs convs' : list converted_domain) (m m' : trans_mem)
    (q : pointer) (n : Z)
    (Hrd : readable d) (Hm : mem_ok m) (Hcs : convs_ok mal d m convs) (Hfits : fits d encoding)
    (Hwe : wf_cstr encoding) (Hwm : wf_cstr msgid)
    (Hcall : find_msg_converted mal garbage d encoding msgid convs m = Ret (InConverted q n, convs', m')) :
  find_msg_converted mal2 garbage2 d encoding msgid convs' m' = Ret (InConverted q n, convs', m').
Proof.
  destruct (find_msg_converted_ok mal garbage d encoding msgid convs m Hrd Hm Hcs Hfits Hwe Hwm) as
    (r & convs2 & m2 & H1 & _ & _ & _ & _ & H6). rewrite Hcall in H1. injection H1 as <- <- <-. by eapply H6.
Qed.

(** ** An example: a catalog in ISO-8859-1, converted to UTF-8 *)

Definition utf8 (c : Z) : list Z := if c <? 128 then [c] else [192 + c / 64; 128 + c mod 64].

Definition to_utf8 (i : list Z) : list Z := i ≫= utf8.

Definition latin1_iconv (i : list Z) (room : Z) : iconv_result :=
  let out := to_utf8 i in
  if Z.of_nat (length out) <=? room then IConverted out else ITooBig (take (Z.to_nat room) out).

#[local] Instance sample_iconv : IConv := {|
  iconv_t := unit;
  iconv_open to from := if decide (to = cs "UTF-8//TRANSLIT" /\ from = cs "ISO-8859-1") then Some tt else None;
  iconv _ i room := (latin1_iconv i room, tt)
|}.

#[local] Instance sample_iconv_laws : IConvLaws.
Proof.
  refine {| iconv_meaning _ i := Some (to_utf8 i) : option (list Z); iconv_need _ i := Z.of_nat (length (to_utf8 i)) |}.
  - intros _ i. lia.
  - intros cd i room Hr. cbn. unfold latin1_iconv. case_if; [lia|]. eexists. split; [done|]. rewrite length_take. lia.
  - intros cd i room Hr. cbn. unfold latin1_iconv. case_if; [done|lia].
  - done.
Defined.

Definition latin1_ids : list cstr := [[]; cs "coffee"].
Definition latin1_mo : list Z :=
  concat (map le32 ([_MAGIC; 0; 2; 48; 64; 0; 80; 0; 0; 0; 0; 0] ++ [0; 80; 6; 81] ++ [18; 88; 4; 107]))
  ++ [0] ++ cs "coffee" ++ [0] ++ cs "charset=ISO-8859-1" ++ [0] ++ cs "caf" ++ [233; 0].
Definition latin1_domain : loaded_domain := LoadedDomain latin1_mo false 2 48 64 0 [] [] [] 0 None false.

Lemma latin1_represents : represents latin1_domain latin1_ids.
Proof.
  split.
  - repeat (apply Forall_cons_2; [apply (bool_decide_unpack _); vm_compute; reflexivity|]). by apply Forall_nil_2.
  - apply (bool_decide_unpack _). vm_compute. reflexivity.
  - simpl. lia.
  - intros [|[|i]] s Hi Hlt; simpl in *; try done; injection Hi as <-;
      (split; [vm_compute; reflexivity|]); (eexists; split; [vm_compute; reflexivity|]); simpl; lia.
  - intros i s Hi Hge. apply lookup_lt_Some in Hi. simpl in *. lia.
Qed.

Lemma latin1_searchable : searchable latin1_domain latin1_ids.
Proof. split; [|done]. repeat constructor. Qed.

Lemma latin1_readable : readable latin1_domain.
Proof.
  split.
  - intros msgid Hw. rewrite (find_act_spec latin1_domain latin1_ids msgid latin1_represents latin1_searchable Hw).
    eexists. split; [reflexivity|]. intros act Hact.
    destruct (decide (msgid ∈ latin1_ids)) as [Hin|Hni]; [|by rewrite index_of_None in Hact].
    apply list_elem_of_lookup in Hin as [i Hi]. rewrite (index_of_Some latin1_ids msgid i) in Hact;
      [|apply (bool_decide_unpack _); vm_compute; reflexivity|done]. injection Hact as <-.
    destruct i as [|[|i]]; [| |done]; (split; [lia|]); (split; [vm_compute; lia|]);
      eexists _, _, _; (split; [vm_compute; reflexivity|vm_compute; reflexivity]).
  - intros encoding. unfold open_conversion.
    replace (find_msg latin1_domain []) with (Ret (Some (InData 88, 19)) : load (option (sptr * Z))) by (vm_compute; reflexivity).
    by eexists.
Qed.

Lemma raw_short d act p len input : raw d act p len input -> Z.of_nat (length input) <= Z.of_nat (length (data d) + length (mem d)).
Proof.
  intros [_ E]. unfold bytes_of, bytes_at in E. destruct p; case_if_in E; try done; injection E as <-;
    rewrite length_take, length_drop; lia.
Qed.

Lemma to_utf8_length i : (length (to_utf8 i) <= 2 * length i)%nat.
Proof.
  unfold to_utf8. induction i as [|c i IH]; [done|]. cbn [mbind list_bind]. rewrite length_app. unfold utf8 at 1.
  change (list_bind _ _ utf8 i) with (i ≫= utf8). case_if; simpl; lia.
Qed.

Lemma latin1_fits encoding : fits latin1_domain encoding.
Proof.
  intros cd act p len input _ Hraw. apply raw_short in Hraw. change (length _ + length _)%nat with 112%nat in Hraw.
  cbn [iconv_need sample_iconv_laws]. pose proof (to_utf8_length input).
  change (INITIAL_BLOCK_SIZE * (INT_MAX / INITIAL_BLOCK_SIZE)) with 2147483520. lia.
Qed.

Definition no_memory_used : trans_mem := TransMem None 0 ∅ 0 0.

Lemma no_memory_used_ok : mem_ok no_memory_used.
Proof. split; [|done]. intros b l Hb. cbn [no_memory_used tm_blocks] in Hb. by rewrite lookup_empty in Hb. Qed.

Definition zeros_everywhere (b i : nat) : Z := 0.

Definition latin1_call (mal : nat -> bool) (convs : list converted_domain) (m : trans_mem) :=
  find_msg_converted mal zeros_everywhere latin1_domain (cs "UTF-8") (cs "coffee") convs m.

Lemma utf8_wf : wf_cstr (cs "UTF-8") /\ wf_cstr (cs "coffee").
Proof. split; apply (bool_decide_unpack _); vm_compute; reflexivity. Qed.

(** The text that the call returns, and the state after it. *)
Definition returned_text (r : load (found * list converted_domain * trans_mem)) : option (list Z) :=
  match r with
  | Ret (InConverted q n, _, m) => match read_at q n m with Ret l => Some l | _ => None end
  | _ => None
  end.

Lemma find_msg_converted_correct_witness :
  exists r convs m, latin1_call (fun _ => true) [] no_memory_used = Ret (r, convs, m) /\ mem_ok m /\
    returned_text (Ret (r, convs, m)) = Some (cs "caf" ++ [195; 169; 0]).
Proof.
  destruct (find_msg_converted_correct (fun _ => true) zeros_everywhere latin1_domain (cs "UTF-8") (cs "coffee") []
    no_memory_used latin1_readable no_memory_used_ok (Forall_nil_2 _) (latin1_fits _) (proj1 utf8_wf) (proj2 utf8_wf))
    as (r & convs & m & E & Hm & _).
  exists r, convs, m. split; [exact E|]. split; [exact Hm|].
  assert (Ht : returned_text (latin1_call (fun _ => true) [] no_memory_used) = Some (cs "caf" ++ [195; 169; 0]))
    by (vm_compute; reflexivity).
  rewrite <- Ht. unfold latin1_call. rewrite E. reflexivity.
Defined.

Definition latin1_after : list converted_domain * trans_mem :=
  match latin1_call (fun _ => true) [] no_memory_used with Ret (_, convs, m) => (convs, m) | _ => ([], no_memory_used) end.

Lemma latin1_result :
  latin1_call (fun _ => true) [] no_memory_used = Ret (InConverted (0%nat, 8) 6, latin1_after.1, latin1_after.2).
Proof. vm_compute. reflexivity. Qed.

(** Without memory. *)
Lemma conversion_repeats_witness :
  latin1_call (fun _ => false) latin1_after.1 latin1_after.2 =
    Ret (InConverted (0%nat, 8) 6, latin1_after.1, latin1_after.2).
Proof.
  apply (conversion_repeats (fun _ => true) (fun _ => false) zeros_everywhere zeros_everywhere latin1_domain (cs "UTF-8")
    (cs "coffee") [] latin1_after.1 no_memory_used latin1_after.2 (0%nat, 8) 6).
  - exact latin1_readable.
  - exact no_memory_used_ok.
  - apply Forall_nil_2.
  - exact (latin1_fits _).
  - exact (proj1 utf8_wf).
  - exact (proj2 utf8_wf).
  - exact latin1_result.
Defined.

(** ** An encoding with shift states *)

(** Bytes from 128 on are written as a byte below 128 in a second state, which is entered
    by 14 and left by 15. *)
Definition shift_char (shifted : bool) (c : Z) : list Z :=
  if c <? 128 then (if shifted then [15; c] else [c]) else (if shifted then [c - 128] else [14; c - 128]).

Fixpoint shift_convert (shifted : bool) (i : list Z) (room : nat) : list Z * bool * bool :=
  match i with
  | [] => ([], shifted, true)
  | c :: i =>
      let out := shift_char shifted c in
      if Nat.leb (length out) room then
        let '(l, s, complete) := shift_convert (128 <=? c) i (room - length out) in (out ++ l, s, complete)
      else ([], shifted, false)
  end.

Definition shift_iconv : IConv := {|
  iconv_t := bool;
  iconv_open _ _ := Some false;
  iconv s i room :=
    let '(out, s, complete) := shift_convert s i (Z.to_nat room) in
    ((if complete : bool then IConverted out else ITooBig out), s)
|}.

(** 16 bytes are left, which are not enough for the string. *)
Definition little_memory : trans_mem := TransMem (Some (0%nat, 0)) 16 {[ 0%nat := repeat 0 16 ]} 1 0.

Definition shift_input : list Z := repeat 200 8 ++ [0].

(** After the error the descriptor stays in the second state, and the string is converted
    from the start without the byte that enters it: the text is read as "HHHHHHHH". *)
Theorem stateful_conversion_wrong : exists n cd m f,
  @iconv_loop shift_iconv (fun _ => true) zeros_everywhere 3 false shift_input 0 None little_memory
    = Ret (CoDone n, cd, m) /\
  freemem m = Some f /\ read_at (f.1, f.2 + 8) n m = Ret (repeat 72 8 ++ [15; 0]) /\
  (shift_convert false shift_input 100).1.1 = [14] ++ repeat 72 8 ++ [15; 0].
Proof. eexists _, _, _, _. split_and!; vm_compute; reflexivity. Qed.
