(* ===== verification/ConvertDriver.v ===== *)
(** * The converter with iconv(): what the driver of a library with iconv() uses

    The instance of [Converter] for the second half of _nl_find_msg (Convert): each entry of the pool
    has its conversions, all share the memory for converted strings and the cached
    character set.  The laws are those of [find_msg_converted].  At the end, the driver delivers an
    ISO-8859-1 catalog in UTF-8. *)

From S2P Require Import Prelude HashString PluralExp PluralParse PluralExtract Catalog CatalogSpec CatalogFind CatalogLoad.
From S2P Require Import Convert Converter ConvertSpec ConvertTheorems.

Open Scope Z_scope.

(** ** The state and the operations *)

(** The static variables, and [conversions] of each entry. *)
Record iconv_state `{IConv} := IconvState {
  is_convs : gmap nat (list converted_domain);
  is_mem : trans_mem;
  is_charset : output_charset
}.
Arguments IconvState {_}.

(** A pointer into the catalog, or to a converted string. *)
Inductive iconv_text := CatalogText (p : sptr) | ConvertedText (p : pointer).

Section Iconv.
Context `{IConv} (mal : nat -> bool) (garbage : nat -> nat -> Z).

Definition iconv_start : iconv_state := IconvState ∅ (TransMem None 0 ∅ 0 0) (OutputCharset false None).

Definition convs_of (s : iconv_state) (i : nat) : list converted_domain := default [] (is_convs s !! i).

(** Whether [get_output_charset] copies the value of OUTPUT_CHARSET. *)
Definition copies_value (ce : charset_env) (codeset : option cstr) (oc : output_charset) : bool :=
  match codeset, ce_OUTPUT_CHARSET ce with
  | None, Some (_ :: _) => negb (output_charset_cached oc)
  | _, _ => false
  end.

Definition charset_for (ce : charset_env) (codeset : option cstr) (s : iconv_state) : cstr * iconv_state :=
  let m := is_mem s in
  let '(encoding, oc) :=
    get_output_charset codeset (ce_OUTPUT_CHARSET ce) (ce_locale_charset ce) (mal (tm_allocs m)) (is_charset s) in
  (encoding, IconvState (is_convs s) (if copies_value ce codeset (is_charset s) then allocated m else m) oc).

(** The character set is only asked for when the message is found. *)
Definition find_text_iconv (ce : charset_env) (codeset : option cstr) (i : nat) (d : loaded_domain) (msgid : cstr)
    (s : iconv_state) : load (lookup (iconv_text * Z) * iconv_state) :=
  act ← find_act d msgid;
  match act with
  | None => Ret (Missing, s)
  | Some _ =>
      let '(encoding, s) := charset_for ce codeset s in
      '(r, convs, m) ← find_msg_converted mal garbage d encoding msgid (convs_of s i) (is_mem s);
      Ret (match r with
           | NotFound => Missing
           | NoMemory => NoResources
           | InCatalog p len => Here (CatalogText p, len)
           | InConverted p len => Here (ConvertedText p, len)
           end, IconvState (<[i := convs]> (is_convs s)) m (is_charset s))
  end.

Definition iconv_text_bytes (s : iconv_state) (d : loaded_domain) (t : iconv_text) (len : Z) : load (list Z) :=
  match t with
  | CatalogText p => bytes_of d p len
  | ConvertedText p => read_at p len (is_mem s)
  end.

Definition iconv_converter : Converter := {|
  cstate := iconv_state;
  text := iconv_text;
  cstate_init := iconv_start;
  find_text := find_text_iconv;
  text_bytes := iconv_text_bytes
|}.
End Iconv.

(** ** The laws *)

Section Laws.
Context `{ICL : IConvLaws} (mal : nat -> bool) (garbage : nat -> nat -> Z).

(** The translation of a message in an encoding, by the meaning of the descriptor. *)
Definition converted_text (d : loaded_domain) (encoding msgid : cstr) : option (list Z) :=
  match find_act d msgid with
  | Ret (Some act) =>
      match translation d act with
      | Ret (p, len) =>
          match bytes_of d p len, open_conversion d encoding with
          | Ret input, Ret None => Some input
          | Ret input, Ret (Some cd) => iconv_meaning cd input
          | _, _ => None
          end
      | _ => None
      end
  | _ => None
  end.

(** Lookups stay inside the catalog, and converted texts are shorter than 2 GB. *)
Record iconv_convertible (d : loaded_domain) : Prop := IconvConvertible {
  ic_readable : readable d;
  ic_length : forall msgid p len, wf_cstr msgid -> find_msg d msgid = Ret (Some (p, len)) -> 0 <= len;
  ic_fits : forall encoding, wf_cstr encoding -> fits d encoding
}.

Record iconv_ok (f : nat -> option loaded_domain) (s : iconv_state) : Prop := IconvOk {
  io_mem : mem_ok (is_mem s);
  io_convs : forall i, match f i with Some d => convs_ok mal d (is_mem s) (convs_of s i) | None => convs_of s i = [] end;
  io_charset : wf_cstr (default [] (output_charset_cache (is_charset s)))
}.

(** What is stored stays stored. *)
Definition iconv_later (s s' : iconv_state) : Prop := keeps (is_mem s) (is_mem s').

Definition iconv_shows (s : iconv_state) (d : loaded_domain) (t : iconv_text) (bytes : list Z) : Prop :=
  match t with
  | CatalogText p => bytes_of d p (Z.of_nat (length bytes)) = Ret bytes
  | ConvertedText p => stored (is_mem s) (p.1, p.2 - 8) bytes
  end.

Definition iconv_encoding (ce : charset_env) (codeset : option cstr) (s : iconv_state) : cstr :=
  (charset_for mal ce codeset s).1.

(** The character set is well formed, and asking for it changes nothing that can be seen. *)
Lemma charset_for_ok f ce codeset s : iconv_ok f s -> wf_cstr (default [] (ce_OUTPUT_CHARSET ce)) ->
  let '(encoding, s') := charset_for mal ce codeset s in
  iconv_ok f s' /\ iconv_later s s' /\ is_convs s' = is_convs s /\
  (forall s2, is_charset s2 = is_charset s' -> iconv_encoding ce codeset s2 = encoding).
Proof using Type.
  intros [O1 O2 O3] Hv. unfold charset_for.
  set (m' := if copies_value ce codeset (is_charset s) then allocated (is_mem s) else is_mem s).
  assert (Hm : mem_ok m' /\ keeps (is_mem s) m').
  { unfold m'. destruct (copies_value _ _ _); [by apply same_memory|by split; [|apply keeps_refl]]. }
  destruct Hm as [Hm Hk].
  assert (Hok : forall oc, wf_cstr (default [] (output_charset_cache oc)) -> iconv_ok f (IconvState (is_convs s) m' oc)).
  { intros oc Hoc. split; [done| |done]. intros i. specialize (O2 i). change (convs_of _ i) with (convs_of s i).
    destruct (f i) as [d|]; [|done]. by eapply convs_ok_keeps. }
  unfold iconv_encoding, charset_for, get_output_charset. destruct codeset as [c|].
  { split_and!; [by apply Hok|exact Hk|done|done]. }
  destruct (output_charset_cached (is_charset s)) eqn:Ec.
  - split_and!; [by apply Hok|exact Hk|done|]. intros s2 E2. cbn [is_charset] in E2. by rewrite E2, Ec.
  - split_and!; [|exact Hk|done|].
    + apply Hok. cbn. destruct (ce_OUTPUT_CHARSET ce) as [[|x v]|]; [done| |done]. destruct (mal _); [done|by apply Forall_nil_2].
    + intros s2 E2. cbn [is_charset] in E2. by rewrite E2.
Qed.

Lemma converted_text_found d encoding msgid act o p len input :
  find_act d msgid = Ret (Some act) -> raw d act p len input -> open_conversion d encoding = Ret o ->
  converted_text d encoding msgid = match o with None => Some input | Some cd => iconv_meaning cd input end.
Proof using Type. intros Ea [Et Eb] Eo. unfold converted_text. rewrite Ea, Et, Eb, Eo. by destruct o. Qed.

Lemma find_text_iconv_ok f ce codeset i d msgid s :
  iconv_ok f s -> f i = Some d -> iconv_convertible d -> wf_cstr msgid -> wf_cstr (iconv_encoding ce codeset s) ->
  wf_cstr (default [] (ce_OUTPUT_CHARSET ce)) ->
  exists r s', find_text_iconv mal garbage ce codeset i d msgid s = Ret (r, s') /\ iconv_ok f s' /\ iconv_later s s' /\
    iconv_encoding ce codeset s' = iconv_encoding ce codeset s /\
    match r with
    | Missing => converted_text d (iconv_encoding ce codeset s) msgid = None
    | NoResources => failed mal
    | Here (t, len) => exists bytes, converted_text d (iconv_encoding ce codeset s) msgid = Some bytes /\
        len = Z.of_nat (length bytes) /\ iconv_shows s' d t bytes
    end.
Proof using ICL.
  intros Hok Hf [Hrd Hlen Hfits] Hm Hwe Hv. unfold find_text_iconv.
  destruct (rd_find d Hrd msgid Hm) as (o & Ea & Hact). rewrite Ea. cbn [mbind load_bind]. destruct o as [act|]; cycle 1.
  { exists Missing, s. split_and!; [done|done|apply keeps_refl|done|]. unfold converted_text. by rewrite Ea. }
  pose proof (charset_for_ok f ce codeset s Hok Hv) as Hcs. fold (iconv_encoding ce codeset s) in *.
  unfold iconv_encoding in Hwe |- *. destruct (charset_for mal ce codeset s) as [encoding s1] eqn:Es. cbn [fst] in Hwe |- *.
  destruct Hcs as (Hok1 & Hk1 & Econvs & Hsame). pose proof Hok1 as [O1 O2 O3].
  pose proof (O2 i) as Hci. rewrite Hf in Hci.
  destruct (find_msg_converted_ok mal garbage d encoding msgid (convs_of s1 i) (is_mem s1) Hrd O1 Hci (Hfits _ Hwe) Hwe Hm)
    as (r & convs & m & E & Hm' & Hk & Hcs & (o & Ea' & Hr) & _).
  rewrite E. cbn [mbind load_bind]. rewrite Ea in Ea'. injection Ea' as <-. eexists _, _. split; [done|].
  split_and!.
  - split; [done| |done]. intros j. unfold convs_of. cbn [is_convs is_mem]. destruct (decide (j = i)) as [->|Hne].
    + by rewrite Hf, lookup_insert_eq.
    + rewrite lookup_insert_ne by done. specialize (O2 j). fold (convs_of s1 j). destruct (f j); [|done]. by eapply convs_ok_keeps.
  - exact (keeps_trans _ _ _ Hk1 Hk).
  - by apply Hsame.
  - destruct (Hact act eq_refl) as (_ & _ & p0 & len0 & input0 & Hraw0).
    destruct Hr as [[-> Hfail]|(p & len & input & o & Hraw & Eo & Hr)]; [done|].
    pose proof (converted_text_found d encoding msgid act o p len input Ea Hraw Eo) as Ex. destruct o as [cd|].
    + destruct (iconv_meaning cd input) as [out|]; [|by subst r]. destruct Hr as (q & -> & Hst & _).
      exists out. split_and!; [done..|]. cbn. replace (q.2 + 8 - 8) with q.2 by lia. by destruct q.
    + subst r. exists input. split; [done|]. destruct Hraw as [Et Eb].
      assert (H0 : 0 <= len) by (apply (Hlen msgid p len Hm); unfold find_msg; rewrite Ea; cbn [mbind load_bind]; by rewrite Et).
      pose proof (bytes_of_length d p len input H0 Eb) as El. split; [done|]. cbn. by rewrite <- El.
Qed.

#[refine] Definition iconv_converter_laws : @ConverterLaws (iconv_converter mal garbage) := {|
  encoding_of := iconv_encoding : charset_env -> option cstr -> @cstate (iconv_converter mal garbage) -> cstr;
  expected := converted_text;
  convertible := iconv_convertible;
  conversion_failed := failed mal;
  cstate_ok := iconv_ok : _ -> @cstate (iconv_converter mal garbage) -> Prop;
  cstate_later := iconv_later : @cstate (iconv_converter mal garbage) -> @cstate (iconv_converter mal garbage) -> Prop;
  shows := iconv_shows : @cstate (iconv_converter mal garbage) -> _ -> @text (iconv_converter mal garbage) -> _ -> Prop
|}.
Proof.
  - intros s. apply keeps_refl.
  - intros s1 s2 s3. apply keeps_trans.
  - intros f. split; [| |by apply Forall_nil_2].
    + split; [|done]. intros b l E. cbn in E. by rewrite lookup_empty in E.
    + intros i. unfold convs_of. cbn. rewrite lookup_empty. cbn. destruct (f i); [by apply Forall_nil_2|done].
  - intros f f' s Hff [O1 O2 O3]. split; [done| |done]. intros i. specialize (O2 i). specialize (Hff i).
    destruct (f i) as [d|]; [by rewrite (Hff d)|]. rewrite O2. destruct (f' i); [by apply Forall_nil_2|done].
  - intros s s' d [p|p] bytes Hl Hs; [done|]. by apply Hl.
  - intros s d [p|p] bytes Hs; [done|]. cbn in Hs |- *. apply read_stored in Hs. cbn in Hs.
    replace (p.2 - 8 + 8) with p.2 in Hs by lia. by destruct p.
  - intros f ce codeset s [O1 O2 O3] Hc Hv Hl. unfold iconv_encoding, charset_for, get_output_charset.
    destruct codeset as [c|]; [done|]. cbn [fst]. destruct (output_charset_cached _).
    + by destruct (output_charset_cache _).
    + cbn. destruct (ce_OUTPUT_CHARSET ce) as [[|x v]|]; [by destruct (output_charset_cache _)| |by destruct (output_charset_cache _)].
      by destruct (mal _).
  - intros. by apply find_text_iconv_ok with (f := f).
Defined.
End Laws.
