(* ===== verification/Bindings.v ===== *)
(** * Domain bindings: bindtextdom.c and textdomain.c

    [set_binding_values] maintains the list of bindings of message domains to
    directories and output codesets, sorted by domain name; [TEXTDOMAIN] the
    current default domain.  Both count changes in [_nl_msg_cat_cntr].  The model
    also counts the blocks of memory that are in use: [live] goes up with every
    successful allocation and down with every free().  [mal k] tells whether the
    [k]-th allocation succeeds. *)

From Stdlib Require Import Sorted.
From S2P Require Import Prelude.

Open Scope Z_scope.

(** ** Data *)

(** A directory name: the default one, which is static, or allocated. *)
Inductive dirptr := DefaultDir | OwnDir (s : cstr).

(** [struct binding]. *)
Record binding := Binding {
  domainname : cstr;
  dirname : dirptr;
  codeset : option cstr
}.

(** The current default domain: [_nl_default_default_domain] or allocated. *)
Inductive domptr := DefaultDomain | OwnDomain (s : cstr).

Record state := State {
  bindings : list binding;
  current_domain : domptr;
  msg_cat_cntr : Z;
  live : Z;
  n_allocs : nat
}.

Section Bindings.
Context (_nl_default_dirname : cstr) (mal : nat -> bool).

Definition dir_str (d : dirptr) : cstr :=
  match d with DefaultDir => _nl_default_dirname | OwnDir s => s end.

(** strdup() or malloc(): whether it succeeds, and the new state. *)
Definition alloc (st : state) : bool * state :=
  let ok := mal (n_allocs st) in
  (ok, State (bindings st) (current_domain st) (msg_cat_cntr st)
         (if ok then live st + 1 else live st) (S (n_allocs st))).

Definition free_blocks (n : Z) (st : state) : state :=
  State (bindings st) (current_domain st) (msg_cat_cntr st) (live st - n) (n_allocs st).

Definition set_bindings (l : list binding) (st : state) : state :=
  State l (current_domain st) (msg_cat_cntr st) (live st) (n_allocs st).

(** [++_nl_msg_cat_cntr], if [modified]. *)
Definition flush (modified : bool) (st : state) : state :=
  if modified then
    State (bindings st) (current_domain st) (msg_cat_cntr st + 1) (live st) (n_allocs st)
  else st.

(** The search of the sorted list. *)
Fixpoint find_binding (l : list binding) (name : cstr) : option binding :=
  match l with
  | [] => None
  | b :: l =>
      let compare := strcmp name (domainname b) in
      if compare =? 0 then Some b
      else if compare <? 0 then None
      else find_binding l name
  end.

(** A field of the binding that was found is assigned. *)
Fixpoint update_binding (l : list binding) (name : cstr) (f : binding -> binding) : list binding :=
  match l with
  | [] => []
  | b :: l =>
      if strcmp name (domainname b) =? 0 then f b :: l else b :: update_binding l name f
  end.

Fixpoint enqueue_after (l : list binding) (b : binding) : list binding :=
  match l with
  | [] => [b]
  | c :: l' =>
      if 0 <? strcmp (domainname b) (domainname c) then c :: enqueue_after l' b else b :: l
  end.

Definition enqueue (l : list binding) (b : binding) : list binding :=
  match l with
  | [] => [b]
  | c :: l' =>
      if strcmp (domainname b) (domainname c) <? 0 then b :: l else c :: enqueue_after l' b
  end.

Definition set_dirname (d : dirptr) (b : binding) : binding := Binding (domainname b) d (codeset b).
Definition set_codeset (c : cstr) (b : binding) : binding := Binding (domainname b) (dirname b) (Some c).

Definition owned_dir (d : dirptr) : Z := match d with DefaultDir => 0 | OwnDir _ => 1 end.
Definition owned_codeset (c : option cstr) : Z := match c with None => 0 | Some _ => 1 end.

(** The directory part for a binding that exists: [*dirnamep], [modified]. *)
Definition change_dirname (st : state) (b : binding) (dirnamep : option (option cstr))
    : option (option cstr) * bool * state :=
  match dirnamep with
  | None => (None, false, st)
  | Some None => (Some (Some (dir_str (dirname b))), false, st)
  | Some (Some dir) =>
      if negb (strcmp dir (dir_str (dirname b)) =? 0) then
        let '(result, st) :=
          if strcmp dir _nl_default_dirname =? 0 then (Some DefaultDir, st)
          else let '(ok, st) := alloc st in (if ok then Some (OwnDir dir) else None, st) in
        match result with
        | Some r =>
            let st := free_blocks (owned_dir (dirname b)) st in
            (Some (Some (dir_str r)), true,
             set_bindings (update_binding (bindings st) (domainname b) (set_dirname r)) st)
        | None => (Some None, false, st)
        end
      else (Some (Some (dir_str (dirname b))), false, st)
  end.

(** The codeset part. *)
Definition change_codeset (st : state) (b : binding) (codesetp : option (option cstr))
    : option (option cstr) * bool * state :=
  match codesetp with
  | None => (None, false, st)
  | Some None => (Some (codeset b), false, st)
  | Some (Some cod) =>
      if match codeset b with None => true | Some r => negb (strcmp cod r =? 0) end then
        let '(ok, st) := alloc st in
        if (ok : bool) then
          let st := free_blocks (owned_codeset (codeset b)) st in
          (Some (Some cod), true,
           set_bindings (update_binding (bindings st) (domainname b) (set_codeset cod)) st)
        else (Some None, false, st)
      else (Some (codeset b), false, st)
  end.

(** [failed]: both results are set to NULL. *)
Definition failed (dirnamep codesetp : option (option cstr)) (st : state)
    : option (option cstr) * option (option cstr) * state :=
  ((fun _ => None) <$> dirnamep, (fun _ => None) <$> codesetp, st).

(** A new binding. *)
Definition new_binding (st : state) (name : cstr) (dirnamep codesetp : option (option cstr))
    : option (option cstr) * option (option cstr) * state :=
  let '(ok, st) := alloc st in
  if negb ok then failed dirnamep codesetp st
  else
    let '(dir, st) :=
      match dirnamep with
      | Some (Some dir) =>
          if strcmp dir _nl_default_dirname =? 0 then (Some DefaultDir, st)
          else let '(ok, st) := alloc st in (if ok then Some (OwnDir dir) else None, st)
      | _ => (Some DefaultDir, st)
      end in
    match dir with
    | None => failed dirnamep codesetp (free_blocks 1 st)
    | Some dir =>
        let '(cod, st) :=
          match codesetp with
          | Some (Some cod) =>
              let '(ok, st) := alloc st in (if ok then Some (Some cod) else None, st)
          | _ => (Some None, st)
          end in
        match cod with
        | None => failed dirnamep codesetp (free_blocks (owned_dir dir + 1) st)
        | Some cod =>
            ((fun _ => Some (dir_str dir)) <$> dirnamep, (fun _ => cod) <$> codesetp,
             flush true (set_bindings (enqueue (bindings st) (Binding name dir cod)) st))
        end
    end.

(** [set_binding_values (domainname, dirnamep, codesetp)]: the new [*dirnamep]
    and [*codesetp] ([None] where the pointer itself is null). *)
Definition set_binding_values (st : state) (name : option cstr) (dirnamep codesetp : option (option cstr))
    : option (option cstr) * option (option cstr) * state :=
  match name with
  | None | Some [] => failed dirnamep codesetp st
  | Some name =>
      match find_binding (bindings st) name with
      | Some b =>
          let '(dir, m1, st) := change_dirname st b dirnamep in
          (* the binding as it is after the first part *)
          let b := default b (find_binding (bindings st) name) in
          let '(cod, m2, st) := change_codeset st b codesetp in
          (dir, cod, flush (m1 || m2) st)
      | None =>
          match dirnamep, codesetp with
          | (None | Some None), (None | Some None) =>
              ((fun _ => Some _nl_default_dirname) <$> dirnamep, (fun _ => None) <$> codesetp, st)
          | _, _ => new_binding st name dirnamep codesetp
          end
      end
  end.

Definition BINDTEXTDOMAIN (st : state) (name dir : option cstr) : option cstr * state :=
  let '(d, _, st) := set_binding_values st name (Some dir) None in (default None d, st).

Definition BIND_TEXTDOMAIN_CODESET (st : state) (name cod : option cstr) : option cstr * state :=
  let '(_, c, st) := set_binding_values st name None (Some cod) in (default None c, st).

(** ** textdomain *)

Definition _nl_default_default_domain : cstr := cs "messages".
Definition dom_str (d : domptr) : cstr :=
  match d with DefaultDomain => _nl_default_default_domain | OwnDomain s => s end.
Definition owned_domain (d : domptr) : Z := match d with DefaultDomain => 0 | OwnDomain _ => 1 end.

Definition set_current (d : domptr) (st : state) : state :=
  State (bindings st) d (msg_cat_cntr st) (live st) (n_allocs st).

Definition TEXTDOMAIN (st : state) (name : option cstr) : option cstr * state :=
  match name with
  | None => (Some (dom_str (current_domain st)), st)
  | Some name =>
      let old_domain := current_domain st in
      if bool_decide (name = []) || (strcmp name _nl_default_default_domain =? 0) then
        (* [old_domain] is freed if it was allocated *)
        (Some _nl_default_default_domain,
         free_blocks (owned_domain old_domain) (flush true (set_current DefaultDomain st)))
      else if strcmp name (dom_str old_domain) =? 0 then
        (Some (dom_str old_domain), flush true st)
      else
        let '(ok, st) := alloc st in
        if negb ok then (None, st)
        else
          (Some name, free_blocks (owned_domain old_domain) (flush true (set_current (OwnDomain name) st)))
  end.
End Bindings.
