(* ===== verification/BindingsSpec.v ===== *)
(** * What the binding functions promise

    The list of bindings is a finite map from domain names, kept sorted; every
    operation changes the entry it is asked to change and no other, counts the
    change, and neither leaks memory nor frees a block twice, also when an
    allocation fails. *)

From Stdlib Require Import Sorted.
From S2P Require Import Prelude Bindings.

Open Scope Z_scope.

(** ** Sorted lists of bindings *)

Definition before (b c : binding) : Prop := strcmp (domainname b) (domainname c) < 0.

Record list_ok (l : list binding) : Prop := ListOk {
  lok_sorted : StronglySorted before l;
  lok_names : Forall (fun b => wf_cstr (domainname b)) l
}.

Lemma list_ok_cons b l :
  list_ok (b :: l) <-> wf_cstr (domainname b) /\ list_ok l /\ Forall (before b) l.
Proof.
  split.
  - intros [Hs Hn]. apply StronglySorted_inv in Hs as [Hs Hb]. apply Forall_cons in Hn as [Hw Hn].
    by repeat split.
  - intros (Hw & [Hs Hn] & Hb). split; [by constructor|by apply Forall_cons_2].
Qed.

(** The search in the sorted list stops early but misses nothing. *)
Lemma find_binding_Some l name b :
  list_ok l -> wf_cstr name -> find_binding l name = Some b -> b ∈ l /\ domainname b = name.
Proof.
  intros Hl Hn. induction l as [|c l IH]; [done|]. apply list_ok_cons in Hl as (Hw & Hl & Hb).
  cbn [find_binding]. case_if.
  - intros [= <-]. split; [apply list_elem_of_here|]. symmetry. by apply strcmp_eq.
  - case_if; [done|]. intros H. destruct (IH Hl H) as [? ?]. split; [by apply list_elem_of_further|done].
Qed.

Lemma before_all l b c :
  list_ok (c :: l) -> wf_cstr b -> strcmp b (domainname c) < 0 -> Forall (fun d => strcmp b (domainname d) < 0) (c :: l).
Proof.
  intros (Hw & [_ Hn] & Hb)%list_ok_cons Hb' Hlt. apply Forall_cons_2; [done|].
  rewrite Forall_forall in Hb, Hn |- *. intros d Hd. apply (strcmp_trans _ (domainname c)); auto.
  by apply Hb.
Qed.

Lemma find_binding_None l name :
  list_ok l -> wf_cstr name -> find_binding l name = None -> Forall (fun b => domainname b <> name) l.
Proof.
  intros Hl Hn. induction l as [|c l IH]; [intros _; by apply Forall_nil_2|].
  pose proof Hl as Hl'. apply list_ok_cons in Hl as (Hw & Hl & Hb). cbn [find_binding].
  case_if; [done|]. case_if; intros H.
  - eapply Forall_impl; [by eapply before_all|]. simpl. intros d Hd <-. rewrite strcmp_refl in Hd. lia.
  - apply Forall_cons_2; [|by apply IH]. intros <-. by rewrite strcmp_refl in Eif.
Qed.

Lemma list_ok_unique l b c :
  list_ok l -> b ∈ l -> c ∈ l -> domainname b = domainname c -> b = c.
Proof.
  intros Hl. induction l as [|d l IH]; intros Hb Hc E; [by apply not_elem_of_nil in Hb|].
  apply list_ok_cons in Hl as (Hw & Hl & Hd). rewrite Forall_forall in Hd.
  apply elem_of_cons in Hb as [->|Hb]; apply elem_of_cons in Hc as [->|Hc]; auto; exfalso.
  - apply Hd in Hc. unfold before in Hc. rewrite E, strcmp_refl in Hc. lia.
  - apply Hd in Hb. unfold before in Hb. rewrite E, strcmp_refl in Hb. lia.
Qed.

Lemma find_binding_iff l name b :
  list_ok l -> wf_cstr name -> find_binding l name = Some b <-> b ∈ l /\ domainname b = name.
Proof.
  intros Hl Hn. split; [by apply find_binding_Some|]. intros [Hb E].
  destruct (find_binding l name) as [c|] eqn:Ef.
  - apply find_binding_Some in Ef as [Hc Ec]; [|done..]. f_equal. by apply (list_ok_unique l); [..|congruence].
  - apply find_binding_None in Ef; [|done..]. rewrite Forall_forall in Ef. by apply Ef in Hb.
Qed.

Section Update.
Context (name : cstr) (f : binding -> binding) (Hname : wf_cstr name).
Context (Hf : forall b, domainname (f b) = domainname b).

Lemma update_names l : domainname <$> update_binding l name f = domainname <$> l.
Proof using Hf.
  induction l as [|b l IH]; [done|]. cbn [update_binding].
  case_if; rewrite !fmap_cons; [by rewrite Hf|by rewrite IH].
Qed.

Lemma names_ok l l' : domainname <$> l' = domainname <$> l -> list_ok l -> list_ok l'.
Proof using Type.
  revert l'. induction l as [|b l IH]; intros [|b' l'] E; try done. simpl in E. injection E as Eb El.
  rewrite !list_ok_cons. intros (Hw & Hl & Hb). rewrite Eb. split_and!; [done|by apply IH|].
  clear IH Hl. revert l' El Hb. induction l as [|c l IH]; intros [|c' l'] El; try done; simpl in El.
  intros [Hc Hb]%Forall_cons. injection El as Ec El. apply Forall_cons_2; [|by apply IH].
  unfold before in *. by rewrite Eb, Ec.
Qed.

Lemma update_ok l : list_ok l -> list_ok (update_binding l name f).
Proof using Hf. apply names_ok, update_names. Qed.

Lemma update_middle l b :
  list_ok l -> find_binding l name = Some b ->
  exists l1 l2, l = l1 ++ b :: l2 /\ update_binding l name f = l1 ++ f b :: l2.
Proof using Hname.
  induction l as [|c l IH]; intros Hl H; [done|]. apply list_ok_cons in Hl as (Hw & Hl & _).
  cbn [find_binding update_binding] in *. case_if_in H.
  - injection H as ->. by exists [], l.
  - case_if_in H; [done|]. destruct (IH Hl H) as (l1 & l2 & -> & ->). by exists (c :: l1), l2.
Qed.

Lemma find_update l b name' :
  list_ok l -> wf_cstr name' -> find_binding l name = Some b ->
  find_binding (update_binding l name f) name' =
  if decide (name' = name) then Some (f b) else find_binding l name'.
Proof using Hf Hname.
  intros Hl Hw' Hb. pose proof (update_ok l Hl) as Hu.
  destruct (update_middle l b Hl Hb) as (l1 & l2 & E & Eu).
  apply find_binding_Some in Hb as [Hin Hd]; [|done..].
  case_decide as Hn.
  - subst name'. apply find_binding_iff; [done..|]. rewrite Hf, Hd, Eu. split; [|done].
    apply elem_of_app. right. apply list_elem_of_here.
  - apply option_eq. intros x. rewrite !find_binding_iff by done. rewrite Eu, E, !elem_of_app, !elem_of_cons.
    split; intros [Hx Ex]; (split; [|done]); destruct Hx as [?|[->|?]]; auto; exfalso;
      rewrite ?Hf in Ex; congruence.
Qed.
End Update.

(** The new binding goes between the smaller and the greater names. *)
Lemma enqueue_after_split l b :
  list_ok l -> wf_cstr (domainname b) -> Forall (fun d => domainname d <> domainname b) l ->
  exists l1 l2, l = l1 ++ l2 /\ enqueue_after l b = l1 ++ b :: l2 /\
    Forall (fun d => before d b) l1 /\ Forall (before b) l2.
Proof.
  intros Hl Hw. induction l as [|e l IH]; intros Hne; cbn [enqueue_after].
  - exists [], []. by split_and!; try apply Forall_nil_2.
  - pose proof Hl as Hl'. apply list_ok_cons in Hl as (Hwe & Hl & He). apply Forall_cons in Hne as [Hne' Hne].
    destruct (Z.ltb_spec 0 (strcmp (domainname b) (domainname e))) as [Hlt|Hge].
    + destruct (IH Hl Hne) as (l1 & l2 & -> & -> & H1 & H2). exists (e :: l1), l2.
      split_and!; try done. apply Forall_cons_2; [|done]. unfold before. rewrite strcmp_sym. lia.
    + exists [], (e :: l). split_and!; [done|done|by apply Forall_nil_2|].
      apply (before_all l (domainname b) e); [done..|].
      assert (strcmp (domainname b) (domainname e) <> 0); [|lia].
      intros E. apply strcmp_eq in E; [|done..]. congruence.
Qed.

Lemma enqueue_split l b :
  list_ok l -> wf_cstr (domainname b) -> Forall (fun d => domainname d <> domainname b) l ->
  exists l1 l2, l = l1 ++ l2 /\ enqueue l b = l1 ++ b :: l2 /\
    Forall (fun d => before d b) l1 /\ Forall (before b) l2.
Proof.
  intros Hl Hw Hne. destruct l as [|e l]; cbn [enqueue].
  - exists [], []. by split_and!; try apply Forall_nil_2.
  - destruct (Z.ltb_spec (strcmp (domainname b) (domainname e)) 0) as [Hlt|Hge].
    + exists [], (e :: l). split_and!; [done|done|by apply Forall_nil_2|]. by apply before_all.
    + pose proof (enqueue_after_split (e :: l) b Hl Hw Hne) as H. cbn [enqueue_after] in H.
      rewrite (proj2 (Z.ltb_lt 0 _)) in H; [done|].
      assert (strcmp (domainname b) (domainname e) <> 0); [|lia].
      apply list_ok_cons in Hl as (? & _). apply Forall_cons in Hne as [? _].
      intros E. apply strcmp_eq in E; [|done..]. congruence.
Qed.

Lemma list_ok_insert l1 b l2 :
  list_ok (l1 ++ l2) -> wf_cstr (domainname b) -> Forall (fun d => before d b) l1 -> Forall (before b) l2 ->
  list_ok (l1 ++ b :: l2).
Proof.
  intros Hl Hw H1 H2. induction l1 as [|c l1 IH]; simpl in *; [by apply list_ok_cons|].
  apply list_ok_cons in Hl as (Hwc & Hl & Hc). apply Forall_cons in H1 as [Hcb H1].
  apply list_ok_cons. split_and!; [done|by apply IH|]. apply Forall_app in Hc as [Hc1 Hc2].
  apply Forall_app. split; [done|]. by apply Forall_cons_2.
Qed.

Lemma enqueue_ok l b :
  list_ok l -> wf_cstr (domainname b) -> find_binding l (domainname b) = None ->
  list_ok (enqueue l b) /\
  forall name', wf_cstr name' -> find_binding (enqueue l b) name' =
    if decide (name' = domainname b) then Some b else find_binding l name'.
Proof.
  intros Hl Hw Hn. apply find_binding_None in Hn as Hne; [|done..].
  destruct (enqueue_split l b Hl Hw Hne) as (l1 & l2 & -> & -> & H1 & H2).
  pose proof (list_ok_insert l1 b l2 Hl Hw H1 H2) as Hi. split; [done|].
  intros name' Hw'. case_decide as Hd.
  - apply find_binding_iff; [done..|]. split; [|done]. apply elem_of_app. right. apply list_elem_of_here.
  - apply option_eq. intros x. rewrite !find_binding_iff by done. rewrite !elem_of_app, elem_of_cons.
    split; intros [Hx Ex]; (split; [|done]); [|tauto].
    destruct Hx as [?|[->|?]]; [by left| |by right]. congruence.
Qed.

(** ** States *)

Definition block_count (b : binding) : Z := 1 + owned_dir (dirname b) + owned_codeset (codeset b).
Definition owned (l : list binding) : Z := foldr (fun b n => block_count b + n) 0 l.

Lemma owned_app l1 l2 : owned (l1 ++ l2) = owned l1 + owned l2.
Proof. unfold owned. induction l1 as [|b l1 IH]; simpl; [done|]. rewrite IH. lia. Qed.

Lemma owned_middle l1 b l2 : owned (l1 ++ b :: l2) = owned (l1 ++ l2) + block_count b.
Proof. rewrite !owned_app. simpl. lia. Qed.

Section Spec.
Context (_nl_default_dirname : cstr) (mal : nat -> bool) (Hdef : wf_cstr _nl_default_dirname).
Abbreviation dir_str := (dir_str _nl_default_dirname).

Definition binding_wf (b : binding) : Prop :=
  wf_cstr (dir_str (dirname b)) /\ wf_cstr (default [] (codeset b)).

(** The list is sorted, its strings are well formed, and exactly the blocks it
    refers to, and the current domain, are allocated. *)
Record ok (st : state) : Prop := Ok {
  ok_list : list_ok (bindings st);
  ok_wf : Forall binding_wf (bindings st);
  ok_live : live st = owned (bindings st) + owned_domain (current_domain st)
}.

(** What a domain is bound to. *)
Definition bound (st : state) (name : cstr) : option (cstr * option cstr) :=
  (fun b => (dir_str (dirname b), codeset b)) <$> find_binding (bindings st) name.

(** Nothing but the binding of [name] is different in [st'], whose value is [v]; the
    counter says whether it was changed. *)
Record rebinds (st st' : state) (name : cstr) (v : option (cstr * option cstr)) : Prop := Rebinds {
  reb_ok : ok st';
  reb_bound : bound st' name = v;
  reb_other : forall name', wf_cstr name' -> name' <> name -> bound st' name' = bound st name';
  reb_domain : current_domain st' = current_domain st;
  reb_cntr : msg_cat_cntr st' = msg_cat_cntr st + (if decide (v = bound st name) then 0 else 1)
}.

Lemma rebinds_same st st' name :
  ok st -> bindings st' = bindings st -> current_domain st' = current_domain st ->
  msg_cat_cntr st' = msg_cat_cntr st -> live st' = live st -> rebinds st st' name (bound st name).
Proof using Type.
  intros [H1 H2 H3] Eb Ed Ec El. split; unfold bound; rewrite ?Eb; try done.
  - split; congruence.
  - rewrite decide_True by done. lia.
Qed.

Lemma binding_wf_find st name b : ok st -> wf_cstr name -> find_binding (bindings st) name = Some b -> binding_wf b.
Proof using Type.
  intros [H1 H2 H3] Hw Hf. apply find_binding_Some in Hf as [Hin _]; [|done..].
  rewrite Forall_forall in H2. auto.
Qed.

(** A field of a binding is replaced; [d] blocks more are in use. *)
Lemma rebinds_update st st' name b f :
  ok st -> wf_cstr name -> find_binding (bindings st) name = Some b ->
  (forall b, domainname (f b) = domainname b) -> binding_wf (f b) ->
  bindings st' = update_binding (bindings st) name f -> current_domain st' = current_domain st ->
  msg_cat_cntr st' = msg_cat_cntr st + 1 ->
  live st' = live st + block_count (f b) - block_count b ->
  (dir_str (dirname (f b)), codeset (f b)) <> (dir_str (dirname b), codeset b) ->
  rebinds st st' name (Some (dir_str (dirname (f b)), codeset (f b))).
Proof using Type.
  intros [H1 H2 H3] Hw Hf Hfd Hwf Eb Ed Ec El Hne.
  pose proof (find_update name f Hw Hfd (bindings st) b) as Hfu.
  destruct (update_middle name f Hw (bindings st) b H1 Hf) as (l1 & l2 & E1 & E2).
  split.
  - split; rewrite Eb; [by apply update_ok|rewrite E2|].
    + rewrite E1 in H2. apply Forall_app in H2 as [? [_ ?]%Forall_cons]. apply Forall_app.
      split; [done|by apply Forall_cons_2].
    + rewrite El, H3, E2, E1, Ed, !owned_middle. lia.
  - unfold bound. rewrite Eb, Hfu by done. by rewrite decide_True.
  - intros name' Hw' Hn. unfold bound. rewrite Eb, Hfu by done. by rewrite decide_False.
  - done.
  - rewrite Ec. f_equal. unfold bound. rewrite Hf. rewrite decide_False; [done|]. simpl. congruence.
Qed.

Lemma rebinds_new st st' b :
  ok st -> wf_cstr (domainname b) -> find_binding (bindings st) (domainname b) = None -> binding_wf b ->
  bindings st' = enqueue (bindings st) b -> current_domain st' = current_domain st ->
  msg_cat_cntr st' = msg_cat_cntr st + 1 -> live st' = live st + block_count b ->
  rebinds st st' (domainname b) (Some (dir_str (dirname b), codeset b)).
Proof using Type.
  intros [H1 H2 H3] Hw Hf Hwf Eb Ed Ec El. destruct (enqueue_ok _ b H1 Hw Hf) as [Hok Hfind].
  apply find_binding_None in Hf as Hne; [|done..].
  destruct (enqueue_split _ b H1 Hw Hne) as (l1 & l2 & E1 & E2 & _).
  split.
  - split; rewrite Eb; [done|rewrite E2|].
    + rewrite E1 in H2. apply Forall_app in H2 as [? ?]. apply Forall_app. split; [done|by apply Forall_cons_2].
    + rewrite El, H3, E2, E1, Ed, owned_middle. lia.
  - unfold bound. rewrite Eb, Hfind by done. by rewrite decide_True.
  - intros name' Hw' Hn. unfold bound. rewrite Eb, Hfind by done. by rewrite decide_False.
  - done.
  - rewrite Ec. f_equal. unfold bound. rewrite Hf. by rewrite decide_False.
Qed.

(** The codeset a domain is bound to, and the directory. *)
Definition bound_codeset (st : state) (name : cstr) : option cstr := bound st name ≫= snd.
Definition bound_dir (st : state) (name : cstr) : cstr := default _nl_default_dirname (fst <$> bound st name).

Lemma bindtextdomain_spec st name dir :
  ok st -> wf_cstr name -> name <> [] -> wf_cstr dir ->
  let '(r, st') := BINDTEXTDOMAIN _nl_default_dirname mal st (Some name) (Some dir) in
  (r = Some dir /\ rebinds st st' name (Some (dir, bound_codeset st name))) \/
  (r = None /\ rebinds st st' name (bound st name) /\ exists k, mal k = false).
Proof using Hdef.
  intros Hok Hw Hne Hwd. unfold BINDTEXTDOMAIN, set_binding_values. destruct name as [|c name]; [done|].
  set (nm := c :: name) in *. clearbody nm. clear c name Hne.
  destruct (find_binding (bindings st) nm) as [b|] eqn:Ef.
  - pose proof (binding_wf_find _ _ _ Hok Hw Ef) as [Hwb Hwc].
    pose proof Ef as [Hin En]%find_binding_Some; [|apply Hok|done].
    unfold change_dirname, bound_codeset, bound. rewrite Ef. simpl.
    destruct (Z.eqb_spec (strcmp dir (dir_str (dirname b))) 0) as [E|E]; cbn [negb].
    { apply strcmp_eq in E as ->; [|done..]. simpl. left. split; [done|].
      pose proof (rebinds_same st st nm Hok eq_refl eq_refl eq_refl eq_refl) as H. unfold bound in H.
      by rewrite Ef in H. }
    assert (Hneq : dir <> dir_str (dirname b)) by (intros ->; by rewrite strcmp_refl in E).
    destruct (Z.eqb_spec (strcmp dir _nl_default_dirname) 0) as [E2|E2].
    + apply strcmp_eq in E2 as ->; [|done..]. left. split; [done|].
      apply (rebinds_update st _ nm b (set_dirname DefaultDir)); auto; simpl; try done.
      * by rewrite En.
      * unfold block_count. simpl. lia.
      * congruence.
    + unfold alloc. destruct (mal (n_allocs st)) eqn:Em; simpl.
      * left. split; [done|].
        apply (rebinds_update st _ nm b (set_dirname (OwnDir dir))); auto; simpl; try done.
        -- by rewrite En.
        -- unfold block_count. simpl. lia.
        -- congruence.
      * right. split_and!; [done| |by eexists].
        pose proof (rebinds_same st (State (bindings st) (current_domain st) (msg_cat_cntr st) (live st)
          (S (n_allocs st))) nm Hok eq_refl eq_refl eq_refl eq_refl) as H.
        unfold bound in H. by rewrite Ef in H.
  - unfold new_binding, alloc, bound_codeset. unfold bound at 1. rewrite Ef. simpl.
    destruct (mal (n_allocs st)) eqn:Em; cbn [negb]; cycle 1.
    { right. split_and!; [done|by apply rebinds_same|by eexists]. }
    destruct (Z.eqb_spec (strcmp dir _nl_default_dirname) 0) as [E2|E2].
    + apply strcmp_eq in E2 as ->; [|done..]. left. split; [done|].
      apply (rebinds_new st _ (Binding nm DefaultDir None)); auto.
      split; [done|by apply Forall_nil_2].
    + simpl. destruct (mal (S (n_allocs st))) eqn:Em2; simpl.
      * left. split; [done|].
        apply (rebinds_new st _ (Binding nm (OwnDir dir) None)); auto; simpl.
        -- split; [done|by apply Forall_nil_2].
        -- unfold block_count. simpl. lia.
      * right. split_and!; [done|apply rebinds_same; simpl; auto; lia|by eexists].
Qed.

Lemma bind_codeset_spec st name cod :
  ok st -> wf_cstr name -> name <> [] -> wf_cstr cod ->
  let '(r, st') := BIND_TEXTDOMAIN_CODESET _nl_default_dirname mal st (Some name) (Some cod) in
  (r = Some cod /\ rebinds st st' name (Some (bound_dir st name, Some cod))) \/
  (r = None /\ rebinds st st' name (bound st name) /\ exists k, mal k = false).
Proof using Hdef.
  intros Hok Hw Hne Hwd. unfold BIND_TEXTDOMAIN_CODESET, set_binding_values. destruct name as [|c name]; [done|].
  set (nm := c :: name) in *. clearbody nm. clear c name Hne.
  destruct (find_binding (bindings st) nm) as [b|] eqn:Ef.
  - pose proof (binding_wf_find _ _ _ Hok Hw Ef) as [Hwb Hwc].
    pose proof Ef as [Hin En]%find_binding_Some; [|apply Hok|done].
    cbn [change_dirname]. rewrite Ef. simpl default. unfold change_codeset, bound_dir, bound. rewrite Ef. simpl.
    destruct (match codeset b with None => true | Some r => negb (strcmp cod r =? 0) end) eqn:E.
    + assert (Hneq : Some cod <> codeset b).
      { intros Hc. rewrite <- Hc in E. by rewrite strcmp_refl in E. }
      unfold alloc. destruct (mal (n_allocs st)) eqn:Em; simpl.
      * left. split; [done|].
        apply (rebinds_update st _ nm b (set_codeset cod)); auto; simpl; try done.
        -- by rewrite En.
        -- unfold block_count. simpl. lia.
        -- congruence.
      * right. split_and!; [done| |by eexists].
        pose proof (rebinds_same st (State (bindings st) (current_domain st) (msg_cat_cntr st) (live st)
          (S (n_allocs st))) nm Hok eq_refl eq_refl eq_refl eq_refl) as H.
        unfold bound in H. by rewrite Ef in H.
    + destruct (codeset b) as [r|] eqn:Ec; [|done]. apply negb_false_iff, Z.eqb_eq in E.
      apply strcmp_eq in E as ->; [|done..]. left. split; [done|].
      pose proof (rebinds_same st st nm Hok eq_refl eq_refl eq_refl eq_refl) as H. unfold bound in H.
      rewrite Ef in H. simpl in H. by rewrite Ec in H.
  - unfold new_binding, alloc, bound_dir. unfold bound at 1. rewrite Ef. simpl.
    destruct (mal (n_allocs st)) eqn:Em; cbn [negb]; cycle 1.
    { right. split_and!; [done|by apply rebinds_same|by eexists]. }
    simpl. destruct (mal (S (n_allocs st))) eqn:Em2; simpl.
    + left. split; [done|].
      apply (rebinds_new st _ (Binding nm DefaultDir (Some cod))); auto; simpl; [by split|].
      unfold block_count. simpl. lia.
    + right. split_and!; [done|apply rebinds_same; simpl; auto; lia|by eexists].
Qed.

(** Queries change nothing. *)
Lemma query_spec st name :
  ok st -> wf_cstr name -> name <> [] ->
  BINDTEXTDOMAIN _nl_default_dirname mal st (Some name) None = (Some (bound_dir st name), st) /\
  BIND_TEXTDOMAIN_CODESET _nl_default_dirname mal st (Some name) None = (bound_codeset st name, st).
Proof using Type.
  intros Hok Hw Hne. unfold BINDTEXTDOMAIN, BIND_TEXTDOMAIN_CODESET, set_binding_values, bound_dir, bound_codeset, bound.
  destruct name as [|c name]; [done|]. set (nm := c :: name) in *.
  destruct (find_binding (bindings st) nm) as [b|] eqn:Ef; simpl; [|done]. by rewrite Ef.
Qed.
End Spec.

(** ** Theorems *)

(** C35. [bindtextdomain] with a directory either returns it and binds the
    domain to it, keeping the domain's codeset, or returns NULL after a failed
    allocation and leaves the binding as it was.  In both cases all other domains
    keep their bindings, the list stays sorted, the blocks in use are exactly the ones
    referred to (no leak, no double free), and the counter of changes goes up
    exactly if the binding changed. *)
Theorem bindtextdomain_correct (dflt : cstr) (mal : nat -> bool) (st : state) (name dir : cstr)
    (Hdef : wf_cstr dflt) (Hok : ok dflt st) (Hw : wf_cstr name) (Hne : name <> []) (Hwd : wf_cstr dir) :
  let '(r, st') := BINDTEXTDOMAIN dflt mal st (Some name) (Some dir) in
  (r = Some dir /\ rebinds dflt st st' name (Some (dir, bound_codeset dflt st name))) \/
  (r = None /\ rebinds dflt st st' name (bound dflt st name) /\ exists k, mal k = false).
Proof. by apply bindtextdomain_spec. Qed.

Definition dflt_dir : cstr := cs "/usr/share/locale".
Definition empty_state : state := State [] DefaultDomain 0 0 0.

Lemma empty_state_ok : ok dflt_dir empty_state.
Proof. split; [split; [constructor|by apply Forall_nil_2]|by apply Forall_nil_2|done]. Qed.

Lemma bindtextdomain_correct_witness :
  let '(r, st') := BINDTEXTDOMAIN dflt_dir (fun _ => true) empty_state (Some (cs "app")) (Some (cs "/opt")) in
  r = Some (cs "/opt") /\ rebinds dflt_dir empty_state st' (cs "app") (Some (cs "/opt", None)).
Proof.
  pose proof (bindtextdomain_correct dflt_dir (fun _ => true) empty_state (cs "app") (cs "/opt")
    ltac:(apply (bool_decide_unpack _); vm_compute; reflexivity) empty_state_ok
    ltac:(apply (bool_decide_unpack _); vm_compute; reflexivity) ltac:(discriminate)
    ltac:(apply (bool_decide_unpack _); vm_compute; reflexivity)) as H.
  destruct (BINDTEXTDOMAIN _ _ _ _ _) as [r st']. destruct H as [H|(_ & _ & k & Hk)]; [exact H|discriminate Hk].
Defined.

(** [bind_textdomain_codeset] with a codeset, in the same way: the
    directory of the domain is kept. *)
Theorem bind_textdomain_codeset_correct (dflt : cstr) (mal : nat -> bool) (st : state) (name cod : cstr)
    (Hdef : wf_cstr dflt) (Hok : ok dflt st) (Hw : wf_cstr name) (Hne : name <> []) (Hwd : wf_cstr cod) :
  let '(r, st') := BIND_TEXTDOMAIN_CODESET dflt mal st (Some name) (Some cod) in
  (r = Some cod /\ rebinds dflt st st' name (Some (bound_dir dflt st name, Some cod))) \/
  (r = None /\ rebinds dflt st st' name (bound dflt st name) /\ exists k, mal k = false).
Proof. by apply bind_codeset_spec. Qed.

Lemma bind_textdomain_codeset_correct_witness :
  let '(r, st') := BIND_TEXTDOMAIN_CODESET dflt_dir (fun _ => true) empty_state (Some (cs "app")) (Some (cs "UTF-8")) in
  r = Some (cs "UTF-8") /\ rebinds dflt_dir empty_state st' (cs "app") (Some (dflt_dir, Some (cs "UTF-8"))).
Proof.
  pose proof (bind_textdomain_codeset_correct dflt_dir (fun _ => true) empty_state (cs "app") (cs "UTF-8")
    ltac:(apply (bool_decide_unpack _); vm_compute; reflexivity) empty_state_ok
    ltac:(apply (bool_decide_unpack _); vm_compute; reflexivity) ltac:(discriminate)
    ltac:(apply (bool_decide_unpack _); vm_compute; reflexivity)) as H.
  destruct (BIND_TEXTDOMAIN_CODESET _ _ _ _ _) as [r st']. destruct H as [H|(_ & _ & k & Hk)]; [exact H|discriminate Hk].
Defined.

(** What was bound is what is returned: after a successful
    [bindtextdomain] a query for the domain, with a null directory, returns the
    directory and changes nothing, whatever the memory situation. *)
Theorem bind_then_query (dflt : cstr) (mal mal' : nat -> bool) (st st' : state) (name dir : cstr)
    (Hdef : wf_cstr dflt) (Hok : ok dflt st) (Hw : wf_cstr name) (Hne : name <> []) (Hwd : wf_cstr dir)
    (H : BINDTEXTDOMAIN dflt mal st (Some name) (Some dir) = (Some dir, st')) :
  BINDTEXTDOMAIN dflt mal' st' (Some name) None = (Some dir, st').
Proof.
  pose proof (bindtextdomain_spec dflt mal Hdef st name dir Hok Hw Hne Hwd) as Hs. rewrite H in Hs.
  destruct Hs as [[_ [Ho Hb _ _ _]]|[? _]]; [|done].
  destruct (query_spec dflt mal' st' name Ho Hw Hne) as [-> _]. unfold bound_dir. by rewrite Hb.
Qed.

Lemma bind_then_query_witness :
  let st' := snd (BINDTEXTDOMAIN dflt_dir (fun _ => true) empty_state (Some (cs "app")) (Some (cs "/opt"))) in
  BINDTEXTDOMAIN dflt_dir (fun _ => false) st' (Some (cs "app")) None = (Some (cs "/opt"), st').
Proof.
  cbv zeta. apply (bind_then_query dflt_dir (fun _ => true) (fun _ => false) empty_state _ (cs "app") (cs "/opt")).
  - apply (bool_decide_unpack _). vm_compute. reflexivity.
  - exact empty_state_ok.
  - apply (bool_decide_unpack _). vm_compute. reflexivity.
  - discriminate.
  - apply (bool_decide_unpack _). vm_compute. reflexivity.
  - reflexivity.
Defined.

Lemma textdomain_spec (dflt : cstr) (mal : nat -> bool) (st : state) (name : option cstr)
    (Hok : ok dflt st) :
  let '(r, st') := TEXTDOMAIN mal st name in
  ok dflt st' /\ bindings st' = bindings st /\
  match name, r with
  | None, _ => r = Some (dom_str (current_domain st)) /\ st' = st
  | Some n, None =>
      mal (n_allocs st) = false /\ current_domain st' = current_domain st /\
      msg_cat_cntr st' = msg_cat_cntr st
  | Some n, Some s =>
      s = dom_str (current_domain st') /\ msg_cat_cntr st' = msg_cat_cntr st + 1 /\
      (wf_cstr n -> wf_cstr (dom_str (current_domain st)) ->
       s = if decide (n = []) then _nl_default_default_domain else n)
  end.
Proof.
  destruct Hok as [H1 H2 H3]. unfold TEXTDOMAIN. destruct name as [n|]; [|split_and!; by try split].
  destruct (bool_decide_reflect (n = [])) as [->|Hn]; simpl orb.
  { split_and!; simpl; try done. split; simpl; try done. lia. }
  destruct (Z.eqb_spec (strcmp n _nl_default_default_domain) 0) as [E|E].
  { split_and!; simpl; try done.
    - split; simpl; try done. lia.
    - intros Hw _. rewrite decide_False by done. symmetry. apply strcmp_eq; [done| |done].
      apply (bool_decide_unpack _). vm_compute. reflexivity. }
  destruct (Z.eqb_spec (strcmp n (dom_str (current_domain st))) 0) as [E2|E2].
  { split_and!; simpl; try done. intros Hw Hw'. rewrite decide_False by done. symmetry. by apply strcmp_eq. }
  unfold alloc. destruct (mal (n_allocs st)) eqn:Em; cbn [negb].
  - split_and!; simpl; try done; [split; simpl; try done; lia|]. intros. by rewrite decide_False.
  - split_and!; simpl; try done.
Qed.

(** [textdomain]: a null argument is a query; the empty name and the name
    "messages" select the default domain; any other name becomes the current
    domain.  If memory runs out NULL is returned and the current domain stays as it
    was (the comment in the source says that it becomes NULL).  The blocks in
    use are balanced in every case. *)
Theorem textdomain_correct (dflt : cstr) (mal : nat -> bool) (st : state) (name : option cstr)
    (Hok : ok dflt st) :
  let '(r, st') := TEXTDOMAIN mal st name in
  ok dflt st' /\ bindings st' = bindings st /\
  match name, r with
  | None, _ => r = Some (dom_str (current_domain st)) /\ st' = st
  | Some n, None =>
      mal (n_allocs st) = false /\ current_domain st' = current_domain st /\
      msg_cat_cntr st' = msg_cat_cntr st
  | Some n, Some s =>
      s = dom_str (current_domain st') /\ msg_cat_cntr st' = msg_cat_cntr st + 1 /\
      (wf_cstr n -> wf_cstr (dom_str (current_domain st)) ->
       s = if decide (n = []) then _nl_default_default_domain else n)
  end.
Proof. by apply textdomain_spec. Qed.

Lemma textdomain_correct_witness :
  ok dflt_dir (snd (TEXTDOMAIN (fun _ => false) empty_state (Some (cs "app")))) /\
  current_domain (snd (TEXTDOMAIN (fun _ => false) empty_state (Some (cs "app")))) = DefaultDomain.
Proof.
  pose proof (textdomain_correct dflt_dir (fun _ => false) empty_state (Some (cs "app")) empty_state_ok) as H.
  destruct (TEXTDOMAIN _ _ _) as [r st'] eqn:E. destruct H as (H & _ & Hr).
  split; [exact H|]. injection E as <- <-. exact (proj1 (proj2 Hr)).
Defined.
