(* ===== verification/FindDomain.v ===== *)
(** * Finding the catalog of a domain: finddomain.c

    [_nl_find_domain] connects the pool of catalog files (L10nFlist), the parts of
    a locale name (LocaleName) and the loading of catalogs (Catalog).  The state
    is the pool, and for each of its entries the fields [decided] and [data].
    The file system is the function [fs] from file names to what the system
    calls return; the allocation oracles are those of the components. *)

From S2P Require Import Prelude HashString PluralExp PluralParse PluralExtract Catalog.
From S2P Require Import LocaleName L10nFlist.

Open Scope Z_scope.

(** What finddomain.c needs from localealias.c: the value of an alias. *)
Class AliasTable := _nl_expand_alias : cstr -> option cstr.

(** What a run of the library is given: the file system and the outcomes of
    the allocations of each component. *)
Record platform := Platform {
  fs : cstr -> file_io;
  pl_lmal : nat -> Z -> bool;       (* l10nflist.c *)
  pl_emal : Z -> bool;              (* explodename.c *)
  pl_strdup : bool;                 (* the copy of an alias value *)
  pl_domain : bool;                 (* the domain *)
  pl_sysdep : Z -> bool;            (* its system dependent strings *)
  pl_pmal : nat -> bool;            (* plural.y *)
  pl_pstack : Z -> bool
}.

(** [_nl_loaded_domains]; [docs] has the fields of the entries that were looked at. *)
Record domains := Domains {
  pool_of : pool;
  docs : gmap nat domain_file
}.

Section FindDomain.
Context `{PriMacros} `{AliasTable} (pf : platform).

(** The entry with identity [i], as l10nflist.c left it. *)
Definition entry (st : domains) (i : nat) : option l10nfile :=
  list_find (fun f => file_id f = i) (files (pool_of st)) ≫= fun x => Some (snd x).

Definition get_df (st : domains) (i : nat) : domain_file :=
  match docs st !! i with
  | Some df => df
  | None =>
      match entry st i with
      | Some f => DomainFile (if decided f then 1 else 0) None
      | None => DomainFile 0 None
      end
  end.

(** [if (file->decided <= 0) _nl_load_domain (file, domainbinding);] *)
Definition load_entry (st : domains) (i : nat) : load domains :=
  let df := get_df st i in
  if df_decided df <=? 0 then
    match entry st i with
    | None => Undef
    | Some f =>
        df ← Catalog._nl_load_domain (pl_domain pf) (pl_sysdep pf) (pl_pmal pf) (pl_pstack pf)
               (fs pf (filename f)) df;
        Ret (Domains (pool_of st) (<[i := df]> (docs st)))
    end
  else Ret st.

(** [for (cnt = 0; retval->successor[cnt] != NULL; ++cnt)] *)
Fixpoint load_successors (l : list (option nat)) (st : domains) : load domains :=
  match l with
  | [] | None :: _ => Ret st
  | Some i :: l =>
      st ← load_entry st i;
      match df_data (get_df st i) with
      | Some _ => Ret st
      | None => load_successors l st
      end
  end.

Definition successors (st : domains) (i : nat) : list (option nat) :=
  default [] (successor (pool_of st) !! i).

(** Load the entry and, if it has no catalog, its successors up to one that has. *)
Definition load_first (st : domains) (i : nat) : load domains :=
  st ← load_entry st i;
  match df_data (get_df st i) with
  | Some _ => Ret st
  | None => load_successors (successors st i) st
  end.

(** The recursion depth of [_nl_make_l10nflist] is at most 17. *)
Definition l10n_fuel : nat := 17.

Definition make (nm : names) (do_allocate : bool) (dirlist : list Z) (mask : Z) (st : domains)
    : load (option nat * domains) :=
  match _nl_make_l10nflist (pl_lmal pf) nm l10n_fuel do_allocate dirlist mask (pool_of st) with
  | None => Undef
  | Some (r, p) => Ret (r, Domains p (docs st))
  end.

(** The names of the parts of an exploded locale name. *)
Definition names_of (e : exploded) (domainname : cstr) : names :=
  let str o := default [] (str_at (buffer e) <$> o) in
  Names (str_at (buffer e) (language e)) (str (territory e)) (str (codeset e))
    (match normalized_codeset e with HStr s => s | _ => [] end) (str (modifier e)) domainname.

(** [_nl_find_domain (dirname, locale, domainname, domainbinding)] *)
Definition _nl_find_domain (dirname locale domainname : cstr) (st : domains)
    : load (option nat * domains) :=
  '(r, st) ← make (Names locale [] [] [] [] domainname) false (dirname ++ [0]) 0 st;
  match r with
  | Some i => st ← load_first st i; Ret (Some i, st)
  | None =>
      let alias_value := _nl_expand_alias locale in
      if match alias_value with Some _ => negb (pl_strdup pf) | None => false end then Ret (None, st)
      else
        let locale := default locale alias_value in
        match _nl_explode_name (pl_emal pf) (locale ++ [0]) with
        | None => Ret (None, st)
        | Some e =>
            '(r, st) ← make (names_of e domainname) true (dirname ++ [0]) (mask e) st;
            match r with
            | None => Ret (None, st)
            | Some i => st ← load_first st i; Ret (Some i, st)
            end
        end
  end.
End FindDomain.
