(* ===== verification/FindDomainSpec.v ===== *)
(** * What _nl_find_domain promises

    The pool keeps its invariant, an entry is loaded at most once and never
    changes afterwards, and the data of an entry is always the catalog in the file
    of its name. *)

From S2P Require Import Prelude HashString PluralExp PluralParse PluralExtract Catalog CatalogSpec CatalogFind CatalogLoad.
From S2P Require Import LocaleName L10nFlist L10nFlistSpec FindDomain.

Open Scope Z_scope.

(** ** Locale names as names of the pool *)

Lemma wf_is_norm s : Forall is_norm s -> wf_cstr s.
Proof.
  intros H. eapply Forall_impl; [exact H|]. unfold is_norm, islower, isdigit.
  change (chr "a") with 97. change (chr "z") with 122. change (chr "0") with 48. change (chr "9") with 57.
  intros c [Hc|Hc]; breflect; lia.
Qed.

Lemma wf_layout u d a p s :
  wf_cstr s -> s ++ [0] = layout u d a p ->
  wf_cstr (p_language p) /\ wf_cstr (default [] (p_territory p)) /\
  wf_cstr (default [] (p_codeset p)) /\ wf_cstr (default [] (p_modifier p)).
Proof.
  intros Hw E. unfold layout in E. rewrite !app_assoc in E. apply app_inj_tail in E as [-> _].
  rewrite !wf_cstr_app in Hw. destruct Hw as [[[H1 H2] H3] H4].
  split_and!; [done|..]; [destruct (p_territory p)|destruct (p_codeset p)|destruct (p_modifier p)];
    simpl in *; rewrite ?wf_cstr_cons in *; try tauto; by apply Forall_nil_2.
Qed.

Lemma names_of_ok mal locale e domainname :
  wf_cstr locale -> wf_cstr domainname -> _nl_explode_name mal (locale ++ [0]) = Some e ->
  names_ok (names_of e domainname) /\ 0 <= mask e <= 15.
Proof.
  intros Hw Hd He.
  assert (Hnil : wf_cstr []) by (by apply Forall_nil_2).
  destruct (decide (locale = [] \/ ends_language (cur locale) = true)) as [Hs|Hs].
  - assert (e = Exploded (locale ++ [0]) 0 None None None HNull 0) as ->.
    { unfold _nl_explode_name, _nl_find_language in He. rewrite drop_0 in He.
      change (locale ++ [0]) with ([] ++ (locale ++ [0])) in He at 1.
      rewrite scan_until_app in He; [by injection He as <-|by apply Forall_nil_2|].
      destruct Hs as [->|Hs]; [by left|right; by destruct locale]. }
    simpl. split; [|lia]. split; try done. simpl.
    rewrite str_at_0; [done|by apply wf_clean].
  - assert (Hne : locale <> [] /\ ends_language (cur locale) = false)
      by (split; [tauto|destruct (ends_language (cur locale)); tauto]).
    destruct (parts_exist locale (wf_clean _ Hw) (proj1 Hne) (proj2 Hne)) as (p & Hp & E).
    destruct (wf_layout _ _ _ p locale Hw E) as (W1 & W2 & W3 & W4).
    rewrite E, explode_name_spec in He by done.
    assert (exists n, e = explosion p n /\ wf_cstr n) as (n & -> & Hn).
    { destruct (nonempty (p_codeset p)); [|injection He as <-; by exists []].
      destruct (_nl_normalize_codeset mal _) as [n|] eqn:En; [|done]. injection He as <-.
      exists n. split; [done|]. apply wf_is_norm. by eapply normalize_norm. }
    destruct (explosion_strings p n Hp) as (S1 & S2 & S3 & S4).
    split.
    + split; unfold names_of; cbn [nm_language nm_territory nm_codeset nm_normalized_codeset nm_modifier nm_filename];
        rewrite ?S1, ?S2, ?S3, ?S4; auto.
      unfold explosion, norm_ptr. simpl. destruct (keeps_normalized p n); [done|].
      by destruct (nonempty (p_codeset p)).
    + unfold explosion. cbn [mask]. unfold parts_mask.
      unfold XPG_TERRITORY, XPG_CODESET, XPG_NORM_CODESET, XPG_MODIFIER.
      repeat case_if; lia.
Qed.

(** ** States *)

Section Spec.
Context {PM : PriMacros} {AT : AliasTable} (pf : platform).

(** The catalog in the file of entry [f]. *)
Definition catalog_of (f : l10nfile) (d : loaded_domain) (pl : option expression * Z) : Prop :=
  exists dat, fetch_file (fs pf (filename f)) = Ret dat /\
    load_catalog (pl_domain pf) (pl_sysdep pf) dat = Ret d /\
    load_plural (pl_pmal pf) (pl_pstack pf) d = Ret pl.

Record domains_ok (st : domains) : Prop := DomainsOk {
  dok_pool : pool_ok (pool_of st);
  dok_docs : forall i df, docs st !! i = Some df ->
    df_decided df = 1 /\ exists f, f ∈ files (pool_of st) /\ file_id f = i /\
      forall d pl, df_data df = Some (d, pl) -> catalog_of f d pl
}.

Lemma entry_spec st i f :
  domains_ok st -> entry st i = Some f <-> f ∈ files (pool_of st) /\ file_id f = i.
Proof using Type.
  intros Hok. unfold entry. destruct (list_find _ _) as [[j g]|] eqn:E; simpl.
  - apply list_find_Some in E as (Hj & Hid & _). split.
    + intros [= <-]. split; [by eapply list_elem_of_lookup_2|done].
    + intros [Hf Hi]. f_equal. apply (same_id (pool_of st)); [apply Hok|by eapply list_elem_of_lookup_2|done|congruence].
  - apply list_find_None in E. split; [done|]. intros [Hf Hi]. rewrite Forall_forall in E. by apply E in Hf.
Qed.

(** The data of an entry is the catalog of its file. *)
Lemma get_df_catalog st i d pl :
  domains_ok st -> df_data (get_df st i) = Some (d, pl) ->
  exists f, f ∈ files (pool_of st) /\ file_id f = i /\ catalog_of f d pl.
Proof using Type.
  intros Hok. unfold get_df. destruct (docs st !! i) as [df|] eqn:E; [|by destruct (entry st i)].
  intros Hd. destruct (dok_docs _ Hok i df E) as (_ & f & Hf & Hi & Hc). eauto.
Qed.

(** A later state: entries stay, and what was decided stays. *)
Record later_than (st st' : domains) : Prop := LaterThan {
  lt_files : forall f, f ∈ files (pool_of st) -> f ∈ files (pool_of st');
  lt_succ : forall f, f ∈ files (pool_of st) -> successors st' (file_id f) = successors st (file_id f);
  lt_decided : forall f, f ∈ files (pool_of st) -> df_decided (get_df st (file_id f)) <> 0 ->
    get_df st' (file_id f) = get_df st (file_id f)
}.

Lemma later_than_refl st : later_than st st.
Proof using Type. by split. Qed.

Lemma later_than_trans st1 st2 st3 : later_than st1 st2 -> later_than st2 st3 -> later_than st1 st3.
Proof using Type.
  intros [F1 S1 D1] [F2 S2 D2]. split; [auto|intros f Hf; rewrite S2, S1; auto|].
  intros f Hf Hd. rewrite D2, D1; auto. by rewrite D1.
Qed.

Lemma get_df_pool st i : df_decided (get_df st i) = 0 -> docs st !! i = None \/ exists df, docs st !! i = Some df /\ df_decided df = 0.
Proof using Type. unfold get_df. destruct (docs st !! i); eauto. Qed.

Lemma load_entry_ok st i st' :
  domains_ok st -> load_entry pf st i = Ret st' ->
  domains_ok st' /\ later_than st st' /\ pool_of st' = pool_of st /\
  (forall f, f ∈ files (pool_of st) -> file_id f = i -> df_decided (get_df st' i) = 1).
Proof using Type.
  intros Hok H. unfold load_entry in H. destruct (Z.leb_spec (df_decided (get_df st i)) 0) as [Hle|Hgt].
  - destruct (entry st i) as [f|] eqn:Ef; [|done]. pose proof (proj1 (entry_spec st i f Hok) Ef) as [Hf Hi].
    apply lbind_ret in H as (df & Hl & H). injection H as <-. simpl.
    assert (H0 : df_decided (get_df st i) = 0 /\ docs st !! i = None).
    { unfold get_df in *. destruct (docs st !! i) as [df0|] eqn:Ed.
      - destruct (dok_docs _ Hok i df0 Ed) as [H1 _]. lia.
      - rewrite Ef in *. split; [|done]. destruct (decided f); simpl in *; lia. }
    destruct H0 as [H0 Hnone].
    destruct (load_domain_decided _ _ _ _ _ _ _ Hl) as [[? _]|[_ H1]]; [done|].
    pose proof (load_domain_data _ _ _ _ _ _ _ Hl H0) as Hd.
    assert (Hget : get_df (Domains (pool_of st) (<[i:=df]> (docs st))) i = df)
      by (unfold get_df; simpl; by rewrite lookup_insert_eq).
    split_and!; [|split; simpl; auto|done|].
    + split; simpl; [apply Hok|]. intros j df' Hj. destruct (decide (i = j)) as [<-|Hne].
      * rewrite lookup_insert_eq in Hj. injection Hj as <-. split; [done|]. exists f. split_and!; auto.
        intros d pl Hdp. destruct Hd as [Hd|(dat & d' & pl' & E1 & E2 & E3 & E4)]; [congruence|].
        rewrite E4 in Hdp. injection Hdp as <- <-. by exists dat.
      * rewrite lookup_insert_ne in Hj by done. by apply (dok_docs _ Hok).
    + intros g Hg Hdec. unfold get_df at 1. simpl. destruct (decide (i = file_id g)) as [E|Hne].
      * exfalso. by rewrite <- E in Hdec.
      * by rewrite lookup_insert_ne by done.
    + intros g _ _. by rewrite Hget.
  - injection H as <-. split_and!; [done|apply later_than_refl|done|].
    intros f Hf Hi. unfold get_df in *. destruct (docs st !! i) as [df0|] eqn:Ed.
    + by destruct (dok_docs _ Hok i df0 Ed).
    + destruct (entry st i) as [g|]; [|simpl in *; lia]. destruct (decided g); simpl in *; lia.
Qed.

Lemma load_successors_ok l st st' :
  domains_ok st -> load_successors pf l st = Ret st' ->
  domains_ok st' /\ later_than st st' /\ pool_of st' = pool_of st.
Proof using Type.
  revert st. induction l as [|[i|] l IH]; intros st Hok H; cbn [load_successors] in H;
    try (injection H as <-; split_and!; [done|apply later_than_refl|done]).
  apply lbind_ret in H as (st1 & H1 & H). apply load_entry_ok in H1 as (O1 & L1 & P1 & _); [|done].
  destruct (df_data (get_df st1 i)); [injection H as <-; done|].
  destruct (IH st1 O1 H) as (O2 & L2 & P2). split_and!; [done|by eapply later_than_trans|congruence].
Qed.

Lemma load_first_ok st i st' :
  domains_ok st -> load_first pf st i = Ret st' ->
  domains_ok st' /\ later_than st st' /\ pool_of st' = pool_of st /\
  (forall f, f ∈ files (pool_of st) -> file_id f = i -> df_decided (get_df st' i) = 1).
Proof using Type.
  intros Hok H. unfold load_first in H. apply lbind_ret in H as (st1 & H1 & H).
  apply load_entry_ok in H1 as (O1 & L1 & P1 & D1); [|done].
  destruct (df_data (get_df st1 i)); [injection H as <-; done|].
  apply load_successors_ok in H as (O2 & L2 & P2); [|done].
  split_and!; [done|by eapply later_than_trans|congruence|]. intros f Hf Hi.
  rewrite <- Hi. rewrite (lt_decided _ _ L2); rewrite ?P1; auto; rewrite Hi; rewrite (D1 f Hf Hi); done.
Qed.

(** ** Which entries are loaded *)

(** The entry [j] was looked at between the states [st] and [st']: one that an earlier call looked at is as it was, one
    that l10nflist.c marked has no file, and any other has what the loader makes of its file. *)
Definition tried (st st' : domains) (j : nat) : Prop :=
  exists f, f ∈ files (pool_of st') /\ file_id f = j /\
    match docs st !! j with
    | Some df => get_df st' j = df
    | None =>
        if decided f then get_df st' j = DomainFile 1 None
        else Catalog._nl_load_domain (pl_domain pf) (pl_sysdep pf) (pl_pmal pf) (pl_pstack pf)
               (fs pf (filename f)) (DomainFile 0 None) = Ret (get_df st' j)
    end.

(** Those of [l] and no others. *)
Definition loads (st : domains) (l : list nat) (st' : domains) : Prop :=
  Forall (tried st st') l /\ forall j, j ∉ l -> docs st' !! j = docs st !! j.

(** The entries of [l] up to the first with a catalog. *)
Fixpoint up_to_catalog (st : domains) (l : list nat) : list nat :=
  match l with
  | [] => []
  | j :: l => j :: match df_data (get_df st j) with Some _ => [] | None => up_to_catalog st l end
  end.

(** The successors in front of the null pointer. *)
Fixpoint up_to_null (l : list (option nat)) : list nat :=
  match l with Some j :: l => j :: up_to_null l | _ => [] end.

Lemma tried_decided st st' j : domains_ok st -> tried st st' j -> df_decided (get_df st' j) = 1.
Proof using Type.
  intros Hok (f & _ & _ & H). destruct (docs st !! j) as [df|] eqn:E; [rewrite H; by apply (dok_docs _ Hok j)|].
  destruct (decided f); [by rewrite H|]. by destruct (load_domain_decided _ _ _ _ _ _ _ H) as [[? _]|[_ ?]].
Qed.

Lemma tried_later st st1 st' j : domains_ok st -> later_than st1 st' -> tried st st1 j -> tried st st' j /\ get_df st' j = get_df st1 j.
Proof using Type.
  intros Hok [F _ D] H. pose proof (tried_decided _ _ _ Hok H) as Hd. destruct H as (f & Hf & <- & H).
  assert (E : get_df st' (file_id f) = get_df st1 (file_id f)) by (apply D; [done|by rewrite Hd]).
  split; [|done]. exists f. rewrite E. auto.
Qed.

Lemma loads_nil st : loads st [] st.
Proof using Type. by split. Qed.

Lemma loads_app st l1 st1 l2 st2 : domains_ok st -> domains_ok st1 -> later_than st1 st2 ->
  loads st l1 st1 -> loads st1 l2 st2 -> loads st (l1 ++ l2) st2.
Proof using Type.
  intros Hok Hok1 Hl [T1 D1] [T2 D2]. split.
  - apply Forall_app. split; rewrite Forall_forall in *; intros j Hj; [by apply (tried_later st st1); auto|].
    destruct (decide (j ∈ l1)) as [Hin|Hni]; [by apply (tried_later st st1); auto|].
    specialize (T2 j Hj). unfold tried in *. by rewrite <- D1.
  - intros j Hj. rewrite not_elem_of_app in Hj. rewrite D2, D1; tauto.
Qed.

Lemma load_entry_loads st i st' :
  domains_ok st -> load_entry pf st i = Ret st' -> (exists f, f ∈ files (pool_of st) /\ file_id f = i) -> loads st [i] st'.
Proof using Type.
  intros Hok H (f & Hf & Hi). pose proof (proj2 (entry_spec st i f Hok) (conj Hf Hi)) as Ef. unfold load_entry in H.
  unfold loads. rewrite Forall_singleton. unfold tried.
  destruct (Z.leb_spec (df_decided (get_df st i)) 0) as [Hle|Hgt].
  - rewrite Ef in H. apply lbind_ret in H as (df & Hl & H). injection H as <-. cbn [pool_of docs].
    unfold get_df in *. destruct (docs st !! i) as [df0|] eqn:Ed; [destruct (dok_docs _ Hok i df0 Ed) as [H1 _]; lia|].
    rewrite Ef in *. cbn [docs]. rewrite lookup_insert_eq. split.
    + exists f. split_and!; [done..|]. destruct (decided f); [cbn in Hle; lia|done].
    + intros j Hj. rewrite lookup_insert_ne; [done|]. intros ->. apply Hj, list_elem_of_here.
  - injection H as <-. split; [|done]. exists f. split_and!; [done..|]. unfold get_df in *.
    destruct (docs st !! i); [done|]. rewrite Ef in *. destruct (decided f); [done|cbn in Hgt; lia].
Qed.

(** [load_successors] goes through the pointers up to a catalog. *)
Lemma load_successors_loads l st st' :
  domains_ok st -> load_successors pf l st = Ret st' -> (forall j, Some j ∈ l -> exists f, f ∈ files (pool_of st) /\ file_id f = j) ->
  loads st (up_to_catalog st' (up_to_null l)) st'.
Proof using Type.
  revert st. induction l as [|[i|] l IH]; intros st Hok H Hl; cbn [load_successors up_to_null up_to_catalog] in *;
    try (injection H as <-; apply loads_nil).
  apply lbind_ret in H as (st1 & H1 & H). pose proof (Hl i (list_elem_of_here _ _)) as Hi.
  pose proof (load_entry_loads st i st1 Hok H1 Hi) as Ld1.
  destruct (load_entry_ok st i st1 Hok H1) as (O1 & L1 & P1 & _).
  pose proof (Forall_inv (proj1 Ld1)) as T1.
  destruct (df_data (get_df st1 i)) eqn:Ed; [injection H as <-; by rewrite Ed|].
  destruct (load_successors_ok l st1 st' O1 H) as (_ & L2 & _).
  destruct (tried_later st st1 st' i Hok L2 T1) as [_ Eg]. rewrite Eg, Ed.
  apply (loads_app st [i] st1); auto. apply IH; [done..|]. rewrite P1. intros j Hj. by apply Hl, list_elem_of_further.
Qed.

Lemma load_first_loads st i st' :
  domains_ok st -> load_first pf st i = Ret st' -> (exists f, f ∈ files (pool_of st) /\ file_id f = i) ->
  loads st (up_to_catalog st' (i :: up_to_null (successors st' i))) st'.
Proof using Type.
  intros Hok H Hi. destruct Hi as (f & Hf & Hi). unfold load_first in H. apply lbind_ret in H as (st1 & H1 & H).
  pose proof (load_entry_loads st i st1 Hok H1 ltac:(by exists f)) as Ld1. pose proof (Forall_inv (proj1 Ld1)) as T1.
  destruct (load_entry_ok st i st1 Hok H1) as (O1 & L1 & P1 & _). cbn [up_to_catalog].
  destruct (df_data (get_df st1 i)) eqn:Ed; [injection H as <-; by rewrite Ed|].
  destruct (load_successors_ok _ st1 st' O1 H) as (_ & L2 & P2).
  destruct (tried_later st st1 st' i Hok L2 T1) as [_ Eg]. rewrite Eg, Ed.
  assert (Es : successors st' i = successors st1 i) by (unfold successors; by rewrite P2). rewrite Es.
  apply (loads_app st [i] st1); auto. apply load_successors_loads; [done..|].
  intros j Hj. unfold successors in Hj. destruct (successor (pool_of st1) !! i) as [l|] eqn:El; cbn in Hj; [|by apply not_elem_of_nil in Hj].
  by apply (pool_succ _ (dok_pool _ O1) i l).
Qed.

(** ** The loads end *)

(** Every file either is refused or is loaded without a read out of bounds. *)
Definition files_readable : Prop := forall name, exists df,
  Catalog._nl_load_domain (pl_domain pf) (pl_sysdep pf) (pl_pmal pf) (pl_pstack pf) (fs pf name)
    (DomainFile 0 None) = Ret df.

Definition in_pool (st : domains) (i : nat) : Prop :=
  exists f, f ∈ files (pool_of st) /\ file_id f = i.

Lemma in_pool_later st st' i : later_than st st' -> in_pool st i -> in_pool st' i.
Proof using Type. intros [F _ _] (f & Hf & Hi). exists f. auto. Qed.

(** The successors of an entry are entries. *)
Lemma successors_in_pool st i j : domains_ok st -> Some j ∈ successors st i -> in_pool st j.
Proof using Type.
  intros Hok Hj. unfold successors in Hj. destruct (successor (pool_of st) !! i) as [l|] eqn:El; simpl in Hj.
  - by apply (pool_succ _ (dok_pool _ Hok) i l).
  - by apply not_elem_of_nil in Hj.
Qed.

Context (Hfs : files_readable).

Lemma load_entry_total st i : domains_ok st -> in_pool st i -> exists st', load_entry pf st i = Ret st'.
Proof using Hfs.
  intros Hok (f & Hf & Hi). unfold load_entry.
  destruct (Z.leb_spec (df_decided (get_df st i)) 0) as [Hle|Hgt]; [|by eexists].
  pose proof (proj2 (entry_spec st i f Hok) (conj Hf Hi)) as Ef. rewrite Ef.
  assert (get_df st i = DomainFile 0 None) as ->.
  { unfold get_df in *. destruct (docs st !! i) as [df|] eqn:Ed.
    - destruct (dok_docs _ Hok i df Ed) as [H1 _]. lia.
    - rewrite Ef in *. destruct (decided f); simpl in *; [lia|done]. }
  destruct (Hfs (filename f)) as [df Hdf]. rewrite Hdf. by eexists.
Qed.

Lemma load_successors_total l st :
  domains_ok st -> (forall j, Some j ∈ l -> in_pool st j) -> exists st', load_successors pf l st = Ret st'.
Proof using Hfs.
  revert st. induction l as [|[i|] l IH]; intros st Hok Hl; cbn [load_successors]; try by eexists.
  destruct (load_entry_total st i Hok) as [st1 E]; [apply Hl, list_elem_of_here|]. rewrite E. cbn [mbind load_bind].
  destruct (load_entry_ok st i st1 Hok E) as (O1 & L1 & _). destruct (df_data (get_df st1 i)); [by eexists|].
  apply IH; [done|]. intros j Hj. eapply in_pool_later; [exact L1|]. by apply Hl, list_elem_of_further.
Qed.

Lemma load_first_total st i : domains_ok st -> in_pool st i -> exists st', load_first pf st i = Ret st'.
Proof using Hfs.
  intros Hok Hi. unfold load_first. destruct (load_entry_total st i Hok Hi) as [st1 E]. rewrite E. cbn [mbind load_bind].
  destruct (load_entry_ok st i st1 Hok E) as (O1 & L1 & _). destruct (df_data (get_df st1 i)); [by eexists|].
  apply load_successors_total; [done|]. intros j. by apply successors_in_pool.
Qed.

(** ** Entries for a locale name *)

Lemma extend_pool st p :
  domains_ok st -> pool_ok p -> extends (fun _ => False) (pool_of st) p ->
  domains_ok (Domains p (docs st)) /\ later_than st (Domains p (docs st)).
Proof using Type.
  intros Hok Hp [_ F S].
  assert (Hok' : domains_ok (Domains p (docs st))).
  { split; [done|]. simpl. intros i df Hi. destruct (dok_docs _ Hok i df Hi) as (H1 & f & Hf & Hfi & Hc).
    split; [done|]. exists f. auto. }
  split; [done|]. split; simpl; [auto|..]; intros f Hf.
  - unfold successors. simpl. rewrite S; [done| |tauto].
    pose proof (pool_ids _ (dok_pool _ Hok)) as Hids. rewrite Forall_forall in Hids. auto.
  - intros _. unfold get_df. simpl. destruct (docs st !! file_id f); [done|].
    rewrite (proj2 (entry_spec _ (file_id f) f Hok') (conj (F _ Hf) eq_refl)).
    by rewrite (proj2 (entry_spec st (file_id f) f Hok) (conj Hf eq_refl)).
Qed.

(** The file name of a locale in directory [dirname]; an absolute language
    name stands for itself. *)
Definition catalog_name (nm : names) (dirname : cstr) (mask : Z) : cstr :=
  dir_part (effective nm [dirname]) ++ locale_part nm mask.

Definition is_entry (st : domains) (i : nat) (name : cstr) : Prop :=
  exists f, f ∈ files (pool_of st) /\ file_id f = i /\ filename f = name.

Lemma make_ok nm do_allocate dirname mask st :
  names_ok nm -> wf_cstr dirname -> 0 <= mask <= 15 -> domains_ok st ->
  exists r st', make pf nm do_allocate (dirname ++ [0]) mask st = Ret (r, st') /\
    domains_ok st' /\ later_than st st' /\
    (forall i, r = Some i -> is_entry st' i (catalog_name nm dirname mask)) /\ docs st' = docs st /\
    (do_allocate = true -> r = None -> exists k size, pl_lmal pf k size = false).
Proof using Type.
  intros Hnm Hd Hm Hok. assert (Hds : Forall wf_cstr [dirname]) by (by repeat constructor).
  assert (Hname : abs_filename nm (argz (effective nm [dirname])) mask = catalog_name nm dirname mask)
    by (apply abs_filename_spec; by apply wf_effective).
  unfold make. replace (dirname ++ [0]) with (argz [dirname]) by (by rewrite argz_cons).
  destruct do_allocate.
  - destruct (make_spec (pl_lmal pf) nm Hnm l10n_fuel [dirname] mask (pool_of st)) as (r & p & E & Hp & He & Hl & _);
      [done|done| |apply Hok|].
    { unfold depth, l10n_fuel, effective. case_if; simpl; lia. }
    rewrite E. destruct (extend_pool st p Hok Hp He) as [O L]. eexists r, _. split_and!; [done..| |done|].
    + intros i ->. unfold is_entry. rewrite <- Hname. exact Hl.
    + intros _ ->. exact Hl.
  - destruct (lookup_spec (pl_lmal pf) nm Hnm (pred l10n_fuel) [dirname] mask (pool_of st) Hds (dok_pool _ Hok))
      as (r & E & Hr). change (S (pred l10n_fuel)) with l10n_fuel in E. rewrite E.
    destruct (extend_pool st (did_alloc (pool_of st)) Hok) as [O L]; [apply pool_ok_alloc, Hok|by split|].
    eexists r, _. split_and!; [done..| |done|done].
    intros i Hi. apply Hr in Hi as [_ Hi]. unfold is_entry. rewrite <- Hname. exact Hi.
Qed.

Lemma explode_name_fails mal name : _nl_explode_name mal name = None -> exists size, mal size = false.
Proof using Type.
  unfold _nl_explode_name. case_if; [done|].
  destruct (explode_territory _ _) as [[[b cp] t] m]. unfold explode_codeset.
  repeat (cbv zeta; cbn [mbind option_bind]; case_match; try done); intros _;
    match goal with H : _nl_normalize_codeset _ _ = None |- _ => rewrite normalize_unfold in H; revert H end;
    match goal with |- (if ?m ?s then _ else _) = _ -> _ => destruct (m s) eqn:E; [done|by exists s] end.
Qed.
End Spec.

Definition empty_domains : domains := Domains empty_pool ∅.

Lemma empty_domains_ok pf `{PriMacros} : domains_ok pf empty_domains.
Proof. split; [exact empty_pool_ok|]. simpl. intros i df Hi. by rewrite lookup_empty in Hi. Qed.

(** ** The result of _nl_find_domain *)

Section Result.
Context {PM : PriMacros} {AT : AliasTable} (pf : platform) (dirname locale domainname : cstr).

(** The names under which the catalog of a locale is looked for: the locale name as
    it is, or the exploded name with all its parts (of the alias, if it is one). *)
Definition looked_for (name : cstr) : Prop :=
  name = catalog_name (Names locale [] [] [] [] domainname) dirname 0 \/
  exists e, _nl_explode_name (pl_emal pf) (default locale (_nl_expand_alias locale) ++ [0]) = Some e /\
    name = catalog_name (names_of e domainname) dirname (mask e).

Definition no_memory : Prop :=
  pl_strdup pf = false \/ (exists size, pl_emal pf size = false) \/ exists k size, pl_lmal pf k size = false.

Definition found_domain (st : domains) (r : option nat) (st' : domains) : Prop :=
  domains_ok pf st' /\ later_than st st' /\
  match r with
  | None => no_memory
  | Some i => (exists name, is_entry st' i name /\ looked_for name) /\
      loads pf st (up_to_catalog st' (i :: up_to_null (successors st' i))) st'
  end.

Lemma load_found st0 st i name :
  files_readable pf -> domains_ok pf st -> later_than st0 st -> (forall j, docs st !! j = docs st0 !! j) ->
  is_entry st i name -> looked_for name ->
  exists st', (st ← load_first pf st i; Ret (Some i, st)) = Ret (Some i, st') /\ found_domain st0 (Some i) st'.
Proof using Type.
  intros Hfs Hok Hl Hdocs Hi Hn. destruct (Hi) as (f & Hf & Hfi & Hfn).
  destruct (load_first_total pf Hfs st i Hok) as [st' E]; [by exists f|]. rewrite E.
  destruct (load_first_ok pf st i st' Hok E) as (O & L & Hp & D). exists st'. split; [done|].
  split_and!; [done|by eapply later_than_trans|by exists name; split; [exists f; by rewrite Hp|]|].
  destruct (load_first_loads pf st i st' Hok E) as [T Hd]; [by exists f|]. split.
  - rewrite Forall_forall in *. intros j Hj. destruct (T j Hj) as (g & Hg & Hgi & Hm). exists g. by rewrite <- (Hdocs j).
  - intros j Hj. rewrite Hd by done. apply Hdocs.
Qed.
End Result.

Lemma find_domain_total {PM : PriMacros} {AT : AliasTable} (pf : platform)
    (dirname locale domainname : cstr) (st : domains)
    (Hfs : files_readable pf) (Hd : wf_cstr dirname) (Hl : wf_cstr locale) (Hn : wf_cstr domainname)
    (Ha : forall v, _nl_expand_alias locale = Some v -> wf_cstr v) (Hst : domains_ok pf st) :
  exists r st', _nl_find_domain pf dirname locale domainname st = Ret (r, st') /\
    found_domain pf dirname locale domainname st r st'.
Proof.
  unfold _nl_find_domain. assert (Hnil : wf_cstr []) by (by apply Forall_nil_2).
  destruct (make_ok pf (Names locale [] [] [] [] domainname) false dirname 0 st)
    as (r & st1 & E1 & O1 & L1 & N1 & D1 & _); [by split|done|lia|done|].
  rewrite E1. cbn [mbind load_bind]. destruct r as [i|].
  { destruct (load_found pf dirname locale domainname st st1 i _ Hfs O1 L1 ltac:(by rewrite D1) (N1 i eq_refl)) as (st' & E & Hf);
      [by left|]. by exists (Some i), st'. }
  match goal with |- context [if ?b then _ else _] => destruct b eqn:Hdup end.
  { exists None, st1. split; [done|]. split_and!; [done..|]. left.
    destruct (_nl_expand_alias locale); [by destruct (pl_strdup pf)|done]. }
  destruct (_nl_explode_name _ _) as [e|] eqn:Ee; cycle 1.
  { exists None, st1. split; [done|]. split_and!; [done..|]. right; left. by eapply explode_name_fails. }
  assert (Hw : wf_cstr (default locale (_nl_expand_alias locale)))
    by (destruct (_nl_expand_alias locale); simpl; auto).
  destruct (names_of_ok _ _ e domainname Hw Hn Ee) as [Hnm Hm].
  destruct (make_ok pf (names_of e domainname) true dirname (mask e) st1)
    as (r & st2 & E2 & O2 & L2 & N2 & D2 & M2); [done..|].
  rewrite E2. cbn [mbind load_bind]. pose proof (later_than_trans _ _ _ L1 L2) as L. destruct r as [i|].
  - destruct (load_found pf dirname locale domainname st st2 i _ Hfs O2 L ltac:(by rewrite D2, D1) (N2 i eq_refl)) as (st' & E & Hf);
      [right; by exists e|]. by exists (Some i), st'.
  - exists None, st2. split; [done|]. split_and!; [done..|]. right; right. by apply M2.
Qed.

(** C34. [_nl_find_domain] always returns, if no catalog file makes the loader read
    out of bounds.  The entry that it returns is that of the locale name itself
    or of all the parts of the (unaliased) name.  Exactly the entry itself and, while no catalog was found, its successors in their order
    have been loaded, up to the first that has a catalog; each of them has what the loader makes of its file ([tried]), and no other entry is touched.  NULL is
    returned only if an allocation failed.  All entries keep the invariant:
    their data is the catalog in the file of their name; entries that were there
    stay, with their successors, and are not loaded again once decided. *)
Theorem find_domain_correct {PM : PriMacros} {AT : AliasTable} (pf : platform)
    (dirname locale domainname : cstr) (st : domains)
    (Hfs : files_readable pf) (Hd : wf_cstr dirname) (Hl : wf_cstr locale) (Hn : wf_cstr domainname)
    (Ha : forall v, _nl_expand_alias locale = Some v -> wf_cstr v) (Hst : domains_ok pf st) :
  exists r st', _nl_find_domain pf dirname locale domainname st = Ret (r, st') /\
    found_domain pf dirname locale domainname st r st'.
Proof. by apply find_domain_total. Qed.

(** A system with a French catalog, the alias "french" and enough memory. *)
Definition sample_path : cstr := cs "/l/fr/LC_MESSAGES/a.mo".
Definition sample_platform : platform :=
  Platform (fun name => if decide (name = sample_path) then sample_io else no_io)
    (fun _ _ => true) (fun _ => true) true true (fun _ => true) (fun _ => true) (fun _ => true).
Definition sample_alias : AliasTable :=
  fun s => if decide (s = cs "french") then Some (cs "fr_FR") else None.

Lemma sample_readable : @files_readable (pri_fallback 8 8 8) sample_platform.
Proof.
  intros name. simpl. destruct (decide (name = sample_path)); eexists; vm_compute; reflexivity.
Qed.

Lemma sample_alias_wf s v : sample_alias s = Some v -> wf_cstr v.
Proof.
  unfold sample_alias. destruct (decide _); [|done]. intros [= <-].
  apply (bool_decide_unpack _). vm_compute. reflexivity.
Qed.

Lemma find_domain_correct_witness :
  exists i st', @_nl_find_domain (pri_fallback 8 8 8) sample_alias sample_platform (cs "/l") (cs "french")
    (cs "LC_MESSAGES/a.mo") empty_domains = Ret (Some i, st') /\
    is_entry st' i (cs "/l/fr_FR/LC_MESSAGES/a.mo") /\
    exists j, @loads (pri_fallback 8 8 8) sample_platform empty_domains [i; j] st' /\ is_entry st' j sample_path.
Proof.
  destruct (@find_domain_correct (pri_fallback 8 8 8) sample_alias sample_platform (cs "/l") (cs "french")
    (cs "LC_MESSAGES/a.mo") empty_domains sample_readable) as (r & st' & E & Hok & _ & H).
  - apply (bool_decide_unpack _). vm_compute. reflexivity.
  - apply (bool_decide_unpack _). vm_compute. reflexivity.
  - apply (bool_decide_unpack _). vm_compute. reflexivity.
  - exact (sample_alias_wf (cs "french")).
  - apply empty_domains_ok.
  - destruct r as [i|]; [|by destruct H as [H|[[? H]|(? & ? & H)]]].
    destruct H as [(name & Hi & Hn) Hld].
    set (found := @_nl_find_domain (pri_fallback 8 8 8) sample_alias sample_platform (cs "/l") (cs "french") (cs "LC_MESSAGES/a.mo") empty_domains) in *.
    assert (Ec : match found with
      | Ret (Some i, st') => filename <$> entry st' i = Some (cs "/l/fr_FR/LC_MESSAGES/a.mo") /\
          up_to_catalog st' (i :: up_to_null (successors st' i)) = [i; 1%nat] /\ filename <$> entry st' 1 = Some sample_path
      | _ => False
      end) by (vm_compute; split_and!; reflexivity).
    clearbody found. rewrite E in Ec. destruct Ec as (En & Eup & Ej). rewrite Eup in Hld.
    assert (Hent : forall j name, filename <$> entry st' j = Some name -> is_entry st' j name).
    { intros j name' Hj. destruct (entry st' j) as [f|] eqn:Ef; [|done]. injection Hj as <-.
      apply (entry_spec _ _ _ _ Hok) in Ef as [Hf <-]. by exists f. }
    exists i, st'. split; [done|]. split; [by apply Hent|]. exists 1%nat. split; [exact Hld|by apply Hent].
Defined.
