(* ===== verification/SearchTable.v ===== *)
(** * Search tables: what dcigettext.c needs from tfind() and tsearch()

    The interface between the cache of translations and the search trees: the
    operations as a class, and the laws that the clients rely on.  [table_items] is
    the abstraction: the entries, each with the address of its node. *)

From S2P Require Import Prelude.

Open Scope Z_scope.

(** What a comparison function promises on the keys that are in use. *)
Class CompareLaws {K : Type} (compar : K -> K -> Z) (P : K -> Prop) := {
  compar_opp : forall x y, P x -> P y -> compar x y < 0 <-> 0 < compar y x;
  compar_trans : forall x y z, P x -> P y -> P z -> compar x y < 0 -> compar y z < 0 -> compar x z < 0;
  compar_eq : forall x y z, P x -> P y -> P z -> compar x y = 0 -> compar x z < 0 <-> compar y z < 0
}.

(** The operations; [None] where the code would not return. *)
Class SearchTable {K : Type} (compar : K -> K -> Z) := {
  table : Type;
  table_empty : table;
  table_find : K -> table -> option (option nat);
  table_insert : bool -> K -> table -> option (option nat * table);
  table_get : nat -> table -> option K;
  table_update : nat -> (K -> K) -> table -> option table
}.
Arguments table {K} compar {_}.
Arguments table_empty {K} compar {_}.
Arguments table_find {K} compar {_}.
Arguments table_insert {K} compar {_}.
Arguments table_get {K} compar {_}.
Arguments table_update {K} compar {_}.

(** Two keys between which the comparison does not distinguish. *)
Definition same_key {K} (compar : K -> K -> Z) (P : K -> Prop) (x y : K) : Prop :=
  P y /\ forall z, compar y z = compar x z /\ compar z y = compar z x.

Class SearchTableLaws {K : Type} (compar : K -> K -> Z) (P : K -> Prop) `{!SearchTable compar} := {
  table_items : table compar -> list (nat * K) -> Prop;
  items_empty : table_items (table_empty compar) [];
  items_keys : forall t it, table_items t it -> Forall (fun x => P (snd x)) it;
  items_unique : forall t it key x y, table_items t it -> P key -> x ∈ it -> y ∈ it ->
    compar key (snd x) = 0 -> compar key (snd y) = 0 -> x = y;
  items_get : forall t it a k, table_items t it -> (a, k) ∈ it -> table_get compar a t = Some k;
  items_find : forall t it key, table_items t it -> P key ->
    exists q, table_find compar key t = Some q /\
      match q with
      | Some a => exists k, (a, k) ∈ it /\ compar key k = 0
      | None => Forall (fun x => compar key (snd x) <> 0) it
      end;
  items_insert : forall mal t it key, table_items t it -> P key ->
    Forall (fun x => compar key (snd x) <> 0) it ->
    exists q t' it', table_insert compar mal key t = Some (q, t') /\ table_items t' it' /\
      if mal then exists a, q = Some a /\ it' ≡ₚ (a, key) :: it else q = None /\ it' = it;
  items_update : forall t l1 a k l2 f, table_items t (l1 ++ (a, k) :: l2) -> same_key compar P k (f k) ->
    exists t', table_update compar a f t = Some t' /\ table_items t' (l1 ++ (a, f k) :: l2)
}.

(** ** Comparison functions *)

(** The comparison of a part of the keys. *)
Lemma map_laws {K L} (compar : L -> L -> Z) (P : L -> Prop) (part : K -> L) (Q : K -> Prop) :
  CompareLaws compar P -> (forall x, Q x -> P (part x)) ->
  CompareLaws (fun x y => compar (part x) (part y)) Q.
Proof.
  intros [H1 H2 H3] HQ. split; intros.
  - apply H1; auto.
  - apply (H2 _ (part y)); auto.
  - apply H3; auto.
Qed.

(** Two keys compare alike with a third one. *)
Lemma compar_eq_sign {K} (c : K -> K -> Z) (P : K -> Prop) `{!CompareLaws c P} x y z :
  P x -> P y -> P z -> c x y = 0 -> (c x z < 0 <-> c y z < 0) /\ (c z x < 0 <-> c z y < 0).
Proof.
  intros Hx Hy Hz E. pose proof (compar_eq x y z Hx Hy Hz E) as H1. split; [exact H1|].
  assert (E' : c y x = 0) by (pose proof (compar_opp x y Hx Hy); pose proof (compar_opp y x Hy Hx); lia).
  pose proof (compar_eq y x z Hy Hx Hz E'). pose proof (compar_opp z x Hz Hx). pose proof (compar_opp z y Hz Hy).
  pose proof (compar_opp x z Hx Hz). pose proof (compar_opp y z Hy Hz).
  destruct (Z.eq_dec (c x z) 0) as [E0|E0].
  - assert (c y z = 0).
    { destruct (Z.lt_trichotomy (c y z) 0) as [|[|]]; [lia|done|].
      assert (c z y < 0) by lia. assert (c z x = 0) by lia.
      pose proof (compar_eq z x y Hz Hx Hy ltac:(done)). lia. }
    lia.
  - assert (c y z <> 0); [|lia]. intros E1.
    pose proof (compar_eq y z x Hy Hz Hx E1). lia.
Qed.

(** One comparison after the other. *)
Lemma lex_laws {K} (c1 c2 : K -> K -> Z) (P : K -> Prop) :
  CompareLaws c1 P -> CompareLaws c2 P ->
  CompareLaws (fun x y => let r := c1 x y in if negb (r =? 0) then r else c2 x y) P.
Proof.
  intros L1 L2. split; cbv zeta.
  - intros x y Hx Hy. pose proof (compar_opp (compar := c1) x y Hx Hy). pose proof (compar_opp (compar := c1) y x Hy Hx).
    pose proof (compar_opp (compar := c2) x y Hx Hy).
    destruct (Z.eqb_spec (c1 x y) 0), (Z.eqb_spec (c1 y x) 0); cbn [negb]; lia.
  - intros x y z Hx Hy Hz. destruct (Z.eqb_spec (c1 x y) 0) as [E|E]; cbn [negb].
    + destruct (compar_eq_sign c1 P x y z Hx Hy Hz E) as [S1 S2].
      pose proof (compar_opp (compar := c1) z x Hz Hx). pose proof (compar_opp (compar := c1) z y Hz Hy).
      pose proof (compar_trans (compar := c2) x y z Hx Hy Hz).
      destruct (Z.eqb_spec (c1 y z) 0), (Z.eqb_spec (c1 x z) 0); cbn [negb]; lia.
    + intros Hxy. destruct (Z.eqb_spec (c1 y z) 0) as [E'|E']; cbn [negb].
      * destruct (compar_eq_sign c1 P y z x Hy Hz Hx E') as [S1 S2].
        destruct (Z.eqb_spec (c1 x z) 0); cbn [negb]; lia.
      * intros Hyz. pose proof (compar_trans (compar := c1) x y z Hx Hy Hz Hxy Hyz).
        destruct (Z.eqb_spec (c1 x z) 0); cbn [negb]; lia.
  - intros x y z Hx Hy Hz. destruct (Z.eqb_spec (c1 x y) 0) as [E|E]; cbn [negb]; [|by intros []%E].
    intros E2. destruct (compar_eq_sign c1 P x y z Hx Hy Hz E) as [S1 S2].
    pose proof (compar_opp (compar := c1) z x Hz Hx). pose proof (compar_opp (compar := c1) z y Hz Hy).
    pose proof (compar_eq (compar := c2) x y z Hx Hy Hz E2).
    destruct (Z.eqb_spec (c1 x z) 0), (Z.eqb_spec (c1 y z) 0); cbn [negb]; lia.
Qed.
