(* ===== verification/Tsearch.v ===== *)
(** * Search trees: tsearch.c

    The red-black trees behind the cache of known translations.  The nodes are
    objects of a store; the C type [node *], a pointer to a variable or field that
    holds a pointer to a node, is a [slot].  A function is a program of the
    state monad over the store that is undefined ([None]) where it would
    dereference a null or dangling pointer.  [trtree] and the lemmas on it are in
    TsearchSpec. *)

From S2P Require Import Prelude.

Open Scope Z_scope.

Definition loc : Type := nat.

(** [struct node_t] *)
Record node_t {K : Type} := MkNode { nd_key : K; nd_left : option loc; nd_right : option loc; nd_red : bool }.
Arguments node_t : clear implicits.
Arguments MkNode {K}.

(** The variable that holds the root, and the nodes. *)
Record mem {K : Type} := Mem { m_root : option loc; m_heap : gmap loc (node_t K) }.
Arguments mem : clear implicits.
Arguments Mem {K}.

(** [node *]: the root variable, or a field of a node. *)
Inductive slot := RootSlot | LeftSlot (a : loc) | RightSlot (a : loc).

#[export] Instance slot_eq_dec : EqDecision slot.
Proof. solve_decision. Defined.

(** ** Programs *)

Definition prog (K A : Type) : Type := mem K -> option (A * mem K).

Definition pret {K A} (x : A) : prog K A := fun m => Some (x, m).
Definition pbind {K A B} (c : prog K A) (f : A -> prog K B) : prog K B :=
  fun m => match c m with Some (x, m) => f x m | None => None end.
Definition stuck {K A} : prog K A := fun _ => None.

Declare Scope prog_scope.
Delimit Scope prog_scope with prog.
Notation "'let*' x := c 'in' d" := (pbind c (fun x => d))
  (at level 10, x binder, c at level 100, d at level 200) : prog_scope.
Notation "c ';;;' d" := (pbind c (fun _ => d)) (at level 199, right associativity) : prog_scope.
Open Scope prog_scope.

Section Tsearch.
Context {K : Type} (compar : K -> K -> Z).

Definition get_node (a : loc) : prog K (node_t K) := fun m =>
  match m_heap m !! a with Some n => Some (n, m) | None => None end.

Definition set_node (a : loc) (f : node_t K -> node_t K) : prog K unit := fun m =>
  match m_heap m !! a with
  | Some n => Some (tt, Mem (m_root m) (<[a := f n]> (m_heap m)))
  | None => None
  end.

Definition set_red (a : loc) (b : bool) : prog K unit :=
  set_node a (fun n => MkNode (nd_key n) (nd_left n) (nd_right n) b).
Definition set_left (a : loc) (p : option loc) : prog K unit :=
  set_node a (fun n => MkNode (nd_key n) p (nd_right n) (nd_red n)).
Definition set_right (a : loc) (p : option loc) : prog K unit :=
  set_node a (fun n => MkNode (nd_key n) (nd_left n) p (nd_red n)).
Definition set_key (a : loc) (k : K) : prog K unit :=
  set_node a (fun n => MkNode k (nd_left n) (nd_right n) (nd_red n)).

(** [*s] and [*s = p] *)
Definition read (s : slot) : prog K (option loc) := fun m =>
  match s with
  | RootSlot => Some (m_root m, m)
  | LeftSlot a => (let* n := get_node a in pret (nd_left n)) m
  | RightSlot a => (let* n := get_node a in pret (nd_right n)) m
  end.

Definition write (s : slot) (p : option loc) : prog K unit := fun m =>
  match s with
  | RootSlot => Some (tt, Mem p (m_heap m))
  | LeftSlot a => set_left a p m
  | RightSlot a => set_right a p m
  end.

(** [*s], where the pointer is dereferenced next. *)
Definition read_nn (s : slot) : prog K loc :=
  let* p := read s in match p with Some a => pret a | None => stuck end.

(** [p != NULL && p->red], and [if (p) p->red = 0] *)
Definition is_red (p : option loc) : prog K bool :=
  match p with
  | Some a => let* n := get_node a in pret (nd_red n)
  | None => pret false
  end.

Definition blacken (p : option loc) : prog K unit :=
  match p with Some a => set_red a false | None => pret tt end.

(** ** maybe_split_for_insert *)

(** The rotations; [rp], [lp] are the fields of [root]. *)
Definition rotate_child (root p gp : loc) (gparentp : slot) (p_r : Z) : prog K unit :=
  let rp := RightSlot root in
  let lp := LeftSlot root in
  set_red p true;;; set_red gp true;;; set_red root false;;;
  (if p_r <? 0 then
     let* x := read rp in set_left p x;;; write rp (Some p);;;
     let* y := read lp in set_right gp y;;; write lp (Some gp)
   else
     let* x := read lp in set_right p x;;; write lp (Some p);;;
     let* y := read rp in set_left gp y;;; write rp (Some gp));;;
  write gparentp (Some root).

Definition rotate_parent (p gp : loc) (parentp gparentp : slot) (p_r : Z) : prog K unit :=
  let* x := read parentp in write gparentp x;;;
  set_red p false;;; set_red gp true;;;
  if p_r <? 0 then
    let* n := get_node p in set_left gp (nd_right n);;; set_right p (Some gp)
  else
    let* n := get_node p in set_right gp (nd_left n);;; set_left p (Some gp).

Definition fix_red_parent (root : loc) (parentp gparentp : option slot) (p_r gp_r : Z) : prog K unit :=
  match parentp with
  | None => pret tt
  | Some parentp =>
      let* p := read_nn parentp in
      let* pn := get_node p in
      if nd_red pn then
        match gparentp with
        | None => stuck
        | Some gparentp =>
            let* gp := read_nn gparentp in
            if negb (Bool.eqb (0 <? p_r) (0 <? gp_r)) then rotate_child root p gp gparentp p_r
            else rotate_parent p gp parentp gparentp p_r
        end
      else pret tt
  end.

Definition maybe_split_for_insert (rootp : slot) (parentp gparentp : option slot) (p_r gp_r : Z)
    (mode : bool) : prog K unit :=
  let* root := read_nn rootp in
  let* r := read (RightSlot root) in
  let* l := read (LeftSlot root) in
  let* rr := is_red r in
  let* lr := is_red l in
  if mode || (rr && lr) then
    set_red root true;;; blacken r;;; blacken l;;;
    fix_red_parent root parentp gparentp p_r gp_r
  else pret tt.

(** ** tsearch *)

Inductive descent :=
| Found (a : loc)
| Stop (nextp rootp : slot) (parentp : option slot) (r p_r : Z).

(** The loop; [nextp = rootp] at its head. *)
Fixpoint tsearch_loop (fuel : nat) (key : K) (rootp : slot) (parentp gparentp : option slot)
    (p_r gp_r : Z) : prog K descent :=
  match fuel with
  | O => stuck
  | S fuel =>
      let* root := read_nn rootp in
      let* n := get_node root in
      let r := compar key (nd_key n) in
      if r =? 0 then pret (Found root)
      else
        maybe_split_for_insert rootp parentp gparentp p_r gp_r false;;;
        let nextp := if r <? 0 then LeftSlot root else RightSlot root in
        let* next := read nextp in
        match next with
        | None => pret (Stop nextp rootp parentp r p_r)
        | Some _ => tsearch_loop fuel key nextp (Some rootp) parentp r p_r
        end
  end.

(** The number of nodes bounds the length of a path. *)
Definition tree_fuel : prog K nat := fun m => Some (S (size (m_heap m)), m).

(** [malloc (sizeof (struct node_t))] with the fields of the new node. *)
Definition new_node (mal : bool) (key : K) : prog K (option loc) := fun m =>
  if mal then
    let q := fresh (dom (m_heap m)) in
    Some (Some q, Mem (m_root m) (<[q := MkNode key None None true]> (m_heap m)))
  else Some (None, m).

Definition insert_at (mal : bool) (key : K) (nextp rootp : slot) (parentp : option slot) (r p_r : Z)
    : prog K (option loc) :=
  let* q := new_node mal key in
  match q with
  | None => pret None
  | Some q =>
      write nextp (Some q);;;
      (if decide (nextp = rootp) then pret tt
       else maybe_split_for_insert nextp (Some rootp) parentp r p_r true);;;
      pret (Some q)
  end.

Definition tsearch (mal : bool) (key : K) : prog K (option loc) :=
  let* root := read RootSlot in
  blacken root;;;
  match root with
  | None => insert_at mal key RootSlot RootSlot None 0 0
  | Some _ =>
      let* fuel := tree_fuel in
      let* d := tsearch_loop fuel key RootSlot None None 0 0 in
      match d with
      | Found a => pret (Some a)
      | Stop nextp rootp parentp r p_r => insert_at mal key nextp rootp parentp r p_r
      end
  end.

(** ** tfind *)

Fixpoint tfind_loop (fuel : nat) (key : K) (rootp : slot) : prog K (option loc) :=
  match fuel with
  | O => stuck
  | S fuel =>
      let* p := read rootp in
      match p with
      | None => pret None
      | Some root =>
          let* n := get_node root in
          let r := compar key (nd_key n) in
          if r =? 0 then pret (Some root)
          else tfind_loop fuel key (if r <? 0 then LeftSlot root else RightSlot root)
      end
  end.

Definition tfind (key : K) : prog K (option loc) :=
  let* fuel := tree_fuel in tfind_loop fuel key RootSlot.
End Tsearch.
