(* ===== verification/TsearchSpec.v ===== *)
(** * Trees in the store

    [trtree] is a binary tree whose nodes carry their addresses; [rep m t] says that
    store [m] holds tree [t].  A position in a tree is a list of frames, as in a
    zipper.  The file shows what the steps of tsearch.c do to the tree: the
    recolourings and the rotations. *)

From S2P Require Import Prelude Tsearch.

Open Scope Z_scope.

Inductive trtree (K : Type) :=
| Lf
| Nd (a : loc) (red : bool) (l : trtree K) (k : K) (r : trtree K).
Arguments Lf {K}.
Arguments Nd {K}.

(** One step up: the hole is the left or the right child of the node. *)
Inductive frame (K : Type) :=
| FL (a : loc) (red : bool) (k : K) (r : trtree K)
| FR (a : loc) (red : bool) (l : trtree K) (k : K).
Arguments FL {K}.
Arguments FR {K}.

Section Rep.
Context {K : Type}.
Implicit Types (t l r : trtree K) (f : frame K) (c : list (frame K)) (m : mem K) (h : gmap loc (node_t K)).

Definition ptr t : option loc := match t with Lf => None | Nd a _ _ _ _ => Some a end.

Definition up f t : trtree K :=
  match f with FL a red k r => Nd a red t k r | FR a red l k => Nd a red l k t end.

Fixpoint plug c t : trtree K := match c with [] => t | f :: c => plug c (up f t) end.

Fixpoint locs t : list loc := match t with Lf => [] | Nd a _ l _ r => a :: locs l ++ locs r end.

Definition frame_loc f : loc := match f with FL a _ _ _ | FR a _ _ _ => a end.
Definition frame_tree f : trtree K := match f with FL _ _ _ r => r | FR _ _ l _ => l end.
Definition frame_red f : bool := match f with FL _ red _ _ | FR _ red _ _ => red end.
Definition frame_locs f : list loc := frame_loc f :: locs (frame_tree f).
Definition ctx_locs c : list loc := concat (map frame_locs c).

(** The slot of the hole. *)
Definition slot_of c : slot :=
  match c with
  | [] => RootSlot
  | FL a _ _ _ :: _ => LeftSlot a
  | FR a _ _ _ :: _ => RightSlot a
  end.

Fixpoint shape h t : Prop :=
  match t with
  | Lf => True
  | Nd a red l k r => h !! a = Some (MkNode k (ptr l) (ptr r) red) /\ shape h l /\ shape h r
  end.

Definition frame_node f (p : option loc) : node_t K :=
  match f with
  | FL _ red k r => MkNode k p (ptr r) red
  | FR _ red l k => MkNode k (ptr l) p red
  end.

(** The part of the store around a hole that holds pointer [p]. *)
Fixpoint shape_ctx (root : option loc) h c (p : option loc) : Prop :=
  match c with
  | [] => root = p
  | f :: c => h !! frame_loc f = Some (frame_node f p) /\ shape h (frame_tree f) /\
      shape_ctx root h c (Some (frame_loc f))
  end.

Definition rep m t : Prop := m_root m = ptr t /\ shape (m_heap m) t /\ NoDup (locs t).

Definition rep_at m c t : Prop :=
  shape_ctx (m_root m) (m_heap m) c (ptr t) /\ shape (m_heap m) t /\ NoDup (ctx_locs c ++ locs t).

Lemma locs_up f t : locs (up f t) ≡ₚ frame_locs f ++ locs t.
Proof using Type. destruct f; unfold frame_locs; simpl; [by rewrite (Permutation_app_comm (locs t))|done]. Qed.

Lemma locs_plug c t : locs (plug c t) ≡ₚ ctx_locs c ++ locs t.
Proof using Type.
  revert t. induction c as [|f c IH]; intros t; [done|]. cbn [plug]. rewrite IH, locs_up. unfold ctx_locs. cbn [map concat].
  rewrite !app_assoc. f_equiv. by rewrite Permutation_app_comm.
Qed.

Lemma ptr_up f t : ptr (up f t) = Some (frame_loc f).
Proof using Type. by destruct f. Qed.

Lemma shape_up h f t :
  shape h (up f t) <-> h !! frame_loc f = Some (frame_node f (ptr t)) /\ shape h (frame_tree f) /\ shape h t.
Proof using Type. destruct f; simpl; tauto. Qed.

Lemma rep_at_up m f c t : rep_at m (f :: c) t <-> rep_at m c (up f t).
Proof using Type.
  unfold rep_at. rewrite ptr_up, shape_up. cbn [shape_ctx].
  assert (ctx_locs (f :: c) ++ locs t ≡ₚ ctx_locs c ++ locs (up f t)) as ->; [|tauto].
  rewrite locs_up. unfold ctx_locs. cbn [map concat]. rewrite !app_assoc. f_equiv. by rewrite Permutation_app_comm.
Qed.

Lemma rep_up m f c t : rep_at m (f :: c) t -> rep_at m c (up f t).
Proof using Type. apply rep_at_up. Qed.

Lemma rep_down m f c t : rep_at m c (up f t) -> rep_at m (f :: c) t.
Proof using Type. apply rep_at_up. Qed.

Lemma rep_at_plug m c t : rep m (plug c t) <-> rep_at m c t.
Proof using Type.
  revert t. induction c as [|f c IH]; intros t; [unfold rep, rep_at; simpl; tauto|].
  cbn [plug]. by rewrite IH, rep_at_up.
Qed.

(** ** What a change of the store leaves alone *)

Lemma shape_frame h h' t : (forall b, b ∈ locs t -> h' !! b = h !! b) -> shape h t -> shape h' t.
Proof using Type.
  induction t as [|a red l IHl k r IHr]; intros Hb; simpl; [done|]. simpl in Hb. intros (Ha & Hl & Hr).
  split_and!; [rewrite Hb by set_solver; done|apply IHl; set_solver|apply IHr; set_solver].
Qed.

Lemma shape_ctx_frame root h h' c p :
  (forall b, b ∈ ctx_locs c -> h' !! b = h !! b) -> shape_ctx root h c p -> shape_ctx root h' c p.
Proof using Type.
  revert p. induction c as [|f c IH]; intros p Hb; [done|]. cbn [shape_ctx]. unfold ctx_locs in Hb. simpl in Hb.
  intros (Hf & Ht & Hc). split_and!; [rewrite Hb by set_solver; done| |apply IH; [set_solver|done]].
  eapply shape_frame; [|done]. set_solver.
Qed.

(** Reading and writing the slot of a hole. *)
Lemma read_slot root h c p :
  shape_ctx root h c p -> read (slot_of c) (Mem root h) = Some (p, Mem root h).
Proof using Type.
  destruct c as [|[a red k r|a red l k] c]; simpl; [by intros ->|..]; intros (Ha & _);
    unfold pbind, get_node; simpl; by rewrite Ha.
Qed.

Lemma write_slot root h c p q :
  NoDup (ctx_locs c) -> shape_ctx root h c p ->
  exists root' h', write (slot_of c) q (Mem root h) = Some (tt, Mem root' h') /\
    shape_ctx root' h' c q /\ (forall b, b ∉ ctx_locs c -> h' !! b = h !! b).
Proof using Type.
  destruct c as [|f c]; intros Hnd H; simpl; [by eexists q, h|].
  simpl in H. destruct H as (Ha & Ht & Hc). unfold ctx_locs in Hnd. simpl in Hnd.
  rewrite NoDup_cons, NoDup_app in Hnd. destruct Hnd as (Hn1 & Hn2 & Hn3 & Hn4).
  exists root, (<[frame_loc f := frame_node f q]> h). split_and!.
  - destruct f; simpl in *; unfold set_left, set_right, set_node; simpl; by rewrite Ha.
  - by rewrite lookup_insert_eq.
  - eapply shape_frame; [|done]. intros b Hb. rewrite lookup_insert_ne; [done|]. set_solver.
  - eapply shape_ctx_frame; [|done]. intros b Hb. rewrite lookup_insert_ne; [done|].
    intros <-. apply Hn1. apply elem_of_app. by right.
  - intros b Hb. rewrite lookup_insert_ne; [done|]. intros <-. apply Hb. unfold ctx_locs. simpl.
    by left.
Qed.

(** ** Running programs *)

(** Inequalities of addresses from [NoDup]. *)
Lemma rep_at_disjoint m c t : rep_at m c t -> NoDup (ctx_locs c) /\ NoDup (locs t) /\ ctx_locs c ## locs t.
Proof using Type.
  intros (_ & _ & Hnd). apply NoDup_app in Hnd as (H1 & H2 & H3). split_and!; [done..|].
  intros x Hx Hx'. by eapply H2.
Qed.

(** The store is changed inside the subtree only. *)
Lemma rep_at_local root h h' c t t' :
  rep_at (Mem root h) c t -> ptr t' = ptr t -> locs t' ≡ₚ locs t -> shape h' t' ->
  (forall b, b ∉ locs t -> h' !! b = h !! b) -> rep_at (Mem root h') c t'.
Proof using Type.
  intros Hr Hp Hl Hs Hb. destruct (rep_at_disjoint _ _ _ Hr) as (_ & _ & Hd). destruct Hr as (Hc & Ht & Hnd).
  simpl in *. split_and!; simpl; [|done|by rewrite Hl].
  rewrite Hp. eapply shape_ctx_frame; [|done]. intros b Hbc. apply Hb. intros Hbt. by apply (Hd b).
Qed.

Definition recolour (b : bool) t : trtree K := match t with Lf => Lf | Nd a _ l k r => Nd a b l k r end.

Lemma set_red_at m c a b b' l k r :
  rep_at m c (Nd a b l k r) -> exists m', set_red a b' m = Some (tt, m') /\ rep_at m' c (Nd a b' l k r).
Proof using Type.
  destruct m as [root h]. intros Hr. pose proof (rep_at_disjoint _ _ _ Hr) as (_ & Hnd & _).
  destruct (proj1 (proj2 Hr)) as (Ha & Hl & Hrr). simpl in Ha, Hl, Hrr. simpl in Hnd.
  apply NoDup_cons in Hnd as [Hna _]. rewrite not_elem_of_app in Hna. destruct Hna as [Hal Har].
  unfold set_red, set_node. simpl. rewrite Ha. eexists. split; [done|].
  eapply rep_at_local; [exact Hr|done|done| |].
  - simpl. rewrite lookup_insert_eq. split_and!; [done|..]; (eapply shape_frame; [|eassumption]);
      intros x Hx; apply lookup_insert_ne; set_solver.
  - simpl. intros x Hx. apply lookup_insert_ne. set_solver.
Qed.

Lemma blacken_at m c t :
  rep_at m c t -> exists m', blacken (ptr t) m = Some (tt, m') /\ rep_at m' c (recolour false t).
Proof using Type. destruct t; simpl; [by eexists|]. apply set_red_at. Qed.

(** [*p] for a slot inside a tree, and a whole node. *)
Lemma get_node_at m c a b l k r :
  rep_at m c (Nd a b l k r) -> get_node a m = Some (MkNode k (ptr l) (ptr r) b, m).
Proof using Type. intros (_ & (Ha & _) & _). unfold get_node. by rewrite Ha. Qed.

Lemma read_at m c t : rep_at m c t -> read (slot_of c) m = Some (ptr t, m).
Proof using Type. destruct m. intros (Hc & _). by apply read_slot. Qed.

Lemma read_nn_at m c a b l k r : rep_at m c (Nd a b l k r) -> read_nn (slot_of c) m = Some (a, m).
Proof using Type. intros H. unfold read_nn, pbind. by rewrite (read_at _ _ _ H). Qed.
End Rep.

(** A step of a run: a known node of the store is read or updated. *)
Ltac run_step :=
  match goal with
  | |- context [match m_heap (Mem _ _) !! _ with _ => _ end] => simpl m_heap
  | H : ?h !! ?a = Some _ |- context [?h !! ?a] => rewrite H
  | |- context [<[?a := _]> _ !! ?a] => rewrite lookup_insert_eq
  | |- context [<[?a := _]> _ !! ?b] => rewrite (lookup_insert_ne _ a b) by congruence
  end.
Ltac run_simpl :=
  cbv beta zeta delta [set_red set_left set_right set_key get_node set_node pbind pret];
  cbn [m_heap m_root nd_key nd_left nd_right nd_red read write];
  cbv beta zeta delta [set_red set_left set_right set_key get_node set_node pbind pret].
Ltac run := repeat (run_simpl; run_step); run_simpl.

(** The facts on addresses that a tree in the store gives: the addresses of its nodes
    differ, and are not in its subtrees or in the context. *)
Ltac addresses H :=
  let H1 := fresh "Hnd" in
  pose proof (proj2 (proj2 H)) as H1; rewrite Permutation_app_comm in H1; simpl in H1;
  rewrite <- ?app_assoc in H1; simpl in H1; rewrite <- ?app_assoc in H1; simpl in H1;
  rewrite <- ?app_assoc in H1;
  repeat rewrite ?NoDup_cons, ?NoDup_app, ?not_elem_of_cons, ?not_elem_of_app in H1;
  destruct_and? H1.

(** An address is not one of others. *)
Ltac apart :=
  repeat match goal with
  | Hb : ?b ∈ ?l, H : forall x, x ∈ ?l -> x ∉ _ |- _ =>
      pose proof (H b Hb); clear H
  | H : _ ∉ _ ++ _ |- _ => rewrite not_elem_of_app in H; destruct H
  | H : _ ∉ _ :: _ |- _ => rewrite not_elem_of_cons in H; destruct H
  end;
  first [ assumption | congruence
        | let E := fresh in intros E; first [contradiction | subst; contradiction | congruence] ].

(** A rotation of the tree below context [c]: the pointer [q] to the new root is
    written to the slot of the context last, or first. *)
Ltac nodup_rotated Hnd := eapply NoDup_Permutation_proper; [|exact Hnd]; simpl; solve_Permutation.

Ltac write_last root c p q Hc Hnd :=
  match goal with |- context [write _ _ (Mem _ ?h')] =>
    let h2 := fresh "h2" in set (h2 := h');
    destruct (write_slot root h2 c p q) as (root' & h3 & E & Hc' & Hb);
    [ by apply NoDup_app in Hnd as (? & _)
    | eapply shape_ctx_frame; [|exact Hc]; intros b Hbc; unfold h2; by rewrite !lookup_insert_ne by apart
    | rewrite E; eexists; split; [done|]; split_and!; simpl;
      [ done
      | rewrite !Hb by apart; unfold h2; run; split_and!;
        try (done || (eapply shape_frame; [|eassumption]; intros b Hbt; rewrite Hb by apart;
                      unfold h2; by rewrite !lookup_insert_ne by apart))
      | nodup_rotated Hnd ] ]
  end.

Ltac write_first root h c p q Hc Hnd :=
  destruct (write_slot root h c p q) as (root' & h3 & E & Hc' & Hb);
  [ by apply NoDup_app in Hnd as (? & _)
  | exact Hc
  | rewrite E;
    repeat match goal with H : h !! ?a = Some _ |- _ => rewrite <- (Hb a) in H by apart end; run;
    eexists; split; [done|]; split_and!; simpl;
    [ eapply shape_ctx_frame; [|exact Hc']; intros b Hbc; by rewrite !lookup_insert_ne by apart
    | run; split_and!;
      try (done || (eapply shape_frame; [|eassumption]; intros b Hbt;
                    rewrite ?lookup_insert_ne by apart; apply Hb; apart))
    | nodup_rotated Hnd ] ].

Section Rotations.
Context {K : Type}.
Implicit Types (t A B C D X : trtree K) (c : list (frame K)) (m : mem K).

(** The edges differ: the child becomes the top of the tree. *)
Lemma rotate_child_right m c g cg A kg p cp a ca B ka C kp D p_r :
  p_r < 0 -> rep_at m c (Nd g cg A kg (Nd p cp (Nd a ca B ka C) kp D)) ->
  exists m', rotate_child a p g (slot_of c) p_r m = Some (tt, m') /\
    rep_at m' c (Nd a false (Nd g true A kg B) ka (Nd p true C kp D)).
Proof using Type.
  intros Hp Hr. addresses Hr. destruct m as [root h]. destruct Hr as (Hc & Hs & Hnd).
  simpl in Hs. destruct_and! Hs. unfold rotate_child. rewrite (proj2 (Z.ltb_lt _ _) Hp). simpl m_heap in *.
  run. write_last root c (Some g) (Some a) Hc Hnd.
Qed.

Lemma rotate_child_left m c g cg A kp p cp a ca B ka C kg D p_r :
  0 <= p_r -> rep_at m c (Nd g cg (Nd p cp A kp (Nd a ca B ka C)) kg D) ->
  exists m', rotate_child a p g (slot_of c) p_r m = Some (tt, m') /\
    rep_at m' c (Nd a false (Nd p true A kp B) ka (Nd g true C kg D)).
Proof using Type.
  intros Hp Hr. addresses Hr. destruct m as [root h]. destruct Hr as (Hc & Hs & Hnd).
  simpl in Hs. destruct_and! Hs. unfold rotate_child. rewrite (proj2 (Z.ltb_ge _ _) Hp). simpl m_heap in *.
  run. write_last root c (Some g) (Some a) Hc Hnd.
Qed.

(** The edges are of the same type: the parent becomes the top. *)
Lemma rotate_parent_right m c g cg p cp X kp C kg D p_r :
  p_r < 0 -> rep_at m c (Nd g cg (Nd p cp X kp C) kg D) ->
  exists m', rotate_parent p g (LeftSlot g) (slot_of c) p_r m = Some (tt, m') /\
    rep_at m' c (Nd p false X kp (Nd g true C kg D)).
Proof using Type.
  intros Hp Hr. addresses Hr. destruct m as [root h]. destruct Hr as (Hc & Hs & Hnd).
  simpl in Hs. destruct_and! Hs. unfold rotate_parent. rewrite (proj2 (Z.ltb_lt _ _) Hp). simpl m_heap in *.
  run. write_first root h c (Some g) (Some p) Hc Hnd.
Qed.

Lemma rotate_parent_left m c g cg p cp A kg B kp X p_r :
  0 <= p_r -> rep_at m c (Nd g cg A kg (Nd p cp B kp X)) ->
  exists m', rotate_parent p g (RightSlot g) (slot_of c) p_r m = Some (tt, m') /\
    rep_at m' c (Nd p false (Nd g true A kg B) kp X).
Proof using Type.
  intros Hp Hr. addresses Hr. destruct m as [root h]. destruct Hr as (Hc & Hs & Hnd).
  simpl in Hs. destruct_and! Hs. unfold rotate_parent. rewrite (proj2 (Z.ltb_ge _ _) Hp). simpl m_heap in *.
  run. write_first root h c (Some g) (Some p) Hc Hnd.
Qed.
End Rotations.
