(* ===== verification/TsearchInsert.v ===== *)
(** * tsearch() keeps red-black search trees

    The insertion of tsearch.c works from the root down: on its way it splits nodes
    with two red children, and repairs two red edges in a row by a rotation around
    the grandparent.  After a rotation its pointers to the parent and
    the grandparent are out of date; [loop_inv] says why they are not used. *)

From Stdlib Require Import Sorted.
From S2P Require Import Prelude Tsearch TsearchSpec.

Open Scope Z_scope.

(** Equality of lists up to associativity of [++]. *)
Ltac flat_app := repeat (rewrite <- app_assoc; simpl); reflexivity.

Section Trees.
Context {K : Type}.
Implicit Types (t l r : trtree K) (f : frame K) (c : list (frame K)).

Definition colour t : bool := match t with Lf => false | Nd _ b _ _ _ => b end.

(** [n] black nodes on every path, and no two red nodes in a row. *)
Fixpoint rbt t (n : nat) : Prop :=
  match t with
  | Lf => n = 0%nat
  | Nd _ true l _ r => colour l = false /\ colour r = false /\ rbt l n /\ rbt r n
  | Nd _ false l _ r => match n with O => False | S n => rbt l n /\ rbt r n end
  end.

(** The same for a context with a hole for a tree of height [n] and colour [b]. *)
Fixpoint ctx_ok c (n : nat) (b : bool) : Prop :=
  match c with
  | [] => True
  | f :: c => rbt (frame_tree f) n /\
      if frame_red f then b = false /\ colour (frame_tree f) = false /\ ctx_ok c n true
      else ctx_ok c (S n) false
  end.

Lemma rbt_up f t n : rbt (up f t) n -> exists n', rbt t n' /\ rbt (frame_tree f) n' /\
  (if frame_red f then n' = n /\ colour t = false /\ colour (frame_tree f) = false else n = S n').
Proof using Type.
  destruct f as [a [] k r|a [] l k]; simpl; intros H; try (destruct n; [done|]); destruct_and? H; eauto 10.
Qed.

Lemma rbt_plug c t n : rbt (plug c t) n -> exists n', rbt t n' /\ ctx_ok c n' (colour t).
Proof using Type.
  revert t. induction c as [|f c IH]; intros t H; [by exists n|]. cbn [plug] in H.
  destruct (IH _ H) as (n1 & H1 & Hc). apply rbt_up in H1 as (n2 & H2 & H3 & H4). exists n2. split; [done|].
  cbn [ctx_ok]. assert (Ec : colour (up f t) = frame_red f) by (by destruct f). rewrite Ec in Hc.
  destruct (frame_red f); destruct_and? H4; subst; auto.
Qed.

Lemma plug_rbt c t n : rbt t n -> ctx_ok c n (colour t) -> exists n', rbt (plug c t) n'.
Proof using Type.
  revert t n. induction c as [|f c IH]; intros t n Ht Hc; [by exists n|]. cbn [plug ctx_ok] in *.
  destruct f as [a [] k r|a [] l k]; simpl in *; destruct_and? Hc;
    (eapply IH; [|eassumption]); simpl; auto.
Qed.

(** In order, with the addresses. *)
Fixpoint items t : list (loc * K) :=
  match t with Lf => [] | Nd a _ l k r => items l ++ (a, k) :: items r end.

Fixpoint before c : list (loc * K) :=
  match c with
  | [] => []
  | FL _ _ _ _ :: c => before c
  | FR a _ l k :: c => before c ++ items l ++ [(a, k)]
  end.

Fixpoint after c : list (loc * K) :=
  match c with
  | [] => []
  | FL a _ k r :: c => (a, k) :: items r ++ after c
  | FR _ _ _ _ :: c => after c
  end.

Lemma items_plug c t : items (plug c t) = before c ++ items t ++ after c.
Proof using Type.
  revert t. induction c as [|f c IH]; intros t; simpl; [by rewrite app_nil_r|]. rewrite IH.
  destruct f; simpl; by rewrite <- ?app_assoc; simpl; rewrite <- ?app_assoc.
Qed.

Lemma items_recolour b t : items (recolour b t) = items t.
Proof using Type. by destruct t. Qed.

(** ** The rotations on trees *)

Definition rotated f1 f2 t : trtree K :=
  match t with
  | Lf => Lf
  | Nd a b B ka C =>
      match f1, f2 with
      | FL p _ kp D, FR g _ A kg => Nd a false (Nd g true A kg B) ka (Nd p true C kp D)
      | FR p _ A kp, FL g _ kg D => Nd a false (Nd p true A kp B) ka (Nd g true C kg D)
      | FL p _ kp X, FL g _ kg D => Nd p false t kp (Nd g true X kg D)
      | FR p _ X kp, FR g _ A kg => Nd p false (Nd g true A kg X) kp t
      end
  end.

Lemma items_rotated f1 f2 t : t <> Lf -> items (rotated f1 f2 t) = items (up f2 (up f1 t)).
Proof using Type.
  destruct t as [|a b B ka C]; [done|]. intros _.
  destruct f1, f2; simpl; rewrite <- ?app_assoc; simpl; rewrite <- ?app_assoc; simpl; done.
Qed.

Lemma rbt_rotated f1 f2 t n :
  rbt t n -> colour t = true -> rbt (frame_tree f1) n -> colour (frame_tree f1) = false ->
  rbt (frame_tree f2) n -> colour (frame_tree f2) = false ->
  rbt (rotated f1 f2 t) (S n) /\ colour (rotated f1 f2 t) = false.
Proof using Type.
  destruct t as [|a [] B ka C]; simpl; try done. intros (? & ? & ? & ?) _ ? ? ? ?.
  destruct f1, f2; simpl in *; split_and!; auto.
Qed.

(** ** Splitting *)

Definition splittable t : bool :=
  match t with Lf => false | Nd _ _ l _ r => colour l && colour r end.

Definition split_node t : trtree K :=
  match t with Lf => Lf | Nd a _ l k r => Nd a true (recolour false l) k (recolour false r) end.

Lemma rbt_red_children t n : rbt t n -> colour t = true -> splittable t = false.
Proof using Type. destruct t as [|a [] l k r]; simpl; try done. intros (-> & _) _. done. Qed.

Lemma rbt_blacken t n : rbt t n -> colour t = true -> rbt (recolour false t) (S n).
Proof using Type. destruct t as [|a [] l k r]; simpl; try done. tauto. Qed.

Lemma rbt_split t n : rbt t n -> splittable t = true -> colour t = false /\ rbt (split_node t) n.
Proof using Type.
  destruct t as [|a b l k r]; simpl; [done|]. intros H [Hl Hr]%andb_true_iff.
  destruct b; [destruct H; congruence|]. destruct n as [|n]; [done|]. destruct H as [H1 H2]. split; [done|].
  split_and!; try (by apply rbt_blacken); by destruct l, r.
Qed.

Lemma blackened_child t n : rbt t n -> colour t = true ->
  colour (recolour false t) = false /\ splittable (recolour false t) = false /\ recolour false t <> Lf.
Proof using Type. destruct t as [|a [] l k r]; simpl; try done. intros (-> & _) _. done. Qed.

(** The number of nodes. *)
Fixpoint nodes t : nat := match t with Lf => 0 | Nd _ _ l _ r => S (nodes l + nodes r) end.

Lemma length_locs t : length (locs t) = nodes t.
Proof using Type. induction t as [|a b l IHl k r IHr]; simpl; [done|]. rewrite length_app. lia. Qed.

(** Balance: a tree of height [d] has at least [2 ^ n - 1] nodes, and [d <= 2 n + 1]. *)
Fixpoint height t : nat := match t with Lf => 0 | Nd _ _ l _ r => S (height l `max` height r) end.

Lemma rbt_height t n : rbt t n -> (height t <= 2 * n + (if colour t then 1 else 0))%nat.
Proof using Type.
  revert n. induction t as [|a b l IHl k r IHr]; intros n; simpl; [lia|].
  destruct b; [intros (El & Er & Hl & Hr)|destruct n as [|n]; [done|intros (Hl & Hr)]];
    specialize (IHl _ Hl); specialize (IHr _ Hr); destruct (colour l), (colour r); try done; lia.
Qed.

Lemma rbt_size t n : rbt t n -> (2 ^ n <= S (nodes t))%nat.
Proof using Type.
  revert n. induction t as [|a b l IHl k r IHr]; intros n; simpl; [intros ->; simpl; lia|].
  destruct b; [intros (El & Er & Hl & Hr)|destruct n as [|n]; [done|intros (Hl & Hr)]];
    specialize (IHl _ Hl); specialize (IHr _ Hr); simpl; lia.
Qed.
End Trees.

(** ** The steps in the store *)

Section Steps.
Context {K : Type}.
Implicit Types (t l r : trtree K) (f : frame K) (c : list (frame K)) (m : mem K).

(** The sign of a comparison that leads into the hole. *)
Definition dir_sign f (r : Z) : Prop := match f with FL _ _ _ _ => r < 0 | FR _ _ _ _ => 0 < r end.

Lemma frame_node_red f p : nd_red (frame_node f p) = frame_red f.
Proof using Type. by destruct f. Qed.

Lemma get_frame m f c t :
  rep_at m (f :: c) t -> read_nn (slot_of c) m = Some (frame_loc f, m) /\
    get_node (frame_loc f) m = Some (frame_node f (ptr t), m).
Proof using Type.
  intros H. apply rep_up in H. split.
  - destruct f; by eapply read_nn_at.
  - destruct f; by eapply get_node_at.
Qed.

Lemma fix_black m f c t a gparentp p_r gp_r :
  rep_at m (f :: c) t -> frame_red f = false ->
  fix_red_parent a (Some (slot_of c)) gparentp p_r gp_r m = Some (tt, m).
Proof using Type.
  intros H Hf. destruct (get_frame m f c t H) as [E1 E2]. unfold fix_red_parent, pbind. rewrite E1, E2.
  by rewrite frame_node_red, Hf.
Qed.

Lemma fix_red m f1 f2 c a b l k r p_r gp_r :
  rep_at m (f1 :: f2 :: c) (Nd a b l k r) -> frame_red f1 = true -> dir_sign f1 p_r -> dir_sign f2 gp_r ->
  exists m', fix_red_parent a (Some (slot_of (f2 :: c))) (Some (slot_of c)) p_r gp_r m = Some (tt, m') /\
    rep_at m' c (rotated f1 f2 (Nd a b l k r)).
Proof using Type.
  intros H Hf D1 D2. destruct (get_frame m f1 (f2 :: c) _ H) as [E1 E2].
  pose proof (rep_up _ _ _ _ H) as H2.
  destruct (get_frame m f2 c _ H2) as [E3 _]. apply rep_up in H2.
  unfold fix_red_parent, pbind. rewrite E1, E2.
  rewrite frame_node_red, Hf.
  rewrite E3. clear E1 E2 E3 H Hf. destruct f1 as [p cp kp D|p cp A kp], f2 as [g cg kg G|g cg G kg]; simpl in D1, D2, H2 |- *;
    repeat first [rewrite (proj2 (Z.ltb_lt 0 p_r)) by lia | rewrite (proj2 (Z.ltb_ge 0 p_r)) by lia];
    repeat first [rewrite (proj2 (Z.ltb_lt 0 gp_r)) by lia | rewrite (proj2 (Z.ltb_ge 0 gp_r)) by lia];
    cbn [Bool.eqb negb].
  - by eapply rotate_parent_right.
  - by eapply rotate_child_right.
  - eapply rotate_child_left; [lia|done].
  - eapply rotate_parent_left; [lia|done].
Qed.

Lemma recolour_split m c a b l k r :
  rep_at m c (Nd a b l k r) ->
  exists m', (set_red a true;;; blacken (ptr r);;; blacken (ptr l)) m = Some (tt, m') /\
    rep_at m' c (split_node (Nd a b l k r)).
Proof using Type.
  intros H. destruct (set_red_at m c a b true l k r H) as (m1 & E1 & H1).
  destruct (blacken_at m1 (FR a true l k :: c) r) as (m2 & E2 & H2); [by apply rep_down|].
  apply rep_up in H2. simpl in H2.
  destruct (blacken_at m2 (FL a true k (recolour false r) :: c) l) as (m3 & E3 & H3); [by apply rep_down|].
  apply rep_up in H3. exists m3. unfold pbind. rewrite E1, E2, E3. done.
Qed.

Lemma is_red_at m c t : rep_at m c t -> is_red (ptr t) m = Some (colour t, m).
Proof using Type.
  destruct t as [|a b l k r]; intros H; simpl; [done|]. unfold pbind. by rewrite (get_node_at m c a b l k r H).
Qed.

(** [maybe_split_for_insert] up to the rotation. *)
Lemma maybe_split_at m c a b l k r parentp gparentp p_r gp_r mode :
  rep_at m c (Nd a b l k r) ->
  if mode || splittable (Nd a b l k r)
  then exists m', rep_at m' c (split_node (Nd a b l k r)) /\
    maybe_split_for_insert (slot_of c) parentp gparentp p_r gp_r mode m =
    fix_red_parent a parentp gparentp p_r gp_r m'
  else maybe_split_for_insert (slot_of c) parentp gparentp p_r gp_r mode m = Some (tt, m).
Proof using Type.
  intros H.
  assert (Hr : rep_at m (FR a b l k :: c) r) by (by apply rep_down).
  assert (Hl : rep_at m (FL a b k r :: c) l) by (by apply rep_down).
  assert (maybe_split_for_insert (slot_of c) parentp gparentp p_r gp_r mode m =
    (if mode || splittable (Nd a b l k r)
     then set_red a true;;; blacken (ptr r);;; blacken (ptr l);;; fix_red_parent a parentp gparentp p_r gp_r
     else pret tt) m) as ->.
  { unfold maybe_split_for_insert. unfold pbind at 1. rewrite (read_nn_at _ _ _ _ _ _ _ H).
    unfold pbind at 1. rewrite (read_at m (FR a b l k :: c) r Hr : read (RightSlot a) m = _).
    unfold pbind at 1. rewrite (read_at m (FL a b k r :: c) l Hl : read (LeftSlot a) m = _).
    unfold pbind at 1. rewrite (is_red_at _ _ _ Hr). unfold pbind at 1. rewrite (is_red_at _ _ _ Hl).
    cbn [splittable]. by rewrite (andb_comm (colour r)). }
  destruct (mode || _); [|done].
  destruct (recolour_split m c a b l k r H) as (m' & E & H'). exists m'. split; [done|].
  unfold pbind in E |- *. destruct (set_red a true m) as [[? m1]|]; [|done].
  destruct (blacken (ptr r) m1) as [[? m2]|]; [|done]. by rewrite E.
Qed.
End Steps.

(** ** The way down *)

Section Descent.
Context {K : Type} (compar : K -> K -> Z) (key : K).
Implicit Types (t u l r : trtree K) (f : frame K) (c : list (frame K)) (m : mem K).

Definition frame_key f : K := match f with FL _ _ k _ | FR _ _ _ k => k end.

(** The comparisons led to the hole. *)
Definition path_ok c : Prop := Forall (fun f => dir_sign f (compar key (frame_key f))) c.

(** The child on the side a comparison tells, and its frame. *)
Definition child (s : Z) l r : trtree K := if s <? 0 then l else r.
Definition side (s : Z) a b l (k : K) r : frame K := if s <? 0 then FL a b k r else FR a b l k.

Lemma up_side s a b l k r : up (side s a b l k r) (child s l r) = Nd a b l k r.
Proof using Type. unfold side, child. by case_if. Qed.

Lemma slot_side s a b l k r c :
  slot_of (side s a b l k r :: c) = if s <? 0 then LeftSlot a else RightSlot a.
Proof using Type. unfold side. by case_if. Qed.

Lemma dir_side s a b l k r : s <> 0 -> dir_sign (side s a b l k r) s.
Proof using Type. unfold side. case_if; simpl; lia. Qed.

Lemma key_side s a b l k r : frame_key (side s a b l k r) = k.
Proof using Type. unfold side. by case_if. Qed.

Lemma red_side s a b l k r : frame_red (side s a b l k r) = b.
Proof using Type. unfold side. by case_if. Qed.

Lemma nodes_child s l r : (nodes (child s l r) <= nodes l + nodes r)%nat.
Proof using Type. unfold child. case_if; lia. Qed.

(** A position in a red-black tree in the store. *)
Record position m c t (it : list (loc * K)) : Prop := Position {
  pos_rep : rep_at m c t;
  pos_rbt : exists n, rbt t n /\ ctx_ok c n (colour t);
  pos_path : path_ok c;
  pos_items : items (plug c t) = it
}.

Lemma position_child m c a b l k r it :
  position m c (Nd a b l k r) it -> compar key k <> 0 ->
  position m (side (compar key k) a b l k r :: c) (child (compar key k) l r) it.
Proof using Type.
  intros [H1 (n & H2 & H3) H4 H5] Hk. set (s := compar key k) in *. split.
  - apply rep_down. by rewrite up_side.
  - clear -H2 H3. unfold side, child. destruct b; simpl in H2, H3;
      [destruct H2 as (El & Er & Hl & Hr)|destruct n as [|n]; [done|]; destruct H2 as (Hl & Hr)];
      exists n; case_if; simpl; auto 6.
  - apply Forall_cons_2; [|done]. rewrite key_side. by apply dir_side.
  - cbn [plug]. by rewrite up_side.
Qed.

(** The pointers to the parent and the grandparent are valid, as far as they are used. *)
Definition valid c t (parentp gparentp : option slot) (p_r gp_r : Z) : Prop :=
  match c with
  | [] => parentp = None /\ colour t = false
  | f1 :: c1 => parentp = Some (slot_of c1) /\ dir_sign f1 p_r /\ colour t && colour (frame_tree f1) = false /\
      (frame_red f1 = true ->
       match c1 with
       | [] => False
       | f2 :: c2 => gparentp = Some (slot_of c2) /\ dir_sign f2 gp_r /\ colour (frame_tree f2) = false
       end)
  end.

(** The pointers are valid, or the next node will not be split and is black, or
    this is so for the node after it.  [n] bounds the nodes still to come. *)
Inductive phase c t (parentp gparentp : option slot) (p_r gp_r : Z) : nat -> Prop :=
| Valid : valid c t parentp gparentp p_r gp_r -> phase c t parentp gparentp p_r gp_r (nodes t)
| Settled : colour t = false -> splittable t = false -> t <> Lf -> phase c t parentp gparentp p_r gp_r (nodes t)
| Rotated a l k r : t = Nd a true l k r -> splittable t = false ->
    let u := child (compar key k) l r in
    colour u = false -> splittable u = false -> u <> Lf ->
    phase c t parentp gparentp p_r gp_r (S (nodes u)).

(** What the body of the loop leaves: the next position. *)
Definition next_position a (s : Z) (rootp : slot) parentp (p_r : Z) (n : nat) it m : Prop :=
  exists f c u, slot_of (f :: c) = (if s <? 0 then LeftSlot a else RightSlot a) /\ position m (f :: c) u it /\
    (u = Lf -> valid (f :: c) u (Some rootp) parentp s p_r) /\
    (u <> Lf -> exists n', (n' < n)%nat /\ phase (f :: c) u (Some rootp) parentp s p_r n').

Lemma next_unsplit m c a b l k r it parentp gparentp p_r gp_r n :
  let t := Nd a b l k r in let s := compar key k in
  position m c t it -> s <> 0 -> splittable t = false -> phase c t parentp gparentp p_r gp_r n ->
  next_position a s (slot_of c) parentp p_r n it m.
Proof using Type.
  intros t s Hp Hs Hn Hph. pose proof (position_child m c a b l k r it Hp Hs) as Hc. fold s in Hc.
  exists (side s a b l k r), c, (child s l r). split; [apply slot_side|]. split; [done|].
  pose proof (nodes_child s l r) as Hlt.
  assert (Hnot4 : colour (child s l r) && colour (frame_tree (side s a b l k r)) = false).
  { unfold t in Hn. simpl in Hn. unfold child, side. case_if; simpl; [done|by rewrite andb_comm]. }
  assert (Hv : forall gp gr, (b = true -> valid c t parentp gp p_r gr) ->
    valid (side s a b l k r :: c) (child s l r) (Some (slot_of c)) parentp s p_r).
  { intros gp gr Hb. cbn [valid]. split_and!; [done|by apply dir_side|done|]. rewrite red_side. intros ->.
    specialize (Hb eq_refl). destruct c as [|f1 c1]; simpl in Hb; [by destruct Hb|].
    destruct Hb as (-> & ? & ? & _). done. }
  destruct Hph as [Hval|Hb _ _|a' l' k' r' E Hn' u Hu Hu' Hul].
  - split; intros _; [|exists (nodes (child s l r)); split; [simpl; lia|apply Valid]]; by eapply Hv.
  - simpl in Hb. subst b.
    split; intros _; [|exists (nodes (child s l r)); split; [simpl; lia|apply Valid]]; by eapply (Hv None 0).
  - injection E as -> -> -> -> ->. fold s in u. split; [done|]. intros _.
    exists (nodes u). split; [lia|]. by apply Settled.
Qed.

(** Below a node that was split all is settled. *)
Lemma next_settled m c a b l k r it rootp parentp p_r n n0 :
  let s := compar key k in
  rep_at m c (split_node (Nd a b l k r)) -> rbt (Nd a b l k r) n0 -> splittable (Nd a b l k r) = true ->
  ctx_ok c n0 true -> path_ok c -> items (plug c (Nd a b l k r)) = it -> s <> 0 ->
  (nodes l + nodes r < n)%nat -> next_position a s rootp parentp p_r n it m.
Proof using Type.
  intros s Hr Hb Hs Hc Hp Hi Hs0 Hn. destruct (rbt_split _ _ Hb Hs) as [_ Hb'].
  assert (Hpos : position m c (split_node (Nd a b l k r)) it).
  { split; [done|by exists n0|done|]. rewrite <- Hi, !items_plug. simpl. by rewrite !items_recolour. }
  simpl in Hpos. pose proof (position_child _ _ _ _ _ _ _ _ Hpos Hs0) as Hch. fold s in Hch.
  assert (Hu : let u := child s (recolour false l) (recolour false r) in
    colour u = false /\ splittable u = false /\ u <> Lf /\ (nodes u < n)%nat).
  { simpl in Hs. apply andb_true_iff in Hs as [Hl Hr']. pose proof (nodes_child s (recolour false l) (recolour false r)).
    assert (nodes (recolour false l) = nodes l /\ nodes (recolour false r) = nodes r) as [E1 E2] by (by destruct l, r).
    assert (exists n1, rbt l n1 /\ rbt r n1) as (n1 & H1 & H2).
    { destruct b; simpl in Hb; [by destruct Hb as (? & ? & ? & ?); eexists|].
      destruct n0 as [|n1]; [done|]. by exists n1. }
    destruct (blackened_child l n1 H1 Hl) as (? & ? & ?), (blackened_child r n1 H2 Hr') as (? & ? & ?).
    unfold child in *. cbv zeta. case_if; split_and!; done || lia. }
  cbv zeta in Hu. destruct Hu as (Hu1 & Hu2 & Hu3 & Hu4).
  eexists _, c, _. split; [apply slot_side|]. split; [exact Hch|]. split; [done|]. intros _.
  eexists. split; [exact Hu4|]. by apply Settled.
Qed.

Lemma ctx_red f1 c n :
  ctx_ok (f1 :: c) n false -> frame_red f1 = true ->
  rbt (frame_tree f1) n /\ colour (frame_tree f1) = false /\
  match c with [] => True | f2 :: c2 => frame_red f2 = false /\ rbt (frame_tree f2) n /\ ctx_ok c2 (S n) false end.
Proof using Type.
  cbn [ctx_ok]. intros (H1 & H2) E. rewrite E in H2. destruct H2 as (_ & H2 & H3). split_and!; [done..|].
  destruct c as [|f2 c2]; [done|]. cbn [ctx_ok] in H3. destruct (frame_red f2); [by destruct H3 as (_ & ? & _)|].
  by destruct H3.
Qed.

(** The children of a node that is split. *)
Lemma split_children a b l k r n :
  rbt (Nd a b l k r) n -> splittable (Nd a b l k r) = true ->
  exists l' r', l' = recolour false l /\ r' = recolour false r /\
    (colour l' = false /\ splittable l' = false /\ l' <> Lf /\ (S (nodes l') < nodes (Nd a b l k r))%nat) /\
    (colour r' = false /\ splittable r' = false /\ r' <> Lf /\ (S (nodes r') < nodes (Nd a b l k r))%nat).
Proof using Type.
  intros Hb Hs. simpl in Hs. apply andb_true_iff in Hs as [Hl Hr].
  assert (exists n1, rbt l n1 /\ rbt r n1) as (n1 & H1 & H2).
  { destruct b; simpl in Hb; [by destruct Hb as (? & ? & ? & ?); eexists|].
    destruct n as [|n1]; [done|]. by exists n1. }
  destruct (blackened_child l n1 H1 Hl) as (? & ? & ?), (blackened_child r n1 H2 Hr) as (? & ? & ?).
  eexists _, _. split; [done|]. split; [done|].
  destruct l as [|al bl ll kl rl]; [done|]. destruct r as [|ar br lr kr rr]; [done|].
  simpl. split_and!; done || lia.
Qed.

(** After a double rotation: the next node is red, and the one after it settled. *)
Lemma next_rotated m c a L k R it rootp parentp p_r n :
  let s := compar key k in
  position m c (Nd a false L k R) it -> s <> 0 ->
  (exists x l1 k1 r1, child s L R = Nd x true l1 k1 r1 /\ splittable (child s L R) = false /\
    let v := child (compar key k1) l1 r1 in
    colour v = false /\ splittable v = false /\ v <> Lf /\ (S (nodes v) < n)%nat) ->
  next_position a s rootp parentp p_r n it m.
Proof using Type.
  intros s Hp Hs (x & l1 & k1 & r1 & E & Hu & V1 & V2 & V3 & V4).
  pose proof (position_child _ _ _ _ _ _ _ _ Hp Hs) as Hc. fold s in Hc.
  eexists _, c, _. split; [apply slot_side|]. split; [exact Hc|]. split; [by rewrite E|].
  intros _. eexists. split; [exact V4|]. by eapply Rotated.
Qed.

(** The node is split, and the tree rotated if its parent is red. *)
Lemma next_split m c a b l k r it parentp gparentp p_r gp_r :
  let t := Nd a b l k r in let s := compar key k in
  position m c t it -> s <> 0 -> splittable t = true -> valid c t parentp gparentp p_r gp_r ->
  exists m', maybe_split_for_insert (slot_of c) parentp gparentp p_r gp_r false m = Some (tt, m') /\
    next_position a s (slot_of c) parentp p_r (nodes t) it m'.
Proof using Type.
  intros t s [Hrep (n & Hb & Hc) Hp Hi] Hs Hsp Hv.
  pose proof (maybe_split_at m c a b l k r parentp gparentp p_r gp_r false Hrep) as Hm.
  fold t in Hm. rewrite Hsp in Hm. destruct Hm as (m1 & Hrep1 & ->).
  destruct (rbt_split _ _ Hb Hsp) as [Ht Hb']. rewrite Ht in Hc.
  assert (Hlt : (nodes l + nodes r < nodes t)%nat) by (simpl; lia).
  destruct c as [|f1 c1]; cbn [valid] in Hv.
  { destruct Hv as [-> _]. exists m1. split; [done|]. by apply (next_settled m1 [] a b l k r it _ _ _ _ n). }
  destruct Hv as (-> & D1 & _ & Hv). destruct (frame_red f1) eqn:Ef1; cycle 1.
  { exists m1. split; [by eapply fix_black|]. apply (next_settled m1 (f1 :: c1) a b l k r it _ _ _ _ n); try done.
    cbn [ctx_ok] in *. by rewrite Ef1 in *. }
  destruct (ctx_red f1 c1 n Hc Ef1) as (R1 & C1 & Hc1).
  destruct c1 as [|f2 c2]; [by destruct (Hv eq_refl)|]. destruct (Hv eq_refl) as (-> & D2 & C2).
  destruct Hc1 as (Ef2 & R2 & Hc2). unfold t in Hrep1. simpl in Hrep1.
  destruct (fix_red m1 f1 f2 c2 a true _ k _ p_r gp_r Hrep1 Ef1 D1 D2) as (m2 & E & Hrep2).
  exists m2. split; [exact E|].
  pose proof Hp as Hp'. unfold path_ok in Hp'. rewrite !Forall_cons in Hp'. destruct Hp' as (P1 & P2 & Pc).
  destruct (rbt_rotated f1 f2 _ n Hb' eq_refl R1 C1 R2 C2) as [Hrb Hrc].
  assert (Hi' : items (plug c2 (rotated f1 f2 (split_node t))) = it).
  { rewrite items_plug, items_rotated, <- items_plug by done. rewrite <- Hi. cbn [plug].
    change (items (plug (f1 :: f2 :: c2) (split_node t)) = items (plug (f1 :: f2 :: c2) t)).
    rewrite !items_plug. unfold t. simpl. by rewrite !items_recolour. }
  destruct (split_children a b l k r n Hb Hsp) as (l' & r' & -> & -> & (L1 & L2 & L3 & L4) & (R1' & R2' & R3 & R4)).
  destruct f1 as [p cp kp D|p cp A kp], f2 as [g cg kg G|g cg G kg]; simpl in Ef1, Ef2, C1, C2, R1, R2, Hrb, Hrc, Hrep2, Hi';
    simpl in P1, P2, D1, D2.
  - apply (next_settled m2 (FL p false kp (Nd g true D kg G) :: c2) a b l k r it _ _ _ _ n); try done.
    + by apply rep_down.
    + apply Forall_cons_2; [exact P1|exact Pc].
    + rewrite <- Hi', !items_plug. simpl. rewrite !items_recolour. flat_app.
  - apply (next_rotated m2 c2 a _ k _ it _ _ _ _ (Position _ _ _ _ Hrep2 (ex_intro _ (S n) (conj Hrb Hc2)) Pc Hi') Hs).
    unfold child at 1 2. destruct (Z.ltb_spec (compar key k) 0); (eexists _, _, _, _; split; [reflexivity|]);
      (split; [simpl; rewrite ?L1, ?R1', ?C1, ?C2; by rewrite ?andb_false_r|]); cbv zeta; unfold child;
      [rewrite (proj2 (Z.ltb_ge _ 0)) by lia|rewrite (proj2 (Z.ltb_lt _ 0)) by lia]; done.
  - apply (next_rotated m2 c2 a _ k _ it _ _ _ _ (Position _ _ _ _ Hrep2 (ex_intro _ (S n) (conj Hrb Hc2)) Pc Hi') Hs).
    unfold child at 1 2. destruct (Z.ltb_spec (compar key k) 0); (eexists _, _, _, _; split; [reflexivity|]);
      (split; [simpl; rewrite ?L1, ?R1', ?C1, ?C2; by rewrite ?andb_false_r|]); cbv zeta; unfold child;
      [rewrite (proj2 (Z.ltb_ge _ 0)) by lia|rewrite (proj2 (Z.ltb_lt _ 0)) by lia]; done.
  - apply (next_settled m2 (FR p false (Nd g true G kg A) kp :: c2) a b l k r it _ _ _ _ n); try done.
    + by apply rep_down.
    + apply Forall_cons_2; [exact P1|exact Pc].
    + rewrite <- Hi', !items_plug. simpl. rewrite !items_recolour. flat_app.
Qed.
End Descent.
