(* ===== verification/TsearchOps.v ===== *)
(** * The operations of search trees, specified

    [search_tree m it]: the store holds a red-black tree with the items [it] in
    order.  tfind() and tsearch() are specified by the list of items. *)

From Stdlib Require Import Sorted.
From S2P Require Import Prelude SearchTable Tsearch TsearchSpec TsearchInsert.

Open Scope Z_scope.

Section Ops.
Context {K : Type} (compar : K -> K -> Z) (P : K -> Prop) `{!CompareLaws compar P}.
Implicit Types (t : trtree K) (c : list (frame K)) (m : mem K) (it : list (loc * K)).

Definition less (x y : loc * K) : Prop := compar (snd x) (snd y) < 0.

(** Sorted items with keys of [P]. *)
Record sorted it : Prop := SortedItems {
  sorted_less : StronglySorted less it;
  sorted_keys : Forall (fun x => P (snd x)) it
}.

Definition search_tree m it : Prop := exists t, rep m t /\ (exists n, rbt t n) /\ items t = it.

Lemma strongly_sorted_app (R : loc * K -> loc * K -> Prop) l1 l2 :
  StronglySorted R (l1 ++ l2) <->
  StronglySorted R l1 /\ StronglySorted R l2 /\ Forall (fun x => Forall (R x) l2) l1.
Proof using Type.
  induction l1 as [|x l1 IH]; simpl.
  - split; [intros H; split_and!; [constructor|done|by apply Forall_nil_2]|tauto].
  - rewrite Forall_cons. split.
    + intros H. apply StronglySorted_inv in H as [H Hx]. apply IH in H as (H1 & H2 & H3).
      apply Forall_app in Hx as [Hx1 Hx2]. split_and!; auto. by constructor.
    + intros (H1 & H2 & H3 & H4). apply StronglySorted_inv in H1 as [H1 Hx]. constructor; [by apply IH|].
      by apply Forall_app.
Qed.

Section Key.
Context (key : K) (Hkey : P key).

(** Along a path of comparisons: what is before the hole is smaller, what is after it
    greater. *)
Lemma path_order c it :
  path_ok compar key c -> sorted (before c ++ it ++ after c) ->
  Forall (fun x => compar (snd x) key < 0) (before c) /\ Forall (fun x => compar key (snd x) < 0) (after c).
Proof using All.
  revert it. induction c as [|f c IH]; intros it Hp Hs; [split; by apply Forall_nil_2|].
  apply Forall_cons in Hp as [Hf Hp]. destruct f as [a b k r|a b l k]; simpl in Hf, Hs |- *.
  - assert (Hs' : sorted (before c ++ (it ++ (a, k) :: items r) ++ after c))
      by (by rewrite <- app_assoc, <- app_comm_cons).
    destruct (IH _ Hp Hs') as [H1 H2]. split; [done|].
    destruct Hs as [Hs HP]. rewrite !strongly_sorted_app in Hs. destruct Hs as (_ & (_ & Hs & _) & _).
    apply StronglySorted_inv in Hs as [_ Hk]. rewrite !Forall_app, Forall_cons, Forall_app in HP.
    destruct HP as (_ & _ & Pk & Pr & _). apply Forall_cons_2; [done|]. apply Forall_app. split; [|done].
    apply Forall_app in Hk as [Hk _]. rewrite Forall_forall in Hk, Pr |- *. intros x Hx.
    apply (compar_trans _ k); auto. by apply (Hk x).
  - assert (Hs' : sorted (before c ++ (items l ++ (a, k) :: it) ++ after c)).
    { replace (before c ++ _) with ((before c ++ items l ++ [(a, k)]) ++ it ++ after c) by flat_app. exact Hs. }
    destruct (IH _ Hp Hs') as [H1 H2]. split; [|done].
    destruct Hs as [Hs HP]. rewrite !strongly_sorted_app in Hs. destruct Hs as ((_ & (_ & _ & Hk) & _) & _).
    rewrite !Forall_app, Forall_singleton in HP. destruct HP as ((_ & Pl & Pk) & _). simpl in Pk.
    apply Forall_app. split; [done|]. apply Forall_app.
    assert (Hkk : compar k key < 0) by (by apply compar_opp). split; [|by apply Forall_singleton].
    rewrite Forall_forall in Hk, Pl |- *. intros x Hx. apply (compar_trans _ k); auto.
    specialize (Hk x Hx). apply Forall_cons in Hk as [Hk _]. exact Hk.
Qed.

Lemma not_in_items c it :
  path_ok compar key c -> it = before c ++ after c -> sorted it -> Forall (fun x => compar key (snd x) <> 0) it.
Proof using All.
  intros Hp -> Hs. destruct (path_order c [] Hp Hs) as [H1 H2]. destruct Hs as [_ HP].
  apply Forall_app in HP as [HP _]. apply Forall_app. rewrite !Forall_forall in *. split; intros x Hx.
  - specialize (H1 x Hx). simpl in H1. apply compar_opp in H1; auto. lia.
  - specialize (H2 x Hx). simpl in H2. lia.
Qed.

Lemma sorted_insert c a it :
  path_ok compar key c -> it = before c ++ after c -> sorted it -> sorted (before c ++ (a, key) :: after c).
Proof using All.
  intros Hp -> Hs. destruct (path_order c [] Hp Hs) as [H1 H2]. destruct Hs as [Hs HP].
  apply strongly_sorted_app in Hs as (S1 & S2 & S3). apply Forall_app in HP as [P1 P2]. split.
  - apply strongly_sorted_app. split_and!; [done| |].
    + by constructor.
    + rewrite Forall_forall in *. intros x Hx. apply Forall_cons_2; [by apply H1|by apply S3].
  - apply Forall_app. split; [done|]. by apply Forall_cons_2.
Qed.

(** ** The loop of tsearch *)

Lemma tsearch_loop_ok fuel c t parentp gparentp p_r gp_r m it n :
  position compar key m c t it -> t <> Lf -> phase compar key c t parentp gparentp p_r gp_r n -> (n < fuel)%nat ->
  exists d m', tsearch_loop compar fuel key (slot_of c) parentp gparentp p_r gp_r m = Some (d, m') /\
    match d with
    | Found a => search_tree m' it /\ exists k, (a, k) ∈ it /\ compar key k = 0
    | Stop nextp rootp parentp' r p_r' => exists f c', nextp = slot_of (f :: c') /\
        position compar key m' (f :: c') Lf it /\ valid (f :: c') (@Lf K) (Some rootp) parentp' r p_r'
    end.
Proof using Type.
  revert c t parentp gparentp p_r gp_r m n. induction fuel as [|fuel IH];
    intros c t parentp gparentp p_r gp_r m n Hpos Ht Hph Hf; [lia|].
  destruct t as [|a b l k r]; [done|]. cbn [tsearch_loop]. unfold pbind at 1.
  pose proof (pos_rep _ _ _ _ _ _ Hpos) as Hr. rewrite (read_nn_at _ _ _ _ _ _ _ Hr).
  unfold pbind at 1. rewrite (get_node_at _ _ _ _ _ _ _ Hr). cbn [nd_key]. cbv zeta.
  destruct (Z.eqb_spec (compar key k) 0) as [Hk|Hk].
  { exists (Found a), m. split; [done|]. destruct Hpos as [_ (n' & Hb & Hc) _ Hi]. split.
    - exists (plug c (Nd a b l k r)). split_and!; [by apply rep_at_plug|by eapply plug_rbt|done].
    - exists k. split; [|done]. rewrite <- Hi, items_plug. simpl. rewrite !elem_of_app, elem_of_cons. auto. }
  assert (Hstep : exists m', maybe_split_for_insert (slot_of c) parentp gparentp p_r gp_r false m = Some (tt, m') /\
    next_position compar key a (compar key k) (slot_of c) parentp p_r n it m').
  { destruct (splittable (Nd a b l k r)) eqn:Es.
    - destruct Hph as [Hv| |a' l' k' r' E Hn]; [by eapply next_split|congruence|congruence].
    - exists m. split; [|by eapply next_unsplit].
      pose proof (maybe_split_at m c a b l k r parentp gparentp p_r gp_r false Hr) as Hm. by rewrite Es in Hm. }
  destruct Hstep as (m' & E & f & c' & u & Eslot & Hpos' & Hlf & Hnl). unfold pbind at 1. rewrite E.
  rewrite <- Eslot. unfold pbind at 1. rewrite (read_at _ _ _ (pos_rep _ _ _ _ _ _ Hpos')).
  destruct u as [|a' b' l' k' r'].
  - eexists _, m'. split; [reflexivity|]. exists f, c'. auto.
  - destruct (Hnl ltac:(done)) as (n' & Hn' & Hph'). cbn [ptr].
    eapply IH; [exact Hpos'|done|exact Hph'|lia].
Qed.

(** ** The insertion *)

Lemma nodup_bound (h : gmap loc (node_t K)) l :
  NoDup l -> (forall a, a ∈ l -> is_Some (h !! a)) -> (length l <= size h)%nat.
Proof using Type.
  intros Hnd Hl. rewrite <- size_dom, <- (size_list_to_set (C := gset loc) l) by done.
  apply subseteq_size. intros a Ha. apply elem_of_list_to_set in Ha. by apply elem_of_dom, Hl.
Qed.

Lemma shape_locs h t a : shape h t -> a ∈ locs t -> is_Some (h !! a).
Proof using Type.
  induction t as [|b red l IHl k r IHr]; simpl; [intros _ H; by apply not_elem_of_nil in H|].
  intros (Hb & Hl & Hr). rewrite elem_of_cons, elem_of_app. intros [->|[H|H]]; [by eexists|auto..].
Qed.

Lemma tree_fuel_ok m t : rep m t -> tree_fuel m = Some (S (size (m_heap m)), m) /\ (nodes t <= size (m_heap m))%nat.
Proof using Type.
  intros (_ & Hs & Hnd). split; [done|]. rewrite <- length_locs. apply nodup_bound; [done|].
  intros a. by apply shape_locs.
Qed.

(** A new node is linked in at an empty place. *)
Lemma link_new m c q it :
  position compar key m c Lf it -> q ∉ dom (m_heap m) ->
  exists m', write (slot_of c) (Some q) (Mem (m_root m) (<[q := MkNode key None None true]> (m_heap m))) = Some (tt, m') /\
    rep_at m' c (Nd q true Lf key Lf).
Proof using Type.
  intros [Hr _ _ _] Hq. destruct m as [root h]. destruct Hr as (Hc & _ & Hnd). simpl in *.
  rewrite app_nil_r in Hnd. apply not_elem_of_dom in Hq.
  assert (Hqc : q ∉ ctx_locs c).
  { intros Hin. assert (Hp : rep (Mem root h) (plug c Lf)) by (apply rep_at_plug; split_and!; simpl; rewrite ?app_nil_r; done).
    destruct Hp as (_ & Hp & _). simpl in Hp. destruct (shape_locs _ _ q Hp) as [x Hx]; [|congruence].
    rewrite locs_plug. apply elem_of_app. by left. }
  destruct (write_slot root (<[q:=MkNode key None None true]> h) c None (Some q)) as (root' & h' & E & Hc' & Hb); [done| |].
  { eapply shape_ctx_frame; [|exact Hc]. intros b Hbc. apply lookup_insert_ne. by intros ->. }
  rewrite E. eexists. split; [done|]. split_and!; simpl; [done| |].
  - rewrite Hb by done. by rewrite lookup_insert_eq.
  - apply NoDup_app. split_and!; [done| |by apply NoDup_singleton]. intros x Hx Hx'.
    apply list_elem_of_singleton in Hx' as ->. done.
Qed.

Lemma slots_differ m f c t : rep_at m (f :: c) t -> slot_of (f :: c) <> slot_of c.
Proof using Type.
  intros (_ & _ & Hnd). unfold ctx_locs in Hnd. simpl in Hnd. apply NoDup_cons in Hnd as [Hn _].
  destruct c as [|g c]; [by destruct f|]. simpl in Hn. rewrite !not_elem_of_app, not_elem_of_cons in Hn.
  destruct f, g; simpl in *; intros [= E]; tauto.
Qed.

Lemma insert_at_ok mal m c it rootp parentp r p_r :
  position compar key m c Lf it ->
  (forall f c', c = f :: c' -> rootp = slot_of c' /\ valid c (@Lf K) (Some rootp) parentp r p_r) ->
  (c = [] -> rootp = RootSlot) ->
  exists q m', insert_at mal key (slot_of c) rootp parentp r p_r m = Some (q, m') /\
    match q with
    | Some a => mal = true /\ (a ∉ dom (m_heap m)) /\ search_tree m' (before c ++ (a, key) :: after c)
    | None => mal = false /\ search_tree m' it
    end.
Proof using Type.
  intros Hpos Hv Hroot. unfold insert_at, new_node. unfold pbind at 1. destruct mal; cycle 1.
  { exists None, m. split; [done|]. split; [done|]. destruct Hpos as [Hr (n & Hb & Hc) _ Hi].
    exists (plug c Lf). split_and!; [by apply rep_at_plug|by eapply plug_rbt|done]. }
  set (q := fresh _). assert (Hq : q ∉ dom (m_heap m)) by apply is_fresh. clearbody q.
  unfold pbind at 1. destruct (link_new m c q it Hpos Hq) as (m1 & E & Hr1). rewrite E.
  exists (Some q). destruct Hpos as [Hr (n & Hb & Hc) Hp Hi]. simpl in Hb. subst n.
  assert (Hitems : forall t, items t = [(q, key)] -> items (plug c t) = before c ++ (q, key) :: after c).
  { intros t Et. by rewrite items_plug, Et. }
  destruct c as [|f1 c1].
  { rewrite (Hroot eq_refl). rewrite decide_True by done. exists m1. split; [done|]. split_and!; [done..|].
    exists (Nd q true Lf key Lf). split_and!; [by apply (rep_at_plug m1 [])|by exists 0%nat|done]. }
  destruct (Hv f1 c1 eq_refl) as [-> (_ & D1 & _ & Hval)]. rewrite decide_False by (by eapply slots_differ).
  pose proof (maybe_split_at m1 (f1 :: c1) q true Lf key Lf (Some (slot_of c1)) parentp r p_r true Hr1) as Hm.
  destruct Hm as (m2 & Hr2 & Hm). simpl in Hr2. unfold pbind at 1. rewrite Hm.
  destruct (frame_red f1) eqn:Ef1; cycle 1.
  { rewrite (fix_black m2 f1 c1 _ q parentp r p_r Hr2 Ef1). exists m2. split; [done|]. split_and!; [done..|].
    exists (plug (f1 :: c1) (Nd q true Lf key Lf)). split_and!; [by apply rep_at_plug| |by apply Hitems].
    eapply (plug_rbt (f1 :: c1) _ 0); [done|]. cbn [ctx_ok] in *. by rewrite Ef1 in *. }
  destruct (ctx_red f1 c1 0 Hc Ef1) as (R1 & C1 & Hc1).
  destruct c1 as [|f2 c2]; [by destruct (Hval eq_refl)|]. destruct (Hval eq_refl) as (-> & D2 & C2).
  destruct Hc1 as (Ef2 & R2 & Hc2).
  destruct (fix_red m2 f1 f2 c2 q true Lf key Lf r p_r Hr2 Ef1 D1 D2) as (m3 & E3 & Hr3). rewrite E3.
  exists m3. split; [done|]. split_and!; [done..|].
  assert (Hq0 : rbt (Nd q true Lf key Lf) 0) by done.
  destruct (rbt_rotated f1 f2 _ 0 Hq0 eq_refl R1 C1 R2 C2) as [Hrb Hrc].
  exists (plug c2 (rotated f1 f2 (Nd q true Lf key Lf))). split_and!; [by apply rep_at_plug| |].
  - eapply plug_rbt; [exact Hrb|]. by rewrite Hrc.
  - rewrite items_plug, items_rotated, <- items_plug by done. by apply (Hitems (Nd q true Lf key Lf)).
Qed.

(** ** tsearch and tfind *)

Lemma blacken_root m it :
  search_tree m it ->
  exists m' t, (let* root := read RootSlot in blacken root) m = Some (tt, m') /\ rep m' t /\
    (exists n, rbt t n) /\ items t = it /\ colour t = false /\ (m_root m = None <-> t = Lf) /\ m_root m' = m_root m.
Proof using Type.
  intros (t & Hr & (n & Hb) & Hi). pose proof Hr as (Hroot & _). unfold pbind. simpl. rewrite Hroot.
  destruct (blacken_at m [] t (proj1 (rep_at_plug m [] t) Hr)) as (m' & E & Hr'). rewrite E.
  exists m', (recolour false t). apply (proj2 (rep_at_plug m' [] _)) in Hr'. split_and!; [done|done| | | | |].
  - destruct t as [|a [] l k r]; simpl in Hb |- *; [by exists n|exists (S n); tauto|by exists n].
  - by rewrite items_recolour.
  - by destruct t.
  - by destruct t.
  - rewrite (proj1 Hr'), ?Hroot. by destruct t.
Qed.

Lemma tsearch_spec mal m it :
  search_tree m it -> sorted it ->
  exists q m', tsearch compar mal key m = Some (q, m') /\
    match q with
    | Some a =>
        (search_tree m' it /\ exists k, (a, k) ∈ it /\ compar key k = 0) \/
        (mal = true /\ Forall (fun x => compar key (snd x) <> 0) it /\
         exists l1 l2, it = l1 ++ l2 /\ search_tree m' (l1 ++ (a, key) :: l2) /\ sorted (l1 ++ (a, key) :: l2) /\
           a ∉ (fst <$> it))
    | None => mal = false /\ search_tree m' it /\ Forall (fun x => compar key (snd x) <> 0) it
    end.
Proof using All.
  intros Ht Hs. destruct (blacken_root m it Ht) as (m1 & t & E & Hr & Hb & Hi & Hcol & Hroot & _).
  unfold tsearch. unfold pbind in E |- *. simpl in E |- *. rewrite E.
  assert (Hpos : position compar key m1 [] t it).
  { split; [by apply (rep_at_plug m1 [])|destruct Hb as [n Hb]; by exists n|by apply Forall_nil_2|done]. }
  assert (Hdone : forall m2 c rootp parentp r p_r, position compar key m2 c Lf it ->
    (forall f c', c = f :: c' -> rootp = slot_of c' /\ valid c (@Lf K) (Some rootp) parentp r p_r) ->
    (c = [] -> rootp = RootSlot) ->
    exists q m', insert_at mal key (slot_of c) rootp parentp r p_r m2 = Some (q, m') /\
      match q with
      | Some a => (search_tree m' it /\ exists k, (a, k) ∈ it /\ compar key k = 0) \/
          (mal = true /\ Forall (fun x => compar key (snd x) <> 0) it /\
           exists l1 l2, it = l1 ++ l2 /\ search_tree m' (l1 ++ (a, key) :: l2) /\ sorted (l1 ++ (a, key) :: l2) /\
             a ∉ (fst <$> it))
      | None => mal = false /\ search_tree m' it /\ Forall (fun x => compar key (snd x) <> 0) it
      end).
  { intros m2 c rootp parentp r p_r Hp2 Hv Hc. pose proof (pos_path _ _ _ _ _ _ Hp2) as Hpath.
    assert (Hit : it = before c ++ after c) by (rewrite <- (pos_items _ _ _ _ _ _ Hp2), items_plug; done).
    pose proof (not_in_items c it Hpath Hit Hs) as Hne.
    destruct (insert_at_ok mal m2 c it rootp parentp r p_r Hp2 Hv Hc) as (q & m' & Eq & Hq).
    exists q, m'. split; [done|]. destruct q as [a|]; [|tauto]. right. destruct Hq as (-> & Ha & Hq).
    split_and!; [done..|]. exists (before c), (after c). split_and!; [done..|by apply (sorted_insert c a it)|].
    intros Hin. apply Ha. pose proof (proj2 (rep_at_plug m2 c Lf) (pos_rep _ _ _ _ _ _ Hp2)) as (_ & Hsh & _).
    apply elem_of_dom. eapply shape_locs; [exact Hsh|]. rewrite <- (pos_items _ _ _ _ _ _ Hp2) in Hin.
    clear -Hin. revert Hin. generalize (plug c (@Lf K)). induction t as [|x red l IHl k r IHr]; simpl; [done|].
    rewrite fmap_app, fmap_cons, !elem_of_app, !elem_of_cons, elem_of_app. simpl. tauto. }
  destruct (m_root m) as [a|] eqn:Em.
  - assert (t <> Lf) as Hne by (intros ->; pose proof (proj2 Hroot eq_refl); congruence).
    destruct (tree_fuel_ok m1 t Hr) as [_ Hlt]. simpl.
    destruct (tsearch_loop_ok (S (size (m_heap m1))) [] t None None 0 0 m1 it (nodes t) Hpos Hne)
      as (d & m2 & E2 & Hd); [by apply Valid|lia|].
    simpl in E2. rewrite E2. destruct d as [x|nextp rootp parentp r p_r].
    + exists (Some x), m2. split; [done|]. by left.
    + destruct Hd as (f & c & -> & Hp2 & Hv). apply (Hdone m2 (f :: c)); [done| |done].
      intros ? ? [= <- <-]. split; [|done]. destruct Hv as (Hv & _). by injection Hv.
  - assert (t = Lf) as -> by (by apply Hroot). apply (Hdone m1 []); [done|done|done].
Qed.

Lemma tfind_loop_ok fuel c t m it :
  position compar key m c t it -> (height t < fuel)%nat -> sorted it ->
  exists q, tfind_loop compar fuel key (slot_of c) m = Some (q, m) /\
    match q with
    | Some a => exists k, (a, k) ∈ it /\ compar key k = 0
    | None => Forall (fun x => compar key (snd x) <> 0) it
    end.
Proof using All.
  revert c t. induction fuel as [|fuel IH]; intros c t Hpos Hf Hs; [lia|]. cbn [tfind_loop].
  pose proof (pos_rep _ _ _ _ _ _ Hpos) as Hr. unfold pbind. rewrite (read_at _ _ _ Hr).
  destruct t as [|a b l k r]; cbn [ptr].
  { exists None. split; [done|]. apply (not_in_items c it); [apply Hpos| |done].
    by rewrite <- (pos_items _ _ _ _ _ _ Hpos), items_plug. }
  rewrite (get_node_at _ _ _ _ _ _ _ Hr). cbn [nd_key]. cbv zeta.
  destruct (Z.eqb_spec (compar key k) 0) as [Hk|Hk].
  - exists (Some a). split; [done|]. exists k. split; [|done].
    rewrite <- (pos_items _ _ _ _ _ _ Hpos), items_plug. simpl. rewrite !elem_of_app, elem_of_cons. auto.
  - rewrite <- (slot_side (compar key k) a b l k r c). apply (IH _ (child (compar key k) l r)); [|simpl in Hf|done].
    + by apply position_child.
    + unfold child. case_if; lia.
Qed.
End Key.

Lemma height_nodes t : (height t <= nodes t)%nat.
Proof using Type. induction t; simpl; lia. Qed.

Lemma length_items t : length (items t) = nodes t.
Proof using Type. induction t as [|a b l IHl k r IHr]; simpl; [done|]. rewrite length_app. simpl. lia. Qed.

Lemma tfind_loop_more key fuel fuel' s m x :
  tfind_loop compar fuel key s m = Some x -> (fuel <= fuel')%nat -> tfind_loop compar fuel' key s m = Some x.
Proof using Type.
  revert fuel' s m. induction fuel as [|fuel IH]; intros fuel' s m H Hle; [done|].
  destruct fuel' as [|fuel']; [lia|]. cbn [tfind_loop] in *. unfold pbind in *.
  destruct (read s m) as [[[a|] m1]|]; [|done|done]. destruct (get_node a m1) as [[n m2]|]; [|done].
  cbv zeta in *. case_if; [done|]. apply IH; [done|lia].
Qed.

Lemma tfind_spec key fuel m it :
  P key -> search_tree m it -> sorted it -> (2 * Nat.log2 (S (length it)) + 1 < fuel)%nat ->
  exists q, tfind compar key m = Some (q, m) /\ tfind_loop compar fuel key RootSlot m = Some (q, m) /\
    match q with
    | Some a => exists k, (a, k) ∈ it /\ compar key k = 0
    | None => Forall (fun x => compar key (snd x) <> 0) it
    end.
Proof using All.
  intros Hkey (t & Hr & (n & Hb) & Hi) Hs Hf.
  assert (Hpos : position compar key m [] t it).
  { split; [by apply (rep_at_plug m [])|by exists n|by apply Forall_nil_2|done]. }
  assert (Hh : (height t < fuel)%nat).
  { pose proof (rbt_height t n Hb). pose proof (rbt_size t n Hb) as H2.
    apply Nat.log2_le_pow2 in H2; [|lia]. rewrite <- length_items, Hi in H2. destruct (colour t); lia. }
  destruct (tree_fuel_ok m t Hr) as [Ef Hsz]. pose proof (height_nodes t).
  destruct (tfind_loop_ok key Hkey fuel [] t m it Hpos Hh Hs) as (q & Eq & Hq).
  destruct (tfind_loop_ok key Hkey (S (size (m_heap m))) [] t m it Hpos ltac:(lia) Hs) as (q' & Eq' & _).
  exists q. split; [|done]. unfold tfind, pbind. rewrite Ef. simpl slot_of in *.
  destruct (Nat.le_ge_cases fuel (S (size (m_heap m)))) as [Hle|Hle].
  - by apply (tfind_loop_more key fuel).
  - rewrite Eq'. apply (tfind_loop_more key _ fuel) in Eq'; [|done]. congruence.
Qed.

(** The datum of a node is changed in place, its key is not. *)
Lemma find_item t a k l1 l2 :
  items t = l1 ++ (a, k) :: l2 ->
  exists c b l r, t = plug c (Nd a b l k r) /\ l1 = before c ++ items l /\ l2 = items r ++ after c.
Proof using Type.
  assert (H : forall c0 l1 l2, items t = l1 ++ (a, k) :: l2 -> exists c b l r,
    plug c0 t = plug c (Nd a b l k r) /\ before c0 ++ l1 = before c ++ items l /\ l2 ++ after c0 = items r ++ after c).
  { clear l1 l2. induction t as [|x b l IHl y r IHr]; intros c0 l1 l2 E; simpl in E; [by destruct l1|].
    destruct (decide (length l1 < length (items l))%nat) as [Hlt|Hge].
    - assert (E' := E). apply (f_equal (take (length (items l)))) in E. rewrite take_app_length in E.
      rewrite take_app_ge in E by lia. destruct (length (items l) - length l1)%nat as [|j] eqn:Ej; [lia|].
      simpl in E. destruct (IHl (FL x b y r :: c0) l1 (take j l2) E) as (c & b' & l' & r' & H1 & H2 & H3).
      exists c, b', l', r'. split; [exact H1|]. split; [exact H2|]. rewrite <- H3. simpl.
      rewrite E, <- app_assoc in E'. apply app_inv_head in E'. simpl in E'. injection E' as E'.
      etransitivity; [exact (f_equal (fun l0 => l0 ++ after c0) (eq_sym E'))|flat_app].
    - destruct (decide (length l1 = length (items l))) as [Heq|Hne].
      + apply app_inj_1 in E as [<- E]; [|done]. injection E as <- <- <-. by exists c0, b, l, r.
      + assert (E' := E). apply (f_equal (drop (length (items l)))) in E'. rewrite drop_app_length in E'.
        rewrite drop_app_le in E' by lia. destruct (drop (length (items l)) l1) as [|z l1'] eqn:Ed.
        { apply (f_equal length) in Ed. rewrite length_drop in Ed. simpl in Ed. lia. }
        injection E' as <- E'. destruct (IHr (FR x b l y :: c0) l1' l2 E') as (c & b' & l' & r' & H1 & H2 & H3).
        exists c, b', l', r'. split; [exact H1|]. split; [|exact H3]. rewrite <- H2. simpl.
        rewrite <- (take_drop (length (items l)) l1), Ed.
        assert (take (length (items l)) l1 = items l) as ->; [|flat_app].
        apply (f_equal (take (length (items l)))) in E. rewrite take_app_length in E.
        by rewrite take_app_le in E by lia. }
  intros E. destruct (H [] l1 l2 E) as (c & b & l & r & H1 & H2 & H3). exists c, b, l, r.
  rewrite app_nil_r in H3. done.
Qed.

Lemma set_key_spec m l1 a k l2 f :
  search_tree m (l1 ++ (a, k) :: l2) -> sorted (l1 ++ (a, k) :: l2) -> same_key compar P k (f k) ->
  exists m', set_node a (fun n => MkNode (f (nd_key n)) (nd_left n) (nd_right n) (nd_red n)) m = Some (tt, m') /\
    search_tree m' (l1 ++ (a, f k) :: l2) /\ sorted (l1 ++ (a, f k) :: l2).
Proof using Type.
  intros (t & Hr & (n & Hb) & Hi) Hs [Hp Hk]. destruct (find_item t a k l1 l2 Hi) as (c & b & l & r & -> & -> & ->).
  apply rep_at_plug in Hr. destruct m as [root h]. pose proof (proj1 (proj2 Hr)) as (Ha & Hl & Hrr).
  pose proof (rep_at_disjoint _ _ _ Hr) as (_ & Hnd & _). simpl in Ha, Hl, Hrr, Hnd.
  apply NoDup_cons in Hnd as [Hna _]. rewrite not_elem_of_app in Hna.
  unfold set_node. simpl. rewrite Ha. eexists. split; [done|]. split.
  - exists (plug c (Nd a b l (f k) r)). split_and!.
    + apply rep_at_plug. eapply rep_at_local; [exact Hr|done|done| |].
      * simpl. rewrite lookup_insert_eq. split_and!; [done|..]; (eapply shape_frame; [|eassumption]);
          intros x Hx; apply lookup_insert_ne; intros ->; tauto.
      * simpl. intros x Hx. apply lookup_insert_ne. intros ->. apply Hx. by left.
    + apply rbt_plug in Hb as (n' & Hb & Hc). by eapply plug_rbt.
    + rewrite items_plug. simpl. flat_app.
  - destruct Hs as [Hs HP]. rewrite strongly_sorted_app in Hs. destruct Hs as (S1 & S2 & S3).
    apply StronglySorted_inv in S2 as [S2 S2']. apply Forall_app in HP as [P1 P2]. apply Forall_cons in P2 as [_ P2].
    split; [|apply Forall_app; split; [done|by apply Forall_cons_2]].
    apply strongly_sorted_app. split_and!; [done| |].
    + constructor; [done|]. eapply Forall_impl; [exact S2'|]. intros x. unfold less. simpl. by rewrite (proj1 (Hk _)).
    + eapply Forall_impl; [exact S3|]. intros x Hx. apply Forall_cons in Hx as [Hx1 Hx2].
      apply Forall_cons_2; [|done]. unfold less in *. simpl in *. by rewrite (proj2 (Hk _)).
Qed.
End Ops.

(** ** The interface *)

#[export] Instance tsearch_table {K} (compar : K -> K -> Z) : SearchTable compar := {
  table := mem K;
  table_empty := Mem None ∅;
  table_find key m := fst <$> tfind compar key m;
  table_insert mal key m := tsearch compar mal key m;
  table_get a m := nd_key <$> m_heap m !! a;
  table_update a f m :=
    snd <$> set_node a (fun n => MkNode (f (nd_key n)) (nd_left n) (nd_right n) (nd_red n)) m
}.

Lemma shape_item {K} (h : gmap loc (node_t K)) t a k :
  shape h t -> (a, k) ∈ items t -> nd_key <$> h !! a = Some k.
Proof.
  induction t as [|b red l IHl x r IHr]; simpl; [intros _ H; by apply not_elem_of_nil in H|].
  intros (Hb & Hl & Hr). rewrite elem_of_app, elem_of_cons. intros [H|[[= -> ->]|H]]; auto. by rewrite Hb.
Qed.

Lemma sorted_lookup_lt {K} (compar : K -> K -> Z) it i j x y :
  StronglySorted (less compar) it -> it !! i = Some x -> it !! j = Some y -> (i < j)%nat -> less compar x y.
Proof.
  intros Hs. revert i j. induction Hs as [|z l Hs IH Hz]; intros i j Hi Hj Hij; [done|].
  destruct i as [|i], j as [|j]; try lia; simpl in *.
  - injection Hi as ->. rewrite Forall_forall in Hz. apply Hz. by eapply list_elem_of_lookup_2.
  - apply (IH i j); auto. lia.
Qed.

Lemma sorted_unique {K} (compar : K -> K -> Z) P `{!CompareLaws compar P} it key x y :
  sorted compar P it -> P key -> x ∈ it -> y ∈ it -> compar key (snd x) = 0 -> compar key (snd y) = 0 -> x = y.
Proof.
  intros [Hs HP] Hkey Hx Hy Ex Ey. rewrite Forall_forall in HP. pose proof (HP x Hx) as Px. pose proof (HP y Hy) as Py.
  apply list_elem_of_lookup in Hx as [i Hi]. apply list_elem_of_lookup in Hy as [j Hj].
  destruct (lt_eq_lt_dec i j) as [[Hlt| ->]|Hlt]; [exfalso|congruence|exfalso].
  - pose proof (sorted_lookup_lt _ _ _ _ _ _ Hs Hi Hj Hlt) as H. unfold less in H.
    apply (compar_eq key) in H; auto. lia.
  - pose proof (sorted_lookup_lt _ _ _ _ _ _ Hs Hj Hi Hlt) as H. unfold less in H.
    apply (compar_eq key) in H; auto. lia.
Qed.

#[export] Instance tsearch_table_laws {K} (compar : K -> K -> Z) (P : K -> Prop) `{!CompareLaws compar P} :
  SearchTableLaws compar P.
Proof.
  refine (Build_SearchTableLaws _ compar P _ (fun m it => search_tree m it /\ sorted compar P it) _ _ _ _ _ _ _).
  - split; [|split; [constructor|by apply Forall_nil_2]]. exists Lf. split; [|split; [by exists 0%nat|done]].
    split_and!; [done|done|constructor].
  - by intros t it [_ []].
  - intros t it key x y [_ Hs]. by apply (sorted_unique compar P).
  - intros m it a k [(t & (_ & Hsh & _) & _ & <-) _]. by apply shape_item.
  - intros m it key [Ht Hs] Hk. destruct (tfind_spec compar P key _ m it Hk Ht Hs (Nat.lt_succ_diag_r _)) as (q & E & _ & Hq).
    exists q. split; [|done]. simpl. by rewrite E.
  - intros mal m it key [Ht Hs] Hk Hne. destruct (tsearch_spec compar P key Hk mal m it Ht Hs) as (q & m' & E & Hq).
    destruct q as [a|].
    + destruct Hq as [(_ & k & Hin & Ek)|(-> & _ & l1 & l2 & -> & Ht' & Hs' & _)].
      * exfalso. rewrite Forall_forall in Hne. by apply (Hne (a, k)).
      * exists (Some a), m', (l1 ++ (a, key) :: l2). split_and!; [done..|]. exists a. split; [done|].
        by rewrite Permutation_middle.
    + destruct Hq as (-> & Ht' & _). by exists None, m', it.
  - intros m l1 a k l2 f [Ht Hs] Hf. destruct (set_key_spec compar P m l1 a k l2 f Ht Hs Hf) as (m' & E & Ht' & Hs').
    exists m'. split; [|done]. simpl. by rewrite E.
Qed.

(** ** Theorems *)

(** C14. tsearch() on a red-black search tree always returns.  It returns the node of an
    entry that compares equal, if there is one, and leaves the entries as they
    are; otherwise it adds the datum in its place, in a new node, or returns NULL if
    malloc() fails.  The tree stays a red-black tree with the same number
    of black nodes on every path, the entries stay sorted, and no entry moves to another node. *)
Theorem tsearch_correct {K} (compar : K -> K -> Z) (P : K -> Prop) `{!CompareLaws compar P}
    (mal : bool) (key : K) (m : mem K) (it : list (loc * K))
    (Hkey : P key) (Hm : search_tree m it) (Hs : sorted compar P it) :
  exists q m', tsearch compar mal key m = Some (q, m') /\
    match q with
    | Some a =>
        (search_tree m' it /\ exists k, (a, k) ∈ it /\ compar key k = 0) \/
        (mal = true /\ Forall (fun x => compar key (snd x) <> 0) it /\
         exists l1 l2, it = l1 ++ l2 /\ search_tree m' (l1 ++ (a, key) :: l2) /\
           sorted compar P (l1 ++ (a, key) :: l2) /\ a ∉ (fst <$> it))
    | None => mal = false /\ search_tree m' it /\ Forall (fun x => compar key (snd x) <> 0) it
    end.
Proof. by apply tsearch_spec. Qed.

(** tfind() finds the node of an entry that compares equal whenever there is one.
    It looks at no more than [2 * log2 (n + 1) + 1] of the [n] nodes: with that
    fuel (and one step for the end) the loop gives the same result. *)
Theorem tfind_correct {K} (compar : K -> K -> Z) (P : K -> Prop) `{!CompareLaws compar P}
    (key : K) (m : mem K) (it : list (loc * K))
    (Hkey : P key) (Hm : search_tree m it) (Hs : sorted compar P it) :
  exists q, tfind compar key m = Some (q, m) /\
    tfind_loop compar (2 * Nat.log2 (S (length it)) + 2) key RootSlot m = Some (q, m) /\
    match q with
    | Some a => exists k, (a, k) ∈ it /\ compar key k = 0
    | None => Forall (fun x => compar key (snd x) <> 0) it
    end.
Proof. apply (tfind_spec compar P); [done..|lia]. Qed.

#[export] Instance sub_laws : CompareLaws Z.sub (fun _ => True).
Proof. split; intros; lia. Qed.

(** The numbers 1 to 7, inserted in this order. *)
Definition sample_tree : mem Z :=
  fold_left (fun m k => match tsearch Z.sub true k m with Some (_, m) => m | None => m end)
    [1; 2; 3; 4; 5; 6; 7] (Mem None ∅).

Definition sample_rtree : trtree Z :=
  Nd 1%nat false (Nd 0%nat false Lf 1 Lf) 2
    (Nd 3%nat true (Nd 2%nat false Lf 3 Lf) 4 (Nd 5%nat false (Nd 4%nat true Lf 5 Lf) 6 (Nd 6%nat true Lf 7 Lf))).

Lemma sample_tree_ok : search_tree sample_tree (items sample_rtree) /\ sorted Z.sub (fun _ => True) (items sample_rtree).
Proof.
  split.
  - exists sample_rtree. split; [|split; [|done]].
    + split_and!; [vm_compute; reflexivity|vm_compute; repeat split|].
      apply (bool_decide_unpack _). vm_compute. reflexivity.
    + exists 2%nat. simpl. tauto.
  - split; [|repeat constructor]. repeat constructor.
Qed.

Lemma tsearch_correct_witness :
  exists m', tsearch Z.sub true 0 sample_tree = Some (Some 7%nat, m') /\
    search_tree m' ((7%nat, 0) :: items sample_rtree).
Proof.
  destruct (tsearch_correct Z.sub (fun _ => True) true 0 sample_tree (items sample_rtree) I
    (proj1 sample_tree_ok) (proj2 sample_tree_ok)) as (q & m' & E & H).
  assert (Eq : q = Some 7%nat) by (revert E; vm_compute; by intros [= <- _]). subst q.
  exists m'. split; [exact E|]. destruct H as [[_ (k & Hin & Hk)]|(_ & _ & l1 & l2 & E2 & Ht & Hs & _)].
  - exfalso. simpl in Hin. repeat (apply elem_of_cons in Hin as [[=]|Hin]; [done..|]). by apply not_elem_of_nil in Hin.
  - destruct l1 as [|[a k] l1]; [simpl in E2; subst l2; exact Ht|exfalso].
    destruct Hs as [Hs _]. injection E2 as <- <- _. apply Sorted.StronglySorted_inv in Hs as [_ Hs].
    apply Forall_app in Hs as [_ Hs]. apply Forall_cons in Hs as [Hs _]. unfold less in Hs. simpl in Hs. lia.
Defined.

Lemma tfind_correct_witness :
  exists k, tfind Z.sub 5 sample_tree = Some (Some 4%nat, sample_tree) /\ (4%nat, k) ∈ items sample_rtree.
Proof.
  destruct (tfind_correct Z.sub (fun _ => True) 5 sample_tree (items sample_rtree) I
    (proj1 sample_tree_ok) (proj2 sample_tree_ok)) as (q & E & _ & H).
  assert (Eq : q = Some 4%nat) by (revert E; vm_compute; by intros [= <-]). subst q.
  destruct H as (k & Hk & _). exists k. split; [exact E|exact Hk].
Defined.
