(* ===== verification/Tdelete.v ===== *)
(** * Deletion and traversal: tdelete() and twalk() of tsearch.c

    tdelete() goes down with a stack of the slots it came through, overwrites the node with
    its successor if it has two children, takes the successor (or the node itself) out of
    the tree, and goes up the stack until no path misses a black node.  The source has
    each step of the way up twice, once for each side; here the side is an argument.
    twalk() calls its action three times at inner nodes and once at leaves. *)

From S2P Require Import Prelude Tsearch.

Open Scope Z_scope.

(** The array [nodestack], the slot on top first; [sp] is its length. *)
Definition stacksize : nat := 100.

(** What a way down ends with: [abort ()] where the stack is full, NULL, or a result. *)
Inductive outcome (A : Type) := Aborted | Null | Done (x : A).
Arguments Aborted {A}.
Arguments Null {A}.
Arguments Done {A}.

Section Tdelete.
Context {K : Type} (compar : K -> K -> Z).

(** [&a->left] or [&a->right]: the side of the subtree that lost a black node, and the other one. *)
Definition field (left : bool) (a : loc) : slot := if left then LeftSlot a else RightSlot a.
Definition nd_field (left : bool) (n : node_t K) : option loc := if left then nd_left n else nd_right n.
Definition set_field (left : bool) (a : loc) (p : option loc) : prog K unit := write (field left a) p.

(** ** The way down *)

(** The loop that looks for the key: the parent [p], the slot of the node
    and the stack. *)
Fixpoint find_loop (fuel : nat) (key : K) (p : loc) (rootp : slot) (nodestack : list slot)
    : prog K (outcome (loc * slot * list slot)) :=
  match fuel with
  | O => stuck
  | S fuel =>
      let* root := read_nn rootp in
      let* n := get_node root in
      let cmp := compar key (nd_key n) in
      if cmp =? 0 then pret (Done (p, rootp, nodestack))
      else if (length nodestack =? stacksize)%nat then pret Aborted
      else
        let next := field (cmp <? 0) root in
        let* x := read next in
        match x with
        | None => pret Null
        | Some _ => find_loop fuel key root next (rootp :: nodestack)
        end
  end.

(** The loop for a node with two children: its successor and the stack. *)
Fixpoint successor_loop (fuel : nat) (parent up : slot) (nodestack : list slot)
    : prog K (outcome (loc * list slot)) :=
  match fuel with
  | O => stuck
  | S fuel =>
      if (length nodestack =? stacksize)%nat then pret Aborted
      else
        let* u := read_nn up in
        let* n := get_node u in
        match nd_left n with
        | None => pret (Done (u, parent :: nodestack))
        | Some _ => successor_loop fuel up (LeftSlot u) (parent :: nodestack)
        end
  end.

(** The node that will be unchained, and the stack of its parents. *)
Definition choose_unchained (rootp : slot) (nodestack : list slot) : prog K (outcome (loc * list slot)) :=
  let* root := read_nn rootp in
  let* n := get_node root in
  match nd_left n, nd_right n with
  | Some _, Some _ => successor_loop (S stacksize) rootp (RightSlot root) nodestack
  | _, _ => pret (Done (root, nodestack))
  end.

(** The other successor of [unchained] is chained into its parent; the result is [r]. *)
Definition unchain (rootp : slot) (nodestack : list slot) (unchained : loc) : prog K (option loc) :=
  let* un := get_node unchained in
  let r := match nd_left un with None => nd_right un | Some _ => nd_left un end in
  (match nodestack with
   | [] => write rootp r
   | s :: _ =>
       let* q := read_nn s in
       let* qn := get_node q in
       if decide (nd_right qn = Some unchained) then set_right q r else set_left q r
   end);;;
  pret r.

(** ** The way up *)

(** [Q] is red: rotate [P] so that [Q] becomes the top node. *)
Definition rotate_red_brother (left : bool) (pp : slot) (p q : loc) : prog K unit :=
  set_red q false;;; set_red p true;;;
  let* qn := get_node q in set_field (negb left) p (nd_field left qn);;;
  set_field left q (Some p);;;
  write pp (Some q).

(** One of the successors of [Q] is red; [p] is [*pp]. *)
Definition rotate_near (left : bool) (pp : slot) (p q q2 : loc) : prog K unit :=
  let* pn := get_node p in set_red q2 (nd_red pn);;;
  let* n2 := get_node q2 in set_field (negb left) p (nd_field left n2);;;
  set_field left q (nd_field (negb left) n2);;;
  set_field (negb left) q2 (Some q);;;
  set_field left q2 (Some p);;;
  write pp (Some q2);;;
  set_red p false.

Definition rotate_far (left : bool) (pp : slot) (p q far : loc) : prog K unit :=
  let* pn := get_node p in set_red q (nd_red pn);;;
  set_red p false;;;
  set_red far false;;;
  let* qn := get_node q in set_field (negb left) p (nd_field left qn);;;
  set_field left q (Some p);;;
  write pp (Some q).

(** [Q] is black: the rest of the body, with the new [r], or [None] if this was the last
    iteration. *)
Definition fix_black_brother (left : bool) (pp : slot) (p : loc) : prog K (option loc) :=
  let* q := read_nn (field (negb left) p) in
  let* qn := get_node q in
  let* near_red := is_red (nd_field left qn) in
  let* far_red := is_red (nd_field (negb left) qn) in
  if negb near_red && negb far_red then set_red q true;;; pret (Some p)
  else
    (match nd_field (negb left) qn, nd_field left qn with
     | Some far, near =>
         if far_red then rotate_far left pp p q far
         else match near with Some q2 => rotate_near left pp p q q2 | None => stuck end
     | None, Some q2 => rotate_near left pp p q q2
     | None, None => stuck
     end);;;
    pret None.

(** One iteration; the result is the new [r] and the stack.  A red brother needs one more
    place on the stack. *)
Definition rebalance_step (r : option loc) (pp : slot) (rest : list slot)
    : prog K (option loc * list slot) :=
  let* p := read_nn pp in
  let* pn := get_node p in
  let left := bool_decide (r = nd_left pn) in
  let* q := read_nn (field (negb left) p) in
  let* qn := get_node q in
  if nd_red qn then
    if (length (pp :: rest) <? stacksize)%nat then
      rotate_red_brother left pp p q;;;
      let* r := fix_black_brother left (field left q) p in
      match r with Some r => pret (Some r, pp :: rest) | None => pret (None, []) end
    else stuck
  else
    let* r := fix_black_brother left pp p in
    match r with Some r => pret (Some r, rest) | None => pret (None, []) end.

Fixpoint rebalance_loop (fuel : nat) (r : option loc) (nodestack : list slot) : prog K (option loc) :=
  match fuel with
  | O => stuck
  | S fuel =>
      match nodestack with
      | [] => pret r
      | pp :: rest =>
          let* red := is_red r in
          if red then pret r
          else
            let* s := rebalance_step r pp rest in rebalance_loop fuel (fst s) (snd s)
      end
  end.

(** [free (unchained)] *)
Definition free_node (a : loc) : prog K unit := fun m => Some (tt, Mem (m_root m) (delete a (m_heap m))).

(** What happens once the node is chosen. *)
Definition remove_node (root unchained : loc) (rootp : slot) (nodestack : list slot) : prog K unit :=
  let* r := unchain rootp nodestack unchained in
  let* un := get_node unchained in
  (if decide (unchained = root) then pret tt else set_key root (nd_key un));;;
  (if nd_red un then pret tt
   else
     let* r := rebalance_loop (S (S (length nodestack))) r nodestack in blacken r);;;
  free_node unchained.

Definition tdelete (key : K) : prog K (outcome loc) :=
  let* p := read RootSlot in
  match p with
  | None => pret Null
  | Some p =>
      let* d := find_loop (S stacksize) key p RootSlot [] in
      match d with
      | Aborted => pret Aborted
      | Null => pret Null
      | Done (p, rootp, nodestack) =>
          let* root := read_nn rootp in
          let* u := choose_unchained rootp nodestack in
          match u with
          | Aborted => pret Aborted
          | Null => pret Null
          | Done (unchained, nodestack) => remove_node root unchained rootp nodestack;;; pret (Done p)
          end
      end
  end.

(** ** twalk *)

Inductive VISIT := preorder | postorder | endorder | leaf.

(** A call of the action: the node, the visit and the level. *)
Definition visit : Type := loc * VISIT * Z.

Fixpoint trecurse (fuel : nat) (root : loc) (level : Z) : prog K (list visit) :=
  match fuel with
  | O => stuck
  | S fuel =>
      let* n := get_node root in
      match nd_left n, nd_right n with
      | None, None => pret [(root, leaf, level)]
      | l, r =>
          let* vl := match l with Some a => trecurse fuel a (level + 1) | None => pret [] end in
          let* vr := match r with Some a => trecurse fuel a (level + 1) | None => pret [] end in
          pret ((root, preorder, level) :: vl ++ (root, postorder, level) :: vr ++ [(root, endorder, level)])
      end
  end.

Definition twalk : prog K (list visit) :=
  let* root := read RootSlot in
  match root with
  | None => pret []
  | Some a => let* fuel := tree_fuel in trecurse fuel a 0
  end.
End Tdelete.
