(* ===== verification/TdeleteSpec.v ===== *)
(** * tdelete() keeps red-black search trees

    On the way up, the subtree at the position of the stack lacks a black node
    ([lacking]); each step moves the position towards the root, or repairs the tree.
    The last part is about the order in which twalk() visits the nodes. *)

From Stdlib Require Import Sorted.
From S2P Require Import Prelude SearchTable Tsearch TsearchSpec TsearchInsert TsearchOps Tdelete.

Open Scope Z_scope.

(** ** Both sides at once *)

Section Sides.
Context {K : Type}.
Implicit Types (t X Y Z : trtree K) (c : list (frame K)) (m : mem K).

(** A node and a frame whose hole is on the side [d] (left if [true]). *)
Definition nd (d : bool) (a : loc) (b : bool) t (k : K) X : trtree K :=
  if d then Nd a b t k X else Nd a b X k t.
Definition fr (d : bool) (a : loc) (b : bool) (k : K) X : frame K :=
  if d then FL a b k X else FR a b X k.

Lemma up_fr d a b k X t : up (fr d a b k X) t = nd d a b t k X.
Proof using Type. by destruct d. Qed.

Lemma frame_side (f : frame K) : exists d a b k X, f = fr d a b k X.
Proof using Type. destruct f as [a b k X|a b X k]; [by exists true, a, b, k, X|by exists false, a, b, k, X]. Qed.

Lemma slot_fr d a b k X c : slot_of (fr d a b k X :: c) = field d a.
Proof using Type. by destruct d. Qed.

Lemma frame_red_fr d a b k X : frame_red (fr d a b k X) = b.
Proof using Type. by destruct d. Qed.

Lemma frame_tree_fr d a b k X : frame_tree (fr d a b k X) = X.
Proof using Type. by destruct d. Qed.

Lemma up_far d a b k X t : up (fr (negb d) a b k t) X = nd d a b t k X.
Proof using Type. by destruct d. Qed.

(** A node in the store, seen from the side [d]. *)
Lemma get_nd d m c a b t k X :
  rep_at m c (nd d a b t k X) -> exists n, get_node a m = Some (n, m) /\
    nd_key n = k /\ nd_field d n = ptr t /\ nd_field (negb d) n = ptr X /\ nd_red n = b.
Proof using Type.
  intros H. destruct d; (eexists; split; [exact (get_node_at _ _ _ _ _ _ _ H)|done]).
Qed.

Lemma read_nn_nd d m c a b t k X : rep_at m c (nd d a b t k X) -> read_nn (slot_of c) m = Some (a, m).
Proof using Type. destruct d; apply read_nn_at. Qed.

Lemma set_red_nd d m c a b b' t k X :
  rep_at m c (nd d a b t k X) -> exists m', set_red a b' m = Some (tt, m') /\ rep_at m' c (nd d a b' t k X).
Proof using Type. destruct d; apply set_red_at. Qed.

Lemma near_hole d m c a b t k X : rep_at m c (nd d a b t k X) -> rep_at m (fr d a b k X :: c) t.
Proof using Type. rewrite <- up_fr. apply rep_down. Qed.

Lemma far_hole d m c a b t k X : rep_at m c (nd d a b t k X) -> rep_at m (fr (negb d) a b k t :: c) X.
Proof using Type. rewrite <- up_far. apply rep_down. Qed.

Lemma ptr_nd d a b t k X : ptr (nd d a b t k X) = Some a.
Proof using Type. by destruct d. Qed.

Lemma rotate_red_brother_at d m c p cp t kp q X kq Y :
  rep_at m c (nd d p cp t kp (nd d q true X kq Y)) ->
  exists m', rotate_red_brother d (slot_of c) p q m = Some (tt, m') /\
    rep_at m' c (nd d q false (nd d p true t kp X) kq Y).
Proof using Type.
  destruct d; unfold nd; intros Hr; addresses Hr; destruct m as [root h]; destruct Hr as (Hc & Hs & Hnd);
    simpl in Hs; destruct_and! Hs; unfold rotate_red_brother, set_field, field, nd_field;
    simpl m_heap in *; cbn [negb]; run; write_last root c (Some p) (Some q) Hc Hnd.
Qed.

Lemma rotate_far_at d m c p cp t kp q X kq z cz Y kz W :
  rep_at m c (nd d p cp t kp (nd d q false X kq (nd d z cz Y kz W))) ->
  exists m', rotate_far d (slot_of c) p q z m = Some (tt, m') /\
    rep_at m' c (nd d q cp (nd d p false t kp X) kq (nd d z false Y kz W)).
Proof using Type.
  destruct d; unfold nd; intros Hr; addresses Hr; destruct m as [root h]; destruct Hr as (Hc & Hs & Hnd);
    simpl in Hs; destruct_and! Hs; unfold rotate_far, set_field, field, nd_field;
    simpl m_heap in *; cbn [negb]; run; write_last root c (Some p) (Some q) Hc Hnd.
Qed.

Lemma rotate_near_at d m c p cp t kp q q2 b2 X k2 Y kq Z0 :
  rep_at m c (nd d p cp t kp (nd d q false (nd d q2 b2 X k2 Y) kq Z0)) ->
  exists m', rotate_near d (slot_of c) p q q2 m = Some (tt, m') /\
    rep_at m' c (nd d q2 cp (nd d p false t kp X) k2 (nd d q false Y kq Z0)).
Proof using Type.
  intros Hr0.
  enough (exists m1, rotate_near d (slot_of c) p q q2 m = set_red p false m1 /\
    rep_at m1 c (nd d q2 cp (nd d p cp t kp X) k2 (nd d q false Y kq Z0))) as (m1 & -> & Hr1).
  { rewrite <- (up_fr d q2) in Hr1. apply rep_down in Hr1.
    assert (forall b, nd d p b t kp X = if d then Nd p b t kp X else Nd p b X kp t) as E by done.
    rewrite E in Hr1. destruct d; (destruct (set_red_at _ _ _ _ false _ _ _ Hr1) as (m2 & E2 & Hr2));
      exists m2; (split; [done|]); by apply rep_up in Hr2. }
  revert Hr0. destruct d; unfold nd; intros Hr; addresses Hr; destruct m as [root h]; destruct Hr as (Hc & Hs & Hnd);
    simpl in Hs; destruct_and! Hs; unfold rotate_near, set_field, field, nd_field;
    simpl m_heap in *; cbn [negb]; run;
    (match goal with |- exists m1, match ?w with _ => _ end = _ /\ rep_at _ _ ?T =>
       enough (exists m2, w = Some (tt, m2) /\ rep_at m2 c T) as (m2 & -> & ?); [by exists m2|] end);
    write_last root c (Some p) (Some q2) Hc Hnd.
Qed.
End Sides.

(** ** The way up *)

Section Rebalance.
Context {K : Type}.
Implicit Types (t X Y Z : trtree K) (f : frame K) (c : list (frame K)) (m : mem K) (it : list (loc * K)).

(** The slots of the parents of the hole. *)
Fixpoint parents c : list slot := match c with [] => [] | _ :: c => slot_of c :: parents c end.

Lemma length_parents c : length (parents c) = length c.
Proof using Type. induction c as [|f c IH]; simpl; [done|by rewrite IH]. Qed.

Lemma ctx_ok_black c n b : ctx_ok c n b -> ctx_ok c n false.
Proof using Type. destruct c as [|f c]; simpl; [done|]. destruct (frame_red f); tauto. Qed.

(** The tree in the hole lacks a black node, or would if it were not red. *)
Definition lacking c t : Prop :=
  exists n, ctx_ok c (S n) false /\ if colour t then rbt (recolour false t) (S n) else rbt t n.

Definition balanced t it : Prop := (exists n, rbt t n) /\ items t = it.

Lemma rbt_brother t n : rbt t (S n) -> colour t = false ->
  exists q X k Y, t = Nd q false X k Y /\ rbt X n /\ rbt Y n.
Proof using Type. destruct t as [|q [] X k Y]; simpl; try done. intros [H1 H2] _. by exists q, X, k, Y. Qed.

Lemma rbt_nd_black d a t (k : K) X n : rbt t n -> rbt X n -> rbt (nd d a false t k X) (S n).
Proof using Type. by destruct d. Qed.

Lemma brother_is d q b X (k : K) Y : exists X' Y', Nd q b X k Y = nd d q b X' k Y' /\
  (forall n, rbt X n -> rbt Y n -> rbt X' n /\ rbt Y' n).
Proof using Type. destruct d; [by exists X, Y|]. exists Y, X. split; [done|]. auto. Qed.

Lemma items_nd d a b t (k : K) X : items (nd d a b t k X) = if d then items t ++ (a, k) :: items X else items X ++ (a, k) :: items t.
Proof using Type. by destruct d. Qed.

Lemma colour_nd d a b t (k : K) X : colour (nd d a b t k X) = b.
Proof using Type. by destruct d. Qed.

Lemma rbt_nd_red d a t (k : K) X n :
  rbt t n -> rbt X n -> colour t = false -> colour X = false -> rbt (nd d a true t k X) n.
Proof using Type. destruct d; simpl; tauto. Qed.

(** Colours of [P] kept by the new top of the subtree. *)
Lemma plug_top c d a cp t (k : K) X n :
  ctx_ok (fr d a cp k X :: c) (S n) false -> forall d' q kq A B,
  rbt A (S n) -> rbt B (S n) -> colour A = false -> colour B = false ->
  exists n', rbt (plug c (nd d' q cp A kq B)) n'.
Proof using Type.
  intros Hc d' q kq A B HA HB CA CB. cbn [ctx_ok] in Hc. rewrite frame_red_fr, frame_tree_fr in Hc.
  destruct cp, Hc as (_ & Hc); [destruct Hc as (_ & _ & Hc)|].
  - eapply plug_rbt; [by apply rbt_nd_red|]. by rewrite colour_nd.
  - eapply plug_rbt; [by apply rbt_nd_black|]. by rewrite colour_nd.
Qed.

(** The brother [Q] is black: [P] becomes the top of what lacks a black node, or the
    tree is repaired. *)
Lemma fix_black_brother_at d m c p cp t kp q X kq Y n :
  rep_at m c (nd d p cp t kp (nd d q false X kq Y)) -> rbt t n -> colour t = false ->
  rbt X n -> rbt Y n -> ctx_ok (fr d p cp kp (nd d q false X kq Y) :: c) (S n) false ->
  let whole := items (plug c (nd d p cp t kp (nd d q false X kq Y))) in
  exists r m', fix_black_brother d (slot_of c) p m = Some (r, m') /\
    match r with
    | Some a => a = p /\ exists T, ptr T = Some p /\ colour T = cp /\ rep_at m' c T /\ lacking c T /\
        items (plug c T) = whole
    | None => exists T, rep m' T /\ balanced T whole
    end.
Proof using Type.
  intros Hr Ht Ct HX HY Hc whole. pose proof (far_hole _ _ _ _ _ _ _ _ Hr) as HrQ.
  unfold fix_black_brother. unfold pbind at 1. rewrite <- (slot_fr (negb d) p cp kp t c), (read_nn_nd _ _ _ _ _ _ _ _ HrQ).
  destruct (get_nd _ _ _ _ _ _ _ _ HrQ) as (qn & Eqn & _ & En & Ef & _). unfold pbind at 1. rewrite Eqn, En, Ef.
  unfold pbind at 1. rewrite (is_red_at _ _ _ (near_hole _ _ _ _ _ _ _ _ HrQ)).
  unfold pbind at 1. rewrite (is_red_at _ _ _ (far_hole _ _ _ _ _ _ _ _ HrQ)).
  pose proof (plug_top c d p cp t kp _ n Hc) as Htop. subst whole.
  destruct (colour X && negb (colour Y)) eqn:Enear.
  { apply andb_true_iff in Enear as [CX CY%negb_true_iff]. rewrite CX, CY. cbn [negb andb].
    destruct X as [|q2 [] X1 k2 Y1]; try done. destruct HX as (_ & _ & HX1 & HY1).
    destruct (brother_is d q2 true X1 k2 Y1) as (X2 & Y2 & E & HX2). rewrite E in *.
    destruct (HX2 n HX1 HY1) as [HX2' HY2'].
    destruct (rotate_near_at _ _ _ _ _ _ _ _ _ _ _ _ _ _ _ Hr) as (m' & Em & Hr').
    exists None, m'. split.
    - rewrite ptr_nd. destruct (ptr Y); unfold pbind at 1; by rewrite Em.
    - eexists. split; [apply rep_at_plug; exact Hr'|]. split; [|rewrite !items_plug, !items_nd; destruct d; flat_app].
      apply Htop; (by apply rbt_nd_black || by apply colour_nd). }
  destruct (colour Y) eqn:CY.
  { destruct Y as [|z [] X1 kz Y1]; try done. destruct HY as (_ & _ & HX1 & HY1).
    destruct (brother_is d z true X1 kz Y1) as (X2 & Y2 & E & HX2). rewrite E in *.
    destruct (HX2 n HX1 HY1) as [HX2' HY2'].
    destruct (rotate_far_at _ _ _ _ _ _ _ _ _ _ _ _ _ _ _ Hr) as (m' & Em & Hr').
    exists None, m'. split.
    - rewrite ptr_nd, andb_false_r. unfold pbind at 1. by rewrite Em.
    - eexists. split; [apply rep_at_plug; exact Hr'|]. split; [|rewrite !items_plug, !items_nd; destruct d; flat_app].
      apply Htop; (by apply rbt_nd_black || by apply colour_nd). }
  rewrite andb_true_r in Enear. rewrite Enear. cbn [negb andb].
  destruct (set_red_nd _ _ _ _ _ true _ _ _ HrQ) as (m' & Em & Hr').
  exists (Some p), m'. unfold pbind at 1. rewrite Em. split; [done|]. split; [done|].
  exists (nd d p cp t kp (nd d q true X kq Y)). rewrite ptr_nd, colour_nd. split_and!; [done|done| | |].
  - rewrite <- up_far. by apply rep_up.
  - cbn [ctx_ok] in Hc. rewrite frame_red_fr, frame_tree_fr in Hc. destruct Hc as (_ & Hc).
    assert (HQ : rbt (nd d q true X kq Y) n) by (by apply rbt_nd_red).
    unfold lacking. rewrite colour_nd. destruct cp.
    + destruct Hc as (_ & _ & Hc). exists n. split; [by eapply ctx_ok_black|]. destruct d; simpl; by split.
    + exists (S n). split; [done|]. by apply rbt_nd_black.
  - rewrite !items_plug, !items_nd. destruct d; flat_app.
Qed.
(** The comparison [r == p->left]. *)
Lemma side_test d m c a b t k q b' X kq Y n :
  rep_at m c (nd d a b t k (Nd q b' X kq Y)) -> get_node a m = Some (n, m) ->
  nd_field d n = ptr t -> nd_field (negb d) n = Some q -> bool_decide (ptr t = nd_left n) = d.
Proof using Type.
  intros Hr _ En Ef. destruct d; simpl in *; rewrite ?En, ?Ef; [by apply bool_decide_eq_true_2|].
  apply bool_decide_eq_false_2. destruct t as [|a' ? ? ? ?]; simpl; [done|]. intros [= ->].
  apply rep_at_disjoint in Hr as (_ & Hnd & _). apply NoDup_cons in Hnd as [_ Hnd].
  apply NoDup_app in Hnd as (_ & Hnd & _). apply (Hnd q); by left.
Qed.

(** One iteration moves up, ends the loop, or turns a red brother's parent red and stays. *)
Lemma rebalance_step_at m f c t n :
  rep_at m (f :: c) t -> rbt t n -> colour t = false -> ctx_ok (f :: c) (S n) false ->
  (length (f :: c) < stacksize)%nat ->
  let whole := items (plug (f :: c) t) in
  exists r st m', rebalance_step (ptr t) (slot_of c) (parents c) m = Some ((r, st), m') /\
    ((r = None /\ st = [] /\ exists T, rep m' T /\ balanced T whole) \/
     exists c' T, r = ptr T /\ st = parents c' /\ rep_at m' c' T /\ lacking c' T /\ items (plug c' T) = whole /\
       (length c' = length c \/ colour T = true /\ length c' = S (length c))).
Proof using Type.
  intros Hr Ht Ct Hc Hlen whole. destruct (frame_side f) as (d & p & cp & kp & Q & ->).
  assert (Hwhole : whole = items (plug c (nd d p cp t kp Q))) by (unfold whole; cbn [plug]; by rewrite up_fr).
  clearbody whole. subst whole. apply rep_up in Hr. rewrite up_fr in Hr.
  pose proof Hc as Hc0. cbn [ctx_ok] in Hc0. rewrite frame_red_fr, frame_tree_fr in Hc0. destruct Hc0 as (HQ & Hc0).
  destruct Q as [|q cq X0 kq Y0]; [done|]. destruct (brother_is d q cq X0 kq Y0) as (X & Y & EQ & HXY).
  unfold rebalance_step. unfold pbind at 1. rewrite (read_nn_nd _ _ _ _ _ _ _ _ Hr).
  destruct (get_nd _ _ _ _ _ _ _ _ Hr) as (pn & Epn & _ & En & Ef & _). unfold pbind at 1. rewrite Epn.
  rewrite (side_test _ _ _ _ _ _ _ _ _ _ _ _ _ Hr Epn En Ef). cbv zeta. clear En Ef.
  rewrite EQ in Hr, Hc, HQ |- *. clear EQ.
  pose proof (far_hole _ _ _ _ _ _ _ _ Hr) as HrQ.
  unfold pbind at 1. rewrite <- (slot_fr (negb d) p cp kp t c), (read_nn_nd _ _ _ _ _ _ _ _ HrQ).
  destruct (get_nd _ _ _ _ _ _ _ _ HrQ) as (qn & Eqn & _ & _ & _ & Er). unfold pbind at 1. rewrite Eqn, Er.
  destruct cq.
  - assert (HX : rbt X (S n) /\ rbt Y (S n) /\ colour X = false /\ colour Y = false) by (destruct d; simpl in HQ; tauto).
    destruct HX as (HX & HY & CX & CY). destruct cp; [by destruct Hc0 as (_ & ? & _)|].
    rewrite (proj2 (Nat.ltb_lt _ _)) by (simpl; rewrite length_parents; exact Hlen).
    destruct (rotate_red_brother_at _ _ _ _ _ _ _ _ _ _ _ Hr) as (m1 & E1 & Hr1). unfold pbind at 1. rewrite E1.
    apply near_hole in Hr1. destruct (rbt_brother X n HX CX) as (x & A & kx & B & -> & HA & HB).
    destruct (brother_is d x false A kx B) as (A' & B' & EX & HAB). destruct (HAB n HA HB) as [HA' HB'].
    rewrite EX in Hr1, HX, CX |- *. set (g := fr d q false kq Y) in Hr1.
    assert (Hc1 : ctx_ok (fr d p true kp (nd d x false A' kx B') :: g :: c) (S n) false).
    { cbn [ctx_ok]. unfold g. rewrite !frame_red_fr, !frame_tree_fr. split_and!; done. }
    destruct (fix_black_brother_at d m1 (g :: c) p true t kp x A' kx B' n Hr1 Ht Ct HA' HB' Hc1) as (r & m2 & E2 & H).
    unfold pbind at 1. unfold g in E2 at 1. rewrite slot_fr in E2. rewrite E2.
    assert (Hi : items (plug (g :: c) (nd d p true t kp (nd d x false A' kx B'))) =
      items (plug c (nd d p false t kp (nd d q true (nd d x false A' kx B') kq Y)))).
    { cbn [plug]. unfold g. rewrite up_fr, !items_plug, !items_nd. destruct d; flat_app. }
    rewrite <- Hi. destruct r as [a|].
    + destruct H as (-> & T & HT & CT & Hr' & Hl & Hi'). exists (Some p), (slot_of c :: parents c), m2. split; [done|]. right.
      exists (g :: c), T. split_and!; auto.
    + exists None, [], m2. split; [done|]. by left.
  - assert (HX : rbt X n /\ rbt Y n) by (destruct d; simpl in HQ; tauto). destruct HX as [HX HY].
    destruct (fix_black_brother_at d m c p cp t kp q X kq Y n Hr Ht Ct HX HY Hc) as (r & m' & E & H).
    unfold pbind at 1. rewrite E. destruct r as [a|].
    + destruct H as (-> & T & HT & _ & Hr' & Hl & Hi). exists (Some p), (parents c), m'. split; [done|]. right.
      exists c, T. split_and!; auto.
    + exists None, [], m'. split; [done|]. by left.
Qed.
Lemma lacking_filled m c t :
  rep_at m c t -> lacking c t -> colour t = true \/ c = [] ->
  exists m' T, blacken (ptr t) m = Some (tt, m') /\ rep m' T /\ balanced T (items (plug c t)).
Proof using Type.
  intros Hr (n & Hc & Ht) H. destruct (blacken_at _ _ _ Hr) as (m' & E & Hr'). exists m', (plug c (recolour false t)).
  split; [done|]. split; [by apply rep_at_plug|]. split; [|by rewrite !items_plug, items_recolour].
  destruct H as [E'| ->].
  - rewrite E' in Ht. eapply plug_rbt; [exact Ht|]. by destruct t.
  - destruct (colour t) eqn:Ct; [by eexists|]. exists n. destruct t as [|a [] l k r]; done.
Qed.

Lemma rebalance_loop_at fuel m c t :
  rep_at m c t -> lacking c t -> (length c < stacksize)%nat \/ colour t = true ->
  ((if colour t then 0 else S (length c)) < fuel)%nat ->
  exists m' T, (let* r := rebalance_loop fuel (ptr t) (parents c) in blacken r) m = Some (tt, m') /\
    rep m' T /\ balanced T (items (plug c t)).
Proof using Type.
  revert m c t. induction fuel as [|fuel IH]; intros m c t Hr Hl Hlen Hf; [lia|].
  cbn [rebalance_loop]. destruct c as [|f c]; cbn [parents].
  { unfold pbind, pret. apply (lacking_filled _ []); auto. }
  destruct (colour t) eqn:Ct.
  { assert (Hred : is_red (ptr t) m = Some (true, m)) by (by rewrite (is_red_at _ _ _ Hr), Ct).
    unfold pbind. rewrite Hred. unfold pret. by apply (lacking_filled _ (f :: c)); auto. }
  pose proof Hl as (n & Hc & Ht). rewrite Ct in Ht. destruct Hlen as [Hlen|]; [|done].
  destruct (rebalance_step_at m f c t n Hr Ht Ct Hc Hlen) as (r & st & m1 & E & H).
  unfold pbind at 1. unfold pbind at 1. rewrite (is_red_at _ _ _ Hr), Ct. unfold pbind at 1. rewrite E. cbn [fst snd].
  destruct H as [(-> & -> & T & HT & Hb)|(c' & T & -> & -> & Hr' & Hl' & <- & Hstay)].
  - exists m1, T. simpl in Hf. destruct fuel as [|fuel]; [lia|]. done.
  - simpl in Hf, Hlen. apply (IH m1 c' T Hr' Hl'); [destruct Hstay as [->|[-> _]]; [left; lia|by right]|].
    destruct Hstay as [->|[-> _]]; [|lia]. destruct (colour T); lia.
Qed.
(** ** Unchaining *)

(** What takes the place of a node with an empty child. *)
Definition other_child (l r : trtree K) : trtree K := match l with Lf => r | _ => l end.

Lemma write_hole m c u b l k r t' :
  rep_at m c (Nd u b l k r) -> t' = l \/ t' = r ->
  exists m', write (slot_of c) (ptr t') m = Some (tt, m') /\ rep_at m' c t' /\ m_heap m' !! u = m_heap m !! u /\
    u ∉ locs (plug c t').
Proof using Type.
  intros Hr Ht. pose proof (rep_at_disjoint _ _ _ Hr) as (Hn1 & Hn2 & Hd). destruct m as [root h].
  destruct Hr as (Hc & (Hu & Hl & Hr') & _). destruct (write_slot root h c _ (ptr t') Hn1 Hc) as (root' & h' & E & Hc' & Hb).
  assert (Hloc : forall x, x ∈ locs t' -> x ∈ locs l ++ locs r) by (intros x; rewrite elem_of_app; destruct Ht as [-> | ->]; auto).
  assert (Hout : forall x, x ∈ locs (Nd u b l k r) -> x ∉ ctx_locs c) by (intros x Hx Hx'; exact (Hd x Hx' Hx)).
  simpl in Hn2, Hout. apply NoDup_cons in Hn2 as [Hu' Hn2].
  exists (Mem root' h'). split; [done|]. split_and!.
  - split; [exact Hc'|]. simpl. split.
    + apply (shape_frame h); [|by destruct Ht as [-> | ->]]. intros x Hx. apply Hb, Hout. right. by apply Hloc.
    + apply NoDup_app. split; [done|]. apply NoDup_app in Hn2 as (H1 & H2 & H3). split.
      * intros x Hx Hx'. apply (Hout x); [right; by apply Hloc|done].
      * by destruct Ht as [-> | ->].
  - simpl. apply Hb, Hout. by left.
  - rewrite locs_plug, not_elem_of_app. split; [apply Hout; by left|]. intros Hx. by apply Hu', Hloc.
Qed.

(** Which of the fields of the parent holds the node. *)
Lemma unchain_at m c u b l k r :
  rep_at m c (Nd u b l k r) ->
  exists m', unchain (slot_of c) (parents c) u m = Some (ptr (other_child l r), m') /\
    rep_at m' c (other_child l r) /\ m_heap m' !! u = Some (MkNode k (ptr l) (ptr r) b) /\
    u ∉ locs (plug c (other_child l r)).
Proof using Type.
  intros Hr. destruct (write_hole m c u b l k r (other_child l r) Hr) as (m' & E & Hr' & Hu & Hout).
  { destruct l; [by right|by left]. }
  exists m'. pose proof (proj1 (proj2 Hr)) as (Hu0 & _). rewrite Hu. split; [|by split_and!].
  unfold unchain. unfold pbind at 1. rewrite (get_node_at _ _ _ _ _ _ _ Hr). cbn [nd_left nd_right]. cbv zeta.
  assert ((match ptr l with Some _ => ptr l | None => ptr r end) = ptr (other_child l r)) as -> by (by destruct l).
  destruct c as [|f c]; cbn [parents]; [unfold pbind; by rewrite E|].
  unfold pbind. destruct (get_frame m f c _ Hr) as [Ef1 Ef2]. rewrite Ef1, Ef2.
  destruct f as [p cp kp R|p cp L kp]; cbn [frame_node nd_right ptr frame_loc slot_of write] in *.
  - rewrite decide_False; [by rewrite E|]. intros HR. destruct R as [|x ? ? ? ?]; [done|]. simpl in HR. injection HR as ->.
    pose proof (proj2 (proj2 Hr)) as Hnd. unfold ctx_locs in Hnd. simpl in Hnd.
    rewrite NoDup_cons, <- app_assoc, NoDup_cons in Hnd. destruct Hnd as (_ & Hnd & _). apply Hnd.
    rewrite !elem_of_app. right. right. by left.
  - rewrite decide_True by done. by rewrite E.
Qed.
(** ** Overwriting the node with its successor *)

Lemma plug_app c1 c2 t : plug (c1 ++ c2) t = plug c2 (plug c1 t).
Proof using Type. revert t. induction c1 as [|f c1 IH]; intros t; simpl; [done|apply IH]. Qed.

Lemma rep_at_app m c1 c2 t : rep_at m (c1 ++ c2) t <-> rep_at m c2 (plug c1 t).
Proof using Type. by rewrite <- !rep_at_plug, plug_app. Qed.

Lemma set_key_at m c a b l k k' r :
  rep_at m c (Nd a b l k r) -> exists m', set_key a k' m = Some (tt, m') /\ rep_at m' c (Nd a b l k' r) /\
    forall x, x <> a -> m_heap m' !! x = m_heap m !! x.
Proof using Type.
  destruct m as [root h]. intros Hr. pose proof (rep_at_disjoint _ _ _ Hr) as (_ & Hnd & _).
  destruct (proj1 (proj2 Hr)) as (Ha & Hl & Hrr). simpl in Ha, Hl, Hrr, Hnd.
  apply NoDup_cons in Hnd as [Hna _]. rewrite not_elem_of_app in Hna. destruct Hna as [Hal Har].
  unfold set_key, set_node. simpl. rewrite Ha. eexists. split; [done|]. split.
  - eapply rep_at_local; [exact Hr|done|done| |].
    + simpl. rewrite lookup_insert_eq. split_and!; [done|..]; (eapply shape_frame; [|eassumption]);
        intros x Hx; apply lookup_insert_ne; set_solver.
    + simpl. intros x Hx. apply lookup_insert_ne. set_solver.
  - intros x Hx. simpl. by apply lookup_insert_ne.
Qed.

Lemma set_key_above m c1 a b l k k' c t :
  rep_at m (c1 ++ FR a b l k :: c) t ->
  exists m', set_key a k' m = Some (tt, m') /\ rep_at m' (c1 ++ FR a b l k' :: c) t /\
    forall x, x <> a -> m_heap m' !! x = m_heap m !! x.
Proof using Type.
  intros H. apply rep_at_app, rep_up in H. destruct (set_key_at _ _ _ _ _ _ k' _ H) as (m' & E & H' & Hx).
  exists m'. split; [done|]. split; [|done]. apply rep_at_app. by apply rep_down.
Qed.

Lemma ctx_ok_key c1 a b l k k' c n b' :
  ctx_ok (c1 ++ FR a b l k :: c) n b' -> ctx_ok (c1 ++ FR a b l k' :: c) n b'.
Proof using Type.
  revert n b'. induction c1 as [|f c1 IH]; intros n b'; simpl; [done|]. destruct (frame_red f); intuition.
Qed.

Lemma parents_key c1 a b l k k' c : parents (c1 ++ FR a b l k :: c) = parents (c1 ++ FR a b l k' :: c).
Proof using Type. induction c1 as [|f [|g c1] IH]; simpl in *; [done|done|]. by rewrite IH. Qed.

Lemma locs_items t : locs t ≡ₚ (items t).*1.
Proof using Type.
  induction t as [|a b l IHl k r IHr]; [done|]. simpl. rewrite fmap_app, fmap_cons. simpl.
  rewrite IHl, IHr. by apply Permutation_middle.
Qed.

(** [free()] of a node that is not in the tree. *)
Lemma free_outside m t u :
  rep m t -> u ∉ locs t -> exists m', free_node u m = Some (tt, m') /\ rep m' t.
Proof using Type.
  intros (Hp & Hs & Hnd) Hu. eexists. split; [done|]. split_and!; [done| |done].
  eapply shape_frame; [|exact Hs]. intros x Hx. simpl. apply lookup_delete_ne. by intros ->.
Qed.

(** The rest of the deletion, once the node is out of the tree. *)
Definition repair (red : bool) (r : option loc) (nodestack : list slot) (u : loc) : prog K unit :=
  (if red then pret tt
   else let* r := rebalance_loop (S (S (length nodestack))) r nodestack in blacken r);;;
  free_node u.

Lemma repair_at m c t u (red : bool) :
  rep_at m c t -> u ∉ locs (plug c t) -> (length c < stacksize)%nat ->
  (if red then exists n, rbt (plug c t) n else lacking c t) ->
  exists m' T, repair red (ptr t) (parents c) u m = Some (tt, m') /\ rep m' T /\ balanced T (items (plug c t)).
Proof using Type.
  intros Hr Hu Hlen H. unfold repair.
  assert (exists m1 T, (if red then pret tt
    else let* r := rebalance_loop (S (S (length (parents c)))) (ptr t) (parents c) in blacken r) m = Some (tt, m1) /\
    rep m1 T /\ balanced T (items (plug c t))) as (m1 & T & E & HT & Hb).
  { destruct red.
    - exists m, (plug c t). split; [done|]. split; [by apply rep_at_plug|done].
    - apply rebalance_loop_at; [done|done|by left|]. rewrite length_parents. destruct (colour t); lia. }
  destruct (free_outside m1 T u HT) as (m2 & E2 & HT2).
  { rewrite locs_items. rewrite (proj2 Hb), <- locs_items. done. }
  exists m2, T. split; [|done]. unfold pbind at 1. by rewrite E.
Qed.
Lemma rbt_zero t : rbt t 0 -> colour t = false -> t = Lf.
Proof using Type. by destruct t as [|a [] l k r]. Qed.

Lemma rbt_unchained c u b l k r n :
  rbt (Nd u b l k r) n -> l = Lf \/ r = Lf -> ctx_ok c n b ->
  if b then exists n', rbt (plug c (other_child l r)) n' else lacking c (other_child l r).
Proof using Type.
  intros Hb Hlr Hc.
  assert (rbt (other_child l r) 0 /\ (b = false -> n = 1%nat) /\ (b = true -> n = 0%nat /\ other_child l r = Lf))
    as (Ht & H1 & H2).
  { destruct b; simpl in Hb; [destruct Hb as (Cl & Cr & Hl & Hr)|destruct n as [|n]; [done|]; destruct Hb as (Hl & Hr)];
      (assert (n = 0%nat) as -> by (by destruct Hlr as [-> | ->]); (split; [by destruct l|]); (split; [done|])); [|done].
    intros _. split; [done|]. rewrite (rbt_zero l), (rbt_zero r) by done. done. }
  destruct b.
  - destruct H2 as [-> E]; [done|]. rewrite E in *. apply (plug_rbt c Lf 0); [done|]. by eapply ctx_ok_black.
  - rewrite H1 in Hc by done. exists 0%nat. split; [by eapply ctx_ok_black|].
    destruct (colour (other_child l r)) eqn:E; [by apply rbt_blacken|done].
Qed.

(** The node itself is taken out. *)
Lemma remove_self m c u b l k r n :
  rep_at m c (Nd u b l k r) -> l = Lf \/ r = Lf -> rbt (Nd u b l k r) n -> ctx_ok c n b -> (length c < stacksize)%nat ->
  exists m' T, remove_node u u (slot_of c) (parents c) m = Some (tt, m') /\ rep m' T /\
    balanced T (items (plug c (other_child l r))).
Proof using Type.
  intros Hr Hlr Hb Hc Hlen. destruct (unchain_at m c u b l k r Hr) as (m1 & E1 & Hr1 & Hu & Hout).
  pose proof (rbt_unchained c u b l k r n Hb Hlr Hc) as H.
  destruct (repair_at m1 c _ u b Hr1 Hout Hlen H) as (m2 & T & E2 & HT). exists m2, T. split; [|done].
  unfold remove_node. unfold pbind at 1. rewrite E1. unfold get_node at 1. unfold pbind at 1. rewrite Hu.
  rewrite decide_True by done. exact E2.
Qed.

(** The successor is taken out, and its key put into the node. *)
Lemma remove_successor m c1 a b0 l0 k0 c0 rootp u b k r n :
  let c := c1 ++ FR a b0 l0 k0 :: c0 in let c' := c1 ++ FR a b0 l0 k :: c0 in
  rep_at m c (Nd u b Lf k r) -> rbt (Nd u b Lf k r) n -> ctx_ok c n b -> (length c < stacksize)%nat ->
  exists m' T, remove_node a u rootp (parents c) m = Some (tt, m') /\ rep m' T /\ balanced T (items (plug c' r)).
Proof using Type.
  intros c c' Hr Hb Hc Hlen. destruct (unchain_at m c u b Lf k r Hr) as (m1 & E1 & Hr1 & Hu & Hout).
  simpl in E1, Hr1, Hout.
  assert (Hua : u <> a).
  { intros ->. pose proof (proj2 (proj2 Hr)) as Hnd. apply NoDup_app in Hnd as (_ & Hnd & _). apply (Hnd a); [|by left].
    unfold c, ctx_locs. rewrite map_app, concat_app, elem_of_app. right. by left. }
  destruct (set_key_above _ _ _ _ _ _ k _ _ Hr1) as (m2 & E2 & Hr2 & Hsame).
  pose proof (rbt_unchained c' u b Lf k r n Hb (or_introl eq_refl) (ctx_ok_key _ _ _ _ _ k _ _ _ Hc)) as H.
  assert (Hout' : u ∉ locs (plug c' r)).
  { unfold c', c in *. rewrite !plug_app in *. cbn [plug up] in *. rewrite !locs_plug in *. exact Hout. }
  assert (Hlen' : (length c' < stacksize)%nat) by (unfold c', c in *; rewrite length_app in *; exact Hlen).
  destruct (repair_at m2 c' _ u b Hr2 Hout' Hlen' H) as (m3 & T & E3 & HT). exists m3, T. split; [|done].
  unfold remove_node. unfold pbind at 1.
  assert (unchain rootp (parents c) u m = unchain (slot_of c) (parents c) u m) as -> by (unfold c; by destruct c1).
  rewrite E1. unfold get_node at 1. unfold pbind at 1. rewrite Hu. rewrite decide_False by done. unfold pbind at 1. cbn [nd_key]. rewrite E2.
  unfold c. rewrite (parents_key _ _ _ _ k0 k). exact E3.
Qed.
End Rebalance.

(** ** The way down *)

Section Descent.
Context {K : Type} (compar : K -> K -> Z) (P : K -> Prop) `{!CompareLaws compar P} (key : K).
Implicit Types (t l r : trtree K) (c : list (frame K)) (m : mem K) (it : list (loc * K)).

(** The pointer to the parent, or to the node itself at the root. *)
Definition parent_is c t (p : loc) : Prop :=
  match c with [] => ptr t = Some p | f :: _ => p = frame_loc f end.

Lemma height_child s l r : (height (child s l r) <= height l `max` height r)%nat.
Proof using Type. unfold child. case_if; lia. Qed.

Lemma find_loop_ok fuel c t m it p :
  position compar key m c t it -> t <> Lf -> parent_is c t p ->
  (length c + height t < stacksize)%nat -> (height t < fuel)%nat ->
  exists o, find_loop compar fuel key p (slot_of c) (parents c) m = Some (o, m) /\
    match o with
    | Aborted => False
    | Null => exists c', position compar key m c' Lf it
    | Done (p', rootp, st) => exists c' a b l k r, rootp = slot_of c' /\ st = parents c' /\
        position compar key m c' (Nd a b l k r) it /\ compar key k = 0 /\ parent_is c' (Nd a b l k r) p' /\
        (length c' + height (Nd a b l k r) < stacksize)%nat
    end.
Proof using Type.
  revert c t p. induction fuel as [|fuel IH]; intros c t p Hpos Ht Hp Hh Hf; [lia|].
  destruct t as [|a b l k r]; [done|]. cbn [find_loop]. pose proof (pos_rep _ _ _ _ _ _ Hpos) as Hr.
  unfold pbind at 1. rewrite (read_nn_at _ _ _ _ _ _ _ Hr). unfold pbind at 1. rewrite (get_node_at _ _ _ _ _ _ _ Hr).
  cbn [nd_key]. cbv zeta. destruct (Z.eqb_spec (compar key k) 0) as [Hk|Hk].
  { exists (Done (p, slot_of c, parents c)). split; [done|]. by exists c, a, b, l, k, r. }
  rewrite length_parents, (proj2 (Nat.eqb_neq _ _)) by lia.
  pose proof (position_child _ _ _ _ _ _ _ _ _ _ Hpos Hk) as Hch. pose proof (height_child (compar key k) l r).
  change (field (compar key k <? 0) a) with (if compar key k <? 0 then LeftSlot a else RightSlot a).
  rewrite <- (slot_side (compar key k) a b l k r c).
  unfold pbind at 1. rewrite (read_at _ _ _ (pos_rep _ _ _ _ _ _ Hch)). simpl height in Hh, Hf.
  destruct (child (compar key k) l r) as [|a' b' l' k' r'] eqn:E.
  - exists Null. split; [done|]. by eexists.
  - apply (IH (side (compar key k) a b l k r :: c) (Nd a' b' l' k' r')); [done|done| |simpl; simpl in *; lia|simpl in *; lia].
    unfold parent_is, side. by case_if.
Qed.

(** The successor of a node with a right child: all frames below it are left ones. *)
Lemma successor_loop_ok fuel m c u b l k r :
  rep_at m c (Nd u b l k r) -> (1 <= length c)%nat -> (length c + height (Nd u b l k r) < stacksize)%nat ->
  (height (Nd u b l k r) < fuel)%nat ->
  exists c1 u' b' k' r', (forall f, f ∈ c1 -> exists a b k r, f = FL a b k r) /\
    plug c1 (Nd u' b' Lf k' r') = Nd u b l k r /\
    rep_at m (c1 ++ c) (Nd u' b' Lf k' r') /\ (length (c1 ++ c) < stacksize)%nat /\
    successor_loop fuel (slot_of (drop 1 c)) (slot_of c) (parents (drop 1 c)) m =
      Some (Done (u', parents (c1 ++ c)), m).
Proof using Type.
  revert c u b l k r. induction fuel as [|fuel IH]; intros c u b l k r Hr Hc Hh Hf; [lia|].
  destruct c as [|f c]; [simpl in Hc; lia|]. cbn [drop successor_loop]. rewrite ?drop_0, length_parents.
  rewrite (proj2 (Nat.eqb_neq _ _)) by (cbn [length] in *; lia). unfold pbind at 1.
  rewrite (read_nn_at _ _ _ _ _ _ _ Hr). unfold pbind at 1. rewrite (get_node_at _ _ _ _ _ _ _ Hr). cbn [nd_left].
  destruct l as [|u1 b1 l1 k1 r1]; cbn [ptr].
  - exists [], u, b, k, r. split_and!; [by intros f' Hf'%not_elem_of_nil|done|done|simpl in *; lia|done].
  - assert (Hr1 : rep_at m (FL u b k r :: f :: c) (Nd u1 b1 l1 k1 r1)) by (by apply rep_down).
    destruct (IH _ _ _ _ _ _ Hr1) as (c1 & u' & b' & k' & r' & Hfl & Hpl & Hr' & Hlen & E); [simpl in *; lia..|].
    exists (c1 ++ [FL u b k r]), u', b', k', r'. rewrite <- app_assoc. split_and!; try done.
    + intros g Hg. apply elem_of_app in Hg as [Hg|Hg%list_elem_of_singleton]; [by apply Hfl|subst g; by eexists _, _, _, _].
    + by rewrite plug_app, Hpl.
Qed.
End Descent.

(** ** Which nodes are allocated *)

Section Allocation.
Context {K : Type}.
Implicit Types (m : mem K).

(** A program that neither allocates nor frees. *)
Definition keeps {A} (c : prog K A) : Prop := forall m x m', c m = Some (x, m') -> dom (m_heap m') = dom (m_heap m).

Lemma keeps_ret {A} (x : A) : keeps (pret x).
Proof using Type. by intros m y m' [= <- <-]. Qed.

Lemma keeps_stuck {A} : keeps (@stuck K A).
Proof using Type. by intros m y m' [=]. Qed.

Lemma keeps_bind {A B} (c : prog K A) (f : A -> prog K B) : keeps c -> (forall x, keeps (f x)) -> keeps (pbind c f).
Proof using Type.
  intros Hc Hf m x m' H. unfold pbind in H. destruct (c m) as [[y m1]|] eqn:E; [|done].
  by rewrite (Hf y m1 x m' H), (Hc m y m1 E).
Qed.

Lemma keeps_get a : keeps (@get_node K a).
Proof using Type. intros m x m'. unfold get_node. destruct (m_heap m !! a); by intros [= <- <-]. Qed.

Lemma keeps_set a (f : node_t K -> node_t K) : keeps (set_node a f).
Proof using Type.
  intros m x m'. unfold set_node. destruct (m_heap m !! a) eqn:E; intros [= <- <-]. simpl. by rewrite dom_insert_lookup_L.
Qed.

Lemma keeps_read s : keeps (@read K s).
Proof using Type.
  destruct s as [|a|a]; intros m x m'; [by intros [= <- <-]|..]; apply keeps_bind; eauto using keeps_get, keeps_ret.
Qed.

Lemma keeps_write s p : keeps (@write K s p).
Proof using Type. destruct s as [|a|a]; intros m x m'; [by intros [= <- <-]|..]; apply keeps_set. Qed.
End Allocation.

Create HintDb keeps.
#[export] Hint Resolve keeps_ret keeps_stuck keeps_get keeps_set keeps_read keeps_write : keeps.

(** Descends through a program. *)
Ltac keeps :=
  repeat first
    [ apply keeps_bind; [|intros ?]
    | match goal with |- keeps (match ?x with _ => _ end) => destruct x end
    | progress cbv beta zeta
    | solve [eauto with keeps] ].

Section AllocationOfDelete.
Context {K : Type}.

Lemma keeps_read_nn s : keeps (@read_nn K s).
Proof using Type. unfold read_nn. keeps. Qed.

Lemma keeps_is_red p : keeps (@is_red K p).
Proof using Type. unfold is_red. keeps. Qed.

Lemma keeps_blacken p : keeps (@blacken K p).
Proof using Type. unfold blacken, set_red. keeps. Qed.

#[local] Hint Resolve keeps_read_nn keeps_is_red keeps_blacken : keeps.

Lemma keeps_fix_black_brother left pp p : keeps (@fix_black_brother K left pp p).
Proof using Type. unfold fix_black_brother, rotate_far, rotate_near, set_field, set_red. keeps. Qed.

#[local] Hint Resolve keeps_fix_black_brother : keeps.

Lemma keeps_rebalance_step r pp rest : keeps (@rebalance_step K r pp rest).
Proof using Type. unfold rebalance_step, rotate_red_brother, set_field, set_red. keeps. Qed.

#[local] Hint Resolve keeps_rebalance_step : keeps.

Lemma keeps_rebalance_loop fuel r st : keeps (@rebalance_loop K fuel r st).
Proof using Type. revert r st. induction fuel as [|fuel IH]; intros r st; simpl; keeps. Qed.

Lemma keeps_unchain rootp st u : keeps (@unchain K rootp st u).
Proof using Type. unfold unchain, set_left, set_right. keeps. Qed.

#[local] Hint Resolve keeps_rebalance_loop keeps_unchain : keeps.

(** Exactly one node is freed. *)
Lemma remove_node_frees root u rootp st (m m' : mem K) :
  remove_node root u rootp st m = Some (tt, m') -> dom (m_heap m') = dom (m_heap m) ∖ {[u]}.
Proof using Type.
  intros H. assert (exists m1, dom (m_heap m1) = dom (m_heap m) /\ free_node u m1 = Some (tt, m')) as (m1 & <- & [= <-]).
  { revert H. unfold remove_node. unfold pbind at 1. destruct (unchain rootp st u m) as [[r m1]|] eqn:E1; [|done].
    unfold pbind at 1. destruct (get_node u m1) as [[un m2]|] eqn:E2; [|done].
    unfold pbind at 1. set (c := if decide (u = root) then _ else _). destruct (c m2) as [[x m3]|] eqn:E3; [|done].
    unfold pbind at 1. set (d := if nd_red un then _ else _). destruct (d m3) as [[y m4]|] eqn:E4; [|done].
    intros H. exists m4. split; [|done]. rewrite <- (keeps_unchain _ _ _ _ _ _ E1), <- (keeps_get _ _ _ _ E2).
    assert (Hc : keeps c) by (unfold c, set_key; keeps). assert (Hd : keeps d) by (unfold d; keeps).
    by rewrite (Hd _ _ _ E4), (Hc _ _ _ E3). }
  simpl. by rewrite dom_delete_L.
Qed.
End AllocationOfDelete.

(** ** tdelete *)

Section Delete.
Context {K : Type} (compar : K -> K -> Z) (P : K -> Prop) `{!CompareLaws compar P} (key : K).
Implicit Types (t : trtree K) (c : list (frame K)) (m : mem K) (it : list (loc * K)).

(** The items after the deletion: those of [it] without one that compares equal; node [u] is
    not used any more. *)
Definition without it (u : loc) it' : Prop :=
  exists l1 a k l2, it = l1 ++ (a, k) :: l2 /\ compar key k = 0 /\ it'.*2 = (l1 ++ l2).*2 /\ it.*1 ≡ₚ u :: it'.*1.

Lemma sorted_keys_only it it' : it'.*2 = it.*2 -> sorted compar P it -> sorted compar P it'.
Proof using Type.
  intros E [Hs HP]. split.
  - clear HP. revert it E Hs. induction it' as [|x it' IH]; intros [|y it] E Hs; try done.
    injection E as Ex E. apply StronglySorted_inv in Hs as [Hs Hy]. constructor; [by apply (IH it)|].
    unfold less in *. rewrite Ex.
    assert (H : Forall (fun k => compar (snd y) k < 0) it'.*2) by (rewrite (E : it'.*2 = it.*2); by apply Forall_fmap).
    exact (proj1 (Forall_fmap _ _ _) H).
  - assert (H : Forall P it'.*2) by (rewrite E; by apply Forall_fmap). exact (proj1 (Forall_fmap _ _ _) H).
Qed.

Lemma sorted_without it u it' : without it u it' -> sorted compar P it -> sorted compar P it'.
Proof using Type.
  intros (l1 & a & k & l2 & -> & _ & E & _) [Hs HP]. apply (sorted_keys_only (l1 ++ l2)); [done|].
  apply strongly_sorted_app in Hs as (H1 & H2 & H3). apply StronglySorted_inv in H2 as [H2 _].
  rewrite Forall_app, Forall_cons in HP. split; [|apply Forall_app; tauto].
  apply strongly_sorted_app. split_and!; [done..|]. eapply Forall_impl; [exact H3|]. intros x Hx. by apply Forall_cons in Hx as [_ Hx].
Qed.

Lemma before_left c1 c : (forall f, f ∈ c1 -> exists a b k r, f = FL a b k r) -> before (c1 ++ c : list (frame K)) = before c.
Proof using Type.
  induction c1 as [|f c1 IH]; intros H; [done|]. destruct (H f) as (a & b & k & r & ->); [by left|].
  simpl. apply IH. intros g Hg. apply H. by right.
Qed.

Lemma after_key c1 a b l k k' c : after (c1 ++ FR a b l k :: c : list (frame K)) = after (c1 ++ FR a b l k' :: c).
Proof using Type. induction c1 as [|f c1 IH]; simpl; [done|]. by rewrite IH. Qed.

Lemma without_self c a b (l r : trtree K) k :
  compar key k = 0 -> l = Lf \/ r = Lf ->
  without (items (plug c (Nd a b l k r))) a (items (plug c (other_child l r))).
Proof using Type.
  intros Hk Hlr. exists (before c ++ items l), a, k, (items r ++ after c). rewrite !items_plug. cbn [items].
  assert (items (other_child l r) = items l ++ items r) as ->.
  { destruct Hlr as [-> | ->]; simpl; [by destruct r|]. rewrite app_nil_r. by destruct l. }
  split_and!; [flat_app|done|f_equal; flat_app|]. rewrite !fmap_app, fmap_cons. simpl.
  rewrite (app_assoc (before c).*1), (app_assoc (before c).*1). rewrite <- !app_assoc. simpl. solve_Permutation.
Qed.

Lemma without_successor c1 c0 a b l k u b' k' r' it :
  compar key k = 0 -> (forall f, f ∈ c1 -> exists a b k r, f = FL a b k r) ->
  it = items (plug (c1 ++ FR a b l k :: c0) (Nd u b' Lf k' r')) ->
  without it u (items (plug (c1 ++ FR a b l k' :: c0) r')).
Proof using Type.
  intros Hk Hfl ->. rewrite !items_plug, !before_left by done. rewrite (after_key _ _ _ _ k' k).
  set (A := after _). simpl. exists (before c0 ++ items l), a, k, ((u, k') :: items r' ++ A).
  split_and!; [flat_app|done| |].
  - rewrite !fmap_app, !fmap_cons, !fmap_nil, !fmap_app, <- !app_assoc. done.
  - rewrite !fmap_app, !fmap_cons, !fmap_nil, !fmap_app, <- !app_assoc. simpl. solve_Permutation.
Qed.
(** A tree with few nodes is not deep. *)
Lemma height_small t it n :
  rbt t n -> items t = it -> Z.of_nat (length it) < 2 ^ 49 -> (height t < stacksize)%nat.
Proof using Type.
  intros Hb Hi Hn. pose proof (rbt_height t n Hb) as Hh. pose proof (rbt_size t n Hb) as H2.
  rewrite <- length_items, Hi in H2. assert (n <= 49)%nat; [|unfold stacksize; destruct (colour t); lia].
  destruct (Nat.le_gt_cases n 49) as [|Hgt]; [done|exfalso].
  assert (2 ^ 50 <= 2 ^ Z.of_nat n) by (apply Z.pow_le_mono_r; lia).
  apply Nat2Z.inj_le in H2. rewrite Nat2Z.inj_pow in H2. simpl Z.of_nat in H2. lia.
Qed.

Lemma height_plug c t : (length c + height t <= height (plug c t))%nat.
Proof using Type.
  revert t. induction c as [|f c IH]; intros t; simpl; [lia|]. pose proof (IH (up f t)).
  assert (height t < height (up f t))%nat by (destruct f; simpl; lia). lia.
Qed.

Lemma choose_unchained_at m c a b (l r : trtree K) k :
  rep_at m c (Nd a b l k r) -> (length c + height (Nd a b l k r) < stacksize)%nat ->
  (choose_unchained (slot_of c) (parents c) m = Some (Done (a, parents c), m) /\ (l = Lf \/ r = Lf)) \/
  exists c1 u b' k' r', let c' := c1 ++ FR a b l k :: c in
    choose_unchained (slot_of c) (parents c) m = Some (Done (u, parents c'), m) /\
    rep_at m c' (Nd u b' Lf k' r') /\ plug c1 (Nd u b' Lf k' r') = r /\
    (forall f, f ∈ c1 -> exists a b k r, f = FL a b k r) /\ (length c' < stacksize)%nat.
Proof using Type.
  intros Hr Hh. unfold choose_unchained, pbind. rewrite (read_nn_at _ _ _ _ _ _ _ Hr), (get_node_at _ _ _ _ _ _ _ Hr).
  cbn [nd_left nd_right]. destruct l as [|al bl ll kl rl]; [left; by auto|].
  destruct r as [|ar br lr kr rr]; [left; by auto|]. right. cbn [ptr].
  set (l := Nd al bl ll kl rl) in *. assert (Hr' : rep_at m (FR a b l k :: c) (Nd ar br lr kr rr)) by (by apply rep_down).
  destruct (successor_loop_ok (S stacksize) m _ _ _ _ _ _ Hr') as (c1 & u & b' & k' & r' & Hfl & Hpl & Hru & Hlen & E).
  { simpl. lia. }
  { simpl in *. lia. }
  { simpl in *. lia. }
  exists c1, u, b', k', r'. cbn [drop parents slot_of] in E. rewrite ?drop_0 in E. cbv zeta. by rewrite E.
Qed.

Lemma tdelete_spec m it :
  P key -> search_tree m it -> sorted compar P it -> Z.of_nat (length it) < 2 ^ 49 ->
  exists o m', tdelete compar key m = Some (o, m') /\
    match o with
    | Aborted => False
    | Null => m' = m /\ Forall (fun x => compar key (snd x) <> 0) it
    | Done q => exists u it', without it u it' /\ search_tree m' it' /\ dom (m_heap m') = dom (m_heap m) ∖ {[u]} /\
        (q ∈ it'.*1 \/ m_root m = Some q)
    end.
Proof using All.
  intros Hkey (t & Hrep & (n & Hb) & Hi) Hs Hlen. pose proof (height_small t it n Hb Hi Hlen) as Hh.
  assert (Eroot : read RootSlot m = Some (ptr t, m)) by (simpl; by rewrite (proj1 Hrep)).
  unfold tdelete. unfold pbind at 1. rewrite Eroot.
  destruct (ptr t) as [p|] eqn:Ep; cycle 1.
  { destruct t; [|done]. simpl in Hi. subst it. exists Null, m. split; [done|]. split; [done|by apply Forall_nil_2]. }
  assert (Hpos : position compar key m [] t it).
  { split; [by apply (rep_at_plug m [])|by exists n|by apply Forall_nil_2|done]. }
  destruct (find_loop_ok compar key (S stacksize) [] t m it p Hpos) as (o & E & Ho);
    [by destruct t|done|exact Hh|lia|]. cbn [slot_of parents] in E. unfold pbind at 1. rewrite E.
  destruct o as [| |[[q rootp] st]]; [done|exists Null, m; split; [done|]; split; [done|]|].
  { destruct Ho as (c & Hc). apply (not_in_items compar P key Hkey c); [apply Hc| |done].
    by rewrite <- (pos_items _ _ _ _ _ _ Hc), items_plug. }
  destruct Ho as (c & a & b & l & k & r & -> & -> & [Hr (n' & Hrb & Hc) _ Hic] & Hk & Hq & Hd).
  unfold pbind at 1. rewrite (read_nn_at _ _ _ _ _ _ _ Hr).
  assert (Hroot : c = [] -> m_root m = Some q).
  { intros ->. by destruct Hr as [-> _]. }
  assert (Hlive : forall u it', without it u it' -> (c <> [] -> q <> u) -> q ∈ it'.*1 \/ m_root m = Some q).
  { intros u it' (l1 & a' & k' & l2 & _ & _ & _ & Hp) Hu. destruct c as [|f c]; [right; auto|left].
    assert (Hin : q ∈ it.*1).
    { rewrite <- Hic, <- locs_items, locs_plug, elem_of_app. left. unfold ctx_locs. simpl in *. subst q. by left. }
    rewrite Hp in Hin. apply elem_of_cons in Hin as [->|]; [by destruct (Hu ltac:(done))|done]. }
  assert (Hqa : c <> [] -> q ∉ locs (Nd a b l k r)).
  { intros Hne Hin. destruct c as [|f c]; [done|]. simpl in Hq. subst q. destruct (rep_at_disjoint _ _ _ Hr) as (_ & _ & Hdis).
    apply (Hdis (frame_loc f)); [by left|done]. }
  destruct (choose_unchained_at m c a b l r k Hr Hd) as [[E1 Hlr]|(c1 & u & b' & k' & r' & E1 & Hru & Hpl & Hfl & Hlen1)].
  - unfold pbind at 1. rewrite E1. destruct (remove_self m c a b l k r n' Hr Hlr Hrb Hc) as (m' & T & E2 & HT & Hbal); [lia|].
    exists (Done q), m'. unfold pbind. rewrite E2. split; [done|].
    exists a, (items (plug c (other_child l r))).
    pose proof (without_self c a b l r k Hk Hlr) as Hw. rewrite Hic in Hw. split_and!; [exact Hw|by exists T|by eapply remove_node_frees|].
    apply (Hlive a _ Hw). intros Hne ->. apply (Hqa Hne). by left.
  - unfold pbind at 1. rewrite E1.
    assert (exists n2, rbt (Nd u b' Lf k' r') n2 /\ ctx_ok (c1 ++ FR a b l k :: c) n2 b') as (n2 & Hb2 & Hc2).
    { destruct (plug_rbt c _ n' Hrb Hc) as [n3 Ht2]. rewrite <- Hpl in Ht2. 
      change (rbt (plug (FR a b l k :: c) (plug c1 (Nd u b' Lf k' r'))) n3) in Ht2. rewrite <- plug_app in Ht2. apply rbt_plug in Ht2 as (n2 & ? & ?). by exists n2. }
    destruct (remove_successor m c1 a b l k c (slot_of c) u b' k' r' n2 Hru Hb2 Hc2 Hlen1) as (m' & T & E2 & HT & Hbal).
    exists (Done q), m'. unfold pbind. rewrite E2. split; [done|].
    eexists u, _. assert (Hw : without it u (items (plug (c1 ++ FR a b l k' :: c) r'))).
    { apply (without_successor c1 c a b l k u b' k' r'); [done..|]. rewrite plug_app, Hpl. by rewrite <- Hic. }
    split_and!; [exact Hw|by exists T|by eapply remove_node_frees|].
    apply (Hlive u _ Hw). intros Hne ->. apply (Hqa Hne). simpl. right. rewrite elem_of_app. right.
    rewrite <- Hpl, locs_plug, elem_of_app. right. by left.
Qed.
End Delete.

(** ** twalk *)

Section Walk.
Context {K : Type}.
Implicit Types (t : trtree K) (m : mem K) (it : list (loc * K)).

(** The visits of one kind, or of leaves. *)
Definition visits_of (v : VISIT) (vs : list visit) : list loc :=
  omap (fun '(a, v', _) => match v, v' with
    | _, leaf | preorder, preorder | postorder, postorder | endorder, endorder => Some a
    | _, _ => None
    end) vs.

Lemma visits_of_app v vs1 vs2 : visits_of v (vs1 ++ vs2) = visits_of v vs1 ++ visits_of v vs2.
Proof using Type. apply omap_app. Qed.

(** The visits of a subtree whose root is at [level]. *)
Definition walks t (level : Z) (vs : list visit) : Prop :=
  visits_of postorder vs = (items t).*1 /\
  visits_of preorder vs ≡ₚ (items t).*1 /\ visits_of endorder vs ≡ₚ (items t).*1 /\
  Forall (fun '(_, _, lv) => level <= lv < level + Z.of_nat (height t)) vs.

Lemma trecurse_ok fuel m t a level :
  shape (m_heap m) t -> ptr t = Some a -> (height t <= fuel)%nat ->
  exists vs, trecurse fuel a level m = Some (vs, m) /\ walks t level vs.
Proof using Type.
  revert t a level. induction fuel as [|fuel IH]; intros t a level Hs Hp Hf; (destruct t as [|a' b l k r]; [done|]);
    [simpl in Hf; lia|]. injection Hp as ->. destruct Hs as (Ha & Hl & Hr). simpl in Hf.
  assert (Hsub : forall u, shape (m_heap m) u -> (height u <= fuel)%nat ->
    exists vs, (match ptr u with Some a => trecurse fuel a (level + 1) | None => pret [] end) m = Some (vs, m) /\
      walks u (level + 1) vs).
  { intros u Hu Hfu. destruct u as [|x bx lx kx rx]; [exists []; split; [done|]; by split_and!|].
    by apply (IH (Nd x bx lx kx rx)). }
  destruct (Hsub l Hl ltac:(lia)) as (vl & El & L1 & L2 & L3 & L4).
  destruct (Hsub r Hr ltac:(lia)) as (vr & Er & R1 & R2 & R3 & R4).
  cbn [trecurse]. unfold pbind at 1. unfold get_node. rewrite Ha. cbn [nd_left nd_right].
  assert ((l = Lf /\ r = Lf) \/ ~ (l = Lf /\ r = Lf)) as [[-> ->]|Hne] by (destruct l; [destruct r; [by left|right]|right]; by intros []).
  { exists [(a, leaf, level)]. split; [done|]. split_and!; [done..|]. apply Forall_singleton. simpl. lia. }
  set (vs := (a, preorder, level) :: vl ++ (a, postorder, level) :: vr ++ [(a, endorder, level)]).
  exists vs. split.
  - unfold pbind. destruct l as [|xl bl ll kl rl], r as [|xr br lr kr rr]; cbn [ptr] in *; [tauto|..];
      rewrite El, Er; done.
  - assert (Hv : forall v, visits_of v vs = visits_of v [(a, preorder, level)] ++ visits_of v vl ++
      visits_of v [(a, postorder, level)] ++ visits_of v vr ++ visits_of v [(a, endorder, level)]).
    { intros v. rewrite <- !visits_of_app. done. }
    unfold walks. rewrite !Hv. simpl. rewrite fmap_app, fmap_cons, app_nil_r. split_and!.
    + by rewrite L1, R1.
    + rewrite L2, R2. rewrite ?app_nil_r. by apply Permutation_middle.
    + rewrite L3, R3. solve_Permutation.
    + unfold vs. rewrite Forall_cons, Forall_app, Forall_cons, Forall_app, Forall_singleton.
      split_and!; try (simpl; lia); (eapply Forall_impl; [eassumption|]); intros [[x v] lv]; simpl; lia.
Qed.
End Walk.

(** ** Theorems *)

(** C15. tdelete() on a red-black search tree, with fewer than [2 ^ 49] entries, always returns:
    the stack does not overflow, abort() is not reached, and no null or dangling pointer
    is dereferenced.  It returns NULL and changes nothing if no entry compares equal to the key.
    Otherwise exactly one entry that does is gone, the others keep their keys and their
    order, the tree is a red-black search tree, exactly one node is freed, which no
    entry uses any more, and the node that is returned is still in the tree or was the root. *)
Theorem tdelete_correct {K} (compar : K -> K -> Z) (P : K -> Prop) `{!CompareLaws compar P}
    (key : K) (m : mem K) (it : list (loc * K))
    (Hkey : P key) (Hm : search_tree m it) (Hs : sorted compar P it) (Hlen : Z.of_nat (length it) < 2 ^ 49) :
  exists o m', tdelete compar key m = Some (o, m') /\
    match o with
    | Aborted => False
    | Null => m' = m /\ Forall (fun x => compar key (snd x) <> 0) it
    | Done q =>
        exists l1 a k l2 u it', it = l1 ++ (a, k) :: l2 /\ compar key k = 0 /\
          search_tree m' it' /\ sorted compar P it' /\ it'.*2 = (l1 ++ l2).*2 /\
          it.*1 ≡ₚ u :: it'.*1 /\ dom (m_heap m') = dom (m_heap m) ∖ {[u]} /\
          (q ∈ it'.*1 \/ m_root m = Some q)
    end.
Proof.
  destruct (tdelete_spec compar P key m it Hkey Hm Hs Hlen) as (o & m' & E & H). exists o, m'. split; [done|].
  destruct o as [| |q]; [done..|]. destruct H as (u & it' & Hw & Ht & Hd & Hq).
  pose proof (sorted_without compar P key it u it' Hw Hs) as Hs'. destruct Hw as (l1 & a & k & l2 & ? & ? & ? & ?).
  by exists l1, a, k, l2, u, it'.
Qed.

(** twalk() visits the nodes of a tree in order: the visits that are [postorder] or [leaf] are
    those of the entries, in the order of their keys; each node has exactly one visit
    that is [preorder] or [leaf], and one that is [endorder] or [leaf].  Levels are at
    most [2 * log2 (n + 1)]. *)
Theorem twalk_correct {K} (m : mem K) (it : list (loc * K)) (Hm : search_tree m it) :
  exists vs, twalk m = Some (vs, m) /\
    visits_of postorder vs = it.*1 /\ visits_of preorder vs ≡ₚ it.*1 /\ visits_of endorder vs ≡ₚ it.*1 /\
    Forall (fun '(_, _, level) => 0 <= level <= 2 * Z.of_nat (Nat.log2 (S (length it)))) vs.
Proof.
  destruct Hm as (t & Hr & (n & Hb) & <-). destruct (tree_fuel_ok m t Hr) as [Ef Hsz]. pose proof (height_nodes t) as Hh.
  assert (Hlev : (height t <= S (2 * Nat.log2 (S (length (items t)))))%nat).
  { pose proof (rbt_height t n Hb). pose proof (rbt_size t n Hb) as H2. apply Nat.log2_le_pow2 in H2; [|lia].
    rewrite <- length_items in H2. destruct (colour t); lia. }
  unfold twalk, pbind. cbn [read]. rewrite (proj1 Hr). destruct (ptr t) as [a|] eqn:Ep.
  - rewrite Ef. destruct (trecurse_ok (S (size (m_heap m))) m t a 0 (proj1 (proj2 Hr)) Ep ltac:(lia)) as (vs & E & H1 & H2 & H3 & H4).
    exists vs. split_and!; try done. eapply Forall_impl; [exact H4|]. intros [[x v] lv]. lia.
  - destruct t; [|done]. exists []. by split_and!.
Qed.

Lemma tdelete_correct_witness :
  exists m', tdelete Z.sub 4 sample_tree = Some (Done 1%nat, m') /\ exists it', search_tree m' it' /\ it'.*2 = [1; 2; 3; 5; 6; 7].
Proof.
  destruct (tdelete_correct Z.sub (fun _ => True) 4 sample_tree (items sample_rtree) I
    (proj1 sample_tree_ok) (proj2 sample_tree_ok) ltac:(simpl; lia)) as (o & m' & E & H).
  assert (Eo : o = Done 1%nat) by (revert E; vm_compute; by intros [= <- _]). subst o.
  exists m'. split; [exact E|]. destruct H as (l1 & a & k & l2 & u & it' & E1 & Hk & Ht & _ & E2 & _).
  exists it'. split; [exact Ht|]. rewrite E2. assert (k = 4) as -> by lia. clear -E1.
  destruct l1 as [|x0 [|x1 [|x2 [|x3 [|x4 [|x5 [|x6 l1]]]]]]]; simplify_eq/=; try done. by destruct l1.
Defined.

Lemma twalk_correct_witness :
  exists vs, twalk sample_tree = Some (vs, sample_tree) /\ visits_of postorder vs = [0; 1; 2; 3; 4; 5; 6]%nat.
Proof.
  destruct (twalk_correct sample_tree (items sample_rtree) (proj1 sample_tree_ok)) as (vs & E & H & _). exists vs.
  split; [exact E|exact H].
Defined.
