(* ===== verification/LocaleAliasTable.v ===== *)
(** * The expansion of aliases

    [_nl_expand_alias] reads alias files until the name is found or the path is
    used up.  The invariant [alias_ok] relates the table to the directories read
    so far; with it the answers are those of one dictionary, the aliases of all files
    of the path, which is the [AliasTable] that finddomain.c is given. *)

From Stdlib Require Import Sorted.
From S2P Require Import Prelude LocaleName FindDomain LocaleAlias LocaleAliasSpec.

Open Scope Z_scope.

(** ** The path *)

Definition nonempty (d : cstr) : Prop := d <> [].

#[export] Instance nonempty_dec d : Decision (nonempty d).
Proof. unfold nonempty. apply _. Defined.

(** The directories of a path. *)
Definition directories (path : cstr) : list cstr := filter nonempty (split_on (chr ":") path).

Lemma directories_colon path : directories (chr ":" :: path) = directories path.
Proof. done. Qed.

Lemma skip_separators_ok path :
  directories (skip_separators path) = directories path /\ (length (skip_separators path) <= length path)%nat.
Proof.
  induction path as [|c path [IH1 IH2]]; [done|]. cbn [skip_separators]. destruct (Z.eqb_spec c (chr ":")) as [->|]; [|done].
  rewrite directories_colon. split; [done|simpl; lia].
Qed.

Lemma next_directory_split path : let '(d, r) := next_directory path in
  path = d ++ r /\ (chr ":" ∉ d) /\ (r = [] \/ exists r', r = chr ":" :: r').
Proof.
  induction path as [|c path IH]; [split_and!; [done|apply not_elem_of_nil|by left]|]. cbn [next_directory].
  destruct (Z.eqb_spec c (chr ":")) as [->|Hc]; [split_and!; [done|apply not_elem_of_nil|right; by eexists]|].
  destruct (next_directory path) as [d r]. destruct IH as (-> & Hd & Hr). split_and!; [done| |done].
  by apply not_elem_of_cons.
Qed.

Definition list_of_dir (d : cstr) : list cstr := match d with [] => [] | _ => [d] end.

Lemma next_directory_ok path d r : next_directory path = (d, r) ->
  directories path = list_of_dir d ++ directories r.
Proof.
  intros E. pose proof (next_directory_split path) as H. rewrite E in H. destruct H as (-> & Hd & [->|[r' ->]]).
  - unfold directories. rewrite app_nil_r, (split_on_last (chr ":") d) by done. rewrite filter_cons. by destruct d.
  - unfold directories. rewrite (split_on_app (chr ":") d r') by done. rewrite filter_cons. by destruct d.
Qed.

(** A step on a path that is not empty makes it shorter. *)
Lemma next_directory_shorter path d r : path <> [] -> next_directory (skip_separators path) = (d, r) ->
  (length r < length path)%nat.
Proof.
  intros Hne E. destruct path as [|c path]; [done|]. cbn [skip_separators] in E.
  pose proof (next_directory_split (if c =? chr ":" then skip_separators path else c :: path)) as H. rewrite E in H.
  destruct H as (Ep & Hd & Hr). destruct (Z.eqb_spec c (chr ":")) as [->|Hc].
  - pose proof (skip_separators_ok path) as [_ Hl]. rewrite Ep, length_app in Hl. simpl. lia.
  - destruct d as [|c' d].
    + destruct Hr as [->|[r' ->]]; [simpl; lia|]. by injection Ep.
    + apply (f_equal length) in Ep. rewrite length_app in Ep. simpl in *. lia.
Qed.

(** ** Reading files until an alias is added *)

Section Expand.
Context `{SL : SortSearchLaws} (mal_map : nat -> bool) (mal_pool : nat -> option Z).
Context (fopen : cstr -> option (list Z)) (Hfiles : forall f b, fopen f = Some b -> file_bytes b).

Definition good_files : Prop := forall f b, fopen f = Some b -> good_file b.

(** The aliases of the file in a directory. *)
Definition dir_aliases (dir : cstr) : list (cstr * cstr) :=
  match fopen (dir ++ aliasfile) with Some bytes => file_aliases bytes | None => [] end.

(** [st'] is [st] with the entries [l] more. *)
Definition extended (st st' : alias_state) (l : list (cstr * cstr)) : Prop :=
  table_ok st' /\ sorted (entries st') /\ entries st' ≡ₚ entries st ++ l.

Lemma extended_refl st : table_ok st -> sorted (entries st) -> extended st st [].
Proof using Type. intros H1 H2. split_and!; [done..|]. by rewrite app_nil_r. Qed.

Lemma extended_trans st1 st2 st3 l1 l2 : extended st1 st2 l1 -> extended st2 st3 l2 -> extended st1 st3 (l1 ++ l2).
Proof using Type. intros (_ & _ & H1) (? & ? & H2). split_and!; [done..|]. by rewrite H2, H1, <- app_assoc. Qed.

Lemma read_alias_file_ok dir st : table_ok st -> sorted (entries st) ->
  exists st' l, read_alias_file mal_map mal_pool fopen dir st = Some (Z.of_nat (length l), st') /\ extended st st' l /\
    locale_alias_path st' = locale_alias_path st /\
    (memory mal_map mal_pool -> good_files -> l = dir_aliases dir).
Proof using SL Hfiles.
  intros Hok Hsort. unfold read_alias_file, dir_aliases. destruct (fopen (dir ++ aliasfile)) as [bytes|] eqn:E.
  2: { exists st, []. split_and!; [done|by apply extended_refl|done..]. }
  destruct (read_lines_ok mal_map mal_pool (S (length bytes)) (Stream bytes false) st 0) as
    (st1 & l & -> & Hok1 & He1 & Hp1 & Hl); [done|by apply (Hfiles _ _ E)|simpl; lia|].
  cbn [mbind option_bind]. rewrite Z.add_0_l, Z.gtb_ltb.
  assert (Hgood : memory mal_map mal_pool -> good_files -> l = file_aliases bytes).
  { intros Hm Hg. by apply Hl, (Hg _ _ E). }
  case_if.
  - rewrite valid_comparable by done. destruct (sort_ok st1 Hok1) as (Hok2 & Hs2 & He2).
    eexists _, l. split_and!; [done|split_and!; [done..|by rewrite He2, He1]|done|done].
  - destruct l; [|simpl in *; lia]. exists st1, []. rewrite app_nil_r in He1.
    split_and!; [done|split_and!; [done|by rewrite He1|by rewrite He1, app_nil_r]|done..].
Qed.

Lemma set_path_extended st st' l path : extended st st' l -> extended st (set_path st' path) l.
Proof using Type. done. Qed.

Lemma next_file_ok fuel path st : (length path < fuel)%nat -> table_ok st -> sorted (entries st) ->
  exists st' l ds path', next_file mal_map mal_pool fopen fuel path st = Some (Z.of_nat (length l), st') /\
    extended st st' l /\ locale_alias_path st' = Some path' /\ directories path = ds ++ directories path' /\
    (memory mal_map mal_pool -> good_files -> l = ds ≫= dir_aliases) /\
    (l = [] -> path' = []) /\ (l <> [] -> (length path' < length path)%nat).
Proof using SL Hfiles.
  revert path st. induction fuel as [|fuel IH]; intros path st Hf Hok Hsort; [lia|].
  destruct path as [|c path0] eqn:Ep.
  { exists (set_path st []), [], [], []. split_and!; [done|by apply set_path_extended, extended_refl|done..]. }
  rewrite <- Ep in *. assert (Hne : path <> []) by by rewrite Ep.
  destruct (next_directory (skip_separators path)) as [dir r] eqn:En.
  pose proof (next_directory_shorter _ _ _ Hne En) as Hlt. pose proof (next_directory_ok _ _ _ En) as Hdirs.
  rewrite (proj1 (skip_separators_ok path)) in Hdirs.
  assert (Hread : exists st1 l1, (match dir with [] => Some (0, st) | _ => read_alias_file mal_map mal_pool fopen dir st end)
      = Some (Z.of_nat (length l1), st1) /\ extended st st1 l1 /\
      (memory mal_map mal_pool -> good_files -> l1 = list_of_dir dir ≫= dir_aliases)).
  { destruct dir as [|d dir]; [exists st, []; split_and!; [done|by apply extended_refl|done]|].
    destruct (read_alias_file_ok (d :: dir) st Hok Hsort) as (st1 & l1 & -> & He & _ & Hl).
    exists st1, l1. split_and!; [done..|]. intros Hm Hg. rewrite (Hl Hm Hg). cbn. by rewrite app_nil_r. }
  destruct Hread as (st1 & l1 & E1 & He1 & Hl1).
  rewrite Ep. cbn [next_file]. rewrite <- Ep, En, E1. cbn [mbind option_bind].
  destruct (Z.eqb_spec (Z.of_nat (length l1)) 0) as [E0|E0].
  - destruct l1; [|simpl in E0; lia]. destruct He1 as (Hok1 & Hs1 & Hp1).
    destruct (IH r st1) as (st2 & l2 & ds & path' & -> & He2 & Hpath & Hd2 & Hl2 & Hend & Hlen); [lia|done..|].
    exists st2, l2, (list_of_dir dir ++ ds), path'. split_and!; [done| |done| | |done|].
    + by apply (extended_trans st st1 st2 []).
    + by rewrite Hdirs, Hd2, <- app_assoc.
    + intros Hm Hg. rewrite bind_app, <- (Hl1 Hm Hg). by apply Hl2.
    + intros Hne2. specialize (Hlen Hne2). lia.
  - exists (set_path st1 r), l1, (list_of_dir dir), r. split_and!; [done|by apply set_path_extended|done..| |done].
    intros ->. done.
Qed.

(** ** Calls *)

Context (LOCALE_ALIAS_PATH : cstr).

(** The aliases of all files of the path. *)
Definition all_aliases : list (cstr * cstr) := directories LOCALE_ALIAS_PATH ≫= dir_aliases.

(** The invariant between calls: the table is sorted and valid; unless something went
    wrong it has the aliases of the directories that are no longer on the path. *)
Definition alias_ok (st : alias_state) : Prop :=
  table_ok st /\ sorted (entries st) /\
  exists ds, directories LOCALE_ALIAS_PATH = ds ++ directories (default LOCALE_ALIAS_PATH (locale_alias_path st)) /\
    (memory mal_map mal_pool -> good_files -> entries st ≡ₚ ds ≫= dir_aliases).

(** What the answer [r] of a call means in the state after it. *)
Definition answers (name : cstr) (r : option Z) (st : alias_state) : Prop :=
  match r with
  | Some v => exists p, p ∈ entries st /\ lower p.1 = lower name /\ string_at st v = Some p.2
  | None => Forall (fun p => lower p.1 <> lower name) (entries st) /\
            (memory mal_map mal_pool -> good_files -> entries st ≡ₚ all_aliases)
  end.

Lemma empty_alias_ok : alias_ok empty_alias.
Proof using Type. split_and!; [split_and!; done|constructor|]. by exists []. Qed.

Lemma expand_loop_ok fuel name st path : locale_alias_path st = Some path -> (length path < fuel)%nat ->
  alias_ok st -> wf_cstr name ->
  exists r st', expand_loop mal_map mal_pool fopen fuel name st = Some (r, st') /\ alias_ok st' /\ answers name r st'.
Proof using SL Hfiles.
  revert st path. induction fuel as [|fuel IH]; intros st path Hpath Hf (Hok & Hsort & ds & Hds & Hent) Hw; [lia|].
  cbn [expand_loop]. rewrite valid_comparable by done. rewrite Hpath in Hds |- *. cbn [default] in *. unfold id in *.
  pose proof (find_alias_ok st name Hok Hsort Hw) as Hfind. destruct (find_alias st name) as [m|].
  { exists (Some (value m)), st. split_and!; [done| |by exists (decode st m)].
    split_and!; [done..|]. exists ds. by rewrite Hpath. }
  destruct (next_file_ok (S (length path)) path st) as
    (st1 & l & ds1 & path1 & -> & (Hok1 & Hs1 & He1) & Hp1 & Hd1 & Hl1 & Hend & Hlen); [lia|done..|].
  assert (Hinv : alias_ok st1).
  { split_and!; [done..|]. exists (ds ++ ds1). rewrite Hp1. cbn. split; [by rewrite Hds, Hd1, <- app_assoc|].
    intros Hm Hg. by rewrite bind_app, He1, Hent, Hl1. }
  cbn [mbind option_bind]. destruct (Z.eqb_spec (Z.of_nat (length l)) 0) as [E0|E0].
  - destruct l; [|simpl in E0; lia]. exists None, st1. rewrite app_nil_r in He1. split_and!; [done..|]. split.
    + by rewrite He1.
    + intros Hm Hg. destruct Hinv as (_ & _ & ds2 & Hd2 & He2). rewrite (He2 Hm Hg). unfold all_aliases.
      rewrite Hd2, Hp1, (Hend eq_refl). cbn. by rewrite app_nil_r.
  - apply (IH st1 path1); [done| |done..]. assert (l <> []) as Hne by by intros ->. specialize (Hlen Hne). lia.
Qed.

(** Every call returns and keeps the invariant, whatever the files and the failures. *)
Lemma expand_alias_total name st : alias_ok st -> wf_cstr name ->
  exists r st', LocaleAlias._nl_expand_alias mal_map mal_pool fopen LOCALE_ALIAS_PATH name st = Some (r, st') /\
    alias_ok st' /\ answers name r st'.
Proof using SL Hfiles.
  intros Hok Hw. unfold LocaleAlias._nl_expand_alias. eapply expand_loop_ok; [done|lia| |done].
  destruct Hok as (Hok & Hsort & ds & Hds & Hent). split_and!; [done..|]. by exists ds.
Qed.

(** The states after a sequence of calls. *)
Inductive reached : alias_state -> Prop :=
  | reached_start : reached empty_alias
  | reached_call st name r st' : reached st -> wf_cstr name ->
      LocaleAlias._nl_expand_alias mal_map mal_pool fopen LOCALE_ALIAS_PATH name st = Some (r, st') -> reached st'.

Lemma reached_alias_ok st : reached st -> alias_ok st.
Proof using SL Hfiles.
  induction 1 as [|st name r st' _ IH Hw E]; [apply empty_alias_ok|].
  destruct (expand_alias_total name st IH Hw) as (r1 & st1 & E1 & H1 & _). congruence.
Qed.

(** ** The dictionary *)

Definition lower_key (p : cstr * cstr) : cstr * cstr := (lower p.1, p.2).

(** No alias is defined twice. *)
Definition unique_aliases : Prop := NoDup (map lower_key all_aliases).*1.

Definition alias_dictionary : gmap cstr cstr := list_to_map (map lower_key all_aliases).

(** The table that finddomain.c sees. *)
Definition file_alias_table : AliasTable := fun name => alias_dictionary !! lower name.

Lemma answers_dictionary name r st : memory mal_map mal_pool -> good_files -> unique_aliases ->
  alias_ok st -> answers name r st ->
  r ≫= string_at st = file_alias_table name /\ (is_Some r <-> is_Some (file_alias_table name)).
Proof using Type.
  intros Hm Hg Hu (_ & _ & ds & Hds & Hent) Hans. specialize (Hent Hm Hg). unfold file_alias_table, alias_dictionary.
  destruct r as [v|]; cbn [answers mbind option_bind] in *.
  - destruct Hans as (p & Hp & Hlow & ->). assert (Hall : p ∈ all_aliases).
    { unfold all_aliases. rewrite Hds, bind_app, elem_of_app. left. by rewrite <- Hent. }
    rewrite (elem_of_list_to_map_1 _ (lower name) p.2); [by split|done|].
    rewrite <- Hlow. by apply (list_elem_of_fmap_2 lower_key).
  - destruct Hans as [Hnone Hperm]. rewrite (not_elem_of_list_to_map_1 _ (lower name)).
    { split; [done|]. split; intros [? ?]; done. }
    intros Hin. apply list_elem_of_fmap in Hin as (q & Hq & Hin). apply list_elem_of_fmap in Hin as (p & -> & Hp).
    rewrite Forall_forall in Hnone. apply (Hnone p); [|done]. by rewrite (Hperm Hm Hg).
Qed.

(** C27. After any calls, with any contents of the alias files and any allocation
    failures, a call returns; every string of the table, and the answer, stands
    inside the pool, even when the pool was moved; the table stays sorted; and the
    answer is the value of an entry whose alias is the name without regard to case,
    or NULL and there is no such entry. *)
Theorem expand_alias_ok st name : reached st -> wf_cstr name ->
  exists r st', LocaleAlias._nl_expand_alias mal_map mal_pool fopen LOCALE_ALIAS_PATH name st = Some (r, st') /\
    table_ok st' /\ sorted (entries st') /\
    match r with
    | Some v => exists p, p ∈ entries st' /\ lower p.1 = lower name /\ string_at st' v = Some p.2
    | None => Forall (fun p => lower p.1 <> lower name) (entries st')
    end.
Proof using SL Hfiles.
  intros Hr Hw. destruct (expand_alias_total name st (reached_alias_ok _ Hr) Hw) as (r & st' & E & (H1 & H2 & _) & Ha).
  exists r, st'. split_and!; [done..|]. destruct r; [done|apply Ha].
Qed.

(** C26.  With memory, lines that fit into the buffer and no alias defined twice, the
    calls in any order answer as the dictionary of the first two words of
    all lines of all alias files of the path: reading a file only when it is needed
    cannot be observed. *)
Theorem expand_alias_refines st name : memory mal_map mal_pool -> good_files -> unique_aliases ->
  reached st -> wf_cstr name ->
  exists r st', LocaleAlias._nl_expand_alias mal_map mal_pool fopen LOCALE_ALIAS_PATH name st = Some (r, st') /\
    r ≫= string_at st' = file_alias_table name /\ (is_Some r <-> is_Some (file_alias_table name)).
Proof using SL Hfiles.
  intros Hm Hg Hu Hr Hw. destruct (expand_alias_total name st (reached_alias_ok _ Hr) Hw) as (r & st' & E & Hok & Ha).
  exists r, st'. split; [done|]. by apply answers_dictionary.
Qed.
End Expand.

(** ** A run *)

(** Sorting by insertion and linear search satisfy the laws. *)
Fixpoint insert_in {A} (c : A -> A -> Z) (x : A) (l : list A) : list A :=
  match l with
  | [] => [x]
  | y :: l' => if c x y <=? 0 then x :: l else y :: insert_in c x l'
  end.

#[export] Instance sample_sort : SortSearch :=
  {| qsort := fun A c l => foldr (insert_in c) [] l; bsearch := fun A c l => List.find (fun x => c x =? 0) l |}.

Lemma insert_in_permutation {A} (c : A -> A -> Z) x l : insert_in c x l ≡ₚ x :: l.
Proof. induction l as [|y l IH]; [done|]. cbn [insert_in]. case_if; [done|]. rewrite IH. apply Permutation_swap. Qed.

Lemma insert_in_sorted {A} (c : A -> A -> Z) x l :
  (forall y z, y ∈ x :: l -> z ∈ x :: l -> c y z <= 0 \/ c z y <= 0) ->
  (forall y z u, y ∈ x :: l -> z ∈ x :: l -> u ∈ x :: l -> c y z <= 0 -> c z u <= 0 -> c y u <= 0) ->
  StronglySorted (fun y z => c y z <= 0) l -> StronglySorted (fun y z => c y z <= 0) (insert_in c x l).
Proof.
  induction l as [|y l IH]; intros Htot Htrans Hs; cbn [insert_in]; [by repeat constructor|].
  inversion_clear Hs as [|? ? Hs' Hy]. rewrite Forall_forall in Hy.
  assert (Hin : forall z, z ∈ x :: l -> z ∈ x :: y :: l) by (intros z; set_solver). case_if.
  - constructor; [constructor; [done|by apply Forall_forall]|]. constructor; [done|]. apply Forall_forall. intros z Hz.
    apply (Htrans x y z); [set_solver..|done|by apply Hy].
  - constructor; [apply IH; [intros; apply Htot; by apply Hin|intros ? u ?; intros; apply (Htrans _ u); by try apply Hin|done]|].
    apply Forall_forall. intros z. rewrite insert_in_permutation, elem_of_cons. intros [->|Hz]; [|by apply Hy].
    destruct (Htot x y); [set_solver..|lia|done].
Qed.

#[export] Instance sample_sort_laws : SortSearchLaws.
Proof.
  split.
  - intros A c l. cbn. induction l as [|x l IH]; [done|]. cbn. by rewrite insert_in_permutation, IH.
  - intros A c l. cbn. induction l as [|x l IH]; intros Htot Htrans; [constructor|]. cbn.
    assert (Hp : foldr (insert_in c) [] l ≡ₚ l).
    { clear IH Htot Htrans. induction l as [|y l IH]; [done|]. cbn. by rewrite insert_in_permutation, IH. }
    apply insert_in_sorted.
    + intros y z. rewrite Hp. apply Htot.
    + intros y z u. rewrite Hp. apply Htrans.
    + apply IH; [intros; apply Htot; by apply list_elem_of_further|].
      intros y z u ? ? ?. apply Htrans; by apply list_elem_of_further.
  - intros A c l x E. cbn in E. apply List.find_some in E as [Hin E]. breflect. by rewrite list_elem_of_In.
  - intros A c l _ E. cbn in E. apply Forall_forall. intros x Hx E0. apply list_elem_of_In in Hx.
    pose proof (List.find_none _ _ E x Hx) as H. cbn in H. rewrite E0 in H. done.
Qed.

(** Two alias files; each extension of the pool moves it. *)
Definition newline : cstr := [10].

Definition sample_fopen (name : cstr) : option (list Z) :=
  if decide (name = cs "/a/locale.alias") then
    Some (cs "# languages" ++ newline ++ cs "French  fr_FR.ISO-8859-1  ignored" ++ newline ++ cs "  german	de_DE")
  else if decide (name = cs "/b/locale.alias") then
    Some (cs "thai th_TH" ++ newline ++ cs "long1 " ++ repeat 97 380 ++ newline ++ cs "long2 " ++ repeat 98 380 ++
          newline ++ cs "long3 " ++ repeat 99 380 ++ newline)
  else None.

Definition sample_path : cstr := cs "/none:/a::/b".

Definition sample_pool (i : nat) : option Z := Some (10000 * (1 + Z.of_nat i)).

Definition all_mem (i : nat) : bool := true.

Lemma sample_bytes f b : sample_fopen f = Some b -> file_bytes b.
Proof.
  unfold sample_fopen. destruct (decide _); [|destruct (decide _); [|done]]; intros [= <-];
    apply (bool_decide_unpack _); by vm_compute.
Qed.

Lemma sample_good : good_files sample_fopen.
Proof.
  intros f b. unfold sample_fopen. destruct (decide _); [|destruct (decide _); [|done]]; intros [= <-];
    apply (bool_decide_unpack _); by vm_compute.
Qed.

Lemma sample_unique : unique_aliases sample_fopen sample_path.
Proof. apply (bool_decide_unpack _); by vm_compute. Qed.

Lemma sample_memory : memory all_mem sample_pool.
Proof. by split. Qed.

Definition sample_call := LocaleAlias._nl_expand_alias all_mem sample_pool sample_fopen sample_path.

(** The answer, the state after it, and whether an earlier answer is still in the pool. *)
Definition two_calls (name1 name2 : cstr) : option (option cstr * option cstr * option cstr) :=
  '(r1, st1) ← sample_call name1 empty_alias;
  '(r2, st2) ← sample_call name2 st1;
  Some (r1 ≫= string_at st1, r2 ≫= string_at st2, r1 ≫= string_at st2).

(** The second call reads the second file, which moves the pool: the address that
    the first call returned is no longer in it. *)
Example stale_answer :
  two_calls (cs "FRENCH") (cs "Thai") = Some (Some (cs "fr_FR.ISO-8859-1"), Some (cs "th_TH"), None).
Proof. by vm_compute. Qed.

Lemma sample_reached : exists st, reached all_mem sample_pool sample_fopen sample_path st /\ entries st <> [].
Proof.
  destruct (sample_call (cs "FRENCH") empty_alias) as [[r st]|] eqn:E; [|by vm_compute in E].
  exists st. split; [eapply reached_call; [apply reached_start| |exact E]; by apply (bool_decide_unpack _)|].
  assert (Hent : (fun x => entries x.2) <$> sample_call (cs "FRENCH") empty_alias <> Some []) by by vm_compute.
  rewrite E in Hent. cbn in Hent. congruence.
Qed.

Lemma expand_alias_ok_witness : exists st, entries st <> [] /\
  exists r st', sample_call (cs "Thai") st = Some (r, st') /\ table_ok st'.
Proof.
  destruct sample_reached as (st & Hr & Hne). exists st. split; [exact Hne|].
  destruct (expand_alias_ok all_mem sample_pool sample_fopen sample_bytes sample_path st (cs "Thai") Hr) as
    (r & st' & E & Hok & _); [by apply (bool_decide_unpack _)|]. exists r, st'. split; [exact E|exact Hok].
Defined.

Lemma expand_alias_refines_witness : exists st, entries st <> [] /\
  exists r st', sample_call (cs "GERMAN") st = Some (r, st') /\ r ≫= string_at st' = Some (cs "de_DE").
Proof.
  destruct sample_reached as (st & Hr & Hne). exists st. split; [exact Hne|].
  destruct (expand_alias_refines all_mem sample_pool sample_fopen sample_bytes sample_path st (cs "GERMAN")) as
    (r & st' & E & Hval & _);
    [exact sample_memory|exact sample_good|exact sample_unique|exact Hr|by apply (bool_decide_unpack _)|].
  exists r, st'. split; [exact E|]. rewrite Hval. by vm_compute.
Defined.
