(* ===== verification/Lock.v ===== *)
(** * Locks of Windows threads: lock.c

    The guard that initializes a lock when it is first used, the recursive lock and
    the once-only execution.  The threads take turns at every access to a shared
    variable: a function is the sequence of its steps, a program counter says where a
    thread is.  Reads and writes are taken to be seen by all threads at once. *)

From S2P Require Import Prelude.

Open Scope Z_scope.

(** A step of a thread: done, not possible now, or a crash. *)
Inductive outcome (A : Type) := Done (a : A) | Blocked | Crash.
Arguments Done {A} a.
Arguments Blocked {A}.
Arguments Crash {A}.

Definition outcome_bind {A B} (o : outcome A) (f : A -> outcome B) : outcome B :=
  match o with Done a => f a | Blocked => Blocked | Crash => Crash end.

Definition EAGAIN : Z := 11.
Definition EBUSY : Z := 16.
Definition EINVAL : Z := 22.
Definition EPERM : Z := 1.

(** On a LONG. *)
Definition InterlockedIncrement (z : Z) : Z := if z =? 2 ^ 31 - 1 then - 2 ^ 31 else z + 1.
Definition InterlockedDecrement (z : Z) : Z := if z =? - 2 ^ 31 then 2 ^ 31 - 1 else z - 1.

(** A CRITICAL_SECTION: entered by a thread, and [count] more times by it. *)
Inductive critical_section := Uninitialized | Free | Held (thread count : nat).

Definition EnterCriticalSection (self : nat) (cs : critical_section) : outcome critical_section :=
  match cs with
  | Uninitialized => Crash
  | Free => Done (Held self 0)
  | Held t n => if decide (t = self) then Done (Held t (S n)) else Blocked
  end.

Definition LeaveCriticalSection (self : nat) (cs : critical_section) : outcome critical_section :=
  match cs with
  | Held t n => if decide (t = self) then Done (match n with O => Free | S n => Held t n end) else Crash
  | _ => Crash
  end.

(** ** The guard *)

(** [gl_spinlock_t] *)
Record gl_spinlock_t := Spinlock { guard_done : bool; guard_started : Z }.

(** [{ 0, -1 }] *)
Definition gl_lock_initializer : gl_spinlock_t := Spinlock false (-1).

(** Where a thread is: before the guard, about to increment [started], the first one,
    waiting for the first one, or past the guard. *)
Inductive guard_pc := GOut | GIncrement | GInit | GSpin | GIn.

#[export] Instance guard_pc_eq_dec : EqDecision guard_pc.
Proof. solve_decision. Defined.

(** [if (!lock->guard.done)] *)
Definition guard_test (g : gl_spinlock_t) : guard_pc := if negb (guard_done g) then GIncrement else GIn.

(** [if (InterlockedIncrement (&lock->guard.started) == 0)] *)
Definition guard_increment (g : gl_spinlock_t) : guard_pc * gl_spinlock_t :=
  let started := InterlockedIncrement (guard_started g) in
  (if started =? 0 then GInit else GSpin, Spinlock (guard_done g) started).

(** [while (!lock->guard.done) Sleep (0);] *)
Definition guard_spin (g : gl_spinlock_t) : outcome guard_pc := if negb (guard_done g) then Blocked else Done GIn.

(** ** The recursive lock *)

(** [gl_recursive_lock_t] *)
Record gl_recursive_lock_t := RecursiveLock {
  rguard : gl_spinlock_t;
  owner : Z;
  depth : Z;
  section : critical_section
}.

Definition gl_recursive_lock_initializer : gl_recursive_lock_t := RecursiveLock gl_lock_initializer 0 0 Uninitialized.

Definition glthread_recursive_lock_init_func (lock : gl_recursive_lock_t) : gl_recursive_lock_t :=
  RecursiveLock (Spinlock true (guard_started (rguard lock))) 0 0 Free.

Definition glthread_recursive_lock_destroy_func (lock : gl_recursive_lock_t) : Z * gl_recursive_lock_t :=
  if negb (owner lock =? 0) then (EBUSY, lock)
  else (0, RecursiveLock (Spinlock false (guard_started (rguard lock))) (owner lock) (depth lock) Uninitialized).

(** GetCurrentThreadId() of thread [i] is not 0. *)
Definition GetCurrentThreadId (i : nat) : Z := Z.of_nat i + 1.

(** Where a thread is: outside, with the result of its last call; in
    [glthread_recursive_lock_lock_func] before it reads the owner, before it enters the
    critical section, before it becomes the owner, before it increments the depth;
    in [glthread_recursive_lock_unlock_func] before the test of the owner, before the
    tests of the depth, before it resets the owner, before it leaves. *)
Inductive rec_pc :=
  | ROut (result : Z) | RGuard (g : guard_pc)
  | LTest | LEnter | LOwn | LDepth
  | UTest | UDepth | UOwn | ULeave.

(** [held]: how many more calls to lock than to unlock of each thread succeeded. *)
Record rec_system := RecSystem { rlock : gl_recursive_lock_t; rpcs : list rec_pc; held : list Z }.

Definition rec_start (n : nat) : rec_system :=
  RecSystem gl_recursive_lock_initializer (replicate n (ROut 0)) (replicate n 0).

(** Thread [i] goes to [pc]. *)
Definition rgoto (s : rec_system) (i : nat) (pc : rec_pc) (l : gl_recursive_lock_t) : rec_system :=
  RecSystem l (<[i := pc]> (rpcs s)) (held s).

Definition add_held (i : nat) (z : Z) (s : rec_system) : rec_system :=
  RecSystem (rlock s) (rpcs s) (alter (Z.add z) i (held s)).

(** [if (++(lock->depth) == 0)], an [unsigned long] of 32 bits. *)
Definition rec_lock_depth (s : rec_system) (i : nat) : rec_system :=
  let l := rlock s in
  let depth := wrapw 32 (depth l + 1) in
  if depth =? 0 then rgoto s i (ROut EAGAIN) (RecursiveLock (rguard l) (owner l) (wrapw 32 (depth - 1)) (section l))
  else add_held i 1 (rgoto s i (ROut 0) (RecursiveLock (rguard l) (owner l) depth (section l))).

(** [if (lock->depth == 0) return EINVAL; if (--(lock->depth) == 0)] *)
Definition rec_unlock_depth (s : rec_system) (i : nat) : rec_system :=
  let l := rlock s in
  if depth l =? 0 then rgoto s i (ROut EINVAL) l
  else
    let depth := depth l - 1 in
    add_held i (-1) (rgoto s i (if depth =? 0 then UOwn else ROut 0) (RecursiveLock (rguard l) (owner l) depth (section l))).

(** The call a thread outside makes. *)
Inductive rec_call := CallLock | CallUnlock.

(** The next step of thread [i]; [c] is its call if it is outside. *)
Definition rec_exec (s : rec_system) (i : nat) (c : rec_call) : outcome rec_system :=
  let l := rlock s in
  let self := GetCurrentThreadId i in
  match rpcs s !! i with
  | None => Blocked
  | Some (ROut _) =>
      match c with
      | CallLock => Done (rgoto s i (RGuard (guard_test (rguard l))) l)
      | CallUnlock => Done (rgoto s i UTest l)
      end
  | Some (RGuard GOut) => Blocked
  | Some (RGuard GIncrement) =>
      let '(pc, g) := guard_increment (rguard l) in
      Done (rgoto s i (RGuard pc) (RecursiveLock g (owner l) (depth l) (section l)))
  | Some (RGuard GInit) => Done (rgoto s i (RGuard GIn) (glthread_recursive_lock_init_func l))
  | Some (RGuard GSpin) => outcome_bind (guard_spin (rguard l)) (fun pc => Done (rgoto s i (RGuard pc) l))
  | Some (RGuard GIn) => Done (rgoto s i LTest l)
  | Some LTest => Done (rgoto s i (if negb (owner l =? self) then LEnter else LDepth) l)
  | Some LEnter =>
      outcome_bind (EnterCriticalSection i (section l)) (fun cs =>
      Done (rgoto s i LOwn (RecursiveLock (rguard l) (owner l) (depth l) cs)))
  | Some LOwn => Done (rgoto s i LDepth (RecursiveLock (rguard l) self (depth l) (section l)))
  | Some LDepth => Done (rec_lock_depth s i)
  | Some UTest => Done (rgoto s i (if negb (owner l =? self) then ROut EPERM else UDepth) l)
  | Some UDepth => Done (rec_unlock_depth s i)
  | Some UOwn => Done (rgoto s i ULeave (RecursiveLock (rguard l) 0 (depth l) (section l)))
  | Some ULeave =>
      outcome_bind (LeaveCriticalSection i (section l)) (fun cs =>
      Done (rgoto s i (ROut 0) (RecursiveLock (rguard l) (owner l) (depth l) cs)))
  end.

Inductive rec_reachable (n : nat) : rec_system -> Prop :=
  | rec_reachable_start : rec_reachable n (rec_start n)
  | rec_reachable_step s i c s' : rec_reachable n s -> rec_exec s i c = Done s' -> rec_reachable n s'.

(** ** Once-only execution *)

(** [gl_once_t] *)
Record gl_once_t := Once { inited : Z; started : Z; once_lock : critical_section }.

(** [{ -1, -1 }] *)
Definition gl_once_initializer : gl_once_t := Once (-1) (-1) Uninitialized.

(** Where a thread is in [glthread_once_func], by the access that comes next. *)
Inductive once_pc :=
  | OTest | OIncrement
  | OInitialize | OEnter | OSet0 | OCall | OSet1 | OLeave
  | ODecrement | OSpin | OTest2 | OEnter2 | OLeave2 | OTest3
  | OReturned.

#[export] Instance once_pc_eq_dec : EqDecision once_pc.
Proof. solve_decision. Defined.

(** [calls]: how often [initfunction] was called. *)
Record once_system := OnceSystem { control : gl_once_t; opcs : list once_pc; calls : nat }.

Definition once_start (n : nat) : once_system := OnceSystem gl_once_initializer (replicate n OTest) 0.

Definition ogoto (s : once_system) (i : nat) (pc : once_pc) (c : gl_once_t) : once_system :=
  OnceSystem c (<[i := pc]> (opcs s)) (calls s).

(** The next step of thread [i]. *)
Definition once_exec (s : once_system) (i : nat) : outcome once_system :=
  let c := control s in
  let in_section f pc := outcome_bind (f i (once_lock c)) (fun cs => Done (ogoto s i pc (Once (inited c) (started c) cs))) in
  match opcs s !! i with
  | None | Some OReturned => Blocked
  | Some OTest => Done (ogoto s i (if inited c <=? 0 then OIncrement else OReturned) c)
  | Some OIncrement =>
      let z := InterlockedIncrement (started c) in
      Done (ogoto s i (if z =? 0 then OInitialize else ODecrement) (Once (inited c) z (once_lock c)))
  | Some OInitialize => Done (ogoto s i OEnter (Once (inited c) (started c) Free))
  | Some OEnter => in_section EnterCriticalSection OSet0
  | Some OSet0 => Done (ogoto s i OCall (Once 0 (started c) (once_lock c)))
  | Some OCall => Done (OnceSystem c (<[i := OSet1]> (opcs s)) (S (calls s)))
  | Some OSet1 => Done (ogoto s i OLeave (Once 1 (started c) (once_lock c)))
  | Some OLeave => in_section LeaveCriticalSection OReturned
  | Some ODecrement => Done (ogoto s i OSpin (Once (inited c) (InterlockedDecrement (started c)) (once_lock c)))
  | Some OSpin => if inited c <? 0 then Blocked else Done (ogoto s i OTest2 c)
  | Some OTest2 => Done (ogoto s i (if inited c <=? 0 then OEnter2 else OReturned) c)
  | Some OEnter2 => in_section EnterCriticalSection OLeave2
  | Some OLeave2 => in_section LeaveCriticalSection OTest3
  | Some OTest3 => if negb (0 <? inited c) then Crash else Done (ogoto s i OReturned c)
  end.

(** The runs of [n] threads, with the number of steps. *)
Inductive once_run (n : nat) : nat -> once_system -> Prop :=
  | once_run_start : once_run n 0 (once_start n)
  | once_run_step k s i s' : once_run n k s -> once_exec s i = Done s' -> once_run n (S k) s'.
