(* ===== verification/LockTheorems.v ===== *)
(** * The locks of Windows threads: initialization, recursive locks, once-only execution *)

From S2P Require Import Prelude Lock.

Open Scope Z_scope.

(** The element of one thread changes. *)
Lemma list_update_perm {A} (l : list A) i x :
  l !! i = Some x -> exists rest, l ≡ₚ x :: rest /\ forall y, <[i := y]> l ≡ₚ y :: rest.
Proof.
  intros Hi. exists (take i l ++ drop (S i) l). split.
  - rewrite <- (take_drop_middle l i x Hi) at 1. by rewrite Permutation_middle.
  - intros y. rewrite insert_take_drop by (by eapply lookup_lt_Some). by rewrite Permutation_middle.
Qed.

(** ** The guard *)

(** How many threads are at [p]. *)
Definition at_pc (p : guard_pc) (V : list guard_pc) : Z := Z.of_nat (length (filter (fun q => q = p) V)).

#[export] Instance at_pc_proper p : Proper ((≡ₚ) ==> (=)) (at_pc p).
Proof. intros V V' HV. unfold at_pc. by rewrite HV. Qed.

Lemma at_pc_cons p q V : at_pc p (q :: V) = (if decide (q = p) then 1 else 0) + at_pc p V.
Proof. unfold at_pc. rewrite filter_cons. case_decide; cbn [length]; lia. Qed.

(** The counts of [q :: rest]. *)
Ltac guard_counts :=
  rewrite ?at_pc_cons in *; cbn [length] in *;
  repeat match goal with
  | |- context [decide (?a = ?a)] => rewrite (decide_True (P := a = a)) by reflexivity
  | |- context [decide (?a = ?b)] => rewrite (decide_False (P := a = b)) by discriminate
  | H : context [decide (?a = ?a)] |- _ => rewrite (decide_True (P := a = a)) in H by reflexivity
  | H : context [decide (?a = ?b)] |- _ => rewrite (decide_False (P := a = b)) in H by discriminate
  end.

Lemma at_pc_nonneg p V : 0 <= at_pc p V.
Proof. unfold at_pc. lia. Qed.

Lemma at_pc_sum V : at_pc GOut V + at_pc GIncrement V + at_pc GInit V + at_pc GSpin V <= Z.of_nat (length V).
Proof.
  induction V as [|q V IH]; [done|]. destruct q; guard_counts; lia.
Qed.

(** The threads of [V] use the guard: before it is done, one of those that incremented
    [started] initializes the lock, and none is past the guard. *)
Record guard_ok (g : gl_spinlock_t) (V : list guard_pc) : Prop := GuardOk {
  go_before : guard_done g = false ->
    at_pc GIn V = 0 /\ guard_started g + 1 = at_pc GInit V + at_pc GSpin V /\
    (at_pc GInit V = 1 \/ guard_started g = -1 /\ at_pc GInit V = 0);
  go_after : guard_done g = true -> at_pc GInit V = 0 /\ 0 <= guard_started g;
  go_low : -1 <= guard_started g;
  go_bound : guard_started g + 1 + at_pc GIncrement V <= Z.of_nat (length V)
}.

#[export] Instance guard_ok_proper g : Proper ((≡ₚ) ==> iff) (guard_ok g).
Proof.
  assert (Himp : forall V V', V ≡ₚ V' -> guard_ok g V -> guard_ok g V').
  { intros V V' HV [H1 H2 H3 H4]. split; [by rewrite <- !HV|by rewrite <- HV|done|by rewrite <- HV]. }
  intros V V' HV. split; by apply Himp.
Qed.

Lemma guard_ok_start n : guard_ok gl_lock_initializer (replicate n GOut).
Proof.
  assert (H : forall p, p <> GOut -> at_pc p (replicate n GOut) = 0).
  { intros p Hp. induction n as [|n IH]; [done|]. cbn [replicate]. rewrite at_pc_cons, decide_False by congruence. lia. }
  split; rewrite ?H by done; cbn; [lia|done|done|lia].
Qed.

Section Guard.
Context (g : gl_spinlock_t) (V : list guard_pc) (i : nat).
Context (Hok : guard_ok g V) (Hfew : Z.of_nat (length V) < 2 ^ 31 - 1).

Lemma guard_in_done : V !! i = Some GIn -> guard_done g = true.
Proof using Hok.
  intros Hi. destruct (list_update_perm V i _ Hi) as (rest & P & _). rewrite P in Hok. destruct Hok as [H1 _ _ _].
  destruct (guard_done g); [done|]. destruct (H1 eq_refl) as [H _]. guard_counts. pose proof (at_pc_nonneg GIn rest). lia.
Qed.

Lemma guard_init_not_done : V !! i = Some GInit -> guard_done g = false.
Proof using Hok.
  intros Hi. destruct (list_update_perm V i _ Hi) as (rest & P & _). rewrite P in Hok. destruct Hok as [_ H2 _ _].
  destruct (guard_done g); [|done]. destruct (H2 eq_refl) as [H _]. guard_counts. pose proof (at_pc_nonneg GInit rest). lia.
Qed.

Lemma guard_test_ok : V !! i = Some GOut -> guard_ok g (<[i := guard_test g]> V).
Proof using Hok.
  intros Hi. destruct (list_update_perm V i _ Hi) as (rest & P & ->). pose proof (at_pc_sum (GOut :: rest)) as Hs. rewrite P in Hok.
  destruct Hok as [H1 H2 H3 H4]. unfold guard_test. pose proof (at_pc_nonneg GOut rest).
  destruct (guard_done g) eqn:E; cbn [negb]; [specialize (H2 eq_refl)|specialize (H1 eq_refl)];
    split; intros; guard_counts; try congruence; lia.
Qed.

Lemma guard_increment_ok : V !! i = Some GIncrement ->
  guard_ok (snd (guard_increment g)) (<[i := fst (guard_increment g)]> V).
Proof using Hok Hfew.
  intros Hi. destruct (list_update_perm V i _ Hi) as (rest & P & ->). rewrite P in Hok, Hfew. destruct Hok as [H1 H2 H3 H4].
  pose proof (at_pc_nonneg GInit rest). pose proof (at_pc_nonneg GSpin rest). pose proof (at_pc_nonneg GIncrement rest).
  unfold guard_increment, InterlockedIncrement. change (2 ^ 31 - 1) with 2147483647 in *. guard_counts.
  rewrite (proj2 (Z.eqb_neq (guard_started g) _)) by lia. cbn [fst snd].
  destruct (guard_done g) eqn:E; [specialize (H2 eq_refl)|specialize (H1 eq_refl)];
    destruct (Z.eqb_spec (guard_started g + 1) 0); split; cbn [guard_done guard_started]; intros; guard_counts; try congruence; lia.
Qed.

Lemma guard_init_ok : V !! i = Some GInit -> guard_ok (Spinlock true (guard_started g)) (<[i := GIn]> V).
Proof using Hok.
  intros Hi. pose proof (guard_init_not_done Hi) as E. destruct (list_update_perm V i _ Hi) as (rest & P & ->).
  rewrite P in Hok. destruct Hok as [H1 H2 H3 H4]. destruct (H1 E) as (_ & H5 & H6).
  pose proof (at_pc_nonneg GInit rest). pose proof (at_pc_nonneg GSpin rest).
  split; cbn [guard_done guard_started]; intros; guard_counts; try congruence; lia.
Qed.

Lemma guard_spin_ok pc : V !! i = Some GSpin -> guard_spin g = Done pc -> pc = GIn /\ guard_ok g (<[i := GIn]> V).
Proof using Hok.
  intros Hi. unfold guard_spin. destruct (guard_done g) eqn:E; cbn [negb]; [intros [= <-]|done]. split; [done|].
  destruct (list_update_perm V i _ Hi) as (rest & P & ->). rewrite P in Hok. destruct Hok as [H1 H2 H3 H4].
  split; intros; guard_counts; try congruence; try lia. by apply H2.
Qed.

Lemma guard_in_ok p : V !! i = Some GIn -> p = GIn \/ p = GOut -> guard_ok g (<[i := p]> V).
Proof using Hok.
  intros Hi Hp. pose proof (guard_in_done Hi) as E. destruct (list_update_perm V i _ Hi) as (rest & P & ->).
  rewrite P in Hok. destruct Hok as [H1 H2 H3 H4].
  destruct Hp as [->| ->]; split; intros; guard_counts; try congruence; try lia; by apply H2.
Qed.

(** A thread that spins waits for one that initializes the lock. *)
Lemma guard_progress : V !! i = Some GSpin -> guard_done g = false -> exists j, V !! j = Some GInit.
Proof using Hok.
  intros Hi E. destruct (list_update_perm V i _ Hi) as (rest & P & _). destruct Hok as [H1 H2 H3 H4].
  destruct (H1 E) as (_ & H5 & [H6|[H6 H7]]).
  - unfold at_pc in H6. destruct (filter (fun q => q = GInit) V) as [|q l] eqn:Ef; [done|].
    assert (Hq : q ∈ filter (fun q => q = GInit) V) by (rewrite Ef; apply list_elem_of_here).
    apply list_elem_of_filter in Hq as [-> Hq]. by apply list_elem_of_lookup in Hq.
  - rewrite P in H5, H7. guard_counts. pose proof (at_pc_nonneg GSpin rest). lia.
Qed.
End Guard.

(** ** The recursive lock *)

(** Where a thread is with respect to the guard. *)
Definition guard_view (pc : rec_pc) : guard_pc :=
  match pc with ROut _ | UTest => GOut | RGuard g => g | _ => GIn end.

(** The thread is inside the critical section. *)
Definition inside (pc : rec_pc) (h : Z) : Prop :=
  match pc with LOwn | LDepth | UDepth | UOwn | ULeave => True | _ => 0 < h end.

Definition lock_ok (l : gl_recursive_lock_t) (n : nat) : Prop :=
  match section l with
  | Uninitialized => owner l = 0 /\ depth l = 0 /\ guard_done (rguard l) = false
  | Free => owner l = 0 /\ depth l = 0 /\ guard_done (rguard l) = true
  | Held t c => c = O /\ (t < n)%nat /\ guard_done (rguard l) = true
  end.

(** What is true of thread [i], which holds the lock [h] times. *)
Record thread_ok (l : gl_recursive_lock_t) (i : nat) (pc : rec_pc) (h : Z) : Prop := ThreadOk {
  to_held : 0 <= h < 2 ^ 32;
  to_inside : inside pc h <-> section l = Held i 0;
  to_owner : section l = Held i 0 ->
    owner l = match pc with LOwn | ULeave => 0 | _ => GetCurrentThreadId i end /\ depth l = h;
  to_pc : match pc with
          | RGuard GOut => False
          | LEnter | LOwn | UOwn | ULeave => h = 0
          | UDepth => 0 < h
          | _ => True
          end
}.

Record rec_ok (s : rec_system) : Prop := RecOk {
  ro_guard : guard_ok (rguard (rlock s)) (map guard_view (rpcs s));
  ro_lock : lock_ok (rlock s) (length (rpcs s));
  ro_threads : forall i pc, rpcs s !! i = Some pc -> exists h, held s !! i = Some h /\ thread_ok (rlock s) i pc h;
  ro_held : forall i, is_Some (held s !! i) -> is_Some (rpcs s !! i);
  ro_few : Z.of_nat (length (rpcs s)) < 2 ^ 31 - 1
}.

Lemma rec_start_ok n : Z.of_nat n < 2 ^ 31 - 1 -> rec_ok (rec_start n).
Proof.
  intros Hn. split; cbn [rlock rpcs held rec_start].
  - replace (map _ _) with (replicate n GOut) by (symmetry; exact (fmap_replicate guard_view n (ROut 0))). apply guard_ok_start.
  - done.
  - intros i pc Hi. apply lookup_replicate in Hi as [-> Hi]. exists 0. split; [by apply lookup_replicate|].
    split; cbn; try done.
  - intros i [h Hh]. apply lookup_replicate in Hh as [_ Hh]. exists (ROut 0). by apply lookup_replicate.
  - by rewrite length_replicate.
Qed.

(** A step of thread [i], from [pc] to [pc']. *)
Lemma rec_step_ok s s' i pc pc' h h' :
  rec_ok s -> rpcs s !! i = Some pc -> rpcs s' = <[i := pc']> (rpcs s) ->
  held s' !! i = Some h' -> (forall j, j <> i -> held s' !! j = held s !! j) ->
  guard_ok (rguard (rlock s')) (<[i := guard_view pc']> (map guard_view (rpcs s))) ->
  lock_ok (rlock s') (length (rpcs s)) -> thread_ok (rlock s') i pc' h' ->
  (forall j, j <> i -> section (rlock s') = Held j 0 <-> section (rlock s) = Held j 0) ->
  (section (rlock s) = Held i 0 \/ section (rlock s') = Held i 0 \/
    (forall j, section (rlock s) <> Held j 0) \/ owner (rlock s') = owner (rlock s) /\ depth (rlock s') = depth (rlock s)) ->
  held s !! i = Some h -> rec_ok s'.
Proof.
  intros [H1 H2 H3 H4 H5] Hi Hpcs Hh' Hother Hg Hl Ht Hsec Hod Hh. split.
  - rewrite Hpcs. replace (map _ _) with (<[i := guard_view pc']> (map guard_view (rpcs s))); [done|].
    symmetry. exact (list_fmap_insert guard_view (rpcs s) i pc').
  - by rewrite Hpcs, length_insert.
  - rewrite Hpcs. intros j pcj Hj. destruct (decide (j = i)) as [->|Hne].
    + rewrite list_lookup_insert_eq in Hj by (by eapply lookup_lt_Some). injection Hj as <-. by exists h'.
    + rewrite list_lookup_insert_ne in Hj by done. destruct (H3 j pcj Hj) as (hj & Hhj & [T1 T2 T3 T4]).
      exists hj. rewrite Hother by done. split; [done|]. split; [done|by rewrite Hsec| |done].
      rewrite Hsec by done. intros E. rewrite E in Hod. destruct Hod as [Hod|[Hod|[Hod|[-> ->]]]].
      * by injection Hod.
      * apply Hsec in E; [|done]. rewrite E in Hod. by injection Hod.
      * by destruct (Hod j).
      * by apply T3.
  - intros j Hj. rewrite Hpcs. destruct (decide (j = i)) as [->|Hne].
    + rewrite list_lookup_insert_eq by (by eapply lookup_lt_Some). by eexists.
    + rewrite list_lookup_insert_ne by done. apply H4. by rewrite <- (Hother j Hne).
  - by rewrite Hpcs, length_insert.
Qed.

(** A step that changes only the place of thread [i], and perhaps the guard. *)
Lemma rec_goto_ok s i pc pc' h g :
  rec_ok s -> rpcs s !! i = Some pc -> held s !! i = Some h ->
  guard_ok g (<[i := guard_view pc']> (map guard_view (rpcs s))) -> guard_done g = guard_done (rguard (rlock s)) ->
  let l := RecursiveLock g (owner (rlock s)) (depth (rlock s)) (section (rlock s)) in
  (thread_ok (rlock s) i pc h -> thread_ok l i pc' h) -> rec_ok (rgoto s i pc' l).
Proof.
  intros Hok Hi Hh Hg Hd l Ht. destruct (ro_threads _ Hok i pc Hi) as (h' & E & Hti). rewrite Hh in E. injection E as <-.
  apply (rec_step_ok s _ i pc pc' h h); cbn [rgoto rlock rpcs held l rguard section owner depth]; auto; try done.
  pose proof (ro_lock _ Hok) as Hl. unfold lock_ok in *. subst l. cbn [section owner depth rguard]. by rewrite Hd.
Qed.

Lemma rec_goto_same_ok s i pc pc' h :
  rec_ok s -> rpcs s !! i = Some pc -> held s !! i = Some h ->
  guard_ok (rguard (rlock s)) (<[i := guard_view pc']> (map guard_view (rpcs s))) ->
  (thread_ok (rlock s) i pc h -> thread_ok (rlock s) i pc' h) -> rec_ok (rgoto s i pc' (rlock s)).
Proof.
  intros Hok Hi Hh Hg Ht.
  assert (El : rlock s = RecursiveLock (rguard (rlock s)) (owner (rlock s)) (depth (rlock s)) (section (rlock s)))
    by (by destruct (rlock s)).
  assert (E : rgoto s i pc' (rlock s) = rgoto s i pc' (RecursiveLock (rguard (rlock s)) (owner (rlock s)) (depth (rlock s)) (section (rlock s))))
    by (by rewrite <- El).
  rewrite E. apply (rec_goto_ok s i pc pc' h); try done. by rewrite <- El.
Qed.

(** A step of the thread that is inside, or that enters. *)
Lemma rec_section_ok s s' i pc pc' h h' cs :
  rec_ok s -> rpcs s !! i = Some pc -> held s !! i = Some h -> guard_view pc = GIn ->
  rpcs s' = <[i := pc']> (rpcs s) -> held s' !! i = Some h' -> (forall j, j <> i -> held s' !! j = held s !! j) ->
  rguard (rlock s') = rguard (rlock s) -> section (rlock s') = cs ->
  guard_view pc' = GIn \/ guard_view pc' = GOut ->
  section (rlock s) = Held i 0 /\ (cs = Held i 0 \/ cs = Free /\ owner (rlock s') = 0 /\ depth (rlock s') = 0) \/
    section (rlock s) = Free /\ cs = Held i 0 ->
  thread_ok (rlock s') i pc' h' -> rec_ok s'.
Proof.
  intros Hok Hi Hh Hv Hpcs Hh' Hother Hg Hcs Hv' Hsec Ht.
  assert (Hvi : map guard_view (rpcs s) !! i = Some GIn) by (rewrite list_lookup_fmap, Hi; cbn; by rewrite Hv).
  pose proof (guard_in_done _ _ i (ro_guard _ Hok) Hvi) as Hdone.
  apply (rec_step_ok s s' i pc pc' h h'); try done.
  - rewrite Hg. by apply guard_in_ok; [apply Hok|..].
  - unfold lock_ok. rewrite Hg, Hcs. apply lookup_lt_Some in Hi. destruct Hsec as [[_ [->|(-> & ? & ?)]]|[_ ->]]; done.
  - intros j Hj. rewrite Hcs. destruct Hsec as [[-> [->|(-> & _)]]|[-> ->]]; split; intros E; try done; by injection E.
  - rewrite Hcs. destruct Hsec as [[-> _]|[_ ->]]; auto.
Qed.

Lemma held_add s i z h : held s !! i = Some h ->
  alter (Z.add z) i (held s) !! i = Some (z + h) /\ forall j, j <> i -> alter (Z.add z) i (held s) !! j = held s !! j.
Proof.
  intros Hh. split; [by rewrite list_lookup_alter_eq, Hh|]. intros j Hj. by apply list_lookup_alter_ne.
Qed.

(** Only the owner finds its own number. *)
Lemma owner_inside s i : rec_ok s -> owner (rlock s) = GetCurrentThreadId i -> section (rlock s) = Held i 0.
Proof.
  intros [_ Hl Ht _ _] E. unfold lock_ok in Hl. unfold GetCurrentThreadId in E.
  destruct (section (rlock s)) as [| |t c] eqn:Es; [lia|lia|]. destruct Hl as (-> & Hlt & _).
  destruct (lookup_lt_is_Some_2 _ _ Hlt) as [pc Hpc]. destruct (Ht t pc Hpc) as (h & _ & [_ _ T3 _]).
  destruct (T3 Es) as [Ho _]. rewrite E in Ho. unfold GetCurrentThreadId in Ho.
  destruct pc; try lia; f_equal; lia.
Qed.

Definition rec_step_result (o : outcome rec_system) : Prop :=
  match o with Done s' => rec_ok s' | Blocked => True | Crash => False end.

Section RecSteps.
Context (s : rec_system) (i : nat) (pc : rec_pc) (h : Z).
Context (Hok : rec_ok s) (Hi : rpcs s !! i = Some pc) (Hh : held s !! i = Some h) (Ht : thread_ok (rlock s) i pc h).

Lemma rec_view : map guard_view (rpcs s) !! i = Some (guard_view pc).
Proof using Hi. by rewrite list_lookup_fmap, Hi. Qed.

Lemma rec_past_done : guard_view pc = GIn -> guard_done (rguard (rlock s)) = true.
Proof using Hok Hi. intros E. eapply (guard_in_done _ _ i (ro_guard _ Hok)). by rewrite rec_view, E. Qed.

Lemma rec_guard_step_ok g : pc = RGuard g -> forall c, rec_step_result (rec_exec s i c).
Proof using Hok Hi Hh Ht.
  intros Hpc c. pose proof rec_view as Hv. subst pc. unfold rec_exec. rewrite Hi. cbn [guard_view] in Hv.
  assert (Hl : Z.of_nat (length (map guard_view (rpcs s))) < 2 ^ 31 - 1) by (rewrite length_map; apply Hok).
  destruct g; [by destruct Ht| | | |].
  - pose proof (guard_increment_ok _ _ i (ro_guard _ Hok) Hl Hv) as Hg. unfold guard_increment in *. cbn [fst snd] in Hg.
    cbn [rec_step_result]. eapply rec_goto_ok; [done|done|done| |done|].
    + cbn [guard_view]. exact Hg.
    + intros [T1 T2 T3 T4]. split; [done|done|done|]. by case_match.
  - pose proof (guard_init_not_done _ _ i (ro_guard _ Hok) Hv) as Hnd. cbn [rec_step_result].
    pose proof (ro_lock _ Hok) as Hlk. unfold lock_ok in Hlk.
    destruct (section (rlock s)) as [| |t c'] eqn:Es; [|by rewrite Hnd in Hlk; destruct Hlk as (_ & _ & ?)..].
    apply (rec_step_ok s _ i (RGuard GInit) (RGuard GIn) h h); cbn [rgoto rlock rpcs held glthread_recursive_lock_init_func rguard section owner depth]; try done.
    + by apply guard_init_ok; [apply Hok|].
    + destruct Ht as [T1 T2 T3 _]. split; [done| |done|done]. rewrite Es in T2. cbn [inside section] in *. rewrite T2. done.
    + intros j _. by rewrite Es.
    + rewrite Es. auto.
  - destruct (guard_spin (rguard (rlock s))) as [pc'| |] eqn:E; cbn [outcome_bind rec_step_result]; [|done|].
    + destruct (guard_spin_ok _ _ i (ro_guard _ Hok) pc' Hv E) as [-> Hg].
      eapply rec_goto_same_ok; try done. by intros [T1 T2 T3 T4].
    + unfold guard_spin in E. by destruct (negb _).
  - cbn [rec_step_result]. eapply rec_goto_same_ok; try done; [|by intros [T1 T2 T3 T4]].
    apply guard_in_ok; auto. apply Hok.
Qed.

(** A thread that is past the guard goes on without a change of the lock. *)
Lemma rec_go_on pc' : guard_view pc = GIn -> guard_view pc' = GIn \/ guard_view pc' = GOut ->
  (thread_ok (rlock s) i pc h -> thread_ok (rlock s) i pc' h) -> rec_ok (rgoto s i pc' (rlock s)).
Proof using Hok Hi Hh.
  intros Hv Hv' Ht'. pose proof rec_view as Hview. rewrite Hv in Hview. eapply rec_goto_same_ok; try done.
  apply guard_in_ok; [apply Hok|done|done].
Qed.

Lemma rec_out_ok c : guard_view pc = GOut -> (forall g, pc <> RGuard g) -> rec_step_result (rec_exec s i c).
Proof using Hok Hi Hh Ht.
  intros Hv Hng. pose proof rec_view as Hview. rewrite Hv in Hview.
  pose proof (guard_test_ok _ _ i (ro_guard _ Hok) Hview) as Hg. unfold rec_exec. rewrite Hi.
  destruct pc as [r|g| | | | | | | |]; try discriminate Hv; [|by destruct (Hng g)|].
  - destruct c; cbn [rec_step_result].
    + eapply rec_goto_same_ok; try done. intros [T1 T2 T3 T4]. unfold guard_test. by destruct (negb _).
    + eapply rec_goto_same_ok; try done; [|by intros [T1 T2 T3 T4]].
      cbn [guard_view]. rewrite list_insert_id by done. apply Hok.
  - cbn [rec_step_result]. destruct (Z.eqb_spec (owner (rlock s)) (GetCurrentThreadId i)) as [E|E]; cbn [negb].
    + pose proof (owner_inside s i Hok E) as Es. eapply rec_goto_same_ok; try done.
      * pose proof (ro_lock _ Hok) as Hl. unfold lock_ok in Hl. rewrite Es in Hl. destruct Hl as (_ & _ & Hd).
        unfold guard_test in Hg. by rewrite Hd in Hg.
      * intros [T1 T2 T3 T4]. split; [done| |done|]; cbn [inside] in *; [done|by apply T2].
    + eapply rec_goto_same_ok; try done; [|by intros [T1 T2 T3 T4]].
      cbn [guard_view]. rewrite list_insert_id by done. apply Hok.
Qed.

Lemma rec_lock_ok c : pc = LTest \/ pc = LEnter \/ pc = LOwn \/ pc = LDepth -> rec_step_result (rec_exec s i c).
Proof using Hok Hi Hh Ht.
  intros Hpc. assert (Hv : guard_view pc = GIn) by (by destruct Hpc as [->|[->|[->| ->]]]).
  pose proof (rec_past_done Hv) as Hd. pose proof rec_go_on as Hgo. unfold rec_exec. rewrite Hi. pose proof Ht as [T1 T2 T3 T4].
  destruct Hpc as [Hpc|[Hpc|[Hpc|Hpc]]]; rewrite Hpc in *; cbn [inside] in T2.
  - cbn [rec_step_result]. destruct (Z.eqb_spec (owner (rlock s)) (GetCurrentThreadId i)) as [E|E]; cbn [negb].
    + pose proof (owner_inside s i Hok E) as Es. apply Hgo; auto. intros _. split; try done.
    + assert (Hn : section (rlock s) <> Held i 0) by (intros Es; by destruct (T3 Es)).
      assert (h = 0) by (destruct (Z.eq_dec h 0); [done|destruct Hn; apply T2; lia]).
      apply Hgo; auto. intros _. by split.
  - pose proof (ro_lock _ Hok) as Hl. unfold lock_ok in Hl. unfold EnterCriticalSection.
    destruct (section (rlock s)) as [| |t n] eqn:Es; [by rewrite Hd in Hl; destruct Hl as (_ & _ & ?)| |].
    + destruct Hl as (Eo & Ed & _). cbn [outcome_bind rec_step_result].
      apply (rec_section_ok s _ i LEnter LOwn h h (Held i 0)); auto; try done. subst h. by split.
    + destruct Hl as (-> & _ & _). rewrite decide_False; [done|]. intros ->. assert (0 < h) by (by apply T2). lia.
  - assert (Es : section (rlock s) = Held i 0) by (by apply T2). destruct (T3 Es) as [_ Ed]. cbn [rec_step_result].
    apply (rec_section_ok s _ i LOwn LDepth h h (Held i 0)); auto; try done.
  - assert (Es : section (rlock s) = Held i 0) by (by apply T2). destruct (T3 Es) as [Eo Ed]. cbn [rec_step_result].
    unfold rec_lock_depth. rewrite Ed. change (2 ^ 32) with 4294967296 in *.
    destruct (Z.eq_dec h 4294967295) as [->|Hne].
    + change (wrapw 32 (4294967295 + 1)) with 0. change (wrapw 32 (0 - 1)) with 4294967295. change (0 =? 0) with true. cbv iota.
      apply (rec_section_ok s _ i LDepth (ROut EAGAIN) 4294967295 4294967295 (Held i 0)); auto; try done.
    + rewrite wrapw_small by (change (2 ^ 32) with 4294967296; lia). rewrite (proj2 (Z.eqb_neq _ _)) by lia.
      destruct (held_add s i 1 h Hh) as [E1 E2].
      apply (rec_section_ok s _ i LDepth (ROut 0) h (1 + h) (Held i 0)); auto; try done. split; cbn; [lia|split; [done|lia]|split; [done|lia]|done].
Qed.

Lemma rec_unlock_ok c : pc = UDepth \/ pc = UOwn \/ pc = ULeave -> rec_step_result (rec_exec s i c).
Proof using Hok Hi Hh Ht.
  intros Hpc. assert (Hv : guard_view pc = GIn) by (by destruct Hpc as [->|[->| ->]]).
  unfold rec_exec. rewrite Hi. pose proof Ht as [T1 T2 T3 T4].
  assert (Es : section (rlock s) = Held i 0) by (apply T2; by destruct Hpc as [->|[->| ->]]).
  destruct (T3 Es) as [Eo Ed]. destruct Hpc as [Hpc|[Hpc|Hpc]]; rewrite Hpc in *; cbn [rec_step_result].
  - unfold rec_unlock_depth. rewrite Ed, (proj2 (Z.eqb_neq _ _)) by lia. destruct (held_add s i (-1) h Hh) as [E1 E2].
    apply (rec_section_ok s _ i UDepth (if h - 1 =? 0 then UOwn else ROut 0) h (-1 + h) (Held i 0)); auto; try done.
    + destruct (h - 1 =? 0); auto.
    + destruct (Z.eqb_spec (h - 1) 0); split; cbn [inside section owner depth rlock add_held rgoto]; try done; try lia;
        split; try done; lia.
  - apply (rec_section_ok s _ i UOwn ULeave h h (Held i 0)); auto; try done.
  - unfold LeaveCriticalSection. rewrite Es, decide_True by done. cbn [outcome_bind rec_step_result].
    apply (rec_section_ok s _ i ULeave (ROut 0) h h Free); auto; try done.
    + left. split; [done|right]. split; [done|]. cbn. by rewrite Eo, Ed.
    + subst h. split; cbn; try done.
Qed.
End RecSteps.

Lemma rec_exec_ok s i c : rec_ok s -> rec_step_result (rec_exec s i c).
Proof.
  intros Hok. destruct (rpcs s !! i) as [pc|] eqn:Hi; [|unfold rec_exec; by rewrite Hi].
  destruct (ro_threads _ Hok i pc Hi) as (h & Hh & Ht).
  destruct pc; first [by eapply rec_guard_step_ok|by eapply rec_out_ok|eapply rec_lock_ok; by eauto|eapply rec_unlock_ok; by eauto].
Qed.

Lemma rec_reachable_ok n s : Z.of_nat n < 2 ^ 31 - 1 -> rec_reachable n s -> rec_ok s.
Proof.
  intros Hn. induction 1 as [|s i c s' _ IH E]; [by apply rec_start_ok|].
  pose proof (rec_exec_ok s i c IH) as H. by rewrite E in H.
Qed.

(** A thread that has the lock is its owner, whatever it does. *)
Lemma held_inside s i h : rec_ok s -> held s !! i = Some h -> 0 < h -> section (rlock s) = Held i 0 /\ depth (rlock s) = h /\
  (rpcs s !! i <> Some LOwn -> rpcs s !! i <> Some ULeave -> owner (rlock s) = GetCurrentThreadId i).
Proof.
  intros Hok Hh Hpos. destruct (ro_held _ Hok i) as [pc Hi]; [by eexists|].
  destruct (ro_threads _ Hok i pc Hi) as (h' & E & [T1 T2 T3 T4]). rewrite Hh in E. injection E as <-.
  assert (Es : section (rlock s) = Held i 0) by (apply T2; by destruct pc). destruct (T3 Es) as [Eo Ed].
  split_and!; [done|done|]. intros H1 H2. destruct pc; congruence.
Qed.

(** C33. The recursive lock, with fewer than [2 ^ 31 - 1] threads that call it in any
    order: it is initialized before it is used and no thread enters or leaves a critical
    section it should not; at most one thread has the lock, and the depth is how often
    it has it; a call to unlock succeeds if the thread has the lock and returns EPERM,
    without a change, if it does not. *)
Theorem recursive_lock_safe (n : nat) (s : rec_system) (Hn : Z.of_nat n < 2 ^ 31 - 1) (Hs : rec_reachable n s) :
  (forall i c, rec_exec s i c <> Crash) /\
  forall i h, held s !! i = Some h ->
    (0 < h -> depth (rlock s) = h /\ forall j h', held s !! j = Some h' -> 0 < h' -> j = i) /\
    (rpcs s !! i = Some UTest -> forall c,
      rec_exec s i c = Done (rgoto s i (if 0 <? h then UDepth else ROut EPERM) (rlock s))) /\
    (rpcs s !! i = Some UDepth -> 0 < depth (rlock s)).
Proof.
  pose proof (rec_reachable_ok n s Hn Hs) as Hok. split.
  { intros i c E. pose proof (rec_exec_ok s i c Hok) as H. by rewrite E in H. }
  intros i h Hh. split_and!.
  - intros Hpos. destruct (held_inside s i h Hok Hh Hpos) as (Es & Ed & _). split; [done|].
    intros j h' Hh' Hpos'. destruct (held_inside s j h' Hok Hh' Hpos') as (Es' & _). rewrite Es in Es'. by injection Es'.
  - intros Hi c. unfold rec_exec. rewrite Hi. destruct (ro_threads _ Hok i UTest Hi) as (h' & E & [T1 T2 T3 _]).
    rewrite Hh in E. injection E as <-. cbn [inside] in T2. destruct (Z.ltb_spec 0 h) as [Hpos|Hneg].
    + destruct (T3 (proj1 T2 Hpos)) as [-> _]. by rewrite Z.eqb_refl.
    + destruct (Z.eqb_spec (owner (rlock s)) (GetCurrentThreadId i)) as [Eo|Eo]; [|done].
      apply owner_inside in Eo; [|done]. apply T2 in Eo. lia.
  - intros Hi. destruct (ro_threads _ Hok i UDepth Hi) as (h' & E & [T1 T2 T3 T4]).
    destruct (T3 (proj1 T2 I)) as [_ ->]. done.
Qed.

(** ** Once-only execution *)

(** How many threads have to undo their increment. *)
Definition undoing (l : list once_pc) : Z := Z.of_nat (length (filter (fun pc => pc = ODecrement) l)).

#[export] Instance undoing_proper : Proper ((≡ₚ) ==> (=)) undoing.
Proof. intros l l' Hl. unfold undoing. by rewrite Hl. Qed.

Lemma undoing_cons pc l : undoing (pc :: l) = (if decide (pc = ODecrement) then 1 else 0) + undoing l.
Proof. unfold undoing. rewrite filter_cons. case_decide; cbn [length]; lia. Qed.

Lemma undoing_insert l i pc pc' : l !! i = Some pc ->
  undoing (<[i := pc']> l) = undoing l - (if decide (pc = ODecrement) then 1 else 0) + (if decide (pc' = ODecrement) then 1 else 0).
Proof. intros Hi. destruct (list_update_perm l i pc Hi) as (rest & P & ->). rewrite P, !undoing_cons. lia. Qed.

Lemma undoing_bound l : 0 <= undoing l <= Z.of_nat (length l).
Proof. unfold undoing. pose proof (length_filter (fun pc => pc = ODecrement) l). lia. Qed.

(** What the place [pc] of the first thread [i] says of the control block. *)
Definition first_ok (i : nat) (pc : once_pc) (s : once_system) : Prop :=
  let at_state z cs n := inited (control s) = z /\ once_lock (control s) = cs /\ calls s = n in
  match pc with
  | OInitialize => at_state (-1) Uninitialized O
  | OEnter => at_state (-1) Free O
  | OSet0 => at_state (-1) (Held i 0) O
  | OCall => at_state 0 (Held i 0) O
  | OSet1 => at_state 0 (Held i 0) 1%nat
  | OLeave => at_state 1 (Held i 0) 1%nat
  | OReturned => inited (control s) = 1 /\ calls s = 1%nat /\
      (once_lock (control s) = Free \/ exists j, once_lock (control s) = Held j 0 /\ opcs s !! j = Some OLeave2)
  | _ => False
  end.

(** The same for another thread [i]; [f] is the first one. *)
Definition other_ok (f : option nat) (i : nat) (pc : once_pc) (s : once_system) : Prop :=
  match pc with
  | OTest | OIncrement => True
  | ODecrement | OSpin => f <> None
  | OTest2 | OEnter2 => f <> None /\ 0 <= inited (control s)
  | OLeave2 => f <> None /\ inited (control s) = 1 /\ once_lock (control s) = Held i 0
  | OTest3 | OReturned => f <> None /\ inited (control s) = 1
  | _ => False
  end.

Record once_ok (s : once_system) (f : option nat) : Prop := OnceOk {
  oo_started : started (control s) = undoing (opcs s) + match f with None => -1 | Some _ => 0 end;
  oo_few : Z.of_nat (length (opcs s)) < 2 ^ 31 - 1;
  oo_first : match f with
    | None => inited (control s) = -1 /\ once_lock (control s) = Uninitialized /\ calls s = O
    | Some i => exists pc, opcs s !! i = Some pc /\ first_ok i pc s
    end;
  oo_others : forall j pc, opcs s !! j = Some pc -> f <> Some j -> other_ok f j pc s
}.

Lemma once_start_ok n : Z.of_nat n < 2 ^ 31 - 1 -> once_ok (once_start n) None.
Proof.
  intros Hn. split; cbn [once_start control opcs calls gl_once_initializer started].
  - replace (undoing _) with 0; [done|]. clear Hn. induction n as [|n IH]; [done|]. cbn [replicate]. rewrite undoing_cons. by rewrite <- IH.
  - by rewrite length_replicate.
  - done.
  - intros j pc Hj _. by apply lookup_replicate in Hj as [-> _].
Qed.

(** A step of thread [i], from [pc] to [pc']. *)
Lemma once_step_ok s s' f f' i pc pc' :
  once_ok s f -> opcs s !! i = Some pc -> opcs s' = <[i := pc']> (opcs s) -> f' = f \/ f = None ->
  started (control s') = undoing (opcs s') + match f' with None => -1 | Some _ => 0 end ->
  match f' with
  | None => inited (control s') = -1 /\ once_lock (control s') = Uninitialized /\ calls s' = O
  | Some j => exists pcj, opcs s' !! j = Some pcj /\ first_ok j pcj s'
  end ->
  (f' <> Some i -> other_ok f' i pc' s') ->
  (forall j pcj, j <> i -> f <> Some j -> opcs s !! j = Some pcj -> other_ok f j pcj s -> other_ok f' j pcj s') -> once_ok s' f'.
Proof.
  intros [H1 H2 H3 H4] Hi Hpcs Hf Hst Hfirst Hti Hothers. split; [done| |done|].
  - by rewrite Hpcs, length_insert.
  - rewrite Hpcs. intros j pcj Hj Hfj. destruct (decide (j = i)) as [->|Hne].
    + rewrite list_lookup_insert_eq in Hj by (by eapply lookup_lt_Some). injection Hj as <-. by apply Hti.
    + rewrite list_lookup_insert_ne in Hj by done. assert (f <> Some j) by (destruct Hf as [->| ->]; [done|done]).
      apply Hothers; auto.
Qed.

Definition once_result (f : option nat) (o : outcome once_system) : Prop :=
  match o with Done s' => exists f', once_ok s' f' | Blocked => True | Crash => False end.

Section OnceSteps.
Context (s : once_system) (f : option nat) (i : nat) (pc : once_pc).
Context (Hok : once_ok s f) (Hi : opcs s !! i = Some pc).

Lemma once_lookup pc' : <[i := pc']> (opcs s) !! i = Some pc'.
Proof using Hi. apply list_lookup_insert_eq. by eapply lookup_lt_Some. Qed.

(** A step of another thread that does not touch [inited], the lock and [calls]. *)
Lemma once_other_goto pc' z : f <> Some i -> pc <> OLeave2 -> 
  z = undoing (<[i := pc']> (opcs s)) + match f with None => -1 | Some _ => 0 end ->
  (other_ok f i pc s -> other_ok f i pc' s) ->
  once_ok (ogoto s i pc' (Once (inited (control s)) z (once_lock (control s)))) f.
Proof using Hok Hi.
  intros Hf Hpc Hz Ht. apply (once_step_ok s _ f f i pc pc'); cbn [ogoto opcs control inited started once_lock calls]; auto.
  - pose proof (oo_first _ _ Hok) as H. destruct f as [j|]; [|done]. destruct H as (pcj & Hj & Hfirst).
    exists pcj. rewrite list_lookup_insert_ne by congruence. split; [done|]. destruct pcj; try done. destruct Hfirst as (? & ? & Hl).
    cbn [first_ok ogoto opcs control inited once_lock calls]. split_and!; [done|done|]. destruct Hl as [Hl|(j' & Hl & Hj')]; [by left|right].
    exists j'. split; [done|]. rewrite list_lookup_insert_ne; [done|]. intros ->. congruence.
  - intros _. assert (Ho : other_ok f i pc' s) by (apply Ht, (oo_others _ _ Hok); done). by destruct pc'.
Qed.

Lemma once_goto_same pc' : ogoto s i pc' (control s) = ogoto s i pc' (Once (inited (control s)) (started (control s)) (once_lock (control s))).
Proof using Type. by destruct (control s). Qed.

(** A step of another thread that keeps the whole control block. *)
Lemma once_other_same pc' : f <> Some i -> pc <> OLeave2 -> pc <> ODecrement -> pc' <> ODecrement ->
  (other_ok f i pc s -> other_ok f i pc' s) -> once_ok (ogoto s i pc' (control s)) f.
Proof using Hok Hi.
  intros Hf H1 H2 H3 Ht. rewrite once_goto_same. apply once_other_goto; auto.
  rewrite (undoing_insert _ i pc) by done. rewrite !decide_False by done. rewrite (oo_started _ _ Hok). lia.
Qed.

Lemma inited_late : 0 < inited (control s) -> f <> None /\ inited (control s) = 1.
Proof using Hok.
  intros Hpos. pose proof (oo_first _ _ Hok) as Hfirst. destruct f as [j|]; [split; [done|]|lia].
  destruct Hfirst as (pcj & _ & Hfirst). destruct pcj; cbn in Hfirst; try done; intuition lia.
Qed.

(** The thread that gets the lock in its first state. *)
Lemma once_becomes_first : f = None -> pc = OIncrement -> once_result f (once_exec s i).
Proof using Hok Hi.
  intros Hf Hpc. destruct Hok as [H1 H2 H3 _]. rewrite Hf in H1, H3. destruct H3 as (E1 & E2 & E3).
  assert (Hu : undoing (opcs s) = 0).
  { unfold undoing. destruct (filter (fun pc => pc = ODecrement) (opcs s)) as [|q l] eqn:E; [done|].
    assert (Hq : q ∈ filter (fun pc => pc = ODecrement) (opcs s)) by (rewrite E; apply list_elem_of_here).
    apply list_elem_of_filter in Hq as [-> Hq]. apply list_elem_of_lookup in Hq as [j Hj].
    pose proof (oo_others _ _ Hok j _ Hj) as Ho. rewrite Hf in Ho. by destruct Ho. }
  unfold once_exec. rewrite Hi, Hpc. cbn [once_result]. unfold InterlockedIncrement. rewrite H1, Hu. cbn [Z.add Z.eqb].
  exists (Some i). apply (once_step_ok s _ f (Some i) i pc OInitialize); cbn [ogoto opcs control inited started once_lock calls]; auto.
  - rewrite (undoing_insert _ i pc) by done. rewrite Hpc, !decide_False by done. rewrite Hu. done.
  - exists OInitialize. by rewrite once_lookup.
  - done.
  - intros j pcj _ _ _. rewrite Hf. destruct pcj; try done; cbn; intuition.
Qed.

(** Another thread enters the critical section, when the first one has left it. *)
Lemma once_enter_ok : f <> Some i -> pc = OEnter2 ->
  once_result f (outcome_bind (EnterCriticalSection i (once_lock (control s))) (fun cs =>
    Done (ogoto s i OLeave2 (Once (inited (control s)) (started (control s)) cs)))).
Proof using Hok Hi.
  intros Hf Hpc. pose proof (oo_others _ _ Hok i pc Hi Hf) as Ht. rewrite Hpc in Ht. destruct Ht as [Hf' Hin].
  pose proof (oo_first _ _ Hok) as Hfirst. destruct f as [j|]; [|done]. destruct Hfirst as (pcj & Hj & Hfirst).
  assert (Hlock : (exists j', j' <> i /\ once_lock (control s) = Held j' 0) \/ once_lock (control s) = Free /\ pcj = OReturned /\ inited (control s) = 1 /\ calls s = 1%nat).
  { destruct pcj; cbn in Hfirst; try done; destruct Hfirst as (H1 & H2 & H3); try lia; try (left; exists j; split; [congruence|done]).
    destruct H3 as [H3|(j' & H3 & H4)]; [by right|left]. exists j'. split; [|done]. intros ->. congruence. }
  destruct Hlock as [(j' & Hne & ->)|(Hfree & -> & Hin1 & Hcalls)]; cbn [EnterCriticalSection]; [by rewrite decide_False|].
  rewrite Hfree. cbn [EnterCriticalSection outcome_bind once_result]. exists (Some j).
  apply (once_step_ok s _ (Some j) (Some j) i pc OLeave2); cbn [ogoto opcs control inited started once_lock calls]; auto.
  - rewrite (undoing_insert _ i pc) by done. rewrite Hpc, !decide_False by done. rewrite (oo_started _ _ Hok). lia.
  - exists OReturned. rewrite list_lookup_insert_ne by congruence. split; [done|]. cbn. split_and!; [done|done|right].
    exists i. by rewrite once_lookup.
  - by cbn.
  - intros j' pcj' _ _ _ Ho. destruct pcj'; cbn in *; try done. destruct Ho as (_ & _ & Ho). congruence.
Qed.

Lemma once_leave_ok : f <> Some i -> pc = OLeave2 ->
  once_result f (outcome_bind (LeaveCriticalSection i (once_lock (control s))) (fun cs =>
    Done (ogoto s i OTest3 (Once (inited (control s)) (started (control s)) cs)))).
Proof using Hok Hi.
  intros Hf Hpc. pose proof (oo_others _ _ Hok i pc Hi Hf) as Ht. rewrite Hpc in Ht. destruct Ht as (Hf' & Hin & Hl).
  pose proof (oo_first _ _ Hok) as Hfirst. destruct f as [j|]; [|done]. destruct Hfirst as (pcj & Hj & Hfirst).
  assert (Hret : pcj = OReturned /\ calls s = 1%nat).
  { destruct pcj; cbn in Hfirst; try done; destruct Hfirst as (H1 & H2 & H3); try done; congruence. }
  destruct Hret as [-> Hcalls]. rewrite Hl. cbn [LeaveCriticalSection]. rewrite decide_True by done. cbn [outcome_bind once_result]. exists (Some j).
  apply (once_step_ok s _ (Some j) (Some j) i pc OTest3); cbn [ogoto opcs control inited started once_lock calls]; auto.
  - rewrite (undoing_insert _ i pc) by done. rewrite Hpc, !decide_False by done. rewrite (oo_started _ _ Hok). lia.
  - exists OReturned. rewrite list_lookup_insert_ne by congruence. split; [done|]. cbn. by auto.
  - by cbn.
  - intros j' pcj' Hne _ _ Ho. destruct pcj'; cbn in *; try done. destruct Ho as (_ & _ & Ho). congruence.
Qed.

Lemma once_other_ok : f <> Some i -> once_result f (once_exec s i).
Proof using Hok Hi.
  intros Hf. pose proof (oo_others _ _ Hok i pc Hi Hf) as Ht. pose proof (oo_started _ _ Hok) as Hst.
  pose proof (undoing_bound (opcs s)) as Hu. pose proof (oo_few _ _ Hok) as Hn.
  change (2 ^ 31 - 1) with 2147483647 in Hn.
  destruct (decide (f = None /\ pc = OIncrement)) as [[E1 E2]|Hnf]; [by apply once_becomes_first|].
  pose proof inited_late as Hlate. pose proof (once_enter_ok Hf) as Henter. pose proof (once_leave_ok Hf) as Hleave. pose proof once_other_goto as Hgo. pose proof once_other_same as Hsame.
  pose proof (undoing_insert (opcs s) i pc) as Hins. unfold once_exec. rewrite Hi.
  destruct pc eqn:Epc; try done; cbn [once_result].
  - exists f. apply Hsame; try done; [by destruct (_ <=? _)|]. intros _. destruct (Z.leb_spec (inited (control s)) 0); [done|by apply Hlate].
  - exists f. destruct f as [j|] eqn:Ef; [|by destruct Hnf]. unfold InterlockedIncrement.
    change (2 ^ 31 - 1) with 2147483647. rewrite (proj2 (Z.eqb_neq (started (control s)) _)) by lia. rewrite (proj2 (Z.eqb_neq _ 0)) by lia.
    apply Hgo; try done. rewrite Hins by done. rewrite decide_False, decide_True by done. lia.
  - exists f. destruct f as [j|] eqn:Ef; [|by destruct Ht]. unfold InterlockedDecrement.
    change (- 2 ^ 31) with (-2147483648). rewrite (proj2 (Z.eqb_neq (started (control s)) _)) by lia.
    apply Hgo; try done. rewrite Hins by done. rewrite decide_True, decide_False by done. lia.
  - destruct (Z.ltb_spec (inited (control s)) 0); cbn [once_result]; [done|]. exists f. by apply Hsame; try done.
  - exists f. apply Hsame; try done; [by destruct (_ <=? _)|]. intros [H1 H2].
    destruct (Z.leb_spec (inited (control s)) 0); [done|by apply Hlate].
  - by apply Henter.
  - by apply Hleave.
  - destruct Ht as [Hf' Hin]. rewrite Hin. cbn [Z.ltb Z.compare negb once_result]. exists f. by apply Hsame; try done.
Qed.
(** A step of the first thread. *)
Lemma once_first_step s' pc' : f = Some i -> pc <> ODecrement -> pc' <> ODecrement -> opcs s' = <[i := pc']> (opcs s) ->
  started (control s') = started (control s) -> first_ok i pc' s' -> inited (control s) <= inited (control s') <= 1 ->
  (forall j, j <> i -> once_lock (control s) <> Held j 0) -> once_ok s' f.
Proof using Hok Hi.
  intros Hf H1 H2 Hpcs Hst Hfirst Hin Hl. pose proof Hok as Hok'. rewrite Hf in *.
  apply (once_step_ok s s' (Some i) (Some i) i pc pc'); auto; try done.
  - rewrite Hst, Hpcs, (undoing_insert _ i pc) by done. rewrite !decide_False by done. rewrite (oo_started _ _ Hok'). lia.
  - exists pc'. rewrite Hpcs. by rewrite once_lookup.
  - intros j pcj Hne _ _ Ho. destruct pcj; cbn in *; try done; intuition try lia. by destruct (Hl j Hne).
Qed.

Lemma once_first_ok : f = Some i -> once_result f (once_exec s i).
Proof using Hok Hi.
  intros Hf. pose proof (oo_first _ _ Hok) as Hfirst. rewrite Hf in Hfirst. destruct Hfirst as (pcf & E & Hfirst).
  rewrite Hi in E. injection E as <-. pose proof (fun s' pc' => once_first_step s' pc' Hf) as Hstep. unfold once_exec. rewrite Hi.
  destruct pc; try done; destruct Hfirst as (H1 & H2 & H3); cbn [once_result]; rewrite ?H2; unfold EnterCriticalSection, LeaveCriticalSection;
    rewrite ?decide_True by done; cbn [outcome_bind once_result]; try exists f.
  - apply (Hstep _ OEnter); cbn; auto; try done; try lia. rewrite H2. done.
  - apply (Hstep _ OSet0); cbn; auto; try done; try lia. by rewrite H2.
  - apply (Hstep _ OCall); cbn; auto; try done; try lia. rewrite H2. intros j Hne [= <-]. done.
  - apply (Hstep _ OSet1); cbn; auto; try done; try lia.
    rewrite H2. intros j Hne [= <-]. done.
  - apply (Hstep _ OLeave); cbn; auto; try done; try lia. rewrite H2. intros j Hne [= <-]. done.
  - apply (Hstep _ OReturned); cbn; auto; try done; try lia. rewrite H2. intros j Hne [= <-]. done.
Qed.
End OnceSteps.

Lemma once_exec_ok s f i : once_ok s f -> once_result f (once_exec s i).
Proof.
  intros Hok. destruct (opcs s !! i) as [pc|] eqn:Hi; [|unfold once_exec; by rewrite Hi].
  destruct (decide (f = Some i)) as [E|E]; [by eapply once_first_ok|by eapply once_other_ok].
Qed.

Lemma once_run_ok n k s : Z.of_nat n < 2 ^ 31 - 1 -> once_run n k s -> exists f, once_ok s f.
Proof.
  intros Hn. induction 1 as [|k s i s' _ (f & IH) E]; [exists None; by apply once_start_ok|].
  pose proof (once_exec_ok s f i IH) as H. by rewrite E in H.
Qed.

(** How many steps a thread has left. *)
Definition steps_left (pc : once_pc) : nat :=
  match pc with
  | OTest => 8 | OIncrement => 7
  | OInitialize | ODecrement => 6 | OEnter | OSpin => 5 | OSet0 | OTest2 => 4 | OCall | OEnter2 => 3
  | OSet1 | OLeave2 => 2 | OLeave | OTest3 => 1 | OReturned => 0
  end.

Definition all_steps_left (l : list once_pc) : nat := sum_list (map steps_left l).

#[export] Instance all_steps_left_proper : Proper ((≡ₚ) ==> (=)) all_steps_left.
Proof. unfold all_steps_left. induction 1; cbn in *; lia. Qed.

Lemma all_steps_left_cons pc l : all_steps_left (pc :: l) = (steps_left pc + all_steps_left l)%nat.
Proof. done. Qed.

Lemma once_exec_shorter s i s' : once_exec s i = Done s' -> (all_steps_left (opcs s') < all_steps_left (opcs s))%nat.
Proof.
  unfold once_exec. destruct (opcs s !! i) as [pc|] eqn:Hi; [|done].
  destruct (list_update_perm (opcs s) i pc Hi) as (rest & P & P').
  assert (Hlt : forall pc', (steps_left pc' < steps_left pc)%nat -> (all_steps_left (<[i := pc']> (opcs s)) < all_steps_left (opcs s))%nat).
  { intros pc' H. rewrite P', P, !all_steps_left_cons. lia. }
  destruct pc; try done; unfold EnterCriticalSection, LeaveCriticalSection, outcome_bind; repeat case_match; try done;
    intros [= <-]; apply Hlt; cbn; lia.
Qed.

Lemma once_run_length n k s : once_run n k s -> (k + all_steps_left (opcs s) <= 8 * n)%nat.
Proof.
  induction 1 as [|k s i s' _ IH E]; [|pose proof (once_exec_shorter s i s' E); lia].
  cbn [once_start opcs]. induction n as [|n IH]; [done|]. cbn [replicate]. rewrite all_steps_left_cons. cbn [steps_left]. lia.
Qed.

(** While a thread has not returned, one can go on: the first one, the one in the
    critical section, or any other. *)
Lemma once_progress s f i pc : once_ok s f -> opcs s !! i = Some pc -> pc <> OReturned -> exists j s', once_exec s j = Done s'.
Proof.
  intros Hok Hi Hpc. pose proof (once_exec_ok s f i Hok) as Hi'.
  destruct (once_exec s i) as [s'| |] eqn:E; [by exists i, s'| |done].
  assert (Hnb : forall j, once_exec s j <> Blocked -> exists j s', once_exec s j = Done s').
  { intros j Hj. pose proof (once_exec_ok s f j Hok) as H. destruct (once_exec s j) as [s'| |] eqn:Ej; [by exists j, s'|done|done]. }
  pose proof (oo_first _ _ Hok) as Hfirst.
  destruct (decide (f = Some i)) as [->|Hf].
  - destruct Hfirst as (pcf & Ef & Hfirst). rewrite Hi in Ef. injection Ef as <-. unfold once_exec in E. rewrite Hi in E.
    destruct pc; try done; destruct Hfirst as (H1 & H2 & H3); rewrite H2 in E; cbn in E; by rewrite ?decide_True in E.
  - pose proof (oo_others _ _ Hok i pc Hi Hf) as Ht. destruct f as [j|].
    2: { unfold once_exec in E. rewrite Hi in E. by destruct pc; cbn in Ht; intuition. }
    destruct Hfirst as (pcj & Hj & Hfirst). destruct (decide (pcj = OReturned)) as [->|Hne].
    + destruct Hfirst as (H1 & H2 & [H3|(j' & H3 & H4)]).
      * unfold once_exec in E. rewrite Hi, H1, H3 in E. by destruct pc; cbn in *; intuition.
      * apply (Hnb j'). unfold once_exec. rewrite H4, H3. cbn. by rewrite decide_True.
    + apply (Hnb j). unfold once_exec. rewrite Hj. destruct pcj; try done; destruct Hfirst as (_ & H2 & _); rewrite H2; cbn; by rewrite ?decide_True.
Qed.

Lemma once_returned s f i : once_ok s f -> opcs s !! i = Some OReturned -> calls s = 1%nat /\ inited (control s) = 1.
Proof.
  intros Hok Hi. pose proof (oo_first _ _ Hok) as Hfirst. destruct (decide (f = Some i)) as [->|Hf].
  - destruct Hfirst as (pc & E & Hfirst). rewrite Hi in E. injection E as <-. destruct Hfirst as (H1 & H2 & _). done.
  - destruct (oo_others _ _ Hok i _ Hi Hf) as [Hf' Hin]. split; [|done]. destruct f as [j|]; [|done].
    destruct Hfirst as (pc & _ & Hfirst). destruct pc; try done; destruct Hfirst as (H1 & H2 & H3); try done; congruence.
Qed.

(** C32. Once-only execution, with fewer than [2 ^ 31 - 1] threads that take turns in any
    order: no thread aborts or uses the critical section before it is initialized,
    [initfunction] is called at most once, and it was called, and has returned, when
    any thread returns. *)
Theorem once_exactly_once (n k : nat) (s : once_system) (Hn : Z.of_nat n < 2 ^ 31 - 1) (Hs : once_run n k s) :
  (forall i, once_exec s i <> Crash) /\ (calls s <= 1)%nat /\
  forall i, opcs s !! i = Some OReturned -> calls s = 1%nat /\ forall j, opcs s !! j <> Some OCall.
Proof.
  destruct (once_run_ok n k s Hn Hs) as (f & Hok). pose proof (oo_first _ _ Hok) as Hfirst. split; [|split].
  - intros i E. pose proof (once_exec_ok s f i Hok) as H. by rewrite E in H.
  - destruct f as [j|]; [|intuition lia]. destruct Hfirst as (pc & _ & Hfirst).
    destruct pc; try done; destruct Hfirst as (_ & H2 & H3); try (by rewrite H3; lia). by rewrite H2.
  - intros i Hi. destruct (once_returned s f i Hok Hi) as (H1 & H2). split; [done|].
    intros j Hj. destruct (decide (f = Some j)) as [->|Hf].
    + destruct Hfirst as (pc & E & Hfirst). rewrite Hj in E. injection E as <-. destruct Hfirst. lia.
    + by pose proof (oo_others _ _ Hok j _ Hj Hf).
Qed.

(** Once-only execution ends: [n] threads take at most [8 n] steps, apart from the
    waiting, and as long as one of them has not returned one can go on. *)
Theorem once_returns (n k : nat) (s : once_system) (Hn : Z.of_nat n < 2 ^ 31 - 1) (Hs : once_run n k s) :
  (k <= 8 * n)%nat /\
  forall i pc, opcs s !! i = Some pc -> pc <> OReturned -> exists j s', once_exec s j = Done s'.
Proof.
  split; [pose proof (once_run_length n k s Hs); lia|].
  destruct (once_run_ok n k s Hn Hs) as (f & Hok). intros i pc Hi Hpc. by eapply once_progress.
Qed.

(** ** Runs of a few threads *)

(** The state after the threads of [l] took their turns. *)
Fixpoint once_turns (l : list nat) (s : once_system) : option once_system :=
  match l with
  | [] => Some s
  | i :: l => match once_exec s i with Done s => once_turns l s | _ => None end
  end.

Lemma once_turns_run n l k s s' : once_run n k s -> once_turns l s = Some s' -> once_run n (length l + k) s'.
Proof.
  revert k s. induction l as [|i l IH]; intros k s Hs; cbn [once_turns length]; [by intros [= <-]|].
  destruct (once_exec s i) as [s1| |] eqn:E; [|done|done]. intros H. replace (S (length l) + k)%nat with (length l + S k)%nat by lia.
  apply (IH (S k) s1); [by apply (once_run_step n k s i s1)|done].
Qed.

Fixpoint rec_turns (l : list (nat * rec_call)) (s : rec_system) : option rec_system :=
  match l with
  | [] => Some s
  | (i, c) :: l => match rec_exec s i c with Done s => rec_turns l s | _ => None end
  end.

Lemma rec_turns_reachable n l s s' : rec_reachable n s -> rec_turns l s = Some s' -> rec_reachable n s'.
Proof.
  revert s. induction l as [|[i c] l IH]; intros s Hs; cbn [rec_turns]; [by intros [= <-]|].
  destruct (rec_exec s i c) as [s1| |] eqn:E; [|done|done]. apply IH. by apply (rec_reachable_step n s i c s1).
Qed.

(** Thread 0 locks twice; thread 1, which spun, waits for the critical section and fails
    to unlock. *)
Definition recursive_turns : list (nat * rec_call) :=
  [(0, CallLock); (1, CallLock); (0, CallLock); (1, CallLock); (0, CallLock)]%nat ++
  repeat (0%nat, CallLock) 12 ++ repeat (1%nat, CallLock) 3 ++ [(2, CallUnlock)]%nat.

Example recursive_run :
  option_map (fun s => (held s, depth (rlock s), section (rlock s), rpcs s)) (rec_turns recursive_turns (rec_start 3)) =
  Some ([2; 0; 0], 2, Held 0 0, [LDepth; LEnter; UTest]).
Proof. vm_compute. reflexivity. Qed.

Lemma recursive_lock_safe_witness : exists s,
  rec_turns recursive_turns (rec_start 3) = Some s /\ held s !! 0%nat = Some 2 /\ depth (rlock s) = 2 /\
  rec_exec s 2 CallLock = Done (rgoto s 2 (ROut EPERM) (rlock s)).
Proof.
  destruct (rec_turns recursive_turns (rec_start 3)) as [s|] eqn:E; [|discriminate (eq_trans (eq_sym E) ltac:(vm_compute; reflexivity))].
  exists s. pose proof (rec_turns_reachable 3 _ _ s (rec_reachable_start 3) E) as Hs.
  pose proof (recursive_lock_safe 3 s ltac:(vm_compute; reflexivity) Hs) as [_ H].
  assert (Hh : held s = [2; 0; 0]) by (apply (inj Some); rewrite <- (f_equal (option_map held) E : _ = Some (held s)); vm_compute; reflexivity).
  assert (Hp : rpcs s !! 2%nat = Some UTest).
  { assert (Hp : rpcs s = [LDepth; LEnter; UTest])
      by (apply (inj Some); rewrite <- (f_equal (option_map rpcs) E : _ = Some (rpcs s)); vm_compute; reflexivity). by rewrite Hp. }
  split; [done|]. assert (Hh0 : held s !! 0%nat = Some 2) by (by rewrite Hh). split; [done|].
  split; [by apply (H 0%nat 2 Hh0)|]. by apply (H 2%nat 0); [rewrite Hh|].
Defined.

(** Thread 0 is the first one and is about to call; 1 and 2 saw that it entered, and 3
    is about to undo its increment. *)
Definition once_turn_list : list nat := [0; 1; 2; 3; 0; 1; 2; 0; 0; 1; 2; 0; 1; 2; 3]%nat.

Definition once_middle : once_system := OnceSystem (Once 0 1 (Held 0 0)) [OCall; OTest2; OTest2; ODecrement] 0.
Definition once_end : once_system := OnceSystem (Once 1 0 Free) [OReturned; OReturned; OReturned; OReturned] 1.

Lemma once_exactly_once_witness : once_run 4 29 once_end /\ calls once_end = 1%nat /\ forall i, once_exec once_middle i <> Crash.
Proof.
  assert (Hm : once_run 4 15 once_middle) by (exact (once_turns_run 4 once_turn_list 0 _ _ (once_run_start 4) ltac:(vm_compute; reflexivity))).
  assert (He : once_run 4 29 once_end)
    by (exact (once_turns_run 4 [0; 1; 2; 0; 0; 1; 1; 2; 2; 1; 2; 3; 3; 3]%nat 15 _ _ Hm ltac:(vm_compute; reflexivity))).
  split; [exact He|]. split.
  - apply (once_exactly_once 4 29 once_end ltac:(vm_compute; reflexivity) He) with (i := 3%nat). vm_compute. reflexivity.
  - apply (once_exactly_once 4 15 once_middle ltac:(vm_compute; reflexivity) Hm).
Defined.

(** Thread 1 has not returned. *)
Lemma once_returns_witness : opcs once_middle !! 1%nat = Some OTest2 /\ exists j s', once_exec once_middle j = Done s'.
Proof.
  assert (Hm : once_run 4 15 once_middle) by (exact (once_turns_run 4 once_turn_list 0 _ _ (once_run_start 4) ltac:(vm_compute; reflexivity))).
  split; [vm_compute; reflexivity|].
  apply (proj2 (once_returns 4 15 once_middle ltac:(vm_compute; reflexivity) Hm) 1%nat OTest2); [vm_compute; reflexivity|discriminate].
Defined.
