(* ===== verification/PlainLock.v ===== *)
(** * The plain lock of Windows threads: lock.c

    A critical section that is initialized when it is first used, under the guard of Lock.  The threads
    take turns at every access. *)

From S2P Require Import Prelude Lock LockTheorems.

Open Scope Z_scope.

(** [gl_lock_t] *)
Record gl_lock_t := WindowsLock { lguard : gl_spinlock_t; lsection : critical_section }.

(** [{ { 0, -1 } }] *)
Definition windows_lock_initializer : gl_lock_t := WindowsLock gl_lock_initializer Uninitialized.

Definition glthread_lock_init_func (lock : gl_lock_t) : gl_lock_t :=
  WindowsLock (Spinlock true (guard_started (lguard lock))) Free.

(** [if (!lock->guard.done) return EINVAL;] *)
Definition unlock_test (lock : gl_lock_t) : Z := if negb (guard_done (lguard lock)) then EINVAL else 0.

Definition glthread_lock_destroy_func (lock : gl_lock_t) : Z * gl_lock_t :=
  if negb (guard_done (lguard lock)) then (EINVAL, lock)
  else (0, WindowsLock (Spinlock false (guard_started (lguard lock))) Uninitialized).

(** Where a thread is: outside, with the result of its last call; in [glthread_lock_lock_func], at the
    guard or past it; in [glthread_lock_unlock_func] before it leaves. *)
Inductive plain_pc := POutside (result : Z) | PGuard (g : guard_pc) | PLeave.

(** [entered]: how many more calls to lock than to unlock of each thread succeeded. *)
Record plain_system := PlainSystem { wlock : gl_lock_t; wpcs : list plain_pc; entered : list nat }.

Definition plain_start (n : nat) : plain_system :=
  PlainSystem windows_lock_initializer (replicate n (POutside 0)) (replicate n O).

Definition wgoto (s : plain_system) (i : nat) (pc : plain_pc) (l : gl_lock_t) : plain_system :=
  PlainSystem l (<[i := pc]> (wpcs s)) (entered s).

(** Thread [i] enters or leaves. *)
Definition wmove (s : plain_system) (i : nat) (f : nat -> nat) (o : outcome critical_section) : outcome plain_system :=
  outcome_bind o (fun cs =>
    Done (PlainSystem (WindowsLock (lguard (wlock s)) cs) (<[i := POutside 0]> (wpcs s)) (alter f i (entered s)))).

(** The next step of thread [i]; [c] is its call if it is outside.  It unlocks only what it has locked. *)
Definition plain_exec (s : plain_system) (i : nat) (c : rec_call) : outcome plain_system :=
  let l := wlock s in
  match wpcs s !! i with
  | None | Some (PGuard GOut) => Blocked
  | Some (POutside _) =>
      match c with
      | CallLock => Done (wgoto s i (PGuard (guard_test (lguard l))) l)
      | CallUnlock =>
          match entered s !! i with
          | None | Some O => Blocked
          | Some _ => Done (wgoto s i (if unlock_test l =? 0 then PLeave else POutside (unlock_test l)) l)
          end
      end
  | Some (PGuard GIncrement) =>
      let '(pc, g) := guard_increment (lguard l) in Done (wgoto s i (PGuard pc) (WindowsLock g (lsection l)))
  | Some (PGuard GInit) => Done (wgoto s i (PGuard GIn) (glthread_lock_init_func l))
  | Some (PGuard GSpin) => outcome_bind (guard_spin (lguard l)) (fun pc => Done (wgoto s i (PGuard pc) l))
  | Some (PGuard GIn) => wmove s i S (EnterCriticalSection i (lsection l))
  | Some PLeave => wmove s i Nat.pred (LeaveCriticalSection i (lsection l))
  end.

Inductive plain_reachable (n : nat) : plain_system -> Prop :=
  | plain_reachable_start : plain_reachable n (plain_start n)
  | plain_reachable_step s i c s' : plain_reachable n s -> plain_exec s i c = Done s' -> plain_reachable n s'.

(** ** The invariant *)

Definition plain_view (pc : plain_pc) : guard_pc := match pc with POutside _ | PLeave => GOut | PGuard g => g end.

(** How often thread [i] is in the section. *)
Definition times_in (cs : critical_section) (i : nat) : nat :=
  match cs with Held t c => if decide (t = i) then S c else O | _ => O end.

Record plain_ok (s : plain_system) : Prop := PlainOk {
  wo_guard : guard_ok (lguard (wlock s)) (map plain_view (wpcs s));
  wo_section : lsection (wlock s) = Uninitialized <-> guard_done (lguard (wlock s)) = false;
  wo_entered i pc : wpcs s !! i = Some pc -> entered s !! i = Some (times_in (lsection (wlock s)) i);
  wo_leave i : wpcs s !! i = Some PLeave -> (0 < times_in (lsection (wlock s)) i)%nat;
  wo_pc i : wpcs s !! i <> Some (PGuard GOut);
  wo_few : Z.of_nat (length (wpcs s)) < 2 ^ 31 - 1
}.

Lemma plain_start_ok n : Z.of_nat n < 2 ^ 31 - 1 -> plain_ok (plain_start n).
Proof.
  intros Hn. split; cbn [wlock wpcs entered plain_start windows_lock_initializer lguard lsection].
  - replace (map _ _) with (replicate n GOut) by (symmetry; exact (fmap_replicate plain_view n (POutside 0))). apply guard_ok_start.
  - done.
  - intros i pc Hi. apply lookup_replicate in Hi as [_ Hi]. by apply lookup_replicate.
  - intros i Hi. by apply lookup_replicate in Hi as [? _].
  - intros i Hi. by apply lookup_replicate in Hi as [? _].
  - by rewrite length_replicate.
Qed.

Section PlainSteps.
Context (s : plain_system) (i : nat) (pc : plain_pc) (Hok : plain_ok s) (Hi : wpcs s !! i = Some pc).

(** A step that does not change the section, or initializes it. *)
Lemma plain_goto_ok pc' g cs : guard_ok g (<[i := plain_view pc']> (map plain_view (wpcs s))) ->
  (cs = Uninitialized <-> guard_done g = false) -> (forall j, times_in cs j = times_in (lsection (wlock s)) j) ->
  (pc' = PLeave -> (0 < times_in cs i)%nat) -> pc' <> PGuard GOut -> plain_ok (wgoto s i pc' (WindowsLock g cs)).
Proof using Hok Hi.
  intros Hg Hcs Ht Hl Hpc. destruct Hok as [O1 O2 O3 O4 O5 O6].
  assert (Hlook : forall j q, <[i := pc']> (wpcs s) !! j = Some q -> j = i /\ q = pc' \/ j <> i /\ wpcs s !! j = Some q).
  { intros j q. destruct (decide (j = i)) as [->|Hne]; [|rewrite list_lookup_insert_ne by done; auto].
    rewrite list_lookup_insert_eq by (by eapply lookup_lt_Some). intros [= <-]. auto. }
  split; cbn [wgoto wlock wpcs entered lguard lsection].
  - replace (map _ _) with (<[i := plain_view pc']> (map plain_view (wpcs s))); [done|]. symmetry. exact (list_fmap_insert plain_view (wpcs s) i pc').
  - done.
  - intros j q Hj. rewrite Ht. destruct (Hlook j q Hj) as [[-> _]|[_ Hj']]; [by apply (O3 i pc)|by apply (O3 j q)].
  - intros j Hj. destruct (Hlook j _ Hj) as [[-> E]|[_ Hj']]; [by apply Hl|rewrite Ht; by apply O4].
  - intros j Hj. destruct (Hlook j _ Hj) as [[_ E]|[_ Hj']]; [by apply Hpc|by apply (O5 j)].
  - by rewrite length_insert.
Qed.

Lemma plain_view_here : map plain_view (wpcs s) !! i = Some (plain_view pc).
Proof using Hi. by rewrite list_lookup_fmap, Hi. Qed.

Lemma wlock_eta : wlock s = WindowsLock (lguard (wlock s)) (lsection (wlock s)).
Proof using Type. by destruct (wlock s). Qed.

(** A step that moves only the thread. *)
Lemma plain_same_ok pc' : guard_ok (lguard (wlock s)) (<[i := plain_view pc']> (map plain_view (wpcs s))) ->
  (pc' = PLeave -> (0 < times_in (lsection (wlock s)) i)%nat) -> pc' <> PGuard GOut -> plain_ok (wgoto s i pc' (wlock s)).
Proof using Hok Hi. intros Hg Hl Hpc. rewrite wlock_eta. apply plain_goto_ok; try done. apply Hok. Qed.

(** The section is entered or left. *)
Lemma plain_move_ok f cs : plain_view pc = GIn \/ plain_view pc = GOut -> lsection (wlock s) <> Uninitialized -> cs <> Uninitialized ->
  times_in cs i = f (times_in (lsection (wlock s)) i) -> (forall j, j <> i -> times_in cs j = times_in (lsection (wlock s)) j) ->
  plain_ok (PlainSystem (WindowsLock (lguard (wlock s)) cs) (<[i := POutside 0]> (wpcs s)) (alter f i (entered s))).
Proof using Hok Hi.
  intros Hv Hu Hcs Hti Htj. pose proof plain_view_here as Hview. pose proof Hok as [O1 O2 O3 O4 O5 O6].
  assert (Hdone : guard_done (lguard (wlock s)) = true).
  { destruct (guard_done (lguard (wlock s))) eqn:E; [done|]. destruct Hu. by apply O2. }
  split; cbn [wlock wpcs entered lguard lsection].
  - replace (map _ _) with (<[i := GOut]> (map plain_view (wpcs s))); [|symmetry; exact (list_fmap_insert plain_view (wpcs s) i (POutside 0))].
    destruct Hv as [Hv|Hv]; rewrite Hv in Hview; [apply guard_in_ok; auto|]. by rewrite list_insert_id.
  - rewrite Hdone. done.
  - intros j q Hj. destruct (decide (j = i)) as [->|Hne].
    + by rewrite list_lookup_alter_eq, (O3 i pc Hi), Hti.
    + rewrite list_lookup_insert_ne in Hj by done. by rewrite list_lookup_alter_ne, (O3 j q Hj), Htj.
  - intros j Hj. destruct (decide (j = i)) as [->|Hne].
    + by rewrite list_lookup_insert_eq in Hj by (by eapply lookup_lt_Some).
    + rewrite list_lookup_insert_ne in Hj by done. rewrite Htj by done. by apply O4.
  - intros j Hj. destruct (decide (j = i)) as [->|Hne].
    + by rewrite list_lookup_insert_eq in Hj by (by eapply lookup_lt_Some).
    + rewrite list_lookup_insert_ne in Hj by done. by apply (O5 j).
  - by rewrite length_insert.
Qed.

Definition plain_fine (o : outcome plain_system) : Prop := match o with Done s' => plain_ok s' | Blocked => True | Crash => False end.

Lemma plain_guard_ok g c : pc = PGuard g -> plain_fine (plain_exec s i c).
Proof using Hok Hi.
  intros Hpc. pose proof plain_view_here as Hv. rewrite Hpc in Hv. cbn [plain_view] in Hv. pose proof Hok as [O1 O2 O3 O4 O5 O6].
  assert (Hl : Z.of_nat (length (map plain_view (wpcs s))) < 2 ^ 31 - 1) by (by rewrite length_map).
  assert (Hv' : plain_view pc = g) by (by rewrite Hpc). unfold plain_exec. rewrite Hi, Hpc. destruct g; [done| | | |].
  - pose proof (guard_increment_ok _ _ i O1 Hl Hv) as Hg. unfold guard_increment in *. cbn [fst snd] in Hg. cbn [plain_fine].
    apply plain_goto_ok; [exact Hg|exact O2|done|done|]. by case_match.
  - pose proof (guard_init_not_done _ _ i O1 Hv) as Hnd. cbn [plain_fine]. apply O2 in Hnd. apply plain_goto_ok; try done.
    + by apply guard_init_ok.
    + intros j. by rewrite Hnd.
  - destruct (guard_spin (lguard (wlock s))) as [pc'| |] eqn:E; cbn [outcome_bind plain_fine]; [|done|unfold guard_spin in E; by destruct (negb _)].
    destruct (guard_spin_ok _ _ i O1 pc' Hv E) as [-> Hg]. by apply plain_same_ok.
  - pose proof (guard_in_done _ _ i O1 Hv) as Hd. unfold wmove.
    assert (Hu : lsection (wlock s) <> Uninitialized) by (intros E; apply O2 in E; congruence).
    destruct (lsection (wlock s)) as [| |t c'] eqn:Es; cbn [EnterCriticalSection outcome_bind plain_fine]; [done| |].
    + apply (plain_move_ok S); rewrite ?Es; auto; cbn [times_in]; [by rewrite decide_True|]. intros j Hj. by rewrite decide_False.
    + destruct (decide (t = i)) as [->|Hne]; cbn [outcome_bind plain_fine]; [|done].
      apply (plain_move_ok S); rewrite ?Es; auto; cbn [times_in]; [by rewrite !decide_True|]. intros j Hj. by rewrite !decide_False.
Qed.

Lemma plain_exec_ok c : plain_fine (plain_exec s i c).
Proof using Hok Hi.
  assert (Hcase : (exists g, pc = PGuard g) \/ (exists r, pc = POutside r) \/ pc = PLeave) by (destruct pc; eauto).
  destruct Hcase as [[g Hpc]|Hpc]; [by eapply plain_guard_ok|].
  assert (Hout : plain_view pc = GOut) by (by destruct Hpc as [[r ->]| ->]).
  pose proof plain_view_here as Hv. rewrite Hout in Hv. pose proof Hok as [O1 O2 O3 O4 O5 O6]. unfold plain_exec. rewrite Hi.
  destruct Hpc as [[r Hpc]|Hpc]; rewrite Hpc.
  - destruct c.
    + cbn [plain_fine]. apply plain_same_ok; [by apply guard_test_ok|done|]. unfold guard_test. by destruct (negb _).
    + pose proof (O3 i pc Hi) as He. rewrite He. destruct (times_in _ i) as [|k] eqn:Et; [done|]. cbn [plain_fine]. apply plain_same_ok.
      * replace (plain_view _) with GOut by (by destruct (_ =? _)). by rewrite list_insert_id.
      * intros _. rewrite Et. lia.
      * by destruct (_ =? _).
  - assert (Hi' : wpcs s !! i = Some PLeave) by congruence. pose proof (O4 i Hi') as Hin. unfold wmove.
    destruct (lsection (wlock s)) as [| |t c'] eqn:Es; cbn [times_in] in Hin; [lia..|]. destruct (decide (t = i)) as [->|Hne]; [|lia].
    cbn [LeaveCriticalSection]. rewrite decide_True by done. cbn [outcome_bind plain_fine].
    apply (plain_move_ok Nat.pred); rewrite ?Es, ?Hpc; auto; destruct c' as [|c']; cbn [times_in]; try done; rewrite ?decide_True by done; try done;
      intros j Hj; by rewrite !decide_False.
Qed.
End PlainSteps.

Lemma plain_reachable_ok n s : Z.of_nat n < 2 ^ 31 - 1 -> plain_reachable n s -> plain_ok s.
Proof.
  intros Hn. induction 1 as [|s i c s' Hr IH E]; [by apply plain_start_ok|].
  destruct (wpcs s !! i) as [pc|] eqn:Hi; [|unfold plain_exec in E; by rewrite Hi in E].
  pose proof (plain_exec_ok s i pc IH Hi c) as H. by rewrite E in H.
Qed.

(** The plain lock of Windows threads, in any interleaving of its single accesses: it is initialized once and before it is used,
    no thread leaves a section it is not in, and at most one thread has the lock. *)
Theorem plain_lock_safe (n : nat) (s : plain_system) (Hn : Z.of_nat n < 2 ^ 31 - 1) (Hr : plain_reachable n s) :
  (forall i c, plain_exec s i c <> Crash) /\
  (forall i j ki kj, entered s !! i = Some (S ki) -> entered s !! j = Some (S kj) ->
     is_Some (wpcs s !! i) -> is_Some (wpcs s !! j) -> i = j).
Proof.
  pose proof (plain_reachable_ok n s Hn Hr) as Hok. split.
  - intros i c E. destruct (wpcs s !! i) as [pc|] eqn:Hi; [|unfold plain_exec in E; by rewrite Hi in E].
    pose proof (plain_exec_ok s i pc Hok Hi c) as H. by rewrite E in H.
  - intros i j ki kj Ei Ej [pi Hi] [pj Hj]. rewrite (wo_entered _ Hok i pi Hi) in Ei. rewrite (wo_entered _ Hok j pj Hj) in Ej.
    injection Ei as Ei. injection Ej as Ej. unfold times_in in *. destruct (lsection _) as [| |t c]; [done..|]. repeat case_decide; congruence.
Qed.
