(* ===== verification/RwLock.v ===== *)
(** * Read-write locks: lock.c

    The lock that libintl implements itself, for Windows threads: a counter of the
    running readers and two queues of waiting threads, each represented by an
    event, under a critical section.  A queue is a circular array.  The threads take
    turns: what a thread does inside the critical section is one function on the lock, and
    one step of the system of threads, as is every access to the guard; [None] is abort() or
    an access outside the array.  When CreateEvent() fails it returns NULL, which gl_waitqueue_add() takes for an event. *)

From S2P Require Import Prelude Lock.

Open Scope Z_scope.

(** ** Queues of waiting threads *)

(** A HANDLE is the number of an event; NULL is none, and INVALID_HANDLE_VALUE is [None] where it can occur. *)
Definition NULL : nat := 0.

(** CreateEvent(): NULL if it fails. *)
Definition CreateEvent (succeeds : bool) (next : nat) : option nat := Some (if succeeds then next else NULL).

(** [gl_carray_waitqueue_t] *)
Record waitqueue := WaitQueue { array : list nat; count : Z; alloc : Z; offset : Z }.

Definition gl_waitqueue_init : waitqueue := WaitQueue [] 0 0 0.

(** [for (i = 0; i < k; i++) l[dst + i] = l[src + i];] *)
Fixpoint copy_elements (k : nat) (dst src : nat) (l : list nat) : option (list nat) :=
  match k with
  | O => Some l
  | S k =>
      match l !! src with
      | Some x => if (dst <? length l)%nat then copy_elements k (S dst) (S src) (<[dst := x]> l) else None
      | None => None
      end
  end.

(** The array after realloc(), rotated so that it starts at offset 0. *)
Definition rotate_array (old_count old_alloc old_offset : Z) (new_array : list nat) : option (list nat) :=
  if 0 <? old_offset then
    new_array ← (if old_alloc <? wrapw 32 (old_offset + old_count) then
                   copy_elements (Z.to_nat (wrapw 32 (old_offset + old_count - old_alloc))) (Z.to_nat old_alloc) 0 new_array
                 else Some new_array);
    copy_elements (Z.to_nat old_count) 0 (Z.to_nat old_offset) new_array
  else Some new_array.

(** realloc() adds elements with any contents. *)
Definition enlarge (garbage : nat -> nat) (new_alloc : Z) (l : list nat) : list nat :=
  l ++ map garbage (seq (length l) (Z.to_nat new_alloc - length l)).

(** [wq->offset + i], reduced. *)
Definition queue_index (wq : waitqueue) (i : Z) : nat :=
  let index := wrapw 32 (offset wq + i) in
  Z.to_nat (if alloc wq <=? index then index - alloc wq else index).

Section Add.
(** Whether realloc() succeeds; what CreateEvent() returns, [None] is INVALID_HANDLE_VALUE. *)
Context (mal : bool) (garbage : nat -> nat) (created : option nat).

(** [if (wq->count == wq->alloc)]: a larger array; the inner [None] is no memory. *)
Definition make_room (wq : waitqueue) : option (option waitqueue) :=
  if count wq =? alloc wq then
    let new_alloc := wrapw 32 (2 * alloc wq + 1) in
    if mal then
      l ← rotate_array (count wq) (alloc wq) (offset wq) (enlarge garbage new_alloc (array wq));
      Some (Some (WaitQueue l (count wq) new_alloc 0))
    else Some None
  else Some (Some wq).

(** The new event; [None], INVALID_HANDLE_VALUE, if realloc() fails, or if CreateEvent() returns it. *)
Definition gl_waitqueue_add (wq : waitqueue) : option (option nat * waitqueue) :=
  room ← make_room wq;
  match room with
  | None => Some (None, wq)
  | Some wq =>
      match created with
      | None => Some (None, wq)
      | Some event =>
          let index := queue_index wq (count wq) in
          if (index <? length (array wq))%nat then
            Some (Some event, WaitQueue (<[index := event]> (array wq)) (count wq + 1) (alloc wq) (offset wq))
          else None
      end
  end.
End Add.

(** SetEvent() on the first event: the event, and the queue without it. *)
Definition gl_waitqueue_notify_first (wq : waitqueue) : option (nat * waitqueue) :=
  e ← array wq !! Z.to_nat (offset wq + 0);
  let offset := offset wq + 1 in
  let count := count wq - 1 in
  Some (e, WaitQueue (array wq) count (alloc wq) (if (count =? 0) || (offset =? alloc wq) then 0 else offset)).

(** SetEvent() on all events, in order. *)
Definition gl_waitqueue_notify_all (wq : waitqueue) : option (list nat * waitqueue) :=
  es ← mapM (fun i => array wq !! queue_index wq (Z.of_nat i)) (seq 0 (Z.to_nat (count wq)));
  Some (es, WaitQueue (array wq) 0 (alloc wq) 0).

(** ** The lock *)

(** [gl_rwlock_t] without the critical section. *)
Record rwlock := RwLock {
  guard : gl_spinlock_t;
  waiting_readers : waitqueue;
  waiting_writers : waitqueue;
  runcount : Z
}.

(** [{ { 0, -1 } }]: the other fields are 0. *)
Definition gl_rwlock_initializer : rwlock := RwLock gl_lock_initializer (WaitQueue [] 0 0 0) (WaitQueue [] 0 0 0) 0.

Definition glthread_rwlock_init_func (lock : rwlock) : rwlock :=
  RwLock (Spinlock true (guard_started (guard lock))) gl_waitqueue_init gl_waitqueue_init 0.

(** An [int] that overflows is undefined. *)
Definition int_value (z : Z) : option Z := if z <=? INT_MAX then Some z else None.

Definition with_runcount (lock : rwlock) (r : Z) : rwlock := RwLock (guard lock) (waiting_readers lock) (waiting_writers lock) r.

(** How the critical section of a request ends: with the lock, waiting for an event, or
    without memory for one. *)
Inductive entry := Granted | Waits (event : nat) | Retries.

Section Enter.
Context (mal : bool) (garbage : nat -> nat) (created : option nat).

Definition entry_of (e : option nat) : entry := match e with Some event => Waits event | None => Retries end.

(** [glthread_rwlock_rdlock_func], its first critical section. *)
Definition rdlock_enter (lock : rwlock) : option (entry * rwlock) :=
  r ← int_value (runcount lock + 1);
  if negb (0 <? r) then
    '(e, q) ← gl_waitqueue_add mal garbage created (waiting_readers lock);
    Some (entry_of e, RwLock (guard lock) q (waiting_writers lock) (runcount lock))
  else Some (Granted, with_runcount lock r).

(** [glthread_rwlock_wrlock_func] *)
Definition wrlock_enter (lock : rwlock) : option (entry * rwlock) :=
  if negb (runcount lock =? 0) then
    '(e, q) ← gl_waitqueue_add mal garbage created (waiting_writers lock);
    Some (entry_of e, RwLock (guard lock) (waiting_readers lock) q (runcount lock))
  else Some (Granted, with_runcount lock (runcount lock - 1)).
End Enter.

(** One round of [do ... while (!(lock->runcount + 1 > 0))] after an allocation failure. *)
Definition rdlock_retry (lock : rwlock) : option (entry * rwlock) :=
  r ← int_value (runcount lock + 1);
  if negb (0 <? r) then Some (Retries, lock) else Some (Granted, with_runcount lock r).

Definition wrlock_retry (lock : rwlock) : option (entry * rwlock) :=
  if negb (runcount lock =? 0) then Some (Retries, lock) else Some (Granted, with_runcount lock (runcount lock - 1)).

(** The checks of a thread that was waked up. *)
Definition rdlock_woken (lock : rwlock) : option rwlock := if negb (0 <? runcount lock) then None else Some lock.
Definition wrlock_woken (lock : rwlock) : option rwlock := if negb (runcount lock =? -1) then None else Some lock.

(** Hand over a lock that is free: to the first waiting writer, else to all readers. *)
Definition hand_over (lock : rwlock) : option (list nat * rwlock) :=
  if 0 <? count (waiting_writers lock) then
    '(e, q) ← gl_waitqueue_notify_first (waiting_writers lock);
    Some ([e], RwLock (guard lock) (waiting_readers lock) q (runcount lock - 1))
  else
    r ← int_value (runcount lock + count (waiting_readers lock));
    '(es, q) ← gl_waitqueue_notify_all (waiting_readers lock);
    Some (es, RwLock (guard lock) q (waiting_writers lock) r).

(** The result, and the events that are set. *)
Definition glthread_rwlock_unlock_func (lock : rwlock) : option (Z * list nat * rwlock) :=
  let finish lock :=
    if runcount lock =? 0 then '(es, lock) ← hand_over lock; Some (0, es, lock) else Some (0, [], lock) in
  if negb (guard_done (guard lock)) then Some (EINVAL, [], lock)
  else if runcount lock <? 0 then
    if negb (runcount lock =? -1) then None else finish (with_runcount lock 0)
  else if negb (0 <? runcount lock) then Some (EPERM, [], lock)
  else finish (with_runcount lock (runcount lock - 1)).

(** free() leaves the other fields. *)
Definition glthread_rwlock_destroy_func (lock : rwlock) : Z * rwlock :=
  if negb (guard_done (guard lock)) then (EINVAL, lock)
  else if negb (runcount lock =? 0) then (EBUSY, lock)
  else (0, RwLock (Spinlock false (guard_started (guard lock))) (waiting_readers lock) (waiting_writers lock) (runcount lock)).

(** ** The threads *)

(** Where a thread is: outside, at the guard of a request, waiting for its event, trying
    again, or with the lock. *)
Inductive thread :=
  | Idle | AtGuard (writer : bool) (pc : guard_pc)
  | RWait (event : nat) | RRetry | Reading
  | WWait (event : nat) | WRetry | Writing.

(** [signaled]: the events that are set; [next_event]: the next one that is created. *)
Record system := System {
  lock : rwlock;
  threads : list thread;
  signaled : gset nat;
  next_event : nat
}.

Definition rw_start (n : nat) : system := System gl_rwlock_initializer (replicate n Idle) ∅ 1.

(** What a thread can do next; whether realloc() and CreateEvent() succeed are arguments. *)
Inductive action := RdLock | WrLock | Guard | Enter (mal created : bool) | Retry | Wake | Unlock.

Section Exec.
Context (garbage : nat -> nat).

Definition reader_of (e : entry) : thread := match e with Granted => Reading | Waits ev => RWait ev | Retries => RRetry end.
Definition writer_of (e : entry) : thread := match e with Granted => Writing | Waits ev => WWait ev | Retries => WRetry end.

Definition put (s : system) (i : nat) (t : thread) (l : rwlock) : system :=
  System l (<[i := t]> (threads s)) (signaled s) (next_event s).

(** After a request, an event may have been created. *)
Definition requested (s : system) (i : nat) (to : entry -> thread) (r : option (entry * rwlock)) : outcome system :=
  match r with
  | None => Crash
  | Some (e, l) => Done (System l (<[i := to e]> (threads s)) (signaled s) (S (next_event s)))
  end.

Definition retried (s : system) (i : nat) (to : entry -> thread) (r : option (entry * rwlock)) : outcome system :=
  match r with None => Crash | Some (e, l) => Done (put s i (to e) l) end.

(** [if (!lock->guard.done) ...] and [EnterCriticalSection]. *)
Definition guard_exec (s : system) (i : nat) (writer : bool) (pc : guard_pc) : outcome system :=
  let l := lock s in
  match pc with
  | GIncrement =>
      let '(pc, g) := guard_increment (guard l) in
      Done (put s i (AtGuard writer pc) (RwLock g (waiting_readers l) (waiting_writers l) (runcount l)))
  | GInit => Done (put s i (AtGuard writer GIn) (glthread_rwlock_init_func l))
  | GSpin => outcome_bind (guard_spin (guard l)) (fun pc => Done (put s i (AtGuard writer pc) l))
  | GOut | GIn => Blocked
  end.

(** WaitForSingleObject() fails for NULL, and the thread aborts, whatever SetEvent() was called for. *)
Definition wait_for (s : system) (event : nat) (next : outcome system) : outcome system :=
  if decide (event = NULL) then Crash else if decide (event ∈ signaled s) then next else Blocked.

(** The action [a] of thread [i]. *)
Definition rw_exec (s : system) (i : nat) (a : action) : outcome system :=
  match threads s !! i, a with
  | Some Idle, RdLock => Done (put s i (AtGuard false (guard_test (guard (lock s)))) (lock s))
  | Some Idle, WrLock => Done (put s i (AtGuard true (guard_test (guard (lock s)))) (lock s))
  | Some (AtGuard writer pc), Guard => guard_exec s i writer pc
  | Some (AtGuard writer GIn), Enter mal created =>
      let event := CreateEvent created (next_event s) in
      if writer then requested s i writer_of (wrlock_enter mal garbage event (lock s))
      else requested s i reader_of (rdlock_enter mal garbage event (lock s))
  | Some RRetry, Retry => retried s i reader_of (rdlock_retry (lock s))
  | Some WRetry, Retry => retried s i writer_of (wrlock_retry (lock s))
  | Some (RWait e), Wake => wait_for s e (match rdlock_woken (lock s) with None => Crash | Some l => Done (put s i Reading l) end)
  | Some (WWait e), Wake => wait_for s e (match wrlock_woken (lock s) with None => Crash | Some l => Done (put s i Writing l) end)
  | Some Reading, Unlock | Some Writing, Unlock =>
      match glthread_rwlock_unlock_func (lock s) with
      | None => Crash
      | Some (_, es, l) => Done (System l (<[i := Idle]> (threads s)) (signaled s ∪ list_to_set es) (next_event s))
      end
  | _, _ => Blocked
  end.

(** A step in which CreateEvent() does not fail. *)
Definition event_created (a : action) : bool := match a with Enter _ created => created | _ => true end.

(** The states of [n] threads as long as CreateEvent() has not failed. *)
Inductive rw_reachable (n : nat) : system -> Prop :=
  | rw_reachable_start : rw_reachable n (rw_start n)
  | rw_reachable_step s i a s' : rw_reachable n s -> event_created a = true -> rw_exec s i a = Done s' -> rw_reachable n s'.
End Exec.
