(* ===== verification/RwLockSpec.v ===== *)
(** * What the queues and a critical section of the read-write lock do

    The circular array is a queue: [queue_is] relates it to the list of its events. *)

From S2P Require Import Prelude RwLock.

Open Scope Z_scope.

(** ** Circular arrays *)

(** The place of element [i] of a queue that starts at [off] in an array of [al] elements. *)
Definition place (al off i : nat) : nat := if (al <=? off + i)%nat then (off + i - al)%nat else (off + i)%nat.

(** The elements of the queue, in order, are [q]. *)
Record queue_is (wq : waitqueue) (q : list nat) : Prop := QueueIs {
  qi_alloc : Z.of_nat (length (array wq)) = alloc wq;
  qi_small : alloc wq < 2 ^ 31;
  qi_count : count wq = Z.of_nat (length q);
  qi_fits : count wq <= alloc wq;
  qi_offset : 0 <= offset wq /\ (offset wq < alloc wq \/ offset wq = 0);
  qi_elements : forall i e, q !! i = Some e -> array wq !! place (length (array wq)) (Z.to_nat (offset wq)) i = Some e
}.

Lemma queue_init : queue_is gl_waitqueue_init [].
Proof. split; cbn; try lia. done. Qed.

Lemma wrapw_32_small z : 0 <= z < 2 ^ 32 -> wrapw 32 z = z.
Proof. intros Hz. by apply wrapw_small. Qed.

Lemma queue_index_place wq q i : queue_is wq q -> (i <= length (array wq))%nat ->
  queue_index wq (Z.of_nat i) = place (length (array wq)) (Z.to_nat (offset wq)) i.
Proof.
  intros [Ha Hs Hc Hf [Ho Ho'] _] Hi. unfold queue_index. change (2 ^ 31) with 2147483648 in *.
  assert (0 <= offset wq + Z.of_nat i < 2 ^ 32) by (change (2 ^ 32) with 4294967296; lia).
  rewrite wrapw_32_small by done. unfold place. destruct (Z.leb_spec (alloc wq) (offset wq + Z.of_nat i)).
  - rewrite (proj2 (Nat.leb_le _ _)) by lia. lia.
  - rewrite (proj2 (Nat.leb_gt _ _)) by lia. lia.
Qed.

Lemma place_lt al off i : (i < al)%nat -> (off < al \/ off = 0)%nat -> (place al off i < al)%nat.
Proof. intros Hi Ho. unfold place. destruct (Nat.leb_spec al (off + i)); lia. Qed.

Lemma place_inj al off i j : (i < al)%nat -> (j < al)%nat -> (off < al \/ off = 0)%nat ->
  place al off i = place al off j -> i = j.
Proof. intros Hi Hj Ho. unfold place. destruct (Nat.leb_spec al (off + i)), (Nat.leb_spec al (off + j)); lia. Qed.

(** Copying elements down, or to a part that does not overlap. *)
Lemma copy_elements_ok k dst src l :
  (src + k <= length l)%nat -> (dst + k <= length l)%nat -> (dst <= src \/ src + k <= dst)%nat ->
  exists l', copy_elements k dst src l = Some l' /\ length l' = length l /\
    forall j, l' !! j = if (dst <=? j)%nat && (j <? dst + k)%nat then l !! (src + (j - dst))%nat else l !! j.
Proof.
  revert dst src l. induction k as [|k IH]; intros dst src l Hs Hd Hov; cbn [copy_elements].
  { exists l. split_and!; [done..|]. intros j. destruct (Nat.leb_spec dst j), (Nat.ltb_spec j (dst + 0)); try done; lia. }
  destruct (lookup_lt_is_Some_2 l src) as [x Hx]; [lia|]. rewrite Hx, (proj2 (Nat.ltb_lt _ _)) by lia.
  destruct (IH (S dst) (S src) (<[dst := x]> l)) as (l' & -> & Hl & Hj); rewrite ?length_insert in *; [lia..|].
  exists l'. split_and!; [done..|]. intros j. rewrite Hj.
  destruct (Nat.leb_spec (S dst) j), (Nat.ltb_spec j (S dst + k)), (Nat.leb_spec dst j), (Nat.ltb_spec j (dst + S k));
    cbn [andb]; try lia.
  - rewrite list_lookup_insert_ne by lia. f_equal. lia.
  - by rewrite list_lookup_insert_ne by lia.
  - assert (j = dst) as -> by lia. rewrite list_lookup_insert_eq by lia. rewrite Nat.sub_diag, Nat.add_0_r. done.
  - by rewrite list_lookup_insert_ne by lia.
Qed.

(** The array that is twice as long has the elements of a full queue from index 0 on. *)
Lemma rotate_array_ok garbage wq q : queue_is wq q -> count wq = alloc wq -> 2 * alloc wq + 1 < 2 ^ 31 ->
  exists l, rotate_array (count wq) (alloc wq) (offset wq) (enlarge garbage (2 * alloc wq + 1) (array wq)) = Some l /\
    Z.of_nat (length l) = 2 * alloc wq + 1 /\ forall i e, q !! i = Some e -> l !! i = Some e.
Proof.
  intros [Ha Hs Hc Hf [Ho Ho'] He] Hfull Hbig. set (new := enlarge _ _ _).
  assert (Hlen : Z.of_nat (length new) = 2 * alloc wq + 1).
  { unfold new, enlarge. rewrite length_app, length_map, length_seq. lia. }
  assert (Hold : forall j, (j < length (array wq))%nat -> new !! j = array wq !! j).
  { intros j Hj. unfold new, enlarge. by rewrite lookup_app_l. }
  change (2 ^ 31) with 2147483648 in *. unfold rotate_array. destruct (Z.ltb_spec 0 (offset wq)) as [Hpos|Hz].
  2: { exists new. split_and!; [done..|]. intros i e Hi. assert (offset wq = 0) as E0 by lia. specialize (He i e Hi).
       rewrite E0 in He. apply lookup_lt_Some in Hi. unfold place in He. cbn [Z.to_nat Nat.add] in He.
       rewrite (proj2 (Nat.leb_gt _ _)) in He by lia. rewrite Hold by lia. done. }
  rewrite wrapw_32_small by (change (2 ^ 32) with 4294967296; lia). rewrite (proj2 (Z.ltb_lt _ _)) by lia.
  rewrite wrapw_32_small by (change (2 ^ 32) with 4294967296; lia).
  destruct (copy_elements_ok (Z.to_nat (offset wq + count wq - alloc wq)) (Z.to_nat (alloc wq)) 0 new) as (l1 & E1 & Hl1 & Hj1);
    [lia|lia|right; lia|]. rewrite E1. cbn [mbind option_bind].
  destruct (copy_elements_ok (Z.to_nat (count wq)) 0 (Z.to_nat (offset wq)) l1) as (l2 & E2 & Hl2 & Hj2); [lia|lia|left; lia|].
  rewrite E2. exists l2. split_and!; [done|lia|]. intros i e Hi. pose proof (lookup_lt_Some _ _ _ Hi) as Hlt.
  rewrite Hj2, Hj1. specialize (He i e Hi). unfold place in He. rewrite Nat.sub_0_r.
  destruct (Nat.leb_spec 0 i), (Nat.ltb_spec i (0 + Z.to_nat (count wq))); cbn [andb]; try lia.
  destruct (Nat.leb_spec (length (array wq)) (Z.to_nat (offset wq) + i)),
    (Nat.leb_spec (Z.to_nat (alloc wq)) (Z.to_nat (offset wq) + i)),
    (Nat.ltb_spec (Z.to_nat (offset wq) + i) (Z.to_nat (alloc wq) + Z.to_nat (offset wq + count wq - alloc wq)));
    cbn [andb]; try lia; (rewrite Hold by lia); rewrite <- He; f_equal; lia.
Qed.

(** A new event is the last one; without memory the queue stays. *)
Lemma add_ok mal garbage created wq q : queue_is wq q -> Z.of_nat (length q) < 2 ^ 30 - 1 ->
  exists e wq', gl_waitqueue_add mal garbage created wq = Some (e, wq') /\
    match e with
    | Some ev => created = Some ev /\ queue_is wq' (q ++ [ev])
    | None => queue_is wq' q
    end.
Proof.
  intros Hq Hlen. change (2 ^ 30) with 1073741824 in *. unfold gl_waitqueue_add.
  assert (Hroom : exists o, make_room mal garbage wq = Some o /\
      match o with Some wq' => queue_is wq' q /\ count wq' < alloc wq' | None => True end).
  { unfold make_room. pose proof Hq as [Ha Hs Hc Hf Ho He]. destruct (Z.eqb_spec (count wq) (alloc wq)) as [Hfull|Hfree].
    - destruct mal; [|by exists None]. cbv zeta. rewrite wrapw_32_small by (change (2 ^ 32) with 4294967296; lia).
      destruct (rotate_array_ok garbage wq q Hq Hfull) as (l & -> & Hl & Hel); [change (2 ^ 31) with 2147483648; lia|].
      eexists. split; [done|]. split; [|cbn; lia]. split; cbn; try (change (2 ^ 31) with 2147483648); try lia.
      intros i e Hi. pose proof (lookup_lt_Some _ _ _ Hi). unfold place. cbn [Nat.add].
      rewrite (proj2 (Nat.leb_gt _ _)) by lia. by apply Hel.
    - exists (Some wq). split; [done|]. split; [done|lia]. }
  destruct Hroom as (o & -> & Ho). cbn [mbind option_bind]. destruct o as [wq1|]; [|by exists None, wq].
  destruct Ho as [Hq1 Hlt]. destruct created as [ev|]; [|by exists None, wq1].
  pose proof Hq1 as [Ha Hs Hc Hf [Ho Ho'] He]. rewrite Hc, (queue_index_place wq1 q) by (done || lia).
  assert (Hoff : (Z.to_nat (offset wq1) < length (array wq1) \/ Z.to_nat (offset wq1) = 0)%nat) by lia.
  assert (Hp : (place (length (array wq1)) (Z.to_nat (offset wq1)) (length q) < length (array wq1))%nat)
    by (apply place_lt; [lia|done]).
  rewrite (proj2 (Nat.ltb_lt _ _)) by done. exists (Some ev). eexists. split; [done|]. split; [done|].
  split; cbn; rewrite ?length_insert, ?length_app; cbn [length]; try lia.
  intros i e. rewrite lookup_app_Some. intros [Hi|[Hge Hi]].
  - pose proof (lookup_lt_Some _ _ _ Hi). rewrite list_lookup_insert_ne; [by apply He|]. intros E.
    apply place_inj in E; [lia|lia|lia|done].
  - apply list_lookup_singleton_Some in Hi as [Hi <-]. replace i with (length q) by lia. by rewrite list_lookup_insert_eq.
Qed.

Lemma notify_first_ok wq e q : queue_is wq (e :: q) ->
  exists wq', gl_waitqueue_notify_first wq = Some (e, wq') /\ queue_is wq' q.
Proof.
  intros [Ha Hs Hc Hf [Ho Ho'] He]. cbn [length] in Hc. unfold gl_waitqueue_notify_first. rewrite Z.add_0_r.
  pose proof (He 0%nat e eq_refl) as H0. unfold place in H0. rewrite Nat.add_0_r in H0.
  rewrite (proj2 (Nat.leb_gt _ _)) in H0 by lia. rewrite H0. cbn [mbind option_bind]. eexists. split; [done|].
  assert (Hcase : (count wq - 1 =? 0) || (offset wq + 1 =? alloc wq) = true /\ (q = [] \/ offset wq + 1 = alloc wq) \/
    (count wq - 1 =? 0) || (offset wq + 1 =? alloc wq) = false /\ offset wq + 1 < alloc wq).
  { destruct (Z.eqb_spec (count wq - 1) 0), (Z.eqb_spec (offset wq + 1) (alloc wq)); cbn [orb]; [left..|right].
    - split; [done|by right].
    - split; [done|left]. destruct q; [done|cbn [length] in *; lia].
    - split; [done|by right].
    - split; [done|lia]. }
  destruct Hcase as [[-> Hcase]|[-> Hcase]].
  - split; cbn; try lia. intros i e' Hi. pose proof (lookup_lt_Some _ _ _ Hi) as Hlt. destruct Hcase as [->|E]; [done|].
    specialize (He (S i) e' Hi). unfold place in *. cbn [Nat.add].
    rewrite (proj2 (Nat.leb_le _ _)) in He by lia. rewrite (proj2 (Nat.leb_gt _ _)) by lia. rewrite <- He. f_equal. lia.
  - split; cbn; try lia. intros i e' Hi. rewrite <- (He (S i) e' Hi). f_equal. unfold place.
    replace (Z.to_nat (offset wq + 1) + i)%nat with (Z.to_nat (offset wq) + S i)%nat by lia. done.
Qed.

Lemma notify_all_ok wq q : queue_is wq q ->
  exists wq', gl_waitqueue_notify_all wq = Some (q, wq') /\ queue_is wq' [].
Proof.
  intros Hq. pose proof Hq as [Ha Hs Hc Hf [Ho Ho'] He]. unfold gl_waitqueue_notify_all.
  assert (E : mapM (fun i => array wq !! queue_index wq (Z.of_nat i)) (seq 0 (Z.to_nat (count wq))) = Some q).
  { apply mapM_Some. rewrite Hc, Nat2Z.id. apply Forall2_lookup. intros i. destruct (q !! i) as [e|] eqn:Ei.
    - pose proof (lookup_lt_Some _ _ _ Ei). rewrite lookup_seq_lt by lia. constructor. cbn [Nat.add].
      rewrite (queue_index_place wq q) by (done || lia). by apply He.
    - apply lookup_ge_None in Ei. rewrite lookup_seq_ge by lia. constructor. }
  rewrite E. cbn [mbind option_bind]. eexists. split; [done|]. split; cbn; try lia. done.
Qed.
