(* ===== verification/RwLockTheorems.v ===== *)
(** * The read-write lock is safe and hands the lock over

    Every thread is given its role: it runs as a reader or writer (also if it was
    granted the lock and did not wake up yet), waits in a queue, or has nothing to do
    with the lock.  The invariant relates the roles to the counter and the queues. *)

From S2P Require Import Prelude Lock LockTheorems RwLock RwLockSpec.

Open Scope Z_scope.

(** ** Roles *)

Inductive role := ROther | RReader | RWriter | RWaitR (event : nat) | RWaitW (event : nat).

Definition role_of (sg : gset nat) (t : thread) : role :=
  match t with
  | Reading => RReader
  | Writing => RWriter
  | RWait e => if decide (e ∈ sg) then RReader else RWaitR e
  | WWait e => if decide (e ∈ sg) then RWriter else RWaitW e
  | Idle | AtGuard _ _ | RRetry | WRetry => ROther
  end.

Definition roles (s : system) : list role := map (role_of (signaled s)) (threads s).

Definition is_reader (r : role) : option unit := match r with RReader => Some tt | _ => None end.
Definition is_writer (r : role) : option unit := match r with RWriter => Some tt | _ => None end.
Definition wait_r (r : role) : option nat := match r with RWaitR e => Some e | _ => None end.
Definition wait_w (r : role) : option nat := match r with RWaitW e => Some e | _ => None end.

Definition readers (R : list role) : Z := Z.of_nat (length (omap is_reader R)).
Definition writers (R : list role) : Z := Z.of_nat (length (omap is_writer R)).

(** The roles, the counter and the two queues belong together. *)
Record balanced (R : list role) (rc : Z) (qr qw : list nat) : Prop := Balanced {
  bal_r : omap wait_r R ≡ₚ qr;
  bal_w : omap wait_w R ≡ₚ qw;
  bal_count : rc = -1 /\ writers R = 1 /\ readers R = 0 \/ 0 <= rc /\ rc = readers R /\ writers R = 0
}.

#[export] Instance readers_proper : Proper ((≡ₚ) ==> (=)) readers.
Proof. intros R R' HR. unfold readers. by rewrite HR. Qed.
#[export] Instance writers_proper : Proper ((≡ₚ) ==> (=)) writers.
Proof. intros R R' HR. unfold writers. by rewrite HR. Qed.
#[export] Instance balanced_proper : Proper ((≡ₚ) ==> (=) ==> (=) ==> (=) ==> iff) balanced.
Proof.
  intros R R' HR rc ? <- qr ? <- qw ? <-. split; intros [H1 H2 H3].
  - split; [by rewrite <- HR|by rewrite <- HR|by rewrite <- HR].
  - split; [by rewrite HR|by rewrite HR|by rewrite HR].
Qed.

Lemma length_omap_le {A B} (f : A -> option B) l : (length (omap f l) <= length l)%nat.
Proof.
  induction l as [|x l IH]; [done|]. cbn [omap list_omap].
  destruct (f x); cbn [length]; [apply le_n_S|apply Nat.le_le_succ_r]; exact IH.
Qed.

Lemma readers_nonneg R : 0 <= readers R <= Z.of_nat (length R).
Proof. unfold readers. pose proof (length_omap_le is_reader R). lia. Qed.

(** ** Events that are set *)

Definition promote (es : list nat) (r : role) : role :=
  match r with
  | RWaitR e => if decide (e ∈ es) then RReader else r
  | RWaitW e => if decide (e ∈ es) then RWriter else r
  | _ => r
  end.

Lemma role_of_union sg es t : role_of (sg ∪ list_to_set es) t = promote es (role_of sg t).
Proof.
  assert (Hin : forall e, e ∈ sg ∪ list_to_set es <-> e ∈ sg \/ e ∈ es) by (intros e; set_solver).
  destruct t; cbn; try done; repeat (case_decide || cbn); try done; rewrite Hin in *; tauto.
Qed.

Lemma promote_waits es R :
  omap wait_r (map (promote es) R) = filter (fun e => e ∉ es) (omap wait_r R) /\
  omap wait_w (map (promote es) R) = filter (fun e => e ∉ es) (omap wait_w R).
Proof.
  induction R as [|r R [IH1 IH2]]; [done|]. cbn [map omap list_omap].
  destruct r as [| | |e|e]; cbn [promote wait_r wait_w]; try done; case_decide; cbn [wait_r wait_w]; rewrite ?filter_cons.
  - rewrite decide_False by (by intros Hn). done.
  - rewrite decide_True by done. split; [|done]. by f_equal.
  - rewrite decide_False by (by intros Hn). done.
  - rewrite decide_True by done. split; [done|]. by f_equal.
Qed.

Lemma promote_counts es R :
  readers (map (promote es) R) = readers R + Z.of_nat (length (filter (fun e => e ∈ es) (omap wait_r R))) /\
  writers (map (promote es) R) = writers R + Z.of_nat (length (filter (fun e => e ∈ es) (omap wait_w R))).
Proof.
  unfold readers, writers. induction R as [|r R [IH1 IH2]]; [done|]. cbn [map omap list_omap].
  destruct r as [| | |e|e]; cbn [promote wait_r wait_w is_reader is_writer length]; try (split; lia);
    case_decide; cbn [is_reader is_writer length]; rewrite filter_cons; destruct (decide (e ∈ es)); try done;
    cbn [length]; split; lia.
Qed.

Lemma filter_all {A} (P : A -> Prop) `{!forall x, Decision (P x)} l : Forall P l -> filter P l = l.
Proof. induction 1 as [|x l Hx _ IH]; [done|]. rewrite filter_cons_True by done. by rewrite IH. Qed.

Lemma filter_none {A} (P : A -> Prop) `{!forall x, Decision (P x)} l : Forall (fun x => ~ P x) l -> filter P l = [].
Proof. induction 1 as [|x l Hx _ IH]; [done|]. by rewrite filter_cons_False. Qed.

(** A free lock is handed over. *)
Lemma hand_over_ok R l qr qw :
  runcount l = 0 -> queue_is (waiting_readers l) qr -> queue_is (waiting_writers l) qw -> NoDup (qr ++ qw) ->
  Z.of_nat (length qr) < 2 ^ 30 -> balanced R 0 qr qw ->
  exists es l' qr' qw', hand_over l = Some (es, l') /\ guard l' = guard l /\
    queue_is (waiting_readers l') qr' /\ queue_is (waiting_writers l') qw' /\ qr ++ qw ≡ₚ es ++ qr' ++ qw' /\
    balanced (map (promote es) R) (runcount l') qr' qw' /\ (runcount l' = 0 -> qr' = [] /\ qw' = []) /\
    (forall e q, qw = e :: q -> es = [e] /\ qw' = q) /\ (qw = [] -> qw' = [] /\ qr' = [] /\ es = qr).
Proof.
  intros Hrc Hr Hw Hnd Hlen [Br Bw Bc]. change (2 ^ 30) with 1073741824 in Hlen. unfold hand_over. rewrite Hrc, (qi_count _ _ Hw).
  destruct (promote_counts qr R) as [Pr Pw]. destruct (promote_waits qr R) as [Wr Ww].
  apply NoDup_app in Hnd as (Hndr & Hdis & Hndw). destruct qw as [|e qw].
  - cbn [length]. rewrite (proj2 (Z.ltb_ge _ _)) by lia. rewrite (qi_count _ _ Hr). unfold int_value, INT_MAX.
    rewrite (proj2 (Z.leb_le _ _)) by (change (2 ^ 31) with 2147483648; lia). cbn [mbind option_bind].
    destruct (notify_all_ok _ _ Hr) as (wq' & -> & Hwq'). cbn [mbind option_bind].
    eexists qr, _, [], []. split_and!; [done|done|done|done|by rewrite !app_nil_r| | |done|done].
    + apply Permutation_nil_r in Bw. rewrite Bw in Pw, Ww.
      rewrite filter_none in Wr.
      2: { rewrite Br. apply Forall_forall. intros x Hx Hn. done. }
      rewrite filter_all in Pr by (rewrite Br; by apply Forall_forall). rewrite Br in Pr.
      cbn in Pw, Ww. split; cbn; [by rewrite Wr|by rewrite Ww|right; lia].
    + cbn. intros E. destruct qr; [done|cbn [length] in E; lia].
  - cbn [length]. rewrite (proj2 (Z.ltb_lt _ _)) by lia. destruct (notify_first_ok _ _ _ Hw) as (wq' & -> & Hwq').
    cbn [mbind option_bind]. eexists [e], _, qr, qw.
    split_and!; [done|done|done|done| | |cbn; lia|by intros ? ? [= <- <-]|done].
    + cbn [app]. by rewrite <- Permutation_middle.
    + destruct (promote_counts [e] R) as [Pr' Pw']. destruct (promote_waits [e] R) as [Wr' Ww'].
      apply NoDup_cons in Hndw as [Hne Hndw].
      assert (Hall : Forall (fun x => x ∉ [e]) qr).
      { apply Forall_forall. intros x Hx Hin. apply list_elem_of_singleton in Hin as ->. apply (Hdis e Hx). by left. }
      assert (Hall' : Forall (fun x => x ∉ [e]) qw).
      { apply Forall_forall. intros x Hx Hin. by apply list_elem_of_singleton in Hin as ->. }
      assert (Er : filter (fun x => x ∈ [e]) (omap wait_r R) = []) by (apply filter_none; by rewrite Br).
      assert (Ew : Z.of_nat (length (filter (fun x => x ∈ [e]) (omap wait_w R))) = 1).
      { rewrite Bw, filter_cons_True by (by left). rewrite filter_none by done. done. }
      rewrite Er in Pr'. rewrite Ew in Pw'. cbn in Pr'. split; cbn.
      * rewrite Wr', filter_all; [done|by rewrite Br].
      * rewrite Ww', Bw, filter_cons_False by (intros Hn; apply Hn; by left). by rewrite filter_all.
      * left. lia.
Qed.

(** ** The invariant *)

(** Where a thread is with respect to the guard. *)
Definition view (t : thread) : guard_pc := match t with Idle => GOut | AtGuard _ pc => pc | _ => GIn end.


(** The queues have the events [qr] and [qw]. *)
Record sys_ok (s : system) (qr qw : list nat) : Prop := SysOk {
  so_r : queue_is (waiting_readers (lock s)) qr;
  so_w : queue_is (waiting_writers (lock s)) qw;
  so_nodup : NoDup (qr ++ qw);
  so_next : forall e, e ∈ qr ++ qw -> (e < next_event s)%nat;
  so_sig : forall e, e ∈ signaled s -> (e < next_event s)%nat /\ e ∉ qr ++ qw;
  so_null : (0 < next_event s)%nat /\ NULL ∉ qr ++ qw /\ NULL ∉ signaled s;
  so_bal : balanced (roles s) (runcount (lock s)) qr qw;
  so_free : runcount (lock s) = 0 -> qr = [] /\ qw = [];
  so_guard : guard_ok (guard (lock s)) (map view (threads s));
  so_before : guard_done (guard (lock s)) = false -> runcount (lock s) = 0;
  so_few : Z.of_nat (length (threads s)) < 2 ^ 30 - 1
}.

Lemma start_ok n : Z.of_nat n < 2 ^ 30 - 1 -> sys_ok (rw_start n) [] [].
Proof.
  intros Hn. assert (Hw : forall e, e ∉ ([] : list nat)) by (intros e; apply not_elem_of_nil).
  assert (HR : roles (rw_start n) = replicate n ROther) by exact (fmap_replicate (role_of ∅) n Idle).
  assert (Ho : forall k {B} (f : role -> option B), f ROther = None -> omap f (replicate k ROther) = []).
  { intros k B f Hf. induction k as [|k IH]; [done|]. cbn [replicate omap list_omap]. by rewrite Hf. }
  split; try done.
  - apply queue_init.
  - apply queue_init.
  - constructor.
  - intros e He. by apply Hw in He.
  - split; [cbn; lia|]. split; [by apply Hw|by apply not_elem_of_empty].
  - rewrite HR. split; cbn.
    + by rewrite Ho.
    + by rewrite Ho.
    + right. unfold readers, writers. by rewrite !Ho.
  - cbn. replace (map view _) with (replicate n GOut) by (symmetry; exact (fmap_replicate view n Idle)). apply guard_ok_start.
  - cbn. by rewrite length_replicate.
Qed.

Lemma waiting_few s qr qw : sys_ok s qr qw ->
  Z.of_nat (length qr) < 2 ^ 30 - 1 /\ Z.of_nat (length qw) < 2 ^ 30 - 1 /\ readers (roles s) < 2 ^ 30 - 1.
Proof.
  intros [_ _ _ _ _ _ [Br Bw _] _ _ _ Hf].
  pose proof (length_omap_le wait_r (roles s)) as H1. rewrite Br in H1. pose proof (length_omap_le wait_w (roles s)) as H2. rewrite Bw in H2.
  pose proof (readers_nonneg (roles s)). unfold roles in *. rewrite length_map in *. lia.
Qed.

Lemma roles_put s i t l nx : roles (System l (<[i := t]> (threads s)) (signaled s) nx) = <[i := role_of (signaled s) t]> (roles s).
Proof. apply list_fmap_insert. Qed.

Lemma roles_lookup s i t : threads s !! i = Some t -> roles s !! i = Some (role_of (signaled s) t).
Proof. intros H. unfold roles. rewrite list_lookup_fmap. by rewrite H. Qed.

Lemma view_lookup s i t : threads s !! i = Some t -> map view (threads s) !! i = Some (view t).
Proof. intros Hi. by rewrite list_lookup_fmap, Hi. Qed.

Lemma view_insert (l : list thread) i t : map view (<[i := t]> l) = <[i := view t]> (map view l).
Proof. apply list_fmap_insert. Qed.

(** The guard of a thread that is past it stays as it is. *)
Lemma past_guard s qr qw i t t' : sys_ok s qr qw -> threads s !! i = Some t -> view t = GIn -> view t' = GIn \/ view t' = GOut ->
  guard_done (guard (lock s)) = true /\ guard_ok (guard (lock s)) (map view (<[i := t']> (threads s))).
Proof.
  intros Hok Hi Hv Hv'. pose proof (view_lookup s i t Hi) as Hvi. rewrite Hv in Hvi. split.
  - by apply (guard_in_done _ _ i (so_guard _ _ _ Hok)).
  - rewrite view_insert. by apply guard_in_ok; [apply Hok|..].
Qed.

(** A step that does not create or set events: the thread [i] goes from [t] to [t']. *)
Lemma sys_ok_move s qr qw i t t' l :
  sys_ok s qr qw -> threads s !! i = Some t ->
  queue_is (waiting_readers l) qr -> queue_is (waiting_writers l) qw ->
  (forall rest, balanced (role_of (signaled s) t :: rest) (runcount (lock s)) qr qw ->
     balanced (role_of (signaled s) t' :: rest) (runcount l) qr qw) ->
  (runcount l = 0 -> qr = [] /\ qw = []) ->
  guard_ok (guard l) (map view (<[i := t']> (threads s))) -> (guard_done (guard l) = false -> runcount l = 0) ->
  forall nx, (next_event s <= nx)%nat -> sys_ok (System l (<[i := t']> (threads s)) (signaled s) nx) qr qw.
Proof.
  intros [H1 H2 H3 H4 H5 (HN1 & HN2 & HN3) H6 H7 H8 H9 H10] Hi Hr Hw Hb Hf Hg Hg' nx Hnx.
  destruct (list_update_perm (roles s) i _ (roles_lookup s i t Hi)) as (rest & P1 & P2).
  split; cbn [lock threads signaled next_event]; [done|done|done| | | | |done|done|done|by rewrite length_insert].
  - intros e He. specialize (H4 e He). lia.
  - intros e He. destruct (H5 e He). split; [lia|done].
  - split_and!; [lia|done..].
  - rewrite roles_put, P2. apply Hb. by rewrite <- P1.
Qed.

(** The same of a thread that is past the guard. *)
Lemma sys_ok_put s qr qw i t t' l :
  sys_ok s qr qw -> threads s !! i = Some t -> view t = GIn -> view t' = GIn \/ view t' = GOut -> guard l = guard (lock s) ->
  queue_is (waiting_readers l) qr -> queue_is (waiting_writers l) qw ->
  (forall rest, balanced (role_of (signaled s) t :: rest) (runcount (lock s)) qr qw ->
     balanced (role_of (signaled s) t' :: rest) (runcount l) qr qw) ->
  (runcount l = 0 -> qr = [] /\ qw = []) ->
  forall nx, (next_event s <= nx)%nat -> sys_ok (System l (<[i := t']> (threads s)) (signaled s) nx) qr qw.
Proof.
  intros Hok Hi Hv Hv' Hg Hr Hw Hb Hf nx Hnx. destruct (past_guard s qr qw i t t' Hok Hi Hv Hv') as [Hd Hgo].
  apply (sys_ok_move s qr qw i t); rewrite ?Hg; auto. intros E. congruence.
Qed.

(** A thread that has to wait is the last one of its queue. *)
Lemma sys_ok_wait s qr qw qr' qw' i t t' l :
  sys_ok s qr qw -> threads s !! i = Some t -> view t = GIn -> view t' = GIn -> role_of (signaled s) t = ROther ->
  guard l = guard (lock s) ->
  queue_is (waiting_readers l) qr' -> queue_is (waiting_writers l) qw' ->
  qr' ++ qw' ≡ₚ next_event s :: qr ++ qw -> runcount l = runcount (lock s) -> runcount l <> 0 ->
  (forall rest, balanced (ROther :: rest) (runcount (lock s)) qr qw ->
     balanced (role_of (signaled s) t' :: rest) (runcount (lock s)) qr' qw') ->
  sys_ok (System l (<[i := t']> (threads s)) (signaled s) (S (next_event s))) qr' qw'.
Proof.
  intros Hok Hi Hv Hv' Hro Hg Hr Hw Hp Erc Hne Hb. pose proof Hok as [H1 H2 H3 H4 H5 (HN1 & HN2 & HN3) H6 H7 H8 H9 H10].
  destruct (past_guard s qr qw i t t' Hok Hi Hv (or_introl Hv')) as [Hd Hgo].
  destruct (list_update_perm (roles s) i _ (roles_lookup s i t Hi)) as (rest & P1 & P2). rewrite Hro in P1.
  split; cbn [lock threads signaled next_event]; [done|done| | | | | |done|by rewrite Hg| |by rewrite length_insert].
  - rewrite Hp. constructor; [|done]. intros Hin. apply H4 in Hin. lia.
  - intros e. rewrite Hp, elem_of_cons. intros [->|He]; [lia|]. specialize (H4 e He). lia.
  - intros e He. destruct (H5 e He) as [H11 H12]. split; [lia|]. rewrite Hp, not_elem_of_cons. split; [lia|done].
  - split_and!; [lia| |done]. rewrite Hp, not_elem_of_cons. split; [unfold NULL; lia|done].
  - rewrite roles_put, P2, Erc. apply Hb. by rewrite <- P1.
  - rewrite Hg. congruence.
Qed.

(** ** Steps *)

(** The lock becomes free in this step, and is handed over. *)
Definition releases (s : system) (i : nat) (a : action) : bool :=
  match threads s !! i, a with
  | Some Reading, Unlock => runcount (lock s) =? 1
  | Some Writing, Unlock => true
  | _, _ => false
  end.

(** What a step does to the queue of writers: a release takes the first one, other
    steps add at the end. *)
Definition queue_step (release : bool) (qw qw' : list nat) (s' : system) : Prop :=
  if release then match qw with e :: q => qw' = q /\ e ∈ signaled s' | [] => qw' = [] end
  else qw' = qw \/ exists e, qw' = qw ++ [e].

Definition step_ok (s : system) (qw : list nat) (release : bool) (o : outcome system) : Prop :=
  match o with
  | Crash => False
  | Blocked => True
  | Done s' => signaled s ⊆ signaled s' /\
      exists qr' qw', sys_ok s' qr' qw' /\ queue_step release qw qw' s'
  end.

Section Steps.
Context (garbage : nat -> nat).

Lemma created_some (created : bool) (n ev : nat) : (if created then Some n else None) = Some ev -> ev = n.
Proof using Type. by destruct created; [intros [= ->]|]. Qed.

Lemma not_signaled s qr qw : sys_ok s qr qw -> next_event s ∉ signaled s.
Proof using Type. intros Hok Hin. destruct (so_sig _ _ _ Hok _ Hin). lia. Qed.

Lemma rdlock_ok s qr qw (i : nat) (mal : bool) (event : option nat) :
  sys_ok s qr qw -> threads s !! i = Some (AtGuard false GIn) -> event = None \/ event = Some (next_event s) ->
  step_ok s qw false (requested s i reader_of (rdlock_enter mal garbage event (lock s))).
Proof using Type.
  intros Hok Hi Hevent. pose proof Hok as [H1 H2 H3 H4 H5 _ H6 H7 _ _ _]. pose proof (waiting_few _ _ _ Hok) as (L1 & L2 & L3).
  pose proof (readers_nonneg (roles s)) as L4. change (2 ^ 30) with 1073741824 in *.
  unfold rdlock_enter, int_value, INT_MAX. change (2 ^ 31 - 1) with 2147483647.
  pose proof (bal_count _ _ _ _ H6) as Hc. rewrite (proj2 (Z.leb_le _ _)) by lia. cbn [mbind option_bind].
  destruct (Z.ltb_spec 0 (runcount (lock s) + 1)) as [Hpos|Hneg]; cbn [negb].
  - cbn [requested step_ok]. split; [done|]. exists qr, qw. split; [|by left].
    apply (sys_ok_put s qr qw i (AtGuard false GIn)); auto.
    + intros rest [B1 B2 B3]. split; [done|done|right]. cbn [runcount with_runcount]. unfold readers, writers in *. cbn in *. lia.
    + cbn. lia.
  - assert (Erc : runcount (lock s) = -1) by lia.
    destruct (add_ok mal garbage event _ qr H1) as (e & wq' & -> & He);
      [change (2 ^ 30) with 1073741824; lia|]. cbn [mbind option_bind requested step_ok]. split; [done|].
    destruct e as [ev|]; cbn [entry_of reader_of].
    + destruct He as [Hev Hq]. assert (ev = next_event s) as -> by (destruct Hevent; congruence).
      exists (qr ++ [next_event s]), qw. split; [|by left].
      apply (sys_ok_wait s qr qw _ _ i (AtGuard false GIn)); auto; [|cbn; lia|].
      * rewrite <- app_assoc. cbn. by rewrite Permutation_middle.
      * intros rest [B1 B2 B3]. cbn [role_of]. rewrite decide_False by (by eapply not_signaled).
        split; [|done|done]. cbn [omap list_omap wait_r] in *. rewrite B1. by rewrite Permutation_app_comm.
    + exists qr, qw. split; [|by left]. apply (sys_ok_put s qr qw i (AtGuard false GIn)); auto.
Qed.

Lemma wrlock_ok s qr qw (i : nat) (mal : bool) (event : option nat) :
  sys_ok s qr qw -> threads s !! i = Some (AtGuard true GIn) -> event = None \/ event = Some (next_event s) ->
  step_ok s qw false (requested s i writer_of (wrlock_enter mal garbage event (lock s))).
Proof using Type.
  intros Hok Hi Hevent. pose proof Hok as [H1 H2 H3 H4 H5 _ H6 H7 _ _ _]. pose proof (waiting_few _ _ _ Hok) as (L1 & L2 & L3).
  change (2 ^ 30) with 1073741824 in *. unfold wrlock_enter.
  destruct (Z.eqb_spec (runcount (lock s)) 0) as [E0|Hne]; cbn [negb].
  - cbn [requested step_ok]. split; [done|]. exists qr, qw. split; [|by left]. destruct (H7 E0) as [-> ->].
    apply (sys_ok_put s [] [] i (AtGuard true GIn)); auto.
    intros rest [B1 B2 B3]. split; [done|done|left]. cbn [runcount with_runcount]. unfold readers, writers in *. cbn in *. lia.
  - destruct (add_ok mal garbage event _ qw H2) as (e & wq' & -> & He);
      [change (2 ^ 30) with 1073741824; lia|]. cbn [mbind option_bind requested step_ok]. split; [done|].
    destruct e as [ev|]; cbn [entry_of writer_of].
    + destruct He as [Hev Hq]. assert (ev = next_event s) as -> by (destruct Hevent; congruence).
      exists qr, (qw ++ [next_event s]). split; [|right; by eexists].
      apply (sys_ok_wait s qr qw _ _ i (AtGuard true GIn)); auto.
      * rewrite app_assoc. by rewrite Permutation_app_comm.
      * intros rest [B1 B2 B3]. cbn [role_of]. rewrite decide_False by (by eapply not_signaled).
        split; [done| |done]. cbn [omap list_omap wait_w] in *. rewrite B2. by rewrite Permutation_app_comm.
    + exists qr, qw. split; [|by left]. by apply (sys_ok_put s qr qw i (AtGuard true GIn)); auto.
Qed.

End Steps.

(** The guard does not change what the lock means. *)
Lemma sys_ok_guard s qr qw i t t' g : sys_ok s qr qw -> threads s !! i = Some t ->
  role_of (signaled s) t = ROther -> role_of (signaled s) t' = ROther ->
  guard_ok g (map view (<[i := t']> (threads s))) -> guard_done g = guard_done (guard (lock s)) ->
  step_ok s qw false (Done (put s i t' (RwLock g (waiting_readers (lock s)) (waiting_writers (lock s)) (runcount (lock s))))).
Proof.
  intros Hok Hi Hr Hr' Hg Hd. cbn [step_ok put]. split; [done|]. exists qr, qw. split; [|by left].
  apply (sys_ok_move s qr qw i t); try done; try apply Hok.
  - intros rest. by rewrite Hr, Hr'.
  - cbn [guard runcount]. rewrite Hd. apply Hok.
Qed.

Lemma rwlock_eta l : RwLock (guard l) (waiting_readers l) (waiting_writers l) (runcount l) = l.
Proof. by destruct l. Qed.

Lemma request_ok s qr qw i w : sys_ok s qr qw -> threads s !! i = Some Idle ->
  step_ok s qw false (Done (put s i (AtGuard w (guard_test (guard (lock s)))) (lock s))).
Proof.
  intros Hok Hi. rewrite <- (rwlock_eta (lock s)) at 2. apply (sys_ok_guard s qr qw i Idle); try done.
  rewrite view_insert. cbn [view]. apply guard_test_ok; [apply Hok|]. by apply view_lookup in Hi.
Qed.

Lemma guard_exec_ok s qr qw i w pc : sys_ok s qr qw -> threads s !! i = Some (AtGuard w pc) ->
  step_ok s qw false (guard_exec s i w pc).
Proof.
  intros Hok Hi. pose proof (view_lookup s i _ Hi) as Hv. cbn [view] in Hv. unfold guard_exec.
  assert (Hfew : Z.of_nat (length (map view (threads s))) < 2 ^ 31 - 1).
  { rewrite length_map. pose proof (so_few _ _ _ Hok) as H. change (2 ^ 30) with 1073741824 in H. change (2 ^ 31) with 2147483648. lia. }
  destruct pc; [done| | | |done].
  - pose proof (guard_increment_ok _ _ i (so_guard _ _ _ Hok) Hfew Hv) as Hg. unfold guard_increment in *. cbn [fst snd] in Hg.
    apply (sys_ok_guard s qr qw i (AtGuard w GIncrement)); try done. by rewrite view_insert.
  - pose proof (guard_init_not_done _ _ i (so_guard _ _ _ Hok) Hv) as Hnd. pose proof (so_before _ _ _ Hok Hnd) as Hrc.
    destruct (so_free _ _ _ Hok Hrc) as [-> ->]. cbn [step_ok put]. split; [done|]. exists [], []. split.
    + apply (sys_ok_move s [] [] i (AtGuard w GInit)); try done; try apply queue_init.
      * intros rest. by rewrite Hrc.
      * rewrite view_insert. cbn [view glthread_rwlock_init_func guard]. by apply guard_init_ok; [apply Hok|].
    + by left.
  - destruct (guard_spin (guard (lock s))) as [pc| |] eqn:E; cbn [outcome_bind]; [|done|unfold guard_spin in E; by destruct (negb _)].
    destruct (guard_spin_ok _ _ i (so_guard _ _ _ Hok) pc Hv E) as [-> Hg].
    rewrite <- (rwlock_eta (lock s)). apply (sys_ok_guard s qr qw i (AtGuard w GSpin)); try done. by rewrite view_insert.
Qed.
Lemma rd_retry_ok s qr qw i : sys_ok s qr qw -> threads s !! i = Some RRetry ->
  step_ok s qw false (retried s i reader_of (rdlock_retry (lock s))).
Proof.
  intros Hok Hi. pose proof Hok as [H1 H2 H3 H4 H5 _ H6 H7 _ _ _]. pose proof (waiting_few _ _ _ Hok) as (L1 & L2 & L3).
  pose proof (readers_nonneg (roles s)) as L4. change (2 ^ 30) with 1073741824 in *.
  unfold rdlock_retry, int_value, INT_MAX. change (2 ^ 31 - 1) with 2147483647.
  pose proof (bal_count _ _ _ _ H6) as Hc. rewrite (proj2 (Z.leb_le _ _)) by lia. cbn [mbind option_bind].
  destruct (Z.ltb_spec 0 (runcount (lock s) + 1)) as [Hpos|Hneg]; cbn [negb retried step_ok put];
    (split; [done|]); exists qr, qw; (split; [|by left]).
  - apply (sys_ok_put s qr qw i RRetry); auto.
    + intros rest [B1 B2 B3]. split; [done|done|right]. cbn [runcount with_runcount]. unfold readers, writers in *. cbn in *. lia.
    + cbn. lia.
  - by apply (sys_ok_put s qr qw i RRetry); auto.
Qed.

Lemma wr_retry_ok s qr qw i : sys_ok s qr qw -> threads s !! i = Some WRetry ->
  step_ok s qw false (retried s i writer_of (wrlock_retry (lock s))).
Proof.
  intros Hok Hi. pose proof Hok as [H1 H2 H3 H4 H5 _ H6 H7 _ _ _]. unfold wrlock_retry.
  destruct (Z.eqb_spec (runcount (lock s)) 0) as [E0|Hne]; cbn [negb retried step_ok put];
    (split; [done|]); exists qr, qw; (split; [|by left]).
  - destruct (H7 E0) as [-> ->]. apply (sys_ok_put s [] [] i WRetry); auto.
    intros rest [B1 B2 B3]. split; [done|done|left]. cbn [runcount with_runcount]. unfold readers, writers in *. cbn in *. lia.
  - by apply (sys_ok_put s qr qw i WRetry); auto.
Qed.

(** A thread that runs is counted. *)
Lemma reader_counted s qr qw i t : sys_ok s qr qw -> threads s !! i = Some t -> role_of (signaled s) t = RReader ->
  0 < runcount (lock s).
Proof.
  intros Hok Hi Hr. destruct (list_update_perm _ _ _ (roles_lookup s i t Hi)) as (rest & P & _).
  pose proof (bal_count _ _ _ _ (so_bal _ _ _ Hok)) as Hc. rewrite P, Hr in Hc. unfold readers in Hc. cbn in Hc. lia.
Qed.

Lemma writer_counted s qr qw i t : sys_ok s qr qw -> threads s !! i = Some t -> role_of (signaled s) t = RWriter ->
  runcount (lock s) = -1.
Proof.
  intros Hok Hi Hr. destruct (list_update_perm _ _ _ (roles_lookup s i t Hi)) as (rest & P & _).
  pose proof (bal_count _ _ _ _ (so_bal _ _ _ Hok)) as Hc. rewrite P, Hr in Hc. unfold writers in Hc. cbn in Hc. lia.
Qed.

(** An event a writer waits for is set or in the queue. *)
Lemma writer_queued s qr qw i e : sys_ok s qr qw -> threads s !! i = Some (WWait e) -> e ∈ signaled s \/ e ∈ qw.
Proof.
  intros Hok Hi. destruct (decide (e ∈ signaled s)) as [Hin|Hni]; [by left|right].
  destruct (list_update_perm _ _ _ (roles_lookup s i _ Hi)) as (rest & P & _). cbn [role_of] in P. rewrite decide_False in P by done.
  rewrite <- (bal_w _ _ _ _ (so_bal _ _ _ Hok)), P. cbn [omap list_omap wait_w]. apply list_elem_of_here.
Qed.

Lemma reader_queued s qr qw i e : sys_ok s qr qw -> threads s !! i = Some (RWait e) -> e ∈ signaled s \/ e ∈ qr.
Proof.
  intros Hok Hi. destruct (decide (e ∈ signaled s)) as [Hin|Hni]; [by left|right].
  destruct (list_update_perm _ _ _ (roles_lookup s i _ Hi)) as (rest & P & _). cbn [role_of] in P. rewrite decide_False in P by done.
  rewrite <- (bal_r _ _ _ _ (so_bal _ _ _ Hok)), P. cbn [omap list_omap wait_r]. apply list_elem_of_here.
Qed.

Lemma waits_queued s qr qw i e : sys_ok s qr qw -> threads s !! i = Some (RWait e) \/ threads s !! i = Some (WWait e) ->
  e ∈ signaled s \/ e ∈ qr ++ qw.
Proof.
  rewrite elem_of_app. intros Hok [Hi|Hi].
  - destruct (reader_queued s qr qw i e Hok Hi); auto.
  - destruct (writer_queued s qr qw i e Hok Hi); auto.
Qed.

(** So it is not NULL. *)
Lemma wait_for_ok s qr qw i e next : sys_ok s qr qw -> threads s !! i = Some (RWait e) \/ threads s !! i = Some (WWait e) ->
  (e ∈ signaled s -> step_ok s qw false next) -> step_ok s qw false (wait_for s e next).
Proof.
  intros Hok Hi Hnext. unfold wait_for. rewrite decide_False.
  - case_decide; [by apply Hnext|done].
  - intros ->. destruct (so_null _ _ _ Hok) as (_ & H1 & H2). by destruct (waits_queued s qr qw i _ Hok Hi).
Qed.

(** A thread that wakes up had the lock already: its check succeeds. *)
Lemma wake_reader_ok s qr qw i e : sys_ok s qr qw -> threads s !! i = Some (RWait e) ->
  step_ok s qw false (wait_for s e (match rdlock_woken (lock s) with None => Crash | Some l => Done (put s i Reading l) end)).
Proof.
  intros Hok Hi. apply (wait_for_ok s qr qw i); [done|by left|]. intros He.
  assert (Hr : role_of (signaled s) (RWait e) = RReader) by (cbn; by rewrite decide_True).
  pose proof (reader_counted s qr qw i _ Hok Hi Hr). unfold rdlock_woken. rewrite (proj2 (Z.ltb_lt _ _)) by done.
  cbn [negb step_ok put]. split; [done|]. exists qr, qw. split; [|by left].
  apply (sys_ok_put s qr qw i (RWait e)); auto; try apply Hok. by rewrite Hr.
Qed.

Lemma wake_writer_ok s qr qw i e : sys_ok s qr qw -> threads s !! i = Some (WWait e) ->
  step_ok s qw false (wait_for s e (match wrlock_woken (lock s) with None => Crash | Some l => Done (put s i Writing l) end)).
Proof.
  intros Hok Hi. apply (wait_for_ok s qr qw i); [done|by right|]. intros He.
  assert (Hr : role_of (signaled s) (WWait e) = RWriter) by (cbn; by rewrite decide_True).
  pose proof (writer_counted s qr qw i _ Hok Hi Hr) as Hc. unfold wrlock_woken. rewrite (proj2 (Z.eqb_eq _ _)) by done.
  cbn [negb step_ok put]. split; [done|]. exists qr, qw. split; [|by left].
  apply (sys_ok_put s qr qw i (WWait e)); auto; try apply Hok. by rewrite Hr.
Qed.

Lemma roles_union sg es (l : list thread) : role_of (sg ∪ list_to_set es) <$> l = promote es <$> (role_of sg <$> l).
Proof. rewrite <- list_fmap_compose. apply list_fmap_ext. intros _ t _. apply role_of_union. Qed.

(** The release of a lock that becomes free. *)
Lemma release_ok s qr qw i t l : sys_ok s qr qw -> threads s !! i = Some t -> view t = GIn -> guard l = guard (lock s) ->
  waiting_readers l = waiting_readers (lock s) -> waiting_writers l = waiting_writers (lock s) -> runcount l = 0 ->
  (forall rest, balanced (role_of (signaled s) t :: rest) (runcount (lock s)) qr qw -> balanced (ROther :: rest) 0 qr qw) ->
  step_ok s qw true (match ('(es, l) ← hand_over l; Some (0, es, l)) with
    | None => Crash
    | Some (_, es, l) => Done (System l (<[i := Idle]> (threads s)) (signaled s ∪ list_to_set es) (next_event s))
    end).
Proof.
  intros Hok Hi Hv Eg Er Ew Erc Hbal. pose proof Hok as [H1 H2 H3 H4 H5 (HN1 & HN2 & HN3) H6 H7 _ _ H8].
  destruct (past_guard s qr qw i t Idle Hok Hi Hv (or_intror eq_refl)) as [Hd Hgo].
  destruct (list_update_perm (roles s) i _ (roles_lookup s i t Hi)) as (rest & P1 & P2). rewrite P1 in H6.
  pose proof (waiting_few _ _ _ Hok) as (L1 & L2 & _).
  destruct (hand_over_ok (<[i := ROther]> (roles s)) l qr qw) as
    (es & l' & qr' & qw' & -> & Q0 & Q1 & Q2 & Q3 & Q4 & Q5 & Q6 & Q7); [done|by rewrite Er|by rewrite Ew|done|lia| |].
  { rewrite P2. by apply Hbal. }
  cbn [mbind option_bind step_ok signaled]. split; [apply union_subseteq_l|]. exists qr', qw'. split.
  - assert (Hnd : NoDup (es ++ qr' ++ qw')) by (by rewrite <- Q3).
    apply NoDup_app in Hnd as (_ & Hdis & Hnd).
    split; cbn [lock threads signaled next_event]; [done|done|done| | | | |done|by rewrite Q0, Eg|rewrite Q0, Eg; congruence|by rewrite length_insert].
    + intros e He. apply H4. rewrite Q3, elem_of_app. by right.
    + intros e He. apply elem_of_union in He as [He|He].
      * destruct (H5 e He) as [H9 H10]. split; [done|]. rewrite Q3, not_elem_of_app in H10. tauto.
      * apply elem_of_list_to_set in He. split; [|by apply Hdis]. apply H4. rewrite Q3, elem_of_app. by left.
    + rewrite Q3, not_elem_of_app in HN2. split_and!; [done|exact (proj2 HN2)|].
      rewrite not_elem_of_union, not_elem_of_list_to_set. tauto.
    + replace (roles _) with (map (promote es) (<[i := ROther]> (roles s))); [done|].
      assert (E : <[i := ROther]> (roles s) = role_of (signaled s) <$> <[i := Idle]> (threads s))
        by (symmetry; exact (list_fmap_insert (role_of (signaled s)) (threads s) i Idle)).
      rewrite E. exact (eq_sym (roles_union _ _ _)).
  - unfold queue_step. destruct qw as [|e q]; [by apply Q7|]. destruct (Q6 e q eq_refl) as [-> ->]. split; [done|].
    cbn [signaled]. apply elem_of_union_r, elem_of_list_to_set, list_elem_of_here.
Qed.

Lemma unlock_ok s qr qw i t : sys_ok s qr qw -> threads s !! i = Some t -> t = Reading \/ t = Writing ->
  step_ok s qw (releases s i Unlock) (match glthread_rwlock_unlock_func (lock s) with
    | None => Crash
    | Some (_, es, l) => Done (System l (<[i := Idle]> (threads s)) (signaled s ∪ list_to_set es) (next_event s))
    end).
Proof.
  intros Hok Hi Ht. assert (Hv : view t = GIn) by (by destruct Ht as [->| ->]).
  destruct (past_guard s qr qw i t Idle Hok Hi Hv (or_intror eq_refl)) as [Hd _].
  unfold glthread_rwlock_unlock_func, releases. rewrite Hi, Hd. cbn [negb]. destruct Ht as [->| ->].
  - pose proof (reader_counted s qr qw i _ Hok Hi eq_refl) as Hc. pose proof (bal_count _ _ _ _ (so_bal _ _ _ Hok)) as Hb.
    rewrite (proj2 (Z.ltb_ge _ _)) by lia. rewrite (proj2 (Z.ltb_lt _ _)) by lia. cbn [negb runcount with_runcount].
    destruct (Z.eqb_spec (runcount (lock s)) 1) as [E1|Hne].
    + rewrite E1. change (1 - 1 =? 0) with true. cbv iota. apply (release_ok s qr qw i Reading); try done.
      intros rest [B1 B2 B3]. split; [done|done|right]. unfold readers, writers in *. cbn in *. lia.
    + rewrite (proj2 (Z.eqb_neq _ _)) by lia. cbn [list_to_set]. rewrite union_empty_r_L. cbn [step_ok signaled].
      split; [done|]. exists qr, qw. split; [|by left].
      apply (sys_ok_put s qr qw i Reading); auto; try apply Hok; [|cbn; lia].
      intros rest [B1 B2 B3]. split; [done|done|right]. cbn [runcount with_runcount]. unfold readers, writers in *. cbn in *. lia.
  - pose proof (writer_counted s qr qw i _ Hok Hi eq_refl) as Hc. rewrite Hc. change (-1 <? 0) with true.
    cbv iota. change (-1 =? -1) with true. cbn [negb runcount with_runcount]. change (0 =? 0) with true. cbv iota.
    apply (release_ok s qr qw i Writing); try done.
    intros rest [B1 B2 B3]. split; [done|done|right]. unfold readers, writers in *. cbn in *. lia.
Qed.

Lemma rw_exec_ok garbage s qr qw i a : sys_ok s qr qw -> event_created a = true -> step_ok s qw (releases s i a) (rw_exec garbage s i a).
Proof.
  intros Hok Hc. unfold rw_exec. destruct (threads s !! i) as [t|] eqn:Hi; [|by destruct a].
  assert (Hnr : t <> Reading -> t <> Writing -> releases s i a = false).
  { unfold releases. rewrite Hi. by destruct t. }
  destruct t as [|w pc|e| | |e| |], a as [| | |mal created| | |]; try rewrite Hnr by done; try done; try by destruct pc.
  - by apply (request_ok s qr).
  - by apply (request_ok s qr).
  - destruct pc; by apply (guard_exec_ok s qr).
  - destruct pc; try done. cbn [event_created] in Hc. subst created. cbn [CreateEvent]. destruct w.
    + apply (wrlock_ok garbage s qr); [done..|by right].
    + apply (rdlock_ok garbage s qr); [done..|by right].
  - by eapply wake_reader_ok.
  - by apply (rd_retry_ok s qr).
  - apply (unlock_ok s qr qw i Reading); auto.
  - by eapply wake_writer_ok.
  - by apply (wr_retry_ok s qr).
  - apply (unlock_ok s qr qw i Writing); auto.
Qed.

(** ** Runs *)

Section Runs.
Context (garbage : nat -> nat).

(** A run from [s] to [s'] in which the lock becomes free [n] times, and CreateEvent() does not fail. *)
Inductive rw_run (s : system) : nat -> system -> Prop :=
  | rw_run_nil : rw_run s 0 s
  | rw_run_step n s1 i a s2 : rw_run s n s1 -> event_created a = true -> rw_exec garbage s1 i a = Done s2 ->
      rw_run s (n + if releases s1 i a then 1 else 0)%nat s2.

Lemma rw_reachable_ok n s : Z.of_nat n < 2 ^ 30 - 1 -> rw_reachable garbage n s -> exists qr qw, sys_ok s qr qw.
Proof using Type.
  intros Hn. induction 1 as [|s i a s' _ (qr & qw & IH) Ha E]; [exists [], []; by apply start_ok|].
  pose proof (rw_exec_ok garbage s qr qw i a IH Ha) as H. rewrite E in H. destruct H as (_ & qr' & qw' & H & _). by exists qr', qw'.
Qed.

(** The writer at position [k] is granted the lock after [k + 1] releases. *)
Lemma run_position s n s' qr qw k e : rw_run s n s' -> sys_ok s qr qw -> qw !! k = Some e ->
  exists qr' qw', sys_ok s' qr' qw' /\ (e ∈ signaled s' \/ (n <= k)%nat /\ qw' !! (k - n)%nat = Some e).
Proof using Type.
  intros Hrun Hok Hk. induction Hrun as [|n s1 i a s2 _ IH Ha E].
  { exists qr, qw. split; [done|right]. split; [lia|]. by rewrite Nat.sub_0_r. }
  destruct IH as (qr1 & qw1 & Hok1 & Hpos). pose proof (rw_exec_ok garbage s1 qr1 qw1 i a Hok1 Ha) as Hs. rewrite E in Hs.
  destruct Hs as (Hsig & qr2 & qw2 & Hok2 & Hq). exists qr2, qw2. split; [done|].
  destruct Hpos as [Hin|[Hle Hpos]]; [left; by apply Hsig|]. unfold queue_step in Hq. destruct (releases s1 i a).
  - destruct qw1 as [|e1 q]; [done|]. destruct Hq as [-> Hin]. destruct (k - n)%nat as [|j] eqn:Ej.
    + injection Hpos as ->. by left.
    + right. split; [lia|]. by replace (k - (n + 1))%nat with j by lia.
  - right. rewrite Nat.add_0_r. split; [done|]. destruct Hq as [->|[e' ->]]; [done|]. by apply lookup_app_l_Some.
Qed.

(** Events stay set. *)
Lemma run_signaled s n s' qr qw : rw_run s n s' -> sys_ok s qr qw -> signaled s ⊆ signaled s'.
Proof using Type.
  intros Hrun Hok. cut (signaled s ⊆ signaled s' /\ exists qr' qw', sys_ok s' qr' qw'); [by intros [? _]|].
  induction Hrun as [|n s1 i a s2 _ (IH & qr1 & qw1 & Hok1) Ha E]; [by eauto|].
  pose proof (rw_exec_ok garbage s1 qr1 qw1 i a Hok1 Ha) as Hs. rewrite E in Hs. destruct Hs as (Hsub & qr2 & qw2 & Hok2 & _).
  split; [by transitivity (signaled s1)|by eauto].
Qed.

(** While the lock is not free a thread has it. *)
Lemma holder_exists s qr qw : sys_ok s qr qw -> runcount (lock s) <> 0 ->
  exists j t, threads s !! j = Some t /\ (role_of (signaled s) t = RReader \/ role_of (signaled s) t = RWriter).
Proof using Type.
  intros Hok Hne. pose proof (bal_count _ _ _ _ (so_bal _ _ _ Hok)) as Hc.
  assert (Hex : forall (f : role -> option unit), omap f (roles s) <> [] -> exists j t, threads s !! j = Some t /\ f (role_of (signaled s) t) = Some tt).
  { intros f Hf. destruct (omap f (roles s)) as [|u l] eqn:E; [done|].
    assert (Hu : u ∈ omap f (roles s)) by (rewrite E; apply list_elem_of_here).
    apply list_elem_of_omap in Hu as (r & Hr & Hfr). apply list_elem_of_lookup in Hr as [j Hj].
    unfold roles in Hj. rewrite list_lookup_fmap in Hj. destruct (threads s !! j) as [t|] eqn:Et; [|done].
    exists j, t. split; [done|]. cbn in Hj. injection Hj as ->. by destruct u. }
  unfold readers, writers in Hc. destruct Hc as [(_ & Hw & _)|(_ & Hr & _)].
  - destruct (Hex is_writer) as (j & t & Hj & Ht); [intros E; by rewrite E in Hw|]. exists j, t. split; [done|right].
    by destruct (role_of _ t).
  - destruct (Hex is_reader) as (j & t & Hj & Ht); [intros E; rewrite E in Hr; cbn in Hr; lia|]. exists j, t. split; [done|left].
    by destruct (role_of _ t).
Qed.

(** The thread that has the lock can go on. *)
Lemma holder_acts s qr qw j t : sys_ok s qr qw -> threads s !! j = Some t ->
  role_of (signaled s) t = RReader \/ role_of (signaled s) t = RWriter ->
  exists a s', (a = Unlock \/ a = Wake) /\ rw_exec garbage s j a = Done s'.
Proof using Type.
  intros Hok Hj Hr. set (a := match t with Reading | Writing => Unlock | _ => Wake end).
  assert (Ha : a = Unlock \/ a = Wake) by (unfold a; destruct t; auto). exists a.
  pose proof (rw_exec_ok garbage s qr qw j a Hok ltac:(by destruct Ha as [-> | ->])) as H.
  assert (Hnb : rw_exec garbage s j a <> Blocked).
  { unfold rw_exec. rewrite Hj. destruct t as [|w pc|e| | |e| |]; cbn in a; subst a; cbn [role_of] in Hr;
      try (by destruct Hr); try (case_decide; [|by destruct Hr]).
    - unfold wait_for. case_decide; [done|]. rewrite decide_True by done. by destruct (rdlock_woken _).
    - by destruct (glthread_rwlock_unlock_func _) as [[[? ?] ?]|].
    - unfold wait_for. case_decide; [done|]. rewrite decide_True by done. by destruct (wrlock_woken _).
    - by destruct (glthread_rwlock_unlock_func _) as [[[? ?] ?]|]. }
  destruct (rw_exec garbage s j a) as [s'| |]; [by exists s'|done|done].
Qed.
(** A thread that waits for its event: it was given the lock, or another one has it. *)
Lemma waiting_progress s qr qw i e : sys_ok s qr qw -> threads s !! i = Some (RWait e) \/ threads s !! i = Some (WWait e) ->
  exists j a s', (a = Unlock \/ a = Wake) /\ rw_exec garbage s j a = Done s'.
Proof using Type.
  intros Hok Hi. destruct (waits_queued s qr qw i e Hok Hi) as [He|He].
  - exists i. destruct Hi as [Hi|Hi]; (eapply holder_acts; [done|exact Hi|]); cbn [role_of]; rewrite decide_True by done; auto.
  - assert (Hne : runcount (lock s) <> 0).
    { intros E. destruct (so_free _ _ _ Hok E) as [-> ->]. by apply not_elem_of_nil in He. }
    destruct (holder_exists s qr qw Hok Hne) as (j & t & Hj & Ht). exists j. by eapply holder_acts.
Qed.

(** A thread that spins: the lock is initialized, or one initializes it. *)
Lemma spinning_progress s qr qw i w : sys_ok s qr qw -> threads s !! i = Some (AtGuard w GSpin) ->
  exists j s', rw_exec garbage s j Guard = Done s'.
Proof using Type.
  intros Hok Hi. pose proof (view_lookup s i _ Hi) as Hv. cbn [view] in Hv. destruct (guard_done (guard (lock s))) eqn:E.
  - exists i. unfold rw_exec. rewrite Hi. cbn [guard_exec]. unfold guard_spin. rewrite E. cbn [negb outcome_bind]. by eexists.
  - destruct (guard_progress _ _ i (so_guard _ _ _ Hok) Hv E) as [j Hj]. exists j.
    rewrite list_lookup_fmap in Hj. destruct (threads s !! j) as [t|] eqn:Et; [|done]. unfold rw_exec. rewrite Et.
    destruct t as [|w' pc| | | | | |]; try done. cbn in Hj. injection Hj as ->. by eexists.
Qed.

(** A writer is the only one. *)
Lemma writer_alone s qr qw i j : sys_ok s qr qw -> threads s !! i = Some Writing -> threads s !! j = Some Writing -> i = j.
Proof using Type.
  intros Hok Hi Hj. destruct (decide (i = j)) as [|Hne]; [done|].
  pose proof (writer_counted s qr qw i _ Hok Hi eq_refl) as Hc.
  destruct (list_update_perm _ _ _ (roles_lookup s i _ Hi)) as (rest & P & Pi).
  assert (Hj' : <[i := ROther]> (roles s) !! j = Some RWriter) by (rewrite list_lookup_insert_ne by done; exact (roles_lookup s j _ Hj)).
  destruct (list_update_perm _ _ _ Hj') as (rest' & P' & _). specialize (Pi ROther). rewrite P' in Pi.
  pose proof (bal_count _ _ _ _ (so_bal _ _ _ Hok)) as Hb. rewrite P in Hb. cbn [role_of] in Hb.
  assert (Hw : writers (ROther :: rest) = writers (RWriter :: rest')) by (by rewrite Pi).
  unfold writers in *. cbn in *. lia.
Qed.
End Runs.

(** ** CreateEvent() fails *)

Lemma add_crash mal garbage e e' wq : gl_waitqueue_add mal garbage (Some e) wq = None -> gl_waitqueue_add mal garbage (Some e') wq = None.
Proof.
  unfold gl_waitqueue_add. destruct (make_room mal garbage wq) as [[wq'|]|]; cbn [mbind option_bind]; [|done..]. by destruct (_ <? _)%nat.
Qed.

(** The new event of a thread that waits. *)
Lemma add_event mal garbage e e' wq wq' : gl_waitqueue_add mal garbage (Some e) wq = Some (Some e', wq') -> e' = e.
Proof.
  unfold gl_waitqueue_add. destruct (make_room mal garbage wq) as [[wq1|]|]; cbn [mbind option_bind]; [|done..].
  destruct (_ <? _)%nat; [|done]. by intros [= -> _].
Qed.

(** Whether an access is outside the array does not depend on the event. *)
Lemma enter_crash garbage s i mal : rw_exec garbage s i (Enter mal false) = Crash -> rw_exec garbage s i (Enter mal true) = Crash.
Proof.
  unfold rw_exec. destruct (threads s !! i) as [[|w [| | | |]| | | | | |]|]; try done. destruct w; unfold CreateEvent; cbv zeta iota;
    unfold requested, wrlock_enter, rdlock_enter.
  - destruct (negb _); [|done]. destruct (gl_waitqueue_add mal garbage (Some NULL) (waiting_writers (lock s))) as [[? ?]|] eqn:E; cbn; [done|].
    cbn. by rewrite (add_crash _ _ _ (next_event s) _ E).
  - destruct (int_value _); [|done]. cbn [mbind option_bind]. destruct (negb _); [|done].
    destruct (gl_waitqueue_add mal garbage (Some NULL) (waiting_readers (lock s))) as [[? ?]|] eqn:E; cbn; [done|]. cbn. by rewrite (add_crash _ _ _ (next_event s) _ E).
Qed.

(** The thread waits for NULL, unless it has the lock at once or realloc() fails. *)
Lemma event_failure garbage s i mal s' : rw_exec garbage s i (Enter mal false) = Done s' ->
  threads s' !! i = Some Reading \/ threads s' !! i = Some Writing \/ threads s' !! i = Some RRetry \/ threads s' !! i = Some WRetry \/
  rw_exec garbage s' i Wake = Crash.
Proof.
  unfold rw_exec at 1. destruct (threads s !! i) as [[|w [| | | |]| | | | | |]|] eqn:Hi; try done. apply lookup_lt_Some in Hi.
  assert (Hput : forall t, <[i := t]> (threads s) !! i = Some t) by (intros t; by rewrite list_lookup_insert_eq).
  destruct w; unfold CreateEvent; cbv zeta iota; unfold requested, wrlock_enter, rdlock_enter.
  - destruct (negb _).
    + destruct (gl_waitqueue_add mal garbage (Some NULL) (waiting_writers (lock s))) as [[[e|] wq]|] eqn:E; [..|done]; cbn; intros [= <-]; cbn; rewrite Hput; [|tauto].
      apply add_event in E as ->. right. right. right. right. unfold rw_exec. cbn. by rewrite Hput.
    + intros [= <-]. cbn. rewrite Hput. tauto.
  - destruct (int_value _); [|done]. cbn [mbind option_bind]. destruct (negb _).
    + destruct (gl_waitqueue_add mal garbage (Some NULL) (waiting_readers (lock s))) as [[[e|] wq]|] eqn:E; [..|done]; cbn; intros [= <-]; cbn; rewrite Hput; [|tauto].
      apply add_event in E as ->. right. right. right. right. unfold rw_exec. cbn. by rewrite Hput.
    + intros [= <-]. cbn. rewrite Hput. tauto.
Qed.

(** ** Theorems *)

(** C28. The read-write lock, with fewer than [2 ^ 30 - 1] threads that request the lock and
    release it when they have it, in any order and with any failures of realloc(), as long as CreateEvent() does not fail: no
    step is an abort(), a read outside the arrays or an overflow of the
    counter, a thread that writes is the only one that has the lock, and no thread has it
    before it is initialized.  When CreateEvent() fails for a thread that has to wait, this is not noticed: its wait for NULL is an abort(). *)
Theorem rwlock_safe (garbage : nat -> nat) (n : nat) (s : system) (Hn : Z.of_nat n < 2 ^ 30 - 1)
    (Hs : rw_reachable garbage n s) :
  (forall i a, rw_exec garbage s i a <> Crash) /\
  (forall j t, threads s !! j = Some t -> t = Reading \/ t = Writing ->
    guard_done (guard (lock s)) = true /\ forall i, threads s !! i = Some Writing -> i = j) /\
  (forall i mal s', rw_exec garbage s i (Enter mal false) = Done s' ->
    threads s' !! i = Some Reading \/ threads s' !! i = Some Writing \/ threads s' !! i = Some RRetry \/ threads s' !! i = Some WRetry \/
    rw_exec garbage s' i Wake = Crash).
Proof.
  destruct (rw_reachable_ok garbage n s Hn Hs) as (qr & qw & Hok). split_and!.
  - intros i a E. assert (E' : exists a, event_created a = true /\ rw_exec garbage s i a = Crash).
    { destruct (event_created a) eqn:Ha; [by exists a|]. destruct a as [| | |mal created| | |]; try done. cbn in Ha. subst created.
      exists (Enter mal true). split; [done|]. by apply enter_crash. }
    destruct E' as (a' & Ha' & E'). pose proof (rw_exec_ok garbage s qr qw i a' Hok Ha') as H. by rewrite E' in H.
  - intros j t Hj Ht. assert (Hv : view t = GIn) by (by destruct Ht as [->| ->]).
    split; [by apply (past_guard s qr qw j t t Hok Hj Hv); left|]. intros i Hi. destruct (decide (i = j)) as [|Hne]; [done|].
    pose proof (writer_counted s qr qw i _ Hok Hi eq_refl) as Hc.
    destruct Ht as [->| ->]; [pose proof (reader_counted s qr qw j _ Hok Hj eq_refl); lia|].
    by apply (writer_alone s qr qw i j Hok).
  - intros i mal s'. apply event_failure.
Qed.

(** C31. No wake-up is lost, as long as CreateEvent() does not fail: whenever a thread waits, for its event or for the lock to be
    initialized, a thread can go on that has the lock, was given it, or initializes it. *)
Theorem no_lost_wakeup (garbage : nat -> nat) (n : nat) (s : system) (i : nat) (Hn : Z.of_nat n < 2 ^ 30 - 1)
    (Hs : rw_reachable garbage n s)
    (Hi : (exists e, threads s !! i = Some (RWait e) \/ threads s !! i = Some (WWait e)) \/
      (exists w, threads s !! i = Some (AtGuard w GSpin))) :
  exists j a s', (a = Unlock \/ a = Wake \/ a = Guard) /\ rw_exec garbage s j a = Done s'.
Proof.
  destruct (rw_reachable_ok garbage n s Hn Hs) as (qr & qw & Hok). destruct Hi as [(e & Hi)|(w & Hi)].
  - destruct (waiting_progress garbage s qr qw i e Hok Hi) as (j & a & s' & Ha & E). exists j, a, s'. tauto.
  - destruct (spinning_progress garbage s qr qw i w Hok Hi) as (j & s' & E). exists j, Guard, s'. tauto.
Qed.

(** Writers are served in the order of their requests: a waiting writer has a position
    in the queue, smaller than the number of threads, and is given the lock as soon as
    the lock has become free more often than that, whatever the other threads do. *)
Theorem writer_progress (garbage : nat -> nat) (n : nat) (s : system) (i e : nat) (Hn : Z.of_nat n < 2 ^ 30 - 1)
    (Hs : rw_reachable garbage n s) (Hi : threads s !! i = Some (WWait e)) :
  exists k, (k < length (threads s))%nat /\
    forall m s', rw_run garbage s m s' -> (k < m)%nat -> e ∈ signaled s'.
Proof.
  destruct (rw_reachable_ok garbage n s Hn Hs) as (qr & qw & Hok).
  destruct (writer_queued s qr qw i e Hok Hi) as [He|He].
  - exists 0%nat. split; [apply lookup_lt_Some in Hi; lia|]. intros m s' Hrun _.
    by apply (run_signaled garbage s m s' qr qw Hrun Hok).
  - apply list_elem_of_lookup in He as [k Hk]. exists k. split.
    + pose proof (length_omap_le wait_w (roles s)) as Hl. rewrite (bal_w _ _ _ _ (so_bal _ _ _ Hok)) in Hl.
      unfold roles in Hl. rewrite length_map in Hl. apply lookup_lt_Some in Hk. lia.
    + intros m s' Hrun Hm. destruct (run_position garbage s m s' qr qw k e Hrun Hok Hk) as (? & ? & _ & [?|[? _]]); [done|lia].
Qed.

(** ** Runs of a few threads *)

(** The state after the actions of [l], and how often the lock became free. *)
Fixpoint rw_turns (garbage : nat -> nat) (l : list (nat * action)) (s : system) : option (nat * system) :=
  match l with
  | [] => Some (O, s)
  | (i, a) :: l =>
      match (if event_created a then rw_exec garbage s i a else Blocked) with
      | Done s' => '(n, s2) ← rw_turns garbage l s'; Some (((if releases s i a then 1 else 0) + n)%nat, s2)
      | _ => None
      end
  end.

Section Turns.
Context (garbage : nat -> nat).

Lemma rw_turns_reachable n l s k s' : rw_reachable garbage n s -> rw_turns garbage l s = Some (k, s') -> rw_reachable garbage n s'.
Proof using Type.
  revert k s. induction l as [|[i a] l IH]; intros k s Hs; cbn [rw_turns]; [by intros [= <- <-]|].
  destruct (event_created a) eqn:Ha; [|done]. destruct (rw_exec garbage s i a) as [s1| |] eqn:E; [|done|done].
  destruct (rw_turns garbage l s1) as [[k1 s2]|] eqn:E1; [|done]. cbn [mbind option_bind]. intros [= _ <-].
  apply (IH k1 s1); [|done]. by apply (rw_reachable_step garbage n s i a s1).
Qed.

Lemma rw_turns_run s0 n l s k s' : rw_run garbage s0 n s -> rw_turns garbage l s = Some (k, s') -> rw_run garbage s0 (n + k) s'.
Proof using Type.
  revert n k s. induction l as [|[i a] l IH]; intros n k s Hs; cbn [rw_turns]; [intros [= <- <-]; by rewrite Nat.add_0_r|].
  destruct (event_created a) eqn:Ha; [|done]. destruct (rw_exec garbage s i a) as [s1| |] eqn:E; [|done|done].
  destruct (rw_turns garbage l s1) as [[k1 s2]|] eqn:E1; [|done]. cbn [mbind option_bind]. intros [= <- <-].
  rewrite Nat.add_assoc. apply (IH _ k1 s1); [|done]. by apply (rw_run_step garbage s0 n s i a s1).
Qed.
End Turns.

Definition g0 : nat -> nat := fun _ => O.

(** Thread 0 reads, after it initialized the lock, and the writers 1 and 2 wait. *)
Definition two_writers : list (nat * action) :=
  [(0, RdLock); (1, WrLock); (0, Guard); (1, Guard); (0, Guard); (1, Guard); (0, Enter true true);
   (1, Enter true true); (2, WrLock); (2, Enter true true)]%nat.

Definition two_writers_state : system :=
  System (RwLock (Spinlock true 1) gl_waitqueue_init (WaitQueue [2; 3; 0]%nat 2 3 0) 1) [Reading; WWait 2; WWait 3] ∅ 4.

Lemma two_writers_reachable : rw_reachable g0 3 two_writers_state.
Proof. exact (rw_turns_reachable g0 3 two_writers _ 0 _ (rw_reachable_start g0 3) ltac:(vm_compute; reflexivity)). Qed.

Lemma rwlock_safe_witness : (forall i a, rw_exec g0 two_writers_state i a <> Crash) /\ guard_done (guard (lock two_writers_state)) = true.
Proof.
  pose proof (rwlock_safe g0 3 two_writers_state ltac:(vm_compute; reflexivity) two_writers_reachable) as (H1 & H2 & _).
  split; [exact H1|]. apply (H2 0%nat Reading); [reflexivity|by left].
Defined.

Lemma no_lost_wakeup_witness : threads two_writers_state !! 2%nat = Some (WWait 3) /\
  exists j a s', (a = Unlock \/ a = Wake \/ a = Guard) /\ rw_exec g0 two_writers_state j a = Done s'.
Proof.
  split; [reflexivity|].
  apply (no_lost_wakeup g0 3 two_writers_state 2 ltac:(vm_compute; reflexivity) two_writers_reachable).
  left. exists 3%nat. right. reflexivity.
Defined.

(** The lock becomes free three times: writer 2 is given it. *)
Lemma writer_progress_witness : exists s', rw_run g0 two_writers_state 3 s' /\ 3%nat ∈ signaled s'.
Proof.
  destruct (rw_turns g0 [(0, Unlock); (1, Wake); (1, Unlock); (2, Wake); (2, Unlock)]%nat two_writers_state) as [[k s']|] eqn:E;
    [|discriminate (eq_trans (eq_sym E) ltac:(vm_compute; reflexivity))].
  assert (k = 3%nat) as -> by (apply (inj Some); rewrite <- (f_equal (option_map fst) E : _ = Some k); vm_compute; reflexivity).
  pose proof (rw_turns_run g0 two_writers_state 0 _ _ _ _ (rw_run_nil g0 two_writers_state) E) as Hrun.
  exists s'. split; [exact Hrun|].
  destruct (writer_progress g0 3 two_writers_state 2 3 ltac:(vm_compute; reflexivity) two_writers_reachable eq_refl) as (k & Hk & H).
  apply (H 3%nat s' Hrun). cbn in Hk. lia.
Defined.

(** Readers that overlap keep a writer waiting: [rdlock] does not look at the queue of the
    writers.  In [n] rounds, each with two new readers, the lock never becomes free. *)
Definition overlap (e : nat) : system :=
  System (RwLock (Spinlock true 0) gl_waitqueue_init (WaitQueue [2%nat] 1 1 0) 1) [Reading; Idle; WWait 2] ∅ e.

Definition overlap_round : list (nat * action) :=
  [(1, RdLock); (1, Enter true true); (0, Unlock); (0, RdLock); (0, Enter true true); (1, Unlock)]%nat.

Lemma overlap_turns e : rw_turns g0 overlap_round (overlap e) = Some (O, overlap (S (S e))).
Proof. reflexivity. Qed.

Lemma overlap_reachable : rw_reachable g0 3 (overlap 3).
Proof.
  exact (rw_turns_reachable g0 3 [(0, RdLock); (0, Guard); (0, Guard); (0, Enter true true); (2, WrLock); (2, Enter true true)]%nat
    _ 0 _ (rw_reachable_start g0 3) ltac:(vm_compute; reflexivity)).
Qed.

(** The writer is never given the lock, although [2 n] requests of readers after its own
    are granted. *)
Lemma writer_starves n : rw_run g0 (overlap 3) 0 (overlap (3 + 2 * n)) /\ 2%nat ∉ signaled (overlap (3 + 2 * n)).
Proof.
  split; [|set_solver]. induction n as [|n IH]; [apply rw_run_nil|].
  replace (3 + 2 * S n)%nat with (S (S (3 + 2 * n))) by lia.
  exact (rw_turns_run g0 _ 0 overlap_round _ 0 _ IH (overlap_turns _)).
Qed.
