(* ===== verification/PosixRecursive.v ===== *)
(** * The recursive lock made of a plain mutex: lock.c

    glthread_recursive_lock_lock_multithreaded and its companions for POSIX threads without recursive mutexes and for
    Solaris threads, which have the same text.  The owner and the depth are not protected by a lock of their own: the
    thread that is not the owner reads the owner while another one writes it.  The threads take turns at every
    access. *)

From S2P Require Import Prelude Lock.

Open Scope Z_scope.

(** [gl_recursive_lock_t]: the owner, 0 for none, the depth and the thread that has the mutex. *)
Record own_lock := OwnLock { own_owner : Z; own_depth : Z; own_mutex : option nat }.

Definition own_lock_initializer : own_lock := OwnLock 0 0 None.

(** [err] is the result of the initialization of the mutex. *)
Definition own_lock_init (err : Z) (l : own_lock) : Z * own_lock := if negb (err =? 0) then (err, l) else (0, OwnLock 0 0 None).

Definition own_lock_destroy (err : Z) (l : own_lock) : Z := if negb (own_owner l =? 0) then EBUSY else err.

(** pthread_self() of thread [i] is not 0. *)
Definition thread_self (i : nat) : Z := Z.of_nat i + 1.

(** Where a thread is, by what it does next: outside, with the result of its last call; lock the mutex, become the
    owner, increment the depth; test and decrement the depth, reset the owner, unlock the mutex. *)
Inductive own_pc := WOut (result : Z) | WMutex | WOwner | WDeeper | WDepth | WClear | WRelease.

(** [times]: how many more calls to lock than to unlock of each thread succeeded. *)
Record own_system := OwnSystem { olock : own_lock; own_pcs : list own_pc; times : list Z }.

Definition own_start (n : nat) : own_system := OwnSystem own_lock_initializer (replicate n (WOut 0)) (replicate n 0).

Section Own.
(** The width of [unsigned long]. *)
Context (w : Z).

Definition ogoto_own (s : own_system) (i : nat) (pc : own_pc) (l : own_lock) : own_system :=
  OwnSystem l (<[i := pc]> (own_pcs s)) (times s).

Definition add_times (i : nat) (z : Z) (s : own_system) : own_system := OwnSystem (olock s) (own_pcs s) (alter (Z.add z) i (times s)).

(** [if (++(lock->depth) == 0)] *)
Definition own_deeper (s : own_system) (i : nat) : own_system :=
  let l := olock s in
  let depth := wrapw w (own_depth l + 1) in
  if depth =? 0 then ogoto_own s i (WOut EAGAIN) (OwnLock (own_owner l) (wrapw w (depth - 1)) (own_mutex l))
  else add_times i 1 (ogoto_own s i (WOut 0) (OwnLock (own_owner l) depth (own_mutex l))).

(** [if (lock->depth == 0) return EINVAL; if (--(lock->depth) == 0)] *)
Definition own_shallower (s : own_system) (i : nat) : own_system :=
  let l := olock s in
  if own_depth l =? 0 then ogoto_own s i (WOut EINVAL) l
  else
    let depth := own_depth l - 1 in
    add_times i (-1) (ogoto_own s i (if depth =? 0 then WClear else WOut 0) (OwnLock (own_owner l) depth (own_mutex l))).

(** The next step of thread [i]; [c] is its call if it is outside, [err] the result of pthread_mutex_lock(). *)
Definition own_exec (s : own_system) (i : nat) (c : rec_call) (err : Z) : outcome own_system :=
  let l := olock s in
  let self := thread_self i in
  match own_pcs s !! i with
  | None => Blocked
  | Some (WOut _) =>
      match c with
      | CallLock => Done (ogoto_own s i (if negb (own_owner l =? self) then WMutex else WDeeper) l)
      | CallUnlock => Done (ogoto_own s i (if negb (own_owner l =? self) then WOut EPERM else WDepth) l)
      end
  | Some WMutex =>
      if negb (err =? 0) then Done (ogoto_own s i (WOut err) l)
      else match own_mutex l with
           | None => Done (ogoto_own s i WOwner (OwnLock (own_owner l) (own_depth l) (Some i)))
           | Some _ => Blocked
           end
  | Some WOwner => Done (ogoto_own s i WDeeper (OwnLock self (own_depth l) (own_mutex l)))
  | Some WDeeper => Done (own_deeper s i)
  | Some WDepth => Done (own_shallower s i)
  | Some WClear => Done (ogoto_own s i WRelease (OwnLock 0 (own_depth l) (own_mutex l)))
  | Some WRelease =>
      if decide (own_mutex l = Some i) then Done (ogoto_own s i (WOut 0) (OwnLock (own_owner l) (own_depth l) None)) else Crash
  end.

Inductive own_reachable (n : nat) : own_system -> Prop :=
  | own_reachable_start : own_reachable n (own_start n)
  | own_reachable_step s i c err s' : own_reachable n s -> own_exec s i c err = Done s' -> own_reachable n s'.

(** ** The invariant *)

(** The thread has the mutex. *)
Definition has_own (pc : own_pc) (h : Z) : Prop :=
  match pc with WOwner | WDeeper | WDepth | WClear | WRelease => True | _ => 0 < h end.

Record own_thread (l : own_lock) (i : nat) (pc : own_pc) (h : Z) : Prop := OwnThread {
  ot_times : 0 <= h < 2 ^ w;
  ot_has : has_own pc h <-> own_mutex l = Some i;
  ot_lock : own_mutex l = Some i ->
    own_owner l = match pc with WOwner | WRelease => 0 | _ => thread_self i end /\ own_depth l = h;
  ot_pc : match pc with
          | WMutex | WOwner | WClear | WRelease => h = 0
          | WDepth => 0 < h
          | _ => True
          end
}.

Record own_ok (s : own_system) : Prop := OwnOk {
  oo_free : own_mutex (olock s) = None -> own_owner (olock s) = 0 /\ own_depth (olock s) = 0;
  oo_holder t : own_mutex (olock s) = Some t -> is_Some (own_pcs s !! t);
  oo_threads i pc : own_pcs s !! i = Some pc -> exists h, times s !! i = Some h /\ own_thread (olock s) i pc h
}.

Context (Hw : 0 < w).

Lemma own_start_ok n : own_ok (own_start n).
Proof using Hw.
  split; cbn [olock own_start own_lock_initializer own_mutex own_owner own_depth]; [done|done|].
  intros i pc Hi. apply lookup_replicate in Hi as [-> Hi]. exists 0. split; [by apply lookup_replicate|].
  split; cbn; try done. pose proof (Z.pow_pos_nonneg 2 w). lia.
Qed.

Section OwnSteps.
Context (s : own_system) (i : nat) (pc : own_pc) (h : Z) (Hok : own_ok s) (Hi : own_pcs s !! i = Some pc).
Context (Hh : times s !! i = Some h) (Ht : own_thread (olock s) i pc h).

(** A step of thread [i], which changes the lock only if no other thread has it. *)
Lemma own_step_ok s' pc' h' : own_pcs s' = <[i := pc']> (own_pcs s) -> times s' !! i = Some h' ->
  (forall j, j <> i -> times s' !! j = times s !! j) ->
  olock s' = olock s \/ (own_mutex (olock s) = Some i \/ own_mutex (olock s) = None) /\
    (own_mutex (olock s') = Some i \/ own_mutex (olock s') = None /\ own_owner (olock s') = 0 /\ own_depth (olock s') = 0) ->
  own_thread (olock s') i pc' h' -> own_ok s'.
Proof using Hok Hi.
  intros Hpcs Hh' Hother Hl Ht'. pose proof (lookup_lt_Some _ _ _ Hi) as Hlt. destruct Hok as [F T A]. split.
  - destruct Hl as [->|[_ [->|[_ H]]]]; [done|done|done].
  - intros t Et. rewrite Hpcs, lookup_lt_is_Some, length_insert, <- lookup_lt_is_Some.
    destruct Hl as [El|[_ [E|[E _]]]]; [rewrite El in Et; by apply T|rewrite E in Et; injection Et as <-; by eexists|congruence].
  - intros j q Hj. rewrite Hpcs in Hj. destruct (decide (j = i)) as [->|Hne].
    + rewrite list_lookup_insert_eq in Hj by done. injection Hj as <-. by exists h'.
    + rewrite list_lookup_insert_ne in Hj by done. destruct (A j q Hj) as (hj & Ej & Tj). exists hj. rewrite Hother by done.
      split; [done|]. destruct Hl as [->|[Hm Hm']]; [done|]. destruct Tj as [T1 T2 T3 T4].
      assert (Hn : own_mutex (olock s) <> Some j) by (destruct Hm as [->| ->]; congruence).
      assert (Hn' : own_mutex (olock s') <> Some j) by (destruct Hm' as [->|[-> _]]; congruence).
      split; [done|tauto|tauto|done].
Qed.

(** Only the owner finds its own number. *)
Lemma own_self : own_owner (olock s) = thread_self i -> own_mutex (olock s) = Some i.
Proof using Hok.
  intros E. destruct Hok as [F T A]. unfold thread_self in E. destruct (own_mutex (olock s)) as [t|] eqn:Em; [|destruct (F eq_refl); lia].
  destruct (T t eq_refl) as [q Hq]. destruct (A t q Hq) as (ht & _ & [_ _ T3 _]). destruct (T3 Em) as [Eo _]. unfold thread_self in Eo.
  rewrite E in Eo. f_equal. destruct q; lia.
Qed.

Lemma own_same_ok pc' : own_thread (olock s) i pc' h -> own_ok (ogoto_own s i pc' (olock s)).
Proof using Hok Hi Hh. intros Ht'. apply (own_step_ok _ pc' h); [done|done|done|by left|done]. Qed.

(** A call. *)
Lemma own_call_ok c err r : pc = WOut r -> match own_exec s i c err with Done s' => own_ok s' | Blocked => True | Crash => False end.
Proof using Hok Hi Hh Ht.
  intros Hpc. pose proof own_self as Hself. pose proof own_same_ok as Hsame. unfold own_exec. rewrite Hi, Hpc. destruct Ht as [T1 T2 T3 T4]. rewrite Hpc in T2, T3. cbn [has_own] in T2.
  assert (Ho : (own_owner (olock s) =? thread_self i) = true -> 0 < h /\ own_mutex (olock s) = Some i).
  { intros E. apply Z.eqb_eq, Hself in E. split; [by apply T2|done]. }
  assert (Hno : (own_owner (olock s) =? thread_self i) = false -> h = 0 /\ own_mutex (olock s) <> Some i).
  { intros E. apply Z.eqb_neq in E. assert (Hn : own_mutex (olock s) <> Some i) by (intros E'; by destruct (T3 E')).
    split; [|done]. destruct (decide (0 < h)) as [Hp|]; [|lia]. by apply T2 in Hp. }
  destruct c, (own_owner (olock s) =? thread_self i) eqn:E; cbn [negb]; apply Hsame;
    [destruct (Ho eq_refl) as [H1 H2]|destruct (Hno eq_refl) as [H1 H2]|destruct (Ho eq_refl) as [H1 H2]|destruct (Hno eq_refl) as [H1 H2]];
    split; cbn [has_own]; auto; try tauto; try done; split; intros; try done; lia.
Qed.

Lemma own_exec_ok c err : match own_exec s i c err with Done s' => own_ok s' | Blocked => True | Crash => False end.
Proof using Hok Hi Hh Ht Hw.
  assert (Hcase : (exists r, pc = WOut r) \/ forall r, pc <> WOut r) by (destruct pc; eauto; right; discriminate).
  destruct Hcase as [[r Hpc]|Hpc]; [by apply (own_call_ok c err r)|].
  pose proof own_step_ok as Hstep. pose proof own_same_ok as Hsame. pose proof Ht as [T1 T2 T3 T4]. pose proof Hok as [F _ _]. unfold own_exec. rewrite Hi.
  assert (Hadd : forall z l pc', times (add_times i z (ogoto_own s i pc' l)) !! i = Some (z + h) /\
    forall j, j <> i -> times (add_times i z (ogoto_own s i pc' l)) !! j = times s !! j).
  { intros z l pc'. cbn. rewrite list_lookup_alter_eq, Hh. split; [done|]. intros j Hj. by rewrite list_lookup_alter_ne. }
  destruct pc as [r| | | | | |]; cbn [has_own] in *; [by destruct (Hpc r)|..]; try (pose proof (proj1 T2 I) as Em; destruct (T3 Em) as [Eo Ed]).
  - destruct (negb (err =? 0)); [apply Hsame; split; [done|cbn; by rewrite T2|done|done]|].
    destruct (own_mutex (olock s)) as [t|] eqn:Em; [done|]. destruct (F eq_refl) as [E1 E2].
    apply (Hstep _ WOwner h); cbn; [done..| |].
    + right. split; [by right|by left].
    + split; cbn; [done..| |done]. intros _. rewrite E1, E2. by rewrite T4.
  - apply (Hstep _ WDeeper h); cbn; [done..|right; split; [by left|by left]|]. by split; cbn.
  - unfold own_deeper. rewrite Ed. pose proof (Z.pow_pos_nonneg 2 w ltac:(lia) ltac:(lia)) as Hpow.
    destruct (decide (h + 1 = 2 ^ w)) as [E|E].
    + replace (wrapw w (h + 1)) with 0 by (unfold wrapw; rewrite E, Z.mod_same; lia). cbn [Z.eqb].
      replace (wrapw w (0 - 1)) with h by (unfold wrapw; apply (Z.mod_unique_pos _ _ (-1)); lia).
      apply (Hstep _ (WOut EAGAIN) h); cbn; [done..|right; split; [by left|by left]|].
      assert (0 < h) by (assert (2 ^ 1 <= 2 ^ w) by (apply Z.pow_le_mono_r; lia); lia). split; cbn; [done|tauto|done|done].
    + rewrite wrapw_small by lia. rewrite (proj2 (Z.eqb_neq _ _)) by lia. destruct (Hadd 1 (OwnLock (own_owner (olock s)) (h + 1) (own_mutex (olock s))) (WOut 0)) as [A1 A2].
      apply (Hstep _ (WOut 0) (1 + h)); [done|done|done|right; split; [by left|by left]|]. cbn. split; cbn; [lia| |split; [done|lia]|done].
      split; [done|lia].
  - unfold own_shallower. rewrite Ed. rewrite (proj2 (Z.eqb_neq _ _)) by lia.
    set (pc' := if h - 1 =? 0 then WClear else WOut 0). destruct (Hadd (-1) (OwnLock (own_owner (olock s)) (h - 1) (own_mutex (olock s))) pc') as [A1 A2].
    apply (Hstep _ pc' (-1 + h)); [done|done|done|right; split; [by left|by left]|]. cbn. subst pc'.
    destruct (Z.eqb_spec (h - 1) 0); split; cbn; try done; try lia; try (split; [done|lia]).
  - apply (Hstep _ WRelease h); cbn; [done..|right; split; [by left|by left]|]. by split; cbn.
  - rewrite decide_True by done. apply (Hstep _ (WOut 0) h); cbn; [done..| |].
    + right. split; [by left|right]. rewrite Eo, Ed. done.
    + split; cbn; [done| |done|done]. split; [lia|done].
Qed.
End OwnSteps.

Lemma own_reachable_ok n s : own_reachable n s -> own_ok s.
Proof using Hw.
  induction 1 as [|s i c err s' Hr IH E]; [apply own_start_ok|].
  destruct (own_pcs s !! i) as [pc|] eqn:Hi; [|unfold own_exec in E; by rewrite Hi in E].
  destruct (oo_threads _ IH i pc Hi) as (h & Hh & Ht). pose proof (own_exec_ok s i pc h IH Hi Hh Ht c err) as H. by rewrite E in H.
Qed.
End Own.

(** The recursive lock made of a plain mutex, with any width of [unsigned long] and any number of threads that call it in any order:
    at most one thread has the lock, and the depth is how often; unlock returns EPERM, without a change, to a thread that does
    not have it; no thread unlocks a mutex it does not have, nor waits for one it has.  So the read of the owner without
    a lock does no harm. *)
Theorem own_recursive_lock_safe (w : Z) (n : nat) (s : own_system) (Hw : 0 < w) (Hr : own_reachable w n s) :
  (forall i c err, own_exec w s i c err <> Crash) /\
  (forall i pc h, own_pcs s !! i = Some pc -> times s !! i = Some h ->
    (0 < h -> own_depth (olock s) = h /\ forall j pcj hj, own_pcs s !! j = Some pcj -> times s !! j = Some hj -> 0 < hj -> j = i) /\
    (forall r, pc = WOut r -> h = 0 -> forall err, own_exec w s i CallUnlock err = Done (ogoto_own s i (WOut EPERM) (olock s))) /\
    (pc = WMutex -> own_mutex (olock s) <> Some i)).
Proof.
  pose proof (own_reachable_ok w Hw n s Hr) as Hok. split.
  { intros i c err E. destruct (own_pcs s !! i) as [pc|] eqn:Hi; [|unfold own_exec in E; by rewrite Hi in E].
    destruct (oo_threads _ _ Hok i pc Hi) as (h & Hh & Ht). pose proof (own_exec_ok w Hw s i pc h Hok Hi Hh Ht c err) as H. by rewrite E in H. }
  intros i pc h Hi Hh. destruct (oo_threads _ _ Hok i pc Hi) as (h' & Hh' & [T1 T2 T3 T4]). rewrite Hh in Hh'. injection Hh' as <-.
  assert (Hpos : forall j pcj hj, own_pcs s !! j = Some pcj -> times s !! j = Some hj -> 0 < hj -> own_mutex (olock s) = Some j).
  { intros j pcj hj Hj Ej Hp. destruct (oo_threads _ _ Hok j pcj Hj) as (hj' & Ej' & [_ U2 _ _]). rewrite Ej in Ej'. injection Ej' as <-.
    apply U2. by destruct pcj. }
  split_and!.
  - intros Hp. pose proof (Hpos i pc h Hi Hh Hp) as Em. destruct (T3 Em) as [_ Ed]. split; [done|].
    intros j pcj hj Hj Ej Hpj. pose proof (Hpos j pcj hj Hj Ej Hpj). congruence.
  - intros r -> -> err. unfold own_exec. rewrite Hi. destruct (Z.eqb_spec (own_owner (olock s)) (thread_self i)) as [Eo|Eo]; [|done].
    apply (own_self w s i Hok) in Eo. apply T2 in Eo. cbn in Eo. lia.
  - intros -> Em. apply T2 in Em. cbn in Em, T4. lia.
Qed.
