(* ===== verification/PosixInit.v ===== *)
(** * Initialization on first use with POSIX threads: lock.c

    On systems without a static initializer for read-write locks or recursive mutexes, the lock is initialized by
    the first thread that uses it, under a mutex: glthread_rwlock_rdlock_multithreaded, wrlock and unlock for
    pthread_rwlock_t, glthread_recursive_lock_lock_multithreaded and unlock.  The threads take turns at
    every access; the errors of the pthread functions are arguments of the steps. *)

From S2P Require Import Prelude Lock.

Open Scope Z_scope.

(** [initialized], the thread that has the mutex [guard], and the read-write lock or mutex: [None] before it is
    initialized. *)
Record init_lock := InitLock { initialized : bool; guard_holder : option nat; object : option unit }.

(** [{ 0, PTHREAD_MUTEX_INITIALIZER }] *)
Definition init_lock_initializer : init_lock := InitLock false None None.

(** Where a thread is, by what it does next: outside, with the result of its last call; lock the guard; the
    second test; the initialization and the assignment in glthread_rwlock_init_multithreaded; unlock the guard, with an error
    or without; the call of the pthread function for the lock itself. *)
Inductive init_pc :=
  | IOut (result : Z) | ILock | ITest2 | IInit | ISet | IFail (err : Z) | IUnlock | IUse.

(** [inits]: how often the lock was initialized. *)
Record init_system := InitSystem { ilock : init_lock; ipcs : list init_pc; inits : nat }.

Definition init_start (n : nat) : init_system := InitSystem init_lock_initializer (replicate n (IOut 0)) 0.

Definition igoto (s : init_system) (i : nat) (pc : init_pc) (l : init_lock) : init_system :=
  InitSystem l (<[i := pc]> (ipcs s)) (inits s).

(** What a thread outside calls. *)
Inductive init_call := AskLock | AskUnlock.

(** The next step of thread [i]; [err] is the result of the pthread function that it calls.  A thread that has the guard gives
    it back without an error. *)
Definition init_exec (s : init_system) (i : nat) (c : init_call) (err : Z) : outcome init_system :=
  let l := ilock s in
  match ipcs s !! i with
  | None => Blocked
  | Some (IOut _) =>
      match c with
      | AskLock => Done (igoto s i (if negb (initialized l) then ILock else IUse) l)
      | AskUnlock => Done (igoto s i (if negb (initialized l) then IOut EINVAL else IUse) l)
      end
  | Some ILock =>
      if negb (err =? 0) then Done (igoto s i (IOut err) l)
      else match guard_holder l with
           | None => Done (igoto s i ITest2 (InitLock (initialized l) (Some i) (object l)))
           | Some _ => Blocked
           end
  | Some ITest2 => Done (igoto s i (if negb (initialized l) then IInit else IUnlock) l)
  | Some IInit =>
      match object l with
      | Some _ => Crash                                   (* a lock that is initialized already *)
      | None =>
          if negb (err =? 0) then Done (igoto s i (IFail err) l)
          else Done (InitSystem (InitLock (initialized l) (guard_holder l) (Some tt)) (<[i := ISet]> (ipcs s)) (S (inits s)))
      end
  | Some ISet => Done (igoto s i IUnlock (InitLock true (guard_holder l) (object l)))
  | Some (IFail e) => Done (igoto s i (IOut e) (InitLock (initialized l) None (object l)))
  | Some IUnlock => Done (igoto s i IUse (InitLock (initialized l) None (object l)))
  | Some IUse =>
      match object l with
      | None => Crash                                     (* a lock that is not initialized *)
      | Some _ => Done (igoto s i (IOut err) l)
      end
  end.

Inductive init_reachable (n : nat) : init_system -> Prop :=
  | init_reachable_start : init_reachable n (init_start n)
  | init_reachable_step s i c err s' : init_reachable n s -> init_exec s i c err = Done s' -> init_reachable n s'.

(** glthread_recursive_lock_init_multithreaded with recursive mutexes, by the results of pthread_mutexattr_init,
    pthread_mutexattr_settype, pthread_mutex_init and pthread_mutexattr_destroy: the result, whether the attributes were given
    back, and whether the mutex was initialized. *)
Definition recursive_init (attr settype mutex destroy : Z) : Z * bool * bool :=
  if negb (attr =? 0) then (attr, false, false)
  else if negb (settype =? 0) then (settype, true, false)
  else if negb (mutex =? 0) then (mutex, true, false)
  else if negb (destroy =? 0) then (destroy, true, true)
  else (0, true, true).

(** glthread_once_singlethreaded: the first byte of a pthread_once_t, a pth_once_t, or the field [inited] of Solaris, and its value
    when it is fresh. *)
Definition glthread_once_singlethreaded (fresh once_control : Z) : Z * Z :=
  if once_control =? fresh then (1, Z.lnot fresh) else (0, once_control).

(** ** The invariant *)

Definition has_guard (pc : init_pc) : bool :=
  match pc with ITest2 | IInit | ISet | IFail _ | IUnlock => true | _ => false end.

(** The lock is initialized if the flag says so, or a thread is about to say so. *)
Definition announces (pc : init_pc) : bool := match pc with ISet => true | _ => false end.

Record init_ok (s : init_system) : Prop := InitOk {
  io_guard i pc : ipcs s !! i = Some pc -> has_guard pc = true -> guard_holder (ilock s) = Some i;
  io_object : is_Some (object (ilock s)) <-> initialized (ilock s) = true \/ exists i, ipcs s !! i = Some ISet;
  io_before i pc : ipcs s !! i = Some pc -> pc = IInit \/ pc = ISet -> initialized (ilock s) = false;
  io_after i pc : ipcs s !! i = Some pc -> pc = IUnlock \/ pc = IUse -> initialized (ilock s) = true;
  io_inits : inits s = match object (ilock s) with None => 0%nat | Some _ => 1%nat end
}.

Lemma init_start_ok n : init_ok (init_start n).
Proof.
  assert (Hst : forall i pc, ipcs (init_start n) !! i = Some pc -> pc = IOut 0) by (intros i pc Hi; by apply lookup_replicate_1 in Hi as [-> _]).
  split; cbn [ilock init_start init_lock_initializer object initialized guard_holder inits].
  - intros i pc Hi. by rewrite (Hst i pc Hi).
  - split; [by intros []|]. intros [|[i Hi]]; [done|]. by apply Hst in Hi.
  - done.
  - intros i pc Hi. rewrite (Hst i pc Hi). by intros [|].
  - done.
Qed.

Section InitSteps.
Context (s : init_system) (i : nat) (pc : init_pc) (Hok : init_ok s) (Hi : ipcs s !! i = Some pc).

(** Only one thread has the guard. *)
Lemma guard_alone j q : has_guard pc = true -> ipcs s !! j = Some q -> has_guard q = true -> j = i.
Proof using Hok Hi.
  intros H1 Hj H2. pose proof (io_guard _ Hok i pc Hi H1). pose proof (io_guard _ Hok j q Hj H2). congruence.
Qed.

(** A step that does not initialize the lock. *)
Lemma init_goto_ok pc' g : announces pc = false -> announces pc' = false ->
  (has_guard pc' = true -> g = Some i) ->
  (has_guard pc = true \/ g = guard_holder (ilock s) \/ guard_holder (ilock s) = None) ->
  (pc' = IInit -> initialized (ilock s) = false) -> (pc' = IUnlock \/ pc' = IUse -> initialized (ilock s) = true) ->
  init_ok (igoto s i pc' (InitLock (initialized (ilock s)) g (object (ilock s)))).
Proof using Hok Hi.
  intros Ha Ha' Hg Hold Hb Haft. pose proof guard_alone as Halone. destruct Hok as [G O B A N].
  assert (Hlook : forall j q, <[i := pc']> (ipcs s) !! j = Some q -> j = i /\ q = pc' \/ j <> i /\ ipcs s !! j = Some q).
  { intros j q. destruct (decide (j = i)) as [->|Hne]; [|rewrite list_lookup_insert_ne by done; auto].
    rewrite list_lookup_insert_eq by (by eapply lookup_lt_Some). intros [= <-]. auto. }
  split; cbn [igoto ilock ipcs inits object initialized guard_holder].
  - intros j q Hj Hq. destruct (Hlook j q Hj) as [[-> ->]|[Hne Hj']]; [auto|]. destruct Hold as [H|[->|H]]; [|by apply (G j q)|].
    + by destruct Hne; apply (Halone j q).
    + pose proof (G j q Hj' Hq). congruence.
  - rewrite O. split; (intros [H|[j Hj]]; [by left|right]).
    + exists j. destruct (decide (j = i)) as [->|Hne]; [|by rewrite list_lookup_insert_ne]. rewrite Hj in Hi. injection Hi as <-. done.
    + destruct (Hlook j _ Hj) as [[_ E]|[_ Hj']]; [by rewrite <- E in Ha'|by exists j].
  - intros j q Hj Hq. destruct (Hlook j q Hj) as [[-> ->]|[_ Hj']]; [|by apply (B j q)].
    destruct Hq as [E|E]; [by apply Hb|by rewrite E in Ha'].
  - intros j q Hj Hq. destruct (Hlook j q Hj) as [[-> ->]|[_ Hj']]; [by apply Haft|by apply (A j q)].
  - done.
Qed.

Lemma ilock_eta : ilock s = InitLock (initialized (ilock s)) (guard_holder (ilock s)) (object (ilock s)).
Proof using Type. by destruct (ilock s). Qed.

Lemma init_same_ok pc' : announces pc = false -> announces pc' = false -> (has_guard pc' = true -> has_guard pc = true) ->
  (pc' = IInit -> initialized (ilock s) = false) -> (pc' = IUnlock \/ pc' = IUse -> initialized (ilock s) = true) ->
  init_ok (igoto s i pc' (ilock s)).
Proof using Hok Hi.
  intros Ha Ha' Hg Hb Haft. rewrite ilock_eta. apply init_goto_ok; auto. intros H. by apply (io_guard _ Hok i pc), Hg.
Qed.

(** The lock is initialized, and then announced. *)
Lemma init_init_ok : pc = IInit -> object (ilock s) = None /\
  init_ok (InitSystem (InitLock (initialized (ilock s)) (guard_holder (ilock s)) (Some tt)) (<[i := ISet]> (ipcs s)) (S (inits s))).
Proof using Hok Hi.
  intros Hpc. pose proof guard_alone as Halone. pose proof Hi as Hi'. rewrite Hpc in Halone, Hi'. pose proof Hok as [G O B A N].
  pose proof (B i IInit Hi' (or_introl eq_refl)) as Hno.
  assert (Hobj : object (ilock s) = None).
  { destruct (object (ilock s)) as [u|] eqn:E; [|done]. destruct (proj1 O ltac:(by eexists)) as [|[j Hj]]; [congruence|].
    pose proof (Halone j ISet eq_refl Hj eq_refl) as ->. congruence. }
  split; [done|].
  assert (Hlook : forall j q, <[i := ISet]> (ipcs s) !! j = Some q -> j = i /\ q = ISet \/ j <> i /\ ipcs s !! j = Some q).
  { intros j q. destruct (decide (j = i)) as [->|Hne]; [|rewrite list_lookup_insert_ne by done; auto].
    rewrite list_lookup_insert_eq by (by eapply lookup_lt_Some). intros [= <-]. auto. }
  split; cbn [ilock ipcs inits object initialized guard_holder].
  - intros j q Hj Hq. destruct (Hlook j q Hj) as [[-> ->]|[_ Hj']]; [by apply (G i IInit)|by apply (G j q)].
  - split; [|by eexists]. intros _. right. exists i. by rewrite list_lookup_insert_eq by (by eapply lookup_lt_Some).
  - intros j q Hj Hq. destruct (Hlook j q Hj) as [[-> ->]|[_ Hj']]; [done|by apply (B j q)].
  - intros j q Hj Hq. destruct (Hlook j q Hj) as [[-> ->]|[_ Hj']]; [by destruct Hq|by apply (A j q)].
  - by rewrite N, Hobj.
Qed.

Lemma init_set_ok : pc = ISet -> init_ok (igoto s i IUnlock (InitLock true (guard_holder (ilock s)) (object (ilock s)))).
Proof using Hok Hi.
  intros Hpc. pose proof guard_alone as Halone. pose proof Hi as Hi'. rewrite Hpc in Halone, Hi'. pose proof Hok as [G O B A N].
  assert (Hlook : forall j q, <[i := IUnlock]> (ipcs s) !! j = Some q -> j = i /\ q = IUnlock \/ j <> i /\ ipcs s !! j = Some q).
  { intros j q. destruct (decide (j = i)) as [->|Hne]; [|rewrite list_lookup_insert_ne by done; auto].
    rewrite list_lookup_insert_eq by (by eapply lookup_lt_Some). intros [= <-]. auto. }
  split; cbn [igoto ilock ipcs inits object initialized guard_holder].
  - intros j q Hj Hq. destruct (Hlook j q Hj) as [[-> ->]|[_ Hj']]; [by apply (G i ISet)|by apply (G j q)].
  - split; [by left|]. intros _. apply O. right. by exists i.
  - intros j q Hj Hq. destruct (Hlook j q Hj) as [[-> ->]|[Hne Hj']]; [by destruct Hq|].
    destruct Hne. apply (Halone j q); [done..|]. by destruct Hq as [-> | ->].
  - done.
  - done.
Qed.

Definition init_fine (o : outcome init_system) : Prop := match o with Done s' => init_ok s' | Blocked => True | Crash => False end.

Lemma init_exec_ok c err : init_fine (init_exec s i c err).
Proof using Hok Hi.
  pose proof Hok as [G O B A N]. unfold init_exec. rewrite Hi. pose proof (G i pc Hi) as Gi. pose proof (B i pc Hi) as Bi. pose proof (A i pc Hi) as Ai.
  pose proof init_goto_ok as Hgoto. pose proof init_same_ok as Hsame. pose proof init_init_ok as Hinit. pose proof init_set_ok as Hset.
  destruct pc as [r| | | | |e| |]; cbn [announces has_guard] in *.
  - destruct c; cbn [init_fine]; destruct (initialized (ilock s)) eqn:E; cbn [negb]; apply Hsame; try done; by intros [].
  - destruct (negb (err =? 0)); [apply Hsame; try done; by intros []|]. destruct (guard_holder (ilock s)) eqn:E; [done|].
    cbn [init_fine]. apply Hgoto; auto; try done. by intros [].
  - cbn [init_fine]. destruct (initialized (ilock s)) eqn:E; cbn [negb]; apply Hsame; try done; by intros [].
  - destruct (Hinit eq_refl) as [-> Hnew]. destruct (negb (err =? 0)); [apply Hsame; try done; by intros []|exact Hnew].
  - by apply Hset.
  - cbn [init_fine]. apply Hgoto; auto; try done. by intros [].
  - cbn [init_fine]. apply Hgoto; auto; try done.
  - destruct (object (ilock s)) eqn:E; [cbn [init_fine]; apply Hsame; try done; by intros []|].
    cbn [init_fine]. destruct (proj2 O (or_introl (Ai (or_intror eq_refl)))) as [u Hu]. congruence.
Qed.
End InitSteps.

Lemma init_reachable_ok n s : init_reachable n s -> init_ok s.
Proof.
  induction 1 as [|s i c err s' Hr IH E]; [apply init_start_ok|].
  destruct (ipcs s !! i) as [pc|] eqn:Hi; [|unfold init_exec in E; by rewrite Hi in E].
  pose proof (init_exec_ok s i pc IH Hi c err) as H. by rewrite E in H.
Qed.

(** In any interleaving, with any errors of the pthread functions: the lock is initialized at most once, never used before
    it is initialized, and from when the flag is set, it is initialized; a thread that is about to set the flag has the guard. *)
Theorem init_on_first_use (n : nat) (s : init_system) (Hr : init_reachable n s) :
  (forall i c err, init_exec s i c err <> Crash) /\ (inits s <= 1)%nat /\
  (initialized (ilock s) = true -> is_Some (object (ilock s))) /\
  (forall i j, ipcs s !! i = Some ISet -> ipcs s !! j = Some IInit \/ ipcs s !! j = Some ISet -> j = i).
Proof.
  pose proof (init_reachable_ok n s Hr) as Hok. split_and!.
  - intros i c err E. destruct (ipcs s !! i) as [pc|] eqn:Hi; [|unfold init_exec in E; by rewrite Hi in E].
    pose proof (init_exec_ok s i pc Hok Hi c err) as H. by rewrite E in H.
  - rewrite (io_inits _ Hok). destruct (object _); lia.
  - intros H. apply (io_object _ Hok). by left.
  - intros i j Hi Hj. destruct Hj as [Hj|Hj]; by eapply (guard_alone s i ISet Hok Hi).
Qed.

(** The initialization of a recursive mutex succeeds exactly if all calls do, and gives the attributes back whenever they were
    made. *)
Lemma recursive_init_results attr settype mutex destroy :
  let '(err, given_back, made) := recursive_init attr settype mutex destroy in
  (err = 0 <-> attr = 0 /\ settype = 0 /\ mutex = 0 /\ destroy = 0) /\ (given_back = true <-> attr = 0) /\ (err = 0 -> made = true).
Proof.
  unfold recursive_init. destruct (Z.eqb_spec attr 0), (Z.eqb_spec settype 0), (Z.eqb_spec mutex 0), (Z.eqb_spec destroy 0); cbn [negb];
    split_and!; try split; intros; try split_and!; try done; try tauto.
Qed.

(** How often the function is called by [k] calls of once. *)
Fixpoint once_calls (fresh : Z) (k : nat) (once_control : Z) : Z :=
  match k with
  | O => 0
  | S k => let '(r, c) := glthread_once_singlethreaded fresh once_control in r + once_calls fresh k c
  end.

Lemma once_singlethreaded_once fresh k : once_calls fresh (S k) fresh = 1.
Proof.
  assert (H : forall k, once_calls fresh k (Z.lnot fresh) = 0).
  { clear k. induction k as [|k IH]; [done|]. cbn [once_calls]. unfold glthread_once_singlethreaded.
    rewrite (proj2 (Z.eqb_neq _ _)) by (unfold Z.lnot; lia). by rewrite IH. }
  cbn [once_calls]. unfold glthread_once_singlethreaded. by rewrite Z.eqb_refl, H.
Qed.
