(* ===== verification/PosixLock.v ===== *)
(** * Locks of POSIX and Solaris threads: lock.c

    The read-write lock that is made of a mutex and two condition variables, on systems without
    pthread_rwlock_t, and the once-only execution of Solaris threads.  All that a thread does with the
    mutex in its hands is one step; pthread_cond_wait() gives the mutex back, and the thread goes
    on when it was waked up and has the mutex again.  Threads can wake up without a signal.  The errors of the
    pthread functions are arguments, 0 is success. *)

From S2P Require Import Prelude Lock RwLock.

Open Scope Z_scope.

(** ** The read-write lock *)

(** [gl_rwlock_t] without the mutex and the condition variables. *)
Record posix_rwlock := PosixRwLock { waiting_writers_count : Z; running : Z }.

(** [{ PTHREAD_MUTEX_INITIALIZER, PTHREAD_COND_INITIALIZER, PTHREAD_COND_INITIALIZER, 0, 0 }] *)
Definition posix_rwlock_initializer : posix_rwlock := PosixRwLock 0 0.

Definition glthread_rwlock_init_multithreaded (mutex readers writers : Z) (lock : posix_rwlock) : Z * posix_rwlock :=
  if negb (mutex =? 0) then (mutex, lock)
  else if negb (readers =? 0) then (readers, lock)
  else if negb (writers =? 0) then (writers, lock)
  else (0, PosixRwLock 0 0).

Definition glthread_rwlock_destroy_multithreaded (mutex readers writers : Z) : Z :=
  if negb (mutex =? 0) then mutex else if negb (readers =? 0) then readers else writers.

(** A function returns, or waits for a condition. *)
Inductive progress := Returns (err : Z) | Waits_for_signal.

(** [while (!(lock->runcount + 1 > 0 && lock->waiting_writers_count == 0))], one test with what follows. *)
Definition rdlock_test (wait unlock : Z) (lock : posix_rwlock) : option (progress * posix_rwlock) :=
  r ← int_value (running lock + 1);
  if negb ((0 <? r) && (waiting_writers_count lock =? 0)) then
    Some (if wait =? 0 then Waits_for_signal else Returns wait, lock)
  else Some (Returns unlock, PosixRwLock (waiting_writers_count lock) r).

Definition glthread_rwlock_rdlock_multithreaded (mutex wait unlock : Z) (lock : posix_rwlock) : option (progress * posix_rwlock) :=
  if negb (mutex =? 0) then Some (Returns mutex, lock) else rdlock_test wait unlock lock.

(** [while (!(lock->runcount == 0))] *)
Definition wrlock_test (wait unlock : Z) (lock : posix_rwlock) : progress * posix_rwlock :=
  let add z := PosixRwLock (wrapw 32 (waiting_writers_count lock + z)) (running lock) in
  if negb (running lock =? 0) then
    if wait =? 0 then (Waits_for_signal, add 1) else (Returns wait, add 0)
  else (Returns unlock, PosixRwLock (waiting_writers_count lock) (running lock - 1)).

(** After pthread_cond_wait(): [lock->waiting_writers_count--], and the next test. *)
Definition wrlock_again (wait unlock : Z) (lock : posix_rwlock) : progress * posix_rwlock :=
  wrlock_test wait unlock (PosixRwLock (wrapw 32 (waiting_writers_count lock - 1)) (running lock)).

Definition glthread_rwlock_wrlock_multithreaded (mutex wait unlock : Z) (lock : posix_rwlock) : progress * posix_rwlock :=
  if negb (mutex =? 0) then (Returns mutex, lock) else wrlock_test wait unlock lock.

(** pthread_cond_signal() for the writers, pthread_cond_broadcast() for the readers. *)
Inductive wake_up := NoOne | OneWriter | AllReaders.

Definition glthread_rwlock_unlock_multithreaded (mutex signal unlock : Z) (lock : posix_rwlock) : Z * wake_up * posix_rwlock :=
  let finish r :=
    let lock := PosixRwLock (waiting_writers_count lock) r in
    if r =? 0 then
      if negb (signal =? 0) then (signal, NoOne, lock)
      else (unlock, if 0 <? waiting_writers_count lock then OneWriter else AllReaders, lock)
    else (unlock, NoOne, lock) in
  if negb (mutex =? 0) then (mutex, NoOne, lock)
  else if running lock <? 0 then
    if negb (running lock =? -1) then (EINVAL, NoOne, lock) else finish 0
  else if negb (0 <? running lock) then (EINVAL, NoOne, lock)
  else finish (running lock - 1).

(** ** Threads with a read-write lock *)

(** Where a thread is: outside, with the result of its last call; with the lock; in
    pthread_cond_wait(), blocked or waked up. *)
Inductive posix_pc :=
  | POut (result : Z) | PReading | PWriting
  | PWaitR | PWokenR | PWaitW | PWokenW.

Record posix_system := PosixSystem { plock : posix_rwlock; ppcs : list posix_pc }.

Definition posix_start (n : nat) : posix_system := PosixSystem posix_rwlock_initializer (replicate n (POut 0)).

Definition is_waiting_writer (pc : posix_pc) : bool := match pc with PWaitW => true | _ => false end.

(** pthread_cond_signal() wakes up at least one of the threads that are blocked; [js] are those. *)
Definition signal_writers (js : list nat) (pcs : list posix_pc) : option (list posix_pc) :=
  if forallb (fun j => match pcs !! j with Some pc => is_waiting_writer pc | None => false end) js &&
     (negb (Nat.eqb (length js) 0) || negb (existsb is_waiting_writer pcs))
  then Some (foldr (fun j l => <[j := PWokenW]> l) pcs js) else None.

Definition broadcast_readers (pcs : list posix_pc) : list posix_pc :=
  map (fun pc => match pc with PWaitR => PWokenR | _ => pc end) pcs.

(** What a thread does next: a call with the errors of the mutex and of pthread_cond_wait(), an unlock that
    wakes up the threads [js], the test after a wake-up, a wake-up without signal. *)
Inductive posix_action :=
  | ActRead (mutex wait : Z) | ActWrite (mutex wait : Z) | ActUnlock (mutex : Z) (js : list nat)
  | ActTest (wait : Z) | ActSpurious.

Definition reader_pc (p : progress) : posix_pc :=
  match p with Returns err => if err =? 0 then PReading else POut err | Waits_for_signal => PWaitR end.
Definition writer_pc (p : progress) : posix_pc :=
  match p with Returns err => if err =? 0 then PWriting else POut err | Waits_for_signal => PWaitW end.

Definition pgoto (s : posix_system) (i : nat) (pc : posix_pc) (l : posix_rwlock) : posix_system :=
  PosixSystem l (<[i := pc]> (ppcs s)).

Definition read_step (s : posix_system) (i : nat) (r : option (progress * posix_rwlock)) : outcome posix_system :=
  match r with None => Crash | Some (p, l) => Done (pgoto s i (reader_pc p) l) end.

Definition write_step (s : posix_system) (i : nat) (r : progress * posix_rwlock) : outcome posix_system :=
  Done (pgoto s i (writer_pc r.1) r.2).

(** The thread gives its mutex back without an error, and signals do not fail. *)
Definition unlock_step (s : posix_system) (i : nat) (mutex : Z) (js : list nat) : outcome posix_system :=
  let '(err, wake, l) := glthread_rwlock_unlock_multithreaded mutex 0 0 (plock s) in
  let pcs := if err =? 0 then <[i := POut 0]> (ppcs s) else ppcs s in
  match wake with
  | NoOne => Done (PosixSystem l pcs)
  | OneWriter => match signal_writers js pcs with Some pcs => Done (PosixSystem l pcs) | None => Blocked end
  | AllReaders => Done (PosixSystem l (broadcast_readers pcs))
  end.

(** The action of thread [i]; it unlocks only when it has the lock. *)
Definition posix_exec (s : posix_system) (i : nat) (a : posix_action) : outcome posix_system :=
  match ppcs s !! i, a with
  | Some (POut _), ActRead mutex wait => read_step s i (glthread_rwlock_rdlock_multithreaded mutex wait 0 (plock s))
  | Some (POut _), ActWrite mutex wait => write_step s i (glthread_rwlock_wrlock_multithreaded mutex wait 0 (plock s))
  | Some PReading, ActUnlock mutex js | Some PWriting, ActUnlock mutex js => unlock_step s i mutex js
  | Some PWokenR, ActTest wait => read_step s i (rdlock_test wait 0 (plock s))
  | Some PWokenW, ActTest wait => write_step s i (wrlock_again wait 0 (plock s))
  | Some PWaitR, ActSpurious => Done (pgoto s i PWokenR (plock s))
  | Some PWaitW, ActSpurious => Done (pgoto s i PWokenW (plock s))
  | _, _ => Blocked
  end.

Inductive posix_reachable (n : nat) : posix_system -> Prop :=
  | posix_reachable_start : posix_reachable n (posix_start n)
  | posix_reachable_step s i a s' : posix_reachable n s -> posix_exec s i a = Done s' -> posix_reachable n s'.

(** ** Once-only execution of Solaris threads *)

(** [gl_once_t]: [inited], and the thread that has the mutex. *)
Record solaris_once := SolarisOnce { once_inited : Z; once_mutex : option nat }.

(** Where a thread is in [glthread_once_multithreaded], by what comes next. *)
Inductive solaris_pc := STest | SLock | STest2 | SSet | SCall | SUnlock | SReturned.

#[export] Instance solaris_pc_eq_dec : EqDecision solaris_pc.
Proof. solve_decision. Defined.

(** [begun], [ended]: how often [initfunction] was called, and how often it has returned. *)
Record solaris_system := SolarisSystem { scontrol : solaris_once; spcs : list solaris_pc; sbegun : nat; sended : nat }.

Definition solaris_start (n : nat) : solaris_system := SolarisSystem (SolarisOnce 0 None) (replicate n STest) 0 0.

Definition sgoto (s : solaris_system) (i : nat) (pc : solaris_pc) (c : solaris_once) : solaris_system :=
  SolarisSystem c (<[i := pc]> (spcs s)) (sbegun s) (sended s).

(** The next step of thread [i]. *)
Definition solaris_exec (s : solaris_system) (i : nat) : outcome solaris_system :=
  let c := scontrol s in
  match spcs s !! i with
  | None | Some SReturned => Blocked
  | Some STest => Done (sgoto s i (if once_inited c =? 0 then SLock else SReturned) c)
  | Some SLock =>
      match once_mutex c with
      | None => Done (sgoto s i STest2 (SolarisOnce (once_inited c) (Some i)))
      | Some _ => Blocked
      end
  | Some STest2 => Done (sgoto s i (if once_inited c =? 0 then SSet else SUnlock) c)
  | Some SSet => Done (SolarisSystem (SolarisOnce 1 (once_mutex c)) (<[i := SCall]> (spcs s)) (S (sbegun s)) (sended s))
  | Some SCall => Done (SolarisSystem c (<[i := SUnlock]> (spcs s)) (sbegun s) (S (sended s)))
  | Some SUnlock => Done (sgoto s i SReturned (SolarisOnce (once_inited c) None))
  end.

Inductive solaris_reachable (n : nat) : solaris_system -> Prop :=
  | solaris_reachable_start : solaris_reachable n (solaris_start n)
  | solaris_reachable_step s i s' : solaris_reachable n s -> solaris_exec s i = Done s' -> solaris_reachable n s'.
