(* ===== verification/PosixLockTheorems.v ===== *)
(** * The read-write lock made of a mutex and condition variables

    Readers and writers exclude each other, no wake-up is lost, a waiting writer is not
    overtaken by readers, and every thread is served; the once-only execution of Solaris
    threads returns too early. *)

From S2P Require Import Prelude Lock RwLock PosixLock.

Open Scope Z_scope.

(** ** Counting threads *)

Section Count.
Context {A : Type} (f : A -> bool).

Definition count_of (l : list A) : Z := Z.of_nat (length (List.filter f l)).

Lemma count_nonneg l : 0 <= count_of l.
Proof. unfold count_of. lia. Qed.

Lemma count_cons x l : count_of (x :: l) = Z.b2z (f x) + count_of l.
Proof. unfold count_of. simpl. destruct (f x); simpl; lia. Qed.

Lemma count_insert l i x y : l !! i = Some x -> count_of (<[i := y]> l) = count_of l - Z.b2z (f x) + Z.b2z (f y).
Proof.
  revert i. induction l as [|z l IH]; intros [|i] Hi; simpl in *; [done..|injection Hi as ->|]; rewrite !count_cons; [lia|].
  rewrite (IH i Hi). lia.
Qed.

Lemma count_le l : count_of l <= Z.of_nat (length l).
Proof. unfold count_of. pose proof (List.filter_length_le f l). lia. Qed.

Lemma count_replicate n x : f x = false -> count_of (replicate n x) = 0.
Proof. intros Hx. induction n as [|n IH]; [done|]. simpl. by rewrite count_cons, IH, Hx. Qed.

Lemma count_pos l : 0 < count_of l -> exists i x, l !! i = Some x /\ f x = true.
Proof.
  induction l as [|x l IH]; [done|]. rewrite count_cons. destruct (f x) eqn:E; intros H; [by exists O, x|].
  destruct IH as (i & y & Hi & Hy); [simpl in H; lia|]. by exists (S i), y.
Qed.

Lemma count_in l i x : l !! i = Some x -> f x = true -> 0 < count_of l.
Proof.
  revert i. induction l as [|y l IH]; intros [|i] Hi Hx; simpl in Hi; [done..|injection Hi as ->|]; rewrite count_cons.
  - rewrite Hx. pose proof (count_nonneg l). simpl. lia.
  - specialize (IH i Hi Hx). destruct (f y); simpl; lia.
Qed.

Lemma count_zero l : count_of l = 0 -> forall i x, l !! i = Some x -> f x = false.
Proof. intros H0 i x Hi. destruct (f x) eqn:E; [|done]. pose proof (count_in l i x Hi E). lia. Qed.

Lemma count_one l i j x y : count_of l <= 1 -> l !! i = Some x -> l !! j = Some y -> f x = true -> f y = true -> i = j.
Proof.
  intros H1 Hi Hj Hx Hy. destruct (decide (i = j)) as [|Hne]; [done|]. exfalso.
  revert i j Hi Hj Hne. induction l as [|z l IH]; intros [|i] [|j] Hi Hj Hne; simpl in *; try done.
  - injection Hi as ->. rewrite count_cons, Hx in H1. pose proof (count_in l j y Hj Hy). simpl in H1. lia.
  - injection Hj as ->. rewrite count_cons, Hy in H1. pose proof (count_in l i x Hi Hx). simpl in H1. lia.
  - rewrite count_cons in H1. apply (IH ltac:(destruct (f z); simpl in H1; lia) i j Hi Hj). congruence.
Qed.

Lemma count_map (g : A -> A) l : (forall x, f (g x) = f x) -> count_of (map g l) = count_of l.
Proof. intros Hg. induction l as [|x l IH]; [done|]. cbn [map]. by rewrite !count_cons, IH, Hg. Qed.

Lemma existsb_count l : existsb f l = false -> count_of l = 0.
Proof. induction l as [|x l IH]; [done|]. cbn [existsb]. rewrite orb_false_iff, count_cons. intros [-> H]. by rewrite IH. Qed.
End Count.

Definition is_reading (pc : posix_pc) : bool := match pc with PReading => true | _ => false end.
Definition is_writing (pc : posix_pc) : bool := match pc with PWriting => true | _ => false end.
Definition is_waiting_reader (pc : posix_pc) : bool := match pc with PWaitR => true | _ => false end.
Definition is_woken_writer (pc : posix_pc) : bool := match pc with PWokenW => true | _ => false end.
Definition is_woken (pc : posix_pc) : bool := match pc with PWokenW | PWokenR => true | _ => false end.
Definition is_inside (pc : posix_pc) : bool := match pc with POut _ => false | _ => true end.
Definition is_writer_queued (pc : posix_pc) : bool := is_waiting_writer pc || is_woken_writer pc.

(** ** The invariant *)

(** The counters count; when the lock is free, a writer that can go on is there, or nobody waits. *)
Record posix_ok (s : posix_system) : Prop := PosixOk {
  pok_writers : waiting_writers_count (plock s) = count_of is_writer_queued (ppcs s);
  pok_running : running (plock s) = count_of is_reading (ppcs s) /\ count_of is_writing (ppcs s) = 0 \/
                running (plock s) = -1 /\ count_of is_reading (ppcs s) = 0 /\ count_of is_writing (ppcs s) = 1;
  pok_free : running (plock s) = 0 ->
    0 < count_of is_woken_writer (ppcs s) \/ waiting_writers_count (plock s) = 0 /\ count_of is_waiting_reader (ppcs s) = 0
}.

(** The counts after a thread has moved. *)
Ltac moved Hi :=
  rewrite !(count_insert _ _ _ _ _ Hi) in *; simpl Z.b2z in *.

Lemma posix_start_ok n : posix_ok (posix_start n).
Proof.
  split; cbn [plock posix_start posix_rwlock_initializer waiting_writers_count running ppcs]; rewrite ?count_replicate by done; auto.
Qed.

Lemma wrap_small z : 0 <= z < 2 ^ 31 -> wrapw 32 z = z.
Proof. intros. apply wrapw_small. lia. Qed.

(** ** Waking up *)

Lemma signal_lookup (js : list nat) (pcs : list posix_pc) : Forall (fun j => pcs !! j = Some PWaitW) js ->
  forall j, foldr (fun j l => <[j := PWokenW]> l) pcs js !! j = if decide (j ∈ js) then Some PWokenW else pcs !! j.
Proof.
  induction 1 as [|k js Hk Hjs IH]; intros j; [done|]. cbn [foldr]. destruct (decide (j = k)) as [->|Hne].
  - rewrite list_lookup_insert_eq, decide_True by (try apply list_elem_of_here; rewrite <- lookup_lt_is_Some, IH; by case_decide).
    done.
  - rewrite list_lookup_insert_ne, IH by done. apply decide_ext. rewrite elem_of_cons. split; [by right|by intros [|]].
Qed.

Lemma signal_count f (js : list nat) (pcs : list posix_pc) : f PWaitW = f PWokenW -> Forall (fun j => pcs !! j = Some PWaitW) js ->
  count_of f (foldr (fun j l => <[j := PWokenW]> l) pcs js) = count_of f pcs.
Proof.
  intros Hf. induction 1 as [|k js Hk Hjs IH]; [done|]. cbn [foldr].
  pose proof (signal_lookup js pcs Hjs k) as Hl. case_decide.
  - rewrite (count_insert _ _ _ _ _ Hl), IH. lia.
  - rewrite Hk in Hl. rewrite (count_insert _ _ _ _ _ Hl), IH, Hf. lia.
Qed.

Lemma length_signal js (pcs : list posix_pc) : length (foldr (fun j l => <[j := PWokenW]> l) pcs js) = length pcs.
Proof. induction js as [|j js IH]; [done|]. cbn [foldr]. by rewrite length_insert. Qed.

(** A signal wakes up a writer, if there is one that waits. *)
Record signaled_ok (pcs pcs' : list posix_pc) : Prop := SignaledOk {
  sgo_length : length pcs' = length pcs;
  sgo_count f : f PWaitW = f PWokenW -> count_of f pcs' = count_of f pcs;
  sgo_woken : 0 < count_of is_writer_queued pcs -> 0 < count_of is_woken_writer pcs';
  sgo_lookup j : pcs' !! j = pcs !! j \/ pcs !! j = Some PWaitW /\ pcs' !! j = Some PWokenW
}.

Lemma count_split pcs : count_of is_writer_queued pcs = count_of is_waiting_writer pcs + count_of is_woken_writer pcs.
Proof. induction pcs as [|pc pcs IH]; [done|]. rewrite !count_cons, IH. destruct pc; simpl; lia. Qed.

Lemma signal_ok js pcs pcs' : signal_writers js pcs = Some pcs' -> signaled_ok pcs pcs'.
Proof.
  unfold signal_writers. destruct (forallb _ js) eqn:Hall; [|done]. destruct (_ || _) eqn:Hany; [|done]. intros [= <-].
  assert (Hjs : Forall (fun j => pcs !! j = Some PWaitW) js).
  { apply Forall_forall. intros j Hj. rewrite forallb_forall in Hall. specialize (Hall j ltac:(by apply list_elem_of_In)).
    by destruct (pcs !! j) as [[]|]. }
  split.
  - apply length_signal.
  - intros f Hf. by apply signal_count.
  - intros Hq. destruct js as [|j js].
    + simpl in Hany |- *. apply negb_true_iff, existsb_count in Hany. rewrite count_split in Hq. lia.
    + apply (count_in is_woken_writer _ j PWokenW); [|done]. rewrite signal_lookup, decide_True by (try apply list_elem_of_here; done). done.
  - intros j. rewrite signal_lookup by done. case_decide as Hin; [right|by left]. split; [|done].
    rewrite Forall_forall in Hjs. by apply Hjs.
Qed.

Lemma signal_possible pcs : exists js pcs', signal_writers js pcs = Some pcs'.
Proof.
  destruct (existsb is_waiting_writer pcs) eqn:E.
  - apply existsb_exists in E as (pc & Hin & Hpc). apply list_elem_of_In, list_elem_of_lookup in Hin as [j Hj].
    exists [j]. unfold signal_writers. simpl. rewrite Hj, Hpc. simpl. by eexists.
  - exists [], pcs. unfold signal_writers. simpl. by rewrite E.
Qed.

Lemma broadcast_count f pcs : f PWaitR = f PWokenR -> count_of f (broadcast_readers pcs) = count_of f pcs.
Proof. intros Hf. apply count_map. by intros []. Qed.

Lemma broadcast_none pcs : count_of is_waiting_reader (broadcast_readers pcs) = 0.
Proof. induction pcs as [|pc pcs IH]; [done|]. unfold broadcast_readers. cbn [map]. rewrite count_cons. fold (broadcast_readers pcs). rewrite IH. by destruct pc. Qed.

(** ** Every step keeps the invariant *)

Section Steps.
Context (s : posix_system) (i : nat) (Hok : posix_ok s) (Hn : Z.of_nat (length (ppcs s)) < 2 ^ 31 - 1).

Lemma running_small : -1 <= running (plock s) < 2 ^ 31 - 1.
Proof using Hok Hn.
  pose proof (count_nonneg is_reading (ppcs s)). pose proof (count_le is_reading (ppcs s)).
  destruct (pok_running _ Hok) as [[-> _]|[-> _]]; lia.
Qed.

Lemma writers_small : 0 <= waiting_writers_count (plock s) < 2 ^ 31 - 1.
Proof using Hok Hn.
  pose proof (count_nonneg is_writer_queued (ppcs s)). pose proof (count_le is_writer_queued (ppcs s)). rewrite (pok_writers _ Hok). lia.
Qed.

Lemma read_test_ok x wait : ppcs s !! i = Some x -> (exists r, x = POut r) \/ x = PWokenR ->
  exists p l, rdlock_test wait 0 (plock s) = Some (p, l) /\ posix_ok (pgoto s i (reader_pc p) l) /\
    (reader_pc p = PReading -> waiting_writers_count (plock s) = 0).
Proof using Hok Hn.
  intros Hi Hx. pose proof running_small as Hr. unfold rdlock_test, int_value. change INT_MAX with (2 ^ 31 - 1).
  rewrite (proj2 (Z.leb_le _ _)) by lia. cbn [mbind option_bind].
  destruct Hok as [W R F]. pose proof (count_nonneg is_reading (ppcs s)).
  destruct ((0 <? running (plock s) + 1) && (waiting_writers_count (plock s) =? 0)) eqn:Et; cbn [negb].
  - apply andb_true_iff in Et as [Et1 Et2]. apply Z.ltb_lt in Et1. apply Z.eqb_eq in Et2. eexists _, _. split; [done|]. split; [|done].
    split; cbn [pgoto plock ppcs waiting_writers_count running reader_pc Z.eqb].
    + moved Hi. destruct Hx as [[r ->]| ->]; simpl; lia.
    + moved Hi. destruct Hx as [[r ->]| ->]; simpl; left; lia.
    + intros E. lia.
  - eexists _, _. split; [done|]. assert (Hpc : exists y, (if wait =? 0 then Waits_for_signal else Returns wait) = y /\
      (reader_pc y = PWaitR \/ exists e, reader_pc y = POut e)).
    { destruct (Z.eqb_spec wait 0) as [|Hw]; eexists; (split; [done|]); simpl; [by left|right]. rewrite (proj2 (Z.eqb_neq _ _) Hw). by eexists. }
    destruct Hpc as (y & -> & Hy). split; [|by intros Hy'; destruct Hy as [Hy|[? Hy]]; rewrite Hy in Hy'].
    split; cbn [pgoto plock ppcs].
    + moved Hi. destruct Hx as [[r ->]| ->], Hy as [->|[e ->]]; simpl; lia.
    + moved Hi. destruct Hx as [[r ->]| ->], Hy as [->|[e ->]]; simpl; rewrite !Z.sub_0_r, !Z.add_0_r; exact R.
    + intros H0. left. destruct (F H0) as [Fw|[Fw _]].
      * moved Hi. destruct Hx as [[r ->]| ->], Hy as [->|[e ->]]; simpl; lia.
      * rewrite H0, Fw in Et. done.
Qed.

Lemma write_test_ok x wait l0 : ppcs s !! i = Some x ->
  (exists r, x = POut r) /\ l0 = plock s \/ x = PWokenW /\ l0 = PosixRwLock (waiting_writers_count (plock s) - 1) (running (plock s)) ->
  let '(p, l) := wrlock_test wait 0 l0 in posix_ok (pgoto s i (writer_pc p) l).
Proof using Hok Hn.
  intros Hi Hx. pose proof writers_small as Hw. pose proof (count_in is_writer_queued _ _ _ Hi) as Hin. destruct Hok as [W R F].
  assert (El : running l0 = running (plock s) /\ 0 <= waiting_writers_count l0 < 2 ^ 31 - 1 /\
    waiting_writers_count l0 = count_of is_writer_queued (ppcs s) - Z.b2z (is_writer_queued x)).
  { destruct Hx as [[[r ->] ->]|[-> ->]]; cbn [running waiting_writers_count is_writer_queued is_waiting_writer is_woken_writer orb Z.b2z];
      [lia|specialize (Hin eq_refl); lia]. }
  destruct El as (Er & Hl & El).
  assert (Hsame : is_reading x = false /\ is_writing x = false /\ is_waiting_reader x = false) by (by destruct Hx as [[[r ->] _]|[-> _]]).
  destruct Hsame as (S1 & S2 & S3). unfold wrlock_test. rewrite Er. destruct (Z.eqb_spec (running (plock s)) 0) as [H0|H0]; cbn [negb].
  - split; cbn [pgoto plock ppcs writer_pc Z.eqb waiting_writers_count running]; moved Hi; rewrite ?S1, ?S2, ?S3; simpl; lia.
  - rewrite !wrap_small by lia. destruct (Z.eqb_spec wait 0) as [Hwt|Hwt].
    + split; cbn [pgoto plock ppcs writer_pc waiting_writers_count running]; moved Hi; rewrite ?S1, ?S2, ?S3; simpl; lia.
    + cbn [writer_pc]. rewrite (proj2 (Z.eqb_neq _ _) Hwt).
      split; cbn [pgoto plock ppcs waiting_writers_count running]; moved Hi; rewrite ?S1, ?S2, ?S3; simpl; lia.
Qed.

(** The lock is given back: the counters are right again, before the wake-up. *)
Lemma unlock_counts x mutex : ppcs s !! i = Some x -> is_reading x || is_writing x = true ->
  let pcs := <[i := POut 0]> (ppcs s) in
  let w := waiting_writers_count (plock s) in
  w = count_of is_writer_queued pcs /\ count_of is_writing pcs = 0 /\
  glthread_rwlock_unlock_multithreaded mutex 0 0 (plock s) =
    if mutex =? 0 then
      let r := count_of is_reading pcs in
      (0, if r =? 0 then if 0 <? w then OneWriter else AllReaders else NoOne, PosixRwLock w r)
    else (mutex, NoOne, plock s).
Proof using Hok Hn.
  intros Hi Hx. destruct Hok as [W R F]. cbv zeta. pose proof (count_in is_reading _ _ _ Hi) as Hin1. pose proof (count_in is_writing _ _ _ Hi) as Hin2.
  unfold glthread_rwlock_unlock_multithreaded. moved Hi.
  assert (Hr : (if running (plock s) <? 0 then running (plock s) =? -1 else 0 <? running (plock s)) = true /\
    (if running (plock s) <? 0 then 0 else running (plock s) - 1) = count_of is_reading (ppcs s) - Z.b2z (is_reading x) + 0 /\
    count_of is_writing (ppcs s) - Z.b2z (is_writing x) + 0 = 0).
  { destruct x; try done; simpl in *; specialize (Hin1 eq_refl) || specialize (Hin2 eq_refl).
    - rewrite (proj2 (Z.ltb_ge _ _)) by lia. rewrite (proj2 (Z.ltb_lt _ _)) by lia. lia.
    - rewrite (proj2 (Z.ltb_lt _ _)) by lia. rewrite (proj2 (Z.eqb_eq _ _)) by lia. lia. }
  destruct Hr as (R2 & R3 & R4). split; [destruct x; simpl in *; try done; lia|]. split; [done|].
  destruct (mutex =? 0); cbn [negb]; [|done]. rewrite <- R3. cbn [waiting_writers_count].
  destruct (running (plock s) <? 0); rewrite R2; cbn [negb]; [done|]. by destruct (running (plock s) - 1 =? 0).
Qed.

Lemma posix_unlock_ok x mutex js : ppcs s !! i = Some x -> is_reading x || is_writing x = true ->
  match unlock_step s i mutex js with
  | Done s' => posix_ok s' /\ length (ppcs s') = length (ppcs s) /\
      (forall j, ppcs s' !! j = Some PReading -> ppcs s !! j = Some PReading)
  | Blocked => mutex = 0 /\ signal_writers js (<[i := POut 0]> (ppcs s)) = None
  | Crash => False
  end.
Proof using Hok Hn.
  intros Hi Hx. destruct (unlock_counts x mutex Hi Hx) as (W & Wr & E). unfold unlock_step. rewrite E.
  destruct (Z.eqb_spec mutex 0) as [Hm|Hm]; cycle 1.
  { rewrite (proj2 (Z.eqb_neq _ _) Hm). split; [by destruct s|]. by split. }
  cbv beta iota zeta. change (0 =? 0) with true. cbv iota. set (pcs := <[i := POut 0]> (ppcs s)) in *.
  assert (Hlen : length pcs = length (ppcs s)) by apply length_insert.
  assert (Hrd : forall j, pcs !! j = Some PReading -> ppcs s !! j = Some PReading).
  { intros j. unfold pcs. destruct (decide (j = i)) as [->|Hne]; [|by rewrite list_lookup_insert_ne].
    rewrite list_lookup_insert_eq by (by eapply lookup_lt_Some). done. }
  destruct (Z.eqb_spec (count_of is_reading pcs) 0) as [H0|H0]; cycle 1.
  { split; [|done]. split; cbn [plock ppcs waiting_writers_count running]; [done|by left|done]. }
  destruct (Z.ltb_spec 0 (waiting_writers_count (plock s))) as [Hw|Hw].
  - destruct (signal_writers js pcs) as [pcs'|] eqn:Es; [|done]. apply signal_ok in Es as [S1 S2 S3 S4].
    split; [|split; [cbn; congruence|]].
    + split; cbn [plock ppcs waiting_writers_count running]; rewrite ?(S2 is_writer_queued), ?(S2 is_reading), ?(S2 is_writing) by done; [done|by left|].
      intros _. left. apply S3. lia.
    + intros j Hj. apply Hrd. cbn in Hj. destruct (S4 j) as [<-|[_ Hj']]; [done|]. by rewrite Hj' in Hj.
  - split; [|split].
    + pose proof (count_nonneg is_writer_queued pcs).
      split; cbn [plock ppcs waiting_writers_count running]; rewrite ?(broadcast_count is_writer_queued), ?(broadcast_count is_reading), ?(broadcast_count is_writing) by done; [done|by left|].
      intros _. right. split; [lia|apply broadcast_none].
    + cbn. unfold broadcast_readers. by rewrite length_map.
    + cbn. intros j Hj. apply Hrd. unfold broadcast_readers in Hj.
      assert (Hj' : ((fun pc => match pc with PWaitR => PWokenR | _ => pc end) <$> pcs !! j) = Some PReading) by (by rewrite <- list_lookup_fmap).
      by destruct (pcs !! j) as [[]|].
Qed.

(** What a step does; readers only start when no writer waits. *)
Definition fine (o : outcome posix_system) : Prop :=
  match o with
  | Done s' => posix_ok s' /\ length (ppcs s') = length (ppcs s) /\
      forall j, ppcs s' !! j = Some PReading -> ppcs s !! j = Some PReading \/ waiting_writers_count (plock s) = 0
  | Blocked => True
  | Crash => False
  end.

Lemma fine_goto x pc l : ppcs s !! i = Some x -> posix_ok (pgoto s i pc l) -> (pc = PReading -> waiting_writers_count (plock s) = 0) ->
  fine (Done (pgoto s i pc l)).
Proof using Type.
  intros Hi Hs Hr. split; [done|]. split; [apply length_insert|]. intros j Hj. cbn in Hj. destruct (decide (j = i)) as [->|Hne].
  - right. rewrite list_lookup_insert_eq in Hj by (by eapply lookup_lt_Some). apply Hr. congruence.
  - left. by rewrite list_lookup_insert_ne in Hj.
Qed.

(** A thread that only changes its place: it fails, or wakes up. *)
Definition moves_only (x pc : posix_pc) : Prop :=
  match x, pc with
  | POut _, POut _ | PWaitR, PWokenR | PWaitW, PWokenW => True
  | _, _ => False
  end.

Lemma fine_moves x pc : ppcs s !! i = Some x -> moves_only x pc -> fine (Done (pgoto s i pc (plock s))).
Proof using Hok Hn.
  intros Hi Hx. apply (fine_goto x); [done| |by destruct x, pc]. pose proof (count_in is_waiting_reader _ _ _ Hi) as Hin.
  destruct Hok as [W R F]. split; cbn [pgoto plock ppcs]; [| |intros H0; specialize (F H0)]; moved Hi; destruct x, pc; try done; simpl in *; lia.
Qed.

Lemma fine_read x wait : ppcs s !! i = Some x -> (exists r, x = POut r) \/ x = PWokenR ->
  fine (read_step s i (rdlock_test wait 0 (plock s))).
Proof using Hok Hn.
  intros Hi Hx. destruct (read_test_ok x wait Hi Hx) as (p & l & E & Hs & Hrd). rewrite E. by apply (fine_goto x).
Qed.

Lemma fine_write x wait l0 : ppcs s !! i = Some x ->
  (exists r, x = POut r) /\ l0 = plock s \/ x = PWokenW /\ l0 = PosixRwLock (waiting_writers_count (plock s) - 1) (running (plock s)) ->
  fine (write_step s i (wrlock_test wait 0 l0)).
Proof using Hok Hn.
  intros Hi Hx. pose proof (write_test_ok x wait l0 Hi Hx) as Hs. destruct (wrlock_test wait 0 l0) as [p l].
  apply (fine_goto x); [done..|]. cbn [fst]. destruct p as [err|]; simpl; [by destruct (err =? 0)|done].
Qed.

Lemma fine_unlock x mutex js : ppcs s !! i = Some x -> is_reading x || is_writing x = true -> fine (unlock_step s i mutex js).
Proof using Hok Hn.
  intros Hi Hx. pose proof (posix_unlock_ok x mutex js Hi Hx) as H. destruct (unlock_step s i mutex js); [|done..].
  destruct H as (H1 & H2 & H3). split_and!; auto.
Qed.

Lemma posix_exec_ok a : fine (posix_exec s i a).
Proof using Hok Hn.
  unfold posix_exec. destruct (ppcs s !! i) as [x|] eqn:Hi; [|done].
  destruct x as [r| | | | | |], a as [m wait|m wait|m js|wait|]; try done.
  - unfold glthread_rwlock_rdlock_multithreaded. destruct (Z.eqb_spec m 0) as [|Hm]; cbn [negb]; [apply (fine_read _ _ Hi); left; by eexists|].
    cbn [read_step reader_pc]. rewrite (proj2 (Z.eqb_neq _ _) Hm). by apply (fine_moves _ _ Hi).
  - unfold glthread_rwlock_wrlock_multithreaded.
    destruct (Z.eqb_spec m 0) as [|Hm]; cbn [negb]; [apply (fine_write _ _ _ Hi); left; split; [by eexists|done]|].
    unfold write_step. cbn [fst snd writer_pc]. rewrite (proj2 (Z.eqb_neq _ _) Hm). by apply (fine_moves _ _ Hi).
  - by apply (fine_unlock _ _ _ Hi).
  - by apply (fine_unlock _ _ _ Hi).
  - by apply (fine_moves _ _ Hi).
  - apply (fine_read _ _ Hi). by right.
  - by apply (fine_moves _ _ Hi).
  - unfold wrlock_again. pose proof writers_small as Hw. pose proof (pok_writers _ Hok) as W.
    pose proof (count_in is_writer_queued _ _ _ Hi eq_refl). rewrite wrap_small by lia. apply (fine_write _ _ _ Hi). by right.
Qed.
End Steps.

Lemma posix_reachable_ok n s : Z.of_nat n < 2 ^ 31 - 1 -> posix_reachable n s -> posix_ok s /\ length (ppcs s) = n.
Proof.
  intros Hn. induction 1 as [|s i a s' Hr [Hok Hlen] E]; [split; [apply posix_start_ok|cbn; by rewrite length_replicate]|].
  pose proof (posix_exec_ok s i Hok ltac:(lia) a) as Hf. rewrite E in Hf. destruct Hf as (H1 & H2 & _). split; [done|congruence].
Qed.

(** ** Threads that are served *)

(** What happens when nobody calls: a thread gives the lock back, or goes on after a
    wake-up; the functions of the operating system succeed. *)
Definition serves (s s' : posix_system) : Prop :=
  exists i a, posix_exec s i a = Done s' /\ match a with ActUnlock mutex _ => mutex = 0 | ActTest wait => wait = 0 | _ => False end.

Inductive served : nat -> posix_system -> posix_system -> Prop :=
  | served_none s : served 0 s s
  | served_step k s s1 s' : serves s s1 -> served k s1 s' -> served (S k) s s'.

(** The threads that are inside, and those that were waked up. *)
Definition work (s : posix_system) : Z :=
  (Z.of_nat (length (ppcs s)) + 1) * count_of is_inside (ppcs s) + count_of is_woken (ppcs s).

Lemma work_goto s i x pc l : ppcs s !! i = Some x -> is_woken x = true -> is_inside pc = true -> is_woken pc = false ->
  work (pgoto s i pc l) = work s - 1.
Proof.
  intros Hi Hx H1 H2. unfold work. cbn [pgoto ppcs]. rewrite length_insert, !(count_insert _ _ _ _ _ Hi), Hx, H1, H2.
  assert (is_inside x = true) as -> by (by destruct x). simpl. lia.
Qed.

Lemma work_unlock s i x mutex js s' : posix_ok s -> Z.of_nat (length (ppcs s)) < 2 ^ 31 - 1 -> ppcs s !! i = Some x ->
  is_reading x || is_writing x = true -> mutex = 0 -> unlock_step s i mutex js = Done s' -> work s' < work s.
Proof.
  intros Hok Hn Hi Hx -> E. destruct (unlock_counts s i Hok Hn x 0 Hi Hx) as (_ & _ & Eu). unfold unlock_step in E. rewrite Eu in E.
  cbn [Z.eqb] in E. set (pcs := <[i := POut 0]> (ppcs s)) in *.
  assert (Hin : count_of is_inside pcs = count_of is_inside (ppcs s) - 1).
  { unfold pcs. rewrite (count_insert _ _ _ _ _ Hi). assert (is_inside x = true) as -> by (by destruct x). simpl. lia. }
  assert (Hlen : length pcs = length (ppcs s)) by apply length_insert.
  pose proof (count_nonneg is_woken (ppcs s)) as Hw0. unfold work.
  assert (Hdone : forall l pcs', s' = PosixSystem l pcs' -> length pcs' = length pcs -> count_of is_inside pcs' = count_of is_inside pcs -> work s' < work s).
  { intros l pcs' -> Hl Hi'. unfold work. cbn [ppcs]. rewrite Hl, Hi', Hlen, Hin. pose proof (count_le is_woken pcs'). lia. }
  destruct (count_of is_reading pcs =? 0); [destruct (0 <? _)|].
  - destruct (signal_writers js pcs) as [pcs'|] eqn:Es; [|done]. injection E as <-. apply signal_ok in Es as [S1 S2 _ _].
    by eapply Hdone; [done..|apply S2].
  - injection E as <-. eapply Hdone; [done|unfold broadcast_readers; by rewrite length_map|by apply broadcast_count].
  - injection E as <-. by eapply Hdone.
Qed.

(** Every such step is work that is done. *)
Lemma serves_work s s' : posix_ok s -> Z.of_nat (length (ppcs s)) < 2 ^ 31 - 1 -> serves s s' -> work s' < work s.
Proof.
  intros Hok Hn (i & a & E & Ha). unfold posix_exec in E. destruct (ppcs s !! i) as [x|] eqn:Hi; [|done].
  destruct x as [r| | | | | |], a as [m wait|m wait|m js|wait|]; try done.
  - by eapply work_unlock.
  - by eapply work_unlock.
  - subst wait. destruct (read_test_ok s i Hok Hn PWokenR 0 Hi (or_intror eq_refl)) as (p & l & Ep & _). rewrite Ep in E.
    injection E as <-. rewrite (work_goto s i PWokenR); [lia|done..| |]; unfold rdlock_test in Ep; destruct (int_value _); try done; cbn [mbind option_bind] in Ep;
      case_if_in Ep; try done; by injection Ep as <- _.
  - subst wait. unfold wrlock_again, write_step, wrlock_test in E. cbn [running] in E. destruct (negb _); injection E as <-;
      (rewrite (work_goto s i PWokenW); [lia|done..]).
Qed.

(** If nothing can happen, nobody is inside. *)
Lemma serves_possible s i x : posix_ok s -> Z.of_nat (length (ppcs s)) < 2 ^ 31 - 1 -> ppcs s !! i = Some x ->
  is_reading x || is_writing x || is_woken x = true -> exists s', serves s s'.
Proof.
  intros Hok Hn Hi Hx. destruct (is_woken x) eqn:Hw.
  - pose proof (posix_exec_ok s i Hok Hn (ActTest 0)) as Hf.
    assert (Hb : posix_exec s i (ActTest 0) <> Blocked).
    { unfold posix_exec. rewrite Hi. destruct x; try done; unfold read_step, write_step; by destruct (rdlock_test _ _ _) as [[]|]. }
    destruct (posix_exec s i (ActTest 0)) as [s'| |] eqn:E; [|done..]. exists s', i, (ActTest 0). done.
  - rewrite orb_false_r in Hx. destruct (signal_possible (<[i := POut 0]> (ppcs s))) as (js & pcs & Es).
    pose proof (posix_unlock_ok s i Hok Hn x 0 js Hi Hx) as Hu.
    destruct (unlock_step s i 0 js) as [s'| |] eqn:E; [|by destruct Hu as [_ Hu]; rewrite Es in Hu|done].
    exists s', i, (ActUnlock 0 js). split; [|done]. unfold posix_exec. rewrite Hi. by destruct x.
Qed.

(** A thread that waits is not forgotten. *)
Lemma someone_acts s i x : posix_ok s -> ppcs s !! i = Some x -> is_inside x = true ->
  exists j y, ppcs s !! j = Some y /\ is_reading y || is_writing y || is_woken y = true.
Proof.
  intros [W R F] Hi Hx.
  assert (Hcase : is_reading x || is_writing x || is_woken x = true \/ is_waiting_reader x = true \/ is_waiting_writer x = true) by (destruct x; auto).
  destruct Hcase as [H|Hwait]; [by exists i, x|].
  assert (Hp : forall f, 0 < count_of f (ppcs s) -> (forall y, f y = true -> is_reading y || is_writing y || is_woken y = true) ->
    exists j y, ppcs s !! j = Some y /\ is_reading y || is_writing y || is_woken y = true).
  { intros f Hf Hy. destruct (count_pos f _ Hf) as (j & y & Hj & E). exists j, y. auto. }
  destruct R as [[R1 R2]|(_ & _ & R3)]; [|apply (Hp is_writing); [lia|by intros []]].
  destruct (decide (count_of is_reading (ppcs s) = 0)) as [H0|H0];
    [|apply (Hp is_reading); [pose proof (count_nonneg is_reading (ppcs s)); lia|by intros []]].
  rewrite H0 in R1. destruct (F R1) as [F1|[F1 F2]]; [apply (Hp is_woken_writer); [done|by intros []]|]. exfalso.
  destruct Hwait as [Hr|Hw]; [pose proof (count_in _ _ _ _ Hi Hr); lia|].
  assert (Hq : is_writer_queued x = true) by (unfold is_writer_queued; by rewrite Hw). pose proof (count_in _ _ _ _ Hi Hq). lia.
Qed.

(** ** Theorems *)

(** C29. The read-write lock of POSIX threads, for any number of threads below 2^31 - 1, in any
    interleaving of their critical sections, with wake-ups without a signal, with any choice of the threads that a
    signal wakes up, and with failures of pthread_mutex_lock() and pthread_cond_wait(): a thread that writes is alone; no counter
    overflows; and while a writer waits no other thread starts to read, so that readers cannot starve it. *)
Theorem posix_rwlock_safe (n : nat) (s : posix_system) (Hn : Z.of_nat n < 2 ^ 31 - 1) (Hr : posix_reachable n s) :
  (forall i j, ppcs s !! i = Some PWriting -> ppcs s !! j = Some PReading \/ ppcs s !! j = Some PWriting -> i = j) /\
  (forall i a, posix_exec s i a <> Crash) /\
  (forall w x i a s', ppcs s !! w = Some x -> is_writer_queued x = true -> posix_exec s i a = Done s' ->
     forall j, ppcs s' !! j = Some PReading -> ppcs s !! j = Some PReading).
Proof.
  destruct (posix_reachable_ok n s Hn Hr) as [Hok Hlen]. pose proof Hok as [W R F]. split_and!.
  - intros i j Hi Hj. pose proof (count_in is_writing _ _ _ Hi eq_refl). destruct R as [[_ R]|(_ & R1 & R2)]; [lia|]. destruct Hj as [Hj|Hj].
    + pose proof (count_in is_reading _ _ _ Hj eq_refl). lia.
    + apply (count_one is_writing (ppcs s) i j PWriting PWriting); [lia|done..].
  - intros i a E. pose proof (posix_exec_ok s i Hok ltac:(lia) a) as Hf. by rewrite E in Hf.
  - intros w x i a s' Hw Hx E j Hj. pose proof (posix_exec_ok s i Hok ltac:(lia) a) as Hf. rewrite E in Hf. destruct Hf as (_ & _ & Hf).
    destruct (Hf j Hj) as [|H0]; [done|]. pose proof (count_in is_writer_queued _ _ _ Hw Hx). lia.
Qed.

(** C30. Every thread is served: when the threads make no new calls, they give the lock back and go on after wake-ups at
    most (n + 1) n + n times, and if nothing more can happen, every thread that waited has had the lock
    and has returned.  So no wake-up is lost. *)
Theorem posix_rwlock_served (n : nat) (s : posix_system) (Hn : Z.of_nat n < 2 ^ 31 - 1) (Hr : posix_reachable n s) :
  (forall k s', served k s s' -> Z.of_nat k <= (Z.of_nat n + 1) * Z.of_nat n + Z.of_nat n) /\
  (forall k s', served k s s' -> (forall s2, ~ serves s' s2) -> forall i x, ppcs s' !! i = Some x -> exists r, x = POut r).
Proof.
  destruct (posix_reachable_ok n s Hn Hr) as [Hok Hlen].
  assert (Hserved : forall k s s', served k s s' -> posix_ok s -> length (ppcs s) = n ->
    posix_ok s' /\ length (ppcs s') = n /\ work s' + Z.of_nat k <= work s).
  { intros k s1 s2 H. induction H as [s1|k s1 s2 s3 Hs H IH]; intros Hok1 Hl1; [split_and!; [done..|lia]|].
    pose proof (serves_work s1 s2 Hok1 ltac:(lia) Hs) as Hw. destruct Hs as (i & a & E & _).
    pose proof (posix_exec_ok s1 i Hok1 ltac:(lia) a) as Hf. rewrite E in Hf. destruct Hf as (Hok2 & Hl2 & _).
    destruct (IH Hok2 ltac:(congruence)) as (H1 & H2 & H3). split_and!; [done..|lia]. }
  split.
  - intros k s' H. destruct (Hserved k s s' H Hok Hlen) as (_ & _ & Hw). unfold work in Hw. rewrite Hlen in Hw.
    pose proof (count_le is_inside (ppcs s)). pose proof (count_le is_woken (ppcs s)).
    pose proof (count_nonneg is_inside (ppcs s')). pose proof (count_nonneg is_woken (ppcs s')). nia.
  - intros k s' H Hstop i x Hi. destruct (Hserved k s s' H Hok Hlen) as (Hok' & Hlen' & _).
    destruct (is_inside x) eqn:Hx; [exfalso|destruct x; try done; by eexists].
    destruct (someone_acts s' i x Hok' Hi Hx) as (j & y & Hj & Hy).
    destruct (serves_possible s' j y Hok' ltac:(lia) Hj Hy) as [s2 Hs2]. by apply (Hstop s2).
Qed.

(** A sequence of turns. *)
Fixpoint posix_turns (l : list (nat * posix_action)) (s : posix_system) : outcome posix_system :=
  match l with
  | [] => Done s
  | (i, a) :: l => outcome_bind (posix_exec s i a) (posix_turns l)
  end.

Lemma posix_turns_reachable n l s s' : posix_reachable n s -> posix_turns l s = Done s' -> posix_reachable n s'.
Proof.
  revert s. induction l as [|[i a] l IH]; intros s Hr; cbn [posix_turns]; [by intros [= <-]|].
  destruct (posix_exec s i a) as [s1| |] eqn:E; [|done..]. apply IH. by eapply posix_reachable_step.
Qed.

(** Thread 0 reads, thread 1 waits for it to write, thread 2 calls to read and waits. *)
Definition sample_turns : list (nat * posix_action) := [(0%nat, ActRead 0 0); (1%nat, ActWrite 0 0); (2%nat, ActRead 0 0)].
Definition sample_system : posix_system := PosixSystem (PosixRwLock 1 1) [PReading; PWaitW; PWaitR].

Lemma sample_system_reachable : posix_reachable 3 sample_system.
Proof. apply (posix_turns_reachable 3 sample_turns (posix_start 3)); [apply posix_reachable_start|reflexivity]. Qed.

Lemma posix_rwlock_safe_witness : posix_exec sample_system 0 (ActUnlock 0 [1%nat]) <> Crash /\
  forall a s', posix_exec sample_system 2 a = Done s' -> forall j, ppcs s' !! j = Some PReading -> ppcs sample_system !! j = Some PReading.
Proof.
  destruct (posix_rwlock_safe 3 sample_system) as (_ & H1 & H2); [reflexivity|exact sample_system_reachable|].
  split; [apply H1|]. intros a s'. apply (H2 1%nat PWaitW 2%nat a s'); reflexivity.
Defined.

Lemma served_end s : served 0 s s.
Proof. apply served_none. Qed.

(** All three get the lock: the writer, and then the reader. *)
Lemma sample_served : served 5 sample_system (PosixSystem (PosixRwLock 0 0) [POut 0; POut 0; POut 0]).
Proof.
  eapply served_step; [by exists 0%nat, (ActUnlock 0 [1%nat])|]. eapply served_step; [by exists 1%nat, (ActTest 0)|].
  eapply served_step; [by exists 1%nat, (ActUnlock 0 [])|]. eapply served_step; [by exists 2%nat, (ActTest 0)|].
  eapply served_step; [by exists 2%nat, (ActUnlock 0 [])|]. apply served_end.
Qed.

Lemma posix_rwlock_served_witness : Z.of_nat 5 <= 15 /\
  forall k s', served k sample_system s' -> (forall s2, ~ serves s' s2) -> forall x, ppcs s' !! 2%nat = Some x -> exists r, x = POut r.
Proof.
  destruct (posix_rwlock_served 3 sample_system) as [H1 H2]; [reflexivity|exact sample_system_reachable|].
  split; [exact (H1 5%nat _ sample_served)|]. intros k s' H Hs x. exact (H2 k s' H Hs 2%nat x).
Defined.

(** ** The results of the calls *)

(** What unlock returns, for a lock in any state: EINVAL for a free one; the last reader or the writer wakes up a
    writer if one waits, and all readers if not. *)
Lemma posix_unlock_results lock : 
  -1 <= running lock ->
  glthread_rwlock_unlock_multithreaded 0 0 0 lock =
    if running lock =? 0 then (EINVAL, NoOne, lock)
    else if (running lock =? -1) || (running lock =? 1)
    then (0, if 0 <? waiting_writers_count lock then OneWriter else AllReaders, PosixRwLock (waiting_writers_count lock) 0)
    else (0, NoOne, PosixRwLock (waiting_writers_count lock) (running lock - 1)).
Proof.
  intros H. unfold glthread_rwlock_unlock_multithreaded. cbn [Z.eqb negb]. destruct (Z.ltb_spec (running lock) 0) as [Hn|Hn].
  - replace (running lock) with (-1) by lia. done.
  - destruct (Z.eqb_spec (running lock) 0) as [H0|H0]; [by rewrite H0|]. rewrite (proj2 (Z.ltb_lt _ _)) by lia. cbn [negb].
    rewrite (proj2 (Z.eqb_neq (running lock) (-1))) by lia. cbn [orb waiting_writers_count].
    destruct (Z.eqb_spec (running lock) 1) as [->|H1]; [done|]. by rewrite (proj2 (Z.eqb_neq _ _)) by lia.
Qed.

(** ** The once-only execution of Solaris threads *)

Definition has_mutex (pc : solaris_pc) : bool := match pc with STest2 | SSet | SCall | SUnlock => true | _ => false end.

(** [initfunction] was called when [inited] is set; a thread about to call it has the mutex. *)
Record solaris_ok (s : solaris_system) : Prop := SolarisOk {
  sok_calls : sbegun s = if once_inited (scontrol s) =? 0 then 0%nat else 1%nat;
  sok_mutex i pc : spcs s !! i = Some pc -> has_mutex pc = true -> once_mutex (scontrol s) = Some i;
  sok_set i : spcs s !! i = Some SSet -> once_inited (scontrol s) = 0
}.

Lemma solaris_exec_ok s i s' : solaris_ok s -> solaris_exec s i = Done s' -> solaris_ok s'.
Proof.
  intros [C M S] E. unfold solaris_exec in E. destruct (spcs s !! i) as [pc|] eqn:Hi; [|done].
  pose proof (lookup_lt_Some _ _ _ Hi) as Hlt.
  assert (Hput : forall pc' c b e, b = (if once_inited c =? 0 then 0%nat else 1%nat) ->
    (has_mutex pc' = true -> once_mutex c = Some i) -> (pc' = SSet -> once_inited c = 0) ->
    (has_mutex pc = true \/ once_mutex c = once_mutex (scontrol s) \/ once_mutex (scontrol s) = None) ->
    (once_inited c = once_inited (scontrol s) \/ has_mutex pc = true) ->
    solaris_ok (SolarisSystem c (<[i := pc']> (spcs s)) b e)).
  { intros pc' c b e Hb Hm Hs Hold Hin. split; cbn [sbegun scontrol spcs].
    - done.
    - intros j q. destruct (decide (j = i)) as [->|Hne]; [rewrite list_lookup_insert_eq by done; intros [= <-]; auto|].
      rewrite list_lookup_insert_ne by done. intros Hj Hq. pose proof (M j q Hj Hq) as Mj.
      destruct Hold as [H|[H|H]]; [pose proof (M i pc Hi H); congruence|congruence|congruence].
    - intros j. destruct (decide (j = i)) as [->|Hne]; [rewrite list_lookup_insert_eq by done; intros E0; apply Hs; congruence|].
      rewrite list_lookup_insert_ne by done. intros Hj. destruct Hin as [->|H]; [by apply (S j)|].
      pose proof (M j SSet Hj eq_refl). pose proof (M i pc Hi H). congruence. }
  pose proof (M i pc Hi) as Mi. destruct pc; try done; cbn [has_mutex] in *.
  - injection E as <-. apply Hput; [done|by case_if|by case_if|by right; left|by left].
  - destruct (once_mutex (scontrol s)) eqn:Em; [done|]. injection E as <-. apply Hput; [done|done|done|by right; right|by left].
  - injection E as <-. apply Hput; [done|by intros _; apply Mi| |by left|by left].
    destruct (Z.eqb_spec (once_inited (scontrol s)) 0); done.
  - injection E as <-. rewrite (S i Hi) in C. apply Hput; [cbn in *; by rewrite C|by intros _; apply Mi|done|by left|by right].
  - injection E as <-. apply Hput; [done|by intros _; apply Mi|done|by left|by left].
  - injection E as <-. apply Hput; [done|done|done|by left|by left].
Qed.

(** The function is called at most once, in any interleaving. *)
Theorem solaris_once_at_most_once (n : nat) (s : solaris_system) (Hr : solaris_reachable n s) : (sbegun s <= 1)%nat.
Proof.
  assert (Hok : solaris_ok s).
  { induction Hr as [|s i s' Hr IH E]; [|by eapply solaris_exec_ok].
    assert (Hst : forall i pc, spcs (solaris_start n) !! i = Some pc -> pc = STest) by (intros i pc Hi; by apply lookup_replicate_1 in Hi as [-> _]).
    split; [done|..]; intros i; [intros pc Hi; by rewrite (Hst i pc Hi)|intros Hi; by apply Hst in Hi]. }
  rewrite (sok_calls _ Hok). by case_if; lia.
Qed.

(** But a thread can return before the function has: [inited] is set before the call, and the first test is
    made without the mutex. *)
Theorem solaris_once_returns_early : exists s, solaris_reachable 2 s /\ spcs s !! 1%nat = Some SReturned /\ sbegun s = 1%nat /\ sended s = 0%nat.
Proof.
  exists (SolarisSystem (SolarisOnce 1 (Some 0%nat)) [SCall; SReturned] 1 0). split; [|done].
  apply (solaris_reachable_step 2 (SolarisSystem (SolarisOnce 1 (Some 0%nat)) [SCall; STest] 1 0) 1); [|done].
  apply (solaris_reachable_step 2 (SolarisSystem (SolarisOnce 0 (Some 0%nat)) [SSet; STest] 0 0) 0); [|done].
  apply (solaris_reachable_step 2 (SolarisSystem (SolarisOnce 0 (Some 0%nat)) [STest2; STest] 0 0) 0); [|done].
  apply (solaris_reachable_step 2 (SolarisSystem (SolarisOnce 0 None) [SLock; STest] 0 0) 0); [|done].
  apply (solaris_reachable_step 2 (solaris_start 2) 0); [apply solaris_reachable_start|done].
Qed.
