(* ===== verification/SetLocale.v ===== *)
(** * Setting the locale: setlocale.c

    The replacement of setlocale() and newlocale() on Windows and Mac OS X.  The functions of the C
    library are arguments; their state is threaded through.  [None] is a crash: a call of
    abort(), a write outside a buffer, a string function with a null pointer. *)

From S2P Require Import Prelude LocalePlatform.

Open Scope Z_scope.

(** The constants of <locale.h>. *)
Inductive category := LC_CTYPE | LC_NUMERIC | LC_TIME | LC_COLLATE | LC_MONETARY | LC_MESSAGES | LC_ALL | LC_other (n : Z).

#[export] Instance category_eq_dec : EqDecision category.
Proof. solve_decision. Defined.

Definition category_to_name (c : category) : cstr :=
  match c with
  | LC_COLLATE => cs "LC_COLLATE"
  | LC_CTYPE => cs "LC_CTYPE"
  | LC_MONETARY => cs "LC_MONETARY"
  | LC_NUMERIC => cs "LC_NUMERIC"
  | LC_TIME => cs "LC_TIME"
  | LC_MESSAGES => cs "LC_MESSAGES"
  | _ => cs "LC_XXX"
  end.

(** ** Tables from Unix names to Windows names *)

Record table_entry := TableEntry { code : cstr; english : cstr }.

Definition entries_of (l : list (string * string)) : list table_entry := map (fun '(a, b) => TableEntry (cs a) (cs b)) l.

Definition language_table : list table_entry := entries_of [
  ("af", "Afrikaans"); ("am", "Amharic"); ("ar", "Arabic"); ("arn", "Mapudungun"); ("as", "Assamese");
  ("az@cyrillic", "Azeri (Cyrillic)"); ("az@latin", "Azeri (Latin)"); ("ba", "Bashkir"); ("be", "Belarusian");
  ("ber", "Tamazight"); ("ber@arabic", "Tamazight (Arabic)"); ("ber@latin", "Tamazight (Latin)");
  ("bg", "Bulgarian"); ("bin", "Edo"); ("bn", "Bengali"); ("bn_BD", "Bengali (Bangladesh)");
  ("bn_IN", "Bengali (India)"); ("bnt", "Sutu"); ("bo", "Tibetan"); ("br", "Breton"); ("bs", "BSB");
  ("bs@cyrillic", "BSC"); ("ca", "Catalan"); ("chr", "Cherokee"); ("co", "Corsican"); ("cpe", "Hawaiian");
  ("cs", "Czech"); ("cy", "Welsh"); ("da", "Danish"); ("de", "German"); ("dsb", "Lower Sorbian");
  ("dv", "Divehi"); ("el", "Greek"); ("en", "English"); ("es", "Spanish"); ("et", "Estonian");
  ("eu", "Basque"); ("fa", "Farsi"); ("ff", "Fulfulde"); ("fi", "Finnish"); ("fo", "Faroese");
  ("fr", "French"); ("fy", "Frisian"); ("ga", "IRE"); ("gd", "Gaelic (Scotland)"); ("gd", "Scottish Gaelic");
  ("gl", "Galician"); ("gn", "Guarani"); ("gsw", "Alsatian"); ("gu", "Gujarati"); ("ha", "Hausa");
  ("he", "Hebrew"); ("hi", "Hindi"); ("hr", "Croatian"); ("hsb", "Upper Sorbian"); ("hu", "Hungarian");
  ("hy", "Armenian"); ("id", "Indonesian"); ("ig", "Igbo"); ("ii", "Yi"); ("is", "Icelandic");
  ("it", "Italian"); ("iu", "IUK"); ("ja", "Japanese"); ("ka", "Georgian"); ("kk", "Kazakh");
  ("kl", "Greenlandic"); ("km", "Cambodian"); ("km", "Khmer"); ("kn", "Kannada"); ("ko", "Korean");
  ("kok", "Konkani"); ("kr", "Kanuri"); ("ks", "Kashmiri"); ("ks_IN", "Kashmiri_India");
  ("ks_PK", "Kashmiri (Arabic)_Pakistan"); ("ky", "Kyrgyz"); ("la", "Latin"); ("lb", "Luxembourgish");
  ("lo", "Lao"); ("lt", "Lithuanian"); ("lv", "Latvian"); ("mi", "Maori"); ("mk", "FYRO Macedonian");
  ("mk", "Macedonian"); ("ml", "Malayalam"); ("mn", "Mongolian"); ("mni", "Manipuri"); ("moh", "Mohawk");
  ("mr", "Marathi"); ("ms", "Malay"); ("mt", "Maltese"); ("my", "Burmese"); ("nb", "NOR"); ("ne", "Nepali");
  ("nic", "Ibibio"); ("nl", "Dutch"); ("nn", "NON"); ("no", "Norwegian"); ("nso", "Northern Sotho");
  ("nso", "Sepedi"); ("oc", "Occitan"); ("om", "Oromo"); ("or", "Oriya"); ("pa", "Punjabi");
  ("pap", "Papiamentu"); ("pl", "Polish"); ("prs", "Dari"); ("ps", "Pashto"); ("pt", "Portuguese");
  ("qu", "Quechua"); ("qut", "K'iche'"); ("rm", "Romansh"); ("ro", "Romanian"); ("ru", "Russian");
  ("rw", "Kinyarwanda"); ("sa", "Sanskrit"); ("sah", "Yakut"); ("sd", "Sindhi"); ("se", "Sami (Northern)");
  ("se", "Northern Sami"); ("si", "Sinhalese"); ("sk", "Slovak"); ("sl", "Slovenian");
  ("sma", "Sami (Southern)"); ("sma", "Southern Sami"); ("smj", "Sami (Lule)"); ("smj", "Lule Sami");
  ("smn", "Sami (Inari)"); ("smn", "Inari Sami"); ("sms", "Sami (Skolt)"); ("sms", "Skolt Sami");
  ("so", "Somali"); ("sq", "Albanian"); ("sr", "Serbian (Latin)"); ("sr@cyrillic", "SRB"); ("sw", "Swahili");
  ("syr", "Syriac"); ("ta", "Tamil"); ("te", "Telugu"); ("tg", "Tajik"); ("th", "Thai"); ("ti", "Tigrinya");
  ("tk", "Turkmen"); ("tl", "Filipino"); ("tn", "Tswana"); ("tr", "Turkish"); ("ts", "Tsonga");
  ("tt", "Tatar"); ("ug", "Uighur"); ("uk", "Ukrainian"); ("ur", "Urdu"); ("uz", "Uzbek");
  ("uz", "Uzbek (Latin)"); ("uz@cyrillic", "Uzbek (Cyrillic)"); ("ve", "Venda"); ("vi", "Vietnamese");
  ("wen", "Sorbian"); ("wo", "Wolof"); ("xh", "Xhosa"); ("yi", "Yiddish"); ("yo", "Yoruba"); ("zh", "Chinese");
  ("zu", "Zulu")].

Definition country_table : list table_entry := entries_of [
  ("AE", "U.A.E."); ("AF", "Afghanistan"); ("AL", "Albania"); ("AM", "Armenia");
  ("AN", "Netherlands Antilles"); ("AR", "Argentina"); ("AT", "Austria"); ("AU", "Australia");
  ("AZ", "Azerbaijan"); ("BA", "Bosnia and Herzegovina"); ("BD", "Bangladesh"); ("BE", "Belgium");
  ("BG", "Bulgaria"); ("BH", "Bahrain"); ("BN", "Brunei Darussalam"); ("BO", "Bolivia"); ("BR", "Brazil");
  ("BT", "Bhutan"); ("BY", "Belarus"); ("BZ", "Belize"); ("CA", "Canada"); ("CG", "Congo");
  ("CH", "Switzerland"); ("CI", "Cote d'Ivoire"); ("CL", "Chile"); ("CM", "Cameroon");
  ("CN", "People's Republic of China"); ("CO", "Colombia"); ("CR", "Costa Rica");
  ("CS", "Serbia and Montenegro"); ("CZ", "Czech Republic"); ("DE", "Germany"); ("DK", "Denmark");
  ("DO", "Dominican Republic"); ("DZ", "Algeria"); ("EC", "Ecuador"); ("EE", "Estonia"); ("EG", "Egypt");
  ("ER", "Eritrea"); ("ES", "Spain"); ("ET", "Ethiopia"); ("FI", "Finland"); ("FO", "Faroe Islands");
  ("FR", "France"); ("GB", "United Kingdom"); ("GD", "Caribbean"); ("GE", "Georgia"); ("GL", "Greenland");
  ("GR", "Greece"); ("GT", "Guatemala"); ("HK", "Hong Kong"); ("HK", "Hong Kong S.A.R."); ("HN", "Honduras");
  ("HR", "Croatia"); ("HT", "Haiti"); ("HU", "Hungary"); ("ID", "Indonesia"); ("IE", "Ireland");
  ("IL", "Israel"); ("IN", "India"); ("IQ", "Iraq"); ("IR", "Iran"); ("IS", "Iceland"); ("IT", "Italy");
  ("JM", "Jamaica"); ("JO", "Jordan"); ("JP", "Japan"); ("KE", "Kenya"); ("KG", "Kyrgyzstan");
  ("KH", "Cambodia"); ("KR", "South Korea"); ("KW", "Kuwait"); ("KZ", "Kazakhstan"); ("LA", "Laos");
  ("LB", "Lebanon"); ("LI", "Liechtenstein"); ("LK", "Sri Lanka"); ("LT", "Lithuania"); ("LU", "Luxembourg");
  ("LV", "Latvia"); ("LY", "Libya"); ("MA", "Morocco"); ("MC", "Principality of Monaco"); ("MD", "Moldava");
  ("MD", "Moldova"); ("ME", "Montenegro"); ("MK", "Former Yugoslav Republic of Macedonia"); ("ML", "Mali");
  ("MM", "Myanmar"); ("MN", "Mongolia"); ("MO", "Macau S.A.R."); ("MT", "Malta"); ("MV", "Maldives");
  ("MX", "Mexico"); ("MY", "Malaysia"); ("NG", "Nigeria"); ("NI", "Nicaragua"); ("NL", "Netherlands");
  ("NO", "Norway"); ("NP", "Nepal"); ("NZ", "New Zealand"); ("OM", "Oman"); ("PA", "Panama"); ("PE", "Peru");
  ("PH", "Philippines"); ("PK", "Islamic Republic of Pakistan"); ("PL", "Poland"); ("PR", "Puerto Rico");
  ("PT", "Portugal"); ("PY", "Paraguay"); ("QA", "Qatar"); ("RE", "Reunion"); ("RO", "Romania");
  ("RS", "Serbia"); ("RU", "Russia"); ("RW", "Rwanda"); ("SA", "Saudi Arabia"); ("SE", "Sweden");
  ("SG", "Singapore"); ("SI", "Slovenia"); ("SK", "Slovak"); ("SN", "Senegal"); ("SO", "Somalia");
  ("SR", "Suriname"); ("SV", "El Salvador"); ("SY", "Syria"); ("TH", "Thailand"); ("TJ", "Tajikistan");
  ("TM", "Turkmenistan"); ("TN", "Tunisia"); ("TR", "Turkey"); ("TT", "Trinidad and Tobago"); ("TW", "Taiwan");
  ("TZ", "Tanzania"); ("UA", "Ukraine"); ("US", "United States"); ("UY", "Uruguay"); ("VA", "Vatican");
  ("VE", "Venezuela"); ("VN", "Viet Nam"); ("YE", "Yemen"); ("ZA", "South Africa"); ("ZW", "Zimbabwe")].

Record range_t := Range { lo : nat; hi : nat }.

(** [for (i = mid; i > lo; )] *)
Fixpoint narrow_lo (table : list table_entry) (string : cstr) (lo i : nat) : option nat :=
  if (lo <? i)%nat then
    match i with
    | O => Some lo
    | S i => e ← table !! i; if strcmp (code e) string <? 0 then Some (S i) else narrow_lo table string lo i
    end
  else Some lo.

(** [for (i = mid; i < hi; i++)], with [n] rounds to go. *)
Fixpoint narrow_hi (table : list table_entry) (string : cstr) (i n : nat) : option nat :=
  match n with
  | O => Some i
  | S n => e ← table !! i; if 0 <? strcmp (code e) string then Some i else narrow_hi table string (S i) n
  end.

(** The loop of [search]. *)
Fixpoint search_range (fuel : nat) (table : list table_entry) (string : cstr) (lo hi : nat) : option range_t :=
  if (lo <? hi)%nat then
    match fuel with
    | O => None
    | S fuel =>
        let mid := Nat.div2 (hi + lo) in
        e ← table !! mid;
        let cmp := strcmp (code e) string in
        if cmp <? 0 then search_range fuel table string (mid + 1) hi
        else if 0 <? cmp then search_range fuel table string lo mid
        else
          lo ← narrow_lo table string lo mid;
          hi ← narrow_hi table string mid (hi - mid);
          Some (Range lo hi)
    end
  else Some (Range lo hi).

Definition search (table : list table_entry) (string : cstr) : option range_t :=
  search_range (length table) table string 0 (length table).

(** ** Parts of a locale name *)

(** The string before the first of the characters, and from it on. *)
Fixpoint scan (stop : Z) (p : cstr) : cstr * cstr :=
  match p with
  | [] => ([], [])
  | c :: rest => if c =? stop then ([], p) else let '(a, b) := scan stop rest in (c :: a, b)
  end.

(** A string written to a buffer of [size] bytes. *)
Definition to_buffer (size : nat) (s : cstr) : option cstr := if (length s <? size)%nat then Some s else None.

(** The name without its codeset. *)
Definition remove_codeset (locale : cstr) : cstr :=
  let '(front, p) := scan (chr ".") locale in
  front ++ (scan (chr "@") p).2.

(** [language[@modifier]] and the territory. *)
Definition split_territory (llCC_buf : cstr) : option (cstr * cstr) :=
  match scan (chr "_") llCC_buf with
  | (_, []) => None
  | (language, _ :: territory_start) =>
      let '(territory, territory_end) := scan (chr "@") territory_start in
      Some (language ++ territory_end, territory)
  end.

(** ** setlocale() *)

(** The state of the C library, the name of the category LC_MESSAGES if the system does not
    have it, and the counter that invalidates cached translations. *)
Record locale_state (L : Type) := LocaleState { libc : L; lc_messages_name : cstr; _nl_msg_cat_cntr : Z }.
Arguments LocaleState {L}.
Arguments libc {L}.
Arguments lc_messages_name {L}.
Arguments _nl_msg_cat_cntr {L}.

Section SetLocale.
(** setlocale() of the C library: [None] for the locale is a query, [None] for the result a failure. *)
Context {L : Type} (setlocale : category -> option cstr -> L -> option cstr * L).
(** Native Windows; LC_MESSAGES == 1729: the system does not store this category. *)
Context (windows no_messages : bool).

(** [result = setlocale (category, name); if (result != NULL) return result;] and what follows. *)
Definition attempt (category : category) (name : cstr) (k : L -> option (option cstr * L)) (s : L) : option (option cstr * L) :=
  match setlocale category (Some name) s with
  | (Some result, s) => Some (Some result, s)
  | (None, s) => k s
  end.

(** The English names of the entries from [i] on; [n] rounds. *)
Fixpoint try_range (category : category) (i n : nat) (k : L -> option (option cstr * L)) (s : L) : option (option cstr * L) :=
  match n with
  | O => k s
  | S n => e ← language_table !! i; attempt category (english e) (try_range category (i + 1) n k) s
  end.

(** The inner loop: a language with the countries from [j] on. *)
Fixpoint try_countries (category : category) (part1 : cstr) (j n : nat) (k : L -> option (option cstr * L)) (s : L)
    : option (option cstr * L) :=
  match n with
  | O => k s
  | S n =>
      e ← country_table !! j;
      let part2 := english e in
      if (length part1 + 1 + (length part2 + 1) <=? 64 + 64)%nat then
        attempt category (part1 ++ chr "_" :: part2) (try_countries category part1 (j + 1) n k) s
      else None
  end.

(** The loop over the languages. *)
Fixpoint try_languages (category : category) (i n : nat) (country_range : range_t) (k : L -> option (option cstr * L)) (s : L)
    : option (option cstr * L) :=
  match n with
  | O => k s
  | S n =>
      e ← language_table !! i;
      try_countries category (english e) (lo country_range) (hi country_range - lo country_range)
        (try_languages category (i + 1) n country_range k) s
  end.

Definition failed (s : L) : option (option cstr * L) := Some (None, s).

Definition try_range_of (category : category) (r : range_t) (k : L -> option (option cstr * L)) (s : L) : option (option cstr * L) :=
  try_range category (lo r) (hi r - lo r) k s.

(** Language and country separately. *)
Definition try_split (category : category) (llCC_buf : cstr) (s : L) : option (option cstr * L) :=
  match split_territory llCC_buf with
  | None => failed s
  | Some (ll, CC) =>
      ll_buf ← to_buffer 64 ll;
      CC_buf ← to_buffer 64 CC;
      language_range ← search language_table ll_buf;
      if (lo language_range <? hi language_range)%nat then
        country_range ← search country_table CC_buf;
        let language_only := try_range_of category language_range failed in
        if (lo country_range <? hi country_range)%nat then
          try_languages category (lo language_range) (hi language_range - lo language_range) country_range language_only s
        else language_only s
      else failed s
  end.

Definition setlocale_unixlike (category : category) (locale : option cstr) (s : L) : option (option cstr * L) :=
  match setlocale category locale s with
  | (Some result, s) => Some (Some result, s)
  | (None, s) =>
      if windows then
        locale ← locale;
        if (length locale <? 64)%nat then
          llCC_buf ← to_buffer 64 (remove_codeset locale);
          let look_up s :=
            range ← search language_table llCC_buf;
            try_range_of category range (try_split category llCC_buf) s in
          if negb (strcmp llCC_buf locale =? 0) then attempt category llCC_buf look_up s else look_up s
        else failed s
      else Some (None, s)
  end.

Definition set_libc (st : locale_state L) (s : L) : locale_state L := LocaleState s (lc_messages_name st) (_nl_msg_cat_cntr st).

(** Bump the counter. *)
Definition changed (st : locale_state L) : locale_state L :=
  LocaleState (libc st) (lc_messages_name st) (_nl_msg_cat_cntr st + 1).

Definition setlocale_single (category : category) (locale : option cstr) (st : locale_state L)
    : option (option cstr * locale_state L) :=
  if no_messages && bool_decide (category = LC_MESSAGES) then
    let name := match locale with Some locale => take 63 locale | None => lc_messages_name st end in
    Some (Some name, LocaleState (libc st) name (_nl_msg_cat_cntr st))
  else '(result, s) ← setlocale_unixlike category locale (libc st); Some (result, set_libc st s).

(** The environment and the default; whether strdup() succeeds; Mac OS X and Cygwin. *)
Context (getenv : cstr -> option cstr) (macosx cygwin : bool) (gl_locale_name_default : cstr) (strdup : bool).

(** The name that the environment gives a category. *)
Definition name_for (category : category) : cstr :=
  match gl_locale_name_environ getenv macosx cygwin (category_to_name category) with
  | Some name => name
  | None => gl_locale_name_default
  end.

Definition categories : list category := [LC_NUMERIC; LC_TIME; LC_COLLATE; LC_MONETARY; LC_MESSAGES].

(** The loop over the categories; [false] is a jump to the label fail. *)
Fixpoint set_categories (cats : list category) (base_name : cstr) (st : locale_state L) : option (bool * locale_state L) :=
  match cats with
  | [] => Some (true, st)
  | cat :: cats =>
      let name := name_for cat in
      if negb (strcmp name base_name =? 0) || (no_messages && bool_decide (cat = LC_MESSAGES)) then
        '(result, st) ← setlocale_single cat (Some name) st;
        match result with
        | None => Some (false, st)
        | Some _ => set_categories cats base_name st
        end
      else set_categories cats base_name st
  end.

(** [setlocale (category, locale)] for its result or its effect. *)
Definition call_setlocale (category : category) (locale : option cstr) (st : locale_state L) : option cstr * locale_state L :=
  let '(result, s) := setlocale category locale (libc st) in (result, set_libc st s).

(** Restore the old locale. *)
Definition restore (saved_locale : cstr) (st : locale_state L) : option (option cstr * locale_state L) :=
  let st := if cur saved_locale =? 0 then st else (call_setlocale LC_ALL (Some saved_locale) st).2 in
  Some (None, st).

(** LC_CTYPE was set to "C"; [None] if there is no name. *)
Definition ctype_is_C (st : locale_state L) : option (bool * locale_state L) :=
  let '(result, st) := call_setlocale LC_CTYPE None st in
  name ← result; Some (strcmp name (cs "C") =? 0, st).

Definition has_dot (s : cstr) : bool := match scan (chr ".") s with (_, []) => false | _ => true end.

(** All categories from the environment. *)
Definition set_all_to_default (st : locale_state L) : option (option cstr * locale_state L) :=
  let '(saved_locale, st) := call_setlocale LC_ALL None st in
  match (if strdup then saved_locale else None) with
  | None => Some (None, st)
  | Some saved_locale =>
      let base_name := name_for LC_CTYPE in
      '(result, s) ← setlocale_unixlike LC_ALL (Some base_name) (libc st);
      let st := set_libc st s in
      match result with
      | None => restore saved_locale st
      | Some _ =>
          '(invalid, st) ← (if windows && has_dot base_name then ctype_is_C st else Some (false, st));
          if (invalid : bool) then restore saved_locale st
          else
            '(ok, st) ← set_categories categories base_name st;
            if (ok : bool) then Some (call_setlocale LC_ALL None (changed st)) else restore saved_locale st
      end
  end.

(** A locale with a codeset, on Windows. *)
Definition set_all_with_codeset (locale : cstr) (st : locale_state L) : option (option cstr * locale_state L) :=
  let '(saved_locale, st) := call_setlocale LC_ALL None st in
  match (if strdup then saved_locale else None) with
  | None => Some (None, st)
  | Some saved_locale =>
      '(result, s) ← setlocale_unixlike LC_ALL (Some locale) (libc st);
      let st := set_libc st s in
      match result with
      | None => Some (None, st)
      | Some _ =>
          '(invalid, st) ← ctype_is_C st;
          if (invalid : bool) then restore saved_locale st else Some (call_setlocale LC_ALL None (changed st))
      end
  end.

(** Set a category, and count the change. *)
Definition set_one (category : category) (locale : option cstr) (st : locale_state L) : option (option cstr * locale_state L) :=
  '(result, st) ← setlocale_single category locale st;
  Some (result, match result with Some _ => changed st | None => st end).

Definition libintl_setlocale (category : category) (locale : option cstr) (st : locale_state L)
    : option (option cstr * locale_state L) :=
  match locale with
  | Some [] =>
      if bool_decide (category = LC_ALL) then set_all_to_default st
      else set_one category (Some (name_for category)) st
  | _ =>
      match locale with
      | Some locale =>
          if windows && bool_decide (category = LC_ALL) && has_dot locale then set_all_with_codeset locale st
          else set_one category (Some locale) st
      | None => set_one category None st
      end
  end.
End SetLocale.

(** ** newlocale() *)

Section NewLocale.
(** The heap of the C library; a [locale_t] is an address in it, [None] is the null one. *)
Context {H : Type} (newlocale : Z -> option cstr -> option nat -> H -> option nat * H) (freelocale : nat -> H -> H).
(** The masks of <locale.h>. *)
Context (mask_of : category -> Z) (LC_ALL_MASK : Z).
Context (getenv : cstr -> option cstr) (macosx cygwin : bool) (gl_locale_name_default : cstr).

Let name_of : category -> cstr := name_for getenv macosx cygwin gl_locale_name_default.

Definition mask_categories : list category := [LC_CTYPE; LC_NUMERIC; LC_TIME; LC_COLLATE; LC_MONETARY; LC_MESSAGES].

(** The label fail. *)
Definition newlocale_fail (orig_base base : option nat) (h : H) : option nat * H :=
  match base, orig_base with
  | Some base, None => (None, freelocale base h)
  | _, _ => (None, h)
  end.

(** The loop after all categories were set to [base_name]. *)
Fixpoint newlocale_others (cats : list category) (base_name : cstr) (orig_base base : option nat) (h : H) : option nat * H :=
  match cats with
  | [] => (base, h)
  | category :: cats =>
      let name := name_of category in
      if negb (strcmp name base_name =? 0) then
        match newlocale (mask_of category) (Some name) base h with
        | (None, h) => newlocale_fail orig_base base h
        | (Some copy, h) => newlocale_others cats base_name orig_base (Some copy) h
        end
      else newlocale_others cats base_name orig_base base h
  end.

(** The loop for some categories. *)
Fixpoint newlocale_some (cats : list category) (category_mask : Z) (orig_base base : option nat) (h : H) : option nat * H :=
  match cats with
  | [] => (base, h)
  | cat :: cats =>
      if negb (Z.land category_mask (mask_of cat) =? 0) then
        match newlocale (mask_of cat) (Some (name_of cat)) base h with
        | (None, h) => newlocale_fail orig_base base h
        | (Some copy, h) => newlocale_some cats category_mask orig_base (Some copy) h
        end
      else newlocale_some cats category_mask orig_base base h
  end.

Definition libintl_newlocale (category_mask : Z) (locale : option cstr) (base : option nat) (h : H) : option nat * H :=
  if negb (category_mask =? 0) && bool_decide (locale = Some []) then
    if Z.land LC_ALL_MASK (Z.lnot category_mask) =? 0 then
      let base_name := name_of LC_CTYPE in
      match newlocale LC_ALL_MASK (Some base_name) base h with
      | (None, h) => (None, h)
      | (Some new, h) => newlocale_others (drop 1 mask_categories) base_name base (Some new) h
      end
    else newlocale_some mask_categories category_mask base base h
  else newlocale category_mask locale base h.
End NewLocale.
