(* ===== verification/SetLocaleSpec.v ===== *)
(** * Setting the locale is atomic

    The Windows names tried for a Unix name, as a list; what libintl_setlocale() does to
    the state of a C library that keeps the promises of ISO C. *)

From S2P Require Import Prelude LocalePlatform SetLocale.

Open Scope Z_scope.

(** ** The binary search *)

Section Search.
Context (table : list table_entry).

Definition wf_codes : Prop := Forall (fun e => wf_cstr (code e)) table.

Definition sorted_codes : Prop :=
  forall i j a b, (i < j)%nat -> table !! i = Some a -> table !! j = Some b -> strcmp (code a) (code b) <= 0.

(** The entries of a range are the ones for a string. *)
Definition is_range (string : cstr) (r : range_t) : Prop :=
  (lo r <= hi r <= length table)%nat /\
  forall i e, table !! i = Some e -> (lo r <= i < hi r)%nat <-> code e = string.

Context (Hwf : wf_codes) (Hs : sorted_codes) (string : cstr) (Hstring : wf_cstr string).

Lemma entry_wf i e : table !! i = Some e -> wf_cstr (code e).
Proof using Hwf. exact (proj1 (Forall_lookup _ _) Hwf i e). Qed.

Lemma entry_eq i e : table !! i = Some e -> strcmp (code e) string = 0 <-> code e = string.
Proof using Hwf Hstring. intros H. apply strcmp_eq; [by apply (entry_wf i)|done]. Qed.

Lemma strcmp_le_lt a b c : wf_cstr a -> wf_cstr b -> wf_cstr c -> strcmp a b <= 0 -> strcmp b c < 0 -> strcmp a c < 0.
Proof using Type.
  intros Ha Hb Hc H1 H2. destruct (Z.eq_dec (strcmp a b) 0) as [E|E]; [apply strcmp_eq in E as ->; done|].
  apply (strcmp_trans a b c); try done. lia.
Qed.

Lemma strcmp_lt_le a b c : wf_cstr a -> wf_cstr b -> wf_cstr c -> strcmp a b < 0 -> strcmp b c <= 0 -> strcmp a c < 0.
Proof using Type.
  intros Ha Hb Hc H1 H2. destruct (Z.eq_dec (strcmp b c) 0) as [E|E]; [apply strcmp_eq in E as <-; done|].
  apply (strcmp_trans a b c); try done. lia.
Qed.

(** What comes before an entry that is too small is too small, what comes after one that is too large too large. *)
Lemma before_small i j a b : (i <= j)%nat -> table !! i = Some a -> table !! j = Some b ->
  strcmp (code b) string < 0 -> strcmp (code a) string < 0.
Proof using Hwf Hs Hstring.
  intros Hij Ha Hb Hlt. destruct (decide (i = j)) as [->|]; [by simplify_eq|].
  pose proof (entry_wf i a Ha). pose proof (entry_wf j b Hb). pose proof (Hs i j a b ltac:(lia) Ha Hb).
  by apply (strcmp_le_lt (code a) (code b)).
Qed.

Lemma after_large i j a b : (i <= j)%nat -> table !! i = Some a -> table !! j = Some b ->
  0 < strcmp (code a) string -> 0 < strcmp (code b) string.
Proof using Hwf Hs Hstring.
  intros Hij Ha Hb Hlt. destruct (decide (i = j)) as [->|]; [by simplify_eq|].
  pose proof (entry_wf i a Ha). pose proof (entry_wf j b Hb). pose proof (Hs i j a b ltac:(lia) Ha Hb).
  assert (Hsb : strcmp string (code b) < 0).
  { apply (strcmp_lt_le string (code a) (code b)); try done. rewrite strcmp_sym. lia. }
  rewrite strcmp_sym. lia.
Qed.

(** Entries from [i] on that are not below, or not above, the string. *)
Lemma narrow_lo_spec low i : (low <= i <= length table)%nat ->
  (forall j e, (j < low)%nat -> table !! j = Some e -> strcmp (code e) string < 0) ->
  exists l, narrow_lo table string low i = Some l /\ (low <= l <= i)%nat /\
    (forall j e, (j < l)%nat -> table !! j = Some e -> strcmp (code e) string < 0) /\
    (forall j e, (l <= j < i)%nat -> table !! j = Some e -> 0 <= strcmp (code e) string).
Proof using Hwf Hs Hstring.
  induction i as [|i IH]; intros Hi Hlow; cbn [narrow_lo].
  { exists low. rewrite (proj2 (Nat.ltb_ge low 0)) by lia. split_and!; try done; lia. }
  destruct (Nat.ltb_spec low (S i)).
  - destruct (lookup_lt_is_Some_2 table i) as [e He]; [lia|]. rewrite He. cbn [mbind option_bind].
    destruct (Z.ltb_spec (strcmp (code e) string) 0) as [Hlt|Hge].
    + exists (S i). split_and!; try lia; [done|]. intros j e' Hj He'.
      apply (before_small j i e' e); [lia|done..].
    + destruct IH as (l & E & Hl & H1 & H2); [lia|done|]. exists l. split_and!; try lia; [done..|]. intros j e' Hj He'.
      destruct (decide (j = i)) as [->|]; [by simplify_eq|]. apply (H2 j); [lia|done].
  - exists low. split_and!; try done; lia.
Qed.

Lemma narrow_hi_spec i n : (i + n <= length table)%nat ->
  exists h, narrow_hi table string i n = Some h /\ (i <= h <= i + n)%nat /\
    (forall j e, (i <= j < h)%nat -> table !! j = Some e -> strcmp (code e) string <= 0) /\
    (forall j e, (h <= j < i + n)%nat -> table !! j = Some e -> 0 < strcmp (code e) string).
Proof using Hwf Hs Hstring.
  revert i. induction n as [|n IH]; intros i Hi; cbn [narrow_hi].
  - exists i. split_and!; try done; lia.
  - destruct (lookup_lt_is_Some_2 table i) as [e He]; [lia|]. rewrite He. cbn [mbind option_bind].
    destruct (Z.ltb_spec 0 (strcmp (code e) string)) as [Hlt|Hge].
    + exists i. split_and!; try done; try lia. intros j e' Hj He'. apply (after_large i j e e'); [lia|done..].
    + destruct (IH (S i)) as (h & E & Hh & H1 & H2); [lia|]. exists h. split_and!; try lia; [done| |].
      * intros j e' Hj He'. destruct (decide (j = i)) as [->|]; [by simplify_eq|]. apply (H1 j); [lia|done].
      * intros j e' Hj. apply H2. lia.
Qed.

Lemma search_range_spec fuel low high : (low <= high <= length table)%nat -> (high - low <= fuel)%nat ->
  (forall j e, (j < low)%nat -> table !! j = Some e -> strcmp (code e) string < 0) ->
  (forall j e, (high <= j)%nat -> table !! j = Some e -> 0 < strcmp (code e) string) ->
  exists r, search_range fuel table string low high = Some r /\ is_range string r.
Proof using Hwf Hs Hstring.
  revert low high. induction fuel as [|fuel IH]; intros low high Hb Hf Hlow Hhigh; cbn [search_range];
    destruct (Nat.ltb_spec low high) as [Hlt|Hge]; try lia.
  1, 3: exists (Range low high); split; [done|]; split; [cbn; lia|]; intros j e Hj; rewrite <- (entry_eq j e Hj); cbn;
    split; [lia|]; intros E; destruct (Nat.lt_ge_cases j low); [pose proof (Hlow j e ltac:(lia) Hj); lia|];
    pose proof (Hhigh j e ltac:(lia) Hj); lia.
  set (mid := Nat.div2 (high + low)).
  assert (Hmid : (low <= mid < high)%nat).
  { unfold mid. rewrite Nat.div2_div. split; [apply Nat.div_le_lower_bound|apply Nat.Div0.div_lt_upper_bound]; lia. }
  destruct (lookup_lt_is_Some_2 table mid) as [e He]; [lia|]. rewrite He. cbn [mbind option_bind].
  destruct (Z.ltb_spec (strcmp (code e) string) 0) as [Hl|Hl].
  { apply IH; try lia; [|done]. intros j e' Hj He'. apply (before_small j mid e' e); [lia|done..]. }
  destruct (Z.ltb_spec 0 (strcmp (code e) string)) as [Hg|Hg].
  { apply IH; try lia; [done|]. intros j e' Hj He'. apply (after_large mid j e e'); [lia|done..]. }
  destruct (narrow_lo_spec low mid) as (l & E1 & Hl1 & Hlt1 & Hge1); [lia|done|].
  destruct (narrow_hi_spec mid (high - mid)) as (h & E2 & Hh & Hle & Hgt); [lia|].
  rewrite E1. cbn [mbind option_bind]. rewrite E2. cbn [mbind option_bind]. exists (Range l h). split; [done|].
  split; [cbn; lia|]. intros j e' Hj. rewrite <- (entry_eq j e' Hj). cbn.
  destruct (Nat.lt_ge_cases j l); [pose proof (Hlt1 j e' ltac:(lia) Hj); lia|].
  destruct (Nat.lt_ge_cases j h).
  - split; [|lia]. intros _. destruct (Nat.lt_ge_cases j mid).
    + pose proof (Hge1 j e' ltac:(lia) Hj). pose proof (Hs j mid e' e ltac:(lia) Hj He).
      enough (~ 0 < strcmp (code e') string) by lia. intros Hpos. pose proof (after_large j mid e' e ltac:(lia) Hj He Hpos). lia.
    + pose proof (Hle j e' ltac:(lia) Hj).
      enough (~ strcmp (code e') string < 0) by lia. intros Hneg. pose proof (before_small mid j e e' ltac:(lia) He Hj Hneg). lia.
  - split; [lia|]. intros E. destruct (Nat.lt_ge_cases j high); [pose proof (Hgt j e' ltac:(lia) Hj)|pose proof (Hhigh j e' ltac:(lia) Hj)]; lia.
Qed.

Lemma search_spec : exists r, search table string = Some r /\ is_range string r.
Proof using Hwf Hs Hstring.
  apply search_range_spec; try lia. intros j e Hj He. pose proof (lookup_lt_Some _ _ _ He). lia.
Qed.
End Search.

(** The names of the entries for a string. *)
Definition names_of (table : list table_entry) (string : cstr) : list cstr :=
  english <$> filter (fun e => code e = string) table.

Definition slice {A} (i n : nat) (l : list A) : list A := take n (drop i l).

Lemma slice_S {A} i n (l : list A) x : l !! i = Some x -> slice i (S n) l = x :: slice (i + 1) n l.
Proof. intros H. unfold slice. rewrite (drop_S l x i H), Nat.add_1_r. done. Qed.

(** The range of the entries for a string are these entries. *)
Lemma range_slice table string r : is_range table string r ->
  filter (fun e => code e = string) table = slice (lo r) (hi r - lo r) table.
Proof.
  intros [Hb Hr]. unfold slice. rewrite <- (take_drop (lo r) table) at 1.
  rewrite <- (take_drop (hi r - lo r) (drop (lo r) table)) at 1. rewrite !filter_app.
  assert (Hout : forall i n, (forall j, (i <= j < i + n)%nat -> ~ (lo r <= j < hi r)%nat) ->
    filter (fun e => code e = string) (slice i n table) = []).
  { intros i n. revert i. induction n as [|n IH]; intros i Hn; [done|]. destruct (table !! i) as [e|] eqn:E.
    - rewrite (slice_S i n table e E), filter_cons. rewrite decide_False; [apply IH; intros j Hj; apply Hn; lia|].
      intros H. apply (Hr i e E) in H. by apply (Hn i); [lia|].
    - unfold slice. apply lookup_ge_None in E. rewrite drop_ge by done. by rewrite take_nil. }
  assert (Hin : forall n i, (lo r <= i /\ i + n <= hi r)%nat -> filter (fun e => code e = string) (slice i n table) = slice i n table).
  { induction n as [|n IH]; intros i Hi; [done|]. destruct (lookup_lt_is_Some_2 table i) as [e E]; [lia|].
    rewrite (slice_S i n table e E), filter_cons. rewrite decide_True by (apply (Hr i e E); lia). f_equal. apply IH. lia. }
  pose proof (Hout 0%nat (lo r) ltac:(lia)) as H1. unfold slice in H1. rewrite drop_0 in H1. rewrite H1.
  pose proof (Hin (hi r - lo r)%nat (lo r) ltac:(lia)) as H2. unfold slice in H2. rewrite H2.
  rewrite drop_drop.
  pose proof (Hout (lo r + (hi r - lo r))%nat (length table - hi r)%nat ltac:(lia)) as H3. unfold slice in H3.
  rewrite take_ge in H3 by (rewrite length_drop; lia). rewrite H3. by rewrite app_nil_r.
Qed.

(** Decides the order of a table. *)
Fixpoint sorted_check (table : list table_entry) : bool :=
  match table with
  | [] => true
  | a :: rest => forallb (fun b => strcmp (code a) (code b) <=? 0) rest && sorted_check rest
  end.

Lemma sorted_check_spec table : sorted_check table = true -> sorted_codes table.
Proof.
  induction table as [|a rest IH]; intros H i j x y Hij Hx Hy; [done|]. cbn [sorted_check] in H.
  apply andb_true_iff in H as [H1 H2]. destruct j as [|j]; [lia|]. cbn in Hy. destruct i as [|i]; cbn in Hx.
  - injection Hx as ->. rewrite forallb_forall in H1. apply Z.leb_le, H1. apply list_elem_of_In. by eapply list_elem_of_lookup_2.
  - apply (IH H2 i j); [lia|done|done].
Qed.

Definition wf_codes_check (table : list table_entry) : bool := forallb (fun e => bool_decide (wf_cstr (code e))) table.

Lemma wf_codes_check_spec table : wf_codes_check table = true -> wf_codes table.
Proof.
  intros H. apply Forall_forall. intros e He. unfold wf_codes_check in H. rewrite forallb_forall in H.
  apply (bool_decide_eq_true_1 _ (H e (proj1 (list_elem_of_In _ _) He))).
Qed.

Lemma language_table_sorted : sorted_codes language_table.
Proof. by apply sorted_check_spec; vm_compute. Qed.

Lemma language_table_wf : wf_codes language_table.
Proof. by apply wf_codes_check_spec; vm_compute. Qed.

Lemma country_table_sorted : sorted_codes country_table.
Proof. by apply sorted_check_spec; vm_compute. Qed.

Lemma country_table_wf : wf_codes country_table.
Proof. by apply wf_codes_check_spec; vm_compute. Qed.

Lemma search_languages string : wf_cstr string -> exists r, search language_table string = Some r /\ is_range language_table string r.
Proof. apply search_spec; [apply language_table_wf|apply language_table_sorted]. Qed.

Lemma search_countries string : wf_cstr string -> exists r, search country_table string = Some r /\ is_range country_table string r.
Proof. apply search_spec; [apply country_table_wf|apply country_table_sorted]. Qed.

(** Every language with every country fits the buffer. *)
Lemma english_fits l c : l ∈ language_table -> c ∈ country_table ->
  (length (english l) + 1 + (length (english c) + 1) <= 64 + 64)%nat.
Proof.
  assert (H : forallb (fun l => forallb (fun c => length (english l) + 1 + (length (english c) + 1) <=? 64 + 64)%nat country_table)
    language_table = true) by by vm_compute.
  intros Hl Hc. rewrite forallb_forall in H. pose proof (H l (proj1 (list_elem_of_In _ _) Hl)) as H1. cbn beta in H1.
  rewrite forallb_forall in H1. apply Nat.leb_le, (H1 c). by apply list_elem_of_In.
Qed.

(** The tables are used through these lemmas from here on. *)
#[local] Opaque language_table country_table.

(** ** The names that are tried *)

(** Every language of [langs] with every country. *)
Definition combinations (langs countries : list cstr) : list cstr :=
  part1 ← langs; (fun part2 => part1 ++ chr "_" :: part2) <$> countries.

(** The names for a Unix name, in order: itself, without the codeset, the languages
    for the whole name, those for the language with all the countries, those without a country. *)
Definition candidates (locale : cstr) : list cstr :=
  locale ::
  (if decide (length locale < 64)%nat then
     let llCC := remove_codeset locale in
     (if decide (llCC = locale) then [] else [llCC]) ++
     names_of language_table llCC ++
     match split_territory llCC with
     | None => []
     | Some (ll, CC) =>
         combinations (names_of language_table ll) (names_of country_table CC) ++ names_of language_table ll
     end
   else []).

Lemma combinations_nil langs : combinations langs [] = [].
Proof. induction langs as [|l langs IH]; [done|]. unfold combinations. by rewrite bind_cons. Qed.

Lemma codes_scan_app c p : (scan c p).1 ++ (scan c p).2 = p.
Proof. induction p as [|x p IH]; [done|]. cbn [scan]. case_if; [done|]. destruct (scan c p) as [a b]. cbn in *. by rewrite IH. Qed.

Lemma scan_wf c p : wf_cstr p -> wf_cstr (scan c p).1 /\ wf_cstr (scan c p).2.
Proof. intros H. rewrite <- (codes_scan_app c p) in H. by apply wf_cstr_app. Qed.

Lemma scan_length c p : (length (scan c p).1 + length (scan c p).2 = length p)%nat.
Proof. rewrite <- length_app. by rewrite codes_scan_app. Qed.

Lemma remove_codeset_wf locale : wf_cstr locale ->
  wf_cstr (remove_codeset locale) /\ (length (remove_codeset locale) <= length locale)%nat.
Proof.
  intros H. unfold remove_codeset. pose proof (scan_wf (chr ".") locale H) as [H1 H2]. pose proof (scan_length (chr ".") locale).
  destruct (scan (chr ".") locale) as [front p]. cbn in *. pose proof (scan_wf (chr "@") p H2) as [_ H3].
  pose proof (scan_length (chr "@") p). split; [by apply wf_cstr_app|]. rewrite length_app. lia.
Qed.

Lemma split_territory_wf s ll CC : wf_cstr s -> split_territory s = Some (ll, CC) ->
  (wf_cstr ll /\ wf_cstr CC) /\ (length ll <= length s /\ length CC <= length s)%nat.
Proof.
  intros H E. unfold split_territory in E. pose proof (scan_wf (chr "_") s H) as [H1 H2]. pose proof (scan_length (chr "_") s).
  destruct (scan (chr "_") s) as [language [|c start]]; [done|]. cbn in *. apply wf_cstr_cons in H2 as [_ H2].
  pose proof (scan_wf (chr "@") start H2) as [H3 H4]. pose proof (scan_length (chr "@") start).
  destruct (scan (chr "@") start) as [territory rest]. cbn in *. injection E as <- <-.
  rewrite wf_cstr_app, length_app. split; [tauto|lia].
Qed.

Section Tries.
Context {L : Type} (setlocale : category -> option cstr -> L -> option cstr * L) (cat : category).

(** The first name that the C library accepts. *)
Fixpoint try_names (names : list cstr) (s : L) : option cstr * L :=
  match names with
  | [] => (None, s)
  | name :: names =>
      match setlocale cat (Some name) s with
      | (Some result, s) => (Some result, s)
      | (None, s) => try_names names s
      end
  end.

(** A piece of code tries these names. *)
Definition tries (k : L -> option (option cstr * L)) (names : list cstr) : Prop := forall s, k s = Some (try_names names s).

Lemma tries_failed : tries failed [].
Proof using Type. done. Qed.

Lemma tries_attempt name k names : tries k names -> tries (attempt setlocale cat name k) (name :: names).
Proof using Type. intros H s. unfold attempt. cbn [try_names]. destruct (setlocale cat (Some name) s) as [[r|] s']; [done|apply H]. Qed.

Lemma tries_range k names i n : (i + n <= length language_table)%nat -> tries k names ->
  tries (try_range setlocale cat i n k) ((english <$> slice i n language_table) ++ names).
Proof using Type.
  intros Hi Hk. revert i Hi. induction n as [|n IH]; intros i Hi; [exact Hk|].
  destruct (lookup_lt_is_Some_2 language_table i) as [e E]; [lia|]. rewrite (slice_S i n _ e E).
  intros s. cbn [try_range]. rewrite E. cbn [mbind option_bind fmap list_fmap app].
  apply (tries_attempt (english e) _ ((english <$> slice (i + 1) n language_table) ++ names)). apply IH. lia.
Qed.

Lemma tries_countries k names l j n : (j + n <= length country_table)%nat -> l ∈ language_table -> tries k names ->
  tries (try_countries setlocale cat (english l) j n k)
    (((fun c => english l ++ chr "_" :: c) <$> (english <$> slice j n country_table)) ++ names).
Proof using Type.
  intros Hj Hl Hk. revert j Hj. induction n as [|n IH]; intros j Hj; [exact Hk|].
  destruct (lookup_lt_is_Some_2 country_table j) as [e E]; [lia|]. rewrite (slice_S j n _ e E).
  intros s. cbn [try_countries]. rewrite E. cbn [mbind option_bind fmap list_fmap app].
  rewrite (proj2 (Nat.leb_le _ _) (english_fits l e Hl (list_elem_of_lookup_2 _ _ _ E))).
  apply (tries_attempt (english l ++ chr "_" :: english e) _ (((fun c => english l ++ chr "_" :: c) <$> (english <$> slice (j + 1) n country_table)) ++ names)).
  apply IH. lia.
Qed.

Lemma tries_languages k names i n r : (i + n <= length language_table)%nat -> (lo r <= hi r <= length country_table)%nat ->
  tries k names ->
  tries (try_languages setlocale cat i n r k)
    (combinations (english <$> slice i n language_table) (english <$> slice (lo r) (hi r - lo r) country_table) ++ names).
Proof using Type.
  intros Hi Hr Hk. revert i Hi. induction n as [|n IH]; intros i Hi; [exact Hk|].
  destruct (lookup_lt_is_Some_2 language_table i) as [e E]; [lia|]. rewrite (slice_S i n _ e E).
  intros s. cbn [try_languages]. rewrite E. cbn [mbind option_bind fmap list_fmap].
  unfold combinations. rewrite bind_cons, <- app_assoc.
  apply (tries_countries _ (combinations (english <$> slice (i + 1) n language_table) (english <$> slice (lo r) (hi r - lo r) country_table) ++ names)).
  - lia.
  - by eapply list_elem_of_lookup_2.
  - apply IH. lia.
Qed.

Lemma tries_range_of string r k names : is_range language_table string r -> tries k names ->
  tries (try_range_of setlocale cat r k) (names_of language_table string ++ names).
Proof using Type.
  intros Hr Hk. unfold names_of. rewrite (range_slice _ _ r Hr). destruct Hr as [Hb _]. apply tries_range; [lia|done].
Qed.

(** An empty range has no names. *)
Lemma no_names table string r : is_range table string r -> (hi r <= lo r)%nat -> names_of table string = [].
Proof using Type.
  intros Hr Hle. unfold names_of. rewrite (range_slice _ _ r Hr). by replace (hi r - lo r)%nat with 0%nat by lia.
Qed.

(** The languages with the countries, then without. *)
Lemma tries_pairs ll lr CC cr : is_range language_table ll lr -> is_range country_table CC cr ->
  tries (fun s =>
      let language_only := try_range_of setlocale cat lr failed in
      if (lo cr <? hi cr)%nat then try_languages setlocale cat (lo lr) (hi lr - lo lr) cr language_only s else language_only s)
    (combinations (names_of language_table ll) (names_of country_table CC) ++ names_of language_table ll).
Proof using Type.
  intros Hl Hc s. pose proof (tries_range_of ll lr failed [] Hl tries_failed) as Honly. rewrite app_nil_r in Honly.
  cbn zeta. destruct (Nat.ltb_spec (lo cr) (hi cr)) as [Hlt|Hge].
  - unfold names_of at 1 2. rewrite (range_slice _ _ lr Hl), (range_slice _ _ cr Hc).
    apply tries_languages; [destruct Hl; lia|by destruct Hc|done].
  - rewrite (no_names _ _ cr Hc Hge). by rewrite Honly, combinations_nil.
Qed.

Lemma tries_split llCC : wf_cstr llCC -> (length llCC < 64)%nat ->
  tries (try_split setlocale cat llCC)
    match split_territory llCC with
    | None => []
    | Some (ll, CC) => combinations (names_of language_table ll) (names_of country_table CC) ++ names_of language_table ll
    end.
Proof using Type.
  intros Hw Hlen s. unfold try_split. destruct (split_territory llCC) as [[ll CC]|] eqn:E; [|done].
  destruct (split_territory_wf llCC ll CC Hw E) as [[H1 H2] [H3 H4]].
  assert (Hbuf : forall x : cstr, (length x < 64)%nat -> to_buffer 64 x = Some x).
  { intros x Hx. unfold to_buffer. by rewrite (proj2 (Nat.ltb_lt _ _)). }
  rewrite (Hbuf ll), (Hbuf CC) by lia. destruct (search_languages ll H1) as (lr & El & Hl).
  destruct (search_countries CC H2) as (cr & Ec & Hc). pose proof (tries_pairs ll lr CC cr Hl Hc s) as Hp.
  revert El Ec. generalize (search language_table), (search country_table). intros search_l search_c El Ec.
  cbn [mbind option_bind]. rewrite El. cbn [mbind option_bind]. destruct (Nat.ltb_spec (lo lr) (hi lr)) as [Hlt|Hge]; [by rewrite Ec|].
  by rewrite (no_names _ _ lr Hl Hge).
Qed.

Lemma unixlike_tries locale : wf_cstr locale ->
  tries (setlocale_unixlike setlocale true cat (Some locale)) (candidates locale).
Proof using Type.
  intros Hw s. unfold setlocale_unixlike, candidates. cbn [try_names].
  destruct (setlocale cat (Some locale) s) as [[r|] s1]; [done|]. cbn [mbind option_bind].
  destruct (decide (length locale < 64)%nat) as [Hlen|Hlen]; [rewrite (proj2 (Nat.ltb_lt _ _)) by done|
    by rewrite (proj2 (Nat.ltb_ge _ _)) by lia].
  destruct (remove_codeset_wf locale Hw) as [Hc Hcl]. unfold to_buffer at 1. rewrite (proj2 (Nat.ltb_lt _ _)) by lia.
  cbn [mbind option_bind]. destruct (search_languages (remove_codeset locale) Hc) as (r & Er & Hr).
  pose proof (tries_range_of _ r _ _ Hr (tries_split (remove_codeset locale) Hc ltac:(lia))) as Hlook.
  destruct (decide (remove_codeset locale = locale)) as [E|E].
  - rewrite E, strcmp_refl. rewrite E in Er, Hlook. rewrite Er. cbn [negb Z.eqb mbind option_bind app]. apply Hlook.
  - assert (strcmp (remove_codeset locale) locale <> 0) as Hne by (rewrite strcmp_eq; done).
    rewrite (proj2 (Z.eqb_neq _ _) Hne). cbn [negb app]. apply tries_attempt. intros s2. rewrite Er. apply Hlook.
Qed.
End Tries.

(** ** What setlocale() of the C library promises

    [get] is the locale of a category in a state, [meaning name c] the locale that [name] is for category
    [c].  A query changes nothing; so does a failure; a name sets one category or all; the string for
    LC_ALL restores the state it was asked in. *)
Class LocaleLibrary {L : Type} (setlocale : category -> option cstr -> L -> option cstr * L)
    (get : category -> L -> cstr) (meaning : cstr -> category -> cstr) := {
  ll_query : forall c s, (setlocale c None s).2 = s;
  ll_ctype : forall s, (setlocale LC_CTYPE None s).1 = Some (get LC_CTYPE s) /\ wf_cstr (get LC_CTYPE s);
  ll_save : forall s, exists saved, (setlocale LC_ALL None s).1 = Some saved /\ cur saved <> 0 /\
    forall s', (setlocale LC_ALL (Some saved) s').2 = s;
  ll_fail : forall c name s, (setlocale c (Some name) s).1 = None -> (setlocale c (Some name) s).2 = s;
  ll_set : forall c name s, c <> LC_ALL -> (setlocale c (Some name) s).1 <> None ->
    get c (setlocale c (Some name) s).2 = meaning name c /\
    forall c', c' <> c -> get c' (setlocale c (Some name) s).2 = get c' s;
  ll_set_all : forall name s c, c <> LC_ALL -> (setlocale LC_ALL (Some name) s).1 <> None ->
    get c (setlocale LC_ALL (Some name) s).2 = meaning name c
}.

Section Atomic.
Context {L : Type} (setlocale : category -> option cstr -> L -> option cstr * L).
Context (get : category -> L -> cstr) (meaning : cstr -> category -> cstr) `{!LocaleLibrary setlocale get meaning}.
Context (windows no_messages : bool).

(** The names that a call may pass on for [name]. *)
Definition accepted (name : cstr) : list cstr := if windows then candidates name else [name].

(** The library sets [c] with a name for [name]. *)
Definition sets (c : category) (name : cstr) (s s' : L) : Prop :=
  exists n r, n ∈ accepted name /\ setlocale c (Some n) s = (Some r, s').

Lemma try_names_ok c names s : exists r s', try_names setlocale c names s = (r, s') /\
  match r with None => s' = s | Some r => exists n, n ∈ names /\ setlocale c (Some n) s = (Some r, s') end.
Proof using LocaleLibrary0.
  induction names as [|n names IH]; [by exists None, s|]. cbn [try_names].
  pose proof (ll_fail c n s) as Hf. destruct (setlocale c (Some n) s) as [[r|] s1] eqn:E; cbn in Hf.
  - exists (Some r), s1. split; [done|]. exists n. split; [apply list_elem_of_here|done].
  - rewrite (Hf eq_refl). destruct IH as (r & s' & E' & H). exists r, s'. split; [done|]. destruct r as [r|]; [|done].
    destruct H as (n' & Hn & H). exists n'. split; [by apply list_elem_of_further|done].
Qed.

Lemma unixlike_ok c name s : wf_cstr name ->
  exists r s', setlocale_unixlike setlocale windows c (Some name) s = Some (r, s') /\
    match r with None => s' = s | Some _ => sets c name s s' end.
Proof using LocaleLibrary0.
  intros Hw. unfold sets, accepted. destruct windows.
  - rewrite (unixlike_tries setlocale c name Hw s). destruct (try_names_ok c (candidates name) s) as (r & s' & -> & H).
    exists r, s'. split; [done|]. destruct r as [r|]; [|done]. destruct H as (n & Hn & H). by exists n, r.
  - unfold setlocale_unixlike. pose proof (ll_fail c name s) as Hf.
    destruct (setlocale c (Some name) s) as [[r|] s1] eqn:E; cbn in Hf.
    + exists (Some r), s1. split; [done|]. exists name, r. split; [by apply list_elem_of_singleton|done].
    + exists None, s1. split; [done|]. by apply Hf.
Qed.

(** The program keeps the category itself. *)
Definition own (c : category) : bool := no_messages && bool_decide (c = LC_MESSAGES).

(** The category has the locale that [name] is for. *)
Definition in_effect (c : category) (name : cstr) (st : locale_state L) : Prop :=
  if own c then lc_messages_name st = take 63 name
  else exists n, n ∈ accepted name /\ get c (libc st) = meaning n c.

(** The category is the same in both states. *)
Definition same_category (st st' : locale_state L) (c : category) : Prop :=
  if own c then lc_messages_name st' = lc_messages_name st else get c (libc st') = get c (libc st).

Lemma single_ok c name st : wf_cstr name -> c <> LC_ALL ->
  exists r st', setlocale_single setlocale windows no_messages c (Some name) st = Some (r, st') /\
    _nl_msg_cat_cntr st' = _nl_msg_cat_cntr st /\
    match r with
    | None => own c = false /\ st' = st
    | Some _ => in_effect c name st' /\ forall c', c' <> c -> c' <> LC_ALL -> same_category st st' c'
    end.
Proof using LocaleLibrary0.
  intros Hw Hall. unfold setlocale_single, in_effect, same_category. fold (own c). destruct (own c) eqn:Eo.
  - eexists _, _. split; [reflexivity|]. split; [done|]. split; [done|]. intros c' Hc' _. cbn.
    destruct (own c') eqn:Eo'; [|done]. unfold own in Eo, Eo'. breflect. congruence.
  - destruct (unixlike_ok c name (libc st) Hw) as (r & s' & E & H). rewrite E. cbn [mbind option_bind].
    exists r, (set_libc st s'). split; [done|]. split; [done|]. destruct r as [r|].
    + destruct H as (n & r' & Hn & E'). pose proof (ll_set c n (libc st) Hall) as Hset. rewrite E' in Hset. cbn in Hset.
      destruct Hset as [Hget Hother]; [done|]. split; [by exists n|]. intros c' Hc' _. cbn. destruct (own c'); [done|by apply Hother].
    + split; [done|]. subst s'. by destruct st.
Qed.

Context (getenv : cstr -> option cstr) (macosx cygwin : bool) (default_name : cstr) (strdup : bool).
Context (Hname : forall c, wf_cstr (name_for getenv macosx cygwin default_name c)).

Lemma own_messages c : own c = true -> c = LC_MESSAGES.
Proof using Type. unfold own. intros H. by breflect. Qed.

Lemma in_effect_same c name st st' : same_category st st' c -> in_effect c name st -> in_effect c name st'.
Proof using Type. unfold in_effect, same_category. destruct (own c); [congruence|]. by intros ->. Qed.

(** The loop: categories with the name [base] have it already; only the last may be the program's own. *)
Lemma set_categories_ok cats base st : wf_cstr base -> NoDup cats -> LC_ALL ∉ cats ->
  (forall c l1 l2, cats = l1 ++ c :: l2 -> own c = true -> l2 = []) ->
  (forall c, c ∈ cats -> own c = false -> in_effect c base st) ->
  exists ok st', set_categories setlocale windows no_messages getenv macosx cygwin default_name cats base st = Some (ok, st') /\
    _nl_msg_cat_cntr st' = _nl_msg_cat_cntr st /\
    if ok : bool then (forall c, c ∈ cats -> in_effect c (name_for getenv macosx cygwin default_name c) st') /\
        (forall c, c ∉ cats -> c <> LC_ALL -> same_category st st' c)
    else lc_messages_name st' = lc_messages_name st.
Proof using LocaleLibrary0 Hname.
  intros Hb. revert st. induction cats as [|c cats IH]; intros st Hnd Hall Hlast Hbase; cbn [set_categories].
  { exists true, st. split_and!; [done..|intros c Hc; by apply not_elem_of_nil in Hc|intros; unfold same_category; by destruct (own c)]. }
  apply NoDup_cons in Hnd as [Hc Hnd]. apply not_elem_of_cons in Hall as [Hca Hall]. fold (own c).
  assert (Hlast' : forall c' l1 l2, cats = l1 ++ c' :: l2 -> own c' = true -> l2 = []).
  { intros c' l1 l2 ->. by apply (Hlast c' (c :: l1) l2). }
  destruct (negb (strcmp (name_for getenv macosx cygwin default_name c) base =? 0) || own c) eqn:Eskip.
  - destruct (single_ok c (name_for getenv macosx cygwin default_name c) st (Hname c) ltac:(done)) as (r & st1 & E & Hcn & H).
    rewrite E. cbn [mbind option_bind]. destruct r as [r|]; [|destruct H as [Ho ->]; by exists false, st].
    destruct H as [Heff Hsame].
    destruct (IH st1 Hnd Hall Hlast') as (ok & st' & E' & Hcn' & H').
    { intros c' Hc' Ho'. apply (in_effect_same c' base st); [|apply Hbase; [by apply list_elem_of_further|done]].
      apply Hsame; [by intros ->|by intros ->]. }
    exists ok, st'. split; [done|]. split; [congruence|]. destruct ok.
    + destruct H' as [H1 H2]. split.
      * intros c' [->|Hc']%elem_of_cons; [|by apply H1]. apply (in_effect_same c _ st1); [by apply H2|done].
      * intros c' Hc'%not_elem_of_cons Hall'. destruct Hc' as [Hne Hc']. pose proof (Hsame c' Hne Hall') as G1.
        pose proof (H2 c' Hc' Hall') as G2. unfold same_category in *. destruct (own c'); congruence.
    + rewrite H'. destruct (own c) eqn:Eo.
      * rewrite (Hlast c [] cats eq_refl Eo) in E'. by simplify_eq/=.
      * destruct (decide (own LC_MESSAGES = true)) as [Em|Em].
        -- assert (LC_MESSAGES <> c) as Hne by (intros <-; congruence). pose proof (Hsame LC_MESSAGES Hne ltac:(done)) as G.
           unfold same_category in G. by rewrite Em in G.
        -- unfold setlocale_single in E. fold (own c) in E. rewrite Eo in E.
           destruct (setlocale_unixlike setlocale windows c _ (libc st)) as [[? ?]|]; [|done]. cbn in E. by simplify_eq/=.
  - apply orb_false_iff in Eskip as [Es Eo]. breflect. apply strcmp_eq in Es; [|done..].
    destruct (IH st Hnd Hall Hlast') as (ok & st' & E' & Hcn' & H').
    { intros c' Hc' Ho'. apply Hbase; [by apply list_elem_of_further|done]. }
    exists ok, st'. split; [done|]. split; [done|]. destruct ok; [|done]. destruct H' as [H1 H2]. split.
    + intros c' [->|Hc']%elem_of_cons; [|by apply H1]. apply (in_effect_same c _ st); [by apply H2|]. rewrite Es.
      apply Hbase; [apply list_elem_of_here|done].
    + intros c' [_ Hc']%not_elem_of_cons Hall'. by apply H2.
Qed.

Lemma restore_ok saved st st1 : cur saved <> 0 -> (forall s, (setlocale LC_ALL (Some saved) s).2 = libc st) ->
  lc_messages_name st1 = lc_messages_name st -> _nl_msg_cat_cntr st1 = _nl_msg_cat_cntr st ->
  restore setlocale saved st1 = Some (None, st).
Proof using Type.
  intros Hs Hr Hl Hc. unfold restore, call_setlocale. rewrite (proj2 (Z.eqb_neq _ _) Hs).
  pose proof (Hr (libc st1)) as H. destruct (setlocale LC_ALL (Some saved) (libc st1)) as [r s]. cbn in *. subst s.
  unfold set_libc. rewrite Hl, Hc. by destruct st.
Qed.

Lemma ctype_is_C_ok st : ctype_is_C setlocale st = Some (bool_decide (get LC_CTYPE (libc st) = cs "C"), st).
Proof using LocaleLibrary0.
  unfold ctype_is_C, call_setlocale. pose proof (ll_ctype (libc st)) as [H Hw]. pose proof (ll_query LC_CTYPE (libc st)) as Hq.
  destruct (setlocale LC_CTYPE None (libc st)) as [r s]. cbn in *. subst r s. cbn [mbind option_bind]. f_equal. f_equal.
  - case_bool_decide as E; [rewrite E; by vm_compute|]. apply Z.eqb_neq. by rewrite strcmp_eq by (done || (apply (bool_decide_eq_true_1 _); by vm_compute)).
  - by destruct st.
Qed.

(** A call for all categories. *)
Lemma unixlike_all_ok name st : wf_cstr name ->
  exists r s', setlocale_unixlike setlocale windows LC_ALL (Some name) (libc st) = Some (r, s') /\
    match r with
    | None => s' = libc st
    | Some _ => forall c, c <> LC_ALL -> own c = false -> in_effect c name (set_libc st s')
    end.
Proof using LocaleLibrary0.
  intros Hw. destruct (unixlike_ok LC_ALL name (libc st) Hw) as (r & s' & E & H). exists r, s'. split; [done|].
  destruct r as [r|]; [|done]. destruct H as (n & r' & Hn & E'). intros c Hc Ho. unfold in_effect. rewrite Ho.
  exists n. split; [done|]. pose proof (ll_set_all n (libc st) c Hc) as Hall. rewrite E' in Hall. by apply Hall.
Qed.

(** The locale that a call asks for. *)
Definition requested (name : cstr) (c : category) : cstr :=
  match name with [] => name_for getenv macosx cygwin default_name c | _ => name end.

(** What a successful call with a name does: the own LC_MESSAGES is set by its own name, and with all categories only to the default
    ([se_own]: a call for all categories with a name leaves it). *)
Record set_effect (c : category) (name : cstr) (st st' : locale_state L) : Prop := SetEffect {
  se_set : forall c', c' <> LC_ALL -> c = LC_ALL /\ c' ∈ LC_CTYPE :: categories \/ c = c' -> own c' = false \/ c = c' \/ name = [] ->
    in_effect c' (requested name c') st';
  se_own : c = LC_ALL -> name <> [] -> own LC_MESSAGES = true -> lc_messages_name st' = lc_messages_name st;
  se_other : c <> LC_ALL -> forall c', c' <> c -> c' <> LC_ALL -> same_category st st' c';
  se_codeset : c = LC_ALL -> windows = true -> has_dot (requested name LC_CTYPE) = true -> get LC_CTYPE (libc st') <> cs "C"
}.

(** What a call does: all or nothing. *)
Definition all_or_nothing (c : category) (locale : option cstr) (st : locale_state L) (o : option (option cstr * locale_state L)) : Prop :=
  exists r st', o = Some (r, st') /\
    match r with
    | None => st' = st
    | Some _ => _nl_msg_cat_cntr st' = _nl_msg_cat_cntr st + 1 /\
        match locale with
        | None => libc st' = libc st /\ lc_messages_name st' = lc_messages_name st
        | Some name => set_effect c name st st'
        end
    end.

Lemma own_ctype : own LC_CTYPE = false.
Proof using Type. unfold own. by rewrite andb_false_r. Qed.

Lemma own_all : own LC_ALL = false.
Proof using Type. unfold own. by rewrite andb_false_r. Qed.

Lemma query_all_ok st : exists saved, call_setlocale setlocale LC_ALL None st = (Some saved, st) /\ cur saved <> 0 /\
  forall s, (setlocale LC_ALL (Some saved) s).2 = libc st.
Proof using LocaleLibrary0.
  destruct (ll_save (libc st)) as (saved & H & H1 & H2). exists saved. split; [|done]. unfold call_setlocale.
  pose proof (ll_query LC_ALL (libc st)) as Hq. destruct (setlocale LC_ALL None (libc st)) as [r s]. cbn in *. subst. by destruct st.
Qed.

(** One category. *)
Lemma set_one_ok c name st : c <> LC_ALL -> wf_cstr (requested name c) ->
  all_or_nothing c (Some name) st (set_one setlocale windows no_messages c (Some (requested name c)) st).
Proof using LocaleLibrary0.
  intros Hall Hw. destruct (single_ok c (requested name c) st Hw Hall) as (r & st' & E & Hcn & H). unfold set_one. rewrite E. cbn [mbind option_bind].
  destruct r as [r|].
  - exists (Some r), (changed st'). split; [done|]. cbn. split; [lia|]. destruct H as [H1 H2]. split; [|done|done|done].
    intros c' Hc' [[? _]|<-] _; [done|]. exact H1.
  - exists None, st'. split; [done|]. by destruct H.
Qed.

(** All categories with one name, without a check. *)
Lemma set_one_all_ok name st : wf_cstr name -> name <> [] -> windows && has_dot name = false ->
  all_or_nothing LC_ALL (Some name) st (set_one setlocale windows no_messages LC_ALL (Some name) st).
Proof using LocaleLibrary0.
  intros Hw Hne Hdot. unfold set_one, setlocale_single. fold (own LC_ALL). rewrite own_all.
  destruct (unixlike_all_ok name st Hw) as (r & s' & E & H). rewrite E. cbn [mbind option_bind]. destruct r as [r|].
  - eexists _, _. split; [reflexivity|]. cbn. split; [done|]. split; [|done|done|].
    + intros c' Hc' _ [Ho|[<-|?]]; [|done|done]. destruct name; [done|]. by apply (H c').
    + intros _ Hwin. destruct name; [done|]. cbn [requested]. by rewrite Hwin in Hdot; cbn in Hdot; rewrite Hdot.
  - eexists _, _. split; [reflexivity|]. cbn. subst s'. by destruct st.
Qed.

Lemma set_all_with_codeset_ok name st : wf_cstr name -> name <> [] -> windows = true ->
  all_or_nothing LC_ALL (Some name) st (set_all_with_codeset setlocale windows strdup name st).
Proof using LocaleLibrary0.
  intros Hw Hne Hwin. unfold set_all_with_codeset. destruct (query_all_ok st) as (saved & -> & Hs & Hr).
  destruct strdup; [|by exists None, st].
  destruct (unixlike_all_ok name st Hw) as (r & s' & E & H). rewrite E. cbn [mbind option_bind]. destruct r as [r|].
  - rewrite ctype_is_C_ok. cbn [mbind option_bind]. case_bool_decide as HC.
    + rewrite (restore_ok saved st); [|done..]. by exists None, st.
    + destruct (query_all_ok (changed (set_libc st s'))) as (r' & -> & _). eexists _, _. split; [reflexivity|]. cbn. split; [done|].
      split; [|done|done|done]. intros c' Hc' _ [Ho|[<-|?]]; [|done|done]. destruct name; [done|]. by apply (H c').
  - exists None, st. split; [|done]. subst s'. by destruct st.
Qed.

Lemma set_all_to_default_ok st :
  all_or_nothing LC_ALL (Some []) st
    (set_all_to_default setlocale windows no_messages getenv macosx cygwin default_name strdup st).
Proof using LocaleLibrary0 Hname.
  unfold set_all_to_default. destruct (query_all_ok st) as (saved & -> & Hs & Hr). destruct strdup; [|by exists None, st].
  set (base := name_for getenv macosx cygwin default_name LC_CTYPE).
  destruct (unixlike_all_ok base st (Hname LC_CTYPE)) as (r & s' & E & H). rewrite E. cbn [mbind option_bind].
  destruct r as [r|]; [|by rewrite (restore_ok saved st) by done; exists None, st].
  set (st1 := set_libc st s') in *.
  assert (Hinv : (if windows && has_dot base then ctype_is_C setlocale st1 else Some (false, st1)) =
    Some (windows && has_dot base && bool_decide (get LC_CTYPE (libc st1) = cs "C"), st1)).
  { rewrite ctype_is_C_ok. by destruct (windows && has_dot base). }
  rewrite Hinv. cbn [mbind option_bind]. destruct (_ && bool_decide _) eqn:Einv.
  { rewrite (restore_ok saved st) by done. by exists None, st. }
  destruct (set_categories_ok categories base st1 (Hname LC_CTYPE)) as (ok & st' & E' & Hcn & H').
  - by apply (bool_decide_eq_true_1 _); vm_compute.
  - by apply (bool_decide_eq_true_1 _); vm_compute.
  - intros c l1 l2 Ec Ho. apply own_messages in Ho as ->. unfold categories in Ec.
    destruct l1 as [|? [|? [|? [|? [|? l1]]]]]; simplify_eq/=; try done. by destruct l1.
  - intros c Hc Ho. apply H; [|done]. intros ->. revert Hc. by apply (bool_decide_eq_true_1 _); vm_compute.
  - rewrite E'. cbn [mbind option_bind]. destruct ok.
    + destruct (query_all_ok (changed st')) as (r' & -> & _). eexists _, _. split; [reflexivity|]. cbn. split; [cbn in Hcn; lia|].
      destruct H' as [H1 H2].
      assert (Hct : same_category st1 st' LC_CTYPE) by (apply H2; [by apply (bool_decide_eq_true_1 _); vm_compute|done]).
      split; [|done|done|].
      * intros c' Hc' [[_ [->|Hin]%elem_of_cons]|<-] _; [|by apply H1|done].
        apply (in_effect_same LC_CTYPE _ st1); [exact Hct|]. apply H; [done|apply own_ctype].
      * intros _ Hwin Hdot. cbn [requested] in Hdot. fold base in Hdot. rewrite Hwin, Hdot in Einv. cbn in Einv. breflect.
        unfold same_category in Hct. rewrite own_ctype in Hct. cbn. by rewrite Hct.
    + rewrite (restore_ok saved st); [by exists None, st|done|done|done|]. by rewrite Hcn.
Qed.
End Atomic.

(** The query for a category that the library does not have passes the null pointer to strlen(). *)
Lemma query_of_unknown_category {L} (setlocale : category -> option cstr -> L -> option cstr * L) no_messages getenv macosx cygwin default_name
    strdup c (st : locale_state L) : own no_messages c = false -> (setlocale c None (libc st)).1 = None ->
  libintl_setlocale setlocale true no_messages getenv macosx cygwin default_name strdup c None st = None.
Proof.
  intros Ho H. unfold libintl_setlocale, set_one, setlocale_single. fold (own no_messages c). rewrite Ho. unfold setlocale_unixlike.
  destruct (setlocale c None (libc st)) as [[r|] s]; [done|]. done.
Qed.

(** C9. [libintl_setlocale] is all or nothing.  For every C library that keeps the promises of ISO C, on every
    platform, with any environment and memory: it never calls abort(), writes outside a buffer; if it returns NULL, whichever of its many steps failed, the locale of every
    category, the own LC_MESSAGES and the counter are as before; if it succeeds, the counter goes up by one, every requested
    category has the locale that one of the names for the requested locale stands for, no other category
    has changed, and on Windows a codeset was not silently replaced by the "C" locale.  There are two exceptions: where the library has its own
    LC_MESSAGES, a call for LC_ALL with a name that is not empty leaves it as it is; and on Windows a query for a category that the C library does not
    have passes the null pointer to strlen(). *)
Theorem libintl_setlocale_all_or_nothing {L} (setlocale : category -> option cstr -> L -> option cstr * L) get meaning
    `{!LocaleLibrary setlocale get meaning} windows no_messages getenv macosx cygwin default_name strdup c locale st :
  wf_cstr default_name -> (forall name s, getenv name = Some s -> wf_cstr s) -> (forall name, locale = Some name -> wf_cstr name) ->
  let result := libintl_setlocale setlocale windows no_messages getenv macosx cygwin default_name strdup c locale st in
  let unknown_category := locale = None /\ windows = true /\ own no_messages c = false /\ (setlocale c None (libc st)).1 = None in
  (unknown_category -> result = None) /\
  (~ unknown_category -> all_or_nothing get meaning windows no_messages getenv macosx cygwin default_name c locale st result).
Proof.
  intros Hd Henv Hloc. cbn zeta. split; [intros (-> & -> & Ho & H); by apply query_of_unknown_category|]. intros Hnull.
  assert (Hname : forall c, wf_cstr (name_for getenv macosx cygwin default_name c)).
  { assert (Hne : forall v s, getenv_nonempty getenv v = Some s -> wf_cstr s).
    { intros v s. unfold getenv_nonempty. pose proof (Henv v) as H. destruct (getenv v) as [[|x l]|]; intros E; try done. injection E as <-. exact (H _ eq_refl). }
    intros c'. unfold name_for, gl_locale_name_environ.
    destruct (getenv_nonempty getenv (cs "LC_ALL")) eqn:E1; [by apply (Hne _ _ E1)|].
    destruct (getenv_nonempty getenv (category_to_name c')) eqn:E2; [by apply (Hne _ _ E2)|].
    destruct (getenv_nonempty getenv (cs "LANG")) eqn:E3; [|done]. destruct (_ && _); [by apply (Hne _ _ E3)|done]. }
  unfold libintl_setlocale. destruct locale as [[|x name]|].
  - case_bool_decide as Hc; [subst c; by apply (set_all_to_default_ok _ get meaning)|].
    apply (set_one_ok _ get meaning _ _ _ _ _ _ c [] st Hc (Hname c)).
  - pose proof (Hloc (x :: name) eq_refl) as Hw. destruct (windows && bool_decide (c = LC_ALL) && has_dot (x :: name)) eqn:E.
    + breflect. subst c. by apply (set_all_with_codeset_ok _ get meaning).
    + case_bool_decide as Hc.
      * subst c. rewrite andb_true_r in E. by apply (set_one_all_ok _ get meaning).
      * by apply (set_one_ok _ get meaning _ _ _ _ _ _ c (x :: name) st Hc).
  - unfold set_one, setlocale_single. fold (own no_messages c). destruct (own no_messages c) eqn:Eo.
    + eexists _, _. split; [reflexivity|]. by cbn.
    + unfold setlocale_unixlike. pose proof (ll_query c (libc st)) as Hq.
      destruct (setlocale c None (libc st)) as [[r|] s] eqn:E; cbn in Hq; subst s; cbn [mbind option_bind].
      * eexists _, _. split; [reflexivity|]. by cbn.
      * destruct windows; [|cbn; exists None; eexists; split; [reflexivity|by destruct st]].
        by destruct Hnull.
Qed.

(** ** A small C library *)

(** Every category has the locale "C" or "German_Germany"; the name of all is a digit for each. *)
Record toy := Toy { t_ctype : bool; t_numeric : bool; t_time : bool; t_collate : bool; t_monetary : bool; t_messages : bool }.

Definition toy_all (b : bool) : toy := Toy b b b b b b.

Definition toy_name (b : bool) : cstr := if b then cs "German_Germany" else cs "C".

Definition toy_get (c : category) (s : toy) : cstr :=
  match c with
  | LC_CTYPE => toy_name (t_ctype s) | LC_NUMERIC => toy_name (t_numeric s) | LC_TIME => toy_name (t_time s)
  | LC_COLLATE => toy_name (t_collate s) | LC_MONETARY => toy_name (t_monetary s) | LC_MESSAGES => toy_name (t_messages s)
  | _ => []
  end.

Definition toy_put (c : category) (b : bool) (s : toy) : option toy :=
  let '(Toy b1 b2 b3 b4 b5 b6) := s in
  match c with
  | LC_CTYPE => Some (Toy b b2 b3 b4 b5 b6) | LC_NUMERIC => Some (Toy b1 b b3 b4 b5 b6) | LC_TIME => Some (Toy b1 b2 b b4 b5 b6)
  | LC_COLLATE => Some (Toy b1 b2 b3 b b5 b6) | LC_MONETARY => Some (Toy b1 b2 b3 b4 b b6)
  | LC_MESSAGES => Some (Toy b1 b2 b3 b4 b5 b) | _ => None
  end.

Definition toy_digit (b : bool) : Z := if b then chr "1" else chr "0".

Definition toy_show (s : toy) : cstr :=
  let '(Toy b1 b2 b3 b4 b5 b6) := s in toy_digit <$> [b1; b2; b3; b4; b5; b6].

Definition toy_known (name : cstr) : option bool :=
  if decide (name = cs "C") then Some false else if decide (name = cs "German_Germany") then Some true else None.

Definition toy_parse (name : cstr) : option toy :=
  match toy_known name with
  | Some b => Some (toy_all b)
  | None =>
      match (fun d => d =? chr "1") <$> name with
      | [b1; b2; b3; b4; b5; b6] => Some (Toy b1 b2 b3 b4 b5 b6)
      | _ => None
      end
  end.

Definition toy_setlocale (c : category) (locale : option cstr) (s : toy) : option cstr * toy :=
  match c, locale with
  | LC_other _, _ => (None, s)
  | LC_ALL, None => (Some (toy_show s), s)
  | LC_ALL, Some name => match toy_parse name with Some s => (Some (toy_show s), s) | None => (None, s) end
  | _, None => (Some (toy_get c s), s)
  | _, Some name => match toy_known name with Some b => match toy_put c b s with Some s => (Some name, s) | None => (None, s) end | None => (None, s) end
  end.

Definition toy_meaning (name : cstr) (c : category) : cstr := match toy_parse name with Some s => toy_get c s | None => [] end.

Lemma toy_known_name name b : toy_known name = Some b -> toy_meaning name = fun c => toy_get c (toy_all b).
Proof. intros H. unfold toy_meaning, toy_parse. by rewrite H. Qed.

#[export] Instance toy_library : LocaleLibrary toy_setlocale toy_get toy_meaning.
Proof.
  split.
  - by intros [].
  - intros [[] ? ? ? ? ?]; (split; [done|]); by apply (bool_decide_eq_true_1 _); vm_compute.
  - intros [[] [] [] [] [] []]; eexists; (split; [reflexivity|split; [done|]]); done.
  - intros c name [b1 b2 b3 b4 b5 b6]. destruct c; cbn; try (by destruct (toy_known name)); by destruct (toy_parse name).
  - intros c name [b1 b2 b3 b4 b5 b6] Hc. destruct c; cbn; try done; destruct (toy_known name) as [b|] eqn:E; cbn; try done;
      intros _; (split; [rewrite (toy_known_name _ _ E); by destruct b|by intros []]).
  - intros name s c Hc. cbn. unfold toy_meaning. by destruct (toy_parse name).
Qed.

(** The environment of a German user. *)
Definition german_env (name : cstr) : option cstr := if decide (name = cs "LANG") then Some (cs "de_DE.UTF-8") else None.

Lemma libintl_setlocale_all_or_nothing_witness :
  all_or_nothing toy_get toy_meaning true true german_env false false (cs "C") LC_ALL (Some [])
    (LocaleState (toy_all false) (cs "C") 0)
    (Some (Some (toy_show (toy_all true)), LocaleState (toy_all true) (cs "de_DE.UTF-8") 1)).
Proof.
  refine (proj2 (libintl_setlocale_all_or_nothing toy_setlocale toy_get toy_meaning true true german_env false false (cs "C") true LC_ALL (Some [])
    (LocaleState (toy_all false) (cs "C") 0) _ _ _) _).
  - by apply (bool_decide_eq_true_1 _); vm_compute.
  - intros name s H. unfold german_env in H. destruct (decide (name = cs "LANG")); [|done]. injection H as <-.
    by apply (bool_decide_eq_true_1 _); vm_compute.
  - intros name [= <-]. constructor.
  - by intros [? _].
Defined.
