(* ===== verification/NewLocaleSpec.v ===== *)
(** * Default locale objects: newlocale()

    The objects of the C library are in a heap.  newlocale() of POSIX makes a new
    object or reuses the one it gets, which is no longer there afterwards. *)

From S2P Require Import Prelude LocalePlatform SetLocale SetLocaleSpec.

Open Scope Z_scope.

(** The object that a call starts from. *)
Definition object {O} (posix : O) (base : option nat) (h : gmap nat O) : option O :=
  match base with None => Some posix | Some b => h !! b end.

(** The heap without it. *)
Definition without {O} (base : option nat) (h : gmap nat O) : gmap nat O :=
  match base with None => h | Some b => delete b h end.

(** What POSIX says: [get] is the locale of a category in an object, [meaning] the locale of a name;
    [posix] has the categories that nothing else says. *)
Class NewLocaleLibrary {O : Type} (newlocale : Z -> option cstr -> option nat -> gmap nat O -> option nat * gmap nat O)
    (freelocale : nat -> gmap nat O -> gmap nat O) (get : category -> O -> cstr) (posix : O) (meaning : cstr -> category -> cstr)
    (mask_of : category -> Z) (LC_ALL_MASK : Z) := {
  nl_new : forall mask name base h o p h', object posix base h = Some o -> newlocale mask (Some name) base h = (Some p, h') ->
    exists o', h' = <[p := o']> (without base h) /\ without base h !! p = None /\
      forall c, c ∈ mask_categories -> get c o' = if Z.land mask (mask_of c) =? 0 then get c o else meaning name c;
  nl_fail : forall mask name base h h', newlocale mask (Some name) base h = (None, h') -> h' = h;
  nl_free : forall p h, freelocale p h = delete p h;
  nl_masks : forall c c', c ∈ mask_categories -> c' ∈ mask_categories -> Z.land (mask_of c) (mask_of c') = 0 <-> c <> c';
  nl_all : forall c, c ∈ mask_categories -> Z.land LC_ALL_MASK (mask_of c) <> 0
}.

Section Steps.
Context {O : Type} (newlocale : Z -> option cstr -> option nat -> gmap nat O -> option nat * gmap nat O).
Context (freelocale : nat -> gmap nat O -> gmap nat O) (get : category -> O -> cstr) (posix : O) (meaning : cstr -> category -> cstr).
Context (mask_of : category -> Z) (LC_ALL_MASK : Z).
Context `{!NewLocaleLibrary newlocale freelocale get posix meaning mask_of LC_ALL_MASK}.
Context (getenv : cstr -> option cstr) (macosx cygwin : bool) (default_name : cstr).
Context (Hname : forall c, wf_cstr (name_for getenv macosx cygwin default_name c)).
(** The state before the call. *)
Context (orig : option nat) (h0 : gmap nat O) (o0 : O) (Horig : object posix orig h0 = Some o0).

Let name_of : category -> cstr := name_for getenv macosx cygwin default_name.

(** [base] is the object made so far: the one of the call, or a new one in its place. *)
Definition so_far (base : option nat) (h : gmap nat O) (o : O) : Prop :=
  base = orig /\ h = h0 /\ o = o0 \/
  exists b, base = Some b /\ h = <[b := o]> (without orig h0) /\ without orig h0 !! b = None.

Lemma so_far_object base h o : so_far base h o -> object posix base h = Some o.
Proof using Horig. intros [(-> & -> & ->)|(b & -> & -> & Hb)]; [done|]. cbn. by rewrite lookup_insert_eq. Qed.

Lemma so_far_without base h o : so_far base h o -> without base h = without orig h0.
Proof using Type. intros [(-> & -> & ->)|(b & -> & -> & Hb)]; [done|]. cbn. by rewrite delete_insert_id. Qed.

(** The result of a call: an object in the place of [orig]'s, or, without [orig], nothing new. *)
Definition result_ok (want : category -> cstr) (res : option nat * gmap nat O) : Prop :=
  match res with
  | (Some p, h) => exists o, h = <[p := o]> (without orig h0) /\ (without orig h0 !! p = None \/ orig = Some p) /\
      forall c, c ∈ mask_categories -> get c o = want c
  | (None, h) => orig = None -> h = h0
  end.

Lemma fail_ok want base h o : so_far base h o -> result_ok want (newlocale_fail freelocale orig base h).
Proof using NewLocaleLibrary0 Horig.
  intros Hs. unfold newlocale_fail. destruct base as [b|], orig as [b0|] eqn:E; cbn [result_ok]; intros Ho; try congruence.
  - pose proof (nl_free b h) as Hf. rewrite Hf. destruct Hs as [(? & _)|(b' & [= <-] & -> & Hb)]; [congruence|]. rewrite Ho in Hb |- *. cbn in *. by rewrite delete_insert_id.
  - destruct Hs as [(_ & -> & _)|(b' & ? & _)]; [done|congruence].
Qed.

(** One call in a loop. *)
Lemma step_ok cat base h o p h' : so_far base h o -> cat ∈ mask_categories ->
  newlocale (mask_of cat) (Some (name_of cat)) base h = (Some p, h') ->
  exists o', so_far (Some p) h' o' /\
    forall c, c ∈ mask_categories -> get c o' = if decide (c = cat) then meaning (name_of c) c else get c o.
Proof using NewLocaleLibrary0 Horig.
  intros Hs Hcat E. destruct (nl_new _ _ _ _ _ _ _ (so_far_object _ _ _ Hs) E) as (o' & -> & Hp & Ho').
  rewrite (so_far_without _ _ _ Hs) in *. exists o'. split; [right; by exists p|]. intros c Hc. rewrite (Ho' c Hc).
  pose proof (nl_masks cat c Hcat Hc) as Hm. destruct (Z.eqb_spec (Z.land (mask_of cat) (mask_of c)) 0), (decide (c = cat)) as [->|];
    [tauto|done|done|]. destruct n. by apply Hm.
Qed.

(** The categories of a list are as wanted after the loop, the others as they were. *)
Lemma some_ok want cats category_mask base h o : NoDup cats -> (forall c, c ∈ cats -> c ∈ mask_categories) -> so_far base h o ->
  (forall c, c ∈ mask_categories -> c ∉ cats -> get c o = want c) ->
  (forall c, c ∈ cats -> want c = if Z.land category_mask (mask_of c) =? 0 then get c o else meaning (name_of c) c) ->
  result_ok want (newlocale_some newlocale freelocale mask_of getenv macosx cygwin default_name cats category_mask orig base h).
Proof using NewLocaleLibrary0 Horig.
  revert base h o. induction cats as [|c cats IH]; intros base h o Hnd Hin Hs Hdone Htodo; cbn [newlocale_some].
  - destruct base as [p|]; [|intros _; by destruct Hs as [(_ & -> & _)|(b & ? & _)]]. exists o.
    destruct Hs as [(Hp & -> & ->)|(b & [= <-] & -> & Hb)].
    + split_and!; [|by right|]; [|intros c Hc; apply Hdone; [done|apply not_elem_of_nil]].
      rewrite <- Hp. cbn. rewrite insert_delete_eq. rewrite insert_id; [done|]. by rewrite <- Hp in Horig.
    + split_and!; [done|by left|]. intros c Hc. apply Hdone; [done|apply not_elem_of_nil].
  - apply NoDup_cons in Hnd as [Hc Hnd]. assert (Hcat : c ∈ mask_categories) by apply Hin, list_elem_of_here.
    destruct (Z.eqb_spec (Z.land category_mask (mask_of c)) 0) as [Hz|Hz]; cbn [negb].
    + apply (IH base h o); try done.
      * intros c' Hc'. apply Hin. by apply list_elem_of_further.
      * intros c' Hc' Hnc. destruct (decide (c' = c)) as [->|Hne].
        -- rewrite (Htodo c (list_elem_of_here _ _)). by rewrite (proj2 (Z.eqb_eq _ _) Hz).
        -- apply Hdone; [done|]. by apply not_elem_of_cons.
      * intros c' Hc'. apply Htodo. by apply list_elem_of_further.
    + fold name_of. destruct (newlocale (mask_of c) (Some (name_of c)) base h) as [[copy|] h'] eqn:E.
      * destruct (step_ok c base h o copy h' Hs Hcat E) as (o' & Hs' & Ho'). apply (IH (Some copy) h' o'); try done.
        -- intros c' Hc'. apply Hin. by apply list_elem_of_further.
        -- intros c' Hc' Hnc. rewrite (Ho' c' Hc'). case_decide as Ec.
           ++ subst c'. rewrite (Htodo c (list_elem_of_here _ _)). by rewrite (proj2 (Z.eqb_neq _ _) Hz).
           ++ apply Hdone; [done|]. by apply not_elem_of_cons.
        -- intros c' Hc'. assert (c' <> c) by (by intros ->). rewrite (Htodo c') by (by apply list_elem_of_further).
           rewrite (Ho' c') by (apply Hin; by apply list_elem_of_further). by rewrite decide_False.
      * pose proof (nl_fail _ _ _ _ _ E) as ->. by apply (fail_ok want base h o).
Qed.

(** The same after a call for all categories, which leaves out names equal to [base_name]. *)
Lemma others_ok cats base_name p h o : wf_cstr base_name -> NoDup cats -> (forall c, c ∈ cats -> c ∈ mask_categories) ->
  so_far (Some p) h o ->
  (forall c, c ∈ mask_categories -> c ∉ cats -> get c o = meaning (name_of c) c) ->
  (forall c, c ∈ cats -> get c o = meaning base_name c) ->
  result_ok (fun c => meaning (name_of c) c)
    (newlocale_others newlocale freelocale mask_of getenv macosx cygwin default_name cats base_name orig (Some p) h).
Proof using NewLocaleLibrary0 Horig Hname.
  intros Hw. revert p h o. induction cats as [|c cats IH]; intros p h o Hnd Hin Hs Hdone Hbase; cbn [newlocale_others].
  - exists o. destruct Hs as [(Ho & -> & ->)|(b & [= <-] & -> & Hb)].
    + rewrite <- Ho. cbn. split_and!; [|by right|intros c Hc; apply Hdone; [done|apply not_elem_of_nil]].
      rewrite insert_delete_eq, insert_id; [done|]. by rewrite <- Ho in Horig.
    + split_and!; [done|by left|]. intros c Hc. apply Hdone; [done|apply not_elem_of_nil].
  - apply NoDup_cons in Hnd as [Hc Hnd]. assert (Hcat : c ∈ mask_categories) by apply Hin, list_elem_of_here.
    assert (Hin' : forall c', c' ∈ cats -> c' ∈ mask_categories) by (intros c' Hc'; apply Hin; by apply list_elem_of_further).
    fold name_of. destruct (Z.eqb_spec (strcmp (name_of c) base_name) 0) as [Hz|Hz]; cbn [negb].
    + apply (IH p h o); try done.
      * intros c' Hc' Hnc. destruct (decide (c' = c)) as [->|Hne]; [|apply Hdone; [done|by apply not_elem_of_cons]].
        apply strcmp_eq in Hz; [|apply Hname|done]. rewrite (Hbase c (list_elem_of_here _ _)). by rewrite <- Hz.
      * intros c' Hc'. apply Hbase. by apply list_elem_of_further.
    + destruct (newlocale (mask_of c) (Some (name_of c)) (Some p) h) as [[copy|] h'] eqn:E.
      * destruct (step_ok c (Some p) h o copy h' Hs Hcat E) as (o' & Hs' & Ho'). apply (IH copy h' o'); try done.
        -- intros c' Hc' Hnc. rewrite (Ho' c' Hc'). case_decide as Ec; [by subst c'|].
           apply Hdone; [done|]. by apply not_elem_of_cons.
        -- intros c' Hc'. assert (c' <> c) by (by intros ->). rewrite (Ho' c') by (by apply Hin'). rewrite decide_False by done.
           apply Hbase. by apply list_elem_of_further.
      * pose proof (nl_fail _ _ _ _ _ E) as ->. by apply (fail_ok _ (Some p) h o).
Qed.
End Steps.

(** Bits of the mask of all categories that are missing in a mask. *)
Lemma mask_has_all all mask m : Z.land all (Z.lnot mask) = 0 -> Z.land all m <> 0 -> Z.land mask m <> 0.
Proof.
  intros H Hm H0. apply Hm. apply Z.bits_inj_0. intros i. rewrite Z.land_spec.
  destruct (Z.testbit all i) eqn:Ea; [|done]. destruct (Z.testbit m i) eqn:Em; [|done].
  pose proof (f_equal (fun z => Z.testbit z i) H) as H1. cbn beta in H1. rewrite Z.land_spec, Ea in H1.
  destruct (Z.ltb_spec i 0) as [Hneg|Hpos]; [by rewrite Z.testbit_neg_r in Ea|].
  rewrite Z.lnot_spec, Z.bits_0 in H1 by done. cbn in H1. apply negb_false_iff in H1.
  pose proof (f_equal (fun z => Z.testbit z i) H0) as H2. cbn beta in H2. by rewrite Z.land_spec, H1, Em, Z.bits_0 in H2.
Qed.

Section Result.
Context {O : Type} (newlocale : Z -> option cstr -> option nat -> gmap nat O -> option nat * gmap nat O).
Context (freelocale : nat -> gmap nat O -> gmap nat O) (get : category -> O -> cstr) (posix : O) (meaning : cstr -> category -> cstr).
Context (mask_of : category -> Z) (LC_ALL_MASK : Z).

(** The default locale as an object.  For every C library that keeps the promises of POSIX, when newlocale() is asked for
    the default locale: every category of the mask has the locale that the environment names for it, though
    names that are equal are set in one call; every other category is that of the given object, or
    of the POSIX locale; the result is the only object that is new, and the given one is used up. If one of the
    calls fails and no object was given, the result is null and nothing is left over in the heap. *)
Theorem libintl_newlocale_default `{!NewLocaleLibrary newlocale freelocale get posix meaning mask_of LC_ALL_MASK}
    getenv macosx cygwin default_name category_mask base h o :
  (forall c, wf_cstr (name_for getenv macosx cygwin default_name c)) -> category_mask <> 0 -> object posix base h = Some o ->
  result_ok get base h
    (fun c => if Z.land category_mask (mask_of c) =? 0 then get c o else meaning (name_for getenv macosx cygwin default_name c) c)
    (libintl_newlocale newlocale freelocale mask_of LC_ALL_MASK getenv macosx cygwin default_name category_mask (Some []) base h).
Proof.
  intros Hname Hmask Hobj. unfold libintl_newlocale. rewrite (proj2 (Z.eqb_neq _ _) Hmask). cbn [negb andb]. rewrite bool_decide_true by done.
  destruct (Z.eqb_spec (Z.land LC_ALL_MASK (Z.lnot category_mask)) 0) as [Hall|Hall].
  - destruct (newlocale LC_ALL_MASK _ base h) as [[p|] h'] eqn:E; [|by pose proof (nl_fail _ _ _ _ _ E) as ->].
    destruct (nl_new _ _ _ _ _ _ _ Hobj E) as (o' & -> & Hp & Ho').
    pose proof (others_ok newlocale freelocale get posix meaning mask_of LC_ALL_MASK getenv macosx cygwin default_name Hname base h o Hobj
      (drop 1 mask_categories) (name_for getenv macosx cygwin default_name LC_CTYPE) p (<[p := o']> (without base h)) o' (Hname LC_CTYPE)) as Hok.
    assert (Hbase : forall c, c ∈ mask_categories -> get c o' = meaning (name_for getenv macosx cygwin default_name LC_CTYPE) c).
    { intros c Hc. rewrite (Ho' c Hc). by rewrite (proj2 (Z.eqb_neq _ _) (nl_all c Hc)). }
    assert (Hin : forall c, c ∈ drop 1 mask_categories -> c ∈ mask_categories) by (intros c Hc; by apply list_elem_of_further).
    destruct (newlocale_others _ _ _ _ _ _ _ _ _ _ _ _) as [r h1] eqn:Er. cbn in Hok.
    assert (Hres : result_ok get base h (fun c => meaning (name_for getenv macosx cygwin default_name c) c) (r, h1)).
    { apply Hok; [by apply (bool_decide_eq_true_1 _); vm_compute|exact Hin|right; by exists p| |].
      - intros c [->|Hc]%elem_of_cons Hn; [by apply Hbase, list_elem_of_here|done].
      - intros c Hc. by apply Hbase, Hin. }
    destruct r as [r|]; [|done]. destruct Hres as (o1 & H1 & H2 & H3). exists o1. split_and!; [done..|].
    intros c Hc. rewrite (H3 c Hc). rewrite (proj2 (Z.eqb_neq (Z.land category_mask (mask_of c)) 0)); [done|].
    by apply (mask_has_all LC_ALL_MASK); [|apply nl_all].
  - apply (some_ok newlocale freelocale get posix meaning mask_of LC_ALL_MASK getenv macosx cygwin default_name base h o Hobj _
      mask_categories category_mask base h o); try done.
    + by apply (bool_decide_eq_true_1 _); vm_compute.
    + by left.
Qed.
End Result.

(** ** A small C library *)

Definition toy_mask (c : category) : Z :=
  match c with
  | LC_CTYPE => 1 | LC_NUMERIC => 2 | LC_TIME => 4 | LC_COLLATE => 8 | LC_MONETARY => 16 | LC_MESSAGES => 32 | _ => 0
  end.

(** An address that is not used. *)
Definition new_address (h : gmap nat toy) : nat := S (foldr Nat.max 0%nat (elements (dom h))).

Lemma new_address_free h : h !! new_address h = None.
Proof.
  apply not_elem_of_dom. rewrite <- elem_of_elements. unfold new_address.
  assert (H : forall l p, p ∈ l -> (p <= foldr Nat.max 0 l)%nat).
  { induction l as [|x l IH]; intros p Hp; [by apply not_elem_of_nil in Hp|]. apply elem_of_cons in Hp as [->|Hp]; cbn; [lia|].
    pose proof (IH p Hp). lia. }
  intros Hp. pose proof (H _ _ Hp). lia.
Qed.

(** newlocale() that makes a new object and frees the one it gets. *)
Definition toy_newlocale (mask : Z) (locale : option cstr) (base : option nat) (h : gmap nat toy) : option nat * gmap nat toy :=
  match locale ≫= toy_known, object (toy_all false) base h with
  | Some b, Some (Toy b1 b2 b3 b4 b5 b6) =>
      let put c old := if Z.land mask (toy_mask c) =? 0 then old else b in
      let o := Toy (put LC_CTYPE b1) (put LC_NUMERIC b2) (put LC_TIME b3) (put LC_COLLATE b4) (put LC_MONETARY b5) (put LC_MESSAGES b6) in
      let p := new_address h in
      (Some p, <[p := o]> (without base h))
  | _, _ => (None, h)
  end.

Lemma masked c : c ∈ mask_categories -> match c with LC_ALL | LC_other _ => False | _ => True end.
Proof. intros Hc. destruct c; try done; apply list_elem_of_In in Hc; cbn in Hc; intuition discriminate. Qed.

#[export] Instance toy_newlocale_library :
  NewLocaleLibrary toy_newlocale delete toy_get (toy_all false) toy_meaning toy_mask 63.
Proof.
  split.
  - intros mask name base h o p h' Ho E. unfold toy_newlocale in E. cbn [mbind option_bind] in E. rewrite Ho in E.
    destruct (toy_known name) as [b|] eqn:Ek; [|done]. destruct o as [b1 b2 b3 b4 b5 b6]. injection E as <- <-.
    eexists. split; [reflexivity|]. split.
    + pose proof (new_address_free h) as Hf. destruct base as [b0|]; cbn; [|done]. by apply lookup_delete_None; right.
    + intros c Hc. rewrite (toy_known_name _ _ Ek). by destruct c; cbn; try done; case_match.
  - intros mask name base h h' E. unfold toy_newlocale in E. repeat case_match; simplify_eq; done.
  - done.
  - intros c c' Hc%masked Hc'%masked. by destruct c, c'; try done; split; vm_compute; congruence.
  - intros c Hc%masked. by destruct c.
Qed.

Definition mixed_env (name : cstr) : option cstr :=
  if decide (name = cs "LANG") then Some (cs "German_Germany") else if decide (name = cs "LC_TIME") then Some (cs "C") else None.

Definition mixed_newlocale : option nat * gmap nat toy :=
  libintl_newlocale toy_newlocale delete toy_mask 63 mixed_env false false (cs "C") 63 (Some []) None ∅.

Example mixed_newlocale_ok : mixed_newlocale = (Some 2%nat, {[ 2%nat := Toy true true false true true true ]}).
Proof. by vm_compute. Qed.

Lemma libintl_newlocale_default_witness :
  result_ok toy_get None ∅
    (fun c => if Z.land 63 (toy_mask c) =? 0 then toy_get c (toy_all false) else toy_meaning (name_for mixed_env false false (cs "C") c) c)
    mixed_newlocale.
Proof.
  apply (libintl_newlocale_default toy_newlocale delete toy_get (toy_all false) toy_meaning toy_mask 63
    mixed_env false false (cs "C") 63 None ∅ (toy_all false)); [|done|done].
  intros c. by destruct c; apply (bool_decide_eq_true_1 _); vm_compute.
Defined.

(** If an object was given, a call can fail after it was used up: it is gone, and a new one is left that
    nobody knows.  Here LC_NUMERIC has a name that is not known. *)
Definition broken_env (name : cstr) : option cstr := if decide (name = cs "LC_NUMERIC") then Some (cs "xx") else Some (cs "C").

Lemma newlocale_failure_frees_base :
  exists o, libintl_newlocale toy_newlocale delete toy_mask 63 (fun v => if decide (v = cs "LC_ALL") then None else broken_env v)
    false false (cs "C") 63 (Some []) (Some 5%nat) {[ 5%nat := toy_all true ]} = (None, {[ 6%nat := o ]}).
Proof. eexists. by vm_compute. Qed.
