(* ===== verification/LangPrefs.v ===== *)
(** * The language preferences of the user: langprefs.c

    On Mac OS X and on Windows the user has a list of preferred languages; it is turned
    into a list of locale names with colons.  [None] is a crash: an access outside a
    buffer.  The values that come from the operating system are arguments. *)

From S2P Require Import Prelude LocalePlatform.

Open Scope Z_scope.

(** ** Mac OS X *)

(** CFStringGetCString() into [buf], which has 256 bytes; [None]: the element is not a string, or not in ASCII. *)
Definition get_element (element : option cstr) (buf : list Z) : option (list Z) :=
  s ← element;
  if (length s <? 256)%nat then Some (s ++ 0 :: drop (S (length s)) buf) else None.

(** The first loop: the size of the list. *)
Fixpoint measure_languages (elements : list (option cstr)) (buf : list Z) (size : nat) : option (nat * list Z) :=
  match elements with
  | [] => Some (size, buf)
  | element :: elements =>
      match get_element element buf with
      | None => Some (size, buf)
      | Some buf =>
          buf ← gl_locale_name_canonicalize buf;
          let size := (size + length (c_string buf) + 1)%nat in
          if strcmp (c_string buf) (cs "en") =? 0 then Some (size, buf) else measure_languages elements buf size
      end
  end.

(** The second loop: [p] is the place in [languages]. *)
Fixpoint write_languages (elements : list (option cstr)) (buf languages : list Z) (p : nat) : option (list Z * nat) :=
  match elements with
  | [] => Some (languages, p)
  | element :: elements =>
      match get_element element buf with
      | None => Some (languages, p)
      | Some buf =>
          buf ← gl_locale_name_canonicalize buf;
          languages ← strcpy languages p (c_string buf);
          let p := (p + length (c_string buf))%nat in
          let languages := <[p := chr ":"]> languages in
          let p := S p in
          if strcmp (c_string buf) (cs "en") =? 0 then Some (languages, p) else write_languages elements buf languages p
      end
  end.

(** The preferences of the user, [None] if there is no array; [buf] and [junk] are what is in the memory. *)
Definition macosx_languages (prefArray : option (list (option cstr))) (buf : list Z) (junk : Z) (mal : bool) : option (option cstr) :=
  match prefArray with
  | None => Some None
  | Some elements =>
      '(size, buf) ← measure_languages elements buf 0;
      if (0 <? size)%nat && mal then
        '(languages, p) ← write_languages elements buf (replicate size junk) 0;
        match p with
        | O => None
        | S p => if (p <? length languages)%nat then Some (Some (c_string (<[p := 0]> languages))) else None
        end
      else Some None
  end.

(** [cached_languages] and [cache_initialized]. *)
Definition macosx_preferences (prefArray : option (list (option cstr))) (buf : list Z) (junk : Z) (mal : bool)
    (cache : option cstr * bool) : option (option cstr * (option cstr * bool)) :=
  let '(cached_languages, cache_initialized) := cache in
  if cache_initialized : bool then Some (cached_languages, cache)
  else languages ← macosx_languages prefArray buf junk mal; Some (languages, (languages, true)).

(** ** Windows *)

(** The loop over a name: [false] if a character makes it stop.  [p] is the rest of the buffer. *)
Fixpoint copy_name (p languages : list Z) (q : nat) : option (bool * list Z * list Z * nat) :=
  match p with
  | [] => None
  | c :: rest =>
      if c =? 0 then Some (true, p, languages, q)
      else if (256 <=? c) || (c =? chr ":") then Some (false, p, languages, q)
      else if (q <? length languages)%nat then copy_name rest (<[q := c]> languages) (S q) else None
  end.

(** [*q = c;] *)
Definition put (languages : list Z) (q : nat) (c : Z) : option (list Z) :=
  if (q <? length languages)%nat then Some (<[q := c]> languages) else None.

(** The loop over the languages; [n] to go. *)
Fixpoint copy_names (first : bool) (n : nat) (p languages : list Z) (q : nat) : option (list Z * nat) :=
  match n with
  | O => Some (languages, q)
  | S n =>
      let q1 := q in
      '(languages, q) ← (if first then Some (languages, q) else languages ← put languages q (chr ":"); Some (languages, S q));
      let q2 := q in
      '(ok, p, languages, q) ← copy_name p languages q;
      let q := if (ok : bool) then q else q1 in
      if (q =? q1)%nat then Some (languages, q)
      else
        languages ← put languages q 0;
        name ← windows_canonicalize (drop q2 languages);
        copy_names false n (drop 1 p) (take q2 languages ++ name) (q2 + length (c_string name))%nat
  end.

(** [buffer] is what GetUserPreferredUILanguages() returns. *)
Definition mui_languages (buffer : list Z) (num_languages : nat) (junk : Z) (mal : bool) : option (option cstr) :=
  if mal then
    '(languages, q) ← copy_names true num_languages buffer (replicate (length buffer + num_languages * 10 + 1) junk) 0;
    languages ← put languages q 0;
    Some (if (0 <? q)%nat then Some (c_string languages) else None)
  else Some None.

(** The sources of Windows, in order, if GETTEXT_MUI is set. *)
Definition windows_preferences (gettext_mui kernel32 : bool) (mui me system : option cstr) (w95 : option cstr)
    (cache : option cstr * bool) : option cstr * (option cstr * bool) :=
  let '(cached_languages, cache_initialized) := cache in
  let cache :=
    if negb cache_initialized && gettext_mui then
      let languages := if kernel32 then mui else None in
      let languages := match languages with None => if kernel32 then me else None | _ => languages end in
      let languages := match languages with None => w95 | _ => languages end in
      let languages := match languages with None => if kernel32 then system else None | _ => languages end in
      (languages, true)
    else cache in
  (cache.1, cache).
