(* ===== verification/LangPrefsSpec.v ===== *)
(** * The list of languages

    [join] is the list with colons.  The two loops over the preferences agree on the size, and no
    byte outside the memory is written. *)

From S2P Require Import Prelude LocalePlatform LocalePlatformSpec LangPrefs.

Open Scope Z_scope.

(** The names with a colon between them. *)
Fixpoint join (names : list cstr) : cstr :=
  match names with
  | [] => []
  | [s] => s
  | s :: names => s ++ chr ":" :: join names
  end.

(** The names with a colon after each. *)
Definition with_colons (names : list cstr) : cstr := concat ((fun s => s ++ [chr ":"]) <$> names).

Lemma with_colons_cons s names : with_colons (s :: names) = s ++ chr ":" :: with_colons names.
Proof. unfold with_colons. cbn. by rewrite <- app_assoc. Qed.

Lemma with_colons_join names : names <> [] -> with_colons names = join names ++ [chr ":"].
Proof.
  induction names as [|s names IH]; [done|]. intros _. rewrite with_colons_cons. destruct names as [|s' names]; [done|].
  rewrite IH by done. cbn [join]. by rewrite <- app_assoc.
Qed.

(** ** Mac OS X *)

(** The locale names of the preferences: up to the first that is not a short string in ASCII, and up to English. *)
Fixpoint preferred (elements : list (option cstr)) : list cstr :=
  match elements with
  | Some s :: elements =>
      if decide (length s < 256)%nat then
        canonical s :: if decide (canonical s = cs "en") then [] else preferred elements
      else []
  | _ => []
  end.

Definition elements_ok (elements : list (option cstr)) : Prop := Forall (fun e => forall s, e = Some s -> wf_cstr s) elements.

Lemma canonical_wf s : wf_cstr s -> wf_cstr (canonical s).
Proof.
  intros Hs. unfold canonical. destruct (assoc s legacy_table) as [u|] eqn:E1; [by apply (legacy_value s)|].
  destruct (assoc s langtag_table) as [u|] eqn:E2; [by apply (langtag_value s)|].
  assert (Hplain : wf_cstr (map undash s)).
  { unfold wf_cstr in *. rewrite Forall_map. apply (Forall_impl _ _ _ Hs). intros c Hc. unfold undash.
    destruct (c =? chr "-"); [|done]. by change (0 < 95 < 256). }
  destruct (is_dashed s); [|done]. destruct (assoc (drop 3 s) script_table) as [u|] eqn:E3; [|done].
  apply wf_cstr_app. split; [by apply Forall_take|]. apply wf_cstr_cons. split; [by change (0 < 64 < 256)|]. by apply (script_value _ u E3).
Qed.

(** An element in the buffer. *)
Lemma element_ok s buf : wf_cstr s -> length buf = 256%nat -> (length s < 256)%nat ->
  exists buf', gl_locale_name_canonicalize (s ++ 0 :: drop (S (length s)) buf) = Some buf' /\ length buf' = 256%nat /\
    c_string buf' = canonical s.
Proof.
  intros Hs Hb Hlt. assert (Hlen : length (s ++ 0 :: drop (S (length s)) buf) = 256%nat).
  { rewrite length_app. cbn [length]. rewrite length_drop. lia. }
  destruct (canonicalize_ok s (drop (S (length s)) buf) Hs) as (name & E & Hl & rest & Hn); [rewrite length_drop; lia|].
  exists name. split; [done|]. split; [lia|]. rewrite Hn. apply c_string_at. by apply canonical_wf.
Qed.

Lemma en_ok s : wf_cstr s -> (strcmp s (cs "en") =? 0) = bool_decide (s = cs "en").
Proof.
  intros Hs. case_bool_decide as E; [apply Z.eqb_eq|apply Z.eqb_neq]; rewrite strcmp_eq; try done;
    by apply (bool_decide_eq_true_1 _); vm_compute.
Qed.

Lemma measure_ok elements buf size : elements_ok elements -> length buf = 256%nat ->
  exists buf', measure_languages elements buf size = Some ((size + length (with_colons (preferred elements)))%nat, buf') /\ length buf' = 256%nat.
Proof.
  intros Hok. revert buf size. induction Hok as [|e elements He Hok IH]; intros buf size Hb; cbn [measure_languages preferred].
  { exists buf. by rewrite Nat.add_0_r. }
  destruct e as [s|]; cbn [get_element mbind option_bind]; [|exists buf; by rewrite Nat.add_0_r].
  destruct (decide (length s < 256)%nat) as [Hlt|Hge].
  - rewrite (proj2 (Nat.ltb_lt _ _)) by done. destruct (element_ok s buf (He s eq_refl) Hb Hlt) as (buf1 & E & Hl & Hc).
    rewrite E. cbn [mbind option_bind]. rewrite Hc, en_ok by (by apply canonical_wf, He).
    rewrite with_colons_cons, length_app. cbn [length]. case_bool_decide as Een.
    + rewrite decide_True by done. exists buf1. split; [|done]. f_equal. f_equal. cbn. lia.
    + rewrite decide_False by done. destruct (IH buf1 (size + length (canonical s) + 1)%nat Hl) as (buf' & -> & Hl').
      exists buf'. split; [|done]. f_equal. f_equal. lia.
  - rewrite (proj2 (Nat.ltb_ge _ _)) by lia. exists buf. by rewrite Nat.add_0_r.
Qed.

Lemma write_ok elements buf pre post : elements_ok elements -> length buf = 256%nat ->
  length post = length (with_colons (preferred elements)) ->
  write_languages elements buf (pre ++ post) (length pre) =
    Some (pre ++ with_colons (preferred elements), (length pre + length post)%nat).
Proof.
  intros Hok. revert buf pre post. induction Hok as [|e elements He Hok IH]; intros buf pre post Hb Hp; cbn [write_languages preferred] in *.
  { destruct post; [|done]. by rewrite Nat.add_0_r. }
  destruct e as [s|]; cbn [get_element mbind option_bind]; [|destruct post; [|done]; by rewrite Nat.add_0_r].
  destruct (decide (length s < 256)%nat) as [Hlt|Hge].
  - rewrite (proj2 (Nat.ltb_lt _ _)) by done. destruct (element_ok s buf (He s eq_refl) Hb Hlt) as (buf1 & E & Hl & Hc).
    rewrite E. cbn [mbind option_bind]. rewrite Hc, en_ok by (by apply canonical_wf, He). set (w := canonical s) in *.
    rewrite with_colons_cons, length_app in Hp. cbn [length] in Hp.
    set (post' := drop (S (length w)) post).
    assert (Hstr : strcpy (pre ++ post) (length pre) w = Some (pre ++ w ++ 0 :: post')).
    { unfold strcpy. rewrite length_app, (proj2 (Nat.ltb_lt _ _)) by lia. rewrite take_app_length. f_equal. f_equal. f_equal. f_equal.
      unfold post'. replace (length pre + length w + 1)%nat with (length pre + S (length w))%nat by lia.
      by rewrite <- drop_drop, drop_app_length. }
    rewrite Hstr. cbn [mbind option_bind]. rewrite <- length_app.
    assert (Hins : <[length (pre ++ w) := chr ":"]> (pre ++ w ++ 0 :: post') = (pre ++ w ++ [chr ":"]) ++ post').
    { rewrite app_assoc, insert_app_r_alt by lia. rewrite Nat.sub_diag. cbn. by rewrite <- !app_assoc. }
    rewrite Hins. replace (S (length (pre ++ w))) with (length (pre ++ w ++ [chr ":"])) by (rewrite !length_app; cbn; lia).
    assert (Hp' : length post' = (length post - S (length w))%nat) by (unfold post'; apply length_drop).
    rewrite with_colons_cons. case_bool_decide as Een.
    + rewrite decide_True in * by done. cbn [with_colons fmap list_fmap concat length] in *. destruct post'; [|cbn in Hp'; lia].
      rewrite app_nil_r. f_equal. f_equal. rewrite !length_app. cbn. lia.
    + rewrite decide_False in * by done. rewrite (IH buf1 (pre ++ w ++ [chr ":"]) post') by (done || lia).
      f_equal. f_equal; [by rewrite <- !app_assoc|]. rewrite !length_app. cbn. lia.
  - rewrite (proj2 (Nat.ltb_ge _ _)) by lia. destruct post; [|done]. by rewrite Nat.add_0_r.
Qed.

(** ** Windows *)

Definition name_ok (s : cstr) : Prop := wf_cstr s /\ s <> [] /\ chr ":" ∉ s.

(** The buffer of the system: names with a NUL after each, and a NUL. *)
Definition wide_names (names : list cstr) : list Z := concat ((fun s => s ++ [0]) <$> names) ++ [0].

Lemma wide_cons s names : wide_names (s :: names) = s ++ 0 :: wide_names names.
Proof. unfold wide_names. cbn. by rewrite <- !app_assoc. Qed.

Lemma put_ok pre x post c : put (pre ++ x :: post) (length pre) c = Some (pre ++ c :: post).
Proof.
  unfold put. rewrite length_app, (proj2 (Nat.ltb_lt _ _)) by (cbn; lia). rewrite insert_app_r_alt by lia. by rewrite Nat.sub_diag.
Qed.

Lemma copy_name_ok s rest pre mid post : wf_cstr s -> chr ":" ∉ s -> length mid = length s ->
  copy_name (s ++ 0 :: rest) (pre ++ mid ++ post) (length pre) = Some (true, 0 :: rest, pre ++ s ++ post, (length pre + length s)%nat).
Proof.
  intros Hs Hc. revert pre mid. induction Hs as [|c s Hr Hs IH]; intros pre mid Hm.
  - destruct mid; [|done]. cbn. by rewrite Nat.add_0_r.
  - apply not_elem_of_cons in Hc as [Hne Hc]. destruct mid as [|x mid]; [done|]. cbn [app copy_name].
    rewrite (proj2 (Z.eqb_neq c 0)) by lia. rewrite (proj2 (Z.leb_gt 256 c)) by lia. rewrite (proj2 (Z.eqb_neq c (chr ":"))) by congruence.
    cbn [orb]. rewrite length_app, (proj2 (Nat.ltb_lt _ _)) by (cbn; lia).
    rewrite insert_app_r_alt, Nat.sub_diag by lia. cbn [insert list_insert].
    replace (pre ++ c :: mid ++ post) with ((pre ++ [c]) ++ mid ++ post) by (by rewrite <- app_assoc).
    replace (S (length pre)) with (length (pre ++ [c])) by (rewrite length_app; cbn; lia).
    rewrite IH by (done || (cbn in Hm; lia)). f_equal. rewrite <- app_assoc, length_app. cbn. f_equal. lia.
Qed.

Lemma windows_canonical_wf s : wf_cstr s -> wf_cstr (windows_canonical s) /\ (length (windows_canonical s) <= length s)%nat.
Proof.
  intros Hs. unfold windows_canonical.
  assert (Hup : forall t, wf_cstr t -> wf_cstr (map to_upper t)).
  { intros t Ht. unfold wf_cstr in *. rewrite Forall_map. apply (Forall_impl _ _ _ Ht). intros c. apply to_upper_range. }
  destruct (split_on_cases (chr "-") s) as [Hd|(l & t & -> & Hd)]; [by rewrite split_on_last|].
  rewrite split_on_app by done. apply wf_cstr_app in Hs as [Hl [_ Ht]%wf_cstr_cons].
  assert (Hgo : forall territory, wf_cstr territory -> (length territory <= length t)%nat ->
    wf_cstr (l ++ chr "_" :: map to_upper territory) /\ (length (l ++ chr "_" :: map to_upper territory) <= length (l ++ chr "-" :: t))%nat).
  { intros territory Hw Hle. rewrite wf_cstr_app, wf_cstr_cons, !length_app. cbn [length]. rewrite length_map.
    split_and!; [done|by vm_compute|by vm_compute|by apply Hup|lia]. }
  destruct (split_on_cases (chr "-") t) as [Hdt|(t1 & t2 & -> & Hdt)].
  - rewrite split_on_last by done. by apply Hgo.
  - rewrite split_on_app by done. apply wf_cstr_app in Ht as [Ht1 _]. apply Hgo; [done|]. rewrite length_app. lia.
Qed.

Lemma windows_canonical_nonempty s : s <> [] -> windows_canonical s <> [].
Proof. unfold windows_canonical. intros H. destruct (split_on (chr "-") s) as [|l [|t r]]; [done..|]. by destruct l. Qed.

(** The bytes that are needed for the names. *)
Definition room (names : list cstr) : nat := length (wide_names names).

(** One name, at its place. *)
Lemma one_name s names pre post : name_ok s -> (room (s :: names) <= length post)%nat ->
  exists languages1 q languages2 name post',
    copy_name (wide_names (s :: names)) (pre ++ post) (length pre) = Some (true, 0 :: wide_names names, languages1, q) /\
    q = (length pre + length s)%nat /\ put languages1 q 0 = Some languages2 /\
    windows_canonicalize (drop (length pre) languages2) = Some name /\ c_string name = windows_canonical s /\
    take (length pre) languages2 ++ name = (pre ++ windows_canonical s) ++ post' /\ (length post <= length post' + length s)%nat.
Proof.
  intros (Hs & Hne & Hc) Hroom. unfold room in *. rewrite wide_cons in *. rewrite length_app in Hroom. cbn [length] in Hroom.
  set (mid := take (length s) post). set (post1 := drop (length s) post).
  assert (Hp : post = mid ++ post1) by (unfold mid, post1; by rewrite take_drop).
  assert (Hmid : length mid = length s) by (unfold mid; rewrite length_take; lia).
  assert (Hpost1 : (S (length (wide_names names)) <= length post1)%nat) by (unfold post1; rewrite length_drop; lia).
  clearbody mid post1. subst post. destruct post1 as [|x post2]; [cbn in Hpost1; lia|].
  destruct (windows_canonicalize_ok s post2 Hs) as (name & E & Hl & rest & Hn).
  destruct (windows_canonical_wf s Hs) as [Hw Hle].
  exists (pre ++ s ++ x :: post2), (length pre + length s)%nat, (pre ++ s ++ 0 :: post2), name, (0 :: rest).
  split_and!; [by apply copy_name_ok|done| | | | |].
  - rewrite <- length_app. rewrite !app_assoc. apply put_ok.
  - by rewrite drop_app_length.
  - rewrite Hn. by apply c_string_at.
  - rewrite take_app_length, Hn. by rewrite <- app_assoc.
  - rewrite Hn, !length_app in Hl. rewrite length_app. cbn [length] in *. lia.
Qed.

Lemma copy_names_ok names pre post : Forall name_ok names -> (room names + length names <= length post)%nat ->
  exists post', copy_names false (length names) (wide_names names) (pre ++ post) (length pre) =
    Some ((pre ++ concat ((fun s => chr ":" :: windows_canonical s) <$> names)) ++ post',
          length (pre ++ concat ((fun s => chr ":" :: windows_canonical s) <$> names))) /\ (0 < length post')%nat.
Proof.
  intros Hok. revert pre post. induction Hok as [|s names Hs Hok IH]; intros pre post Hroom; cbn [length copy_names].
  - exists post. cbn. rewrite app_nil_r. split; [done|]. unfold room, wide_names in Hroom. cbn in Hroom. lia.
  - destruct post as [|x post]; [cbn in Hroom; lia|]. rewrite put_ok. cbn [mbind option_bind]. cbn [length] in Hroom.
    replace (pre ++ chr ":" :: post) with ((pre ++ [chr ":"]) ++ post) by (by rewrite <- app_assoc).
    replace (S (length pre)) with (length (pre ++ [chr ":"])) by (rewrite length_app; cbn; lia).
    assert (Hr1 : (room (s :: names) <= length post)%nat) by lia.
    destruct (one_name s names (pre ++ [chr ":"]) post Hs Hr1) as (l1 & q & l2 & name & post' & E1 & -> & E2 & E3 & E4 & E5 & Hr).
    rewrite E1. cbn [mbind option_bind]. rewrite (proj2 (Nat.eqb_neq _ _)) by (rewrite length_app; cbn; lia).
    rewrite E2. cbn [mbind option_bind]. rewrite E3. cbn [mbind option_bind]. rewrite E4, E5. cbn [drop]. rewrite drop_0.
    replace (length (pre ++ [chr ":"]) + length (windows_canonical s))%nat with (length ((pre ++ [chr ":"]) ++ windows_canonical s)) by by rewrite length_app.
    destruct (IH ((pre ++ [chr ":"]) ++ windows_canonical s) post') as (post'' & E & Hpos).
    { unfold room in *. rewrite wide_cons, length_app in Hroom. cbn [length] in *. lia. }
    rewrite E. exists post''. split; [|done]. cbn [fmap list_fmap concat]. rewrite <- !app_assoc. done.
Qed.

Lemma join_colons s names : join (s :: names) = s ++ concat ((fun s => chr ":" :: s) <$> names).
Proof.
  revert s. induction names as [|s' names IH]; intros s; [cbn; by rewrite app_nil_r|].
  change (join (s :: s' :: names)) with (s ++ chr ":" :: join (s' :: names)). by rewrite IH.
Qed.

Lemma colons_map names :
  concat ((fun s => chr ":" :: s) <$> (windows_canonical <$> names)) = concat ((fun s => chr ":" :: windows_canonical s) <$> names).
Proof. induction names as [|s names IH]; [done|]. cbn. f_equal. f_equal. exact IH. Qed.

(** ** Theorems *)

(** The preferences of Mac OS X.  The list of locale names has the Unix names of the preferred languages, in order,
    up to English, for which programs need no catalog, or to the first that is not an ASCII string of at most 255 bytes; both
    loops stay inside the buffer and the memory that the first has measured, and the list is computed once. *)
Theorem macosx_preferences_correct elements buf junk (mal : bool) : elements_ok elements -> length buf = 256%nat ->
  let languages := if decide (preferred elements = []) then @None cstr else if mal then Some (join (preferred elements)) else None in
  macosx_preferences (Some elements) buf junk mal (None, false) = Some (languages, (languages, true)) /\
  forall prefArray' buf' mal', macosx_preferences prefArray' buf' junk mal' (languages, true) = Some (languages, (languages, true)).
Proof.
  intros Hok Hb. cbn zeta. split; [|done]. unfold macosx_preferences, macosx_languages.
  destruct (measure_ok elements buf 0 Hok Hb) as (buf1 & -> & Hb1). cbn [mbind option_bind]. rewrite Nat.add_0_l.
  set (n := length (with_colons (preferred elements))).
  destruct (decide (preferred elements = [])) as [E|E].
  { unfold n. rewrite E. done. }
  assert (Hn : n = S (length (join (preferred elements)))) by (unfold n; rewrite with_colons_join, length_app by done; cbn; lia).
  rewrite (proj2 (Nat.ltb_lt 0 n)) by lia. destruct mal; [|done]. cbn [andb].
  pose proof (write_ok elements buf1 [] (replicate n junk) Hok Hb1) as Hw. rewrite length_replicate in Hw. specialize (Hw eq_refl).
  cbn [app length] in Hw. rewrite Hw. cbn [mbind option_bind]. rewrite Nat.add_0_l, Hn.
  rewrite with_colons_join by done. rewrite length_app, (proj2 (Nat.ltb_lt _ _)) by (cbn; lia). cbn [mbind option_bind].
  rewrite insert_app_r_alt, Nat.sub_diag by lia. cbn [insert list_insert]. rewrite c_string_at; [done|].
  clear -Hok. assert (Hall : Forall wf_cstr (preferred elements)).
  { induction Hok as [|[s|] l Hs _ IH]; cbn [preferred]; try constructor. case_decide; [|constructor].
    constructor; [by apply canonical_wf, Hs|]. case_decide; [constructor|done]. }
  revert Hall. generalize (preferred elements). induction 1 as [|s l Hs Hl IH]; [constructor|]. rewrite join_colons.
  apply wf_cstr_app. split; [done|]. clear IH. induction Hl as [|s' l Hs' Hl IH]; cbn; [constructor|].
  apply wf_cstr_cons. split; [by vm_compute|]. by apply wf_cstr_app.
Qed.

Lemma macosx_preferences_correct_witness :
  macosx_preferences (Some [Some (cs "German"); Some (cs "zh-Hant"); Some (cs "en"); Some (cs "fr")]) (replicate 256 7) 7 true (None, false) =
    Some (Some (cs "de:zh_TW:en"), (Some (cs "de:zh_TW:en"), true)).
Proof.
  refine (proj1 (macosx_preferences_correct [Some (cs "German"); Some (cs "zh-Hant"); Some (cs "en"); Some (cs "fr")] (replicate 256 7) 7 true _ eq_refl)).
  repeat constructor; intros s [= <-]; by apply (bool_decide_eq_true_1 _); vm_compute.
Defined.

(** The preferences of Windows: for any list of names with no colon, the locale names are the Unix names with colons
    between them, and the memory is large enough for every step. *)
Theorem mui_languages_correct names junk : Forall name_ok names -> names <> [] ->
  mui_languages (wide_names names) (length names) junk true = Some (Some (join (windows_canonical <$> names))).
Proof.
  intros Hok Hne. unfold mui_languages. destruct Hok as [|s names Hs Hok]; [done|]. clear Hne.
  set (post := replicate _ junk).
  assert (Hpost : length post = (room (s :: names) + length (s :: names) * 10 + 1)%nat) by (unfold post; by rewrite length_replicate).
  clearbody post. cbn [length copy_names].
  destruct (one_name s names [] post Hs ltac:(lia)) as (l1 & q & l2 & name & post' & E1 & -> & E2 & E3 & E4 & E5 & Hr).
  cbn [app length Nat.add] in *. cbn [mbind option_bind]. rewrite E1. cbn [mbind option_bind].
  assert (Hlen : (length s <> 0)%nat) by (destruct Hs as (_ & Hn & _); by destruct s).
  rewrite (proj2 (Nat.eqb_neq _ _)) by done. rewrite E2. cbn [mbind option_bind]. rewrite E3. cbn [mbind option_bind]. rewrite E4, E5.
  cbn [drop]. rewrite drop_0. destruct (copy_names_ok names (windows_canonical s) post' Hok) as (post'' & E & Hpos).
  { unfold room in *. rewrite wide_cons, length_app in Hpost. cbn [length] in *. lia. }
  rewrite Nat.add_0_l, E. cbn [mbind option_bind]. set (text := windows_canonical s ++ concat _) in *. destruct post'' as [|x post'']; [cbn in Hpos; lia|].
  rewrite put_ok. cbn [mbind option_bind].
  assert (Htext : text = join (windows_canonical <$> s :: names)).
  { change (windows_canonical <$> s :: names) with (windows_canonical s :: (windows_canonical <$> names)).
    by rewrite join_colons, colons_map. }
  assert (Hw : wf_cstr text).
  { unfold text. destruct Hs as (Hs & _). apply wf_cstr_app. split; [by apply windows_canonical_wf|]. clear -Hok.
    induction Hok as [|s' l (Hs' & _) _ IH]; cbn; [constructor|]. apply wf_cstr_cons. split; [by vm_compute|].
    apply wf_cstr_app. split; [by apply windows_canonical_wf|done]. }
  rewrite c_string_at by done. rewrite (proj2 (Nat.ltb_lt 0 (length text))), Htext; [done|].
  unfold text. rewrite length_app. pose proof (windows_canonical_nonempty s) as Hn. destruct Hs as (_ & Hs & _).
  destruct (windows_canonical s); [by destruct (Hn Hs)|cbn; lia].
Qed.

Lemma mui_languages_correct_witness :
  mui_languages (wide_names [cs "de-de"; cs "zh-hant-TW"; cs "en"]) 3 7 true = Some (Some (cs "de_DE:zh_HANT:en")).
Proof.
  apply (mui_languages_correct [cs "de-de"; cs "zh-hant-TW"; cs "en"] 7); [|done].
  repeat constructor; try done; by apply (bool_decide_eq_true_1 _); vm_compute.
Defined.
