(* ===== verification/Struniq.v ===== *)
(** * The pool of locale names: struniq() of localename.c

    A hash table of strings that several threads use: it is read without a lock, and
    nodes are only added, at the head of a chain and under a lock.  The threads take turns at
    every access to a shared variable; a program counter says where a thread is. *)

From stdpp Require Import relations.
From S2P Require Import Prelude Lock.

Open Scope Z_scope.

Definition SIZE_BITS : Z := 64.
Definition HASH_TABLE_SIZE : Z := 257.

(** A [char] is signed. *)
Definition signed_char (c : Z) : Z := if c <? 128 then c else c - 256.

(** One round of the loop of [string_hash]. *)
Definition string_hash_step (h c : Z) : Z :=
  wrapw SIZE_BITS (signed_char c + Z.lor (wrapw SIZE_BITS (Z.shiftl h 9)) (Z.shiftr h (SIZE_BITS - 9))).

Definition string_hash (s : cstr) : Z := fold_left string_hash_step s 0.

Definition slot_of (s : cstr) : nat := Z.to_nat (string_hash s mod HASH_TABLE_SIZE).

(** [struct hash_node]; a pointer is the number of the allocation. *)
Record hash_node := HashNode { next : option nat; contents : cstr }.

(** Where a thread is in [struniq (s)]: outside, with its result if it has one ([None] is
    the static string "C"); at node [p] of the chain; before malloc(); with a new
    node [n], before it takes the lock; at node [p] of the second search; before it sets
    [next], before it sets the head of the chain; before it releases the lock. *)
Inductive uniq_pc :=
  | UOut | UReturned (s : cstr) (r : option nat)
  | UScan (s : cstr) (p : option nat) | UAlloc (s : cstr)
  | ULock (s : cstr) (n : nat) | UScan2 (s : cstr) (n : nat) (p : option nat)
  | ULink (s : cstr) (n : nat) | UPublish (s : cstr) (n : nat) | UUnlock (s : cstr) (r : nat).

(** [struniq_hash_table], the nodes, the next number, the thread that has [struniq_lock]. *)
Record uniq_system := UniqSystem {
  slots : list (option nat);
  nodes : gmap nat hash_node;
  allocated : nat;
  struniq_lock : option nat;
  upcs : list uniq_pc
}.

Definition uniq_start (n : nat) : uniq_system :=
  UniqSystem (replicate (Z.to_nat HASH_TABLE_SIZE) None) ∅ 0 None (replicate n UOut).

Definition ugoto (s : uniq_system) (i : nat) (pc : uniq_pc) : uniq_system :=
  UniqSystem (slots s) (nodes s) (allocated s) (struniq_lock s) (<[i := pc]> (upcs s)).

(** A round of [for (p = struniq_hash_table[slot]; p != NULL; p = p->next)]. *)
Definition uniq_scan (s : uniq_system) (i : nat) (p : option nat) (string : cstr)
    (found : nat -> outcome uniq_system) (go_on : option nat -> uniq_pc) (not_found : uniq_pc) : outcome uniq_system :=
  match p with
  | None => Done (ugoto s i not_found)
  | Some p =>
      match nodes s !! p with
      | None => Crash
      | Some node => if strcmp (contents node) string =? 0 then found p else Done (ugoto s i (go_on (next node)))
      end
  end.

(** What a thread outside asks for, and the outcome of malloc(), with what was in the
    memory. *)
Record uniq_input := UniqInput { string : cstr; u_mal : bool; junk : hash_node }.

(** The next step of thread [i]. *)
Definition uniq_exec (s : uniq_system) (i : nat) (inp : uniq_input) : outcome uniq_system :=
  match upcs s !! i with
  | None => Blocked
  | Some UOut | Some (UReturned _ _) =>
      match slots s !! slot_of (string inp) with
      | None => Crash
      | Some p => Done (ugoto s i (UScan (string inp) p))
      end
  | Some (UScan str p) =>
      uniq_scan s i p str (fun p => Done (ugoto s i (UReturned str (Some p)))) (UScan str) (UAlloc str)
  | Some (UAlloc str) =>
      if u_mal inp then
        let n := allocated s in
        Done (UniqSystem (slots s) (<[n := HashNode (next (junk inp)) str]> (nodes s)) (S n) (struniq_lock s)
          (<[i := ULock str n]> (upcs s)))
      else Done (ugoto s i (UReturned str None))
  | Some (ULock str n) =>
      match struniq_lock s, slots s !! slot_of str with
      | Some _, _ => Blocked
      | None, None => Crash
      | None, Some p => Done (UniqSystem (slots s) (nodes s) (allocated s) (Some i) (<[i := UScan2 str n p]> (upcs s)))
      end
  | Some (UScan2 str n p) =>
      uniq_scan s i p str
        (fun p =>
           match nodes s !! n with
           | None => Crash
           | Some _ => Done (UniqSystem (slots s) (delete n (nodes s)) (allocated s) (struniq_lock s) (<[i := UUnlock str p]> (upcs s)))
           end)
        (UScan2 str n) (ULink str n)
  | Some (ULink str n) =>
      match nodes s !! n, slots s !! slot_of str with
      | Some node, Some head =>
          Done (UniqSystem (slots s) (<[n := HashNode head (contents node)]> (nodes s)) (allocated s) (struniq_lock s)
            (<[i := UPublish str n]> (upcs s)))
      | _, _ => Crash
      end
  | Some (UPublish str n) =>
      Done (UniqSystem (<[slot_of str := Some n]> (slots s)) (nodes s) (allocated s) (struniq_lock s) (<[i := UUnlock str n]> (upcs s)))
  | Some (UUnlock str r) => Done (UniqSystem (slots s) (nodes s) (allocated s) None (<[i := UReturned str (Some r)]> (upcs s)))
  end.

(** A step of some thread, which asks for a C string if it is outside. *)
Definition uniq_step (s s' : uniq_system) : Prop := exists i inp, wf_cstr (string inp) /\ uniq_exec s i inp = Done s'.

(** The states of [n] threads. *)
Definition uniq_reachable (n : nat) : uniq_system -> Prop := rtc uniq_step (uniq_start n).
