(* ===== verification/StruniqSpec.v ===== *)
(** * The pool of locale names has every string once

    The chain of a slot is related to the list of its nodes.  A node in a chain never
    changes; a node that is not in a chain yet belongs to one thread. *)

From stdpp Require Import relations.
From S2P Require Import Prelude Lock Struniq.

Open Scope Z_scope.

(** ** Chains *)

(** The chain that starts at [p] has the nodes [l]. *)
Fixpoint linked (nd : gmap nat hash_node) (p : option nat) (l : list nat) : Prop :=
  match l with
  | [] => p = None
  | a :: l => p = Some a /\ exists x, nd !! a = Some x /\ linked nd (next x) l
  end.

Lemma linked_frame nd nd' p l : (forall a, a ∈ l -> nd' !! a = nd !! a) -> linked nd p l -> linked nd' p l.
Proof.
  revert p. induction l as [|a l IH]; intros p Heq; [done|]. cbn [linked]. intros (-> & x & Hx & Hl). split; [done|].
  exists x. rewrite Heq by apply list_elem_of_here. split; [done|]. apply IH; [|done]. intros b Hb. apply Heq. by apply list_elem_of_further.
Qed.

(** The node [a] of the chains [L] has the string [str]. *)
Definition in_pool (L : nat -> list nat) (s : uniq_system) (str : cstr) (a : nat) : Prop :=
  a ∈ L (slot_of str) /\ (contents <$> nodes s !! a) = Some str.

(** The chains do not have [str] in the nodes of [l]. *)
Definition lacks (s : uniq_system) (str : cstr) (l : list nat) : Prop :=
  forall a x, a ∈ l -> nodes s !! a = Some x -> contents x <> str.

(** [n] is a new node with [str]. *)
Definition is_new (L : nat -> list nat) (s : uniq_system) (str : cstr) (n : nat) : Prop :=
  wf_cstr str /\ (contents <$> nodes s !! n) = Some str /\ forall k, n ∉ L k.

(** The new node of a thread. *)
Definition owned (pc : uniq_pc) : option nat :=
  match pc with ULock _ n | UScan2 _ n _ | ULink _ n | UPublish _ n => Some n | _ => None end.

(** The thread has the lock. *)
Definition has_lock (pc : uniq_pc) : bool :=
  match pc with UScan2 _ _ _ | ULink _ _ | UPublish _ _ | UUnlock _ _ => true | _ => false end.

Definition upc_ok (L : nat -> list nat) (s : uniq_system) (pc : uniq_pc) : Prop :=
  match pc with
  | UOut | UReturned _ None => True
  | UReturned str (Some r) | UUnlock str r => in_pool L s str r
  | UScan str p => wf_cstr str /\ exists pre suf, L (slot_of str) = pre ++ suf /\ linked (nodes s) p suf
  | UAlloc str => wf_cstr str
  | ULock str n => is_new L s str n
  | UScan2 str n p => is_new L s str n /\
      exists pre suf, L (slot_of str) = pre ++ suf /\ linked (nodes s) p suf /\ lacks s str pre
  | ULink str n => is_new L s str n /\ lacks s str (L (slot_of str))
  | UPublish str n => is_new L s str n /\ lacks s str (L (slot_of str)) /\ (next <$> nodes s !! n) = slots s !! slot_of str
  end.

Record uniq_ok (L : nat -> list nat) (s : uniq_system) : Prop := UniqOk {
  uo_slots : length (slots s) = Z.to_nat HASH_TABLE_SIZE;
  uo_chains : forall k p, slots s !! k = Some p -> linked (nodes s) p (L k);
  uo_nodes : forall k a, a ∈ L k -> exists x, nodes s !! a = Some x /\ wf_cstr (contents x) /\ slot_of (contents x) = k;
  uo_once : forall k a b, a ∈ L k -> b ∈ L k -> (contents <$> nodes s !! a) = (contents <$> nodes s !! b) -> a = b;
  uo_alloc : forall a, (allocated s <= a)%nat -> nodes s !! a = None;
  uo_threads : forall i pc, upcs s !! i = Some pc -> upc_ok L s pc;
  uo_lock : forall i pc, upcs s !! i = Some pc -> has_lock pc = true <-> struniq_lock s = Some i;
  uo_owned : forall i j pc pc' n, upcs s !! i = Some pc -> upcs s !! j = Some pc' ->
    owned pc = Some n -> owned pc' = Some n -> i = j
}.

Lemma slot_of_lt str : (slot_of str < Z.to_nat HASH_TABLE_SIZE)%nat.
Proof. unfold slot_of, HASH_TABLE_SIZE. pose proof (Z.mod_pos_bound (string_hash str) 257). lia. Qed.

Lemma uniq_start_ok n : uniq_ok (fun _ => []) (uniq_start n).
Proof.
  assert (Hpc : forall i pc, upcs (uniq_start n) !! i = Some pc -> pc = UOut) by (intros i pc H; by apply lookup_replicate in H as [-> _]).
  split; cbn [uniq_start slots nodes allocated struniq_lock].
  - apply length_replicate.
  - intros k p Hp. by apply lookup_replicate in Hp as [-> _].
  - intros k a Ha. by apply not_elem_of_nil in Ha.
  - intros k a b Ha. by apply not_elem_of_nil in Ha.
  - intros a _. apply lookup_empty.
  - intros i pc Hi. by rewrite (Hpc i pc Hi).
  - intros i pc Hi. by rewrite (Hpc i pc Hi).
  - intros i j pc pc' m Hi Hj. rewrite (Hpc i pc Hi). done.
Qed.

(** ** Steps *)

Section Frame.
Context (L : nat -> list nat) (s : uniq_system) (Hok : uniq_ok L s).

Lemma node_allocated a x : nodes s !! a = Some x -> (a < allocated s)%nat.
Proof using Hok. intros Hx. destruct (Nat.lt_ge_cases a (allocated s)) as [|Hge]; [done|]. by rewrite (uo_alloc _ _ Hok a Hge) in Hx. Qed.

Lemma pool_allocated k a : a ∈ L k -> (a < allocated s)%nat.
Proof using Hok. intros Ha. destruct (uo_nodes _ _ Hok k a Ha) as (x & Hx & _). by apply (node_allocated a x). Qed.

Lemma new_allocated str n : is_new L s str n -> (n < allocated s)%nat.
Proof using Hok. intros (_ & Hn & _). destruct (nodes s !! n) as [x|] eqn:E; [|done]. by apply (node_allocated n x). Qed.

Lemma owned_new i pc n : upcs s !! i = Some pc -> owned pc = Some n -> exists str, is_new L s str n.
Proof using Hok.
  intros Hi Hn. pose proof (uo_threads _ _ Hok i pc Hi) as Ht.
  destruct pc as [|str r|str p|str|str m|str m p|str m|str m|str r]; try done; injection Hn as ->; cbn [upc_ok] in Ht; exists str; tauto.
Qed.

Context (s' : uniq_system) (i : nat) (pc pc' : uniq_pc) (Hi : upcs s !! i = Some pc).
Context (Hnodes : forall a, owned pc <> Some a -> (a < allocated s)%nat -> nodes s' !! a = nodes s !! a).

Lemma pool_same k a : a ∈ L k -> nodes s' !! a = nodes s !! a.
Proof using Hok Hi Hnodes.
  intros Ha. apply Hnodes; [|by apply (pool_allocated k)]. intros Hn. destruct (owned_new i pc a Hi Hn) as (str & _ & _ & H).
  by apply (H k).
Qed.

Lemma in_pool_frame str r : in_pool L s str r -> in_pool L s' str r.
Proof using Hok Hi Hnodes. intros [H1 H2]. split; [done|]. by rewrite (pool_same _ _ H1). Qed.

Lemma suffix_frame str p pre suf : L (slot_of str) = pre ++ suf -> linked (nodes s) p suf -> linked (nodes s') p suf.
Proof using Hok Hi Hnodes.
  intros HL. apply linked_frame. intros a Ha. apply (pool_same (slot_of str)). rewrite HL. apply elem_of_app. by right.
Qed.

Lemma lacks_frame str l : (forall a, a ∈ l -> a ∈ L (slot_of str)) -> lacks s str l -> lacks s' str l.
Proof using Hok Hi Hnodes. intros Hl H a x Ha Hx. apply (H a x Ha). by rewrite <- (pool_same _ _ (Hl a Ha)). Qed.

Lemma is_new_frame str n : owned pc <> Some n -> is_new L s str n -> is_new L s' str n.
Proof using Hok Hi Hnodes.
  intros Hne Hn. pose proof (new_allocated str n Hn) as Hlt. destruct Hn as (H1 & H2 & H3). split_and!; [done| |done].
  by rewrite (Hnodes n Hne Hlt).
Qed.

Lemma upc_frame j pcj : j <> i -> upcs s !! j = Some pcj -> slots s' = slots s -> upc_ok L s' pcj.
Proof using Hok Hi Hnodes.
  intros Hne Hj Hslots. pose proof (uo_threads _ _ Hok j pcj Hj) as Ht.
  assert (Hown : forall n, owned pcj = Some n -> owned pc <> Some n).
  { intros n H1 H2. apply Hne. by apply (uo_owned _ _ Hok j i pcj pc n). }
  destruct pcj as [|str [r|]|str p|str|str n|str n p|str n|str n|str r]; cbn [upc_ok owned] in *; try done.
  - by apply in_pool_frame.
  - destruct Ht as (Hw & pre & suf & H1 & H2). split; [done|]. exists pre, suf. split; [done|]. by apply (suffix_frame str p pre).
  - apply is_new_frame; auto.
  - destruct Ht as (Hn & pre & suf & H1 & H2 & H3). split; [apply is_new_frame; auto|]. exists pre, suf. split_and!; [done| |].
    + by apply (suffix_frame str p pre).
    + apply lacks_frame; [|done]. intros a Ha. rewrite H1. apply elem_of_app. by left.
  - destruct Ht as (Hn & H1). split; [apply is_new_frame; auto|by apply lacks_frame].
  - destruct Ht as (Hn & H1 & H2). split_and!; [apply is_new_frame; auto|by apply lacks_frame|].
    rewrite (Hnodes n) by (auto; by apply (new_allocated str)). by rewrite Hslots.
  - by apply in_pool_frame.
Qed.

(** A step that does not change the chains. *)
Lemma uniq_step_ok :
  upcs s' = <[i := pc']> (upcs s) -> slots s' = slots s -> (allocated s <= allocated s')%nat ->
  (forall a, (allocated s' <= a)%nat -> nodes s' !! a = None) -> upc_ok L s' pc' ->
  (has_lock pc' = true <-> struniq_lock s' = Some i) ->
  (forall j, j <> i -> struniq_lock s' = Some j <-> struniq_lock s = Some j) ->
  (owned pc' = owned pc \/ owned pc' = None \/ owned pc' = Some (allocated s)) -> uniq_ok L s'.
Proof using Hok Hi Hnodes.
  intros Hpcs Hslots Hall Hfree Ht Hlock Hlock' Hown.
  assert (Hcase : forall j pcj, upcs s' !! j = Some pcj -> j = i /\ pcj = pc' \/ j <> i /\ upcs s !! j = Some pcj).
  { intros j pcj. rewrite Hpcs. destruct (decide (j = i)) as [->|Hne].
    - rewrite list_lookup_insert_eq by (by eapply lookup_lt_Some). intros [= <-]. by left.
    - rewrite list_lookup_insert_ne by done. by right. }
  assert (Hnew : forall j pcj n, j <> i -> upcs s !! j = Some pcj -> owned pcj = Some n -> owned pc' <> Some n).
  { intros j pcj n Hne Hj H1 H2. destruct (owned_new j pcj n Hj H1) as (str & Hn). pose proof (new_allocated str n Hn) as Hlt.
    destruct Hown as [E|[E|E]]; rewrite E in H2; [|done|injection H2 as <-; lia].
    apply Hne. by apply (uo_owned _ _ Hok j i pcj pc n). }
  split.
  - rewrite Hslots. apply Hok.
  - rewrite Hslots. intros k p Hp. apply (linked_frame (nodes s)); [intros a; apply (pool_same k)|by apply Hok].
  - intros k a Ha. rewrite (pool_same k a Ha). by apply Hok.
  - intros k a b Ha Hb. rewrite (pool_same k a Ha), (pool_same k b Hb). by apply (uo_once _ _ Hok k).
  - done.
  - intros j pcj Hj. destruct (Hcase j pcj Hj) as [[-> ->]|[Hne Hj']]; [done|by apply (upc_frame j)].
  - intros j pcj Hj. destruct (Hcase j pcj Hj) as [[-> ->]|[Hne Hj']]; [done|]. rewrite Hlock' by done. by apply Hok.
  - intros j1 j2 pc1 pc2 n H1 H2 E1 E2.
    destruct (Hcase j1 pc1 H1) as [[-> ->]|[Hne1 H1']], (Hcase j2 pc2 H2) as [[-> ->]|[Hne2 H2']]; try done.
    + by destruct (Hnew j2 pc2 n).
    + by destruct (Hnew j1 pc1 n).
    + by apply (uo_owned _ _ Hok j1 j2 pc1 pc2 n).
Qed.
End Frame.

(** The chains grow at their heads. *)
Definition grows (L L' : nat -> list nat) : Prop := forall k, exists l, L' k = l ++ L k.

Definition uniq_result (L : nat -> list nat) (o : outcome uniq_system) : Prop :=
  match o with Done s' => exists L', grows L L' /\ uniq_ok L' s' | Blocked => True | Crash => False end.

Lemma grows_refl L : grows L L.
Proof. intros k. by exists []. Qed.

Lemma compare_string a b : wf_cstr a -> wf_cstr b -> (strcmp a b =? 0) = bool_decide (a = b).
Proof.
  intros Ha Hb. case_bool_decide as E; [apply Z.eqb_eq|apply Z.eqb_neq]; [by apply strcmp_eq|].
  intros H. apply E. by apply strcmp_eq.
Qed.

Section UniqSteps.
Context (L : nat -> list nat) (s : uniq_system) (i : nat) (pc : uniq_pc) (inp : uniq_input).
Context (Hok : uniq_ok L s) (Hi : upcs s !! i = Some pc) (Hin : wf_cstr (string inp)).

Lemma slot_lookup str : exists p, slots s !! slot_of str = Some p.
Proof using Hok. apply lookup_lt_is_Some_2. rewrite (uo_slots _ _ Hok). apply slot_of_lt. Qed.

(** A step that changes only the place of the thread. *)
Lemma ugoto_ok pc' : upc_ok L s pc' -> has_lock pc' = has_lock pc -> owned pc' = owned pc \/ owned pc' = None ->
  uniq_ok L (ugoto s i pc').
Proof using Hok Hi.
  intros Ht Hl Ho. apply (uniq_step_ok L s Hok _ i pc pc' Hi); cbn [ugoto upcs slots nodes allocated struniq_lock]; try done.
  - apply Hok.
  - rewrite Hl. by apply Hok.
  - tauto.
Qed.

(** A round of a search. *)
Lemma uniq_scan_ok p str pre suf found go_on not_found :
  wf_cstr str -> L (slot_of str) = pre ++ suf -> linked (nodes s) p suf ->
  (p = None -> suf = [] -> upc_ok L s not_found) ->
  has_lock not_found = has_lock pc -> owned not_found = owned pc \/ owned not_found = None ->
  (forall a x suf', p = Some a -> suf = a :: suf' -> nodes s !! a = Some x -> linked (nodes s) (next x) suf' ->
     (contents x <> str) -> upc_ok L s (go_on (next x))) ->
  (forall q, has_lock (go_on q) = has_lock pc /\ (owned (go_on q) = owned pc \/ owned (go_on q) = None)) ->
  (forall a, in_pool L s str a -> uniq_result L (found a)) ->
  uniq_result L (uniq_scan s i p str found go_on not_found).
Proof using Hok Hi.
  intros Hstr HL Hlink Hnf Hl Ho Hgo Hgo' Hf. unfold uniq_scan. destruct suf as [|a suf]; cbn [linked] in Hlink.
  - subst p. exists L. split; [apply grows_refl|]. apply ugoto_ok; auto.
  - destruct Hlink as (-> & x & Hx & Hlink). rewrite Hx.
    assert (Ha : a ∈ L (slot_of str)) by (rewrite HL; apply elem_of_app; right; apply list_elem_of_here).
    destruct (uo_nodes _ _ Hok _ a Ha) as (x' & Hx' & Hw & _). rewrite Hx in Hx'. injection Hx' as <-.
    rewrite compare_string by done. case_bool_decide as E.
    + apply Hf. split; [done|]. by rewrite Hx, <- E.
    + exists L. split; [apply grows_refl|]. destruct (Hgo' (next x)) as [H1 H2].
      apply ugoto_ok; [by apply (Hgo a x suf)|done|done].
Qed.

Lemma uniq_call_ok : pc = UOut \/ (exists str r, pc = UReturned str r) -> uniq_result L (uniq_exec s i inp).
Proof using Hok Hi Hin.
  intros Hpc. destruct (slot_lookup (string inp)) as [p Hp].
  assert (E : uniq_exec s i inp = Done (ugoto s i (UScan (string inp) p))).
  { unfold uniq_exec. rewrite Hi. destruct Hpc as [->|(str & r & ->)]; by rewrite Hp. }
  rewrite E. exists L. split; [apply grows_refl|].
  apply ugoto_ok; [|by destruct Hpc as [->|(str & r & ->)]|by right].
  split; [done|]. exists [], (L (slot_of (string inp))). split; [done|]. by apply (uo_chains _ _ Hok).
Qed.

Lemma uniq_scan1_ok str p : pc = UScan str p -> uniq_result L (uniq_exec s i inp).
Proof using Hok Hi.
  intros Hpc. pose proof (uo_threads _ _ Hok i pc Hi) as Ht. rewrite Hpc in Ht. unfold uniq_exec. rewrite Hi, Hpc.
  destruct Ht as (Hw & pre & suf & HL & Hlink). eapply uniq_scan_ok; [exact Hw|exact HL|exact Hlink|done|by rewrite Hpc|by right|..].
  - intros a x suf' -> -> Hx Hlink' _. split; [done|]. exists (pre ++ [a]), suf'. by rewrite <- app_assoc.
  - intros q. split; [by rewrite Hpc|by right].
  - intros a Ha. exists L. split; [apply grows_refl|]. apply ugoto_ok; [done|by rewrite Hpc|by right].
Qed.

Lemma uniq_alloc_ok str : pc = UAlloc str -> uniq_result L (uniq_exec s i inp).
Proof using Hok Hi.
  intros Hpc. pose proof (uo_threads _ _ Hok i pc Hi) as Ht. rewrite Hpc in Ht. unfold uniq_exec. rewrite Hi, Hpc. cbn [upc_ok] in Ht.
  destruct (u_mal inp); (exists L; split; [apply grows_refl|]); [|by apply ugoto_ok; [|rewrite Hpc|right]].
  assert (Hn : nodes s !! allocated s = None) by (by apply (uo_alloc _ _ Hok)).
  assert (Hnot : forall k, allocated s ∉ L k).
  { intros k Hk. destruct (uo_nodes _ _ Hok k _ Hk) as (x & Hx & _). congruence. }
  apply (uniq_step_ok L s Hok _ i pc (ULock str (allocated s)) Hi); cbn [upcs slots nodes allocated struniq_lock]; try done; try lia.
  - intros a _ Ha. by rewrite lookup_insert_ne by lia.
  - intros a Ha. rewrite lookup_insert_ne by lia. apply (uo_alloc _ _ Hok). lia.
  - split_and!; [done| |done]. cbn [nodes]. by rewrite lookup_insert_eq.
  - rewrite <- (uo_lock _ _ Hok i pc Hi). by rewrite Hpc.
  - by right; right.
Qed.

Lemma uniq_lock_ok str n : pc = ULock str n -> uniq_result L (uniq_exec s i inp).
Proof using Hok Hi.
  intros Hpc. pose proof (uo_threads _ _ Hok i pc Hi) as Ht. rewrite Hpc in Ht. unfold uniq_exec. rewrite Hi, Hpc. cbn [upc_ok] in Ht.
  destruct (slot_lookup str) as [p Hp]. rewrite Hp. destruct (struniq_lock s) as [j|] eqn:El; [done|].
  exists L. split; [apply grows_refl|].
  apply (uniq_step_ok L s Hok _ i pc (UScan2 str n p) Hi); cbn [upcs slots nodes allocated struniq_lock]; try done.
  - apply Hok.
  - split; [done|]. exists [], (L (slot_of str)). split_and!; [done|by apply (uo_chains _ _ Hok)|]. intros a x Ha. by apply not_elem_of_nil in Ha.
  - intros j Hj. rewrite El. split; [congruence|done].
  - left. by rewrite Hpc.
Qed.

Lemma uniq_scan2_ok str n p : pc = UScan2 str n p -> uniq_result L (uniq_exec s i inp).
Proof using Hok Hi.
  intros Hpc. pose proof (uo_threads _ _ Hok i pc Hi) as Ht. rewrite Hpc in Ht. unfold uniq_exec. rewrite Hi, Hpc.
  destruct Ht as (Hn & pre & suf & HL & Hlink & Hlacks). pose proof Hn as (Hw & Hnode & Hnot).
  eapply uniq_scan_ok; [exact Hw|exact HL|exact Hlink| |by rewrite Hpc|by left; rewrite Hpc|..].
  - intros _ ->. split; [done|]. by rewrite HL, app_nil_r.
  - intros a x suf' -> -> Hx Hlink' Hne. split; [done|]. exists (pre ++ [a]), suf'. split_and!; [by rewrite <- app_assoc|done|].
    intros b y Hb Hy. apply elem_of_app in Hb as [Hb|Hb]; [by apply (Hlacks b)|]. apply list_elem_of_singleton in Hb as ->. congruence.
  - intros q. split; [by rewrite Hpc|left; by rewrite Hpc].
  - intros a Ha. destruct (nodes s !! n) as [x|]; [|done]. exists L. split; [apply grows_refl|].
    apply (uniq_step_ok L s Hok _ i pc (UUnlock str a) Hi); cbn [upcs slots nodes allocated struniq_lock]; try done.
    + intros b Hb _. rewrite lookup_delete_ne; [done|]. intros ->. apply Hb. by rewrite Hpc.
    + intros b Hb. rewrite lookup_delete_None. right. by apply Hok.
    + destruct Ha as [Ha1 Ha2]. split; [done|]. cbn [nodes]. rewrite lookup_delete_ne; [done|]. intros ->. by apply (Hnot (slot_of str)).
    + rewrite <- (uo_lock _ _ Hok i pc Hi). by rewrite Hpc.
    + by right; left.
Qed.

Lemma uniq_link_ok str n : pc = ULink str n -> uniq_result L (uniq_exec s i inp).
Proof using Hok Hi.
  intros Hpc. pose proof (uo_threads _ _ Hok i pc Hi) as Ht. rewrite Hpc in Ht. unfold uniq_exec. rewrite Hi, Hpc.
  destruct Ht as (Hn & Hlacks). pose proof Hn as (Hw & Hnode & Hnot).
  destruct (slot_lookup str) as [p Hp]. rewrite Hp. destruct (nodes s !! n) as [x|] eqn:Ex; [|done].
  exists L. split; [apply grows_refl|]. injection Hnode as Hc.
  assert (Hlt : (n < allocated s)%nat) by (by apply (node_allocated L s Hok n x)).
  assert (Hother : forall a, a ∈ L (slot_of str) -> a <> n) by (intros a Ha ->; by apply (Hnot (slot_of str))).
  apply (uniq_step_ok L s Hok _ i pc (UPublish str n) Hi); cbn [upcs slots nodes allocated struniq_lock]; try done.
  - intros a Ha _. rewrite lookup_insert_ne; [done|]. intros ->. apply Ha. by rewrite Hpc.
  - intros a Ha. rewrite lookup_insert_ne by lia. by apply Hok.
  - cbn [upc_ok nodes slots]. unfold is_new, lacks. cbn [nodes]. split_and!; [done| |done| |].
    + rewrite lookup_insert_eq. cbn. by rewrite Hc.
    + intros a y Ha. rewrite lookup_insert_ne by (symmetry; by apply Hother). by apply Hlacks.
    + by rewrite lookup_insert_eq, Hp.
  - rewrite <- (uo_lock _ _ Hok i pc Hi). by rewrite Hpc.
  - left. by rewrite Hpc.
Qed.

Lemma uniq_unlock_ok str r : pc = UUnlock str r -> uniq_result L (uniq_exec s i inp).
Proof using Hok Hi.
  intros Hpc. pose proof (uo_threads _ _ Hok i pc Hi) as Ht. pose proof (uo_lock _ _ Hok i pc Hi) as Hl. rewrite Hpc in Ht, Hl. unfold uniq_exec. rewrite Hi, Hpc.
  exists L. split; [apply grows_refl|].
  apply (uniq_step_ok L s Hok _ i pc (UReturned str (Some r)) Hi); cbn [upcs slots nodes allocated struniq_lock]; try done.
  - apply Hok.
  - intros j Hj. destruct Hl as [Hl _]. rewrite (Hl eq_refl). split; congruence.
  - by right; left.
Qed.
End UniqSteps.

(** The step that adds the new node to its chain. *)
Section Publish.
Context (L : nat -> list nat) (s : uniq_system) (i : nat) (str : cstr) (n : nat).
Context (Hok : uniq_ok L s) (Hi : upcs s !! i = Some (UPublish str n)).

Definition with_node : nat -> list nat := fun k => if decide (k = slot_of str) then n :: L k else L k.

Definition published : uniq_system :=
  UniqSystem (<[slot_of str := Some n]> (slots s)) (nodes s) (allocated s) (struniq_lock s) (<[i := UUnlock str n]> (upcs s)).

Lemma in_with_node k a : a ∈ with_node k <-> k = slot_of str /\ a = n \/ a ∈ L k.
Proof using Type. unfold with_node. case_decide; [rewrite elem_of_cons|]; naive_solver. Qed.

Lemma with_node_grows : grows L with_node.
Proof using Type. intros k. unfold with_node. case_decide; [by exists [n]|by exists []]. Qed.

Lemma published_facts : is_new L s str n /\ lacks s str (L (slot_of str)) /\ (next <$> nodes s !! n) = slots s !! slot_of str.
Proof using Hok Hi. apply (uo_threads _ _ Hok i _ Hi). Qed.

Lemma published_pool str' a : in_pool L s str' a -> in_pool with_node published str' a.
Proof using Type. intros [H1 H2]. split; [|done]. apply in_with_node. by right. Qed.

(** The other threads do not have the lock. *)
Lemma published_thread j pcj : j <> i -> upcs s !! j = Some pcj -> upc_ok with_node published pcj.
Proof using Hok Hi.
  intros Hne Hj. pose proof (uo_threads _ _ Hok j pcj Hj) as Ht.
  assert (Hlock : has_lock pcj = false).
  { destruct (has_lock pcj) eqn:E; [|done]. apply (uo_lock _ _ Hok j pcj Hj) in E.
    assert (E' : struniq_lock s = Some i) by (by apply (uo_lock _ _ Hok i _ Hi)). congruence. }
  destruct pcj as [|str' [r|]|str' p|str'|str' m|str' m p|str' m|str' m|str' r]; try done.
  - by apply published_pool.
  - destruct Ht as (Hw & pre & suf & HL & Hlink). split; [done|]. unfold with_node. case_decide as E.
    + exists (n :: pre), suf. by rewrite HL.
    + by exists pre, suf.
  - destruct Ht as (Hw & Hm & Hnot). split_and!; [done|done|]. intros k. rewrite in_with_node. intros [[_ ->]|Hk]; [|by apply (Hnot k)].
    apply Hne. by apply (uo_owned _ _ Hok j i _ _ n Hj Hi).
Qed.

Lemma published_ok : uniq_ok with_node published.
Proof using Hok Hi.
  destruct published_facts as ((Hw & Hnode & Hnot) & Hlacks & Hnext).
  assert (Hlt : (slot_of str < length (slots s))%nat) by (rewrite (uo_slots _ _ Hok); apply slot_of_lt).
  destruct (nodes s !! n) as [x|] eqn:Ex; [|done]. injection Hnode as Hc. cbn in Hnext.
  split; cbn [published slots nodes allocated struniq_lock upcs].
  - rewrite length_insert. apply Hok.
  - intros k p. destruct (decide (k = slot_of str)) as [->|Hne]; unfold with_node.
    + rewrite list_lookup_insert_eq by done. intros [= <-]. rewrite decide_True by done. cbn [linked]. split; [done|].
      exists x. split; [done|]. by apply (uo_chains _ _ Hok).
    + rewrite list_lookup_insert_ne, decide_False by done. apply Hok.
  - intros k a. rewrite in_with_node. intros [[-> ->]|Ha]; [|by apply (uo_nodes _ _ Hok)]. exists x. by rewrite Hc.
  - intros k a b. rewrite !in_with_node. intros [[-> ->]|Ha] [[E ->]|Hb] Heq; try done.
    + rewrite Ex in Heq. cbn in Heq. rewrite Hc in Heq. destruct (nodes s !! b) as [y|] eqn:Ey; [|done]. injection Heq as Heq.
      by destruct (Hlacks b y Hb Ey).
    + subst k. rewrite Ex in Heq. cbn in Heq. rewrite Hc in Heq. destruct (nodes s !! a) as [y|] eqn:Ey; [|done]. injection Heq as Heq.
      by destruct (Hlacks a y Ha Ey).
    + by apply (uo_once _ _ Hok k).
  - apply Hok.
  - intros j pcj. destruct (decide (j = i)) as [->|Hne].
    + rewrite list_lookup_insert_eq by (by eapply lookup_lt_Some). intros [= <-]. split; [apply in_with_node; by left|].
      cbn [nodes published]. by rewrite Ex, <- Hc.
    + rewrite list_lookup_insert_ne by done. by apply published_thread.
  - intros j pcj. destruct (decide (j = i)) as [->|Hne].
    + rewrite list_lookup_insert_eq by (by eapply lookup_lt_Some). intros [= <-]. by rewrite <- (uo_lock _ _ Hok i _ Hi).
    + rewrite list_lookup_insert_ne by done. apply Hok.
  - intros j1 j2 pc1 pc2 m.
    assert (Hcase : forall j pcj, <[i := UUnlock str n]> (upcs s) !! j = Some pcj -> owned pcj = Some m -> upcs s !! j = Some pcj).
    { intros j pcj. destruct (decide (j = i)) as [->|Hne].
      - rewrite list_lookup_insert_eq by (by eapply lookup_lt_Some). by intros [= <-].
      - by rewrite list_lookup_insert_ne. }
    intros H1 H2 E1 E2. apply (uo_owned _ _ Hok j1 j2 pc1 pc2 m); auto.
Qed.
End Publish.

Lemma uniq_exec_ok L s i inp : uniq_ok L s -> wf_cstr (string inp) -> uniq_result L (uniq_exec s i inp).
Proof.
  intros Hok Hin. destruct (upcs s !! i) as [pc|] eqn:Hi; [|unfold uniq_exec; by rewrite Hi].
  destruct pc as [|str r|str p|str|str n|str n p|str n|str n|str r].
  - eapply uniq_call_ok; [done|exact Hi|done|by left].
  - eapply uniq_call_ok; [done|exact Hi|done|right; by exists str, r].
  - by eapply uniq_scan1_ok.
  - by eapply uniq_alloc_ok.
  - by eapply uniq_lock_ok.
  - by eapply uniq_scan2_ok.
  - by eapply uniq_link_ok.
  - unfold uniq_exec. rewrite Hi. exists (with_node L str n). split; [apply with_node_grows|by apply (published_ok L s i)].
  - by eapply uniq_unlock_ok.
Qed.

Lemma grows_trans L1 L2 L3 : grows L1 L2 -> grows L2 L3 -> grows L1 L3.
Proof. intros H1 H2 k. destruct (H1 k) as [l1 E1], (H2 k) as [l2 E2]. exists (l2 ++ l1). by rewrite E2, E1, app_assoc. Qed.

(** What a step does to the nodes: nothing, a new one, a change of its own one. *)
Lemma uniq_exec_nodes s i inp s' : uniq_exec s i inp = Done s' ->
  nodes s' = nodes s \/ (exists x, nodes s' = <[allocated s := x]> (nodes s)) \/
  exists pc n, upcs s !! i = Some pc /\ owned pc = Some n /\
    (nodes s' = delete n (nodes s) \/ exists x, nodes s' = <[n := x]> (nodes s)).
Proof.
  unfold uniq_exec, uniq_scan. destruct (upcs s !! i) as [pc|]; [|done].
  destruct pc as [|str r|str p|str|str n|str n p|str n|str n|str r]; repeat case_match; try done; intros [= <-];
    cbn [nodes ugoto]; eauto.
  - right; right. exists (UScan2 str n (Some n0)), n. eauto.
  - right; right. exists (ULink str n), n. eauto.
Qed.

(** A node in a chain stays. *)
Lemma uniq_exec_kept L s i inp s' k a : uniq_ok L s -> uniq_exec s i inp = Done s' -> a ∈ L k -> nodes s' !! a = nodes s !! a.
Proof.
  intros Hok E Ha. pose proof (pool_allocated L s Hok k a Ha) as Hlt.
  destruct (uniq_exec_nodes s i inp s' E) as [->|[(x & ->)|(pc & n & Hi & Hn & Hcase)]]; [done|by rewrite lookup_insert_ne by lia|].
  destruct (owned_new L s Hok i pc n Hi Hn) as (str & _ & _ & Hnot). assert (n <> a) by (intros ->; by apply (Hnot k)).
  destruct Hcase as [->|(x & ->)]; [by rewrite lookup_delete_ne|by rewrite lookup_insert_ne].
Qed.

Lemma uniq_steps_ok L s s' : uniq_ok L s -> rtc uniq_step s s' ->
  exists L', grows L L' /\ uniq_ok L' s' /\ forall k a, a ∈ L k -> nodes s' !! a = nodes s !! a.
Proof.
  intros Hok Hs. revert L Hok. induction Hs as [s|s s1 s' (i & inp & Hin & E) _ IH]; intros L Hok.
  { exists L. split; [apply grows_refl|done]. }
  pose proof (uniq_exec_ok L s i inp Hok Hin) as H. rewrite E in H. destruct H as (L1 & Hg & Hok1).
  destruct (IH L1 Hok1) as (L' & Hg' & Hok' & Hkept). exists L'. split_and!; [by apply (grows_trans L L1)|done|].
  intros k a Ha. rewrite (Hkept k a); [by apply (uniq_exec_kept L s i inp s1 k)|].
  destruct (Hg k) as [l ->]. apply elem_of_app. by right.
Qed.

(** ** Theorem *)

(** C10. Any number of threads that call struniq() at the same time, with any failures of
    memory: no thread accesses a node that was freed; a string that was returned (not
    the static one) keeps its contents forever, and every thread that asks for the
    same contents, then or later, gets the same pointer.  (A call without memory returns the static string "C".) *)
Theorem struniq_unique (n : nat) (s s' : uniq_system) (Hs : uniq_reachable n s) (Hs' : rtc uniq_step s s') :
  (forall i inp, wf_cstr (string inp) -> uniq_exec s' i inp <> Crash) /\
  forall i str r, upcs s !! i = Some (UReturned str (Some r)) ->
    (contents <$> nodes s' !! r) = Some str /\
    forall j r', upcs s' !! j = Some (UReturned str (Some r')) -> r' = r.
Proof.
  destruct (uniq_steps_ok _ _ s (uniq_start_ok n) Hs) as (L & _ & Hok & _).
  destruct (uniq_steps_ok L s s' Hok Hs') as (L' & Hg & Hok' & Hkept). split.
  - intros i inp Hin E. pose proof (uniq_exec_ok L' s' i inp Hok' Hin) as H. by rewrite E in H.
  - intros i str r Hi. pose proof (uo_threads _ _ Hok i _ Hi) as [Hr Hc].
    assert (Hr' : r ∈ L' (slot_of str)) by (destruct (Hg (slot_of str)) as [l ->]; apply elem_of_app; by right).
    assert (Hc' : (contents <$> nodes s' !! r) = Some str) by (by rewrite (Hkept _ _ Hr)).
    split; [done|]. intros j r' Hj. pose proof (uo_threads _ _ Hok' j _ Hj) as [Hj1 Hj2].
    apply (uo_once _ _ Hok' (slot_of str)); [done|done|congruence].
Qed.

(** ** A run *)

Fixpoint uniq_turns (l : list (nat * uniq_input)) (s : uniq_system) : option uniq_system :=
  match l with
  | [] => Some s
  | (i, inp) :: l => match uniq_exec s i inp with Done s => uniq_turns l s | _ => None end
  end.

Lemma uniq_turns_steps l s s' : Forall (fun x => wf_cstr (string x.2)) l -> uniq_turns l s = Some s' -> rtc uniq_step s s'.
Proof.
  intros Hl. revert s. induction Hl as [|[i inp] l Hinp _ IH]; intros s; cbn [uniq_turns]; [by intros [= <-]|].
  destruct (uniq_exec s i inp) as [s1| |] eqn:E; [|done|done]. intros H. eapply rtc_l; [|by apply IH]. by exists i, inp.
Qed.

(** Both threads ask for "de" and do not find it; thread 1 adds its node, and thread 0
    frees the one it made. *)
Definition de : uniq_input := UniqInput (cs "de") true (HashNode None []).
Definition first_returns : list (nat * uniq_input) := map (fun i => (i, de)) [0; 1; 0; 1; 0; 1; 1; 1; 1; 1; 1]%nat.
Definition both_return : list (nat * uniq_input) := map (fun i => (i, de)) [0; 0; 0]%nat.

Definition after_first : uniq_system := default (uniq_start 2) (uniq_turns first_returns (uniq_start 2)).
Definition after_both : uniq_system := default (uniq_start 2) (uniq_turns both_return after_first).

Lemma struniq_unique_witness : upcs after_first !! 1%nat = Some (UReturned (cs "de") (Some 1%nat)) /\
  upcs after_both !! 0%nat = Some (UReturned (cs "de") (Some 1%nat)) /\ (contents <$> nodes after_both !! 1%nat) = Some (cs "de").
Proof.
  assert (Hde : forall l, Forall (fun x => wf_cstr (string x.2)) (map (fun i : nat => (i, de)) l)).
  { intros l. apply Forall_forall. intros x Hx. apply list_elem_of_fmap in Hx as (i & -> & _). cbn. repeat constructor. }
  pose proof (uniq_turns_steps first_returns (uniq_start 2) after_first (Hde _) ltac:(vm_compute; reflexivity)) as Hs.
  pose proof (uniq_turns_steps both_return after_first after_both (Hde _) ltac:(vm_compute; reflexivity)) as Hs'.
  split; [vm_compute; reflexivity|]. split; [vm_compute; reflexivity|].
  apply (struniq_unique 2 after_first after_both Hs Hs') with (i := 1%nat). vm_compute. reflexivity.
Defined.
