(* ===== verification/Log.v ===== *)
(** * The log of untranslated messages: log.c

    Every message that has no translation is appended, as an entry of a PO file, to
    the file the user asks for.  The stream that was used last stays open.  [None] is a call
    of the C library with a null stream. *)

From S2P Require Import Prelude.

Open Scope Z_scope.

Definition newline : Z := 10.
Definition quote : Z := 34.
Definition backslash : Z := 92.
Definition MSGCTXT_SEPARATOR : Z := 4.

(** The loop of [print_escaped]: what it writes. *)
Fixpoint print_loop (str : cstr) : list Z :=
  match str with
  | [] => [quote]
  | c :: rest =>
      if c =? newline then
        [backslash; chr "n"; quote] ++
        match rest with
        | [] => []
        | _ => [newline; quote] ++ print_loop rest
        end
      else (if (c =? quote) || (c =? backslash) then [backslash] else []) ++ c :: print_loop rest
  end.

Definition print_escaped (str : cstr) : list Z := quote :: print_loop str.

(** [strchr (s, c)]: the string before the first [c], and after it. *)
Fixpoint split_at (c : Z) (s : cstr) : option (cstr * cstr) :=
  match s with
  | [] => None
  | x :: s => if x =? c then Some ([], s) else '(a, b) ← split_at c s; Some (x :: a, b)
  end.

(** The text of an entry. *)
Definition log_entry (domainname msgid1 msgid2 : cstr) (plural : bool) : list Z :=
  cs "domain " ++ print_escaped domainname ++
  (match split_at MSGCTXT_SEPARATOR msgid1 with
   | Some (msgctxt, msgid1) => newline :: cs "msgctxt " ++ print_escaped msgctxt ++ newline :: cs "msgid " ++ print_escaped msgid1
   | None => newline :: cs "msgid " ++ print_escaped msgid1
   end) ++
  (if plural
   then newline :: cs "msgid_plural " ++ print_escaped msgid2 ++ newline :: cs "msgstr[0] " ++ [quote; quote; newline]
   else newline :: cs "msgstr " ++ [quote; quote; newline]) ++ [newline].

(** The static variables; a stream is the name of the file it appends to. *)
Record log_state := LogState {
  last_logfilename : option cstr;
  last_logfile : option cstr;
  log_files : gmap cstr (list Z)
}.

Definition log_start (files : gmap cstr (list Z)) : log_state := LogState None None files.

Definition append_to (file : cstr) (text : list Z) (files : gmap cstr (list Z)) : gmap cstr (list Z) :=
  <[file := default [] (files !! file) ++ text]> files.

Section Log.
(** Whether malloc() and fopen() succeed. *)
Context (mal : bool) (fopen : cstr -> bool).

(** Close the stream and open the new one; [false] is an early return. *)
Definition reopen (logfilename : cstr) (st : log_state) : bool * log_state :=
  if mal then
    if fopen logfilename then (true, LogState (Some logfilename) (Some logfilename) (append_to logfilename [] (log_files st)))
    else (false, LogState (Some logfilename) None (log_files st))
  else (false, LogState None (match last_logfilename st with Some _ => None | None => last_logfile st end) (log_files st)).

Definition _nl_log_untranslated_locked (logfilename domainname msgid1 msgid2 : cstr) (plural : bool) (st : log_state)
    : option log_state :=
  let '(go_on, st) :=
    match last_logfilename st with
    | Some last => if negb (strcmp logfilename last =? 0) then reopen logfilename st else (true, st)
    | None => reopen logfilename st
    end in
  if (go_on : bool) then
    logfile ← last_logfile st;
    Some (LogState (last_logfilename st) (last_logfile st)
            (append_to logfile (log_entry domainname msgid1 msgid2 plural) (log_files st)))
  else Some st.
End Log.

(** A call of [_nl_log_untranslated], which takes the lock, and what malloc() and fopen() do in it. *)
Record log_call := LogCall {
  c_logfilename : cstr; c_domainname : cstr; c_msgid1 : cstr; c_msgid2 : cstr; c_plural : bool;
  c_mal : bool; c_fopen : cstr -> bool
}.

Definition _nl_log_untranslated (c : log_call) (st : log_state) : option log_state :=
  _nl_log_untranslated_locked (c_mal c) (c_fopen c) (c_logfilename c) (c_domainname c) (c_msgid1 c) (c_msgid2 c) (c_plural c) st.

(** The calls of a program, in the order in which they get the lock. *)
Fixpoint log_calls (cs : list log_call) (st : log_state) : option log_state :=
  match cs with
  | [] => Some st
  | c :: cs => st ← _nl_log_untranslated c st; log_calls cs st
  end.
