(* ===== verification/LogSpec.v ===== *)
(** * The log can be read back *)

From S2P Require Import Prelude Log.

Open Scope Z_scope.

(** ** Reading strings of PO files *)

(** What follows an opening quote: the string, up to a closing quote that is not followed by
    another string on the next line, and the rest. *)
Fixpoint read_string (l : list Z) : option (cstr * list Z) :=
  match l with
  | [] => None
  | c :: l =>
      if c =? backslash then
        match l with
        | [] => None
        | e :: l => '(s, r) ← read_string l; Some ((if e =? chr "n" then newline else e) :: s, r)
        end
      else if c =? quote then
        match l with
        | c1 :: c2 :: l' => if (c1 =? newline) && (c2 =? quote) then read_string l' else Some ([], l)
        | _ => Some ([], l)
        end
      else '(s, r) ← read_string l; Some (c :: s, r)
  end.

(** The text after a literal. *)
Fixpoint skip_literal (lit l : list Z) : option (list Z) :=
  match lit, l with
  | [], _ => Some l
  | c :: lit, x :: l => if c =? x then skip_literal lit l else None
  | _, [] => None
  end.

(** A literal and a string; [None] if the literal is not there. *)
Definition read_field (lit : list Z) (l : list Z) : option (cstr * list Z) :=
  l ← skip_literal (lit ++ [quote]) l; read_string l.

(** Domain, context, message and its plural. *)
Record po_entry := PoEntry { po_domain : cstr; po_msgctxt : option cstr; po_msgid : cstr; po_plural : option cstr }.

Definition read_option (lit : list Z) (l : list Z) : option cstr * list Z :=
  match read_field lit l with Some (s, r) => (Some s, r) | None => (None, l) end.

Definition read_entry (l : list Z) : option (po_entry * list Z) :=
  '(d, l) ← read_field (cs "domain ") l;
  let '(ctxt, l) := read_option (newline :: cs "msgctxt ") l in
  '(id, l) ← read_field (newline :: cs "msgid ") l;
  let '(pl, l) := read_option (newline :: cs "msgid_plural ") l in
  '(str, l) ← read_field (newline :: cs (match pl with Some _ => "msgstr[0] " | None => "msgstr " end)) l;
  l ← skip_literal [newline; newline] l;
  Some (PoEntry d ctxt id pl, l).

(** What [log_entry] means. *)
Definition entry_of_message (domainname msgid1 msgid2 : cstr) (plural : bool) : po_entry :=
  let '(ctxt, id) := match split_at MSGCTXT_SEPARATOR msgid1 with Some (c, i) => (Some c, i) | None => (None, msgid1) end in
  PoEntry domainname ctxt id (if plural then Some msgid2 else None).

(** [l] does not go on with a string. *)
Definition no_string (l : list Z) : Prop :=
  match l with c1 :: c2 :: _ => c1 <> newline \/ c2 <> quote | _ => True end.

Lemma read_string_loop s rest : no_string rest -> read_string (print_loop s ++ rest) = Some (s, rest).
Proof.
  intros Hrest. assert (Hq : read_string (quote :: rest) = Some ([], rest)).
  { cbn. destruct rest as [|c1 [|c2 rest]]; try done. destruct (Z.eqb_spec c1 newline), (Z.eqb_spec c2 quote); try done.
    by destruct Hrest. }
  induction s as [|c s IH]; [exact Hq|]. cbn [print_loop]. destruct (Z.eqb_spec c newline) as [->|Hn].
  - destruct s as [|c' s].
    + cbn [app]. change (read_string (backslash :: chr "n" :: quote :: rest)) with
        ('(s, r) ← read_string (quote :: rest); Some (newline :: s, r)). by rewrite Hq.
    + set (l := print_loop (c' :: s)) in *. cbn [app].
      change (read_string (backslash :: chr "n" :: quote :: newline :: quote :: (l ++ rest))) with
        ('(s, r) ← read_string (l ++ rest); Some (newline :: s, r)). by rewrite IH.
  - destruct (Z.eqb_spec c quote) as [->|Hq']; [|destruct (Z.eqb_spec c backslash) as [->|Hb]]; cbn [orb app].
    + change (read_string (backslash :: quote :: print_loop s ++ rest)) with
        ('(s, r) ← read_string (print_loop s ++ rest); Some (quote :: s, r)). by rewrite IH.
    + change (read_string (backslash :: backslash :: print_loop s ++ rest)) with
        ('(s, r) ← read_string (print_loop s ++ rest); Some (backslash :: s, r)). by rewrite IH.
    + cbn [read_string]. rewrite (proj2 (Z.eqb_neq c backslash)), (proj2 (Z.eqb_neq c quote)) by done. by rewrite IH.
Qed.

Lemma skip_literal_app lit l : skip_literal lit (lit ++ l) = Some l.
Proof. induction lit as [|c lit IH]; [done|]. cbn [app skip_literal]. by rewrite Z.eqb_refl. Qed.

Lemma read_field_ok lit s rest : no_string rest -> read_field lit (lit ++ print_escaped s ++ rest) = Some (s, rest).
Proof.
  intros Hrest. unfold read_field, print_escaped. cbn [app].
  replace (lit ++ quote :: print_loop s ++ rest) with ((lit ++ [quote]) ++ print_loop s ++ rest) by (by rewrite <- app_assoc).
  rewrite skip_literal_app. cbn [mbind option_bind]. by apply read_string_loop.
Qed.

Lemma read_option_ok lit s rest : no_string rest -> read_option lit (lit ++ print_escaped s ++ rest) = (Some s, rest).
Proof. intros H. unfold read_option. by rewrite read_field_ok. Qed.

(** The empty translation. *)
Lemma read_empty lit rest : no_string (newline :: rest) ->
  read_field lit (lit ++ quote :: quote :: newline :: rest) = Some ([], newline :: rest).
Proof. intros H. by apply (read_field_ok lit [] (newline :: rest)). Qed.

(** The fields of an entry. *)
Lemma log_entry_fields domainname msgid1 msgid2 plural rest :
  log_entry domainname msgid1 msgid2 plural ++ rest =
  let e := entry_of_message domainname msgid1 msgid2 plural in
  cs "domain " ++ print_escaped (po_domain e) ++
  (match po_msgctxt e with Some c => (newline :: cs "msgctxt ") ++ print_escaped c | None => [] end) ++
  (newline :: cs "msgid ") ++ print_escaped (po_msgid e) ++
  (match po_plural e with Some m => (newline :: cs "msgid_plural ") ++ print_escaped m | None => [] end) ++
  (newline :: cs (match po_plural e with Some _ => "msgstr[0] " | None => "msgstr " end)) ++
  quote :: quote :: newline :: newline :: rest.
Proof.
  unfold log_entry, entry_of_message. destruct (split_at MSGCTXT_SEPARATOR msgid1) as [[c m]|], plural;
    cbn [po_domain po_msgctxt po_msgid po_plural]; rewrite <- !app_assoc; cbn [app]; rewrite <- ?app_assoc; cbn [app];
    rewrite <- ?app_assoc; reflexivity.
Qed.

(** A line that does not start with the field is not taken for it. *)
Lemma no_msgctxt l : read_option (newline :: cs "msgctxt ") ((newline :: cs "msgid ") ++ l) = (None, (newline :: cs "msgid ") ++ l).
Proof. reflexivity. Qed.

Lemma no_msgid_plural l : read_option (newline :: cs "msgid_plural ") ((newline :: cs "msgstr ") ++ l) = (None, (newline :: cs "msgstr ") ++ l).
Proof. reflexivity. Qed.

Lemma keyword_no_string x w l : (x =? quote) = false -> no_string ((newline :: x :: w) ++ l).
Proof. intros H. right. by apply Z.eqb_neq. Qed.

Lemma read_entry_ok domainname msgid1 msgid2 plural rest :
  read_entry (log_entry domainname msgid1 msgid2 plural ++ rest) = Some (entry_of_message domainname msgid1 msgid2 plural, rest).
Proof.
  rewrite log_entry_fields. destruct (entry_of_message domainname msgid1 msgid2 plural) as [d c m p].
  cbn zeta. cbn [po_domain po_msgctxt po_msgid po_plural]. unfold read_entry.
  rewrite read_field_ok by (destruct c; [rewrite <- app_assoc|cbn [app]]; by apply keyword_no_string).
  cbn [mbind option_bind].
  assert (Hmid : forall l, read_option (newline :: cs "msgctxt ")
      ((match c with Some c => (newline :: cs "msgctxt ") ++ print_escaped c | None => [] end) ++ (newline :: cs "msgid ") ++ l) =
      (c, (newline :: cs "msgid ") ++ l)).
  { intros l. destruct c as [c|]; [|apply no_msgctxt]. rewrite <- app_assoc. apply read_option_ok. by apply keyword_no_string. }
  rewrite Hmid. rewrite read_field_ok by (destruct p; [rewrite <- app_assoc|cbn [app]]; by apply keyword_no_string).
  cbn [mbind option_bind]. destruct p as [p|].
  - rewrite <- app_assoc, read_option_ok by by apply keyword_no_string. rewrite read_empty by by right.
    cbn [mbind option_bind]. reflexivity.
  - rewrite app_nil_l, no_msgid_plural. rewrite read_empty by by right. reflexivity.
Qed.

(** Entries, up to the end of the file; [n] is enough if there are at most [n]. *)
Fixpoint read_entries (n : nat) (l : list Z) : option (list po_entry) :=
  match l, n with
  | [], _ => Some []
  | _, O => None
  | _, S n => '(e, l) ← read_entry l; es ← read_entries n l; Some (e :: es)
  end.

(** ** The calls *)

(** The entry of a call, and what it means. *)
Definition call_text (c : log_call) : list Z := log_entry (c_domainname c) (c_msgid1 c) (c_msgid2 c) (c_plural c).
Definition call_entry (c : log_call) : po_entry := entry_of_message (c_domainname c) (c_msgid1 c) (c_msgid2 c) (c_plural c).

(** The calls that are not lost: malloc() is needed only to change the file. *)
Fixpoint kept (current : option cstr) (calls : list log_call) : list log_call :=
  match calls with
  | [] => []
  | c :: calls =>
      if bool_decide (current = Some (c_logfilename c)) || c_mal c
      then c :: kept (Some (c_logfilename c)) calls
      else kept None calls
  end.

(** The calls of a list that are for file [f]. *)
Definition calls_for (f : cstr) (calls : list log_call) : list log_call :=
  filter (fun c => c_logfilename c = f) calls.

Lemma read_entries_app n calls : (length calls <= n)%nat ->
  read_entries n (concat (call_text <$> calls)) = Some (call_entry <$> calls).
Proof.
  revert n. induction calls as [|c calls IH]; intros n Hn; [by destruct n|]. destruct n as [|n]; [cbn in Hn; lia|].
  cbn [length] in Hn. cbn [fmap list_fmap concat].
  change (read_entries (S n) (call_text c ++ concat (call_text <$> calls))) with
    ('(e, l) ← read_entry (call_text c ++ concat (call_text <$> calls)); es ← read_entries n l; Some (e :: es)).
  unfold call_text at 1. rewrite read_entry_ok. cbn [mbind option_bind]. by rewrite IH by lia.
Qed.

Lemma length_kept current calls : (length (kept current calls) <= length calls)%nat.
Proof.
  revert current. induction calls as [|c calls IH]; intros current; [done|]. cbn [kept length].
  destruct (_ || _); cbn [length]; [pose proof (IH (Some (c_logfilename c)))|pose proof (IH None)]; lia.
Qed.

(** What a file holds. *)
Definition file_text (f : cstr) (st : log_state) : list Z := default [] (log_files st !! f).

Lemma file_text_append f g text files a b :
  file_text f (LogState a b (append_to g text files)) = default [] (files !! f) ++ (if decide (f = g) then text else []).
Proof.
  unfold file_text, append_to. cbn [log_files]. destruct (decide (f = g)) as [->|Hne].
  - by rewrite lookup_insert_eq.
  - by rewrite lookup_insert_ne, app_nil_r by done.
Qed.

(** The stream that is open is the one of the last file. *)
Definition log_ok (st : log_state) : Prop :=
  last_logfile st = last_logfilename st /\ forall f, last_logfilename st = Some f -> wf_cstr f.

Lemma same_file st c : log_ok st -> wf_cstr (c_logfilename c) -> forall last, last_logfilename st = Some last ->
  negb (strcmp (c_logfilename c) last =? 0) = negb (bool_decide (last_logfilename st = Some (c_logfilename c))).
Proof.
  intros [_ Hw] Hc last E. f_equal. rewrite E. case_bool_decide as H.
  - injection H as ->. apply Z.eqb_eq. apply strcmp_eq; auto.
  - apply Z.eqb_neq. intros H0. apply H. apply strcmp_eq in H0; [by subst|done|by apply Hw].
Qed.

(** One call, when files can be opened. *)
Lemma log_call_ok c st : log_ok st -> wf_cstr (c_logfilename c) -> c_fopen c (c_logfilename c) = true ->
  exists st', _nl_log_untranslated c st = Some st' /\ log_ok st' /\
    if bool_decide (last_logfilename st = Some (c_logfilename c)) || c_mal c
    then last_logfilename st' = Some (c_logfilename c) /\
      forall f, file_text f st' = file_text f st ++ (if decide (f = c_logfilename c) then call_text c else [])
    else last_logfilename st' = None /\ forall f, file_text f st' = file_text f st.
Proof.
  intros Hok Hc Hopen. pose proof (same_file st c Hok Hc) as Hsame. destruct Hok as [Hfile Hw].
  unfold _nl_log_untranslated, _nl_log_untranslated_locked.
  destruct (bool_decide (last_logfilename st = Some (c_logfilename c))) eqn:Ecur.
  - apply bool_decide_eq_true in Ecur. rewrite Ecur in *. rewrite (Hsame _ eq_refl). cbn [negb orb]. rewrite Hfile, ?Ecur.
    eexists. split; [reflexivity|]. split; [by split|]. split; [done|]. intros f. apply file_text_append.
  - assert (Hre : (match last_logfilename st with
        | Some last => if negb (strcmp (c_logfilename c) last =? 0) then reopen (c_mal c) (c_fopen c) (c_logfilename c) st else (true, st)
        | None => reopen (c_mal c) (c_fopen c) (c_logfilename c) st end) = reopen (c_mal c) (c_fopen c) (c_logfilename c) st).
    { destruct (last_logfilename st) as [last|] eqn:El; [|done]. by rewrite (Hsame _ eq_refl). }
    rewrite Hre. unfold reopen. rewrite Hopen. cbn [orb]. destruct (c_mal c).
    + cbn [last_logfile last_logfilename log_files mbind option_bind]. eexists. split; [reflexivity|]. split; [by split; [|intros f [= <-]]|]. split; [done|].
      intros f. rewrite file_text_append. f_equal.
      pose proof (file_text_append f (c_logfilename c) [] (log_files st) None None) as H. unfold file_text in H at 1. cbn [log_files] in H.
      rewrite H. by destruct (decide _); rewrite app_nil_r.
    + eexists. split; [reflexivity|]. split; [split; [|done]|done]. cbn. rewrite Hfile. by destruct (last_logfilename st).
Qed.

Lemma log_calls_ok calls st : log_ok st -> Forall (fun c => wf_cstr (c_logfilename c) /\ c_fopen c (c_logfilename c) = true) calls ->
  exists st', log_calls calls st = Some st' /\
    forall f, file_text f st' = file_text f st ++ concat (call_text <$> calls_for f (kept (last_logfilename st) calls)).
Proof.
  intros Hok Hcalls. revert st Hok. induction Hcalls as [|c calls [Hc Hopen] Hcalls IH]; intros st Hok.
  - exists st. split; [done|]. intros f. cbn. by rewrite app_nil_r.
  - destruct (log_call_ok c st Hok Hc Hopen) as (st1 & E1 & Hok1 & H). destruct (IH st1 Hok1) as (st' & E' & H').
    exists st'. cbn [log_calls kept]. rewrite E1. cbn [mbind option_bind]. split; [done|]. intros f. rewrite H'.
    destruct (_ || _); destruct H as [El Hf]; rewrite El, Hf; [|done]. unfold calls_for at 2. rewrite filter_cons.
    destruct (decide (c_logfilename c = f)) as [->|Hne].
    + rewrite decide_True by done. cbn [fmap list_fmap concat]. by rewrite <- app_assoc.
    + rewrite decide_False by done. by rewrite app_nil_r.
Qed.

(** C12. The log is complete and can be read back.  Whatever calls of [_nl_log_untranslated]
    a program makes, with any file names, messages and contexts, no call uses a stream that is not open as long as files
    can be opened, every file keeps what it had, and what was added to it, read as a PO file with
    its escapes, is in order the message, context, plural and domain of every call for that
    file; only a call that changes the file and gets no memory is lost. *)
Theorem log_roundtrip calls files :
  Forall (fun c => wf_cstr (c_logfilename c) /\ c_fopen c (c_logfilename c) = true) calls ->
  exists st, log_calls calls (log_start files) = Some st /\
    forall f, exists text, file_text f st = default [] (files !! f) ++ text /\
      read_entries (length calls) text = Some (call_entry <$> calls_for f (kept None calls)).
Proof.
  intros Hcalls. destruct (log_calls_ok calls (log_start files)) as (st & Hst & Hf); [by split|done|].
  exists st. split; [done|]. intros f. eexists. split; [apply Hf|]. apply read_entries_app.
  pose proof (length_filter (fun c => c_logfilename c = f) (kept None calls)). pose proof (length_kept None calls).
  unfold calls_for. cbn [log_start last_logfilename]. lia.
Qed.

(** Two files; a message with a context, a line end and quotes, and a plural; the third call gets no memory. *)
Definition example_log_calls : list log_call :=
  [LogCall (cs "a.po") (cs "hello") (cs "menu" ++ [MSGCTXT_SEPARATOR] ++ cs "Say " ++ [quote] ++ cs "x\" ++ [quote; newline]) [] false true (fun _ => true);
   LogCall (cs "a.po") (cs "hello") (cs "a file" ++ [newline] ++ cs "was removed") (cs "files") true false (fun _ => true);
   LogCall (cs "b.po") (cs "bye") (cs "lost") [] false false (fun _ => true);
   LogCall (cs "b.po") (cs "bye") (cs "kept") [] false true (fun _ => true)].

Lemma log_roundtrip_witness : exists st, log_calls example_log_calls (log_start ∅) = Some st /\
  exists text, file_text (cs "a.po") st = text /\ read_entries 4 text =
    Some [PoEntry (cs "hello") (Some (cs "menu")) (cs "Say " ++ [quote] ++ cs "x\" ++ [quote; newline]) None;
          PoEntry (cs "hello") None (cs "a file" ++ [newline] ++ cs "was removed") (Some (cs "files"))].
Proof.
  destruct (log_roundtrip example_log_calls ∅) as (st & H & Hf).
  - repeat constructor; vm_compute; discriminate.
  - exists st. split; [done|]. destruct (Hf (cs "a.po")) as (text & E & Hr). exists text. split; [exact E|exact Hr].
Defined.

(** ** A file that cannot be opened

    The file name is stored before the file is opened.  When that fails the call
    returns, and the next call for the same file uses the null stream. *)
Lemma log_open_failure f d1 m1 n1 p1 d2 m2 n2 p2 mal fopen files : wf_cstr f ->
  exists st, _nl_log_untranslated (LogCall f d1 m1 n1 p1 true (fun _ => false)) (log_start files) = Some st /\
    _nl_log_untranslated (LogCall f d2 m2 n2 p2 mal fopen) st = None.
Proof.
  intros Hf. eexists. split; [reflexivity|]. unfold _nl_log_untranslated, _nl_log_untranslated_locked. cbn.
  by rewrite (proj2 (Z.eqb_eq _ _) (proj2 (strcmp_eq f f Hf Hf) eq_refl)).
Qed.
