(* ===== verification/LocalCharset.v ===== *)
(** * The character encoding of the locale: localcharset.c

    The file charset.alias is read once, into a block of memory that holds
    the pairs one after the other; the encoding of the locale is looked up in it.
    [None] is a crash: an access outside a block. *)

From S2P Require Import Prelude LocalePlatform Log.

Open Scope Z_scope.

(** ** Reading the file *)

(** A stream is what is left to read.  [%50s]: white space is skipped, then at most [n] other bytes are taken. *)
Fixpoint skip_space (l : list Z) : list Z :=
  match l with
  | [] => []
  | c :: rest => if isspace c then skip_space rest else l
  end.

Fixpoint take_word (n : nat) (l : list Z) : list Z * list Z :=
  match n, l with
  | S n, c :: rest => if isspace c then ([], l) else let '(w, r) := take_word n rest in (c :: w, r)
  | _, _ => ([], l)
  end.

Definition scan_word (l : list Z) : option (list Z * list Z) :=
  match take_word 50 (skip_space l) with
  | ([], _) => None
  | r => Some r
  end.

(** [fscanf (fp, "%50s %50s", buf1, buf2)], if it returns 2. *)
Definition scan_pair (l : list Z) : option (cstr * cstr * list Z) :=
  '(w1, l) ← scan_word l;
  '(w2, l) ← scan_word l;
  Some (c_string w1, c_string w2, l).

(** To the end of the line; [None] at the end of the file. *)
Fixpoint skip_comment (l : list Z) : option (list Z) :=
  match l with
  | [] => None
  | c :: l => if c =? 10 then Some l else skip_comment l
  end.

Section Charset.
(** Whether the [k]-th call of malloc() or realloc() succeeds, and what new memory has in it. *)
Context (mal : nat -> bool) (junk : Z).

(** The block after malloc() or realloc(). *)
Definition grow (block : list Z) (size : nat) : list Z := block ++ replicate (size - length block) junk.

(** The pair, behind the others. *)
Definition add_pair (block : list Z) (res_size : nat) (buf1 buf2 : cstr) : option (list Z * nat) :=
  let l1 := length buf1 in
  let l2 := length buf2 in
  let res_size := (res_size + (l1 + 1 + l2 + 1))%nat in
  let block := grow block (res_size + 1) in
  block ← strcpy block (res_size - (l2 + 1) - (l1 + 1)) buf1;
  block ← strcpy block (res_size - (l2 + 1)) buf2;
  Some (block, res_size).

(** The loop over the file, with the number of allocations; the block and its size. *)
Fixpoint read_aliases (fuel : nat) (fp : list Z) (k : nat) (block : list Z) (res_size : nat) : option (list Z * nat) :=
  match fuel with
  | O => None
  | S fuel =>
      match fp with
      | [] => Some (block, res_size)
      | c :: rest =>
          if (c =? 10) || (c =? 32) || (c =? 9) then read_aliases fuel rest k block res_size
          else if c =? chr "#" then
            match skip_comment rest with
            | None => Some (block, res_size)
            | Some rest => read_aliases fuel rest k block res_size
            end
          else
            match scan_pair fp with
            | None => Some (block, res_size)
            | Some (buf1, buf2, rest) =>
                if mal k then
                  '(block, res_size) ← add_pair block res_size buf1 buf2;
                  read_aliases fuel rest (S k) block res_size
                else Some ([], 0%nat)
            end
      end
  end.

(** The block, with a NUL at its end, or the empty string. *)
Definition aliases_of_file (file : list Z) : option (list Z) :=
  '(block, res_size) ← read_aliases (S (length file)) file 0 [] 0;
  if (res_size =? 0)%nat then Some [0]
  else if (res_size <? length block)%nat then Some (<[res_size := 0]> block) else None.

(** Whether a backslash separates directories too; the environment, the place where libraries are installed after relocation, malloc()
    for the name of the file, and the file if it can be opened. *)
Context (backslash : bool) (getenv : cstr -> option cstr) (libdir : cstr) (mal_name : bool) (open_file : cstr -> option (list Z)).

Definition ISSLASH (c : Z) : bool := (c =? chr "/") || backslash && (c =? chr "\").

(** The name of the file. *)
Definition alias_file : cstr :=
  let dir := match getenv (cs "CHARSETALIASDIR") with Some ((_ :: _) as dir) => dir | _ => libdir end in
  let add_slash := (0 <? length dir)%nat && negb (ISSLASH (nth (length dir - 1) dir 0)) in
  dir ++ (if add_slash then [chr "/"] else []) ++ cs "charset.alias".

(** [charset_aliases] is the static variable. *)
Definition get_charset_aliases (charset_aliases : option (list Z)) : option (list Z * option (list Z)) :=
  match charset_aliases with
  | Some cp => Some (cp, charset_aliases)
  | None =>
      cp ← (if mal_name then
              match open_file alias_file with
              | None => Some [0]
              | Some file => aliases_of_file file
              end
            else Some [0]);
      Some (cp, Some cp)
  end.

(** ** The lookup *)

(** [aliases + strlen (aliases) + 1] *)
Fixpoint after_string (p : list Z) : option (list Z) :=
  match p with
  | [] => None
  | c :: p => if c =? 0 then Some p else after_string p
  end.

(** The loop over the pairs. *)
Fixpoint resolve (fuel : nat) (codeset : cstr) (aliases : list Z) : option cstr :=
  c ← aliases !! 0%nat;
  if c =? 0 then Some codeset
  else
    match fuel with
    | O => None
    | S fuel =>
        next ← after_string aliases;
        if (strcmp codeset (c_string aliases) =? 0) || ((c =? chr "*") && (nth 1 aliases 0 =? 0)) then
          _ ← after_string next; Some (c_string next)
        else
          aliases ← after_string next; resolve fuel codeset aliases
    end.

(** [codeset] is what nl_langinfo (CODESET) returns; [one_byte] whether this is Mac OS X and MB_CUR_MAX is 1. *)
Definition locale_charset (one_byte : bool) (codeset : option cstr) (charset_aliases : option (list Z)) : option (cstr * option (list Z)) :=
  '(aliases, charset_aliases) ← get_charset_aliases charset_aliases;
  codeset ← resolve (length aliases) (default [] codeset) aliases;
  let codeset := match codeset with [] => cs "ASCII" | _ => codeset end in
  Some (if (strcmp codeset (cs "UTF-8") =? 0) && one_byte then cs "ASCII" else codeset, charset_aliases).

(** [codeset] on systems without nl_langinfo(). *)
Definition codeset_of_environment : option cstr :=
  match getenv (cs "LC_ALL") with
  | Some ((_ :: _) as locale) => Some locale
  | _ => match getenv (cs "LC_CTYPE") with Some ((_ :: _) as locale) => Some locale | _ => getenv (cs "LANG") end
  end.
End Charset.

(** ** Systems whose aliases are in the program *)

Definition block_of (l : list (string * string)) : list Z :=
  concat (map (fun '(a, b) => cs a ++ 0 :: cs b ++ [0]) l) ++ [0].

Definition darwin_table : list (string * string) := [
  ("ISO8859-1", "ISO-8859-1"); ("ISO8859-2", "ISO-8859-2"); ("ISO8859-4", "ISO-8859-4"); ("ISO8859-5", "ISO-8859-5");
  ("ISO8859-7", "ISO-8859-7"); ("ISO8859-9", "ISO-8859-9"); ("ISO8859-13", "ISO-8859-13"); ("ISO8859-15", "ISO-8859-15");
  ("KOI8-R", "KOI8-R"); ("KOI8-U", "KOI8-U"); ("CP866", "CP866"); ("CP949", "CP949"); ("CP1131", "CP1131");
  ("CP1251", "CP1251"); ("eucCN", "GB2312"); ("GB2312", "GB2312"); ("eucJP", "EUC-JP"); ("eucKR", "EUC-KR");
  ("Big5", "BIG5"); ("Big5HKSCS", "BIG5-HKSCS"); ("GBK", "GBK"); ("GB18030", "GB18030"); ("SJIS", "SHIFT_JIS");
  ("ARMSCII-8", "ARMSCII-8"); ("PT154", "PT154"); ("*", "UTF-8")]%string.

Definition vms_table : list (string * string) := [
  ("ISO8859-1", "ISO-8859-1"); ("ISO8859-2", "ISO-8859-2"); ("ISO8859-5", "ISO-8859-5"); ("ISO8859-7", "ISO-8859-7");
  ("ISO8859-8", "ISO-8859-8"); ("ISO8859-9", "ISO-8859-9"); ("eucJP", "EUC-JP"); ("SJIS", "SHIFT_JIS");
  ("DECKANJI", "DEC-KANJI"); ("SDECKANJI", "EUC-JP"); ("eucTW", "EUC-TW"); ("DECHANYU", "DEC-HANYU");
  ("DECHANZI", "GB2312"); ("DECKOREAN", "EUC-KR")]%string.

Definition windows_table : list (string * string) := [
  ("CP936", "GBK"); ("CP1361", "JOHAB"); ("CP20127", "ASCII"); ("CP20866", "KOI8-R"); ("CP20936", "GB2312");
  ("CP21866", "KOI8-RU"); ("CP28591", "ISO-8859-1"); ("CP28592", "ISO-8859-2"); ("CP28593", "ISO-8859-3");
  ("CP28594", "ISO-8859-4"); ("CP28595", "ISO-8859-5"); ("CP28596", "ISO-8859-6"); ("CP28597", "ISO-8859-7");
  ("CP28598", "ISO-8859-8"); ("CP28599", "ISO-8859-9"); ("CP28605", "ISO-8859-15"); ("CP38598", "ISO-8859-8");
  ("CP51932", "EUC-JP"); ("CP51936", "GB2312"); ("CP51949", "EUC-KR"); ("CP51950", "EUC-TW"); ("CP54936", "GB18030");
  ("CP65001", "UTF-8")]%string.

(** ** The codeset on each system

    Which name is looked up in the aliases depends on the system: nl_langinfo(), the
    environment, or the number of a code page, written into the static buffer [buf]. *)

(** The systems the conditional compilation distinguishes, apart from whether there is nl_langinfo(). *)
Inductive charset_os := OtherOs | Djgpp | Darwin7 | Vms | Cygwin | WindowsNative | Os2.

#[export] Instance charset_os_eq_dec : EqDecision charset_os.
Proof. solve_decision. Defined.

(** [%u]: a number below 10^[fuel] in decimal. *)
Fixpoint print_unsigned (fuel : nat) (n : Z) : cstr :=
  match fuel with
  | O => []
  | S fuel => if n <? 10 then [chr "0" + n] else print_unsigned fuel (n / 10) ++ [chr "0" + n mod 10]
  end.

Definition code_page_name (n : Z) : cstr := cs "CP" ++ print_unsigned 10 n.

(** [sprintf (buf, "CP%u", n)], then [buf] is the codeset. *)
Definition sprintf_code_page (buf : list Z) (n : Z) : option (list Z) := strcpy buf 0 (code_page_name n).

(** The encoding after the dot, and the buffer: it is in the environment, or in [buf] without the modifier.  The inner [None]:
    there is none, or it is too long. *)
Definition encoding_after_dot (buf : list Z) (locale : cstr) : option (option cstr * list Z) :=
  match split_at (chr ".") locale with
  | None => Some (None, buf)
  | Some (_, dot) =>
      match split_at (chr "@") dot with
      | None => Some (Some dot, buf)
      | Some (encoding, _) =>
          if (length encoding <? length buf)%nat then
            buf ← strcpy buf 0 encoding;
            Some (Some (c_string buf), buf)
          else Some (None, buf)
      end
  end.

(** What the first half comes to: a name that is returned at once, or the codeset to look up. *)
Inductive codeset_result := Returned (name : cstr) | LookUp (codeset : option cstr).

(** What the system says: nl_langinfo (CODESET), GetACP(), the first code page of DosQueryCp(), and whether MB_CUR_MAX is 1. *)
Record system_answers := SystemAnswers {
  sa_langinfo : option cstr; sa_acp : Z; sa_dos_cp : option Z; sa_one_byte : bool
}.

Section System.
Context (os : charset_os) (HAVE_LANGINFO_CODESET : bool) (getenv : cstr -> option cstr) (sys : system_answers).

(** On Cygwin, if nl_langinfo() says US-ASCII. *)
Definition cygwin_codeset (buf : list Z) : option (codeset_result * list Z) :=
  '(encoding, buf) ← (match codeset_of_environment getenv with
                       | Some ((_ :: _) as locale) => encoding_after_dot buf locale
                       | _ => Some (None, buf)
                       end);
  match encoding with
  | Some encoding => Some (Returned encoding, buf)
  | None => buf ← sprintf_code_page buf (sa_acp sys); Some (LookUp (Some (c_string buf)), buf)
  end.

Definition os2_codeset (buf : list Z) : option (codeset_result * list Z) :=
  match codeset_of_environment getenv with
  | Some ((_ :: _) as locale) =>
      '(encoding, buf) ← encoding_after_dot buf locale;
      Some (match encoding with Some encoding => Returned encoding | None => LookUp (Some locale) end, buf)
  | _ =>
      match sa_dos_cp sys with
      | None => Some (LookUp (Some []), buf)
      | Some cp => buf ← sprintf_code_page buf cp; Some (LookUp (Some (c_string buf)), buf)
      end
  end.

(** The first half of locale_charset(). *)
Definition find_codeset (buf : list Z) : option (codeset_result * list Z) :=
  match os with
  | WindowsNative => buf ← sprintf_code_page buf (sa_acp sys); Some (LookUp (Some (c_string buf)), buf)
  | Os2 => os2_codeset buf
  | _ =>
      if HAVE_LANGINFO_CODESET then
        match os, sa_langinfo sys with
        | Cygwin, Some codeset => if strcmp codeset (cs "US-ASCII") =? 0 then cygwin_codeset buf else Some (LookUp (Some codeset), buf)
        | _, codeset => Some (LookUp codeset, buf)
        end
      else Some (LookUp (codeset_of_environment getenv), buf)
  end.

(** The aliases that are in the program; the other systems read the file. *)
Definition builtin_table : option (list (string * string)) :=
  match os with
  | Darwin7 => Some darwin_table
  | Vms => Some vms_table
  | WindowsNative | Cygwin => Some windows_table
  | OtherOs | Djgpp | Os2 => None
  end.

(** Native Windows, Cygwin, OS/2, DOS *)
Definition has_backslash : bool :=
  match os with WindowsNative | Cygwin | Os2 | Djgpp => true | OtherOs | Darwin7 | Vms => false end.

(** The whole function: the static variables are [buf] and [charset_aliases]. *)
Definition locale_charset_on (mal : nat -> bool) (junk : Z) (libdir : cstr) (mal_name : bool) (open_file : cstr -> option (list Z))
    (st : list Z * option (list Z)) : option (cstr * (list Z * option (list Z))) :=
  let '(buf, charset_aliases) := st in
  '(found, buf) ← find_codeset buf;
  match found with
  | Returned name => Some (name, (buf, charset_aliases))
  | LookUp codeset =>
      let charset_aliases := match charset_aliases with Some _ => charset_aliases | None => block_of <$> builtin_table end in
      '(name, charset_aliases) ← locale_charset mal junk has_backslash getenv libdir mal_name open_file
        (bool_decide (os = Darwin7) && sa_one_byte sys) codeset charset_aliases;
      Some (name, (buf, charset_aliases))
  end.
End System.

(** [static char buf[2 + 10 + 1]] *)
Definition charset_buf : list Z := replicate 13 0.
