(* ===== verification/LocalCharsetSpec.v ===== *)
(** * The encoding of the locale is looked up in the file of aliases

    [parse_pairs] reads the file without memory; the block holds these pairs for every
    file, whatever bytes it has. *)

From S2P Require Import Prelude LocalePlatform Log LocalCharset.

Open Scope Z_scope.

(** ** The pairs of a file *)

Fixpoint parse_loop (fuel : nat) (l : list Z) : list (cstr * cstr) :=
  match fuel, l with
  | O, _ | _, [] => []
  | S fuel, c :: rest =>
      if (c =? 10) || (c =? 32) || (c =? 9) then parse_loop fuel rest
      else if c =? chr "#" then match skip_comment rest with None => [] | Some rest => parse_loop fuel rest end
      else match scan_pair l with None => [] | Some (a, b, rest) => (a, b) :: parse_loop fuel rest end
  end.

Definition parse_pairs (file : list Z) : list (cstr * cstr) := parse_loop (S (length file)) file.

(** A file: empty lines, comments, and lines with an alias and its canonical name. *)
Inductive line := Blank (c : Z) | Comment (s : list Z) | Alias (a : cstr) (space : list Z) (b : cstr).

Definition word_ok (w : cstr) : Prop := wf_cstr w /\ w <> [] /\ (length w <= 50)%nat /\ Forall (fun c => isspace c = false) w.

Definition line_ok (x : line) : Prop :=
  match x with
  | Blank c => c = 10 \/ c = 32 \/ c = 9
  | Comment s => 10 ∉ s
  | Alias a space b => word_ok a /\ word_ok b /\ cur a <> chr "#" /\ space <> [] /\ Forall (fun c => isspace c = true) space
  end.

Definition print_line (x : line) : list Z :=
  match x with
  | Blank c => [c]
  | Comment s => chr "#" :: s ++ [10]
  | Alias a space b => a ++ space ++ b ++ [10]
  end.

Definition pairs_of (x : line) : list (cstr * cstr) := match x with Alias a _ b => [(a, b)] | _ => [] end.

Lemma take_word_ok n w rest : Forall (fun c => isspace c = false) w -> (length w <= n)%nat -> isspace (cur rest) = true ->
  take_word n (w ++ rest) = (w, rest).
Proof.
  intros Hw. revert n. induction Hw as [|c w Hc Hw IH]; intros n Hn Hr; cbn [app].
  - destruct rest as [|c rest]; [done|]. cbn in Hr. destruct n; cbn; [done|]. by rewrite Hr.
  - destruct n as [|n]; [cbn in Hn; lia|]. cbn [take_word]. rewrite Hc. cbn in Hn. by rewrite IH by (done || lia).
Qed.

Lemma skip_space_ok space rest : Forall (fun c => isspace c = true) space -> isspace (cur rest) = false -> rest <> [] ->
  skip_space (space ++ rest) = rest.
Proof.
  intros Hs Hr Hne. induction Hs as [|c space Hc Hs IH]; cbn [app skip_space]; [|by rewrite Hc].
  destruct rest as [|c rest]; [done|]. cbn in *. by rewrite Hr.
Qed.

Lemma scan_word_ok space w rest : Forall (fun c => isspace c = true) space -> word_ok w -> isspace (cur rest) = true ->
  scan_word (space ++ w ++ rest) = Some (w, rest).
Proof.
  intros Hs (_ & Hne & Hlen & Hw) Hr. unfold scan_word. destruct w as [|c w]; [done|]. apply Forall_cons in Hw as Hc.
  rewrite skip_space_ok by (try done; by destruct Hc). by rewrite (take_word_ok 50 (c :: w) rest).
Qed.

Lemma c_string_word w : wf_cstr w -> c_string w = w.
Proof. intros H. pose proof (c_string_wf w [] H) as E. cbn in E. by rewrite !app_nil_r in E. Qed.

Lemma skip_comment_ok s rest : 10 ∉ s -> skip_comment (s ++ 10 :: rest) = Some rest.
Proof.
  induction s as [|c s IH]; [done|]. intros [Hc Hs]%not_elem_of_cons. cbn [app skip_comment].
  rewrite (proj2 (Z.eqb_neq c 10)) by congruence. by apply IH.
Qed.

Lemma parse_written fuel x l : line_ok x -> (length (print_line x ++ l) < fuel)%nat ->
  exists fuel', parse_loop fuel (print_line x ++ l) = pairs_of x ++ parse_loop fuel' l /\ (length l < fuel')%nat.
Proof.
  intros Hx Hf. destruct fuel as [|fuel]; [lia|].
  destruct x as [c|s|a space b]; cbn [print_line line_ok pairs_of] in *.
  - exists fuel. cbn [app parse_loop length] in *. split; [|lia]. by destruct Hx as [->|[->| ->]].
  - exists fuel. cbn [app] in *. cbn [parse_loop]. rewrite <- app_assoc. cbn [app]. rewrite skip_comment_ok by done. split; [done|].
    rewrite <- app_assoc in Hf. cbn [length] in Hf. rewrite length_app in Hf. cbn in Hf. lia.
  - destruct Hx as (Ha & Hb & Hcom & Hne & Hsp). exists (pred fuel).
    assert (Ea : exists c w, a = c :: w /\ isspace c = false).
    { destruct Ha as (_ & Hn & _ & Hw). destruct a as [|c w]; [done|]. apply Forall_cons in Hw as [Hc _]. by exists c, w. }
    destruct Ea as (c & w & Ea & Hc).
    assert (Hscan : scan_pair (a ++ space ++ b ++ 10 :: l) = Some (a, b, 10 :: l)).
    { unfold scan_pair. assert (Hcur : isspace (cur (space ++ b ++ 10 :: l)) = true).
      { destruct space as [|x space]; [done|]. by apply Forall_cons in Hsp as [Hx _]. }
      pose proof (scan_word_ok [] a (space ++ b ++ 10 :: l) ltac:(constructor) Ha Hcur) as E1. cbn [app] in E1. rewrite E1.
      cbn [mbind option_bind]. rewrite (scan_word_ok space b (10 :: l)) by done. cbn [mbind option_bind].
      by rewrite !c_string_word by (apply Ha || apply Hb). }
    rewrite <- !app_assoc in *. cbn [app] in *. rewrite Ea in *. cbn [app] in *. cbn [parse_loop].
    assert (Hns : (c =? 10) || (c =? 32) || (c =? 9) = false).
    { unfold isspace in Hc. destruct (Z.eqb_spec c 10), (Z.eqb_spec c 32), (Z.eqb_spec c 9); subst; done. }
    cbn in Hcom. rewrite Hns, (proj2 (Z.eqb_neq c (chr "#"))) by done. rewrite Hscan. cbn [app].
    assert (Hl : (S (length l) < fuel)%nat).
    { cbn [length] in Hf. rewrite !length_app in Hf. destruct space; [done|]. cbn in Hf. lia. }
    destruct fuel as [|fuel]; [lia|]. split; [done|cbn; lia].
Qed.

Definition file_of (items : list line) : list Z := concat (print_line <$> items).

Definition pairs_in (items : list line) : list (cstr * cstr) := concat (pairs_of <$> items).

Lemma parse_items items fuel : Forall line_ok items -> (length (file_of items) < fuel)%nat ->
  parse_loop fuel (file_of items) = pairs_in items.
Proof.
  intros Hok. revert fuel. induction Hok as [|x items Hx Hok IH]; intros fuel Hf.
  - by destruct fuel.
  - unfold file_of, pairs_in in *. cbn [fmap list_fmap concat] in *.
    destruct fuel as [|fuel]; [lia|].
    destruct (parse_written (S fuel) x (concat (print_line <$> items)) Hx ltac:(lia)) as (fuel' & E & Hf').
    rewrite E. f_equal. by apply IH.
Qed.

(** ** The block *)

(** The pairs, each string with its NUL. *)
Definition encode_pairs (ps : list (cstr * cstr)) : list Z := concat ((fun '(a, b) => a ++ 0 :: b ++ [0]) <$> ps).

Lemma encode_snoc ps a b : encode_pairs (ps ++ [(a, b)]) = encode_pairs ps ++ a ++ 0 :: b ++ [0].
Proof. unfold encode_pairs. rewrite fmap_app, concat_app. cbn. by rewrite app_nil_r. Qed.

(** strcpy() into the middle of a block. *)
Lemma strcpy_at pre mid post s : length mid = S (length s) ->
  strcpy (pre ++ mid ++ post) (length pre) s = Some (pre ++ s ++ 0 :: post).
Proof.
  intros Hm. unfold strcpy. rewrite !length_app. rewrite (proj2 (Nat.ltb_lt _ _)) by lia. f_equal.
  rewrite take_app_length. f_equal. f_equal. f_equal.
  replace (length pre + length s + 1)%nat with (length pre + length mid)%nat by lia.
  rewrite <- drop_drop, drop_app_length. by rewrite drop_app_length.
Qed.

(** The block of the pairs: one more byte, unless it is empty. *)
Definition is_block (ps : list (cstr * cstr)) (block : list Z) (res_size : nat) : Prop :=
  res_size = length (encode_pairs ps) /\
  exists extra, block = encode_pairs ps ++ extra /\ if decide (ps = []) then extra = [] else length extra = 1%nat.

Section Block.
Context (mal : nat -> bool) (junk : Z).

Lemma add_pair_ok ps block res_size a b : is_block ps block res_size ->
  exists block' size', add_pair junk block res_size a b = Some (block', size') /\ is_block (ps ++ [(a, b)]) block' size'.
Proof using Type.
  intros (-> & extra & -> & Hextra). unfold add_pair. cbn zeta. set (e := encode_pairs ps).
  assert (Hle : (length extra <= 1)%nat) by (case_decide; [rewrite Hextra; cbn|]; lia).
  assert (Hgrow : exists mid1 mid2 last, grow junk (e ++ extra) (length e + (length a + 1 + length b + 1) + 1) = e ++ mid1 ++ mid2 ++ last /\
    length mid1 = S (length a) /\ length mid2 = S (length b) /\ length last = 1%nat).
  { unfold grow. rewrite <- app_assoc, length_app.
    set (r := extra ++ replicate _ junk).
    assert (Hr : length r = (S (length a) + (S (length b) + 1))%nat) by (unfold r; rewrite length_app, length_replicate; lia).
    exists (take (S (length a)) r), (take (S (length b)) (drop (S (length a)) r)), (drop (S (length b)) (drop (S (length a)) r)).
    rewrite !take_drop. split; [done|]. rewrite !length_take, !length_drop. lia. }
  destruct Hgrow as (mid1 & mid2 & last & Hg & H1 & H2 & H3).
  rewrite Hg. replace (length e + (length a + 1 + length b + 1) - (length b + 1) - (length a + 1))%nat with (length e) by lia.
  rewrite (strcpy_at e mid1 (mid2 ++ last) a H1). cbn [mbind option_bind].
  replace (length e + (length a + 1 + length b + 1) - (length b + 1))%nat with (length (e ++ a ++ [0]))
    by (rewrite !length_app; cbn; lia).
  replace (e ++ a ++ 0 :: mid2 ++ last) with ((e ++ a ++ [0]) ++ mid2 ++ last) by (by rewrite <- !app_assoc).
  rewrite (strcpy_at (e ++ a ++ [0]) mid2 last b H2). cbn [mbind option_bind].
  eexists _, _. split; [reflexivity|]. split.
  - rewrite encode_snoc. fold e. rewrite !length_app. cbn. rewrite !length_app. cbn. lia.
  - exists last. rewrite encode_snoc, decide_False by (by destruct ps). fold e. split; [|done].
    rewrite <- !app_assoc. cbn. by rewrite <- !app_assoc.
Qed.

Lemma scan_word_length l w r : scan_word l = Some (w, r) -> (length r < length l)%nat.
Proof using Type.
  assert (Hskip : forall l, (length (skip_space l) <= length l)%nat).
  { induction l0 as [|c l0 IH]; [done|]. cbn. destruct (isspace c); cbn; lia. }
  assert (Htake : forall n l, (length (take_word n l).1 + length (take_word n l).2 = length l)%nat).
  { induction n as [|n IH]; intros [|c l0]; try done. cbn [take_word]. destruct (isspace c); [done|].
    pose proof (IH l0). destruct (take_word n l0). cbn in *. lia. }
  unfold scan_word. pose proof (Hskip l). pose proof (Htake 50%nat (skip_space l)).
  destruct (take_word 50 (skip_space l)) as [[|c w'] r']; [done|]. cbn in *. intros [= <- <-]. lia.
Qed.

Lemma scan_pair_length l a b r : scan_pair l = Some (a, b, r) -> (length r < length l)%nat.
Proof using Type.
  unfold scan_pair. destruct (scan_word l) as [[w1 l1]|] eqn:E1; [|done]. cbn [mbind option_bind].
  destruct (scan_word l1) as [[w2 l2]|] eqn:E2; [|done]. intros [= <- <- <-].
  pose proof (scan_word_length _ _ _ E1). pose proof (scan_word_length _ _ _ E2). lia.
Qed.

(** Reading the file: the pairs so far and those to come, or nothing if memory is short. *)
Lemma read_aliases_ok fuel fp k ps block res_size : is_block ps block res_size -> (length fp < fuel)%nat ->
  exists block' size', read_aliases mal junk fuel fp k block res_size = Some (block', size') /\
    exists ps', is_block ps' block' size' /\
      (ps' = ps ++ parse_loop fuel fp \/
       ps' = [] /\ exists j, (j < length (parse_loop fuel fp))%nat /\ mal (k + j)%nat = false).
Proof using Type.
  revert fp k ps block res_size. induction fuel as [|fuel IH]; intros fp k ps block res_size Hb Hf; [lia|].
  destruct fp as [|c rest]; cbn [read_aliases parse_loop].
  { exists block, res_size. split; [done|]. exists ps. split; [done|]. left. by rewrite app_nil_r. }
  cbn [length] in Hf. destruct (_ || _); [apply IH; [done|lia]|]. destruct (c =? chr "#").
  - destruct (skip_comment rest) as [rest'|] eqn:E.
    + apply IH; [done|]. enough (length rest' <= length rest)%nat by lia. clear -E. revert rest' E.
      induction rest as [|x rest IH]; intros rest' E; [done|]. cbn in E. cbn [length].
      destruct (x =? 10); [injection E as ->; lia|]. pose proof (IH _ E). lia.
    + exists block, res_size. split; [done|]. exists ps. split; [done|]. left. by rewrite app_nil_r.
  - destruct (scan_pair (c :: rest)) as [[[a b] rest']|] eqn:E.
    + destruct (mal k) eqn:Em.
      * destruct (add_pair_ok ps block res_size a b Hb) as (block1 & size1 & -> & Hb1). cbn [mbind option_bind].
        destruct (IH rest' (S k) _ _ _ Hb1) as (block' & size' & E' & ps' & Hb' & Hps).
        { pose proof (scan_pair_length _ _ _ _ E) as Hl. cbn [length] in Hl. lia. }
        exists block', size'. split; [done|]. exists ps'. split; [done|]. destruct Hps as [->|(-> & j & Hj & Hm)].
        -- left. by rewrite <- app_assoc.
        -- right. split; [done|]. exists (S j). cbn [length]. split; [lia|]. by rewrite Nat.add_succ_r.
      * exists [], 0%nat. split; [done|]. exists []. split; [split; [done|by exists []]|]. right. split; [done|].
        exists 0%nat. cbn [length]. rewrite Nat.add_0_r. split; [lia|done].
    + exists block, res_size. split; [done|]. exists ps. split; [done|]. left. by rewrite app_nil_r.
Qed.
End Block.

Definition bytes_ok (l : list Z) : Prop := Forall (fun c => 0 <= c < 256) l.

Lemma c_string_is_bytes l : bytes_ok l -> wf_cstr (c_string l).
Proof.
  induction 1 as [|c l Hc _ IH]; cbn [c_string]; [constructor|]. destruct (Z.eqb_spec c 0); [constructor|].
  apply wf_cstr_cons. split; [lia|done].
Qed.

Lemma scan_word_bytes l w r : bytes_ok l -> scan_word l = Some (w, r) -> bytes_ok w /\ bytes_ok r.
Proof.
  assert (Hskip : forall l, bytes_ok l -> bytes_ok (skip_space l)).
  { induction 1 as [|c l0 Hc Hl IH]; cbn; [constructor|]. destruct (isspace c); [done|by constructor]. }
  assert (Htake : forall n l, bytes_ok l -> bytes_ok (take_word n l).1 /\ bytes_ok (take_word n l).2).
  { induction n as [|n IH]; intros [|c l0] Hl; cbn [take_word fst snd]; (try by split; [constructor|done]).
    destruct (isspace c); [by split; [constructor|done]|]. apply Forall_cons in Hl as [Hc Hl]. destruct (IH l0 Hl) as [H1 H2].
    destruct (take_word n l0). cbn in *. split; [by constructor|done]. }
  intros Hl. unfold scan_word. destruct (Htake 50%nat _ (Hskip l Hl)) as [H1 H2].
  destruct (take_word 50 (skip_space l)) as [[|c w'] r']; [done|]. by intros [= <- <-].
Qed.

Lemma parse_loop_wf fuel l a b : bytes_ok l -> (a, b) ∈ parse_loop fuel l -> wf_cstr a /\ wf_cstr b.
Proof.
  revert l. induction fuel as [|fuel IH]; intros l Hl Hin; [by apply not_elem_of_nil in Hin|]. destruct l as [|c rest];
    cbn [parse_loop] in Hin; [by apply not_elem_of_nil in Hin|]. apply Forall_cons in Hl as Hc. destruct Hc as [_ Hrest].
  destruct (_ || _); [by apply (IH rest)|]. destruct (c =? chr "#").
  - destruct (skip_comment rest) as [rest'|] eqn:E; [|by apply not_elem_of_nil in Hin]. apply (IH rest'); [|done].
    clear -Hrest E. induction rest as [|x rest IH]; [done|]. cbn in E. apply Forall_cons in Hrest as [_ Hr].
    destruct (x =? 10); [by injection E as <-|by apply IH].
  - unfold scan_pair in Hin. destruct (scan_word (c :: rest)) as [[w1 l1]|] eqn:E1; [|by apply not_elem_of_nil in Hin].
    cbn [mbind option_bind] in Hin. destruct (scan_word_bytes _ _ _ Hl E1) as [H1 Hl1].
    destruct (scan_word l1) as [[w2 l2]|] eqn:E2; [|by apply not_elem_of_nil in Hin].
    destruct (scan_word_bytes _ _ _ Hl1 E2) as [H2 Hl2].
    apply elem_of_cons in Hin as [[= -> ->]|Hin]; [split; by apply c_string_is_bytes|by apply (IH l2)].
Qed.

(** ** The lookup *)

(** The first alias that is the codeset or a star; an empty one ends the list. *)
Fixpoint look_up (codeset : cstr) (ps : list (cstr * cstr)) : cstr :=
  match ps with
  | [] => codeset
  | (a, b) :: ps => if decide (a = []) then codeset else if decide (codeset = a \/ a = cs "*") then b else look_up codeset ps
  end.

Lemma c_string_zero s rest : wf_cstr s -> c_string (s ++ 0 :: rest) = s /\ after_string (s ++ 0 :: rest) = Some rest.
Proof.
  induction s as [|c s IH]; [done|]. intros [Hc Hs]%wf_cstr_cons. cbn [app c_string after_string].
  rewrite (proj2 (Z.eqb_neq c 0)) by lia. destruct (IH Hs) as [-> ->]. done.
Qed.

Lemma is_star a rest : wf_cstr a -> a <> [] ->
  (cur a =? chr "*") && (nth 1 (a ++ 0 :: rest) 0 =? 0) = bool_decide (a = cs "*").
Proof.
  intros Hw Hne. destruct a as [|c a]; [done|]. cbn [cur]. destruct (Z.eqb_spec c (chr "*")) as [->|Hc]; cbn [andb].
  - destruct a as [|d a]; [by rewrite bool_decide_true|]. cbn. apply wf_cstr_cons in Hw as [_ Hw]. apply wf_cstr_cons in Hw as [Hd _].
    rewrite (proj2 (Z.eqb_neq d 0)) by lia. by rewrite bool_decide_false.
  - rewrite bool_decide_false; [done|]. intros [=]. by apply Hc.
Qed.

Lemma resolve_ok fuel codeset ps : (length ps < fuel)%nat -> wf_cstr codeset ->
  (forall a b, (a, b) ∈ ps -> wf_cstr a /\ wf_cstr b) ->
  resolve fuel codeset (encode_pairs ps ++ [0]) = Some (look_up codeset ps).
Proof.
  intros Hf Hcs. revert ps Hf. induction fuel as [|fuel IH]; intros ps Hf Hps; [lia|].
  destruct ps as [|[a b] ps]; [done|]. destruct (Hps a b (list_elem_of_here _ _)) as [Ha Hb].
  replace (encode_pairs ((a, b) :: ps) ++ [0]) with (a ++ 0 :: b ++ 0 :: encode_pairs ps ++ [0])
    by (unfold encode_pairs; cbn; rewrite <- !app_assoc; cbn; by rewrite <- !app_assoc).
  destruct (c_string_zero a (b ++ 0 :: encode_pairs ps ++ [0]) Ha) as [E1 E2].
  destruct (c_string_zero b (encode_pairs ps ++ [0]) Hb) as [E3 E4].
  cbn [resolve look_up]. case_decide as Hane; [by subst a|].
  assert (Hhead : (a ++ 0 :: b ++ 0 :: encode_pairs ps ++ [0]) !! 0%nat = Some (cur a)) by by destruct a.
  rewrite Hhead. cbn [mbind option_bind]. assert (cur a <> 0) as Hc by (destruct a; [done|]; apply wf_cstr_cons in Ha; cbn; lia).
  rewrite (proj2 (Z.eqb_neq _ _) Hc), E2. cbn [mbind option_bind]. rewrite E1, is_star by done.
  assert (Hcmp : (strcmp codeset a =? 0) = bool_decide (codeset = a)).
  { case_bool_decide as E; [apply Z.eqb_eq|apply Z.eqb_neq]; by rewrite strcmp_eq. }
  rewrite Hcmp, <- bool_decide_or. rewrite E4. cbn [mbind option_bind]. clear Hcmp. case_bool_decide as E.
  - rewrite decide_True by done. by rewrite E3.
  - rewrite decide_False by done. apply IH; [cbn [length] in Hf; lia|]. intros a' b' Hin. apply Hps. by apply list_elem_of_further.
Qed.

Lemma length_encode ps : (length ps <= length (encode_pairs ps))%nat.
Proof.
  induction ps as [|[a b] ps IH]; [done|]. unfold encode_pairs in *. cbn [fmap list_fmap concat length]. rewrite !length_app. cbn. lia.
Qed.

(** The block of a file. *)
Lemma aliases_of_file_ok mal junk file : exists ps, aliases_of_file mal junk file = Some (encode_pairs ps ++ [0]) /\
  (ps = parse_pairs file \/ ps = [] /\ exists k, (k < length (parse_pairs file))%nat /\ mal k = false).
Proof.
  unfold aliases_of_file. destruct (read_aliases_ok mal junk (S (length file)) file 0 [] [] 0) as (block & size & E & ps & Hb & Hps).
  { split; [done|by exists []]. }
  { lia. }
  rewrite E. cbn [mbind option_bind]. exists ps. split; [|exact Hps]. destruct Hb as (-> & extra & -> & Hx).
  case_decide as Hne.
  - subst ps extra. done.
  - pose proof (length_encode ps). destruct ps as [|p ps]; [done|]. cbn [length] in *.
    rewrite (proj2 (Nat.eqb_neq _ _)) by lia. rewrite length_app, (proj2 (Nat.ltb_lt _ _)) by lia. f_equal.
    destruct extra as [|x [|? ?]]; [done| |done]. rewrite insert_app_r_alt by lia. by rewrite Nat.sub_diag.
Qed.

(** The name that is returned: never empty, and ASCII instead of an UTF-8 that does not work. *)
Definition charset_name (one_byte : bool) (codeset : cstr) (ps : list (cstr * cstr)) : cstr :=
  let name := look_up codeset ps in
  let name := if decide (name = []) then cs "ASCII" else name in
  if decide (name = cs "UTF-8" /\ one_byte = true) then cs "ASCII" else name.

Lemma charset_name_nonempty one_byte codeset ps : charset_name one_byte codeset ps <> [].
Proof. unfold charset_name. repeat case_decide; done. Qed.

Lemma look_up_wf codeset ps : wf_cstr codeset -> (forall a b, (a, b) ∈ ps -> wf_cstr a /\ wf_cstr b) -> wf_cstr (look_up codeset ps).
Proof.
  intros Hc. induction ps as [|[a b] ps IH]; intros Hps; [done|]. cbn [look_up]. case_decide; [done|]. case_decide.
  - apply (Hps a b), list_elem_of_here.
  - apply IH. intros a' b' Hin. apply Hps. by apply list_elem_of_further.
Qed.

(** The file that is read: in the directory CHARSETALIASDIR, if it is set and not empty, else where the libraries are; behind the last
    separator of the directory, or a slash if it does not end with one of the separators of the system. *)
Definition wanted_file (separators : list Z) (getenv : cstr -> option cstr) (libdir : cstr) : cstr :=
  let dir := match getenv (cs "CHARSETALIASDIR") with Some dir => if decide (dir = []) then libdir else dir | None => libdir end in
  match last dir with
  | None => cs "charset.alias"
  | Some c => if decide (c ∈ separators) then dir ++ cs "charset.alias" else dir ++ cs "/charset.alias"
  end.

Lemma alias_file_is backslash getenv libdir :
  alias_file backslash getenv libdir = wanted_file (if backslash then cs "/\" else cs "/") getenv libdir.
Proof.
  unfold alias_file, wanted_file.
  assert (E : match getenv (cs "CHARSETALIASDIR") with Some ((_ :: _) as dir) => dir | _ => libdir end =
    match getenv (cs "CHARSETALIASDIR") with Some dir => if decide (dir = []) then libdir else dir | None => libdir end)
    by by destruct (getenv _) as [[|? ?]|].
  rewrite E. clear E. set (dir := match getenv _ with Some _ => _ | None => libdir end).
  destruct dir as [|c d _] using rev_ind; [done|]. rewrite last_snoc, length_app. cbn [length].
  rewrite (proj2 (Nat.ltb_lt _ _)), app_nth2, Nat.add_sub, Nat.sub_diag by lia. cbn [nth andb].
  assert (E : ISSLASH backslash c = bool_decide (c ∈ (if backslash then cs "/\" else cs "/"))).
  { apply Bool.eq_true_iff_eq. rewrite bool_decide_eq_true. unfold ISSLASH. rewrite orb_true_iff, andb_true_iff, !Z.eqb_eq.
    replace (if backslash then cs "/\" else cs "/") with (chr "/" :: if backslash then [chr "\"] else []) by by destruct backslash.
    rewrite elem_of_cons. destruct backslash; rewrite ?list_elem_of_singleton; [tauto|]. split; [intros [?|[? _]]; [by left|done]|].
    intros [?|H]; [by left|by apply not_elem_of_nil in H]. }
  rewrite E. clear E. case_bool_decide as E; [by rewrite decide_True|by rewrite decide_False].
Qed.

Section Charset.
Context (mal : nat -> bool) (junk : Z) (backslash : bool) (getenv : cstr -> option cstr) (libdir : cstr) (mal_name : bool).
Context (open_file : cstr -> option (list Z)) (one_byte : bool).

Lemma resolve_block codeset ps : (forall s, codeset = Some s -> wf_cstr s) -> (forall a b, (a, b) ∈ ps -> wf_cstr a /\ wf_cstr b) ->
  locale_charset mal junk backslash getenv libdir mal_name open_file one_byte codeset (Some (encode_pairs ps ++ [0])) =
  Some (charset_name one_byte (default [] codeset) ps, Some (encode_pairs ps ++ [0])).
Proof using Type.
  intros Hc Hps. assert (Hcs : wf_cstr (default [] codeset)) by (destruct codeset as [s|]; [by apply Hc|constructor]).
  unfold locale_charset, get_charset_aliases. cbn [mbind option_bind].
  rewrite resolve_ok; [|rewrite length_app; cbn; pose proof (length_encode ps); lia|done|done]. cbn [mbind option_bind]. f_equal. f_equal.
  unfold charset_name. pose proof (look_up_wf _ ps Hcs Hps) as Hw. set (name := look_up _ ps) in *.
  replace (match name with [] => cs "ASCII" | _ => name end) with (if decide (name = []) then cs "ASCII" else name) by by destruct name.
  set (name' := if decide (name = []) then cs "ASCII" else name).
  assert (Hw' : wf_cstr name').
  { unfold name'. case_decide; [|done]. by apply (bool_decide_eq_true_1 _); vm_compute. }
  assert (E : (strcmp name' (cs "UTF-8") =? 0) = bool_decide (name' = cs "UTF-8")).
  { case_bool_decide as E; [apply Z.eqb_eq|apply Z.eqb_neq]; rewrite strcmp_eq; try done;
      by apply (bool_decide_eq_true_1 _); vm_compute. }
  rewrite E. clear E. case_bool_decide as En; destruct one_byte; cbn [andb]; case_decide as Hd; try done; exfalso; intuition congruence.
Qed.
End Charset.

(** The encoding of the locale.  Whatever bytes the file charset.alias holds, and whichever calls of malloc() or
    realloc() fail, locale_charset() stays inside its block of memory and returns a name that is not empty; the
    file is read once, and later calls find the same pairs.  If the file can be read and is a list of
    comments, empty lines and pairs of words of at most 50 bytes, the pairs are those of the file, and the result is the
    canonical name of the first alias that is the codeset or a star, else the codeset itself, and ASCII if there is none. *)
Theorem locale_charset_correct mal junk backslash getenv libdir mal_name open_file one_byte codeset :
  (forall file, open_file (alias_file backslash getenv libdir) = Some file -> bytes_ok file) -> (forall s, codeset = Some s -> wf_cstr s) ->
  exists ps,
    let aliases := Some (encode_pairs ps ++ [0]) in
    locale_charset mal junk backslash getenv libdir mal_name open_file one_byte codeset None =
      Some (charset_name one_byte (default [] codeset) ps, aliases) /\
    charset_name one_byte (default [] codeset) ps <> [] /\
    (forall codeset' mal' mal_name' open_file', (forall s, codeset' = Some s -> wf_cstr s) ->
       locale_charset mal' junk backslash getenv libdir mal_name' open_file' one_byte codeset' aliases =
         Some (charset_name one_byte (default [] codeset') ps, aliases)) /\
    (open_file (alias_file backslash getenv libdir) = None -> ps = []) /\
    (mal_name = true -> (forall k, mal k = true) -> forall items, Forall line_ok items ->
       open_file (alias_file backslash getenv libdir) = Some (file_of items) -> ps = pairs_in items).
Proof.
  intros Hfile Hc. cbn zeta.
  assert (H : exists ps, get_charset_aliases mal junk backslash getenv libdir mal_name open_file None =
      Some (encode_pairs ps ++ [0], Some (encode_pairs ps ++ [0])) /\ (forall a b, (a, b) ∈ ps -> wf_cstr a /\ wf_cstr b) /\
      (open_file (alias_file backslash getenv libdir) = None -> ps = []) /\
      (mal_name = true -> (forall k, mal k = true) -> forall file, open_file (alias_file backslash getenv libdir) = Some file -> ps = parse_pairs file)).
  { assert (Hnone : forall a b : cstr, (a, b) ∈ [] -> wf_cstr a /\ wf_cstr b) by (intros a b Hin; by apply not_elem_of_nil in Hin).
    unfold get_charset_aliases. destruct mal_name; [|by exists []].
    destruct (open_file (alias_file backslash getenv libdir)) as [file|]; [|by exists []].
    destruct (aliases_of_file_ok mal junk file) as (ps & E & Hps). rewrite E. exists ps. split; [done|]. split; [|split; [done|]].
    - destruct Hps as [->|[-> _]]; [|exact Hnone]. intros a b. apply parse_loop_wf. by apply Hfile.
    - intros _ Hmal file' [= <-]. destruct Hps as [?|(_ & k & _ & Hk)]; [done|]. by rewrite Hmal in Hk. }
  destruct H as (ps & Hget & Hwf & Hnofile & Hparse). exists ps.
  assert (Hall : forall codeset' mal' mal_name' open_file', (forall s, codeset' = Some s -> wf_cstr s) ->
       locale_charset mal' junk backslash getenv libdir mal_name' open_file' one_byte codeset' (Some (encode_pairs ps ++ [0])) =
         Some (charset_name one_byte (default [] codeset') ps, Some (encode_pairs ps ++ [0]))).
  { intros. by apply resolve_block. }
  split_and!; [|apply charset_name_nonempty|exact Hall|exact Hnofile|].
  - rewrite <- (Hall codeset mal mal_name open_file Hc). unfold locale_charset. by rewrite Hget.
  - intros Hm Hmal items Hitems Hopen. rewrite (Hparse Hm Hmal _ Hopen). apply parse_items; [done|]. unfold file_of. lia.
Qed.

Definition example_aliases : list line :=
  [Comment (cs " Aliases"); Blank 10; Alias (cs "iso8859_1") [32; 9] (cs "ISO-8859-1"); Alias (cs "*") [32] (cs "UTF-8")].

Definition example_open (name : cstr) : option (list Z) :=
  if decide (name = cs "/usr/lib/charset.alias") then Some (file_of example_aliases) else None.

Lemma locale_charset_correct_witness :
  exists aliases, locale_charset (fun _ => true) 0 false (fun _ => None) (cs "/usr/lib") true example_open false (Some (cs "iso8859_1")) None =
    Some (cs "ISO-8859-1", aliases).
Proof.
  destruct (locale_charset_correct (fun _ => true) 0 false (fun _ => None) (cs "/usr/lib") true example_open false (Some (cs "iso8859_1")))
    as (ps & E & _ & _ & _ & Hps).
  - intros file H. assert (example_open (alias_file false (fun _ => None) (cs "/usr/lib")) = Some (file_of example_aliases)) as E by by vm_compute.
    rewrite E in H. injection H as <-. by apply (bool_decide_eq_true_1 _); vm_compute.
  - intros s [= <-]. by apply (bool_decide_eq_true_1 _); vm_compute.
  - assert (ps = pairs_in example_aliases) as ->.
    { apply Hps; try done.
      repeat constructor; try done; by apply (bool_decide_eq_true_1 _); vm_compute. }
    eexists. rewrite E. reflexivity.
Defined.

(** ** The whole function on each system *)

(** ** Decimal names *)

Lemma print_unsigned_nonempty fuel n : fuel <> 0%nat -> print_unsigned fuel n <> [].
Proof. destruct fuel; [done|]. cbn [print_unsigned]. intros _. destruct (n <? 10); [done|]. intros H. by apply app_eq_nil in H as [_ ?]. Qed.

Lemma print_unsigned_length fuel n : (length (print_unsigned fuel n) <= fuel)%nat.
Proof.
  revert n. induction fuel as [|fuel IH]; intros n; [done|]. cbn [print_unsigned].
  case_if; [cbn; lia|]. rewrite length_app. cbn. specialize (IH (n / 10)). lia.
Qed.

Lemma print_unsigned_digits fuel n : 0 <= n -> Forall (fun c => chr "0" <= c <= chr "9") (print_unsigned fuel n).
Proof.
  change (chr "0") with 48. change (chr "9") with 57.
  revert n. induction fuel as [|fuel IH]; intros n Hn; cbn [print_unsigned]; change (chr "0") with 48; [constructor|].
  case_if; [constructor; [lia|constructor]|]. apply Forall_app. split; [apply IH; by apply Z.div_pos|].
  pose proof (Z.mod_pos_bound n 10). constructor; [lia|constructor].
Qed.

Lemma print_unsigned_inj fuel n m : 0 <= n < 10 ^ Z.of_nat fuel -> 0 <= m < 10 ^ Z.of_nat fuel ->
  print_unsigned fuel n = print_unsigned fuel m -> n = m.
Proof.
  revert n m. induction fuel as [|fuel IH]; intros n m Hn Hm E; [cbn in *; lia|].
  rewrite Nat2Z.inj_succ, Z.pow_succ_r in Hn, Hm by lia. cbn [print_unsigned] in E.
  assert (Hone : forall k x y, 10 <= k < 10 * 10 ^ Z.of_nat fuel -> [x] <> print_unsigned fuel (k / 10) ++ [y]).
  { intros k x y Hk Ex. destruct fuel as [|fuel]; [cbn in Hk; lia|].
    destruct (print_unsigned (S fuel) (k / 10)) as [|d [|? ?]] eqn:Ed; [by apply print_unsigned_nonempty in Ed|done..]. }
  destruct (Z.ltb_spec n 10), (Z.ltb_spec m 10).
  - injection E. lia.
  - by apply Hone in E; [|lia].
  - by apply eq_sym, Hone in E; [|lia].
  - apply app_inj_tail in E as [E [= E2]]. apply IH in E;
      [|split; [apply Z.div_pos; lia|apply Z.div_lt_upper_bound; lia]..].
    rewrite (Z.div_mod n 10), (Z.div_mod m 10) by lia. rewrite E. lia.
Qed.

Lemma code_page_name_wf n : 0 <= n -> wf_cstr (code_page_name n).
Proof.
  intros Hn. unfold code_page_name. apply wf_cstr_app. split; [by apply (bool_decide_eq_true_1 _); vm_compute|].
  eapply Forall_impl; [by apply print_unsigned_digits|].
  change (chr "0") with 48. change (chr "9") with 57. cbn beta. lia.
Qed.

Lemma code_page_name_inj n m : 0 <= n < 2 ^ 32 -> 0 <= m < 2 ^ 32 -> code_page_name n = code_page_name m -> n = m.
Proof. intros Hn Hm E. apply app_inv_head in E. apply (print_unsigned_inj 10); [cbn; lia..|done]. Qed.

(** ** The encoding in a locale name *)

Lemma split_at_spec c s :
  match split_at c s with Some (a, b) => s = a ++ c :: b /\ c ∉ a | None => c ∉ s end.
Proof.
  induction s as [|x s IH]; cbn [split_at]; [apply not_elem_of_nil|]. destruct (Z.eqb_spec x c) as [->|Hne].
  - split; [done|apply not_elem_of_nil].
  - destruct (split_at c s) as [[a b]|]; cbn [mbind option_bind].
    + destruct IH as [-> Ha]. split; [done|]. apply not_elem_of_cons. by split.
    + apply not_elem_of_cons. by split.
Qed.

Lemma split_at_app c a b : c ∉ a -> split_at c (a ++ c :: b) = Some (a, b).
Proof.
  induction a as [|x a IH]; cbn [app split_at]; intros Ha; [by rewrite Z.eqb_refl|].
  apply not_elem_of_cons in Ha as [Hx Ha]. rewrite (proj2 (Z.eqb_neq x c)) by congruence. by rewrite IH.
Qed.

Lemma split_at_none c s : c ∉ s -> split_at c s = None.
Proof. intros H. pose proof (split_at_spec c s) as E. destruct (split_at c s) as [[a b]|]; [|done]. destruct E as [-> _]. set_solver. Qed.

(** language_TERRITORY.encoding, and a modifier after it, then the encoding has at most 12 bytes. *)
Definition names_encoding (locale encoding : cstr) : Prop :=
  exists lang rest, locale = lang ++ (chr "." :: encoding ++ rest) /\ chr "." ∉ lang /\ chr "@" ∉ encoding /\
    (rest = [] \/ ((length encoding <= 12)%nat /\ exists modifier, rest = chr "@" :: modifier)).

Lemma strcpy_buf buf s : (length s < length buf)%nat -> wf_cstr s ->
  exists buf', strcpy buf 0 s = Some buf' /\ length buf' = length buf /\ c_string buf' = s.
Proof.
  intros Hl Hw. unfold strcpy. rewrite (proj2 (Nat.ltb_lt _ _)) by lia. eexists. split; [done|]. split.
  - rewrite !length_app, length_cons, length_drop. change (length (take 0 buf)) with 0%nat. lia.
  - change (take 0 buf) with (@nil Z). cbn [app]. rewrite c_string_wf by done. cbn. apply app_nil_r.
Qed.

Lemma names_encoding_below lang dot encoding : chr "." ∉ lang ->
  names_encoding (lang ++ chr "." :: dot) encoding <->
  exists rest, dot = encoding ++ rest /\ chr "@" ∉ encoding /\
    (rest = [] \/ ((length encoding <= 12)%nat /\ exists modifier, rest = chr "@" :: modifier)).
Proof.
  intros Hlang. split.
  - intros (l & r & E & Hl & H). exists r. split; [|done]. pose proof (split_at_app _ lang dot Hlang) as E1.
    rewrite E, split_at_app in E1 by done. congruence.
  - intros (r & -> & H). by exists lang, r.
Qed.

(** The result does not depend on what is in the buffer. *)
Lemma encoding_after_dot_ok locale : wf_cstr locale ->
  exists found, (forall encoding, found = Some encoding <-> names_encoding locale encoding) /\
    forall buf, length buf = 13%nat -> exists buf', encoding_after_dot buf locale = Some (found, buf') /\ length buf' = 13%nat.
Proof.
  intros Hw. unfold encoding_after_dot. pose proof (split_at_spec (chr ".") locale) as Hdot.
  destruct (split_at (chr ".") locale) as [[lang dot]|].
  2: { exists None. split; [|eauto]. intros e. split; [done|]. intros (l & r & -> & _). set_solver. }
  destruct Hdot as [-> Hlang]. apply wf_cstr_app in Hw as [_ [_ Hw]%wf_cstr_cons].
  setoid_rewrite (names_encoding_below lang dot _ Hlang).
  pose proof (split_at_spec (chr "@") dot) as Hat. destruct (split_at (chr "@") dot) as [[e m]|].
  - destruct Hat as [-> He]. apply wf_cstr_app in Hw as [Hw _].
    assert (Hu : forall e' rest, e ++ chr "@" :: m = e' ++ rest -> chr "@" ∉ e' ->
      (rest = [] \/ ((length e' <= 12)%nat /\ exists m', rest = chr "@" :: m')) -> e' = e /\ (length e <= 12)%nat).
    { intros e' rest E He' [->|[Hl [m' ->]]]; [rewrite app_nil_r in E; subst e'; set_solver|].
      pose proof (split_at_app _ e m He) as E1. rewrite E, split_at_app in E1 by done. injection E1 as -> _. done. }
    destruct (decide (length e <= 12)%nat) as [Hlt|Hge].
    + exists (Some e). split.
      * intros e'. split; [intros [= <-]|intros (rest & E & He' & Hr); by destruct (Hu e' rest E He' Hr) as [-> _]].
        exists (chr "@" :: m). split_and!; [done..|]. right. split; [lia|by exists m].
      * intros buf Hb. rewrite (proj2 (Nat.ltb_lt _ _)) by lia. destruct (strcpy_buf buf e ltac:(lia) Hw) as (buf' & -> & Hl' & Ec).
        cbn [mbind option_bind]. rewrite Ec. exists buf'. split; [done|congruence].
    + exists None. split.
      * intros e'. split; [done|]. intros (rest & E & He' & Hr). destruct (Hu e' rest E He' Hr). lia.
      * intros buf Hb. rewrite (proj2 (Nat.ltb_ge _ _)) by lia. eauto.
  - exists (Some dot). split; [|eauto]. intros e'. split.
    + intros [= <-]. exists []. rewrite app_nil_r. split_and!; [done..|by left].
    + intros (rest & -> & He' & [->|[_ [m ->]]]); [by rewrite app_nil_r|set_solver].
Qed.

Lemma names_encoding_unique locale e1 e2 : wf_cstr locale -> names_encoding locale e1 -> names_encoding locale e2 -> e1 = e2.
Proof. intros Hw. destruct (encoding_after_dot_ok locale Hw) as (found & Hf & _). intros H1%Hf H2%Hf. congruence. Qed.

(** ** Code pages *)

(** The canonical names, by number. *)
Definition code_pages : list (Z * string) := [
  (936, "GBK"); (1361, "JOHAB"); (20127, "ASCII"); (20866, "KOI8-R"); (20936, "GB2312"); (21866, "KOI8-RU");
  (28591, "ISO-8859-1"); (28592, "ISO-8859-2"); (28593, "ISO-8859-3"); (28594, "ISO-8859-4"); (28595, "ISO-8859-5");
  (28596, "ISO-8859-6"); (28597, "ISO-8859-7"); (28598, "ISO-8859-8"); (28599, "ISO-8859-9"); (28605, "ISO-8859-15");
  (38598, "ISO-8859-8"); (51932, "EUC-JP"); (51936, "GB2312"); (51949, "EUC-KR"); (51950, "EUC-TW"); (54936, "GB18030");
  (65001, "UTF-8")]%string.

Definition code_page_charset (n : Z) : cstr :=
  match (list_to_map code_pages : gmap Z string) !! n with Some name => cs name | None => code_page_name n end.

Definition pairs_of_table (l : list (Z * string)) : list (cstr * cstr) := (fun '(n, s) => (code_page_name n, cs s)) <$> l.

Lemma windows_pairs : table_of windows_table = pairs_of_table code_pages.
Proof. by vm_compute. Qed.

Lemma look_up_code_page l n : 0 <= n < 2 ^ 32 -> Forall (fun p => 0 <= p.1 < 2 ^ 32) l ->
  look_up (code_page_name n) (pairs_of_table l) =
  match (list_to_map l : gmap Z string) !! n with Some name => cs name | None => code_page_name n end.
Proof.
  intros Hn. induction 1 as [|[m s] l Hm Hl IH]; [done|]. cbn [pairs_of_table fmap list_fmap look_up list_to_map foldr curry].
  rewrite decide_False by (unfold code_page_name; done). cbn [fst] in Hm. destruct (decide (n = m)) as [->|Hne].
  - rewrite decide_True by by left. cbn. by rewrite lookup_insert_eq.
  - rewrite decide_False; [cbn; by rewrite lookup_insert_ne by done|].
    intros [E|E]; [|discriminate E]. apply code_page_name_inj in E; [done|lia..].
Qed.

(** ** The tables are lists of pairs *)

Lemma block_pairs l : block_of l = encode_pairs (table_of l) ++ [0].
Proof. unfold block_of, encode_pairs, table_of. f_equal. f_equal. induction l as [|[a b] l IH]; [done|]. cbn. by rewrite IH. Qed.

Lemma builtin_wf os table : builtin_table os = Some table -> forall a b, (a, b) ∈ table_of table -> wf_cstr a /\ wf_cstr b.
Proof.
  intros Ht. assert (Hall : Forall (fun p => wf_cstr p.1 /\ wf_cstr p.2) (table_of table)).
  { destruct os; try discriminate Ht; injection Ht as <-; by apply (bool_decide_eq_true_1 _); vm_compute. }
  intros a b Hin. rewrite Forall_forall in Hall. by apply Hall in Hin.
Qed.

(** ** The codeset of a system *)

Section Found.
Context (os : charset_os) (HAVE_LANGINFO_CODESET : bool) (getenv : cstr -> option cstr) (sys : system_answers).

(** The systems that look for an encoding in the environment. *)
Definition asks_environment : Prop :=
  os = Os2 \/ (os = Cygwin /\ HAVE_LANGINFO_CODESET = true /\ sa_langinfo sys = Some (cs "US-ASCII")).

Definition locale_of_environment : option cstr := locale ← codeset_of_environment getenv; if decide (locale = []) then None else Some locale.

(** What locale_charset() looks up, or returns. *)
Inductive codeset_is : codeset_result -> Prop :=
  | encoding_is locale encoding : asks_environment -> locale_of_environment = Some locale -> names_encoding locale encoding ->
      codeset_is (Returned encoding)
  | cygwin_is : os = Cygwin -> asks_environment ->
      (forall locale encoding, locale_of_environment = Some locale -> ~ names_encoding locale encoding) ->
      codeset_is (LookUp (Some (code_page_name (sa_acp sys))))
  | os2_locale_is locale : os = Os2 -> locale_of_environment = Some locale -> (forall encoding, ~ names_encoding locale encoding) ->
      codeset_is (LookUp (Some locale))
  | os2_is : os = Os2 -> locale_of_environment = None ->
      codeset_is (LookUp (Some (default [] (code_page_name <$> sa_dos_cp sys))))
  | windows_is : os = WindowsNative -> codeset_is (LookUp (Some (code_page_name (sa_acp sys))))
  | langinfo_is : os <> WindowsNative -> ~ asks_environment -> HAVE_LANGINFO_CODESET = true -> codeset_is (LookUp (sa_langinfo sys))
  | environment_is : os <> WindowsNative -> os <> Os2 -> HAVE_LANGINFO_CODESET = false ->
      codeset_is (LookUp (codeset_of_environment getenv)).

(** C strings, and 32-bit numbers. *)
Record answers_ok : Prop := {
  ao_getenv name value : getenv name = Some value -> wf_cstr value;
  ao_langinfo codeset : sa_langinfo sys = Some codeset -> wf_cstr codeset;
  ao_acp : 0 <= sa_acp sys < 2 ^ 32;
  ao_dos cp : sa_dos_cp sys = Some cp -> 0 <= cp < 2 ^ 32
}.

Context (Hok : answers_ok).

Lemma environment_wf locale : codeset_of_environment getenv = Some locale -> wf_cstr locale.
Proof using Hok.
  unfold codeset_of_environment. pose proof (ao_getenv Hok) as H.
  destruct (getenv (cs "LC_ALL")) as [[|]|] eqn:E1; [|intros [= <-]; by apply H in E1|];
    (destruct (getenv (cs "LC_CTYPE")) as [[|]|] eqn:E2; [|intros [= <-]; by apply H in E2|]; apply H).
Qed.

Lemma sprintf_ok buf n : length buf = 13%nat -> 0 <= n ->
  exists buf', sprintf_code_page buf n = Some buf' /\ length buf' = 13%nat /\ c_string buf' = code_page_name n.
Proof using Type.
  intros Hb Hn. destruct (strcpy_buf buf (code_page_name n)) as (buf' & E & Hl & Hc); [|by apply code_page_name_wf|].
  - unfold code_page_name. rewrite length_app. pose proof (print_unsigned_length 10 n).
    change (length (cs "CP")) with 2%nat. lia.
  - exists buf'. split_and!; [done|congruence|done].
Qed.

#[local] Hint Resolve environment_wf ao_langinfo : core.

(** The environment is asked, and the code goes on if there is no encoding in it. *)
Lemma environment_encoding : exists found,
  (forall encoding, found = Some encoding -> exists locale, locale_of_environment = Some locale /\ names_encoding locale encoding) /\
  (found = None -> forall locale encoding, locale_of_environment = Some locale -> ~ names_encoding locale encoding) /\
  forall buf, length buf = 13%nat -> exists buf', length buf' = 13%nat /\
    match codeset_of_environment getenv with
    | Some ((_ :: _) as locale) => encoding_after_dot buf locale
    | _ => Some (None, buf)
    end = Some (found, buf').
Proof using Hok.
  unfold locale_of_environment. destruct (codeset_of_environment getenv) as [[|c s]|] eqn:E; cbn [mbind option_bind].
  1,3: exists None; split_and!; [done..|]; intros buf Hl; by exists buf.
  rewrite decide_False by done. destruct (encoding_after_dot_ok (c :: s)) as (found & Hf & Hb); [by apply environment_wf|].
  exists found. split_and!.
  - intros e He%Hf. by exists (c :: s).
  - intros -> l e [= <-] He%Hf. done.
  - intros buf Hl. destruct (Hb buf Hl) as (buf' & E' & Hl'). by exists buf'.
Qed.

Lemma code_page_ok n buf : 0 <= n -> length buf = 13%nat ->
  exists buf', (buf ← sprintf_code_page buf n; Some (LookUp (Some (c_string buf)), buf)) = Some (LookUp (Some (code_page_name n)), buf') /\
    length buf' = 13%nat.
Proof using Type. intros Hn Hb. destruct (sprintf_ok buf n Hb Hn) as (buf' & -> & Hl & <-). by exists buf'. Qed.

(** One answer, whatever is in the buffer. *)
Definition answers (step : list Z -> option (codeset_result * list Z)) : Prop := exists found, codeset_is found /\
  forall buf, length buf = 13%nat -> exists buf', step buf = Some (found, buf') /\ length buf' = 13%nat.

Lemma os2_ok : os = Os2 -> answers (os2_codeset getenv sys).
Proof using Hok.
  intros Ho. destruct environment_encoding as (enc & Hsome & Hnone & Henc). unfold answers, os2_codeset.
  destruct locale_of_environment as [locale|] eqn:El.
  - assert (E : exists c s, codeset_of_environment getenv = Some (c :: s) /\ locale = c :: s).
    { unfold locale_of_environment in El. destruct (codeset_of_environment getenv) as [[|c s]|]; try discriminate El.
      injection El as <-. by exists c, s. }
    destruct E as (c & s & E & ->). rewrite E in Henc |- *. destruct enc as [e|].
    + destruct (Hsome e eq_refl) as (l & Hl & He). exists (Returned e).
      split; [apply (encoding_is l); [by left|congruence|done]|].
      intros buf Hb. destruct (Henc buf Hb) as (buf' & Hl' & ->). by exists buf'.
    + exists (LookUp (Some (c :: s))). split; [apply os2_locale_is; [done..|]; intros e; by apply (Hnone eq_refl)|].
      intros buf Hb. destruct (Henc buf Hb) as (buf' & Hl' & ->). by exists buf'.
  - exists (LookUp (Some (default [] (code_page_name <$> sa_dos_cp sys)))). split; [by apply os2_is|]. intros buf Hb.
    assert (E : match codeset_of_environment getenv with Some (_ :: _) => False | _ => True end).
    { unfold locale_of_environment in El. by destruct (codeset_of_environment getenv) as [[|c s]|]. }
    destruct (codeset_of_environment getenv) as [[|c s]|]; try done;
      (destruct (sa_dos_cp sys) as [cp|] eqn:Ecp; [apply code_page_ok; [by apply (ao_dos Hok)|done]|by exists buf]).
Qed.

Lemma cygwin_ok : os = Cygwin -> asks_environment -> answers (cygwin_codeset getenv sys).
Proof using Hok.
  intros Hc Ha. pose proof (ao_acp Hok) as Hacp. destruct environment_encoding as (enc & Hsome & Hnone & Henc). unfold answers, cygwin_codeset.
  destruct enc as [e|].
  - destruct (Hsome e eq_refl) as (l & Hl & He). exists (Returned e). split; [by apply (encoding_is l)|].
    intros buf Hb. destruct (Henc buf Hb) as (buf' & Hl' & ->). by exists buf'.
  - exists (LookUp (Some (code_page_name (sa_acp sys)))). split; [apply cygwin_is; eauto|].
    intros buf Hb. destruct (Henc buf Hb) as (buf' & Hl' & ->). cbn [mbind option_bind]. apply code_page_ok; [lia|done].
Qed.

(** For each system there is one answer, and the buffer is large enough. *)
Lemma find_codeset_ok : answers (find_codeset os HAVE_LANGINFO_CODESET getenv sys).
Proof using Hok.
  pose proof (ao_acp Hok) as Hacp.
  unfold find_codeset. destruct (decide (os = WindowsNative)) as [Hw|Hw].
  { exists (LookUp (Some (code_page_name (sa_acp sys)))). split; [by apply windows_is|]. intros buf Hb. rewrite Hw. apply code_page_ok; [lia|done]. }
  destruct (decide (os = Os2)) as [Ho|Ho].
  { pose proof (os2_ok Ho) as H. rewrite Ho. exact H. }
  destruct HAVE_LANGINFO_CODESET eqn:Hlang.
  2: { exists (LookUp (codeset_of_environment getenv)). split; [by apply environment_is|]. intros buf Hb. exists buf. by destruct os. }
  destruct (decide (os = Cygwin /\ sa_langinfo sys = Some (cs "US-ASCII"))) as [[Hc Ha]|Hn].
  { pose proof (cygwin_ok Hc ltac:(by right)) as H. rewrite Hc, Ha. exact H. }
  exists (LookUp (sa_langinfo sys)). split.
  - apply langinfo_is; [done| |done]. unfold asks_environment. rewrite Hlang. tauto.
  - intros buf Hb. exists buf. split; [|done]. destruct os eqn:Eos; try done.
    destruct (sa_langinfo sys) as [codeset|] eqn:Ecs; [|done]. destruct (Z.eqb_spec (strcmp codeset (cs "US-ASCII")) 0) as [E|E]; [|done].
    apply strcmp_eq in E as ->; [by destruct Hn|by apply (ao_langinfo Hok)|by apply (bool_decide_eq_true_1 _); vm_compute].
Qed.
End Found.

(** ** locale_charset() *)

(** What separates directories. *)
Definition separators (os : charset_os) : list Z :=
  if decide (os ∈ [WindowsNative; Cygwin; Os2; Djgpp]) then cs "/\" else cs "/".

Lemma file_of_system os getenv libdir : alias_file (has_backslash os) getenv libdir = wanted_file (separators os) getenv libdir.
Proof. rewrite alias_file_is. by destruct os. Qed.

Section Whole.
Context (os : charset_os) (HAVE_LANGINFO_CODESET : bool) (getenv : cstr -> option cstr) (sys : system_answers) (junk : Z) (libdir : cstr).

(** One call: what malloc() and fopen() do may differ between calls. *)
Definition charset_call (mal : nat -> bool) (mal_name : bool) (open_file : cstr -> option (list Z)) :=
  locale_charset_on os HAVE_LANGINFO_CODESET getenv sys mal junk libdir mal_name open_file.

Definition one_byte : bool := bool_decide (os = Darwin7) && sa_one_byte sys.

Context (Hok : answers_ok getenv sys).

Lemma codeset_is_wf codeset : codeset_is os HAVE_LANGINFO_CODESET getenv sys (LookUp (Some codeset)) -> wf_cstr codeset.
Proof using Hok.
  pose proof (ao_acp _ _ Hok) as Hacp. intros H. inversion H as [| ? ? ? E | ? ? El ? E | ? ? E | ? E | ? ? ? E | ? ? ? E]; subst.
  1,4: apply code_page_name_wf; lia.
  - unfold locale_of_environment in El. destruct (codeset_of_environment getenv) as [l|] eqn:Ee; [|done]. cbn in El.
    case_decide; [done|]. injection El as <-. by apply (environment_wf _ _ Hok).
  - destruct (sa_dos_cp sys) as [cp|] eqn:Ecp; [|constructor]. apply code_page_name_wf. by apply (ao_dos _ _ Hok).
  - by apply (ao_langinfo _ _ Hok).
  - by apply (environment_wf _ _ Hok).
Qed.
(** The pairs: those of the table in the program, or of the file. *)
Definition pairs_are (mal : nat -> bool) (mal_name : bool) (open_file : cstr -> option (list Z)) (ps : list (cstr * cstr)) : Prop :=
  match builtin_table os with
  | Some table => ps = table_of table
  | None =>
      (open_file (wanted_file (separators os) getenv libdir) = None -> ps = []) /\
      (mal_name = true -> (forall k, mal k = true) -> forall items, Forall line_ok items ->
         open_file (wanted_file (separators os) getenv libdir) = Some (file_of items) -> ps = pairs_in items)
  end.

(** The second half, with an empty static variable and with the one that the first call leaves. *)
Lemma look_up_ok mal mal_name open_file codeset : (forall file, open_file (wanted_file (separators os) getenv libdir) = Some file -> bytes_ok file) ->
  (forall s, codeset = Some s -> wf_cstr s) ->
  exists ps, let aliases := Some (encode_pairs ps ++ [0]) in
    let name := charset_name one_byte (default [] codeset) ps in
    pairs_are mal mal_name open_file ps /\
    locale_charset mal junk (has_backslash os) getenv libdir mal_name open_file one_byte codeset (block_of <$> builtin_table os) = Some (name, aliases) /\
    forall mal' mal_name' open_file',
      locale_charset mal' junk (has_backslash os) getenv libdir mal_name' open_file' one_byte codeset aliases = Some (name, aliases).
Proof using Type.
  intros Hfile Hc. cbn zeta. unfold pairs_are. destruct (builtin_table os) as [table|] eqn:Et.
  - exists (table_of table). cbn [fmap option_fmap option_map]. rewrite block_pairs. pose proof (builtin_wf os table Et) as Hwf.
    split_and!; [done|by apply resolve_block|]. intros. by apply resolve_block.
  - destruct (locale_charset_correct mal junk (has_backslash os) getenv libdir mal_name open_file one_byte codeset)
      as (ps & E & _ & Hlater & Hnone & Hpairs); [by rewrite file_of_system|done|]. rewrite file_of_system in *. exists ps. split_and!; [done..|]. intros. by apply Hlater.
Qed.

Lemma code_page_name_charset n ps : os = WindowsNative \/ os = Cygwin -> ps = pairs_of_table code_pages -> 0 <= n < 2 ^ 32 ->
  charset_name one_byte (code_page_name n) ps = code_page_charset n.
Proof using Type.
  intros Hos -> Hn. unfold charset_name. rewrite look_up_code_page; [|done|by apply (bool_decide_eq_true_1 _); vm_compute].
  fold (code_page_charset n). assert (Hne : code_page_charset n <> []).
  { unfold code_page_charset. destruct (list_to_map code_pages !! n) as [s|] eqn:E; [|done].
    apply elem_of_list_to_map_2 in E. intros Es. destruct s; [|done].
    assert (Hall : Forall (fun p => p.2 <> ""%string) code_pages) by by apply (bool_decide_eq_true_1 _); vm_compute.
    rewrite Forall_forall in Hall. by apply Hall in E. }
  rewrite !(decide_False (P := code_page_charset n = [])) by done. rewrite decide_False; [done|].
  unfold one_byte. intros [_ H]. by destruct Hos as [-> | ->].
Qed.
End Whole.

(** C11. The encoding of the locale on every system.  There is one answer to look for: on Windows the name of the code page; on
    OS/2 and an old Cygwin the encoding that LC_ALL, LC_CTYPE or LANG contains, with at most 12 bytes if a modifier
    comes after it, else the locale name or a code page; else what nl_langinfo() returns, or without it the environment.
    locale_charset() finds it without writing outside its static buffer of 13 bytes, for every 32-bit code page.  An encoding of
    the environment is returned as it is on OS/2 and Cygwin, and may be empty (empty_encoding_returned); everything else goes through
    the aliases, in the program or in the file charset.alias of the directory of the system, whatever bytes it holds and whichever
    allocations fail, and the name is not empty.  The file is read once: later calls
    give the same name.  A code page of Windows gets the canonical name of its number. *)
Theorem locale_charset_on_correct os HAVE_LANGINFO_CODESET getenv sys junk libdir mal mal_name open_file :
  answers_ok getenv sys -> (forall file, open_file (wanted_file (separators os) getenv libdir) = Some file -> bytes_ok file) ->
  let call := charset_call os HAVE_LANGINFO_CODESET getenv sys junk libdir in
  exists found, codeset_is os HAVE_LANGINFO_CODESET getenv sys found /\
  match found with
  | Returned name =>
      forall mal mal_name open_file buf aliases, length buf = 13%nat ->
        exists buf', call mal mal_name open_file (buf, aliases) = Some (name, (buf', aliases)) /\ length buf' = 13%nat
  | LookUp codeset =>
      exists ps, let aliases := Some (encode_pairs ps ++ [0]) in
        let name := charset_name (one_byte os sys) (default [] codeset) ps in
        name <> [] /\ pairs_are os getenv libdir mal mal_name open_file ps /\
        (forall buf, length buf = 13%nat ->
           exists buf', call mal mal_name open_file (buf, None) = Some (name, (buf', aliases)) /\ length buf' = 13%nat) /\
        (forall mal' mal_name' open_file' buf, length buf = 13%nat ->
           exists buf', call mal' mal_name' open_file' (buf, aliases) = Some (name, (buf', aliases)) /\ length buf' = 13%nat) /\
        (forall n, os = WindowsNative \/ os = Cygwin -> 0 <= n < 2 ^ 32 -> codeset = Some (code_page_name n) -> name = code_page_charset n)
  end.
Proof.
  intros Hok Hfile. cbn zeta. unfold charset_call, locale_charset_on.
  destruct (find_codeset_ok os HAVE_LANGINFO_CODESET getenv sys Hok) as (found & Hfound & Hbuf). exists found. split; [done|].
  destruct found as [name|codeset].
  - intros ? ? ? buf aliases Hb. destruct (Hbuf buf Hb) as (buf' & -> & Hb'). by exists buf'.
  - assert (Hc : forall s, codeset = Some s -> wf_cstr s) by (intros s ->; by apply (codeset_is_wf os HAVE_LANGINFO_CODESET getenv sys Hok)).
    destruct (look_up_ok os getenv sys junk libdir mal mal_name open_file codeset Hfile Hc) as (ps & Hps & Efirst & Elater).
    exists ps. split_and!; [apply charset_name_nonempty|done|..].
    + intros buf Hb. destruct (Hbuf buf Hb) as (buf' & -> & Hb'). exists buf'. split; [|done]. cbn [mbind option_bind].
      fold (one_byte os sys). by rewrite Efirst.
    + intros mal' mal_name' open_file' buf Hb. destruct (Hbuf buf Hb) as (buf' & -> & Hb'). exists buf'. split; [|done].
      cbn [mbind option_bind]. fold (one_byte os sys). by rewrite Elater.
    + intros n Hos Hn ->. apply code_page_name_charset; [done| |done]. rewrite <- windows_pairs.
      unfold pairs_are in Hps. by destruct Hos as [-> | ->].
Qed.

Definition example_environment (name : cstr) : option cstr := if decide (name = cs "LANG") then Some (cs "de_DE.ISO-8859-15@euro") else None.

(** On DOS: a directory that ends with a backslash. *)
Definition dos_environment (name : cstr) : option cstr :=
  if decide (name = cs "CHARSETALIASDIR") then Some (cs "c:\lib\")
  else if decide (name = cs "LANG") then Some (cs "de") else None.

Definition dos_aliases : list line := [Alias (cs "de") [32] (cs "CP850")].

Definition dos_file (name : cstr) : option (list Z) :=
  if decide (name = cs "c:\lib\charset.alias") then Some (file_of dos_aliases) else None.

Lemma locale_charset_on_correct_witness :
  (forall acp buf, acp = 65001 -> length buf = 13%nat -> exists st,
     charset_call WindowsNative false example_environment (SystemAnswers None acp None false) 0 [] (fun _ => true) true (fun _ => None) (buf, None) =
     Some (cs "UTF-8", st)) /\
  (forall buf, length buf = 13%nat -> exists st,
     charset_call Os2 false example_environment (SystemAnswers None 0 None false) 0 [] (fun _ => true) true (fun _ => None) (buf, None) =
     Some (cs "ISO-8859-15", st)) /\
  (forall buf, length buf = 13%nat -> exists st,
     charset_call Djgpp false dos_environment (SystemAnswers None 0 None false) 0 [] (fun _ => true) true dos_file (buf, None) =
     Some (cs "CP850", st)).
Proof.
  assert (Hok : forall acp, 0 <= acp < 2 ^ 32 -> answers_ok example_environment (SystemAnswers None acp None false)).
  { intros acp Ha. split; [|done|done|done]. unfold example_environment. intros name value. case_decide; [|done].
    intros [= <-]. by apply (bool_decide_eq_true_1 _); vm_compute. }
  split_and!.
  - intros acp buf -> Hb.
    destruct (locale_charset_on_correct WindowsNative false example_environment (SystemAnswers None 65001 None false) 0 [] (fun _ => true) true (fun _ => None))
      as (found & Hf & H); [by apply Hok|done|]. inversion Hf as [? ? [|[? ?]]| | | | | |]; subst; try done.
    destruct H as (ps & _ & _ & Hfirst & _ & Hname). destruct (Hfirst buf Hb) as (buf' & Ecall & _).
    eexists. rewrite Ecall. rewrite (Hname 65001); [reflexivity|by left|done|done].
  - intros buf Hb.
    destruct (locale_charset_on_correct Os2 false example_environment (SystemAnswers None 0 None false) 0 [] (fun _ => true) true (fun _ => None))
      as (found & Hf & H); [by apply Hok|done|].
    assert (Henc : names_encoding (cs "de_DE.ISO-8859-15@euro") (cs "ISO-8859-15")).
    { exists (cs "de_DE"), (cs "@euro"). split_and!; [done|by apply (bool_decide_eq_true_1 _); vm_compute..|].
      right. split; [by apply (bool_decide_eq_true_1 _); vm_compute|by eexists]. }
    assert (El : locale_of_environment example_environment = Some (cs "de_DE.ISO-8859-15@euro")) by by vm_compute.
    inversion Hf as [l e _ El' He| |l _ El' Hno|_ El'| |Hw Ha|]; subst; try done; try congruence.
    + destruct (H (fun _ => true) true (fun _ => None) buf None Hb) as (buf' & E & _).
      eexists. rewrite E, El in *. injection El' as <-. rewrite (names_encoding_unique (cs "de_DE.ISO-8859-15@euro") e (cs "ISO-8859-15")); [reflexivity| |done|done].
      by apply (bool_decide_eq_true_1 _); vm_compute.
    + rewrite El in El'. injection El' as <-. by destruct (Hno _ Henc).
  - intros buf Hb.
    assert (Efile : wanted_file (separators Djgpp) dos_environment [] = cs "c:\lib\charset.alias") by by vm_compute.
    assert (Eopen : dos_file (cs "c:\lib\charset.alias") = Some (file_of dos_aliases)) by by vm_compute.
    destruct (locale_charset_on_correct Djgpp false dos_environment (SystemAnswers None 0 None false) 0 [] (fun _ => true) true dos_file)
      as (found & Hf & H).
    + split; [|done..]. unfold dos_environment. intros name value. repeat case_decide; try done; intros [= <-];
        by apply (bool_decide_eq_true_1 _); vm_compute.
    + intros file. rewrite Efile, Eopen. intros [= <-]. by apply (bool_decide_eq_true_1 _); vm_compute.
    + inversion Hf as [? ? [?|(? & ? & ?)] | | | | | |]; subst; try done.
      destruct H as (ps & _ & Hps & Hfirst & _). destruct (Hfirst buf Hb) as (buf' & Ecall & _). eexists. rewrite Ecall.
      unfold pairs_are in Hps. cbn in Hps. destruct Hps as [_ Hps]. rewrite (Hps eq_refl (fun _ => eq_refl) dos_aliases); [reflexivity| |].
      * repeat constructor; try done; by apply (bool_decide_eq_true_1 _); vm_compute.
      * by rewrite Efile.
Defined.

(** A locale name that ends in a dot: the name that is returned is empty. *)
Lemma empty_encoding_returned :
  let getenv name := if decide (name = cs "LANG") then Some (cs "en_US.") else None in
  charset_call Os2 false getenv (SystemAnswers None 0 (Some 850) false) 0 [] (fun _ => true) true (fun _ => None) (charset_buf, None) =
    Some ([], (charset_buf, None)).
Proof. by vm_compute. Qed.
