(* ===== verification/Relocatable.v ===== *)
(** * Relocation of installed files: relocatable.c

    Pathnames below the prefix of the installation are turned into
    pathnames below the directory where the package is now.  [None] inside [option] results is a null pointer. *)

From S2P Require Import Prelude LocalCharset.

Open Scope Z_scope.

Section Paths.
(** Native Windows, OS/2 or DOS instead of Unix. *)
Context (windows : bool).

Definition ISSLASH (c : Z) : bool := (c =? chr "/") || (windows && (c =? 92)).

Definition HAS_DEVICE (p : cstr) : bool :=
  match p with
  | c :: d :: _ =>
      (((chr "A" <=? c) && (c <=? chr "Z")) || ((chr "a" <=? c) && (c <=? chr "z"))) && (d =? chr ":")
  | _ => false
  end.

Definition FILE_SYSTEM_PREFIX_LEN (p : cstr) : nat := if windows && HAS_DEVICE p then 2 else 0.

(** The static variables. *)
Record prefixes := Prefixes {
  orig_prefix : option cstr; orig_prefix_len : nat;
  curr_prefix : option cstr; curr_prefix_len : nat
}.

Definition no_prefixes : prefixes := Prefixes None 0 None 0.

(** [mal] says whether xmalloc() succeeds. *)
Definition set_this_relocation_prefix (orig_prefix_arg curr_prefix_arg : option cstr) (mal : bool) (st : prefixes) : prefixes :=
  match orig_prefix_arg, curr_prefix_arg with
  | Some orig, Some curr =>
      if negb (strcmp orig curr =? 0) then
        if mal then Prefixes (Some orig) (length orig) (Some curr) (length curr)
        else Prefixes None (length orig) None (length curr)
      else Prefixes None (orig_prefix_len st) None (curr_prefix_len st)
  | _, _ => Prefixes None (orig_prefix_len st) None (curr_prefix_len st)
  end.

(** [strncmp (s1, s2, n) == 0] *)
Fixpoint same_start (n : nat) (s1 s2 : cstr) : bool :=
  match n with
  | O => true
  | S n =>
      match s1, s2 with
      | [], [] => true
      | c1 :: s1, c2 :: s2 => (c1 =? c2) && same_start n s1 s2
      | _, _ => false
      end
  end.

(** [while (p > p_base) { p--; if (ISSLASH ( *p )) break; }] *)
Fixpoint last_slash (s : cstr) (p_base p : nat) : nat :=
  match p with
  | O => O
  | S p' => if (p_base <? p)%nat then if ISSLASH (nth p' s 0) then p' else last_slash s p_base p' else p
  end.

(** Upper case on file systems that ignore case. *)
Definition fold_case (c : Z) : Z :=
  if windows && (chr "a" <=? c) && (c <=? chr "z") then c - chr "a" + chr "A" else c.

(** The inner loop of the comparison: [same], [rpi] and [cpi]. *)
Fixpoint compare_back (rel cur : cstr) (cp_base rpi cpi : nat) : bool * nat * nat :=
  match rpi, cpi with
  | S rpi', S cpi' =>
      if (cp_base <? cpi)%nat then
        let r := nth rpi' rel 0 in
        let c := nth cpi' cur 0 in
        if ISSLASH r || ISSLASH c then (ISSLASH r && ISSLASH c, rpi', cpi')
        else if negb (fold_case r =? fold_case c) then (false, rpi', cpi')
        else compare_back rel cur cp_base rpi' cpi'
      else (false, rpi, cpi)
  | _, _ => (false, rpi, cpi)
  end.

(** The outer loop: [rp] and [cp] at its end. *)
Fixpoint strip_back (fuel : nat) (rel cur : cstr) (cp_base rp cp : nat) : option (nat * nat) :=
  if (0 <? rp)%nat && (cp_base <? cp)%nat then
    match fuel with
    | O => None
    | S fuel =>
        let '(same, rpi, cpi) := compare_back rel cur cp_base rp cp in
        if (same : bool) then strip_back fuel rel cur cp_base rpi cpi else Some (rp, cp)
    end
  else Some (rp, cp).

(** [mal1] and [mal2] are the two calls of xmalloc(). *)
Definition compute_curr_prefix (orig_installprefix orig_installdir : cstr) (curr_pathname : option cstr) (mal1 mal2 : bool)
    : option cstr :=
  curr_pathname ← curr_pathname;
  if same_start (length orig_installprefix) orig_installprefix orig_installdir then
    let rel_installdir := drop (length orig_installprefix) orig_installdir in
    let p := last_slash curr_pathname (FILE_SYSTEM_PREFIX_LEN curr_pathname) (length curr_pathname) in
    if mal1 then
      let curr_installdir := take p curr_pathname in
      '(rp, cp) ← strip_back (length rel_installdir) rel_installdir curr_installdir
        (FILE_SYSTEM_PREFIX_LEN curr_installdir) (length rel_installdir) (length curr_installdir);
      if (0 <? rp)%nat then None
      else if mal2 then Some (take cp curr_installdir) else None
    else None
  else None.

(** [relocate] once the prefixes are known. *)
Definition relocate (st : prefixes) (mal : bool) (pathname : cstr) : cstr :=
  match orig_prefix st, curr_prefix st with
  | Some orig, Some curr =>
      if same_start (orig_prefix_len st) pathname orig then
        let c := cur (drop (orig_prefix_len st) pathname) in
        if c =? 0 then if mal then curr else pathname
        else if ISSLASH c then
          let pathname_tail := drop (orig_prefix_len st) pathname in
          if mal then take (curr_prefix_len st) curr ++ pathname_tail else pathname
        else pathname
      else pathname
  | _, _ => pathname
  end.

(** The initialization of a shared library, with the file it is in. *)
Definition relocate_init (INSTALLPREFIX INSTALLDIR : cstr) (library : option cstr) (mal1 mal2 mal3 : bool) (initialized : bool)
    (st : prefixes) : bool * prefixes :=
  if initialized then (true, st)
  else
    let better := compute_curr_prefix INSTALLPREFIX INSTALLDIR library mal1 mal2 in
    (true, set_this_relocation_prefix (Some INSTALLPREFIX) (match better with Some _ => better | None => curr_prefix st end) mal3 st).
End Paths.

(** ** How a library finds its own file

    On Linux the maps of the process are read from /proc/self/maps, with fscanf(), getc() and getline();
    on Windows the loader calls DllMain().  A stream is what is left to read. *)

(** ** fscanf() with ["%lx-%lx"] *)

(** The value of a hexadecimal digit. *)
Definition hex_value (c : Z) : option Z :=
  if (chr "0" <=? c) && (c <=? chr "9") then Some (c - chr "0")
  else if (chr "a" <=? c) && (c <=? chr "f") then Some (c - chr "a" + 10)
  else if (chr "A" <=? c) && (c <=? chr "F") then Some (c - chr "A" + 10)
  else None.

(** The digits from here on, after the number [n]. *)
Fixpoint scan_hex_digits (n : Z) (l : list Z) : Z * list Z :=
  match l with
  | c :: rest => match hex_value c with Some d => scan_hex_digits (16 * n + d) rest | None => (n, l) end
  | [] => (n, [])
  end.

(** At least one digit. *)
Definition scan_hex_number (l : list Z) : option (Z * list Z) :=
  match hex_value (cur l) with Some _ => Some (scan_hex_digits 0 l) | None => None end.

Definition scan_sign (l : list Z) : bool * list Z :=
  match l with
  | c :: rest => if c =? chr "-" then (true, rest) else if c =? chr "+" then (false, rest) else (false, l)
  | [] => (false, l)
  end.

(** The prefix 0x; no number starts without a digit after it. *)
Definition scan_0x (l : list Z) : list Z :=
  match l with
  | c :: x :: rest => if (c =? chr "0") && ((x =? chr "x") || (x =? chr "X")) then rest else l
  | _ => l
  end.

(** [%lx], with [unsigned long] of 64 bits: what strtoul() does with base 16. *)
Definition scan_lx (l : list Z) : option (Z * list Z) :=
  let '(negative, l) := scan_sign (skip_space l) in
  '(n, l) ← scan_hex_number (scan_0x l);
  Some (if n <? 2 ^ 64 then if (negative : bool) then wrapw 64 (- n) else n else 2 ^ 64 - 1, l).

(** [fscanf (fp, "%lx-%lx", &start, &end)] if it returns 2. *)
Definition scan_range (l : list Z) : option (Z * Z * list Z) :=
  '(start, l) ← scan_lx l;
  match l with
  | c :: l => if c =? chr "-" then '(end_, l) ← scan_lx l; Some (start, end_, l) else None
  | [] => None
  end.

(** ** find_shared_library_fullname() *)

(** [while (c = getc (fp), c != EOF && c != '\n' && c != '/') continue;] then [c == '/'], which is put back. *)
Fixpoint find_file_name (l : list Z) : option (list Z) :=
  match l with
  | [] => None
  | c :: rest => if c =? 10 then None else if c =? chr "/" then Some l else find_file_name rest
  end.

(** getline(): the line with its newline, if there is one. *)
Fixpoint get_line (l : list Z) : list Z :=
  match l with
  | [] => []
  | c :: rest => if c =? 10 then [c] else c :: get_line rest
  end.

(** The newline is replaced by a NUL. *)
Definition chomp (line : list Z) : list Z :=
  if (0 <? length line)%nat && (nth (length line - 1) line 0 =? 10) then <[(length line - 1)%nat := 0]> line else line.

(** The loop over the lines; [mal] says whether getline() has memory.  The outer [None] is the end of the fuel. *)
Fixpoint maps_loop (fuel : nat) (mal : bool) (address : Z) (fp : list Z) : option (option cstr) :=
  match fuel with
  | O => None
  | S fuel =>
      match scan_range fp with
      | None => Some None
      | Some (start, end_, fp) =>
          if (start <=? address) && (address <=? wrapw 64 (end_ - 1)) then
            Some (match find_file_name fp with
                  | Some fp => if mal then Some (c_string (chomp (get_line fp))) else None
                  | None => None
                  end)
          else
            match skip_comment fp with
            | Some fp => maps_loop fuel mal address fp
            | None => maps_loop fuel mal address []
            end
      end
  end.

(** [maps] is the file, if it can be opened; the result is the new value of [shared_library_fullname], which was NULL. *)
Definition find_shared_library_fullname (mal : bool) (address : Z) (maps : option (list Z)) : option (option cstr) :=
  match maps with
  | None => Some None
  | Some fp => maps_loop (S (length fp)) mal address fp
  end.

(** The static variables: [tried_find_shared_library_fullname] and [shared_library_fullname]. *)
Definition get_shared_library_fullname (mal : bool) (address : Z) (maps : option (list Z)) (st : bool * option cstr)
    : option (option cstr * (bool * option cstr)) :=
  let '(tried, name) := st in
  if (tried : bool) then Some (name, st)
  else name ← find_shared_library_fullname mal address maps; Some (name, (true, name)).

(** ** DllMain() *)

Definition IS_PATH_WITH_DIR (windows : bool) (p : cstr) : bool :=
  existsb (fun c => c =? chr "/") p || (windows && (existsb (fun c => c =? 92) p || HAS_DEVICE p)).

(** [location] is what GetModuleFileName() finds, [mal] whether strdup() has memory; the result, and [shared_library_fullname]. *)
Definition DllMain (attach : bool) (location : option cstr) (mal : bool) (name : option cstr) : bool * option cstr :=
  if attach then
    match location with
    | None => (false, name)
    | Some location =>
        if negb (IS_PATH_WITH_DIR true location) then (false, name)
        else (true, if mal then Some location else None)
    end
  else (true, name).

(** ** relocate() in a shared library *)

(** The static variables of the file. *)
Record library_state := LibraryState { ls_name : bool * option cstr; ls_initialized : bool; ls_prefixes : prefixes }.

Definition library_start : library_state := LibraryState (false, None) false no_prefixes.

(** What the first call asks: the address of the code and the maps; [mal] is getline(), [mal1] to [mal3] are the calls of xmalloc(). *)
Record library_world := LibraryWorld {
  lw_address : Z; lw_maps : option (list Z); lw_mal : bool; lw_mal1 : bool; lw_mal2 : bool; lw_mal3 : bool
}.

Definition relocate_library (windows : bool) (INSTALLPREFIX INSTALLDIR : cstr) (w : library_world) (mal : bool) (pathname : cstr)
    (st : library_state) : option (cstr * library_state) :=
  st ← (if ls_initialized st then Some st
        else
          '(library, name) ← (if windows then Some (snd (ls_name st), ls_name st)
                               else get_shared_library_fullname (lw_mal w) (lw_address w) (lw_maps w) (ls_name st));
          let '(initialized, prefixes) :=
            relocate_init windows INSTALLPREFIX INSTALLDIR library (lw_mal1 w) (lw_mal2 w) (lw_mal3 w) (ls_initialized st) (ls_prefixes st) in
          Some (LibraryState name initialized prefixes));
  Some (relocate windows (ls_prefixes st) mal pathname, st).
