(* ===== verification/RelocatableSpec.v ===== *)
(** * What relocation promises, on Unix

    The prefix that is computed is the right one, and exactly the pathnames below the old prefix move. *)

From S2P Require Import Prelude LocalCharset Relocatable.

Open Scope Z_scope.

(** The rest of a pathname below a directory. *)
Definition tail_ok (tail : cstr) : Prop := tail = [] \/ exists t, tail = chr "/" :: t.

#[export] Instance tail_ok_dec tail : Decision (tail_ok tail).
Proof.
  refine (match tail with [] => left _ | c :: t => if decide (c = chr "/") then left _ else right _ end);
    [by left|right; exists t; by subst|intros [?|[? ?]]; congruence].
Defined.

(** The directory of a pathname: what is before the last slash. *)
Definition is_dirname (path dir : cstr) : Prop :=
  (exists base, path = dir ++ chr "/" :: base /\ chr "/" ∉ base) \/ (dir = [] /\ chr "/" ∉ path).

Lemma slash_unix c : ISSLASH false c = (c =? chr "/").
Proof. unfold ISSLASH. by rewrite orb_false_r. Qed.

Lemma same_start_spec s1 s2 : same_start (length s1) s1 s2 = true <-> exists t, s2 = s1 ++ t.
Proof.
  revert s2. induction s1 as [|c s1 IH]; intros s2; cbn [length same_start]; [split; [by exists s2|done]|].
  destruct s2 as [|c2 s2]; [split; [done|by intros [t [=]]]|]. rewrite andb_true_iff, Z.eqb_eq, IH. split.
  - intros [-> [t ->]]. by exists t.
  - intros [t [= -> ->]]. split; [done|by exists t].
Qed.

Lemma same_start_sym n s1 s2 : same_start n s1 s2 = same_start n s2 s1.
Proof.
  revert s1 s2. induction n as [|n IH]; intros [|c1 s1] [|c2 s2]; cbn; try done. by rewrite Z.eqb_sym, IH.
Qed.

(** ** The directory *)

Lemma no_slash_snoc (s : cstr) c : chr "/" ∉ s -> c <> chr "/" -> chr "/" ∉ s ++ [c].
Proof. intros Hs Hc. rewrite not_elem_of_app, not_elem_of_cons. split_and!; [done|congruence|apply not_elem_of_nil]. Qed.

Lemma last_slash_spec s p : (p <= length s)%nat ->
  let q := last_slash false s 0 p in
  (exists base, take p s = take q s ++ chr "/" :: base /\ chr "/" ∉ base) \/ (q = 0%nat /\ chr "/" ∉ take p s).
Proof.
  induction p as [|p IH]; intros Hp; cbn [last_slash]; [right; split; [done|apply not_elem_of_nil]|].
  rewrite (proj2 (Nat.ltb_lt 0 (S p))) by lia. rewrite slash_unix.
  destruct (lookup_lt_is_Some_2 s p) as [c Hc]; [lia|]. rewrite (nth_lookup_Some s p 0 c Hc). rewrite (take_S_r s p c Hc).
  destruct (Z.eqb_spec c (chr "/")) as [->|Hne].
  - left. exists []. split; [done|apply not_elem_of_nil].
  - destruct IH as [(base & E & Hb)|(E & Hb)]; [lia| |].
    + left. exists (base ++ [c]). rewrite E, <- app_assoc. split; [done|by apply no_slash_snoc].
    + right. split; [done|by apply no_slash_snoc].
Qed.

Lemma dirname_ok path : is_dirname path (take (last_slash false path 0 (length path)) path).
Proof.
  destruct (last_slash_spec path (length path)) as [(base & E & Hb)|(E & Hb)]; [lia| |]; rewrite firstn_all in *.
  - left. by exists base.
  - right. by rewrite E.
Qed.

Lemma dirname_unique path d1 d2 : is_dirname path d1 -> is_dirname path d2 -> d1 = d2.
Proof.
  assert (H : forall base d base' d', d ++ chr "/" :: base = d' ++ chr "/" :: base' -> chr "/" ∉ base -> chr "/" ∉ base' -> d = d').
  { intros base d. induction d as [|x d IH]; intros base' [|y d'] E Hb Hb'; simplify_eq/=; try done; [set_solver|set_solver|].
    f_equal. by apply (IH base' d'). }
  intros [(b1 & -> & H1)|(-> & H1)] [(b2 & E & H2)|(-> & H2)]; [by apply (H b1 d1 b2 d2)|set_solver|subst; set_solver|done].
Qed.

(** ** The comparison from the end *)

Lemma compare_back_ok rel cur rpi cpi r c : (rpi <= length rel)%nat -> (cpi <= length cur)%nat ->
  compare_back false rel cur 0 rpi cpi = (true, r, c) ->
  (r < rpi)%nat /\ exists seg, take rpi rel = take r rel ++ chr "/" :: seg /\ take cpi cur = take c cur ++ chr "/" :: seg.
Proof.
  revert cpi. induction rpi as [|rpi IH]; intros cpi Hr Hc E; [by destruct cpi|]. destruct cpi as [|cpi]; [done|].
  cbn [compare_back] in E. rewrite (proj2 (Nat.ltb_lt 0 (S cpi))) in E by lia. cbn zeta in E. rewrite !slash_unix in E.
  destruct (lookup_lt_is_Some_2 rel rpi) as [x Hx]; [lia|]. destruct (lookup_lt_is_Some_2 cur cpi) as [y Hy]; [lia|].
  rewrite (nth_lookup_Some rel rpi 0 x Hx), (nth_lookup_Some cur cpi 0 y Hy) in E.
  rewrite (take_S_r rel rpi x Hx), (take_S_r cur cpi y Hy).
  destruct (Z.eqb_spec x (chr "/")) as [Ex|Hx'], (Z.eqb_spec y (chr "/")) as [Ey|Hy']; cbn [orb andb] in E; try discriminate E.
  - injection E as <- <-. rewrite Ex, Ey. split; [lia|]. by exists [].
  - unfold fold_case in E. cbn [andb] in E. destruct (Z.eqb_spec x y) as [->|]; [|done]. cbn [negb] in E.
    destruct (IH cpi ltac:(lia) ltac:(lia) E) as (Hlt & seg & E1 & E2). split; [lia|]. exists (seg ++ [y]).
    rewrite E1, E2, <- !app_assoc. done.
Qed.

Lemma strip_back_ok fuel rel cur rp cp r c : (rp <= length rel)%nat -> (cp <= length cur)%nat ->
  strip_back false fuel rel cur 0 rp cp = Some (r, c) ->
  exists suf, take rp rel = take r rel ++ suf /\ take cp cur = take c cur ++ suf /\ tail_ok suf.
Proof.
  revert rp cp. induction fuel as [|fuel IH]; intros rp cp Hr Hc E; cbn [strip_back] in E.
  - destruct (_ && _); [done|]. injection E as <- <-. exists []. rewrite !app_nil_r. split_and!; [done..|by left].
  - destruct (_ && _); [|injection E as <- <-; exists []; rewrite !app_nil_r; split_and!; [done..|by left]].
    destruct (compare_back false rel cur 0 rp cp) as [[[] rpi] cpi] eqn:Ec.
    + destruct (compare_back_ok rel cur rp cp rpi cpi Hr Hc Ec) as (Hlt & seg & E1 & E2).
      assert (cpi <= length cur)%nat.
      { pose proof (f_equal length E2) as El. rewrite length_app, !length_take in El. cbn in El. lia. }
      destruct (IH rpi cpi ltac:(lia) ltac:(lia) E) as (suf & F1 & F2 & Ht).
      exists (suf ++ chr "/" :: seg). rewrite E1, E2, F1, F2, <- !app_assoc. split_and!; [done..|].
      right. destruct Ht as [->|[t ->]]; [by exists seg|by eexists].
    + injection E as <- <-. exists []. rewrite !app_nil_r. split_and!; [done..|by left].
Qed.

Section Complete.
Context (r rel : cstr) (Hrel : exists t, rel = chr "/" :: t).

Lemma compare_back_same rp : (0 < rp <= length rel)%nat ->
  exists rp', compare_back false rel (r ++ rel) 0 rp (length r + rp) = (true, rp', (length r + rp')%nat) /\ (rp' < rp)%nat.
Proof using Hrel.
  induction rp as [|rp IH]; intros Hp; [lia|]. rewrite Nat.add_succ_r. cbn [compare_back].
  rewrite (proj2 (Nat.ltb_lt 0 _)) by lia. cbn zeta. rewrite !slash_unix, app_nth2_plus.
  destruct (Z.eqb_spec (nth rp rel 0) (chr "/")) as [E|E]; cbn [orb andb]; [exists rp; split; [done|lia]|].
  unfold fold_case. cbn [andb]. rewrite Z.eqb_refl. cbn [negb].
  destruct (decide (rp = 0%nat)) as [->|Hne]; [destruct Hrel as [t ->]; done|].
  destruct IH as (rp' & -> & Hlt); [lia|]. exists rp'. split; [done|lia].
Qed.

Lemma strip_back_same fuel rp : (rp <= fuel)%nat -> (rp <= length rel)%nat ->
  strip_back false fuel rel (r ++ rel) 0 rp (length r + rp) = Some (0%nat, length r).
Proof using Hrel.
  revert rp. induction fuel as [|fuel IH]; intros rp Hf Hp; cbn [strip_back].
  - replace rp with 0%nat by lia. by rewrite Nat.add_0_r.
  - destruct (Nat.ltb_spec 0 rp) as [Hlt|Hge]; cbn [andb]; [|replace rp with 0%nat by lia; by rewrite Nat.add_0_r].
    rewrite (proj2 (Nat.ltb_lt 0 _)) by lia. destruct (compare_back_same rp) as (rp' & -> & Hlt'); [lia|]. apply IH; lia.
Qed.
End Complete.

(** The current prefix is what is before the relative directory. *)
Lemma compute_curr_prefix_iff P D path N : compute_curr_prefix false P D (Some path) true true = Some N <->
  exists rel, D = P ++ rel /\ tail_ok rel /\ is_dirname path (N ++ rel).
Proof.
  unfold compute_curr_prefix. cbn [mbind option_bind FILE_SYSTEM_PREFIX_LEN andb].
  pose proof (dirname_ok path) as Hdir. set (dir := take (last_slash false path 0 (length path)) path) in *. split.
  - destruct (same_start (length P) P D) eqn:Es; [|done]. apply same_start_spec in Es as [rel ->]. rewrite drop_app_length.
    destruct (strip_back false (length rel) rel dir 0 (length rel) (length dir)) as [[rp cp]|] eqn:E; [|done]. cbn [mbind option_bind].
    destruct (Nat.ltb_spec 0 rp) as [|Hz]; [done|]. intros [= <-].
    destruct (strip_back_ok _ _ _ _ _ _ _ (le_n _) (le_n _) E) as (suf & E1 & E2 & Ht). rewrite !firstn_all in *.
    replace rp with 0%nat in E1 by lia. rewrite take_0, app_nil_l in E1. subst suf. exists rel. split_and!; [done..|]. by rewrite <- E2.
  - intros (rel & -> & Ht & Hd). rewrite (proj2 (same_start_spec P (P ++ rel))) by by exists rel. rewrite drop_app_length.
    rewrite (dirname_unique path dir (N ++ rel) Hdir Hd). rewrite length_app.
    destruct Ht as [->|Hs].
    + cbn. rewrite Nat.add_0_r. by rewrite take_app_length.
    + rewrite (strip_back_same N rel Hs) by lia. cbn. by rewrite take_app_length.
Qed.

(** A pathname after a move of the directory [P] to [N]. *)
Definition moved (P N path : cstr) : cstr :=
  if decide (take (length P) path = P /\ tail_ok (drop (length P) path)) then N ++ drop (length P) path else path.

Lemma moved_below P N tail : tail_ok tail -> moved P N (P ++ tail) = N ++ tail.
Proof. intros Ht. unfold moved. by rewrite take_app_length, drop_app_length, decide_True. Qed.

Lemma moved_other P N path : (forall tail, tail_ok tail -> path <> P ++ tail) -> moved P N path = path.
Proof.
  intros H. unfold moved. rewrite decide_False; [done|]. intros [E Ht]. apply (H _ Ht).
  by rewrite <- (take_drop (length P) path) at 1; rewrite E.
Qed.

(** With both prefixes set, and with none. *)
Lemma relocate_moved P N path : wf_cstr path ->
  relocate false (Prefixes (Some P) (length P) (Some N) (length N)) true path = moved P N path.
Proof.
  intros Hw. unfold relocate. cbn [orig_prefix curr_prefix orig_prefix_len curr_prefix_len]. rewrite same_start_sym.
  destruct (same_start (length P) P path) eqn:E.
  - apply same_start_spec in E as [tail ->]. rewrite drop_app_length. apply wf_cstr_app in Hw as [_ Hw].
    destruct tail as [|c tail]; [rewrite (moved_below P N []) by (by left); by rewrite !app_nil_r|]. cbn [cur].
    apply wf_cstr_cons in Hw as [Hc _]. rewrite (proj2 (Z.eqb_neq c 0)) by lia. rewrite slash_unix, firstn_all.
    destruct (Z.eqb_spec c (chr "/")) as [->|Hne]; [by rewrite moved_below by (right; by eexists)|].
    rewrite moved_other; [done|]. intros t [->|[t' ->]] Et; apply app_inv_head in Et; [done|congruence].
  - rewrite moved_other; [done|]. intros t Ht ->. apply not_true_iff_false in E. apply E. apply same_start_spec. by exists t.
Qed.

Lemma moved_same P path : moved P P path = path.
Proof. unfold moved. case_decide as H; [|done]. destruct H as [H _]. rewrite <- H at 1. apply take_drop. Qed.

Lemma set_then_relocate P N st path : wf_cstr P -> wf_cstr N -> wf_cstr path ->
  relocate false (set_this_relocation_prefix (Some P) (Some N) true st) true path = moved P N path.
Proof.
  intros HP HN Hw. unfold set_this_relocation_prefix. destruct (Z.eqb_spec (strcmp P N) 0) as [E|E]; cbn [negb].
  - apply strcmp_eq in E as ->; [|done..]. by rewrite moved_same.
  - by apply relocate_moved.
Qed.

(** A library that was installed in the directory [P ++ rel] and is found in a file of the directory [dir]
    works out where its package is now.  If [dir] is [N ++ rel], every pathname in
    the prefix [P] becomes the one in [N], at whole path components only, every other is unchanged,
    and moving back gives the old pathname; if [dir] does not end in [rel], nothing is relocated. *)
Theorem relocation_correct P rel lib dir st :
  wf_cstr P -> tail_ok rel -> is_dirname lib dir -> wf_cstr lib -> curr_prefix st = None ->
  let st' := (relocate_init false P (P ++ rel) (Some lib) true true true false st).2 in
  (forall N, dir = N ++ rel -> forall path, wf_cstr path ->
     (forall tail, path = P ++ tail -> tail_ok tail ->
        relocate false st' true path = N ++ tail /\
        relocate false (set_this_relocation_prefix (Some N) (Some P) true st') true (N ++ tail) = path) /\
     ((forall tail, tail_ok tail -> path <> P ++ tail) -> relocate false st' true path = path)) /\
  ((forall N, dir <> N ++ rel) -> forall path, relocate false st' true path = path).
Proof.
  intros HP Hrel Hdir Hlib Hst. cbn zeta. unfold relocate_init. cbn [snd].
  assert (Hdw : wf_cstr dir) by (destruct Hdir as [(base & -> & _)|[-> _]]; [by apply wf_cstr_app in Hlib as [? _]|constructor]).
  split.
  - intros N -> path Hw. apply wf_cstr_app in Hdw as [HN _].
    rewrite (proj2 (compute_curr_prefix_iff P (P ++ rel) lib N)) by by exists rel. split.
    + intros tail -> Ht. apply wf_cstr_app in Hw as [_ Htw]. rewrite !set_then_relocate by (try apply wf_cstr_app; done).
      by rewrite !moved_below.
    + intros Hout. rewrite set_then_relocate by done. by apply moved_other.
  - intros Hno path. destruct (compute_curr_prefix false P (P ++ rel) (Some lib) true true) as [N|] eqn:E; [|by rewrite Hst].
    apply compute_curr_prefix_iff in E as (rel' & E & _ & Hd). apply app_inv_head in E as <-.
    by destruct (Hno N (dirname_unique lib dir _ Hdir Hd)).
Qed.

Lemma relocation_correct_witness :
  let st' := (relocate_init false (cs "/usr") (cs "/usr/lib") (Some (cs "/opt/lib/libintl.so")) true true true false no_prefixes).2 in
  relocate false st' true (cs "/usr/share/locale") = cs "/opt/share/locale" /\ relocate false st' true (cs "/usrlocal/x") = cs "/usrlocal/x".
Proof.
  destruct (relocation_correct (cs "/usr") (cs "/lib") (cs "/opt/lib/libintl.so") (cs "/opt/lib") no_prefixes) as [H _].
  - by apply (bool_decide_eq_true_1 _); vm_compute.
  - right. by eexists.
  - left. exists (cs "libintl.so"). split; [done|]. by apply (bool_decide_eq_true_1 _); vm_compute.
  - by apply (bool_decide_eq_true_1 _); vm_compute.
  - done.
  - split.
    + apply (H (cs "/opt") eq_refl (cs "/usr/share/locale")) with (tail := cs "/share/locale").
      * by apply (bool_decide_eq_true_1 _); vm_compute.
      * done.
      * right. by eexists.
    + apply (H (cs "/opt") eq_refl (cs "/usrlocal/x")).
      * by apply (bool_decide_eq_true_1 _); vm_compute.
      * intros tail [->|[t ->]]; discriminate.
Defined.

(** ** The library finds its own file

    The maps of a process are lines with two addresses; the file of the library is the one that is mapped
    where its code is.  Reading ends for every file, whatever is in it. *)

(** ** Numbers *)

Definition hex_text (ds : list Z) : Prop := ds <> [] /\ Forall (fun c => is_Some (hex_value c)) ds.

#[export] Instance hex_text_dec ds : Decision (hex_text ds).
Proof. unfold hex_text. apply _. Defined.

Definition hex_number (ds : list Z) : Z := foldl (fun n c => 16 * n + default 0 (hex_value c)) 0 ds.

Lemma hex_value_range c d : hex_value c = Some d -> (48 <= c <= 57 \/ 97 <= c <= 102 \/ 65 <= c <= 70) /\ 0 <= d.
Proof.
  unfold hex_value. change (chr "0") with 48. change (chr "9") with 57. change (chr "a") with 97. change (chr "f") with 102.
  change (chr "A") with 65. change (chr "F") with 70. intros H.
  destruct (Z.leb_spec 48 c), (Z.leb_spec c 57), (Z.leb_spec 97 c), (Z.leb_spec c 102), (Z.leb_spec 65 c), (Z.leb_spec c 70);
    cbn [andb] in H; try discriminate H; injection H; lia.
Qed.

Lemma hex_not c k : is_Some (hex_value c) -> hex_value k = None -> (c =? k) = false.
Proof. intros Hc Hk. apply Z.eqb_neq. intros ->. rewrite Hk in Hc. by destruct Hc. Qed.

Lemma hex_not_space c : is_Some (hex_value c) -> isspace c = false.
Proof.
  intros [d [H _]%hex_value_range]. unfold isspace. rewrite (proj2 (Z.eqb_neq c 32)) by lia. cbn [orb].
  destruct (Z.leb_spec 9 c), (Z.leb_spec c 13); try done; lia.
Qed.

Lemma scan_hex_digits_ok ds n rest : Forall (fun c => is_Some (hex_value c)) ds -> hex_value (cur rest) = None ->
  scan_hex_digits n (ds ++ rest) = (foldl (fun n c => 16 * n + default 0 (hex_value c)) n ds, rest).
Proof.
  intros Hds Hr. revert n. induction Hds as [|c ds [d Hd] Hds IH]; intros n; cbn [app scan_hex_digits foldl].
  - destruct rest as [|c rest]; [done|]. cbn in Hr. cbn [scan_hex_digits]. by rewrite Hr.
  - rewrite Hd. cbn [default]. apply IH.
Qed.

Lemma hex_number_nonneg ds : 0 <= hex_number ds.
Proof.
  unfold hex_number. assert (H : forall n, 0 <= n -> 0 <= foldl (fun n c => 16 * n + default 0 (hex_value c)) n ds); [|by apply H].
  induction ds as [|c ds IH]; intros n Hn; cbn [foldl]; [done|]. apply IH.
  destruct (hex_value c) as [d|] eqn:E; cbn [default from_option]; [apply hex_value_range in E as [_ E]|]; unfold default, id; lia.
Qed.

(** A number without a sign and without 0x. *)
Lemma scan_lx_ok ds rest : hex_text ds -> hex_number ds < 2 ^ 64 -> hex_value (cur rest) = None ->
  cur rest <> chr "x" -> cur rest <> chr "X" -> scan_lx (ds ++ rest) = Some (hex_number ds, rest).
Proof.
  intros [Hne Hds] Hlt Hr Hx HX. destruct ds as [|c ds]; [done|]. apply Forall_cons in Hds as Hc. destruct Hc as [Hc Hds'].
  unfold scan_lx. cbn [app skip_space]. rewrite hex_not_space by done. cbn [scan_sign].
  rewrite !(hex_not c) by done.
  assert (E0 : scan_0x (c :: ds ++ rest) = c :: ds ++ rest).
  { assert (Hcur : forall x t, ds ++ rest = x :: t -> (x =? chr "x") || (x =? chr "X") = false).
    { intros x t E. destruct ds as [|d ds].
      - cbn in E. subst rest. cbn in Hx, HX. by rewrite (proj2 (Z.eqb_neq _ _) Hx), (proj2 (Z.eqb_neq _ _) HX).
      - injection E as <- _. apply Forall_cons in Hds' as [Hd _]. by rewrite !(hex_not d). }
    destruct (ds ++ rest) as [|x t]; [done|]. cbn [scan_0x]. by rewrite (Hcur x t), andb_false_r by done. }
  rewrite E0. unfold scan_hex_number. cbn [cur]. destruct Hc as [d Hd]. rewrite Hd. rewrite app_comm_cons.
  rewrite scan_hex_digits_ok by (done || by constructor; [exists d|]). cbn [mbind option_bind].
  fold (hex_number (c :: ds)). by rewrite (proj2 (Z.ltb_lt _ _)) by done.
Qed.

(** ** The maps of a process *)

(** The range of addresses, permissions and the like, and the file, if there is one. *)
Record vma := Vma { v_start : list Z; v_end : list Z; v_middle : list Z; v_file : option cstr }.

Definition print_vma (v : vma) : list Z := v_start v ++ chr "-" :: v_end v ++ v_middle v ++ default [] (v_file v) ++ [10].

Definition print_maps (vmas : list vma) : list Z := concat (print_vma <$> vmas).

Record vma_ok (v : vma) : Prop := {
  vo_start : hex_text (v_start v);
  vo_end : hex_text (v_end v);
  vo_range : hex_number (v_start v) < hex_number (v_end v) < 2 ^ 64;
  vo_middle : cur (v_middle v) = 32 /\ 10 ∉ v_middle v /\ chr "/" ∉ v_middle v;
  vo_file path : v_file v = Some path -> cur path = chr "/" /\ wf_cstr path /\ 10 ∉ path
}.

#[export] Instance vma_ok_dec v : Decision (vma_ok v).
Proof.
  assert (Decision match v_file v with Some path => cur path = chr "/" /\ wf_cstr path /\ 10 ∉ path | None => True end)
    by (destruct (v_file v); apply _).
  destruct (decide (hex_text (v_start v) /\ hex_text (v_end v) /\ hex_number (v_start v) < hex_number (v_end v) < 2 ^ 64 /\
    (cur (v_middle v) = 32 /\ 10 ∉ v_middle v /\ chr "/" ∉ v_middle v) /\
    match v_file v with Some path => cur path = chr "/" /\ wf_cstr path /\ 10 ∉ path | None => True end)) as [Hv|Hv]; [left|right].
  - destruct Hv as (? & ? & ? & ? & Hf). split; [done..|]. intros path E. by rewrite E in Hf.
  - intros [H1 H2 H3 H4 Hf]. apply Hv. refine (conj H1 (conj H2 (conj H3 (conj H4 _)))). destruct (v_file v) as [path|]; [by apply Hf|done].
Defined.

Definition contains (address : Z) (v : vma) : Prop := hex_number (v_start v) <= address < hex_number (v_end v).

#[export] Instance contains_dec address v : Decision (contains address v).
Proof. unfold contains. apply _. Defined.

(** The file that is mapped at an address. *)
Definition mapped_at (address : Z) (vmas : list vma) : option cstr :=
  match list_find (contains address) vmas with Some (_, v) => v_file v | None => None end.

Lemma scan_range_ok v rest : vma_ok v ->
  scan_range (print_vma v ++ rest) =
    Some (hex_number (v_start v), hex_number (v_end v), v_middle v ++ default [] (v_file v) ++ 10 :: rest).
Proof.
  intros [Hs He Hr (Hm & _) _]. unfold scan_range, print_vma.
  assert (Ht : forall t, cur (v_middle v ++ t) = 32) by (intros t; by destruct (v_middle v)).
  repeat (rewrite <- app_assoc || cbn [app]).
  rewrite (scan_lx_ok (v_start v)) by (done || lia). cbn [mbind option_bind]. change (chr "-" =? chr "-") with true. cbn iota.
  rewrite (scan_lx_ok (v_end v)) by (rewrite ?Ht; done || lia). done.
Qed.

Lemma find_file_ok v rest : vma_ok v ->
  find_file_name (v_middle v ++ default [] (v_file v) ++ 10 :: rest) = (fun path => path ++ 10 :: rest) <$> v_file v.
Proof.
  intros [_ _ _ (_ & Hn & Hs) Hf]. induction (v_middle v) as [|c m IH]; cbn [app find_file_name].
  - destruct (v_file v) as [path|]; [|done]. destruct (Hf path eq_refl) as (Hc & _). cbn. destruct path as [|c path]; [done|].
    cbn in Hc. by subst c.
  - apply not_elem_of_cons in Hn as [Hn1 Hn], Hs as [Hs1 Hs].
    rewrite (proj2 (Z.eqb_neq c 10)), (proj2 (Z.eqb_neq c (chr "/"))) by congruence. by apply IH.
Qed.

Lemma get_line_ok path rest : 10 ∉ path -> get_line (path ++ 10 :: rest) = path ++ [10].
Proof.
  induction path as [|c path IH]; [done|]. intros [Hc Hp]%not_elem_of_cons. cbn [app get_line].
  rewrite (proj2 (Z.eqb_neq c 10)) by congruence. by rewrite IH.
Qed.

Lemma chomp_ok path : wf_cstr path -> c_string (chomp (path ++ [10])) = path.
Proof.
  intros Hw. unfold chomp. rewrite length_app. cbn [length]. rewrite (proj2 (Nat.ltb_lt _ _)) by lia.
  replace (length path + 1 - 1)%nat with (length path + 0)%nat by lia. rewrite app_nth2_plus. cbn [nth andb].
  change (10 =? 10) with true. cbn iota. rewrite insert_app_r. cbn. rewrite c_string_wf by done. cbn. apply app_nil_r.
Qed.

Lemma maps_skip_ok v rest : vma_ok v -> skip_comment (v_middle v ++ default [] (v_file v) ++ 10 :: rest) = Some rest.
Proof.
  intros [_ _ _ (_ & Hn & _) Hf]. rewrite app_assoc.
  assert (H : 10 ∉ v_middle v ++ default [] (v_file v)).
  { rewrite not_elem_of_app. split; [done|]. destruct (v_file v) as [path|]; [apply (Hf path eq_refl)|apply not_elem_of_nil]. }
  induction (v_middle v ++ default [] (v_file v)) as [|c l IH]; [done|]. apply not_elem_of_cons in H as [Hc H]. cbn [app skip_comment].
  rewrite (proj2 (Z.eqb_neq c 10)) by congruence. by apply IH.
Qed.

Lemma maps_loop_ok vmas fuel mal address : Forall vma_ok vmas -> (length vmas < fuel)%nat ->
  maps_loop fuel mal address (print_maps vmas) = Some (if (mal : bool) then mapped_at address vmas else None).
Proof.
  intros Hok. revert fuel. induction Hok as [|v vmas Hv Hok IH]; intros fuel Hf; (destruct fuel as [|fuel]; [lia|]).
  - by destruct mal.
  - cbn [maps_loop print_maps fmap list_fmap concat]. fold (print_maps vmas). rewrite scan_range_ok by done.
    pose proof (vo_range v Hv). pose proof (hex_number_nonneg (v_start v)).
    unfold mapped_at. cbn [list_find]. rewrite wrapw_small by lia.
    destruct (Z.leb_spec (hex_number (v_start v)) address), (Z.leb_spec address (hex_number (v_end v) - 1)); cbn [andb].
    1: { rewrite decide_True by (unfold contains; lia). rewrite find_file_ok by done.
      destruct (v_file v) as [path|] eqn:Ep; cbn [fmap option_fmap option_map]; [|by destruct mal].
      destruct (vo_file v Hv path Ep) as (_ & Hw & Hn). rewrite get_line_ok, chomp_ok by done. by destruct mal. }
    all: rewrite decide_False by (unfold contains; lia); rewrite maps_skip_ok by done; cbn [length] in Hf; rewrite IH by lia;
      unfold mapped_at; by destruct (list_find _ vmas) as [[i x]|].
Qed.

(** ** Every file is read to an end *)

Lemma scan_hex_digits_length n l : (length (scan_hex_digits n l).2 <= length l)%nat.
Proof. revert n. induction l as [|c l IH]; intros n; cbn [scan_hex_digits]; [done|]. destruct (hex_value c); cbn; [|lia]. specialize (IH (16 * n + z)). lia. Qed.

Lemma scan_lx_length l n rest : scan_lx l = Some (n, rest) -> (length rest < length l)%nat.
Proof.
  assert (Hspace : (length (skip_space l) <= length l)%nat) by (induction l as [|c l IH]; cbn; [|destruct (isspace c); cbn]; lia).
  assert (Hsign : forall l, (length (scan_sign l).2 <= length l)%nat) by (intros [|c t]; [done|]; cbn; repeat case_match; cbn; lia).
  assert (Hx : forall l, (length (scan_0x l) <= length l)%nat).
  { intros [|c [|x t]]; [done..|]. cbn [scan_0x]. destruct (_ && _); cbn; lia. }
  unfold scan_lx. specialize (Hsign (skip_space l)). destruct (scan_sign (skip_space l)) as [negative l1]. cbn [snd] in Hsign.
  specialize (Hx l1). unfold scan_hex_number. destruct (scan_0x l1) as [|c l2]; [done|]. cbn [cur].
  destruct (hex_value c) as [d|] eqn:Ed; [|done]. cbn [scan_hex_digits]. rewrite Ed.
  pose proof (scan_hex_digits_length (16 * 0 + d) l2) as H. destruct (scan_hex_digits _ l2) as [m l3]. cbn in *. intros [= _ <-]. lia.
Qed.

Lemma scan_range_length l a b rest : scan_range l = Some (a, b, rest) -> (length rest < length l)%nat.
Proof.
  unfold scan_range. destruct (scan_lx l) as [[n [|c l1]]|] eqn:E1; [done| |done]. cbn [mbind option_bind].
  destruct (c =? chr "-"); [|done]. destruct (scan_lx l1) as [[m l2]|] eqn:E2; [|done]. cbn [mbind option_bind]. intros [= _ _ <-].
  apply scan_lx_length in E1, E2. cbn in *. lia.
Qed.

Lemma skip_comment_length l rest : skip_comment l = Some rest -> (length rest < length l)%nat.
Proof.
  induction l as [|c l IH]; [done|]. cbn. destruct (c =? 10); [intros [= <-]; lia|]. intros H%IH. lia.
Qed.

Lemma maps_loop_total fuel mal address fp : (length fp < fuel)%nat -> is_Some (maps_loop fuel mal address fp).
Proof.
  revert fp. induction fuel as [|fuel IH]; intros fp Hf; [lia|]. cbn [maps_loop].
  destruct (scan_range fp) as [[[a b] l]|] eqn:E; [|done]. apply scan_range_length in E. destruct (_ && _); [done|].
  destruct (skip_comment l) as [l'|] eqn:E'; [apply skip_comment_length in E'|]; apply IH; cbn; lia.
Qed.

Lemma length_maps vmas : (length vmas <= length (print_maps vmas))%nat.
Proof.
  induction vmas as [|v vmas IH]; [done|]. cbn [print_maps fmap list_fmap concat length]. fold (print_maps vmas). rewrite length_app.
  unfold print_vma. rewrite length_app. cbn [length]. lia.
Qed.

Lemma find_shared_library_ok mal address maps : exists name, find_shared_library_fullname mal address maps = Some name /\
  (maps = None -> name = None) /\
  forall vmas, Forall vma_ok vmas -> maps = Some (print_maps vmas) -> name = if (mal : bool) then mapped_at address vmas else None.
Proof.
  unfold find_shared_library_fullname. destruct maps as [fp|]; [|by exists None].
  destruct (maps_loop_total (S (length fp)) mal address fp) as [name E]; [lia|]. exists name. split_and!; [done..|].
  intros vmas Hok [= ->]. rewrite maps_loop_ok in E by (done || pose proof (length_maps vmas); lia). congruence.
Qed.

(** ** Relocation *)

Lemma mapped_wf address vmas lib : Forall vma_ok vmas -> mapped_at address vmas = Some lib -> wf_cstr lib.
Proof.
  unfold mapped_at. intros Hok. destruct (list_find _ vmas) as [[i v]|] eqn:E; [|done].
  apply list_find_Some in E as (Hi & _ & _). rewrite Forall_lookup in Hok. intros Hl. by apply (vo_file v (Hok i v Hi) lib Hl).
Qed.

(** Without the name of the file nothing moves. *)
Lemma relocate_unknown P D mal1 mal2 mal3 mal path :
  relocate false (relocate_init false P D None mal1 mal2 mal3 false no_prefixes).2 mal path = path.
Proof. done. Qed.

(** C13. A library that was installed in the directory [P ++ rel] finds out where it is now and relocates pathnames.
    The first call of relocate() always returns, whatever bytes /proc/self/maps has, and later calls use what it found,
    whatever the maps are then.  If the maps are the lines of the mapped ranges, the library is the file that is mapped at the address of
    the code.  If it is in the directory [N ++ rel], the pathnames in the prefix [P] become those in [N], at whole path components only,
    and moving back gives the old pathname; every other pathname is unchanged, and so are all if the directory does
    not end in [rel], if no file is mapped there or if there are no maps. *)
Theorem library_relocated P rel w path : wf_cstr P -> tail_ok rel -> wf_cstr path ->
  exists result st, relocate_library false P (P ++ rel) w true path library_start = Some (result, st) /\
    (forall w' mal path', relocate_library false P (P ++ rel) w' mal path' st = Some (relocate false (ls_prefixes st) mal path', st)) /\
    (lw_maps w = None -> result = path) /\
    forall vmas, Forall vma_ok vmas -> lw_maps w = Some (print_maps vmas) ->
      lw_mal w = true -> lw_mal1 w = true -> lw_mal2 w = true -> lw_mal3 w = true ->
      match mapped_at (lw_address w) vmas with
      | None => result = path
      | Some lib =>
          forall dir, is_dirname lib dir ->
            (forall N, dir = N ++ rel ->
               (forall tail, path = P ++ tail -> tail_ok tail -> result = N ++ tail /\
                  relocate false (set_this_relocation_prefix (Some N) (Some P) true (ls_prefixes st)) true result = path) /\
               ((forall tail, tail_ok tail -> path <> P ++ tail) -> result = path)) /\
            ((forall N, dir <> N ++ rel) -> result = path)
      end.
Proof.
  intros HP Hrel Hw. unfold relocate_library, get_shared_library_fullname. cbn [ls_initialized ls_name ls_prefixes library_start].
  destruct (find_shared_library_ok (lw_mal w) (lw_address w) (lw_maps w)) as (library & -> & Hnone & Hmaps).
  cbn [mbind option_bind]. unfold relocate_init at 1. cbn iota. eexists _, _. split; [reflexivity|].
  cbn [ls_initialized ls_prefixes mbind option_bind]. split; [done|]. split; [by intros ->%Hnone|].
  intros vmas Hok Em Hm H1 H2 H3. rewrite (Hmaps vmas Hok Em), Hm, H1, H2, H3.
  destruct (mapped_at (lw_address w) vmas) as [lib|] eqn:El; [|done]. intros dir Hdir.
  destruct (relocation_correct P rel lib dir no_prefixes HP Hrel Hdir (mapped_wf _ _ _ Hok El) eq_refl) as [Hin Hout].
  split; [|intros Hno; by apply (Hout Hno)]. intros N HN. specialize (Hin N HN path Hw) as [Hbelow Hother]. split; [|exact Hother].
  intros tail Et Ht. destruct (Hbelow tail Et Ht) as [E1 E2]. split; [exact E1|]. etransitivity; [|exact E2]. f_equal. exact E1.
Qed.

Definition example_maps : list vma := [
  Vma (cs "00400000") (cs "0048b000") (cs " r-xp 00000000 fd:01 131 ") (Some (cs "/opt/bin/prog"));
  Vma (cs "7f5c8a000000") (cs "7f5c8a021000") (cs " rw-p 00000000 00:00 0 ") None;
  Vma (cs "7f5c8a200000") (cs "7f5c8a20f000") (cs " r-xp 00000000 fd:01 132 ") (Some (cs "/opt/lib/libintl.so.8"))].

Definition example_world : library_world :=
  LibraryWorld (hex_number (cs "7f5c8a201234")) (Some (print_maps example_maps)) true true true true.

Lemma library_relocated_witness :
  exists st, relocate_library false (cs "/usr") (cs "/usr" ++ cs "/lib") example_world true (cs "/usr/share/locale") library_start =
    Some (cs "/opt/share/locale", st).
Proof.
  destruct (library_relocated (cs "/usr") (cs "/lib") example_world (cs "/usr/share/locale")) as (result & st & E & _ & _ & H).
  - by apply (bool_decide_eq_true_1 _); vm_compute.
  - right. by eexists.
  - by apply (bool_decide_eq_true_1 _); vm_compute.
  - exists st. rewrite E. do 2 f_equal.
    assert (Hok : Forall vma_ok example_maps) by by apply (bool_decide_eq_true_1 _); vm_compute.
    specialize (H example_maps Hok eq_refl eq_refl eq_refl eq_refl eq_refl).
    assert (El : mapped_at (lw_address example_world) example_maps = Some (cs "/opt/lib/libintl.so.8")) by by vm_compute.
    rewrite El in H. destruct (H (cs "/opt/lib")) as [Hin _].
    + left. exists (cs "libintl.so.8"). split; [done|]. by apply (bool_decide_eq_true_1 _); vm_compute.
    + destruct (Hin (cs "/opt") eq_refl) as [Hb _]. apply (Hb (cs "/share/locale")); [done|]. right. by eexists.
Defined.
