(* ===== verification/Gettext.v ===== *)
(** * The translation driver: DCIGETTEXT of dcigettext.c

    The function behind gettext(), dgettext(), ngettext() and the others, in the
    configuration with per-thread locales.  Translations are converted by a [Converter]
    (ConvertDriver is the one with iconv()); messages without a translation are logged (Log).  The
    cache of known translations is a search table under the comparison [transcmp]
    (SearchTable), which Tsearch and TsearchOps implement.  Values that come
    from the environment, the locale and the current directory are fields of a
    record. *)

From S2P Require Import Prelude SearchTable HashString PluralExp PluralParse PluralExtract Catalog.
From S2P Require Import Converter L10nFlist FindDomain Bindings Log.

Open Scope Z_scope.

(** ** The environment *)

Record environment := Environment {
  env_thread_locale : option cstr;    (* _nl_locale_name_thread_unsafe *)
  env_posix_locale : option cstr;     (* _nl_locale_name_posix *)
  env_default_locale : cstr;          (* _nl_locale_name_default *)
  env_LANGUAGE : option cstr;         (* getenv ("LANGUAGE") *)
  env_preferences : option cstr;      (* _nl_language_preferences_default *)
  env_cwd : option cstr;              (* getcwd *)
  env_secure : bool;                  (* ENABLE_SECURE *)
  env_charset : charset_env;          (* OUTPUT_CHARSET, locale_charset *)
  env_logfile : option cstr;          (* getenv ("GETTEXT_LOG_UNTRANSLATED") *)
  env_log_mal : bool;                 (* malloc() and fopen() for the log *)
  env_fopen : cstr -> bool
}.

(** The locale categories, with the values of glibc. *)
Definition LC_CTYPE : Z := 0.
Definition LC_NUMERIC : Z := 1.
Definition LC_TIME : Z := 2.
Definition LC_COLLATE : Z := 3.
Definition LC_MONETARY : Z := 4.
Definition LC_MESSAGES : Z := 5.
Definition LC_ALL : Z := 6.

Definition category_to_name (category : Z) : cstr :=
  if category =? LC_COLLATE then cs "LC_COLLATE"
  else if category =? LC_CTYPE then cs "LC_CTYPE"
  else if category =? LC_MONETARY then cs "LC_MONETARY"
  else if category =? LC_NUMERIC then cs "LC_NUMERIC"
  else if category =? LC_TIME then cs "LC_TIME"
  else if category =? LC_MESSAGES then cs "LC_MESSAGES"
  else if category =? LC_ALL then cs "LC_ALL"
  else cs "LC_XXX".

Definition guess_category_value (env : environment) : cstr :=
  let '(locale, locale_defaulted) :=
    match env_thread_locale env with
    | Some l => (l, false)
    | None =>
        match env_posix_locale env with
        | Some l => (l, false)
        | None => (env_default_locale env, true)
        end
    end in
  if strcmp locale (cs "C") =? 0 then locale
  else
    match env_LANGUAGE env with
    | Some ((_ :: _) as language) => language
    | _ =>
        if (locale_defaulted : bool)
        then match env_preferences env with Some l => l | None => locale end
        else locale
    end.

(** ** The cache *)

(** [struct known_translation_t]; [kt_domain] is the identity of the catalog
    file, [kt_translation] the pointer of the converter. *)
Record known_translation `{!Converter} := KnownTranslation {
  kt_msgid : cstr;
  kt_domainname : cstr;
  kt_localename : cstr;
  kt_category : Z;
  kt_counter : Z;
  kt_domain : nat;
  kt_translation : option text;     (* none in the record that is searched for *)
  kt_translation_length : Z
}.

Arguments KnownTranslation {_}.

Definition transcmp `{!Converter} (s1 s2 : known_translation) : Z :=
  let result := strcmp (kt_msgid s1) (kt_msgid s2) in
  if negb (result =? 0) then result
  else
    let result := strcmp (kt_domainname s1) (kt_domainname s2) in
    if negb (result =? 0) then result
    else
      let result := strcmp (kt_localename s1) (kt_localename s2) in
      if negb (result =? 0) then result
      else kt_category s1 - kt_category s2.

(** ** The state *)

Record world `{!Converter, !SearchTable transcmp} := World {
  w_bind : state;                        (* bindings, current domain, counter *)
  w_domains : domains;
  w_texts : cstate;                      (* conversions and converted strings *)
  w_cache : table transcmp;              (* the tree [root] *)
  w_log : log_state
}.
Arguments world {_ _}.
Arguments World {_ _}.

(** New bindings. *)
Definition with_bind `{!Converter, !SearchTable transcmp} (b : state) (w : world) : world :=
  World b (w_domains w) (w_texts w) (w_cache w) (w_log w).

(** What is returned: one of the arguments, or a pointer into a catalog, the
    string [offset] bytes after [kt_translation]. *)
Inductive message `{!Converter} :=
| Original (s : option cstr)
| Translated (domain : nat) (p : text) (offset : nat).
Arguments Original {_}.
Arguments Translated {_}.

(** The result of an operation that returns. *)
Definition returned {A} (o : option A) : load A := match o with Some x => Ret x | None => Undef end.

(** ** The list of languages *)

(** [while (categoryvalue[0] != '\0' && categoryvalue[0] == ':') ++categoryvalue;] *)
Fixpoint skip_colons (categoryvalue : cstr) : cstr :=
  match categoryvalue with
  | c :: rest => if c =? chr ":" then skip_colons rest else categoryvalue
  | [] => []
  end.

(** The copy of the next element: [single_locale] and the rest. *)
Fixpoint next_element (categoryvalue : cstr) : cstr * cstr :=
  match categoryvalue with
  | c :: rest =>
      if c =? chr ":" then ([], categoryvalue)
      else let '(s, r) := next_element rest in (c :: s, r)
  | [] => ([], [])
  end.

Definition is_path_with_dir (s : cstr) : bool := existsb (fun c => c =? chr "/") s.

Section Gettext.
Context `{PriMacros} `{AliasTable} `{!Converter, !SearchTable transcmp} (pf : platform) (env : environment).
Context (_nl_default_dirname : cstr) (mal_known mal_node : bool).

(** _nl_find_msg on an entry of the pool; [codeset] is the one of the binding. *)
Definition find_msg_in (codeset : option cstr) (st : domains) (ts : cstate) (i : nat) (msgid : cstr)
    : load (lookup (text * Z) * domains * cstate) :=
  st ← load_entry pf st i;
  match df_data (get_df st i) with
  | None => Ret (Missing, st, ts)
  | Some (d, _) => '(r, ts) ← find_text (env_charset env) codeset i d msgid ts; Ret (r, st, ts)
  end.

(** The successors, in order, until one has the message or there is no memory. *)
Fixpoint find_in_successors (codeset : option cstr) (l : list (option nat)) (msgid : cstr) (st : domains) (ts : cstate)
    : load (lookup (nat * (text * Z)) * domains * cstate) :=
  match l with
  | [] | None :: _ => Ret (Missing, st, ts)
  | Some i :: l =>
      '(r, st, ts) ← find_msg_in codeset st ts i msgid;
      match r with
      | Here t => Ret (Here (i, t), st, ts)
      | NoResources => Ret (NoResources, st, ts)
      | Missing => find_in_successors codeset l msgid st ts
      end
  end.

(** The message in a domain or its successors. *)
Definition find_in_domain (codeset : option cstr) (i : nat) (msgid : cstr) (st : domains) (ts : cstate)
    : load (lookup (nat * (text * Z)) * domains * cstate) :=
  '(r, st, ts) ← find_msg_in codeset st ts i msgid;
  match r with
  | Here t => Ret (Here (i, t), st, ts)
  | NoResources => Ret (NoResources, st, ts)
  | Missing => find_in_successors codeset (successors st i) msgid st ts
  end.

(** plural_lookup on an entry of the pool. *)
Definition plural_in (st : domains) (ts : cstate) (i : nat) (n : Z) (p : text) (len : Z) : load message :=
  match df_data (get_df st i) with
  | None => Undef
  | Some (d, (plural, nplurals)) =>
      t ← text_bytes ts d p len;
      off ← plural_lookup plural nplurals n t;
      Ret (Translated i p off)
  end.

Definition choose (st : domains) (ts : cstate) (plural : bool) (i : nat) (n : Z) (p : text) (len : Z) : load message :=
  if plural then plural_in st ts i n p len else Ret (Translated i p 0).

Definition untranslated (msgid1 : cstr) (msgid2 : option cstr) (plural : bool) (n : Z) : message :=
  Original (if negb plural then Some msgid1 else if n =? 1 then Some msgid1 else msgid2).

(** The loop over the languages, from [categoryvalue] on; a result that is not [Here] is
    [return_untranslated]. *)
Fixpoint language_loop (fuel : nat) (codeset : option cstr) (dirname xdomainname msgid categoryvalue : cstr)
    (st : domains) (ts : cstate) : load (lookup (nat * (text * Z)) * domains * cstate) :=
  match fuel with
  | O => Undef
  | S fuel =>
      let categoryvalue := skip_colons categoryvalue in
      match categoryvalue with
      | [] => Ret (Missing, st, ts)                      (* single_locale is "C" *)
      | _ =>
          let '(single_locale, categoryvalue) := next_element categoryvalue in
          if env_secure env && is_path_with_dir single_locale
          then language_loop fuel codeset dirname xdomainname msgid categoryvalue st ts
          else if (strcmp single_locale (cs "C") =? 0) || (strcmp single_locale (cs "POSIX") =? 0)
          then Ret (Missing, st, ts)
          else
            '(domain, st) ← _nl_find_domain pf dirname single_locale xdomainname st;
            match domain with
            | None => language_loop fuel codeset dirname xdomainname msgid categoryvalue st ts
            | Some i =>
                '(r, st, ts) ← find_in_domain codeset i msgid st ts;
                match r with
                | Missing => language_loop fuel codeset dirname xdomainname msgid categoryvalue st ts
                | _ => Ret (r, st, ts)
                end
            end
      end
  end.

(** The directory of the domain, made absolute; [None] if that fails. *)
Definition resolve_dirname (b : state) (domainname : cstr) : option cstr :=
  match find_binding (bindings b) domainname with
  | None => Some _nl_default_dirname
  | Some bd =>
      let dir := dir_str _nl_default_dirname (dirname bd) in
      if IS_ABSOLUTE_PATH dir then Some dir
      else match env_cwd env with
           | Some cwd => Some (cwd ++ [chr "/"] ++ dir)
           | None => None
           end
  end.

(** [domainbinding->codeset] *)
Definition binding_codeset (b : state) (domainname : cstr) : option cstr :=
  find_binding (bindings b) domainname ≫= codeset.

(** A new entry of the cache ([newp], and the node that tsearch() allocates), or the
    update of the one that was found. *)
Definition remember (w : world) (foundp : option nat) (k : known_translation) : option (table transcmp) :=
  match foundp with
  | None => if mal_known then snd <$> table_insert transcmp mal_node k (w_cache w) else Some (w_cache w)
  | Some j =>
      table_update transcmp j
        (fun old => KnownTranslation (kt_msgid old) (kt_domainname old) (kt_localename old)
                 (kt_category old) (kt_counter k) (kt_domain k) (kt_translation k)
                 (kt_translation_length k)) (w_cache w)
  end.

(** The log of a message without translation; a plural without [msgid2] is read through a null
    pointer. *)
Definition log_untranslated (domainname msgid1 : cstr) (msgid2 : option cstr) (plural : bool) (l : log_state)
    : load log_state :=
  match env_logfile env with
  | Some ((_ :: _) as logfilename) =>
      if env_secure env then Ret l
      else
        match plural, msgid2 with
        | true, None => Undef
        | _, _ =>
            returned (_nl_log_untranslated
              (LogCall logfilename domainname msgid1 (default [] msgid2) plural (env_log_mal env) (env_fopen env)) l)
        end
  | _ => Ret l
  end.

Definition return_untranslated (w : world) (domainname msgid1 : cstr) (msgid2 : option cstr) (plural : bool) (n : Z)
    : load (message * world) :=
  l ← log_untranslated domainname msgid1 msgid2 plural (w_log w);
  Ret (untranslated msgid1 msgid2 plural n, World (w_bind w) (w_domains w) (w_texts w) (w_cache w) l).

(** From the binding to the result, when the cache does not have it. *)
Definition translate (w : world) (domainname localename msgid1 : cstr) (msgid2 : option cstr)
    (plural : bool) (n category : Z) (foundp : option nat) : load (message * world) :=
  match resolve_dirname (w_bind w) domainname with
  | None => return_untranslated w domainname msgid1 msgid2 plural n
  | Some dirname =>
      let categoryvalue := guess_category_value env in
      let xdomainname := category_to_name category ++ [chr "/"] ++ domainname ++ cs ".mo" in
      '(r, st, ts) ← language_loop (S (length categoryvalue)) (binding_codeset (w_bind w) domainname) dirname
                       xdomainname msgid1 categoryvalue (w_domains w) (w_texts w);
      match r with
      | Here (i, (p, len)) =>
          let k := KnownTranslation msgid1 domainname localename category
                     (msg_cat_cntr (w_bind w)) i (Some p) len in
          cache ← returned (remember w foundp k);
          m ← choose st ts plural i n p len;
          Ret (m, World (w_bind w) st ts cache (w_log w))
      | _ => return_untranslated (World (w_bind w) st ts (w_cache w) (w_log w)) domainname msgid1 msgid2 plural n
      end
  end.

Definition DCIGETTEXT (w : world) (domainname msgid1 msgid2 : option cstr) (plural : bool) (n category : Z)
    : load (message * world) :=
  match msgid1 with
  | None => Ret (Original None, w)
  | Some msgid1 =>
      let domainname := default (dom_str (current_domain (w_bind w))) domainname in
      let localename := default [] (env_thread_locale env) in
      let search := KnownTranslation msgid1 domainname localename category 0 0 None 0 in
      foundp ← returned (table_find transcmp search (w_cache w));
      match foundp ≫= fun j => table_get transcmp j (w_cache w) with
      | Some k =>
          if kt_counter k =? msg_cat_cntr (w_bind w) then
            p ← returned (kt_translation k);
            m ← choose (w_domains w) (w_texts w) plural (kt_domain k) n p (kt_translation_length k);
            Ret (m, w)
          else translate w domainname localename msgid1 msgid2 plural n category foundp
      | None => translate w domainname localename msgid1 msgid2 plural n category foundp
      end
  end.
End Gettext.
