(* ===== verification/GettextSpec.v ===== *)
(** * The search of DCIGETTEXT through languages and catalogs

    The list of languages is read as its elements up to the first "C" or "POSIX";
    the search finds the translation of the first language whose catalog, or a
    catalog it inherits from, has the message. *)

From S2P Require Import Prelude HashString PluralExp PluralParse PluralExtract Catalog CatalogSpec CatalogFind CatalogLoad.
From S2P Require Import LocaleName L10nFlist L10nFlistSpec FindDomain FindDomainSpec Bindings BindingsSpec Converter Gettext.

Open Scope Z_scope.

(** ** The list of languages *)

Definition split_colons : cstr -> list cstr := split_on (chr ":").

Definition is_C (s : cstr) : bool := (strcmp s (cs "C") =? 0) || (strcmp s (cs "POSIX") =? 0).

(** Empty elements, and in a SUID program those with a directory, are ignored. *)
Definition usable (secure : bool) (s : cstr) : Prop :=
  s <> [] /\ secure && is_path_with_dir s = false.

#[export] Instance usable_dec secure s : Decision (usable secure s).
Proof. unfold usable. apply _. Defined.

Fixpoint until_C (l : list cstr) : list cstr :=
  match l with
  | [] => []
  | s :: l => if is_C s then [] else s :: until_C l
  end.

(** The languages of a list such as "fr:de:C:it". *)
Definition languages (secure : bool) (value : cstr) : list cstr :=
  until_C (filter (usable secure) (split_colons value)).

Example languages_ex :
  languages true (cs ":fr::../de:de_AT:C:it") = [cs "fr"; cs "de_AT"].
Proof. reflexivity. Qed.

Definition colon_free (s : cstr) : Prop := Forall (fun c => c <> chr ":") s.

Lemma colon_free_notin s : colon_free s -> chr ":" ∉ s.
Proof. intros H Hin. by apply (proj1 (Forall_forall _ _) H _ Hin). Qed.

Lemma split_app s r : colon_free s -> split_colons (s ++ chr ":" :: r) = s :: split_colons r.
Proof. intros H. by apply split_on_app, colon_free_notin. Qed.

Lemma split_free s : colon_free s -> split_colons s = [s].
Proof. intros H. by apply split_on_last, colon_free_notin. Qed.

Lemma next_element_spec v :
  let '(s, r) := next_element v in
  v = s ++ r /\ colon_free s /\ (r = [] \/ exists r', r = chr ":" :: r').
Proof.
  induction v as [|c v IH]; cbn [next_element]; [split_and!; [done|by apply Forall_nil_2|by left]|].
  destruct (Z.eqb_spec c (chr ":")) as [->|Hc].
  - split_and!; [done|by apply Forall_nil_2|right; by eexists].
  - destruct (next_element v) as [s r]. destruct IH as (-> & Hs & Hr). split_and!; [done| |done].
    by apply Forall_cons_2.
Qed.

Lemma languages_skip secure v : languages secure (skip_colons v) = languages secure v.
Proof.
  induction v as [|c v IH]; [done|]. cbn [skip_colons]. destruct (Z.eqb_spec c (chr ":")) as [->|Hc]; [|done].
  rewrite IH. unfold languages. unfold split_colons; cbn [split_on]. rewrite Z.eqb_refl.
  rewrite filter_cons_False by (intros [Hn _]; by apply Hn). done.
Qed.

Lemma skip_colons_head v c r : skip_colons v = c :: r -> c <> chr ":".
Proof.
  induction v as [|d v IH]; [done|]. cbn [skip_colons]. destruct (Z.eqb_spec d (chr ":")); [done|].
  by intros [= <- _].
Qed.

Lemma skip_colons_length v : (length (skip_colons v) <= length v)%nat.
Proof. induction v as [|c v IH]; [done|]. cbn [skip_colons]. case_if; simpl; lia. Qed.

(** The elements of the list, one at a time. *)
Lemma languages_next secure v s r :
  v <> [] -> (forall c v', v = c :: v' -> c <> chr ":") -> next_element v = (s, r) ->
  s <> [] /\ (length r < length v)%nat /\ (length s <= length v)%nat /\
  languages secure v =
  if secure && is_path_with_dir s then languages secure r
  else if is_C s then [] else s :: languages secure r.
Proof.
  intros Hne Hh E. pose proof (next_element_spec v) as H. rewrite E in H. destruct H as (-> & Hs & Hr).
  assert (s <> []) as Hsne.
  { intros ->. destruct Hr as [->|[r' ->]]; [done|]. by apply (Hh _ _ eq_refl). }
  split; [done|]. rewrite length_app. split; [destruct s; simpl; [done|lia]|]. split; [lia|].
  assert (Hsplit : languages secure (s ++ r) =
    until_C (filter (usable secure) (s :: split_colons r))).
  { unfold languages. destruct Hr as [->|[r' ->]].
    - rewrite app_nil_r, split_free by done. unfold split_colons; cbn [split_on].
      rewrite !filter_cons. destruct (decide (usable secure [])) as [[? _]|_]; done.
    - rewrite split_app by done. unfold split_colons; cbn [split_on]. rewrite Z.eqb_refl, !filter_cons.
      destruct (decide (usable secure [])) as [[? _]|_]; done. }
  rewrite Hsplit, filter_cons. destruct (decide (usable secure s)) as [[_ Hu]|Hu].
  - rewrite Hu. done.
  - case_if; [done|]. by destruct Hu.
Qed.

(** ** Translations in a state *)

Section Search.
Context {PM : PriMacros} {AT : AliasTable} {CV : Converter} {CL : ConverterLaws} (pf : platform) (env : environment).

(** The catalogs that are loaded. *)
Definition loaded (st : domains) (i : nat) : option loaded_domain := fst <$> df_data (get_df st i).

(** The pool of catalogs and the converted texts, *)
Definition stores_ok (st : domains) (ts : cstate) : Prop := domains_ok pf st /\ cstate_ok (loaded st) ts.

(** which both only grow. *)
Definition later (st : domains) (ts : cstate) (st' : domains) (ts' : cstate) : Prop :=
  later_than st st' /\ cstate_later ts ts'.

Lemma later_refl st ts : later st ts st ts.
Proof using CL. split; [apply later_than_refl|apply cstate_later_refl]. Qed.

Lemma later_trans st1 ts1 st2 ts2 st3 ts3 :
  later st1 ts1 st2 ts2 -> later st2 ts2 st3 ts3 -> later st1 ts1 st3 ts3.
Proof using Type. intros [A1 B1] [A2 B2]. split; [by eapply later_than_trans|by eapply cstate_later_trans]. Qed.

(** In the encoding [enc], entry [i] has the translation of [msgid] that [t] shows. *)
Definition translation_in (st : domains) (ts : cstate) (i : nat) (enc msgid : cstr) (t : text * Z) : Prop :=
  exists f d pl bytes, f ∈ files (pool_of st) /\ file_id f = i /\ df_data (get_df st i) = Some (d, pl) /\
    catalog_of pf f d pl /\ expected d enc msgid = Some bytes /\
    t.2 = Z.of_nat (length bytes) /\ shows ts d t.1 bytes.

(** Entry [i] was loaded, and has no translation. *)
Definition lacks (st : domains) (i : nat) (enc msgid : cstr) : Prop :=
  in_pool st i /\ df_decided (get_df st i) = 1 /\
  forall d pl, df_data (get_df st i) = Some (d, pl) -> expected d enc msgid = None.

(** The lookup is defined in every catalog, and so is the choice of the plural form. *)
Definition lookups_defined (n : Z) : Prop :=
  forall f d pl, catalog_of pf f d pl -> convertible d /\
    forall enc msgid bytes, wf_cstr enc -> wf_cstr msgid -> expected d enc msgid = Some bytes ->
      exists off, plural_lookup pl.1 pl.2 n bytes = Ret off.

Lemma data_decided st i d pl :
  domains_ok pf st -> df_data (get_df st i) = Some (d, pl) -> df_decided (get_df st i) = 1.
Proof using Type.
  intros Hok. unfold get_df. destruct (docs st !! i) as [df|] eqn:E; [|by destruct (entry st i)].
  intros _. by destruct (dok_docs _ _ Hok i df E).
Qed.

(** What is loaded does not change. *)
Lemma data_later st st' i d pl :
  domains_ok pf st -> later_than st st' -> df_data (get_df st i) = Some (d, pl) -> get_df st' i = get_df st i.
Proof using Type.
  intros Hok L Hd. destruct (get_df_catalog pf st i d pl Hok Hd) as (f & Hf & <- & _).
  apply (lt_decided _ _ L); [done|]. by rewrite (data_decided _ _ _ _ Hok Hd).
Qed.

Lemma loaded_later st st' i d : domains_ok pf st -> later_than st st' -> loaded st i = Some d -> loaded st' i = Some d.
Proof using Type.
  unfold loaded. intros Hok L. destruct (df_data (get_df st i)) as [[d' pl]|] eqn:E; [|done]. intros [= ->].
  by rewrite (data_later st st' i d pl), E.
Qed.

Lemma stores_later st ts st' : stores_ok st ts -> domains_ok pf st' -> later_than st st' -> stores_ok st' ts.
Proof using CL. intros [H1 H2] Hok L. split; [done|]. eapply cstate_ok_mono; [|exact H2]. intros i d. by apply loaded_later. Qed.

Lemma translation_later st ts st' ts' i enc msgid t :
  domains_ok pf st -> later st ts st' ts' -> translation_in st ts i enc msgid t -> translation_in st' ts' i enc msgid t.
Proof using CL.
  intros Hok [L C] (f & d & pl & bytes & Hf & Hi & Hd & Hc & He & Hl & Hs). exists f, d, pl, bytes. split_and!; auto.
  - by apply (lt_files _ _ L).
  - by rewrite (data_later st st' i d pl).
  - by eapply shows_later.
Qed.

Lemma lacks_later st st' i enc msgid : later_than st st' -> lacks st i enc msgid -> lacks st' i enc msgid.
Proof using Type.
  intros L (Hi & Hd & Hf). pose proof (in_pool_later _ _ _ L Hi) as Hi'. destruct Hi as (f & Hff & <-).
  unfold lacks. rewrite (lt_decided _ _ L) by (done || (by rewrite Hd)). done.
Qed.

(** The entry itself and its successors, up to the NULL. *)
Definition candidates (st : domains) (i : nat) : list nat := i :: up_to_null (successors st i).

Lemma candidates_later st st' i : later_than st st' -> in_pool st i -> candidates st' i = candidates st i.
Proof using Type. intros L (f & Hf & <-). unfold candidates. by rewrite (lt_succ _ _ L). Qed.

(** The first of the entries that has a translation; the search ends early only if a conversion fails for
    want of memory. *)
Inductive first_match (st : domains) (ts : cstate) (enc msgid : cstr) : list nat -> lookup (nat * (text * Z)) -> Prop :=
| FmNone : first_match st ts enc msgid [] Missing
| FmHere j l t : translation_in st ts j enc msgid t -> first_match st ts enc msgid (j :: l) (Here (j, t))
| FmNext j l r : lacks st j enc msgid -> first_match st ts enc msgid l r -> first_match st ts enc msgid (j :: l) r
| FmFailed j l : conversion_failed -> first_match st ts enc msgid (j :: l) NoResources.

Lemma first_match_later st ts st' ts' enc msgid l r :
  domains_ok pf st -> later st ts st' ts' -> first_match st ts enc msgid l r -> first_match st' ts' enc msgid l r.
Proof using Type.
  intros Hok L. induction 1; [constructor|constructor|apply FmNext; [|done]|by constructor];
    [by eapply translation_later|by eapply lacks_later; [apply L|]].
Qed.

Lemma first_match_in st ts enc msgid l i t : first_match st ts enc msgid l (Here (i, t)) -> translation_in st ts i enc msgid t.
Proof using Type.
  remember (Here (i, t)) as r eqn:E. induction 1 as [|j l t' Ht|j l r _ _ IH|]; [done| |auto|done].
  by injection E as -> ->.
Qed.

(** The environment of a call, and what the bindings say of the encoding. *)
Record charset_ok (codeset : option cstr) : Prop := CharsetOk {
  cso_codeset : wf_cstr (default [] codeset);
  cso_output : wf_cstr (default [] (ce_OUTPUT_CHARSET (env_charset env)));
  cso_locale : wf_cstr (ce_locale_charset (env_charset env))
}.

Context (n : Z) (codeset : option cstr) (msgid enc : cstr).
Context (Hfs : files_readable pf) (Hlk : lookups_defined n) (Hcs : charset_ok codeset) (Hw : wf_cstr msgid).

(** The encoding of the call stays the same. *)
Abbreviation encodes ts := (encoding_of (env_charset env) codeset ts = enc).

(** What an operation of the search does. *)
Definition search_done {A} (st : domains) (ts : cstate) (P : domains -> cstate -> A -> Prop) (o : load (A * domains * cstate)) : Prop :=
  exists r st' ts', o = Ret (r, st', ts') /\ stores_ok st' ts' /\ later st ts st' ts' /\ encodes ts' /\ P st' ts' r.

Lemma search_ret {A} st ts (P : domains -> cstate -> A -> Prop) r :
  stores_ok st ts -> encodes ts -> P st ts r -> search_done st ts P (Ret (r, st, ts)).
Proof using CL. intros. exists r, st, ts. split_and!; [done..|apply later_refl|done|done]. Qed.

(** One operation after the other. *)
Lemma search_bind {A B} st ts (P : domains -> cstate -> A -> Prop) (Q : domains -> cstate -> B -> Prop) o f :
  search_done st ts P o ->
  (forall r st' ts', stores_ok st' ts' -> later st ts st' ts' -> encodes ts' -> P st' ts' r ->
     search_done st' ts' Q (f (r, st', ts'))) ->
  search_done st ts Q (o ≫= f).
Proof using Type.
  intros (r & st1 & ts1 & -> & O1 & L1 & E1 & P1) Hf. cbn [mbind load_bind].
  destruct (Hf r st1 ts1 O1 L1 E1 P1) as (r2 & st2 & ts2 & -> & O2 & L2 & E2 & Q2).
  exists r2, st2, ts2. split_and!; [done..|by eapply later_trans|done|done].
Qed.

Lemma find_msg_in_ok st ts i :
  stores_ok st ts -> encodes ts -> in_pool st i ->
  search_done st ts (fun st' ts' r => match r with
    | Here t => translation_in st' ts' i enc msgid t
    | Missing => lacks st' i enc msgid
    | NoResources => conversion_failed
    end) (find_msg_in pf env codeset st ts i msgid).
Proof using Hfs Hlk Hcs Hw.
  intros Hok He Hi. pose proof (proj1 Hok) as Hdok. unfold find_msg_in.
  destruct (load_entry_total pf Hfs st i Hdok Hi) as [st' E]. rewrite E.
  destruct (load_entry_ok pf st i st' Hdok E) as (O & L & _ & D). cbn [mbind load_bind].
  pose proof (stores_later st ts st' Hok O L) as Hok'.
  assert (D1 : df_decided (get_df st' i) = 1) by (destruct Hi as (f & Hf & Hfi); by apply (D f)).
  pose proof (in_pool_later _ _ _ L Hi) as Hi'. pose proof (conj L (cstate_later_refl ts)) as L'.
  destruct (df_data (get_df st' i)) as [[d pl]|] eqn:Ed; cycle 1.
  { exists Missing, st', ts. split_and!; [done..|]. split_and!; [done..|]. by rewrite Ed. }
  destruct (get_df_catalog pf st' i d pl O Ed) as (f & Hf & Hfi & Hc).
  destruct (Hlk f d pl Hc) as [Hu _]. destruct Hcs as [C1 C2 C3].
  destruct (find_text_ok (loaded st') (env_charset env) codeset i d msgid ts) as (r & ts' & Er & Ok' & Lt & Ee & Hr);
    [apply Hok'|unfold loaded; by rewrite Ed|done|done|by eapply encoding_wf; [apply Hok'|..]|done|].
  rewrite Er. cbn [mbind load_bind]. rewrite He in *.
  exists r, st', ts'. split_and!; [done|by split|by split|done|].
  destruct r as [| |[t len]]; [|done|].
  - split_and!; [done..|]. rewrite Ed. by intros ? ? [= <- <-].
  - destruct Hr as (bytes & Hexp & Hlen & Hsh). by exists f, d, pl, bytes.
Qed.

Lemma find_in_successors_ok l st ts :
  stores_ok st ts -> encodes ts -> (forall j, Some j ∈ l -> in_pool st j) ->
  search_done st ts (fun st' ts' r => first_match st' ts' enc msgid (up_to_null l) r)
    (find_in_successors pf env codeset l msgid st ts).
Proof using Hfs Hlk Hcs Hw.
  revert st ts. induction l as [|[i|] l IH]; intros st ts Hok He Hl; cbn [find_in_successors up_to_null];
    try (apply search_ret; [done|done|constructor]).
  eapply search_bind; [apply find_msg_in_ok; [done|done|apply Hl, list_elem_of_here]|].
  intros r st1 ts1 O1 L1 E1 P1. destruct r as [| |t]; [|by apply search_ret; [..|constructor]|by apply search_ret; [..|constructor]].
  destruct (IH st1 ts1 O1 E1) as (r & st2 & ts2 & E2 & O2 & L2 & En2 & M2).
  { intros j Hj. eapply in_pool_later; [apply L1|]. by apply Hl, list_elem_of_further. }
  exists r, st2, ts2. split_and!; [done..|]. apply FmNext; [by eapply lacks_later; [apply L2|]|done].
Qed.

Lemma find_in_domain_ok i st ts :
  stores_ok st ts -> encodes ts -> in_pool st i ->
  search_done st ts (fun st' ts' r => first_match st' ts' enc msgid (candidates st' i) r)
    (find_in_domain pf env codeset i msgid st ts).
Proof using Hfs Hlk Hcs Hw.
  intros Hok He Hi. unfold find_in_domain.
  eapply search_bind; [by apply find_msg_in_ok|]. intros r st1 ts1 O1 L1 E1 P1.
  destruct r as [| |t]; [|by apply search_ret; [..|constructor]|by apply search_ret; [..|constructor]].
  destruct (find_in_successors_ok (successors st1 i) st1 ts1 O1 E1) as (r & st2 & ts2 & E2 & O2 & L2 & En2 & M2);
    [intros j; by apply (successors_in_pool pf); apply O1|].
  exists r, st2, ts2. split_and!; [done..|].
  rewrite (candidates_later st1 st2) by (apply L2 || (eapply in_pool_later; [apply L1|done])). unfold candidates.
  apply FmNext; [by eapply lacks_later; [apply L2|]|done].
Qed.
End Search.

(** ** The search through the languages *)

Section Languages.
Context {PM : PriMacros} {AT : AliasTable} {CV : Converter} {CL : ConverterLaws} (pf : platform) (env : environment).
Context (codeset : option cstr) (dirname xdomainname msgid enc : cstr).

(** The answer for a list of languages: the entry of a language and its
    successors are searched before the next language; a language is passed over only
    if they lack the message, or if there was no memory for its entry. *)
Inductive answer (st : domains) (ts : cstate) : list cstr -> lookup (nat * (text * Z)) -> Prop :=
| AnNone : answer st ts [] Missing
| AnFound lang l i name t :
    is_entry st i name -> looked_for pf dirname lang xdomainname name ->
    first_match pf st ts enc msgid (candidates st i) t -> t <> Missing -> answer st ts (lang :: l) t
| AnLacks lang l i name r :
    is_entry st i name -> looked_for pf dirname lang xdomainname name ->
    first_match pf st ts enc msgid (candidates st i) Missing -> answer st ts l r -> answer st ts (lang :: l) r
| AnNoMemory lang l r : no_memory pf -> answer st ts l r -> answer st ts (lang :: l) r.

Lemma is_entry_later st st' i name : later_than st st' -> is_entry st i name -> is_entry st' i name.
Proof using Type. intros [F _ _] (f & Hf & ?). exists f. auto. Qed.

Lemma is_entry_in_pool st i name : is_entry st i name -> in_pool st i.
Proof using Type. intros (f & Hf & Hi & _). by exists f. Qed.

Lemma answer_in st ts l i t : answer st ts l (Here (i, t)) -> translation_in pf st ts i enc msgid t.
Proof using Type.
  remember (Here (i, t)) as r eqn:E. induction 1 as [|lang l j name t' _ _ Hm| |]; [done| |auto..].
  subst t'. by eapply first_match_in.
Qed.

(** A language that is passed over. *)
Lemma answer_lacks st ts st' ts' l lang i name r :
  domains_ok pf st -> later st ts st' ts' ->
  is_entry st i name -> looked_for pf dirname lang xdomainname name ->
  first_match pf st ts enc msgid (candidates st i) Missing -> answer st' ts' l r -> answer st' ts' (lang :: l) r.
Proof using Type.
  intros Hok L He Hl Hm Ha. pose proof (proj1 L) as L1. eapply AnLacks; [by eapply is_entry_later|done| |done].
  rewrite (candidates_later st st') by (done || by eapply is_entry_in_pool).
  by eapply first_match_later.
Qed.

Context (n : Z) (Hfs : files_readable pf) (Hlk : lookups_defined pf n) (Hcs : charset_ok env codeset).
Context (Hd : wf_cstr dirname) (Hx : wf_cstr xdomainname) (Hw : wf_cstr msgid).
Context (Ha : forall s v, _nl_expand_alias s = Some v -> wf_cstr v).

Lemma wf_next v s r : wf_cstr v -> next_element v = (s, r) -> wf_cstr s /\ wf_cstr r.
Proof using Type.
  intros Hv E. pose proof (next_element_spec v) as H. rewrite E in H. destruct H as (-> & _).
  by apply wf_cstr_app in Hv.
Qed.

Lemma wf_skip v : wf_cstr v -> wf_cstr (skip_colons v).
Proof using Type.
  induction v as [|c v IH]; [done|]. cbn [skip_colons]. intros Hv. case_if; [|done].
  apply IH. apply wf_cstr_cons in Hv. tauto.
Qed.

Definition loop_done (value : cstr) (st : domains) (ts : cstate) : load (lookup (nat * (text * Z)) * domains * cstate) -> Prop :=
  search_done pf env codeset enc st ts (fun st' ts' r => answer st' ts' (languages (env_secure env) value) r).

(** One language that is not C. *)
Lemma one_language lang rest value st ts (next : domains -> cstate -> load (lookup (nat * (text * Z)) * domains * cstate)) :
  stores_ok pf st ts -> encoding_of (env_charset env) codeset ts = enc -> wf_cstr lang ->
  languages (env_secure env) value = lang :: languages (env_secure env) rest ->
  (forall st' ts', stores_ok pf st' ts' -> encoding_of (env_charset env) codeset ts' = enc -> loop_done rest st' ts' (next st' ts')) ->
  loop_done value st ts
    ('(domain, st) ← _nl_find_domain pf dirname lang xdomainname st;
     match domain with
     | None => next st ts
     | Some i =>
         '(r, st, ts) ← find_in_domain pf env codeset i msgid st ts;
         match r with
         | Missing => next st ts
         | _ => Ret (r, st, ts)
         end
     end).
Proof using Hfs Hlk Hcs Hd Hx Hw Ha.
  intros Hok He Hlang El Hnext.
  destruct (find_domain_total pf dirname lang xdomainname st Hfs Hd Hlang Hx (Ha lang) (proj1 Hok))
    as (r & st1 & E1 & O1 & L1 & H1).
  pose proof (stores_later pf st ts st1 Hok O1 L1) as Hok1. pose proof (conj L1 (cstate_later_refl ts)) as L1'.
  rewrite E1. cbn [mbind load_bind]. unfold loop_done. rewrite El. destruct r as [i|]; cycle 1.
  { destruct (Hnext st1 ts Hok1 He) as (r & st2 & ts2 & E2 & O2 & L2 & En2 & A2). exists r, st2, ts2.
    split_and!; [done..|by eapply later_trans|done|by apply AnNoMemory]. }
  destruct H1 as [(name & Hent & Hl) _].
  destruct (find_in_domain_ok pf env n codeset msgid enc Hfs Hlk Hcs Hw i st1 ts Hok1 He) as (r & st2 & ts2 & E2 & O2 & L2 & En2 & M2);
    [by eapply is_entry_in_pool|].
  rewrite E2. cbn [mbind load_bind]. pose proof (is_entry_later _ _ _ _ (proj1 L2) Hent) as He2.
  pose proof (later_trans _ _ _ _ _ _ L1' L2) as L12.
  destruct r as [| |t]; [|by exists NoResources, st2, ts2; split_and!; [done..|eapply AnFound]
    |by exists (Here t), st2, ts2; split_and!; [done..|eapply AnFound]].
  destruct (Hnext st2 ts2 O2 En2) as (r & st3 & ts3 & E3 & O3 & L3 & En3 & A3). exists r, st3, ts3.
  split_and!; [done..|by eapply later_trans|done|eapply (answer_lacks st2 ts2); [apply O2|done..]].
Qed.

Lemma language_loop_ok fuel value st ts :
  (length value < fuel)%nat -> wf_cstr value -> stores_ok pf st ts -> encoding_of (env_charset env) codeset ts = enc ->
  loop_done value st ts (language_loop pf env fuel codeset dirname xdomainname msgid value st ts).
Proof using Hfs Hlk Hcs Hd Hx Hw Ha.
  revert value st ts. induction fuel as [|fuel IH]; intros value st ts Hf Hv Hok He; [lia|].
  cbn [language_loop]. unfold loop_done. rewrite <- languages_skip.
  pose proof (skip_colons_length value) as Hlen. pose proof (wf_skip value Hv) as Hv'.
  pose proof (skip_colons_head value) as Hh. destruct (skip_colons value) as [|c v] eqn:Es.
  { apply search_ret; [done|done|constructor]. }
  destruct (next_element (c :: v)) as [s r] eqn:En.
  destruct (languages_next (env_secure env) (c :: v) s r) as (Hne & Hr & _ & El);
    [done|by intros ? ? [= <- <-]; eapply Hh|done|].
  destruct (wf_next (c :: v) s r Hv' En) as [Hs Hwr].
  destruct (env_secure env && is_path_with_dir s) eqn:Ep.
  { rewrite El. apply (IH r st); [lia|done..]. }
  fold (is_C s). destruct (is_C s) eqn:EC.
  { rewrite El. apply search_ret; [done|done|constructor]. }
  apply (one_language s r (c :: v)); [done..|]. intros st' ts' Hok' He'. apply IH; [lia|done..].
Qed.
End Languages.
