(* ===== verification/GettextDriver.v ===== *)
(** * What DCIGETTEXT promises

    The translation that is returned is the one the search finds in the catalogs,
    or an argument; the cache has only translations that a catalog has.  All is proved
    for any implementation of the search table. *)

From S2P Require Import Prelude SearchTable HashString PluralExp PluralParse PluralExtract Catalog CatalogSpec CatalogFind CatalogLoad.
From S2P Require Import LocaleName L10nFlist L10nFlistSpec FindDomain FindDomainSpec Bindings BindingsSpec Converter Log LogSpec Gettext GettextSpec.

Open Scope Z_scope.

(** ** The keys of the cache *)

Definition key `{!Converter} (k : known_translation) : cstr * cstr * cstr * Z :=
  (kt_msgid k, kt_domainname k, kt_localename k, kt_category k).

Definition key_wf `{!Converter} (k : known_translation) : Prop :=
  wf_cstr (kt_msgid k) /\ wf_cstr (kt_domainname k) /\ wf_cstr (kt_localename k).

#[export] Instance strcmp_laws : CompareLaws strcmp wf_cstr.
Proof.
  split.
  - intros x y _ _. rewrite (strcmp_sym x y). lia.
  - intros x y z Hx Hy Hz. by apply strcmp_trans.
  - intros x y z Hx Hy _ E. by apply strcmp_eq in E as ->.
Qed.

Lemma sub_compare : CompareLaws Z.sub (fun _ => True).
Proof. split; intros; lia. Qed.

(** [transcmp] orders the keys, *)
#[export] Instance transcmp_laws `{!Converter} : CompareLaws transcmp key_wf.
Proof.
  apply (lex_laws (fun x y => strcmp (kt_msgid x) (kt_msgid y))).
  { apply (map_laws strcmp wf_cstr); [apply _|by intros x []]. }
  apply (lex_laws (fun x y => strcmp (kt_domainname x) (kt_domainname y))).
  { apply (map_laws strcmp wf_cstr); [apply _|by intros x (_ & ? & _)]. }
  apply (lex_laws (fun x y => strcmp (kt_localename x) (kt_localename y))).
  { apply (map_laws strcmp wf_cstr); [apply _|by intros x (_ & _ & ?)]. }
  by apply (map_laws Z.sub (fun _ => True) kt_category); [apply sub_compare|].
Qed.

(** and compares equal only equal ones. *)
Lemma transcmp_key `{!Converter} s k : key_wf s -> key_wf k -> transcmp s k = 0 <-> key s = key k.
Proof.
  intros (S1 & S2 & S3) (K1 & K2 & K3). unfold transcmp, key.
  destruct (Z.eqb_spec (strcmp (kt_msgid s) (kt_msgid k)) 0) as [E1|E1]; cbn [negb];
    [apply strcmp_eq in E1; [|done..]|split; [lia|intros [= E _ _ _]; by rewrite E, strcmp_refl in E1]].
  destruct (Z.eqb_spec (strcmp (kt_domainname s) (kt_domainname k)) 0) as [E2|E2]; cbn [negb];
    [apply strcmp_eq in E2; [|done..]|split; [lia|intros [= _ E _ _]; by rewrite E, strcmp_refl in E2]].
  destruct (Z.eqb_spec (strcmp (kt_localename s) (kt_localename k)) 0) as [E3|E3]; cbn [negb];
    [apply strcmp_eq in E3; [|done..]|split; [lia|intros [= _ _ E _]; by rewrite E, strcmp_refl in E3]].
  split; [intros E; f_equal; [congruence|lia]|intros [= _ _ _ E]; lia].
Qed.

(** ** Worlds *)

Section Worlds.
Context {PM : PriMacros} {AT : AliasTable} {CV : Converter} {CL : ConverterLaws}.
Context `{!SearchTable transcmp} `{!SearchTableLaws transcmp key_wf}.
Context (pf : platform) (dflt : cstr).

(** An entry shows the translation in the encoding it was asked for in. *)
Record known_ok (cntr : Z) (st : domains) (ts : cstate) (k : known_translation) : Prop := KnownOk {
  kok_wf : key_wf k;
  kok_counter : kt_counter k <= cntr;
  kok_translation : exists p enc, kt_translation k = Some p /\ wf_cstr enc /\
    translation_in pf st ts (kt_domain k) enc (kt_msgid k) (p, kt_translation_length k)
}.

(** The entries of a cache. *)
Definition cache_ok (cntr : Z) (st : domains) (ts : cstate) (t : table transcmp) (it : list (nat * known_translation)) : Prop :=
  table_items t it /\ Forall (fun x => known_ok cntr st ts (snd x)) it.

Record world_ok (w : world) : Prop := WorldOk {
  wok_bind : BindingsSpec.ok dflt (w_bind w);
  wok_domain : wf_cstr (dom_str (current_domain (w_bind w)));
  wok_stores : stores_ok pf (w_domains w) (w_texts w);
  wok_cache : exists it, cache_ok (msg_cat_cntr (w_bind w)) (w_domains w) (w_texts w) (w_cache w) it;
  wok_log : log_ok (w_log w)
}.

Record env_ok (env : environment) : Prop := EnvOk {
  eok_thread : wf_cstr (default [] (env_thread_locale env));
  eok_value : wf_cstr (guess_category_value env);
  eok_cwd : wf_cstr (default [] (env_cwd env));
  eok_output : wf_cstr (default [] (ce_OUTPUT_CHARSET (env_charset env)));
  eok_charset : wf_cstr (ce_locale_charset (env_charset env));
  eok_log : forall f, env_logfile env = Some f -> wf_cstr f /\ env_fopen env f = true
}.

Lemma cache_later cntr cntr' st ts st' ts' t it :
  domains_ok pf st -> later st ts st' ts' -> cntr <= cntr' -> cache_ok cntr st ts t it -> cache_ok cntr' st' ts' t it.
Proof using Type.
  intros Hok L Hc [Ht H]. split; [done|]. eapply Forall_impl; [exact H|]. intros k [H1 H2 (p & enc & H3 & H4 & H5)].
  split; [done|lia|]. exists p, enc. split_and!; [done|done|by eapply translation_later].
Qed.

Lemma remember_ok mal_known mal_node w st ts s k it :
  world_ok w -> cache_ok (msg_cat_cntr (w_bind w)) st ts (w_cache w) it -> stores_ok pf st ts ->
  known_ok (msg_cat_cntr (w_bind w)) st ts k -> key s = key k ->
  exists foundp t', table_find transcmp s (w_cache w) = Some foundp /\
    remember mal_known mal_node w foundp k = Some t' /\ world_ok (World (w_bind w) st ts t' (w_log w)).
Proof using All.
  intros [W1 W2 W3 W4 W5] [Hit Hall] Hok Hk Es.
  assert (Hs : key_wf s) by (destruct Hk as [Kw _ _]; unfold key_wf; injection Es as -> -> -> _; exact Kw).
  destruct (items_find _ _ s Hit Hs) as (q & Eq & Hq). exists q. rewrite Eq.
  assert (Hw : forall t' it', table_items t' it' ->
    Forall (fun x => known_ok (msg_cat_cntr (w_bind w)) st ts (snd x)) it' -> world_ok (World (w_bind w) st ts t' (w_log w)))
    by (intros t' it' H1 H2; split; [done..|by exists it'|done]).
  destruct q as [a|]; simpl.
  - destruct Hq as (old & Hin & Eo). apply list_elem_of_split in Hin as (l1 & l2 & ->).
    rewrite Forall_app, Forall_cons in Hall. destruct Hall as (A1 & Ao & A2). simpl in Ao.
    apply transcmp_key in Eo; [|done|apply Ao].
    match goal with |- context [table_update _ _ ?f _] => destruct (items_update _ l1 a old l2 f Hit) as (t' & E & Ht') end.
    { split; [apply Ao|done]. }
    rewrite E. exists t'. split; [done|]. split; [done|]. eapply Hw; [exact Ht'|].
    apply Forall_app. split; [done|]. apply Forall_cons_2; [|done]. simpl.
    destruct Ao as [X1 X2 X3], Hk as [K1 K2 K3]. split; simpl; [done..|].
    assert (kt_msgid old = kt_msgid k) as -> by (rewrite Eo in Es; by injection Es). done.
  - destruct mal_known; [|exists (w_cache w); split; [done|split; [done|by eapply Hw]]].
    assert (Hne : Forall (fun x => transcmp k (snd x) <> 0) it).
    { rewrite Forall_forall in Hq, Hall |- *. intros x Hx E. pose proof (kok_wf _ _ _ _ (Hall x Hx)) as Hxw.
      apply transcmp_key in E; [|apply Hk|done]. apply (Hq x Hx). apply transcmp_key; [done..|congruence]. }
    destruct (items_insert mal_node _ _ k Hit (kok_wf _ _ _ _ Hk) Hne) as (q & t' & it' & E & Ht' & Hm).
    rewrite E. simpl. exists t'. split; [done|]. split; [done|]. eapply Hw; [exact Ht'|].
    destruct mal_node; [destruct Hm as (a & _ & ->); by apply Forall_cons_2|by destruct Hm as [_ ->]].
Qed.

(** The stores grow, and the log changes. *)
Lemma world_grows w st ts l :
  world_ok w -> stores_ok pf st ts -> later (w_domains w) (w_texts w) st ts -> log_ok l ->
  world_ok (World (w_bind w) st ts (w_cache w) l).
Proof using Type.
  intros [W1 W2 W3 [it W4] W5] Hok L Hl. split; simpl; [done..| |done]. exists it.
  exact (cache_later _ _ _ _ _ _ _ _ (proj1 W3) L (Z.le_refl _) W4).
Qed.
End Worlds.

(** ** The driver *)

Section Driver.
Context {PM : PriMacros} {AT : AliasTable} {CV : Converter} {CL : ConverterLaws}.
Context `{!SearchTable transcmp} `{!SearchTableLaws transcmp key_wf}.
Context (pf : platform) (env : environment) (dflt : cstr) (mal_known mal_node : bool).
Context (Hdef : wf_cstr dflt) (Henv : env_ok env) (Hfs : files_readable pf).
Context (Ha : forall s v, _nl_expand_alias s = Some v -> wf_cstr v).

(** The form of a translation that is returned. *)
Definition delivered (st : domains) (ts : cstate) (plural : bool) (n : Z) (t : nat * (text * Z)) (m : message) : Prop :=
  choose st ts plural t.1 n t.2.1 t.2.2 = Ret m.

Definition file_of (domainname : cstr) (category : Z) : cstr :=
  category_to_name category ++ [chr "/"] ++ domainname ++ cs ".mo".

(** The encoding of a call: the one bound to the domain, OUTPUT_CHARSET, or that of the locale. *)
Definition call_encoding (b : state) (domainname : cstr) (ts : cstate) : cstr :=
  encoding_of (env_charset env) (binding_codeset b domainname) ts.

(** The argument is returned, and logged. *)
Definition falls_back (domainname msgid1 : cstr) (msgid2 : option cstr) (plural : bool) (n : Z) (l l' : log_state) (m : message) : Prop :=
  m = untranslated msgid1 msgid2 plural n /\ log_untranslated env domainname msgid1 msgid2 plural l = Ret l'.

(** The result if the catalogs are searched. *)
Definition searched (w w' : world) (domainname msgid1 : cstr) (msgid2 : option cstr) (plural : bool)
    (n category : Z) (m : message) : Prop :=
  match resolve_dirname env dflt (w_bind w) domainname with
  | None => falls_back domainname msgid1 msgid2 plural n (w_log w) (w_log w') m
  | Some dirname => exists r,
      answer pf dirname (file_of domainname category) msgid1 (call_encoding (w_bind w) domainname (w_texts w))
        (w_domains w') (w_texts w') (languages (env_secure env) (guess_category_value env)) r /\
      match r with
      | Here t => delivered (w_domains w') (w_texts w') plural n t m /\ w_log w' = w_log w
      | _ => falls_back domainname msgid1 msgid2 plural n (w_log w) (w_log w') m
      end
  end.

Lemma choose_pointer st ts plural i n p len j q off : choose st ts plural i n p len = Ret (Translated j q off) -> j = i /\ q = p.
Proof using Type.
  unfold choose, plural_in. destruct plural; [|by intros [= -> ->]]. destruct (df_data _) as [[d [pl np]]|]; [|done]. intros H.
  apply lbind_ret in H as (b & _ & H). apply lbind_ret in H as (o & _ & [= -> -> _]). done.
Qed.

(** A pointer that a search returns is to the translation in the encoding of the call. *)
Lemma searched_translated w w' dom msgid1 msgid2 plural n category i p off :
  searched w w' dom msgid1 msgid2 plural n category (Translated i p off) ->
  exists len, translation_in pf (w_domains w') (w_texts w') i (call_encoding (w_bind w) dom (w_texts w)) msgid1 (p, len) /\
    delivered (w_domains w') (w_texts w') plural n (i, (p, len)) (Translated i p off).
Proof using Type.
  unfold searched. destruct (resolve_dirname _ _ _ _) as [dirname|]; [|by intros []]. intros ([| |[j [q len]]] & Hans & H); [by destruct H..|].
  destruct H as [Hdl _]. destruct (choose_pointer _ _ _ _ _ _ _ _ _ _ Hdl) as [-> ->]. exists len. split; [|done].
  by apply (answer_in _ _ _ _ _ _ _ _ _ _ Hans).
Qed.

Lemma wf_slash : wf_cstr [chr "/"].
Proof using Type. apply (bool_decide_unpack _). vm_compute. reflexivity. Qed.

Lemma wf_file_of domainname category : wf_cstr domainname -> wf_cstr (file_of domainname category).
Proof using Type.
  intros H. unfold file_of. rewrite !wf_cstr_app. split_and!; [|apply wf_slash|done|].
  - unfold category_to_name. repeat case_if; apply (bool_decide_unpack _); vm_compute; reflexivity.
  - apply (bool_decide_unpack _). vm_compute. reflexivity.
Qed.

Lemma wf_resolve b domainname dirname :
  BindingsSpec.ok dflt b -> wf_cstr domainname -> resolve_dirname env dflt b domainname = Some dirname ->
  wf_cstr dirname.
Proof using Hdef Henv.
  intros Hb Hd. unfold resolve_dirname. destruct (find_binding _ _) as [bd|] eqn:Ef; [|by intros [= <-]].
  destruct (binding_wf_find dflt b domainname bd Hb Hd Ef) as [Hw _]. case_if; [by intros [= <-]|].
  pose proof (eok_cwd _ Henv) as Hc. destruct (env_cwd env) as [cwd|]; [|done]. intros [= <-].
  rewrite wf_cstr_app, wf_cstr_cons. split_and!; [done|done|done|done].
Qed.

Lemma call_charset b domainname : BindingsSpec.ok dflt b -> wf_cstr domainname -> charset_ok env (binding_codeset b domainname).
Proof using Henv.
  intros Hb Hd. split; [|apply Henv..]. unfold binding_codeset. destruct (find_binding _ _) as [bd|] eqn:Ef; [|by apply Forall_nil_2].
  apply (binding_wf_find dflt b domainname bd Hb Hd Ef).
Qed.

Lemma wf_encoding w domainname : world_ok pf dflt w -> wf_cstr domainname -> wf_cstr (call_encoding (w_bind w) domainname (w_texts w)).
Proof using Henv.
  intros Hw Hd. destruct (call_charset (w_bind w) domainname (wok_bind _ _ _ Hw) Hd) as [C1 C2 C3].
  eapply encoding_wf; [apply (wok_stores _ _ _ Hw)|done..].
Qed.

Lemma choose_defined st ts plural n enc msgid i t :
  lookups_defined pf n -> wf_cstr enc -> wf_cstr msgid -> translation_in pf st ts i enc msgid t ->
  exists m, choose st ts plural i n t.1 t.2 = Ret m.
Proof using Type.
  intros Hlk Hwe Hw (f & d & pl & bytes & Hf & Hi & Hd & Hc & He & Hl & Hs). unfold choose. destruct plural; [|by eexists].
  destruct (Hlk f d pl Hc) as [_ Hp]. destruct (Hp enc msgid bytes Hwe Hw He) as [off Ho].
  unfold plural_in. rewrite Hd. destruct pl as [pl np]. rewrite Hl, (shows_bytes _ _ _ _ Hs). cbn [mbind load_bind].
  simpl in Ho. rewrite Ho. by eexists.
Qed.

(** A plural without a second message is only given when nothing is logged. *)
Definition loggable (msgid2 : option cstr) (plural : bool) : Prop := plural = true -> msgid2 = None -> env_logfile env = None.

Lemma log_untranslated_ok dom msgid1 msgid2 plural l :
  log_ok l -> loggable msgid2 plural ->
  exists l', log_untranslated env dom msgid1 msgid2 plural l = Ret l' /\ log_ok l'.
Proof using Henv.
  intros Hl Hp. unfold log_untranslated. destruct (env_logfile env) as [[|c f]|] eqn:Ef; [by exists l| |by exists l].
  destruct (env_secure env); [by exists l|]. destruct (eok_log _ Henv (c :: f) Ef) as [Hwf Hopen].
  set (call := LogCall _ _ _ _ _ _ _). destruct (log_call_ok call l Hl Hwf Hopen) as (l' & E & Hl' & _).
  exists l'. split; [|done]. rewrite E. unfold loggable in Hp. destruct plural, msgid2; try done. specialize (Hp eq_refl eq_refl). congruence.
Qed.

(** The record that tfind() is asked for. *)
Definition wanted (domainname msgid1 : cstr) (category : Z) : known_translation :=
  KnownTranslation msgid1 domainname (default [] (env_thread_locale env)) category 0 0 None 0.

(** What a call of the driver does to the world. *)
Record call_done (w w' : world) : Prop := CallDone {
  cd_ok : world_ok pf dflt w';
  cd_bind : w_bind w' = w_bind w;
  cd_later : later (w_domains w) (w_texts w) (w_domains w') (w_texts w')
}.

Lemma return_untranslated_ok w st ts domainname msgid1 msgid2 plural n :
  world_ok pf dflt w -> stores_ok pf st ts -> later (w_domains w) (w_texts w) st ts -> loggable msgid2 plural ->
  exists m w', return_untranslated env (World (w_bind w) st ts (w_cache w) (w_log w)) domainname msgid1 msgid2 plural n = Ret (m, w') /\
    call_done w w' /\ w_domains w' = st /\ w_texts w' = ts /\
    falls_back domainname msgid1 msgid2 plural n (w_log w) (w_log w') m.
Proof using Henv.
  intros Hw Hok L Hp. unfold return_untranslated. cbn [w_log w_bind w_domains w_texts w_cache].
  destruct (log_untranslated_ok domainname msgid1 msgid2 plural (w_log w) (wok_log _ _ _ Hw) Hp) as (l & E & Hl).
  rewrite E. cbn [mbind load_bind]. eexists _, _. split; [done|]. split_and!; [|done|done|by split].
  split; [by apply world_grows|done|done].
Qed.

Lemma translate_ok w domainname msgid1 msgid2 plural n category foundp :
  world_ok pf dflt w -> lookups_defined pf n -> wf_cstr domainname -> wf_cstr msgid1 -> loggable msgid2 plural ->
  table_find transcmp (wanted domainname msgid1 category) (w_cache w) = Some foundp ->
  exists m w', translate pf env dflt mal_known mal_node w domainname (default [] (env_thread_locale env)) msgid1
      msgid2 plural n category foundp = Ret (m, w') /\
    call_done w w' /\ searched w w' domainname msgid1 msgid2 plural n category m.
Proof using All.
  intros Hw Hlk Hd Hm Hp Hfind. unfold translate, searched.
  destruct (resolve_dirname env dflt (w_bind w) domainname) as [dirname|] eqn:Er; cycle 1.
  { destruct (return_untranslated_ok w _ _ domainname msgid1 msgid2 plural n Hw (wok_stores _ _ _ Hw) (later_refl _ _) Hp)
      as (m & w' & E & H1 & _ & _ & H2). exists m, w'. destruct w. by split_and!. }
  cbv zeta. fold (file_of domainname category).
  destruct (language_loop_ok pf env (binding_codeset (w_bind w) domainname) dirname (file_of domainname category) msgid1
    (call_encoding (w_bind w) domainname (w_texts w)) n Hfs Hlk
    (call_charset _ _ (wok_bind _ _ _ Hw) Hd)
    (wf_resolve _ _ _ (wok_bind _ _ _ Hw) Hd Er) (wf_file_of domainname category Hd) Hm Ha
    (S (length (guess_category_value env))) (guess_category_value env) (w_domains w) (w_texts w))
    as (r & st & ts & E & O & L & _ & A); [lia|apply Henv|apply Hw|done|].
  rewrite E. cbn [mbind load_bind].
  assert (Hback : forall r', r = r' -> match r' with Here _ => False | _ => True end ->
    exists m w', return_untranslated env (World (w_bind w) st ts (w_cache w) (w_log w)) domainname msgid1 msgid2 plural n = Ret (m, w') /\
      call_done w w' /\ exists r, answer pf dirname (file_of domainname category) msgid1 (call_encoding (w_bind w) domainname (w_texts w))
        (w_domains w') (w_texts w') (languages (env_secure env) (guess_category_value env)) r /\
      match r with
      | Here t => delivered (w_domains w') (w_texts w') plural n t m /\ w_log w' = w_log w
      | _ => falls_back domainname msgid1 msgid2 plural n (w_log w) (w_log w') m
      end).
  { intros r' <- Hr. destruct (return_untranslated_ok w st ts domainname msgid1 msgid2 plural n Hw O L Hp)
      as (m & w' & Em & H1 & H2 & H3 & H4). exists m, w'. split_and!; [done|done|]. exists r. rewrite H2, H3. split; [done|].
    by destruct r. }
  destruct r as [| |[i [p len]]]; [by eapply Hback|by eapply Hback|]. clear Hback.
  pose proof (answer_in _ _ _ _ _ _ _ _ _ _ A) as Ht. destruct (wok_cache _ _ _ Hw) as [it Hit].
  apply (cache_later pf _ (msg_cat_cntr (w_bind w)) _ _ st ts) in Hit; [|apply Hw|done|lia].
  pose proof (wf_encoding w domainname Hw Hd) as Hwe.
  set (k := KnownTranslation _ _ _ _ _ _ _ _).
  assert (Hk : known_ok pf (msg_cat_cntr (w_bind w)) st ts k).
  { split; simpl; [|lia|by eexists _, _]. split_and!; [done..|apply Henv]. }
  destruct (remember_ok pf dflt mal_known mal_node w st ts (wanted domainname msgid1 category) k it Hw Hit O Hk eq_refl)
    as (q & t' & Eq & Er' & Hw').
  rewrite Hfind in Eq. injection Eq as <-. rewrite Er'. cbn [mbind load_bind returned].
  destruct (choose_defined st ts plural n _ msgid1 i (p, len) Hlk Hwe Hm Ht) as [m Em]. simpl in Em. rewrite Em.
  cbn [mbind load_bind]. eexists m, _. split; [done|]. split; [by split|]. by exists (Here (i, (p, len))).
Qed.

(** An entry of the cache that answers the call. *)
Definition cached (w : world) (domainname msgid1 : cstr) (category : Z) (t : nat * (text * Z)) : Prop :=
  exists a k, table_find transcmp (wanted domainname msgid1 category) (w_cache w) = Some (Some a) /\
    table_get transcmp a (w_cache w) = Some k /\ kt_counter k = msg_cat_cntr (w_bind w) /\
    kt_translation k = Some t.2.1 /\ t.1 = kt_domain k /\ t.2.2 = kt_translation_length k.

Lemma DCIGETTEXT_total w domainname msgid1 msgid2 plural n category :
  world_ok pf dflt w -> lookups_defined pf n -> wf_cstr (default [] domainname) -> wf_cstr msgid1 -> loggable msgid2 plural ->
  let dom := default (dom_str (current_domain (w_bind w))) domainname in
  exists m w', DCIGETTEXT pf env dflt mal_known mal_node w domainname (Some msgid1) msgid2 plural n category
      = Ret (m, w') /\
    call_done w w' /\
    ((exists t enc, cached w dom msgid1 category t /\ translation_in pf (w_domains w) (w_texts w) t.1 enc msgid1 t.2 /\
        delivered (w_domains w) (w_texts w) plural n t m /\ w' = w) \/
     searched w w' dom msgid1 msgid2 plural n category m).
Proof using All.
  intros Hw Hlk Hd Hm Hp dom. unfold DCIGETTEXT. fold dom. cbv zeta. fold (wanted dom msgid1 category).
  assert (Hdom : wf_cstr dom) by (unfold dom; destruct domainname; [done|apply Hw]).
  assert (Hk0 : key_wf (wanted dom msgid1 category)) by (split_and!; [done..|apply Henv]).
  destruct (wok_cache _ _ _ Hw) as [it [Hit Hall]].
  destruct (items_find _ _ _ Hit Hk0) as (q & Eq & Hq). rewrite Eq. cbn [mbind load_bind returned].
  destruct (translate_ok w dom msgid1 msgid2 plural n category q Hw Hlk Hdom Hm Hp Eq) as (m & w' & E & Hc & Hs).
  assert (Htr : exists m w', translate pf env dflt mal_known mal_node w dom (default [] (env_thread_locale env))
      msgid1 msgid2 plural n category q = Ret (m, w') /\ call_done w w' /\
    ((exists t enc, cached w dom msgid1 category t /\ translation_in pf (w_domains w) (w_texts w) t.1 enc msgid1 t.2 /\
        delivered (w_domains w) (w_texts w) plural n t m /\ w' = w) \/
     searched w w' dom msgid1 msgid2 plural n category m))
    by (exists m, w'; split_and!; [done..|by right]).
  destruct q as [a|]; cbn [mbind option_bind]; [|exact Htr].
  destruct Hq as (k & Hin & Ek). rewrite (items_get _ _ _ _ Hit Hin).
  destruct (Z.eqb_spec (kt_counter k) (msg_cat_cntr (w_bind w))) as [Ec|Ec]; [|exact Htr]. clear Htr m w' E Hc Hs.
  rewrite Forall_forall in Hall. destruct (Hall _ Hin) as [Kw _ (p & enc & Ep & Hwe & Ht)]. simpl in Ht, Kw, Ep.
  apply transcmp_key in Ek; [|done..]. assert (kt_msgid k = msgid1) as Eid by (by injection Ek).
  rewrite Eid in Ht. rewrite Ep. cbn [mbind load_bind returned].
  destruct (choose_defined (w_domains w) (w_texts w) plural n enc msgid1 (kt_domain k) _ Hlk Hwe Hm Ht) as [m Em].
  simpl in Em. rewrite Em. cbn [mbind load_bind]. exists m, w. split_and!; [done|split; [done..|apply later_refl]|].
  left. exists (kt_domain k, (p, kt_translation_length k)), enc. split_and!; [|done..].
  exists a, k. split_and!; [done| |done..]. by eapply items_get.
Qed.
End Driver.
