(* ===== verification/GettextTheorems.v ===== *)
(** * Theorems on the translation driver

    The result of a call, its repetition from the cache, and all sequences of calls. *)

From S2P Require Import Prelude SearchTable HashString PluralExp PluralParse PluralExtract Catalog CatalogSpec CatalogFind CatalogLoad.
From S2P Require Import LocaleName L10nFlist L10nFlistSpec FindDomain FindDomainSpec Bindings BindingsSpec Convert Converter Log LogSpec.
From S2P Require Import Tsearch TsearchSpec TsearchInsert TsearchOps Gettext GettextSpec GettextDriver.

Open Scope Z_scope.

(** ** Catalogs in which lookups return *)

(** The strings [S] can be found (a hash table of prime size with an empty slot, or sorted strings), every translation lies inside the
    catalog and is a list of forms, and the formula has a value for [n]: it does not divide by zero. *)
Record sound_catalog (d : loaded_domain) (pl : option expression * Z) (n : Z) : Prop := SoundCatalog {
  sc_strings : exists S, represents d S /\ searchable d S /\
    forall i s, S !! i = Some s -> exists p len ss, translation d (Z.of_nat i) = Ret (p, len) /\ 0 <= len /\
      bytes_of d p len = Ret (forms ss) /\ Forall wf_cstr ss /\ ss <> [];
  sc_formula : exists e index, pl.1 = Some e /\ plural_eval 64 e n = Some index /\ 0 <= index
}.

Lemma lookups_of_catalogs {PM : PriMacros} pf n :
  (forall f d pl, catalog_of pf f d pl -> sound_catalog d pl n) -> lookups_defined pf n.
Proof.
  intros Hall f d pl Hc. destruct (Hall f d pl Hc) as [(S & HR & HS & HT) (e & index & Epl & Ee & Hi)].
  assert (Hfind : forall msgid, wf_cstr msgid -> find_msg d msgid = Ret None \/
    exists p len ss, find_msg d msgid = Ret (Some (p, len)) /\ 0 <= len /\ bytes_of d p len = Ret (forms ss) /\ Forall wf_cstr ss /\ ss <> []).
  { intros msgid Hm. unfold find_msg. rewrite (find_act_spec d S msgid HR HS Hm). cbn [mbind load_bind].
    destruct (decide (msgid ∈ S)) as [Hin|Hni]; [|rewrite index_of_None by done; by left].
    apply list_elem_of_lookup in Hin as [i Hin]. rewrite (index_of_Some S msgid i (rep_nodup _ _ HR) Hin).
    destruct (HT i msgid Hin) as (p & len & ss & Et & H). rewrite Et. right. by exists p, len, ss. }
  split.
  - intros msgid Hm. destruct (Hfind msgid Hm) as [->|(p & len & ss & -> & H0 & Hb & _)]; [by exists None|].
    exists (Some (p, len)). split; [done|]. intros p' len' [= <- <-]. split; [done|by eexists].
  - intros enc msgid bytes _ Hm. change (expected d enc msgid) with (catalog_text d msgid). unfold catalog_text.
    destruct (Hfind msgid Hm) as [->|(p & len & ss & -> & H0 & -> & Hss & Hne)]; [done|]. intros [= <-].
    destruct (plural_form e pl.2 n index ss Hss Hne Ee Hi) as (off & Eo & _). exists off. by rewrite Epl.
Qed.

(** ** The cache after a call *)

Section Cache.
Context {PM : PriMacros} {AT : AliasTable} {CV : Converter} {CL : ConverterLaws}.
Context `{!SearchTable transcmp} `{!SearchTableLaws transcmp key_wf}.
Context (pf : platform) (dflt : cstr).

(** What was remembered is found. *)
Lemma remember_found w st ts s k it foundp t' :
  cache_ok pf (msg_cat_cntr (w_bind w)) st ts (w_cache w) it ->
  known_ok pf (msg_cat_cntr (w_bind w)) st ts k -> key s = key k ->
  table_find transcmp s (w_cache w) = Some foundp -> remember true true w foundp k = Some t' ->
  exists a k', table_find transcmp s t' = Some (Some a) /\ table_get transcmp a t' = Some k' /\
    kt_counter k' = kt_counter k /\ kt_domain k' = kt_domain k /\ kt_translation k' = kt_translation k /\
    kt_translation_length k' = kt_translation_length k.
Proof using All.
  intros [Hit Hall] Hk Es Hf Hr.
  assert (Hs : key_wf s) by (destruct Hk as [Kw _ _]; unfold key_wf; injection Es as -> -> -> _; exact Kw).
  assert (Hgoal : forall it' a k', table_items t' it' -> (a, k') ∈ it' -> key s = key k' -> key_wf k' ->
    table_find transcmp s t' = Some (Some a) /\ table_get transcmp a t' = Some k').
  { intros it' a k' Hit' Hin Ek Hwk. split; [|by eapply items_get].
    destruct (items_find t' it' s Hit' Hs) as (q & Eq & Hq). rewrite Eq. f_equal.
    assert (E0 : transcmp s k' = 0) by (by apply transcmp_key). destruct q as [b|].
    - destruct Hq as (k2 & Hin2 & E2). pose proof (items_unique t' it' s _ _ Hit' Hs Hin2 Hin E2 E0) as E. by injection E as -> _.
    - rewrite Forall_forall in Hq. by destruct (Hq _ Hin). }
  destruct (items_find _ _ s Hit Hs) as (q & Eq & Hq). rewrite Eq in Hf. injection Hf as <-.
  destruct q as [a|]; simpl in Hr.
  - destruct Hq as (old & Hin & Eo). apply list_elem_of_split in Hin as (l1 & l2 & ->).
    rewrite Forall_app, Forall_cons in Hall. destruct Hall as (_ & Ao & _). simpl in Ao.
    apply transcmp_key in Eo; [|done|apply Ao].
    match type of Hr with table_update _ _ ?f _ = _ => destruct (items_update _ l1 a old l2 f Hit) as (t2 & E & Ht2) end.
    { split; [apply Ao|done]. }
    rewrite Hr in E. injection E as <-.
    match type of Ht2 with table_items _ (_ ++ (_, ?k2) :: _) => destruct (Hgoal _ a k2 Ht2) as [E1 E2]; [| | |by exists a, k2] end.
    + rewrite elem_of_app, elem_of_cons. auto.
    + by rewrite Eo.
    + apply Ao.
  - assert (Hne : Forall (fun x => transcmp k (snd x) <> 0) it).
    { rewrite Forall_forall in Hq, Hall |- *. intros x Hx E. pose proof (kok_wf _ _ _ _ _ (Hall x Hx)) as Hxw.
      apply transcmp_key in E; [|apply Hk|done]. apply (Hq x Hx). apply transcmp_key; [done..|congruence]. }
    destruct (items_insert true _ _ k Hit (kok_wf _ _ _ _ _ Hk) Hne) as (q & t2 & it' & E & Ht2 & a & _ & Hp).
    rewrite E in Hr. injection Hr as <-. exists a, k.
    destruct (Hgoal it' a k Ht2) as [E1 E2]; [rewrite Hp; by left|done|apply Hk|done].
Qed.

Context (env : environment) (Hdef : wf_cstr dflt) (Henv : env_ok env) (Hfs : files_readable pf).
Context (Ha : forall s v, _nl_expand_alias s = Some v -> wf_cstr v).

(** A cached translation is returned without a look at the files and at most of the environment, *)
Lemma DCIGETTEXT_cached pf' env' mal1 mal2 w domainname msgid1 msgid2 plural n category t m :
  cached env w (default (dom_str (current_domain (w_bind w))) domainname) msgid1 category t ->
  delivered (w_domains w) (w_texts w) plural n t m -> env_thread_locale env' = env_thread_locale env ->
  DCIGETTEXT pf' env' dflt mal1 mal2 w domainname (Some msgid1) msgid2 plural n category = Ret (m, w).
Proof using Type.
  intros (a & k & F1 & F2 & F3 & F4 & F5 & F6) Hm El. unfold DCIGETTEXT. cbv zeta. unfold wanted in F1. rewrite El, F1.
  cbn [mbind load_bind returned option_bind]. rewrite F2, F3, F4, Z.eqb_refl. unfold delivered in Hm.
  rewrite F5, F6 in Hm. cbn [mbind load_bind returned]. by rewrite Hm.
Qed.

(** and a translation that was found is cached. *)
Lemma translate_cached w w' dom msgid1 msgid2 plural n category foundp i p off :
  world_ok pf dflt w -> lookups_defined pf n -> wf_cstr dom -> wf_cstr msgid1 ->
  table_find transcmp (wanted env dom msgid1 category) (w_cache w) = Some foundp ->
  translate pf env dflt true true w dom (default [] (env_thread_locale env)) msgid1 msgid2 plural n category foundp
  = Ret (Translated i p off, w') ->
  exists t, cached env w' dom msgid1 category t /\ delivered (w_domains w') (w_texts w') plural n t (Translated i p off) /\
    w_bind w' = w_bind w /\
    translation_in pf (w_domains w') (w_texts w') t.1 (call_encoding env (w_bind w') dom (w_texts w')) msgid1 t.2.
Proof using All.
  intros Hw Hlk Hdom Hm Eq. destruct (wok_cache _ _ _ Hw) as [it Hc].
  assert (Hback : forall w0, return_untranslated env w0 dom msgid1 msgid2 plural n <> Ret (Translated i p off, w')).
  { intros w0. unfold return_untranslated. destruct (log_untranslated _ _ _ _ _ _); discriminate. }
  unfold translate. destruct (resolve_dirname env dflt (w_bind w) dom) as [dirname|] eqn:Er; [|by intros ?%Hback]. cbv zeta.
  fold (file_of dom category).
  destruct (language_loop_ok pf env (binding_codeset (w_bind w) dom) dirname (file_of dom category) msgid1
    (call_encoding env (w_bind w) dom (w_texts w)) n Hfs Hlk (call_charset env dflt Henv _ _ (wok_bind _ _ _ Hw) Hdom)
    (wf_resolve env dflt Hdef Henv _ _ _ (wok_bind _ _ _ Hw) Hdom Er) (wf_file_of dom category Hdom) Hm Ha
    (S (length (guess_category_value env))) (guess_category_value env) (w_domains w) (w_texts w))
    as (r & st & ts & E & O & L & En & A); [lia|apply Henv|apply Hw|done|].
  rewrite E. cbn [mbind load_bind]. destruct r as [| |[j [x len]]]; [by intros ?%Hback..|].
  pose proof (answer_in _ _ _ _ _ _ _ _ _ _ A) as Ht. set (k := KnownTranslation _ _ _ _ _ _ _ _).
  intros Hret. apply lbind_ret in Hret as (t' & Er' & Hret). apply lbind_ret in Hret as (m & Em & Hret).
  injection Hret as -> <-. destruct (remember true true w foundp k) as [t2|] eqn:Erem; [|done]. injection Er' as ->.
  destruct (remember_found w st ts (wanted env dom msgid1 category) k it foundp t') as (a & k' & F1 & F2 & F3 & F4 & F5 & F6);
    [|split; simpl|done..|].
  - exact (cache_later pf _ _ _ _ _ _ _ _ (proj1 (wok_stores _ _ _ Hw)) L (Z.le_refl _) Hc).
  - split_and!; [done..|apply Henv].
  - lia.
  - eexists _, _. split_and!; [done|exact (wf_encoding pf env dflt Henv w dom Hw Hdom)|done].
  - exists (j, (x, len)). cbn [w_bind w_domains w_texts]. split_and!; [|done|done|unfold call_encoding; by rewrite En].
    exists a, k'. rewrite F3, F4, F5, F6. done.
Qed.

(** If the message was not in the cache, it is afterwards, in the encoding of the call. *)
Lemma repeat_spec w w' domainname msgid1 msgid2 plural n category i p off :
  let dom := default (dom_str (current_domain (w_bind w))) domainname in
  world_ok pf dflt w -> lookups_defined pf n -> wf_cstr (default [] domainname) -> wf_cstr msgid1 ->
  (forall t, ~ cached env w dom msgid1 category t) ->
  DCIGETTEXT pf env dflt true true w domainname (Some msgid1) msgid2 plural n category = Ret (Translated i p off, w') ->
  exists t, w_bind w' = w_bind w /\ cached env w' dom msgid1 category t /\
    delivered (w_domains w') (w_texts w') plural n t (Translated i p off) /\
    translation_in pf (w_domains w') (w_texts w') t.1 (call_encoding env (w_bind w') dom (w_texts w')) msgid1 t.2.
Proof using All.
  intros dom Hw Hlk Hd Hm Hfresh H. unfold DCIGETTEXT in H. fold dom in H.
  cbv zeta in *. fold (wanted env dom msgid1 category) in *.
  assert (Hdom : wf_cstr dom) by (unfold dom; destruct domainname; [done|apply Hw]).
  apply lbind_ret in H as (q & Eq & H). destruct (table_find _ _ _) as [q'|] eqn:Eq'; [|done]. injection Eq as ->.
  assert (Htr : translate pf env dflt true true w dom (default [] (env_thread_locale env)) msgid1 msgid2 plural n category q
      = Ret (Translated i p off, w')).
  { destruct (q ≫= _) as [k|] eqn:Ek; [|done]. destruct (Z.eqb_spec (kt_counter k) (msg_cat_cntr (w_bind w))) as [Ec|Ec]; [|done].
    apply lbind_ret in H as (x & Ex & _). destruct (kt_translation k) as [x'|] eqn:Ext; [|done]. injection Ex as ->.
    destruct q as [a|]; [|done]. simpl in Ek. destruct (Hfresh (kt_domain k, (x, kt_translation_length k))). by exists a, k. }
  destruct (translate_cached w w' dom _ _ _ _ _ _ _ _ _ Hw Hlk Hdom Hm Eq' Htr) as (t & Hc & Hdl & Hb & Ht). by exists t.
Qed.
End Cache.

(** ** Sequences of calls *)

Section Calls.
Context {PM : PriMacros} {AT : AliasTable} {CV : Converter} {CL : ConverterLaws}.
Context `{!SearchTable transcmp} `{!SearchTableLaws transcmp key_wf}.
Context (pf : platform) (dflt : cstr).

(** A call of a program, with the outcome of the allocations and the environment
    of the moment. *)
Inductive call : world -> world -> Prop :=
| CallBind w mal name dir :
    wf_cstr name -> name <> [] -> wf_cstr dir ->
    call w (with_bind (snd (BINDTEXTDOMAIN dflt mal (w_bind w) (Some name) (Some dir))) w)
| CallCodeset w mal name cod :
    wf_cstr name -> name <> [] -> wf_cstr cod ->
    call w (with_bind (snd (BIND_TEXTDOMAIN_CODESET dflt mal (w_bind w) (Some name) (Some cod))) w)
| CallTextdomain w mal name :
    wf_cstr (default [] name) ->
    call w (with_bind (snd (TEXTDOMAIN mal (w_bind w) name)) w)
| CallGettext w w' env mal1 mal2 domainname msgid1 msgid2 plural n category m :
    env_ok env -> lookups_defined pf n -> wf_cstr (default [] domainname) -> wf_cstr (default [] msgid1) ->
    loggable env msgid2 plural ->
    DCIGETTEXT pf env dflt mal1 mal2 w domainname msgid1 msgid2 plural n category = Ret (m, w') -> call w w'.

(** The start, with the files on the disk. *)
Definition initial (disk : gmap cstr (list Z)) : world :=
  World (State [] DefaultDomain 0 0 0) empty_domains cstate_init (table_empty transcmp) (log_start disk).

Inductive reachable : world -> Prop :=
| ReachInitial disk : reachable (initial disk)
| ReachCall w w' : reachable w -> call w w' -> reachable w'.

Context (Hdef : wf_cstr dflt) (Hfs : files_readable pf).
Context (Ha : forall s v, _nl_expand_alias s = Some v -> wf_cstr v).

Lemma initial_ok disk : world_ok pf dflt (initial disk).
Proof using SearchTableLaws0.
  split; simpl.
  - split; [split; [constructor|by apply Forall_nil_2]|by apply Forall_nil_2|done].
  - apply (bool_decide_unpack _). vm_compute. reflexivity.
  - split; [apply empty_domains_ok|apply cstate_init_ok].
  - exists []. split; [apply items_empty|by apply Forall_nil_2].
  - by split.
Qed.

(** The bindings change, and the counter does not go back. *)
Lemma change_bindings w b :
  world_ok pf dflt w -> BindingsSpec.ok dflt b -> wf_cstr (dom_str (current_domain b)) ->
  msg_cat_cntr (w_bind w) <= msg_cat_cntr b -> world_ok pf dflt (with_bind b w).
Proof using Type.
  intros [W1 W2 W3 [it W4] W5] Hb Hc Hle. split; simpl; [done..| |done]. exists it.
  exact (cache_later pf _ _ _ _ _ _ _ _ (proj1 W3) (later_refl _ _) Hle W4).
Qed.

Lemma rebinds_ok w b name v :
  world_ok pf dflt w -> rebinds dflt (w_bind w) b name v -> world_ok pf dflt (with_bind b w).
Proof using Type.
  intros Hw [R1 R2 R3 R4 R5]. apply change_bindings; [done|done|by rewrite R4; apply Hw|]. rewrite R5.
  destruct (decide _); lia.
Qed.

(** A binding that changes makes the whole cache out of date. *)
Lemma rebinds_uncached env w b name v dom msgid1 category t :
  world_ok pf dflt w -> env_ok env -> wf_cstr dom -> wf_cstr msgid1 ->
  rebinds dflt (w_bind w) b name v -> bound dflt (w_bind w) name <> v ->
  ~ cached env (with_bind b w) dom msgid1 category t.
Proof using SearchTableLaws0.
  intros Hw He Hd Hm R Hnew (a & k & F1 & F2 & F3 & _). destruct (wok_cache _ _ _ Hw) as [it [Hit Hall]].
  assert (Hk : key_wf (wanted env dom msgid1 category)) by (split_and!; simpl; [done|done|apply He]).
  destruct (items_find _ _ _ Hit Hk) as (q & Eq & Hq). simpl in F1. rewrite F1 in Eq. injection Eq as <-.
  destruct Hq as (k' & Hin & _). simpl in F2. rewrite (items_get _ _ _ _ Hit Hin) in F2. injection F2 as <-.
  rewrite Forall_forall in Hall. destruct (Hall _ Hin) as [_ Hle _]. simpl in Hle, F3.
  rewrite (reb_cntr _ _ _ _ _ R), decide_False in F3; [lia|done].
Qed.

Lemma call_ok w w' : world_ok pf dflt w -> call w w' -> world_ok pf dflt w'.
Proof using All.
  intros Hw Hc. destruct Hc as [w mal name dir Hn Hne Hd|w mal name cod Hn Hne Hd|w mal name Hn
    |w w' env mal1 mal2 dom id1 id2 plural n category m He Hlk Hd Hid Hlog H].
  - pose proof (bindtextdomain_spec dflt mal Hdef (w_bind w) name dir (wok_bind _ _ _ Hw) Hn Hne Hd) as H.
    destruct (BINDTEXTDOMAIN _ _ _ _ _) as [r b]. destruct H as [[_ H]|(_ & H & _)]; by eapply rebinds_ok.
  - pose proof (bind_codeset_spec dflt mal Hdef (w_bind w) name cod (wok_bind _ _ _ Hw) Hn Hne Hd) as H.
    destruct (BIND_TEXTDOMAIN_CODESET _ _ _ _ _) as [r b]. destruct H as [[_ H]|(_ & H & _)]; by eapply rebinds_ok.
  - pose proof (textdomain_spec dflt mal (w_bind w) name (wok_bind _ _ _ Hw)) as H.
    destruct (TEXTDOMAIN mal (w_bind w) name) as [r b]. destruct H as (Hok & _ & H). pose proof (wok_domain _ _ _ Hw) as Hc.
    apply change_bindings; [done|done|..]; destruct name as [nm|]; [destruct r as [s|]| |destruct r as [s|]|]; simpl.
    + destruct H as (<- & _ & H). rewrite H by done. destruct (decide _); [|done].
      apply (bool_decide_unpack _). vm_compute. reflexivity.
    + by destruct H as (_ & -> & _).
    + by destruct H as [_ ->].
    + destruct H as (_ & -> & _). lia.
    + destruct H as (_ & _ & ->). lia.
    + by destruct H as [_ ->].
  - destruct id1 as [id1|]; [|by injection H as _ <-].
    destruct (DCIGETTEXT_total pf env dflt mal1 mal2 Hdef He Hfs Ha w dom id1 id2 plural n category Hw Hlk Hd Hid Hlog)
      as (m' & w2 & E & Hw2 & _). rewrite H in E. injection E as _ <-. apply Hw2.
Qed.
End Calls.

(** ** Theorems *)

(** C4. [DCIGETTEXT] returns, under four conditions: the loader returns for every catalog file ([files_readable]: none makes it read
    outside of its bytes); in the catalogs that are loaded every lookup and the choice of a plural form return ([lookups_defined], which
    [lookups_of_catalogs] derives from tables that can be searched and a formula that does not divide by zero; the loader checks
    neither); the log file, if there is one, can be opened ([env_ok]; else the next message for it is written to a null stream, log.c:88); and a plural call
    without a second message is not logged ([loggable]).  The message is the one of a current entry of the cache, or it is found by
    searching: in the directory the domain is bound to, through the languages of
    the environment in order, each with the catalogs it inherits from, for the
    first that has a translation that can be converted to the encoding of the call; and it is an argument (by
    the Germanic plural rule), which is logged if the user asks for it, exactly if none has one, there is no
    current directory or no memory for the conversion.  The translation shows the bytes that the
    converter makes of the one in the catalog.  Bindings do not change,
    files that were loaded stay loaded, strings that were converted stay what they are, and the cache stays
    sound: all its entries are translations of their keys in a loaded catalog. *)
Theorem DCIGETTEXT_correct {PM : PriMacros} {AT : AliasTable} {CV : Converter} {CL : ConverterLaws}
    `{!SearchTable transcmp} `{!SearchTableLaws transcmp key_wf}
    (pf : platform) (env : environment) (dflt : cstr) (mal_known mal_node : bool)
    (w : world) (domainname : option cstr) (msgid1 : cstr) (msgid2 : option cstr) (plural : bool) (n category : Z)
    (Hdef : wf_cstr dflt) (Henv : env_ok env) (Hfs : files_readable pf)
    (Ha : forall s v, _nl_expand_alias s = Some v -> wf_cstr v)
    (Hw : world_ok pf dflt w) (Hlk : lookups_defined pf n)
    (Hd : wf_cstr (default [] domainname)) (Hm : wf_cstr msgid1) (Hp : loggable env msgid2 plural) :
  let dom := default (dom_str (current_domain (w_bind w))) domainname in
  exists m w', DCIGETTEXT pf env dflt mal_known mal_node w domainname (Some msgid1) msgid2 plural n category
      = Ret (m, w') /\
    world_ok pf dflt w' /\ w_bind w' = w_bind w /\ later (w_domains w) (w_texts w) (w_domains w') (w_texts w') /\
    ((exists t enc, cached env w dom msgid1 category t /\ translation_in pf (w_domains w) (w_texts w) t.1 enc msgid1 t.2 /\
        delivered (w_domains w) (w_texts w) plural n t m /\ w' = w) \/
     searched pf env dflt w w' dom msgid1 msgid2 plural n category m).
Proof.
  destruct (DCIGETTEXT_total pf env dflt mal_known mal_node Hdef Henv Hfs Ha w domainname msgid1 msgid2 plural n category
    Hw Hlk Hd Hm Hp) as (m & w' & E & [C1 C2 C3] & H). by exists m, w'.
Qed.

(** C22. A translation that was found is found again: the same call on the new
    state returns the same message and changes nothing, even if the catalog
    files are gone, there is no memory left, and LANGUAGE, the log or the directory has changed.  As long as OUTPUT_CHARSET and the
    character set of the locale are the same, it is in the encoding that the second call asks for.  (When they change, the
    translation is returned in the old encoding: [DCIGETTEXT_cached].) *)
Theorem DCIGETTEXT_repeats {PM : PriMacros} {AT : AliasTable} {CV : Converter} {CL : ConverterLaws}
    `{!SearchTable transcmp} `{!SearchTableLaws transcmp key_wf}
    (pf pf' : platform) (env env' : environment) (dflt : cstr) (mal_known mal_node : bool)
    (w w' : world) (domainname : option cstr) (msgid1 : cstr) (msgid2 msgid2' : option cstr) (plural : bool)
    (n category : Z) (i : nat) (p : text) (off : nat)
    (Hdef : wf_cstr dflt) (Henv : env_ok env) (Hfs : files_readable pf)
    (Ha : forall s v, _nl_expand_alias s = Some v -> wf_cstr v)
    (Hw : world_ok pf dflt w) (Hlk : lookups_defined pf n)
    (Hd : wf_cstr (default [] domainname)) (Hm : wf_cstr msgid1)
    (Hfresh : forall t, ~ cached env w (default (dom_str (current_domain (w_bind w))) domainname) msgid1 category t)
    (H : DCIGETTEXT pf env dflt true true w domainname (Some msgid1) msgid2 plural n category
         = Ret (Translated i p off, w'))
    (Hl : env_thread_locale env' = env_thread_locale env) (Hc : env_charset env' = env_charset env) :
  DCIGETTEXT pf' env' dflt mal_known mal_node w' domainname (Some msgid1) msgid2' plural n category
    = Ret (Translated i p off, w') /\
  exists len, translation_in pf (w_domains w') (w_texts w') i
    (call_encoding env' (w_bind w') (default (dom_str (current_domain (w_bind w'))) domainname) (w_texts w')) msgid1 (p, len).
Proof.
  destruct (repeat_spec pf dflt env Hdef Henv Hfs Ha w w' domainname msgid1 msgid2 plural n category i p off Hw Hlk Hd Hm Hfresh H)
    as (t & Hb & Hcached & Hdel & Ht).
  split; [apply (DCIGETTEXT_cached dflt env) with (t := t); [by rewrite Hb|done|done]|].
  destruct t as [j [q len]]. destruct (choose_pointer _ _ _ _ _ _ _ _ _ _ Hdel) as [-> ->]. exists len. unfold call_encoding in *.
  rewrite Hb in *. by rewrite Hc.
Qed.

(** Whatever sequence of [bindtextdomain], [bind_textdomain_codeset], [textdomain] and
    gettext calls a program makes, with whatever allocation failures and changes of
    the environment, all invariants hold, so that a further gettext call returns. *)
Theorem reachable_ok {PM : PriMacros} {AT : AliasTable} {CV : Converter} {CL : ConverterLaws} `{!SearchTable transcmp}
    `{!SearchTableLaws transcmp key_wf} (pf : platform) (dflt : cstr) (w : world)
    (Hdef : wf_cstr dflt) (Hfs : files_readable pf)
    (Ha : forall s v, _nl_expand_alias s = Some v -> wf_cstr v) (Hr : reachable pf dflt w) :
  world_ok pf dflt w /\
  forall env mal1 mal2 domainname msgid1 msgid2 plural n category,
    env_ok env -> lookups_defined pf n -> wf_cstr (default [] domainname) -> wf_cstr msgid1 -> loggable env msgid2 plural ->
    exists m w', DCIGETTEXT pf env dflt mal1 mal2 w domainname (Some msgid1) msgid2 plural n category = Ret (m, w') /\
      reachable pf dflt w'.
Proof.
  assert (Hw : world_ok pf dflt w).
  { induction Hr as [disk|w w' _ IH Hc]; [by apply initial_ok|by eapply call_ok]. }
  split; [done|]. intros env mal1 mal2 domainname msgid1 msgid2 plural n category Henv Hlk Hd Hm Hp.
  destruct (DCIGETTEXT_total pf env dflt mal1 mal2 Hdef Henv Hfs Ha w domainname msgid1 msgid2 plural n category
    Hw Hlk Hd Hm Hp) as (m & w' & E & _).
  exists m, w'. split; [exact E|]. eapply ReachCall; [exact Hr|].
  by apply (CallGettext pf dflt w w' env mal1 mal2 domainname (Some msgid1) msgid2 plural n category m).
Qed.

(** A new binding takes effect at once: after a [bindtextdomain] that changes the
    directory of some domain no cached translation is used, for any domain; the
    message is searched in the new directory. *)
Theorem rebind_takes_effect {PM : PriMacros} {AT : AliasTable} {CV : Converter} {CL : ConverterLaws} `{!SearchTable transcmp}
    `{!SearchTableLaws transcmp key_wf} (pf : platform) (env : environment) (dflt : cstr) (mal_known mal_node : bool)
    (mal : nat -> bool) (w : world) (b : state) (name dir : cstr)
    (domainname : option cstr) (msgid1 : cstr) (msgid2 : option cstr) (plural : bool) (n category : Z)
    (Hdef : wf_cstr dflt) (Henv : env_ok env) (Hfs : files_readable pf)
    (Ha : forall s v, _nl_expand_alias s = Some v -> wf_cstr v)
    (Hw : world_ok pf dflt w) (Hlk : lookups_defined pf n)
    (Hd : wf_cstr (default [] domainname)) (Hm : wf_cstr msgid1) (Hp : loggable env msgid2 plural)
    (Hn : wf_cstr name) (Hne : name <> []) (Hwd : wf_cstr dir)
    (Hb : BINDTEXTDOMAIN dflt mal (w_bind w) (Some name) (Some dir) = (Some dir, b))
    (Hnew : option_map fst (bound dflt (w_bind w) name) <> Some dir) :
  exists m w', DCIGETTEXT pf env dflt mal_known mal_node (with_bind b w) domainname (Some msgid1)
      msgid2 plural n category = Ret (m, w') /\
    bound_dir dflt b name = dir /\
    searched pf env dflt (with_bind b w) w' (default (dom_str (current_domain b)) domainname) msgid1 msgid2 plural n category m.
Proof.
  pose proof (bindtextdomain_spec dflt mal Hdef (w_bind w) name dir (wok_bind _ _ _ Hw) Hn Hne Hwd) as H.
  rewrite Hb in H. destruct H as [[_ R]|[? _]]; [|done].
  assert (Hw' : world_ok pf dflt (with_bind b w)) by (by eapply rebinds_ok).
  assert (Hdom : wf_cstr (default (dom_str (current_domain b)) domainname)).
  { destruct domainname; [done|]. simpl. rewrite (reb_domain _ _ _ _ _ R). apply Hw. }
  destruct (DCIGETTEXT_total pf env dflt mal_known mal_node Hdef Henv Hfs Ha _ domainname msgid1 msgid2 plural n category
    Hw' Hlk Hd Hm Hp) as (m & w' & E & _ & [(t & enc & Hcached & _)|Hs]).
  - exfalso. revert Hcached. apply (rebinds_uncached pf dflt env w b name _ _ _ _ _ Hw Henv Hdom Hm R).
    intros E'. apply Hnew. by rewrite E'.
  - exists m, w'. split; [done|]. split; [|done]. unfold bound_dir. by rewrite (reb_bound _ _ _ _ _ R).
Qed.

(** After a change of the codeset of a domain the cache is not used for it, and the catalogs are searched for
    the new codeset. *)
Lemma codeset_searched {PM : PriMacros} {AT : AliasTable} {CV : Converter} {CL : ConverterLaws} `{!SearchTable transcmp}
    `{!SearchTableLaws transcmp key_wf} (pf : platform) (env : environment) (dflt : cstr) (mal_known mal_node : bool)
    (mal : nat -> bool) (w : world) (b : state) (name cod msgid1 : cstr)
    (msgid2 : option cstr) (plural : bool) (n category : Z)
    (Hdef : wf_cstr dflt) (Henv : env_ok env) (Hfs : files_readable pf)
    (Ha : forall s v, _nl_expand_alias s = Some v -> wf_cstr v)
    (Hw : world_ok pf dflt w) (Hlk : lookups_defined pf n) (Hm : wf_cstr msgid1) (Hp : loggable env msgid2 plural)
    (Hn : wf_cstr name) (Hne : name <> []) (Hwc : wf_cstr cod)
    (Hb : BIND_TEXTDOMAIN_CODESET dflt mal (w_bind w) (Some name) (Some cod) = (Some cod, b))
    (Hnew : binding_codeset (w_bind w) name <> Some cod) :
  (forall t, ~ cached env (with_bind b w) name msgid1 category t) /\ binding_codeset b name = Some cod /\
  exists m w', DCIGETTEXT pf env dflt mal_known mal_node (with_bind b w) (Some name) (Some msgid1)
      msgid2 plural n category = Ret (m, w') /\ world_ok pf dflt w' /\
    searched pf env dflt (with_bind b w) w' name msgid1 msgid2 plural n category m.
Proof.
  pose proof (bind_codeset_spec dflt mal Hdef (w_bind w) name cod (wok_bind _ _ _ Hw) Hn Hne Hwc) as H.
  rewrite Hb in H. destruct H as [[_ R]|[? _]]; [|done].
  assert (Hw' : world_ok pf dflt (with_bind b w)) by (by eapply rebinds_ok).
  assert (Hfresh : forall t, ~ cached env (with_bind b w) name msgid1 category t).
  { intros t. apply (rebinds_uncached pf dflt env w b name _ _ _ _ _ Hw Henv Hn Hm R).
    intros E'. apply Hnew. unfold bound in E'. unfold binding_codeset. destruct (find_binding _ _) as [bd|]; [by injection E' as _ E2|done]. }
  split; [done|]. split.
  { pose proof (reb_bound _ _ _ _ _ R) as E. unfold bound in E. unfold binding_codeset. destruct (find_binding _ _) as [bd|]; [by injection E as _ E2|done]. }
  destruct (DCIGETTEXT_total pf env dflt mal_known mal_node Hdef Henv Hfs Ha _ (Some name) msgid1 msgid2 plural n category
    Hw' Hlk Hn Hm Hp) as (m & w' & E & [Hok _ _] & [(t & enc & Hcached & _)|Hs]); [by destruct (Hfresh t)|]. by exists m, w'.
Qed.

(** ** An example: a French catalog, LANGUAGE = "de:french" *)

Definition sample_env : environment :=
  Environment (Some (cs "de_DE")) None (cs "C") (Some (cs "de:french")) None (Some (cs "/home")) false
    (CharsetEnv None (cs "UTF-8")) (Some (cs "log")) true (fun _ => true).

Lemma sample_env_ok : env_ok sample_env.
Proof.
  split; [apply (bool_decide_unpack _); vm_compute; reflexivity..|]. intros f [= <-]. split; [|done].
  apply (bool_decide_unpack _). vm_compute. reflexivity.
Qed.

#[local] Instance sample_macros : PriMacros := pri_fallback 8 8 8.
#[local] Existing Instance sample_alias.

Lemma sample_plural n :
  plural_eval 64 (Expression greater_than 0 [Expression op_var 0 []; Expression op_num 1 []]) n =
  Some (if 1 <? n then 1 else 0).
Proof. done. Qed.

Lemma sample_find msgid r : find_msg (sample_domain 5) msgid = r -> wf_cstr msgid ->
  (msgid = [] /\ r = Ret (Some (InData 107, 24))) \/ (msgid = cs "hello" /\ r = Ret (Some (InData 131, 8))) \/ r = Ret None.
Proof.
  intros <- Hw. destruct (decide (msgid ∈ sample_ids)) as [Hin|Hni].
  - apply elem_of_cons in Hin as [->|Hin]; [left; split; [done|vm_compute; reflexivity]|].
    apply list_elem_of_singleton in Hin as ->. right; left. split; [done|vm_compute; reflexivity].
  - right; right. unfold find_msg.
    rewrite (find_act_spec (sample_domain 5) sample_ids msgid (sample_represents 5 (or_introl eq_refl))
      (sample_searchable 5 (or_introl eq_refl)) Hw).
    by rewrite index_of_None.
Qed.

Lemma sample_catalog f d pl : catalog_of sample_platform f d pl ->
  d = sample_domain 5 /\ pl = (Some (Expression greater_than 0 [Expression op_var 0 []; Expression op_num 1 []]), 2).
Proof.
  intros (dat & H1 & H2 & H3). simpl in H1. destruct (decide (filename f = sample_path)); [|discriminate H1].
  revert H1. vm_compute fetch_file. intros [= <-]. revert H2. vm_compute load_catalog. intros [= <-].
  split; [reflexivity|]. revert H3. vm_compute load_plural. by intros [= <-].
Qed.

Lemma sample_lookups n : lookups_defined sample_platform n.
Proof.
  apply lookups_of_catalogs. intros f d pl Hc. apply sample_catalog in Hc as [-> ->]. split.
  - exists sample_ids. split_and!; [by apply sample_represents; left|by apply sample_searchable; left|].
    intros [|[|i]] s Hi; [..|done].
    + exists (InData 107), 24, [cs "nplurals=2; plural=n>1;"]. split_and!; [vm_compute; reflexivity|done|vm_compute; reflexivity| |done].
      apply (bool_decide_unpack _). vm_compute. reflexivity.
    + exists (InData 131), 8, [cs "bonjour"]. split_and!; [vm_compute; reflexivity|done|vm_compute; reflexivity| |done].
      apply (bool_decide_unpack _). vm_compute. reflexivity.
  - eexists _, _. split; [done|]. split; [apply sample_plural|]. by destruct (1 <? n).
Qed.

Definition sample_world : world := initial ∅.

Lemma sample_world_ok : world_ok sample_platform (cs "/l") sample_world.
Proof. apply initial_ok. Qed.

Definition sample_call (w : world) : load (message * world) :=
  DCIGETTEXT sample_platform sample_env (cs "/l") true true w (Some (cs "a")) (Some (cs "hello")) None false 0 LC_MESSAGES.

(** The translation of "hello" in the catalog. *)
Definition sample_text : @text no_conversion := InData 131.
Definition sample_message : message := Translated 2 sample_text 0.

Lemma ret_pair {A B} (a c : A) (b d : B) : Ret (a, b) = Ret (c, d) -> a = c /\ b = d.
Proof. by intros [= -> ->]. Qed.

Definition sample_world' : world := match sample_call sample_world with Ret (_, w) => w | _ => sample_world end.

Definition is_sample_message (m : message) : bool :=
  match m with
  | Original _ => false
  | Translated i p off => bool_decide ((i, (p : sptr), off) = (2%nat, InData 131, O))
  end.

Lemma is_sample_message_spec m : is_sample_message m = true -> m = sample_message.
Proof. destruct m as [|i p off]; [done|]. by intros [= -> -> ->]%bool_decide_eq_true. Qed.

Lemma sample_call_result : sample_call sample_world = Ret (sample_message, sample_world').
Proof.
  assert (H : match sample_call sample_world with Ret (m, _) => is_sample_message m | _ => false end = true)
    by (vm_compute; reflexivity).
  unfold sample_world'. destruct (sample_call sample_world) as [[m w]| | |]; [|discriminate H..].
  by apply is_sample_message_spec in H as ->.
Qed.

Lemma sample_loggable : loggable sample_env None false.
Proof. discriminate. Qed.

Lemma DCIGETTEXT_correct_witness :
  exists w', sample_call sample_world = Ret (sample_message, w') /\
    world_ok sample_platform (cs "/l") w'.
Proof.
  destruct (DCIGETTEXT_correct sample_platform sample_env (cs "/l") true true sample_world (Some (cs "a")) (cs "hello")
    None false 0 LC_MESSAGES) as (m & w' & E & Hw & _).
  - apply (bool_decide_unpack _). vm_compute. reflexivity.
  - exact sample_env_ok.
  - exact sample_readable.
  - exact sample_alias_wf.
  - exact sample_world_ok.
  - exact (sample_lookups 0).
  - apply (bool_decide_unpack _). vm_compute. reflexivity.
  - apply (bool_decide_unpack _). vm_compute. reflexivity.
  - exact sample_loggable.
  - exists w'. split; [|exact Hw]. pose proof sample_call_result as H.
    exact (eq_trans E (f_equal (fun m0 => Ret (m0, w')) (proj1 (ret_pair _ _ _ _ (eq_trans (eq_sym E) H))))).
Defined.

(** The file is gone. *)
Definition no_platform : platform :=
  Platform (fun _ => no_io) (fun _ _ => false) (fun _ => false) false false (fun _ => false) (fun _ => false) (fun _ => false).

(** No LANGUAGE, no log. *)
Definition other_env : environment :=
  Environment (Some (cs "de_DE")) None (cs "C") None None None false (CharsetEnv None (cs "UTF-8")) None true (fun _ => true).

Lemma DCIGETTEXT_repeats_witness :
  DCIGETTEXT no_platform other_env (cs "/l") false false sample_world' (Some (cs "a")) (Some (cs "hello")) None false 0
    LC_MESSAGES = Ret (sample_message, sample_world').
Proof.
  refine (proj1 (DCIGETTEXT_repeats sample_platform no_platform sample_env other_env (cs "/l") false false sample_world sample_world'
    (Some (cs "a")) (cs "hello") None None false 0 LC_MESSAGES 2 sample_text 0 _ _ _ _ _ _ _ _ _ _ _ _)).
  - apply (bool_decide_unpack _). vm_compute. reflexivity.
  - exact sample_env_ok.
  - exact sample_readable.
  - exact sample_alias_wf.
  - exact sample_world_ok.
  - exact (sample_lookups 0).
  - apply (bool_decide_unpack _). vm_compute. reflexivity.
  - apply (bool_decide_unpack _). vm_compute. reflexivity.
  - intros t (a & k & F & _). vm_compute in F. discriminate F.
  - exact sample_call_result.
  - reflexivity.
  - reflexivity.
Defined.

Lemma sample_is_call : call sample_platform (cs "/l") sample_world sample_world'.
Proof.
  apply (CallGettext _ _ _ _ sample_env true true (Some (cs "a")) (Some (cs "hello")) None false 0 LC_MESSAGES sample_message).
  - exact sample_env_ok.
  - exact (sample_lookups 0).
  - apply (bool_decide_unpack _). vm_compute. reflexivity.
  - apply (bool_decide_unpack _). vm_compute. reflexivity.
  - exact sample_loggable.
  - exact sample_call_result.
Qed.

Lemma sample_reachable : reachable sample_platform (cs "/l") sample_world'.
Proof. apply (ReachCall _ _ sample_world); [apply ReachInitial|exact sample_is_call]. Qed.

Lemma sample_world_ok' : world_ok sample_platform (cs "/l") sample_world'.
Proof.
  apply (call_ok sample_platform (cs "/l")) with (w := sample_world).
  - apply (bool_decide_unpack _). vm_compute. reflexivity.
  - exact sample_readable.
  - exact sample_alias_wf.
  - exact sample_world_ok.
  - exact sample_is_call.
Qed.

Lemma reachable_ok_witness : world_ok sample_platform (cs "/l") sample_world'.
Proof.
  refine (proj1 (reachable_ok sample_platform (cs "/l") sample_world' _ sample_readable sample_alias_wf sample_reachable)).
  apply (bool_decide_unpack _). vm_compute. reflexivity.
Defined.

Lemma sample_bind : w_bind sample_world' = State [] DefaultDomain 0 0 0.
Proof. vm_compute. reflexivity. Qed.

Lemma rebind_takes_effect_witness :
  exists m w', DCIGETTEXT sample_platform sample_env (cs "/l") true true
    (with_bind (snd (BINDTEXTDOMAIN (cs "/l") (fun _ => true) (w_bind sample_world') (Some (cs "a")) (Some (cs "/x"))))
       sample_world')
    (Some (cs "a")) (Some (cs "hello")) None false 0 LC_MESSAGES = Ret (m, w').
Proof.
  destruct (rebind_takes_effect sample_platform sample_env (cs "/l") true true (fun _ => true) sample_world'
    (snd (BINDTEXTDOMAIN (cs "/l") (fun _ => true) (w_bind sample_world') (Some (cs "a")) (Some (cs "/x"))))
    (cs "a") (cs "/x") (Some (cs "a")) (cs "hello") None false 0 LC_MESSAGES) as (m & w' & E & _).
  - apply (bool_decide_unpack _). vm_compute. reflexivity.
  - exact sample_env_ok.
  - exact sample_readable.
  - exact sample_alias_wf.
  - exact sample_world_ok'.
  - exact (sample_lookups 0).
  - apply (bool_decide_unpack _). vm_compute. reflexivity.
  - apply (bool_decide_unpack _). vm_compute. reflexivity.
  - exact sample_loggable.
  - apply (bool_decide_unpack _). vm_compute. reflexivity.
  - discriminate.
  - apply (bool_decide_unpack _). vm_compute. reflexivity.
  - rewrite sample_bind. reflexivity.
  - rewrite sample_bind. discriminate.
  - exists m, w'. exact E.
Defined.
