(* ===== verification/GettextThreads.v ===== *)
(** * Threads that look up the same message

    DCIGETTEXT holds the state lock for reading, so that several threads run in it at once; the
    tree of known translations has a lock of its own, but the fields of an entry that is in the tree
    are read and updated without it.  The model is the entry, with the threads that found it, one access to a field at a
    time, after a change of the bindings. *)

From S2P Require Import Prelude SearchTable HashString PluralExp PluralParse PluralExtract Catalog Convert Converter Gettext.

Open Scope Z_scope.

(** ** The threads *)

Section Threads.
Context `{!Converter}.

(** The arguments of [plural_lookup]: the domain, the translation and its length. *)
Definition arguments : Type := (nat * option text * Z)%type.

(** Where a thread is that has found the entry: before the test of the counter; reading the arguments of
    [plural_lookup]; searching the catalogs; before the assignments to the fields; at the end, with the
    arguments of [plural_lookup]. *)
Inductive cache_pc :=
  | CTest
  | CDomain | CTranslation (i : nat) | CLength (i : nat) (p : option text)
  | CSearch
  | CSetCounter | CSetDomain | CSetTranslation | CSetLength
  | CEnd (a : arguments).

Record cache_system := CacheSystem { centry : known_translation; cpcs : list cache_pc }.

(** The counter of the bindings, and what the search with them finds. *)
Context (cntr : Z) (found : nat * (text * Z)).

Definition found_arguments : arguments := (found.1, Some found.2.1, found.2.2).

Definition entry_arguments (k : known_translation) : arguments := (kt_domain k, kt_translation k, kt_translation_length k).

(** The entry with other values of the fields that are updated. *)
Definition with_fields (k : known_translation) (counter : Z) (a : arguments) : known_translation :=
  KnownTranslation (kt_msgid k) (kt_domainname k) (kt_localename k) (kt_category k) counter a.1.1 a.1.2 a.2.

Definition cgoto (s : cache_system) (i : nat) (pc : cache_pc) (k : known_translation) : cache_system :=
  CacheSystem k (<[i := pc]> (cpcs s)).

(** The next access of thread [i]. *)
Definition cache_exec (s : cache_system) (i : nat) : option cache_system :=
  let k := centry s in
  match cpcs s !! i with
  | None | Some (CEnd _) => None
  | Some CTest => Some (cgoto s i (if kt_counter k =? cntr then CDomain else CSearch) k)
  | Some CDomain => Some (cgoto s i (CTranslation (kt_domain k)) k)
  | Some (CTranslation d) => Some (cgoto s i (CLength d (kt_translation k)) k)
  | Some (CLength d p) => Some (cgoto s i (CEnd (d, p, kt_translation_length k)) k)
  | Some CSearch => Some (cgoto s i CSetCounter k)
  | Some CSetCounter => Some (cgoto s i CSetDomain (with_fields k cntr (entry_arguments k)))
  | Some CSetDomain =>
      Some (cgoto s i CSetTranslation (with_fields k (kt_counter k) (found.1, kt_translation k, kt_translation_length k)))
  | Some CSetTranslation =>
      Some (cgoto s i CSetLength (with_fields k (kt_counter k) (kt_domain k, Some found.2.1, kt_translation_length k)))
  | Some CSetLength =>
      Some (cgoto s i (CEnd found_arguments) (with_fields k (kt_counter k) (kt_domain k, kt_translation k, found.2.2)))
  end.

(** The states of [n] threads that find the entry [k]. *)
Inductive cache_reachable (k : known_translation) (n : nat) : cache_system -> Prop :=
  | cache_reachable_start : cache_reachable k n (CacheSystem k (replicate n CTest))
  | cache_reachable_step s i s' : cache_reachable k n s -> cache_exec s i = Some s' -> cache_reachable k n s'.

(** ** The invariant *)

(** The thread knows that the counter is current. *)
Definition current (pc : cache_pc) : bool :=
  match pc with CTest | CSearch | CSetCounter => false | _ => true end.

Definition is_set_domain (pc : cache_pc) : bool := match pc with CSetDomain => true | _ => false end.
Definition is_set_translation (pc : cache_pc) : bool := match pc with CSetDomain | CSetTranslation => true | _ => false end.
Definition is_set_length (pc : cache_pc) : bool := match pc with CSetDomain | CSetTranslation | CSetLength => true | _ => false end.

(** A thread is there that will assign the field. *)
Definition pending (f : cache_pc -> bool) (s : cache_system) : Prop := exists i pc, cpcs s !! i = Some pc /\ f pc = true.

Record cache_inv (s : cache_system) : Prop := CacheInv {
  ci_current i pc : cpcs s !! i = Some pc -> current pc = true -> kt_counter (centry s) = cntr;
  ci_domain : kt_counter (centry s) = cntr -> kt_domain (centry s) = found.1 \/ pending is_set_domain s;
  ci_translation : kt_counter (centry s) = cntr -> kt_translation (centry s) = Some found.2.1 \/ pending is_set_translation s;
  ci_length : kt_counter (centry s) = cntr -> kt_translation_length (centry s) = found.2.2 \/ pending is_set_length s
}.

Lemma pending_goto f s i pc pc' k : cpcs s !! i = Some pc -> (f pc = true -> f pc' = true) -> pending f s -> pending f (cgoto s i pc' k).
Proof using Type.
  intros Hi Hf (j & q & Hj & Hq). destruct (decide (j = i)) as [->|Hne].
  - exists i, pc'. cbn. rewrite list_lookup_insert_eq by (by eapply lookup_lt_Some). split; [done|]. apply Hf. congruence.
  - exists j, q. cbn. by rewrite list_lookup_insert_ne.
Qed.

Lemma pending_here f s i pc pc' k : cpcs s !! i = Some pc -> f pc' = true -> pending f (cgoto s i pc' k).
Proof using Type. intros Hi Hf. exists i, pc'. cbn. by rewrite list_lookup_insert_eq by (by eapply lookup_lt_Some). Qed.

(** A step of thread [i] from [pc] to [pc'], with the entry [k] after it. *)
Lemma cache_goto_inv s i pc pc' k : cache_inv s -> cpcs s !! i = Some pc ->
  (kt_counter (centry s) = cntr -> kt_counter k = cntr) -> (current pc' = true -> kt_counter k = cntr) ->
  (kt_counter k = cntr -> kt_domain k = found.1 \/ is_set_domain pc' = true \/
     kt_counter (centry s) = cntr /\ kt_domain k = kt_domain (centry s) /\ is_set_domain pc = false) ->
  (kt_counter k = cntr -> kt_translation k = Some found.2.1 \/ is_set_translation pc' = true \/
     kt_counter (centry s) = cntr /\ kt_translation k = kt_translation (centry s) /\ is_set_translation pc = false) ->
  (kt_counter k = cntr -> kt_translation_length k = found.2.2 \/ is_set_length pc' = true \/
     kt_counter (centry s) = cntr /\ kt_translation_length k = kt_translation_length (centry s) /\ is_set_length pc = false) ->
  cache_inv (cgoto s i pc' k).
Proof using Type.
  intros [C D T L] Hi Hc Hcur Hd Ht Hl.
  assert (Hpend : forall f, f pc = false -> pending f s -> pending f (cgoto s i pc' k)).
  { intros f Hf. apply (pending_goto f s i pc); [done|congruence]. }
  split; cbn [cgoto centry].
  - intros j q. cbn [cgoto cpcs]. destruct (decide (j = i)) as [->|Hne].
    + rewrite list_lookup_insert_eq by (by eapply lookup_lt_Some). intros [= <-]. done.
    + rewrite list_lookup_insert_ne by done. intros Hj Hq. apply Hc. by apply (C j q).
  - intros E. destruct (Hd E) as [|[|(E0 & -> & Hf)]]; [by left|right; by apply (pending_here _ s i pc)|]. destruct (D E0); auto.
  - intros E. destruct (Ht E) as [|[|(E0 & -> & Hf)]]; [by left|right; by apply (pending_here _ s i pc)|]. destruct (T E0); auto.
  - intros E. destruct (Hl E) as [|[|(E0 & -> & Hf)]]; [by left|right; by apply (pending_here _ s i pc)|]. destruct (L E0); auto.
Qed.

Lemma cache_exec_inv s i s' : cache_inv s -> cache_exec s i = Some s' -> cache_inv s'.
Proof using Type.
  intros Hs E. unfold cache_exec in E. destruct (cpcs s !! i) as [pc|] eqn:Hi; [|done]. pose proof (ci_current _ Hs i pc Hi) as Hcur.
  destruct pc; try done; cbn [current] in Hcur; injection E as <-; try (specialize (Hcur eq_refl));
    apply (cache_goto_inv s i _ _ _ Hs Hi);
    cbn [with_fields entry_arguments kt_counter kt_domain kt_translation kt_translation_length fst snd current is_set_domain is_set_translation is_set_length];
    auto; try (intros E0; right; right; by rewrite E0).
  by destruct (Z.eqb_spec (kt_counter (centry s)) cntr).
Qed.

Lemma cache_reachable_inv k n s : (kt_counter k = cntr -> entry_arguments k = found_arguments) -> cache_reachable k n s -> cache_inv s.
Proof using Type.
  intros Hk. induction 1 as [|s i s' Hr IH E]; [|by eapply cache_exec_inv].
  split; cbn [centry cpcs]; [|by intros E; injection (Hk E) as H1 H2 H3; left..].
  intros i pc Hi. by apply lookup_replicate_1 in Hi as [-> _].
Qed.
End Threads.

(** ** Theorems *)

(** C24. The entry settles: if all threads that look up a message at the same time have come to the end, in whatever order their
    accesses were, the entry of the cache has the current counter and the translation that the search finds with
    the new bindings, all of its fields belong together, and its key is unchanged. *)
Theorem cache_settles {CV : Converter} (cntr : Z) (found : nat * (text * Z)) (k : known_translation) (n : nat) (s : cache_system)
    (Hk : kt_counter k = cntr -> entry_arguments k = found_arguments found) (Hr : cache_reachable cntr found k n s) (Hn : (0 < n)%nat)
    (Hend : forall i pc, cpcs s !! i = Some pc -> exists a, pc = CEnd a) :
  centry s = with_fields k cntr (found_arguments found).
Proof.
  pose proof (cache_reachable_inv cntr found k n s Hk Hr) as Hs.
  assert (Hkey : length (cpcs s) = n /\ centry s = with_fields k (kt_counter (centry s)) (entry_arguments (centry s))).
  { clear - Hr. induction Hr as [|s i s' Hr [IH1 IH2] E]; [split; [apply length_replicate|by destruct k]|].
    unfold cache_exec in E. destruct (cpcs s !! i) as [pc|]; [|done]. destruct pc; try done; injection E as <-; cbn [cgoto centry cpcs];
      rewrite length_insert; (split; [done|]); [exact IH2..| | | |]; by rewrite IH2. }
  destruct Hkey as [Hlen Hkey]. destruct (lookup_lt_is_Some_2 (cpcs s) 0 ltac:(lia)) as [pc Hpc].
  assert (Hc : kt_counter (centry s) = cntr) by (apply (ci_current _ _ _ Hs 0%nat pc Hpc); by destruct (Hend 0%nat pc Hpc) as [a ->]).
  assert (Hnone : forall f, (forall a, f (CEnd a) = false) -> ~ pending f s).
  { intros f Hf (i & q & Hi & Hq). destruct (Hend i q Hi) as [a ->]. by rewrite Hf in Hq. }
  rewrite Hkey, Hc. f_equal. unfold entry_arguments, found_arguments.
  destruct (ci_domain _ _ _ Hs Hc) as [->|H]; [|by apply Hnone in H]. destruct (ci_translation _ _ _ Hs Hc) as [->|H]; [|by apply Hnone in H].
  by destruct (ci_length _ _ _ Hs Hc) as [->|H]; [|by apply Hnone in H].
Qed.

(** A sequence of turns. *)
Fixpoint cache_turns `{!Converter} (cntr : Z) (found : nat * (text * Z)) (l : list nat) (s : cache_system) : option cache_system :=
  match l with
  | [] => Some s
  | i :: l => s ← cache_exec cntr found s i; cache_turns cntr found l s
  end.

Lemma cache_turns_reachable `{!Converter} cntr found k n l s s' :
  cache_reachable cntr found k n s -> cache_turns cntr found l s = Some s' -> cache_reachable cntr found k n s'.
Proof.
  revert s. induction l as [|i l IH]; intros s Hr; cbn [cache_turns]; [by intros [= <-]|].
  destruct (cache_exec cntr found s i) as [s1|] eqn:E; [|done]. apply IH. by eapply cache_reachable_step.
Qed.

(** But a thread can see the entry half updated: the counter is assigned first, so that another thread takes the entry for
    current, and calls [plural_lookup] with the domain of the new translation and the text and the length of the
    old one, or with the new text and the length of the old one. *)
Theorem half_updated_entry {CV : Converter} (cntr : Z) (found : nat * (text * Z)) (k : known_translation) :
  kt_counter k <> cntr ->
  (exists s, cache_reachable cntr found k 2 s /\
    cpcs s !! 1%nat = Some (CEnd (found.1, kt_translation k, kt_translation_length k))) /\
  (exists s, cache_reachable cntr found k 2 s /\
    cpcs s !! 1%nat = Some (CEnd (found.1, Some found.2.1, kt_translation_length k))).
Proof.
  intros Hk. pose proof (cache_reachable_start cntr found k 2) as H0. cbn [replicate] in H0. split; eexists; split.
  - apply (cache_turns_reachable cntr found k 2 [0; 0; 0; 0; 1; 1; 1; 1]%nat _ _ H0).
    cbn. rewrite (proj2 (Z.eqb_neq _ _) Hk). cbn. rewrite Z.eqb_refl. reflexivity.
  - reflexivity.
  - apply (cache_turns_reachable cntr found k 2 [0; 0; 0; 0; 0; 1; 1; 1; 1]%nat _ _ H0).
    cbn. rewrite (proj2 (Z.eqb_neq _ _) Hk). cbn. rewrite Z.eqb_refl. reflexivity.
  - reflexivity.
Qed.

(** ** An example: the entry of one thread that is alone, and of two *)

Definition old_entry : @known_translation no_conversion := KnownTranslation (cs "hello") (cs "a") [] 5 0 2 (Some (InData 131 : @text no_conversion)) 8.
Definition new_found : nat * (@text no_conversion * Z) := (4%nat, (InData 200, 6)).
Definition settled_turns : list nat := [0; 1; 0; 1; 0; 0; 1; 0; 1; 1; 0; 1]%nat.

Lemma cache_settles_witness :
  exists s, @cache_reachable no_conversion 1 new_found old_entry 2 s /\ centry s = with_fields old_entry 1 (found_arguments new_found).
Proof.
  assert (Hr : @cache_reachable no_conversion 1 new_found old_entry 2
    (CacheSystem (with_fields old_entry 1 (found_arguments new_found)) [CEnd (found_arguments new_found); CEnd (found_arguments new_found)])).
  { apply (cache_turns_reachable 1 new_found old_entry 2 settled_turns (CacheSystem old_entry [CTest; CTest])); [exact (cache_reachable_start 1 new_found old_entry 2)|reflexivity]. }
  eexists. split; [exact Hr|]. apply (cache_settles 1 new_found old_entry 2); [discriminate|exact Hr|lia|].
  intros [|[|i]] pc Hi; [by injection Hi as <-; eexists..|done].
Defined.
