(* ===== verification/Entry.v ===== *)
(** * The functions of the library: gettext.c, dgettext.c, dcgettext.c, ngettext.c, dngettext.c, dcngettext.c, intl-compat.c

    The functions that programs call, and programs as sequences of calls.  Every
    program that starts without translations gets its messages without a crash, and every pointer into a
    catalog that it is given stays valid. *)

From S2P Require Import Prelude SearchTable HashString PluralExp PluralParse PluralExtract Catalog CatalogSpec CatalogFind CatalogLoad.
From S2P Require Import LocaleName L10nFlist L10nFlistSpec FindDomain FindDomainSpec Bindings BindingsSpec Converter Log LogSpec.
From S2P Require Import Tsearch TsearchSpec TsearchInsert TsearchOps Gettext GettextSpec GettextDriver GettextTheorems.

Open Scope Z_scope.

(** The environment at a call, and the outcomes of its allocations. *)
Record moment := Moment { at_env : environment; at_known : bool; at_node : bool; at_mal : nat -> bool }.

(** The calls of a program, under the names of intl-compat.c. *)
Inductive api_call :=
| gettext (msgid : option cstr)
| dgettext (domainname msgid : option cstr)
| dcgettext (domainname msgid : option cstr) (category : Z)
| ngettext (msgid1 msgid2 : option cstr) (n : Z)
| dngettext (domainname msgid1 msgid2 : option cstr) (n : Z)
| dcngettext (domainname msgid1 msgid2 : option cstr) (n category : Z)
| textdomain (domainname : option cstr)
| bindtextdomain (domainname dirname : option cstr)
| bind_textdomain_codeset (domainname codeset : option cstr).

Inductive api_result `{!Converter} := Message (m : message) | Name (s : option cstr).
Arguments Message {_}.
Arguments Name {_}.

Section Entry.
Context `{PriMacros} `{AliasTable} `{!Converter, !SearchTable transcmp} (pf : platform) (dflt : cstr).

Definition libintl_dcgettext (e : moment) (w : world) (domainname msgid : option cstr) (category : Z) : load (message * world) :=
  DCIGETTEXT pf (at_env e) dflt (at_known e) (at_node e) w domainname msgid None false 0 category.

Definition libintl_dcngettext (e : moment) (w : world) (domainname msgid1 msgid2 : option cstr) (n category : Z)
    : load (message * world) :=
  DCIGETTEXT pf (at_env e) dflt (at_known e) (at_node e) w domainname msgid1 msgid2 true n category.

Definition libintl_dgettext (e : moment) (w : world) (domainname msgid : option cstr) : load (message * world) :=
  libintl_dcgettext e w domainname msgid LC_MESSAGES.

Definition libintl_gettext (e : moment) (w : world) (msgid : option cstr) : load (message * world) :=
  libintl_dcgettext e w None msgid LC_MESSAGES.

Definition libintl_dngettext (e : moment) (w : world) (domainname msgid1 msgid2 : option cstr) (n : Z) : load (message * world) :=
  libintl_dcngettext e w domainname msgid1 msgid2 n LC_MESSAGES.

Definition libintl_ngettext (e : moment) (w : world) (msgid1 msgid2 : option cstr) (n : Z) : load (message * world) :=
  libintl_dcngettext e w None msgid1 msgid2 n LC_MESSAGES.

(** The functions that change the bindings. *)
Definition on_bindings (f : state -> option cstr * state) (w : world) : load (api_result * world) :=
  let '(s, b) := f (w_bind w) in Ret (Name s, with_bind b w).

Definition message_of (r : load (message * world)) : load (api_result * world) := '(m, w) ← r; Ret (Message m, w).

Definition api (e : moment) (c : api_call) (w : world) : load (api_result * world) :=
  match c with
  | gettext msgid => message_of (libintl_gettext e w msgid)
  | dgettext domainname msgid => message_of (libintl_dgettext e w domainname msgid)
  | dcgettext domainname msgid category => message_of (libintl_dcgettext e w domainname msgid category)
  | ngettext msgid1 msgid2 n => message_of (libintl_ngettext e w msgid1 msgid2 n)
  | dngettext domainname msgid1 msgid2 n => message_of (libintl_dngettext e w domainname msgid1 msgid2 n)
  | dcngettext domainname msgid1 msgid2 n category => message_of (libintl_dcngettext e w domainname msgid1 msgid2 n category)
  | textdomain domainname => on_bindings (fun b => TEXTDOMAIN (at_mal e) b domainname) w
  | bindtextdomain domainname dirname => on_bindings (fun b => BINDTEXTDOMAIN dflt (at_mal e) b domainname dirname) w
  | bind_textdomain_codeset domainname codeset =>
      on_bindings (fun b => BIND_TEXTDOMAIN_CODESET dflt (at_mal e) b domainname codeset) w
  end.

(** A program. *)
Fixpoint run (p : list (moment * api_call)) (w : world) : load (list api_result * world) :=
  match p with
  | [] => Ret ([], w)
  | (e, c) :: p => '(r, w) ← api e c w; '(rs, w) ← run p w; Ret (r :: rs, w)
  end.
End Entry.

(** ** What the calls promise *)

(** The lookup that a call is: domain, messages, plural, number, category. *)
Definition request (c : api_call) : option (option cstr * option cstr * option cstr * bool * Z * Z) :=
  match c with
  | gettext msgid => Some (None, msgid, None, false, 0, LC_MESSAGES)
  | dgettext domainname msgid => Some (domainname, msgid, None, false, 0, LC_MESSAGES)
  | dcgettext domainname msgid category => Some (domainname, msgid, None, false, 0, category)
  | ngettext msgid1 msgid2 n => Some (None, msgid1, msgid2, true, n, LC_MESSAGES)
  | dngettext domainname msgid1 msgid2 n => Some (domainname, msgid1, msgid2, true, n, LC_MESSAGES)
  | dcngettext domainname msgid1 msgid2 n category => Some (domainname, msgid1, msgid2, true, n, category)
  | _ => None
  end.

Section Promise.
Context {PM : PriMacros} {AT : AliasTable} {CV : Converter} {CL : ConverterLaws} `{!SearchTable transcmp} `{!SearchTableLaws transcmp key_wf}.
Context (pf : platform) (dflt : cstr).

(** A program may ask for this. *)
Definition call_wf (e : moment) (c : api_call) : Prop :=
  match request c with
  | Some (domainname, msgid1, msgid2, plural, n, _) =>
      env_ok (at_env e) /\ lookups_defined pf n /\ wf_cstr (default [] domainname) /\ wf_cstr (default [] msgid1) /\
      loggable (at_env e) msgid2 plural
  | None =>
      match c with
      | textdomain name => wf_cstr (default [] name)
      | bindtextdomain name s | bind_textdomain_codeset name s => wf_cstr (default [] name) /\ wf_cstr (default [] s)
      | _ => True
      end
  end.

(** A message is the argument, or a pointer to the translation in a catalog that is loaded. *)
Definition message_ok (st : domains) (ts : cstate) (msgid1 msgid2 : option cstr) (plural : bool) (n : Z) (m : message) : Prop :=
  match msgid1 with
  | None => m = Original None
  | Some msgid1 =>
      m = untranslated msgid1 msgid2 plural n \/
      exists i p len enc, translation_in pf st ts i enc msgid1 (p, len) /\ delivered st ts plural n (i, (p, len)) m
  end.

Definition result_ok (st : domains) (ts : cstate) (c : api_call) (r : api_result) : Prop :=
  match request c, r with
  | Some (_, msgid1, msgid2, plural, n, _), Message m => message_ok st ts msgid1 msgid2 plural n m
  | None, Name _ => True
  | _, _ => False
  end.

Context (Hdef : wf_cstr dflt) (Hfs : files_readable pf).
Context (Ha : forall s v, _nl_expand_alias s = Some v -> wf_cstr v).

(** What was delivered stays what it is. *)
Lemma delivered_later st ts st' ts' plural n i enc msgid t m : stores_ok pf st ts -> later st ts st' ts' ->
  translation_in pf st ts i enc msgid t -> delivered st ts plural n (i, t) m -> delivered st' ts' plural n (i, t) m.
Proof using Type.
  intros [Hok _] [L Lt] (f & d & pl & bytes & Hf & Hi & Hd & _ & _ & Hl & Hs). unfold delivered, choose, plural_in. cbn [fst snd].
  rewrite (data_later pf st st' i d pl Hok L Hd), Hd, Hl. destruct pl as [pl np].
  by rewrite (shows_bytes _ _ _ _ Hs), (shows_bytes _ _ _ _ (shows_later _ _ _ _ _ Lt Hs)).
Qed.

Lemma result_later st ts st' ts' c r : stores_ok pf st ts -> later st ts st' ts' -> result_ok st ts c r -> result_ok st' ts' c r.
Proof using Type.
  intros Hok L. unfold result_ok, message_ok. destruct (request c) as [[[[[[d m1] m2] p] n] cat]|], r as [m|s]; try done.
  destruct m1 as [m1|]; [|done]. intros [?|(i & q & len & enc & Ht & Hdl)]; [by left|right]. exists i, q, len, enc. split.
  - exact (translation_later pf st ts st' ts' i enc m1 (q, len) (proj1 Hok) L Ht).
  - exact (delivered_later st ts st' ts' p n i enc m1 (q, len) m Hok L Ht Hdl).
Qed.

Definition world_later (w w' : world) : Prop := later (w_domains w) (w_texts w) (w_domains w') (w_texts w').

(** A lookup. *)
Lemma lookup_ok e w domainname msgid1 msgid2 plural n category :
  world_ok pf dflt w -> env_ok (at_env e) -> lookups_defined pf n -> wf_cstr (default [] domainname) -> wf_cstr (default [] msgid1) ->
  loggable (at_env e) msgid2 plural ->
  exists m w', DCIGETTEXT pf (at_env e) dflt (at_known e) (at_node e) w domainname msgid1 msgid2 plural n category = Ret (m, w') /\
    world_ok pf dflt w' /\ world_later w w' /\ message_ok (w_domains w') (w_texts w') msgid1 msgid2 plural n m.
Proof using Hdef Hfs Ha SearchTableLaws0.
  intros Hw He Hlk Hd Hm Hp. destruct msgid1 as [msgid1|]; [|exists (Original None), w; split_and!; [done|done|apply later_refl|done]].
  destruct (DCIGETTEXT_total pf (at_env e) dflt (at_known e) (at_node e) Hdef He Hfs Ha w domainname msgid1 msgid2 plural n category
    Hw Hlk Hd Hm Hp) as (m & w' & E & [Hw' _ L] & Hres).
  exists m, w'. split_and!; [done|done|done|]. cbn. destruct Hres as [(t & enc & _ & Ht & Hdl & ->)|Hs].
  - right. destruct t as [i [p len]]. by exists i, p, len, enc.
  - unfold searched in Hs. destruct (resolve_dirname _ _ _ _) as [dirname|]; [|left; apply Hs].
    destruct Hs as ([| |[i [p len]]] & Hans & Hdl); [left; apply Hdl..|]. right. eexists i, p, len, _. split; [|apply Hdl].
    exact (answer_in _ _ _ _ _ _ _ _ _ _ Hans).
Qed.

(** A change of the bindings. *)
Lemma bindings_ok w f : world_ok pf dflt w -> call pf dflt w (with_bind (f (w_bind w)).2 w) \/ (f (w_bind w)).2 = w_bind w ->
  exists r w', on_bindings f w = Ret (Name r, w') /\ world_ok pf dflt w' /\ world_later w w'.
Proof using Hdef Hfs Ha SearchTableLaws0.
  intros Hw Hc. unfold on_bindings. destruct (f (w_bind w)) as [r b] eqn:E. cbn [snd] in Hc. exists r. eexists. split; [done|]. split; [|apply later_refl].
  destruct Hc as [Hc| ->]; [by apply (GettextTheorems.call_ok pf dflt Hdef Hfs Ha w)|by destruct w].
Qed.

Lemma api_ok e c w : world_ok pf dflt w -> call_wf e c ->
  exists r w', api pf dflt e c w = Ret (r, w') /\ world_ok pf dflt w' /\ world_later w w' /\
    result_ok (w_domains w') (w_texts w') c r.
Proof using Hdef Hfs Ha SearchTableLaws0.
  intros Hw Hc.
  assert (Hmsg : forall domainname msgid1 msgid2 plural n category,
    request c = Some (domainname, msgid1, msgid2, plural, n, category) ->
    exists r w', message_of (DCIGETTEXT pf (at_env e) dflt (at_known e) (at_node e) w domainname msgid1 msgid2 plural n category) = Ret (r, w') /\
      world_ok pf dflt w' /\ world_later w w' /\ result_ok (w_domains w') (w_texts w') c r).
  { intros domainname msgid1 msgid2 plural n category E. unfold call_wf in Hc. rewrite E in Hc. destruct Hc as (He & Hlk & Hd & Hm & Hp).
    destruct (lookup_ok e w domainname msgid1 msgid2 plural n category Hw He Hlk Hd Hm Hp) as (m & w' & E' & Hw' & L & Hres).
    exists (Message m), w'. unfold message_of. rewrite E'. split_and!; [done..|]. unfold result_ok. by rewrite E. }
  assert (Hbind : forall f, request c = None ->
    call pf dflt w (with_bind (f (w_bind w)).2 w) \/ (f (w_bind w)).2 = w_bind w ->
    exists r w', on_bindings f w = Ret (r, w') /\ world_ok pf dflt w' /\ world_later w w' /\
      result_ok (w_domains w') (w_texts w') c r).
  { intros f E Hf. destruct (bindings_ok w f Hw Hf) as (r & w' & E' & Hw' & Hd). exists (Name r), w'. split_and!; [done..|]. unfold result_ok. by rewrite E. }
  destruct c as [m|d m|d m cat|m1 m2 n|d m1 m2 n|d m1 m2 n cat|name|name dir|name cod]; try (by apply Hmsg); apply Hbind; try done.
  - left. by apply CallTextdomain.
  - destruct Hc as [Hn Hd]. destruct name as [[|x name]|]; [by right| |by right]. destruct dir as [dir|].
    + left. by apply CallBind.
    + right. by destruct (query_spec dflt (at_mal e) (w_bind w) (x :: name) (wok_bind _ _ _ Hw) Hn ltac:(done)) as [-> _].
  - destruct Hc as [Hn Hd]. destruct name as [[|x name]|]; [by right| |by right]. destruct cod as [cod|].
    + left. by apply CallCodeset.
    + right. by destruct (query_spec dflt (at_mal e) (w_bind w) (x :: name) (wok_bind _ _ _ Hw) Hn ltac:(done)) as [_ ->].
Qed.

Lemma run_ok p w : world_ok pf dflt w -> Forall (fun x => call_wf x.1 x.2) p ->
  exists rs w', run pf dflt p w = Ret (rs, w') /\ world_ok pf dflt w' /\ world_later w w' /\
    Forall2 (fun x r => result_ok (w_domains w') (w_texts w') x.2 r) p rs.
Proof using Hdef Hfs Ha SearchTableLaws0.
  intros Hw Hp. revert w Hw. induction Hp as [|[e c] p Hc Hp IH]; intros w Hw.
  - exists [], w. split_and!; [done|done|apply later_refl|constructor].
  - destruct (api_ok e c w Hw Hc) as (r & w1 & E1 & Hw1 & L1 & Hr). destruct (IH w1 Hw1) as (rs & w' & E' & Hw' & L' & Hrs).
    exists (r :: rs), w'. cbn [run]. rewrite E1. cbn [mbind load_bind]. rewrite E'. cbn [mbind load_bind].
    split_and!; [done|done|by eapply later_trans|]. constructor; [|done]. cbn.
    by apply (result_later (w_domains w1) (w_texts w1)); [apply Hw1| |].
Qed.
End Promise.

(** C8. Programs work.  Whatever sequence of calls of gettext(), ngettext(), textdomain(), bindtextdomain() and the others a
    program makes from the start, each in its own environment and with any failures of
    malloc(), every call returns, if the loader returns for every catalog file ([files_readable]), lookups in the loaded catalogs return ([lookups_defined]: searchable tables and formulas
    that do not divide by zero, [lookups_of_catalogs]), and in each call ([call_wf]) a log file can be opened (else the program crashes, log.c:88) and a plural without a second message is not logged; every message is the argument by the Germanic plural rule, or a pointer to the translation
    in a catalog, in its plural form, and at the end of the program all these pointers are still
    valid and show the same translations. *)
Theorem every_program_works {PM : PriMacros} {AT : AliasTable} {CV : Converter} {CL : ConverterLaws} `{!SearchTable transcmp} `{!SearchTableLaws transcmp key_wf}
    (pf : platform) (dflt : cstr) (disk : gmap cstr (list Z)) (p : list (moment * api_call)) :
  wf_cstr dflt -> files_readable pf -> (forall s v, _nl_expand_alias s = Some v -> wf_cstr v) ->
  Forall (fun x => call_wf pf x.1 x.2) p ->
  exists rs w, run pf dflt p (initial disk) = Ret (rs, w) /\ world_ok pf dflt w /\
    Forall2 (fun x r => result_ok pf (w_domains w) (w_texts w) x.2 r) p rs.
Proof.
  intros Hdef Hfs Ha Hp. destruct (run_ok pf dflt Hdef Hfs Ha p (initial disk) (initial_ok pf dflt disk) Hp) as (rs & w & E & Hw & _ & Hrs).
  by exists rs, w.
Qed.

(** Setting the domain is naming it in the call: after textdomain() with a name, gettext() and ngettext() do what dgettext()
    and dngettext() do with that name, and if textdomain() fails, with the old one. *)
Theorem textdomain_then_gettext {PM : PriMacros} {AT : AliasTable} {CV : Converter} {CL : ConverterLaws} `{!SearchTable transcmp} `{!SearchTableLaws transcmp key_wf}
    (pf : platform) (dflt : cstr) (e e' : moment) (w : world) (name : cstr) :
  world_ok pf dflt w -> wf_cstr name -> name <> [] ->
  exists r w', api pf dflt e (textdomain (Some name)) w = Ret (Name r, w') /\
    let d := match r with Some _ => name | None => dom_str (current_domain (w_bind w)) end in
    forall m1 m2 n, api pf dflt e' (gettext m1) w' = api pf dflt e' (dgettext (Some d) m1) w' /\
      api pf dflt e' (ngettext m1 m2 n) w' = api pf dflt e' (dngettext (Some d) m1 m2 n) w'.
Proof.
  intros Hw Hn Hne. pose proof (textdomain_spec dflt (at_mal e) (w_bind w) (Some name) (wok_bind _ _ _ Hw)) as H. cbn [api].
  unfold on_bindings. destruct (TEXTDOMAIN (at_mal e) (w_bind w) (Some name)) as [r b]. exists r. eexists. split; [done|].
  cbn zeta. assert (Hd : match r with Some _ => name | None => dom_str (current_domain (w_bind w)) end = dom_str (current_domain b)).
  { destruct H as (_ & _ & H). destruct r as [s|].
    - destruct H as (Hs & _ & H). specialize (H Hn (wok_domain _ _ _ Hw)). rewrite decide_False in H by done. congruence.
    - by destruct H as (_ & -> & _). }
  rewrite Hd. intros m1 m2 n.
  assert (Heq : forall m1 m2 pl n, DCIGETTEXT pf (at_env e') dflt (at_known e') (at_node e') (with_bind b w) None m1 m2 pl n LC_MESSAGES =
    DCIGETTEXT pf (at_env e') dflt (at_known e') (at_node e') (with_bind b w) (Some (dom_str (current_domain b))) m1 m2 pl n LC_MESSAGES).
  { intros [?|] ? ? ?; done. }
  unfold api, libintl_gettext, libintl_ngettext, libintl_dgettext, libintl_dngettext, libintl_dcgettext, libintl_dcngettext.
  by rewrite !Heq.
Qed.

(** ** An example *)

#[local] Existing Instance sample_macros.
#[local] Existing Instance sample_alias.

Definition sample_moment (mal : bool) : moment := Moment sample_env mal mal (fun _ => mal).

(** The domain is named, a message is asked for twice, once without memory, and once in the plural. *)
Definition sample_program : list (moment * api_call) :=
  [(sample_moment true, textdomain (Some (cs "a")));
   (sample_moment false, gettext (Some (cs "hello")));
   (sample_moment true, ngettext (Some (cs "hello")) (Some (cs "hellos")) 2);
   (sample_moment true, gettext None)].

Lemma every_program_works_witness : exists rs w, run sample_platform (cs "/l") sample_program (initial ∅) = Ret (rs, w) /\
  match rs with [Name _; Message _; Message _; Message m] => m = Original None | _ => False end.
Proof.
  destruct (every_program_works sample_platform (cs "/l") ∅ sample_program) as (rs & w & E & _ & H).
  - apply (bool_decide_unpack _). vm_compute. reflexivity.
  - exact sample_readable.
  - exact sample_alias_wf.
  - apply Forall_cons_2; [|apply Forall_cons_2; [|apply Forall_cons_2; [|apply Forall_cons_2; [|apply Forall_nil_2]]]];
      unfold call_wf; cbn [request fst snd sample_moment at_env];
      try (split_and!; [exact sample_env_ok|exact (sample_lookups _)|..]); apply (bool_decide_unpack _); vm_compute; reflexivity.
  - exists rs, w. split; [exact E|].
    apply Forall2_cons_inv_l in H as (r1 & rs1 & H1 & H & ->). apply Forall2_cons_inv_l in H as (r2 & rs2 & H2 & H & ->).
    apply Forall2_cons_inv_l in H as (r3 & rs3 & H3 & H & ->). apply Forall2_cons_inv_l in H as (r4 & rs4 & H4 & H & ->).
    apply Forall2_nil_inv_l in H as ->.
    destruct r1 as [?|?]; [destruct H1|]. destruct r2 as [?|?]; [|destruct H2]. destruct r3 as [?|?]; [|destruct H3].
    destruct r4 as [m4|?]; [exact H4|destruct H4].
Defined.

Lemma textdomain_then_gettext_witness :
  exists r w', api sample_platform (cs "/l") (sample_moment true) (textdomain (Some (cs "a"))) sample_world = Ret (Name r, w') /\
    api sample_platform (cs "/l") (sample_moment true) (gettext (Some (cs "hello"))) w' =
    api sample_platform (cs "/l") (sample_moment true)
      (dgettext (Some (match r with Some _ => cs "a" | None => cs "messages" end)) (Some (cs "hello"))) w'.
Proof.
  destruct (textdomain_then_gettext sample_platform (cs "/l") (sample_moment true) (sample_moment true) sample_world (cs "a"))
    as (r & w' & E & H).
  - exact sample_world_ok.
  - apply (bool_decide_unpack _). vm_compute. reflexivity.
  - discriminate.
  - exists r, w'. split; [exact E|]. exact (proj1 (H (Some (cs "hello")) None 0)).
Defined.
