(* ===== verification/GettextConvert.v ===== *)
(** * The driver with iconv()

    The translation driver over the converter of ConvertDriver: gettext() returns what iconv()
    makes of the translation in the catalog.  All theorems of GettextTheorems and Entry hold for it. *)

From S2P Require Import Prelude SearchTable HashString PluralExp PluralParse PluralExtract Catalog CatalogSpec CatalogFind CatalogLoad.
From S2P Require Import LocaleName L10nFlist L10nFlistSpec FindDomain FindDomainSpec Bindings BindingsSpec Log LogSpec.
From S2P Require Import Convert Converter ConvertSpec ConvertTheorems ConvertDriver.
From S2P Require Import Tsearch TsearchSpec TsearchInsert TsearchOps Gettext GettextSpec GettextDriver GettextTheorems Entry.

Open Scope Z_scope.

(** The outcomes of the allocations for converted strings, and what new memory contains. *)
Class ConversionMemory := {
  memory_mal : nat -> bool;
  memory_contents : nat -> nat -> Z
}.

#[local] Instance converter_of `{IConv, ConversionMemory} : Converter | 0 := iconv_converter memory_mal memory_contents.
#[local] Instance converter_laws_of `{IConvLaws, ConversionMemory} : ConverterLaws | 0 :=
  iconv_converter_laws memory_mal memory_contents.

(** The bytes [input] of a translation of [d] in the encoding [encoding]. *)
Definition in_encoding `{IConvLaws} (d : loaded_domain) (encoding : cstr) (input bytes : list Z) : Prop :=
  exists o, conversion_for d encoding o /\
    match o with None => bytes = input | Some cd => iconv_meaning cd input = Some bytes end.

(** The encoding that a call asks for: the codeset of the binding of the domain; else the value that OUTPUT_CHARSET had when it was first
    looked at, if it is not empty and there was memory for its copy; else the character set of the locale. *)
Section Wanted.
Context (mal : nat -> bool) (b : state) (domain : cstr) (ce : charset_env) (oc : output_charset).

Definition codeset_bound (c : cstr) : Prop := exists bd, bd ∈ bindings b /\ domainname bd = domain /\ codeset bd = Some c.

(** A value that is looked at now. *)
Definition new_value (value : cstr) : Prop :=
  output_charset_cached oc = false /\ ce_OUTPUT_CHARSET ce = Some value /\ value <> [].

Inductive wanted_encoding : cstr -> Prop :=
  | of_binding c : codeset_bound c -> wanted_encoding c
  | of_variable value : (forall c, ~ codeset_bound c) -> new_value value -> wanted_encoding value
  | of_old_value value : (forall c, ~ codeset_bound c) -> (forall value', ~ new_value value') ->
      output_charset_cache oc = Some value -> wanted_encoding value
  | of_locale : (forall c, ~ codeset_bound c) -> (forall value', ~ new_value value') -> output_charset_cache oc = None ->
      wanted_encoding (ce_locale_charset ce)
  | of_locale_no_memory value : (forall c, ~ codeset_bound c) -> new_value value -> (exists k, mal k = false) ->
      wanted_encoding (ce_locale_charset ce).
End Wanted.

Lemma encoding_wanted `{IConv} mal b domain ce (s : iconv_state) : list_ok (bindings b) -> wf_cstr domain ->
  wanted_encoding mal b domain ce (is_charset s) (iconv_encoding mal ce (binding_codeset b domain) s).
Proof.
  intros Hb Hd. unfold iconv_encoding, charset_for, get_output_charset, binding_codeset.
  assert (Hiff : forall c, codeset_bound b domain c <-> find_binding (bindings b) domain ≫= codeset = Some c).
  { intros c. split.
    - intros (bd & Hin & Hn & Hc). rewrite (proj2 (find_binding_iff _ _ bd Hb Hd)) by done. exact Hc.
    - destruct (find_binding (bindings b) domain) as [bd|] eqn:E; [|done]. intros Hc. exists bd.
      apply find_binding_iff in E as [Hin Hn]; done. }
  destruct (find_binding (bindings b) domain ≫= codeset) as [c|]; [by apply of_binding, Hiff|].
  assert (Hno : forall c, ~ codeset_bound b domain c) by (intros c Hc; by apply Hiff in Hc). clear Hiff.
  destruct (output_charset_cached (is_charset s)) eqn:Ec; cbn [fst].
  - assert (Hnew : forall value, ~ new_value ce (is_charset s) value) by (intros value (? & _); congruence).
    destruct (output_charset_cache (is_charset s)) eqn:Eo; [by apply of_old_value|by apply of_locale].
  - destruct (ce_OUTPUT_CHARSET ce) as [[|x v]|] eqn:Ev; cbn [output_charset_cache].
    1, 3: assert (Hnew : forall value, ~ new_value ce (is_charset s) value)
        by (intros value (_ & Hv & Hne); rewrite Ev in Hv; by injection Hv as <- || done);
      destruct (output_charset_cache (is_charset s)) eqn:Eo; [by apply of_old_value|by apply of_locale].
    assert (Hnew : new_value ce (is_charset s) (x :: v)) by done.
    destruct (mal (tm_allocs (is_mem s))) eqn:Em; [by apply of_variable|]. eapply of_locale_no_memory; [done|exact Hnew|by eexists].
Qed.

Lemma converted_text_inv `{IConvLaws} d encoding msgid bytes : converted_text d encoding msgid = Some bytes ->
  exists p len input, find_msg d msgid = Ret (Some (p, len)) /\ bytes_of d p len = Ret input /\ in_encoding d encoding input bytes.
Proof.
  unfold converted_text, find_msg. destruct (find_act d msgid) as [[act|]| | |]; [|done..]. cbn [mbind load_bind].
  destruct (translation d act) as [[p len]| | |]; [|done..]. destruct (bytes_of d p len) as [input| | |] eqn:Eb; [|done..].
  destruct (open_conversion d encoding) as [o| | |] eqn:Eo; [|by destruct (bytes_of d p len)..].
  intros Hbytes. exists p, len, input. split_and!; [done..|]. exists o. split; [by apply open_conversion_for|].
  destruct o; [done|by injection Hbytes].
Qed.

(** The string at [p] is the translation of [msgid] in a loaded catalog, in the encoding [enc]. *)
Definition converted_in `{ICL : IConvLaws} `{!ConversionMemory} (st : domains) (ts : iconv_state) (enc msgid : cstr)
    (i : nat) (p : iconv_text) (len : Z) : Prop :=
  exists d src srclen input bytes, loaded st i = Some d /\
    find_msg d msgid = Ret (Some (src, srclen)) /\ bytes_of d src srclen = Ret input /\
    in_encoding d enc input bytes /\ len = Z.of_nat (length bytes) /\ text_bytes ts d p len = Ret bytes.

Lemma translation_converted `{ICL : IConvLaws} `{!ConversionMemory} {PM : PriMacros} pf st ts i enc msgid p len :
  translation_in pf st ts i enc msgid (p, len) -> converted_in st ts enc msgid i p len.
Proof.
  intros (f & d & pl & bytes & _ & _ & Hd & _ & He & Hl & Hs). cbn [fst snd] in Hl, Hs.
  apply converted_text_inv in He as (src & srclen & input & Hf & Hb & Hin).
  exists d, src, srclen, input, bytes. split_and!; [by unfold loaded; rewrite Hd|done..|]. rewrite Hl. exact (shows_bytes _ _ _ _ Hs).
Qed.

(** C5. gettext() with conversion, by an iconv() whose encodings have no shift states: in every state with the invariant, as all are that a program can reach, and under the conditions of [DCIGETTEXT_correct], the call
    returns; and if it does not return its argument, the string at the returned pointer is what iconv() makes of
    the bytes of the translation in a loaded catalog, from the character set that the catalog names, with transliteration; or these bytes, if the catalog does
    not say its character set or there is no conversion.  Unless the message was in the cache, the encoding is the codeset that is bound to the domain, else the value of OUTPUT_CHARSET,
    else the character set of the locale. *)
Theorem gettext_converted `{ICL : IConvLaws} {MO : ConversionMemory} {PM : PriMacros} {AT : AliasTable}
    `{!SearchTable transcmp} `{!SearchTableLaws transcmp key_wf}
    (pf : platform) (dflt : cstr) (e : moment) (w : world) (msgid : cstr)
    (Hdef : wf_cstr dflt) (Henv : env_ok (at_env e)) (Hfs : files_readable pf)
    (Ha : forall s v, _nl_expand_alias s = Some v -> wf_cstr v)
    (Hw : world_ok pf dflt w) (Hlk : lookups_defined pf 0) (Hm : wf_cstr msgid) :
  let domain := dom_str (current_domain (w_bind w)) in
  exists m w', libintl_gettext pf dflt e w (Some msgid) = Ret (m, w') /\ world_ok pf dflt w' /\
    match m with
    | Original s => s = Some msgid
    | Translated i p off => off = 0%nat /\
        exists enc len, converted_in (w_domains w') (w_texts w') enc msgid i p len /\
          (cached (at_env e) w domain msgid LC_MESSAGES (i, (p, len)) \/
           wanted_encoding memory_mal (w_bind w) domain (env_charset (at_env e)) (is_charset (w_texts w)) enc)
    end.
Proof.
  intros domain. assert (Hp : loggable (at_env e) None false) by done.
  destruct (DCIGETTEXT_total pf (at_env e) dflt (at_known e) (at_node e) Hdef Henv Hfs Ha w None msgid None false 0 LC_MESSAGES
    Hw Hlk (Forall_nil_2 _) Hm Hp) as (m & w' & E & [Hok _ _] & Hres).
  exists m, w'. split; [exact E|]. split; [done|]. cbn [default] in Hres. fold domain in Hres.
  assert (Horig : m = untranslated msgid None false 0 -> match m with
    | Original s => s = Some msgid
    | Translated _ _ _ => False end) by by intros ->.
  destruct Hres as [([i [p len]] & enc & Hc & Ht & Hdl & ->)|Hs].
  - injection Hdl as <-. split; [done|]. exists enc, len. split; [by apply (translation_converted pf)|by left].
  - destruct m as [s|i p off].
    + unfold searched in Hs. destruct (resolve_dirname _ _ _ _) as [dirname|]; [|by apply Horig, Hs].
      destruct Hs as ([| |[i [p len]]] & _ & Hdl); [by apply Horig, Hdl..|]. by destruct Hdl.
    + destruct (searched_translated _ _ _ _ _ _ _ _ _ _ _ _ _ _ Hs) as (len & Ht & Hdl). injection Hdl as <-. split; [done|].
      eexists _, len. split; [by apply (translation_converted pf)|]. right.
      apply encoding_wanted; [apply (wok_bind _ _ _ Hw)|apply Hw].
Qed.

(** C23. A new output codeset takes effect at once, with an iconv() whose encodings have no shift states: after a [bind_textdomain_codeset] that changes the
    codeset of a domain, no translation of the domain is taken from the cache, and the string that the next call delivers is, if it is not the
    argument, the translation of a loaded catalog in the new codeset. *)
Theorem codeset_takes_effect `{ICL : IConvLaws} {MO : ConversionMemory} {PM : PriMacros} {AT : AliasTable} `{!SearchTable transcmp}
    `{!SearchTableLaws transcmp key_wf} (pf : platform) (env : environment) (dflt : cstr) (mal_known mal_node : bool)
    (mal : nat -> bool) (w : world) (b : state) (name cod msgid1 : cstr)
    (msgid2 : option cstr) (plural : bool) (n category : Z)
    (Hdef : wf_cstr dflt) (Henv : env_ok env) (Hfs : files_readable pf)
    (Ha : forall s v, _nl_expand_alias s = Some v -> wf_cstr v)
    (Hw : world_ok pf dflt w) (Hlk : lookups_defined pf n) (Hm : wf_cstr msgid1) (Hp : loggable env msgid2 plural)
    (Hn : wf_cstr name) (Hne : name <> []) (Hwc : wf_cstr cod)
    (Hb : BIND_TEXTDOMAIN_CODESET dflt mal (w_bind w) (Some name) (Some cod) = (Some cod, b))
    (Hnew : ~ codeset_bound (w_bind w) name cod) :
  (forall t, ~ cached env (with_bind b w) name msgid1 category t) /\
  exists m w', DCIGETTEXT pf env dflt mal_known mal_node (with_bind b w) (Some name) (Some msgid1)
      msgid2 plural n category = Ret (m, w') /\
    match m with
    | Original _ => m = untranslated msgid1 msgid2 plural n
    | Translated i p off => exists len, converted_in (w_domains w') (w_texts w') cod msgid1 i p len /\
        delivered (w_domains w') (w_texts w') plural n (i, (p, len)) m
    end.
Proof.
  destruct (codeset_searched pf env dflt mal_known mal_node mal w b name cod msgid1 msgid2 plural n category
    Hdef Henv Hfs Ha Hw Hlk Hm Hp Hn Hne Hwc Hb) as (Hfresh & Hcod & m & w' & E & _ & Hs).
  { intros E. apply Hnew. unfold binding_codeset in E. destruct (find_binding _ _) as [bd|] eqn:Ef; [|done].
    apply find_binding_Some in Ef as [Hin Hbd]; [by exists bd|apply (wok_bind _ _ _ Hw)|done]. }
  split; [done|]. exists m, w'. split; [done|]. destruct m as [s|i p off].
  - unfold searched in Hs. destruct (resolve_dirname _ _ _ _) as [dirname|]; [|by apply Hs].
    destruct Hs as ([| |[i [p len]]] & _ & Hdl); [by apply Hdl..|]. destruct Hdl as [Hdl _].
    unfold delivered, choose, plural_in in Hdl. destruct plural; [|done]. destruct (df_data _) as [[d [pl np]]|]; [|done].
    apply lbind_ret in Hdl as (x & _ & Hdl). by apply lbind_ret in Hdl as (o & _ & Hdl).
  - destruct (searched_translated _ _ _ _ _ _ _ _ _ _ _ _ _ _ Hs) as (len & Ht & Hdl). exists len. split; [|done].
    unfold call_encoding in Ht. cbn [w_bind with_bind] in Ht. rewrite Hcod in Ht. by apply (translation_converted pf).
Qed.

(** ** An example: a French catalog in ISO-8859-1, a locale in UTF-8 *)

#[local] Existing Instance sample_macros.
#[local] Existing Instance sample_alias.
#[local] Existing Instance sample_iconv.
#[local] Existing Instance sample_iconv_laws.
#[local] Instance sample_memory : ConversionMemory := {| memory_mal := fun _ => true; memory_contents := zeros_everywhere |}.

Definition latin1_path : cstr := cs "/l/fr/LC_MESSAGES/messages.mo".
Definition latin1_platform : platform :=
  Platform (fun name => if decide (name = latin1_path) then FileIo true (Some 112) None true [ReadBytes latin1_mo] else no_io)
    (fun _ _ => true) (fun _ => true) true true (fun _ => true) (fun _ => true) (fun _ => true).

Lemma latin1_files_readable : files_readable latin1_platform.
Proof. intros name. simpl. destruct (decide (name = latin1_path)); eexists; vm_compute; reflexivity. Qed.

Lemma latin1_catalog f d pl : catalog_of latin1_platform f d pl -> d = latin1_domain /\ pl = (Some GERMANIC_PLURAL, 2).
Proof.
  intros (dat & H1 & H2 & H3). simpl in H1. destruct (decide (filename f = latin1_path)); [|discriminate H1].
  revert H1. vm_compute fetch_file. intros [= <-]. revert H2. vm_compute load_catalog. intros [= <-].
  split; [reflexivity|]. revert H3. vm_compute load_plural. by intros [= <-].
Qed.

Lemma latin1_find msgid : wf_cstr msgid ->
  (msgid = [] /\ find_act latin1_domain msgid = Ret (Some 0)) \/ (msgid = cs "coffee" /\ find_act latin1_domain msgid = Ret (Some 1)) \/
  find_act latin1_domain msgid = Ret None.
Proof.
  intros Hw. rewrite (find_act_spec latin1_domain latin1_ids msgid latin1_represents latin1_searchable Hw).
  destruct (decide (msgid ∈ latin1_ids)) as [Hin|Hni]; [|right; right; by rewrite index_of_None].
  apply elem_of_cons in Hin as [->|Hin]; [by left|]. apply list_elem_of_singleton in Hin as ->. by right; left.
Qed.

Lemma latin1_lookups n : lookups_defined latin1_platform n.
Proof.
  intros f d pl Hc. apply latin1_catalog in Hc as [-> ->]. split.
  - split; [exact latin1_readable| |intros; apply latin1_fits]. intros msgid p len Hw. unfold find_msg.
    destruct (latin1_find msgid Hw) as [[-> ->]|[[-> ->]| ->]]; [vm_compute; by intros [= <- <-]..|done].
  - intros enc msgid bytes _ Hw. change (expected ?d enc msgid) with (converted_text d enc msgid). unfold converted_text.
    destruct (latin1_find msgid Hw) as [[-> ->]|[[-> ->]| ->]]; [..|done];
      cbv beta iota delta [fst snd plural_lookup]; rewrite germanic_eval;
      match goal with |- context [translation latin1_domain ?a] => vm_compute (translation latin1_domain a) end; cbv beta iota;
      match goal with |- context [bytes_of latin1_domain ?p ?l] => vm_compute (bytes_of latin1_domain p l) end; cbv beta iota;
      (destruct (open_conversion latin1_domain enc) as [[cd|]| | |]; [intros [= <-]|intros [= <-]|done..]);
      destruct (n =? 1); eexists; vm_compute; reflexivity.
Qed.

Definition latin1_world : world := initial ∅.

(** The locale has the character set of the catalog. *)
Definition latin1_env : environment :=
  Environment (Some (cs "de_DE")) None (cs "C") (Some (cs "de:french")) None (Some (cs "/home")) false
    (CharsetEnv None (cs "ISO-8859-1")) None true (fun _ => true).

Lemma latin1_env_ok : env_ok latin1_env.
Proof. split; [apply (bool_decide_unpack _); vm_compute; reflexivity..|done]. Qed.

Definition latin1_moment : moment := Moment latin1_env true true (fun _ => true).

Lemma latin1_dir_wf : wf_cstr (cs "/l").
Proof. apply (bool_decide_unpack _). vm_compute. reflexivity. Qed.

Lemma messages_wf : wf_cstr (cs "messages") /\ wf_cstr (cs "UTF-8").
Proof. split; apply (bool_decide_unpack _); vm_compute; reflexivity. Qed.

Lemma latin1_world_ok : world_ok latin1_platform (cs "/l") latin1_world.
Proof. apply initial_ok. Qed.

(** The domain is bound to the codeset UTF-8. *)
Definition bound_to_utf8 (w : world) : option cstr * state :=
  BIND_TEXTDOMAIN_CODESET (cs "/l") (fun _ => true) (w_bind w) (Some (cs "messages")) (Some (cs "UTF-8")).

Lemma bound_to_utf8_ok w : world_ok latin1_platform (cs "/l") w ->
  world_ok latin1_platform (cs "/l") (with_bind (bound_to_utf8 w).2 w).
Proof.
  intros Hw. pose proof (bind_codeset_spec (cs "/l") (fun _ => true) latin1_dir_wf (w_bind w) (cs "messages") (cs "UTF-8")
    (wok_bind _ _ _ Hw) (proj1 messages_wf) ltac:(done) (proj2 messages_wf)) as H.
  fold (bound_to_utf8 w) in H. destruct (bound_to_utf8 w) as [r b].
  destruct H as [[_ H]|(_ & H & _)]; cbn [snd]; by eapply rebinds_ok.
Qed.

(** The first [n] bytes of the string that a call returns. *)
Definition text_of (n : Z) (r : load (message * world)) : option (list Z) :=
  match r with
  | Ret (Translated i p _, w) =>
      match df_data (get_df (w_domains w) i) with
      | Some (d, _) => match text_bytes (w_texts w) d p n with Ret l => Some l | _ => None end
      | None => None
      end
  | _ => None
  end.

(** The translation has an e with an acute accent: one byte in the catalog, two for a domain that is bound to UTF-8. *)
Definition cafe_utf8 : list Z := cs "caf" ++ [195; 169; 0].

Lemma gettext_converted_witness : let w0 := with_bind (bound_to_utf8 latin1_world).2 latin1_world in
  exists m w, libintl_gettext latin1_platform (cs "/l") latin1_moment w0 (Some (cs "coffee")) = Ret (m, w) /\
    world_ok latin1_platform (cs "/l") w /\ text_of 6 (Ret (m, w)) = Some cafe_utf8.
Proof.
  cbn zeta. destruct (gettext_converted latin1_platform (cs "/l") latin1_moment
    (with_bind (bound_to_utf8 latin1_world).2 latin1_world) (cs "coffee")) as (m & w & E & Hw & _).
  - exact latin1_dir_wf.
  - exact latin1_env_ok.
  - exact latin1_files_readable.
  - exact sample_alias_wf.
  - exact (bound_to_utf8_ok _ latin1_world_ok).
  - exact (latin1_lookups 0).
  - apply (bool_decide_unpack _). vm_compute. reflexivity.
  - exists m, w. split; [exact E|]. split; [exact Hw|]. rewrite <- E. vm_compute. reflexivity.
Defined.

(** A call, in the encoding of the catalog; then the codeset is changed. *)
Definition latin1_call_in (env : environment) (w : world) : load (message * world) :=
  DCIGETTEXT latin1_platform env (cs "/l") true true w (Some (cs "messages")) (Some (cs "coffee")) None false 0 LC_MESSAGES.

Definition after (r : load (message * world)) : world := match r with Ret (_, w) => w | _ => latin1_world end.

Definition latin1_world' : world := after (latin1_call_in latin1_env latin1_world).

Lemma latin1_world_ok' : world_ok latin1_platform (cs "/l") latin1_world'.
Proof.
  destruct (DCIGETTEXT_total latin1_platform latin1_env (cs "/l") true true latin1_dir_wf latin1_env_ok latin1_files_readable
    sample_alias_wf latin1_world (Some (cs "messages")) (cs "coffee") None false 0 LC_MESSAGES latin1_world_ok (latin1_lookups 0)
    (proj1 messages_wf) (proj2 utf8_wf)) as (m & w & E & [Hw _ _] & _); [done|].
  unfold latin1_world', latin1_call_in. by rewrite E.
Qed.

Lemma codeset_takes_effect_witness :
  exists m w, latin1_call_in latin1_env (with_bind (bound_to_utf8 latin1_world').2 latin1_world') = Ret (m, w) /\
    text_of 6 (Ret (m, w)) = Some cafe_utf8.
Proof.
  destruct (codeset_takes_effect latin1_platform latin1_env (cs "/l") true true (fun _ => true) latin1_world'
    (bound_to_utf8 latin1_world').2 (cs "messages") (cs "UTF-8") (cs "coffee") None false 0 LC_MESSAGES) as (_ & m & w & E & _).
  - exact latin1_dir_wf.
  - exact latin1_env_ok.
  - exact latin1_files_readable.
  - exact sample_alias_wf.
  - exact latin1_world_ok'.
  - exact (latin1_lookups 0).
  - exact (proj2 utf8_wf).
  - discriminate.
  - exact (proj1 messages_wf).
  - discriminate.
  - exact (proj2 messages_wf).
  - vm_compute. reflexivity.
  - intros (bd & Hin & _). vm_compute in Hin. by apply not_elem_of_nil in Hin.
  - exists m, w. split; [exact E|]. unfold latin1_call_in in E. rewrite <- E. vm_compute. reflexivity.
Defined.

(** When the character set of the locale changes, the translation is delivered again as it was. *)
Definition utf8_env : environment :=
  Environment (Some (cs "de_DE")) None (cs "C") (Some (cs "de:french")) None (Some (cs "/home")) false
    (CharsetEnv None (cs "UTF-8")) None true (fun _ => true).

Lemma old_charset_again :
  text_of 6 (latin1_call_in utf8_env latin1_world) = Some cafe_utf8 /\
  text_of 5 (latin1_call_in latin1_env latin1_world) = Some (cs "caf" ++ [233; 0]) /\
  text_of 5 (latin1_call_in utf8_env latin1_world') = Some (cs "caf" ++ [233; 0]).
Proof. split_and!; vm_compute; reflexivity. Qed.
